(* ===== verification/_CoqProject ===== *)
-Q . S2P
Prelude.v
Checksums.v
Part.v
SeekWindow.v
RequestRange.v
MemLimiter.v
Backpressure.v
PartQueue.v
PartStream.v
Prefetch.v
DataCache.v
CachingStream.v
Pool.v
BlockFormat.v
ClientChecksums.v
LinkedHashMap.v
DiskCache.v
DiskCacheSpec.v
Upload.v
AppendUpload.v
AppendUploadSpec.v
ExpressCache.v
HandlesMap.v
NegativeCache.v
Path.v
S3Path.v
Inode.v
Superblock.v
SuperblockInv.v
Readdir.v
ReaddirInv.v
SuperblockConc.v
SuperblockOps.v
FileHandles.v
FileHandlesSpec.v
Filesystem.v
FilesystemSpec.v
ReaddirSpec.v
ReaddirPages.v
MockClient.v
MockListing.v
MockSpec.v
CrtHttp.v
CrtClient.v
CrtRequests.v
CrtStream.v
CrtExample.v
CrtSpec.v
CrtListing.v
Manifest.v
ManifestSpec.v
ManifestReaddir.v
FuseAbi.v
FuseRequest.v
FuseReply.v
FuseDispatch.v
FuseFs.v
FuseWire.v
FuseSpec.v
FuseDir.v
FuseFsSpec.v
FuseMount.v
WorkerPool.v
