(* ===== verification/Prelude.v ===== *)
(** * Verification of Mountpoint for Amazon S3

    Mountpoint for Amazon S3 is a FUSE file system over an S3 bucket.  This
    library models the crate [mountpoint-s3-fs]: how file reads become S3
    requests and come back as the right bytes, within a memory budget, how the
    tree of inodes is kept in step with the bucket, and how written files are
    uploaded; and the two crates at its ends, the FUSE library that speaks to the
    kernel and the S3 client.  Paths below are relative to
    [src/mountpoint-s3-fs/src/] unless they name another crate.

    ** The program and its models

    The _read path_.  Each open file handle has a [PrefetchGetObject]
    ([prefetch.rs]).  A read that continues, or seeks a little, is served from a
    running request or from the backward seek window; any other read starts a new
    request.  A request is a task ([prefetch/task.rs]) whose part stream runs
    concurrently and fills a part queue ([prefetch/part_queue.rs]).  The part
    stream either asks the S3 client ([prefetch/part_stream.rs]) or first looks
    into a data cache ([prefetch/caching_stream.rs], [data_cache.rs]).  How far the
    stream may run ahead is decided by the backpressure controller
    ([prefetch/backpressure_controller.rs]) within what the memory limiter grants
    ([mem_limiter.rs]).  The data travels in checksummed buffers
    ([checksums.rs]), whose memory comes from a paged pool ([memory/]).

    - [Prelude] (this file): outcomes of fallible code, the [let!], [let?] and
      [assert!] notations, 64-bit arithmetic, slices, shared tactics and lemmas.
    - [Checksums]: [ChecksummedBytes] of [checksums.rs].  The CRC32C functions are
      the class [Crc32c], with the laws the code relies on in [Crc32cLaws].
    - [Part], [SeekWindow], [RequestRange]: [object.rs], [prefetch/part.rs],
      [prefetch/seek_window.rs], and the range arithmetic of
      [prefetch/part_stream.rs].
    - [MemLimiter]: [mem_limiter.rs] and [memory/stats.rs], sequentially and as an
      interleaving of the loads and exchanges of its compare-and-swap loop.
    - [Backpressure]: controller, limiter and the channel of increments between
      them; the protocol of reader and stream as a step relation.
    - [PartQueue]: [prefetch/part_queue.rs] and [prefetch/task.rs].
    - [PartStream]: the [ObjectPartStream] interface and [ClientPartStream].
    - [Prefetch]: [PrefetchGetObject], proved against the part stream interface.
    - [DataCache], [CachingStream]: the [DataCache] trait as a class with laws,
      the in-memory and the multilevel cache as instances, and the caching part
      stream, proved against the class.
    - [Pool]: pages, size pools, buffers and trimming of [memory/].

    The _metadata path_.  The [Superblock] ([superblock.rs]) implements the
    [Metablock] trait: it keeps the inodes known to the kernel
    ([superblock/inode.rs]), which handles are open on them
    ([superblock/handles_map.rs]), names known to be missing
    ([superblock/negative_cache.rs]), the keys of all of them
    ([metablock/path.rs]), and lists directories ([superblock/readdir.rs]).

    - [LinkedHashMap]: the insertion-ordered map of the negative cache and of the
      usage index of the disk cache.
    - [HandlesMap], [NegativeCache], [Path], [Inode]: these parts, each
      with all of its operations.
    - [Superblock]: the handlers ([lookup], [getattr], [setattr], [create],
      [forget], [unlink], [rmdir], [rename], [open_handle], [finish_writing],
      [finish_reading], [flush_reader], [flush_writer],
      [release_writer], [try_reactivate_handle] and [inc_file_size]).  A handler
      is a program of the type [prog]: atomic sections (what runs under a set of
      locks) and calls to the environment (an S3 request, the end of an upload).
      Inode states live in a heap, so that inodes alias as in the code.
    - [SuperblockInv]: the invariant [sb_inv], the order [sb_le] by which states
      evolve, and a rely-guarantee logic [rg] for programs with its instances for
      every handler.
    - [Readdir]: the remote, ordered and unordered iterators, the stream of a
      directory and [DirHandle]; a ListObjects page is an answer of the
      environment.  [ReaddirInv] extends the logic to it, [ReaddirSpec] says
      which entries the iterators return, [ReaddirPages] how replies compose.
    - [SuperblockConc]: pools of handlers that interleave ([sys_step]).
    - [SuperblockOps]: what single handlers compute, for given answers of S3.

    The _write path_.  A file is uploaded whole ([upload/atomic.rs]) or in
    appends by a background task ([upload/incremental.rs]).

    - [Upload]: the streaming upload, its review by the checksums of the parts,
      hashers and server-side encryption settings.
    - [AppendUpload]: the request, its buffers, the queue and the task, which a
      schedule interleaves; [AppendUploadSpec]: what it stores, and that it never
      blocks for ever.

    The _disk cache_ ([data_cache/disk_data_cache.rs]): [BlockFormat] (headers and
    their encoding), [DiskCache] (the operations, over files whose calls can
    fail), [DiskCacheSpec] (its theorems, and the laws of [DataCache]).  The
    _express cache_ ([data_cache/express_data_cache.rs]) keeps blocks as objects of
    a shared bucket: [ExpressCache], with the bucket and its other users as an
    interface.  [ClientChecksums]: the base64 forms of checksums and the decimal
    numbers that go into their metadata.

    The _file system_.  [S3Filesystem] ([fs.rs]) answers the kernel with all of
    the above.

    - [FileHandles]: [fs/handles.rs] and [fs/error.rs], over the interfaces
      [FileUploader] and [FilePrefetcher].  [FileHandlesSpec] has the laws
      of the uploader and discharges them for [Upload] and [AppendUpload].
    - [Filesystem]: every request of [fs.rs], and the pending upload hooks.
      [FilesystemSpec] composes the write and the read path; [Prefetch]
      discharges the laws of its prefetcher.

    _Manifest file systems_ ([manifest/]) show a fixed set of objects of several
    buckets, from a database that is made of CSV files.

    - [S3Path]: buckets, S3 paths and URIs, and the kinds of S3 ([s3/path.rs],
      [s3.rs]).
    - [Manifest]: the CSV reader, the builder, the database as a list of rows, and
      [ManifestMetablock].  [ManifestSpec]: which paths it shows, and the
      integrity of what was ingested.  [ManifestReaddir]: how it lists
      directories.

    _The mock of S3_ ([mountpoint-s3-client/src/mock_client.rs]) is the S3 that the
    crates are tested with: objects in memory that are listed in pages, streamed
    under flow control, uploaded, appended to, copied and renamed.

    - [MockClient]: the mock with all of its requests.
    - [MockListing]: what its pages contain, and what a directory shows that is
      listed from them.
    - [MockSpec]: what its objects hold, and that it has the properties that
      [PartStream], [Upload] and [AppendUpload] assume of S3.

    _The S3 client_ ([mountpoint-s3-client/src/s3_crt_client.rs] and its directory)
    turns requests into meta requests of the CRT, a C library, and the callbacks
    of the CRT into results.

    - [CrtHttp]: headers ([mountpoint-s3-crt/src/http/request_response.rs]), the
      encoding of request targets, and the message of a request.  The HTTP
      functions of the CRT and percent encoding are classes with laws.
    - [CrtClient]: the callbacks that collect a result, and how failures are
      classified.  XML, dates and what the CRT calls back are parameters.
    - [CrtRequests]: the requests that have a whole answer, with the parsers of
      their bodies and headers.
    - [CrtStream]: GetObject, a channel between callbacks and a reader under
      backpressure, and PutObject, writes and a completion with a review.
    - [CrtSpec]: these two under the contract of the CRT, as what [PartStream] and
      [Upload] assume of S3.  [CrtListing]: listings and HeadObject against
      servers that answer in the documented formats, and against the mock.
      [CrtExample]: a small CRT that meets the contracts.

    _The FUSE layer_ ([mountpoint-s3-fuser/src/] with [fuse.rs], [fuse/session.rs]
    and [fuse/config.rs]) reads requests of the kernel as bytes, calls the file
    system and writes replies.  The protocol is that of Linux at the ABI version
    7.28 that the crate is built with, little-endian.

    - [FuseAbi]: the structures of [ll/fuse_abi.rs] with their layout in bytes, and
      the argument iterator ([ll/argument.rs]), addresses and alignment included.
    - [FuseRequest]: the parser of requests and the accessors of their fields
      ([ll/request.rs]).  [FuseReply]: replies, directory buffers and the reply
      objects that send once ([ll/reply.rs], [reply.rs]).
    - [FuseDispatch]: the configuration of a connection ([lib.rs]), the
      [Filesystem] trait as a class, the dispatch of every operation and access
      control ([request.rs]), and the request loop ([session.rs]).
    - [FuseFs]: [S3FuseFilesystem] ([fuse.rs]) as an instance of the class, over
      [Filesystem], and [init] of [fs.rs].
    - [FuseWire]: the encoding of requests as the protocol defines it, and the
      parser as its inverse.  [FuseSpec]: sessions of any file system.
      [FuseDir]: directory replies.  [FuseFsSpec]: files, from bytes to bytes.
    - [FuseMount]: mount options ([mnt/mount_options.rs]), the access control and
      the session options that follow from them.
    - [WorkerPool]: the pool of threads of [fuse/session.rs], every atomic access
      to its counters being a step of its own.

    ** What the theorems show

    - The whole system: [written_file_reads_back] (what was written and closed is
      read back, as bytes of the FUSE protocol, by [close_to_open] for the file
      system), [acknowledged_writes_are_durable] (what a successful fsync or
      close means).
    - The FUSE layer: [request_parser_inverts_encoding], [dispatch_answers_once]
      (a request gets one reply with its number, or none if it is a forget),
      [barred_requests_change_nothing] (access control),
      [directory_reply_is_listing], [negotiated_configuration_ok],
      [option_round_trip] and [no_conflicts] for mount options, and
      [worker_pool_serves] (the pool adds a worker when one takes a request other
      than a forget and no other is idle, up to its limit).
    - Reads: [prefetch_reads_correct] (the bytes are right, nothing panics or
      hangs, for every schedule of the stream), [client_stream_covers_range]
      and [caching_stream_coherent] (what the two part streams feed the queue, and
      that a cache only ever holds right blocks), [seek_window_push_read_back],
      [extend_detects_corruption], [disk_cache_coherent], [express_cache_coherent],
      [disk_put_get_round_trip] and [disk_cache_limit].
    - Uploads: [append_upload_stores_written_data], [append_upload_never_stuck],
      [atomic_upload_integrity].
    - Flow control and memory: [stream_never_starves_reader],
      [data_read_feedback], [prefetch_returns_memory],
      [mem_limiter_concurrent_safety], [pool_exclusive_ownership],
      [pool_serves_every_request], [trim_frees_exactly_empty_pages].
    - The tree: [concurrent_handlers_keep_tree] (the invariant, for any number of
      interleaved handlers and any well-formed answers of S3, up to the first panic), [rename_locks_ascending],
      [lookup_reflects_bucket], [local_state_shadows_remote],
      [created_child_is_visible], [rename_moves_inode], [failed_rename_is_undone],
      [try_from_accepts_tree_keys], [new_child_round_trip].
    - Directory listing: [ordered_listing_correct], [unordered_listing_correct],
      [readdir_pages_compose].
    - The mock: [mock_implements_s3] (the assumptions on S3 hold of it, as long as the contents
      that occur have different MD5 digests),
      [mock_objects_hold_versions], [paged_listing_exact] and
      [directory_shows_bucket] (a directory handle shows exactly the valid names below
      it, with the documented order of shadowing).
    - The S3 client: [crt_stream_is_object] and [completed_put_stores_all_writes]
      (streams are intact for every interleaving, dropped and failed writes can
      not be completed), [client_reads_what_server_answers] (what is asked for
      is what the server decodes, what it answers is what is returned).
    - Manifests: [manifest_shows_exactly_its_objects], [manifest_readdir_exact],
      [ingested_files_are_intact] and, for S3 URIs, [parse_s3_uri_exact].
    - Handles and the negative cache: [handles_exclusive],
      [revoked_handles_stay_revoked], [negative_cache_never_stale].
    - Observations about the code that have theorems of their own:
      [negative_cache_hides_created_file], [rmdir_panics_during_rename],
      [disabled_download_validation_blocks_uploads],
      [failed_fsync_leaves_local_file], [failed_hook_upload_is_forgotten],
      [failed_listing_retries_as_empty], [paged_listing_repeats_name],
      [lost_worker_stops_growth], [illegal_requests_that_panic] and
      [time_before_epoch].

    ** Conventions

    - Machine integers are [Z]; [wadd], [wsub] and [wmul] wrap at 64 bits, as the
      release build does, wherever the code computes sizes and offsets.  Inode
      numbers, lookup counts and heap locations are unbounded.
    - [Panic] is a failed assertion, [expect] or bound check.  Fuel that runs out
      also gives [Panic], so a theorem that concludes [Ok] proves termination.
      The fuel is always computed from the data: the length of the body in
      [compose_body] and [compose_blocks], the number of bytes to read or skip in
      the loops of [Prefetch] (every iteration consumes at least one), the
      logarithm of the window in [data_read_loop], which halves it, and the number
      of entries of the usage index in [evict_loop] (each round removes one), and
      the number of rows in [mm_readdir_loop].  In the mock it is the number of
      bytes that are left in [ramp_loop], [chunks] and [collect_body].  In the
      S3 client it is the number of child elements in [take_children], the length
      of the slice in [pq_write] (each round takes a byte), and in [read_stream]
      twice the callbacks to come and the events in the channel.  The loop over
      powers of ten of [set_time_granularity] has nine rounds, since its bound is a
      second.  The request loop of a session runs over the list of what the
      device returns.
      When the writer of [AppendUpload] waits, the task takes steps until the wait
      ends, at most four times in a row; [append_upload_never_stuck] shows that
      this is enough, for every schedule.
    - A panic poisons the locks that its thread holds, which is not modelled:
      interleavings of handlers are followed up to the first panic.  The counters
      of the pool change in one step with the bitmask of the page, although the
      lock of the page is released just before.
    - Time is an argument or a field of the state; all readings of the clock
      inside one atomic section of the superblock agree.
    - Code outside the crates is a parameter: CRC32C, what the CRT calls back,
      parsers of XML and dates, and what other threads do in between.  In
      the models of [mountpoint-s3-fs] the responses of the S3 client are
      parameters too; the mock and the client discharge what they assume.

    ** What is not modelled

    The CRT below the S3 client, how the client is built from its configuration
    ([s3/config.rs], [S3CrtClientInner::new]), the rules that give the endpoint
    of a bucket, its telemetry, and the set-up of cache directories
    ([data_cache/cache_directory.rs]).  Of the FUSE library: system calls on the
    device and mounting ([channel.rs], the rest of [mnt/]), notifications,
    passthrough, macOS and other ABI versions, which the build of Mountpoint does
    not use.  Of the session: how shutdown waits for workers and signals, and the
    checks of mount points through system calls.  Logging, metrics, the command
    line and the bindings to C are left out: they hold no state that the
    properties above depend on. *)

From Stdlib Require Export ZArith Lia.
From Stdlib Require Export Strings.Byte.
From Stdlib Require Strings.Ascii Strings.String.
From Stdlib Require Export Sorting.Sorted.
From stdpp Require Export base tactics list numbers option gmap strings functions.

#[global] Set Default Proof Using "Type".

(** ** Outcomes of fallible code

    [Ok] and [Err] are the two constructors of Rust's [Result]; [Panic] stands
    for a failed [assert!], [expect], [unwrap], slice bound check or
    [unreachable!] of the source.  Loops that are not structurally recursive
    carry fuel and yield [Panic] when it runs out, so a theorem that concludes
    [= Ok _] also shows that the loop returns. *)

Inductive outcome (E A : Type) : Type :=
| Ok (a : A)
| Err (e : E)
| Panic.
Arguments Ok {E A} a.
Arguments Err {E A} e.
Arguments Panic {E A}.

Definition outcome_bind {E A B} (c : outcome E A) (k : A → outcome E B) : outcome E B :=
  match c with
  | Ok a => k a
  | Err e => Err e
  | Panic => Panic
  end.

Definition outcome_map_err {E F A} (f : E → F) (c : outcome E A) : outcome F A :=
  match c with
  | Ok a => Ok a
  | Err e => Err (f e)
  | Panic => Panic
  end.

Declare Scope rust_scope.
Delimit Scope rust_scope with rust.
Notation "'let!' x ':=' c 'in' k" := (outcome_bind c (λ x, k))
  (at level 10, x name, c at level 100, k at level 200,
   format "'[v' 'let!'  x  ':='  c  'in' '/' k ']'") : rust_scope.
Notation "'let!' ' p ':=' c 'in' k" := (outcome_bind c (λ p, k))
  (at level 10, p strict pattern, c at level 100, k at level 200,
   format "'[v' 'let!'  ' p  ':='  c  'in' '/' k ']'") : rust_scope.
(** [assert! b in k]: the source's [assert!(b)] followed by [k]. *)
Notation "'assert!' b 'in' k" := (if b then k else Panic)
  (at level 10, b at level 100, k at level 200) : rust_scope.
(** Code that mutates state and can fail returns the state next to the outcome;
    [let? s , a := r in k] is the [?] operator: an error keeps the state reached. *)
Definition state_bind {S E A B} (r : S * outcome E A) (k : S → A → S * outcome E B) : S * outcome E B :=
  match r with
  | (s, Ok a) => k s a
  | (s, Err e) => (s, Err e)
  | (s, Panic) => (s, Panic)
  end.
Notation "'let?' s , a ':=' r 'in' k" := (state_bind r (λ s a, k))
  (at level 10, s name, a name, r at level 100, k at level 200,
   format "'[v' 'let?'  s ,  a  ':='  r  'in' '/' k ']'") : rust_scope.
#[global] Open Scope rust_scope.

Lemma outcome_bind_ok {E A B} (c : outcome E A) (k : A → outcome E B) b :
  outcome_bind c k = Ok b ↔ ∃ a, c = Ok a ∧ k a = Ok b.
Proof. destruct c; simpl; split; [|by intros (?&[=->]&?)| | | |]; try done; eauto; by intros (?&?&?). Qed.

Lemma outcome_bind_err {E A B} (c : outcome E A) (k : A → outcome E B) e :
  outcome_bind c k = Err e ↔ c = Err e ∨ ∃ a, c = Ok a ∧ k a = Err e.
Proof. destruct c; simpl; naive_solver. Qed.

(** ** Machine integers

    The crates are built for 64-bit targets and the release profile does not
    set [overflow-checks], so [+], [-] and [*] on [u64] and [usize] wrap modulo
    2^64 and casts between the two types are the identity. *)

Section machine_integers.
Local Open Scope Z_scope.

Definition u64_modulus : Z := 2 ^ 64.
Definition u64_max : Z := u64_modulus - 1.
Definition is_u64 (x : Z) : Prop := 0 ≤ x < u64_modulus.
Definition wrap64 (x : Z) : Z := x `mod` u64_modulus.
Definition wadd (x y : Z) : Z := wrap64 (x + y).
Definition wsub (x y : Z) : Z := wrap64 (x - y).
Definition wmul (x y : Z) : Z := wrap64 (x * y).
(** [saturating_add], [saturating_sub] *)
Definition sat_add (x y : Z) : Z := Z.min (x + y) u64_max.
Definition sat_sub (x y : Z) : Z := Z.max (x - y) 0.
(** [Ord::clamp]; panics in Rust when [lo > hi], which no caller does *)
Definition clampZ (x lo hi : Z) : Z := if x <? lo then lo else if hi <? x then hi else x.
(** [div_ceil] and [next_multiple_of] of a non-zero divisor *)
Definition div_ceil (x d : Z) : Z := if x `mod` d =? 0 then x / d else x / d + 1.
Definition next_multiple_of (x d : Z) : Z :=
  if x `mod` d =? 0 then x else wadd x (d - x `mod` d).

Lemma u64_modulus_eq : u64_modulus = 18446744073709551616.
Proof. reflexivity. Qed.
Lemma u64_max_eq : u64_max = 18446744073709551615.
Proof. reflexivity. Qed.

Lemma wrap64_is_u64 x : is_u64 (wrap64 x).
Proof. apply Z.mod_pos_bound. reflexivity. Qed.
Lemma wrap64_small x : is_u64 x → wrap64 x = x.
Proof. intros ?. by apply Z.mod_small. Qed.
Lemma wadd_small x y : is_u64 (x + y) → wadd x y = x + y.
Proof. apply wrap64_small. Qed.
Lemma wsub_small x y : is_u64 (x - y) → wsub x y = x - y.
Proof. apply wrap64_small. Qed.
Lemma wmul_small x y : is_u64 (x * y) → wmul x y = x * y.
Proof. apply wrap64_small. Qed.

Lemma wrap64_wrap64_add_l x y : wrap64 (wrap64 x + y) = wrap64 (x + y).
Proof. apply Zplus_mod_idemp_l. Qed.
Lemma wrap64_wrap64_add_r x y : wrap64 (x + wrap64 y) = wrap64 (x + y).
Proof. apply Zplus_mod_idemp_r. Qed.
Lemma wrap64_wrap64_sub_l x y : wrap64 (wrap64 x - y) = wrap64 (x - y).
Proof. apply Zminus_mod_idemp_l. Qed.
Lemma wrap64_wrap64_sub_r x y : wrap64 (x - wrap64 y) = wrap64 (x - y).
Proof. apply Zminus_mod_idemp_r. Qed.

Lemma clampZ_spec x lo hi : lo ≤ hi → clampZ x lo hi = Z.max lo (Z.min x hi).
Proof. intros ?. unfold clampZ. destruct (Z.ltb_spec x lo), (Z.ltb_spec hi x); lia. Qed.

Lemma div_ceil_mul_bounds x d :
  0 ≤ x → 0 < d → x ≤ div_ceil x d * d < x + d.
Proof.
  intros ??. unfold div_ceil. pose proof (Z.div_mod x d). pose proof (Z.mod_pos_bound x d).
  destruct (Z.eqb_spec (x `mod` d) 0); nia.
Qed.

Lemma next_multiple_of_spec x d :
  0 ≤ x → 0 < d → x + d ≤ u64_max →
  x ≤ next_multiple_of x d < x + d ∧ next_multiple_of x d `mod` d = 0.
Proof.
  intros ???. unfold next_multiple_of. pose proof (Z.mod_pos_bound x d).
  destruct (Z.eqb_spec (x `mod` d) 0) as [Heq|Hne]; [lia|].
  rewrite wadd_small by (unfold is_u64, u64_max in *; lia). split; [lia|].
  replace (x + (d - x `mod` d)) with ((x / d + 1) * d).
  - by apply Z.mod_mul; lia.
  - pose proof (Z.div_mod x d). lia.
Qed.
End machine_integers.

Create HintDb u64.
Create Rewrite HintDb u64.
Create Rewrite HintDb wrap64.
Create Rewrite HintDb zlen.
#[export] Hint Rewrite wadd_small wsub_small wmul_small wrap64_small using (unfold is_u64, u64_max, u64_modulus in *; lia) : u64.
#[export] Hint Rewrite wrap64_wrap64_add_l wrap64_wrap64_add_r wrap64_wrap64_sub_l wrap64_wrap64_sub_r : wrap64.
#[export] Hint Resolve wrap64_is_u64 : u64.

(** Replace wrapping arithmetic by exact arithmetic where no wrap happens. *)
Ltac no_wrap :=
  repeat first
    [ rewrite wadd_small in * by (unfold is_u64, u64_max, u64_modulus in *; lia)
    | rewrite wsub_small in * by (unfold is_u64, u64_max, u64_modulus in *; lia)
    | rewrite wmul_small in * by (unfold is_u64, u64_max, u64_modulus in *; lia) ].

(** [lia] with the 64-bit constants unfolded. *)
Ltac u64_lia := unfold is_u64, sat_add, sat_sub, u64_max, u64_modulus in *; lia.

(** Split a visible conjunction without unfolding its members. *)
Ltac ands := repeat match goal with |- _ ∧ _ => split end.

(** Decompose hypotheses [_ = Ok _] built with the bind notation. *)
Ltac inv_outcome :=
  repeat match goal with
  | H : outcome_bind _ _ = Ok _ |- _ =>
      apply outcome_bind_ok in H; destruct H as (? & ? & ?); simplify_eq/=
  | H : Ok _ = Ok _ |- _ => injection H as H; subst
  | H : Err _ = Ok _ |- _ => discriminate H
  | H : Panic = Ok _ |- _ => discriminate H
  end.

(** Case analysis on boolean tests, turning them into the order facts they decide. *)
Ltac case_Z :=
  match goal with
  | |- context [Z.ltb ?a ?b] => destruct (Z.ltb_spec a b)
  | |- context [Z.leb ?a ?b] => destruct (Z.leb_spec a b)
  | |- context [Z.eqb ?a ?b] => destruct (Z.eqb_spec a b)
  | H : context [Z.ltb ?a ?b] |- _ => destruct (Z.ltb_spec a b)
  | H : context [Z.leb ?a ?b] |- _ => destruct (Z.leb_spec a b)
  | H : context [Z.eqb ?a ?b] |- _ => destruct (Z.eqb_spec a b)
  end.

(** ** Byte sequences indexed by [Z] *)

Abbreviation bytes := (list Byte.byte).
(** Rust strings whose contents matter, as their UTF-8 bytes; [str_of] reads a literal. *)
Abbreviation str := (list Ascii.ascii).
Definition str_of (s : string) : str := Stdlib.Strings.String.list_ascii_of_string s.

(** [mapM] of [outcome], in order *)
Fixpoint outcome_mapM {E A B} (f : A → outcome E B) (l : list A) : outcome E (list B) :=
  match l with
  | [] => Ok []
  | x :: l => outcome_bind (f x) (λ y, outcome_bind (outcome_mapM f l) (λ l, Ok (y :: l)))
  end.
Lemma outcome_mapM_Ok {E A B} (f : A → outcome E B) g l :
  (∀ x, x ∈ l → f x = Ok (g x)) → outcome_mapM f l = Ok (map g l).
Proof.
  induction l as [|x l IH]; intros H; [done|]. simpl. rewrite H by left. simpl. rewrite IH; [done|].
  intros y Hy. apply H. by right.
Qed.

(** ** A stable sort, as the one of Rust's slices *)

Section stable_sort.
Context {A : Type} (R : relation A) `{!RelDecision R}.

Fixpoint sorted_insert (x : A) (l : list A) : list A :=
  match l with
  | [] => [x]
  | y :: l' => if decide (R x y) then x :: l else y :: sorted_insert x l'
  end.
Definition stable_sort (l : list A) : list A := foldr sorted_insert [] l.

Lemma sorted_insert_perm x l : sorted_insert x l ≡ₚ x :: l.
Proof.
  induction l as [|y l IH]; simpl; [done|]. destruct (decide (R x y)); [done|]. rewrite IH. apply Permutation_swap.
Qed.
Lemma stable_sort_perm l : stable_sort l ≡ₚ l.
Proof. induction l as [|x l IH]; simpl; [done|]. by rewrite sorted_insert_perm, IH. Qed.
Lemma sorted_insert_sorted `{!Total R} x l : Sorted R l → Sorted R (sorted_insert x l).
Proof.
  induction 1 as [|y l Hl IH Hy]; simpl; [by repeat constructor|]. destruct (decide (R x y)); [by repeat constructor|].
  constructor; [done|]. destruct l as [|z l]; simpl in *; [|destruct (decide (R x z)); inv Hy]; constructor; try done.
  all: by destruct (total R x y).
Qed.
Lemma stable_sort_sorted `{!Total R} l : Sorted R (stable_sort l).
Proof. induction l; simpl; [constructor|by apply sorted_insert_sorted]. Qed.
End stable_sort.

Section zlists.
Context {A : Type}.
Local Open Scope Z_scope.
Implicit Types l k : list A.

Definition zlen l : Z := Z.of_nat (length l).
Definition ztake (n : Z) l : list A := take (Z.to_nat n) l.
Definition zdrop (n : Z) l : list A := drop (Z.to_nat n) l.
(** The half-open sub-range [from, to) of a sequence. *)
Definition zslice (from to : Z) l : list A := ztake (to - from) (zdrop from l).

Lemma zlen_nonneg l : 0 ≤ zlen l.
Proof. unfold zlen. lia. Qed.
Lemma zlen_nil : zlen ([] : list A) = 0.
Proof. reflexivity. Qed.
Lemma zlen_cons x l : zlen (x :: l) = 1 + zlen l.
Proof. unfold zlen. simpl. lia. Qed.
Lemma zlen_app l k : zlen (l ++ k) = zlen l + zlen k.
Proof. unfold zlen. rewrite length_app. lia. Qed.
Lemma zlen_0 l : zlen l = 0 ↔ l = [].
Proof. unfold zlen. rewrite <- length_zero_iff_nil. lia. Qed.
Lemma zlen_ztake n l : 0 ≤ n ≤ zlen l → zlen (ztake n l) = n.
Proof. unfold zlen, ztake. rewrite length_take. lia. Qed.
Lemma zlen_zdrop n l : 0 ≤ n ≤ zlen l → zlen (zdrop n l) = zlen l - n.
Proof. unfold zlen, zdrop. rewrite length_drop. lia. Qed.
Lemma zlen_zslice a b l : 0 ≤ a ≤ b → b ≤ zlen l → zlen (zslice a b l) = b - a.
Proof. intros. unfold zslice. rewrite zlen_ztake; [done|]. rewrite zlen_zdrop; lia. Qed.

Lemma ztake_zdrop n l : ztake n l ++ zdrop n l = l.
Proof. apply take_drop. Qed.
Lemma zdrop_0 l : zdrop 0 l = l.
Proof. apply drop_0. Qed.
Lemma ztake_all n l : zlen l ≤ n → ztake n l = l.
Proof. unfold zlen, ztake. intros. apply take_ge. lia. Qed.
Lemma zslice_full l : zslice 0 (zlen l) l = l.
Proof. unfold zslice. rewrite zdrop_0, Z.sub_0_r. by apply ztake_all. Qed.
Lemma zslice_empty a l : zslice a a l = [].
Proof. unfold zslice, ztake. rewrite Z.sub_diag. reflexivity. Qed.
Lemma zslice_app a b c l :
  0 ≤ a ≤ b → b ≤ c → zslice a b l ++ zslice b c l = zslice a c l.
Proof.
  intros Hab Hbc. unfold zslice, ztake, zdrop.
  replace (Z.to_nat b) with (Z.to_nat a + Z.to_nat (b - a))%nat by lia.
  rewrite <- drop_drop.
  replace (Z.to_nat (c - a)) with (Z.to_nat (b - a) + Z.to_nat (c - b))%nat by lia.
  by rewrite <- take_take_drop.
Qed.
Lemma zslice_zslice a b c d l :
  0 ≤ a → 0 ≤ c ≤ d → d ≤ b - a →
  zslice c d (zslice a b l) = zslice (a + c) (a + d) l.
Proof.
  intros ? ? ?. unfold zslice, ztake, zdrop.
  rewrite skipn_firstn_comm, take_take, drop_drop.
  f_equal; [lia|]. f_equal. lia.
Qed.
Lemma ztake_zslice n a b l : n ≤ b - a → ztake n (zslice a b l) = zslice a (a + n) l.
Proof. intros. unfold zslice, ztake. rewrite take_take. f_equal. lia. Qed.
Lemma zdrop_zslice n a b l : 0 ≤ n → 0 ≤ a → zdrop n (zslice a b l) = zslice (a + n) b l.
Proof.
  intros. unfold zslice, ztake, zdrop. rewrite skipn_firstn_comm, drop_drop. f_equal; [lia|]. f_equal. lia.
Qed.
Lemma zslice_app_l a b l k : 0 ≤ a → b ≤ zlen l → zslice a b (l ++ k) = zslice a b l.
Proof.
  intros Ha Hb. unfold zslice, ztake, zdrop, zlen in *.
  destruct (decide (Z.to_nat a ≤ length l)%nat) as [Hle|Hgt].
  - rewrite drop_app_le by lia. rewrite take_app_le; [done|]. rewrite length_drop. lia.
  - replace (Z.to_nat (b - a)) with 0%nat by lia. by rewrite !take_0.
Qed.
Lemma zslice_app_r a b l k :
  zlen l ≤ a → zslice a b (l ++ k) = zslice (a - zlen l) (b - zlen l) k.
Proof.
  intros Ha. unfold zslice, ztake, zdrop, zlen in *.
  rewrite drop_app_ge by lia. f_equal; [lia|]. f_equal. lia.
Qed.
End zlists.

#[export] Hint Rewrite @zlen_app @zlen_nil @zlen_cons : zlen.

(** [zsum f l]: sum of a measure over a sequence, as running totals of the source keep it. *)
Section zsum.
Context {A : Type} (f : A → Z).
Local Open Scope Z_scope.

Fixpoint zsum (l : list A) : Z :=
  match l with
  | [] => 0
  | x :: l => f x + zsum l
  end.

Lemma zsum_app l k : zsum (l ++ k) = zsum l + zsum k.
Proof. induction l; simpl; lia. Qed.
Lemma zsum_nonneg l : (∀ x, x ∈ l → 0 ≤ f x) → 0 ≤ zsum l.
Proof.
  induction l as [|x l IH]; simpl; intros Hf; [lia|].
  assert (0 ≤ f x) by (apply Hf; left). assert (0 ≤ zsum l) by (apply IH; intros; apply Hf; by right). lia.
Qed.
Lemma zsum_perm l k : l ≡ₚ k → zsum l = zsum k.
Proof. induction 1; simpl; lia. Qed.
End zsum.
#[export] Hint Rewrite @zsum_app : zlen.

(** ** Reachability under a step relation *)

Section reachability.
Context {S : Type} (step : S → S → Prop).

Inductive reachable (init : S → Prop) : S → Prop :=
| reachable_init s : init s → reachable init s
| reachable_step s t : reachable init s → step s t → reachable init t.

Lemma reachable_invariant (init : S → Prop) (I : S → Prop) :
  (∀ s, init s → I s) →
  (∀ s t, I s → step s t → I t) →
  ∀ s, reachable init s → I s.
Proof. intros Hinit Hstep s. induction 1; eauto. Qed.
End reachability.
