(* ===== verification/Checksums.v ===== *)
(** * Checksummed byte buffers

    Model of [mountpoint-s3-fs/src/checksums.rs]: [ChecksummedBytes], a buffer
    that carries the CRC32C of the buffer it is a window of.  CRC32C itself
    (CRT C library and the [crc32c] crate) is the interface [Crc32c]; the
    environment variable that disables validation is [IntegrityEnv]. *)

From S2P Require Import Prelude.
Local Open Scope Z_scope.

(** The checksum functions the crate imports. *)
Class Crc32c := {
  crc32c_checksum : bytes → Z;
  crc32c_combine : Z → Z → Z → Z;
}.

(** A [u32] value, the type of a checksum. *)
Definition is_u32 (x : Z) : Prop := 0 ≤ x < 2 ^ 32.

(** What the callers rely on: checksums are [u32] values, the checksum of no
    data is 0, and [crc32c_combine] computes the checksum of a concatenation
    from the checksums and the length of the second operand. *)
Class Crc32cLaws `{Crc32c} := {
  crc32c_checksum_u32 bs : is_u32 (crc32c_checksum bs);
  crc32c_combine_u32 x y n : is_u32 (crc32c_combine x y n);
  crc32c_checksum_nil : crc32c_checksum [] = 0;
  crc32c_combine_app xs ys :
    crc32c_combine (crc32c_checksum xs) (crc32c_checksum ys) (zlen ys) = crc32c_checksum (xs ++ ys);
}.

(** CRC combination is a bijection of the register for a fixed other operand,
    so a wrong operand gives a wrong combination. *)
Class Crc32cInjective `{Crc32c} := {
  crc32c_combine_inj_l x x' y n :
    is_u32 x → is_u32 x' → crc32c_combine x y n = crc32c_combine x' y n → x = x';
  crc32c_combine_inj_r x y y' n :
    is_u32 y → is_u32 y' → crc32c_combine x y n = crc32c_combine x y' n → y = y';
}.

(** [EXPERIMENTAL_MOUNTPOINT_NO_DOWNLOAD_INTEGRITY_VALIDATION] is set. *)
Class IntegrityEnv := is_integrity_validation_disabled : bool.

Record ChecksummedBytes := {
  cb_buffer : bytes;
  cb_start : Z;
  cb_end : Z;
  cb_checksum : Z;
}.

Inductive IntegrityError :=
| ChecksumMismatch (expected actual : Z).

(** [std::ops::Bound] *)
Inductive bound :=
| Included (n : Z)
| Excluded (n : Z)
| Unbounded.

Section checksums.
Context `{crc : Crc32c, env : IntegrityEnv}.
Implicit Types cb : ChecksummedBytes.

Definition ChecksummedBytes_new_from_inner_data (bs : bytes) (checksum : Z) : ChecksummedBytes :=
  {| cb_buffer := bs; cb_start := 0; cb_end := zlen bs; cb_checksum := checksum |}.

Definition ChecksummedBytes_new (bs : bytes) : ChecksummedBytes :=
  let checksum := if is_integrity_validation_disabled then 0 else crc32c_checksum bs in
  ChecksummedBytes_new_from_inner_data bs checksum.

Definition ChecksummedBytes_default : ChecksummedBytes :=
  {| cb_buffer := []; cb_start := 0; cb_end := 0; cb_checksum := 0 |}.

(** [Range::len] and [Range::is_empty] *)
Definition ChecksummedBytes_len cb : Z :=
  if cb_start cb <? cb_end cb then cb_end cb - cb_start cb else 0.
Definition ChecksummedBytes_is_empty cb : bool := negb (cb_start cb <? cb_end cb).

(** [Bytes::slice] panics when the range is not within the buffer. *)
Definition ChecksummedBytes_buffer_slice {E} cb : outcome E bytes :=
  assert! (cb_start cb <=? cb_end cb) && (cb_end cb <=? zlen (cb_buffer cb)) in
  Ok (zslice (cb_start cb) (cb_end cb) (cb_buffer cb)).

Definition ChecksummedBytes_validate cb : outcome IntegrityError () :=
  if is_integrity_validation_disabled then Ok () else
  let checksum := crc32c_checksum (cb_buffer cb) in
  if cb_checksum cb =? checksum then Ok ()
  else Err (ChecksumMismatch (cb_checksum cb) checksum).

Definition ChecksummedBytes_into_bytes cb : outcome IntegrityError bytes :=
  let! _ := ChecksummedBytes_validate cb in
  ChecksummedBytes_buffer_slice cb.

(** Returns the shortened [self] and the split-off tail. *)
Definition ChecksummedBytes_split_off {E} cb (at_ : Z)
  : outcome E (ChecksummedBytes * ChecksummedBytes) :=
  assert! at_ <? ChecksummedBytes_len cb in
  let start := cb_start cb in
  let mid := wadd start at_ in
  Ok ({| cb_buffer := cb_buffer cb; cb_start := start; cb_end := mid; cb_checksum := cb_checksum cb |},
      {| cb_buffer := cb_buffer cb; cb_start := mid; cb_end := cb_end cb; cb_checksum := cb_checksum cb |}).

Definition checked_succ {E} (n : Z) : outcome E Z :=
  if n =? u64_max then Panic else Ok (n + 1).

Definition ChecksummedBytes_slice {E} cb (start_bound end_bound : bound)
  : outcome E ChecksummedBytes :=
  let original_len := ChecksummedBytes_len cb in
  let original_start := cb_start cb in
  let! slice_start_offset :=
    match start_bound with
    | Included n => Ok n
    | Excluded n => checked_succ n
    | Unbounded => Ok 0
    end in
  let! slice_end_offset :=
    match end_bound with
    | Included n => checked_succ n
    | Excluded n => Ok n
    | Unbounded => Ok original_len
    end in
  assert! slice_start_offset <=? slice_end_offset in
  assert! slice_end_offset <=? original_len in
  Ok {| cb_buffer := cb_buffer cb;
        cb_start := wadd original_start slice_start_offset;
        cb_end := wadd original_start slice_end_offset;
        cb_checksum := cb_checksum cb |}.

Definition combine_checksums (prefix_crc suffix_crc suffix_len : Z) : Z :=
  if is_integrity_validation_disabled then 0
  else crc32c_combine prefix_crc suffix_crc suffix_len.

Definition ChecksummedBytes_shrink_to_fit cb : outcome IntegrityError ChecksummedBytes :=
  if ChecksummedBytes_len cb =? zlen (cb_buffer cb) then Ok cb else
  let! bs := ChecksummedBytes_buffer_slice cb in
  let checksum := crc32c_checksum bs in
  let! _ := ChecksummedBytes_validate cb in
  Ok {| cb_buffer := bs; cb_start := 0; cb_end := ChecksummedBytes_len cb; cb_checksum := checksum |}.

Definition ChecksummedBytes_extend cb (ext : ChecksummedBytes) : outcome IntegrityError ChecksummedBytes :=
  if ChecksummedBytes_is_empty ext then
    let! _ := ChecksummedBytes_validate ext in
    Ok cb
  else if ChecksummedBytes_is_empty cb then
    let! _ := ChecksummedBytes_validate cb in
    Ok ext
  else
    let! cb := ChecksummedBytes_shrink_to_fit cb in
    assert! zlen (cb_buffer cb) =? ChecksummedBytes_len cb in
    let! ext := ChecksummedBytes_shrink_to_fit ext in
    assert! zlen (cb_buffer ext) =? ChecksummedBytes_len ext in
    let new_checksum := combine_checksums (cb_checksum cb) (cb_checksum ext) (ChecksummedBytes_len ext) in
    let new_bytes := cb_buffer cb ++ cb_buffer ext in
    Ok {| cb_buffer := new_bytes; cb_start := 0; cb_end := zlen new_bytes; cb_checksum := new_checksum |}.

Definition ChecksummedBytes_into_inner cb : outcome IntegrityError (bytes * Z) :=
  let! cb := ChecksummedBytes_shrink_to_fit cb in
  Ok (cb_buffer cb, cb_checksum cb).

(** ** Invariant and abstraction *)

(** The window lies inside the buffer, the buffer is addressable and the
    checksum is a [u32]. *)
Definition cb_wf cb : Prop :=
  0 ≤ cb_start cb ≤ cb_end cb ∧ cb_end cb ≤ zlen (cb_buffer cb) ∧
  zlen (cb_buffer cb) < u64_modulus ∧ is_u32 (cb_checksum cb).

(** The bytes a [ChecksummedBytes] stands for. *)
Definition cb_data cb : bytes := zslice (cb_start cb) (cb_end cb) (cb_buffer cb).

(** The carried checksum matches the buffer, or validation is off. *)
Definition cb_intact cb : Prop := ChecksummedBytes_validate cb = Ok ().

Lemma cb_intact_alt cb :
  cb_intact cb ↔
  (is_integrity_validation_disabled = false → cb_checksum cb = crc32c_checksum (cb_buffer cb)).
Proof.
  unfold cb_intact, ChecksummedBytes_validate.
  destruct is_integrity_validation_disabled; [naive_solver|].
  destruct (Z.eqb_spec (cb_checksum cb) (crc32c_checksum (cb_buffer cb))); naive_solver.
Qed.

Lemma cb_len_wf cb : cb_wf cb → ChecksummedBytes_len cb = cb_end cb - cb_start cb.
Proof. intros (?&?&?&?). unfold ChecksummedBytes_len. case_Z; lia. Qed.

Lemma cb_len_data cb : cb_wf cb → ChecksummedBytes_len cb = zlen (cb_data cb).
Proof. intros Hwf. rewrite cb_len_wf by done. destruct Hwf as (?&?&?&?). unfold cb_data. by rewrite zlen_zslice. Qed.

Lemma cb_is_empty_len cb : ChecksummedBytes_is_empty cb = (ChecksummedBytes_len cb =? 0).
Proof.
  unfold ChecksummedBytes_is_empty, ChecksummedBytes_len.
  case_Z; simpl; [symmetry; apply Z.eqb_neq; lia|done].
Qed.

Lemma cb_buffer_slice_wf {E} cb : cb_wf cb → ChecksummedBytes_buffer_slice (E:=E) cb = Ok (cb_data cb).
Proof.
  intros (?&?&?&?). unfold ChecksummedBytes_buffer_slice.
  rewrite (proj2 (Z.leb_le _ _)), (proj2 (Z.leb_le _ _)) by lia. done.
Qed.

Lemma cb_new_wf `{!Crc32cLaws} bs : zlen bs < u64_modulus → cb_wf (ChecksummedBytes_new bs).
Proof.
  intros ?. pose proof (zlen_nonneg bs). unfold cb_wf; simpl. repeat split; try lia;
    destruct is_integrity_validation_disabled; try lia; apply crc32c_checksum_u32.
Qed.

Lemma cb_new_data bs : cb_data (ChecksummedBytes_new bs) = bs.
Proof. apply zslice_full. Qed.

Lemma cb_new_len bs : ChecksummedBytes_len (ChecksummedBytes_new bs) = zlen bs.
Proof. unfold ChecksummedBytes_len; simpl. pose proof (zlen_nonneg bs). case_Z; lia. Qed.

Lemma cb_new_intact bs : cb_intact (ChecksummedBytes_new bs).
Proof. apply cb_intact_alt. intros Hd. simpl. by rewrite Hd. Qed.

Lemma cb_default_wf : cb_wf ChecksummedBytes_default.
Proof. unfold cb_wf, zlen, is_u32; simpl. u64_lia. Qed.

Lemma cb_default_data : cb_data ChecksummedBytes_default = [].
Proof. reflexivity. Qed.

Lemma cb_default_intact `{!Crc32cLaws} : cb_intact ChecksummedBytes_default.
Proof. apply cb_intact_alt. intros _. simpl. by rewrite crc32c_checksum_nil. Qed.

Lemma cb_split_off_spec {E} cb at_ :
  cb_wf cb → 0 ≤ at_ < ChecksummedBytes_len cb →
  ∃ pre suf, ChecksummedBytes_split_off (E:=E) cb at_ = Ok (pre, suf) ∧
    cb_wf pre ∧ cb_wf suf ∧
    (cb_intact pre ↔ cb_intact cb) ∧ (cb_intact suf ↔ cb_intact cb) ∧
    cb_data pre = ztake at_ (cb_data cb) ∧ cb_data suf = zdrop at_ (cb_data cb) ∧
    ChecksummedBytes_len pre = at_ ∧ ChecksummedBytes_len suf = ChecksummedBytes_len cb - at_.
Proof.
  intros Hwf Hat. pose proof (cb_len_wf cb Hwf) as Hlen. destruct Hwf as (?&?&?&?).
  unfold ChecksummedBytes_split_off. rewrite (proj2 (Z.ltb_lt _ _)) by lia.
  rewrite wadd_small by u64_lia.
  do 2 eexists. split; [done|]. unfold cb_wf, cb_data, is_u32 in *; simpl.
  repeat split; try lia; try (rewrite !cb_intact_alt; done).
  - rewrite ztake_zslice by lia. done.
  - rewrite zdrop_zslice by lia. done.
  - unfold ChecksummedBytes_len; simpl. case_Z; lia.
  - rewrite Hlen. unfold ChecksummedBytes_len; simpl. case_Z; lia.
Qed.

Lemma cb_slice_spec {E} cb a b :
  cb_wf cb → 0 ≤ a ≤ b → b ≤ ChecksummedBytes_len cb →
  ∃ cb', ChecksummedBytes_slice (E:=E) cb (Included a) (Excluded b) = Ok cb' ∧
    cb_wf cb' ∧ (cb_intact cb' ↔ cb_intact cb) ∧ cb_data cb' = zslice a b (cb_data cb).
Proof.
  intros Hwf Hab Hb. pose proof (cb_len_wf cb Hwf) as Hlen. destruct Hwf as (?&?&?&?).
  unfold ChecksummedBytes_slice. simpl.
  rewrite !(proj2 (Z.leb_le _ _)) by lia.
  rewrite !wadd_small by u64_lia.
  eexists. split; [done|]. unfold cb_wf, cb_data, is_u32 in *; simpl.
  repeat split; try lia; try (rewrite !cb_intact_alt; done).
  rewrite zslice_zslice by lia. done.
Qed.

Lemma cb_shrink_to_fit_spec `{!Crc32cLaws} cb :
  cb_wf cb → cb_intact cb →
  ∃ cb', ChecksummedBytes_shrink_to_fit cb = Ok cb' ∧ cb_wf cb' ∧ cb_intact cb' ∧
    cb_data cb' = cb_data cb ∧ cb_buffer cb' = cb_data cb ∧
    ChecksummedBytes_len cb' = ChecksummedBytes_len cb.
Proof.
  intros Hwf Hin. pose proof (cb_len_data cb Hwf) as Hlen.
  unfold ChecksummedBytes_shrink_to_fit.
  destruct (Z.eqb_spec (ChecksummedBytes_len cb) (zlen (cb_buffer cb))) as [Heq|Hne].
  - exists cb. repeat split; try done; try apply Hwf.
    rewrite cb_len_wf in Heq by done. destruct Hwf as (?&?&?&?).
    unfold cb_data. assert (cb_start cb = 0) as -> by lia.
    assert (cb_end cb = zlen (cb_buffer cb)) as -> by lia. by rewrite zslice_full.
  - rewrite cb_buffer_slice_wf by done. simpl. rewrite Hin. simpl.
    eexists. split; [done|]. rewrite Hlen.
    assert (zlen (cb_data cb) ≤ zlen (cb_buffer cb)) as Hle
      by (rewrite <- Hlen, cb_len_wf by done; destruct Hwf as (?&?&?&?); lia).
    destruct Hwf as (?&?&?&?). pose proof (zlen_nonneg (cb_data cb)).
    repeat split; simpl; try lia; try apply crc32c_checksum_u32.
    + by apply cb_intact_alt.
    + unfold cb_data at 1. simpl. apply zslice_full.
    + unfold ChecksummedBytes_len; simpl. case_Z; lia.
Qed.

Lemma cb_extend_spec `{!Crc32cLaws} cb ext :
  cb_wf cb → cb_wf ext → cb_intact cb → cb_intact ext →
  ChecksummedBytes_len cb + ChecksummedBytes_len ext < u64_modulus →
  ∃ cb', ChecksummedBytes_extend cb ext = Ok cb' ∧ cb_wf cb' ∧ cb_intact cb' ∧
    cb_data cb' = cb_data cb ++ cb_data ext.
Proof.
  intros Hwf Hwfe Hin Hine Hlen. unfold ChecksummedBytes_extend.
  rewrite !cb_is_empty_len.
  destruct (Z.eqb_spec (ChecksummedBytes_len ext) 0) as [He|He].
  { rewrite Hine. simpl. exists cb. rewrite cb_len_data, zlen_0 in He by done.
    by rewrite He, app_nil_r. }
  destruct (Z.eqb_spec (ChecksummedBytes_len cb) 0) as [Hc|Hc].
  { rewrite Hin. simpl. exists ext. rewrite cb_len_data, zlen_0 in Hc by done. by rewrite Hc. }
  destruct (cb_shrink_to_fit_spec cb) as (c & -> & Hwc & Hic & Hdc & Hbc & Hlc); [done..|]. simpl.
  rewrite Hbc, Hlc, (cb_len_data cb), Z.eqb_refl by done.
  destruct (cb_shrink_to_fit_spec ext) as (e & -> & Hwe' & Hie & Hde & Hbe & Hle); [done..|]. simpl.
  rewrite Hbe, Hle, (cb_len_data ext), Z.eqb_refl by done.
  eexists. split; [done|]. rewrite !cb_len_data in Hlen by done.
  split; [|split]; [| |unfold cb_data at 1; simpl; apply zslice_full].
  - unfold cb_wf; simpl. pose proof (zlen_nonneg (cb_data cb ++ cb_data ext)).
    rewrite !zlen_app in *. repeat split; try lia; unfold combine_checksums;
      destruct is_integrity_validation_disabled; try lia; apply crc32c_combine_u32.
  - apply cb_intact_alt. intros Hd. simpl. unfold combine_checksums. rewrite Hd.
    rewrite cb_intact_alt in Hic, Hie. rewrite Hic, Hie, Hbc, Hbe by done. apply crc32c_combine_app.
Qed.

(** What [shrink_to_fit] does to a possibly corrupt buffer: it fails or keeps the
    data together with the (in)validity of its checksum. *)
Lemma cb_shrink_to_fit_inv `{!Crc32cLaws} cb c :
  cb_wf cb → is_integrity_validation_disabled = false →
  ChecksummedBytes_shrink_to_fit cb = Ok c →
  cb_buffer c = cb_data cb ∧ ChecksummedBytes_len c = zlen (cb_data cb) ∧
  (cb_intact c ↔ cb_intact cb) ∧ is_u32 (cb_checksum c).
Proof.
  intros Hwf Hd Hs. pose proof Hs as Hs'. unfold ChecksummedBytes_shrink_to_fit in Hs.
  destruct (Z.eqb_spec (ChecksummedBytes_len cb) (zlen (cb_buffer cb))) as [Heq|Hne]; inv_outcome.
  - rewrite cb_len_data in * by done. split; [|split_and!; [done..|apply Hwf]].
    destruct Hwf as (?&?&?&?). unfold cb_data in *. rewrite zlen_zslice in Heq by done.
    assert (cb_start c = 0) as -> by lia. assert (cb_end c = zlen (cb_buffer c)) as -> by lia.
    by rewrite zslice_full.
  - match goal with Hv : ChecksummedBytes_validate cb = Ok ?u |- _ => destruct u; rename Hv into Hin end.
    destruct (cb_shrink_to_fit_spec cb Hwf Hin) as (c' & Hc' & Hwc & Hic & _ & Hb & Hl).
    rewrite Hs' in Hc'. injection Hc' as <-. rewrite Hl, cb_len_data by done. split_and!; [done..|apply Hwc].
Qed.

(** Integrity of appended data.  Whenever the result of [extend] can be
    turned into bytes, and at most one of the two operands was corrupt, then
    neither was, and the bytes are the concatenation of the operands: a single
    corruption of either buffer is always reported before the data is
    accessible, even where [extend] only combines the stored checksums. *)
Theorem extend_detects_corruption `{!Crc32cLaws, !Crc32cInjective} cb ext c bs :
  is_integrity_validation_disabled = false →
  cb_wf cb → cb_wf ext → cb_intact cb ∨ cb_intact ext →
  ChecksummedBytes_extend cb ext = Ok c →
  ChecksummedBytes_into_bytes c = Ok bs →
  cb_intact cb ∧ cb_intact ext ∧ bs = cb_data cb ++ cb_data ext.
Proof.
  intros Hd Hwf Hwfe Hone Hext Hbs.
  unfold ChecksummedBytes_into_bytes in Hbs. apply outcome_bind_ok in Hbs as ([] & Hv & Hbs).
  fold (cb_intact c) in Hv. unfold ChecksummedBytes_extend in Hext. rewrite !cb_is_empty_len in Hext.
  destruct (Z.eqb_spec (ChecksummedBytes_len ext) 0) as [He|He].
  { apply outcome_bind_ok in Hext as ([] & Hve & [= ->]).
    rewrite cb_buffer_slice_wf in Hbs by done. rewrite cb_len_data, zlen_0 in He by done.
    injection Hbs as <-. rewrite He, app_nil_r. done. }
  destruct (Z.eqb_spec (ChecksummedBytes_len cb) 0) as [Hc|Hc].
  { apply outcome_bind_ok in Hext as ([] & Hve & [= ->]).
    rewrite cb_buffer_slice_wf in Hbs by done. rewrite cb_len_data, zlen_0 in Hc by done.
    injection Hbs as <-. rewrite Hc. done. }
  apply outcome_bind_ok in Hext as (c1 & Hc1 & Hext). case_match; [|done].
  apply outcome_bind_ok in Hext as (c2 & Hc2 & Hext). case_match; [|done]. injection Hext as <-.
  destruct (cb_shrink_to_fit_inv cb c1) as (Hb1 & Hl1 & Hi1 & Hu1); [done..|].
  destruct (cb_shrink_to_fit_inv ext c2) as (Hb2 & Hl2 & Hi2 & Hu2); [done..|].
  rewrite cb_intact_alt in Hv. specialize (Hv Hd). simpl in Hv. unfold combine_checksums in Hv.
  rewrite Hd, Hb1, Hb2, Hl2, <- crc32c_combine_app in Hv.
  assert (cb_checksum c1 = crc32c_checksum (cb_data cb) ∧ cb_checksum c2 = crc32c_checksum (cb_data ext)) as [Hx1 Hx2].
  { destruct Hone as [Hone|Hone].
    - apply Hi1 in Hone. rewrite cb_intact_alt, Hb1 in Hone. split; [auto|]. rewrite (Hone Hd) in Hv.
      eapply crc32c_combine_inj_r; [done|apply crc32c_checksum_u32|done].
    - apply Hi2 in Hone. rewrite cb_intact_alt, Hb2 in Hone. split; [|auto]. rewrite (Hone Hd) in Hv.
      eapply crc32c_combine_inj_l; [done|apply crc32c_checksum_u32|done]. }
  split_and!; [apply Hi1|apply Hi2|]; [by apply cb_intact_alt; rewrite ?Hb1, ?Hb2..|].
  unfold ChecksummedBytes_buffer_slice in Hbs. simpl in Hbs. case_match; [|done].
  injection Hbs as <-. by rewrite zslice_full, Hb1, Hb2.
Qed.
End checksums.

(** A checksum with the documented laws that evaluates inside the kernel: bytes summed modulo 2^32. *)
Definition sum_checksum (bs : bytes) : Z :=
  zsum (λ b, Z.of_N (Byte.to_N b)) bs `mod` 2 ^ 32.

#[export] Instance sum_crc : Crc32c := {|
  crc32c_checksum := sum_checksum;
  crc32c_combine := λ x y _, (x + y) `mod` 2 ^ 32 |}.

#[export] Instance sum_crc_laws : Crc32cLaws.
Proof.
  split.
  - intros bs. by apply Z.mod_pos_bound.
  - intros x y n. by apply Z.mod_pos_bound.
  - done.
  - intros xs ys. simpl. unfold sum_checksum. rewrite zsum_app. symmetry. apply Zplus_mod.
Qed.

#[export] Instance sum_crc_injective : Crc32cInjective.
Proof.
  assert (∀ x x' y, is_u32 x → is_u32 x' → (x + y) `mod` 2 ^ 32 = (x' + y) `mod` 2 ^ 32 → x = x') as Hinj.
  { unfold is_u32. intros x x' y ?? Heq.
    rewrite <- (Z.mod_small x (2 ^ 32)), <- (Z.mod_small x' (2 ^ 32)) by done.
    replace x with (x + y - y) by lia. replace x' with (x' + y - y) by lia.
    by rewrite (Zminus_mod (x + y)), (Zminus_mod (x' + y)), Heq. }
  split; simpl; intros; [by eapply Hinj|]. eapply (Hinj _ _ x); [done..|].
  by rewrite !(Z.add_comm _ x).
Qed.

(** Validation is on. *)
Definition validating : IntegrityEnv := false.

Lemma extend_detects_corruption_witness :
  let a := ChecksummedBytes_new (env := validating) [x01; x02; x03] in
  let b := ChecksummedBytes_new (env := validating) [x04; x05] in
  ∃ c, ChecksummedBytes_extend (env := validating) a b = Ok c ∧
    cb_intact (env := validating) a ∧ cb_intact (env := validating) b ∧
    [x01; x02; x03; x04; x05] = cb_data a ++ cb_data b.
Proof.
  eexists. split; [vm_compute; reflexivity|].
  eapply (extend_detects_corruption (env := validating)); try by vm_compute.
  left. by vm_compute.
Defined.
