(* ===== verification/Part.v ===== *)
(** * Parts of an object

    Models of [mountpoint-s3-fs/src/object.rs] ([ObjectId]) and
    [prefetch/part.rs] ([Part]). *)

From S2P Require Import Prelude Checksums.
Local Open Scope Z_scope.

(** [ObjectId]: key and entity tag of one version of an object. *)
Record ObjectId := { oid_key : string; oid_etag : string }.
#[export] Instance ObjectId_eq_dec : EqDecision ObjectId.
Proof. solve_decision. Defined.

Inductive PartSource := Cache | S3.
#[export] Instance PartSource_eq_dec : EqDecision PartSource.
Proof. solve_decision. Defined.

Record Part := {
  part_id : ObjectId;
  part_offset : Z;
  part_bytes : ChecksummedBytes;
  part_source : PartSource;
}.

Inductive PartOperationError :=
| PartIntegrity (e : IntegrityError)
| IdMismatch (actual requested : ObjectId)
| OffsetMismatch (actual requested : Z).

Section part.
Context `{crc : Crc32c, env : IntegrityEnv}.
Implicit Types p : Part.

Definition Part_new (id : ObjectId) (offset : Z) (cb : ChecksummedBytes) (source : PartSource) : Part :=
  {| part_id := id; part_offset := offset; part_bytes := cb; part_source := source |}.

Definition Part_len p : Z := ChecksummedBytes_len (part_bytes p).
Definition Part_is_empty p : bool := ChecksummedBytes_is_empty (part_bytes p).
Definition Part_is_from_cache p : bool :=
  match part_source p with Cache => true | S3 => false end.

Definition Part_check p (id : ObjectId) (offset : Z) : outcome PartOperationError () :=
  if bool_decide (part_id p ≠ id) then Err (IdMismatch (part_id p) id)
  else if negb (part_offset p =? offset) then Err (OffsetMismatch (part_offset p) offset)
  else Ok ().

Definition Part_extend p (other : Part) : outcome PartOperationError Part :=
  let expected_offset := wadd (part_offset p) (Part_len p) in
  let! _ := Part_check other (part_id p) expected_offset in
  let! cb := outcome_map_err PartIntegrity (ChecksummedBytes_extend (part_bytes p) (part_bytes other)) in
  Ok (Part_new (part_id p) (part_offset p) cb (part_source p)).

Definition Part_into_bytes p (id : ObjectId) (offset : Z) : outcome PartOperationError ChecksummedBytes :=
  let! _ := Part_check p id offset in
  Ok (part_bytes p).

(** Returns the head, which replaces [self], and the tail. *)
Definition Part_split_off {E} p (at_ : Z) : outcome E (Part * Part) :=
  let! '(pre, suf) := ChecksummedBytes_split_off (part_bytes p) at_ in
  Ok (Part_new (part_id p) (part_offset p) pre (part_source p),
      Part_new (part_id p) (wadd (part_offset p) at_) suf (part_source p)).

(** ** Parts that hold a range of an object's content *)

Section of_object.
Context (id : ObjectId) (obj : bytes).

(** [p] is a non-empty, intact part of the object. *)
Definition part_of p : Prop :=
  part_id p = id ∧ cb_wf (part_bytes p) ∧ cb_intact (part_bytes p) ∧ 0 < Part_len p ∧
  0 ≤ part_offset p ∧ part_offset p + Part_len p ≤ zlen obj ∧ zlen obj < u64_modulus ∧
  cb_data (part_bytes p) = zslice (part_offset p) (part_offset p + Part_len p) obj.

(** The parts cover the byte range [from, to) of the object, in order. *)
Fixpoint parts_cover (from to : Z) (ps : list Part) : Prop :=
  match ps with
  | [] => from = to
  | p :: ps => part_of p ∧ part_offset p = from ∧ parts_cover (from + Part_len p) to ps
  end.

Lemma part_of_len p : part_of p → 0 < Part_len p.
Proof. by intros (?&?&?&?&?). Qed.

Lemma part_of_split p n :
  part_of p → 0 < n < Part_len p →
  ∃ pre suf, (∀ E, Part_split_off (E:=E) p n = Ok (pre, suf)) ∧
    part_of pre ∧ part_of suf ∧ part_offset pre = part_offset p ∧ Part_len pre = n ∧
    part_offset suf = part_offset p + n ∧ Part_len suf = Part_len p - n.
Proof.
  intros (Hid & Hwf & Hin & Hpos & Hoff & Hend & Hobj & Hdata) Hn.
  destruct (cb_split_off_spec (E:=False) (part_bytes p) n) as
    (pre & suf & Hs & Hw1 & Hw2 & Hi1 & Hi2 & Hd1 & Hd2 & Hl1 & Hl2); [done|fold (Part_len p); lia|].
  exists (Part_new (part_id p) (part_offset p) pre (part_source p)),
    (Part_new (part_id p) (part_offset p + n) suf (part_source p)).
  fold (Part_len p) in Hl2.
  split.
  { intros E. unfold Part_split_off. unfold ChecksummedBytes_split_off in *.
    destruct (n <? _); [|done]. simpl in *. injection Hs as <- <-.
    rewrite (wadd_small (part_offset p)) by u64_lia. done. }
  unfold part_of, Part_len; simpl; rewrite ?Hl1, ?Hl2, ?Hd1, ?Hd2, ?Hdata.
  split_and!; try done; try lia; try tauto.
  - apply ztake_zslice. lia.
  - rewrite zdrop_zslice by lia. f_equal. lia.
Qed.

Lemma parts_cover_le from to ps : parts_cover from to ps → from ≤ to.
Proof.
  revert from. induction ps as [|p ps IH]; simpl; intros from; [lia|].
  intros (Hp & _ & Hc). apply part_of_len in Hp. apply IH in Hc. lia.
Qed.

Lemma parts_cover_app from to ps qs :
  parts_cover from to (ps ++ qs) ↔ ∃ mid, parts_cover from mid ps ∧ parts_cover mid to qs.
Proof.
  revert from. induction ps as [|p ps IH]; simpl; intros from; [naive_solver|].
  rewrite IH. naive_solver.
Qed.

Lemma parts_cover_sum from to ps : parts_cover from to ps → zsum Part_len ps = to - from.
Proof.
  revert from. induction ps as [|p ps IH]; simpl; intros from; [lia|].
  intros (Hp & _ & Hc). apply IH in Hc. lia.
Qed.

Lemma parts_cover_data from to ps :
  0 ≤ from → parts_cover from to ps →
  mjoin (map (λ p, cb_data (part_bytes p)) ps) = zslice from to obj.
Proof.
  revert from. induction ps as [|p ps IH]; simpl; intros from Hf.
  { intros ->. by rewrite zslice_empty. }
  intros (Hp & Hoff & Hc). pose proof (parts_cover_le _ _ _ Hc).
  destruct Hp as (Hid & Hwf & Hin & Hpos & Hoff' & Hend & Hobj & Hdata).
  rewrite Hdata, Hoff, (IH (from + Part_len p)) by (done || lia). apply zslice_app; lia.
Qed.
End of_object.
End part.
