(* ===== verification/SeekWindow.v ===== *)
(** * Backward seek window of a prefetch stream

    Model of [mountpoint-s3-fs/src/prefetch/seek_window.rs].  The deque is a
    list whose head is the oldest part; loops that pop parts recurse on it. *)

From S2P Require Import Prelude Checksums Part.
Local Open Scope Z_scope.

Record SeekWindow := {
  sw_parts : list Part;
  sw_max_size : Z;
  sw_current_size : Z;
}.

Section seek_window.
Context `{crc : Crc32c, env : IntegrityEnv}.
Implicit Types sw : SeekWindow.

Definition SeekWindow_new {E} (max_size : Z) : outcome E SeekWindow :=
  assert! 0 <? max_size in
  Ok {| sw_parts := []; sw_max_size := max_size; sw_current_size := 0 |}.

Definition SeekWindow_clear sw : SeekWindow :=
  {| sw_parts := []; sw_max_size := sw_max_size sw; sw_current_size := 0 |}.

(** The [while] loop of [push]: drop parts from the front until [need] bytes fit. *)
Fixpoint SeekWindow_push_evict {E} (parts : list Part) (max_size current_size need : Z)
  : outcome E (list Part * Z) :=
  if wsub max_size current_size <? need then
    match parts with
    | [] => Panic
    | p :: parts => SeekWindow_push_evict parts max_size (wsub current_size (Part_len p)) need
    end
  else Ok (parts, current_size).

Definition SeekWindow_push {E} sw (part : Part) : outcome E SeekWindow :=
  if sw_max_size sw <? Part_len part then Ok (SeekWindow_clear sw) else
  let! '(parts, current_size) :=
    SeekWindow_push_evict (sw_parts sw) (sw_max_size sw) (sw_current_size sw) (Part_len part) in
  Ok {| sw_parts := parts ++ [part]; sw_max_size := sw_max_size sw;
        sw_current_size := wadd current_size (Part_len part) |}.

(** The loop of [read_back].  [rparts] is the deque from back to front; the
    result accumulates at the front of [acc].  One iteration pops a part, and
    only the last one can put a remainder back, so [S (length parts)]
    iterations are enough. *)
Fixpoint SeekWindow_read_back_loop {E} (fuel : nat) (rparts : list Part) (current_size len : Z)
    (acc : list Part) : outcome E (list Part * Z * list Part) :=
  if len =? 0 then Ok (rparts, current_size, acc) else
  match fuel, rparts with
  | S fuel, part :: rparts =>
      if len <? Part_len part then
        let! '(rest, back) := Part_split_off part (Part_len part - len) in
        SeekWindow_read_back_loop fuel (rest :: rparts) (wsub current_size (Part_len back))
          (wsub len (Part_len back)) (back :: acc)
      else
        SeekWindow_read_back_loop fuel rparts (wsub current_size (Part_len part))
          (wsub len (Part_len part)) (part :: acc)
  | _, _ => Panic
  end.

(** Returns the updated window and the parts read, [None] when there is not enough data. *)
Definition SeekWindow_read_back {E} sw (len : Z) : outcome E (SeekWindow * option (list Part)) :=
  if sw_current_size sw <? len then Ok (sw, None) else
  let! '(rparts, current_size, result) :=
    SeekWindow_read_back_loop (S (length (sw_parts sw))) (rev (sw_parts sw)) (sw_current_size sw) len [] in
  Ok ({| sw_parts := rev rparts; sw_max_size := sw_max_size sw; sw_current_size := current_size |},
      Some result).

(** ** Invariant: the window holds a contiguous run of parts that ends at [e] *)

Section of_object.
Context (id : ObjectId) (obj : bytes).

Definition sw_inv (e : Z) sw : Prop :=
  0 < sw_max_size sw < u64_modulus ∧
  0 ≤ sw_current_size sw ≤ sw_max_size sw ∧ sw_current_size sw ≤ e ∧
  parts_cover id obj (e - sw_current_size sw) e (sw_parts sw).

Lemma sw_clear_inv e sw : 0 ≤ e → 0 < sw_max_size sw < u64_modulus → sw_inv e (SeekWindow_clear sw).
Proof. intros. unfold sw_inv; simpl. split_and!; lia. Qed.

Lemma sw_evict_spec {E} parts max_size cur need e :
  0 < max_size < u64_modulus → 0 ≤ cur ≤ max_size → cur ≤ e → 0 < need ≤ max_size →
  parts_cover id obj (e - cur) e parts →
  ∃ k, let cur' := zsum Part_len (drop k parts) in
    SeekWindow_push_evict (E:=E) parts max_size cur need = Ok (drop k parts, cur') ∧
    parts_cover id obj (e - cur') e (drop k parts) ∧ 0 ≤ cur' ≤ cur ∧ cur' + need ≤ max_size ∧
    (k = 0%nat ∨ max_size < zsum Part_len (drop (k - 1) parts) + need).
Proof.
  revert cur. induction parts as [|p parts IH]; intros cur Hmax Hcur He Hneed Hcov; simpl.
  - simpl in Hcov. assert (cur = 0) as -> by lia. rewrite wsub_small by u64_lia.
    rewrite (proj2 (Z.ltb_ge _ _)) by lia.
    exists 0%nat. simpl. split_and!; try done; lia.
  - rewrite wsub_small by u64_lia. destruct (Z.ltb_spec (max_size - cur) need).
    + pose proof (parts_cover_sum _ _ _ _ _ Hcov) as Hsum. simpl in Hsum.
      destruct Hcov as (Hp & Hoff & Hcov). pose proof (part_of_len _ _ _ Hp).
      pose proof (parts_cover_le _ _ _ _ _ Hcov).
      rewrite wsub_small by u64_lia.
      destruct (IH (cur - Part_len p)) as (k & Hev & Hc & Hle & Hfit & Hmin); [lia..| |].
      { by replace (e - (cur - Part_len p)) with (e - cur + Part_len p) by lia. }
      exists (S k). simpl. split_and!; try done; try lia. right.
      destruct k as [|k]; simpl in *; rewrite ?drop_0; [simpl; lia|].
      destruct Hmin; [done|]. by rewrite Nat.sub_0_r in *.
    + exists 0%nat. pose proof (parts_cover_sum _ _ _ _ _ Hcov) as Hsum. simpl in Hsum |- *.
      rewrite Hsum. replace (e - (e - cur)) with cur by lia.
      split_and!; try done; try lia; apply Hcov.
Qed.

Lemma sw_push_spec {E} e sw p :
  sw_inv e sw → part_of id obj p → part_offset p = e →
  ∃ sw', SeekWindow_push (E:=E) sw p = Ok sw' ∧ sw_inv (e + Part_len p) sw' ∧
    sw_max_size sw' = sw_max_size sw ∧
    (Part_len p ≤ sw_max_size sw →
     ∃ k, sw_parts sw' = drop k (sw_parts sw) ++ [p] ∧
       (k = 0%nat ∨
        sw_max_size sw < zsum Part_len (drop (k - 1) (sw_parts sw)) + Part_len p)).
Proof.
  intros (Hmax & Hcur & He & Hcov) Hp Hoff. pose proof (part_of_len _ _ _ Hp) as Hlen.
  unfold SeekWindow_push. destruct (Z.ltb_spec (sw_max_size sw) (Part_len p)).
  - eexists. split; [done|]. split; [apply sw_clear_inv; lia|]. split; [done|]. lia.
  - destruct (sw_evict_spec (E:=E) (sw_parts sw) (sw_max_size sw) (sw_current_size sw) (Part_len p) e)
      as (k & -> & Hc & Hle & Hfit & Hmin); [lia..|done|]. simpl.
    rewrite wadd_small by u64_lia. eexists. split; [done|]. split; [|by eauto].
    unfold sw_inv; simpl. split_and!; try lia. apply parts_cover_app. exists e. simpl.
    replace (e + Part_len p - _) with (e - zsum Part_len (drop k (sw_parts sw))) by lia.
    split_and!; done.
Qed.

Lemma sw_read_back_loop_spec {E} fuel rparts cur len acc s e e' :
  parts_cover id obj s e (rev rparts) → parts_cover id obj e e' acc →
  cur = e - s → 0 ≤ len ≤ cur → cur < u64_modulus → (length rparts < fuel)%nat →
  ∃ rparts' ps, SeekWindow_read_back_loop (E:=E) fuel rparts cur len acc = Ok (rparts', cur - len, ps) ∧
    parts_cover id obj s (e - len) (rev rparts') ∧ parts_cover id obj (e - len) e' ps.
Proof.
  revert rparts cur len acc e. induction fuel as [|fuel IH]; intros rparts cur len acc e Hc Ha Hcur Hlen Hu Hf; [lia|].
  simpl. destruct (Z.eqb_spec len 0) as [->|Hne].
  { do 2 eexists. by rewrite !Z.sub_0_r. }
  destruct rparts as [|p rparts]; simpl in *; [lia|].
  apply parts_cover_app in Hc as (m & Hc & Hp & Hoff & Hm). simpl in Hm.
  pose proof (part_of_len _ _ _ Hp). pose proof (parts_cover_le _ _ _ _ _ Hc).
  destruct (Z.ltb_spec len (Part_len p)).
  - destruct (part_of_split id obj p (Part_len p - len)) as
      (rest & back & Hs & Hr & Hb & Hro & Hrl & Hbo & Hbl); [done|lia|].
    rewrite Hs. simpl. rewrite Hbl. no_wrap. replace (Part_len p - (Part_len p - len)) with len in * by lia.
    destruct fuel; [lia|]. simpl. rewrite Z.sub_diag, Z.eqb_refl.
    do 2 eexists. split; [done|]. split; [|simpl; split_and!; [done|lia|]].
    + simpl. apply parts_cover_app. exists m. simpl. split_and!; try done; lia.
    + by replace (e - len + Part_len back) with e by lia.
  - no_wrap. destruct (IH rparts (cur - Part_len p) (len - Part_len p) (p :: acc) m)
      as (r' & ps & -> & Hc1 & Hc2); try lia; [done|simpl; split_and!; try done|].
    { by replace (m + Part_len p) with e by lia. }
    exists r', ps. replace (cur - Part_len p - (len - Part_len p)) with (cur - len) by lia.
    by replace (e - len) with (m - (len - Part_len p)) by lia.
Qed.

Lemma sw_read_back_spec {E} e sw len :
  sw_inv e sw → 0 ≤ len →
  if bool_decide (len ≤ sw_current_size sw) then
    ∃ sw' ps, SeekWindow_read_back (E:=E) sw len = Ok (sw', Some ps) ∧ sw_inv (e - len) sw' ∧
      sw_max_size sw' = sw_max_size sw ∧ parts_cover id obj (e - len) e ps
  else SeekWindow_read_back (E:=E) sw len = Ok (sw, None).
Proof.
  intros (Hmax & Hcur & He & Hcov) Hlen. unfold SeekWindow_read_back.
  case_bool_decide; [|by rewrite (proj2 (Z.ltb_lt _ _)) by lia].
  rewrite (proj2 (Z.ltb_ge _ _)) by lia.
  destruct (sw_read_back_loop_spec (E:=E) (S (length (sw_parts sw))) (rev (sw_parts sw))
    (sw_current_size sw) len [] (e - sw_current_size sw) e e) as (r' & ps & -> & Hc1 & Hc2);
    try lia; [by rewrite rev_involutive|done|by rewrite length_rev; lia|].
  simpl. do 2 eexists. split; [done|]. split; [|done]. unfold sw_inv; simpl.
  split_and!; try lia. by replace (e - len - (sw_current_size sw - len)) with (e - sw_current_size sw) by lia.
Qed.

(** The seek window is a bounded buffer of the bytes just read: pushing the
    part that follows the window never panics, keeps the window contiguous and
    within [max_size], and evicts only as many of the oldest parts as needed;
    reading back [len] bytes returns exactly the parts covering the last [len]
    bytes before the current offset, or leaves the window alone when it holds
    fewer bytes. *)
Theorem seek_window_push_read_back e sw p len :
  sw_inv e sw → part_of id obj p → part_offset p = e → 0 ≤ len →
  ∃ sw1, SeekWindow_push (E:=False) sw p = Ok sw1 ∧
    sw_inv (e + Part_len p) sw1 ∧
    (Part_len p ≤ sw_max_size sw →
     ∃ k, sw_parts sw1 = drop k (sw_parts sw) ++ [p] ∧
       (k = 0%nat ∨ sw_max_size sw < zsum Part_len (drop (k - 1) (sw_parts sw)) + Part_len p)) ∧
    if bool_decide (len ≤ sw_current_size sw1) then
      ∃ sw2 ps, SeekWindow_read_back (E:=False) sw1 len = Ok (sw2, Some ps) ∧
        sw_inv (e + Part_len p - len) sw2 ∧
        mjoin (map (λ q, cb_data (part_bytes q)) ps) = zslice (e + Part_len p - len) (e + Part_len p) obj
    else SeekWindow_read_back (E:=False) sw1 len = Ok (sw1, None).
Proof.
  intros Hinv Hp Hoff Hlen.
  destruct (sw_push_spec (E:=False) e sw p) as (sw1 & Hpush & Hinv1 & Hmax & Hk); [done..|].
  exists sw1. split_and!; try done.
  pose proof (sw_read_back_spec (E:=False) _ sw1 len Hinv1 Hlen) as Hrb.
  case_bool_decide; [|done]. destruct Hrb as (sw2 & ps & ? & ? & ? & Hcov).
  exists sw2, ps. split_and!; try done. eapply parts_cover_data; [|done].
  destruct Hinv1 as (?&?&?&?). lia.
Qed.
End of_object.
End seek_window.

(** A part of a test object, as the unit tests build them. *)
Definition test_id : ObjectId := {| oid_key := "key"; oid_etag := "etag" |}.
Definition test_part (obj : bytes) (from to : Z) : Part :=
  Part_new test_id from (ChecksummedBytes_new (env := validating) (zslice from to obj)) S3.

Lemma seek_window_push_read_back_witness :
  let obj := [x01; x02; x03; x04; x05; x06] in
  let sw := {| sw_parts := [test_part obj 0 2; test_part obj 2 4]; sw_max_size := 4; sw_current_size := 4 |} in
  ∃ sw1, SeekWindow_push (E:=False) sw (test_part obj 4 6) = Ok sw1 ∧
    ∃ sw2 ps, SeekWindow_read_back (E:=False) sw1 3 = Ok (sw2, Some ps) ∧
      mjoin (map (λ q, cb_data (part_bytes q)) ps) = [x04; x05; x06].
Proof.
  intros obj sw.
  destruct (seek_window_push_read_back (env := validating) test_id obj 4 sw (test_part obj 4 6) 3)
    as (sw1 & Hpush & _ & _ & Hrb); [by vm_compute..|].
  exists sw1. split; [done|]. vm_compute in Hpush. injection Hpush as <-.
  destruct Hrb as (sw2 & ps & Hrb & _ & Hd). exists sw2, ps. split; [exact Hrb|exact Hd].
Defined.
