(* ===== verification/RequestRange.v ===== *)
(** * Request ranges

    Model of [RequestRange] and of the request configuration of
    [mountpoint-s3-fs/src/prefetch/part_stream.rs]: the byte range of an object
    that a part stream serves, its trimming and its alignment to part boundaries. *)

From S2P Require Import Prelude.
Local Open Scope Z_scope.

Record RequestRange := {
  rr_object_size : Z;
  rr_offset : Z;
  rr_size : Z;
}.

Implicit Types r : RequestRange.

Definition RequestRange_new (object_size offset size : Z) : RequestRange :=
  {| rr_object_size := object_size; rr_offset := offset;
     rr_size := Z.min size (sat_sub object_size offset) |}.

Definition RequestRange_is_empty r : bool := rr_size r =? 0.
Definition RequestRange_start r : Z := rr_offset r.
Definition RequestRange_end r : Z := wadd (rr_offset r) (rr_size r).

Definition RequestRange_trim_start r (start_offset : Z) : RequestRange :=
  let e := RequestRange_end r in
  let offset := clampZ start_offset (rr_offset r) e in
  {| rr_object_size := rr_object_size r; rr_offset := offset; rr_size := sat_sub e offset |}.

Definition RequestRange_trim_end r (end_offset : Z) : RequestRange :=
  let e := clampZ end_offset (rr_offset r) (RequestRange_end r) in
  {| rr_object_size := rr_object_size r; rr_offset := rr_offset r; rr_size := sat_sub e (rr_offset r) |}.

(** The new size computed by [align]. *)
Definition RequestRange_align_size r (part_alignment : Z) (trim_only : bool) : Z :=
  let offset_in_part := rr_offset r `mod` part_alignment in
  if negb (offset_in_part =? 0) then
    let remaining_in_part := part_alignment - offset_in_part in
    if trim_only then Z.min (rr_size r) remaining_in_part else remaining_in_part
  else if rr_size r <? part_alignment then
    if trim_only then rr_size r else part_alignment
  else
    let remainder := RequestRange_end r `mod` part_alignment in
    if trim_only || (remainder =? 0) then rr_size r - remainder
    else wadd (rr_size r) (part_alignment - remainder).

(** A remainder by zero panics. *)
Definition RequestRange_align {E} r (part_alignment : Z) (trim_only : bool) : outcome E RequestRange :=
  assert! negb (part_alignment =? 0) in
  Ok (RequestRange_new (rr_object_size r) (rr_offset r) (RequestRange_align_size r part_alignment trim_only)).

(** [initial_request_size] and [read_part_size] are the fields of
    [RequestTaskConfig] the method reads. *)
Definition RequestTaskConfig_initial_read_window_size (initial_request_size read_part_size : Z) : Z :=
  if 0 <? initial_request_size then initial_request_size else read_part_size.

(** ** Well-formed ranges: within the object, or empty *)

Definition rr_wf r : Prop :=
  is_u64 (rr_object_size r) ∧ is_u64 (rr_offset r) ∧ 0 ≤ rr_size r ∧
  (rr_size r = 0 ∨ rr_offset r + rr_size r ≤ rr_object_size r).

Lemma rr_new_wf object_size offset size :
  is_u64 object_size → is_u64 offset → 0 ≤ size → rr_wf (RequestRange_new object_size offset size).
Proof. unfold rr_wf; simpl. intros. u64_lia. Qed.

Lemma rr_end_wf r : rr_wf r → RequestRange_end r = rr_offset r + rr_size r.
Proof. intros (?&?&?&?). unfold RequestRange_end. apply wadd_small. u64_lia. Qed.

Lemma rr_trim_start_spec r x :
  rr_wf r →
  let t := RequestRange_trim_start r x in
  rr_wf t ∧ rr_object_size t = rr_object_size r ∧
  rr_offset t = Z.max (rr_offset r) (Z.min x (RequestRange_end r)) ∧
  RequestRange_end t = RequestRange_end r.
Proof.
  intros Hwf t. pose proof (rr_end_wf r Hwf) as He. destruct Hwf as (?&?&?&?).
  assert (rr_offset t = Z.max (rr_offset r) (Z.min x (RequestRange_end r))) as Ho.
  { unfold t; simpl. apply clampZ_spec. lia. }
  assert (rr_size t = RequestRange_end r - rr_offset t) as Hs.
  { unfold t in *; simpl in *. unfold sat_sub. lia. }
  assert (rr_wf t) as Hwt.
  { unfold rr_wf. rewrite Hs, Ho. change (rr_object_size t) with (rr_object_size r). u64_lia. }
  split_and!; try done. rewrite (rr_end_wf t) by done. lia.
Qed.

Lemma rr_trim_end_spec r x :
  rr_wf r →
  let t := RequestRange_trim_end r x in
  rr_wf t ∧ rr_object_size t = rr_object_size r ∧ rr_offset t = rr_offset r ∧
  RequestRange_end t = Z.max (rr_offset r) (Z.min x (RequestRange_end r)).
Proof.
  intros Hwf t. pose proof (rr_end_wf r Hwf) as He. destruct Hwf as (?&?&?&?).
  assert (rr_size t = Z.max (rr_offset r) (Z.min x (RequestRange_end r)) - rr_offset r) as Hs.
  { unfold t; simpl. rewrite clampZ_spec by lia. unfold sat_sub. lia. }
  assert (rr_wf t) as Hwt.
  { unfold rr_wf. rewrite Hs. change (rr_object_size t) with (rr_object_size r).
    change (rr_offset t) with (rr_offset r). u64_lia. }
  split_and!; try done. rewrite (rr_end_wf t) by done. rewrite Hs.
  change (rr_offset t) with (rr_offset r). lia.
Qed.

Lemma align_size_spec r part_alignment trim_only :
  rr_wf r → 0 < rr_size r → 0 < part_alignment → rr_object_size r + part_alignment < u64_modulus →
  let sz := RequestRange_align_size r part_alignment trim_only in
  0 < sz ∧
  (trim_only = true → sz ≤ rr_size r ∧ (sz = rr_size r ∨ (rr_offset r + sz) `mod` part_alignment = 0)) ∧
  (trim_only = false → (rr_offset r + sz) `mod` part_alignment = 0).
Proof.
  intros Hwf Hpos Hal Hover. pose proof (rr_end_wf r Hwf) as He. destruct Hwf as (Ho & Hof & Hs & Hin).
  pose proof (Z.mod_pos_bound (rr_offset r) part_alignment Hal) as Hm1.
  pose proof (Z.mod_pos_bound (RequestRange_end r) part_alignment Hal) as Hm2.
  pose proof (Z.div_mod (rr_offset r) part_alignment ltac:(lia)) as Hd1.
  pose proof (Z.div_mod (RequestRange_end r) part_alignment ltac:(lia)) as Hd2.
  assert (∀ x q, x = part_alignment * q → x `mod` part_alignment = 0) as Hmul
    by (intros x q ->; rewrite Z.mul_comm; apply Z.mod_mul; lia).
  unfold RequestRange_align_size. simpl.
  destruct (Z.eqb_spec (rr_offset r `mod` part_alignment) 0) as [Hz|Hz]; simpl.
  - destruct (Z.ltb_spec (rr_size r) part_alignment) as [Hlt|Hge].
    + destruct trim_only; (split_and!; [lia|naive_solver lia|]); [done|]. intros _.
      apply (Hmul _ (rr_offset r / part_alignment + 1)). lia.
    + assert (rr_size r - RequestRange_end r `mod` part_alignment > 0) as Hgt.
      { destruct (Z.eqb_spec (rr_size r) part_alignment); [|lia].
        assert (RequestRange_end r `mod` part_alignment = 0); [|lia].
        apply (Hmul _ (rr_offset r / part_alignment + 1)). lia. }
      destruct (Z.eqb_spec (RequestRange_end r `mod` part_alignment) 0) as [Hr|Hr];
        rewrite ?orb_true_r, ?orb_false_r.
      * split_and!; [lia|intros; split; [lia|]; left; lia|intros _].
        replace (rr_offset r + _) with (RequestRange_end r) by lia. done.
      * destruct trim_only; rewrite ?wadd_small by u64_lia; (split_and!; [lia| |]); try done; intros _.
        -- split; [lia|right]. apply (Hmul _ (RequestRange_end r / part_alignment)). lia.
        -- apply (Hmul _ (RequestRange_end r / part_alignment + 1)). lia.
  - assert ((rr_offset r + (part_alignment - rr_offset r `mod` part_alignment)) `mod` part_alignment = 0) as Hfull.
    { apply (Hmul _ (rr_offset r / part_alignment + 1)). lia. }
    destruct trim_only; (split_and!; [lia| |]); try done; intros _. split; [lia|].
    destruct (Z.min_spec (rr_size r) (part_alignment - rr_offset r `mod` part_alignment)) as [[_ ->]|[_ ->]]; auto.
Qed.
