(* ===== verification/MemLimiter.v ===== *)
(** * Pool statistics and the memory limiter

    Models of [mountpoint-s3-fs/src/memory/stats.rs] ([BufferKind], [PoolStats],
    [SizePoolStats]) and [mountpoint-s3-fs/src/mem_limiter.rs]
    ([MemoryLimiter]).  The limiter is first modelled as sequential state
    passing, for its clients; then its compare-and-exchange loop is modelled as
    the interleaved steps of concurrent threads. *)

From S2P Require Import Prelude.
Local Open Scope Z_scope.

(** ** Statistics of the buffer pool *)

Inductive BufferKind := GetObject | PutObject | DiskCache | Append | Other.
#[export] Instance BufferKind_eq_dec : EqDecision BufferKind.
Proof. solve_decision. Defined.

Inductive MetaRequestType := MetaDefault | MetaGetObject | MetaPutObject | MetaCopyObject.

Definition BufferKind_from_MetaRequestType (value : MetaRequestType) : BufferKind :=
  match value with
  | MetaDefault | MetaCopyObject => Other
  | MetaGetObject => GetObject
  | MetaPutObject => PutObject
  end.

(** [[AtomicUsize; BUFFER_KIND_COUNT]] indexed by [BufferKind]. *)
Abbreviation KindCounters := (BufferKind → Z).

Record PoolStats := { reserved_bytes : KindCounters }.
Definition PoolStats_default : PoolStats := {| reserved_bytes := λ _, 0 |}.
Definition PoolStats_reserve_bytes (s : PoolStats) (n : Z) (kind : BufferKind) : PoolStats :=
  {| reserved_bytes := <[kind := wadd (reserved_bytes s kind) n]> (reserved_bytes s) |}.
Definition PoolStats_release_bytes (s : PoolStats) (n : Z) (kind : BufferKind) : PoolStats :=
  {| reserved_bytes := <[kind := wsub (reserved_bytes s kind) n]> (reserved_bytes s) |}.

(** ** The limiter *)

Definition MINIMUM_MEM_LIMIT : Z := 512 * 1024 * 1024.

Record MemoryLimiter := {
  ml_mem_limit : Z;
  ml_mem_reserved : Z;
  ml_additional_mem_reserved : Z;
  ml_pool : PoolStats;
}.
Implicit Types ml : MemoryLimiter.

Definition MemoryLimiter_new (pool : PoolStats) (mem_limit : Z) : MemoryLimiter :=
  let min_reserved := 128 * 1024 * 1024 in
  let reserved_mem := Z.max (mem_limit / 8) min_reserved in
  {| ml_mem_limit := mem_limit; ml_mem_reserved := 0;
     ml_additional_mem_reserved := reserved_mem; ml_pool := pool |}.

Definition ml_set_reserved ml (r : Z) : MemoryLimiter :=
  {| ml_mem_limit := ml_mem_limit ml; ml_mem_reserved := r;
     ml_additional_mem_reserved := ml_additional_mem_reserved ml; ml_pool := ml_pool ml |}.

Definition MemoryLimiter_pool_mem_reserved (pool : PoolStats) : Z :=
  wadd (reserved_bytes pool PutObject) (reserved_bytes pool Other).

Definition MemoryLimiter_reserve ml (size : Z) : MemoryLimiter :=
  ml_set_reserved ml (wadd (ml_mem_reserved ml) size).

Definition MemoryLimiter_release ml (size : Z) : MemoryLimiter :=
  ml_set_reserved ml (wsub (ml_mem_reserved ml) size).

(** The test of one iteration of the loop in [try_reserve]: the value to store
    for the value [mem_reserved] that was loaded, if there is enough memory. *)
Definition try_reserve_check (limit additional : Z) (pool : PoolStats) (mem_reserved size : Z) : option Z :=
  let new_mem_reserved := sat_add mem_reserved size in
  let pool_mem_reserved := MemoryLimiter_pool_mem_reserved pool in
  let new_total_mem_usage := sat_add (sat_add new_mem_reserved pool_mem_reserved) additional in
  if limit <? new_total_mem_usage then None else Some new_mem_reserved.

(** Without interference the first exchange succeeds. *)
Definition MemoryLimiter_try_reserve ml (size : Z) : bool * MemoryLimiter :=
  match try_reserve_check (ml_mem_limit ml) (ml_additional_mem_reserved ml) (ml_pool ml) (ml_mem_reserved ml) size with
  | None => (false, ml)
  | Some r => (true, ml_set_reserved ml r)
  end.

Definition MemoryLimiter_available_mem ml : Z :=
  sat_sub (sat_sub (sat_sub (ml_mem_limit ml) (ml_mem_reserved ml))
    (MemoryLimiter_pool_mem_reserved (ml_pool ml))) (ml_additional_mem_reserved ml).

Lemma pool_mem_reserved_u64 pool : is_u64 (MemoryLimiter_pool_mem_reserved pool).
Proof. apply wrap64_is_u64. Qed.

Lemma try_reserve_check_Some limit additional pool r size r' :
  0 ≤ additional → limit ≤ u64_max → 0 ≤ r → 0 ≤ size →
  try_reserve_check limit additional pool r size = Some r' →
  r + size + MemoryLimiter_pool_mem_reserved pool + additional ≤ limit ∧ r' = r + size ∨ limit = u64_max.
Proof.
  intros ???? Hc. pose proof (pool_mem_reserved_u64 pool).
  unfold try_reserve_check in Hc. case_Z; [done|]. injection Hc as <-.
  unfold sat_add in *. u64_lia.
Qed.

(** A request that [available_mem] covers is accepted. *)
Lemma try_reserve_available ml size :
  ml_mem_limit ml < u64_max → 0 ≤ ml_mem_reserved ml → 0 ≤ ml_additional_mem_reserved ml → 0 < size →
  (MemoryLimiter_try_reserve ml size).1 = (size <=? MemoryLimiter_available_mem ml).
Proof.
  intros. pose proof (pool_mem_reserved_u64 (ml_pool ml)).
  unfold MemoryLimiter_try_reserve, try_reserve_check, MemoryLimiter_available_mem.
  case_Z; simpl; symmetry; [apply Z.leb_gt|apply Z.leb_le]; unfold sat_add, sat_sub in *; u64_lia.
Qed.

(** ** Concurrent threads

    A thread is between calls, or inside [try_reserve] with the value of the
    atomic it last observed.  [held] records what the thread has reserved and
    not released. *)
Inductive thread :=
| Idle (held : Z)
| Loaded (held size observed : Z).

Definition thread_held (t : thread) : Z :=
  match t with Idle h | Loaded h _ _ => h end.

(** [forced] sums the sizes passed to the unconditional [reserve]. *)
Record machine := { m_reserved : Z; m_threads : list thread; m_forced : Z }.

Definition m_held (m : machine) : Z := zsum thread_held (m_threads m).

Section concurrent.
Context (limit additional : Z).

Inductive mem_step : machine → machine → Prop :=
| step_reserve m i h size :
    m_threads m !! i = Some (Idle h) → 0 ≤ size →
    mem_step m {| m_reserved := wadd (m_reserved m) size;
                  m_threads := <[i := Idle (h + size)]> (m_threads m);
                  m_forced := m_forced m + size |}
| step_release m i h size :
    m_threads m !! i = Some (Idle h) → 0 ≤ size ≤ h →
    mem_step m {| m_reserved := wsub (m_reserved m) size;
                  m_threads := <[i := Idle (h - size)]> (m_threads m);
                  m_forced := m_forced m |}
| step_try_load m i h size :
    m_threads m !! i = Some (Idle h) → 0 ≤ size →
    mem_step m {| m_reserved := m_reserved m;
                  m_threads := <[i := Loaded h size (m_reserved m)]> (m_threads m);
                  m_forced := m_forced m |}
| step_try_reject m i h size observed pool :
    m_threads m !! i = Some (Loaded h size observed) →
    try_reserve_check limit additional pool observed size = None →
    mem_step m {| m_reserved := m_reserved m;
                  m_threads := <[i := Idle h]> (m_threads m);
                  m_forced := m_forced m |}
| step_try_exchange m i h size observed pool new :
    m_threads m !! i = Some (Loaded h size observed) →
    try_reserve_check limit additional pool observed size = Some new →
    m_reserved m = observed →
    mem_step m {| m_reserved := new;
                  m_threads := <[i := Idle (h + size)]> (m_threads m);
                  m_forced := m_forced m |}
| step_try_retry m i h size observed pool new :
    (* another thread changed the atomic, or [compare_exchange_weak] failed spuriously *)
    m_threads m !! i = Some (Loaded h size observed) →
    try_reserve_check limit additional pool observed size = Some new →
    mem_step m {| m_reserved := m_reserved m;
                  m_threads := <[i := Loaded h size (m_reserved m)]> (m_threads m);
                  m_forced := m_forced m |}.

Definition mem_init (m : machine) : Prop :=
  m_reserved m = 0 ∧ m_forced m = 0 ∧ Forall (λ t, t = Idle 0) (m_threads m).

Definition thread_wf (t : thread) : Prop :=
  match t with Idle h => 0 ≤ h | Loaded h size o => 0 ≤ h ∧ 0 ≤ size ∧ 0 ≤ o end.

Definition mem_inv (m : machine) : Prop :=
  0 ≤ m_forced m ∧ 0 ≤ m_reserved m ∧ Forall thread_wf (m_threads m) ∧
  (limit + m_forced m < u64_max →
   m_reserved m = m_held m ∧ m_held m ≤ Z.max 0 (limit - additional) + m_forced m).

Lemma m_held_insert ts i (t t' : thread) :
  ts !! i = Some t →
  zsum thread_held (<[i := t']> ts) = zsum thread_held ts - thread_held t + thread_held t'.
Proof.
  revert i. induction ts as [|u ts IH]; intros [|i] Hi; simplify_eq/=; [lia|].
  rewrite (IH i) by done. lia.
Qed.

Lemma m_held_nonneg m : Forall thread_wf (m_threads m) → 0 ≤ m_held m.
Proof.
  intros Hwf. apply zsum_nonneg. intros t [j Hj]%list_elem_of_lookup.
  apply (Forall_lookup_1 _ _ _ _ Hwf) in Hj. destruct t; simpl in *; lia.
Qed.

Lemma m_held_ge ts i t : Forall thread_wf ts → ts !! i = Some t → thread_held t ≤ zsum thread_held ts.
Proof.
  intros Hwf Hi. pose proof (m_held_insert ts i t (Idle 0) Hi) as Hins. simpl in Hins.
  pose proof (zsum_nonneg thread_held (<[i:=Idle 0]> ts)) as Hnn.
  assert (0 ≤ zsum thread_held (<[i:=Idle 0]> ts)); [|lia]. apply Hnn. intros u Hu.
  apply list_elem_of_lookup in Hu as [j Hj]. destruct (decide (i = j)) as [->|Hne].
  - rewrite list_lookup_insert_eq in Hj by (by eapply lookup_lt_Some). by simplify_eq.
  - rewrite list_lookup_insert_ne in Hj by done. apply (Forall_lookup_1 _ _ _ _ Hwf) in Hj.
    destruct u; simpl in *; lia.
Qed.

Lemma mem_step_wf m m' :
  0 ≤ m_forced m → 0 ≤ m_reserved m → Forall thread_wf (m_threads m) → mem_step m m' →
  0 ≤ m_forced m' ∧ 0 ≤ m_reserved m' ∧ Forall thread_wf (m_threads m').
Proof.
  intros Hf Hr Hwf Hstep.
  destruct Hstep; simpl;
    match goal with Hi : _ !! _ = Some _ |- _ => pose proof (Forall_lookup_1 _ _ _ _ Hwf Hi) as Hti; simpl in Hti end;
    split_and!; try apply Forall_insert; simpl; try done; try lia; try apply wrap64_is_u64.
  match goal with Hc : try_reserve_check _ _ _ _ _ = Some _ |- _ => unfold try_reserve_check in Hc end.
  case_Z; simplify_eq. u64_lia.
Qed.

Lemma mem_step_inv m m' :
  0 ≤ additional → 0 ≤ limit ≤ u64_max → mem_inv m → mem_step m m' → mem_inv m'.
Proof.
  intros Hadd Hlim (Hf & Hr & Hwf & Hinv) Hstep.
  destruct (mem_step_wf m m') as (Hf' & Hr' & Hwf'); [done..|]. unfold mem_inv. split_and!; [done..|].
  pose proof (m_held_nonneg m Hwf) as Hnn. clear Hf' Hr' Hwf'. unfold m_held in *.
  destruct Hstep as [m i h size Hi Hsz|m i h size Hi Hsz|m i h size Hi Hsz|m i h size o pool Hi Hc
    |m i h size o pool new Hi Hc Ho|m i h size o pool new Hi Hc];
    pose proof (Forall_lookup_1 _ _ _ _ Hwf Hi) as Hti; simpl in *;
    rewrite (m_held_insert _ _ _ _ Hi); simpl; intros Hb; (destruct Hinv as [Heq ?]; [lia|]).
  - rewrite Heq, wadd_small by u64_lia. lia.
  - pose proof (m_held_ge _ _ _ Hwf Hi) as Hge. simpl in Hge.
    rewrite Heq, wsub_small by u64_lia. lia.
  - lia.
  - lia.
  - subst o. apply try_reserve_check_Some in Hc as [[? ->]| ->]; try lia.
    pose proof (pool_mem_reserved_u64 pool). u64_lia.
  - lia.
Qed.

(** C22. Memory accounting under concurrency.  However the loads, exchanges,
    spurious exchange failures and retries of concurrent [try_reserve] calls
    interleave with [reserve] and [release], the shared counter equals what the
    threads hold, and the limit is exceeded by no more than what was reserved
    unconditionally: memory granted by [try_reserve] never takes the total
    above the limit, and no update is lost. *)
Theorem mem_limiter_concurrent_safety m :
  0 ≤ additional → 0 ≤ limit → limit + m_forced m < u64_max →
  reachable mem_step mem_init m →
  m_reserved m = m_held m ∧ m_held m ≤ Z.max 0 (limit - additional) + m_forced m.
Proof.
  intros Hadd Hlim Hb Hr.
  assert (mem_inv m) as (Hf & _ & _ & Hinv); [|by apply Hinv].
  assert (limit ≤ u64_max) as Hmax.
  { assert (0 ≤ m_forced m); [|lia]. clear Hb. revert m Hr.
    apply reachable_invariant; [intros m (_ & -> & _); lia|].
    intros s t ? Hst. destruct Hst; simpl; lia. }
  clear Hb. revert m Hr. apply reachable_invariant.
  - intros m (Hr & Hf & Hts). split; [lia|]. split; [lia|]. assert (m_held m = 0) as Hz.
    { unfold m_held. induction Hts as [|t ts -> _ IH]; simpl; lia. }
    split; [|lia]. eapply Forall_impl; [|exact Hts]. by intros t ->.
  - intros s t Hs Hst. eapply mem_step_inv; done.
Qed.
End concurrent.

(** Two threads race for the last 100 bytes: the loser's exchange fails, its
    retry is rejected, and an unconditional reservation follows. *)
Lemma mem_limiter_concurrent_safety_witness :
  let m := {| m_reserved := 120; m_threads := [Idle 100; Idle 20]; m_forced := 20 |} in
  m_reserved m = m_held m ∧ m_held m ≤ Z.max 0 (300 - 200) + m_forced m.
Proof.
  apply (mem_limiter_concurrent_safety 300 200); [lia|lia|by vm_compute|].
  pose (m0 := {| m_reserved := 0; m_threads := [Idle 0; Idle 0]; m_forced := 0 |}).
  pose (m1 := {| m_reserved := 0; m_threads := [Loaded 0 100 0; Idle 0]; m_forced := 0 |}).
  pose (m2 := {| m_reserved := 0; m_threads := [Loaded 0 100 0; Loaded 0 100 0]; m_forced := 0 |}).
  pose (m3 := {| m_reserved := 100; m_threads := [Idle 100; Loaded 0 100 0]; m_forced := 0 |}).
  pose (m4 := {| m_reserved := 100; m_threads := [Idle 100; Loaded 0 100 100]; m_forced := 0 |}).
  pose (m5 := {| m_reserved := 100; m_threads := [Idle 100; Idle 0]; m_forced := 0 |}).
  apply (reachable_step _ _ m5); [|by apply (step_reserve 300 200 m5 1 0 20)].
  apply (reachable_step _ _ m4); [|by apply (step_try_reject 300 200 m4 1 0 100 100 PoolStats_default)].
  apply (reachable_step _ _ m3); [|by apply (step_try_retry 300 200 m3 1 0 100 0 PoolStats_default 100)].
  apply (reachable_step _ _ m2); [|by apply (step_try_exchange 300 200 m2 0 0 100 0 PoolStats_default 100)].
  apply (reachable_step _ _ m1); [|by apply (step_try_load 300 200 m1 1 0 100)].
  apply (reachable_step _ _ m0); [|by apply (step_try_load 300 200 m0 0 0 100)].
  apply reachable_init. by repeat constructor.
Defined.
