(* ===== verification/Backpressure.v ===== *)
(** * Backpressure between the reader and the part stream

    Model of [mountpoint-s3-fs/src/prefetch/backpressure_controller.rs]: the
    [BackpressureController] held by the reader, the [BackpressureLimiter] held
    by the part stream, and the unbounded channel of window increments between
    them.  The channel and the shared memory limiter are passed explicitly. *)

From S2P Require Import Prelude MemLimiter.
Local Open Scope Z_scope.

Inductive BackpressureFeedbackEvent :=
| DataRead (offset length : Z)
| PartQueueStall.

Inductive ReadWindowAlignmentConfig :=
| AlignToPartSize (from_offset part_size : Z)
| AlignDisable.

(** [next_multiple_of] panics on zero. *)
Definition ReadWindowAlignmentConfig_align {E} (c : ReadWindowAlignmentConfig) (read_window_end : Z) : outcome E Z :=
  match c with
  | AlignToPartSize from_offset part_size =>
      if from_offset <? read_window_end then
        let relative_end_offset := read_window_end - from_offset in
        assert! negb (part_size =? 0) in
        Ok (wadd from_offset (next_multiple_of relative_end_offset part_size))
      else Ok read_window_end
  | AlignDisable => Ok read_window_end
  end.

Record BackpressureConfig := {
  cfg_initial_read_window_size : Z;
  cfg_min_read_window_size : Z;
  cfg_max_read_window_size : Z;
  cfg_read_window_size_multiplier : Z;
  cfg_request_start : Z;
  cfg_request_end : Z;
  cfg_alignment : ReadWindowAlignmentConfig;
}.

Record BackpressureController := {
  bc_preferred_read_window_size : Z;
  bc_min_read_window_size : Z;
  bc_max_read_window_size : Z;
  bc_read_window_size_multiplier : Z;
  bc_read_window_end_offset : Z;
  bc_next_read_offset : Z;
  bc_request_end_offset : Z;
  bc_alignment : ReadWindowAlignmentConfig;
}.

Record BackpressureLimiter := {
  bl_read_window_end_offset : Z;
  bl_request_end_offset : Z;
}.

(** What the controller shares: the queue of increments (and whether its
    receiver still exists), and the memory limiter. *)
Record Shared := {
  sh_increments : list Z;
  sh_receiver_open : bool;
  sh_mem : MemoryLimiter;
}.

Implicit Types c : BackpressureController.
Implicit Types sh : Shared.

Definition sh_set_mem sh (ml : MemoryLimiter) : Shared :=
  {| sh_increments := sh_increments sh; sh_receiver_open := sh_receiver_open sh; sh_mem := ml |}.

Definition bc_set_preferred c (n : Z) : BackpressureController :=
  {| bc_preferred_read_window_size := n;
     bc_min_read_window_size := bc_min_read_window_size c;
     bc_max_read_window_size := bc_max_read_window_size c;
     bc_read_window_size_multiplier := bc_read_window_size_multiplier c;
     bc_read_window_end_offset := bc_read_window_end_offset c;
     bc_next_read_offset := bc_next_read_offset c;
     bc_request_end_offset := bc_request_end_offset c;
     bc_alignment := bc_alignment c |}.

Definition bc_set_offsets c (window_end next_read : Z) : BackpressureController :=
  {| bc_preferred_read_window_size := bc_preferred_read_window_size c;
     bc_min_read_window_size := bc_min_read_window_size c;
     bc_max_read_window_size := bc_max_read_window_size c;
     bc_read_window_size_multiplier := bc_read_window_size_multiplier c;
     bc_read_window_end_offset := window_end;
     bc_next_read_offset := next_read;
     bc_request_end_offset := bc_request_end_offset c;
     bc_alignment := bc_alignment c |}.

Definition MIN_WINDOW_SIZE_MULTIPLIER : Z := 2.

Definition new_backpressure_controller (config : BackpressureConfig) (ml : MemoryLimiter)
  : BackpressureController * BackpressureLimiter * Shared :=
  let read_window_end_offset := wadd (cfg_request_start config) (cfg_initial_read_window_size config) in
  let ml := MemoryLimiter_reserve ml (cfg_initial_read_window_size config) in
  let controller :=
    {| bc_preferred_read_window_size := cfg_initial_read_window_size config;
       bc_min_read_window_size := cfg_min_read_window_size config;
       bc_max_read_window_size := cfg_max_read_window_size config;
       bc_read_window_size_multiplier := Z.max (cfg_read_window_size_multiplier config) MIN_WINDOW_SIZE_MULTIPLIER;
       bc_read_window_end_offset := read_window_end_offset;
       bc_next_read_offset := cfg_request_start config;
       bc_request_end_offset := cfg_request_end config;
       bc_alignment := cfg_alignment config |} in
  let limiter :=
    {| bl_read_window_end_offset := read_window_end_offset;
       bl_request_end_offset := cfg_request_end config |} in
  (controller, limiter, {| sh_increments := []; sh_receiver_open := true; sh_mem := ml |}).

(** A send on a closed channel is ignored; the window end advances regardless. *)
Definition increment_read_window c sh (len : Z) : BackpressureController * Shared :=
  (bc_set_offsets c (wadd (bc_read_window_end_offset c) len) (bc_next_read_offset c),
   {| sh_increments := if sh_receiver_open sh then sh_increments sh ++ [len] else sh_increments sh;
      sh_receiver_open := sh_receiver_open sh; sh_mem := sh_mem sh |}).

Definition scale_up c (ml : MemoryLimiter) : BackpressureController :=
  if bc_preferred_read_window_size c <? bc_max_read_window_size c then
    let new_read_window_size :=
      Z.min (Z.max (wmul (bc_preferred_read_window_size c) (bc_read_window_size_multiplier c))
        (bc_min_read_window_size c)) (bc_max_read_window_size c) in
    let to_increase := wsub new_read_window_size (bc_preferred_read_window_size c) in
    if to_increase <=? MemoryLimiter_available_mem ml then bc_set_preferred c new_read_window_size else c
  else c.

Definition scale_down {E} c : outcome E BackpressureController :=
  if bc_min_read_window_size c <? bc_preferred_read_window_size c then
    assert! 1 <? bc_read_window_size_multiplier c in
    let new_read_window_size :=
      Z.min (Z.max (bc_preferred_read_window_size c / bc_read_window_size_multiplier c)
        (bc_min_read_window_size c)) (bc_max_read_window_size c) in
    Ok (bc_set_preferred c new_read_window_size)
  else Ok c.

(** The window end an iteration of the loop below aims at. *)
Definition new_read_window_end_offset {E} c : outcome E Z :=
  let preferred := sat_add (bc_next_read_offset c) (bc_preferred_read_window_size c) in
  let! aligned := ReadWindowAlignmentConfig_align (bc_alignment c) preferred in
  Ok (Z.min aligned (bc_request_end_offset c)).

(** The [while] loop of [send_feedback].  [remaining_window] is computed once, before the loop. *)
Fixpoint data_read_loop {E} (fuel : nat) (remaining_window : Z) c sh : outcome E (BackpressureController * Shared) :=
  if (remaining_window <? bc_preferred_read_window_size c / 2)
     && (bc_read_window_end_offset c <? bc_request_end_offset c) then
    match fuel with
    | O => Panic
    | S fuel =>
        let! new_end := new_read_window_end_offset c in
        if new_end <=? bc_read_window_end_offset c then Ok (c, sh) else
        let to_increase := sat_sub new_end (bc_read_window_end_offset c) in
        if bc_preferred_read_window_size c <=? bc_min_read_window_size c then
          Ok (increment_read_window c (sh_set_mem sh (MemoryLimiter_reserve (sh_mem sh) to_increase)) to_increase)
        else
          match MemoryLimiter_try_reserve (sh_mem sh) to_increase with
          | (true, ml) => Ok (increment_read_window c (sh_set_mem sh ml) to_increase)
          | (false, ml) => let! c := scale_down c in data_read_loop fuel remaining_window c (sh_set_mem sh ml)
          end
    end
  else Ok (c, sh).

(** Every rejected reservation at least halves the preferred size or brings it
    to the minimum, where the next iteration is the last. *)
Definition data_read_fuel c : nat := Z.to_nat (Z.log2 (bc_preferred_read_window_size c)) + 3.

Definition send_feedback {E} c sh (event : BackpressureFeedbackEvent) : outcome E (BackpressureController * Shared) :=
  match event with
  | DataRead offset length =>
      let c := bc_set_offsets c (bc_read_window_end_offset c) (wadd offset length) in
      let sh := sh_set_mem sh (MemoryLimiter_release (sh_mem sh) length) in
      let remaining_window := sat_sub (bc_read_window_end_offset c) (bc_next_read_offset c) in
      data_read_loop (data_read_fuel c) remaining_window c sh
  | PartQueueStall => Ok (scale_up c (sh_mem sh), sh)
  end.

(** [Drop for BackpressureController] *)
Definition BackpressureController_drop c (ml : MemoryLimiter) : MemoryLimiter :=
  MemoryLimiter_release ml (sat_sub (bc_read_window_end_offset c) (bc_next_read_offset c)).

(** ** The limiter side *)

(** Sum of the queued increments, as the [while let Ok(len) = try_recv()] loops compute it. *)
Fixpoint drain_total (total : Z) (queue : list Z) : Z :=
  match queue with
  | [] => total
  | len :: queue => drain_total (wadd total len) queue
  end.

Definition try_recv_drain (queue : list Z) : option Z :=
  let increment_total := drain_total 0 queue in
  if 0 <? increment_total then Some increment_total else None.

(** [recv_drain] on a queue with at least one increment. *)
Definition recv_drain (first : Z) (queue : list Z) : Z := drain_total first queue.

Inductive wait_outcome :=
| WaitReady (changed : option Z)   (** returns [Ok changed] *)
| WaitBlocked                      (** still awaiting the channel *)
| WaitClosed.                      (** returns [Err(ReadWindowIncrement)] *)

Definition bl_advance (l : BackpressureLimiter) (n : Z) : BackpressureLimiter :=
  {| bl_read_window_end_offset := wadd (bl_read_window_end_offset l) n;
     bl_request_end_offset := bl_request_end_offset l |}.

Definition bl_must_wait (l : BackpressureLimiter) (offset : Z) : bool :=
  (bl_read_window_end_offset l <=? offset) && (bl_read_window_end_offset l <? bl_request_end_offset l).

(** One poll of [wait_for_read_window_increment] against the increments that
    are in the channel: every access drains it, so the waiting loop either
    finishes after the first drain or finds the channel empty. *)
Definition wait_for_read_window_increment (l : BackpressureLimiter) (queue : list Z) (sender_open : bool) (offset : Z)
  : BackpressureLimiter * list Z * wait_outcome :=
  let empty := if sender_open then WaitBlocked else WaitClosed in
  if offset <? bl_read_window_end_offset l then
    match try_recv_drain queue with
    | Some n => (bl_advance l n, [], WaitReady (Some (bl_read_window_end_offset (bl_advance l n))))
    | None => (l, [], WaitReady None)
    end
  else if bl_must_wait l offset then
    match queue with
    | [] => (l, [], empty)
    | first :: rest =>
        let l' := bl_advance l (recv_drain first rest) in
        if bl_must_wait l' offset then (l', [], empty)
        else (l', [], WaitReady (Some (bl_read_window_end_offset l')))
    end
  else (l, queue, WaitReady (Some (bl_read_window_end_offset l))).

(** ** Well-formed controllers

    [W] bounds every window size; offsets plus a window plus a part stay below 2^64. *)

Definition alignment_wf (W request_end : Z) (a : ReadWindowAlignmentConfig) : Prop :=
  match a with
  | AlignToPartSize from_offset part_size =>
      0 ≤ from_offset ∧ 0 < part_size ∧ request_end + W + part_size ≤ u64_max
  | AlignDisable => request_end + W ≤ u64_max
  end.

Definition bc_wf (W : Z) c : Prop :=
  2 ≤ bc_min_read_window_size c ∧ 2 ≤ bc_max_read_window_size c ≤ W ∧
  2 ≤ bc_preferred_read_window_size c ≤ W ∧ 2 ≤ bc_read_window_size_multiplier c ∧
  0 ≤ bc_next_read_offset c ≤ bc_request_end_offset c ∧ is_u64 (bc_read_window_end_offset c) ∧
  alignment_wf W (bc_request_end_offset c) (bc_alignment c).

Definition ml_wf (ml : MemoryLimiter) : Prop :=
  is_u64 (ml_mem_reserved ml) ∧ 0 ≤ ml_additional_mem_reserved ml ∧ ml_mem_limit ml < u64_max.

Lemma ml_wf_release ml n : ml_wf ml → ml_wf (MemoryLimiter_release ml n).
Proof. intros (?&?&?). split_and!; try done. apply wrap64_is_u64. Qed.

Lemma ml_wf_reserve ml n : ml_wf ml → ml_wf (MemoryLimiter_reserve ml n).
Proof. intros (?&?&?). split_and!; try done. apply wrap64_is_u64. Qed.

Lemma ml_try_reserve_true ml n ml' :
  ml_wf ml → 0 ≤ n → MemoryLimiter_try_reserve ml n = (true, ml') → ml' = MemoryLimiter_reserve ml n ∧ ml_wf ml'.
Proof.
  intros Hwf Hn. pose proof (ml_wf_reserve ml n Hwf) as Hwf'. destruct Hwf as (?&?&?).
  pose proof (pool_mem_reserved_u64 (ml_pool ml)). unfold MemoryLimiter_try_reserve.
  destruct (try_reserve_check _ _ _ _ _) as [r|] eqn:Hc; [|done]. intros [= <-].
  apply try_reserve_check_Some in Hc as [[? ->]| ?]; try u64_lia.
  unfold MemoryLimiter_reserve in *. rewrite wadd_small in * by u64_lia. done.
Qed.

Lemma ml_try_reserve_false ml n ml' : MemoryLimiter_try_reserve ml n = (false, ml') → ml' = ml.
Proof. unfold MemoryLimiter_try_reserve. case_match; naive_solver. Qed.

Lemma align_bounds {E} W request_end a x :
  alignment_wf W request_end a → 0 ≤ x ≤ request_end + W →
  ∃ y, ReadWindowAlignmentConfig_align (E:=E) a x = Ok y ∧ x ≤ y ≤ u64_max.
Proof.
  intros Ha Hx. destruct a as [from part|]; simpl in *; [|exists x; split; [done|u64_lia]].
  destruct Ha as (?&?&?). case_Z; [|exists x; split; [done|u64_lia]].
  rewrite (proj2 (Z.eqb_neq _ _)) by lia. simpl.
  destruct (next_multiple_of_spec (x - from) part) as [? _]; [lia..|].
  rewrite wadd_small by u64_lia. eexists. split; [done|]. u64_lia.
Qed.

Lemma new_end_spec {E} W c :
  bc_wf W c →
  ∃ e, new_read_window_end_offset (E:=E) c = Ok e ∧ e ≤ bc_request_end_offset c ∧
    (e = bc_request_end_offset c ∨ bc_next_read_offset c + bc_preferred_read_window_size c ≤ e).
Proof.
  intros (?&?&?&?&?&?&Ha). unfold new_read_window_end_offset.
  assert (bc_request_end_offset c + W ≤ u64_max) by (destruct (bc_alignment c); simpl in Ha; u64_lia).
  replace (sat_add _ _) with (bc_next_read_offset c + bc_preferred_read_window_size c) by u64_lia.
  destruct (align_bounds (E:=E) W _ _ (bc_next_read_offset c + bc_preferred_read_window_size c) Ha) as (y & -> & ?); [lia|].
  simpl. eexists. split; [done|]. lia.
Qed.

Lemma scale_down_spec {E} W c :
  bc_wf W c → bc_min_read_window_size c < bc_preferred_read_window_size c →
  ∃ n, scale_down (E:=E) c = Ok (bc_set_preferred c n) ∧ bc_wf W (bc_set_preferred c n) ∧
    (n ≤ bc_min_read_window_size c ∨ 2 * n ≤ bc_preferred_read_window_size c).
Proof.
  intros Hwf Hlt. pose proof Hwf as (?&?&?&?&?&?&?). unfold scale_down.
  rewrite (proj2 (Z.ltb_lt _ _)), (proj2 (Z.ltb_lt _ _)) by lia. eexists. split; [done|].
  set (P := bc_preferred_read_window_size c) in *. set (m := bc_read_window_size_multiplier c) in *.
  assert (0 ≤ P / m ∧ 2 * (P / m) ≤ P) as [? ?].
  { split; [apply Z.div_pos; lia|]. transitivity (m * (P / m)); [apply Z.mul_le_mono_nonneg_r; [apply Z.div_pos|]; lia|].
    apply Z.mul_div_le. lia. }
  split; [|lia]. unfold bc_wf; simpl. split_and!; try done; lia.
Qed.

Lemma scale_up_wf W c ml : bc_wf W c → bc_wf W (scale_up c ml).
Proof.
  intros Hwf. pose proof Hwf as (?&?&?&?&?&?&?). unfold scale_up. do 2 (case_Z; [|done]).
  unfold bc_wf; simpl. split_and!; try done; lia.
Qed.

Lemma scale_up_offsets c ml :
  bc_read_window_end_offset (scale_up c ml) = bc_read_window_end_offset c ∧
  bc_request_end_offset (scale_up c ml) = bc_request_end_offset c ∧
  bc_next_read_offset (scale_up c ml) = bc_next_read_offset c.
Proof. unfold scale_up. by repeat case_match. Qed.

(** What one [DataRead] does, besides moving the read offset: the window grows
    by [d] bytes, [d] is reserved and, unless the stream is gone, sent. *)
Definition window_grown (d : Z) c sh c' sh' : Prop :=
  0 ≤ d ∧ bc_read_window_end_offset c' = bc_read_window_end_offset c + d ∧
  bc_next_read_offset c' = bc_next_read_offset c ∧
  bc_request_end_offset c' = bc_request_end_offset c ∧
  (d = 0 ∨ bc_read_window_end_offset c' ≤ bc_request_end_offset c) ∧
  ml_mem_reserved (sh_mem sh') = wrap64 (ml_mem_reserved (sh_mem sh) + d) ∧
  sh_receiver_open sh' = sh_receiver_open sh ∧
  sh_increments sh' = sh_increments sh ++ (if (d =? 0) || negb (sh_receiver_open sh) then [] else [d]).

(** The stream may produce the byte the reader needs next. *)
Definition window_ahead c : Prop :=
  bc_next_read_offset c < bc_read_window_end_offset c ∨ bc_request_end_offset c ≤ bc_read_window_end_offset c.

Lemma window_grown_refl c sh n :
  ml_wf (sh_mem sh) → window_grown 0 c sh (bc_set_preferred c n) sh.
Proof.
  intros (?&?&?). unfold window_grown; simpl. rewrite !Z.add_0_r, wrap64_small, app_nil_r by done.
  split_and!; try lia; done.
Qed.

Lemma bc_set_preferred_id c : bc_set_preferred c (bc_preferred_read_window_size c) = c.
Proof. by destruct c. Qed.

Lemma increment_grown W c sh e :
  bc_wf W c → ml_wf (sh_mem sh) → bc_read_window_end_offset c < e → e ≤ bc_request_end_offset c →
  let d := e - bc_read_window_end_offset c in
  let '(c', sh') := increment_read_window c (sh_set_mem sh (MemoryLimiter_reserve (sh_mem sh) d)) d in
  bc_wf W c' ∧ ml_wf (sh_mem sh') ∧ window_grown d c sh c' sh' ∧ bc_read_window_end_offset c' = e.
Proof.
  intros Hwf Hml Hlt Hle d. pose proof Hwf as (?&?&?&?&?&?&Ha).
  assert (bc_request_end_offset c < u64_modulus) by (destruct (bc_alignment c); simpl in Ha; u64_lia).
  simpl. unfold window_grown, bc_wf; simpl. rewrite (wadd_small (bc_read_window_end_offset c)) by u64_lia.
  rewrite (proj2 (Z.eqb_neq _ _)) by lia.
  split_and!; try done; try lia; try u64_lia; try (by apply ml_wf_reserve).
  by destruct (sh_receiver_open sh); simpl; rewrite ?app_nil_r.
Qed.

Lemma data_read_loop_spec {E} W fuel remaining c sh :
  bc_wf W c → ml_wf (sh_mem sh) →
  remaining = sat_sub (bc_read_window_end_offset c) (bc_next_read_offset c) →
  (1 ≤ fuel)%nat →
  bc_preferred_read_window_size c ≤ bc_min_read_window_size c ∨ bc_preferred_read_window_size c < 2 ^ (Z.of_nat fuel - 1) →
  ∃ c' sh' d, data_read_loop (E:=E) fuel remaining c sh = Ok (c', sh') ∧
    bc_wf W c' ∧ ml_wf (sh_mem sh') ∧ window_grown d c sh c' sh' ∧ window_ahead c'.
Proof.
  revert c sh. induction fuel as [|fuel IH]; intros c sh Hwf Hml Hrem Hf Hfuel; [lia|].
  pose proof Hwf as (Hmin & Hmax & Hpref & Hmul & Hnext & Hwe & Ha).
  pose proof (window_grown_refl c sh (bc_preferred_read_window_size c) Hml) as Hrefl.
  rewrite bc_set_preferred_id in Hrefl.
  assert (1 ≤ bc_preferred_read_window_size c / 2) by (apply Z.div_le_lower_bound; lia).
  simpl. unfold window_ahead.
  destruct (Z.ltb_spec remaining (bc_preferred_read_window_size c / 2)) as [Hr|Hr]; simpl.
  2:{ exists c, sh, 0. split_and!; try done. left. u64_lia. }
  destruct (Z.ltb_spec (bc_read_window_end_offset c) (bc_request_end_offset c)) as [Hq|Hq].
  2:{ exists c, sh, 0. split_and!; try done. by right. }
  destruct (new_end_spec (E:=E) W c Hwf) as (e & -> & Hle & Hor). simpl.
  destruct (Z.leb_spec e (bc_read_window_end_offset c)) as [Hstop|Hgrow].
  { exists c, sh, 0. split_and!; try done. lia. }
  replace (sat_sub e _) with (e - bc_read_window_end_offset c) by u64_lia.
  pose proof (increment_grown W c sh e Hwf Hml Hgrow Hle) as Hinc.
  destruct (Z.leb_spec (bc_preferred_read_window_size c) (bc_min_read_window_size c)) as [Hforce|Htry].
  { destruct Hinc as (?&?&Hg&He). do 3 eexists. split; [done|]. split_and!; try done.
    destruct Hg as (_ & _ & -> & -> & _). rewrite He. lia. }
  destruct (MemoryLimiter_try_reserve _ _) as [[] ml'] eqn:Hres.
  { apply ml_try_reserve_true in Hres as [-> ?]; [|done|lia].
    destruct Hinc as (?&?&Hg&He). do 3 eexists. split; [done|]. split_and!; try done.
    destruct Hg as (_ & _ & -> & -> & _). rewrite He. lia. }
  apply ml_try_reserve_false in Hres as ->.
  destruct (scale_down_spec (E:=E) W c Hwf Htry) as (n & -> & Hwf' & Hn). simpl.
  replace (sh_set_mem sh (sh_mem sh)) with sh by (by destruct sh).
  assert (2 ≤ Z.of_nat fuel) as Hf2.
  { destruct Hfuel as [|Hfuel]; [lia|]. destruct (decide (Z.of_nat fuel ≤ 1)); [|lia].
    assert (2 ^ (Z.of_nat (S fuel) - 1) ≤ 2 ^ 1) by (apply Z.pow_le_mono_r; lia). lia. }
  apply (IH (bc_set_preferred c n) sh); simpl; try done; try lia.
  destruct Hn as [Hn|Hn]; [by left|right]. destruct Hfuel as [|Hfuel]; [lia|].
  replace (Z.of_nat (S fuel) - 1) with (Z.succ (Z.of_nat fuel - 1)) in Hfuel by lia.
  rewrite Z.pow_succ_r in Hfuel by lia. lia.
Qed.

Lemma data_read_fuel_enough c :
  0 < bc_preferred_read_window_size c →
  bc_preferred_read_window_size c < 2 ^ (Z.of_nat (data_read_fuel c) - 1).
Proof.
  intros Hp. destruct (Z.log2_spec _ Hp) as [_ Hlt]. eapply Z.lt_le_trans; [exact Hlt|].
  apply Z.pow_le_mono_r; [lia|]. unfold data_read_fuel. pose proof (Z.log2_nonneg (bc_preferred_read_window_size c)). lia.
Qed.

(** [send_feedback] on [DataRead]: returns, and relates to a state where only the read offset moved. *)
Lemma send_data_read_spec {E} W c sh offset length :
  bc_wf W c → ml_wf (sh_mem sh) → 0 ≤ offset → 0 ≤ length → offset + length ≤ bc_request_end_offset c →
  ∃ c' sh' d, send_feedback (E:=E) c sh (DataRead offset length) = Ok (c', sh') ∧
    bc_wf W c' ∧ ml_wf (sh_mem sh') ∧ window_ahead c' ∧
    window_grown d (bc_set_offsets c (bc_read_window_end_offset c) (offset + length))
      (sh_set_mem sh (MemoryLimiter_release (sh_mem sh) length)) c' sh'.
Proof.
  intros Hwf Hml Ho Hl Hend. pose proof Hwf as (?&?&?&?&?&?&Ha).
  assert (bc_request_end_offset c < u64_modulus) by (destruct (bc_alignment c); simpl in Ha; u64_lia).
  simpl. rewrite wadd_small by u64_lia. set (c1 := bc_set_offsets c _ _).
  assert (bc_wf W c1) as Hwf1 by (unfold bc_wf; simpl; split_and!; try done; lia).
  destruct (data_read_loop_spec (E:=E) W (data_read_fuel c1)
    (sat_sub (bc_read_window_end_offset c) (offset + length)) c1
    (sh_set_mem sh (MemoryLimiter_release (sh_mem sh) length))) as (c' & sh' & d & Heq & ? & ? & ? & ?); try done.
  - by apply ml_wf_release.
  - unfold data_read_fuel. lia.
  - right. apply data_read_fuel_enough. simpl. lia.
  - exists c', sh', d. split; [exact Heq|]. done.
Qed.

(** ** The protocol of reader and stream

    [p_queue_start] is the object offset of the first byte in the part queue,
    and [p_base] what all other users of the memory limiter have reserved. *)
Record proto := {
  p_c : BackpressureController;
  p_l : BackpressureLimiter;
  p_sh : Shared;
  p_queue_start : Z;
  p_base : Z;
}.

Inductive proto_step : proto → proto → Prop :=
| proto_read c l sh q b len c' sh' :
    (* [RequestTask::read] takes [len] bytes off the front of the part queue *)
    0 ≤ len → q + len ≤ bc_request_end_offset c →
    send_feedback (E:=False) c sh (DataRead q len) = Ok (c', sh') →
    proto_step {| p_c := c; p_l := l; p_sh := sh; p_queue_start := q; p_base := b |}
               {| p_c := c'; p_l := l; p_sh := sh'; p_queue_start := q + len; p_base := b |}
| proto_push_front c l sh q b n :
    (* [PartQueue::push_front] of [n] bytes after a backward seek *)
    0 ≤ n ≤ q →
    proto_step {| p_c := c; p_l := l; p_sh := sh; p_queue_start := q; p_base := b |}
               {| p_c := c; p_l := l; p_sh := sh_set_mem sh (MemoryLimiter_reserve (sh_mem sh) n);
                  p_queue_start := q - n; p_base := b |}
| proto_stall c l sh q b c' sh' :
    send_feedback (E:=False) c sh PartQueueStall = Ok (c', sh') →
    proto_step {| p_c := c; p_l := l; p_sh := sh; p_queue_start := q; p_base := b |}
               {| p_c := c'; p_l := l; p_sh := sh'; p_queue_start := q; p_base := b |}
| proto_wait c l sh q b offset l' queue' r :
    (* the stream polls [wait_for_read_window_increment] *)
    wait_for_read_window_increment l (sh_increments sh) true offset = (l', queue', r) →
    proto_step {| p_c := c; p_l := l; p_sh := sh; p_queue_start := q; p_base := b |}
               {| p_c := c; p_l := l'; p_sh := {| sh_increments := queue'; sh_receiver_open := sh_receiver_open sh; sh_mem := sh_mem sh |};
                  p_queue_start := q; p_base := b |}
| proto_others c l sh q b k :
    (* other file handles reserve ([0 ≤ k]) or release memory *)
    proto_step {| p_c := c; p_l := l; p_sh := sh; p_queue_start := q; p_base := b |}
               {| p_c := c; p_l := l;
                  p_sh := sh_set_mem sh (ml_set_reserved (sh_mem sh) (wrap64 (ml_mem_reserved (sh_mem sh) + k)));
                  p_queue_start := q; p_base := b + k |}.

Definition proto_init (config : BackpressureConfig) (ml : MemoryLimiter) (p : proto) : Prop :=
  let '(c, l, sh) := new_backpressure_controller config ml in
  p = {| p_c := c; p_l := l; p_sh := sh; p_queue_start := cfg_request_start config; p_base := ml_mem_reserved ml |}.

Definition config_wf (W : Z) (config : BackpressureConfig) : Prop :=
  2 ≤ cfg_min_read_window_size config ∧ 2 ≤ cfg_max_read_window_size config ≤ W ∧
  2 ≤ cfg_initial_read_window_size config ≤ W ∧
  0 ≤ cfg_request_start config ≤ cfg_request_end config ∧
  alignment_wf W (cfg_request_end config) (cfg_alignment config).

Definition proto_inv (W : Z) (p : proto) : Prop :=
  bc_wf W (p_c p) ∧ ml_wf (sh_mem (p_sh p)) ∧ window_ahead (p_c p) ∧ 0 ≤ p_queue_start p ∧
  sh_receiver_open (p_sh p) = true ∧ Forall (λ n, 0 < n) (sh_increments (p_sh p)) ∧
  bl_request_end_offset (p_l p) = bc_request_end_offset (p_c p) ∧ 0 ≤ bl_read_window_end_offset (p_l p) ∧
  bc_read_window_end_offset (p_c p) = bl_read_window_end_offset (p_l p) + zsum (λ n, n) (sh_increments (p_sh p)) ∧
  ml_mem_reserved (sh_mem (p_sh p)) = wrap64 (p_base p + bc_read_window_end_offset (p_c p) - p_queue_start p).

Lemma increments_nonneg queue : Forall (λ n, 0 < n) queue → 0 ≤ zsum (λ n, n) queue.
Proof.
  intros Hq. apply zsum_nonneg. intros x [i Hi]%list_elem_of_lookup.
  apply (Forall_lookup_1 _ _ _ _ Hq) in Hi. lia.
Qed.

Lemma drain_total_spec total queue :
  0 ≤ total → Forall (λ n, 0 < n) queue → total + zsum (λ n, n) queue < u64_modulus →
  drain_total total queue = total + zsum (λ n, n) queue.
Proof.
  revert total. induction queue as [|n queue IH]; intros total Ht Hq Hb; simpl in *; [lia|].
  inversion_clear Hq as [|?? Hn Hq']. pose proof (increments_nonneg _ Hq').
  rewrite wadd_small by u64_lia. rewrite IH; try done; lia.
Qed.

(** Polling keeps both sides in step, and after it the limiter knows the controller's window. *)
Lemma wait_spec l queue offset e l' queue' r :
  Forall (λ n, 0 < n) queue → 0 ≤ bl_read_window_end_offset l →
  e = bl_read_window_end_offset l + zsum (λ n, n) queue → e < u64_modulus →
  wait_for_read_window_increment l queue true offset = (l', queue', r) →
  Forall (λ n, 0 < n) queue' ∧ bl_request_end_offset l' = bl_request_end_offset l ∧
  0 ≤ bl_read_window_end_offset l' ∧ e = bl_read_window_end_offset l' + zsum (λ n, n) queue' ∧
  (r = WaitBlocked → e ≤ offset ∧ e < bl_request_end_offset l) ∧ r ≠ WaitClosed.
Proof.
  intros Hq Hl He Hb. unfold wait_for_read_window_increment, try_recv_drain, recv_drain.
  pose proof (increments_nonneg _ Hq) as Hnn.
  destruct (Z.ltb_spec offset (bl_read_window_end_offset l)).
  - rewrite drain_total_spec by (done || lia). rewrite Z.add_0_l.
    destruct (Z.ltb_spec 0 (zsum (λ n, n) queue)); intros [= <- <- <-]; simpl.
    + rewrite wadd_small by u64_lia. split_and!; try done; lia.
    + split_and!; try done; lia.
  - destruct (bl_must_wait l offset) eqn:Hm.
    + unfold bl_must_wait in Hm. apply andb_true_iff in Hm as [Hm1%Z.leb_le Hm2%Z.ltb_lt].
      destruct queue as [|n queue]; simpl in *; [intros [= <- <- <-]; split_and!; try done; lia|].
      inversion_clear Hq as [|?? Hn Hq'].
      rewrite drain_total_spec by (done || lia).
      unfold bl_must_wait. simpl. rewrite !wadd_small by u64_lia.
      destruct (Z.leb_spec (bl_read_window_end_offset l + (n + zsum (λ n, n) queue)) offset); simpl;
        [destruct (Z.ltb_spec (bl_read_window_end_offset l + (n + zsum (λ n, n) queue)) (bl_request_end_offset l))|];
        intros [= <- <- <-]; simpl; rewrite ?wadd_small by u64_lia;
        split_and!; try done; lia.
    + intros [= <- <- <-]. split_and!; try done; lia.
Qed.

Lemma window_grown_increments d c sh c' sh' :
  window_grown d c sh c' sh' → sh_receiver_open sh = true → Forall (λ n, 0 < n) (sh_increments sh) →
  Forall (λ n, 0 < n) (sh_increments sh') ∧
  zsum (λ n, n) (sh_increments sh') = zsum (λ n, n) (sh_increments sh) + d.
Proof.
  intros (Hd & _ & _ & _ & _ & _ & _ & Hq) Hopen Hf. rewrite Hq, Hopen, orb_false_r, zsum_app.
  destruct (Z.eqb_spec d 0) as [->|]; simpl; rewrite ?app_nil_r; [split; [done|lia]|].
  split; [|lia]. apply Forall_app_2; [done|]. constructor; [lia|done].
Qed.

Lemma proto_init_inv W config ml p :
  config_wf W config → ml_wf ml → proto_init config ml p → proto_inv W p.
Proof.
  intros (?&?&?&?&Ha) Hml ->. pose proof Hml as (?&?&?).
  assert (cfg_request_end config + W ≤ u64_max) by (destruct (cfg_alignment config); simpl in Ha; u64_lia).
  unfold proto_inv, bc_wf, window_ahead; simpl. rewrite wadd_small by u64_lia.
  split_and!; try done; try lia; try (left; lia); try u64_lia.
  - unfold MIN_WINDOW_SIZE_MULTIPLIER. lia.
  - by apply ml_wf_reserve.
  - unfold wadd. f_equal. lia.
Qed.

Lemma proto_step_inv W p p' : proto_inv W p → proto_step p p' → proto_inv W p'.
Proof.
  intros (Hc & Hml & Hah & Hq & Hopen & Hpos & Hreq & Hbl & Hsync & Hmem) Hstep.
  destruct Hstep as [c l sh q b len c' sh' Hl Hend Hsend|c l sh q b n Hn|c l sh q b c' sh' Hsend
    |c l sh q b offset l' queue' r Hw|c l sh q b k]; cbn [p_c p_l p_sh p_queue_start p_base] in *.
  - destruct (send_data_read_spec (E:=False) W c sh q len) as (c1 & sh1 & d & Heq & Hc1 & Hml1 & Hah1 & Hg); [done..|].
    rewrite Hsend in Heq. injection Heq as <- <-.
    destruct (window_grown_increments _ _ _ _ _ Hg) as [Hf1 Hs1]; [done..|].
    destruct Hg as (Hd & Hwe & Hnx & Hre & _ & Hm & Ho & _). simpl in *.
    unfold proto_inv; simpl. split_and!; try done; try lia; [congruence..|].
    rewrite Hm, Hwe. simpl. rewrite Hmem. unfold wsub. autorewrite with wrap64. f_equal. lia.
  - unfold proto_inv; simpl. split_and!; try done; try lia; [by apply ml_wf_reserve|].
    rewrite Hmem. unfold wadd. autorewrite with wrap64. f_equal. lia.
  - simpl in Hsend. injection Hsend as <- <-. unfold proto_inv; simpl.
    destruct (scale_up_offsets c (sh_mem sh)) as (H1 & H2 & H3).
    unfold window_ahead in *. rewrite H1, H2, H3. split_and!; try done. by apply scale_up_wf.
  - pose proof Hc as (_&_&_&_&_&Hu&_).
    apply (wait_spec _ _ _ (bc_read_window_end_offset c)) in Hw as (?&?&?&?&_); try done; [|u64_lia].
    unfold proto_inv; simpl. split_and!; try done; congruence.
  - unfold proto_inv; simpl. split_and!; try done; [by destruct Hml as (?&?&?); split_and!; try apply wrap64_is_u64|].
    rewrite Hmem. autorewrite with wrap64. f_equal. lia.
Qed.

Lemma proto_reachable_inv W config ml p :
  config_wf W config → ml_wf ml → reachable proto_step (proto_init config ml) p → proto_inv W p.
Proof.
  intros Hcfg Hml. apply reachable_invariant; [|apply proto_step_inv].
  intros s Hs. by eapply proto_init_inv.
Qed.

Lemma wait_ready_window l queue offset l' queue' changed :
  wait_for_read_window_increment l queue true offset = (l', queue', WaitReady changed) →
  Forall (λ n, 0 < n) queue → 0 ≤ bl_read_window_end_offset l →
  bl_read_window_end_offset l + zsum (λ n, n) queue < u64_modulus →
  offset < bl_read_window_end_offset l' ∨ bl_request_end_offset l' ≤ bl_read_window_end_offset l'.
Proof.
  intros Hw Hq Hl Hb. pose proof Hw as Hw'. apply (wait_spec _ _ _ _ _ _ _ Hq Hl eq_refl Hb) in Hw' as (Hq' & _ & _ & Hs & _).
  pose proof (increments_nonneg _ Hq). unfold wait_for_read_window_increment, bl_must_wait in Hw.
  repeat case_match; simplify_eq/=; try (left; lia);
    repeat match goal with
    | H : (_ && _)%bool = false |- _ => apply andb_false_iff in H as [?%Z.leb_gt|?%Z.ltb_ge]
    | H : Z.ltb _ _ = true |- _ => apply Z.ltb_lt in H
    end; simpl in *; lia.
Qed.

(** Feedback terminates and keeps the window open.  After any read inside
    the request, [send_feedback] returns (the scale-down loop ends within its
    logarithmic fuel), and the read window then reaches past the next byte to
    read or to the end of the request; the increment it announced is what the
    window grew by and what was reserved, after releasing the bytes read. *)
Theorem data_read_feedback W c sh offset length :
  bc_wf W c → ml_wf (sh_mem sh) → 0 ≤ offset → 0 ≤ length → offset + length ≤ bc_request_end_offset c →
  ∃ c' sh' d, send_feedback (E:=False) c sh (DataRead offset length) = Ok (c', sh') ∧ bc_wf W c' ∧
    bc_next_read_offset c' = offset + length ∧
    (offset + length < bc_read_window_end_offset c' ∨ bc_request_end_offset c ≤ bc_read_window_end_offset c') ∧
    0 ≤ d ∧ bc_read_window_end_offset c' = bc_read_window_end_offset c + d ∧
    ml_mem_reserved (sh_mem sh') = wrap64 (ml_mem_reserved (sh_mem sh) - length + d) ∧
    sh_increments sh' = sh_increments sh ++ (if (d =? 0) || negb (sh_receiver_open sh) then [] else [d]).
Proof.
  intros Hwf Hml Ho Hl Hend.
  destruct (send_data_read_spec (E:=False) W c sh offset length) as (c' & sh' & d & Heq & Hwf' & _ & Hah & Hg); [done..|].
  destruct Hg as (Hd & Hwe & Hnx & Hre & _ & Hm & _ & Hq). simpl in *.
  exists c', sh', d. unfold window_ahead in Hah. rewrite Hnx, Hre in Hah.
  split_and!; try done. rewrite Hm. unfold wsub. by autorewrite with wrap64.
Qed.

(** C7. No deadlock between reader and stream.  In every reachable state of the
    protocol, a stream that asks whether it may produce a byte at or before the
    offset the reader needs next is told to go on: it is neither blocked
    forever nor given an error, because the limiter's window plus the queued
    increments always equals the controller's window. *)
Theorem stream_never_starves_reader W config ml p offset :
  config_wf W config → ml_wf ml → reachable proto_step (proto_init config ml) p →
  offset ≤ bc_next_read_offset (p_c p) →
  ∃ l' queue' changed,
    wait_for_read_window_increment (p_l p) (sh_increments (p_sh p)) true offset = (l', queue', WaitReady changed) ∧
    (offset < bl_read_window_end_offset l' ∨ bl_request_end_offset l' ≤ bl_read_window_end_offset l').
Proof.
  intros Hcfg Hml Hr Hoff.
  destruct (proto_reachable_inv W config ml p Hcfg Hml Hr) as (Hc & _ & Hah & _ & _ & Hpos & Hreq & Hbl & Hsync & _).
  pose proof Hc as (_&_&_&_&_&Hu&_). unfold window_ahead in Hah.
  destruct (wait_for_read_window_increment _ _ _ _) as [[l' queue'] r] eqn:Hw. pose proof Hw as Hw0.
  apply (wait_spec _ _ _ (bc_read_window_end_offset (p_c p))) in Hw as (_ & Hre' & _ & Hs' & Hbk & Hcl); try done; [|u64_lia].
  destruct r as [ch| |]; [|destruct (Hbk eq_refl); lia|done].
  exists l', queue', ch. split; [done|].
  by eapply wait_ready_window; [exact Hw0|..]; try done; rewrite <- Hsync; u64_lia.
Qed.

(** ** Witnesses: a small request under the minimum memory limit *)

Definition test_config : BackpressureConfig :=
  {| cfg_initial_read_window_size := 8; cfg_min_read_window_size := 4; cfg_max_read_window_size := 32;
     cfg_read_window_size_multiplier := 2; cfg_request_start := 0; cfg_request_end := 100;
     cfg_alignment := AlignToPartSize 8 4 |}.
Definition test_limiter : MemoryLimiter := MemoryLimiter_new PoolStats_default MINIMUM_MEM_LIMIT.
Definition test_start : proto :=
  let '(c, l, sh) := new_backpressure_controller test_config test_limiter in
  {| p_c := c; p_l := l; p_sh := sh; p_queue_start := 0; p_base := 0 |}.
(** After a read of 6 bytes, a seek back by 2 and another read of 3 bytes. *)
Definition test_read (p : proto) (len : Z) : proto :=
  match send_feedback (E:=False) (p_c p) (p_sh p) (DataRead (p_queue_start p) len) with
  | Ok (c, sh) => {| p_c := c; p_l := p_l p; p_sh := sh; p_queue_start := p_queue_start p + len; p_base := p_base p |}
  | _ => p
  end.
Definition test_seek (p : proto) (n : Z) : proto :=
  {| p_c := p_c p; p_l := p_l p; p_sh := sh_set_mem (p_sh p) (MemoryLimiter_reserve (sh_mem (p_sh p)) n);
     p_queue_start := p_queue_start p - n; p_base := p_base p |}.
Definition test_end : proto := test_read (test_seek (test_read test_start 6) 2) 3.

Lemma test_config_wf : config_wf 64 test_config.
Proof. unfold config_wf; simpl. u64_lia. Qed.
Lemma test_limiter_wf : ml_wf test_limiter.
Proof. by vm_compute. Qed.
Lemma test_end_reachable : reachable proto_step (proto_init test_config test_limiter) test_end.
Proof.
  apply (reachable_step _ _ (test_seek (test_read test_start 6) 2)); [|by eapply (proto_read _ _ _ _ _ 3)].
  apply (reachable_step _ _ (test_read test_start 6)); [|by apply (proto_push_front _ _ _ 6 0 2)].
  apply (reachable_step _ _ test_start); [|by eapply (proto_read _ _ _ _ _ 6)].
  by apply reachable_init.
Qed.

Lemma data_read_feedback_witness :
  ∃ c' sh' d, send_feedback (E:=False) (p_c test_start) (p_sh test_start) (DataRead 0 6) = Ok (c', sh') ∧
    bc_read_window_end_offset c' = 8 + d ∧ sh_increments sh' = if d =? 0 then [] else [d].
Proof.
  destruct (data_read_feedback 64 (p_c test_start) (p_sh test_start) 0 6)
    as (c' & sh' & d & Hs & _ & _ & _ & _ & Hwe & _ & Hq);
    [by vm_compute..|].
  exists c', sh', d. split; [done|]. split; [done|]. rewrite Hq. by destruct (d =? 0).
Defined.

Lemma stream_never_starves_reader_witness :
  ∃ l' queue' changed,
    wait_for_read_window_increment (p_l test_end) (sh_increments (p_sh test_end)) true 7 = (l', queue', WaitReady changed) ∧
    (7 < bl_read_window_end_offset l' ∨ bl_request_end_offset l' ≤ bl_read_window_end_offset l').
Proof.
  apply (stream_never_starves_reader 64 test_config test_limiter test_end 7).
  - exact test_config_wf.
  - exact test_limiter_wf.
  - exact test_end_reachable.
  - by vm_compute.
Defined.
