(* ===== verification/PartQueue.v ===== *)
(** * Part queue and request task

    Models of [mountpoint-s3-fs/src/prefetch/part_queue.rs] ([PartQueue],
    [PartQueueProducer]) and [mountpoint-s3-fs/src/prefetch/task.rs]
    ([RequestTask]).

    The part stream runs concurrently with the reader.  Its side of the channel
    is split in two: [pq_channel] holds what it has sent and the reader has not
    received, [pq_incoming] what it is still going to send before it finishes
    and drops its sender.  [PartQueue_deliver n] lets it send [n] more items; an
    awaiting reader forces the next one.  Every theorem holds for all numbers
    of deliveries at every point, that is for all relative speeds. *)

From S2P Require Import Prelude Checksums Part RequestRange MemLimiter Backpressure.
Local Open Scope Z_scope.

(** [ObjectClientError<GetObjectError>]: an answer of the service, or any other failure of the client. *)
Inductive GetObjectError := GetNoSuchBucket | GetNoSuchKey | GetPreconditionFailed.
Inductive GetClientError := GetServiceError (e : GetObjectError) | GetOtherError (what : string).

Inductive PrefetchReadError :=
| GetRequestFailed (source : GetClientError)
| GetRequestReturnedWrongOffset (offset expected_offset : Z)
| GetRequestTerminatedUnexpectedly
| PrefetchIntegrity (e : IntegrityError)
| PartReadFailed (e : PartOperationError)
| BackpressurePreconditionFailed
| ReadWindowIncrement.

(** [Result<Part, PrefetchReadError>], what travels through the channel. *)
Abbreviation item := (Part + PrefetchReadError)%type.

Record PartQueue := {
  pq_front_queue : list Part;   (** last pushed part first *)
  pq_channel : list item;
  pq_incoming : list item;
  pq_failed : bool;
  pq_bytes_received : Z;
}.
Implicit Types pq : PartQueue.

Definition unbounded_part_queue (incoming : list item) : PartQueue :=
  {| pq_front_queue := []; pq_channel := []; pq_incoming := incoming; pq_failed := false; pq_bytes_received := 0 |}.

Definition item_len (i : item) : Z :=
  match i with inl p => Part_len p | inr _ => 0 end.

(** The channel is open as long as the queue exists. *)
Definition PartQueueProducer_push pq (i : item) : PartQueue :=
  {| pq_front_queue := pq_front_queue pq; pq_channel := pq_channel pq ++ [i];
     pq_incoming := pq_incoming pq; pq_failed := pq_failed pq;
     pq_bytes_received := wadd (pq_bytes_received pq) (item_len i) |}.

(** The stream sends its next [n] items, or as many as it has left. *)
Fixpoint PartQueue_deliver (n : nat) pq : PartQueue :=
  match n, pq_incoming pq with
  | S n, i :: rest =>
      PartQueue_deliver n (PartQueueProducer_push
        {| pq_front_queue := pq_front_queue pq; pq_channel := pq_channel pq; pq_incoming := rest;
           pq_failed := pq_failed pq; pq_bytes_received := pq_bytes_received pq |} i)
  | _, _ => pq
  end.

Definition pq_with pq (front : list Part) (channel : list item) (failed : bool) : PartQueue :=
  {| pq_front_queue := front; pq_channel := channel; pq_incoming := pq_incoming pq;
     pq_failed := failed; pq_bytes_received := pq_bytes_received pq |}.

(** The part to read from: front queue, then [try_recv], then [recv().await],
    which fails when the stream has finished. *)
Definition PartQueue_next pq : PartQueue * item :=
  match pq_front_queue pq with
  | part :: front => (pq_with pq front (pq_channel pq) (pq_failed pq), inl part)
  | [] =>
      match pq_channel pq with
      | i :: channel => (pq_with pq [] channel (pq_failed pq), i)
      | [] =>
          let pq := PartQueue_deliver 1 pq in
          match pq_channel pq with
          | i :: channel => (pq_with pq [] channel (pq_failed pq), i)
          | [] => (pq, inr GetRequestTerminatedUnexpectedly)
          end
      end
  end.

Definition PartQueue_read pq (length : Z) : PartQueue * outcome PrefetchReadError Part :=
  if pq_failed pq then (pq, Panic) else
  match PartQueue_next pq with
  | (pq, inr e) => (pq_with pq (pq_front_queue pq) (pq_channel pq) true, Err e)
  | (pq, inl part) =>
      if length <? Part_len part then
        match Part_split_off part length with
        | Ok (part, tail) => (pq_with pq (tail :: pq_front_queue pq) (pq_channel pq) (pq_failed pq), Ok part)
        | Err e => (pq, Err e)
        | Panic => (pq, Panic)
        end
      else (pq, Ok part)
  end.

(** The controller does not know of parts from a backward seek: memory is reserved here. *)
Definition PartQueue_push_front {E} pq (ml : MemoryLimiter) (part : Part) : outcome E (PartQueue * MemoryLimiter) :=
  assert! negb (pq_failed pq) in
  Ok (pq_with pq (part :: pq_front_queue pq) (pq_channel pq) (pq_failed pq),
      MemoryLimiter_reserve ml (Part_len part)).

(** ** Request task *)

Record RequestTask := {
  rt_remaining : Z;
  rt_range : RequestRange;
  rt_part_queue : PartQueue;
  rt_controller : BackpressureController;
  rt_increments : list Z;   (** increments sent and not yet received by the stream *)
}.
Implicit Types rt : RequestTask.

Definition RequestTask_from_handle (range : RequestRange) pq (c : BackpressureController) : RequestTask :=
  {| rt_remaining := rr_size range; rt_range := range; rt_part_queue := pq;
     rt_controller := c; rt_increments := [] |}.

Definition rt_with rt (remaining : Z) pq : RequestTask :=
  {| rt_remaining := remaining; rt_range := rt_range rt; rt_part_queue := pq;
     rt_controller := rt_controller rt; rt_increments := rt_increments rt |}.

(** [parts.into_iter().rev()]: the last part is pushed first. *)
Fixpoint RequestTask_push_front_rev {E} rt (ml : MemoryLimiter) (rparts : list Part)
  : outcome E (RequestTask * MemoryLimiter) :=
  match rparts with
  | [] => Ok (rt, ml)
  | part :: rparts =>
      let! '(pq, ml) := PartQueue_push_front (rt_part_queue rt) ml part in
      RequestTask_push_front_rev (rt_with rt (wadd (rt_remaining rt) (Part_len part)) pq) ml rparts
  end.
Definition RequestTask_push_front {E} rt (ml : MemoryLimiter) (parts : list Part)
  : outcome E (RequestTask * MemoryLimiter) :=
  RequestTask_push_front_rev rt ml (rev parts).

(** Maximum offset of the data known to have reached the queue. *)
Definition RequestTask_available_offset rt : Z :=
  wadd (RequestRange_start (rt_range rt)) (pq_bytes_received (rt_part_queue rt)).

(** Feedback goes to the controller with the task's channel and the memory limiter. *)
Definition rt_feedback rt (ml : MemoryLimiter) (event : BackpressureFeedbackEvent)
  : outcome PrefetchReadError (RequestTask * MemoryLimiter) :=
  let! '(c, sh) := send_feedback (rt_controller rt)
    {| sh_increments := rt_increments rt; sh_receiver_open := true; sh_mem := ml |} event in
  Ok ({| rt_remaining := rt_remaining rt; rt_range := rt_range rt; rt_part_queue := rt_part_queue rt;
         rt_controller := c; rt_increments := sh_increments sh |}, sh_mem sh).

Definition RequestTask_read rt (ml : MemoryLimiter) (length : Z)
  : RequestTask * MemoryLimiter * outcome PrefetchReadError Part :=
  match PartQueue_read (rt_part_queue rt) length with
  | (pq, Err e) => (rt_with rt (rt_remaining rt) pq, ml, Err e)
  | (pq, Panic) => (rt_with rt (rt_remaining rt) pq, ml, Panic)
  | (pq, Ok part) =>
      let rt := rt_with rt (wsub (rt_remaining rt) (Part_len part)) pq in
      match rt_feedback rt ml (DataRead (part_offset part) (Part_len part)) with
      | Err e => (rt, ml, Err e)
      | Panic => (rt, ml, Panic)
      | Ok (rt, ml) =>
          let next_offset := wadd (part_offset part) (Part_len part) in
          let remaining_in_queue := sat_sub (RequestTask_available_offset rt) next_offset in
          if remaining_in_queue =? 0 then
            match rt_feedback rt ml PartQueueStall with
            | Err e => (rt, ml, Err e)
            | Panic => (rt, ml, Panic)
            | Ok (rt, ml) => (rt, ml, Ok part)
            end
          else (rt, ml, Ok part)
      end
  end.

(** Dropping a task drops its controller, which releases the unread window. *)
Definition RequestTask_drop rt (ml : MemoryLimiter) : MemoryLimiter :=
  BackpressureController_drop (rt_controller rt) ml.

Definition rt_deliver (n : nat) rt : RequestTask :=
  rt_with rt (rt_remaining rt) (PartQueue_deliver n (rt_part_queue rt)).

(** ** The queue as a stream of the object's bytes *)

Section of_object.
Context `{crc : Crc32c, env : IntegrityEnv} (id : ObjectId) (obj : bytes).
(** [strict]: the stream is known to deliver its whole range. *)
Context (strict : Prop).

(** Items in front of the first error are consecutive parts of the object from [pos] on. *)
Fixpoint items_ok (pos e : Z) (items : list item) : Prop :=
  match items with
  | [] => strict → pos = e
  | inr _ :: _ => ¬ strict
  | inl p :: items => part_of id obj p ∧ part_offset p = pos ∧ pos + Part_len p ≤ e ∧ items_ok (pos + Part_len p) e items
  end.

Lemma items_ok_parts pos mid e ps items :
  parts_cover id obj pos mid ps → mid ≤ e → items_ok mid e items → items_ok pos e (map inl ps ++ items).
Proof.
  revert pos. induction ps as [|p ps IH]; simpl; intros pos Hc Hm Hi; [by subst|].
  destruct Hc as (Hp & Hoff & Hc). pose proof (parts_cover_le _ _ _ _ _ Hc). split_and!; try done; [lia|]. by apply IH.
Qed.

Lemma items_ok_strict pos e items :
  strict → items_ok pos e items → ∃ ps, items = map inl ps ∧ parts_cover id obj pos e ps.
Proof.
  intros Hs. revert pos. induction items as [|[p|err] items IH]; intros pos Hi; simpl in Hi.
  - exists []. split; [done|]. simpl. auto.
  - destruct Hi as (Hp & Hoff & _ & Hi). destruct (IH _ Hi) as (ps & -> & Hc). by exists (p :: ps).
  - done.
Qed.

Definition pq_items pq : list item := map inl (pq_front_queue pq) ++ pq_channel pq ++ pq_incoming pq.

Lemma deliver_items n pq :
  pq_items (PartQueue_deliver n pq) = pq_items pq ∧ pq_failed (PartQueue_deliver n pq) = pq_failed pq.
Proof.
  revert pq. induction n as [|n IH]; intros pq; [done|]. simpl.
  destruct (pq_incoming pq) as [|i rest] eqn:Hin; [done|].
  destruct (IH (PartQueueProducer_push {| pq_front_queue := pq_front_queue pq; pq_channel := pq_channel pq;
    pq_incoming := rest; pq_failed := pq_failed pq; pq_bytes_received := pq_bytes_received pq |} i)) as [-> ->].
  unfold pq_items; simpl. by rewrite Hin, <- (app_assoc (pq_channel pq)).
Qed.

(** [PartQueue_next] takes the first item, or reports the end of the stream. *)
Lemma next_items pq :
  match pq_items pq with
  | i :: items => ∃ pq', PartQueue_next pq = (pq', i) ∧ pq_items pq' = items ∧ pq_failed pq' = pq_failed pq
  | [] => ∃ pq', PartQueue_next pq = (pq', inr GetRequestTerminatedUnexpectedly)
  end.
Proof.
  unfold pq_items, PartQueue_next.
  destruct (pq_front_queue pq) as [|p front]; simpl; [|by eexists].
  destruct (pq_channel pq) as [|i channel] eqn:Hch; simpl; [|by eexists].
  destruct (pq_incoming pq) as [|i rest] eqn:Hin; simpl; rewrite ?Hch; simpl; rewrite ?Hch; by eexists.
Qed.

(** Parts pushed to the front are taken before anything else. *)
Lemma items_front pq :
  match pq_items pq with inl _ :: _ => True | _ => pq_front_queue pq = [] end.
Proof. unfold pq_items. destruct (pq_front_queue pq); simpl; [|done]. by repeat case_match. Qed.

Lemma PartQueue_read_spec pq pos e length :
  pq_failed pq = false → items_ok pos e (pq_items pq) → pos < e → 0 < length →
  ∃ pq' r, PartQueue_read pq length = (pq', r) ∧
    match r with
    | Ok part => part_of id obj part ∧ part_offset part = pos ∧ Part_len part ≤ length ∧
        pq_failed pq' = false ∧ items_ok (pos + Part_len part) e (pq_items pq') ∧ pos + Part_len part ≤ e
    | Err _ => ¬ strict ∧ pq_front_queue pq = []
    | Panic => False
    end.
Proof.
  intros Hf Hi Hlt Hlen. unfold PartQueue_read. rewrite Hf.
  pose proof (next_items pq) as Hn. pose proof (items_front pq) as Hfr.
  destruct (pq_items pq) as [|[part|err] items]; simpl in Hi.
  - destruct Hn as (pq' & ->). do 2 eexists. split; [done|]. simpl. split; [|done]. intros Hs. specialize (Hi Hs). lia.
  - destruct Hn as (pq' & -> & Hit & Hf'). destruct Hi as (Hp & Hoff & Hle & Hi).
    destruct (Z.ltb_spec length (Part_len part)).
    + destruct (part_of_split id obj part length) as (pre & suf & -> & H1 & H2 & Ho1 & Hl1 & Ho2 & Hl2); [done|lia|].
      do 2 eexists. split; [done|]. simpl. rewrite Hl1. split_and!; try done; try lia; [congruence|].
      unfold pq_items in *; simpl. rewrite Hit.
      by replace (pos + length + Part_len suf) with (pos + Part_len part) by lia.
    + do 2 eexists. split; [done|]. simpl. split_and!; try done; congruence || by rewrite Hit.
  - destruct Hn as (pq' & -> & _). do 2 eexists. split; [done|]. done.
Qed.

(** ** Invariant of a task whose next byte is [pos] *)

Definition task_inv (W pos : Z) rt : Prop :=
  0 ≤ pos ≤ zlen obj ∧ zlen obj < u64_modulus ∧ rt_remaining rt = zlen obj - pos ∧
  pq_failed (rt_part_queue rt) = false ∧ items_ok pos (zlen obj) (pq_items (rt_part_queue rt)) ∧
  bc_wf W (rt_controller rt) ∧ bc_request_end_offset (rt_controller rt) = zlen obj.

(** Memory accounting: the limiter's counter is what others hold ([base]) plus
    the open window, counted from the first byte that is still in the queue. *)
Definition task_mem (base pos : Z) rt (ml : MemoryLimiter) : Prop :=
  window_ahead (rt_controller rt) ∧
  ml_mem_reserved ml = wrap64 (base + bc_read_window_end_offset (rt_controller rt) - pos).

(** Dropping a task whose controller knows the start of the queue returns all of it. *)
Lemma task_drop_mem W base pos rt ml :
  task_inv W pos rt → task_mem base pos rt ml → bc_next_read_offset (rt_controller rt) = pos →
  ml_mem_reserved (RequestTask_drop rt ml) = wrap64 base.
Proof.
  intros (?&?&?&?&?&Hbc&Hre) [Hah Hm] Hn. simpl. rewrite Hm. unfold wsub, sat_sub. autorewrite with wrap64. f_equal.
  unfold window_ahead in Hah. lia.
Qed.

Lemma rt_deliver_inv W pos n rt : task_inv W pos rt → task_inv W pos (rt_deliver n rt).
Proof.
  intros (?&?&?&?&?&?&?). destruct (deliver_items n (rt_part_queue rt)) as [Hd1 Hd2].
  unfold task_inv; simpl. rewrite Hd1, Hd2. split_and!; done || lia.
Qed.

Lemma rt_feedback_read W pos rt ml offset length :
  task_inv W pos rt → ml_wf ml → 0 ≤ offset → 0 ≤ length → offset + length ≤ zlen obj →
  ∃ rt' ml', rt_feedback rt ml (DataRead offset length) = Ok (rt', ml') ∧ task_inv W pos rt' ∧ ml_wf ml' ∧
    rt_part_queue rt' = rt_part_queue rt ∧ bc_next_read_offset (rt_controller rt') = offset + length ∧
    ∀ base, task_mem base offset rt ml → task_mem base (offset + length) rt' ml'.
Proof.
  intros (?&?&?&?&?&Hbc&Hre) Hml Ho Hl Hend. unfold rt_feedback.
  destruct (send_data_read_spec (E:=PrefetchReadError) W (rt_controller rt)
    {| sh_increments := rt_increments rt; sh_receiver_open := true; sh_mem := ml |} offset length)
    as (c' & sh' & d & -> & Hwf' & Hml' & Hah & Hg); try done; [lia|]. cbn [outcome_bind].
  do 2 eexists. split; [done|]. destruct Hg as (_ & Hwe & Hnx & Hre' & _ & Hm & _).
  unfold task_inv; cbn [rt_controller rt_remaining rt_part_queue sh_mem]. split_and!; try done; try lia; [by rewrite Hre'|].
  intros base [_ Hmem]. split; [done|]. cbn [rt_controller sh_mem sh_set_mem ml_mem_reserved MemoryLimiter_release ml_set_reserved] in *.
  rewrite Hm, Hmem, Hwe. unfold wsub. autorewrite with wrap64. f_equal. simpl. lia.
Qed.

Lemma rt_feedback_stall W pos rt ml :
  task_inv W pos rt → ml_wf ml →
  ∃ rt', rt_feedback rt ml PartQueueStall = Ok (rt', ml) ∧ task_inv W pos rt' ∧ rt_part_queue rt' = rt_part_queue rt ∧
    bc_next_read_offset (rt_controller rt') = bc_next_read_offset (rt_controller rt) ∧
    ∀ base q, task_mem base q rt ml → task_mem base q rt' ml.
Proof.
  intros (?&?&?&?&?&Hbc&Hre) Hml. unfold rt_feedback. cbn [send_feedback outcome_bind].
  destruct (scale_up_offsets (rt_controller rt) ml) as (He1 & He2 & He3).
  eexists. split; [done|]. unfold task_inv, task_mem, window_ahead; simpl. rewrite He1, He2, He3.
  split_and!; try done; try lia. by apply scale_up_wf.
Qed.

Lemma RequestTask_read_spec W pos rt ml length :
  task_inv W pos rt → ml_wf ml → pos < zlen obj → 0 < length →
  ∃ rt' ml' r, RequestTask_read rt ml length = (rt', ml', r) ∧ ml_wf ml' ∧
    match r with
    | Ok part => part_of id obj part ∧ part_offset part = pos ∧ Part_len part ≤ length ∧
        task_inv W (pos + Part_len part) rt' ∧ bc_next_read_offset (rt_controller rt') = pos + Part_len part ∧
        ∀ base, task_mem base pos rt ml → task_mem base (pos + Part_len part) rt' ml'
    | Err _ => ¬ strict ∧ pq_front_queue (rt_part_queue rt) = [] ∧ rt_controller rt' = rt_controller rt ∧ ml' = ml
    | Panic => False
    end.
Proof.
  intros (Hpos & Hobj & Hrem & Hf & Hi & Hbc & Hre) Hml Hlt Hlen. unfold RequestTask_read.
  destruct (PartQueue_read_spec (rt_part_queue rt) pos (zlen obj) length) as (pq' & r & -> & Hr); try done.
  destruct r as [part|e|]; [|do 3 eexists; split; [done|]; destruct Hr; by split_and!|done].
  destruct Hr as (Hp & Hoff & Hle & Hf' & Hi' & Hend). pose proof (part_of_len _ _ _ Hp).
  rewrite (wsub_small (rt_remaining rt)) by u64_lia.
  assert (task_inv W (pos + Part_len part) (rt_with rt (rt_remaining rt - Part_len part) pq')) as Hinv
    by (unfold task_inv; simpl; split_and!; try done; lia).
  destruct (rt_feedback_read W _ _ ml (part_offset part) (Part_len part) Hinv) as (rt1 & ml1 & -> & Hinv1 & Hml1 & Hq1 & Hn1 & Hm1);
    [done|lia..|]. rewrite Hoff in Hn1, Hm1. case_Z.
  - destruct (rt_feedback_stall W _ rt1 ml1 Hinv1 Hml1) as (rt2 & -> & Hinv2 & _ & Hn2 & Hm2).
    do 3 eexists. split; [done|]. split_and!; try done; [congruence|]. eauto.
  - do 3 eexists. split; [done|]. done.
Qed.

Lemma RequestTask_push_front_spec {E} W e rt ml ps s :
  task_inv W e rt → ml_wf ml → parts_cover id obj s e ps → 0 ≤ s →
  ∃ rt' ml', RequestTask_push_front (E:=E) rt ml ps = Ok (rt', ml') ∧ task_inv W s rt' ∧ ml_wf ml' ∧
    pq_front_queue (rt_part_queue rt') = ps ++ pq_front_queue (rt_part_queue rt) ∧
    ∀ base, task_mem base e rt ml → task_mem base s rt' ml'.
Proof.
  assert (∃ rps, ps = rev rps) as [rps ->] by (exists (rev ps); by rewrite rev_involutive).
  unfold RequestTask_push_front. rewrite rev_involutive. revert e rt ml. induction rps as [|p rps IH]; intros e rt ml Hinv Hml Hc Hs; simpl in *.
  { do 2 eexists. split; [done|]. subst. split_and!; done. }
  apply parts_cover_app in Hc as (m & Hc & Hp & Hoff & Hm). simpl in Hm.
  pose proof (part_of_len _ _ _ Hp). pose proof (parts_cover_le _ _ _ _ _ Hc).
  destruct Hinv as (Hpos & Hobj & Hrem & Hf & Hi & Hbc & Hre).
  unfold PartQueue_push_front at 1. rewrite Hf. cbn [negb outcome_bind].
  rewrite (wadd_small (rt_remaining rt)) by u64_lia.
  destruct (IH m (rt_with rt (rt_remaining rt + Part_len p) (pq_with (rt_part_queue rt) (p :: pq_front_queue (rt_part_queue rt))
      (pq_channel (rt_part_queue rt)) false)) (MemoryLimiter_reserve ml (Part_len p)))
    as (rt' & ml' & -> & Hinv' & Hml' & Hfq & Hmem); [|by apply ml_wf_reserve|done|done|].
  { unfold task_inv; simpl. split_and!; try done; try lia. unfold pq_items; simpl. by rewrite Hm. }
  do 2 eexists. split; [done|]. split_and!; try done; [by rewrite Hfq, <- app_assoc|].
  intros base [Hah Hr]. apply Hmem. split; [done|]. simpl. rewrite Hr. unfold wadd. autorewrite with wrap64. f_equal. lia.
Qed.
End of_object.
