(* ===== verification/PartStream.v ===== *)
(** * Part streams: turning client responses into parts of the queue

    Model of [mountpoint-s3-fs/src/prefetch/part_stream.rs]: the
    [ObjectPartStream] interface, [ClientPartStream] with its part composer, and
    the two consecutive GetObject requests that serve one range.

    The S3 client is a parameter: a function from request ranges to responses.
    Waiting for the read window only decides when a stream goes on, or that it
    stops because the reader has gone ([window_open] is false there). *)

From S2P Require Import Prelude Checksums Part SeekWindow RequestRange MemLimiter Backpressure PartQueue.
Local Open Scope Z_scope.

Record RequestTaskConfig := {
  rtc_bucket : string;
  rtc_object_id : ObjectId;
  rtc_handle_id : Z;
  rtc_range : RequestRange;
  rtc_read_part_size : Z;
  rtc_preferred_part_size : Z;
  rtc_initial_request_size : Z;
  rtc_max_read_window_size : Z;
  rtc_read_window_size_multiplier : Z;
}.

(** ** The interface

    [ps_items n cfg] is what the [n]-th spawned request sends to its queue;
    [ps_align] tells whether the read window is aligned to part boundaries (the
    client stream) or not (the caching stream). *)
Class ObjectPartStream := {
  ps_items : nat → RequestTaskConfig → list item;
  ps_align : bool;
}.

(** What a stream of object [id], with content [obj], promises to the reader:
    consecutive parts from the start of the requested range; all of them when
    [strict], otherwise possibly cut short by an error. *)
Class ObjectPartStreamLaws `{Crc32c, IntegrityEnv, ObjectPartStream} (strict : Prop) (id : ObjectId) (obj : bytes) :=
  ps_items_ok n cfg :
    rtc_object_id cfg = id → 0 < rtc_preferred_part_size cfg < u64_modulus → 0 ≤ rtc_initial_request_size cfg →
    rr_wf (rtc_range cfg) → rr_object_size (rtc_range cfg) = zlen obj → RequestRange_end (rtc_range cfg) = zlen obj →
    items_ok id obj strict (RequestRange_start (rtc_range cfg)) (zlen obj) (ps_items n cfg).

(** [spawn_get_object_request] of both streams. *)
Definition spawn_get_object_request `{ObjectPartStream} {E} (n : nat) (config : RequestTaskConfig) (ml : MemoryLimiter)
  : outcome E (RequestTask * MemoryLimiter) :=
  assert! (if ps_align then 0 <? rtc_preferred_part_size config else true) in
  let range := rtc_range config in
  let backpressure_config :=
    {| cfg_initial_read_window_size :=
         RequestTaskConfig_initial_read_window_size (rtc_initial_request_size config) (rtc_read_part_size config);
       cfg_min_read_window_size := rtc_read_part_size config;
       cfg_max_read_window_size := rtc_max_read_window_size config;
       cfg_read_window_size_multiplier := rtc_read_window_size_multiplier config;
       cfg_request_start := RequestRange_start range;
       cfg_request_end := RequestRange_end range;
       cfg_alignment :=
         if ps_align then
           AlignToPartSize (wadd (RequestRange_start range) (rtc_initial_request_size config)) (rtc_read_part_size config)
         else AlignDisable |} in
  let '(controller, _, sh) := new_backpressure_controller backpressure_config ml in
  Ok (RequestTask_from_handle range (unbounded_part_queue (ps_items n config)) controller, sh_mem sh).

(** ** The client stream *)

Record GetBodyPart := { gbp_offset : Z; gbp_data : bytes }.

(** [client.get_object]: the request fails, or its body is a stream of parts and errors. *)
Abbreviation GetObjectResponse := (GetClientError + list (GetBodyPart + GetClientError))%type.
Abbreviation stream_item := (GetBodyPart + PrefetchReadError)%type.

(** The loop of [read_from_request] over the body. *)
Fixpoint read_from_request_body (window_open : Z → bool) (range_end : Z) (body : list (GetBodyPart + GetClientError))
  : list stream_item :=
  match body with
  | [] => []
  | inr e :: _ => [inr (GetRequestFailed e)]
  | inl part :: body =>
      let next_offset := wadd (gbp_offset part) (zlen (gbp_data part)) in
      inl part ::
        (if next_offset =? range_end then []
         else if window_open next_offset then read_from_request_body window_open range_end body
         else [inr ReadWindowIncrement])
  end.

Definition read_from_request (get_object : Z → Z → GetObjectResponse) (window_open : Z → bool) (range : RequestRange)
  : list stream_item :=
  match get_object (RequestRange_start range) (RequestRange_end range) with
  | inl e => [inr (GetRequestFailed e)]
  | inr body => read_from_request_body window_open (RequestRange_end range) body
  end.

(** Offset after the last part of a finished stream; [None] when it ended with an error. *)
Fixpoint stream_end_offset (current_offset : Z) (items : list stream_item) : option Z :=
  match items with
  | [] => Some current_offset
  | inl part :: items => stream_end_offset (wadd (gbp_offset part) (zlen (gbp_data part))) items
  | inr _ :: _ => None
  end.

Definition read_from_client_stream (get_object : Z → Z → GetObjectResponse) (window_open : Z → bool)
    (initial_request_end_offset : Z) (range : RequestRange) : list stream_item :=
  let first_req_range := RequestRange_trim_end range initial_request_end_offset in
  let first_items :=
    if RequestRange_is_empty first_req_range then [] else read_from_request get_object window_open first_req_range in
  first_items ++
  match stream_end_offset (RequestRange_start first_req_range) first_items with
  | None => []
  | Some current_offset =>
      let range := RequestRange_trim_start range initial_request_end_offset in
      if RequestRange_is_empty range then []
      else if current_offset <? RequestRange_start range then [inr GetRequestTerminatedUnexpectedly]
      else if window_open (RequestRange_start range) then read_from_request get_object window_open range
      else [inr ReadWindowIncrement]
  end.

(** The inner loop of [ClientPartComposer::compose_parts]: split a body at
    multiples of the preferred part size.  Every chunk takes at least one byte. *)
Fixpoint compose_body `{crc : Crc32c, env : IntegrityEnv} (fuel : nat) (id : ObjectId) (alignment curr_offset : Z) (body : bytes) : list item :=
  match fuel, body with
  | S fuel, _ :: _ =>
      let distance_to_align := alignment - curr_offset `mod` alignment in
      let chunk_size := Z.min distance_to_align (zlen body) in
      let part := Part_new id curr_offset (ChecksummedBytes_new (ztake chunk_size body)) S3 in
      inl part :: compose_body fuel id alignment (wadd curr_offset (Part_len part)) (zdrop chunk_size body)
  | _, _ => []
  end.

(** [try_compose_parts]: an error of the stream is pushed and ends it. *)
Fixpoint compose_parts `{crc : Crc32c, env : IntegrityEnv} (id : ObjectId) (preferred_part_size : Z) (items : list stream_item) : list item :=
  match items with
  | [] => []
  | inr e :: _ => [inr e]
  | inl part :: items =>
      compose_body (length (gbp_data part)) id preferred_part_size (gbp_offset part) (gbp_data part)
      ++ compose_parts id preferred_part_size items
  end.

(** Everything the task spawned by [ClientPartStream] sends to the part queue. *)
Definition client_part_stream_items `{crc : Crc32c, env : IntegrityEnv} (get_object : Z → Z → GetObjectResponse)
    (window_open : Z → bool) (config : RequestTaskConfig) : list item :=
  let initial_request_end_offset := wadd (RequestRange_start (rtc_range config)) (rtc_initial_request_size config) in
  compose_parts (rtc_object_id config) (rtc_preferred_part_size config)
    (read_from_client_stream get_object window_open initial_request_end_offset (rtc_range config)).

(** ** Correctness of the client stream *)

Section client_stream.
Context `{crc : Crc32c, env : IntegrityEnv, !Crc32cLaws} (id : ObjectId) (obj : bytes) (strict : Prop).
Set Default Proof Using "Type*".

(** Body parts are consecutive non-empty slices of the object from [pos] up to
    [e] at most; without errors they reach [e]. *)
Fixpoint body_ok {X} (pos e : Z) (body : list (GetBodyPart + X)) : Prop :=
  match body with
  | [] => strict → pos = e
  | inr _ :: _ => ¬ strict
  | inl part :: body =>
      gbp_offset part = pos ∧ 0 < zlen (gbp_data part) ∧ pos + zlen (gbp_data part) ≤ e ∧
      gbp_data part = zslice pos (pos + zlen (gbp_data part)) obj ∧
      body_ok (pos + zlen (gbp_data part)) e body
  end.

(** The documented behaviour of a ranged GetObject with an [if_match] condition
    on the entity tag: the bytes of that version of the object, in order. *)
Definition get_object_ok (get_object : Z → Z → GetObjectResponse) : Prop :=
  ∀ a b, 0 ≤ a < b → b ≤ zlen obj →
    match get_object a b with
    | inl _ => ¬ strict
    | inr body => body_ok a b body
    end.

(** A reader that stays does not close the channel of increments. *)
Definition reader_stays (window_open : Z → bool) : Prop := strict → ∀ o, window_open o = true.

Lemma read_body_ok window_open pos e body :
  reader_stays window_open → 0 ≤ pos ≤ e → e ≤ zlen obj → zlen obj < u64_modulus →
  body_ok pos e body → body_ok pos e (read_from_request_body window_open e body).
Proof.
  intros Hst. revert pos. induction body as [|[part|err] body IH]; intros pos Hpos He Hobj Hb; simpl in *; try done.
  destruct Hb as (Hoff & Hlen & Hle & Hd & Hb). rewrite Hoff, wadd_small by u64_lia.
  split_and!; try done. destruct (Z.eqb_spec (pos + zlen (gbp_data part)) e); simpl; [done|].
  destruct (window_open _) eqn:Hw; [apply IH; try done; lia|]. simpl.
  intros Hs. specialize (Hst Hs (pos + zlen (gbp_data part))). congruence.
Qed.

(** A finished first stream [items1] that served up to [cur] can be continued from there. *)
Lemma body_ok_continue pos mid e items1 :
  0 ≤ pos ≤ mid → mid ≤ e → mid < u64_modulus → body_ok pos mid items1 →
  match stream_end_offset pos items1 with
  | None => body_ok pos e (items1 ++ [])
  | Some cur => cur ≤ mid ∧ (strict → cur = mid) ∧
      ∀ items2, body_ok cur e items2 → body_ok pos e (items1 ++ items2)
  end.
Proof.
  revert pos. induction items1 as [|[part|err] items1 IH]; intros pos Hpos Hme Hmu Hb; simpl in *.
  - split_and!; try done; lia.
  - destruct Hb as (Hoff & Hlen & Hle & Hd & Hb). rewrite Hoff, wadd_small by u64_lia.
    specialize (IH (pos + zlen (gbp_data part)) ltac:(lia) Hme Hmu Hb).
    destruct (stream_end_offset _ _) as [cur|].
    + destruct IH as (?&?&Hc). split_and!; try done. intros items2 Hi2. split_and!; try done; [lia|]. by apply Hc.
    + split_and!; try done. lia.
  - done.
Qed.

Lemma read_from_request_ok get_object window_open r :
  get_object_ok get_object → reader_stays window_open → zlen obj < u64_modulus →
  rr_wf r → 0 < rr_size r → RequestRange_end r ≤ zlen obj →
  body_ok (RequestRange_start r) (RequestRange_end r) (read_from_request get_object window_open r).
Proof.
  intros Hg Hst Hobj Hwf Hsz Hle. pose proof (rr_end_wf r Hwf) as He. destruct Hwf as (?&?&?&?).
  unfold read_from_request, RequestRange_start in *.
  specialize (Hg (rr_offset r) (RequestRange_end r) ltac:(u64_lia) Hle).
  destruct (get_object _ _); [done|]. apply read_body_ok; try done; u64_lia.
Qed.

Lemma read_from_client_stream_ok get_object window_open initial_end r :
  get_object_ok get_object → reader_stays window_open → zlen obj < u64_modulus →
  rr_wf r → RequestRange_end r = zlen obj →
  body_ok (RequestRange_start r) (zlen obj) (read_from_client_stream get_object window_open initial_end r).
Proof.
  intros Hg Hst Hobj Hwf He. pose proof (rr_end_wf r Hwf) as Her.
  destruct (rr_trim_end_spec r initial_end Hwf) as (Hwa & _ & Hoa & Hea).
  destruct (rr_trim_start_spec r initial_end Hwf) as (Hwb & _ & Hob & Heb).
  unfold read_from_client_stream.
  set (ra := RequestRange_trim_end r initial_end) in *. set (rb := RequestRange_trim_start r initial_end) in *.
  pose proof (rr_end_wf ra Hwa) as Hera. pose proof (rr_end_wf rb Hwb) as Herb.
  destruct Hwf as (?&?&?&?). pose proof Hwa as (_&?&?&_). pose proof Hwb as (_&_&?&_).
  unfold RequestRange_is_empty, RequestRange_start in *.
  set (first := if rr_size ra =? 0 then [] else _).
  assert (body_ok (rr_offset ra) (RequestRange_end ra) first) as Hfirst.
  { unfold first. destruct (Z.eqb_spec (rr_size ra) 0); [simpl; lia|].
    apply read_from_request_ok; try done; lia. }
  rewrite <- Hoa. apply (body_ok_continue _ _ (zlen obj)) in Hfirst; [|u64_lia..].
  destruct (stream_end_offset _ _) as [cur|]; [|done]. destruct Hfirst as (Hcur & Hs & Hcont).
  apply Hcont. destruct (Z.eqb_spec (rr_size rb) 0); [simpl; intros Hstr; specialize (Hs Hstr); lia|].
  destruct (Z.ltb_spec cur (rr_offset rb)); [simpl; intros Hstr; specialize (Hs Hstr); lia|].
  destruct (window_open _) eqn:Hw.
  - replace cur with (RequestRange_start rb) by (unfold RequestRange_start; lia).
    rewrite <- He, <- Heb. apply read_from_request_ok; try done; lia.
  - simpl. intros Hstr. by rewrite (Hst Hstr) in Hw.
Qed.

Lemma compose_body_ok fuel alignment pos body :
  0 < alignment < u64_modulus → 0 ≤ pos → pos + zlen body ≤ zlen obj → zlen obj < u64_modulus →
  body = zslice pos (pos + zlen body) obj → (length body ≤ fuel)%nat →
  ∃ ps, compose_body fuel id alignment pos body = map inl ps ∧ parts_cover id obj pos (pos + zlen body) ps.
Proof.
  intros Ha. revert pos body. induction fuel as [|fuel IH]; intros pos body Hpos Hle Hobj Hb Hf.
  { destruct body; [|simpl in Hf; lia]. exists []. rewrite zlen_nil. split; [done|]. simpl. lia. }
  destruct body as [|b body]; [exists []; rewrite zlen_nil; split; [done|]; simpl; lia|].
  set (full := b :: body) in *. cbn [compose_body]. unfold full at 1. cbv zeta.
  pose proof (Z.mod_pos_bound pos alignment ltac:(lia)).
  assert (0 < zlen full) by (unfold full; rewrite zlen_cons; pose proof (zlen_nonneg body); lia).
  set (n := Z.min (alignment - pos `mod` alignment) (zlen full)) in *.
  set (p := Part_new id pos (ChecksummedBytes_new (ztake n full)) S3).
  assert (Part_len p = n) as Hlp.
  { unfold p, Part_len; simpl. rewrite cb_new_len, zlen_ztake; lia. }
  assert (part_of id obj p) as Hp.
  { unfold part_of. rewrite Hlp. unfold p; simpl. rewrite cb_new_data.
    split_and!; try done; try lia; [apply cb_new_wf; rewrite zlen_ztake; lia|apply cb_new_intact|].
    rewrite Hb. apply ztake_zslice. lia. }
  rewrite Hlp, wadd_small by u64_lia.
  destruct (IH (pos + n) (zdrop n full)) as (ps & -> & Hc); try lia.
  - rewrite zlen_zdrop by lia. lia.
  - rewrite zlen_zdrop by lia. rewrite Hb at 1. rewrite zdrop_zslice by lia. f_equal. lia.
  - unfold zdrop. rewrite length_drop. assert (1 ≤ n) by lia. simpl in Hf |- *. lia.
  - exists (p :: ps). split; [done|]. simpl. rewrite Hlp. split_and!; try done.
    rewrite zlen_zdrop in Hc by lia. by replace (pos + zlen full) with (pos + n + (zlen full - n)) by lia.
Qed.

Lemma compose_parts_ok alignment pos items :
  0 < alignment < u64_modulus → 0 ≤ pos → zlen obj < u64_modulus →
  body_ok pos (zlen obj) items → items_ok id obj strict pos (zlen obj) (compose_parts id alignment items).
Proof.
  intros Ha. revert pos. induction items as [|[part|err] items IH]; intros pos Hpos Hobj Hb; simpl in *; try done.
  destruct Hb as (Hoff & Hlen & Hle & Hd & Hb). rewrite Hoff.
  destruct (compose_body_ok (length (gbp_data part)) alignment pos (gbp_data part)) as (ps & -> & Hc); try done.
  eapply items_ok_parts; [done|lia|]. apply IH; try done. lia.
Qed.

Lemma client_part_stream_ok get_object window_open cfg :
  get_object_ok get_object → reader_stays window_open → zlen obj < u64_modulus →
  rtc_object_id cfg = id → 0 < rtc_preferred_part_size cfg < u64_modulus →
  rr_wf (rtc_range cfg) → RequestRange_end (rtc_range cfg) = zlen obj →
  items_ok id obj strict (RequestRange_start (rtc_range cfg)) (zlen obj) (client_part_stream_items get_object window_open cfg).
Proof.
  intros Hg Hst Hobj Hid Hp Hwf He. unfold client_part_stream_items. rewrite Hid.
  apply compose_parts_ok; try done; [destruct Hwf as (?&?&?&?); unfold RequestRange_start; u64_lia|].
  by apply read_from_client_stream_ok.
Qed.

(** The client stream feeds the queue the right bytes.  Given a client whose
    GetObject responses carry the object's bytes in order, the parts that
    [ClientPartStream] composes from its two requests are consecutive, intact,
    labelled with the object's id, start at the requested offset and, when
    nothing fails, cover the range to the end of the object, whatever the
    sizes of the body parts, the size of the first request and the preferred
    part size. *)
Theorem client_stream_covers_range get_object window_open cfg :
  strict → get_object_ok get_object → reader_stays window_open → zlen obj < u64_modulus →
  rtc_object_id cfg = id → 0 < rtc_preferred_part_size cfg < u64_modulus →
  rr_wf (rtc_range cfg) → RequestRange_end (rtc_range cfg) = zlen obj →
  ∃ ps, client_part_stream_items get_object window_open cfg = map inl ps ∧
    parts_cover id obj (RequestRange_start (rtc_range cfg)) (zlen obj) ps ∧
    mjoin (map (λ p, cb_data (part_bytes p)) ps) = zslice (RequestRange_start (rtc_range cfg)) (zlen obj) obj.
Proof.
  intros Hs Hg Hst Hobj Hid Hp Hwf He.
  pose proof (client_part_stream_ok get_object window_open cfg Hg Hst Hobj Hid Hp Hwf He) as Hok.
  assert (0 ≤ RequestRange_start (rtc_range cfg)) as Hnn by (destruct Hwf as (?&?&?&?); unfold RequestRange_start; u64_lia).
  destruct (items_ok_strict id obj strict _ _ _ Hs Hok) as (ps & -> & Hc).
  exists ps. split_and!; try done. by eapply parts_cover_data.
Qed.
End client_stream.

(** The client stream as an instance of the interface, for a client that may
    answer each spawned request differently. *)
Section client_instance.
Context `{crc : Crc32c, env : IntegrityEnv, !Crc32cLaws}.
Context (get_object : nat → Z → Z → GetObjectResponse) (window_open : nat → Z → bool).
Set Default Proof Using "Type*".

Definition ClientPartStream : ObjectPartStream :=
  {| ps_items := λ n cfg, client_part_stream_items (get_object n) (window_open n) cfg; ps_align := true |}.

Lemma ClientPartStream_laws strict id obj :
  zlen obj < u64_modulus →
  (∀ n, get_object_ok obj strict (get_object n)) → (∀ n, reader_stays strict (window_open n)) →
  ObjectPartStreamLaws (H1 := ClientPartStream) strict id obj.
Proof. intros Hobj Hg Hst n cfg ??????. by apply client_part_stream_ok. Qed.
End client_instance.

(** ** A concrete client: every request is answered with one body part *)

Definition one_part_client (obj : bytes) (a b : Z) : GetObjectResponse :=
  inr [inl {| gbp_offset := a; gbp_data := zslice a b obj |}].

Lemma one_part_client_ok obj strict : get_object_ok obj strict (one_part_client obj).
Proof. intros a b Hab Hb. simpl. rewrite zlen_zslice by lia. split_and!; try lia; f_equal; lia. Qed.

Definition test_object : bytes := [x01; x02; x03; x04; x05; x06; x07; x08; x09].
Definition test_task_config : RequestTaskConfig :=
  {| rtc_bucket := "bucket"; rtc_object_id := test_id; rtc_handle_id := 1; rtc_range := RequestRange_new 9 1 9;
     rtc_read_part_size := 4; rtc_preferred_part_size := 2; rtc_initial_request_size := 4;
     rtc_max_read_window_size := 16; rtc_read_window_size_multiplier := 2 |}.

Lemma client_stream_covers_range_witness :
  ∃ ps, client_part_stream_items (env := validating) (one_part_client test_object) (λ _, true) test_task_config = map inl ps ∧
    mjoin (map (λ p, cb_data (part_bytes p)) ps) = [x02; x03; x04; x05; x06; x07; x08; x09].
Proof.
  destruct (client_stream_covers_range (env := validating) test_id test_object True
    (one_part_client test_object) (λ _, true) test_task_config) as (ps & Hps & _ & Hd);
    [done|apply one_part_client_ok|done|done|done|by vm_compute|apply rr_new_wf; by vm_compute|done|].
  exists ps. split; [exact Hps|exact Hd].
Defined.
