(* ===== verification/Prefetch.v ===== *)
(** * The prefetcher

    Model of [PrefetchGetObject] of [mountpoint-s3-fs/src/prefetch.rs]: the
    per-handle reader that serves arbitrary reads from one running request, the
    backward seek window and, when neither helps, a new request.

    Between any two of the reader's accesses to the task other threads run: the
    part stream sends items and other handles reserve or release memory.  What
    they do is a parameter, the [pg_schedule]; the theorems hold for all of them. *)

From S2P Require Import Prelude Checksums Part SeekWindow RequestRange MemLimiter Backpressure PartQueue PartStream.
Local Open Scope Z_scope.

Record PrefetcherConfig := {
  max_read_window_size : Z;
  sequential_prefetch_multiplier : Z;
  max_forward_seek_wait_distance : Z;
  max_backward_seek_distance : Z;
  initial_request_size : Z;
}.

Definition INITIAL_REQUEST_SIZE : Z := 1024 * 1024 + 128 * 1024.

(** [PrefetcherConfig::default]; the window size can be overridden by the environment. *)
Definition PrefetcherConfig_default (env_override : option Z) : PrefetcherConfig :=
  {| max_read_window_size := match env_override with Some n => n | None => 2 * 1024 * 1024 * 1024 end;
     sequential_prefetch_multiplier := 2;
     max_forward_seek_wait_distance := 16 * 1024 * 1024;
     max_backward_seek_distance := 1 * 1024 * 1024;
     initial_request_size := INITIAL_REQUEST_SIZE |}.

(** The settings of the client that the prefetcher reads. *)
Class ClientSettings := {
  client_read_part_size : Z;
  client_initial_read_window_size : option Z;
}.

(** One turn of the other threads: items the stream sends, change of the memory
    reserved by others. *)
Record turn := { turn_deliver : nat; turn_others : Z }.

Record PrefetchGetObject := {
  pg_config : PrefetcherConfig;
  pg_backpressure_task : option RequestTask;
  pg_backward_seek_window : SeekWindow;
  pg_bucket : string;
  pg_object_id : ObjectId;
  pg_preferred_part_size : Z;
  pg_sequential_read_start_offset : Z;
  pg_next_sequential_read_offset : Z;
  pg_next_request_offset : Z;
  pg_size : Z;
  pg_mem_limiter : MemoryLimiter;
  pg_handle_id : Z;
  pg_spawned : nat;          (** requests spawned so far *)
  pg_schedule : list turn;   (** turns of the other threads still to come *)
}.

Section prefetch.
Context `{crc : Crc32c, env : IntegrityEnv, stream : ObjectPartStream, client : ClientSettings}.
Implicit Types s : PrefetchGetObject.

Definition pg_set_task s (task : option RequestTask) (ml : MemoryLimiter) : PrefetchGetObject :=
  {| pg_config := pg_config s; pg_backpressure_task := task; pg_backward_seek_window := pg_backward_seek_window s;
     pg_bucket := pg_bucket s; pg_object_id := pg_object_id s; pg_preferred_part_size := pg_preferred_part_size s;
     pg_sequential_read_start_offset := pg_sequential_read_start_offset s;
     pg_next_sequential_read_offset := pg_next_sequential_read_offset s;
     pg_next_request_offset := pg_next_request_offset s; pg_size := pg_size s; pg_mem_limiter := ml;
     pg_handle_id := pg_handle_id s; pg_spawned := pg_spawned s; pg_schedule := pg_schedule s |}.

Definition pg_set_window s (window : SeekWindow) : PrefetchGetObject :=
  {| pg_config := pg_config s; pg_backpressure_task := pg_backpressure_task s; pg_backward_seek_window := window;
     pg_bucket := pg_bucket s; pg_object_id := pg_object_id s; pg_preferred_part_size := pg_preferred_part_size s;
     pg_sequential_read_start_offset := pg_sequential_read_start_offset s;
     pg_next_sequential_read_offset := pg_next_sequential_read_offset s;
     pg_next_request_offset := pg_next_request_offset s; pg_size := pg_size s; pg_mem_limiter := pg_mem_limiter s;
     pg_handle_id := pg_handle_id s; pg_spawned := pg_spawned s; pg_schedule := pg_schedule s |}.

Definition pg_set_offsets s (start next next_request : Z) : PrefetchGetObject :=
  {| pg_config := pg_config s; pg_backpressure_task := pg_backpressure_task s;
     pg_backward_seek_window := pg_backward_seek_window s;
     pg_bucket := pg_bucket s; pg_object_id := pg_object_id s; pg_preferred_part_size := pg_preferred_part_size s;
     pg_sequential_read_start_offset := start; pg_next_sequential_read_offset := next;
     pg_next_request_offset := next_request; pg_size := pg_size s; pg_mem_limiter := pg_mem_limiter s;
     pg_handle_id := pg_handle_id s; pg_spawned := pg_spawned s; pg_schedule := pg_schedule s |}.

Definition pg_set_next s (next : Z) : PrefetchGetObject :=
  pg_set_offsets s (pg_sequential_read_start_offset s) next (pg_next_request_offset s).

Definition pg_set_preferred s (n : Z) : PrefetchGetObject :=
  {| pg_config := pg_config s; pg_backpressure_task := pg_backpressure_task s;
     pg_backward_seek_window := pg_backward_seek_window s;
     pg_bucket := pg_bucket s; pg_object_id := pg_object_id s; pg_preferred_part_size := n;
     pg_sequential_read_start_offset := pg_sequential_read_start_offset s;
     pg_next_sequential_read_offset := pg_next_sequential_read_offset s;
     pg_next_request_offset := pg_next_request_offset s; pg_size := pg_size s; pg_mem_limiter := pg_mem_limiter s;
     pg_handle_id := pg_handle_id s; pg_spawned := pg_spawned s; pg_schedule := pg_schedule s |}.

(** The other threads take their next turn. *)
Definition pg_turn s : PrefetchGetObject :=
  match pg_schedule s with
  | [] => s
  | t :: schedule =>
      {| pg_config := pg_config s; pg_backpressure_task := rt_deliver (turn_deliver t) <$> pg_backpressure_task s;
         pg_backward_seek_window := pg_backward_seek_window s;
         pg_bucket := pg_bucket s; pg_object_id := pg_object_id s; pg_preferred_part_size := pg_preferred_part_size s;
         pg_sequential_read_start_offset := pg_sequential_read_start_offset s;
         pg_next_sequential_read_offset := pg_next_sequential_read_offset s;
         pg_next_request_offset := pg_next_request_offset s; pg_size := pg_size s;
         pg_mem_limiter := ml_set_reserved (pg_mem_limiter s) (wrap64 (ml_mem_reserved (pg_mem_limiter s) + turn_others t));
         pg_handle_id := pg_handle_id s; pg_spawned := pg_spawned s; pg_schedule := schedule |}
  end.

(** A division by zero panics. *)
Definition seek_window_reservation {E} (part_size seek_window_size : Z) : outcome E Z :=
  assert! negb (part_size =? 0) in Ok (wmul (div_ceil seek_window_size part_size) part_size).

Definition PrefetchGetObject_new {E} (config : PrefetcherConfig) (bucket : string) (id : ObjectId) (handle_id size : Z)
    (ml : MemoryLimiter) (schedule : list turn) : outcome E PrefetchGetObject :=
  let! reservation := seek_window_reservation client_read_part_size (max_backward_seek_distance config) in
  let ml := MemoryLimiter_reserve ml reservation in
  let! window := SeekWindow_new (max_backward_seek_distance config) in
  Ok {| pg_config := config; pg_backpressure_task := None; pg_backward_seek_window := window; pg_bucket := bucket;
        pg_object_id := id; pg_preferred_part_size := 128 * 1024; pg_sequential_read_start_offset := 0;
        pg_next_sequential_read_offset := 0; pg_next_request_offset := 0; pg_size := size; pg_mem_limiter := ml;
        pg_handle_id := handle_id; pg_spawned := 0; pg_schedule := schedule |}.

(** Assigning [None] drops the running task. *)
Definition reset_prefetch_to_offset s (offset : Z) : PrefetchGetObject :=
  let ml := match pg_backpressure_task s with
            | Some task => RequestTask_drop task (pg_mem_limiter s)
            | None => pg_mem_limiter s
            end in
  let s := pg_set_task s None ml in
  let s := pg_set_window s (SeekWindow_clear (pg_backward_seek_window s)) in
  pg_set_offsets s offset offset offset.

Definition spawn_read_backpressure_request s : PrefetchGetObject * outcome PrefetchReadError RequestTask :=
  let start := pg_next_sequential_read_offset s in
  let range := RequestRange_new (pg_size s) start (pg_size s) in
  match client_initial_read_window_size with
  | None => (s, Err BackpressurePreconditionFailed)
  | Some value =>
      if value =? 0 then (s, Err BackpressurePreconditionFailed) else
      let config :=
        {| rtc_bucket := pg_bucket s; rtc_object_id := pg_object_id s; rtc_handle_id := pg_handle_id s;
           rtc_range := range; rtc_read_part_size := client_read_part_size;
           rtc_preferred_part_size := pg_preferred_part_size s;
           rtc_initial_request_size := initial_request_size (pg_config s);
           rtc_max_read_window_size := max_read_window_size (pg_config s);
           rtc_read_window_size_multiplier := sequential_prefetch_multiplier (pg_config s) |} in
      match spawn_get_object_request (pg_spawned s) config (pg_mem_limiter s) with
      | Ok (task, ml) =>
          ({| pg_config := pg_config s; pg_backpressure_task := pg_backpressure_task s;
              pg_backward_seek_window := pg_backward_seek_window s; pg_bucket := pg_bucket s;
              pg_object_id := pg_object_id s; pg_preferred_part_size := pg_preferred_part_size s;
              pg_sequential_read_start_offset := pg_sequential_read_start_offset s;
              pg_next_sequential_read_offset := pg_next_sequential_read_offset s;
              pg_next_request_offset := pg_next_request_offset s; pg_size := pg_size s; pg_mem_limiter := ml;
              pg_handle_id := pg_handle_id s; pg_spawned := S (pg_spawned s); pg_schedule := pg_schedule s |}, Ok task)
      | Err e => (s, Err e)
      | Panic => (s, Panic)
      end
  end.

(** [task.read(length).await?] on the current task, after a turn of the other threads. *)
Definition pg_read_task s (length : Z) : PrefetchGetObject * outcome PrefetchReadError (option Part) :=
  let s := pg_turn s in
  match pg_backpressure_task s with
  | None => (s, Ok None)
  | Some task =>
      let '(task, ml, r) := RequestTask_read task (pg_mem_limiter s) length in
      let s := pg_set_task s (Some task) ml in
      match r with
      | Ok part => (s, Ok (Some part))
      | Err e => (s, Err e)
      | Panic => (s, Panic)
      end
  end.

(** The loop of [try_seek_forward]; every part read is not empty. *)
Fixpoint try_seek_forward_loop (fuel : nat) s (seek_distance : Z) : PrefetchGetObject * outcome PrefetchReadError bool :=
  if 0 <? seek_distance then
    match fuel with
    | O => (s, Panic)
    | S fuel =>
        let? s, part := pg_read_task s seek_distance in
        match part with
        | None => (s, Panic)
        | Some part =>
            let s := pg_set_next s (wadd (pg_next_sequential_read_offset s) (Part_len part)) in
            let? s, window := (s, SeekWindow_push (pg_backward_seek_window s) part) in
            try_seek_forward_loop fuel (pg_set_window s window) (wsub seek_distance (Part_len part))
        end
    end
  else (s, Ok true).

Definition try_seek_forward s (offset : Z) : PrefetchGetObject * outcome PrefetchReadError bool :=
  if negb (pg_next_sequential_read_offset s <? offset) then (s, Panic) else
  match pg_backpressure_task s with
  | None => (s, Ok false)
  | Some task =>
      if bc_read_window_end_offset (rt_controller task) <=? offset then (s, Ok false) else
      let available_offset := RequestTask_available_offset task in
      let available_soon_offset := sat_add available_offset (max_forward_seek_wait_distance (pg_config s)) in
      if available_soon_offset <=? offset then (s, Ok false) else
      let seek_distance := offset - pg_next_sequential_read_offset s in
      try_seek_forward_loop (Z.to_nat seek_distance) s seek_distance
  end.

Definition try_seek_backward s (offset : Z) : PrefetchGetObject * outcome PrefetchReadError bool :=
  if negb (offset <? pg_next_sequential_read_offset s) then (s, Panic) else
  match pg_backpressure_task s with
  | None => (s, Ok false)
  | Some task =>
      let backwards_length_needed := pg_next_sequential_read_offset s - offset in
      match SeekWindow_read_back (E:=PrefetchReadError) (pg_backward_seek_window s) backwards_length_needed with
      | Err e => (s, Err e)
      | Panic => (s, Panic)
      | Ok (window, None) => (pg_set_window s window, Ok false)
      | Ok (window, Some parts) =>
          let s := pg_set_window s window in
          match RequestTask_push_front task (pg_mem_limiter s) parts with
          | Err e => (s, Err e)
          | Panic => (s, Panic)
          | Ok (task, ml) => (pg_set_next (pg_set_task s (Some task) ml) offset, Ok true)
          end
      end
  end.

Definition try_seek s (offset : Z) : PrefetchGetObject * outcome PrefetchReadError bool :=
  if offset =? pg_next_sequential_read_offset s then (s, Panic)
  else if pg_next_sequential_read_offset s <? offset then try_seek_forward s offset
  else try_seek_backward s offset.

(** The [while to_read > 0] loop of [try_read]; every part read is not empty. *)
Fixpoint try_read_loop (fuel : nat) s (to_read : Z) (all_parts_from_cache : bool) (response : ChecksummedBytes)
  : PrefetchGetObject * outcome PrefetchReadError (ChecksummedBytes * bool) :=
  if 0 <? to_read then
    match fuel with
    | O => (s, Panic)
    | S fuel =>
        let? s, part := pg_read_task s to_read in
        match part with
        | None => (s, Ok (response, all_parts_from_cache))
        | Some part =>
            let all_parts_from_cache := all_parts_from_cache && Part_is_from_cache part in
            let? s, window := (s, SeekWindow_push (pg_backward_seek_window s) part) in
            let s := pg_set_window s window in
            let? s, part_bytes :=
              (s, outcome_map_err PartReadFailed
                    (Part_into_bytes part (pg_object_id s) (pg_next_sequential_read_offset s))) in
            let part_len := ChecksummedBytes_len part_bytes in
            let s := pg_set_next s (wadd (pg_next_sequential_read_offset s) part_len) in
            if ChecksummedBytes_is_empty response && (part_len =? to_read) then
              (s, Ok (part_bytes, all_parts_from_cache))
            else
              let? s, response := (s, outcome_map_err PrefetchIntegrity (ChecksummedBytes_extend response part_bytes)) in
              try_read_loop fuel s (wsub to_read part_len) all_parts_from_cache response
        end
    end
  else (s, Ok (response, all_parts_from_cache)).

(** First step of [try_read]: seek when the read is not sequential, reset when seeking declines. *)
Definition seek_or_reset s (offset : Z) : PrefetchGetObject * outcome PrefetchReadError () :=
  if negb (pg_next_sequential_read_offset s =? offset) then
    let? s, ok := try_seek s offset in
    ((if ok then s else reset_prefetch_to_offset s offset), Ok tt)
  else (s, Ok tt).

(** Second step: a request runs. *)
Definition ensure_task s : PrefetchGetObject * outcome PrefetchReadError () :=
  match pg_backpressure_task s with
  | None =>
      let? s, task := spawn_read_backpressure_request s in
      (pg_set_task s (Some task) (pg_mem_limiter s), Ok tt)
  | Some _ => (s, Ok tt)
  end.

Definition max_preferred_part_size : Z := 1024 * 1024.

Definition try_read s (offset length : Z) : PrefetchGetObject * outcome PrefetchReadError (ChecksummedBytes * bool) :=
  let s := pg_set_preferred s (Z.min (Z.max (pg_preferred_part_size s) length) max_preferred_part_size) in
  let remaining := sat_sub (pg_size s) offset in
  if remaining =? 0 then (s, Ok (ChecksummedBytes_default, false)) else
  let to_read := Z.min length remaining in
  let? s, _seeked := seek_or_reset (pg_turn s) offset in
  if negb (pg_next_sequential_read_offset s =? offset) then (s, Panic) else
  let? s, _spawned := ensure_task s in
  try_read_loop (Z.to_nat to_read) s to_read true ChecksummedBytes_default.

(** A failed read resets the prefetcher to the offset that was asked for. *)
Definition PrefetchGetObject_read s (offset length : Z)
  : PrefetchGetObject * outcome PrefetchReadError ChecksummedBytes :=
  match try_read s offset length with
  | (s, Ok (data, _cache_hit)) => (s, Ok data)
  | (s, Err err) => (reset_prefetch_to_offset s offset, Err err)
  | (s, Panic) => (s, Panic)
  end.

(** [Drop]: the window's reservation is released, then the fields are dropped. *)
Definition PrefetchGetObject_drop {E} s : outcome E MemoryLimiter :=
  let! reservation := seek_window_reservation client_read_part_size (sw_max_size (pg_backward_seek_window s)) in
  let ml := MemoryLimiter_release (pg_mem_limiter s) reservation in
  Ok (match pg_backpressure_task s with Some task => RequestTask_drop task ml | None => ml end).

(** The reads of an open file handle, in the order in which they get its lock. *)
Fixpoint PrefetchGetObject_reads s (requests : list (Z * Z))
  : PrefetchGetObject * list (outcome PrefetchReadError ChecksummedBytes) :=
  match requests with
  | [] => (s, [])
  | (offset, length) :: requests =>
      let '(s, r) := PrefetchGetObject_read s offset length in
      let '(s, rs) := PrefetchGetObject_reads s requests in
      (s, r :: rs)
  end.

(** ** Correctness

    [obj] is the content of the object version the handle reads; [strict] says
    that streams deliver all of their range; [W] bounds the read windows;
    [total] is the memory held by other handles once the schedule has run, and
    [acct] says that memory is accounted for (every read asks for some bytes). *)
Section correctness.
Context (id : ObjectId) (obj : bytes) (strict : Prop) (W total : Z) (acct : Prop).
Context `{!Crc32cLaws, !ObjectPartStreamLaws strict id obj}.
Set Default Proof Using "Type*".

Definition settings_ok (config : PrefetcherConfig) : Prop :=
  2 ≤ client_read_part_size ∧ 2 ≤ max_read_window_size config ≤ W ∧ 0 ≤ initial_request_size config ∧
  2 ≤ RequestTaskConfig_initial_read_window_size (initial_request_size config) client_read_part_size ≤ W ∧
  zlen obj + W + client_read_part_size ≤ u64_max ∧ 0 < max_backward_seek_distance config < u64_modulus ∧
  (strict → ∃ v, client_initial_read_window_size = Some v ∧ v ≠ 0).

Definition pg_static s : Prop :=
  pg_object_id s = id ∧ pg_size s = zlen obj ∧ ml_wf (pg_mem_limiter s) ∧ settings_ok (pg_config s) ∧
  0 < pg_preferred_part_size s < u64_modulus ∧
  sw_max_size (pg_backward_seek_window s) = max_backward_seek_distance (pg_config s).

(** The comment on [backward_seek_window]: it ends at the next sequential read. *)
Definition pg_inv s : Prop :=
  pg_static s ∧ 0 ≤ pg_next_sequential_read_offset s ≤ zlen obj ∧
  sw_inv id obj (pg_next_sequential_read_offset s) (pg_backward_seek_window s) ∧
  match pg_backpressure_task s with
  | None => True
  | Some task => task_inv id obj strict W (pg_next_sequential_read_offset s) task
  end.

(** Reserved by others at this point, and for the seek window. *)
Definition pg_base s : Z :=
  total - zsum turn_others (pg_schedule s)
  + wmul (div_ceil (max_backward_seek_distance (pg_config s)) client_read_part_size) client_read_part_size.

Definition pg_mem s : Prop :=
  acct →
  match pg_backpressure_task s with
  | None => ml_mem_reserved (pg_mem_limiter s) = wrap64 (pg_base s)
  | Some task =>
      task_mem (pg_base s) (pg_next_sequential_read_offset s) task (pg_mem_limiter s) ∧
      (pq_front_queue (rt_part_queue task) = [] →
       bc_next_read_offset (rt_controller task) = pg_next_sequential_read_offset s)
  end.

(** The controller of the task knows where the queue starts. *)
Definition pg_synced s : Prop :=
  acct →
  match pg_backpressure_task s with
  | None => True
  | Some task => bc_next_read_offset (rt_controller task) = pg_next_sequential_read_offset s
  end.

(** Dropping the task returns what it holds. *)
Definition pg_droppable s : Prop :=
  acct →
  ml_mem_reserved (match pg_backpressure_task s with
                   | Some task => RequestTask_drop task (pg_mem_limiter s)
                   | None => pg_mem_limiter s
                   end) = wrap64 (pg_base s).

Lemma pg_synced_droppable s : pg_inv s → pg_mem s → pg_synced s → pg_droppable s.
Proof.
  intros (Hst & Hr & Hsw & Ht) Hm Hs Ha. specialize (Hm Ha). specialize (Hs Ha).
  destruct (pg_backpressure_task s) as [task|]; [|done]. destruct Hm as [Hm _].
  by eapply task_drop_mem.
Qed.

Lemma pg_static_upd s s' :
  pg_static s → pg_object_id s' = pg_object_id s → pg_size s' = pg_size s → pg_config s' = pg_config s →
  pg_preferred_part_size s' = pg_preferred_part_size s →
  sw_max_size (pg_backward_seek_window s') = sw_max_size (pg_backward_seek_window s) →
  ml_wf (pg_mem_limiter s') → pg_static s'.
Proof. intros (?&?&?&?&?&?) Hid Hsz Hc Hp Hw Hm. unfold pg_static. rewrite Hid, Hsz, Hc, Hp, Hw. done. Qed.

Lemma pg_reset_ok s offset :
  pg_static s → pg_droppable s → 0 ≤ offset ≤ zlen obj →
  let s' := reset_prefetch_to_offset s offset in
  pg_inv s' ∧ pg_mem s' ∧ pg_synced s' ∧ pg_next_sequential_read_offset s' = offset.
Proof.
  intros Hst Hd Ho s'. pose proof Hst as (_ & _ & Hml & (_&_&_&_&_&?&_) & _ & Hmax).
  split; [|done]. split; [|split; [done|split; [|done]]].
  - apply (pg_static_upd s); try done. simpl. destruct (pg_backpressure_task s); [by apply ml_wf_release|done].
  - apply sw_clear_inv; simpl; lia.
Qed.

Lemma deliver_front n pq : pq_front_queue (PartQueue_deliver n pq) = pq_front_queue pq.
Proof. revert pq. induction n as [|n IH]; intros pq; simpl; [done|]. destruct (pq_incoming pq); [done|]. by rewrite IH. Qed.

Lemma pg_turn_ok s :
  pg_inv s →
  let s' := pg_turn s in
  pg_inv s' ∧ (pg_mem s → pg_mem s') ∧ (pg_synced s → pg_synced s') ∧
  pg_next_sequential_read_offset s' = pg_next_sequential_read_offset s ∧
  pg_backward_seek_window s' = pg_backward_seek_window s ∧
  (is_Some (pg_backpressure_task s) ↔ is_Some (pg_backpressure_task s')).
Proof.
  intros Hinv s'. unfold s', pg_turn. clear s'. destruct (pg_schedule s) as [|t rest] eqn:Hsch; [done|].
  destruct Hinv as (Hst & Hr & Hsw & Ht). split; [|split; [|split; [|split; [done|split; [done|]]]]].
  - split; [|split; [done|split; [done|]]].
    + apply (pg_static_upd s); try done. destruct Hst as (_&_&(?&?&?)&_). split_and!; try done; apply wrap64_is_u64.
    + simpl. destruct (pg_backpressure_task s); simpl; [by apply rt_deliver_inv|done].
  - intros Hm Ha. specialize (Hm Ha). unfold pg_base in *. simpl in *. rewrite Hsch in Hm. simpl in Hm.
    destruct (pg_backpressure_task s) as [task|]; simpl.
    + destruct Hm as [[Hah Hm] Hf]. split; [split; [done|]|simpl; by rewrite deliver_front].
      simpl. rewrite Hm. autorewrite with wrap64. f_equal. lia.
    + rewrite Hm. autorewrite with wrap64. f_equal. lia.
  - intros Hs Ha. specialize (Hs Ha). simpl in *. by destruct (pg_backpressure_task s).
  - simpl. by rewrite fmap_is_Some.
Qed.

(** A read from the task: a part of the object at the read position, or an
    error after which the task can still be dropped. *)
Lemma pg_read_task_ok s length :
  pg_inv s → pg_mem s → 0 < length → pg_next_sequential_read_offset s < zlen obj →
  ∃ s' r, pg_read_task s length = (s', r) ∧ pg_static s' ∧
    pg_next_sequential_read_offset s' = pg_next_sequential_read_offset s ∧
    pg_backward_seek_window s' = pg_backward_seek_window s ∧
    match r with
    | Ok (Some part) =>
        part_of id obj part ∧ part_offset part = pg_next_sequential_read_offset s ∧ Part_len part ≤ length ∧
        ∃ task, pg_backpressure_task s' = Some task ∧
          task_inv id obj strict W (pg_next_sequential_read_offset s + Part_len part) task ∧
          (acct → task_mem (pg_base s') (pg_next_sequential_read_offset s + Part_len part) task (pg_mem_limiter s') ∧
             bc_next_read_offset (rt_controller task) = pg_next_sequential_read_offset s + Part_len part)
    | Ok None => pg_backpressure_task s = None
    | Err _ => ¬ strict ∧ pg_droppable s'
    | Panic => False
    end.
Proof.
  intros Hinv Hm Hlen Hlt. destruct (pg_turn_ok s Hinv) as (Hinv' & Hm' & _ & Hn & Hw & His). specialize (Hm' Hm).
  unfold pg_read_task. set (s2 := pg_turn s) in *. rewrite <- Hn in *. rewrite <- Hw. destruct Hinv' as (Hst & Hr & Hsw & Ht).
  destruct (pg_backpressure_task s2) as [task|] eqn:Htask.
  2: { do 2 eexists. split; [done|]. ands; try done. destruct (pg_backpressure_task s); [|done].
       destruct His as [His _]. destruct His; done. }
  destruct (RequestTask_read_spec id obj strict W _ task (pg_mem_limiter s2) length Ht) as (task' & ml' & r & -> & Hml' & Hr');
    [apply Hst|done..|].
  unfold pg_mem in Hm'. rewrite Htask in Hm'.
  destruct r as [part|e|]; [| |done]; (do 2 eexists; split; [done|]; split; [by apply (pg_static_upd s2)|]; split; [done|]; split; [done|]).
  - destruct Hr' as (Hp & Hoff & Hle & Hti & Hnx & Hmem). ands; try done.
    exists task'. ands; try done. intros Ha. destruct (Hm' Ha) as [Hm1 _]. split; [by apply Hmem|done].
  - destruct Hr' as (Hns & Hfr & Hc & ->). split; [done|]. intros Ha. destruct (Hm' Ha) as [Hm1 Hs]. simpl.
    unfold RequestTask_drop. rewrite Hc. by eapply (task_drop_mem id obj strict W _ (pg_next_sequential_read_offset s2) task); auto.
Qed.

(** The position moves past the part and the part enters the seek window. *)
Lemma pg_advance_ok {E} s part task n :
  pg_static s → pg_next_sequential_read_offset s = n → sw_inv id obj n (pg_backward_seek_window s) →
  part_of id obj part → part_offset part = n → pg_backpressure_task s = Some task →
  task_inv id obj strict W (n + Part_len part) task →
  (acct → task_mem (pg_base s) (n + Part_len part) task (pg_mem_limiter s) ∧
     bc_next_read_offset (rt_controller task) = n + Part_len part) →
  ∃ window, SeekWindow_push (E:=E) (pg_backward_seek_window s) part = Ok window ∧
    let s' := pg_set_next (pg_set_window s window) (n + Part_len part) in
    pg_inv s' ∧ pg_mem s' ∧ pg_synced s'.
Proof.
  intros Hst Hn Hsw Hp Hoff Htask Hti Hmem.
  destruct (sw_push_spec (E:=E) id obj n (pg_backward_seek_window s) part) as (w & -> & Hsw' & Hmax & _); [done..|].
  eexists. split; [done|]. intros s'. split; [|split].
  - split; [by apply (pg_static_upd s); try apply Hst|]. pose proof Hti as (?&_).
    split; [done|]. split; [done|]. simpl. by rewrite Htask.
  - intros Ha. simpl. rewrite Htask. destruct (Hmem Ha) as [? ?]. by split.
  - intros Ha. simpl. rewrite Htask. by destruct (Hmem Ha).
Qed.

(** What a seek leaves: it moved, it declined without touching the position, or it failed. *)
Definition seek_result s (offset : Z) (s' : PrefetchGetObject) (r : outcome PrefetchReadError bool) : Prop :=
  match r with
  | Ok true => pg_inv s' ∧ pg_mem s' ∧ pg_next_sequential_read_offset s' = offset ∧ is_Some (pg_backpressure_task s')
  | Ok false => pg_static s' ∧ pg_droppable s'
  | Err _ => ¬ strict ∧ pg_static s' ∧ pg_droppable s'
  | Panic => False
  end.

Lemma seek_forward_loop_ok fuel s distance :
  pg_inv s → pg_mem s → is_Some (pg_backpressure_task s) → 0 ≤ distance →
  pg_next_sequential_read_offset s + distance ≤ zlen obj → (Z.to_nat distance ≤ fuel)%nat →
  ∃ s' r, try_seek_forward_loop fuel s distance = (s', r) ∧
    seek_result s (pg_next_sequential_read_offset s + distance) s' r.
Proof.
  revert s distance. induction fuel as [|fuel IH]; intros s distance Hinv Hm Hsome Hd Hle Hf; simpl.
  { rewrite (proj2 (Z.ltb_ge _ _)) by lia. do 2 eexists. split; [done|]. simpl. ands; try done. lia. }
  destruct (Z.ltb_spec 0 distance).
  2: { do 2 eexists. split; [done|]. simpl. ands; try done. lia. }
  pose proof Hinv as (_ & Hr & Hsw & Ht).
  destruct (pg_read_task_ok s distance Hinv Hm) as (s1 & r & -> & Hst & Hn & Hw & Hres); [lia..|].
  destruct r as [[part|]|e|]; [| | |done].
  - destruct Hres as (Hp & Hoff & Hlen & task & Htask & Hti & Hmem). pose proof (part_of_len _ _ _ Hp). simpl.
    rewrite <- Hw in Hsw.
    assert (zlen obj < u64_modulus) as Hobj by (by destruct Hti as (_&?&_)).
    rewrite Hn, wadd_small by (u64_lia).
    destruct (pg_advance_ok (E:=PrefetchReadError) s1 part task (pg_next_sequential_read_offset s)) as (w & Hpush & Hinv2 & Hm2 & _);
      [done..|]. rewrite Hpush. simpl. rewrite wsub_small by u64_lia.
    destruct (IH (pg_set_next (pg_set_window s1 w) (pg_next_sequential_read_offset s + Part_len part)) (distance - Part_len part))
      as (s' & r & Heq & Hsr); try done; try (simpl; lia).
    exists s', r. split; [exact Heq|]. simpl in Hsr.
    by replace (pg_next_sequential_read_offset s + distance)
      with (pg_next_sequential_read_offset s + Part_len part + (distance - Part_len part)) by lia.
  - destruct Hsome as [? Hx]. congruence.
  - do 2 eexists. split; [done|]. simpl. tauto.
Qed.

Lemma try_seek_ok s offset :
  pg_inv s → pg_mem s → pg_synced s → 0 ≤ offset ≤ zlen obj → offset ≠ pg_next_sequential_read_offset s →
  ∃ s' r, try_seek s offset = (s', r) ∧ seek_result s offset s' r.
Proof.
  intros Hinv Hm Hs Ho Hne. pose proof (pg_synced_droppable s Hinv Hm Hs) as Hdrop.
  pose proof Hinv as (Hst & Hr & Hsw & Ht). unfold try_seek, try_seek_forward, try_seek_backward.
  rewrite (proj2 (Z.eqb_neq _ _)) by done. destruct (Z.ltb_spec (pg_next_sequential_read_offset s) offset); simpl.
  - destruct (pg_backpressure_task s) as [task|] eqn:Htask; [|do 2 eexists; split; [done|]; done].
    do 2 (case_Z; [do 2 eexists; split; [done|]; done|]).
    destruct (seek_forward_loop_ok (Z.to_nat (offset - pg_next_sequential_read_offset s)) s
      (offset - pg_next_sequential_read_offset s)) as (s' & r & -> & Hsr); try done; try lia.
    do 2 eexists. split; [done|]. by replace offset with
      (pg_next_sequential_read_offset s + (offset - pg_next_sequential_read_offset s)) at 1 by lia.
  - rewrite (proj2 (Z.ltb_lt offset _)) by lia. simpl.
    destruct (pg_backpressure_task s) as [task|] eqn:Htask; [|do 2 eexists; split; [done|]; done].
    pose proof (sw_read_back_spec (E:=PrefetchReadError) id obj _ (pg_backward_seek_window s)
      (pg_next_sequential_read_offset s - offset) Hsw ltac:(lia)) as Hrb.
    case_bool_decide; [|rewrite Hrb; do 2 eexists; split; [done|]; by split; [apply (pg_static_upd s); try apply Hst|]].
    destruct Hrb as (w & ps & -> & Hsw' & Hmax & Hcov).
    replace (pg_next_sequential_read_offset s - (pg_next_sequential_read_offset s - offset)) with offset in * by lia.
    destruct (RequestTask_push_front_spec id obj strict (E:=PrefetchReadError) W _ task (pg_mem_limiter s) ps offset Ht)
      as (task' & ml' & Hpf & Hti & Hml' & Hfq & Hmem); [apply Hst|done|lia|]. simpl. rewrite Hpf.
    do 2 eexists. split; [done|]. simpl. ands; try done.
    + split; [by apply (pg_static_upd s)|]. done.
    + intros Ha. specialize (Hm Ha). rewrite Htask in Hm. destruct Hm as [Hm _]. split; [by apply Hmem|].
      simpl. rewrite Hfq. destruct ps; [simpl in Hcov; lia|done].
Qed.

Lemma spawn_ok s :
  pg_inv s → pg_mem s → pg_backpressure_task s = None →
  ∃ s' r, spawn_read_backpressure_request s = (s', r) ∧
    match r with
    | Ok task =>
        let s2 := pg_set_task s' (Some task) (pg_mem_limiter s') in
        pg_inv s2 ∧ pg_mem s2 ∧ pg_synced s2 ∧ pg_next_sequential_read_offset s2 = pg_next_sequential_read_offset s
    | Err _ => ¬ strict ∧ pg_static s' ∧ pg_droppable s'
    | Panic => False
    end.
Proof.
  intros Hinv Hm Htask.
  assert (pg_droppable s) as Hdrop by (intros Ha; specialize (Hm Ha); by rewrite Htask in Hm |- *).
  pose proof Hinv as (Hst & Hr & Hsw & _). pose proof Hst as (Hid & Hsz & Hml & Hset & Hpp & Hmax).
  pose proof Hset as (Hps & Hmw & Hirs & Hiw & Hobj & _ & Hcl). unfold spawn_read_backpressure_request.
  destruct client_initial_read_window_size as [v|].
  2: { do 2 eexists. split; [done|]. simpl. ands; try done. intros Hs. by destruct (Hcl Hs) as (?&?&?). }
  destruct (Z.eqb_spec v 0).
  { do 2 eexists. split; [done|]. simpl. ands; try done. intros Hs. destruct (Hcl Hs) as (?&?&?). congruence. }
  unfold spawn_get_object_request; simpl.
  rewrite (proj2 (Z.ltb_lt _ _)) by lia. replace (if ps_align then true else true) with true by by destruct ps_align.
  simpl. rewrite Hsz in *. set (range := RequestRange_new _ _ _).
  assert (rr_wf range) as Hrw by (apply rr_new_wf; u64_lia).
  assert (rr_size range = zlen obj - pg_next_sequential_read_offset s) as Hrs
    by (unfold range, RequestRange_new, sat_sub; simpl; lia).
  assert (RequestRange_end range = zlen obj) as Hre by (rewrite rr_end_wf by done; rewrite Hrs; simpl; lia).
  do 2 eexists. split; [done|]. simpl. unfold RequestRange_start. simpl.
  assert (ml_wf (MemoryLimiter_reserve (pg_mem_limiter s)
    (RequestTaskConfig_initial_read_window_size (initial_request_size (pg_config s)) client_read_part_size))) as Hml'
    by by apply ml_wf_reserve.
  ands; try done.
  - split; [by apply (pg_static_upd s)|]. split; [done|]. split; [done|].
    simpl. unfold task_inv; simpl. ands; try done; try u64_lia.
    + match goal with |- context [ps_items ?n ?c] => apply (ps_items_ok (strict:=strict) (id:=id) (obj:=obj) n c) end; done || simpl; lia.
    + unfold bc_wf, alignment_wf, MIN_WINDOW_SIZE_MULTIPLIER; simpl. rewrite Hre. ands; try u64_lia.
      * by apply wrap64_is_u64.
      * destruct ps_align; [|u64_lia]. split; [apply wrap64_is_u64|]. u64_lia.
  - intros Ha. specialize (Hm Ha). rewrite Htask in Hm. simpl. split; [split|]; simpl; [|rewrite Hm|done].
    + unfold window_ahead; simpl. rewrite wadd_small by u64_lia. left. lia.
    + unfold wadd. rewrite (wrap64_small (pg_next_sequential_read_offset s + _)) by u64_lia. autorewrite with wrap64. f_equal. unfold pg_base; simpl. lia.
Qed.

Lemma seek_or_reset_ok s offset :
  pg_inv s → pg_mem s → pg_synced s → 0 ≤ offset ≤ zlen obj →
  ∃ s' r, seek_or_reset s offset = (s', r) ∧
    match r with
    | Ok _ => pg_inv s' ∧ pg_mem s' ∧ pg_next_sequential_read_offset s' = offset
    | Err _ => ¬ strict ∧ pg_static s' ∧ pg_droppable s'
    | Panic => False
    end.
Proof.
  intros Hinv Hm Hs Ho. unfold seek_or_reset.
  destruct (Z.eqb_spec (pg_next_sequential_read_offset s) offset); simpl; [do 2 eexists; by split|].
  destruct (try_seek_ok s offset) as (s' & r & -> & Hsr); try done.
  destruct r as [[]|e|]; simpl in *; do 2 eexists; (split; [done|]); try done.
  - tauto.
  - destruct Hsr. destruct (pg_reset_ok s' offset) as (?&?&?&?); done.
Qed.

Lemma ensure_task_ok s :
  pg_inv s → pg_mem s →
  ∃ s' r, ensure_task s = (s', r) ∧
    match r with
    | Ok _ => pg_inv s' ∧ pg_mem s' ∧ pg_next_sequential_read_offset s' = pg_next_sequential_read_offset s ∧
        is_Some (pg_backpressure_task s')
    | Err _ => ¬ strict ∧ pg_static s' ∧ pg_droppable s'
    | Panic => False
    end.
Proof.
  intros Hinv Hm. unfold ensure_task. destruct (pg_backpressure_task s) as [task|] eqn:Htask.
  - do 2 eexists. split; [done|]. done.
  - destruct (spawn_ok s Hinv Hm Htask) as (s' & r & -> & Hr).
    destruct r as [task|e|]; [|do 2 eexists; by split|done].
    do 2 eexists. split; [done|]. destruct Hr as (?&?&?&?). ands; try done.
Qed.

Lemma part_into_bytes_ok p :
  part_of id obj p → Part_into_bytes p id (part_offset p) = Ok (part_bytes p).
Proof.
  intros (Hid & _). unfold Part_into_bytes, Part_check. by rewrite Hid, bool_decide_eq_false_2, Z.eqb_refl by auto.
Qed.

(** Data that a read returns: intact, and the bytes of the object in the range. *)
Definition read_data (from to : Z) (cb : ChecksummedBytes) : Prop :=
  cb_wf cb ∧ cb_intact cb ∧ cb_data cb = zslice from to obj.

Lemma try_read_loop_ok fuel s from to_read hit response :
  pg_inv s → pg_mem s → is_Some (pg_backpressure_task s) → (acct → to_read = 0 → pg_synced s) →
  0 ≤ from ≤ pg_next_sequential_read_offset s → read_data from (pg_next_sequential_read_offset s) response →
  0 ≤ to_read → pg_next_sequential_read_offset s + to_read ≤ zlen obj → (Z.to_nat to_read ≤ fuel)%nat →
  ∃ s' r, try_read_loop fuel s to_read hit response = (s', r) ∧
    match r with
    | Ok (data, _) => pg_inv s' ∧ pg_mem s' ∧ pg_synced s' ∧ read_data from (pg_next_sequential_read_offset s + to_read) data
    | Err _ => ¬ strict ∧ pg_static s' ∧ pg_droppable s'
    | Panic => False
    end.
Proof.
  revert s to_read hit response. induction fuel as [|fuel IH]; intros s to_read hit resp Hinv Hm Hsome Hs Hfrom Hresp H0 Hle Hf; cbn [try_read_loop].
  { rewrite (proj2 (Z.ltb_ge _ _)) by lia. do 2 eexists. split; [done|]. simpl. assert (to_read = 0) as -> by lia.
    rewrite Z.add_0_r. ands; try done. intros Ha. by apply Hs. }
  destruct (Z.ltb_spec 0 to_read).
  2: { do 2 eexists. split; [done|]. simpl. assert (to_read = 0) as -> by lia.
       rewrite Z.add_0_r. ands; try done. intros Ha. by apply Hs. }
  pose proof Hinv as (_ & Hr & Hsw & Ht).
  destruct (pg_read_task_ok s to_read Hinv Hm) as (s1 & r & -> & Hst & Hn & Hw & Hres); [lia..|].
  destruct r as [[part|]|e|]; [| | |done]; cbn [state_bind].
  2: { destruct Hsome as [? Hx]. congruence. }
  2: { do 2 eexists. split; [done|]. simpl. tauto. }
  destruct Hres as (Hp & Hoff & Hlen & task & Htask & Hti & Hmem). pose proof (part_of_len _ _ _ Hp).
  assert (zlen obj < u64_modulus) as Hobj by (by destruct Hti as (_&?&_)). rewrite <- Hw in Hsw.
  destruct (pg_advance_ok (E:=PrefetchReadError) s1 part task (pg_next_sequential_read_offset s)) as (w & Hpush & Hinv2 & Hm2 & Hs2);
    [done..|]. rewrite Hpush. cbn [state_bind].
  assert (pg_object_id (pg_set_window s1 w) = id) as Hid by apply Hst. rewrite Hid.
  change (pg_next_sequential_read_offset (pg_set_window s1 w)) with (pg_next_sequential_read_offset s1).
  rewrite Hn, <- Hoff, part_into_bytes_ok, Hoff by done. cbn [outcome_map_err state_bind]. fold (Part_len part).
  rewrite wadd_small by u64_lia.
  set (s2 := pg_set_next _ _) in *. pose proof Hp as (_ & Hwf & Hin & _ & _ & _ & _ & Hdata). rewrite Hoff in Hdata.
  destruct Hresp as (Hrwf & Hrin & Hrd).
  destruct (ChecksummedBytes_is_empty resp && (Part_len part =? to_read)) eqn:Hone.
  - rewrite cb_is_empty_len in Hone. apply andb_true_iff in Hone as [He%Z.eqb_eq Hl%Z.eqb_eq]. do 2 eexists. split; [done|]. simpl. ands; try done.
    split; [done|]. split; [done|]. rewrite Hdata.
    assert (from = pg_next_sequential_read_offset s) as ->.
    { apply (f_equal zlen) in Hrd. rewrite zlen_zslice, <- cb_len_data in Hrd by (done || lia). lia. }
    by rewrite Hl.
  - assert (ChecksummedBytes_len resp = pg_next_sequential_read_offset s - from) as Hrl
      by (rewrite cb_len_data, Hrd, zlen_zslice by (done || lia); lia).
    destruct (cb_extend_spec resp (part_bytes part)) as (resp' & -> & Hw' & Hi' & Hd'); try done.
    { fold (Part_len part). u64_lia. }
    cbn [outcome_map_err state_bind]. rewrite wsub_small by u64_lia.
    destruct (IH s2 (to_read - Part_len part) (hit && Part_is_from_cache part) resp') as (s' & r & -> & Hr'); try done; try (simpl; lia).
    { split; [done|]. split; [done|]. rewrite Hd', Hrd, Hdata. simpl. apply zslice_app; lia. }
    do 2 eexists. split; [done|]. simpl in Hr'.
    by replace (pg_next_sequential_read_offset s + to_read) with
      (pg_next_sequential_read_offset s + Part_len part + (to_read - Part_len part)) by lia.
Qed.

Lemma zslice_past a b : zlen obj ≤ a → zslice a b obj = [].
Proof. intros. unfold zslice, ztake, zdrop, zlen in *. rewrite drop_ge by lia. by rewrite take_nil. Qed.

(** One read: the bytes asked for, clipped to the object, or an error when streams can fail. *)
Definition read_result (offset length : Z) (r : outcome PrefetchReadError ChecksummedBytes) : Prop :=
  match r with
  | Ok data => read_data offset (Z.min (offset + length) (zlen obj)) data
  | Err _ => ¬ strict
  | Panic => False
  end.

Lemma read_ok s offset length :
  pg_inv s → pg_mem s → pg_synced s → 0 ≤ offset → 0 ≤ length → (acct → 0 < length) →
  ∃ s' r, PrefetchGetObject_read s offset length = (s', r) ∧ pg_inv s' ∧ pg_mem s' ∧ pg_synced s' ∧
    read_result offset length r.
Proof.
  intros Hinv Hm Hs Ho Hl Hacct. unfold PrefetchGetObject_read, try_read.
  set (s1 := pg_set_preferred s _).
  assert (pg_inv s1) as Hinv1.
  { destruct Hinv as ((Hid & Hsz & Hml & Hset & Hpp & Hmax) & Hrest). split; [|exact Hrest].
    split_and!; try done; unfold s1, max_preferred_part_size; simpl; u64_lia. }
  assert (pg_mem s1 ∧ pg_synced s1) as [Hm1 Hs1] by done.
  assert (pg_size s1 = zlen obj) as Hsz by apply Hinv1. rewrite Hsz. unfold sat_sub.
  clearbody s1. clear s Hinv Hm Hs.
  destruct (Z.eqb_spec (Z.max (zlen obj - offset) 0) 0).
  { do 2 eexists. split; [done|]. ands; try done. simpl. split; [apply cb_default_wf|]. split; [apply cb_default_intact|].
    by rewrite cb_default_data, zslice_past by lia. }
  rewrite Z.max_l by lia. destruct (pg_turn_ok s1 Hinv1) as (Hinv2 & Hm2 & Hs2 & _). specialize (Hm2 Hm1). specialize (Hs2 Hs1).
  generalize dependent (pg_turn s1). clear s1 Hinv1 Hm1 Hs1 Hsz. intros s Hinv Hm Hs.
  destruct (seek_or_reset_ok s offset) as (s2 & r2 & -> & Hseek); [done..|lia|].
  destruct r2 as [[]|e|]; [| |done]; cbn [state_bind].
  2: { destruct Hseek as (? & ? & ?). destruct (pg_reset_ok s2 offset) as (?&?&?&?); [done..|lia|]. do 2 eexists. by split. }
  destruct Hseek as (Hinv2 & Hm2 & Hn2). rewrite Hn2, Z.eqb_refl. cbn [negb].
  destruct (ensure_task_ok s2) as (s3 & r3 & -> & Hsp); [done..|].
  destruct r3 as [[]|e|]; [| |done]; cbn [state_bind].
  2: { destruct Hsp as (? & ? & ?). destruct (pg_reset_ok s3 offset) as (?&?&?&?); [done..|lia|]. do 2 eexists. by split. }
  destruct Hsp as (Hinv3 & Hm3 & Hn3 & Hsome). rewrite Hn2 in Hn3.
  destruct (try_read_loop_ok (Z.to_nat (Z.min length (zlen obj - offset))) s3 offset (Z.min length (zlen obj - offset)) true
    ChecksummedBytes_default) as (s4 & r4 & -> & Hrd); try done; try lia.
  { intros Ha. specialize (Hacct Ha). lia. }
  { rewrite Hn3. split; [apply cb_default_wf|]. split; [apply cb_default_intact|].
    by rewrite cb_default_data, zslice_empty. }
  destruct r4 as [[data hit]|e|]; [| |done].
  - do 2 eexists. split; [done|]. destruct Hrd as (?&?&?&Hd). ands; try done. simpl.
    rewrite Hn3 in Hd. by replace (Z.min (offset + length) (zlen obj)) with (offset + Z.min length (zlen obj - offset)) by lia.
  - destruct Hrd as (? & ? & ?). destruct (pg_reset_ok s4 offset) as (?&?&?&?); [done..|lia|]. do 2 eexists. by split.
Qed.

Lemma reads_ok s requests :
  pg_inv s → pg_mem s → pg_synced s →
  Forall (λ '(offset, length), 0 ≤ offset ∧ 0 ≤ length ∧ (acct → 0 < length)) requests →
  ∃ s' rs, PrefetchGetObject_reads s requests = (s', rs) ∧ pg_inv s' ∧ pg_mem s' ∧ pg_synced s' ∧
    Forall2 (λ '(offset, length) r, read_result offset length r) requests rs.
Proof.
  intros Hinv Hm Hs Hreq. revert s Hinv Hm Hs.
  induction Hreq as [|[offset length] requests (Ho & Hl & Ha) _ IH]; intros s Hinv Hm Hs; simpl.
  { do 2 eexists. split; [done|]. ands; try done. }
  destruct (read_ok s offset length) as (s1 & r & -> & Hinv1 & Hm1 & Hs1 & Hr); [done..|].
  destruct (IH s1 Hinv1 Hm1 Hs1) as (s2 & rs & -> & ? & ? & ? & ?).
  do 2 eexists. split; [done|]. ands; try done. by constructor.
Qed.

Lemma new_ok {E} config bucket handle_id ml schedule :
  settings_ok config → ml_wf ml → (acct → total = ml_mem_reserved ml + zsum turn_others schedule) →
  ∃ s, PrefetchGetObject_new (E:=E) config bucket id handle_id (zlen obj) ml schedule = Ok s ∧
    pg_inv s ∧ pg_mem s ∧ pg_synced s ∧ pg_schedule s = schedule.
Proof.
  intros Hset Hml Ht. pose proof Hset as (?&?&?&?&?&?&?). unfold PrefetchGetObject_new, seek_window_reservation, SeekWindow_new.
  rewrite (proj2 (Z.eqb_neq _ _)), (proj2 (Z.ltb_lt _ _)) by lia. simpl.
  eexists. split; [done|]. ands; try done.
  - split; [split_and!; try done; by apply ml_wf_reserve|]. pose proof (zlen_nonneg obj). split; [simpl; lia|]. split; [|done].
    unfold sw_inv; simpl. split_and!; try done; lia.
  - intros Ha. simpl. unfold pg_base; simpl. rewrite (Ht Ha). unfold wadd. f_equal. lia.
Qed.
End correctness.

(** C1. Reads through the prefetcher are correct.  Open a handle on an object,
    and let any sequence of reads, sequential or not, run against it, with the
    part stream delivering its parts and other handles using memory at any
    relative speed: no read panics or loops forever, and every read returns
    intact data that is exactly the requested bytes of the object, clipped at its
    end.  A read can only fail when a part stream does, and a failure does not
    make later reads wrong. *)
Theorem prefetch_reads_correct id obj strict W `{!Crc32cLaws, !ObjectPartStreamLaws strict id obj}
    config bucket handle_id ml schedule requests :
  settings_ok obj strict W config → ml_wf ml →
  Forall (λ '(offset, length), 0 ≤ offset ∧ 0 ≤ length) requests →
  ∃ s0 s rs, PrefetchGetObject_new (E:=False) config bucket id handle_id (zlen obj) ml schedule = Ok s0 ∧
    PrefetchGetObject_reads s0 requests = (s, rs) ∧
    Forall2 (λ '(offset, length) r,
      match r with
      | Ok data => cb_intact data ∧ cb_data data = zslice offset (Z.min (offset + length) (zlen obj)) obj
      | Err _ => ¬ strict
      | Panic => False
      end) requests rs.
Proof.
  intros Hset Hml Hreq.
  destruct (new_ok (E:=False) id obj strict W 0 False config bucket handle_id ml schedule) as (s0 & Hnew & Hinv & Hm & Hs & _); [done..|].
  destruct (reads_ok id obj strict W 0 False s0 requests) as (s & rs & Hrs & _ & _ & _ & Hall); [done..| |].
  { eapply Forall_impl; [|exact Hreq]. by intros [o l] [??]. }
  exists s0, s, rs. ands; try done. eapply Forall2_impl; [|exact Hall].
  intros [o l] r Hr. destruct r; [|done..]. by destruct Hr as (_&?&?).
Qed.

(** C8. The prefetcher returns all the memory it reserved.  After any sequence
    of non-empty reads, including failed ones, seeks in both directions and
    restarted requests, dropping the handle leaves the memory limiter with
    exactly what the other handles hold. *)
Theorem prefetch_returns_memory id obj strict W `{!Crc32cLaws, !ObjectPartStreamLaws strict id obj}
    config bucket handle_id ml schedule requests :
  settings_ok obj strict W config → ml_wf ml →
  Forall (λ '(offset, length), 0 ≤ offset ∧ 0 < length) requests →
  ∃ s0 s rs ml', PrefetchGetObject_new (E:=False) config bucket id handle_id (zlen obj) ml schedule = Ok s0 ∧
    PrefetchGetObject_reads s0 requests = (s, rs) ∧ PrefetchGetObject_drop (E:=False) s = Ok ml' ∧
    ml_mem_reserved ml' =
      wrap64 (ml_mem_reserved ml + zsum turn_others schedule - zsum turn_others (pg_schedule s)).
Proof.
  intros Hset Hml Hreq. set (total := ml_mem_reserved ml + zsum turn_others schedule).
  destruct (new_ok (E:=False) id obj strict W total True config bucket handle_id ml schedule)
    as (s0 & Hnew & Hinv & Hm & Hs & Hsch); [done..|].
  destruct (reads_ok id obj strict W total True s0 requests) as (s & rs & Hrs & Hinv' & Hm' & Hs' & _); [done..| |].
  { eapply Forall_impl; [|exact Hreq]. intros [o l] [??]. ands; done || lia. }
  pose proof (pg_synced_droppable id obj strict W total True s Hinv' Hm' Hs' I) as Hd.
  destruct Hinv' as ((_ & _ & _ & (Hp & _) & _ & Hmax) & _).
  exists s0, s, rs. unfold PrefetchGetObject_drop, seek_window_reservation. rewrite (proj2 (Z.eqb_neq _ _)) by lia.
  eexists. ands; try done. rewrite Hmax. unfold pg_base in Hd.
  set (R := wmul (div_ceil _ _) _) in *.
  replace (total - zsum turn_others (pg_schedule s)) with (total - zsum turn_others (pg_schedule s) + R - R) by lia.
  rewrite <- wrap64_wrap64_sub_l, <- Hd. destruct (pg_backpressure_task s); simpl; [|done].
  unfold wsub. autorewrite with wrap64. f_equal. lia.
Qed.
End prefetch.

(** ** Witnesses: a small object read through the client stream *)

Definition test_stream : ObjectPartStream :=
  ClientPartStream (env := validating) (λ _, one_part_client test_object) (λ _ _, true).
Definition test_settings : ClientSettings :=
  {| client_read_part_size := 4; client_initial_read_window_size := Some 4 |}.
Definition test_prefetcher_config : PrefetcherConfig :=
  {| max_read_window_size := 16; sequential_prefetch_multiplier := 2; max_forward_seek_wait_distance := 2;
     max_backward_seek_distance := 4; initial_request_size := 4 |}.
Definition test_schedule : list turn :=
  [{| turn_deliver := 1; turn_others := 5 |}; {| turn_deliver := 0; turn_others := -2 |}; {| turn_deliver := 3; turn_others := 0 |}].
(** Sequential, one byte forward, backward, far, past the end. *)
Definition test_requests : list (Z * Z) := [(0, 3); (4, 2); (3, 4); (8, 10); (20, 1)].

Lemma test_settings_ok : settings_ok (client := test_settings) test_object True 16 test_prefetcher_config.
Proof. unfold settings_ok. split_and!; try by vm_compute. intros _. by exists 4. Qed.
#[local] Instance test_stream_laws :
  ObjectPartStreamLaws (H := sum_crc) (H0 := validating) (H1 := test_stream) True test_id test_object.
Proof. apply ClientPartStream_laws; [done|intros _; apply one_part_client_ok|done]. Qed.

Lemma prefetch_reads_correct_witness :
  ∃ s0 s rs, PrefetchGetObject_new (client := test_settings) (E:=False) test_prefetcher_config "bucket" test_id 7 9
      test_limiter test_schedule = Ok s0 ∧
    PrefetchGetObject_reads (env := validating) (stream := test_stream) (client := test_settings) s0 test_requests = (s, rs) ∧
    Forall2 (λ bs r, match r with Ok data => cb_data data = bs | _ => False end)
      [[x01; x02; x03]; [x05; x06]; [x04; x05; x06; x07]; [x09]; []] rs.
Proof.
  destruct (prefetch_reads_correct (env := validating) (stream := test_stream) (client := test_settings)
    test_id test_object True 16 test_prefetcher_config "bucket" 7 test_limiter test_schedule test_requests)
    as (s0 & s & rs & Hnew & Hrs & Hall); [exact test_settings_ok|exact test_limiter_wf|by repeat constructor|].
  exists s0, s, rs. split; [exact Hnew|]. split; [exact Hrs|]. clear Hrs. unfold test_requests in Hall.
  repeat (apply Forall2_cons_inv_l in Hall as (? & ? & ? & Hall & ->)). apply Forall2_nil_inv_l in Hall as ->.
  repeat match goal with |- Forall2 _ _ _ => constructor end;
    (match goal with |- match ?r with _ => _ end => destruct r; try tauto end;
         match goal with H : _ ∧ cb_data ?d = _ |- cb_data ?d = _ => exact (proj2 H) end).
Defined.

Lemma prefetch_returns_memory_witness :
  ∃ s0 s rs ml', PrefetchGetObject_new (client := test_settings) (E:=False) test_prefetcher_config "bucket" test_id 7 9
      test_limiter test_schedule = Ok s0 ∧
    PrefetchGetObject_reads (env := validating) (stream := test_stream) (client := test_settings) s0 test_requests = (s, rs) ∧
    PrefetchGetObject_drop (client := test_settings) (E:=False) s = Ok ml' ∧
    ml_mem_reserved ml' = wrap64 (3 - zsum turn_others (pg_schedule s)).
Proof.
  exact (prefetch_returns_memory (env := validating) (stream := test_stream) (client := test_settings)
    test_id test_object True 16 test_prefetcher_config "bucket" 7 test_limiter test_schedule test_requests
    test_settings_ok test_limiter_wf ltac:(by repeat constructor)).
Defined.
