(* ===== verification/DataCache.v ===== *)
(** * Data caches

    Model of the [DataCache] trait of [mountpoint-s3-fs/src/data_cache.rs] and of
    two of its implementations: the in-memory cache and the multilevel cache that
    puts a disk cache in front of a shared one.

    The interface is a class [DataCache] of operations and a class
    [DataCacheLaws] of what a cache promises to the caching part stream: it only
    returns blocks that were put for that object version and that index. *)

From S2P Require Import Prelude Checksums Part.
Local Open Scope Z_scope.

Abbreviation BlockIndex := Z.

Inductive DataCacheError :=
| IoFailure (source : string)
| InvalidBlockHeader (what : string)
| InvalidBlockChecksum
| InvalidBlockContent
| InvalidBlockOffset
| EvictionFailure.
#[export] Instance DataCacheError_eq_dec : EqDecision DataCacheError.
Proof. solve_decision. Defined.

#[export] Instance ObjectId_countable : Countable ObjectId.
Proof.
  refine (inj_countable' (λ i, (oid_key i, oid_etag i)) (λ '(k, e), {| oid_key := k; oid_etag := e |}) _).
  by intros [].
Defined.

(** The trait; [C] is the state behind [&self]. *)
Class DataCache (C : Type) := {
  get_block : C → ObjectId → BlockIndex → Z → Z → C * outcome DataCacheError (option ChecksummedBytes);
  put_block : C → ObjectId → BlockIndex → Z → ChecksummedBytes → Z → C * outcome DataCacheError ();
  block_size : C → Z;
}.

Section interface.
Context `{crc : Crc32c, env : IntegrityEnv}.

(** [block] is the block [idx] of an object of content [obj], for blocks of [bs] bytes. *)
Definition block_of (bs : Z) (obj : bytes) (idx : BlockIndex) (block : ChecksummedBytes) : Prop :=
  0 ≤ idx ∧ idx * bs < zlen obj ∧ cb_wf block ∧ cb_intact block ∧
  cb_data block = zslice (idx * bs) (Z.min (idx * bs + bs) (zlen obj)) obj.

(** A request for a block of an object, with the offset and object size that go with it. *)
Definition block_request (bs : Z) (obj : bytes) (idx : BlockIndex) (offset size : Z) : Prop :=
  0 ≤ idx ∧ idx * bs < zlen obj ∧ zlen obj < u64_modulus ∧ offset = idx * bs ∧ size = zlen obj.

(** [objs] gives the content of every object version; [cache_ok] is the
    invariant of the implementation. *)
Class DataCacheLaws (C : Type) `{DataCache C} (objs : ObjectId → bytes) := {
  cache_ok : C → Prop;
  cache_get c id idx offset size :
    cache_ok c → block_request (block_size c) (objs id) idx offset size →
    let '(c', r) := get_block c id idx offset size in
    cache_ok c' ∧ block_size c' = block_size c ∧
    match r with
    | Ok (Some block) => block_of (block_size c) (objs id) idx block
    | Panic => False
    | _ => True
    end;
  cache_put c id idx offset block size :
    cache_ok c → block_request (block_size c) (objs id) idx offset size →
    block_of (block_size c) (objs id) idx block →
    let '(c', r) := put_block c id idx offset block size in
    cache_ok c' ∧ block_size c' = block_size c ∧ r ≠ Panic;
}.
End interface.

(** ** The in-memory cache *)

Record InMemoryDataCache := {
  imc_data : gmap ObjectId (gmap BlockIndex ChecksummedBytes);
  imc_block_size : Z;
}.

Definition InMemoryDataCache_new (block_size : Z) : InMemoryDataCache :=
  {| imc_data := ∅; imc_block_size := block_size |}.

Definition InMemoryDataCache_block_count (c : InMemoryDataCache) (cache_key : ObjectId) : nat :=
  match imc_data c !! cache_key with Some blocks => size blocks | None => 0 end.

Definition InMemoryDataCache_get_block (c : InMemoryDataCache) (cache_key : ObjectId) (block_idx : BlockIndex)
    (block_offset _object_size : Z) : InMemoryDataCache * outcome DataCacheError (option ChecksummedBytes) :=
  (c, if negb (block_offset =? wmul block_idx (imc_block_size c)) then Err InvalidBlockOffset
      else Ok (imc_data c !! cache_key ≫= λ blocks, blocks !! block_idx)).

Definition InMemoryDataCache_put_block (c : InMemoryDataCache) (cache_key : ObjectId) (block_idx : BlockIndex)
    (block_offset : Z) (bs : ChecksummedBytes) (_object_size : Z) : InMemoryDataCache * outcome DataCacheError () :=
  if negb (block_offset =? wmul block_idx (imc_block_size c)) then (c, Err InvalidBlockOffset) else
  ({| imc_data := <[cache_key := <[block_idx := bs]> (default ∅ (imc_data c !! cache_key))]> (imc_data c);
      imc_block_size := imc_block_size c |}, Ok tt).

#[export] Instance InMemoryDataCache_DataCache : DataCache InMemoryDataCache := {|
  get_block := InMemoryDataCache_get_block;
  put_block := InMemoryDataCache_put_block;
  block_size := imc_block_size;
|}.

(** ** The multilevel cache

    The block fetched from the shared cache is written to the disk cache by a
    spawned task; the model runs it at once.  Its errors are only logged. *)

Record MultilevelDataCache (D E : Type) := { mlc_disk_cache : D; mlc_express_cache : E }.
Arguments mlc_disk_cache {D E} _.
Arguments mlc_express_cache {D E} _.
Arguments Build_MultilevelDataCache {D E} _ _.

Section multilevel.
Context {D E : Type} `{DataCache D, DataCache E}.

Definition MultilevelDataCache_new (disk_cache : D) (express_cache : E) : outcome DataCacheError (MultilevelDataCache D E) :=
  assert! block_size disk_cache =? block_size express_cache in
  Ok (Build_MultilevelDataCache disk_cache express_cache).

Definition MultilevelDataCache_get_block (c : MultilevelDataCache D E) (cache_key : ObjectId) (block_idx : BlockIndex)
    (block_offset object_size : Z) : MultilevelDataCache D E * outcome DataCacheError (option ChecksummedBytes) :=
  let '(disk, r) := get_block (mlc_disk_cache c) cache_key block_idx block_offset object_size in
  match r with
  | Ok (Some data) => (Build_MultilevelDataCache disk (mlc_express_cache c), Ok (Some data))
  | Panic => (Build_MultilevelDataCache disk (mlc_express_cache c), Panic)
  | _ =>
      let '(express, r) := get_block (mlc_express_cache c) cache_key block_idx block_offset object_size in
      match r with
      | Ok (Some data) =>
          let '(disk, _logged) := put_block disk cache_key block_idx block_offset data object_size in
          (Build_MultilevelDataCache disk express, Ok (Some data))
      | r => (Build_MultilevelDataCache disk express, r)
      end
  end.

Definition MultilevelDataCache_put_block (c : MultilevelDataCache D E) (cache_key : ObjectId) (block_idx : BlockIndex)
    (block_offset : Z) (bs : ChecksummedBytes) (object_size : Z) : MultilevelDataCache D E * outcome DataCacheError () :=
  let '(disk, _logged) := put_block (mlc_disk_cache c) cache_key block_idx block_offset bs object_size in
  let '(express, r) := put_block (mlc_express_cache c) cache_key block_idx block_offset bs object_size in
  (Build_MultilevelDataCache disk express, r).

#[export] Instance MultilevelDataCache_DataCache : DataCache (MultilevelDataCache D E) := {|
  get_block := MultilevelDataCache_get_block;
  put_block := MultilevelDataCache_put_block;
  block_size c := block_size (mlc_disk_cache c);
|}.
End multilevel.

(** ** Both caches keep the promise *)

Section laws.
Context `{crc : Crc32c, env : IntegrityEnv} (objs : ObjectId → bytes).

#[export] Program Instance InMemoryDataCache_laws : DataCacheLaws InMemoryDataCache objs := {|
  cache_ok c := ∀ id blocks idx block, imc_data c !! id = Some blocks → blocks !! idx = Some block →
    block_of (imc_block_size c) (objs id) idx block
|}.
Next Obligation.
  intros c id idx offset size Hok Hreq. simpl. split; [done|]. split; [done|].
  destruct (offset =? _); simpl; [|done]. destruct (imc_data c !! id) as [blocks|] eqn:Hb; simpl; [|done].
  destruct (blocks !! idx) eqn:Hi; [|done]. by eapply Hok.
Qed.
Next Obligation.
  intros c id idx offset block size Hok Hreq Hblock. simpl. unfold InMemoryDataCache_put_block.
  destruct (offset =? _); simpl; [|done]. ands; try done. intros id' blocks idx' block'.
  destruct (decide (id' = id)) as [->|]; [|rewrite lookup_insert_ne by done; apply Hok].
  rewrite lookup_insert_eq. intros [= <-].
  destruct (decide (idx' = idx)) as [->|]; [rewrite lookup_insert_eq; by intros [= <-]|].
  rewrite lookup_insert_ne by done. destruct (imc_data c !! id) as [old|] eqn:Ho; simpl; [|done]. by apply Hok.
Qed.

#[export] Program Instance MultilevelDataCache_laws {D E} `{DataCache D, DataCache E}
    `{!DataCacheLaws D objs, !DataCacheLaws E objs} : DataCacheLaws (MultilevelDataCache D E) objs := {|
  cache_ok c := cache_ok (mlc_disk_cache c) ∧ cache_ok (mlc_express_cache c) ∧
    block_size (mlc_disk_cache c) = block_size (mlc_express_cache c)
|}.
Next Obligation.
  intros D E ? ? ? ? [d e] id idx offset size (Hd & He & Hbs) Hreq. cbn in *. unfold MultilevelDataCache_get_block. simpl.
  pose proof (cache_get d id idx offset size Hd Hreq) as Hg.
  destruct (get_block d id idx offset size) as [d' r]. destruct Hg as (Hd' & Hbs' & Hr).
  rewrite Hbs in Hreq. pose proof (cache_get e id idx offset size He Hreq) as Hg. rewrite <- Hbs in Hg, Hreq.
  destruct (get_block e id idx offset size) as [e' r']. destruct Hg as (He' & Hbe' & Hr').
  assert (∀ r : outcome DataCacheError (option ChecksummedBytes),
    (match r with Ok (Some block) => block_of (block_size d) (objs id) idx block | Panic => False | _ => True end) →
    let '(c', r) := match r with
      | Ok (Some data) => let '(disk, _) := put_block d' id idx offset data size in
          (Build_MultilevelDataCache disk e', Ok (Some data))
      | r => (Build_MultilevelDataCache d' e', r) end in
    (cache_ok (mlc_disk_cache c') ∧ cache_ok (mlc_express_cache c') ∧
     block_size (mlc_disk_cache c') = block_size (mlc_express_cache c')) ∧
    block_size (mlc_disk_cache c') = block_size d ∧
    match r with Ok (Some block) => block_of (block_size d) (objs id) idx block | Panic => False | _ => True end) as Hput.
  { intros [[block|]| |] Hb; try done; [|ands; simpl; done || congruence..]. rewrite <- Hbs' in Hb, Hreq.
    pose proof (cache_put d' id idx offset block size Hd' Hreq Hb) as Hp.
    destruct (put_block d' _ _ _ _ _) as [d2 r2]. destruct Hp as (? & Hb2 & _). rewrite Hbs' in Hb.
    ands; simpl; done || congruence. }
  destruct r as [[block|]| |]; [ands; simpl; done || congruence|by apply Hput|by apply Hput|done].
Qed.
Next Obligation.
  intros D E ? ? ? ? [d e] id idx offset block size (Hd & He & Hbs) Hreq Hblock. cbn in *.
  unfold MultilevelDataCache_put_block. simpl.
  pose proof (cache_put d id idx offset block size Hd Hreq Hblock) as Hp. rewrite Hbs in Hreq, Hblock.
  pose proof (cache_put e id idx offset block size He Hreq Hblock) as Hp'.
  destruct (put_block d _ _ _ _ _) as [d' ?], (put_block e _ _ _ _ _) as [e' ?].
  destruct Hp as (?&?&?), Hp' as (?&?&?). ands; simpl; done || congruence.
Qed.
End laws.
