(* ===== verification/CachingStream.v ===== *)
(** * The caching part stream

    Model of [mountpoint-s3-fs/src/prefetch/caching_stream.rs]: serve the blocks
    of a range from a data cache, switch to the client at the first block that
    is missing, and write what the client returns back to the cache, block by
    block.

    [update_cache] spawns a task per block; the model collects these writes in
    order, and the theorems are about every one of them. *)

From S2P Require Import Prelude Checksums Part SeekWindow RequestRange MemLimiter Backpressure PartQueue PartStream DataCache.
Local Open Scope Z_scope.

(** A block on its way to the cache: the arguments of [put_block]. *)
Record cache_write := {
  cw_key : ObjectId;
  cw_block_index : BlockIndex;
  cw_block_offset : Z;
  cw_block : ChecksummedBytes;
  cw_object_size : Z;
}.

(** [CachingPartComposer], with what it has pushed and spawned so far. *)
Record CachingPartComposer := {
  cpc_items : list item;
  cpc_writes : list cache_write;
  cpc_cache_key : ObjectId;
  cpc_original_range : RequestRange;
  cpc_block_index : BlockIndex;
  cpc_block_offset : Z;
  cpc_buffer : ChecksummedBytes;   (** local variable of [compose_parts] *)
}.

Section caching_stream.
Context `{crc : Crc32c, env : IntegrityEnv}.
Implicit Types st : CachingPartComposer.

Definition try_make_part {E} (bs : ChecksummedBytes) (offset : Z) (object_id : ObjectId) (range : RequestRange)
    (source : PartSource) : outcome E (option Part) :=
  let part_range := RequestRange_trim_end (RequestRange_trim_start range offset) (wadd offset (ChecksummedBytes_len bs)) in
  if RequestRange_is_empty part_range then Ok None else
  let trim_start := sat_sub (RequestRange_start part_range) offset in
  let trim_end := sat_sub (RequestRange_end part_range) offset in
  let! slice := ChecksummedBytes_slice bs (Included trim_start) (Excluded trim_end) in
  Ok (Some (Part_new object_id (RequestRange_start part_range) slice source)).

Definition cpc_push st (i : item) : CachingPartComposer :=
  {| cpc_items := cpc_items st ++ [i]; cpc_writes := cpc_writes st; cpc_cache_key := cpc_cache_key st;
     cpc_original_range := cpc_original_range st; cpc_block_index := cpc_block_index st;
     cpc_block_offset := cpc_block_offset st; cpc_buffer := cpc_buffer st |}.

Definition cpc_set_buffer st (buffer : ChecksummedBytes) : CachingPartComposer :=
  {| cpc_items := cpc_items st; cpc_writes := cpc_writes st; cpc_cache_key := cpc_cache_key st;
     cpc_original_range := cpc_original_range st; cpc_block_index := cpc_block_index st;
     cpc_block_offset := cpc_block_offset st; cpc_buffer := buffer |}.

Definition update_cache st : CachingPartComposer :=
  {| cpc_items := cpc_items st;
     cpc_writes := cpc_writes st ++
       [{| cw_key := cpc_cache_key st; cw_block_index := cpc_block_index st; cw_block_offset := cpc_block_offset st;
           cw_block := cpc_buffer st; cw_object_size := rr_object_size (cpc_original_range st) |}];
     cpc_cache_key := cpc_cache_key st;
     cpc_original_range := cpc_original_range st; cpc_block_index := cpc_block_index st;
     cpc_block_offset := cpc_block_offset st; cpc_buffer := cpc_buffer st |}.

(** [block_index += 1; block_offset += block_size; buffer = default()] *)
Definition cpc_next_block st (bsize : Z) : CachingPartComposer :=
  {| cpc_items := cpc_items st; cpc_writes := cpc_writes st; cpc_cache_key := cpc_cache_key st;
     cpc_original_range := cpc_original_range st; cpc_block_index := wadd (cpc_block_index st) 1;
     cpc_block_offset := wadd (cpc_block_offset st) bsize; cpc_buffer := ChecksummedBytes_default |}.

(** Split one body into blocks; every iteration takes at least one byte. *)
Fixpoint compose_blocks (fuel : nat) (bsize : Z) st (offset : Z) (body : bytes)
  : CachingPartComposer * outcome PrefetchReadError () :=
  match body with
  | [] => (st, Ok tt)
  | _ :: _ =>
      match fuel with
      | O => (st, Panic)
      | S fuel =>
          let remaining := Z.min (sat_sub bsize (ChecksummedBytes_len (cpc_buffer st))) (zlen body) in
          let chunk := ChecksummedBytes_new (ztake remaining body) in
          let body := zdrop remaining body in
          let? st, part := (st, try_make_part chunk offset (cpc_cache_key st) (cpc_original_range st) S3) in
          let st := match part with Some part => cpc_push st (inl part) | None => st end in
          let offset := wadd offset (ChecksummedBytes_len chunk) in
          let? st, buffer := (st, outcome_map_err PrefetchIntegrity (ChecksummedBytes_extend (cpc_buffer st) chunk)) in
          let st := cpc_set_buffer st buffer in
          if ChecksummedBytes_len buffer <? bsize then (st, Ok tt)
          else compose_blocks fuel bsize (cpc_next_block (update_cache st) bsize) offset body
      end
  end.

Fixpoint caching_compose_parts (bsize : Z) st (request_stream : list stream_item)
  : CachingPartComposer * outcome PrefetchReadError () :=
  match request_stream with
  | [] =>
      if ChecksummedBytes_is_empty (cpc_buffer st) then (st, Ok tt)
      else if wadd (cpc_block_offset st) (ChecksummedBytes_len (cpc_buffer st)) =? rr_object_size (cpc_original_range st)
      then (update_cache st, Ok tt)
      else (st, Panic)
  | next :: request_stream =>
      if negb (ChecksummedBytes_len (cpc_buffer st) <? bsize) then (st, Panic) else
      match next with
      | inr e => (st, Err e)
      | inl body =>
          let expected_offset := wadd (cpc_block_offset st) (ChecksummedBytes_len (cpc_buffer st)) in
          if negb (gbp_offset body =? expected_offset)
          then (st, Err (GetRequestReturnedWrongOffset (gbp_offset body) expected_offset))
          else
            let? st, _done := compose_blocks (length (gbp_data body)) bsize st (gbp_offset body) (gbp_data body) in
            caching_compose_parts bsize st request_stream
      end
  end.

(** An error goes to the queue; a panic ends the task, and with it the queue. *)
Definition caching_try_compose_parts (bsize : Z) st (request_stream : list stream_item) : CachingPartComposer :=
  match caching_compose_parts bsize st request_stream with
  | (st, Err e) => cpc_push st (inr e)
  | (st, _) => st
  end.

(** What a request does: the items it sends and the cache writes it spawns. *)
Definition get_from_client (get_object : Z → Z → GetObjectResponse) (window_open : Z → bool) (bsize : Z)
    (config : RequestTaskConfig) (range : RequestRange) (start_block end_block : BlockIndex) : list item * list cache_write :=
  let initial_request_end_offset := wadd (RequestRange_start (rtc_range config)) (rtc_initial_request_size config) in
  if negb (0 <? bsize) then ([], []) else
  let start_offset := wmul start_block bsize in
  let end_offset := Z.min (wmul end_block bsize) (rr_object_size range) in
  let request_len := wsub end_offset start_offset in
  let block_aligned_byte_range := RequestRange_new (rr_object_size range) start_offset request_len in
  let request_stream := read_from_client_stream get_object window_open initial_request_end_offset block_aligned_byte_range in
  let part_composer :=
    {| cpc_items := []; cpc_writes := []; cpc_cache_key := rtc_object_id config; cpc_original_range := range;
       cpc_block_index := start_block; cpc_block_offset := wmul start_block bsize;
       cpc_buffer := ChecksummedBytes_default |} in
  let part_composer := caching_try_compose_parts bsize part_composer request_stream in
  (cpc_items part_composer, cpc_writes part_composer).

Definition block_indices_for_byte_range (bsize : Z) (range : RequestRange) : BlockIndex * BlockIndex :=
  let start_block := RequestRange_start range / bsize in
  let end_block := RequestRange_end range / bsize in
  (start_block,
   if negb (RequestRange_is_empty range) && negb (RequestRange_end range `mod` bsize =? 0)
   then wadd end_block 1 else end_block).

Section request.
Context `{DataCache C} (get_object : Z → Z → GetObjectResponse) (cache_window_open window_open : Z → bool).

(** The loop of [get_from_cache] over the remaining [n] blocks from [block_index] on. *)
Fixpoint get_from_cache_loop (n : nat) (c : C) (config : RequestTaskConfig) (range : RequestRange)
    (block_index end_block block_offset : Z) : list item * list cache_write * C :=
  match n with
  | O => ([], [], c)
  | S n =>
      let '(c', r) := get_block c (rtc_object_id config) block_index block_offset (rr_object_size range) in
      match r with
      | Ok (Some block) =>
          match try_make_part (E:=PrefetchReadError) block block_offset (rtc_object_id config) range Cache with
          | Ok (Some part) =>
              let block_offset := wadd block_offset (block_size c) in
              if cache_window_open block_offset then
                let '(items, writes, c') := get_from_cache_loop n c' config range (block_index + 1) end_block block_offset in
                (inl part :: items, writes, c')
              else ([inl part; inr ReadWindowIncrement], [], c')
          | _ => ([], [], c')
          end
      | Panic => ([], [], c')
      | _ =>
          let '(items, writes) :=
            get_from_client get_object window_open (block_size c) config (RequestRange_trim_start range block_offset)
              block_index end_block in
          (items, writes, c')
      end
  end.

(** The task spawned by [CachingPartStream]; a zero block size divides by zero. *)
Definition get_from_cache (c : C) (config : RequestTaskConfig) : list item * list cache_write * C :=
  let range := rtc_range config in
  if block_size c =? 0 then ([], [], c) else
  let '(start_block, end_block) := block_indices_for_byte_range (block_size c) range in
  get_from_cache_loop (Z.to_nat (end_block - start_block)) c config range start_block end_block
    (wmul start_block (block_size c)).
End request.

(** The spawned writes, in some order. *)
Definition apply_write `{DataCache C} (c : C) (w : cache_write) : C :=
  fst (put_block c (cw_key w) (cw_block_index w) (cw_block_offset w) (cw_block w) (cw_object_size w)).
Definition apply_writes `{DataCache C} (c : C) (ws : list cache_write) : C := foldl apply_write c ws.

(** ** Correctness *)

Section correctness.
Context `{!Crc32cLaws} (id : ObjectId) (obj : bytes) (strict : Prop) (bs : Z).
Set Default Proof Using "Type*".

Definition write_ok (w : cache_write) : Prop :=
  cw_key w = id ∧ block_request bs obj (cw_block_index w) (cw_block_offset w) (cw_object_size w) ∧
  block_of bs obj (cw_block_index w) (cw_block w).

(** [cb] is intact and holds the bytes [from, to) of the object. *)
Definition holds (from to : Z) (cb : ChecksummedBytes) : Prop :=
  cb_wf cb ∧ cb_intact cb ∧ cb_data cb = zslice from to obj.

Lemma holds_len from to cb : holds from to cb → 0 ≤ from ≤ to → to ≤ zlen obj → ChecksummedBytes_len cb = to - from.
Proof. intros (Hw & _ & Hd) ??. by rewrite cb_len_data, Hd, zlen_zslice. Qed.

(** The range of a request: it ends with the object. *)
Definition to_end (r : RequestRange) : Prop :=
  rr_wf r ∧ RequestRange_end r = zlen obj ∧ rr_object_size r = zlen obj ∧ zlen obj < u64_modulus.

Lemma try_make_part_ok {E} chunk from to r source :
  holds from to chunk → 0 ≤ from < to → to ≤ zlen obj → to_end r →
  if bool_decide (rr_offset r < to) then
    ∃ part, try_make_part (E:=E) chunk from id r source = Ok (Some part) ∧ part_of id obj part ∧
      part_offset part = Z.max from (rr_offset r) ∧ part_offset part + Part_len part = to
  else try_make_part (E:=E) chunk from id r source = Ok None.
Proof.
  intros Hh Hft Hto (Hwf & He & Hos & Hobj). pose proof (holds_len _ _ _ Hh ltac:(lia) Hto) as Hlen.
  destruct (rr_trim_start_spec r from Hwf) as (Hw1 & _ & Ho1 & He1).
  destruct (rr_trim_end_spec _ to Hw1) as (Hw2 & _ & Ho2 & He2).
  unfold try_make_part. rewrite Hlen, wadd_small by u64_lia. replace (from + (to - from)) with to by lia.
  set (pr := RequestRange_trim_end _ to) in *. pose proof (rr_end_wf pr Hw2) as Hpe. pose proof (rr_end_wf r Hwf) as Hre.
  destruct Hwf as (_&?&?&_). unfold RequestRange_is_empty, RequestRange_start, sat_sub.
  case_bool_decide; [|by rewrite (proj2 (Z.eqb_eq _ _)) by u64_lia].
  rewrite (proj2 (Z.eqb_neq _ _)) by u64_lia.
  assert (rr_offset pr = Z.max from (rr_offset r)) as Hpo by lia. assert (RequestRange_end pr = to) as Hpt by lia.
  rewrite Hpo, Hpt, (Z.max_l (_ - from) 0), (Z.max_l (to - from) 0) by lia. destruct Hh as (Hcw & Hci & Hcd).
  destruct (cb_slice_spec (E:=E) chunk (Z.max from (rr_offset r) - from) (to - from)) as (cb & -> & Hw & Hi & Hd); [done|lia..|].
  simpl. rewrite Hcd, zslice_zslice in Hd by lia.
  replace (from + (Z.max from (rr_offset r) - from)) with (Z.max from (rr_offset r)) in Hd by lia.
  replace (from + (to - from)) with to in Hd by lia.
  assert (holds (Z.max from (rr_offset r)) to cb) as Hcb by (split_and!; tauto).
  pose proof (holds_len _ _ _ Hcb ltac:(lia) Hto) as Hl.
  eexists. split; [done|]. unfold part_of, Part_len; simpl. rewrite Hl. split_and!; try done; try lia; [tauto|].
  rewrite Hd. f_equal. lia.
Qed.

(** The composer has received the bytes before [pos]; its buffer may be a full block. *)
Definition cpc_pre (r : RequestRange) (pos : Z) st : Prop :=
  cpc_cache_key st = id ∧ cpc_original_range st = r ∧ 0 ≤ cpc_block_index st ∧ 0 ≤ cpc_block_offset st ∧
  cpc_block_offset st = cpc_block_index st * bs ∧ cpc_block_offset st ≤ pos ≤ cpc_block_offset st + bs ∧
  holds (cpc_block_offset st) pos (cpc_buffer st) ∧
  (∃ ps, cpc_items st = map inl ps ∧ parts_cover id obj (rr_offset r) (Z.max pos (rr_offset r)) ps) ∧
  Forall write_ok (cpc_writes st).

Definition cpc_inv (r : RequestRange) (pos : Z) st : Prop :=
  cpc_pre r pos st ∧ pos < cpc_block_offset st + bs.

Lemma holds_default from : holds from from ChecksummedBytes_default.
Proof. split; [apply cb_default_wf|]. split; [apply cb_default_intact|]. by rewrite cb_default_data, zslice_empty. Qed.

Lemma push_part_ok r pos to ps (part : option Part) :
  pos < to → parts_cover id obj (rr_offset r) (Z.max pos (rr_offset r)) ps →
  (if bool_decide (rr_offset r < to) then
     ∃ p, part = Some p ∧ part_of id obj p ∧ part_offset p = Z.max pos (rr_offset r) ∧ part_offset p + Part_len p = to
   else part = None) →
  parts_cover id obj (rr_offset r) (Z.max to (rr_offset r)) (ps ++ match part with Some p => [p] | None => [] end).
Proof.
  intros Hlt Hc Hp. case_bool_decide.
  - destruct Hp as (p & -> & Hp & Ho & He). apply parts_cover_app. exists (Z.max pos (rr_offset r)). split; [done|].
    simpl. split_and!; try done. lia.
  - rewrite Hp, app_nil_r. by replace (Z.max to (rr_offset r)) with (Z.max pos (rr_offset r)) by lia.
Qed.

(** One chunk enters the queue and the buffer. *)
Lemma compose_chunk_ok r st pos n chunk :
  cpc_inv r pos st → to_end r → 0 < n → pos + n ≤ cpc_block_offset st + bs → pos + n ≤ zlen obj → holds pos (pos + n) chunk →
  ∃ part buf, try_make_part (E:=PrefetchReadError) chunk pos id r S3 = Ok part ∧
    ChecksummedBytes_extend (cpc_buffer st) chunk = Ok buf ∧ holds (cpc_block_offset st) (pos + n) buf ∧
    let st' := match part with Some p => cpc_push st (inl p) | None => st end in
    cpc_buffer st' = cpc_buffer st ∧ cpc_block_offset st' = cpc_block_offset st ∧
    cpc_pre r (pos + n) (cpc_set_buffer st' buf).
Proof.
  intros [(Hk & Hor & Hbi & Hbo0 & Hbo & Hpos & Hbuf & (ps & Hit & Hcov) & Hws) Hlt] Hr Hn Hfit Hle Hch.
  pose proof (try_make_part_ok (E:=PrefetchReadError) chunk pos (pos + n) r S3 Hch ltac:(lia) Hle Hr) as Hp.
  assert (∃ part, try_make_part (E:=PrefetchReadError) chunk pos id r S3 = Ok part ∧
    parts_cover id obj (rr_offset r) (Z.max (pos + n) (rr_offset r)) (ps ++ match part with Some p => [p] | None => [] end))
    as (part & Hmk & Hcov').
  { destruct (bool_decide (rr_offset r < pos + n)) eqn:Hd; [destruct Hp as (p & -> & Hp)|rewrite Hp];
      (eexists; split; [done|]; eapply (push_part_ok r pos); [lia|done|]; rewrite Hd; eauto). }
  pose proof Hbuf as (Hw1 & Hi1 & Hd1). pose proof Hch as (Hw2 & Hi2 & Hd2). destruct Hr as (_&_&_&Hobj).
  destruct (cb_extend_spec (cpc_buffer st) chunk) as (buf & Hext & Hw3 & Hi3 & Hd3); try done.
  { rewrite (holds_len _ _ _ Hbuf), (holds_len _ _ _ Hch) by lia. u64_lia. }
  assert (holds (cpc_block_offset st) (pos + n) buf) as Hbuf'.
  { split; [done|]. split; [done|]. rewrite Hd3, Hd1, Hd2. apply zslice_app; lia. }
  exists part, buf. split; [done|]. split; [done|]. split; [done|]. intros st'.
  assert (cpc_items st' = map inl (ps ++ match part with Some p => [p] | None => [] end)) as Hit'
    by (unfold st'; destruct part; simpl; rewrite ?map_app, Hit, ?app_nil_r; done).
  split; [by unfold st'; destruct part|]. split; [by unfold st'; destruct part|].
  unfold cpc_pre. cbn [cpc_set_buffer cpc_items cpc_buffer cpc_writes cpc_cache_key cpc_original_range cpc_block_index cpc_block_offset].
  rewrite Hit'. unfold st'. destruct part; simpl; ands; try done; try lia; eauto.
Qed.

(** A full block, or the last one of the object, is written to the cache. *)
Lemma update_cache_ok r st pos :
  cpc_pre r pos st → to_end r → pos ≤ zlen obj → cpc_block_offset st < pos →
  pos = cpc_block_offset st + bs ∨ pos = zlen obj → Forall write_ok (cpc_writes (update_cache st)).
Proof.
  intros (Hk & Hor & Hbi & Hbo0 & Hbo & Hpos & Hbuf & Hit & Hws) (_ & _ & Hos & Hobj) Hle Hlt Hfull.
  apply Forall_app_2; [done|]. constructor; [|constructor].
  split; [done|]. simpl. unfold block_request, block_of. rewrite <- Hbo, Hor, Hos.
  destruct Hbuf as (?&?&Hd). ands; try done; try lia. rewrite Hd. f_equal. lia.
Qed.

Lemma flush_ok r st pos :
  cpc_pre r pos st → to_end r → 0 < bs → zlen obj + bs < u64_modulus → pos ≤ zlen obj → pos = cpc_block_offset st + bs →
  cpc_inv r pos (cpc_next_block (update_cache st) bs).
Proof.
  intros Hpre Hr Hbs Hover Hle Hfull.
  pose proof (update_cache_ok r st pos Hpre Hr Hle ltac:(lia) ltac:(lia)) as Hws.
  destruct Hpre as (Hk & Hor & Hbi & Hbo0 & Hbo & Hpos & Hbuf & Hit & _).
  split; [unfold cpc_pre|]; simpl; rewrite !wadd_small by (u64_lia || nia); [|lia].
  ands; try done; try lia. rewrite <- Hfull. apply holds_default.
Qed.

Lemma compose_blocks_ok r fuel st pos body :
  cpc_inv r pos st → to_end r → 0 < bs → zlen obj + bs < u64_modulus →
  pos + zlen body ≤ zlen obj → body = zslice pos (pos + zlen body) obj → (length body ≤ fuel)%nat →
  ∃ st', compose_blocks fuel bs st pos body = (st', Ok tt) ∧ cpc_inv r (pos + zlen body) st'.
Proof.
  intros Hinv Hr Hbs Hover. revert st pos body Hinv. induction fuel as [|fuel IH]; intros st pos body Hinv Hle Hb Hf.
  { destruct body; [|simpl in Hf; lia]. exists st. rewrite zlen_nil, Z.add_0_r. done. }
  destruct body as [|b rest]; [exists st; rewrite zlen_nil, Z.add_0_r; done|].
  set (body := b :: rest) in *. cbn [compose_blocks]. unfold body at 1. cbv zeta.
  assert (0 < zlen body) as Hlb by (unfold body; rewrite zlen_cons; pose proof (zlen_nonneg rest); lia).
  pose proof Hinv as [(Hk & Hor & Hbi & Hbo0 & Hbo & Hpos & Hbuf & _ & _) Hlt].
  rewrite (holds_len _ _ _ Hbuf) by lia. unfold sat_sub. rewrite Z.max_l by lia.
  set (n := Z.min (bs - (pos - cpc_block_offset st)) (zlen body)).
  assert (holds pos (pos + n) (ChecksummedBytes_new (ztake n body))) as Hch.
  { split; [apply cb_new_wf; rewrite zlen_ztake by lia; u64_lia|]. split; [apply cb_new_intact|].
    rewrite cb_new_data, Hb. apply ztake_zslice. lia. }
  rewrite (holds_len _ _ _ Hch) by lia. rewrite Hk, Hor.
  destruct (compose_chunk_ok r st pos n _ Hinv Hr ltac:(lia) ltac:(lia) ltac:(lia) Hch)
    as (part & buf & -> & Hext & Hbuf' & Hb1 & Ho1 & Hpre).
  cbn [state_bind]. set (st1 := match part with Some p => cpc_push st (inl p) | None => st end) in *.
  rewrite Hb1, Hext. cbn [outcome_map_err state_bind]. rewrite (holds_len _ _ _ Hbuf') by lia.
  replace (pos + n - pos) with n by lia. rewrite (wadd_small pos) by u64_lia.
  destruct (Z.ltb_spec (pos + n - cpc_block_offset st) bs).
  - eexists. split; [done|]. assert (n = zlen body) as <- by lia. split; [done|]. simpl. lia.
  - destruct (IH (cpc_next_block (update_cache (cpc_set_buffer st1 buf)) bs) (pos + n) (zdrop n body))
      as (st' & Heq & Hinv').
    + apply flush_ok; try done; simpl; lia.
    + rewrite zlen_zdrop by lia. lia.
    + rewrite zlen_zdrop by lia. rewrite Hb at 1. rewrite zdrop_zslice by lia. f_equal. lia.
    + unfold zdrop. rewrite length_drop. assert (1 ≤ n) by lia. simpl in Hf |- *. lia.
    + exists st'. split; [exact Heq|]. rewrite zlen_zdrop in Hinv' by lia.
      by replace (pos + zlen body) with (pos + n + (zlen body - n)) by lia.
Qed.

(** Where a composer run may end: consecutive parts up to [q], and only right writes. *)
Definition composed (r : RequestRange) (q : Z) st : Prop :=
  q ≤ zlen obj ∧ (∃ ps, cpc_items st = map inl ps ∧ parts_cover id obj (rr_offset r) q ps) ∧ Forall write_ok (cpc_writes st).

Lemma cpc_pre_composed r pos st : cpc_pre r pos st → to_end r → pos ≤ zlen obj → composed r (Z.max pos (rr_offset r)) st.
Proof.
  intros (_&_&_&_&_&_&_&?&?) (Hwf & He & _) Hle. pose proof (rr_end_wf r Hwf). destruct Hwf as (_&_&?&_).
  split; [lia|]. done.
Qed.

Lemma caching_compose_parts_ok r st pos items :
  cpc_inv r pos st → to_end r → 0 < bs → zlen obj + bs < u64_modulus → 0 ≤ pos ≤ zlen obj →
  body_ok obj strict pos (zlen obj) items →
  ∃ st' o q, caching_compose_parts bs st items = (st', o) ∧ composed r q st' ∧ (strict → q = zlen obj ∧ o = Ok tt).
Proof.
  intros Hinv Hr Hbs Hover. revert st pos Hinv.
  induction items as [|[part|e] items IH]; intros st pos Hinv Hpos Hb; simpl in Hb; cbn [caching_compose_parts];
    pose proof (cpc_pre_composed r pos st (proj1 Hinv) Hr ltac:(lia)) as Hcomp;
    pose proof Hinv as [(Hk & Hor & Hbi & Hbo0 & Hbo & Hp & Hbuf & _) Hlt];
    pose proof Hr as (Hwf & He & Hos & Hobj); pose proof (rr_end_wf r Hwf) as Hre; pose proof Hwf as (_&_&?&_);
    rewrite ?cb_is_empty_len, (holds_len _ _ _ Hbuf) by lia.
  - destruct (Z.eqb_spec (pos - cpc_block_offset st) 0).
    { do 3 eexists. split; [done|]. split; [done|]. intros Hs. specialize (Hb Hs). split; [lia|done]. }
    rewrite wadd_small by u64_lia. rewrite Hor, Hos. destruct (Z.eqb_spec (cpc_block_offset st + (pos - cpc_block_offset st)) (zlen obj)).
    + exists (update_cache st), (Ok tt), (Z.max pos (rr_offset r)). split; [done|]. split; [|intros Hs; split; [lia|done]].
      destruct Hcomp as (Hq & Hit & _).
      split; [done|]. split; [done|]. apply (update_cache_ok r st pos); try done; [apply Hinv|lia..].
    + do 3 eexists. split; [done|]. split; [done|]. intros Hs. specialize (Hb Hs). lia.
  - rewrite (proj2 (Z.ltb_lt _ _)) by lia. cbn [negb].
    destruct Hb as (Hoff & Hlen & Hle & Hd & Hb). rewrite wadd_small by u64_lia.
    replace (cpc_block_offset st + (pos - cpc_block_offset st)) with pos by lia. rewrite Hoff, Z.eqb_refl. cbn [negb].
    destruct (compose_blocks_ok r (length (gbp_data part)) st pos (gbp_data part)) as (st' & -> & Hinv'); try done.
    cbn [state_bind]. apply (IH st' (pos + zlen (gbp_data part))); try done. lia.
  - rewrite (proj2 (Z.ltb_lt _ _)) by lia. do 3 eexists. split; [done|]. split; [done|]. done.
Qed.

Lemma get_from_client_ok get_object window_open config r start_block end_block :
  get_object_ok obj strict get_object → reader_stays strict window_open →
  rtc_object_id config = id → to_end r → 0 < bs → zlen obj + bs < u64_modulus →
  0 ≤ start_block → start_block * bs < zlen obj → start_block * bs ≤ rr_offset r →
  zlen obj ≤ end_block * bs < u64_modulus →
  let '(items, writes) := get_from_client get_object window_open bs config r start_block end_block in
  items_ok id obj strict (rr_offset r) (zlen obj) items ∧ Forall write_ok writes.
Proof.
  intros Hg Hst Hid Hr Hbs Hover Hsb Hlt Hle Hend. unfold get_from_client.
  rewrite (proj2 (Z.ltb_lt _ _)) by lia. cbn [negb]. pose proof Hr as (Hwf & He & Hos & Hobj).
  rewrite Hos, !wmul_small by u64_lia. rewrite Z.min_r by lia. rewrite wsub_small by u64_lia.
  set (aligned := RequestRange_new _ _ _).
  assert (rr_wf aligned) as Hwa by (apply rr_new_wf; u64_lia).
  assert (RequestRange_end aligned = zlen obj) as Hea
    by (rewrite rr_end_wf by done; unfold aligned, RequestRange_new, sat_sub; simpl; lia).
  pose proof (read_from_client_stream_ok obj strict get_object window_open
    (wadd (RequestRange_start (rtc_range config)) (rtc_initial_request_size config)) aligned Hg Hst Hobj Hwa Hea) as Hbody.
  set (st := {| cpc_items := []; cpc_writes := [] |}).
  destruct (caching_compose_parts_ok r st (start_block * bs) (read_from_client_stream get_object window_open
    (wadd (RequestRange_start (rtc_range config)) (rtc_initial_request_size config)) aligned))
    as (st' & o & q & Heq & (Hq & (ps & Hit & Hcov) & Hws) & Hs); try done; try lia.
  { split; [|simpl; lia]. unfold cpc_pre; simpl. ands; try done; try lia; [apply holds_default|].
    exists []. split; [done|]. simpl. lia. }
  unfold caching_try_compose_parts. rewrite Heq.
  assert (∀ tail, items_ok id obj strict q (zlen obj) tail → items_ok id obj strict (rr_offset r) (zlen obj) (map inl ps ++ tail))
    as Hfin by (intros tail; by eapply items_ok_parts).
  destruct o as [[]|e|]; simpl; rewrite Hit; (split; [|done]); [rewrite <- (app_nil_r (map inl ps))| |rewrite <- (app_nil_r (map inl ps))];
    apply Hfin; simpl; intros Hstr; specialize (Hs Hstr) as [??]; done.
Qed.
End correctness.

Section coherence.
Context `{!Crc32cLaws} {C : Type} `{!DataCache C} (objs : ObjectId → bytes) `{!DataCacheLaws C objs}.
Context (id : ObjectId) (strict : Prop) (get_object : Z → Z → GetObjectResponse) (cache_window_open window_open : Z → bool).
Context (Hclient : get_object_ok (objs id) strict get_object).
Context (Hcw : reader_stays strict cache_window_open) (Hw : reader_stays strict window_open).
Set Default Proof Using "Type*".

Lemma to_end_trim r x : to_end (objs id) r → to_end (objs id) (RequestRange_trim_start r x).
Proof. intros (Hwf & He & Hos & ?). destruct (rr_trim_start_spec r x Hwf) as (? & ? & _ & ?). split_and!; congruence. Qed.

Lemma get_from_cache_loop_ok n c config r block_index end_block bs :
  cache_ok c → block_size c = bs → 0 < bs → zlen (objs id) + bs < u64_modulus →
  rtc_object_id config = id → to_end (objs id) r →
  0 ≤ block_index → block_index + Z.of_nat n = end_block →
  zlen (objs id) ≤ end_block * bs < zlen (objs id) + bs →
  (n ≠ 0%nat → rr_offset r < (block_index + 1) * bs ∧ rr_offset r < zlen (objs id)) →
  let '(items, writes, c') :=
    get_from_cache_loop get_object cache_window_open window_open n c config r block_index end_block (block_index * bs) in
  items_ok id (objs id) strict (Z.min (Z.max (block_index * bs) (rr_offset r)) (zlen (objs id))) (zlen (objs id)) items ∧
  Forall (write_ok id (objs id) bs) writes ∧ cache_ok c' ∧ block_size c' = bs.
Proof.
  intros Hok Hbsz Hbs Hover Hid Hr. revert c block_index Hok Hbsz.
  induction n as [|n IH]; intros c idx Hok Hbsz Hidx Hend Hlen Hr0; cbn [get_from_cache_loop].
  { split; [|done]. simpl. intros _. assert (end_block = idx) as -> by lia. lia. }
  destruct (Hr0 ltac:(done)) as [Hr1 Hr2]. assert (idx * bs < zlen (objs id)) as Hlt by nia.
  pose proof Hr as (Hwf & He & Hos & Hobj). rewrite Hid, Hos.
  pose proof (cache_get c id idx (idx * bs) (zlen (objs id)) Hok) as Hg. rewrite Hbsz in Hg.
  specialize (Hg ltac:(done)). destruct (get_block c id idx (idx * bs) (zlen (objs id))) as [c1 res].
  destruct Hg as (Hok1 & Hbs1 & Hres). rewrite Hbsz.
  assert (Z.min (Z.max (idx * bs) (rr_offset r)) (zlen (objs id)) = Z.max (idx * bs) (rr_offset r)) as -> by lia.
  assert (let '(items, writes) := get_from_client get_object window_open bs config (RequestRange_trim_start r (idx * bs)) idx end_block in
    items_ok id (objs id) strict (Z.max (idx * bs) (rr_offset r)) (zlen (objs id)) items ∧ Forall (write_ok id (objs id) bs) writes)
    as Hmiss.
  { destruct (rr_trim_start_spec r (idx * bs) Hwf) as (_ & _ & Ho & _).
    replace (Z.max (idx * bs) (rr_offset r)) with (rr_offset (RequestRange_trim_start r (idx * bs))) by lia.
    apply get_from_client_ok; try done; try lia. by apply to_end_trim. }
  destruct res as [[block|]|e|]; [|destruct (get_from_client _ _ _ _ _ _); tauto..|done].
  destruct Hres as (_ & _ & Hbw & Hbi & Hbd).
  pose proof (try_make_part_ok (E:=PrefetchReadError) id (objs id) block (idx * bs)
    (Z.min (idx * bs + bs) (zlen (objs id))) r Cache) as Hpart.
  rewrite bool_decide_eq_true_2 in Hpart by nia.
  destruct Hpart as (part & -> & Hp & Hpo & Hpe); [done|lia..|done|]. rewrite wadd_small by u64_lia.
  destruct (cache_window_open (idx * bs + bs)) eqn:Hwo.
  - specialize (IH c1 (idx + 1) Hok1 Hbs1 ltac:(lia) ltac:(lia) Hlen ltac:(nia)).
    replace ((idx + 1) * bs) with (idx * bs + bs) in IH by lia.
    destruct (get_from_cache_loop _ _ _ _ _ _ _ _ _ _) as [[items writes] c2]. destruct IH as (Hi & Hws & Hok2 & Hb2).
    split; [|done]. simpl. rewrite <- Hpo, Hpe. ands; try done; [lia|].
    by replace (Z.min (idx * bs + bs) (zlen (objs id)))
      with (Z.min (Z.max (idx * bs + bs) (rr_offset r)) (zlen (objs id))) by lia.
  - split; [|done]. simpl. rewrite <- Hpo. ands; try done; [lia|]. intros Hs. by rewrite (Hcw Hs) in Hwo.
Qed.

Lemma block_indices_ok bs r start_block end_block :
  0 < bs → zlen (objs id) + bs < u64_modulus → to_end (objs id) r → block_indices_for_byte_range bs r = (start_block, end_block) →
  0 ≤ start_block ∧ start_block * bs ≤ rr_offset r < (start_block + 1) * bs ∧ start_block ≤ end_block ∧
  (start_block ≠ end_block → rr_offset r < zlen (objs id) ∧ zlen (objs id) ≤ end_block * bs < zlen (objs id) + bs) ∧
  (start_block = end_block → rr_offset r = zlen (objs id)).
Proof.
  intros Hbs Hover (Hwf & He & Hos & Hobj). pose proof (rr_end_wf r Hwf) as Hre. pose proof Hwf as (_&Ho&?&_).
  unfold block_indices_for_byte_range, RequestRange_start, RequestRange_is_empty. intros [= <- <-]. rewrite He.
  pose proof (Z.div_mod (rr_offset r) bs ltac:(lia)). pose proof (Z.mod_pos_bound (rr_offset r) bs Hbs).
  pose proof (Z.div_mod (zlen (objs id)) bs ltac:(lia)). pose proof (Z.mod_pos_bound (zlen (objs id)) bs Hbs).
  assert (0 ≤ rr_offset r / bs) by (apply Z.div_pos; u64_lia).
  assert (rr_offset r / bs ≤ zlen (objs id) / bs) by (apply Z.div_le_mono; lia).
  assert (zlen (objs id) / bs + 1 < u64_modulus) by (unfold u64_modulus in *; nia).
  destruct (Z.eqb_spec (rr_size r) 0), (Z.eqb_spec (zlen (objs id) `mod` bs) 0); simpl;
    rewrite ?wadd_small by (unfold is_u64; lia); split_and!; try lia; try nia.
Qed.

Lemma get_from_cache_ok c config :
  cache_ok c → 0 < block_size c → zlen (objs id) + block_size c < u64_modulus →
  rtc_object_id config = id → to_end (objs id) (rtc_range config) →
  let '(items, writes, c') := get_from_cache get_object cache_window_open window_open c config in
  items_ok id (objs id) strict (RequestRange_start (rtc_range config)) (zlen (objs id)) items ∧
  Forall (write_ok id (objs id) (block_size c)) writes ∧ cache_ok c' ∧ block_size c' = block_size c.
Proof.
  intros Hok Hbs Hover Hid Hr. unfold get_from_cache. rewrite (proj2 (Z.eqb_neq _ _)) by lia.
  destruct (block_indices_for_byte_range _ _) as [sb eb] eqn:Hb.
  apply block_indices_ok in Hb as (Hsb & Hin & Hle & Hne & Heq); try done.
  pose proof Hr as (Hwf & He & _ & Hobj). pose proof (rr_end_wf _ Hwf). pose proof Hwf as (_&?&?&_).
  rewrite wmul_small by u64_lia. unfold RequestRange_start.
  destruct (decide (sb = eb)) as [->|Hn].
  { rewrite Z.sub_diag. simpl. split; [|done]. auto. }
  destruct (Hne Hn). pose proof (get_from_cache_loop_ok (Z.to_nat (eb - sb)) c config (rtc_range config) sb eb (block_size c)) as Hl.
  specialize (Hl Hok eq_refl Hbs Hover Hid Hr Hsb ltac:(lia) ltac:(done) ltac:(lia)).
  by replace (Z.min (Z.max (sb * block_size c) (rr_offset (rtc_range config))) (zlen (objs id)))
    with (rr_offset (rtc_range config)) in Hl by lia.
Qed.

Lemma apply_writes_ok bs c ws :
  cache_ok c → block_size c = bs → Forall (write_ok id (objs id) bs) ws →
  cache_ok (apply_writes c ws) ∧ block_size (apply_writes c ws) = bs.
Proof.
  intros Hok Hbs Hws. revert c Hok Hbs. induction Hws as [|w ws (Hk & Hreq & Hb) _ IH]; intros c Hok Hbs; simpl; [done|].
  rewrite <- Hbs in Hreq, Hb. pose proof (cache_put c id _ _ _ _ Hok Hreq Hb) as Hp.
  assert (cache_ok (apply_write c w) ∧ block_size (apply_write c w) = bs) as [??].
  { unfold apply_write. rewrite Hk. destruct (put_block _ _ _ _ _ _). destruct Hp as (?&?&_). split; simpl; [done|congruence]. }
  by apply IH.
Qed.
End coherence.

(** C3. The cache stays coherent with S3 and readers cannot tell it is there.
    For a request on a cache that only holds right blocks, and a client whose
    responses carry the object's bytes, whatever the mix of hits, misses and cache
    errors: the parts sent to the reader are consecutive parts of the object
    from the requested offset, up to its end when nothing fails, and every
    block written back, in any order and even if some writes are lost, leaves
    the cache holding only right blocks. *)
Theorem caching_stream_coherent `{!Crc32cLaws} {C : Type} `{!DataCache C} (objs : ObjectId → bytes) `{!DataCacheLaws C objs}
    id strict get_object cache_window_open window_open c config :
  get_object_ok (objs id) strict get_object → reader_stays strict cache_window_open → reader_stays strict window_open →
  cache_ok c → 0 < block_size c → zlen (objs id) + block_size c < u64_modulus →
  rtc_object_id config = id → rr_wf (rtc_range config) →
  RequestRange_end (rtc_range config) = zlen (objs id) → rr_object_size (rtc_range config) = zlen (objs id) →
  let '(items, writes, c') := get_from_cache get_object cache_window_open window_open c config in
  items_ok id (objs id) strict (RequestRange_start (rtc_range config)) (zlen (objs id)) items ∧
  ∀ ws, ws ⊆ writes → cache_ok (apply_writes c' ws).
Proof.
  intros Hg Hcw Hw Hok Hbs Hover Hid Hwf He Hos.
  pose proof (get_from_cache_ok objs id strict get_object cache_window_open window_open Hg Hcw Hw c config Hok Hbs Hover Hid) as Hgc.
  specialize (Hgc ltac:(split_and!; try done; lia)). destruct (get_from_cache _ _ _ _ _) as [[items writes] c'].
  destruct Hgc as (Hi & Hws & Hok' & Hbs'). split; [done|]. intros ws Hsub.
  eapply apply_writes_ok; [done..|]. apply list.Forall_forall. intros w Hin.
  eapply list.Forall_forall in Hws; [exact Hws|]. by apply Hsub.
Qed.
End caching_stream.

(** The caching stream discharges the interface that the prefetcher is proved against. *)
Section caching_instance.
Context `{crc : Crc32c, env : IntegrityEnv, !Crc32cLaws} {C : Type} `{!DataCache C}.
Context (get_object : nat → Z → Z → GetObjectResponse) (cache_window_open window_open : nat → Z → bool) (cache : nat → C).
Set Default Proof Using "Type*".

Definition CachingPartStream : ObjectPartStream :=
  {| ps_items := λ n cfg, fst (fst (get_from_cache (get_object n) (cache_window_open n) (window_open n) (cache n) cfg));
     ps_align := false |}.

Lemma CachingPartStream_laws strict id (objs : ObjectId → bytes) `{!DataCacheLaws C objs} :
  zlen (objs id) < u64_modulus →
  (∀ n, cache_ok (cache n) ∧ 0 < block_size (cache n) ∧ zlen (objs id) + block_size (cache n) < u64_modulus) →
  (∀ n, get_object_ok (objs id) strict (get_object n)) →
  (∀ n, reader_stays strict (cache_window_open n)) → (∀ n, reader_stays strict (window_open n)) →
  ObjectPartStreamLaws (H1 := CachingPartStream) strict id (objs id).
Proof.
  intros Hobj Hc Hg Hcw Hw n cfg Hid _ _ Hwf Hos He. destruct (Hc n) as (?&?&?).
  pose proof (get_from_cache_ok objs id strict (get_object n) (cache_window_open n) (window_open n)
    (Hg n) (Hcw n) (Hw n) (cache n) cfg) as Hgc. simpl.
  specialize (Hgc ltac:(done) ltac:(done) ltac:(done) Hid ltac:(split_and!; done)).
  destruct (get_from_cache _ _ _ _ _) as [[items writes] c']. apply Hgc.
Qed.
End caching_instance.

(** ** Witness: the second block is cached, the others are fetched and written back *)

Definition test_objects (_ : ObjectId) : bytes := test_object.
Definition test_cache : InMemoryDataCache :=
  {| imc_data := {[test_id := {[0 := ChecksummedBytes_new (env := validating) (zslice 0 4 test_object)]}]}; imc_block_size := 4 |}.

Lemma caching_stream_coherent_witness :
  let '(items, writes, c') :=
    get_from_cache (env := validating) (one_part_client test_object) (λ _, true) (λ _, true) test_cache test_task_config in
  items_ok (env := validating) test_id test_object True 1 9 items ∧
  cache_ok (env := validating) (objs := test_objects) (apply_writes c' writes) ∧
  InMemoryDataCache_block_count (apply_writes c' writes) test_id = 3%nat.
Proof.
  assert (cache_ok (env := validating) (objs := test_objects) test_cache) as Hok.
  { intros id blocks idx block Hid Hb. unfold test_cache in Hid; simpl in Hid. apply lookup_singleton_Some in Hid as [<- <-].
    apply lookup_singleton_Some in Hb as [<- <-]. split_and!; by vm_compute. }
  assert (rr_wf (rtc_range test_task_config)) as Hwf by (apply rr_new_wf; by vm_compute).
  pose proof (caching_stream_coherent (env := validating) test_objects test_id True (one_part_client test_object)
    (λ _, true) (λ _, true) test_cache test_task_config (one_part_client_ok _ _) ltac:(done) ltac:(done) Hok
    ltac:(by vm_compute) ltac:(by vm_compute) eq_refl Hwf eq_refl eq_refl) as Hc.
  destruct (get_from_cache _ _ _ _ _) as [[items writes] c'] eqn:Hg.
  destruct Hc as [Hi Hw]. split; [exact Hi|]. split; [apply Hw; intros ? Hin; exact Hin|].
  vm_compute in Hg. injection Hg as <- <- <-. vm_compute. reflexivity.
Defined.
