(* ===== verification/Pool.v ===== *)
(** * The paged buffer pool

    Models of [mountpoint-s3-fs/src/memory/pages.rs] (pages of 16 buffers with a
    bitmask), [pool.rs] (size pools, reservation and trimming) and [buffers.rs]
    (pool buffers and their append operation).

    Pages are shared between the pool and the buffers carved from them, so they
    live in a heap; a raw pointer into a page is its byte offset.  Every atomic
    section of the code (one page's bitmask lock) is one function. *)

From S2P Require Import Prelude MemLimiter.
From stdpp Require Import sorting.
Local Open Scope Z_scope.

(** ** Pages *)

Definition BUFFERS_PER_PAGE : Z := 16.
Definition FULL_MASK : Z := 65535.

Inductive PageStatus := PageEmpty | PageNonEmpty.

(** The [for index in 0..16] loop of [consume], from [index] on. *)
Fixpoint consume_from (n : nat) (index bitmask : Z) : option (Z * Z) :=
  match n with
  | O => None
  | S n =>
      let mask := Z.shiftl 1 index in
      if Z.land bitmask mask =? 0 then Some (index, Z.lor bitmask mask) else consume_from n (index + 1) bitmask
  end.

(** Returns the index, the previous status and the new bitmask. *)
Definition consume (bitmask : Z) : option (Z * PageStatus * Z) :=
  if negb (bitmask =? FULL_MASK) then
    let page_status := if bitmask =? 0 then PageEmpty else PageNonEmpty in
    match consume_from 16 0 bitmask with
    | Some (index, bitmask) => Some (index, page_status, bitmask)
    | None => None
    end
  else None.

(** [!(1u16 << index)], applied with [&=] *)
Definition clear_bit (bitmask index : Z) : Z := Z.land bitmask (Z.lxor FULL_MASK (Z.shiftl 1 index)).

Abbreviation PageRef := nat.

(** [PageInner]: the bitmask, and which size pool's statistics it shares. *)
Record PageInner := { page_reserved_bitmask : Z; page_pool : nat }.

Record SizePoolStats := {
  sps_buffer_size : Z;
  sps_empty_pages : Z;
  sps_reserved_buffers : KindCounters;
}.

Definition SizePoolStats_new (buffer_size : Z) : SizePoolStats :=
  {| sps_buffer_size := buffer_size; sps_empty_pages := 0; sps_reserved_buffers := λ _, 0 |}.
Definition sps_add_empty_page (s : SizePoolStats) : SizePoolStats :=
  {| sps_buffer_size := sps_buffer_size s; sps_empty_pages := wadd (sps_empty_pages s) 1;
     sps_reserved_buffers := sps_reserved_buffers s |}.
Definition sps_remove_empty_page (s : SizePoolStats) : SizePoolStats :=
  {| sps_buffer_size := sps_buffer_size s; sps_empty_pages := wsub (sps_empty_pages s) 1;
     sps_reserved_buffers := sps_reserved_buffers s |}.
Definition sps_add_reserved_buffer (s : SizePoolStats) (kind : BufferKind) : SizePoolStats :=
  {| sps_buffer_size := sps_buffer_size s; sps_empty_pages := sps_empty_pages s;
     sps_reserved_buffers := <[kind := wadd (sps_reserved_buffers s kind) 1]> (sps_reserved_buffers s) |}.
Definition sps_remove_reserved_buffer (s : SizePoolStats) (kind : BufferKind) : SizePoolStats :=
  {| sps_buffer_size := sps_buffer_size s; sps_empty_pages := sps_empty_pages s;
     sps_reserved_buffers := <[kind := wsub (sps_reserved_buffers s kind) 1]> (sps_reserved_buffers s) |}.

Record SizePool := { sp_pages : list PageRef; sp_stats : SizePoolStats }.

(** The pool, with the heap of its pages and the next fresh page. *)
Record PagedPool := {
  pp_ordered_size_pools : list SizePool;
  pp_stats : PoolStats;
  pp_heap : gmap PageRef PageInner;
  pp_next : PageRef;
}.
Implicit Types pool : PagedPool.

Record PagedBufferPtr := { pb_ptr : Z; pb_page : PageRef; pb_kind : BufferKind }.

(** [PoolBufferInner] *)
Inductive PoolBuffer :=
| Primary (buffer_ptr : PagedBufferPtr) (size : Z)
| Secondary (size : Z) (kind : BufferKind).

Definition pp_with_pool pool (k : nat) (f : SizePool → SizePool) (stats : PoolStats) (heap : gmap PageRef PageInner) : PagedPool :=
  {| pp_ordered_size_pools := alter f k (pp_ordered_size_pools pool); pp_stats := stats; pp_heap := heap;
     pp_next := pp_next pool |}.
Definition sp_with_stats (f : SizePoolStats → SizePoolStats) (sp : SizePool) : SizePool :=
  {| sp_pages := sp_pages sp; sp_stats := f (sp_stats sp) |}.
Definition pool_buffer_size pool (k : nat) : Z :=
  match pp_ordered_size_pools pool !! k with Some sp => sps_buffer_size (sp_stats sp) | None => 0 end.

(** [Page::try_reserve] on the page [ref] of the heap.  The bitmask is changed under the page's lock, and the counters, which
    are atomic, right after the lock is released.  Both are one step here, the one in which the counters change: no other thread can release the
    buffer before [try_reserve] has returned it, so that nothing that changes the page or
    its counters depends on the moment in between; only a reader of the counters can see them lag behind the bitmask. *)
Definition Page_try_reserve pool (ref : PageRef) (kind : BufferKind) : PagedPool * option PagedBufferPtr :=
  match pp_heap pool !! ref with
  | None => (pool, None)
  | Some page =>
      match consume (page_reserved_bitmask page) with
      | None => (pool, None)
      | Some (index, page_status, bitmask) =>
          let size := pool_buffer_size pool (page_pool page) in
          let heap := <[ref := {| page_reserved_bitmask := bitmask; page_pool := page_pool page |}]> (pp_heap pool) in
          let empty := match page_status with PageEmpty => sps_remove_empty_page | PageNonEmpty => λ s, s end in
          (pp_with_pool pool (page_pool page) (sp_with_stats (λ s, sps_add_reserved_buffer (empty s) kind))
             (PoolStats_reserve_bytes (pp_stats pool) size kind) heap,
           Some {| pb_ptr := index * size; pb_page := ref; pb_kind := kind |})
      end
  end.

(** [Page::release], called when the buffer pointer is dropped. *)
Definition Page_release {E} pool (b : PagedBufferPtr) : outcome E PagedPool :=
  match pp_heap pool !! pb_page b with
  | None => Panic
  | Some page =>
      let size := pool_buffer_size pool (page_pool page) in
      assert! (0 <=? pb_ptr b) && (pb_ptr b <=? (BUFFERS_PER_PAGE - 1) * size) in
      let index := pb_ptr b / size in
      let bitmask := clear_bit (page_reserved_bitmask page) index in
      let heap := <[pb_page b := {| page_reserved_bitmask := bitmask; page_pool := page_pool page |}]> (pp_heap pool) in
      let empty := if bitmask =? 0 then sps_add_empty_page else λ s, s in
      Ok (pp_with_pool pool (page_pool page) (sp_with_stats (λ s, empty (sps_remove_reserved_buffer s (pb_kind b))))
            (PoolStats_release_bytes (pp_stats pool) size (pb_kind b)) heap)
  end.

Definition Page_invalidate_if_empty pool (ref : PageRef) : PagedPool * bool :=
  match pp_heap pool !! ref with
  | None => (pool, false)
  | Some page =>
      if negb (page_reserved_bitmask page =? 0) then (pool, false) else
      (pp_with_pool pool (page_pool page) (sp_with_stats sps_remove_empty_page) (pp_stats pool)
         (<[ref := {| page_reserved_bitmask := FULL_MASK; page_pool := page_pool page |}]> (pp_heap pool)), true)
  end.

(** ** The pool *)

Definition MAX_BUFFER_SIZE : Z := 64 * 1024 * 1024.
Definition DEFAULT_BUFFER_SIZE : Z := 8 * 1024 * 1024.

(** [Vec::dedup]: removes consecutive repeated elements. *)
Fixpoint vec_dedup (l : list Z) : list Z :=
  match l with
  | [] => []
  | x :: l => match l with
              | y :: _ => if x =? y then vec_dedup l else x :: vec_dedup l
              | [] => [x]
              end
  end.

Definition candidate_sizes (buffer_sizes : list Z) : list Z :=
  let ordered_sizes := filter (λ size, 0 < size ∧ size ≤ MAX_BUFFER_SIZE) buffer_sizes in
  let ordered_sizes := vec_dedup ordered_sizes in
  let ordered_sizes := merge_sort Z.le ordered_sizes in
  match ordered_sizes with [] => [DEFAULT_BUFFER_SIZE] | _ => ordered_sizes end.

Definition new_with_candidate_sizes (buffer_sizes : list Z) : PagedPool :=
  {| pp_ordered_size_pools :=
       map (λ size, {| sp_pages := []; sp_stats := SizePoolStats_new size |}) (candidate_sizes buffer_sizes);
     pp_stats := PoolStats_default; pp_heap := ∅; pp_next := 0 |}.

(** [partition_point(|p| p.buffer_size < size)] on a sorted vector. *)
Fixpoint partition_point (size : Z) (pools : list SizePool) : nat :=
  match pools with
  | [] => 0
  | sp :: pools => if sps_buffer_size (sp_stats sp) <? size then S (partition_point size pools) else 0
  end.

Definition get_pool_for_size pool (size : Z) : option nat :=
  if size =? 0 then None else
  let index := partition_point size (pp_ordered_size_pools pool) in
  if (index =? length (pp_ordered_size_pools pool))%nat then None else Some index.

(** [pages.find_map(|page| page.try_reserve(kind))] *)
Fixpoint try_get_buffer_ptr pool (pages : list PageRef) (kind : BufferKind) : PagedPool * option PagedBufferPtr :=
  match pages with
  | [] => (pool, None)
  | ref :: pages =>
      match Page_try_reserve pool ref kind with
      | (pool, Some b) => (pool, Some b)
      | (pool, None) => try_get_buffer_ptr pool pages kind
      end
  end.

(** [Page::new] followed by the push of the slow path: a page of pool [k] with an empty bitmask. *)
Definition Page_new pool (k : nat) : PagedPool * PageRef :=
  let ref := pp_next pool in
  ({| pp_ordered_size_pools :=
        alter (λ sp, {| sp_pages := sp_pages sp ++ [ref]; sp_stats := sps_add_empty_page (sp_stats sp) |}) k
          (pp_ordered_size_pools pool);
      pp_stats := pp_stats pool;
      pp_heap := <[ref := {| page_reserved_bitmask := 0; page_pool := k |}]> (pp_heap pool);
      pp_next := S ref |}, ref).

Definition pool_pages pool (k : nat) : list PageRef :=
  match pp_ordered_size_pools pool !! k with Some sp => sp_pages sp | None => [] end.

(** [SizePool::reserve]; the new page is pushed before its first buffer is
    taken here, which no other thread can see under the write lock. *)
Definition SizePool_reserve {E} pool (k : nat) (kind : BufferKind) : outcome E (PagedPool * PagedBufferPtr) :=
  match try_get_buffer_ptr pool (pool_pages pool k) kind with
  | (pool, Some b) => Ok (pool, b)
  | (pool, None) =>
      match try_get_buffer_ptr pool (pool_pages pool k) kind with
      | (pool, Some b) => Ok (pool, b)
      | (pool, None) =>
          let '(pool, ref) := Page_new pool k in
          match Page_try_reserve pool ref kind with
          | (pool, Some b) => Ok (pool, b)
          | (_, None) => Panic
          end
      end
  end.

Definition PoolBuffer_new_primary {E} pool (b : PagedBufferPtr) (size : Z) : outcome E PoolBuffer :=
  let buffer_size := match pp_heap pool !! pb_page b with Some page => pool_buffer_size pool (page_pool page) | None => 0 end in
  assert! size <=? buffer_size in Ok (Primary b size).

Definition PagedPool_get_buffer {E} pool (size : Z) (kind : BufferKind) : outcome E (PagedPool * PoolBuffer) :=
  match get_pool_for_size pool size with
  | Some k =>
      let! '(pool, b) := SizePool_reserve pool k kind in
      let! buffer := PoolBuffer_new_primary pool b size in
      Ok (pool, buffer)
  | None =>
      Ok ({| pp_ordered_size_pools := pp_ordered_size_pools pool;
             pp_stats := PoolStats_reserve_bytes (pp_stats pool) size kind;
             pp_heap := pp_heap pool; pp_next := pp_next pool |}, Secondary size kind)
  end.

(** Dropping a buffer: [Drop for PagedBufferPtr] or [Drop for FreeBuffer]. *)
Definition PoolBuffer_drop {E} pool (buffer : PoolBuffer) : outcome E PagedPool :=
  match buffer with
  | Primary b _ => Page_release pool b
  | Secondary size kind =>
      Ok {| pp_ordered_size_pools := pp_ordered_size_pools pool;
            pp_stats := PoolStats_release_bytes (pp_stats pool) size kind;
            pp_heap := pp_heap pool; pp_next := pp_next pool |}
  end.

(** [write.retain(|p| !p.invalidate_if_empty())] *)
Fixpoint retain_pages pool (pages : list PageRef) : PagedPool * list PageRef :=
  match pages with
  | [] => (pool, [])
  | ref :: pages =>
      let '(pool, invalidated) := Page_invalidate_if_empty pool ref in
      let '(pool, kept) := retain_pages pool pages in
      (pool, if invalidated then kept else ref :: kept)
  end.

Definition trim_size_pool pool (k : nat) : PagedPool * bool :=
  match pp_ordered_size_pools pool !! k with
  | None => (pool, false)
  | Some sp =>
      if sps_empty_pages (sp_stats sp) =? 0 then (pool, false) else
      let '(pool, kept) := retain_pages pool (sp_pages sp) in
      (pp_with_pool pool k (λ sp, {| sp_pages := kept; sp_stats := sp_stats sp |}) (pp_stats pool) (pp_heap pool),
       negb (length kept =? length (sp_pages sp))%nat)
  end.

Fixpoint trim_pools pool (ks : list nat) : PagedPool * bool :=
  match ks with
  | [] => (pool, false)
  | k :: ks =>
      let '(pool, removed) := trim_size_pool pool k in
      let '(pool, removed') := trim_pools pool ks in
      (pool, removed || removed')
  end.
Definition PagedPool_trim pool : PagedPool * bool :=
  trim_pools pool (seq 0 (length (pp_ordered_size_pools pool))).

(** ** Mutable buffers *)

(** [PoolBufferMut]: the memory of its buffer and the length written so far. *)
Record PoolBufferMut := { pbm_buffer : bytes; pbm_len : Z }.

Definition PoolBufferMut_capacity (b : PoolBufferMut) : Z := zlen (pbm_buffer b).
Definition PoolBufferMut_is_full (b : PoolBufferMut) : bool := pbm_len b =? PoolBufferMut_capacity b.
Definition PoolBufferMut_is_empty (b : PoolBufferMut) : bool := pbm_len b =? 0.
(** [Deref] *)
Definition PoolBufferMut_data (b : PoolBufferMut) : bytes := ztake (pbm_len b) (pbm_buffer b).

(** Returns the buffer and the overflowing subslice; [split_off] and the slice index can panic. *)
Definition append_from_slice {E} (b : PoolBufferMut) (slice : bytes) : outcome E (PoolBufferMut * bytes) :=
  let available := wsub (PoolBufferMut_capacity b) (pbm_len b) in
  let at_ := Z.min available (zlen slice) in
  let overflow := zdrop at_ slice in
  let slice := ztake at_ slice in
  let new_len := wadd (pbm_len b) (zlen slice) in
  assert! (pbm_len b <=? new_len) && (new_len <=? PoolBufferMut_capacity b) in
  Ok ({| pbm_buffer := ztake (pbm_len b) (pbm_buffer b) ++ slice ++ zdrop new_len (pbm_buffer b); pbm_len := new_len |},
      overflow).

(** [read_exact] into the free space; [None] is an early end of file.  On an
    error the free space holds some bytes of the reader and the length is unchanged. *)
Definition fill_from_reader (b : PoolBufferMut) (reader : bytes) : PoolBufferMut * outcome string bytes :=
  let available := PoolBufferMut_capacity b - pbm_len b in
  let read := ztake available reader in
  let buffer := ztake (pbm_len b) (pbm_buffer b) ++ read ++ zdrop (pbm_len b + zlen read) (pbm_buffer b) in
  if zlen reader <? available then ({| pbm_buffer := buffer; pbm_len := pbm_len b |}, Err "failed to fill whole buffer")
  else ({| pbm_buffer := buffer; pbm_len := PoolBufferMut_capacity b |}, Ok (zdrop available reader)).

(** [pool.get_buffer_mut(size)]: a buffer of that capacity, whose memory is overwritten before it is read *)
Definition pool_buffer (size : Z) : PoolBufferMut := {| pbm_buffer := replicate (Z.to_nat size) x00; pbm_len := 0 |}.

(** ** Bit masks *)

Lemma land_bit m i : 0 ≤ i → (Z.land m (Z.shiftl 1 i) =? 0) = negb (Z.testbit m i).
Proof.
  intros Hi. rewrite Z.shiftl_1_l. destruct (Z.testbit m i) eqn:Hb; simpl.
  - apply Z.eqb_neq. intros H0. apply (f_equal (λ x, Z.testbit x i)) in H0.
    by rewrite Z.land_spec, Hb, Z.pow2_bits_true, Z.bits_0 in H0.
  - apply Z.eqb_eq. apply Z.bits_inj'. intros n Hn. rewrite Z.land_spec, Z.pow2_bits_eqb, Z.bits_0 by lia.
    destruct (Z.eqb_spec i n) as [->|]; [by rewrite Hb|by rewrite andb_false_r].
Qed.

Lemma u16_bits x : 0 ≤ x < 65536 ↔ 0 ≤ x ∧ ∀ n, 16 ≤ n → Z.testbit x n = false.
Proof.
  split.
  - intros [H0 Hlt]. split; [done|]. intros n Hn. rewrite <- (Z.mod_small x (2 ^ 16)) by lia.
    apply Z.mod_pow2_bits_high. lia.
  - intros [H0 Hb]. split; [done|]. replace x with (x `mod` 2 ^ 16); [by apply Z.mod_pos_bound|].
    apply Z.bits_inj'. intros n Hn. destruct (Z.lt_ge_cases n 16).
    + by apply Z.mod_pow2_bits_low.
    + rewrite Z.mod_pow2_bits_high by lia. by rewrite Hb.
Qed.

Lemma lor_bit m i j : 0 ≤ i → 0 ≤ j → Z.testbit (Z.lor m (Z.shiftl 1 i)) j = Z.testbit m j || (i =? j).
Proof. intros. by rewrite Z.lor_spec, Z.shiftl_1_l, Z.pow2_bits_eqb. Qed.

Lemma lor_bit_u16 m i : 0 ≤ m < 65536 → 0 ≤ i < 16 → 0 ≤ Z.lor m (Z.shiftl 1 i) < 65536.
Proof.
  intros Hm Hi. apply u16_bits. apply u16_bits in Hm as [H0 Hb]. split.
  - apply Z.lor_nonneg. rewrite Z.shiftl_1_l. split; [done|]. apply Z.pow_nonneg. lia.
  - intros n Hn. rewrite lor_bit, Hb by lia. simpl. apply Z.eqb_neq. lia.
Qed.

Lemma clear_bit_spec m i j : 0 ≤ i < 16 → 0 ≤ j < 16 → Z.testbit (clear_bit m i) j = Z.testbit m j && negb (i =? j).
Proof.
  intros. unfold clear_bit. rewrite Z.land_spec, Z.lxor_spec, Z.shiftl_1_l, Z.pow2_bits_eqb by lia.
  change FULL_MASK with (Z.ones 16). by rewrite Z.ones_spec_low by lia.
Qed.

Lemma clear_bit_u16 m i : 0 ≤ m < 65536 → 0 ≤ clear_bit m i < 65536.
Proof.
  intros [H0 Hb]%u16_bits. apply u16_bits. unfold clear_bit. split; [apply Z.land_nonneg; by left|].
  intros n Hn. by rewrite Z.land_spec, Hb.
Qed.

Lemma consume_from_spec n idx m :
  0 ≤ idx →
  match consume_from n idx m with
  | Some (i, m') => idx ≤ i < idx + Z.of_nat n ∧ Z.testbit m i = false ∧ m' = Z.lor m (Z.shiftl 1 i)
  | None => ∀ i, idx ≤ i < idx + Z.of_nat n → Z.testbit m i = true
  end.
Proof.
  revert idx. induction n as [|n IH]; intros idx Hidx; cbn [consume_from]; [intros i; lia|].
  rewrite land_bit by done. destruct (Z.testbit m idx) eqn:Hb; cbn [negb].
  - specialize (IH (idx + 1) ltac:(lia)). destruct (consume_from n (idx + 1) m) as [[i m']|].
    + destruct IH as (?&?&?). split_and!; done || lia.
    + intros i Hi. destruct (decide (i = idx)) as [->|]; [done|]. apply IH. lia.
  - split_and!; done || lia.
Qed.

(** [consume] takes a free buffer, and fails only on a full page. *)
Lemma consume_spec m :
  0 ≤ m < 65536 →
  match consume m with
  | Some (i, status, m') => 0 ≤ i < 16 ∧ Z.testbit m i = false ∧ m' = Z.lor m (Z.shiftl 1 i) ∧
      match status with PageEmpty => m = 0 | PageNonEmpty => m ≠ 0 end
  | None => ∀ i, 0 ≤ i < 16 → Z.testbit m i = true
  end.
Proof.
  intros Hm. unfold consume. destruct (Z.eqb_spec m FULL_MASK) as [->|Hne]; cbn [negb].
  - intros i Hi. change FULL_MASK with (Z.ones 16). by rewrite Z.ones_spec_low by lia.
  - pose proof (consume_from_spec 16 0 m ltac:(lia)) as Hc. destruct (consume_from 16 0 m) as [[i m']|].
    + destruct Hc as (?&?&?). split_and!; try done; try lia. by destruct (Z.eqb_spec m 0).
    + intros i Hi. apply Hc. lia.
Qed.

(** ** The invariant of pool and live buffers *)

Definition live_ptr (b : PoolBuffer) : option PagedBufferPtr :=
  match b with Primary p _ => Some p | Secondary _ _ => None end.
(** The memory that live primary buffers occupy: page and byte offset in it. *)
Definition slots (live : list PoolBuffer) : list (PageRef * Z) :=
  (λ p, (pb_page p, pb_ptr p)) <$> omap live_ptr live.

Definition page_empty (heap : gmap PageRef PageInner) (ref : PageRef) : Z :=
  match heap !! ref with Some page => if page_reserved_bitmask page =? 0 then 1 else 0 | None => 0 end.

(** Bytes that a live buffer counts for. *)
Definition buffer_bytes pool (kind : BufferKind) (b : PoolBuffer) : Z :=
  match b with
  | Primary p _ =>
      if bool_decide (pb_kind p = kind) then
        match pp_heap pool !! pb_page p with Some page => pool_buffer_size pool (page_pool page) | None => 0 end
      else 0
  | Secondary size k => if bool_decide (k = kind) then size else 0
  end.

Definition pool_empty_pages pool (k : nat) : Z :=
  match pp_ordered_size_pools pool !! k with Some sp => sps_empty_pages (sp_stats sp) | None => 0 end.

(** [pg k] are the pages of size pool [k]. *)
Record pinv pool (pg : nat → list PageRef) (live : list PoolBuffer) : Prop := {
  pinv_size k : (k < length (pp_ordered_size_pools pool))%nat → 0 < pool_buffer_size pool k;
  pinv_page k ref : ref ∈ pg k →
    (k < length (pp_ordered_size_pools pool))%nat ∧ (ref < pp_next pool)%nat ∧
    ∃ m, pp_heap pool !! ref = Some {| page_reserved_bitmask := m; page_pool := k |} ∧ 0 ≤ m < 65536 ∧
      ∀ i, 0 ≤ i < 16 → Z.testbit m i = true ↔ (ref, i * pool_buffer_size pool k) ∈ slots live;
  pinv_live ref x : (ref, x) ∈ slots live → ∃ k i, ref ∈ pg k ∧ 0 ≤ i < 16 ∧ x = i * pool_buffer_size pool k;
  pinv_nodup : NoDup (slots live);
  pinv_pages k : NoDup (pg k);
  pinv_empty k : (k < length (pp_ordered_size_pools pool))%nat →
    pool_empty_pages pool k = wrap64 (zsum (page_empty (pp_heap pool)) (pg k));
  pinv_bytes kind : reserved_bytes (pp_stats pool) kind = wrap64 (zsum (buffer_bytes pool kind) live);
}.

Definition pool_inv pool (live : list PoolBuffer) : Prop := pinv pool (pool_pages pool) live.

Lemma slots_cons_primary p size live : slots (Primary p size :: live) = (pb_page p, pb_ptr p) :: slots live.
Proof. done. Qed.
Lemma slots_app l1 l2 : slots (l1 ++ l2) = slots l1 ++ slots l2.
Proof. unfold slots. by rewrite omap_app, fmap_app. Qed.

Lemma pool_buffer_size_stats pool k k' f stats heap :
  (∀ s, sps_buffer_size (f s) = sps_buffer_size s) →
  pool_buffer_size (pp_with_pool pool k (sp_with_stats f) stats heap) k' = pool_buffer_size pool k'.
Proof.
  intros Hf. unfold pool_buffer_size; simpl. destruct (decide (k' = k)) as [->|].
  - rewrite list_lookup_alter_eq. destruct (_ !! k); simpl; [apply Hf|done].
  - by rewrite list_lookup_alter_ne.
Qed.

Lemma pool_pages_stats pool k k' f stats heap :
  pool_pages (pp_with_pool pool k (sp_with_stats f) stats heap) k' = pool_pages pool k'.
Proof.
  unfold pool_pages; simpl. destruct (decide (k' = k)) as [->|].
  - rewrite list_lookup_alter_eq. by destruct (_ !! k).
  - by rewrite list_lookup_alter_ne.
Qed.

Lemma zsum_ext {A} (f g : A → Z) l : (∀ x, x ∈ l → f x = g x) → zsum f l = zsum g l.
Proof.
  induction l as [|x l IH]; intros H; simpl; [done|]. rewrite (H x), IH; [done|..]; [intros; apply H; by right|left].
Qed.

(** Changing the value of one member of a duplicate-free list. *)
Lemma zsum_change {A} `{EqDecision A} (f g : A → Z) l a :
  NoDup l → a ∈ l → (∀ x, x ≠ a → g x = f x) → zsum g l = zsum f l + (g a - f a).
Proof.
  intros Hnd Hin Hfg. induction Hnd as [|x l Hx Hnd IH]; [by apply not_elem_of_nil in Hin|]. simpl.
  destruct (decide (x = a)) as [->|Hne].
  - rewrite (zsum_ext g f l); [lia|]. intros y Hy. apply Hfg. by intros ->.
  - rewrite Hfg by done. apply elem_of_cons in Hin as [?|?]; [congruence|]. rewrite IH by done. lia.
Qed.

(** Updating the bitmask of one page together with the statistics and the live buffers. *)
Lemma pinv_set_page pool pg live live' k ref m m' f stats :
  pinv pool pg live → ref ∈ pg k → pp_heap pool !! ref = Some {| page_reserved_bitmask := m; page_pool := k |} →
  (∀ s, sps_buffer_size (f s) = sps_buffer_size s) → 0 ≤ m' < 65536 →
  (∀ i, 0 ≤ i < 16 → Z.testbit m' i = true ↔ (ref, i * pool_buffer_size pool k) ∈ slots live') →
  (∀ ref' x, ref' ≠ ref → (ref', x) ∈ slots live' ↔ (ref', x) ∈ slots live) →
  (∀ x, (ref, x) ∈ slots live' → ∃ i, 0 ≤ i < 16 ∧ x = i * pool_buffer_size pool k) →
  NoDup (slots live') →
  (∀ s, is_u64 (sps_empty_pages s) →
    sps_empty_pages (f s) = wrap64 (sps_empty_pages s + ((if m' =? 0 then 1 else 0) - (if m =? 0 then 1 else 0)))) →
  (∀ kind, reserved_bytes stats kind = wrap64 (zsum (buffer_bytes pool kind) live')) →
  pinv (pp_with_pool pool k (sp_with_stats f) stats
          (<[ref := {| page_reserved_bitmask := m'; page_pool := k |}]> (pp_heap pool))) pg live'.
Proof.
  intros Hinv Hin Href Hf Hm' Hbits Hother Hslot Hnd Hempty Hbytes.
  pose proof Hinv as [Hsz Hpg Hlive _ Hpages Hep _].
  split; cbn [pp_with_pool pp_ordered_size_pools pp_stats pp_heap pp_next]; rewrite ?length_alter.
  - intros k' Hk'. rewrite pool_buffer_size_stats by done. by apply Hsz.
  - intros k' ref' Hin'. destruct (Hpg k' ref' Hin') as (Hk' & Hn' & m0 & Hl & Hm0 & Hb0). split_and!; try done.
    rewrite pool_buffer_size_stats by done. destruct (decide (ref' = ref)) as [->|Hne].
    + rewrite Href in Hl. injection Hl as -> <-. exists m'. by rewrite lookup_insert_eq.
    + exists m0. rewrite lookup_insert_ne by done. split; [done|]. split; [done|]. intros i Hi. rewrite Hother by done. by apply Hb0.
  - intros ref' x Hx. destruct (decide (ref' = ref)) as [->|Hne].
    + destruct (Hslot x Hx) as (i & Hi & ->). exists k, i. by rewrite pool_buffer_size_stats.
    + apply Hother in Hx; [|done]. destruct (Hlive ref' x Hx) as (k' & i & ? & ? & ->). exists k', i.
      by rewrite pool_buffer_size_stats.
  - done.
  - done.
  - intros k' Hk'. specialize (Hep k' Hk'). destruct (decide (k' = k)) as [->|Hne].
    + rewrite (zsum_change (page_empty (pp_heap pool)) _ _ ref);
        [|done|done|intros y Hy; unfold page_empty; by rewrite lookup_insert_ne].
      unfold pool_empty_pages in *; simpl. rewrite list_lookup_alter_eq.
      destruct (pp_ordered_size_pools pool !! k) as [sp|] eqn:Hsp; [|by apply lookup_ge_None in Hsp; lia].
      simpl. rewrite Hempty, Hep by (rewrite Hep; apply wrap64_is_u64). unfold page_empty. rewrite Href, lookup_insert_eq. simpl.
      autorewrite with wrap64. done.
    + rewrite (zsum_ext _ (page_empty (pp_heap pool))).
      * unfold pool_empty_pages in *; simpl. by rewrite list_lookup_alter_ne.
      * intros y Hy. unfold page_empty. rewrite lookup_insert_ne; [done|]. intros ->.
        destruct (Hpg k' _ Hy) as (_ & _ & ? & Hl & _). rewrite Href in Hl. congruence.
  - intros kind. rewrite Hbytes. f_equal. apply zsum_ext. intros b _. unfold buffer_bytes. destruct b as [p sz|]; [|done].
    case_bool_decide; [|done]. simpl. destruct (decide (pb_page p = ref)) as [->|].
    + rewrite lookup_insert_eq, Href. simpl. by rewrite pool_buffer_size_stats.
    + rewrite lookup_insert_ne by done. destruct (pp_heap pool !! pb_page p); [|done]. by rewrite pool_buffer_size_stats.
Qed.

Lemma mul_size_inj pool k i j :
  0 < pool_buffer_size pool k → i * pool_buffer_size pool k = j * pool_buffer_size pool k → i = j.
Proof. intros Hs He. apply Z.mul_cancel_r in He; lia. Qed.

(** Reserving from a page of the pool hands out memory that no live buffer occupies. *)
Lemma try_reserve_ok pool pg live k ref kind :
  pinv pool pg live → ref ∈ pg k →
  match Page_try_reserve pool ref kind with
  | (pool', Some p) =>
      (∀ size, pinv pool' pg (Primary p size :: live)) ∧ pb_page p = ref ∧
      (∀ k, pool_pages pool' k = pool_pages pool k) ∧ (∀ k, pool_buffer_size pool' k = pool_buffer_size pool k) ∧
      (∃ page, pp_heap pool' !! ref = Some page ∧ page_pool page = k)
  | (pool', None) => pool' = pool
  end.
Proof.
  intros Hinv Hin. destruct (pinv_page _ _ _ Hinv k ref Hin) as (Hk & Hn & m & Hl & Hm & Hbits).
  unfold Page_try_reserve. rewrite Hl. cbn [page_reserved_bitmask page_pool].
  pose proof (consume_spec m Hm) as Hc. destruct (consume m) as [[[i status] m']|]; [|done].
  destruct Hc as (Hi & Hfree & -> & Hst). pose proof (pinv_size _ _ _ Hinv k Hk) as Hs.
  assert ((ref, i * pool_buffer_size pool k) ∉ slots live) as Hnew by (rewrite <- Hbits by done; congruence).
  split; [|split; [done|split; [intros; apply pool_pages_stats|split;
    [intros; apply pool_buffer_size_stats; by destruct status|simpl; rewrite lookup_insert_eq; by eexists]]]].
  intros size. eapply pinv_set_page; try done; rewrite ?slots_cons_primary.
  - by intros s; destruct status.
  - by apply lor_bit_u16.
  - intros j Hj. rewrite lor_bit, orb_true_iff, Hbits, elem_of_cons, Z.eqb_eq by lia. simpl.
    split; [intros [?| ->]; auto|]. intros [[= He]|?]; [|by left]. right. symmetry. by apply (mul_size_inj pool k).
  - intros ref' x Hne. rewrite elem_of_cons. simpl. naive_solver.
  - intros x. rewrite elem_of_cons. simpl. intros [[= ->]|Hx]; [by exists i|].
    destruct (pinv_live _ _ _ Hinv _ _ Hx) as (k' & j & Hin' & Hj & ->).
    destruct (pinv_page _ _ _ Hinv _ _ Hin') as (_ & _ & ? & Hl' & _). rewrite Hl in Hl'. injection Hl' as _ <-. by exists j.
  - constructor; [done|]. apply (pinv_nodup _ _ _ Hinv).
  - intros s Hu. assert ((Z.lor m (Z.shiftl 1 i) =? 0) = false) as ->.
    { apply Z.eqb_neq. intros H0. apply (f_equal (λ x, Z.testbit x i)) in H0.
      rewrite lor_bit, Z.eqb_refl, orb_true_r, Z.bits_0 in H0 by lia. done. }
    destruct status; simpl; [by subst|]. rewrite (proj2 (Z.eqb_neq _ _)) by done. by rewrite Z.add_0_r, wrap64_small.
  - intros kd. simpl. pose proof (pinv_bytes _ _ _ Hinv kd) as Hb. rewrite Hl. simpl. destruct (decide (kind = kd)) as [->|].
    + rewrite fn_lookup_insert, bool_decide_eq_true_2, Hb by done. unfold wadd. autorewrite with wrap64. f_equal. lia.
    + rewrite fn_lookup_insert_ne, bool_decide_eq_false_2, Hb by done. done.
Qed.

(** Dropping a live buffer frees its memory and nothing else. *)
Lemma release_ok {E} pool pg l1 l2 p size :
  pinv pool pg (l1 ++ Primary p size :: l2) →
  ∃ pool', Page_release (E:=E) pool p = Ok pool' ∧ pinv pool' pg (l1 ++ l2) ∧
    (∀ k, pool_pages pool' k = pool_pages pool k) ∧ (∀ k, pool_buffer_size pool' k = pool_buffer_size pool k).
Proof.
  intros Hinv. set (live := l1 ++ Primary p size :: l2) in *.
  assert (slots live ≡ₚ (pb_page p, pb_ptr p) :: slots (l1 ++ l2)) as Hperm.
  { unfold live. rewrite !slots_app, slots_cons_primary. by rewrite Permutation_middle. }
  assert ((pb_page p, pb_ptr p) ∈ slots live) as Hp by (rewrite Hperm; left).
  destruct (pinv_live _ _ _ Hinv _ _ Hp) as (k & i & Hin & Hi & Hptr).
  destruct (pinv_page _ _ _ Hinv k _ Hin) as (Hk & Hn & m & Hl & Hm & Hbits). pose proof (pinv_size _ _ _ Hinv k Hk) as Hs.
  pose proof (pinv_nodup _ _ _ Hinv) as Hnd. rewrite Hperm in Hnd. apply NoDup_cons in Hnd as [Hnotin Hnd].
  unfold Page_release. rewrite Hl. cbn [page_reserved_bitmask page_pool].
  rewrite Hptr, !(proj2 (Z.leb_le _ _)) by (unfold BUFFERS_PER_PAGE; nia). cbn [andb]. rewrite Z.div_mul by lia.
  eexists. split; [done|]. set (m' := clear_bit m i).
  split; [|split; intros; [apply pool_pages_stats|apply pool_buffer_size_stats; intros; by destruct (m' =? 0)]].
  assert (∀ j, 0 ≤ j < 16 → Z.testbit m' j = true ↔ (pb_page p, j * pool_buffer_size pool k) ∈ slots (l1 ++ l2)) as Hbits'.
  { intros j Hj. unfold m'. rewrite clear_bit_spec, andb_true_iff, negb_true_iff, Z.eqb_neq, Hbits, Hperm, elem_of_cons, Hptr by lia.
    split; [intros [[[= He]|?] Hne]; [|done]; by apply (mul_size_inj pool k) in He|].
    intros Hj'. split; [by right|]. intros ->. by rewrite Hptr in Hnotin. }
  apply (pinv_set_page pool pg live _ k _ m); try done.
  - intros s. by destruct (m' =? 0).
  - by apply clear_bit_u16.
  - intros ref' x Hne. rewrite Hperm, elem_of_cons. naive_solver.
  - intros x Hx. destruct (pinv_live _ _ _ Hinv (pb_page p) x) as (k' & j & Hin' & Hj & ->); [rewrite Hperm; by right|].
    destruct (pinv_page _ _ _ Hinv _ _ Hin') as (_ & _ & ? & Hl' & _). rewrite Hl in Hl'. injection Hl' as _ <-. by exists j.
  - intros s Hu. assert ((m =? 0) = false) as ->.
    { apply Z.eqb_neq. intros ->. assert (Z.testbit 0 i = true) as Hb by (apply Hbits; [done|by rewrite <- Hptr]).
      by rewrite Z.bits_0 in Hb. }
    destruct (m' =? 0); simpl; [done|]. by rewrite Z.add_0_r, wrap64_small.
  - intros kd. simpl. pose proof (pinv_bytes _ _ _ Hinv kd) as Hb. unfold live in Hb. rewrite zsum_app in *. simpl in Hb.
    rewrite Hl in Hb. simpl in Hb. destruct (decide (pb_kind p = kd)) as [<-|].
    + rewrite bool_decide_eq_true_2 in Hb by done. rewrite fn_lookup_insert, Hb. unfold wsub. autorewrite with wrap64. f_equal. lia.
    + rewrite bool_decide_eq_false_2 in Hb by done. rewrite fn_lookup_insert_ne, Hb by done. done.
Qed.

Lemma pinv_pages_ext pool pg pg' live : (∀ k, pg' k = pg k) → pinv pool pg live → pinv pool pg' live.
Proof.
  intros Hpg [H1 H2 H3 H4 H5 H6 H7]. split; try done; intros k; rewrite ?Hpg; auto.
  intros x Hx. destruct (H3 k x Hx) as (k' & i & ?). exists k', i. by rewrite Hpg.
Qed.

(** A page that was just allocated joins the pool. *)
Lemma Page_new_ok pool live k :
  pool_inv pool live → (k < length (pp_ordered_size_pools pool))%nat →
  let '(pool', ref) := Page_new pool k in
  pool_inv pool' live ∧ ref ∈ pool_pages pool' k ∧ (∀ k, pool_buffer_size pool' k = pool_buffer_size pool k) ∧
  (∃ page, pp_heap pool' !! ref = Some page ∧ page_reserved_bitmask page = 0).
Proof.
  intros Hinv Hk. pose proof Hinv as [Hsz Hpg Hlive Hnd Hpages Hep Hb]. simpl. set (ref := pp_next pool).
  set (pool' := {| pp_next := S ref |}).
  assert (∀ k', pool_buffer_size pool' k' = pool_buffer_size pool k') as Hbs.
  { intros k'. unfold pool_buffer_size; simpl. destruct (decide (k' = k)) as [->|].
    - rewrite list_lookup_alter_eq. by destruct (_ !! k).
    - by rewrite list_lookup_alter_ne. }
  assert (∀ k', pool_pages pool' k' = pool_pages pool k' ++ if decide (k' = k) then [ref] else []) as Hpp.
  { intros k'. unfold pool_pages; simpl. destruct (decide (k' = k)) as [->|].
    - rewrite list_lookup_alter_eq. destruct (_ !! k) eqn:Hl; [done|]. apply lookup_ge_None in Hl. lia.
    - by rewrite list_lookup_alter_ne, app_nil_r by done. }
  assert (∀ k', ref ∉ pool_pages pool k') as Hfresh by (intros k' Hin; apply Hpg in Hin as (_ & ? & _); unfold ref in *; lia).
  assert (∀ x, (ref, x) ∉ slots live) as Hfr.
  { intros x Hx. apply Hlive in Hx as (k' & i & Hin & _). by apply Hfresh in Hin. }
  assert (∀ r, r ≠ ref → pp_heap pool' !! r = pp_heap pool !! r) as Hheap by (intros; simpl; by apply lookup_insert_ne).
  split; [|split; [rewrite Hpp, decide_True by done; set_solver|split; [done|simpl; rewrite lookup_insert_eq; by eexists]]].
  split; cbn [pool' pp_ordered_size_pools pp_stats pp_next]; rewrite ?length_alter.
  - intros k' Hk'. rewrite Hbs. by apply Hsz.
  - intros k' r. rewrite Hpp, elem_of_app. intros [Hin|Hin].
    + destruct (Hpg k' r Hin) as (? & ? & m & Hl & Hm & Hbits). split; [done|]. split; [unfold ref; lia|].
      exists m. rewrite Hheap, Hbs by (intros ->; by apply Hfresh in Hin). done.
    + destruct (decide (k' = k)) as [->|]; [|by apply not_elem_of_nil in Hin]. apply list_elem_of_singleton in Hin as ->.
      split; [done|]. split; [lia|]. exists 0. simpl. rewrite lookup_insert_eq. split; [done|]. split; [lia|].
      intros i Hi. rewrite Z.bits_0. split; [done|]. intros Hx. by apply Hfr in Hx.
  - intros r x Hx. destruct (Hlive r x Hx) as (k' & i & ? & ? & ->). exists k', i. rewrite Hpp, Hbs. set_solver.
  - done.
  - intros k'. rewrite Hpp. apply NoDup_app. split; [apply Hpages|]. split.
    + intros r Hin. case_decide; [|by apply not_elem_of_nil]. rewrite list_elem_of_singleton. intros ->. by apply Hfresh in Hin.
    + case_decide; [apply NoDup_singleton|constructor].
  - intros k' Hk'. assert (page_empty (pp_heap pool') ref = 1) as Hone by (unfold page_empty; simpl; by rewrite lookup_insert_eq).
    rewrite Hpp, zsum_app. rewrite (zsum_ext _ (page_empty (pp_heap pool))).
    2:{ intros r Hin. unfold page_empty. rewrite Hheap; [done|]. intros ->. by apply Hfresh in Hin. }
    specialize (Hep k' Hk'). unfold pool_empty_pages in *. cbn [pool' pp_ordered_size_pools]. destruct (decide (k' = k)) as [->|].
    + rewrite list_lookup_alter_eq. destruct (_ !! k) eqn:Hl; [|by apply lookup_ge_None in Hl; lia]. cbn [fmap option_fmap option_map zsum].
      rewrite Hone. simpl in *. rewrite Hep. unfold wadd. autorewrite with wrap64. done.
    + rewrite list_lookup_alter_ne, Hep by done. simpl. f_equal. lia.
  - intros kind. rewrite Hb. f_equal. apply zsum_ext. intros b Hin. unfold buffer_bytes. destruct b as [p sz|]; [|done].
    rewrite Hheap; [case_bool_decide; [|done]; destruct (pp_heap pool !! pb_page p); [by rewrite Hbs|done]|].
    intros He. apply (Hfr (pb_ptr p)). rewrite <- He. unfold slots. apply list_elem_of_fmap. exists p. split; [done|].
    apply list_elem_of_omap. by exists (Primary p sz).
Qed.

(** An empty page leaves the pool. *)
Lemma invalidate_ok pool pg live k ref pre post :
  pinv pool pg live → pg k = pre ++ ref :: post →
  let '(pool', invalidated) := Page_invalidate_if_empty pool ref in
  pinv pool' (if invalidated then <[k := pre ++ post]> pg else pg) live ∧
  (∀ k, pool_pages pool' k = pool_pages pool k ∧ pool_buffer_size pool' k = pool_buffer_size pool k) ∧
  length (pp_ordered_size_pools pool') = length (pp_ordered_size_pools pool).
Proof.
  intros Hinv Hpk. assert (ref ∈ pg k) as Hin by (rewrite Hpk; set_solver).
  pose proof Hinv as [Hsz Hpg Hlive Hnd Hpages Hep Hb].
  destruct (Hpg k ref Hin) as (Hk & Hn & m & Hl & Hm & Hbits). unfold Page_invalidate_if_empty. rewrite Hl. simpl.
  destruct (Z.eqb_spec m 0) as [->|]; simpl; [|done].
  split; [|split; [intros; split; [apply pool_pages_stats|by apply pool_buffer_size_stats]|by rewrite length_alter]].
  assert (NoDup (pre ++ post) ∧ ref ∉ pre ++ post) as [Hnd' Hnin].
  { specialize (Hpages k). rewrite Hpk in Hpages. rewrite <- Permutation_middle in Hpages.
    apply NoDup_cons in Hpages. tauto. }
  assert (∀ x, (ref, x) ∉ slots live) as Hfr.
  { intros x Hx. destruct (Hlive ref x Hx) as (k' & i & Hin' & Hi & ->).
    destruct (Hpg _ _ Hin') as (_ & _ & ? & Hl' & _). rewrite Hl in Hl'. injection Hl' as _ <-.
    apply Hbits in Hx; [|done]. by rewrite Z.bits_0 in Hx. }
  assert (∀ k' r, r ∈ (<[k := pre ++ post]> pg : nat → list PageRef) k' ↔ r ∈ pg k' ∧ r ≠ ref) as Hsub.
  { intros k' r. destruct (decide (k = k')) as [<-|].
    - rewrite fn_lookup_insert, Hpk. set_solver.
    - rewrite fn_lookup_insert_ne by done. split; [|tauto]. intros Hin'. split; [done|]. intros ->.
      destruct (Hpg _ _ Hin') as (_ & _ & ? & Hl' & _). congruence. }
  split; cbn [pp_with_pool pp_ordered_size_pools pp_stats pp_heap pp_next]; rewrite ?length_alter.
  - intros k' Hk'. rewrite pool_buffer_size_stats by done. by apply Hsz.
  - intros k' r [Hin' Hne]%Hsub. destruct (Hpg k' r Hin') as (? & ? & m & Hl' & ? & ?). split; [done|]. split; [done|].
    exists m. rewrite lookup_insert_ne, pool_buffer_size_stats by done. done.
  - intros r x Hx. destruct (Hlive r x Hx) as (k' & i & ? & ? & ->). exists k', i. rewrite pool_buffer_size_stats, Hsub by done.
    split; [|done]. split; [done|]. intros ->. by apply Hfr in Hx.
  - done.
  - intros k'. destruct (decide (k = k')) as [<-|]; [by rewrite fn_lookup_insert|by rewrite fn_lookup_insert_ne].
  - intros k' Hk'. specialize (Hep k' Hk'). rewrite (zsum_ext _ (page_empty (pp_heap pool))).
    2:{ intros r [_ Hne]%Hsub. unfold page_empty. by rewrite lookup_insert_ne. }
    unfold pool_empty_pages in *; simpl. destruct (decide (k = k')) as [<-|].
    + rewrite list_lookup_alter_eq, fn_lookup_insert. destruct (_ !! k) eqn:Hlk; [|by apply lookup_ge_None in Hlk; lia]. simpl.
      simpl in Hep. rewrite Hep, Hpk, !zsum_app. simpl. unfold page_empty at 2, wsub. rewrite Hl. simpl.
      autorewrite with wrap64. f_equal. lia.
    + by rewrite list_lookup_alter_ne, fn_lookup_insert_ne, Hep.
  - intros kind. rewrite Hb. f_equal. apply zsum_ext. intros b _. unfold buffer_bytes. destruct b as [p sz|]; [|done].
    case_bool_decide; [|done]. simpl. destruct (decide (pb_page p = ref)) as [->|].
    + rewrite lookup_insert_eq, Hl. simpl. by rewrite pool_buffer_size_stats.
    + rewrite lookup_insert_ne by done. destruct (pp_heap pool !! pb_page p); [|done]. by rewrite pool_buffer_size_stats.
Qed.

Lemma fn_insert_same {A} `{EqDecision A} {B} (f : A → B) a b : f a = b → ∀ x, (<[a := b]> f : A → B) x = f x.
Proof. intros <- x. destruct (decide (a = x)) as [<-|]; [by rewrite fn_lookup_insert|by rewrite fn_lookup_insert_ne]. Qed.

Lemma fn_insert_insert {A} `{EqDecision A} {B} (f : A → B) a b c x : (<[a := c]> (<[a := b]> f) : A → B) x = (<[a := c]> f : A → B) x.
Proof. destruct (decide (a = x)) as [<-|]; [by rewrite !fn_lookup_insert|by rewrite !fn_lookup_insert_ne]. Qed.

Definition nonempty_page (heap : gmap PageRef PageInner) (ref : PageRef) : Prop := page_empty heap ref = 0.
#[local] Instance nonempty_page_dec heap ref : Decision (nonempty_page heap ref).
Proof. unfold nonempty_page. apply _. Defined.

Lemma filter_ext_in {A} (P Q : A → Prop) `{∀ x, Decision (P x), ∀ x, Decision (Q x)} (l : list A) :
  (∀ x, x ∈ l → P x ↔ Q x) → filter P l = filter Q l.
Proof.
  induction l as [|x l IH]; intros HPQ; [done|]. rewrite !filter_cons, IH by (intros; apply HPQ; by right).
  destruct (HPQ x) as [??]; [left|]. do 2 case_decide; tauto.
Qed.

(** [retain] keeps the pages that have a reserved buffer. *)
Lemma retain_pages_ok pool pg live k pre pages :
  pinv pool pg live → pg k = pre ++ pages →
  let '(pool', kept) := retain_pages pool pages in
  pinv pool' (<[k := pre ++ kept]> pg) live ∧ kept = filter (nonempty_page (pp_heap pool)) pages ∧
  (∀ k, pool_pages pool' k = pool_pages pool k ∧ pool_buffer_size pool' k = pool_buffer_size pool k) ∧
  length (pp_ordered_size_pools pool') = length (pp_ordered_size_pools pool).
Proof.
  revert pool pg pre. induction pages as [|ref pages IH]; intros pool pg pre Hinv Hpk; simpl.
  { split; [|done]. eapply pinv_pages_ext; [|done]. by apply fn_insert_same. }
  pose proof (invalidate_ok pool pg live k ref pre pages Hinv Hpk) as Hstep.
  assert (ref ∈ pg k) as Hin by (rewrite Hpk; set_solver).
  destruct (pinv_page _ _ _ Hinv k ref Hin) as (_ & _ & m & Hl & _).
  pose proof (pinv_pages _ _ _ Hinv k) as Hndk. rewrite Hpk in Hndk. apply NoDup_app in Hndk as (_ & _ & Hndk).
  apply NoDup_cons in Hndk as [Hnin _].
  destruct (Page_invalidate_if_empty pool ref) as [pool1 inv] eqn:Hi. destruct Hstep as (Hinv1 & Hpp1 & Hlen1).
  assert (inv = bool_decide (¬ nonempty_page (pp_heap pool) ref) ∧ (∀ r, r ≠ ref → pp_heap pool1 !! r = pp_heap pool !! r)) as [Hiv Hh].
  { assert (page_empty (pp_heap pool) ref = if m =? 0 then 1 else 0) as Hpe by (unfold page_empty; by rewrite Hl).
    unfold Page_invalidate_if_empty in Hi. rewrite Hl in Hi. simpl in Hi.
    destruct (Z.eqb_spec m 0); simpl in Hi; injection Hi as <- <-; (split; [symmetry|]).
    - apply bool_decide_eq_true_2. unfold nonempty_page. by rewrite Hpe.
    - intros r Hr. simpl. by apply lookup_insert_ne.
    - apply bool_decide_eq_false_2. unfold nonempty_page. rewrite Hpe. tauto.
    - done. }
  assert (filter (nonempty_page (pp_heap pool1)) pages = filter (nonempty_page (pp_heap pool)) pages) as Hfil.
  { apply filter_ext_in. intros r Hr. unfold nonempty_page, page_empty. rewrite Hh; [done|]. by intros ->. }
  destruct inv.
  - specialize (IH pool1 _ pre Hinv1 (fn_lookup_insert _ _ _)). destruct (retain_pages pool1 pages) as [pool2 kept].
    destruct IH as (Hinv2 & Hk2 & Hpp2 & Hlen2). split_and!.
    + eapply pinv_pages_ext; [|exact Hinv2]. intros x. symmetry. apply fn_insert_insert.
    + rewrite filter_cons_False by (by symmetry in Hiv; apply bool_decide_eq_true in Hiv). congruence.
    + intros x. destruct (Hpp1 x), (Hpp2 x). split; congruence.
    + congruence.
  - specialize (IH pool1 pg (pre ++ [ref]) Hinv1 ltac:(by rewrite <- app_assoc)). destruct (retain_pages pool1 pages) as [pool2 kept].
    destruct IH as (Hinv2 & Hk2 & Hpp2 & Hlen2). rewrite <- app_assoc in Hinv2. split_and!; try done.
    + rewrite filter_cons_True; [congruence|]. symmetry in Hiv. apply bool_decide_eq_false in Hiv. by apply dec_stable.
    + intros x. destruct (Hpp1 x), (Hpp2 x). split; congruence.
    + congruence.
Qed.

(** [pinv] looks at a size pool only through its buffer size and its counter of empty pages. *)
Lemma pinv_pool_ext pool pool' pg live :
  pinv pool pg live → length (pp_ordered_size_pools pool') = length (pp_ordered_size_pools pool) →
  pp_heap pool' = pp_heap pool → pp_next pool' = pp_next pool →
  (∀ k, pool_buffer_size pool' k = pool_buffer_size pool k) → (∀ k, pool_empty_pages pool' k = pool_empty_pages pool k) →
  (∀ kind, reserved_bytes (pp_stats pool') kind = reserved_bytes (pp_stats pool) kind) → pinv pool' pg live.
Proof.
  intros [H1 H2 H3 H4 H5 H6 H7] Hlen Hh Hn Hbs He Hst. split; rewrite ?Hlen, ?Hh, ?Hn; try done.
  - intros k. rewrite Hbs. apply H1.
  - intros k r Hr. rewrite Hbs. by apply H2.
  - intros r x Hx. destruct (H3 r x Hx) as (k & i & ?). exists k, i. by rewrite Hbs.
  - intros k. rewrite He. apply H6.
  - intros kind. rewrite Hst, H7. f_equal. apply zsum_ext. intros b _. unfold buffer_bytes. rewrite Hh.
    destruct b; [|done]. case_bool_decide; [|done]. case_match; [by rewrite Hbs|done].
Qed.

Lemma empty_count_bounds heap l : 0 ≤ zsum (page_empty heap) l ≤ zlen l.
Proof.
  induction l as [|r l IH]; [done|]. rewrite zlen_cons. cbn [zsum].
  assert (0 ≤ page_empty heap r ≤ 1) by (unfold page_empty; repeat case_match; lia). lia.
Qed.

Lemma no_empty_pages heap l : zsum (page_empty heap) l = 0 → filter (nonempty_page heap) l = l.
Proof.
  induction l as [|r l IH]; [done|]. cbn [zsum]. intros H0. pose proof (empty_count_bounds heap l).
  assert (0 ≤ page_empty heap r) by (unfold page_empty; repeat case_match; lia).
  rewrite filter_cons_True by (unfold nonempty_page; lia). rewrite IH by lia. done.
Qed.

Lemma trim_size_pool_ok pool live k :
  pool_inv pool live →
  let '(pool', removed) := trim_size_pool pool k in
  pool_inv pool' live ∧ length (pp_ordered_size_pools pool') = length (pp_ordered_size_pools pool) ∧
  (∀ k', pool_buffer_size pool' k' = pool_buffer_size pool k') ∧ (∀ k', pool_pages pool' k' ⊆ pool_pages pool k') ∧
  (∀ k', k' ≠ k → pool_pages pool' k' = pool_pages pool k') ∧
  (zlen (pool_pages pool k) < u64_modulus →
   pool_pages pool' k = filter (nonempty_page (pp_heap pool)) (pool_pages pool k)).
Proof.
  intros Hinv. unfold trim_size_pool. destruct (pp_ordered_size_pools pool !! k) as [sp|] eqn:Hsp.
  2: { ands; try done. intros _. unfold pool_pages. by rewrite Hsp. }
  assert (k < length (pp_ordered_size_pools pool))%nat as Hk by (by eapply lookup_lt_Some).
  assert (pool_pages pool k = sp_pages sp) as Hpk by (unfold pool_pages; by rewrite Hsp).
  destruct (Z.eqb_spec (sps_empty_pages (sp_stats sp)) 0) as [He|He].
  { ands; try done. intros Hbound. symmetry. pose proof (pinv_empty _ _ _ Hinv k Hk) as Hep. unfold pool_empty_pages in Hep.
    rewrite Hsp, He in Hep. pose proof (empty_count_bounds (pp_heap pool) (pool_pages pool k)).
    rewrite wrap64_small in Hep by (unfold is_u64; lia). by apply no_empty_pages. }
  pose proof (retain_pages_ok pool (pool_pages pool) live k [] (sp_pages sp) Hinv Hpk) as Hr.
  destruct (retain_pages pool (sp_pages sp)) as [pool1 kept]. destruct Hr as (Hinv1 & Hkept & Hpp & Hlen). simpl in Hinv1.
  set (pool2 := pp_with_pool _ _ _ _ _).
  assert (∀ k', pool_pages pool2 k' = (<[k := kept]> (pool_pages pool) : nat → list PageRef) k') as Hpp2.
  { intros k'. unfold pool_pages at 1; simpl. destruct (decide (k = k')) as [<-|].
    - rewrite list_lookup_alter_eq. destruct (pp_ordered_size_pools pool1 !! k) eqn:Hl; [by rewrite fn_lookup_insert|]. apply lookup_ge_None in Hl. lia.
    - rewrite list_lookup_alter_ne, fn_lookup_insert_ne by done. apply Hpp. }
  assert (∀ k', pool_buffer_size pool2 k' = pool_buffer_size pool1 k' ∧ pool_empty_pages pool2 k' = pool_empty_pages pool1 k') as Hst.
  { intros k'. unfold pool_buffer_size, pool_empty_pages; simpl. destruct (decide (k' = k)) as [->|].
    - rewrite list_lookup_alter_eq. by destruct (pp_ordered_size_pools pool1 !! k).
    - by rewrite list_lookup_alter_ne. }
  split_and!.
  - eapply pinv_pages_ext; [exact Hpp2|]. eapply pinv_pool_ext; [exact Hinv1|..]; try done; try (intros; apply Hst). simpl. by rewrite length_alter.
  - simpl. by rewrite length_alter.
  - intros k'. destruct (Hst k') as [-> _]. apply Hpp.
  - intros k'. rewrite Hpp2. destruct (decide (k = k')) as [<-|]; [|by rewrite fn_lookup_insert_ne].
    rewrite fn_lookup_insert, Hkept, Hpk. intros r [_ Hr]%list_elem_of_filter. done.
  - intros k' Hne. rewrite Hpp2. by rewrite fn_lookup_insert_ne.
  - intros _. rewrite Hpp2, fn_lookup_insert, Hpk. done.
Qed.

Lemma try_get_buffer_ptr_ok pool live k pages kind :
  pool_inv pool live → pages ⊆ pool_pages pool k →
  match try_get_buffer_ptr pool pages kind with
  | (pool', Some p) =>
      (∀ size, pool_inv pool' (Primary p size :: live)) ∧ (∀ k, pool_buffer_size pool' k = pool_buffer_size pool k) ∧
      (∃ page, pp_heap pool' !! pb_page p = Some page ∧ page_pool page = k)
  | (pool', None) => pool' = pool
  end.
Proof.
  intros Hinv. induction pages as [|ref pages IH]; intros Hsub; [done|]. cbn [try_get_buffer_ptr].
  pose proof (try_reserve_ok pool _ live k ref kind Hinv ltac:(apply Hsub; left)) as Hr.
  destruct (Page_try_reserve pool ref kind) as [pool' [p|]].
  - destruct Hr as (Hinv' & <- & Hpp & Hbs & Hpage). split_and!; try done. intros size.
    eapply pinv_pages_ext; [exact Hpp|apply Hinv'].
  - subst. apply IH. intros r Hr. apply Hsub. by right.
Qed.

Lemma SizePool_reserve_ok {E} pool live k kind :
  pool_inv pool live → (k < length (pp_ordered_size_pools pool))%nat →
  ∃ pool' p, SizePool_reserve (E:=E) pool k kind = Ok (pool', p) ∧ (∀ size, pool_inv pool' (Primary p size :: live)) ∧
    (∀ k, pool_buffer_size pool' k = pool_buffer_size pool k) ∧ (∃ page, pp_heap pool' !! pb_page p = Some page ∧ page_pool page = k).
Proof.
  intros Hinv Hk. unfold SizePool_reserve. pose proof (try_get_buffer_ptr_ok pool live k _ kind Hinv ltac:(done)) as Hr.
  destruct (try_get_buffer_ptr pool _ kind) as [pool1 [p|]] eqn:Hfirst; [exists pool1, p; split; [done|exact Hr]|]. subst.
  rewrite Hfirst. pose proof (Page_new_ok pool live k Hinv Hk) as Hnew. destruct (Page_new pool k) as [pool2 ref].
  destruct Hnew as (Hinv2 & Hin & Hbs2 & page & Hpage & H0).
  pose proof (try_reserve_ok pool2 _ live k ref kind Hinv2 Hin) as Hr2.
  destruct (Page_try_reserve pool2 ref kind) as [pool3 [p|]] eqn:Hres.
  - destruct Hr2 as (Hinv3 & <- & Hpp & Hbs3 & Hpg). exists pool3, p. split_and!; try done.
    + intros size. eapply pinv_pages_ext; [exact Hpp|apply Hinv3].
    + intros k'. by rewrite Hbs3, Hbs2.
  - unfold Page_try_reserve in Hres. rewrite Hpage, H0 in Hres. done.
Qed.

Lemma partition_point_spec size pools :
  (partition_point size pools ≤ length pools)%nat ∧
  (∀ i sp, (i < partition_point size pools)%nat → pools !! i = Some sp → sps_buffer_size (sp_stats sp) < size) ∧
  (∀ sp, pools !! partition_point size pools = Some sp → size ≤ sps_buffer_size (sp_stats sp)).
Proof.
  induction pools as [|sp pools (IH1 & IH2 & IH3)]; simpl; [split_and!; done || lia|].
  destruct (Z.ltb_spec (sps_buffer_size (sp_stats sp)) size).
  - split_and!; [lia| |done]. intros [|i] sp' Hi Hl; simplify_eq/=; [done|]. eapply IH2; [|done]. lia.
  - split_and!; [lia|lia|]. intros sp' [= <-]. done.
Qed.

(** What a buffer can hold. *)
Definition PoolBuffer_capacity (b : PoolBuffer) : Z :=
  match b with Primary _ size => size | Secondary size _ => size end.

Lemma get_pool_for_size_Some pool size k :
  get_pool_for_size pool size = Some k →
  (k < length (pp_ordered_size_pools pool))%nat ∧ size ≤ pool_buffer_size pool k ∧ size ≠ 0 ∧
  ∀ i, (i < k)%nat → pool_buffer_size pool i < size.
Proof.
  unfold get_pool_for_size, pool_buffer_size. destruct (Z.eqb_spec size 0); [done|].
  destruct (partition_point_spec size (pp_ordered_size_pools pool)) as (Hle & Hlt & Hge).
  destruct (Nat.eqb_spec (partition_point size (pp_ordered_size_pools pool)) (length (pp_ordered_size_pools pool))); [done|].
  intros [= <-]. assert (partition_point size (pp_ordered_size_pools pool) < length (pp_ordered_size_pools pool))%nat as Hk by lia.
  destruct (lookup_lt_is_Some_2 _ _ Hk) as [sp Hsp]. rewrite Hsp. split_and!; try done; [by apply Hge|].
  intros i Hi. destruct (lookup_lt_is_Some_2 (pp_ordered_size_pools pool) i) as [sp' Hsp']; [lia|]. rewrite Hsp'. by eapply Hlt.
Qed.

Lemma reserve_secondary_ok pool live size kind :
  pool_inv pool live →
  pool_inv {| pp_ordered_size_pools := pp_ordered_size_pools pool; pp_stats := PoolStats_reserve_bytes (pp_stats pool) size kind;
              pp_heap := pp_heap pool; pp_next := pp_next pool |} (Secondary size kind :: live).
Proof.
  intros [H1 H2 H3 H4 H5 H6 H7]. split; try done. intros kd. simpl. destruct (decide (kind = kd)) as [->|].
  - rewrite fn_lookup_insert, bool_decide_eq_true_2, H7 by done. unfold wadd. autorewrite with wrap64. f_equal. apply Z.add_comm.
  - rewrite fn_lookup_insert_ne, bool_decide_eq_false_2, H7 by done. done.
Qed.

Lemma get_buffer_ok {E} pool live size kind :
  pool_inv pool live →
  ∃ pool' b, PagedPool_get_buffer (E:=E) pool size kind = Ok (pool', b) ∧ pool_inv pool' (b :: live) ∧ PoolBuffer_capacity b = size.
Proof.
  intros Hinv. unfold PagedPool_get_buffer. destruct (get_pool_for_size pool size) as [k|] eqn:Hg.
  - apply get_pool_for_size_Some in Hg as (Hk & Hle & _).
    destruct (SizePool_reserve_ok (E:=E) pool live k kind Hinv Hk) as (pool' & p & -> & Hinv' & Hbs & page & Hpage & Hpk).
    simpl. unfold PoolBuffer_new_primary. rewrite Hpage, Hpk, Hbs, (proj2 (Z.leb_le _ _)) by done. by do 2 eexists.
  - do 2 eexists. split; [done|]. split; [by apply reserve_secondary_ok|done].
Qed.

Lemma buffer_drop_ok {E} pool l1 b l2 :
  pool_inv pool (l1 ++ b :: l2) → ∃ pool', PoolBuffer_drop (E:=E) pool b = Ok pool' ∧ pool_inv pool' (l1 ++ l2).
Proof.
  intros Hinv. destruct b as [p size|size kind]; simpl.
  - destruct (release_ok (E:=E) pool _ l1 l2 p size Hinv) as (pool' & -> & Hinv' & Hpp & _). eexists. split; [done|].
    eapply pinv_pages_ext; [exact Hpp|done].
  - eexists. split; [done|]. pose proof Hinv as [H1 H2 H3 H4 H5 H6 H7].
    assert (slots (l1 ++ Secondary size kind :: l2) = slots (l1 ++ l2)) as Hs by (by rewrite !slots_app).
    split; try done.
    + intros k r Hr. rewrite <- Hs. by apply H2.
    + intros r x. rewrite <- Hs. apply H3.
    + by rewrite <- Hs.
    + intros kd. specialize (H7 kd). rewrite zsum_app in *. simpl in *. destruct (decide (kind = kd)) as [->|].
      * rewrite bool_decide_eq_true_2 in H7 by done. rewrite fn_lookup_insert, H7. unfold wsub. autorewrite with wrap64.
        transitivity (wrap64 (zsum (buffer_bytes pool kd) l1 + zsum (buffer_bytes pool kd) l2)); [f_equal; lia|done].
      * rewrite bool_decide_eq_false_2 in H7 by done. rewrite fn_lookup_insert_ne, H7 by done. f_equal.
Qed.

Lemma vec_dedup_elem x l : x ∈ vec_dedup l ↔ x ∈ l.
Proof.
  induction l as [|a l IH]; [done|]. cbn [vec_dedup]. destruct l as [|b l]; [done|].
  destruct (Z.eqb_spec a b) as [->|]; rewrite ?elem_of_cons in *; naive_solver.
Qed.

Lemma candidate_sizes_spec sizes :
  Sorted Z.le (candidate_sizes sizes) ∧ candidate_sizes sizes ≠ [] ∧
  (∀ s, s ∈ candidate_sizes sizes → 0 < s ≤ MAX_BUFFER_SIZE) ∧
  (∀ s, s ∈ sizes → 0 < s ≤ MAX_BUFFER_SIZE → s ∈ candidate_sizes sizes).
Proof.
  unfold candidate_sizes. set (l := vec_dedup _).
  assert (∀ s, s ∈ merge_sort Z.le l ↔ s ∈ sizes ∧ 0 < s ≤ MAX_BUFFER_SIZE) as Hin.
  { intros s. rewrite merge_sort_Permutation. unfold l. rewrite vec_dedup_elem, list_elem_of_filter. tauto. }
  assert (Sorted Z.le (merge_sort Z.le l)) as Hsorted by (apply Sorted_merge_sort; intros ??; lia).
  destruct (merge_sort Z.le l) as [|a rest] eqn:Hm.
  - split_and!; [repeat constructor|done| |].
    + intros s ->%list_elem_of_singleton. done.
    + intros s ? ?. assert (s ∈ ([] : list Z)) as Hx%not_elem_of_nil by (by apply Hin). done.
  - split_and!; try done; intros s; rewrite Hin; tauto.
Qed.

Lemma new_pool_ok sizes : pool_inv (new_with_candidate_sizes sizes) [].
Proof.
  destruct (candidate_sizes_spec sizes) as (_ & _ & Hpos & _).
  assert (∀ k, pool_pages (new_with_candidate_sizes sizes) k = []) as Hpp.
  { intros k. unfold pool_pages; simpl. rewrite list_lookup_fmap. by destruct (_ !! k). }
  split.
  - intros k. simpl. rewrite length_fmap. intros Hk. unfold pool_buffer_size; simpl. rewrite list_lookup_fmap.
    destruct (lookup_lt_is_Some_2 _ _ Hk) as [x Hx]. rewrite Hx. simpl. apply Hpos. by eapply list_elem_of_lookup_2.
  - intros k ref. rewrite Hpp. by intros ?%not_elem_of_nil.
  - by intros ref x ?%not_elem_of_nil.
  - constructor.
  - intros k. rewrite Hpp. constructor.
  - intros k Hk. rewrite Hpp. unfold pool_empty_pages; simpl. rewrite list_lookup_fmap. by destruct (_ !! k).
  - done.
Qed.

(** ** Concurrent use

    One step is one atomic section of some thread: reserving from a page of a
    pool, adding a page, a free allocation, dropping a live buffer, or trimming
    a size pool.  [PagedPool_get_buffer] is a sequence of such steps. *)
Inductive pool_step : PagedPool * list PoolBuffer → PagedPool * list PoolBuffer → Prop :=
| pool_step_reserve pool live k ref kind size pool' p :
    ref ∈ pool_pages pool k → 0 ≤ size ≤ pool_buffer_size pool k →
    Page_try_reserve pool ref kind = (pool', Some p) → pool_step (pool, live) (pool', Primary p size :: live)
| pool_step_new_page pool live k :
    (k < length (pp_ordered_size_pools pool))%nat → pool_step (pool, live) (fst (Page_new pool k), live)
| pool_step_secondary pool live size kind pool' b :
    get_pool_for_size pool size = None → PagedPool_get_buffer (E:=False) pool size kind = Ok (pool', b) →
    pool_step (pool, live) (pool', b :: live)
| pool_step_drop pool l1 b l2 pool' :
    PoolBuffer_drop (E:=False) pool b = Ok pool' → pool_step (pool, l1 ++ b :: l2) (pool', l1 ++ l2)
| pool_step_trim pool live k : pool_step (pool, live) (fst (trim_size_pool pool k), live).

(** A buffer fits in the slot it was given. *)
Definition sizes_ok pool (live : list PoolBuffer) : Prop :=
  ∀ p size k, Primary p size ∈ live → pb_page p ∈ pool_pages pool k → 0 ≤ size ≤ pool_buffer_size pool k.

Lemma slots_elem p size live : Primary p size ∈ live → (pb_page p, pb_ptr p) ∈ slots live.
Proof. intros Hin. apply list_elem_of_fmap. exists p. split; [done|]. apply list_elem_of_omap. by exists (Primary p size). Qed.

Lemma slots_inj live i j p q size size' :
  NoDup (slots live) → live !! i = Some (Primary p size) → live !! j = Some (Primary q size') →
  pb_page p = pb_page q → pb_ptr p = pb_ptr q → i = j.
Proof.
  revert i j. induction live as [|b live IH]; intros i j Hnd Hi Hj Hpage Hptr; [done|].
  assert (NoDup (slots live)) as Hnd' by (destruct b; [by inversion Hnd|done]).
  assert (∀ r sz n, live !! n = Some (Primary r sz) → b = Primary p size ∨ b = Primary q size' →
    (pb_page r, pb_ptr r) ≠ (pb_page p, pb_ptr p)) as Hfresh.
  { intros r sz n Hn Hb Heq. apply list_elem_of_lookup_2, slots_elem in Hn. rewrite Heq in Hn.
    destruct Hb as [-> | ->]; rewrite slots_cons_primary, ?NoDup_cons in Hnd; destruct Hnd as [Hnin _]; [done|].
    by rewrite <- Hpage, <- Hptr in Hnin. }
  destruct i as [|i], j as [|j]; simpl in *; [done| | |f_equal; by eapply IH].
  - injection Hi as ->. exfalso. eapply (Hfresh q); [done|by left|congruence].
  - injection Hj as ->. exfalso. eapply (Hfresh p); [done|by right|done].
Qed.

Lemma pool_step_inv s t : pool_inv (fst s) (snd s) ∧ sizes_ok (fst s) (snd s) → pool_step s t → pool_inv (fst t) (snd t) ∧ sizes_ok (fst t) (snd t).
Proof.
  intros [Hinv Hsz] Hstep. destruct Hstep as [pool live k ref kind size pool' p Hin Hs Hr|pool live k Hk|pool live size kind pool' b Hn Hg
    |pool l1 b l2 pool' Hd|pool live k]; simpl in *.
  - pose proof (try_reserve_ok pool _ live k ref kind Hinv Hin) as Hok. rewrite Hr in Hok.
    destruct Hok as (Hinv' & <- & Hpp & Hbs & _). split; [eapply pinv_pages_ext; [exact Hpp|apply Hinv']|].
    intros q sz k' Hq. rewrite Hpp, Hbs. apply elem_of_cons in Hq as [[= -> ->]|Hq]; [|by apply (Hsz q)].
    intros Hin'. destruct (pinv_page _ _ _ Hinv _ _ Hin) as (_ & _ & ? & Hl & _), (pinv_page _ _ _ Hinv _ _ Hin') as (_ & _ & ? & Hl' & _).
    rewrite Hl in Hl'. by injection Hl' as _ <-.
  - pose proof (Page_new_ok pool live k Hinv Hk) as Hok. pose proof Hinv as Hinv0. simpl in *. destruct Hok as (Hinv' & _ & Hbs & _).
    split; [done|]. intros q sz k' Hq Hin'. rewrite Hbs. apply (Hsz q); [done|].
    destruct (pinv_live _ _ _ Hinv0 _ _ (slots_elem _ _ _ Hq)) as (k2 & i & Hin2 & _).
    destruct (pinv_page _ _ _ Hinv0 _ _ Hin2) as (_ & Hlt & m & Hl & _).
    destruct (pinv_page _ _ _ Hinv' _ _ Hin') as (_ & _ & m' & Hl' & _). simpl in Hl'.
    rewrite lookup_insert_ne, Hl in Hl' by lia. by injection Hl' as _ <-.
  - unfold PagedPool_get_buffer in Hg. rewrite Hn in Hg. injection Hg as <- <-.
    split; [by apply reserve_secondary_ok|]. intros q sz k' Hq. apply elem_of_cons in Hq as [?|Hq]; [done|]. by apply (Hsz q).
  - destruct (buffer_drop_ok (E:=False) pool l1 b l2 Hinv) as (pool1 & Heq & Hinv'). rewrite Hd in Heq. injection Heq as <-.
    split; [done|]. intros q sz k' Hq Hin'.
    assert ((∀ k, pool_pages pool' k = pool_pages pool k) ∧ (∀ k, pool_buffer_size pool' k = pool_buffer_size pool k)) as [Hpp Hbs].
    { destruct b as [p size|size kind]; simpl in Hd.
      - destruct (release_ok (E:=False) pool _ l1 l2 p size Hinv) as (pool2 & Hrel & _ & Hx). rewrite Hd in Hrel. by injection Hrel as <-.
      - by injection Hd as <-. }
    rewrite Hpp in Hin'. rewrite Hbs. apply (Hsz q); [|done]. set_solver.
  - pose proof (trim_size_pool_ok pool live k Hinv) as Hok. destruct (trim_size_pool pool k) as [pool' r].
    destruct Hok as (Hinv' & _ & Hbs & Hsub & _). split; [done|]. intros q sz k' Hq Hin'. simpl. rewrite Hbs. apply (Hsz q); [done|].
    by apply Hsub.
Qed.

Lemma pool_reachable_inv sizes pool live :
  reachable pool_step (λ s, s = (new_with_candidate_sizes sizes, [])) (pool, live) → pool_inv pool live ∧ sizes_ok pool live.
Proof.
  intros Hr. apply (reachable_invariant pool_step _ (λ s, pool_inv (fst s) (snd s) ∧ sizes_ok (fst s) (snd s))) in Hr; [done| |].
  - intros s ->. split; [apply new_pool_ok|]. by intros p size k ?%not_elem_of_nil.
  - apply pool_step_inv.
Qed.

(** C6. Exclusive ownership of pool memory.  In every state that concurrent
    reservations, drops, page allocations and trims can reach, two live primary
    buffers never share a byte; each of them lies inside a page that is still in
    its size pool, hence not freed; dropping any of them succeeds; and the bytes
    reported as reserved for each kind are exactly those of the live buffers. *)
Theorem pool_exclusive_ownership sizes pool live :
  reachable pool_step (λ s, s = (new_with_candidate_sizes sizes, [])) (pool, live) →
  (∀ i j p q size size', i ≠ j → live !! i = Some (Primary p size) → live !! j = Some (Primary q size') →
     pb_page p = pb_page q → pb_ptr p + size ≤ pb_ptr q ∨ pb_ptr q + size' ≤ pb_ptr p) ∧
  (∀ p size, Primary p size ∈ live → ∃ k page, pp_heap pool !! pb_page p = Some page ∧ page_pool page = k ∧
     pb_page p ∈ pool_pages pool k ∧ 0 ≤ pb_ptr p ∧ pb_ptr p + size ≤ BUFFERS_PER_PAGE * pool_buffer_size pool k) ∧
  (∀ b, b ∈ live → ∃ pool', PoolBuffer_drop (E:=False) pool b = Ok pool') ∧
  (∀ kind, reserved_bytes (pp_stats pool) kind = wrap64 (zsum (buffer_bytes pool kind) live)).
Proof.
  intros Hr. apply pool_reachable_inv in Hr as [Hinv Hsz].
  assert (∀ p size, Primary p size ∈ live → ∃ k i m, pb_page p ∈ pool_pages pool k ∧ 0 ≤ i < 16 ∧ pb_ptr p = i * pool_buffer_size pool k ∧
    0 < pool_buffer_size pool k ∧ 0 ≤ size ≤ pool_buffer_size pool k ∧
    pp_heap pool !! pb_page p = Some {| page_reserved_bitmask := m; page_pool := k |}) as Hslot.
  { intros p size Hp. destruct (pinv_live _ _ _ Hinv _ _ (slots_elem _ _ _ Hp)) as (k & i & Hin & Hi & Hptr).
    destruct (pinv_page _ _ _ Hinv k _ Hin) as (Hk & _ & m & Hl & _). exists k, i, m.
    pose proof (pinv_size _ _ _ Hinv k Hk). pose proof (Hsz p size k Hp Hin). done. }
  split_and!.
  - intros i j p q size size' Hne Hi Hj Hpage.
    destruct (Hslot p size) as (k & a & m & _ & Ha & Hpa & Hs & Hsa & Hla); [by eapply list_elem_of_lookup_2|].
    destruct (Hslot q size') as (k' & b & m' & _ & Hb & Hqb & _ & Hsb & Hlb); [by eapply list_elem_of_lookup_2|].
    rewrite <- Hpage, Hla in Hlb. injection Hlb as _ <-.
    assert (a ≠ b) as Hab.
    { intros <-. pose proof (pinv_nodup _ _ _ Hinv) as Hnd. apply Hne.
      eapply slots_inj; [done..|congruence]. }
    nia.
  - intros p size Hp. destruct (Hslot p size Hp) as (k & i & m & Hin & Hi & Hptr & Hs & Hsize & Hl).
    exists k. eexists. split; [done|]. split; [done|]. split; [done|]. rewrite Hptr. unfold BUFFERS_PER_PAGE.
    pose proof (Z.mul_nonneg_nonneg (15 - i) (pool_buffer_size pool k)). lia.
  - intros b Hb. apply list_elem_of_split in Hb as (l1 & l2 & ->). destruct (buffer_drop_ok (E:=False) pool l1 b l2 Hinv) as (pool' & ? & _). eauto.
  - apply (pinv_bytes _ _ _ Hinv).
Qed.

Definition pool_start (sizes : list Z) (s : PagedPool * list PoolBuffer) : Prop := s = (new_with_candidate_sizes sizes, []).

Lemma try_get_buffer_ptr_steps pool live k pages kind size pool' p :
  pages ⊆ pool_pages pool k → 0 ≤ size ≤ pool_buffer_size pool k →
  try_get_buffer_ptr pool pages kind = (pool', Some p) → pool_inv pool live → pool_step (pool, live) (pool', Primary p size :: live).
Proof.
  intros Hsub Hsz Hget Hinv. induction pages as [|ref pages IH]; [done|]. cbn [try_get_buffer_ptr] in Hget.
  pose proof (try_reserve_ok pool _ live k ref kind Hinv ltac:(apply Hsub; left)) as Hr.
  destruct (Page_try_reserve pool ref kind) as [pool1 [p1|]] eqn:Ht.
  - injection Hget as <- <-. eapply pool_step_reserve; [|done..]. apply Hsub. left.
  - subst. apply IH; [|done]. intros r Hr. apply Hsub. by right.
Qed.

Lemma get_buffer_steps sizes pool live size kind pool' b :
  reachable pool_step (pool_start sizes) (pool, live) → 0 ≤ size →
  PagedPool_get_buffer (E:=False) pool size kind = Ok (pool', b) → reachable pool_step (pool_start sizes) (pool', b :: live).
Proof.
  intros Hr H0 Hg. pose proof Hr as Hr'. apply pool_reachable_inv in Hr' as [Hinv _]. pose proof Hg as Hg'.
  unfold PagedPool_get_buffer in Hg. destruct (get_pool_for_size pool size) as [k|] eqn:Hk.
  2: { eapply reachable_step; [done|]. by eapply pool_step_secondary. }
  apply get_pool_for_size_Some in Hk as (Hk & Hle & _).
  apply outcome_bind_ok in Hg as ([pool1 p] & Hres & Hg). apply outcome_bind_ok in Hg as (b' & Hb & [= <- <-]).
  unfold PoolBuffer_new_primary in Hb. destruct (_ <=? _); [|done]. injection Hb as <-.
  unfold SizePool_reserve in Hres. destruct (try_get_buffer_ptr pool (pool_pages pool k) kind) as [pool2 [q|]] eqn:Hf.
  { injection Hres as -> ->. eapply reachable_step; [done|]. by eapply try_get_buffer_ptr_steps. }
  pose proof (try_get_buffer_ptr_ok pool live k _ kind Hinv ltac:(done)) as Hsame. rewrite Hf in Hsame. subst pool2. rewrite Hf in Hres.
  pose proof (Page_new_ok pool live k Hinv Hk) as Hnew.
  pose proof (reachable_step _ _ _ _ Hr (pool_step_new_page pool live k Hk)) as Hr2.
  destruct (Page_new pool k) as [pool3 ref]. destruct Hnew as (Hinv3 & Hin & Hbs & _). simpl in Hr2.
  destruct (Page_try_reserve pool3 ref kind) as [pool4 [q|]] eqn:Ht; [|done]. injection Hres as -> ->.
  eapply reachable_step; [exact Hr2|]. eapply pool_step_reserve; [done| |done]. by rewrite Hbs.
Qed.

(** Every request for a buffer is served.  Whatever the state of the pool,
    [get_buffer] returns a buffer of exactly the requested capacity, from the
    first size pool whose buffers are large enough, or a free allocation when
    there is none or nothing was asked for; the result is again a state of
    the concurrent system, so the buffer is exclusive. *)
Theorem pool_serves_every_request sizes pool live size kind :
  reachable pool_step (pool_start sizes) (pool, live) → 0 ≤ size →
  ∃ pool' b, PagedPool_get_buffer (E:=False) pool size kind = Ok (pool', b) ∧ PoolBuffer_capacity b = size ∧
    reachable pool_step (pool_start sizes) (pool', b :: live) ∧
    match b with
    | Primary p _ => ∃ k page, pp_heap pool' !! pb_page p = Some page ∧ page_pool page = k ∧ size ≤ pool_buffer_size pool k ∧
        ∀ i, (i < k)%nat → pool_buffer_size pool i < size
    | Secondary _ _ => size = 0 ∨ ∀ k sp, pp_ordered_size_pools pool !! k = Some sp → sps_buffer_size (sp_stats sp) < size
    end.
Proof.
  intros Hr H0. pose proof Hr as Hr'. apply pool_reachable_inv in Hr' as [Hinv _].
  destruct (get_buffer_ok (E:=False) pool live size kind Hinv) as (pool' & b & Hg & _ & Hcap). exists pool', b.
  split; [done|]. split; [done|]. split; [by eapply get_buffer_steps|].
  unfold PagedPool_get_buffer in Hg. destruct (get_pool_for_size pool size) as [k|] eqn:Hk.
  - apply get_pool_for_size_Some in Hk as (Hk & Hle & _ & Hmin).
    destruct (SizePool_reserve_ok (E:=False) pool live k kind Hinv Hk) as (pool1 & p & Hres & _ & _ & page & Hp & Hpk).
    rewrite Hres in Hg. simpl in Hg. unfold PoolBuffer_new_primary in Hg. rewrite Hp in Hg.
    destruct (_ <=? _); simpl in Hg; [|done]. injection Hg as <- <-. by exists k, page.
  - injection Hg as <- <-. unfold get_pool_for_size in Hk. destruct (Z.eqb_spec size 0); [by left|right].
    destruct (Nat.eqb_spec (partition_point size (pp_ordered_size_pools pool)) (length (pp_ordered_size_pools pool))) as [He|]; [|done].
    destruct (partition_point_spec size (pp_ordered_size_pools pool)) as (_ & Hlt & _). intros k sp Hsp.
    eapply Hlt; [|done]. rewrite He. by eapply lookup_lt_Some.
Qed.

(** Trimming removes exactly the pages without reserved buffers: the counter
    of empty pages that decides whether a size pool is skipped is exact, so no
    empty page is missed, and pages with live buffers stay. *)
Theorem trim_frees_exactly_empty_pages sizes pool live k :
  reachable pool_step (pool_start sizes) (pool, live) → zlen (pool_pages pool k) < u64_modulus →
  let '(pool', removed) := trim_size_pool pool k in
  pool_pages pool' k = filter (nonempty_page (pp_heap pool)) (pool_pages pool k) ∧
  (∀ p size, Primary p size ∈ live → ∃ k', pb_page p ∈ pool_pages pool' k') ∧
  reachable pool_step (pool_start sizes) (pool', live).
Proof.
  intros Hr Hb. pose proof (reachable_step _ _ _ _ Hr (pool_step_trim pool live k)) as Hr2. pose proof Hr as Hr'.
  apply pool_reachable_inv in Hr' as [Hinv _]. pose proof (trim_size_pool_ok pool live k Hinv) as Hok.
  destruct (trim_size_pool pool k) as [pool' removed]. destruct Hok as (Hinv' & _ & _ & _ & _ & Hf). simpl in Hr2.
  split; [by apply Hf|]. split; [|done]. intros p size Hp.
  destruct (pinv_live _ _ _ Hinv' _ _ (slots_elem _ _ _ Hp)) as (k' & i & ? & _). eauto.
Qed.

(** Appending to a pool buffer never overruns it and loses nothing: what was
    written before is kept, the new data follows it, the overflow is exactly
    the rest of the slice, and there is overflow only when the buffer is full. *)
Lemma append_from_slice_ok {E} b slice :
  0 ≤ pbm_len b ≤ PoolBufferMut_capacity b → PoolBufferMut_capacity b < u64_modulus →
  ∃ b' overflow taken, append_from_slice (E:=E) b slice = Ok (b', overflow) ∧
    slice = taken ++ overflow ∧ PoolBufferMut_data b' = PoolBufferMut_data b ++ taken ∧
    PoolBufferMut_capacity b' = PoolBufferMut_capacity b ∧ pbm_len b' = pbm_len b + zlen taken ∧
    (overflow ≠ [] → PoolBufferMut_is_full b' = true) ∧
    (slice ≠ [] → pbm_len b < PoolBufferMut_capacity b → taken ≠ []).
Proof.
  intros Hlen Hcap. unfold append_from_slice. rewrite wsub_small by u64_lia. pose proof (zlen_nonneg slice).
  set (at_ := Z.min (PoolBufferMut_capacity b - pbm_len b) (zlen slice)).
  assert (0 ≤ at_ ≤ zlen slice) as Hat by lia. rewrite zlen_ztake, wadd_small by u64_lia.
  rewrite !(proj2 (Z.leb_le _ _)) by lia. cbn [andb]. exists {| pbm_buffer := ztake (pbm_len b) (pbm_buffer b) ++ ztake at_ slice ++
    zdrop (pbm_len b + at_) (pbm_buffer b); pbm_len := pbm_len b + at_ |}, (zdrop at_ slice), (ztake at_ slice).
  unfold PoolBufferMut_is_full, PoolBufferMut_data, PoolBufferMut_capacity in *; simpl.
  rewrite !zlen_app, !zlen_ztake, zlen_zdrop by lia. split_and!; try done; try lia.
  - by rewrite ztake_zdrop.
  - rewrite app_assoc. unfold ztake at 1. rewrite take_app_le; [apply take_ge|]; rewrite length_app;
      [pose proof (zlen_ztake (pbm_len b) (pbm_buffer b))|pose proof (zlen_ztake (pbm_len b) (pbm_buffer b))];
      pose proof (zlen_ztake at_ slice); unfold zlen in *; lia.
  - intros Ho. apply Z.eqb_eq. destruct (Z.min_spec (zlen (pbm_buffer b) - pbm_len b) (zlen slice)) as [[_ Hm]|[_ Hm]]; [unfold at_; lia|].
    destruct Ho. unfold at_. rewrite Hm. unfold zdrop, zlen. rewrite Nat2Z.id. apply drop_all.
  - intros Hs Hroom Ht. apply (f_equal zlen) in Ht. rewrite zlen_ztake, zlen_nil in Ht by done.
    assert (zlen slice ≠ 0) by (by rewrite zlen_0). lia.
Qed.

(** Duplicate candidate sizes give duplicate size pools. The documentation of
    [new_with_candidate_sizes] promises to ignore duplicate sizes, but [dedup] runs before [sort] and only removes adjacent ones. *)
Theorem candidate_sizes_keep_duplicates :
  map (λ sp, sps_buffer_size (sp_stats sp)) (pp_ordered_size_pools (new_with_candidate_sizes [8; 16; 8])) = [8; 8; 16].
Proof. reflexivity. Qed.

(** ** Witnesses: two buffers of 5 and 7 bytes in one page, and one of 12 bytes *)

Definition test_get (s : PagedPool * list PoolBuffer) (size : Z) : PagedPool * list PoolBuffer :=
  match PagedPool_get_buffer (E:=False) (fst s) size GetObject with
  | Ok (pool, b) => (pool, b :: snd s)
  | _ => s
  end.
Definition test_pool : PagedPool * list PoolBuffer :=
  test_get (test_get (test_get (new_with_candidate_sizes [16; 8], []) 5) 7) 12.

Lemma test_get_reachable sizes s size :
  0 ≤ size → reachable pool_step (pool_start sizes) s → reachable pool_step (pool_start sizes) (test_get s size).
Proof.
  intros H0 Hr. unfold test_get. destruct s as [pool live]. simpl.
  destruct (PagedPool_get_buffer pool size GetObject) as [[pool' b]| |] eqn:Hg; try done. by eapply get_buffer_steps.
Qed.
Lemma test_pool_reachable : reachable pool_step (pool_start [16; 8]) test_pool.
Proof. do 3 (apply test_get_reachable; [lia|]). by apply reachable_init. Qed.

Lemma pool_exclusive_ownership_witness :
  reserved_bytes (pp_stats (fst test_pool)) GetObject = 32 ∧ ∀ b, b ∈ snd test_pool → ∃ pool', PoolBuffer_drop (E:=False) (fst test_pool) b = Ok pool'.
Proof.
  destruct (pool_exclusive_ownership [16; 8] (fst test_pool) (snd test_pool)) as (_ & _ & Hd & Hb); [exact test_pool_reachable|].
  split; [rewrite Hb; vm_compute; reflexivity|exact Hd].
Defined.

Lemma pool_serves_every_request_witness :
  ∃ pool' b, PagedPool_get_buffer (E:=False) (fst test_pool) 3 PutObject = Ok (pool', b) ∧ PoolBuffer_capacity b = 3.
Proof.
  destruct (pool_serves_every_request [16; 8] (fst test_pool) (snd test_pool) 3 PutObject) as (pool' & b & Hg & Hc & _);
    [exact test_pool_reachable|lia|]. by exists pool', b.
Defined.

Lemma trim_frees_exactly_empty_pages_witness :
  let '(pool', _) := trim_size_pool (fst test_pool) 0 in
  pool_pages pool' 0 = filter (nonempty_page (pp_heap (fst test_pool))) (pool_pages (fst test_pool) 0).
Proof.
  pose proof (trim_frees_exactly_empty_pages [16; 8] (fst test_pool) (snd test_pool) 0 test_pool_reachable ltac:(by vm_compute)) as Ht.
  destruct (trim_size_pool (fst test_pool) 0). apply Ht.
Defined.

