(* ===== verification/BlockFormat.v ===== *)
(** * Formats shared by the block caches

    Byte strings and decimal names that [data_cache/disk_data_cache.rs] and
    [data_cache/express_data_cache.rs] build to name and describe a cached block:
    big-endian integers, the [{:010}] format and digests.  SHA-256 and the hex
    encoding come from the sha2 and hex crates and are the interface [BlockHash];
    nothing is assumed of them, so every theorem holds in the presence of
    collisions. *)

From stdpp Require Import pretty.
From S2P Require Import Prelude.
Local Open Scope Z_scope.

#[export] Instance byte_eq_dec : EqDecision Byte.byte := Byte.byte_eq_dec.

(** [str::as_bytes] *)
Definition string_bytes (s : string) : bytes := Stdlib.Strings.String.list_byte_of_string s.
Definition bytes_string (bs : bytes) : string := Stdlib.Strings.String.string_of_list_byte bs.
Lemma bytes_string_bytes s : bytes_string (string_bytes s) = s.
Proof. apply Stdlib.Strings.String.string_of_list_byte_of_string. Qed.

Definition byte_of (x : Z) : Byte.byte := default x00 (Byte.of_N (Z.to_N (x `mod` 256))).
Definition byte_val (b : Byte.byte) : Z := Z.of_N (Byte.to_N b).
Lemma byte_val_byte_of x : byte_val (byte_of x) = x `mod` 256.
Proof.
  unfold byte_val, byte_of. pose proof (Z.mod_pos_bound x 256 ltac:(lia)).
  destruct (Byte.of_N (Z.to_N (x `mod` 256))) as [b|] eqn:Hb; simpl.
  - apply Byte.to_of_N in Hb. rewrite Hb. lia.
  - apply Byte.of_N_None_iff in Hb. lia.
Qed.

(** [to_be_bytes] of an [n]-byte integer, and [from_be_bytes] *)
Fixpoint be_bytes (n : nat) (x : Z) : bytes :=
  match n with
  | O => []
  | S n => be_bytes n (x / 256) ++ [byte_of x]
  end.
Definition from_be_bytes (bs : bytes) : Z := foldl (λ acc b, 256 * acc + byte_val b) 0 bs.

Lemma length_be_bytes n x : length (be_bytes n x) = n.
Proof. revert x. induction n as [|n IH]; intros x; simpl; [done|]. rewrite length_app, IH. simpl. lia. Qed.
Lemma from_be_bytes_be_bytes n x : 0 ≤ x < 256 ^ Z.of_nat n → from_be_bytes (be_bytes n x) = x.
Proof.
  revert x. induction n as [|n IH]; intros x Hx; unfold from_be_bytes in *; simpl; [change (256 ^ Z.of_nat 0) with 1 in Hx; lia|].
  rewrite foldl_app. simpl. rewrite byte_val_byte_of.
  rewrite Nat2Z.inj_succ, Z.pow_succ_r in Hx by lia. rewrite IH.
  - pose proof (Z.div_mod x 256). lia.
  - split; [apply Z.div_pos; lia|]. apply Z.div_lt_upper_bound; lia.
Qed.

Definition zero_char : Ascii.ascii := Ascii.ascii_of_nat 48.
(** [format!("{:010}", n)] *)
Definition format_010 (n : Z) : string :=
  let digits := pretty (Z.to_N n) in
  (Stdlib.Strings.String.string_of_list_ascii (replicate (10 - String.length digits) zero_char) +:+ digits)%string.

(** [Sha256::digest] of the concatenation of the updates, and [hex::encode]. *)
Class BlockHash := {
  sha256 : bytes → bytes;
  hex_encode : bytes → string;
}.

(** A hash with as many collisions as possible: the theorems do not rely on it being any better. *)
Definition worst_hash : BlockHash := {| sha256 := λ _, replicate 32 x00; hex_encode := λ bs,
  Stdlib.Strings.String.string_of_list_ascii (replicate (2 * length bs) zero_char) |}.
