(* ===== verification/ClientChecksums.v ===== *)
(** * Textual forms of checksums and integers ([mountpoint-s3-client/src/checksums.rs])

    S3 carries checksums in HTTP headers in base64, and the shared block cache
    keeps integers there in decimal.  The codec of the base64ct crate is
    the interface [Base64] with its round trip as a law; [rfc4648] is a codec that
    keeps it.  Formatting and parsing of integers belong to the language and are
    written out. *)

From stdpp Require Import pretty.
From S2P Require Import Prelude Checksums BlockFormat.
Local Open Scope Z_scope.

(** ** Base64 *)

Class Base64 := {
  base64_encode_string : bytes → string;
  base64_decode : string → outcome string bytes;
}.
Class Base64Laws `{Base64} := {
  base64_round_trip bs : base64_decode (base64_encode_string bs) = Ok bs;
}.

Section conversions.
Context `{b64 : Base64}.

(** [Base64::decode(s, &mut [0; n])] followed by [from_be_bytes] of the buffer: a shorter decoding leaves zeros behind it. *)
Definition int_from_base64 (n : nat) (s : string) : outcome string Z :=
  let! bs := base64_decode s in
  if (n <? length bs)%nat then Err "invalid length" else Ok (from_be_bytes (bs ++ replicate (n - length bs) x00)).

Definition crc64nvme_to_base64 (checksum : Z) : string := base64_encode_string (be_bytes 8 checksum).
Definition crc64nvme_from_base64 (s : string) : outcome string Z := int_from_base64 8 s.
Definition crc32c_to_base64 (checksum : Z) : string := base64_encode_string (be_bytes 4 checksum).
Definition crc32c_from_base64 (s : string) : outcome string Z := int_from_base64 4 s.
Definition crc32_to_base64 (checksum : Z) : string := base64_encode_string (be_bytes 4 checksum).
Definition crc32_from_base64 (s : string) : outcome string Z := int_from_base64 4 s.
Definition sha1_to_base64 (checksum : bytes) : string := base64_encode_string checksum.
Definition sha256_to_base64 (checksum : bytes) : string := base64_encode_string checksum.

Context `{!Base64Laws}.
Set Default Proof Using "Type*".

Lemma int_base64_round_trip n x : 0 ≤ x < 256 ^ Z.of_nat n → int_from_base64 n (base64_encode_string (be_bytes n x)) = Ok x.
Proof.
  intros Hx. unfold int_from_base64. rewrite base64_round_trip. simpl. rewrite length_be_bytes, Nat.ltb_irrefl, Nat.sub_diag, app_nil_r.
  by rewrite from_be_bytes_be_bytes.
Qed.
Lemma crc32c_base64_round_trip x : is_u32 x → crc32c_from_base64 (crc32c_to_base64 x) = Ok x.
Proof. apply (int_base64_round_trip 4). Qed.
Lemma base64_encode_inj bs bs' : base64_encode_string bs = base64_encode_string bs' → bs = bs'.
Proof. intros He. apply (f_equal base64_decode) in He. rewrite !base64_round_trip in He. by injection He. Qed.
End conversions.

(** *** The codec of RFC 4648, with padding *)
Module Rfc4648.
Import Stdlib.Strings.Ascii.
Definition alphabet : list ascii :=
  Stdlib.Strings.String.list_ascii_of_string "ABCDEFGHIJKLMNOPQRSTUVWXYZabcdefghijklmnopqrstuvwxyz0123456789+/".
Definition pad : ascii := "="%char.
Definition sextet_char (i : Z) : ascii := default pad (alphabet !! Z.to_nat i).
Definition char_sextet (c : ascii) : option Z := Z.of_nat ∘ fst <$> list_find (c =.) alphabet.

Fixpoint encode (bs : bytes) : list ascii :=
  match bs with
  | [] => []
  | [b0] => let n := byte_val b0 in [sextet_char (n / 4); sextet_char (n `mod` 4 * 16); pad; pad]
  | [b0; b1] =>
      let n := byte_val b0 * 256 + byte_val b1 in
      [sextet_char (n / 1024); sextet_char ((n / 16) `mod` 64); sextet_char (n `mod` 16 * 4); pad]
  | b0 :: b1 :: b2 :: bs =>
      let n := (byte_val b0 * 256 + byte_val b1) * 256 + byte_val b2 in
      sextet_char (n / 262144) :: sextet_char ((n / 4096) `mod` 64) :: sextet_char ((n / 64) `mod` 64) :: sextet_char (n `mod` 64) :: encode bs
  end.

Fixpoint decode (cs : list ascii) : outcome string bytes :=
  match cs with
  | [] => Ok []
  | c0 :: c1 :: c2 :: c3 :: cs =>
      match char_sextet c0, char_sextet c1 with
      | Some i0, Some i1 =>
          match char_sextet c2, char_sextet c3 with
          | Some i2, Some i3 =>
              let n := ((i0 * 64 + i1) * 64 + i2) * 64 + i3 in
              let! bs := decode cs in
              Ok (byte_of (n / 65536) :: byte_of (n / 256) :: byte_of n :: bs)
          | Some i2, None =>
              let n := (i0 * 64 + i1) * 64 + i2 in
              if bool_decide (c3 = pad) && bool_decide (cs = []) && (n `mod` 4 =? 0) then Ok [byte_of (n / 1024); byte_of (n / 4)]
              else Err "invalid encoding"
          | None, _ =>
              let n := i0 * 64 + i1 in
              if bool_decide (c2 = pad) && bool_decide (c3 = pad) && bool_decide (cs = []) && (n `mod` 16 =? 0) then Ok [byte_of (n / 16)]
              else Err "invalid encoding"
          end
      | _, _ => Err "invalid encoding"
      end
  | _ => Err "invalid length"
  end.

Lemma char_sextet_char i : 0 ≤ i < 64 → char_sextet (sextet_char i) = Some i.
Proof.
  intros Hi. assert (forallb (λ n, bool_decide (char_sextet (sextet_char (Z.of_nat n)) = Some (Z.of_nat n))) (seq 0 64) = true) as Hall by (by vm_compute).
  rewrite forallb_forall in Hall. specialize (Hall (Z.to_nat i)). rewrite Z2Nat.id in Hall by lia.
  eapply bool_decide_eq_true_1, Hall, in_seq. lia.
Qed.
Lemma char_sextet_pad : char_sextet pad = None.
Proof. by vm_compute. Qed.
Lemma byte_of_byte_val b k x : x = k * 256 + byte_val b → byte_of x = b.
Proof.
  intros ->. unfold byte_of, byte_val. pose proof (Byte.to_N_bounded b). rewrite Z.add_comm, Z.mod_add, Z.mod_small by lia.
  by rewrite N2Z.id, Byte.of_to_N.
Qed.
Lemma byte_val_bound b : 0 ≤ byte_val b < 256.
Proof. unfold byte_val. pose proof (Byte.to_N_bounded b). lia. Qed.

Lemma decode_encode bs : decode (encode bs) = Ok bs.
Proof.
  assert (∀ n bs, (length bs ≤ n)%nat → decode (encode bs) = Ok bs) as Hall; [|by eapply Hall].
  clear bs. intros n. induction n as [|n IH]; intros bs Hn; [by destruct bs; [|simpl in Hn; lia]|].
  destruct bs as [|b0 [|b1 [|b2 bs]]]; [done|..]; pose proof (byte_val_bound b0); cbn [encode decode].
  - rewrite !char_sextet_char, char_sextet_pad by (Z.div_mod_to_equations; lia).
    rewrite !bool_decide_eq_true_2 by done. cbn [andb].
    replace (_ =? 0) with true by (symmetry; apply Z.eqb_eq; Z.div_mod_to_equations; lia).
    do 2 f_equal. apply (byte_of_byte_val b0 0). Z.div_mod_to_equations; lia.
  - pose proof (byte_val_bound b1). set (x := byte_val b0 * 256 + byte_val b1) in *.
    rewrite !char_sextet_char, char_sextet_pad by (Z.div_mod_to_equations; lia).
    assert ((x / 1024 * 64 + (x / 16) `mod` 64) * 64 + x `mod` 16 * 4 = x * 4) as -> by (Z.div_mod_to_equations; lia).
    rewrite !bool_decide_eq_true_2 by done. rewrite Z.mod_mul by done. cbn [andb Z.eqb].
    do 2 f_equal; [apply (byte_of_byte_val b0 0)|f_equal; apply (byte_of_byte_val b1 (byte_val b0))]; unfold x; Z.div_mod_to_equations; lia.
  - pose proof (byte_val_bound b1). pose proof (byte_val_bound b2). set (x := (byte_val b0 * 256 + byte_val b1) * 256 + byte_val b2).
    rewrite !char_sextet_char by (Z.div_mod_to_equations; lia).
    rewrite IH by (simpl in Hn; lia). cbn [outcome_bind].
    assert (((x / 262144 * 64 + (x / 4096) `mod` 64) * 64 + (x / 64) `mod` 64) * 64 + x `mod` 64 = x) as -> by (Z.div_mod_to_equations; lia).
    do 2 f_equal; [apply (byte_of_byte_val b0 0)|f_equal; [apply (byte_of_byte_val b1 (byte_val b0))|
      f_equal; apply (byte_of_byte_val b2 (byte_val b0 * 256 + byte_val b1))]]; unfold x; Z.div_mod_to_equations; lia.
Qed.
End Rfc4648.

#[export] Instance rfc4648 : Base64 := {|
  base64_encode_string bs := Stdlib.Strings.String.string_of_list_ascii (Rfc4648.encode bs);
  base64_decode s := Rfc4648.decode (Stdlib.Strings.String.list_ascii_of_string s);
|}.
#[export] Instance rfc4648_laws : Base64Laws.
Proof. split. intros bs. simpl. rewrite Stdlib.Strings.String.list_ascii_of_string_of_list_ascii. apply Rfc4648.decode_encode. Qed.

Example crc32c_1234 : crc32c_to_base64 1234 = "AAAE0g==" ∧ crc32c_from_base64 "AAAE0g==" = Ok 1234 ∧ crc32c_from_base64 "AAAE0gA=" = Err "invalid length".
Proof. by vm_compute. Qed.

(** ** Integers in decimal *)

(** [format!("{n}")] *)
Definition format_uint (n : Z) : string := pretty (Z.to_N n).

Definition digit_value (c : Ascii.ascii) : option Z :=
  let n := Z.of_nat (Stdlib.Strings.Ascii.nat_of_ascii c) in if (48 <=? n) && (n <=? 57) then Some (n - 48) else None.

(** [str::parse] of an unsigned type with maximum [max]: the loop with its checks for digits and overflow, *)
Fixpoint parse_digits (max acc : Z) (s : string) : option Z :=
  match s with
  | EmptyString => Some acc
  | String c s =>
      match digit_value c with
      | None => None
      | Some d => let acc := acc * 10 + d in if max <? acc then None else parse_digits max acc s
      end
  end.
(** and before it a sign, which does not count as a digit. *)
Definition parse_uint (max : Z) (s : string) : option Z :=
  match s with
  | EmptyString => None
  | String c s' =>
      if bool_decide (c = Ascii.ascii_of_nat 43) then match s' with EmptyString => None | _ => parse_digits max 0 s' end
      else parse_digits max 0 s
  end.

Lemma digit_value_char d : (d < 10)%N → digit_value (pretty_N_char d) = Some (Z.of_N d).
Proof.
  intros Hd. assert (d = 0 ∨ d = 1 ∨ d = 2 ∨ d = 3 ∨ d = 4 ∨ d = 5 ∨ d = 6 ∨ d = 7 ∨ d = 8 ∨ d = 9)%N as Hcases by lia.
  by repeat destruct Hcases as [->|Hcases]; subst.
Qed.
Lemma parse_pretty_go max x s : Z.of_N x ≤ max → parse_digits max 0 (pretty_N_go x s) = parse_digits max (Z.of_N x) s.
Proof.
  revert s. induction (N.lt_wf_0 x) as [x _ IH]; intros s Hx. destruct (decide (x = 0%N)) as [->|Hne]; [by rewrite pretty_N_go_0|].
  rewrite pretty_N_go_step by lia. pose proof (N.div_mod x 10 ltac:(lia)). pose proof (N.mod_lt x 10 ltac:(lia)).
  pose proof (N.div_lt x 10 ltac:(lia) ltac:(lia)). rewrite IH by lia. cbn [parse_digits]. rewrite digit_value_char by done.
  replace (Z.of_N (x `div` 10) * 10 + Z.of_N (x `mod` 10)) with (Z.of_N x) by lia. by rewrite (proj2 (Z.ltb_ge _ _)).
Qed.
(** The first character is a digit. *)
Lemma pretty_go_digit x s : (0 < x)%N → ∃ d s', (d < 10)%N ∧ pretty_N_go x s = String (pretty_N_char d) s'.
Proof.
  revert s. induction (N.lt_wf_0 x) as [x _ IH]; intros s Hx. rewrite pretty_N_go_step by done.
  destruct (decide (x / 10 = 0)%N) as [->|Hne]; [|apply IH; [by apply N.div_lt|by apply N.neq_0_lt_0]].
  rewrite pretty_N_go_0. exists (x `mod` 10)%N, s. split; [by apply N.mod_lt|done].
Qed.
Lemma parse_format_uint max n : 0 ≤ n ≤ max → parse_uint max (format_uint n) = Some n.
Proof.
  intros Hn. unfold format_uint, pretty, pretty_N. case_decide as Hz.
  { assert (n = 0) as -> by lia. unfold parse_uint. rewrite bool_decide_eq_false_2 by done.
    change (parse_digits max 0 "0") with (if max <? 0 then None else Some 0). by rewrite (proj2 (Z.ltb_ge _ _)) by lia. }
  pose proof (parse_pretty_go max (Z.to_N n) "" ltac:(lia)) as Hp. destruct (pretty_go_digit (Z.to_N n) "" ltac:(lia)) as (d & s & Hd & Heq).
  rewrite Heq in *. unfold parse_uint. rewrite bool_decide_eq_false_2; [rewrite Hp; simpl; f_equal; lia|].
  intros Hc. apply (f_equal digit_value) in Hc. by rewrite digit_value_char in Hc.
Qed.
Lemma format_uint_inj n m : 0 ≤ n → 0 ≤ m → format_uint n = format_uint m → n = m.
Proof. intros Hn Hm Heq. unfold format_uint in Heq. apply pretty_N_inj in Heq. lia. Qed.
