(* ===== verification/LinkedHashMap.v ===== *)
(** * The [LinkedHashMap] of the linked_hash_map crate

    The negative cache and the index of the disk cache keep their entries in a
    hash map that remembers the order of insertion.  It is an association list
    with distinct keys, oldest entry first; [insert] and [get_refresh] move an
    existing key to the back. *)

From S2P Require Import Prelude.

Section linked_hash_map.
Context {K V : Type} `{!EqDecision K}.
Implicit Types (m : list (K * V)) (k : K) (e : V).

Fixpoint lhm_get m k : option V :=
  match m with
  | [] => None
  | (k', e) :: m' => if bool_decide (k' = k) then Some e else lhm_get m' k
  end.
Definition lhm_remove m k : list (K * V) := filter (λ x, x.1 ≠ k) m.
Definition lhm_insert m k e : list (K * V) := lhm_remove m k ++ [(k, e)].
(** The refreshed map, and whether the key was there. *)
Definition lhm_get_refresh m k : list (K * V) * option V :=
  match lhm_get m k with
  | Some e => (lhm_remove m k ++ [(k, e)], Some e)
  | None => (m, None)
  end.
Definition lhm_pop_front m : option (K * V * list (K * V)) :=
  match m with
  | [] => None
  | x :: m => Some (x, m)
  end.

Lemma lhm_get_elem m k e : lhm_get m k = Some e → (k, e) ∈ m.
Proof.
  induction m as [|[k' e'] m IH]; simpl; [done|]. case_bool_decide; [intros [= ->]; subst; left|right; auto].
Qed.
Lemma lhm_get_None m k : lhm_get m k = None ↔ k ∉ map fst m.
Proof.
  induction m as [|[k' e'] m IH]; simpl; [split; [by intros _ ?%elem_of_nil|done]|].
  rewrite not_elem_of_cons, <-IH. case_bool_decide; naive_solver.
Qed.
Lemma lhm_get_middle pre k e post : k ∉ map fst pre → lhm_get (pre ++ (k, e) :: post) k = Some e.
Proof.
  induction pre as [|[k' e'] pre IH]; simpl; [by rewrite bool_decide_eq_true_2|].
  intros [Hk Hn]%not_elem_of_cons. rewrite bool_decide_eq_false_2 by done. auto.
Qed.
Lemma lhm_remove_elem m k x : x ∈ lhm_remove m k ↔ x.1 ≠ k ∧ x ∈ m.
Proof. unfold lhm_remove. by rewrite list_elem_of_filter. Qed.
Lemma lhm_remove_nodup m k : NoDup (map fst m) → NoDup (map fst (lhm_remove m k)).
Proof. intros H. eapply sublist_NoDup; [done|]. apply (fmap_sublist fst), sublist_filter. Qed.
Lemma lhm_remove_length m k : (length (lhm_remove m k) ≤ length m)%nat.
Proof. apply length_filter. Qed.
Lemma lhm_remove_length_lt m k : is_Some (lhm_get m k) → (length (lhm_remove m k) < length m)%nat.
Proof.
  intros [e He%lhm_get_elem]. unfold lhm_remove. apply (length_filter_lt _ _ (k, e)); simpl; naive_solver.
Qed.
Lemma lhm_insert_nodup m k e : NoDup (map fst m) → NoDup (map fst (lhm_insert m k e)).
Proof.
  intros H. unfold lhm_insert. rewrite map_app. simpl. apply list.NoDup_app. split; [by apply lhm_remove_nodup|].
  split; [|apply NoDup_singleton]. intros k' (x & Hk & Hx)%list_elem_of_fmap Hs%list_elem_of_singleton.
  apply lhm_remove_elem in Hx. naive_solver.
Qed.
Lemma lhm_remove_middle pre k e post k' :
  k ≠ k' → ∃ pre' post', lhm_remove (pre ++ (k, e) :: post) k' = pre' ++ (k, e) :: post' ∧ (length post' ≤ length post)%nat.
Proof.
  intros Hne. exists (lhm_remove pre k'), (lhm_remove post k'). split; [|apply lhm_remove_length].
  unfold lhm_remove. rewrite list.filter_app, list.filter_cons_True by done. done.
Qed.
Lemma lhm_remove_absent m k : k ∉ map fst m → lhm_remove m k = m.
Proof.
  induction m as [|x m IH]; simpl; [done|]. intros [Hx Hk]%not_elem_of_cons. unfold lhm_remove.
  rewrite list.filter_cons_True by done. f_equal. by apply IH.
Qed.
(** Taking a present key out and putting it back at the end only reorders the entries. *)
Lemma lhm_remove_perm m k e : NoDup (map fst m) → lhm_get m k = Some e → lhm_remove m k ++ [(k, e)] ≡ₚ m.
Proof.
  induction m as [|[k' e'] m IH]; simpl; [done|]. intros [Hk Hnd]%list.NoDup_cons. unfold lhm_remove.
  case_bool_decide as Hkk; [intros [= ->]; subst k'|].
  - rewrite list.filter_cons_False by (simpl; tauto). fold (lhm_remove m k). rewrite lhm_remove_absent by done.
    symmetry. apply Permutation_cons_append.
  - intros Hg. rewrite list.filter_cons_True by done. simpl. constructor. by apply IH.
Qed.
Lemma lhm_get_refresh_perm m k : NoDup (map fst m) → (lhm_get_refresh m k).1 ≡ₚ m.
Proof. intros Hnd. unfold lhm_get_refresh. destruct (lhm_get m k) eqn:Hg; simpl; [by apply lhm_remove_perm|done]. Qed.
End linked_hash_map.
