(* ===== verification/DiskCache.v ===== *)
(** * The disk cache ([data_cache/disk_data_cache.rs])

    [DiskDataCache] keeps each block in a file named after a hash of the object
    and the block index.  The file holds a version, a header that says which
    block it is, and the data; an index of the blocks in order of use ([UsageInfo])
    decides what to evict when the cache is over its limit.

    The file system below the cache directory is a map from paths to contents.
    The operating system can fail any call: [disk_io] and [disk_remove_io] hold
    its answers to the next calls (none left means success) and [disk_statvfs]
    the next reports of the free space.  A temporary file becomes visible only
    when [persist] renames it into place, so it is a value and not an entry of
    the map.  bincode is the interface [Bincode], SHA-256 and hex are [BlockHash];
    metrics and tracing are left out.  Each call is modelled as one step: the
    index is locked only inside [refresh], [add] and each round of the eviction. *)

From Stdlib Require Import SpecFloat.
From S2P Require Import Prelude Checksums Part DataCache LinkedHashMap BlockFormat Pool.
Local Open Scope Z_scope.

Definition CACHE_VERSION : string := "V2".
Definition HASHED_DIR_SPLIT_INDEX : nat := 2.
Definition BINCODE_HEADER_MAX_SIZE : Z := 10000.

(** ** Configuration; [f64] is IEEE 754 double precision *)

Definition f64_of_u64 (x : Z) : spec_float := binary_normalize 53 1024 x 0 false.
Definition f64_mul (x y : spec_float) : spec_float := SFmul 53 1024 x y.

Inductive CacheLimit :=
| LimitUnbounded
| TotalSize (max_size : Z)
| AvailableSpace (min_ratio : spec_float).
(** 0.05 *)
Definition DEFAULT_CACHE_MIN_AVAILABLE_RATIO : spec_float := S754_finite false 7205759403792794 (-57).
Definition CacheLimit_default : CacheLimit := AvailableSpace DEFAULT_CACHE_MIN_AVAILABLE_RATIO.

(** Paths are relative to nothing in particular: the components that [PathBuf::push] adds. *)
Abbreviation path := (list string).

Record DiskDataCacheConfig := {
  dcc_cache_directory : path;
  dcc_block_size : Z;
  dcc_limit : CacheLimit;
}.

(** ** Block headers *)

Record DiskBlockHeader := {
  dbh_block_idx : Z;
  dbh_block_offset : Z;
  dbh_block_len : Z;
  dbh_etag : string;
  dbh_s3_key : string;
  dbh_data_checksum : Z;
  dbh_header_checksum : Z;
}.

Inductive DiskBlockAccessError := AccessChecksumError | FieldMismatchError.

(** What bincode reports: an error of the reader or writer, or anything else. *)
Inductive BincodeError := BincodeIo (inner : string) | BincodeOther (what : string).

Inductive DiskBlockReadWriteError :=
| InvalidBlockLength (len : Z)
| DecodeError (e : BincodeError)
| EncodeError (e : BincodeError)
| IOError (e : string).

(** [bincode::encode_into_std_write] and [decode_from_std_read] for [DiskBlockHeader] with
    [BINCODE_CONFIG]; decoding returns what it leaves in the reader. *)
Class Bincode := {
  bincode_encode : DiskBlockHeader → outcome BincodeError bytes;
  bincode_decode : bytes → outcome BincodeError (DiskBlockHeader * bytes);
}.

Section header.
Context `{crc : Crc32c}.

Definition DiskBlockHeader_compute_checksum (block_idx block_offset block_len : Z) (etag s3_key : string) (data_checksum : Z) : Z :=
  crc32c_checksum (be_bytes 8 block_idx ++ be_bytes 8 block_offset ++ be_bytes 8 block_len ++
    string_bytes etag ++ string_bytes s3_key ++ be_bytes 4 data_checksum).

Definition DiskBlockHeader_new (block_idx block_offset block_len : Z) (etag s3_key : string) (data_checksum : Z) : DiskBlockHeader :=
  {| dbh_block_idx := block_idx; dbh_block_offset := block_offset; dbh_block_len := block_len; dbh_etag := etag;
     dbh_s3_key := s3_key; dbh_data_checksum := data_checksum;
     dbh_header_checksum := DiskBlockHeader_compute_checksum block_idx block_offset block_len etag s3_key data_checksum |}.

Definition DiskBlockHeader_validate (h : DiskBlockHeader) (s3_key etag : string) (block_idx block_offset block_len : Z)
    : outcome DiskBlockAccessError Z :=
  let s3_key_match := bool_decide (s3_key = dbh_s3_key h) in
  let etag_match := bool_decide (etag = dbh_etag h) in
  let block_idx_match := block_idx =? dbh_block_idx h in
  let block_offset_match := block_offset =? dbh_block_offset h in
  let block_size_match := block_len =? dbh_block_len h in
  let data_checksum := dbh_data_checksum h in
  if s3_key_match && etag_match && block_idx_match && block_offset_match && block_size_match then
    if negb (DiskBlockHeader_compute_checksum block_idx block_offset block_len etag s3_key data_checksum =? dbh_header_checksum h)
    then Err AccessChecksumError
    else Ok data_checksum
  else Err FieldMismatchError.
End header.

(** ** The operating system *)

Record Disk := {
  disk_files : gmap path bytes;
  disk_io : list (option string);
  disk_remove_io : list (option string);
  disk_statvfs : list (option (Z * Z));
}.

(** A call that can fail for reasons of the operating system. *)
Definition io_call (d : Disk) : Disk * outcome string () :=
  match disk_io d with
  | [] => (d, Ok tt)
  | answer :: rest =>
      ({| disk_files := disk_files d; disk_io := rest; disk_remove_io := disk_remove_io d; disk_statvfs := disk_statvfs d |},
       match answer with Some e => Err e | None => Ok tt end)
  end.

Definition disk_write_file (d : Disk) (p : path) (content : bytes) : Disk :=
  {| disk_files := <[p := content]> (disk_files d); disk_io := disk_io d; disk_remove_io := disk_remove_io d;
     disk_statvfs := disk_statvfs d |}.

(** [fs::remove_file]; the callers ignore [NotFound]. *)
Definition disk_remove_file (d : Disk) (p : path) : Disk * outcome string () :=
  let removed rest := {| disk_files := delete p (disk_files d); disk_io := disk_io d; disk_remove_io := rest;
                         disk_statvfs := disk_statvfs d |} in
  match disk_remove_io d with
  | [] => (removed [], Ok tt)
  | None :: rest => (removed rest, Ok tt)
  | Some e :: rest =>
      ({| disk_files := disk_files d; disk_io := disk_io d; disk_remove_io := rest; disk_statvfs := disk_statvfs d |}, Err e)
  end.

(** [statvfs]: total and available blocks; [None] is an error. *)
Definition disk_stat (d : Disk) : Disk * option (Z * Z) :=
  match disk_statvfs d with
  | [] => (d, None)
  | answer :: rest =>
      ({| disk_files := disk_files d; disk_io := disk_io d; disk_remove_io := disk_remove_io d; disk_statvfs := rest |}, answer)
  end.

(** ** Blocks *)

Record DiskBlock := { db_header : DiskBlockHeader; db_data : bytes }.

Section block.
Context `{crc : Crc32c, env : IntegrityEnv, bin : Bincode}.

(** The only [DiskBlockCreationError] wraps the integrity error. *)
Definition DiskBlock_new (cache_key : ObjectId) (block_idx block_offset : Z) (bs : ChecksummedBytes) : outcome IntegrityError DiskBlock :=
  let! '(data, data_checksum) := ChecksummedBytes_into_inner bs in
  Ok {| db_header := DiskBlockHeader_new block_idx block_offset (zlen data) (oid_etag cache_key) (oid_key cache_key) data_checksum;
        db_data := data |}.

Definition DiskBlock_data (b : DiskBlock) (cache_key : ObjectId) (block_idx block_offset : Z) : outcome DiskBlockAccessError ChecksummedBytes :=
  let! data_checksum := DiskBlockHeader_validate (db_header b) (oid_key cache_key) (oid_etag cache_key) block_idx block_offset (zlen (db_data b)) in
  Ok (ChecksummedBytes_new_from_inner_data (db_data b) data_checksum).

Definition from_DecodeError (e : BincodeError) : DiskBlockReadWriteError :=
  match e with BincodeIo inner => IOError inner | e => DecodeError e end.
Definition from_EncodeError (e : BincodeError) : DiskBlockReadWriteError :=
  match e with BincodeIo inner => IOError inner | e => EncodeError e end.

(** [reader] is the rest of the file. *)
Definition DiskBlock_read (d : Disk) (reader : bytes) (block_size : Z) : Disk * outcome DiskBlockReadWriteError DiskBlock :=
  let? d, _ := (let '(d, r) := io_call d in (d, outcome_map_err IOError r)) in
  match bincode_decode reader with
  | Err e => (d, Err (from_DecodeError e))
  | Panic => (d, Panic)
  | Ok (header, reader) =>
      if block_size <? dbh_block_len header then (d, Err (InvalidBlockLength (dbh_block_len header))) else
      let size := dbh_block_len header in
      let? d, _ := (let '(d, r) := io_call d in (d, outcome_map_err IOError r)) in
      let '(buffer, r) := fill_from_reader (pool_buffer size) reader in
      (d, let! _ := outcome_map_err IOError r in
          Ok {| db_header := header; db_data := PoolBufferMut_data buffer |})
  end.

(** Returns what was written after [written], and the number of bytes. *)
Definition DiskBlock_write (d : Disk) (b : DiskBlock) (written : bytes) : Disk * outcome DiskBlockReadWriteError (bytes * Z) :=
  match bincode_encode (db_header b) with
  | Err e => (d, Err (from_EncodeError e))
  | Panic => (d, Panic)
  | Ok header =>
      let? d, _ := (let '(d, r) := io_call d in (d, outcome_map_err IOError r)) in
      let? d, _ := (let '(d, r) := io_call d in (d, outcome_map_err IOError r)) in
      (d, Ok (written ++ header ++ db_data b, wadd (zlen header) (zlen (db_data b))))
  end.
End block.

Definition from_DiskBlockReadWriteError (e : DiskBlockReadWriteError) : DataCacheError :=
  match e with
  | IOError e => IoFailure e
  | _ => InvalidBlockContent
  end.

(** ** Keys and paths *)

Record DiskBlockKey := { dbk_hashed_key : bytes; dbk_block_index : Z }.
#[export] Instance DiskBlockKey_eq_dec : EqDecision DiskBlockKey.
Proof. solve_decision. Defined.

Section key.
Context `{hash : BlockHash}.

Definition hash_cache_key_raw (cache_key : ObjectId) : bytes :=
  sha256 (string_bytes CACHE_VERSION ++ string_bytes (oid_key cache_key) ++ string_bytes (oid_etag cache_key)).

Definition DiskBlockKey_new (cache_key : ObjectId) (block_index : Z) : DiskBlockKey :=
  {| dbk_hashed_key := hash_cache_key_raw cache_key; dbk_block_index := block_index |}.

Definition hex_key (k : DiskBlockKey) : string := hex_encode (dbk_hashed_key k).

(** [split_at] is within bounds: the digest has 32 bytes and so 64 hexadecimal digits. *)
Definition append_to_path (k : DiskBlockKey) (p : path) : path :=
  let hashed_cache_key := hex_key k in
  let first := Stdlib.Strings.String.substring 0 HASHED_DIR_SPLIT_INDEX hashed_cache_key in
  let second := Stdlib.Strings.String.substring HASHED_DIR_SPLIT_INDEX
    (String.length hashed_cache_key - HASHED_DIR_SPLIT_INDEX) hashed_cache_key in
  p ++ [first; second; format_010 (dbk_block_index k)].

Definition get_path_for_block_key (config : DiskDataCacheConfig) (k : DiskBlockKey) : path :=
  append_to_path k (dcc_cache_directory config ++ [CACHE_VERSION]).
End key.

(** ** The index of the blocks *)

Record UsageInfo (K : Type) := { ui_entries : list (K * Z); ui_size : Z }.
Arguments ui_entries {K} _.
Arguments ui_size {K} _.
Arguments Build_UsageInfo {K} _ _.

Section usage.
Context {K : Type} `{!EqDecision K}.

Definition UsageInfo_new : UsageInfo K := Build_UsageInfo [] 0.

Definition UsageInfo_refresh (u : UsageInfo K) (key : K) : UsageInfo K * bool :=
  let '(entries, found) := lhm_get_refresh (ui_entries u) key in
  (Build_UsageInfo entries (ui_size u), bool_decide (is_Some found)).

Definition UsageInfo_add (u : UsageInfo K) (key : K) (size : Z) : UsageInfo K :=
  let previous := lhm_get (ui_entries u) key in
  let total := match previous with Some previous_size => sat_sub (ui_size u) previous_size | None => ui_size u end in
  Build_UsageInfo (lhm_insert (ui_entries u) key size) (sat_add total size).

Definition UsageInfo_evict_lru (u : UsageInfo K) : option (K * UsageInfo K) :=
  match lhm_pop_front (ui_entries u) with
  | None => None
  | Some (key, size, entries) => Some (key, Build_UsageInfo entries (sat_sub (ui_size u) size))
  end.
End usage.

(** ** The cache *)

Record DiskDataCache := {
  dc_config : DiskDataCacheConfig;
  dc_usage : option (UsageInfo DiskBlockKey);
  dc_disk : Disk;
}.

Definition dc_with_disk (c : DiskDataCache) (d : Disk) : DiskDataCache :=
  {| dc_config := dc_config c; dc_usage := dc_usage c; dc_disk := d |}.
Definition dc_with_usage (c : DiskDataCache) (u : option (UsageInfo DiskBlockKey)) : DiskDataCache :=
  {| dc_config := dc_config c; dc_usage := u; dc_disk := dc_disk c |}.

Section cache.
Context `{crc : Crc32c, env : IntegrityEnv, bin : Bincode, hash : BlockHash}.
Implicit Types c : DiskDataCache.

(** [disk] is what the process finds in the cache directory. *)
Definition DiskDataCache_new (config : DiskDataCacheConfig) (disk : Disk) : DiskDataCache :=
  {| dc_config := config;
     dc_usage := match dcc_limit config with LimitUnbounded => None | TotalSize _ | AvailableSpace _ => Some UsageInfo_new end;
     dc_disk := disk |}.

(** An I/O call of the cache: an error is [DataCacheError::IoFailure]. *)
Definition dc_io c : DiskDataCache * outcome DataCacheError () :=
  let '(d, r) := io_call (dc_disk c) in (dc_with_disk c d, outcome_map_err IoFailure r).

Definition from_access_error (e : DiskBlockAccessError) : DataCacheError :=
  match e with AccessChecksumError | FieldMismatchError => InvalidBlockContent end.

Definition DiskDataCache_read_block c (p : path) (cache_key : ObjectId) (block_idx block_offset : Z)
    : DiskDataCache * outcome DataCacheError (option ChecksummedBytes) :=
  let? c, _ := dc_io c in
  match disk_files (dc_disk c) !! p with
  | None => (c, Ok None)
  | Some file =>
      let? c, _ := dc_io c in
      let version := string_bytes CACHE_VERSION in
      if (length file <? length version)%nat then (c, Err (IoFailure "failed to fill whole buffer")) else
      if negb (bool_decide (take (length version) file = version)) then (c, Err InvalidBlockContent) else
      let '(d, r) := DiskBlock_read (dc_disk c) (drop (length version) file) (dcc_block_size (dc_config c)) in
      let c := dc_with_disk c d in
      (c, let! block := outcome_map_err from_DiskBlockReadWriteError r in
          let! bs := outcome_map_err from_access_error (DiskBlock_data block cache_key block_idx block_offset) in
          Ok (Some bs))
  end.

(** Creating the directory, creating the temporary file, writing the version and writing the block can fail.
    Returns the content of the temporary file and the number of bytes of the block. *)
Definition DiskDataCache_write_block c (block : DiskBlock) : DiskDataCache * outcome DataCacheError (bytes * Z) :=
  let? c, _ := dc_io c in
  let? c, _ := dc_io c in
  let? c, _ := dc_io c in
  let '(d, r) := DiskBlock_write (dc_disk c) block (string_bytes CACHE_VERSION) in
  (dc_with_disk c d, outcome_map_err from_DiskBlockReadWriteError r).

Definition is_limit_exceeded c (size : Z) : DiskDataCache * bool :=
  match dcc_limit (dc_config c) with
  | LimitUnbounded => (c, false)
  | TotalSize max_size => (c, max_size <? size)
  | AvailableSpace min_ratio =>
      let '(d, stats) := disk_stat (dc_disk c) in
      (dc_with_disk c d,
       match stats with
       | Some (blocks, blocks_available) =>
           if blocks =? 0 then false
           else SFltb (f64_of_u64 blocks_available) (f64_mul min_ratio (f64_of_u64 blocks))
       | None => false
       end)
  end.

(** The loop of [evict_if_needed]; an error of [remove_file] is only logged. *)
Fixpoint evict_loop (fuel : nat) c (usage : UsageInfo DiskBlockKey) : DiskDataCache * outcome DataCacheError () :=
  match fuel with
  | O => (c, Panic)
  | S fuel =>
      let '(c, exceeded) := is_limit_exceeded c (ui_size usage) in
      if negb exceeded then (c, Ok tt) else
      match UsageInfo_evict_lru usage with
      | None => (c, Err EvictionFailure)
      | Some (to_remove, usage) =>
          let c := dc_with_usage c (Some usage) in
          let path_to_remove := get_path_for_block_key (dc_config c) to_remove in
          let '(d, _logged) := disk_remove_file (dc_disk c) path_to_remove in
          evict_loop fuel (dc_with_disk c d) usage
      end
  end.

Definition evict_if_needed c : DiskDataCache * outcome DataCacheError () :=
  match dc_usage c with
  | None => (c, Ok tt)
  | Some usage => evict_loop (S (length (ui_entries usage))) c usage
  end.

Definition DiskDataCache_get_block c (cache_key : ObjectId) (block_idx block_offset _object_size : Z)
    : DiskDataCache * outcome DataCacheError (option ChecksummedBytes) :=
  if negb (block_offset =? wmul block_idx (dcc_block_size (dc_config c))) then (c, Err InvalidBlockOffset) else
  let block_key := DiskBlockKey_new cache_key block_idx in
  let p := get_path_for_block_key (dc_config c) block_key in
  let '(c, r) := DiskDataCache_read_block c p cache_key block_idx block_offset in
  match r with
  | Ok (Some bs) =>
      (match dc_usage c with
       | Some usage => dc_with_usage c (Some (UsageInfo_refresh usage block_key).1)
       | None => c
       end, Ok (Some bs))
  | r => (c, r)
  end.

Definition DiskDataCache_put_block c (cache_key : ObjectId) (block_idx block_offset : Z) (bs : ChecksummedBytes) (_object_size : Z)
    : DiskDataCache * outcome DataCacheError () :=
  if negb (block_offset =? wmul block_idx (dcc_block_size (dc_config c))) then (c, Err InvalidBlockOffset) else
  let block_key := DiskBlockKey_new cache_key block_idx in
  let p := get_path_for_block_key (dc_config c) block_key in
  match DiskBlock_new cache_key block_idx block_offset bs with
  | Err _ => (c, Err InvalidBlockContent)
  | Panic => (c, Panic)
  | Ok block =>
      let? c, _ := evict_if_needed c in
      let? c, written := DiskDataCache_write_block c block in
      let? c, _ := dc_io c in
      let c := dc_with_disk c (disk_write_file (dc_disk c) p written.1) in
      (match dc_usage c with
       | Some usage => dc_with_usage c (Some (UsageInfo_add usage block_key written.2))
       | None => c
       end, Ok tt)
  end.

#[export] Instance DiskDataCache_DataCache : DataCache DiskDataCache := {|
  get_block := DiskDataCache_get_block;
  put_block := DiskDataCache_put_block;
  block_size c := dcc_block_size (dc_config c);
|}.
End cache.

(** ** What bincode promises

    A header that was encoded is decoded as itself, and consumes exactly what the
    encoder wrote, unless it is over the limit of the configuration. *)

Definition header_wf (h : DiskBlockHeader) : Prop :=
  is_u64 (dbh_block_idx h) ∧ is_u64 (dbh_block_offset h) ∧ is_u64 (dbh_block_len h) ∧
  is_u32 (dbh_data_checksum h) ∧ is_u32 (dbh_header_checksum h).

Class BincodeLaws `{Bincode} := {
  bincode_sound h b rest h' rest' :
    header_wf h → bincode_encode h = Ok b → bincode_decode (b ++ rest) = Ok (h', rest') → h' = h ∧ rest' = rest;
  bincode_complete h b rest :
    header_wf h → bincode_encode h = Ok b → zlen b ≤ BINCODE_HEADER_MAX_SIZE → bincode_decode (b ++ rest) = Ok (h, rest);
  bincode_encode_total h : bincode_encode h ≠ Panic;
  bincode_decode_total b : bincode_decode b ≠ Panic;
}.

(** ** Steps that leave the files and the index alone *)

(** Only answers of the operating system were consumed. *)
Definition same_store (c c' : DiskDataCache) : Prop :=
  dc_config c' = dc_config c ∧ dc_usage c' = dc_usage c ∧ disk_files (dc_disk c') = disk_files (dc_disk c) ∧
  disk_remove_io (dc_disk c') = disk_remove_io (dc_disk c) ∧ disk_io (dc_disk c') `suffix_of` disk_io (dc_disk c).
#[export] Instance same_store_refl : Reflexive same_store.
Proof. intros c. by ands. Qed.
#[export] Instance same_store_trans : Transitive same_store.
Proof. intros c1 c2 c3 (?&?&?&?&?) (?&?&?&?&?). unfold same_store. ands; [congruence..|by etrans]. Qed.

Create HintDb disk.
#[export] Hint Resolve same_store_refl : disk.

Section store.
Context `{crc : Crc32c, env : IntegrityEnv, bin : Bincode, hash : BlockHash}.
Implicit Types c : DiskDataCache.

Lemma io_call_same c d r : io_call (dc_disk c) = (d, r) → same_store c (dc_with_disk c d) ∧ r ≠ Panic.
Proof.
  unfold io_call. destruct (disk_io (dc_disk c)) as [|a io] eqn:Hio; intros [= <- <-].
  - split; [|done]. by destruct c.
  - split; [|by destruct a]. unfold same_store; simpl. rewrite Hio. ands; try done. by apply suffix_cons_r.
Qed.
Lemma dc_io_same c c' r : dc_io c = (c', r) → same_store c c' ∧ r ≠ Panic.
Proof.
  unfold dc_io. destruct (io_call (dc_disk c)) as [d r'] eqn:Hio. intros [= <- <-].
  apply io_call_same in Hio as [Hs Hr]. split; [done|]. by destruct r'.
Qed.
Lemma dc_io_quiet c : Forall (eq None) (disk_io (dc_disk c)) → ∃ c', dc_io c = (c', Ok tt).
Proof.
  unfold dc_io, io_call. destruct (disk_io (dc_disk c)) as [|a io]; [by eexists|].
  intros [<- _]%list.Forall_cons. by eexists.
Qed.

(** Calls that a quiet operating system always serves. *)
Definition quiet c : Prop := Forall (eq None) (disk_io (dc_disk c)).
Lemma same_store_quiet c c' : same_store c c' → quiet c → quiet c'.
Proof. intros (_&_&_&_&[k Hk]). unfold quiet. rewrite Hk, list.Forall_app. tauto. Qed.

(** What [DiskBlock::read] accepts: the header in front of the reader, and the data it announces. *)
Definition block_in (bs : Z) (reader : bytes) (b : DiskBlock) : Prop :=
  ∃ rest, bincode_decode reader = Ok (db_header b, rest) ∧ dbh_block_len (db_header b) ≤ bs ∧
    dbh_block_len (db_header b) ≤ zlen rest ∧ db_data b = ztake (dbh_block_len (db_header b)) rest.

Lemma fill_pool_buffer size reader :
  let '(buffer, r) := fill_from_reader (pool_buffer size) reader in
  (∃ e, r = Err e ∧ zlen reader < size) ∨
  (∃ rest, r = Ok rest ∧ size ≤ zlen reader ∧ PoolBufferMut_data buffer = ztake size reader).
Proof.
  unfold fill_from_reader. assert (PoolBufferMut_capacity (pool_buffer size) = Z.max 0 size) as Hc.
  { unfold PoolBufferMut_capacity, zlen, pool_buffer. simpl. rewrite length_replicate. lia. }
  rewrite Hc. simpl. rewrite Z.sub_0_r. case_Z; [left; eexists; split; [done|]; pose proof (zlen_nonneg reader); lia|right].
  eexists. split; [done|]. split; [lia|]. unfold PoolBufferMut_data; simpl. unfold PoolBufferMut_capacity.
  destruct (Z.le_gt_cases 0 size) as [Hs|Hs].
  - rewrite Z.max_r in * by lia. rewrite zlen_ztake by lia.
    unfold zdrop. rewrite (drop_ge (replicate _ _)) by (rewrite length_replicate; lia). rewrite app_nil_r.
    apply ztake_all. rewrite zlen_ztake; lia.
  - replace (Z.max 0 size) with 0 by lia. unfold ztake. replace (Z.to_nat size) with 0%nat by lia. done.
Qed.

(** [let?] over an I/O call: the continuation runs from a state that differs only in its answers. *)
Lemma dc_io_bind {A} c (k : DiskDataCache → () → DiskDataCache * outcome DataCacheError A) c' r (P : outcome DataCacheError A → Prop) :
  state_bind (dc_io c) k = (c', r) → (∀ e, P (Err e)) →
  (∀ c1, same_store c c1 → k c1 tt = (c', r) → same_store c1 c' ∧ P r) → same_store c c' ∧ P r.
Proof.
  destruct (dc_io c) as [c1 r1] eqn:Hio. intros Hk Herr Hok. apply dc_io_same in Hio as [Hs Hr].
  destruct r1 as [[]|e|]; simpl in Hk; [|by simplify_eq|done]. destruct (Hok c1 Hs Hk). split; [by etrans|done].
Qed.

Lemma dc_with_disk_id c : dc_with_disk c (dc_disk c) = c.
Proof. by destruct c. Qed.

(** The same, inside [DiskBlock]'s methods. *)
Lemma io_call_bind {A} c (k : Disk → () → Disk * outcome DiskBlockReadWriteError A) d r (P : outcome DiskBlockReadWriteError A → Prop) :
  state_bind (let '(d, r) := io_call (dc_disk c) in (d, outcome_map_err IOError r)) k = (d, r) → (∀ e, P (Err e)) →
  (∀ c1, same_store c c1 → k (dc_disk c1) tt = (d, r) → same_store c1 (dc_with_disk c1 d) ∧ P r) →
  same_store c (dc_with_disk c d) ∧ P r.
Proof.
  destruct (io_call (dc_disk c)) as [d1 r1] eqn:Hio. intros Hk Herr Hok. apply io_call_same in Hio as [Hs Hr].
  destruct r1 as [[]|e|]; simpl in Hk; [|by simplify_eq|done].
  destruct (Hok (dc_with_disk c d1) Hs Hk) as [Hs' HP]. split; [|done]. by etrans; [exact Hs|].
Qed.

(** Run the first I/O call of a hypothesis [Hr]. *)
Ltac io_step c1 Hs :=
  match goal with
  | Hr : state_bind _ _ = (_, ?r) |- _ ∧ ?Q =>
      match eval pattern r in Q with
      | ?P _ => first [apply (dc_io_bind _ _ _ _ P Hr) | apply (io_call_bind _ _ _ _ P Hr)];
          [intros ?; exact I|]; clear Hr; intros c1 Hs Hr
      end
  end.

Context `{!BincodeLaws}.
Set Default Proof Using "Type*".

Lemma DiskBlock_read_spec c reader bs d r :
  DiskBlock_read (dc_disk c) reader bs = (d, r) →
  same_store c (dc_with_disk c d) ∧ match r with Ok b => block_in bs reader b | Err _ => True | Panic => False end.
Proof.
  intros Hr. unfold DiskBlock_read in Hr. io_step c1 Hs.
  pose proof (bincode_decode_total reader) as Ht.
  destruct (bincode_decode reader) as [[h rest]|e|] eqn:Hd; [|by simplify_eq; rewrite dc_with_disk_id|done].
  destruct (Z.ltb_spec bs (dbh_block_len h)); [by simplify_eq; rewrite dc_with_disk_id|].
  io_step c2 Hs2.
  pose proof (fill_pool_buffer (dbh_block_len h) rest) as Hf. destruct (fill_from_reader _ _) as [buffer rr].
  injection Hr as <- <-. rewrite dc_with_disk_id. split; [done|].
  destruct Hf as [(e & -> & _)|(rest' & -> & Hl & Hdata)]; [done|]. simpl. exists rest. by ands.
Qed.

Lemma DiskBlock_write_spec c b written d r :
  DiskBlock_write (dc_disk c) b written = (d, r) →
  same_store c (dc_with_disk c d) ∧
  match r with
  | Ok (content, n) => ∃ hb, bincode_encode (db_header b) = Ok hb ∧ content = written ++ hb ++ db_data b ∧
      n = wadd (zlen hb) (zlen (db_data b))
  | Err _ => True
  | Panic => False
  end.
Proof.
  intros Hr. unfold DiskBlock_write in Hr. pose proof (bincode_encode_total (db_header b)) as Ht.
  destruct (bincode_encode (db_header b)) as [hb|e|]; [|by simplify_eq; rewrite dc_with_disk_id|done].
  io_step c1 Hs1.
  io_step c2 Hs2.
  injection Hr as <- <-. rewrite dc_with_disk_id. split; [done|]. by exists hb.
Qed.

Lemma read_block_spec c p cache_key block_idx block_offset c' r :
  DiskDataCache_read_block c p cache_key block_idx block_offset = (c', r) →
  same_store c c' ∧
  match r with
  | Ok (Some bs) => ∃ file block, disk_files (dc_disk c) !! p = Some file ∧ take 2 file = string_bytes CACHE_VERSION ∧
      block_in (dcc_block_size (dc_config c)) (drop 2 file) block ∧
      DiskBlock_data block cache_key block_idx block_offset = Ok bs
  | Panic => False
  | _ => True
  end.
Proof.
  intros Hr. unfold DiskDataCache_read_block in Hr. io_step c1 Hs1.
  destruct (disk_files (dc_disk c1) !! p) as [file|] eqn:Hp; [|by simplify_eq].
  io_step c2 Hs2. case_match; [by simplify_eq|].
  case_bool_decide as Hv; simpl in Hr; [|by simplify_eq].
  destruct (DiskBlock_read _ _ _) as [d rb] eqn:Hrd. apply DiskBlock_read_spec in Hrd as [Hs3 Hb].
  injection Hr as <- <-. split; [done|]. destruct rb as [block| |]; simpl; [|done|done].
  destruct (DiskBlock_data block cache_key block_idx block_offset) as [bs|e|] eqn:Hd; simpl; [|done|].
  - exists file, block. destruct Hs1 as (Hcfg1&_&Hf1&_), Hs2 as (Hcfg2&_). rewrite <- Hf1, <- Hcfg1, <- Hcfg2. by ands.
  - unfold DiskBlock_data, DiskBlockHeader_validate in Hd. by repeat case_match.
Qed.

Lemma write_block_spec c block c' r :
  DiskDataCache_write_block c block = (c', r) →
  same_store c c' ∧
  match r with
  | Ok (content, n) => ∃ hb, bincode_encode (db_header block) = Ok hb ∧
      content = string_bytes CACHE_VERSION ++ hb ++ db_data block ∧ n = wadd (zlen hb) (zlen (db_data block))
  | Err _ => True
  | Panic => False
  end.
Proof.
  intros Hr. unfold DiskDataCache_write_block in Hr. io_step c1 Hs1.
  io_step c2 Hs2.
  io_step c3 Hs3.
  destruct (DiskBlock_write _ _ _) as [d rb] eqn:Hw. apply DiskBlock_write_spec in Hw as [Hs4 Hb].
  injection Hr as <- <-. split; [done|]. by destruct rb.
Qed.

Lemma is_limit_exceeded_spec c size c' b :
  is_limit_exceeded c size = (c', b) →
  same_store c c' ∧ ∀ m, dcc_limit (dc_config c) = TotalSize m → b = false → size ≤ m.
Proof.
  unfold is_limit_exceeded. destruct (dcc_limit (dc_config c)) as [|max|ratio] eqn:Hl.
  - by intros [= <- <-].
  - intros [= <- <-]. split; [done|]. intros m [= ->]. case_Z; [done|lia].
  - unfold disk_stat. destruct (disk_statvfs (dc_disk c)) as [|a rest]; intros [= <- <-]; (split; [|done]);
      [by rewrite dc_with_disk_id|by ands].
Qed.

(** The state after one round of the eviction loop has removed the block [key]. *)
Definition evicted c (key : DiskBlockKey) (usage : UsageInfo DiskBlockKey) : DiskDataCache :=
  dc_with_disk (dc_with_usage c (Some usage)) (disk_remove_file (dc_disk c) (get_path_for_block_key (dc_config c) key)).1.

(** Rule for the eviction loop: it terminates within its fuel, keeps what every round keeps, and when it succeeds
    under a limit on the total size the index is within the limit. *)
Lemma evict_loop_rule (P : DiskDataCache → Prop) fuel c usage c' r :
  (∀ c1 c2, same_store c1 c2 → P c1 → P c2) →
  (∀ c1 u key u', P c1 → dc_usage c1 = Some u → UsageInfo_evict_lru u = Some (key, u') → P (evicted c1 key u')) →
  P c → dc_usage c = Some usage → (length (ui_entries usage) < fuel)%nat →
  evict_loop fuel c usage = (c', r) →
  P c' ∧ r ≠ Panic ∧ dc_config c' = dc_config c ∧
  ∀ m, r = Ok tt → dcc_limit (dc_config c) = TotalSize m → ∃ u, dc_usage c' = Some u ∧ ui_size u ≤ m.
Proof.
  intros Hstat Hevict. revert c usage. induction fuel as [|fuel IH]; intros c usage HP Hu Hf; [lia|]. simpl.
  destruct (is_limit_exceeded c (ui_size usage)) as [c1 b] eqn:Hl. apply is_limit_exceeded_spec in Hl as [Hs Hl].
  assert (P c1) as HP1 by eauto. destruct Hs as (Hcfg & Hu1 & _). rewrite <- Hcfg in Hl. destruct b; simpl.
  - unfold UsageInfo_evict_lru at 1. destruct (lhm_pop_front (ui_entries usage)) as [[[key size] entries]|] eqn:Hp.
    + set (u' := Build_UsageInfo entries (sat_sub (ui_size usage) size)).
      destruct (disk_remove_file _ _) as [d logged] eqn:Hd. intros Hr. rewrite <- Hcfg.
      eapply IH in Hr; [exact Hr| |done|].
      * assert (evicted c1 key u' = dc_with_disk (dc_with_usage c1 (Some u')) d) as <-
          by (unfold evicted; simpl in Hd; by rewrite Hd).
        eapply Hevict; [done|by rewrite Hu1|]. unfold UsageInfo_evict_lru. by rewrite Hp.
      * unfold lhm_pop_front in Hp. destruct (ui_entries usage); simplify_eq/=. lia.
    + intros [= <- <-]. by rewrite Hcfg.
  - intros [= <- <-]. ands; try done. intros m _ Hm. exists usage. rewrite Hu1, Hcfg in *. eauto.
Qed.
Lemma evict_if_needed_rule (P : DiskDataCache → Prop) c c' r :
  (∀ c1 c2, same_store c1 c2 → P c1 → P c2) →
  (∀ c1 u key u', P c1 → dc_usage c1 = Some u → UsageInfo_evict_lru u = Some (key, u') → P (evicted c1 key u')) →
  P c → evict_if_needed c = (c', r) →
  P c' ∧ r ≠ Panic ∧ dc_config c' = dc_config c ∧
  ∀ m u, dc_usage c = Some u → r = Ok tt → dcc_limit (dc_config c) = TotalSize m → ∃ u, dc_usage c' = Some u ∧ ui_size u ≤ m.
Proof.
  intros Hstat Hevict HP. unfold evict_if_needed. destruct (dc_usage c) as [u|] eqn:Hu; [|by intros [= <- <-]].
  intros Hr. eapply evict_loop_rule in Hr as (?&?&?&?); [ands; eauto|done..|lia].
Qed.
End store.

(** ** Coherence: the cache only returns blocks that were put *)

Section coherence.
Context `{crc : Crc32c, env : IntegrityEnv, bin : Bincode, hash : BlockHash} `{!Crc32cLaws, !BincodeLaws} (objs : ObjectId → bytes).
Set Default Proof Using "Type*".
Implicit Types c : DiskDataCache.

(** Whatever the cache accepts from a file is the block that was asked for.  Files of another version, truncated or
    foreign files are all right, and so is any block of any object in any file. *)
Definition file_ok (bs : Z) (file : bytes) : Prop :=
  ∀ block id idx data, 0 ≤ idx → idx * bs < zlen (objs id) → zlen (objs id) < u64_modulus →
    take 2 file = string_bytes CACHE_VERSION → block_in bs (drop 2 file) block →
    DiskBlock_data block id idx (idx * bs) = Ok data → block_of bs (objs id) idx data.

Definition disk_ok c : Prop :=
  0 < dcc_block_size (dc_config c) ∧ map_Forall (λ _, file_ok (dcc_block_size (dc_config c))) (disk_files (dc_disk c)).

Lemma disk_ok_files c c' :
  dc_config c' = dc_config c → disk_files (dc_disk c') ⊆ disk_files (dc_disk c) → disk_ok c → disk_ok c'.
Proof. unfold disk_ok. intros -> Hsub [Hbs Hok]. split; [done|]. intros p f Hp. eapply Hok, lookup_weaken; eauto. Qed.
Lemma disk_ok_same c c' : same_store c c' → disk_ok c → disk_ok c'.
Proof. intros (Hc & _ & Hf & _). by apply disk_ok_files; [|rewrite Hf]. Qed.
Lemma disk_remove_file_sub d p : disk_files (disk_remove_file d p).1 ⊆ disk_files d.
Proof. unfold disk_remove_file. by destruct (disk_remove_io d) as [|[]]; simpl; try apply delete_subseteq. Qed.
Lemma disk_ok_evict c c' r :
  disk_ok c → evict_if_needed c = (c', r) → disk_ok c' ∧ r ≠ Panic ∧ dc_config c' = dc_config c.
Proof.
  intros Hok Hr. eapply (evict_if_needed_rule disk_ok) in Hr as (?&?&?&?); [by ands|apply disk_ok_same| |done].
  intros c1 u key u' Hc1 _ _. eapply disk_ok_files; [..|exact Hc1]; [done|]. apply disk_remove_file_sub.
Qed.

(** The header that goes with a block is accepted for that block only. *)
Lemma DiskBlock_data_inv b id idx off data :
  DiskBlock_data b id idx off = Ok data →
  oid_key id = dbh_s3_key (db_header b) ∧ oid_etag id = dbh_etag (db_header b) ∧ idx = dbh_block_idx (db_header b) ∧
  data = ChecksummedBytes_new_from_inner_data (db_data b) (dbh_data_checksum (db_header b)).
Proof.
  unfold DiskBlock_data, DiskBlockHeader_validate. repeat case_bool_decide; simpl; try done.
  destruct (Z.eqb_spec idx (dbh_block_idx (db_header b))); simpl; [|done].
  repeat case_match; simpl; try done. by intros [= <-].
Qed.

Lemma into_inner_spec cb : cb_wf cb → cb_intact cb → ∃ sum,
  ChecksummedBytes_into_inner cb = Ok (cb_data cb, sum) ∧ is_u32 sum ∧
  cb_wf (ChecksummedBytes_new_from_inner_data (cb_data cb) sum) ∧
  cb_intact (ChecksummedBytes_new_from_inner_data (cb_data cb) sum).
Proof.
  intros Hwf Hin. destruct (cb_shrink_to_fit_spec cb Hwf Hin) as (cb' & Hs & Hwf' & Hin' & Hd & Hb & Hl).
  unfold ChecksummedBytes_into_inner. rewrite Hs. simpl. exists (cb_checksum cb'). rewrite Hb.
  pose proof (zlen_nonneg (cb_data cb)). destruct Hwf' as (?&?&Hlt&?). rewrite Hb in Hlt. ands; try done.
  unfold cb_intact, ChecksummedBytes_validate in *. simpl in *. by rewrite Hb in Hin'.
Qed.

(** The file of a block and its header. *)
Lemma DiskBlock_new_spec id idx off cb :
  is_u64 idx → is_u64 off → cb_wf cb → cb_intact cb → ∃ b,
    DiskBlock_new id idx off cb = Ok b ∧ db_data b = cb_data cb ∧ header_wf (db_header b) ∧
    db_header b = DiskBlockHeader_new idx off (zlen (cb_data cb)) (oid_etag id) (oid_key id) (dbh_data_checksum (db_header b)) ∧
    let cb' := ChecksummedBytes_new_from_inner_data (cb_data cb) (dbh_data_checksum (db_header b)) in cb_wf cb' ∧ cb_intact cb'.
Proof.
  intros Hidx Hoff Hwf Hin. destruct (into_inner_spec cb Hwf Hin) as (sum & Hi & Hu & Hwf' & Hin').
  unfold DiskBlock_new. rewrite Hi. simpl. eexists. split; [done|]. simpl. ands; try done.
  pose proof (zlen_nonneg (cb_data cb)). destruct Hwf' as (?&?&?&?). unfold header_wf. simpl in *.
  ands; try done; first [apply crc32c_checksum_u32|unfold is_u64; lia].
Qed.

Lemma block_in_own bs b hb block :
  header_wf (db_header b) → bincode_encode (db_header b) = Ok hb → dbh_block_len (db_header b) = zlen (db_data b) →
  block_in bs (hb ++ db_data b) block → block = b.
Proof.
  intros Hwf He Hl (rest & Hd & _ & _ & Hdata). destruct (bincode_sound _ _ _ _ _ Hwf He Hd) as [Hh ->].
  rewrite Hh, Hl, ztake_all in Hdata by done. destruct block, b; simpl in *. congruence.
Qed.

Lemma drop_version l : drop 2 (string_bytes CACHE_VERSION ++ l) = l.
Proof. done. Qed.
Lemma take_version l : take 2 (string_bytes CACHE_VERSION ++ l) = string_bytes CACHE_VERSION.
Proof. done. Qed.

Lemma file_ok_put bs id idx blk b hb :
  0 < bs → zlen (objs id) < u64_modulus → block_of bs (objs id) idx blk →
  DiskBlock_new id idx (idx * bs) blk = Ok b → bincode_encode (db_header b) = Ok hb →
  file_ok bs (string_bytes CACHE_VERSION ++ hb ++ db_data b).
Proof.
  intros Hbs Hlen (Hidx & Hin & Hwf & Hint & Hdata) Hnew Henc.
  assert (is_u64 idx ∧ is_u64 (idx * bs)) as [Hu1 Hu2] by (unfold is_u64; nia).
  destruct (DiskBlock_new_spec id idx (idx * bs) blk) as (b' & Hb' & Hd & Hhwf & Hh & Hwf' & Hint'); [done..|].
  rewrite Hb' in Hnew. injection Hnew as ->. intros block id' idx' data _ _ _ _ Hblock Hok. rewrite drop_version in Hblock.
  apply block_in_own in Hblock as ->; [|done..|by rewrite Hh, Hd].
  apply DiskBlock_data_inv in Hok as (Hk & He & Hi & ->). rewrite Hh in Hk, He, Hi. simpl in *.
  assert (id' = id) as -> by (destruct id, id'; simpl in *; congruence). subst idx'. rewrite Hd. unfold block_of. ands; try done.
  unfold cb_data at 1. simpl. rewrite zslice_full. exact Hdata.
Qed.

Lemma put_block_disk_ok c id idx offset blk size :
  disk_ok c → block_request (dcc_block_size (dc_config c)) (objs id) idx offset size →
  block_of (dcc_block_size (dc_config c)) (objs id) idx blk →
  let '(c', r) := DiskDataCache_put_block c id idx offset blk size in
  disk_ok c' ∧ dc_config c' = dc_config c ∧ r ≠ Panic.
Proof.
  intros Hok (Hidx & Hin & Hlen & -> & ->) Hblk. set (bs := dcc_block_size (dc_config c)) in *.
  assert (0 < bs) as Hbs by apply Hok. unfold DiskDataCache_put_block. fold bs. rewrite wmul_small by (unfold is_u64; nia).
  rewrite Z.eqb_refl. simpl. destruct (DiskBlock_new_spec id idx (idx * bs) blk) as (b & Hnew & _);
    [unfold is_u64; nia..|apply Hblk|apply Hblk|]. rewrite Hnew.
  destruct (evict_if_needed c) as [c1 r1] eqn:Hev. apply disk_ok_evict in Hev as (Hok1 & Hr1 & Hcfg1); [|done].
  destruct r1 as [[]| |]; simpl; [|done|done].
  destruct (DiskDataCache_write_block c1 b) as [c2 r2] eqn:Hw. apply write_block_spec in Hw as [Hs2 Hw].
  assert (disk_ok c2) as Hok2 by (by eapply disk_ok_same). destruct Hs2 as (Hcfg2 & _).
  destruct r2 as [[content n]| |]; simpl; [|by rewrite Hcfg2|done].
  destruct (dc_io c2) as [c3 r3] eqn:Hio. apply dc_io_same in Hio as [Hs3 Hr3].
  assert (disk_ok c3) as Hok3 by (by eapply disk_ok_same). destruct Hs3 as (Hcfg3 & _).
  destruct r3 as [[]| |]; simpl; [|by rewrite Hcfg3, Hcfg2|done].
  assert (∀ u, disk_ok {| dc_config := dc_config c3; dc_usage := u;
      dc_disk := disk_write_file (dc_disk c3) (get_path_for_block_key (dc_config c) (DiskBlockKey_new id idx)) content |}) as Hfin.
  { intros u. destruct Hw as (hb & He & -> & _). split; [apply Hok3|]. simpl. apply map_Forall_insert_2; [|apply Hok3].
    rewrite Hcfg3, Hcfg2, Hcfg1. by eapply file_ok_put. }
  destruct (dc_usage c3); (split; [apply Hfin|]; simpl; split; [congruence|done]).
Qed.

Lemma get_block_disk_ok c id idx offset size :
  disk_ok c → block_request (dcc_block_size (dc_config c)) (objs id) idx offset size →
  let '(c', r) := DiskDataCache_get_block c id idx offset size in
  disk_ok c' ∧ dc_config c' = dc_config c ∧
  match r with Ok (Some block) => block_of (dcc_block_size (dc_config c)) (objs id) idx block | Panic => False | _ => True end.
Proof.
  intros Hok (Hidx & Hin & Hlen & -> & ->). assert (0 < dcc_block_size (dc_config c)) as Hbs by apply Hok.
  unfold DiskDataCache_get_block. rewrite wmul_small by (unfold is_u64; nia). rewrite Z.eqb_refl. simpl.
  destruct (DiskDataCache_read_block _ _ _ _ _) as [c1 r] eqn:Hr. apply read_block_spec in Hr as [Hs Hr].
  assert (disk_ok c1) as Hok1 by (by eapply disk_ok_same). destruct Hs as (Hcfg & _).
  destruct r as [[data|]| |]; [|by rewrite Hcfg..|done].
  assert (block_of (dcc_block_size (dc_config c)) (objs id) idx data) as Hdata.
  { destruct Hr as (file & block & Hf & Hv & Hb & Hd). eapply Hok in Hf. by eapply Hf. }
  destruct (dc_usage c1); simpl; by ands.
Qed.

(** The disk cache keeps the promise of the interface, whatever fails and whatever collides. *)
#[export] Program Instance DiskDataCache_laws : DataCacheLaws DiskDataCache objs := {| cache_ok := disk_ok |}.
Next Obligation.
  intros c id idx offset size Hok Hreq. simpl in *. pose proof (get_block_disk_ok c id idx offset size Hok Hreq) as Hg.
  destruct (DiskDataCache_get_block _ _ _ _ _). destruct Hg as (?&Hcfg&?). by rewrite Hcfg.
Qed.
Next Obligation.
  intros c id idx offset block size Hok Hreq Hb. simpl in *.
  pose proof (put_block_disk_ok c id idx offset block size Hok Hreq Hb) as Hg.
  destruct (DiskDataCache_put_block _ _ _ _ _ _). destruct Hg as (?&Hcfg&?). by rewrite Hcfg.
Qed.

Lemma disk_ok_new config disk :
  0 < dcc_block_size config → map_Forall (λ _, file_ok (dcc_block_size config)) (disk_files disk) →
  disk_ok (DiskDataCache_new config disk).
Proof. done. Qed.
End coherence.
