(* ===== verification/DiskCacheSpec.v ===== *)
(** * Correctness of the disk cache

    Theorems on sequences of operations of [DiskDataCache]: what it returns, what
    it can still return after a successful put, and how much disk space its files
    take.  [fixint_bincode] is the binary format of the headers, written out to
    show that the laws assumed of bincode can hold. *)

From S2P Require Import Prelude Checksums Part DataCache LinkedHashMap BlockFormat Pool DiskCache.
Local Open Scope Z_scope.

(** ** Headers in the format of bincode with fixed-size little-endian integers *)

Definition enc_int (n : nat) (x : Z) : bytes := rev (be_bytes n x).
Definition dec_int (n : nat) (bs : bytes) : outcome BincodeError (Z * bytes) :=
  if (length bs <? n)%nat then Err (BincodeIo "unexpected end") else Ok (from_be_bytes (rev (take n bs)), drop n bs).
Definition enc_string (s : string) : bytes := enc_int 8 (zlen (string_bytes s)) ++ string_bytes s.
Definition dec_string (bs : bytes) : outcome BincodeError (string * bytes) :=
  let! '(n, bs) := dec_int 8 bs in
  if zlen bs <? n then Err (BincodeIo "unexpected end") else Ok (bytes_string (ztake n bs), zdrop n bs).

Definition fixint_bytes (h : DiskBlockHeader) : bytes :=
  enc_int 8 (dbh_block_idx h) ++ enc_int 8 (dbh_block_offset h) ++ enc_int 8 (dbh_block_len h) ++
  enc_string (dbh_etag h) ++ enc_string (dbh_s3_key h) ++ enc_int 4 (dbh_data_checksum h) ++ enc_int 4 (dbh_header_checksum h).
Definition fixint_encode (h : DiskBlockHeader) : outcome BincodeError bytes :=
  if zlen (fixint_bytes h) <=? BINCODE_HEADER_MAX_SIZE then Ok (fixint_bytes h) else Err (BincodeOther "limit exceeded").
Definition fixint_decode (bs : bytes) : outcome BincodeError (DiskBlockHeader * bytes) :=
  let! '(block_idx, bs) := dec_int 8 bs in
  let! '(block_offset, bs) := dec_int 8 bs in
  let! '(block_len, bs) := dec_int 8 bs in
  let! '(etag, bs) := dec_string bs in
  let! '(s3_key, bs) := dec_string bs in
  let! '(data_checksum, bs) := dec_int 4 bs in
  let! '(header_checksum, bs) := dec_int 4 bs in
  Ok ({| dbh_block_idx := block_idx; dbh_block_offset := block_offset; dbh_block_len := block_len; dbh_etag := etag;
         dbh_s3_key := s3_key; dbh_data_checksum := data_checksum; dbh_header_checksum := header_checksum |}, bs).

#[export] Instance fixint_bincode : Bincode := {| bincode_encode := fixint_encode; bincode_decode := fixint_decode |}.

Lemma length_enc_int n x : length (enc_int n x) = n.
Proof. unfold enc_int. by rewrite length_rev, length_be_bytes. Qed.
Lemma dec_enc_int n x rest : 0 ≤ x < 256 ^ Z.of_nat n → dec_int n (enc_int n x ++ rest) = Ok (x, rest).
Proof.
  intros Hx. unfold dec_int. rewrite length_app, length_enc_int.
  destruct (Nat.ltb_spec (n + length rest) n); [lia|].
  rewrite take_app_le, take_ge, drop_app_le, drop_ge by (rewrite length_enc_int; lia).
  unfold enc_int. by rewrite rev_involutive, from_be_bytes_be_bytes.
Qed.
Lemma dec_enc_u64 x rest : is_u64 x → dec_int 8 (enc_int 8 x ++ rest) = Ok (x, rest).
Proof. intros Hx. apply dec_enc_int. by replace (256 ^ Z.of_nat 8) with u64_modulus by reflexivity. Qed.
Lemma dec_enc_u32 x rest : is_u32 x → dec_int 4 (enc_int 4 x ++ rest) = Ok (x, rest).
Proof. intros Hx. apply dec_enc_int. by replace (256 ^ Z.of_nat 4) with (2 ^ 32) by reflexivity. Qed.
Lemma dec_enc_string s rest : zlen (string_bytes s) < u64_modulus → dec_string (enc_string s ++ rest) = Ok (s, rest).
Proof.
  intros Hs. unfold dec_string, enc_string. rewrite <- app_assoc. pose proof (zlen_nonneg (string_bytes s)).
  rewrite dec_enc_u64 by (unfold is_u64; lia). simpl. rewrite zlen_app.
  pose proof (zlen_nonneg rest). destruct (Z.ltb_spec (zlen (string_bytes s) + zlen rest) (zlen (string_bytes s))); [lia|].
  unfold ztake, zdrop, zlen. rewrite Nat2Z.id, take_app_length, drop_app_length. by rewrite bytes_string_bytes.
Qed.
Lemma dec_int_total n bs : dec_int n bs ≠ Panic.
Proof. unfold dec_int. by case_match. Qed.
Lemma dec_string_total bs : dec_string bs ≠ Panic.
Proof.
  unfold dec_string. pose proof (dec_int_total 8 bs). destruct (dec_int 8 bs) as [[n bs']| |]; simpl; [by case_match|done|done].
Qed.

Lemma zlen_enc_string s : zlen (enc_string s) = 8 + zlen (string_bytes s).
Proof. unfold enc_string. by rewrite zlen_app. Qed.

Lemma fixint_round_trip h b rest : header_wf h → fixint_encode h = Ok b → fixint_decode (b ++ rest) = Ok (h, rest).
Proof.
  intros (H1 & H2 & H3 & H4 & H5) Henc. unfold fixint_encode in Henc.
  destruct (Z.leb_spec (zlen (fixint_bytes h)) BINCODE_HEADER_MAX_SIZE) as [Hlen|]; [|done].
  assert (b = fixint_bytes h) as -> by congruence. clear Henc. unfold fixint_bytes, BINCODE_HEADER_MAX_SIZE in *.
  rewrite !zlen_app, !zlen_enc_string in Hlen.
  pose proof (zlen_nonneg (string_bytes (dbh_etag h))). pose proof (zlen_nonneg (string_bytes (dbh_s3_key h))).
  pose proof (λ n x, zlen_nonneg (enc_int n x)) as Hint.
  assert (zlen (string_bytes (dbh_etag h)) < u64_modulus ∧ zlen (string_bytes (dbh_s3_key h)) < u64_modulus) as [He Hk].
  { pose proof (Hint 8%nat (dbh_block_idx h)). pose proof (Hint 8%nat (dbh_block_offset h)). pose proof (Hint 8%nat (dbh_block_len h)).
    pose proof (Hint 4%nat (dbh_data_checksum h)). pose proof (Hint 4%nat (dbh_header_checksum h)). u64_lia. }
  unfold fixint_decode. rewrite <- !app_assoc.
  do 3 (rewrite dec_enc_u64 by assumption; cbn [outcome_bind]).
  do 2 (rewrite dec_enc_string by assumption; cbn [outcome_bind]).
  do 2 (rewrite dec_enc_u32 by assumption; cbn [outcome_bind]). destruct h. reflexivity.
Qed.

#[export] Instance fixint_laws : BincodeLaws.
Proof.
  split; simpl.
  - intros h b rest h' rest' Hwf He Hd. rewrite (fixint_round_trip h b rest) in Hd by done. by injection Hd as -> ->.
  - intros. by apply fixint_round_trip.
  - intros h. unfold fixint_encode. by case_match.
  - intros bs. unfold fixint_decode.
    repeat (match goal with
      | |- context [dec_int ?n ?b] => pose proof (dec_int_total n b); destruct (dec_int n b) as [[]| |]
      | |- context [dec_string ?b] => pose proof (dec_string_total b); destruct (dec_string b) as [[]| |]
      end; cbn [outcome_bind]; try done).
Qed.

(** ** Histories of a cache

    [DRestart] is a new process on the same cache directory: the index starts empty. *)

Inductive disk_op :=
| DGet (id : ObjectId) (idx offset size : Z)
| DPut (id : ObjectId) (idx offset : Z) (block : ChecksummedBytes) (size : Z)
| DRestart.

Section histories.
Context `{crc : Crc32c, env : IntegrityEnv, bin : Bincode, hash : BlockHash}.
Implicit Types c : DiskDataCache.

(** The state after an operation, and the answer of a [get_block]. *)
Definition disk_apply c (op : disk_op) : DiskDataCache * outcome DataCacheError (option ChecksummedBytes) :=
  match op with
  | DGet id idx offset size => get_block c id idx offset size
  | DPut id idx offset block size =>
      let '(c, r) := put_block c id idx offset block size in (c, let! _ := r in Ok None)
  | DRestart => (DiskDataCache_new (dc_config c) (dc_disk c), Ok None)
  end.
Fixpoint disk_run c (ops : list disk_op) : DiskDataCache * list (outcome DataCacheError (option ChecksummedBytes)) :=
  match ops with
  | [] => (c, [])
  | op :: ops =>
      let '(c, r) := disk_apply c op in
      let '(c, rs) := disk_run c ops in (c, r :: rs)
  end.

Section coherent_histories.
Context `{!Crc32cLaws, !BincodeLaws} (objs : ObjectId → bytes).
Set Default Proof Using "Type*".

(** Requests as the caching part stream makes them: for a block of the object, and puts of that block. *)
Definition disk_op_ok (bs : Z) (op : disk_op) : Prop :=
  match op with
  | DGet id idx offset size => block_request bs (objs id) idx offset size
  | DPut id idx offset block size => block_request bs (objs id) idx offset size ∧ block_of bs (objs id) idx block
  | DRestart => True
  end.
(** An answer: a block, if any, is the one that was asked for. *)
Definition disk_answer_ok (bs : Z) (op : disk_op) (r : outcome DataCacheError (option ChecksummedBytes)) : Prop :=
  match op, r with
  | DGet id idx _ _, Ok (Some block) => block_of bs (objs id) idx block
  | _, Panic => False
  | _, _ => True
  end.

Lemma disk_apply_ok c op :
  disk_ok objs c → disk_op_ok (dcc_block_size (dc_config c)) op →
  let '(c', r) := disk_apply c op in
  disk_ok objs c' ∧ dc_config c' = dc_config c ∧ disk_answer_ok (dcc_block_size (dc_config c)) op r.
Proof.
  intros Hok Hop. destruct op as [id idx offset size|id idx offset block size|]; simpl in *.
  - pose proof (get_block_disk_ok objs c id idx offset size Hok Hop) as Hg.
    destruct (DiskDataCache_get_block _ _ _ _ _) as [c' r]. destruct Hg as (? & ? & Hr). ands; try done.
  - destruct Hop as [Hreq Hb]. pose proof (put_block_disk_ok objs c id idx offset block size Hok Hreq Hb) as Hg.
    destruct (DiskDataCache_put_block _ _ _ _ _ _) as [c' r]. destruct Hg as (? & ? & Hr). ands; try done. by destruct r.
  - by ands.
Qed.

(** C17. The disk cache never serves wrong data.  Start from any cache directory in which every file that would be
    accepted holds a right block (for instance an empty one, or one left by an earlier process), and run any sequence
    of gets, puts and restarts, under any pattern of failing system calls and with any collisions of the hash that
    names the files.  Then no operation panics, and every block that a get returns is intact and is exactly that
    block of that version of the object: a file that belongs to another object, version or index is rejected by its
    header. *)
Theorem disk_cache_coherent config disk ops :
  0 < dcc_block_size config → map_Forall (λ _, file_ok objs (dcc_block_size config)) (disk_files disk) →
  Forall (disk_op_ok (dcc_block_size config)) ops →
  Forall2 (disk_answer_ok (dcc_block_size config)) ops (disk_run (DiskDataCache_new config disk) ops).2.
Proof.
  intros Hbs Hf. pose proof (disk_ok_new objs config disk Hbs Hf) as Hok.
  change (dcc_block_size config) with (dcc_block_size (dc_config (DiskDataCache_new config disk))).
  generalize dependent (DiskDataCache_new config disk). intros c Hok.
  revert c Hok. induction ops as [|op ops IH]; intros c Hok Hops; simpl; [constructor|]. inv Hops.
  pose proof (disk_apply_ok c op Hok ltac:(done)) as Ha. destruct (disk_apply c op) as [c1 r]. destruct Ha as (Hok1 & Hcfg & Hr).
  specialize (IH c1 Hok1). rewrite Hcfg in IH. destruct (disk_run c1 ops) as [c2 rs]. constructor; [done|]. by apply IH.
Qed.
End coherent_histories.

(** ** A block that was put can be read back *)

Section round_trip.
Context `{!Crc32cLaws, !BincodeLaws}.
Set Default Proof Using "Type*".

Lemma io_call_quiet c : quiet c → ∃ d, io_call (dc_disk c) = (d, Ok tt) ∧ quiet (dc_with_disk c d).
Proof.
  unfold quiet, io_call. destruct (disk_io (dc_disk c)) as [|a io] eqn:Hio; intros Hq; [exists (dc_disk c); split; [done|]; simpl; by rewrite Hio|].
  apply Forall_cons_iff in Hq as [<- Hq]. by eexists.
Qed.

Lemma DiskBlock_read_quiet c reader bs b :
  quiet c → block_in bs reader b → ∃ d, DiskBlock_read (dc_disk c) reader bs = (d, Ok b).
Proof.
  intros Hq (rest & Hd & Hbs & Hl & Hdata). unfold DiskBlock_read.
  destruct (io_call_quiet c Hq) as (d1 & -> & Hq1). simpl. rewrite Hd.
  destruct (Z.ltb_spec bs (dbh_block_len (db_header b))); [lia|].
  destruct (io_call_quiet _ Hq1) as (d2 & Hio2 & _). simpl in Hio2. rewrite Hio2. simpl.
  pose proof (fill_pool_buffer (dbh_block_len (db_header b)) rest) as Hf.
  destruct (fill_from_reader _ _) as [buffer rr]. destruct Hf as [(e & -> & ?)|(rest' & -> & _ & Hb)]; [lia|]. simpl.
  rewrite Hb, <- Hdata. destruct b. by eexists.
Qed.

Lemma read_block_quiet c p file b id idx off bs :
  quiet c → disk_files (dc_disk c) !! p = Some file → take 2 file = string_bytes CACHE_VERSION →
  block_in (dcc_block_size (dc_config c)) (drop 2 file) b → DiskBlock_data b id idx off = Ok bs →
  ∃ c', DiskDataCache_read_block c p id idx off = (c', Ok (Some bs)).
Proof.
  intros Hq Hf Hv Hb Hd. unfold DiskDataCache_read_block.
  destruct (dc_io_quiet c Hq) as [c1 Hio1]. rewrite Hio1. apply dc_io_same in Hio1 as [Hs1 _]. simpl.
  pose proof (same_store_quiet _ _ Hs1 Hq) as Hq1. destruct Hs1 as (Hcfg1 & _ & Hf1 & _). rewrite Hf1, Hf.
  destruct (dc_io_quiet c1 Hq1) as [c2 Hio2]. rewrite Hio2. apply dc_io_same in Hio2 as [Hs2 _]. simpl.
  pose proof (same_store_quiet _ _ Hs2 Hq1) as Hq2. destruct Hs2 as (Hcfg2 & _).
  change (length (string_bytes CACHE_VERSION)) with 2%nat. destruct (Nat.ltb_spec (length file) 2) as [Hlt|_].
  { apply (f_equal length) in Hv. rewrite length_take in Hv. change (length (string_bytes CACHE_VERSION)) with 2%nat in Hv. lia. }
  rewrite Hv. rewrite bool_decide_eq_true_2 by done. simpl. rewrite Hcfg2, Hcfg1.
  destruct (DiskBlock_read_quiet c2 (drop 2 file) (dcc_block_size (dc_config c)) b) as [d Hr]; [done..|].
  rewrite Hr. simpl. rewrite Hd. simpl. by eexists.
Qed.

Lemma DiskBlock_data_own id idx off cb b :
  db_header b = DiskBlockHeader_new idx off (zlen (db_data b)) (oid_etag id) (oid_key id) (dbh_data_checksum (db_header b)) →
  cb = ChecksummedBytes_new_from_inner_data (db_data b) (dbh_data_checksum (db_header b)) →
  DiskBlock_data b id idx off = Ok cb.
Proof.
  intros Hh ->. unfold DiskBlock_data, DiskBlockHeader_validate. rewrite Hh. simpl.
  rewrite !bool_decide_eq_true_2, !Z.eqb_refl by done. done.
Qed.

(** What a successful [put_block] leaves behind. *)
Lemma put_block_inv c id idx off blk size c' :
  DiskDataCache_put_block c id idx off blk size = (c', Ok tt) →
  ∃ b hb, DiskBlock_new id idx off blk = Ok b ∧ bincode_encode (db_header b) = Ok hb ∧ dc_config c' = dc_config c ∧
    disk_files (dc_disk c') !! get_path_for_block_key (dc_config c) (DiskBlockKey_new id idx) =
      Some (string_bytes CACHE_VERSION ++ hb ++ db_data b).
Proof.
  unfold DiskDataCache_put_block. case_match; [done|]. destruct (DiskBlock_new id idx off blk) as [b| |]; [|done|done].
  destruct (evict_if_needed c) as [c1 r1] eqn:Hev.
  apply (evict_if_needed_rule (λ c1, dc_config c1 = dc_config c)) in Hev as (Hcfg1 & _); [|by intros ?? [-> _]|done..].
  destruct r1 as [[]| |]; simpl; [|done|done].
  destruct (DiskDataCache_write_block c1 b) as [c2 r2] eqn:Hw. apply write_block_spec in Hw as [Hs2 Hw].
  destruct r2 as [[content n]| |]; simpl; [|done|done]. destruct Hw as (hb & Henc & -> & _).
  destruct (dc_io c2) as [c3 r3] eqn:Hio. apply dc_io_same in Hio as [Hs3 _]. destruct r3 as [[]| |]; simpl; [|done|done].
  destruct Hs2 as (Hcfg2 & _), Hs3 as (Hcfg3 & _). intros [= <-]. exists b, hb.
  destruct (dc_usage c3); simpl; (ands; [done..|congruence|by rewrite lookup_insert_eq]).
Qed.

(** Put then get.  When a put of an intact block of at most [block_size] bytes succeeds and its header is within
    the limit for headers, then a get of that block that meets no I/O error returns the same bytes, intact. *)
Theorem disk_put_get_round_trip c id idx blk size size' c1 :
  let bs := dcc_block_size (dc_config c) in
  is_u64 idx → is_u64 (idx * bs) → cb_wf blk → cb_intact blk → zlen (cb_data blk) ≤ bs →
  (∀ b hb, DiskBlock_new id idx (idx * bs) blk = Ok b → bincode_encode (db_header b) = Ok hb → zlen hb ≤ BINCODE_HEADER_MAX_SIZE) →
  put_block c id idx (idx * bs) blk size = (c1, Ok tt) → quiet c1 →
  ∃ c2 blk', get_block c1 id idx (idx * bs) size' = (c2, Ok (Some blk')) ∧ cb_data blk' = cb_data blk ∧ cb_intact blk'.
Proof.
  intros bs Hidx Hoff Hwf Hin Hlen Hmax Hput Hq. simpl in *.
  destruct (put_block_inv _ _ _ _ _ _ _ Hput) as (b & hb & Hnew & Henc & Hcfg & Hfile).
  destruct (DiskBlock_new_spec id idx (idx * bs) blk) as (b' & Hb' & Hd & Hhwf & Hh & Hwf' & Hin'); [done..|].
  rewrite Hnew in Hb'. injection Hb' as <-. specialize (Hmax b hb Hnew Henc).
  set (blk' := ChecksummedBytes_new_from_inner_data (db_data b) (dbh_data_checksum (db_header b))).
  destruct (read_block_quiet c1 (get_path_for_block_key (dc_config c) (DiskBlockKey_new id idx))
    (string_bytes CACHE_VERSION ++ hb ++ db_data b) b id idx (idx * bs) blk') as [c2 Hread];
    [done|done|done| |by apply DiskBlock_data_own; [rewrite Hd|]|].
  { rewrite drop_version, Hcfg. exists (db_data b). rewrite Hh at 2 3 4. simpl. rewrite Hd.
    ands; [by rewrite <- Hd; apply bincode_complete|done|done|by rewrite ztake_all]. }
  unfold DiskDataCache_get_block. rewrite Hcfg. fold bs. rewrite wmul_small by done. rewrite Z.eqb_refl. simpl. rewrite Hread.
  eexists _, blk'. split; [done|]. unfold blk'. rewrite Hd. split; [|done]. unfold cb_data at 1. simpl. by rewrite zslice_full.
Qed.
End round_trip.
End histories.

(** ** Accounting and the size limit *)

(** The index: distinct blocks, and a total that is the sum of their sizes. *)
Definition usage_ok {K} (u : UsageInfo K) : Prop :=
  NoDup (map fst (ui_entries u)) ∧ Forall (λ e, 0 ≤ e.2) (ui_entries u) ∧ ui_size u = zsum snd (ui_entries u).

Section usage_lemmas.
Context {K : Type} `{!EqDecision K}.
Implicit Types u : UsageInfo K.

Lemma zsum_snd_nonneg (l : list (K * Z)) : Forall (λ e, 0 ≤ e.2) l → 0 ≤ zsum snd l.
Proof. intros H. apply zsum_nonneg. intros x Hx. by eapply list.Forall_forall in H. Qed.

Lemma usage_ok_new : usage_ok (UsageInfo_new (K := K)).
Proof. unfold usage_ok; simpl. ands; [constructor|constructor|done]. Qed.

Lemma usage_ok_refresh u k : usage_ok u →
  usage_ok (UsageInfo_refresh u k).1 ∧ ui_entries (UsageInfo_refresh u k).1 ≡ₚ ui_entries u ∧
  ui_size (UsageInfo_refresh u k).1 = ui_size u.
Proof.
  intros (Hnd & Hpos & Hsum). unfold UsageInfo_refresh. pose proof (lhm_get_refresh_perm (ui_entries u) k Hnd) as Hp.
  destruct (lhm_get_refresh (ui_entries u) k) as [entries found]. simpl in *. unfold usage_ok; simpl. ands; try done.
  - eapply NoDup_Permutation_proper; [|exact Hnd]. by apply Permutation_map.
  - by rewrite Hp.
  - by rewrite Hsum, (zsum_perm snd _ _ Hp).
Qed.

Lemma usage_ok_evict u k u' : usage_ok u → ui_size u ≤ u64_max → UsageInfo_evict_lru u = Some (k, u') →
  usage_ok u' ∧ ui_size u' ≤ ui_size u ∧ ∃ n, ui_entries u = (k, n) :: ui_entries u'.
Proof.
  intros (Hnd & Hpos & Hsum) Hmax. unfold UsageInfo_evict_lru. destruct (ui_entries u) as [|[k' n] entries]; [done|].
  intros [= -> <-]. apply list.NoDup_cons in Hnd as [_ Hnd]. apply Forall_cons_iff in Hpos as [Hn Hpos]. simpl in *.
  pose proof (zsum_snd_nonneg _ Hpos). unfold usage_ok, sat_sub; simpl. ands; try done; [lia..|by exists n].
Qed.

Lemma usage_ok_add u k n : usage_ok u → 0 ≤ n → ui_size u + n ≤ u64_max →
  usage_ok (UsageInfo_add u k n) ∧ ui_size (UsageInfo_add u k n) ≤ ui_size u + n.
Proof.
  intros (Hnd & Hpos & Hsum) Hn Hmax. unfold UsageInfo_add, usage_ok; simpl.
  pose proof (zsum_snd_nonneg _ Hpos) as Hs.
  assert (Forall (λ e, 0 ≤ e.2) (lhm_insert (ui_entries u) k n)) as Hpos'.
  { apply list.Forall_app. split; [|by repeat constructor]. apply list.Forall_forall. intros x [_ Hx]%lhm_remove_elem.
    by eapply list.Forall_forall in Hpos. }
  pose proof (lhm_insert_nodup (ui_entries u) k n Hnd) as Hnd'. unfold lhm_insert in *. rewrite zsum_app. simpl.
  destruct (lhm_get (ui_entries u) k) as [old|] eqn:Hg.
  - pose proof (zsum_perm snd _ _ (lhm_remove_perm _ _ _ Hnd Hg)) as Hz. rewrite zsum_app in Hz. simpl in Hz.
    apply lhm_get_elem in Hg. assert (0 ≤ old) by (by eapply list.Forall_forall in Hpos; [|exact Hg]).
    pose proof Hpos' as [Hr _]%list.Forall_app. apply zsum_snd_nonneg in Hr. unfold sat_add, sat_sub. ands; try done; lia.
  - apply lhm_get_None in Hg. rewrite (lhm_remove_absent _ _ Hg) in *. unfold sat_add. ands; try done; lia.
Qed.
End usage_lemmas.

(** A sum over the files is bounded by the sum over the entries that account for them. *)
Lemma zsum_covered {A B} (f : A → Z) (g : B → Z) (l : list A) (k : list B) (R : A → B → Prop) :
  NoDup l → (∀ y, y ∈ k → 0 ≤ g y) →
  (∀ x, x ∈ l → ∃ y, y ∈ k ∧ R x y ∧ f x ≤ g y) → (∀ x x' y, x ∈ l → x' ∈ l → R x y → R x' y → x = x') →
  zsum f l ≤ zsum g k.
Proof.
  revert k. induction l as [|x l IH]; intros k Hnd Hpos Hcov Hinj; simpl; [by apply zsum_nonneg|].
  apply list.NoDup_cons in Hnd as [Hx Hnd]. destruct (Hcov x) as (y & Hy & HR & Hle); [left|].
  apply list_elem_of_split in Hy as (k1 & k2 & ->). rewrite zsum_app. simpl.
  assert (zsum f l ≤ zsum g (k1 ++ k2)); [|rewrite zsum_app in *; lia].
  apply IH; [done|intros y' Hy'; apply Hpos; set_solver| |intros; eapply Hinj; [by right..|done|done]].
  intros x' Hx'. destruct (Hcov x') as (y' & Hy' & HR' & Hle'); [by right|]. exists y'. ands; [|done..].
  apply elem_of_app in Hy' as [?|[->|?]%elem_of_cons]; [set_solver| |set_solver].
  exfalso. apply Hx. erewrite (Hinj x x' y); [done|left|by right|done|done].
Qed.

Section limits.
Context `{crc : Crc32c, env : IntegrityEnv, bin : Bincode, hash : BlockHash} `{!BincodeLaws} (max_size max_block : Z).
Hypothesis max_ok : 0 ≤ max_size ∧ 0 ≤ max_block ∧ max_size + max_block ≤ u64_max.
Set Default Proof Using "Type*".
Implicit Types c : DiskDataCache.

(** Every file is accounted for by an entry of the index; the size of an entry leaves out the version. *)
Definition tracked (config : DiskDataCacheConfig) (files : gmap path bytes) (entries : list (DiskBlockKey * Z)) : Prop :=
  ∀ p f, files !! p = Some f → ∃ k, (k, zlen f - 2) ∈ entries ∧ get_path_for_block_key config k = p.

Definition accounted c : Prop :=
  dcc_limit (dc_config c) = TotalSize max_size ∧ Forall (eq None) (disk_remove_io (dc_disk c)) ∧
  ∃ u, dc_usage c = Some u ∧ usage_ok u ∧ ui_size u ≤ max_size + max_block ∧
    tracked (dc_config c) (disk_files (dc_disk c)) (ui_entries u).

Lemma accounted_same c c' : same_store c c' → accounted c → accounted c'.
Proof. unfold accounted. by intros (-> & -> & -> & -> & _). Qed.

Lemma tracked_perm config files l k : l ≡ₚ k → tracked config files l → tracked config files k.
Proof. intros Hp Ht p f Hf. destruct (Ht p f Hf) as (key & Hk & Hpath). exists key. by rewrite <- Hp. Qed.

Lemma accounted_evicted c u key u' :
  accounted c → dc_usage c = Some u → UsageInfo_evict_lru u = Some (key, u') → accounted (evicted c key u').
Proof.
  intros (Hlim & Hio & u0 & Hu & Hok & Hsize & Ht) Hu0 Hev. rewrite Hu0 in Hu. injection Hu as <-.
  destruct (usage_ok_evict u key u' Hok) as (Hok' & Hle & n & He); [lia|done|].
  assert (tracked (dc_config c) (delete (get_path_for_block_key (dc_config c) key) (disk_files (dc_disk c))) (ui_entries u')) as Ht'.
  { intros p f [Hne Hf]%lookup_delete_Some. destruct (Ht p f Hf) as (k & Hk & Hpath). rewrite He in Hk.
    exists k. apply elem_of_cons in Hk as [[= -> _]|Hk]; done. }
  split; [done|]. unfold evicted, disk_remove_file. simpl.
  destruct (disk_remove_io (dc_disk c)) as [|[e|] rest]; [|by apply Forall_cons_iff in Hio as [? _]|].
  - split; [done|]. exists u'. simpl. ands; try done. lia.
  - apply Forall_cons_iff in Hio as [_ Hio]. split; [done|]. exists u'. simpl. ands; try done. lia.
Qed.

(** The file of a put fits in [max_block] bytes, not counting the version. *)
Definition disk_op_fits (op : disk_op) : Prop :=
  match op with
  | DGet _ _ _ _ => True
  | DPut id idx offset block _ => ∀ b hb,
      DiskBlock_new id idx offset block = Ok b → bincode_encode (db_header b) = Ok hb → zlen hb + zlen (db_data b) ≤ max_block
  | DRestart => False
  end.

Lemma accounted_written c key n content u :
  dcc_limit (dc_config c) = TotalSize max_size → Forall (eq None) (disk_remove_io (dc_disk c)) →
  dc_usage c = Some u → usage_ok u → ui_size u ≤ max_size → tracked (dc_config c) (disk_files (dc_disk c)) (ui_entries u) →
  n = zlen content - 2 → 0 ≤ n ≤ max_block →
  accounted (dc_with_usage (dc_with_disk c (disk_write_file (dc_disk c) (get_path_for_block_key (dc_config c) key) content))
    (Some (UsageInfo_add u key n))).
Proof.
  intros Hlim Hio Hu Hok Hsize Ht -> Hn. split; [done|]. split; [done|]. eexists. split; [done|].
  destruct (usage_ok_add u key (zlen content - 2)) as [Hok' Hle]; [done|lia|lia|]. split; [done|]. split; [lia|].
  simpl. unfold lhm_insert. intros p f Hf. apply lookup_insert_Some in Hf as [[Hp <-]|[Hne Hf]].
  - exists key. split; [|done]. apply elem_of_app. right. by apply list_elem_of_singleton.
  - destruct (Ht p f Hf) as (k & Hk & Hpath). exists k. split; [|done]. apply elem_of_app. left. apply lhm_remove_elem.
    split; [|done]. simpl. by intros ->.
Qed.

Lemma accounted_apply c op : accounted c → disk_op_fits op → accounted (disk_apply c op).1.
Proof.
  intros Hac Hfit. destruct op as [id idx off size|id idx off blk size|]; simpl in *; [| |done].
  - unfold DiskDataCache_get_block. case_match; [done|].
    destruct (DiskDataCache_read_block _ _ _ _ _) as [c1 r] eqn:Hr. apply read_block_spec in Hr as [Hs _].
    apply (accounted_same _ _ Hs) in Hac. destruct r as [[data|]| |]; try done.
    destruct Hac as (Hlim & Hio & u & Hu & Hok & Hsize & Ht). rewrite Hu. simpl.
    destruct (usage_ok_refresh u (DiskBlockKey_new id idx) Hok) as (Hok' & Hp & Hsz). split; [done|]. split; [done|].
    eexists. split; [done|]. simpl. rewrite Hsz. ands; try done. by eapply tracked_perm; [symmetry|].
  - unfold DiskDataCache_put_block. destruct (negb _); [done|].
    destruct (DiskBlock_new id idx off blk) as [b| |]; [|done|done].
    assert (∃ u, dc_usage c = Some u) as [u Hu] by (destruct Hac as (_&_&u&?&_); eauto).
    assert (dcc_limit (dc_config c) = TotalSize max_size) as Hlim by apply Hac.
    destruct (evict_if_needed c) as [c1 r1] eqn:Hev.
    apply (evict_if_needed_rule accounted) in Hev as (Hac1 & _ & Hcfg & Hmax);
      [|apply accounted_same|apply accounted_evicted|done].
    destruct r1 as [[]| |]; simpl; [|done|done]. destruct (Hmax _ _ Hu eq_refl Hlim) as (u1 & Hu1 & Hle).
    destruct (DiskDataCache_write_block c1 b) as [c2 r2] eqn:Hw. apply write_block_spec in Hw as [Hs2 Hw].
    apply (accounted_same _ _ Hs2) in Hac1. destruct r2 as [[content n]| |]; simpl; [|done|done].
    destruct Hw as (hb & Henc & -> & ->). specialize (Hfit b hb eq_refl Henc).
    destruct (dc_io c2) as [c3 r3] eqn:Hio. apply dc_io_same in Hio as [Hs3 _]. apply (accounted_same _ _ Hs3) in Hac1.
    destruct r3 as [[]| |]; simpl; [|done|done].
    destruct Hs2 as (Hcfg2&Hu2&_), Hs3 as (Hcfg3&Hu3&_). rewrite Hu3, Hu2, Hu1.
    destruct Hac1 as (Hlim3 & Hrio & u3 & Hu3' & Hok3 & _ & Ht3).
    assert (u3 = u1) as -> by congruence. rewrite <- Hcfg, <- Hcfg2, <- Hcfg3.
    pose proof (zlen_nonneg hb). pose proof (zlen_nonneg (db_data b)). rewrite wadd_small by (unfold is_u64; unfold u64_max in *; lia).
    apply accounted_written; try done; [|lia].
    simpl. rewrite !zlen_cons, zlen_app. lia.
Qed.

Lemma accounted_run c ops : accounted c → Forall disk_op_fits ops → accounted (disk_run c ops).1.
Proof.
  revert c. induction ops as [|op ops IH]; intros c Hac Hf; simpl; [done|]. apply Forall_cons_iff in Hf as [Hop Hf].
  pose proof (accounted_apply c op Hac Hop) as Ha. destruct (disk_apply c op) as [c1 r].
  specialize (IH c1 Ha Hf). by destruct (disk_run c1 ops).
Qed.

Lemma tracked_total config files entries :
  Forall (λ e, 0 ≤ e.2) entries → tracked config files entries →
  zsum (λ x, zlen x.2) (map_to_list files) ≤ zsum snd entries + 2 * zlen entries.
Proof.
  intros Hpos Ht. assert (zsum snd entries + 2 * zlen entries = zsum (λ e : DiskBlockKey * Z, e.2 + 2) entries) as ->.
  { clear. induction entries as [|[k n] l IH]; simpl; [done|]. autorewrite with zlen. lia. }
  eapply (zsum_covered _ _ _ _ (λ x e, get_path_for_block_key config e.1 = x.1)).
  - apply NoDup_map_to_list.
  - intros e He. eapply list.Forall_forall in Hpos; [|exact He]. simpl in Hpos. lia.
  - intros [p f] Hx%elem_of_map_to_list. destruct (Ht p f Hx) as (k & Hk & Hp). exists (k, zlen f - 2). simpl. ands; try done. lia.
  - intros [p f] [p' f'] [k n] Hx%elem_of_map_to_list Hx'%elem_of_map_to_list HR HR'. simpl in *. congruence.
Qed.

(** C24. The disk cache stays within its limit.  For a cache with a total size limit over an empty directory, after
    any sequence of gets and puts, one after the other, of blocks whose files take at most [max_block] bytes (with the limit, at most
    what 64 bits hold), with any failures of the
    operating system except in removing files: the recorded size is the sum of the sizes of the recorded blocks and
    exceeds the limit by at most one block, and all files together take no more than the recorded size plus the two
    bytes of the version of each. *)
Theorem disk_cache_limit config disk ops :
  dcc_limit config = TotalSize max_size → disk_files disk = ∅ → Forall (eq None) (disk_remove_io disk) →
  Forall disk_op_fits ops →
  let c := (disk_run (DiskDataCache_new config disk) ops).1 in
  ∃ u, dc_usage c = Some u ∧ ui_size u = zsum snd (ui_entries u) ∧ ui_size u ≤ max_size + max_block ∧
    zsum (λ x, zlen x.2) (map_to_list (disk_files (dc_disk c))) ≤ ui_size u + 2 * zlen (ui_entries u).
Proof.
  intros Hlim Hfiles Hrio Hfit c.
  assert (accounted c) as (_ & _ & u & Hu & (Hnd & Hpos & Hsum) & Hsize & Ht).
  { apply accounted_run; [|done]. unfold accounted, DiskDataCache_new; simpl. rewrite Hlim, Hfiles. ands; try done.
    eexists. split; [done|]. split; [apply usage_ok_new|]. simpl. split; [lia|]. intros p f Hp. by rewrite lookup_empty in Hp. }
  exists u. ands; try done. rewrite Hsum. by eapply tracked_total.
Qed.
End limits.

(** ** Concrete runs *)

Module DiskExample.
#[local] Existing Instance worst_hash.
#[local] Existing Instance validating.

Definition id_a : ObjectId := {| oid_key := "a"; oid_etag := "e1" |}.
Definition id_b : ObjectId := {| oid_key := "b"; oid_etag := "e2" |}.
Definition contents (id : ObjectId) : bytes := if decide (id = id_a) then [x01; x02; x03] else [x04; x05; x06; x07; x08].
Definition config (limit : CacheLimit) : DiskDataCacheConfig :=
  {| dcc_cache_directory := ["cache"]; dcc_block_size := 2; dcc_limit := limit |}.
(** The first call of the second operation fails. *)
Definition disk : Disk :=
  {| disk_files := ∅; disk_io := replicate 6 None ++ [Some "EIO"]; disk_remove_io := []; disk_statvfs := [] |}.
Definition block_a : ChecksummedBytes := ChecksummedBytes_new [x01; x02].
Definition block_b : ChecksummedBytes := ChecksummedBytes_new [x04; x05].
Definition put_a : disk_op := DPut id_a 0 0 block_a 3.
Definition put_b : disk_op := DPut id_b 0 0 block_b 5.
Definition ops : list disk_op := [put_a; DGet id_a 0 0 3; DGet id_b 0 0 5; DGet id_a 0 0 3; put_b; DRestart; DGet id_a 0 0 3; DGet id_b 0 0 5].
End DiskExample.
Import DiskExample.

(** All blocks share one file name: what was put for one object is rejected for the other, and replaced by it. *)
Lemma disk_cache_coherent_witness :
  (disk_run (env := validating) (hash := worst_hash) (DiskDataCache_new (config (TotalSize 100)) disk) ops).2 =
    [Ok None; Err (IoFailure "EIO"); Err InvalidBlockContent; Ok (Some block_a); Ok None; Ok None;
     Err InvalidBlockContent; Ok (Some block_b)] ∧
  Forall2 (disk_answer_ok (env := validating) contents 2) ops
    (disk_run (env := validating) (hash := worst_hash) (DiskDataCache_new (config (TotalSize 100)) disk) ops).2.
Proof.
  split; [by vm_compute|].
  apply (disk_cache_coherent (env := validating) (hash := worst_hash) contents (config (TotalSize 100)) disk ops).
  - done.
  - apply map_Forall_empty.
  - repeat constructor; by vm_compute.
Defined.

Lemma disk_put_get_round_trip_witness :
  let '(c1, r) := put_block (DataCache := DiskDataCache_DataCache (env := validating) (hash := worst_hash))
    (DiskDataCache_new (config LimitUnbounded) {| disk_files := ∅; disk_io := []; disk_remove_io := []; disk_statvfs := [] |}) id_b 0 0 block_b 5 in
  r = Ok tt ∧ ∃ c2 blk', get_block (DataCache := DiskDataCache_DataCache (env := validating) (hash := worst_hash)) c1 id_b 0 0 5 =
    (c2, Ok (Some blk')) ∧ cb_data blk' = [x04; x05] ∧ cb_intact (env := validating) blk'.
Proof.
  destruct (put_block _ _ _ _ _ _) as [c1 r] eqn:Hput.
  assert (r = Ok tt ∧ disk_io (dc_disk c1) = []) as [-> Hio] by (vm_compute in Hput; by injection Hput as <- <-).
  split; [done|].
  apply (disk_put_get_round_trip (env := validating) (hash := worst_hash)
    (DiskDataCache_new (config LimitUnbounded) {| disk_files := ∅; disk_io := []; disk_remove_io := []; disk_statvfs := [] |})
    id_b 0 block_b 5 5 c1); try by vm_compute.
  - intros b hb Hb Hhb. vm_compute in Hb. injection Hb as <-. vm_compute in Hhb. injection Hhb as <-. by vm_compute.
  - unfold quiet. by rewrite Hio.
Defined.

(** With a limit of 40 bytes, each put after the first of these two finds one block too many and evicts it. *)
Definition spread_hash : BlockHash := {| sha256 := λ bs, bs; hex_encode := bytes_string |}.
Lemma disk_cache_limit_witness :
  let c := (disk_run (env := validating) (hash := spread_hash) (DiskDataCache_new (config (TotalSize 40)) disk)
    [put_a; put_b; put_b; DGet id_b 0 0 5]).1 in
  map_size (disk_files (dc_disk c)) = 1%nat ∧
  ∃ u, dc_usage c = Some u ∧ ui_size u = zsum snd (ui_entries u) ∧ ui_size u ≤ 40 + 100 ∧
    zsum (λ x, zlen x.2) (map_to_list (disk_files (dc_disk c))) ≤ ui_size u + 2 * zlen (ui_entries u).
Proof.
  split; [by vm_compute|].
  apply (disk_cache_limit (env := validating) (hash := spread_hash) 40 100); [by vm_compute|done|done|constructor|].
  repeat constructor; intros b hb Hb Hhb; vm_compute in Hb; injection Hb as <-; vm_compute in Hhb; injection Hhb as <-; by vm_compute.
Defined.
