(* ===== verification/Upload.v ===== *)
(** * Atomic uploads ([upload.rs], [upload/atomic.rs], [upload/hasher.rs], [fs/sse.rs], [async_util.rs])

    Server-side encryption settings with their checksum, the checksum hashers of
    an upload, the result of a spawned task, and [UploadRequest]: one streaming
    PutObject that accepts sequential writes and, on completion, compares what S3
    reports for the uploaded parts with what was written.

    The streaming request of the S3 client is the interface [PutObjectClient];
    what S3 promises about a completed upload is [PutObjectLaws].  The digests of
    the checksum library are the interface [ChecksumLib].  [std::process::exit] is
    [Panic]. *)

From S2P Require Import Prelude Checksums BlockFormat ClientChecksums.
Local Open Scope Z_scope.

Abbreviation ETag := string.

(** ** Server-side encryption settings *)

Record ServerSideEncryption := {
  sse_type : option string;
  sse_kms_key_id : option string;
  sse_checksum : Z;
}.

Inductive SseCorruptedError :=
| SseChecksumMismatch (expected actual : Z)
| SseTypeMismatch (expected : string) (actual : option string)
| SseKeyMismatch (expected : string) (actual : option string).

Section sse.
Context `{crc : Crc32c}.

Definition opt_bytes (s : option string) : bytes := match s with Some s => string_bytes s | None => [] end.

Definition sse_compute_checksum (type key_id : option string) : Z := crc32c_checksum (opt_bytes type ++ opt_bytes key_id).

Definition ServerSideEncryption_default : ServerSideEncryption :=
  {| sse_type := None; sse_kms_key_id := None; sse_checksum := 0 |}.
Definition ServerSideEncryption_new (type key_id : option string) : ServerSideEncryption :=
  {| sse_type := type; sse_kms_key_id := key_id; sse_checksum := sse_compute_checksum type key_id |}.

Definition sse_validate (s : ServerSideEncryption) : outcome SseCorruptedError () :=
  let computed := sse_compute_checksum (sse_type s) (sse_kms_key_id s) in
  if computed =? sse_checksum s then Ok tt else Err (SseChecksumMismatch (sse_checksum s) computed).

Definition sse_into_inner (s : ServerSideEncryption) : outcome SseCorruptedError (option string * option string) :=
  let! _ := sse_validate s in Ok (sse_type s, sse_kms_key_id s).

Definition sse_verify_response (s : ServerSideEncryption) (type key_id : option string) : outcome SseCorruptedError () :=
  let! _ := sse_validate s in
  let! _ := match sse_type s with
  | Some stored_sse_type => if bool_decide (Some stored_sse_type = type) then Ok tt else Err (SseTypeMismatch stored_sse_type type)
  | None => Ok tt
  end in
  match sse_kms_key_id s with
  | Some stored_key => if bool_decide (Some stored_key = key_id) then Ok tt else Err (SseKeyMismatch stored_key key_id)
  | None => Ok tt
  end.

Lemma sse_into_inner_total s : sse_into_inner s ≠ Panic.
Proof. unfold sse_into_inner, sse_validate. by case_match. Qed.
End sse.

(** ** Checksums of uploaded data *)

Inductive ChecksumAlgorithm := AlgCrc64nvme | AlgCrc32c | AlgCrc32 | AlgSha1 | AlgSha256 | AlgUnknown (name : string).
#[export] Instance ChecksumAlgorithm_eq_dec : EqDecision ChecksumAlgorithm.
Proof. solve_decision. Defined.

(** [UploadChecksum]: an algorithm and the value it computed. *)
Record UploadChecksum := { uc_algorithm : ChecksumAlgorithm; uc_value : string }.

Inductive ChecksumHasherError := UnsupportedChecksumAlgorithm (a : ChecksumAlgorithm) | CrtError (e : string).

(** The checksum library: digests, and the SHA hashers of the CRT, which can fail at any point ([Some] is an error). *)
Class ChecksumLib := {
  checksum_digest : ChecksumAlgorithm → bytes → string;
  crt_new : ChecksumAlgorithm → option string;
  crt_update : ChecksumAlgorithm → bytes → bytes → option string;
  crt_finalize : ChecksumAlgorithm → bytes → option string;
}.

(** A hasher and the data it has been fed. *)
Inductive ChecksumHasher := HasherNone | HasherOf (algorithm : ChecksumAlgorithm) (data : bytes).

Section hasher.
Context `{lib : ChecksumLib}.

Definition crt_result (r : option string) : outcome ChecksumHasherError () := match r with Some e => Err (CrtError e) | None => Ok tt end.
Definition is_sha (a : ChecksumAlgorithm) : bool := match a with AlgSha1 | AlgSha256 => true | _ => false end.

Definition ChecksumHasher_new (checksum_algorithm : option ChecksumAlgorithm) : outcome ChecksumHasherError ChecksumHasher :=
  match checksum_algorithm with
  | None => Ok HasherNone
  | Some (AlgUnknown name) => Err (UnsupportedChecksumAlgorithm (AlgUnknown name))
  | Some a =>
      let! _ := (if is_sha a then crt_result (crt_new a) else Ok tt) in
      Ok (HasherOf a [])
  end.

Definition ChecksumHasher_update (h : ChecksumHasher) (data : bytes) : outcome ChecksumHasherError ChecksumHasher :=
  match h with
  | HasherNone => Ok HasherNone
  | HasherOf a seen =>
      let! _ := (if is_sha a then crt_result (crt_update a seen data) else Ok tt) in
      Ok (HasherOf a (seen ++ data))
  end.

Definition ChecksumHasher_finalize (h : ChecksumHasher) : outcome ChecksumHasherError (option UploadChecksum) :=
  match h with
  | HasherNone => Ok None
  | HasherOf a seen =>
      let! _ := (if is_sha a then crt_result (crt_finalize a seen) else Ok tt) in
      Ok (Some {| uc_algorithm := a; uc_value := checksum_digest a seen |})
  end.
End hasher.

(** ** Errors of an upload *)

(** [ObjectClientError]: an error of the service, here of PutObject, or of the client. *)
Inductive PutObjectError :=
| NoSuchBucket | NoSuchKey | EmptyBody | InvalidWriteOffset | BadChecksum | InvalidChecksumType | PreconditionFailed | NotImplemented.
Inductive ClientError := PutServiceError (e : PutObjectError) | OtherClientError (what : string).

Inductive UploadError :=
| OutOfOrderWrite (write_offset expected_offset : Z)
| PutRequestFailed (e : ClientError)
| UploadAlreadyTerminated
| UploadSseCorrupted (e : SseCorruptedError)
| ChecksumComputationFailed (e : ChecksumHasherError)
| HeadObjectFailed (e : ClientError)
| ObjectTooBig (maximum_size : Z).

Record PutObjectResult := { por_etag : ETag; por_sse_type : option string; por_sse_kms_key_id : option string }.

(** ** The review of an upload *)

Record UploadReviewPart := { urp_size : Z; urp_checksum : option string }.
Record UploadReview := { ur_parts : list UploadReviewPart }.

Section verify.
Context `{crc : Crc32c, env : IntegrityEnv, b64 : Base64}.

(** The loop over the parts: [None] is [return false]. *)
Fixpoint sum_parts (parts : list UploadReviewPart) (uploaded_size uploaded_checksum : Z) : option (Z * Z) :=
  match parts with
  | [] => Some (uploaded_size, uploaded_checksum)
  | part :: parts =>
      let uploaded_size := wadd uploaded_size (urp_size part) in
      match urp_checksum part with
      | None => None
      | Some checksum =>
          match crc32c_from_base64 checksum with
          | Ok checksum => sum_parts parts uploaded_size (combine_checksums uploaded_checksum checksum (urp_size part))
          | _ => None
          end
      end
  end.

Definition verify_checksums (review : UploadReview) (expected_size expected_checksum : Z) : bool :=
  match sum_parts (ur_parts review) 0 0 with
  | None => false
  | Some (uploaded_size, uploaded_checksum) =>
      if negb (uploaded_size =? expected_size) then false
      else if negb (uploaded_checksum =? expected_checksum) then false
      else true
  end.
End verify.

(** ** The result of a spawned task *)

(** [receiver] holds what the task will send; [None] after it was received, when the sender is gone. *)
Record RemoteResult (T E : Type) := { rr_receiver : option (outcome E T); rr_value : option T }.
Arguments rr_receiver {T E} _.
Arguments rr_value {T E} _.
Arguments Build_RemoteResult {T E} _ _.

Definition RemoteResult_receive {T E} (r : RemoteResult T E) : RemoteResult T E * outcome E (option T) :=
  match rr_value r, rr_receiver r with
  | None, Some (Ok value) => (Build_RemoteResult None (Some value), Ok (Some value))
  | None, Some (Err e) => (Build_RemoteResult None None, Err e)
  | None, Some Panic => (Build_RemoteResult None None, Panic)
  | value, _ => (r, Ok value)
  end.

(** ** The streaming request of the client

    [pr_write] and [pr_review_and_complete] are the methods of [PutObjectRequest]; [put_object] starts one. *)
Class PutObjectClient (R : Type) := {
  put_object : string → string → option string → option string → outcome ClientError R;
  write_part_size : Z;
  pr_write : R → bytes → R * outcome ClientError ();
  pr_review_and_complete : R → (UploadReview → bool) → outcome ClientError PutObjectResult;
}.

Definition MAX_S3_MULTIPART_UPLOAD_PARTS : Z := 10000.
Definition sat_mul (x y : Z) : Z := Z.min (x * y) u64_max.

Record UploadRequest (R : Type) := {
  up_request : RemoteResult R ClientError;
  up_next_request_offset : Z;
  (** the data the CRC32C hasher has been fed *)
  up_hasher : bytes;
  up_maximum_upload_size : Z;
  up_sse : ServerSideEncryption;
}.
Arguments up_request {R} _.
Arguments up_next_request_offset {R} _.
Arguments up_hasher {R} _.
Arguments up_maximum_upload_size {R} _.
Arguments up_sse {R} _.

(** [i64] and [u64] views of an offset *)
Definition as_i64 (x : Z) : Z := if x <? 2 ^ 63 then x else x - u64_modulus.

Section upload_request.
Context `{crc : Crc32c, env : IntegrityEnv, b64 : Base64} {R : Type} `{client : PutObjectClient R}.

(** An algorithm other than CRC32C is [unimplemented!]; the storage class and the trailing checksums are parameters
    of the request that the client does not answer to. *)
Definition UploadRequest_new (bucket key : string) (sse : ServerSideEncryption) (default_checksum_algorithm : option ChecksumAlgorithm)
    : outcome UploadError (UploadRequest R) :=
  assert! (match default_checksum_algorithm with Some AlgCrc32c | None => true | Some _ => false end) in
  let! '(type, key_id) := outcome_map_err UploadSseCorrupted (sse_into_inner sse) in
  let maximum_upload_size := sat_mul write_part_size MAX_S3_MULTIPART_UPLOAD_PARTS in
  Ok {| up_request := Build_RemoteResult (Some (put_object bucket key type key_id)) None;
        up_next_request_offset := 0; up_hasher := []; up_maximum_upload_size := maximum_upload_size; up_sse := sse |}.

Definition UploadRequest_size (u : UploadRequest R) : Z := up_next_request_offset u.

Definition up_with (u : UploadRequest R) (request : RemoteResult R ClientError) (offset : Z) (hasher : bytes) : UploadRequest R :=
  {| up_request := request; up_next_request_offset := offset; up_hasher := hasher;
     up_maximum_upload_size := up_maximum_upload_size u; up_sse := up_sse u |}.

Definition UploadRequest_write (u : UploadRequest R) (offset : Z) (data : bytes) : UploadRequest R * outcome UploadError Z :=
  let next_offset := up_next_request_offset u in
  if negb (offset =? as_i64 next_offset) then (u, Err (OutOfOrderWrite (wrap64 offset) next_offset)) else
  if up_maximum_upload_size u <? wadd next_offset (zlen data) then (u, Err (ObjectTooBig (up_maximum_upload_size u))) else
  let u := up_with u (up_request u) next_offset (up_hasher u ++ data) in
  let '(request, r) := RemoteResult_receive (up_request u) in
  let u := up_with u request next_offset (up_hasher u) in
  match r with
  | Err e => (u, Err (PutRequestFailed e))
  | Panic => (u, Panic)
  | Ok None => (u, Err UploadAlreadyTerminated)
  | Ok (Some req) =>
      let '(req, r) := pr_write req data in
      let u := up_with u (Build_RemoteResult (rr_receiver request) (Some req)) next_offset (up_hasher u) in
      match r with
      | Err e => (u, Err (PutRequestFailed e))
      | Panic => (u, Panic)
      | Ok _ => (up_with u (up_request u) (wadd next_offset (zlen data)) (up_hasher u), Ok (zlen data))
      end
  end.

Definition UploadRequest_complete (u : UploadRequest R) : outcome UploadError PutObjectResult :=
  let size := UploadRequest_size u in
  let checksum := crc32c_checksum (up_hasher u) in
  let! request := outcome_map_err PutRequestFailed (RemoteResult_receive (up_request u)).2 in
  match request with
  | None => Err UploadAlreadyTerminated
  | Some req =>
      let! result := outcome_map_err PutRequestFailed (pr_review_and_complete req (λ review, verify_checksums review size checksum)) in
      match sse_verify_response (up_sse u) (por_sse_type result) (por_sse_kms_key_id result) with
      | Err _ => Panic
      | Panic => Panic
      | Ok _ => Ok result
      end
  end.
End upload_request.

(** ** What S3 promises about a completed upload

    [version] gives the content of an object version.  The review that the client shows to its callback describes the
    parts that S3 received, with the CRC32C that S3 computed for each, and the upload is only completed when the
    callback accepts it; the new version is the concatenation of the parts. *)

Section laws.
Context `{crc : Crc32c, env : IntegrityEnv, b64 : Base64} {R : Type} `{client : PutObjectClient R}.

Definition part_describes (part : UploadReviewPart) (content : bytes) : Prop :=
  urp_size part = zlen content ∧
  ∀ s sum, urp_checksum part = Some s → crc32c_from_base64 s = Ok sum → sum = crc32c_checksum content.

Class PutObjectLaws (version : ETag → bytes) := {
  review_describes req callback result : pr_review_and_complete req callback = Ok result →
    ∃ review parts, callback review = true ∧ Forall2 part_describes (ur_parts review) parts ∧
      version (por_etag result) = concat parts
}.

(** Writes, and the outcome of each. *)
Fixpoint run_writes (u : UploadRequest R) (writes : list (Z * bytes)) : UploadRequest R * list (outcome UploadError Z) :=
  match writes with
  | [] => (u, [])
  | (offset, data) :: writes =>
      let '(u, r) := UploadRequest_write u offset data in
      let '(u, rs) := run_writes u writes in (u, r :: rs)
  end.

(** Each write starts where the previous one ended. *)
Fixpoint sequential (offset : Z) (writes : list (Z * bytes)) : Prop :=
  match writes with
  | [] => True
  | (o, data) :: writes => o = offset ∧ sequential (offset + zlen data) writes
  end.

Lemma sum_parts_spec `{!Crc32cLaws} parts contents size seen size' sum :
  is_integrity_validation_disabled = false → Forall2 part_describes parts contents →
  size = zlen seen → zlen (seen ++ concat contents) < u64_modulus →
  sum_parts parts size (crc32c_checksum seen) = Some (size', sum) →
  size' = zlen (seen ++ concat contents) ∧ sum = crc32c_checksum (seen ++ concat contents).
Proof.
  intros Hd Hparts. revert size seen. induction Hparts as [|part content parts contents [Hsize Hsum] _ IH]; intros size seen Hs Hlen; simpl.
  - intros [= <- <-]. by rewrite app_nil_r.
  - simpl in Hlen. rewrite app_assoc in *. destruct (urp_checksum part) as [s|] eqn:Hc; [|done].
    destruct (crc32c_from_base64 s) as [c| |] eqn:Hb; [|done|done]. rewrite (Hsum s c eq_refl Hb).
    unfold combine_checksums. rewrite Hd, Hsize, crc32c_combine_app. apply IH; [|done].
    rewrite Hs, zlen_app. apply wadd_small. rewrite !zlen_app in Hlen. pose proof (zlen_nonneg seen).
    pose proof (zlen_nonneg content). pose proof (zlen_nonneg (concat contents)). unfold is_u64. lia.
Qed.

(** A write that was accepted. *)
Lemma write_accepted u offset data u' n :
  0 ≤ up_next_request_offset u → up_next_request_offset u + zlen data < 2 ^ 63 → UploadRequest_write u offset data = (u', Ok n) →
  offset = up_next_request_offset u ∧ up_hasher u' = up_hasher u ++ data ∧
  up_next_request_offset u' = up_next_request_offset u + zlen data ∧ n = zlen data.
Proof.
  intros H0 Hlt Hw. pose proof (zlen_nonneg data). unfold UploadRequest_write, as_i64 in Hw.
  destruct (Z.ltb_spec (up_next_request_offset u) (2 ^ 63)); [|lia].
  destruct (Z.eqb_spec offset (up_next_request_offset u)) as [->|]; simpl in Hw; [|by simplify_eq].
  case_match; [done|]. destruct (RemoteResult_receive _) as [request [[req|]| |]]; simplify_eq/=.
  destruct (pr_write req data) as [req' [[]| |]]; simplify_eq/=. ands; try done. apply wadd_small. u64_lia.
Qed.

Lemma run_writes_spec u writes u' rs :
  0 ≤ up_next_request_offset u → up_next_request_offset u + zlen (concat (map snd writes)) < 2 ^ 63 →
  run_writes u writes = (u', rs) → Forall (λ r, ∃ n, r = Ok n) rs →
  sequential (up_next_request_offset u) writes ∧ up_hasher u' = up_hasher u ++ concat (map snd writes) ∧
  up_next_request_offset u' = up_next_request_offset u + zlen (concat (map snd writes)).
Proof.
  revert u rs. induction writes as [|[offset data] writes IH]; intros u rs H0 Hlt; simpl.
  - intros [= <- <-] _. by rewrite app_nil_r, zlen_nil, Z.add_0_r.
  - destruct (UploadRequest_write u offset data) as [u1 r] eqn:Hw. destruct (run_writes u1 writes) as [u2 rs'] eqn:Hrun.
    intros [= <- <-] [[n ->] Hrs]%Forall_cons_iff. simpl in Hlt. rewrite zlen_app in Hlt.
    pose proof (zlen_nonneg data). pose proof (zlen_nonneg (concat (map snd writes))).
    apply write_accepted in Hw as (-> & Hh & Ho & _); [|lia..].
    destruct (IH u1 rs') as (Hseq & Hh' & Ho'); [lia|lia|done|done|]. rewrite Ho in *.
    rewrite Hh', Hh, Ho', <- app_assoc, zlen_app. ands; try done. lia.
Qed.

(** The version that a completed upload created, when [w] was written. *)
Lemma completed_upload `{!Crc32cLaws} version `{!PutObjectLaws version} u w result :
  is_integrity_validation_disabled = false → up_hasher u = w → up_next_request_offset u = zlen w →
  UploadRequest_complete u = Ok result → zlen (version (por_etag result)) < u64_modulus →
  zlen (version (por_etag result)) = zlen w ∧ crc32c_checksum (version (por_etag result)) = crc32c_checksum w.
Proof.
  intros Hd Hh Ho Hc Hv. unfold UploadRequest_complete in Hc. apply outcome_bind_ok in Hc as (req & _ & Hc). destruct req as [req|]; [|done].
  apply outcome_bind_ok in Hc as (result' & Hr & Hc).
  assert (result' = result) as -> by (destruct (sse_verify_response _ _ _); by simplify_eq).
  destruct (pr_review_and_complete req _) as [?| |] eqn:Hp; simplify_eq/=.
  apply review_describes in Hp as (review & parts & Hcb & Hparts & Hver). unfold verify_checksums in Hcb.
  rewrite Hver in *. destruct (sum_parts (ur_parts review) 0 0) as [[size sum]|] eqn:Hsum; [|done].
  rewrite <- crc32c_checksum_nil in Hsum at 2.
  destruct (sum_parts_spec _ _ 0 [] size sum Hd Hparts eq_refl Hv Hsum) as [-> ->].
  unfold UploadRequest_size in Hcb. rewrite Ho in Hcb. simpl in Hcb.
  destruct (Z.eqb_spec (zlen (concat parts)) (zlen (up_hasher u))) as [Hl|]; simpl in Hcb; [|done].
  by destruct (Z.eqb_spec (crc32c_checksum (concat parts)) (crc32c_checksum (up_hasher u))).
Qed.

(** What a completed atomic upload stored.  When a file is uploaded with a single PutObject, every write was
    accepted and the upload completes, then the writes were sequential from offset 0 and the new version of the
    object has exactly the size of the data that was written and its CRC32C: lost, repeated, reordered or altered
    parts are reported before the upload takes effect, up to collisions of the checksum. *)
Theorem atomic_upload_integrity `{!Crc32cLaws} version `{!PutObjectLaws version} bucket key sse alg u0 writes u rs result :
  is_integrity_validation_disabled = false →
  UploadRequest_new bucket key sse alg = Ok u0 →
  zlen (concat (map snd writes)) < 2 ^ 63 →
  run_writes u0 writes = (u, rs) → Forall (λ r, ∃ n, r = Ok n) rs →
  UploadRequest_complete u = Ok result → zlen (version (por_etag result)) < u64_modulus →
  sequential 0 writes ∧
  zlen (version (por_etag result)) = zlen (concat (map snd writes)) ∧
  crc32c_checksum (version (por_etag result)) = crc32c_checksum (concat (map snd writes)).
Proof.
  intros Hd Hnew Hlt Hrun Hrs Hc Hv. unfold UploadRequest_new in Hnew. case_match; [|done]. inv_outcome. destruct x as [type key_id]. simplify_eq.
  apply run_writes_spec in Hrun as (Hseq & Hh & Ho); [|done|exact Hlt|done]. split; [done|]. by eapply completed_upload.
Qed.

Lemma sum_parts_disabled parts size size' sum :
  is_integrity_validation_disabled = true → sum_parts parts size 0 = Some (size', sum) → sum = 0.
Proof.
  intros Hd. revert size. induction parts as [|part parts IH]; intros size; simpl; [by intros [= _ <-]|].
  destruct (urp_checksum part) as [s|]; [|done]. destruct (crc32c_from_base64 s) as [c| |]; [|done|done].
  unfold combine_checksums. rewrite Hd. apply IH.
Qed.

(** C40. Switching off the validation of downloads makes atomic uploads fail.  The environment variable that disables
    download integrity validation also replaces the combined checksum of the uploaded parts by 0, so the review of
    every atomic upload whose data does not happen to have the CRC32C 0 is rejected and the upload never completes. *)
Theorem disabled_download_validation_blocks_uploads version `{!PutObjectLaws version} u result :
  is_integrity_validation_disabled = true → crc32c_checksum (up_hasher u) ≠ 0 → UploadRequest_complete u ≠ Ok result.
Proof.
  intros Hd Hne Hc. unfold UploadRequest_complete in Hc. apply outcome_bind_ok in Hc as (req & _ & Hc).
  destruct req as [req|]; [|done]. apply outcome_bind_ok in Hc as (result' & Hr & _).
  destruct (pr_review_and_complete req _) as [?| |] eqn:Hp; simplify_eq/=.
  apply review_describes in Hp as (review & parts & Hcb & _). unfold verify_checksums in Hcb.
  destruct (sum_parts (ur_parts review) 0 0) as [[size sum]|] eqn:Hsum; [|done].
  apply sum_parts_disabled in Hsum as ->; [|done]. destruct (negb (size =? _)); [done|].
  destruct (Z.eqb_spec 0 (crc32c_checksum (up_hasher u))); [congruence|done].
Qed.
End laws.

(** ** A concrete client

    The request keeps the parts it was given.  S3 reports the CRC32C of each in base64, and the ETag of the
    new version lists its bytes. *)
Module UploadExample.
Definition etag_of (bs : bytes) : ETag := bytes_string bs.
Definition version (etag : ETag) : bytes := string_bytes etag.
Definition show_sum (sum : Z) : string := crc32c_to_base64 sum.

Definition review_of (parts : list bytes) : UploadReview :=
  {| ur_parts := map (λ bs, {| urp_size := zlen bs; urp_checksum := Some (show_sum (crc32c_checksum bs)) |}) parts |}.

#[export] Instance parts_client : PutObjectClient (list bytes) := {|
  put_object _ _ _ _ := Ok [];
  write_part_size := 8 * 1024 * 1024;
  pr_write parts data := (parts ++ [data], Ok tt);
  pr_review_and_complete parts callback :=
    if callback (review_of parts) then Ok {| por_etag := etag_of (concat parts); por_sse_type := Some "AES256"; por_sse_kms_key_id := None |}
    else Err (OtherClientError "review rejected");
|}.

Lemma string_bytes_string bs : string_bytes (bytes_string bs) = bs.
Proof. apply Stdlib.Strings.String.list_byte_of_string_of_list_byte. Qed.

#[export] Instance parts_client_laws : PutObjectLaws version.
Proof.
  split. intros parts callback result. simpl. destruct (callback (review_of parts)) eqn:Hcb; [|done]. intros [= <-].
  exists (review_of parts), parts. ands; [done| |apply string_bytes_string].
  apply Forall2_fmap_l. apply Forall_Forall2_diag. apply list.Forall_forall. intros bs _. split; [done|].
  intros s sum [= <-]. unfold show_sum. rewrite crc32c_base64_round_trip; [by intros [= <-]|by apply Z.mod_pos_bound].
Qed.

Definition started : UploadRequest (list bytes) :=
  {| up_request := Build_RemoteResult (Some (Ok [])) None; up_next_request_offset := 0; up_hasher := [];
     up_maximum_upload_size := sat_mul (8 * 1024 * 1024) MAX_S3_MULTIPART_UPLOAD_PARTS; up_sse := ServerSideEncryption_default |}.
Definition writes : list (Z * bytes) := [(0, [x01; x02]); (2, [x03])].
End UploadExample.
Import UploadExample.

Lemma atomic_upload_integrity_witness :
  let result := {| por_etag := etag_of [x01; x02; x03]; por_sse_type := Some "AES256"; por_sse_kms_key_id := None |} in
  sequential 0 writes ∧ zlen (version (por_etag result)) = zlen (concat (map snd writes)) ∧
  crc32c_checksum (version (por_etag result)) = crc32c_checksum (concat (map snd writes)).
Proof.
  assert (UploadRequest_new (R := list bytes) "bucket" "key" ServerSideEncryption_default None = Ok started) as Hnew by (by vm_compute).
  destruct (run_writes started writes) as [u rs] eqn:Hrun.
  assert (Forall (λ r, ∃ n, r = Ok n) rs) as Hrs.
  { vm_compute in Hrun. injection Hrun as _ <-. repeat constructor; by eexists. }
  assert (UploadRequest_complete (env := validating) u =
    Ok {| por_etag := etag_of [x01; x02; x03]; por_sse_type := Some "AES256"; por_sse_kms_key_id := None |}) as Hc.
  { vm_compute in Hrun. injection Hrun as <- _. by vm_compute. }
  assert (zlen (concat (map snd writes)) < 2 ^ 63) as Hlen by (by vm_compute).
  assert (zlen (version (etag_of [x01; x02; x03])) < u64_modulus) as Hv by (by vm_compute).
  exact (atomic_upload_integrity (env := validating) version "bucket" "key" ServerSideEncryption_default None started writes u rs _
    eq_refl Hnew Hlen Hrun Hrs Hc Hv).
Defined.

Lemma disabled_download_validation_blocks_uploads_witness :
  UploadRequest_complete (env := validating) (run_writes started writes).1 ≠ Err UploadAlreadyTerminated ∧
  UploadRequest_complete (env := true) (run_writes started writes).1 = Err (PutRequestFailed (OtherClientError "review rejected")) ∧
  ∀ result, UploadRequest_complete (env := true) (run_writes started writes).1 ≠ Ok result.
Proof.
  split; [by vm_compute|]. split; [by vm_compute|]. intros result.
  apply (disabled_download_validation_blocks_uploads (env := true) version); by vm_compute.
Defined.
