(* ===== verification/AppendUpload.v ===== *)
(** * Incremental uploads ([upload/incremental.rs])

    An [AppendUploadRequest] collects written data in buffers and hands full
    buffers over a bounded channel to a background task, which appends them to the
    object one PutObject at a time, each conditional on the ETag that the previous
    one returned.  The task reports back over a channel of events.

    The model has both sides in one state.  The task is a step function
    ([task_step]); each operation of the writer that touches a channel first lets
    the task run for a number of steps that the schedule gives (and lets other
    threads reserve or release memory), and then, while it has to wait, lets the
    task run one step at a time.  A wait that could never end is [Panic].  The
    answers of S3 are the interface [AppendClient]; [aq_log] records the PutObject
    requests in order, with their answers. *)

From S2P Require Import Prelude Checksums MemLimiter Pool Upload.
Local Open Scope Z_scope.

(** ** Requests *)

(** Parameters of a PutObject in one request; custom headers are not used. *)
Record PutObjectSingleParams := {
  psp_checksum : option UploadChecksum;
  psp_storage_class : option string;
  psp_server_side_encryption : option string;
  psp_ssekms_key_id : option string;
  psp_if_match : option ETag;
  psp_write_offset_bytes : option Z;
  psp_object_metadata : gmap string string;
}.
Definition PutObjectSingleParams_new : PutObjectSingleParams :=
  {| psp_checksum := None; psp_storage_class := None; psp_server_side_encryption := None; psp_ssekms_key_id := None;
     psp_if_match := None; psp_write_offset_bytes := None; psp_object_metadata := ∅ |}.
Definition PutObjectSingleParams_new_for_append (offset : Z) : PutObjectSingleParams :=
  {| psp_checksum := None; psp_storage_class := None; psp_server_side_encryption := None; psp_ssekms_key_id := None;
     psp_if_match := None; psp_write_offset_bytes := Some offset; psp_object_metadata := ∅ |}.
Definition psp_with_if_match (p : PutObjectSingleParams) (etag : option ETag) : PutObjectSingleParams :=
  {| psp_checksum := psp_checksum p; psp_storage_class := psp_storage_class p; psp_server_side_encryption := psp_server_side_encryption p;
     psp_ssekms_key_id := psp_ssekms_key_id p; psp_if_match := etag; psp_write_offset_bytes := psp_write_offset_bytes p;
     psp_object_metadata := psp_object_metadata p |}.
Definition psp_with_checksum (p : PutObjectSingleParams) (checksum : option UploadChecksum) : PutObjectSingleParams :=
  {| psp_checksum := checksum; psp_storage_class := psp_storage_class p; psp_server_side_encryption := psp_server_side_encryption p;
     psp_ssekms_key_id := psp_ssekms_key_id p; psp_if_match := psp_if_match p; psp_write_offset_bytes := psp_write_offset_bytes p;
     psp_object_metadata := psp_object_metadata p |}.
Definition psp_with_sse (p : PutObjectSingleParams) (type key_id : option string) : PutObjectSingleParams :=
  {| psp_checksum := psp_checksum p; psp_storage_class := psp_storage_class p; psp_server_side_encryption := type;
     psp_ssekms_key_id := key_id; psp_if_match := psp_if_match p; psp_write_offset_bytes := psp_write_offset_bytes p;
     psp_object_metadata := psp_object_metadata p |}.
Definition psp_with_storage_class (p : PutObjectSingleParams) (class : string) : PutObjectSingleParams :=
  {| psp_checksum := psp_checksum p; psp_storage_class := Some class; psp_server_side_encryption := psp_server_side_encryption p;
     psp_ssekms_key_id := psp_ssekms_key_id p; psp_if_match := psp_if_match p; psp_write_offset_bytes := psp_write_offset_bytes p;
     psp_object_metadata := psp_object_metadata p |}.
Definition psp_with_object_metadata (p : PutObjectSingleParams) (metadata : gmap string string) : PutObjectSingleParams :=
  {| psp_checksum := psp_checksum p; psp_storage_class := psp_storage_class p; psp_server_side_encryption := psp_server_side_encryption p;
     psp_ssekms_key_id := psp_ssekms_key_id p; psp_if_match := psp_if_match p; psp_write_offset_bytes := psp_write_offset_bytes p;
     psp_object_metadata := metadata |}.

Record AppendUploadQueueParams := {
  aqp_bucket : string;
  aqp_key : string;
  aqp_initial_offset : Z;
  aqp_initial_etag : option ETag;
  aqp_server_side_encryption : ServerSideEncryption;
  aqp_default_checksum_algorithm : option ChecksumAlgorithm;
  aqp_capacity : nat;
}.

(** The S3 client: the ETag and the checksum algorithm that HeadObject reports, and the answer to the n-th PutObject. *)
Class AppendClient := {
  head_object : string → string → ClientError + (ETag * option ChecksumAlgorithm);
  put_object_single : nat → string → string → PutObjectSingleParams → bytes → ClientError + PutObjectResult;
}.

(** A [Result] of the client, as an outcome. *)
Definition client_result {E A} (f : ClientError → E) (r : ClientError + A) : outcome E A :=
  match r with inl e => Err (f e) | inr a => Ok a end.

(** ** Buffers *)

Record UploadBuffer := { ub_data : PoolBufferMut; ub_hasher : ChecksumHasher }.

Section buffer.
Context `{lib : ChecksumLib}.

Definition UploadBuffer_new (capacity : Z) (alg : option ChecksumAlgorithm) (ml : MemoryLimiter)
    : MemoryLimiter * outcome ChecksumHasherError UploadBuffer :=
  match ChecksumHasher_new alg with
  | Ok hasher => (MemoryLimiter_reserve ml capacity, Ok {| ub_data := pool_buffer capacity; ub_hasher := hasher |})
  | Err e => (ml, Err e)
  | Panic => (ml, Panic)
  end.

Definition UploadBuffer_try_new (capacity : Z) (alg : option ChecksumAlgorithm) (ml : MemoryLimiter)
    : MemoryLimiter * outcome ChecksumHasherError (option UploadBuffer) :=
  let '(reserved, ml) := MemoryLimiter_try_reserve ml capacity in
  if reserved then
    (ml, let! hasher := ChecksumHasher_new alg in Ok (Some {| ub_data := pool_buffer capacity; ub_hasher := hasher |}))
  else (ml, Ok None).

(** Returns the part of the slice that did not fit. *)
Definition UploadBuffer_write (b : UploadBuffer) (slice : bytes) : UploadBuffer * outcome ChecksumHasherError bytes :=
  match append_from_slice (E := ChecksumHasherError) (ub_data b) slice with
  | Ok (data, remaining) =>
      match ChecksumHasher_update (ub_hasher b) (ztake (zlen slice - zlen remaining) slice) with
      | Ok hasher => ({| ub_data := data; ub_hasher := hasher |}, Ok remaining)
      | Err e => ({| ub_data := data; ub_hasher := ub_hasher b |}, Err e)
      | Panic => ({| ub_data := data; ub_hasher := ub_hasher b |}, Panic)
      end
  | _ => (b, Panic)
  end.

Definition UploadBuffer_is_full (b : UploadBuffer) : bool := PoolBufferMut_is_full (ub_data b).
Definition UploadBuffer_len (b : UploadBuffer) : Z := pbm_len (ub_data b).
Definition UploadBuffer_capacity (b : UploadBuffer) : Z := PoolBufferMut_capacity (ub_data b).
Definition UploadBuffer_freeze (b : UploadBuffer) : outcome ChecksumHasherError (bytes * option UploadChecksum) :=
  let! checksum := ChecksumHasher_finalize (ub_hasher b) in
  Ok (PoolBufferMut_data (ub_data b), checksum).
(** [Drop for ReservedBuffer] *)
Definition ReservedBuffer_drop (b : UploadBuffer) (ml : MemoryLimiter) : MemoryLimiter :=
  MemoryLimiter_release ml (UploadBuffer_capacity b).
End buffer.

(** ** The queue and its background task *)

Inductive AppendUploadEvent :=
| ChecksumAlgorithmEvent (alg : option ChecksumAlgorithm)
| PutResponse (result : PutObjectResult)
| ErrorEvent (e : UploadError).

(** Where the task is: before the checksum algorithm is known, waiting for a buffer, waiting for S3, or done. *)
Inductive append_task :=
| TaskStart
| TaskWaiting (offset : Z) (etag : option ETag)
| TaskAppending (buffer : UploadBuffer) (offset : Z) (etag : option ETag)
| TaskFinished.

Record put_record := { put_params : PutObjectSingleParams; put_data : bytes; put_answer : ClientError + PutObjectResult }.

(** What the other threads do before the writer's next operation on a channel: steps of the task, and memory that
    other clients of the limiter reserve (or release, when negative). *)
Record slot := { slot_steps : nat; slot_memory : Z }.

Record AppendUploadQueue := {
  aq_params : AppendUploadQueueParams;
  (** the channel of buffers, and whether it is closed *)
  aq_buffers : list UploadBuffer;
  aq_closed : bool;
  (** the channel of events; its sender is gone when the task has finished *)
  aq_events : list AppendUploadEvent;
  aq_task : append_task;
  aq_log : list put_record;
  aq_checksum_algorithm : option (option ChecksumAlgorithm);
  aq_last_known_result : option PutObjectResult;
  aq_requests_in_queue : Z;
  aq_mem_limiter : MemoryLimiter;
  aq_schedule : list slot;
}.

Section queue.
Context `{crc : Crc32c, lib : ChecksumLib, client : AppendClient}.
Implicit Types q : AppendUploadQueue.

Definition aq_with_task q buffers closed events task log ml : AppendUploadQueue :=
  {| aq_params := aq_params q; aq_buffers := buffers; aq_closed := closed; aq_events := events; aq_task := task; aq_log := log;
     aq_checksum_algorithm := aq_checksum_algorithm q; aq_last_known_result := aq_last_known_result q;
     aq_requests_in_queue := aq_requests_in_queue q; aq_mem_limiter := ml; aq_schedule := aq_schedule q |}.
Definition aq_with_writer q events alg result requests ml schedule : AppendUploadQueue :=
  {| aq_params := aq_params q; aq_buffers := aq_buffers q; aq_closed := aq_closed q; aq_events := events; aq_task := aq_task q;
     aq_log := aq_log q; aq_checksum_algorithm := alg; aq_last_known_result := result; aq_requests_in_queue := requests;
     aq_mem_limiter := ml; aq_schedule := schedule |}.

Definition get_checksum_algorithm (params : AppendUploadQueueParams) : outcome UploadError (option ChecksumAlgorithm) :=
  if aqp_initial_offset params =? 0 then Ok (aqp_default_checksum_algorithm params) else
  let! '(etag, algorithm) := client_result HeadObjectFailed (head_object (aqp_bucket params) (aqp_key params)) in
  if bool_decide (Some etag = aqp_initial_etag params) then Ok algorithm
  else Err (PutRequestFailed (PutServiceError PreconditionFailed)).

(** [append]: the request it makes, if any, and the result. *)
Definition append (n : nat) (params : AppendUploadQueueParams) (buffer : UploadBuffer) (offset : Z) (etag : option ETag)
    : option put_record * outcome UploadError PutObjectResult :=
  match UploadBuffer_freeze buffer with
  | Err e => (None, Err (ChecksumComputationFailed e))
  | Panic => (None, Panic)
  | Ok (data, checksum) =>
      let request_params :=
        if offset =? 0 then PutObjectSingleParams_new
        else psp_with_if_match (PutObjectSingleParams_new_for_append offset) etag in
      match sse_into_inner (aqp_server_side_encryption params) with
      | Err e => (None, Err (UploadSseCorrupted e))
      | Panic => (None, Panic)
      | Ok (type, key_id) =>
          let request_params := psp_with_sse (psp_with_checksum request_params checksum) type key_id in
          let answer := put_object_single n (aqp_bucket params) (aqp_key params) request_params data in
          (Some {| put_params := request_params; put_data := data; put_answer := answer |},
           client_result PutRequestFailed answer)
      end
  end.

(** The task stops on an error: it closes the channel of buffers and reports the error. *)
Definition task_fail q (log : list put_record) (ml : MemoryLimiter) (e : UploadError) : AppendUploadQueue :=
  aq_with_task q (aq_buffers q) true (aq_events q ++ [ErrorEvent e]) TaskFinished log ml.

(** One step of [run_append_loop]; [None] when it waits for a buffer or has finished.  A panic of the task drops its
    ends of both channels. *)
Definition task_step q : option AppendUploadQueue :=
  match aq_task q with
  | TaskStart =>
      Some match get_checksum_algorithm (aq_params q) with
           | Ok algorithm => aq_with_task q (aq_buffers q) (aq_closed q) (aq_events q ++ [ChecksumAlgorithmEvent algorithm])
               (TaskWaiting (aqp_initial_offset (aq_params q)) (aqp_initial_etag (aq_params q))) (aq_log q) (aq_mem_limiter q)
           | Err e => task_fail q (aq_log q) (aq_mem_limiter q) e
           | Panic => aq_with_task q (aq_buffers q) true (aq_events q) TaskFinished (aq_log q) (aq_mem_limiter q)
           end
  | TaskWaiting offset etag =>
      match aq_buffers q with
      | buffer :: buffers =>
          Some (aq_with_task q buffers (aq_closed q) (aq_events q) (TaskAppending buffer offset etag) (aq_log q) (aq_mem_limiter q))
      | [] =>
          if aq_closed q then Some (aq_with_task q [] true (aq_events q) TaskFinished (aq_log q) (aq_mem_limiter q)) else None
      end
  | TaskAppending buffer offset etag =>
      let '(request, r) := append (length (aq_log q)) (aq_params q) buffer offset etag in
      let log := match request with Some request => aq_log q ++ [request] | None => aq_log q end in
      let ml := ReservedBuffer_drop buffer (aq_mem_limiter q) in
      Some match r with
           | Ok result => aq_with_task q (aq_buffers q) (aq_closed q) (aq_events q ++ [PutResponse result])
               (TaskWaiting (wadd offset (UploadBuffer_len buffer)) (Some (por_etag result))) log ml
           | Err e => task_fail q log ml e
           | Panic => aq_with_task q (aq_buffers q) true (aq_events q) TaskFinished log ml
           end
  | TaskFinished => None
  end.

Fixpoint run_task (n : nat) q : AppendUploadQueue :=
  match n with
  | O => q
  | S n => match task_step q with Some q => run_task n q | None => q end
  end.

(** The other threads run before an operation on a channel. *)
Definition tick q : AppendUploadQueue :=
  match aq_schedule q with
  | [] => q
  | s :: schedule =>
      run_task (slot_steps s) (aq_with_writer q (aq_events q) (aq_checksum_algorithm q) (aq_last_known_result q)
        (aq_requests_in_queue q) (MemoryLimiter_reserve (aq_mem_limiter q) (slot_memory s)) schedule)
  end.

(** [event_receiver.recv()]: [Ok None] when the channel is empty and its sender gone. *)
Fixpoint recv_loop (fuel : nat) q : AppendUploadQueue * outcome UploadError (option AppendUploadEvent) :=
  match aq_events q with
  | event :: events =>
      (aq_with_writer q events (aq_checksum_algorithm q) (aq_last_known_result q) (aq_requests_in_queue q) (aq_mem_limiter q)
         (aq_schedule q), Ok (Some event))
  | [] =>
      match aq_task q with
      | TaskFinished => (q, Ok None)
      | _ => match fuel, task_step q with
             | S fuel, Some q => recv_loop fuel q
             | _, _ => (q, Panic)
             end
      end
  end.
Definition recv_event q := recv_loop 4 (tick q).

(** [buffer_sender.send(buffer)]: [Ok false] when the channel is closed, and then the buffer is dropped. *)
Fixpoint send_loop (fuel : nat) q (buffer : UploadBuffer) : AppendUploadQueue * outcome UploadError bool :=
  if aq_closed q then
    (aq_with_task q (aq_buffers q) (aq_closed q) (aq_events q) (aq_task q) (aq_log q) (ReservedBuffer_drop buffer (aq_mem_limiter q)), Ok false)
  else if (length (aq_buffers q) <? aqp_capacity (aq_params q))%nat then
    (aq_with_task q (aq_buffers q ++ [buffer]) (aq_closed q) (aq_events q) (aq_task q) (aq_log q) (aq_mem_limiter q), Ok true)
  else
    match fuel, task_step q with
    | S fuel, Some q => send_loop fuel q buffer
    | _, _ => (q, Panic)
    end.
Definition send_buffer q (buffer : UploadBuffer) := send_loop 4 (tick q) buffer.

(** ** Operations of the writer *)

Definition AppendUploadQueue_new (params : AppendUploadQueueParams) (ml : MemoryLimiter) (schedule : list slot)
    : outcome UploadError AppendUploadQueue :=
  assert! (0 <? aqp_capacity params)%nat in
  Ok {| aq_params := params; aq_buffers := []; aq_closed := false; aq_events := []; aq_task := TaskStart; aq_log := [];
        aq_checksum_algorithm := None; aq_last_known_result := None; aq_requests_in_queue := 0;
        aq_mem_limiter := ml; aq_schedule := schedule |}.

(** "Loop at most once (when first receiving a ChecksumAlgorithm event)." *)
Fixpoint consume_loop (fuel : nat) q : AppendUploadQueue * outcome UploadError bool :=
  match fuel with
  | O => (q, Panic)
  | S fuel =>
      let? q, event := recv_event q in
      match event with
      | None => (q, Ok false)
      | Some (ChecksumAlgorithmEvent alg) =>
          consume_loop fuel (aq_with_writer q (aq_events q) (Some alg) (aq_last_known_result q) (aq_requests_in_queue q)
            (aq_mem_limiter q) (aq_schedule q))
      | Some (PutResponse result) =>
          (aq_with_writer q (aq_events q) (aq_checksum_algorithm q) (Some result) (wsub (aq_requests_in_queue q) 1)
            (aq_mem_limiter q) (aq_schedule q), Ok true)
      | Some (ErrorEvent e) => (q, Err e)
      end
  end.
Definition consume_next_response q := consume_loop 2 q.

(** [while self.consume_next_response().await? {}] *)
Fixpoint drain_loop (fuel : nat) q : AppendUploadQueue * outcome UploadError () :=
  match fuel with
  | O => (q, Panic)
  | S fuel =>
      let? q, more := consume_next_response q in
      if more then drain_loop fuel q else (q, Ok tt)
  end.
(** At most one response for each event, buffer and request in flight. *)
Definition drain_responses q := drain_loop (length (aq_events q) + length (aq_buffers q) + 3) q.

Definition push q (buffer : UploadBuffer) : AppendUploadQueue * outcome UploadError () :=
  let? q, sent := send_buffer q buffer in
  if sent then
    (aq_with_writer q (aq_events q) (aq_checksum_algorithm q) (aq_last_known_result q) (wadd (aq_requests_in_queue q) 1)
      (aq_mem_limiter q) (aq_schedule q), Ok tt)
  else
    let? q, _ := drain_responses q in
    (q, Err UploadAlreadyTerminated).

Definition verify q : AppendUploadQueue * outcome UploadError () :=
  let q := tick q in
  if aq_closed q then
    let? q, _ := drain_responses q in
    (q, Err UploadAlreadyTerminated)
  else (q, Ok tt).

Definition join q : AppendUploadQueue * outcome UploadError (option PutObjectResult) :=
  let q := tick q in
  let terminated := aq_closed q in
  let q := aq_with_task q (aq_buffers q) true (aq_events q) (aq_task q) (aq_log q) (aq_mem_limiter q) in
  let? q, _ := drain_responses q in
  if terminated then (q, Err UploadAlreadyTerminated) else (q, Ok (aq_last_known_result q)).

(** The loop of [get_buffer]: wait for memory while there are requests to wait for. *)
Fixpoint get_buffer_loop (fuel : nat) q (capacity : Z) (alg : option ChecksumAlgorithm) : AppendUploadQueue * outcome UploadError UploadBuffer :=
  match fuel with
  | O => (q, Panic)
  | S fuel =>
      if 0 <? aq_requests_in_queue q then
        let '(ml, r) := UploadBuffer_try_new capacity alg (aq_mem_limiter q) in
        let q := aq_with_writer q (aq_events q) (aq_checksum_algorithm q) (aq_last_known_result q) (aq_requests_in_queue q) ml (aq_schedule q) in
        match r with
        | Err e => (q, Err (ChecksumComputationFailed e))
        | Panic => (q, Panic)
        | Ok (Some buffer) => (q, Ok buffer)
        | Ok None =>
            let? q, more := consume_next_response q in
            if more then get_buffer_loop fuel q capacity alg else (q, Err UploadAlreadyTerminated)
        end
      else
        let '(ml, r) := UploadBuffer_new capacity alg (aq_mem_limiter q) in
        (aq_with_writer q (aq_events q) (aq_checksum_algorithm q) (aq_last_known_result q) (aq_requests_in_queue q) ml (aq_schedule q),
         outcome_map_err ChecksumComputationFailed r)
  end.

Definition get_buffer q (capacity : Z) : AppendUploadQueue * outcome UploadError UploadBuffer :=
  let? q, alg :=
    match aq_checksum_algorithm q with
    | Some alg => (q, Ok alg)
    | None =>
        let? q, event := recv_event q in
        match event with
        | None => (q, Err UploadAlreadyTerminated)
        | Some (ChecksumAlgorithmEvent alg) =>
            (aq_with_writer q (aq_events q) (Some alg) (aq_last_known_result q) (aq_requests_in_queue q) (aq_mem_limiter q)
              (aq_schedule q), Ok alg)
        | Some (PutResponse _) => (q, Panic)
        | Some (ErrorEvent e) => (q, Err e)
        end
    end in
  get_buffer_loop (S (Z.to_nat (aq_requests_in_queue q))) q capacity alg.
End queue.

(** ** The request *)

Record AppendUploadRequest := {
  ar_buffer : option UploadBuffer;
  ar_offset : Z;
  ar_buffer_size : Z;
  ar_upload_queue : AppendUploadQueue;
}.
Definition ar_with (r : AppendUploadRequest) (buffer : option UploadBuffer) (offset : Z) (q : AppendUploadQueue) : AppendUploadRequest :=
  {| ar_buffer := buffer; ar_offset := offset; ar_buffer_size := ar_buffer_size r; ar_upload_queue := q |}.

Section request.
Context `{crc : Crc32c, lib : ChecksumLib, client : AppendClient}.
Implicit Types r : AppendUploadRequest.

Definition AppendUploadRequest_new (buffer_size : Z) (ml : MemoryLimiter) (params : AppendUploadQueueParams) (schedule : list slot)
    : outcome UploadError AppendUploadRequest :=
  let! q := AppendUploadQueue_new params ml schedule in
  Ok {| ar_buffer := None; ar_offset := aqp_initial_offset params; ar_buffer_size := buffer_size; ar_upload_queue := q |}.

(** An operation of the queue, called from the request. *)
Definition on_queue {A} r (res : AppendUploadQueue * outcome UploadError A) : AppendUploadRequest * outcome UploadError A :=
  (ar_with r (ar_buffer r) (ar_offset r) res.1, res.2).

(** A round of the loop of [write], for a slice that is not empty; returns the rest of the slice. *)
Definition write_round r (slice : bytes) : AppendUploadRequest * outcome UploadError bytes :=
  let? r, buffer :=
    match ar_buffer r with
    | Some buffer => (r, Ok buffer)
    | None => on_queue r (get_buffer (ar_upload_queue r) (ar_buffer_size r))
    end in
  let len := zlen slice in
  let '(buffer, res) := UploadBuffer_write buffer slice in
  let r := ar_with r (Some buffer) (ar_offset r) (ar_upload_queue r) in
  match res with
  | Err e => (r, Err (ChecksumComputationFailed e))
  | Panic => (r, Panic)
  | Ok slice =>
      let r := ar_with r (Some buffer) (wadd (ar_offset r) (wsub len (zlen slice))) (ar_upload_queue r) in
      if UploadBuffer_is_full buffer then
        let r := ar_with r None (ar_offset r) (ar_upload_queue r) in
        let? r, _ := on_queue r (push (ar_upload_queue r) buffer) in
        (r, Ok slice)
      else (r, Ok slice)
  end.

(** The loop; every round takes at least one byte of the slice. *)
Fixpoint write_loop (fuel : nat) r (slice : bytes) : AppendUploadRequest * outcome UploadError () :=
  match slice, fuel with
  | [], _ => (r, Ok tt)
  | _, O => (r, Panic)
  | _, S fuel => let? r, slice := write_round r slice in write_loop fuel r slice
  end.

Definition AppendUploadRequest_write r (offset : Z) (data : bytes) : AppendUploadRequest * outcome UploadError Z :=
  let? r, _ := on_queue r (verify (ar_upload_queue r)) in
  if negb (offset =? ar_offset r) then (r, Err (OutOfOrderWrite offset (ar_offset r))) else
  let? r, _ := write_loop (length data) r data in
  (r, Ok (wsub (ar_offset r) offset)).

Definition AppendUploadRequest_complete r : AppendUploadRequest * outcome UploadError (option PutObjectResult) :=
  let? r, _ :=
    match ar_buffer r with
    | Some buffer =>
        let r := ar_with r None (ar_offset r) (ar_upload_queue r) in
        on_queue r (push (ar_upload_queue r) buffer)
    | None =>
        if ar_offset r =? 0 then
          let? r, empty_buffer := on_queue r (get_buffer (ar_upload_queue r) 0) in
          on_queue r (push (ar_upload_queue r) empty_buffer)
        else (r, Ok tt)
    end in
  on_queue r (join (ar_upload_queue r)).

Definition current_offset r : Z := ar_offset r.

(** The buffers a request still holds when it is dropped: its own, those in the channel and the one being sent. *)
Definition task_buffers (t : append_task) : list UploadBuffer := match t with TaskAppending b _ _ => [b] | _ => [] end.
Definition ar_buffers r : list UploadBuffer :=
  option_list (ar_buffer r) ++ task_buffers (aq_task (ar_upload_queue r)) ++ aq_buffers (ar_upload_queue r).
Definition AppendUploadRequest_drop r : MemoryLimiter :=
  foldl (λ ml b, ReservedBuffer_drop b ml) (aq_mem_limiter (ar_upload_queue r)) (ar_buffers r).
End request.

(** [Uploader::start_incremental_upload] *)
Definition MAX_BYTES_IN_QUEUE : Z := 2 * 1024 * 1024 * 1024.
Section uploader.
Context `{crc : Crc32c, lib : ChecksumLib, client : AppendClient}.
Definition start_incremental_upload (buffer_size : Z) (sse : ServerSideEncryption) (default_checksum_algorithm : option ChecksumAlgorithm)
    (ml : MemoryLimiter) (bucket key : string) (initial_offset : Z) (initial_etag : option ETag) (schedule : list slot)
    : outcome UploadError AppendUploadRequest :=
  assert! negb (buffer_size =? 0) in
  let capacity := Z.max (MAX_BYTES_IN_QUEUE / buffer_size) 1 in
  AppendUploadRequest_new buffer_size ml
    {| aqp_bucket := bucket; aqp_key := key; aqp_initial_offset := initial_offset; aqp_initial_etag := initial_etag;
       aqp_server_side_encryption := sse; aqp_default_checksum_algorithm := default_checksum_algorithm;
       aqp_capacity := Z.to_nat capacity |} schedule.
End uploader.
