(* ===== verification/AppendUploadSpec.v ===== *)
(** * Correctness of incremental uploads

    The invariant of the upload pipeline relates what was written to what S3 has
    stored, what is being sent, what is queued and what is still in the buffer of
    the writer.  From it follow the two theorems: a completed upload stored exactly
    the written data after the initial content, and no operation waits forever. *)

From S2P Require Import Prelude Checksums MemLimiter Pool Upload AppendUpload.
Local Open Scope Z_scope.

(** ** What S3 promises about PutObject

    [version] gives the content of an object version.  A plain PutObject creates a version with the data of the
    request; one with a write offset and an ETag succeeds only on the version with that ETag, whose size must be the
    offset, and appends to it. *)
Class AppendLaws `{AppendClient} (version : ETag → bytes) := {
  put_creates n bucket key params data result :
    put_object_single n bucket key params data = inr result → psp_write_offset_bytes params = None →
    version (por_etag result) = data;
  put_appends n bucket key params data result offset etag :
    put_object_single n bucket key params data = inr result →
    psp_write_offset_bytes params = Some offset → psp_if_match params = Some etag →
    zlen (version etag) = offset ∧ version (por_etag result) = version etag ++ data;
}.

Section pipeline.
Context `{crc : Crc32c, lib : ChecksumLib, client : AppendClient} (version : ETag → bytes) `{!AppendLaws version}.
Set Default Proof Using "Type*".
Implicit Types q : AppendUploadQueue.

(** The content before the upload. *)
Definition base (params : AppendUploadQueueParams) : bytes :=
  if aqp_initial_offset params =? 0 then []
  else match aqp_initial_etag params with Some etag => version etag | None => [] end.

Definition buffer_data (b : UploadBuffer) : bytes := PoolBufferMut_data (ub_data b).
(** A buffer holds what was written to it, and its hasher has seen exactly that. *)
Definition buffer_ok (b : UploadBuffer) : Prop :=
  0 ≤ pbm_len (ub_data b) ≤ UploadBuffer_capacity b ∧ UploadBuffer_capacity b < u64_modulus ∧
  match ub_hasher b with HasherNone => True | HasherOf _ seen => seen = buffer_data b end.

(** What is right about a PutObject request, given what has been written. *)
Definition put_ok (params : AppendUploadQueueParams) (written : bytes) (p : put_record) : Prop :=
  (∀ sum, psp_checksum (put_params p) = Some sum → uc_value sum = checksum_digest (uc_algorithm sum) (put_data p)) ∧
  (∀ offset, psp_write_offset_bytes (put_params p) = Some offset → put_data p ≠ [] ∧ is_Some (psp_if_match (put_params p))) ∧
  (∀ result, put_answer p = inr result → ∃ stored, stored `prefix_of` written ∧ version (por_etag result) = base params ++ stored).

(** The ETag that the task will use: that of the initial version, or the one with what was sent so far. *)
Definition etag_ok (params : AppendUploadQueueParams) (log : list put_record) (etag : option ETag) (sent : bytes) : Prop :=
  (log = [] ∧ sent = [] ∧ etag = aqp_initial_etag params) ∨ (∃ e, etag = Some e ∧ version e = base params ++ sent).

Definition is_put_response (e : AppendUploadEvent) : Prop := match e with PutResponse _ => True | _ => False end.
(** The result that [join] will return once all events are consumed. *)
Fixpoint last_response (default : option PutObjectResult) (events : list AppendUploadEvent) : option PutObjectResult :=
  match events with
  | [] => default
  | PutResponse result :: events => last_response (Some result) events
  | _ :: events => last_response default events
  end.

Definition in_flight (t : append_task) : list UploadBuffer := match t with TaskAppending b _ _ => [b] | _ => [] end.
(** The data that was handed to the queue: sent, being sent, and waiting. *)
Definition queued q : bytes := concat (map buffer_data (in_flight (aq_task q) ++ aq_buffers q)).

(** An empty buffer is only queued to create an empty object. *)
Definition sendable (empty : bool) (b : UploadBuffer) : Prop := buffer_ok b ∧ (buffer_data b = [] → empty = true).

(** The events that are waiting for the writer, while the checksum algorithm is unknown and after. *)
Definition events_ok q : Prop :=
  match aq_checksum_algorithm q with
  | None => aq_buffers q = [] ∧ in_flight (aq_task q) = [] ∧ aq_log q = [] ∧ aq_last_known_result q = None ∧
      aq_requests_in_queue q = 0 ∧
      match aq_task q with TaskStart => aq_events q = [] | _ => ∃ alg, aq_events q = [ChecksumAlgorithmEvent alg] end
  | Some _ => aq_task q ≠ TaskStart ∧ Forall is_put_response (aq_events q) ∧
      aq_requests_in_queue q = Z.of_nat (length (aq_events q) + length (in_flight (aq_task q) ++ aq_buffers q))
  end.

(** The pipeline works: [sent] is stored, and [written] was handed to the queue. *)
Record good q (sent written : bytes) (empty : bool) : Prop := {
  good_queued : written = sent ++ queued q;
  good_buffers : Forall (sendable empty) (in_flight (aq_task q) ++ aq_buffers q);
  good_empty : empty = true → aqp_initial_offset (aq_params q) = 0 ∧ written = [];
  good_events : events_ok q;
  good_count : aq_requests_in_queue q ≤ zlen written + (if empty then 1 else 0);
  good_last : match last_response (aq_last_known_result q) (aq_events q) with
              | Some result => version (por_etag result) = base (aq_params q) ++ sent
              | None => aq_log q = [] ∧ sent = []
              end;
  good_created : empty = true → last_response (aq_last_known_result q) (aq_events q) = None → in_flight (aq_task q) ++ aq_buffers q ≠ [];
  good_task : match aq_task q with
              | TaskStart => sent = []
              | TaskWaiting offset etag | TaskAppending _ offset etag =>
                  offset = aqp_initial_offset (aq_params q) + zlen sent ∧ etag_ok (aq_params q) (aq_log q) etag sent ∧
                  (aqp_initial_offset (aq_params q) ≠ 0 → is_Some (aqp_initial_etag (aq_params q)))
              | TaskFinished => aq_closed q = true ∧ aq_buffers q = []
              end;
}.

(** The task has stopped because of an error. *)
Definition bad q : Prop :=
  aq_closed q = true ∧ aq_task q = TaskFinished ∧ ∃ results e,
    aq_events q = map PutResponse results ++ [ErrorEvent e] ∧ zlen results ≤ aq_requests_in_queue q < u64_modulus ∧
    (aq_checksum_algorithm q = None → results = []).

(** Offsets stay within 64 bits, and the channel within its capacity. *)
Definition limits_ok q (written : bytes) : Prop :=
  0 ≤ aqp_initial_offset (aq_params q) ∧ aqp_initial_offset (aq_params q) + zlen written + 1 < u64_modulus ∧
  (0 < aqp_capacity (aq_params q))%nat ∧ (length (aq_buffers q) ≤ aqp_capacity (aq_params q))%nat.

Definition inv q (written : bytes) (empty : bool) : Prop :=
  limits_ok q written ∧ Forall (put_ok (aq_params q) written) (aq_log q) ∧
  ((∃ sent, good q sent written empty) ∨ bad q).

(** ** Steps of the task *)

Lemma buffer_data_len b : buffer_ok b → zlen (buffer_data b) = UploadBuffer_len b.
Proof. intros (Hl & _). unfold buffer_data, PoolBufferMut_data. apply zlen_ztake. exact Hl. Qed.

(** The request that [append] makes for a buffer. *)
Lemma append_spec n params b offset etag sent log :
  buffer_ok b → (offset ≠ 0 → buffer_data b ≠ []) → offset = aqp_initial_offset params + zlen sent → 0 ≤ aqp_initial_offset params →
  etag_ok params log etag sent → (aqp_initial_offset params ≠ 0 → is_Some (aqp_initial_etag params)) →
  match append n params b offset etag with
  | (None, r) => ∃ e, r = Err e
  | (Some p, r) => r = client_result PutRequestFailed (put_answer p) ∧ put_data p = buffer_data b ∧
      (∀ written, sent ++ buffer_data b `prefix_of` written → put_ok params written p) ∧
      (∀ result, put_answer p = inr result → version (por_etag result) = base params ++ sent ++ buffer_data b)
  end.
Proof.
  intros (_ & _ & Hhash) Hne Hoff Hinit Hetag Hsome. unfold append, UploadBuffer_freeze.
  destruct (ChecksumHasher_finalize (ub_hasher b)) as [sum|e|] eqn:Hfin; simpl; [|by eexists|].
  2: { destruct (ub_hasher b) as [|a seen]; simpl in Hfin; [done|]. by destruct (is_sha a), (crt_finalize a seen). }
  pose proof (sse_into_inner_total (aqp_server_side_encryption params)) as Hsse.
  destruct (sse_into_inner _) as [[type key_id]|e|]; simpl; [|by eexists|done].
  set (p := psp_with_sse _ _ _). fold (buffer_data b) in *.
  assert (∀ result, put_object_single n (aqp_bucket params) (aqp_key params) p (buffer_data b) = inr result →
    version (por_etag result) = base params ++ sent ++ buffer_data b) as Hver.
  { intros result Hput. pose proof (zlen_nonneg sent). unfold base. destruct (Z.eqb_spec offset 0) as [H0|H0].
    - assert (sent = []) as -> by (apply zlen_0; lia). rewrite (proj2 (Z.eqb_eq _ 0)) by lia.
      by apply (put_creates _ _ _ _ _ _ Hput).
    - destruct Hetag as [(_ & -> & ->)|(e & -> & Hv)].
      + rewrite zlen_nil in Hoff. destruct Hsome as [e He]; [lia|]. rewrite He in *. rewrite (proj2 (Z.eqb_neq _ 0)) by lia.
        by apply (put_appends _ _ _ _ _ _ offset e Hput).
      + destruct (put_appends _ _ _ _ _ _ offset e Hput) as [_ ->]; [done..|]. rewrite Hv. unfold base. by rewrite app_assoc. }
  ands; try done. intros written Hpre. split; [|split].
  - intros s Hs. simpl in *. subst sum. destruct (ub_hasher b) as [|a seen]; simpl in Hfin; [done|].
    destruct (is_sha a), (crt_finalize a seen); simplify_eq/=; done.
  - simpl. intros o Ho. destruct (Z.eqb_spec offset 0) as [H0|H0]; [done|]. split; [by apply Hne|]. simpl.
    destruct Hetag as [(_ & Hs & ->)|(e & -> & _)]; [|done]. subst sent. rewrite zlen_nil in Hoff. apply Hsome. lia.
  - intros result Hput. exists (sent ++ buffer_data b). split; [done|]. rewrite (Hver result Hput). by rewrite app_assoc.
Qed.

Lemma last_response_app d events event :
  last_response d (events ++ [event]) = match event with PutResponse r => Some r | _ => last_response d events end.
Proof. revert d. induction events as [|[] events IH]; intros d; simpl; auto; by destruct event. Qed.

Lemma put_responses events : Forall is_put_response events → ∃ results, events = map PutResponse results.
Proof.
  induction 1 as [|[|result|] events Hx _ [results ->]]; [by exists []|done|by exists (result :: results)|done].
Qed.

(** The task stops with an error in the middle of something. *)
Lemma bad_stop q log ml e :
  aq_requests_in_queue q < u64_modulus → events_ok q → aq_task q = TaskStart ∨ in_flight (aq_task q) ≠ [] →
  bad (task_fail q log ml e).
Proof.
  unfold events_ok, bad. simpl. intros Hmax Hev Ht. ands; try done. destruct (aq_checksum_algorithm q) as [alg|].
  - destruct Hev as (_ & [results Hr]%put_responses & Hreq). exists results, e. rewrite Hr in *. rewrite length_map in Hreq.
    ands; try done. unfold zlen. lia.
  - destruct Hev as (_ & Hf & _ & _ & Hr & Hevs). destruct Ht as [Ht|Ht]; [|done]. rewrite Ht in Hevs. exists [], e.
    rewrite Hevs, zlen_nil. ands; try done; lia.
Qed.

Lemma get_checksum_algorithm_spec params alg :
  get_checksum_algorithm params = Ok alg → aqp_initial_offset params ≠ 0 → is_Some (aqp_initial_etag params).
Proof.
  unfold get_checksum_algorithm. intros H Hne. rewrite (proj2 (Z.eqb_neq _ _) Hne) in H.
  destruct (head_object _ _) as [e|[etag a]]; simpl in H; [done|]. case_bool_decide as He; [|done]. by rewrite <- He.
Qed.

Lemma get_checksum_algorithm_total params : get_checksum_algorithm params ≠ Panic.
Proof. unfold get_checksum_algorithm. case_match; [done|]. destruct (head_object _ _) as [e|[etag a]]; simpl; [done|]. by case_bool_decide. Qed.

(** The task starts: it finds the checksum algorithm. *)
Lemma good_start q sent written empty alg :
  good q sent written empty → aq_task q = TaskStart → get_checksum_algorithm (aq_params q) = Ok alg →
  good (aq_with_task q (aq_buffers q) (aq_closed q) (aq_events q ++ [ChecksumAlgorithmEvent alg])
    (TaskWaiting (aqp_initial_offset (aq_params q)) (aqp_initial_etag (aq_params q))) (aq_log q) (aq_mem_limiter q)) sent written empty.
Proof.
  intros [Hq Hb Hemp Hev Hcnt Hlast Hcr Htask] Ht Halg. rewrite Ht in Htask. subst sent.
  unfold events_ok in Hev. destruct (aq_checksum_algorithm q) eqn:Ha; [by destruct Hev|].
  destruct Hev as (Hbuf & Hf & Hlog & Hres & Hreq & Hevs). rewrite Ht in Hevs, Hf.
  split; simpl; try done.
  - unfold queued in *. simpl. by rewrite Ht in Hq.
  - by rewrite Ht in Hb.
  - unfold events_ok. simpl. rewrite Ha, Hevs. ands; try done. by exists alg.
  - rewrite last_response_app, Hevs. simpl. by rewrite Hres.
  - rewrite last_response_app. by rewrite Ht in Hcr.
  - ands; [by rewrite zlen_nil, Z.add_0_r|by left|]. by eapply get_checksum_algorithm_spec.
Qed.

(** The task takes a buffer. *)
Lemma good_take q sent written empty b buffers offset etag :
  good q sent written empty → aq_task q = TaskWaiting offset etag → aq_buffers q = b :: buffers →
  good (aq_with_task q buffers (aq_closed q) (aq_events q) (TaskAppending b offset etag) (aq_log q) (aq_mem_limiter q)) sent written empty.
Proof.
  intros [Hq Hb Hemp Hev Hcnt Hlast Hcr Htask] Ht Hbuf. unfold queued, events_ok in *. rewrite Ht, Hbuf in *. simpl in *.
  split; simpl; try done. unfold events_ok; simpl.
  destruct (aq_checksum_algorithm q); [|by destruct Hev]. destruct Hev as (_ & ? & ?). by ands.
Qed.

(** The task gets a response. *)
Lemma good_respond q sent written empty b offset etag result log ml :
  good q sent written empty → aq_task q = TaskAppending b offset etag →
  offset + zlen (buffer_data b) < u64_modulus → 0 ≤ offset →
  version (por_etag result) = base (aq_params q) ++ sent ++ buffer_data b →
  good (aq_with_task q (aq_buffers q) (aq_closed q) (aq_events q ++ [PutResponse result])
    (TaskWaiting (wadd offset (UploadBuffer_len b)) (Some (por_etag result))) log ml) (sent ++ buffer_data b) written empty.
Proof.
  intros [Hq Hb Hemp Hev Hcnt Hlast Hcr Htask] Ht Hlt H0 Hver. unfold queued, events_ok in *. rewrite Ht in *. simpl in *.
  apply Forall_cons_iff in Hb as [[Hok _] Hb]. destruct Htask as (Hoff & _ & Hsome).
  destruct (aq_checksum_algorithm q) as [alg|] eqn:Halg; [|by destruct Hev as (_ & ? & _)].
  destruct Hev as (_ & Hev & Hreq). split; simpl; try done.
  - unfold queued. simpl. by rewrite <- app_assoc.
  - unfold events_ok. simpl. rewrite Halg. ands; [done| |rewrite Hreq, length_app; simpl; lia].
    apply list.Forall_app. split; [done|by repeat constructor].
  - by rewrite last_response_app.
  - by rewrite last_response_app.
  - rewrite <- buffer_data_len by done. pose proof (zlen_nonneg (buffer_data b)).
    ands; [rewrite wadd_small by (unfold is_u64; lia); rewrite zlen_app; lia|right; by eexists|done].
Qed.

Lemma step_limits q written q' : limits_ok q written → task_step q = Some q' → limits_ok q' written.
Proof.
  unfold limits_ok, task_step. intros (?&?&?&?) Hs. destruct (aq_task q); [| | |done].
  - destruct (get_checksum_algorithm _); injection Hs as <-; by ands.
  - destruct (aq_buffers q) as [|b buffers]; [destruct (aq_closed q); [|done]|]; injection Hs as <-; simpl in *; ands; done || lia.
  - destruct (append _ _ _ _ _) as [? []]; injection Hs as <-; by ands.
Qed.

Lemma step_inv q written empty q' : inv q written empty → task_step q = Some q' → inv q' written empty ∧ aq_params q' = aq_params q.
Proof.
  intros (Hp & Hlog & [[sent Hgood]|(_ & Hfin & _)]) Hstep; [|unfold task_step in Hstep; by rewrite Hfin in Hstep].
  pose proof (good_events _ _ _ _ Hgood) as Hev. pose proof (step_limits q written q' Hp Hstep) as Hp'. unfold task_step in Hstep.
  assert (aq_requests_in_queue q < u64_modulus) as Hmax.
  { pose proof (good_count _ _ _ _ Hgood) as Hcnt. destruct Hp as (? & ? & _). destruct empty; lia. }
  destruct (aq_task q) as [|offset etag|b offset etag|] eqn:Ht.
  - pose proof (get_checksum_algorithm_total (aq_params q)) as Htot.
    destruct (get_checksum_algorithm (aq_params q)) as [alg|e|] eqn:Halg; [..|done]; injection Hstep as <-; (split; [|done]); (split; [done|]);
      (split; [done|]); [left; exists sent; by apply good_start|right]; (apply bad_stop; [done|done|by left]).
  - destruct (aq_buffers q) as [|b buffers] eqn:Hbuf.
    + destruct (aq_closed q) eqn:Hc; [|done]. injection Hstep as <-. split; [|done]. split; [done|]. split; [done|]. left. exists sent.
      destruct Hgood as [Hq Hb Hemp _ Hcnt Hlast Hcr Htask]. unfold queued, events_ok in *. rewrite Ht, Hbuf in *. simpl in *.
      split; simpl; try done. unfold events_ok; simpl. destruct (aq_checksum_algorithm q); [|done]. destruct Hev as (_ & ? & ?). by ands.
    + injection Hstep as <-. split; [|done]. split; [done|]. split; [done|]. left. exists sent. by apply good_take.
  - pose proof Hgood as [Hq Hb Hemp _ Hcnt Hlast Hcr Htask]. rewrite Ht in Htask, Hb. destruct Htask as (Hoff & Hetag & Hsome).
    apply Forall_cons_iff in Hb as [[Hok Hne] _].
    assert (sent ++ buffer_data b `prefix_of` written) as Hpre.
    { rewrite Hq. unfold queued. rewrite Ht. simpl. rewrite app_assoc. by apply prefix_app_r. }
    destruct Hp as (H0 & Hlim & _). pose proof (zlen_nonneg sent). pose proof (zlen_nonneg (buffer_data b)).
    assert (zlen sent + zlen (buffer_data b) ≤ zlen written) as Hle.
    { destruct Hpre as [rest ->]. rewrite !zlen_app. pose proof (zlen_nonneg rest). lia. }
    assert (offset ≠ 0 → buffer_data b ≠ []) as Hne'.
    { intros Ho Hd. destruct (Hemp (Hne Hd)) as [Hi ->]. rewrite zlen_nil in Hle. lia. }
    pose proof (append_spec (length (aq_log q)) (aq_params q) b offset etag sent (aq_log q) Hok Hne' Hoff H0 Hetag Hsome) as Happ.
    destruct (append _ _ _ _ _) as [[p|] r].
    + destruct Happ as (-> & Hdata & Hput & Hver).
      assert (Forall (put_ok (aq_params q) written) (aq_log q ++ [p])) as Hlog'
        by (apply list.Forall_app; split; [done|constructor; [by apply Hput|done]]).
      destruct (put_answer p) as [e|result] eqn:Hans; injection Hstep as <-; (split; [|done]); (split; [done|]); (split; [done|]);
        [right; (apply bad_stop; [done|done|right; by rewrite Ht])
        |left; exists (sent ++ buffer_data b); eapply good_respond; eauto; lia].
    + destruct Happ as [e ->]. injection Hstep as <-. (split; [|done]); (split; [done|]); (split; [done|]).
      right. (apply bad_stop; [done|done|right; by rewrite Ht]).
  - done.
Qed.

(** ** The task running on its own *)

Fixpoint replies (events : list AppendUploadEvent) : nat :=
  match events with
  | [] => 0
  | ChecksumAlgorithmEvent _ :: events => replies events
  | _ :: events => S (replies events)
  end.
Lemma replies_app e1 e2 : replies (e1 ++ e2) = (replies e1 + replies e2)%nat.
Proof. induction e1 as [|[] e1 IH]; simpl; lia. Qed.
Lemma replies_le events : (replies events ≤ length events)%nat.
Proof. induction events as [|[] events IH]; simpl; lia. Qed.

(** How many replies the writer can still receive. *)
Definition work q : nat :=
  replies (aq_events q) + length (in_flight (aq_task q)) + length (aq_buffers q) +
  match aq_task q with TaskStart => 1 | _ => 0 end.

(** From [q] to [q'] only the task (and the memory limiter) moved. *)
Definition task_ran q q' : Prop :=
  aq_params q' = aq_params q ∧ aq_checksum_algorithm q' = aq_checksum_algorithm q ∧
  aq_last_known_result q' = aq_last_known_result q ∧ aq_requests_in_queue q' = aq_requests_in_queue q ∧
  (aq_closed q = true → aq_closed q' = true) ∧ (work q' ≤ work q)%nat.
#[local] Instance task_ran_refl : Reflexive task_ran.
Proof. intros q. unfold task_ran. by ands. Qed.
#[local] Instance task_ran_trans : Transitive task_ran.
Proof. intros q1 q2 q3 (?&?&?&?&?&?) (?&?&?&?&?&?). unfold task_ran. ands; try congruence; [eauto|lia]. Qed.

Lemma step_ran q q' : task_step q = Some q' → task_ran q q'.
Proof.
  unfold task_step, task_ran, work. intros Hs. destruct (aq_task q) as [|offset etag|b offset etag|] eqn:Ht; [| | |done].
  - destruct (get_checksum_algorithm (aq_params q)); injection Hs as <-; simpl; ands; try done; rewrite ?replies_app; simpl; lia.
  - destruct (aq_buffers q) as [|b buffers]; [destruct (aq_closed q); [|done]|]; injection Hs as <-; simpl; ands; try done; lia.
  - destruct (append _ _ _ _ _) as [request r]. injection Hs as <-. destruct r; simpl; ands; try done; rewrite ?replies_app; simpl; lia.
Qed.

Lemma run_task_spec n q written empty : inv q written empty → inv (run_task n q) written empty ∧ task_ran q (run_task n q).
Proof.
  revert q. induction n as [|n IH]; intros q Hinv; simpl; [done|]. destruct (task_step q) as [q1|] eqn:Hs; [|done].
  destruct (step_inv q written empty q1 Hinv Hs) as [Hinv1 _]. destruct (IH q1 Hinv1) as [? ?]. split; [done|].
  etrans; [by apply step_ran|done].
Qed.

(** The memory limiter and the schedule do not matter to the invariant. *)
Lemma inv_same q q' written empty :
  aq_params q' = aq_params q → aq_buffers q' = aq_buffers q → aq_closed q' = aq_closed q → aq_events q' = aq_events q →
  aq_task q' = aq_task q → aq_log q' = aq_log q → aq_checksum_algorithm q' = aq_checksum_algorithm q →
  aq_last_known_result q' = aq_last_known_result q → aq_requests_in_queue q' = aq_requests_in_queue q →
  inv q written empty → inv q' written empty ∧ task_ran q q'.
Proof.
  intros Hp Hb Hc He Ht Hl Ha Hr Hn Hinv. split.
  - destruct Hinv as (H1 & H2 & H3). split; [unfold limits_ok; by rewrite Hp, Hb|]. split; [by rewrite Hp, Hl|].
    destruct H3 as [[sent [????]]|Hbad]; [left; exists sent|right; unfold bad in *; by rewrite Hc, Ht, He, Ha, Hn].
    split; unfold queued, events_ok in *; by rewrite ?Hp, ?Hb, ?Hc, ?He, ?Ht, ?Hl, ?Ha, ?Hr, ?Hn.
  - unfold task_ran, work. rewrite Hp, Hb, Hc, He, Ht, Ha, Hr, Hn. by ands.
Qed.

Lemma tick_spec q written empty : inv q written empty → inv (tick q) written empty ∧ task_ran q (tick q).
Proof.
  intros Hinv. unfold tick. destruct (aq_schedule q) as [|s schedule]; [done|].
  set (q1 := aq_with_writer _ _ _ _ _ _ _). destruct (inv_same q q1 written empty) as [Hinv1 Hran]; [done..|].
  destruct (run_task_spec (slot_steps s) q1 written empty Hinv1) as [? ?]. split; [done|]. by etrans.
Qed.

(** ** Receiving events *)

(** Something will happen on the channel of events. *)
Definition expecting q : Prop :=
  aq_closed q = true ∨ aq_checksum_algorithm q = None ∨ 0 < aq_requests_in_queue q.

Lemma task_ran_expecting q q' : task_ran q q' → expecting q → expecting q'.
Proof. intros (_ & Ha & _ & Hr & Hc & _). unfold expecting. rewrite Ha, Hr. intros [?|[?|?]]; auto. Qed.

(** How far the task is from producing an event, or from finishing. *)
Definition steps_to_event (t : append_task) : nat := match t with TaskStart | TaskAppending _ _ _ => 1 | TaskWaiting _ _ => 2 | TaskFinished => 0 end.

Lemma expecting_progress q written empty :
  inv q written empty → expecting q → aq_events q = [] → aq_task q ≠ TaskFinished →
  ∃ q', task_step q = Some q' ∧ (aq_events q' ≠ [] ∨ (steps_to_event (aq_task q') < steps_to_event (aq_task q))%nat).
Proof.
  intros (_ & _ & [[sent Hgood]|(_ & Hfin & _)]) Hexp He Hnf; [|done]. unfold task_step.
  destruct (aq_task q) as [|offset etag|b offset etag|] eqn:Ht; [| | |done].
  - eexists. split; [done|]. destruct (get_checksum_algorithm (aq_params q)); simpl; try (left; by destruct (aq_events q)); right; lia.
  - destruct (aq_buffers q) as [|b buffers] eqn:Hb.
    + assert (aq_closed q = true) as ->.
      { destruct Hexp as [?|[Ha|Hr]]; [done|exfalso..]; pose proof (good_events _ _ _ _ Hgood) as Hev; unfold events_ok in Hev.
        - rewrite Ha, Ht in Hev. destruct Hev as (_ & _ & _ & _ & _ & [alg Hev]). congruence.
        - destruct (aq_checksum_algorithm q); rewrite Ht, ?He, ?Hb in Hev; simpl in Hev; lia. }
      eexists. split; [done|]. right. simpl. lia.
    + eexists. split; [done|]. right. simpl. lia.
  - destruct (append _ _ _ _ _) as [request r]. eexists. split; [done|]. destruct r; simpl; try (left; by destruct (aq_events q)); right; lia.
Qed.

Definition pop_event q events : AppendUploadQueue :=
  aq_with_writer q events (aq_checksum_algorithm q) (aq_last_known_result q) (aq_requests_in_queue q) (aq_mem_limiter q) (aq_schedule q).

Lemma recv_loop_spec fuel q written empty q' r :
  inv q written empty → expecting q → (steps_to_event (aq_task q) ≤ fuel)%nat → recv_loop fuel q = (q', r) →
  (r = Ok None ∧ inv q' written empty ∧ task_ran q q' ∧ aq_events q' = [] ∧ aq_task q' = TaskFinished) ∨
  (∃ q1 event events, r = Ok (Some event) ∧ inv q1 written empty ∧ task_ran q q1 ∧ aq_events q1 = event :: events ∧ q' = pop_event q1 events).
Proof.
  revert q. induction fuel as [|fuel IH]; intros q Hinv Hexp Hf Hr; simpl in Hr;
    (destruct (aq_events q) as [|event events] eqn:He;
      [|injection Hr as <- <-; right; exists q, event, events; by ands]);
    (assert (aq_task q = TaskFinished ∨ aq_task q ≠ TaskFinished) as [Ht|Ht] by (destruct (aq_task q); auto);
      [rewrite Ht in Hr; injection Hr as <- <-; left; by ands|]).
  - destruct (aq_task q); simpl in Hf; try lia. done.
  - destruct (expecting_progress q written empty Hinv Hexp He Ht) as (q1 & Hs & Hprog). rewrite Hs in Hr.
    destruct (step_inv q written empty q1 Hinv Hs) as [Hinv1 _]. pose proof (step_ran q q1 Hs) as Hran.
    assert (recv_loop fuel q1 = (q', r)) as Hr' by (by destruct (aq_task q)).
    assert (expecting q1) as Hexp1 by (by eapply task_ran_expecting).
    destruct Hprog as [Hne|Hlt].
    + destruct (aq_events q1) as [|event events] eqn:He1; [done|]. right. exists q1, event, events.
      destruct fuel; simpl in Hr'; rewrite He1 in Hr'; injection Hr' as <- <-; by ands.
    + destruct (IH q1) as [(-> & ? & ? & ? & ?)|(q2 & event & events & -> & ? & ? & ? & ->)]; [done|done|lia|done|left|right; exists q2, event, events];
        ands; try done; by etrans.
Qed.

Lemma recv_event_spec q written empty q' r :
  inv q written empty → expecting q → recv_event q = (q', r) →
  (r = Ok None ∧ inv q' written empty ∧ task_ran q q' ∧ aq_events q' = [] ∧ aq_task q' = TaskFinished) ∨
  (∃ q1 event events, r = Ok (Some event) ∧ inv q1 written empty ∧ task_ran q q1 ∧ aq_events q1 = event :: events ∧ q' = pop_event q1 events).
Proof.
  intros Hinv Hexp Hr. destruct (tick_spec q written empty Hinv) as [Hinv1 Hran].
  eapply recv_loop_spec in Hr as [(-> & ? & ? & ? & ?)|(q2 & event & events & -> & ? & ? & ? & ->)];
    [left|right; exists q2, event, events|done|by eapply task_ran_expecting|]; [ands; try done; by etrans..|].
  destruct (aq_task (tick q)); simpl; lia.
Qed.

(** The writer learns the checksum algorithm. *)
Lemma pop_algorithm q written empty alg events ml schedule :
  inv q written empty → aq_events q = ChecksumAlgorithmEvent alg :: events →
  inv (aq_with_writer q events (Some alg) (aq_last_known_result q) (aq_requests_in_queue q) ml schedule) written empty.
Proof.
  intros (Hp & Hlog & [[sent Hgood]|(_ & _ & Hbad)]) He; (split; [done|]); (split; [done|]).
  - left. exists sent. destruct Hgood as [Hq Hb Hemp Hev Hcnt Hlast Hcr Htask]. unfold events_ok in Hev. rewrite He in *.
    destruct (aq_checksum_algorithm q); [by destruct Hev as (_ & [? _]%Forall_cons_iff & _)|].
    destruct Hev as (Hbuf & Hf & Hl & Hres & Hreq & Hevs).
    assert (aq_task q ≠ TaskStart ∧ events = []) as [Hnt ->] by (destruct (aq_task q); [done|destruct Hevs as [? [= _ ->]]; done..]).
    split; try done. unfold events_ok. simpl. ands; [done|constructor|]. by rewrite Hreq, Hf, Hbuf.
  - exfalso. destruct Hbad as (results & e & Hevs & _). rewrite He in Hevs. by destruct results.
Qed.

(** The writer receives the result of a request. *)
Lemma pop_response q written empty result events ml schedule :
  inv q written empty → aq_events q = PutResponse result :: events →
  let q' := aq_with_writer q events (aq_checksum_algorithm q) (Some result) (wsub (aq_requests_in_queue q) 1) ml schedule in
  inv q' written empty ∧ aq_requests_in_queue q' = aq_requests_in_queue q - 1 ∧ is_Some (aq_checksum_algorithm q) ∧
  0 < aq_requests_in_queue q.
Proof.
  intros Hinv He. assert (0 < aq_requests_in_queue q < u64_modulus ∧ is_Some (aq_checksum_algorithm q)) as [Hreq Halg].
  { destruct Hinv as ((? & ? & _) & _ & [[sent [_ _ _ Hev Hcnt _ _ _]]|(_ & _ & Hbad)]).
    - unfold events_ok in Hev. rewrite He in Hev. destruct (aq_checksum_algorithm q).
      + destruct Hev as (_ & _ & Hn). simpl in Hn. split; [|done]. destruct empty; lia.
      + destruct Hev as (_ & _ & _ & _ & _ & Hev). destruct (aq_task q); [done|by destruct Hev..].
    - destruct Hbad as (results & e & Hevs & Hn & Hnone). rewrite He in Hevs. destruct results as [|result' results]; [done|].
      rewrite zlen_cons in Hn. pose proof (zlen_nonneg results). split; [lia|].
      destruct (aq_checksum_algorithm q); [done|]. by specialize (Hnone eq_refl). }
  simpl. rewrite wsub_small by (unfold is_u64; lia). ands; [|done|done|lia].
  destruct Halg as [alg Halg]. destruct Hinv as (Hp & Hlog & [[sent Hgood]|(Hc & Hf & Hbad)]); (split; [done|]); (split; [done|]).
  - left. exists sent. destruct Hgood as [Hq Hb Hemp Hev Hcnt Hlast Hcr Htask]. unfold events_ok in Hev. rewrite He, Halg in *.
    destruct Hev as (Hnt & Hev%Forall_cons_iff & Hn). simpl in *. split; simpl; try done; [|lia].
    unfold events_ok; simpl. ands; try done; [apply Hev|lia].
  - right. unfold bad. simpl. ands; try done. destruct Hbad as (results & e & Hevs & Hn & _). rewrite He in Hevs.
    destruct results as [|result' results]; [done|]. injection Hevs as _ Hevs. exists results, e. rewrite zlen_cons in Hn.
    pose proof (zlen_nonneg results). ands; try done; [lia|lia|congruence].
Qed.

Definition ok_log q written : Prop := Forall (put_ok (aq_params q) written) (aq_log q).
(** What an operation of the queue leaves behind, whatever it returns. *)
Definition kept q q' written : Prop := aq_params q' = aq_params q ∧ ok_log q' written.

Lemma inv_kept q q' written empty : inv q' written empty → aq_params q' = aq_params q → kept q q' written.
Proof. by intros (_ & ? & _) ?. Qed.

Lemma consume_loop_spec fuel q written empty q' r :
  inv q written empty → aq_closed q = true ∨ 0 < aq_requests_in_queue q → (fuel = 2 ∨ fuel = 1 ∧ is_Some (aq_checksum_algorithm q))%nat →
  consume_loop fuel q = (q', r) →
  kept q q' written ∧
  match r with
  | Ok true => inv q' written empty ∧ (work q' < work q)%nat ∧ aq_requests_in_queue q' = aq_requests_in_queue q - 1 ∧
      is_Some (aq_checksum_algorithm q') ∧ (aq_closed q = true → aq_closed q' = true)
  | Ok false => inv q' written empty ∧ aq_events q' = [] ∧ aq_task q' = TaskFinished
  | Err _ => True
  | Panic => False
  end.
Proof.
  revert q. induction fuel as [|fuel IH]; intros q Hinv Hexp Hfuel; [lia|]. simpl.
  destruct (recv_event q) as [q1 r1] eqn:Hrecv.
  apply (recv_event_spec q written empty) in Hrecv; [|done|destruct Hexp as [?|?]; [by left|by right; right]].
  destruct Hrecv as [(-> & Hinv1 & Hran & He & Hf)|(q2 & event & events & -> & Hinv2 & Hran & He & ->)]; simpl.
  { intros [= <- <-]. split; [|done]. eapply inv_kept; [done|]. apply Hran. }
  destruct Hran as (Hp & Ha & Hl & Hn & Hc & Hw).
  destruct event as [alg|result|e].
  - assert (aq_checksum_algorithm q2 = None) as Hnone.
    { destruct Hinv2 as (_ & _ & [[sent [_ _ _ Hev _ _ _ _]]|(_ & _ & Hbad)]).
      - unfold events_ok in Hev. rewrite He in Hev. destruct (aq_checksum_algorithm q2); [|done].
        by destruct Hev as (_ & [? _]%Forall_cons_iff & _).
      - destruct Hbad as (results & e & Hevs & _). rewrite He in Hevs. by destruct results. }
    pose proof (pop_algorithm q2 written empty alg events (aq_mem_limiter q2) (aq_schedule q2) Hinv2 He) as Hinv3.
    intros Hr. apply (IH _ Hinv3) in Hr; [|simpl; destruct Hexp as [Hx|Hx]; [left; by apply Hc|right; by rewrite Hn]|].
    + simpl in Hr. destruct Hr as [[Hp' Hlog'] Hr]. split; [split; [|done]; simpl in Hp'; congruence|].
      destruct r as [[]| |]; try done. destruct Hr as (? & Hw' & Hn' & ? & Hc'). ands; try done; [|congruence|tauto].
      unfold work in *. simpl in *. rewrite He in Hw. simpl in Hw. lia.
    + destruct Hfuel as [[= ->]|[_ Hs]]; [right; by split|]. rewrite <- Ha, Hnone in Hs. by destruct Hs.
  - destruct (pop_response q2 written empty result events (aq_mem_limiter q2) (aq_schedule q2) Hinv2 He) as (Hinv3 & Hn3 & Ha3 & _).
    intros [= <- <-]. split; [by eapply inv_kept|]. ands; try done; [|rewrite <- Hn; exact Hn3].
    unfold work in *. simpl. rewrite He in Hw. simpl in Hw. lia.
  - intros [= <- <-]. split; [|done]. split; [done|]. apply Hinv2.
Qed.

Lemma consume_next_response_spec q written empty q' r :
  inv q written empty → aq_closed q = true ∨ 0 < aq_requests_in_queue q → consume_next_response q = (q', r) →
  kept q q' written ∧
  match r with
  | Ok true => inv q' written empty ∧ (work q' < work q)%nat ∧ aq_requests_in_queue q' = aq_requests_in_queue q - 1 ∧
      is_Some (aq_checksum_algorithm q') ∧ (aq_closed q = true → aq_closed q' = true)
  | Ok false => inv q' written empty ∧ aq_events q' = [] ∧ aq_task q' = TaskFinished
  | Err _ => True
  | Panic => False
  end.
Proof. intros Hinv Hexp. eapply consume_loop_spec; auto. Qed.

Lemma drain_loop_spec fuel q written empty q' r :
  inv q written empty → aq_closed q = true → (work q < fuel)%nat → drain_loop fuel q = (q', r) →
  kept q q' written ∧
  match r with
  | Ok _ => inv q' written empty ∧ aq_events q' = [] ∧ aq_task q' = TaskFinished
  | Err _ => True
  | Panic => False
  end.
Proof.
  revert q. induction fuel as [|fuel IH]; intros q Hinv Hc Hf; [lia|]. simpl.
  destruct (consume_next_response q) as [q1 r1] eqn:Hr1.
  apply (consume_next_response_spec q written empty) in Hr1 as [[Hp1 Hl1] Hr1]; [|done|by left].
  destruct r1 as [[]|e|]; simpl; [| |by intros [= <- <-]|done].
  - destruct Hr1 as (Hinv1 & Hw & _ & _ & Hc1). intros Hr. apply IH in Hr as [[Hp Hl] Hr]; [|done|by apply Hc1|lia].
    split; [split; [congruence|done]|done].
  - by intros [= <- <-].
Qed.
Lemma drain_responses_spec q written empty q' r :
  inv q written empty → aq_closed q = true → drain_responses q = (q', r) →
  kept q q' written ∧
  match r with
  | Ok _ => inv q' written empty ∧ aq_events q' = [] ∧ aq_task q' = TaskFinished
  | Err _ => True
  | Panic => False
  end.
Proof.
  intros Hinv Hc. apply drain_loop_spec; [done|done|]. unfold work. pose proof (replies_le (aq_events q)).
  destruct (aq_task q); simpl; lia.
Qed.

(** ** Sending buffers *)

Definition enqueue q (b : UploadBuffer) : AppendUploadQueue :=
  aq_with_task q (aq_buffers q ++ [b]) (aq_closed q) (aq_events q) (aq_task q) (aq_log q) (aq_mem_limiter q).

(** The writer knows the checksum algorithm, or the task has stopped. *)
Definition started q : Prop := aq_closed q = true ∨ is_Some (aq_checksum_algorithm q).
Lemma task_ran_started q q' : task_ran q q' → started q → started q'.
Proof. intros (_ & Ha & _ & _ & Hc & _). unfold started. rewrite Ha. tauto. Qed.

Definition steps_to_room (t : append_task) : nat := match t with TaskWaiting _ _ => 1 | TaskAppending _ _ _ => 2 | _ => 0 end.

Lemma send_progress q written empty :
  inv q written empty → started q → aq_closed q = false → (aqp_capacity (aq_params q) ≤ length (aq_buffers q))%nat →
  ∃ q', task_step q = Some q' ∧
    (aq_closed q' = true ∨ (length (aq_buffers q') < length (aq_buffers q))%nat ∨
     length (aq_buffers q') = length (aq_buffers q) ∧ steps_to_room (aq_task q') = 1%nat ∧ steps_to_room (aq_task q) = 2%nat).
Proof.
  intros ((_ & _ & Hcap & _) & _ & [[sent Hgood]|(Hc & _)]) Hst Hopen Hfull; [|congruence].
  pose proof (good_events _ _ _ _ Hgood) as Hev. pose proof (good_task _ _ _ _ Hgood) as Htask.
  unfold events_ok in Hev. destruct (aq_checksum_algorithm q) eqn:Ha; [|destruct Hst as [?|[? ?]]; congruence].
  destruct Hev as (Hns & _). unfold task_step. destruct (aq_task q) as [|offset etag|b offset etag|] eqn:Ht; [done| | |].
  - destruct (aq_buffers q) as [|b buffers]; [simpl in Hfull; lia|]. eexists. split; [done|]. right. left. simpl. lia.
  - destruct (append _ _ _ _ _) as [request r]. eexists. split; [done|]. destruct r; simpl; [right; right; by ands|by left..].
  - destruct Htask as [? _]. congruence.
Qed.

Lemma send_loop_spec fuel q written empty b q' r :
  inv q written empty → started q →
  (length (aq_buffers q) < aqp_capacity (aq_params q) + fuel)%nat → (steps_to_room (aq_task q) ≤ fuel ∨ length (aq_buffers q) < aqp_capacity (aq_params q))%nat →
  (length (aq_buffers q) ≤ aqp_capacity (aq_params q))%nat →
  send_loop fuel q b = (q', r) →
  (r = Ok false ∧ inv q' written empty ∧ aq_closed q' = true ∧ aq_params q' = aq_params q) ∨
  (r = Ok true ∧ ∃ q1, inv q1 written empty ∧ aq_closed q1 = false ∧ task_ran q q1 ∧
     (length (aq_buffers q1) < aqp_capacity (aq_params q1))%nat ∧ q' = enqueue q1 b).
Proof.
  revert q. induction fuel as [|fuel IH]; intros q Hinv Hst Hlen Hsteps Hle; simpl; (destruct (aq_closed q) eqn:Hc;
    [intros [= <- <-]; left; split; [done|]; split; [|done]; eapply (inv_same q); done|]);
    destruct (Nat.ltb_spec (length (aq_buffers q)) (aqp_capacity (aq_params q))) as [Hroom|Hfull];
    try (intros [= <- <-]; right; split; [done|]; exists q; unfold enqueue; rewrite Hc; by ands).
  - lia.
  - destruct (send_progress q written empty Hinv Hst Hc Hfull) as (q1 & Hs & Hprog). rewrite Hs.
    destruct (step_inv q written empty q1 Hinv Hs) as [Hinv1 Hp1]. pose proof (step_ran q q1 Hs) as Hran.
    assert (started q1) as Hst1 by (by eapply task_ran_started).
    destruct (aq_closed q1) eqn:Hc1.
    { intros Hr. left. destruct fuel; simpl in Hr; rewrite Hc1 in Hr; injection Hr as <- <-;
        (split; [done|]; split; [|done]; eapply (inv_same q1); try done; by rewrite Hc1). }
    intros Hr. apply IH in Hr; [|done|done|..].
    + destruct Hr as [(-> & ? & ? & ?)|(-> & q2 & ? & ? & ? & ? & ->)];
        [left; ands; try done; congruence|right; split; [done|]; exists q2; ands; try done; by etrans].
    + rewrite Hp1. destruct Hprog as [?|[?|[? ?]]]; [done|lia|lia].
    + rewrite Hp1. destruct Hprog as [?|[?|(? & ? & ?)]]; [done|right; lia|left; lia].
    + rewrite Hp1. destruct Hprog as [?|[?|[? ?]]]; [done|lia|lia].
Qed.

Lemma put_ok_mono params w w' p : w `prefix_of` w' → put_ok params w p → put_ok params w' p.
Proof.
  intros Hpre (H1 & H2 & H3). split; [done|]. split; [done|]. intros result Hr. destruct (H3 result Hr) as (stored & Hs & Hv).
  exists stored. split; [by etrans|done].
Qed.
Lemma ok_log_mono q w w' : w `prefix_of` w' → ok_log q w → ok_log q w'.
Proof. intros Hpre Hl. eapply Forall_impl; [|exact Hl]. intros p Hp. by eapply put_ok_mono. Qed.
Lemma kept_mono q q' w w' : w `prefix_of` w' → kept q q' w → kept q q' w'.
Proof. intros Hpre [? ?]. split; [done|]. by eapply ok_log_mono. Qed.

(** A buffer joins the queue. *)
Lemma good_enqueue q sent w (empty : bool) b :
  good q sent w false → is_Some (aq_checksum_algorithm q) → buffer_ok b → limits_ok q (w ++ buffer_data b) →
  (if empty then aqp_initial_offset (aq_params q) = 0 ∧ w = [] ∧ buffer_data b = [] else buffer_data b ≠ []) →
  let q' := enqueue q b in
  aq_task q ≠ TaskFinished →
  good (aq_with_writer q' (aq_events q') (aq_checksum_algorithm q') (aq_last_known_result q') (wadd (aq_requests_in_queue q') 1)
    (aq_mem_limiter q') (aq_schedule q')) sent (w ++ buffer_data b) empty.
Proof.
  intros [Hq Hb Hemp Hev Hcnt Hlast Hcr Htask] [alg Ha] Hok (H0 & Hlim & _) Hcase q' Hnf. pose proof (zlen_nonneg w).
  pose proof (zlen_nonneg (buffer_data b)). unfold events_ok in Hev. rewrite Ha in Hev. destruct Hev as (Hns & Hev & Hreq).
  assert (wadd (aq_requests_in_queue q) 1 = aq_requests_in_queue q + 1) as Hadd.
  { apply wadd_small. rewrite zlen_app in Hlim. unfold is_u64. lia. }
  split; simpl; try done.
  - unfold queued in *. simpl. rewrite Hq, map_app, map_app, map_app, !concat_app. simpl. by rewrite app_nil_r, !app_assoc.
  - rewrite app_assoc. apply list.Forall_app. split.
    + eapply Forall_impl; [|exact Hb]. intros b' [? Hne]. split; [done|]. intros Hd. by apply Hne in Hd.
    + constructor; [|done]. split; [done|]. intros Hd. destruct empty; [done|]. by destruct Hcase.
  - intros ->. destruct Hcase as (? & -> & ->). done.
  - unfold events_ok. simpl. rewrite Ha, Hadd, Hreq. ands; try done. rewrite !length_app. simpl. lia.
  - rewrite Hadd, zlen_app. destruct empty; [lia|]. assert (zlen (buffer_data b) ≠ 0) by (by rewrite zlen_0). lia.
  - intros _ _ Happ. rewrite app_assoc in Happ. by apply app_eq_nil in Happ as [_ ?].
  - destruct (aq_task q); done.
Qed.

Lemma push_spec q w (empty : bool) b q' r :
  inv q w false → started q → buffer_ok b → aqp_initial_offset (aq_params q) + zlen (w ++ buffer_data b) + 1 < u64_modulus →
  (if empty then aqp_initial_offset (aq_params q) = 0 ∧ w = [] ∧ buffer_data b = [] else buffer_data b ≠ []) →
  push q b = (q', r) →
  kept q q' (w ++ buffer_data b) ∧
  match r with
  | Ok _ => inv q' (w ++ buffer_data b) empty ∧ started q'
  | Err _ => True
  | Panic => False
  end.
Proof.
  intros Hinv Hst Hok Hlim Hcase. unfold push, send_buffer. destruct (tick_spec q w false Hinv) as [Hinv1 Hran1].
  assert (w `prefix_of` w ++ buffer_data b) as Hpre by (by eexists).
  destruct (send_loop 4 (tick q) b) as [q2 r2] eqn:Hs. apply (send_loop_spec 4 _ w false) in Hs;
    [|done|by eapply task_ran_started|destruct Hinv1 as ((_&_&_&?) & _); lia|destruct (aq_task (tick q)); simpl; lia|apply Hinv1].
  destruct Hran1 as (Hp1 & Ha1 & _ & Hr1 & Hc1 & _).
  destruct Hs as [(-> & Hinv2 & Hc2 & Hp2)|(-> & q3 & Hinv3 & Hc3 & Hran3 & Hroom & ->)]; simpl.
  - destruct (drain_responses q2) as [q3 r3] eqn:Hd.
    apply (drain_responses_spec q2 w false) in Hd as [Hk Hd]; [|done|done].
    assert (kept q q3 (w ++ buffer_data b)) as Hk'.
    { eapply kept_mono; [done|]. destruct Hk as [Hp3 ?]. split; [congruence|done]. }
    destruct r3; simpl; [|by intros [= <- <-]|done]. by intros [= <- <-].
  - destruct Hran3 as (Hp3 & Ha3 & _ & _ & Hc3' & _). intros [= <- <-].
    assert (is_Some (aq_checksum_algorithm q3)) as Ha.
    { destruct Hst as [Hc|[alg Ha]]; [|rewrite Ha3, Ha1, Ha; done]. rewrite (Hc3' (Hc1 Hc)) in Hc3. done. }
    destruct Hinv3 as (Hl3 & Hlog3 & [[sent Hgood]|(Hc & _)]); [|congruence].
    assert (aq_task q3 ≠ TaskFinished) as Hnf.
    { intros Ht. pose proof (good_task _ _ _ _ Hgood) as Htask. rewrite Ht in Htask. destruct Htask. congruence. }
    assert (limits_ok q3 (w ++ buffer_data b)) as Hl3'.
    { destruct Hl3 as (?&?&?&?). unfold limits_ok. rewrite Hp3, Hp1 in *. by ands. }
    split; [split; [simpl; congruence|]; eapply ok_log_mono; [exact Hpre|done]|]. split; [|right; done].
    split; [|split].
    + destruct Hl3' as (?&?&?&_). unfold limits_ok. simpl. rewrite length_app. simpl. ands; try done. lia.
    + eapply Forall_impl; [|exact Hlog3]. intros p. by apply put_ok_mono.
    + left. exists sent. apply (good_enqueue q3 sent w empty b); try done. by rewrite Hp3, Hp1.
Qed.

(** ** The other operations of the queue *)

Lemma verify_spec q w empty q' r :
  inv q w empty → verify q = (q', r) →
  kept q q' w ∧
  match r with
  | Ok _ => inv q' w empty ∧ (started q → started q')
  | Err _ => True
  | Panic => False
  end.
Proof.
  intros Hinv. unfold verify. destruct (tick_spec q w empty Hinv) as [Hinv1 Hran].
  pose proof (task_ran_started _ _ Hran) as Hst. destruct Hran as (Hp & Ha & _).
  destruct (aq_closed (tick q)) eqn:Hc; [|intros [= <- <-]; split; [by eapply inv_kept|done]].
  destruct (drain_responses (tick q)) as [q2 r2] eqn:Hd. apply (drain_responses_spec _ w empty) in Hd as [[Hp2 Hl2] Hd]; [|done|done].
  assert (kept q q2 w) as Hk by (split; [congruence|done]).
  destruct r2; simpl; [by intros [= <- <-]|by intros [= <- <-]|done].
Qed.

Lemma join_spec q w empty q' r :
  inv q w empty → join q = (q', r) →
  kept q q' w ∧
  match r with
  | Ok (Some result) => version (por_etag result) = base (aq_params q) ++ w
  | Ok None => w = [] ∧ aq_log q' = [] ∧ empty = false
  | Err _ => True
  | Panic => False
  end.
Proof.
  intros Hinv. unfold join. destruct (tick_spec q w empty Hinv) as [Hinv1 (Hp1 & _)]. set (q1 := tick q) in *.
  set (q2 := aq_with_task _ _ _ _ _ _ _).
  assert (inv q2 w empty) as Hinv2.
  { destruct Hinv1 as (Hl & Hlog & [[sent Hgood]|(Hc & Hf & Hbad)]); (split; [done|]); (split; [done|]); [left|right; done].
    exists sent. destruct Hgood as [?????? ? Htask]. split; try done. simpl. destruct (aq_task q1); try done. by destruct Htask. }
  destruct (drain_responses q2) as [q3 r3] eqn:Hd. apply (drain_responses_spec _ w empty) in Hd as [[Hp3 Hl3] Hd]; [|done|done].
  assert (kept q q3 w) as Hk by (split; [simpl in Hp3; congruence|done]).
  destruct r3 as [[]| |]; simpl; [|by intros [= <- <-]|done]. destruct (aq_closed q1); [by intros [= <- <-]|].
  intros [= <- <-]. split; [done|]. destruct Hd as ((_ & _ & [[sent Hgood]|(_ & _ & results & e & He & _)]) & Hev & Hf);
    [|rewrite Hev in He; by destruct results]. destruct Hgood as [Hq _ _ _ _ Hlast Hcr Htask]. rewrite Hf in Htask.
  destruct Htask as [_ Hb]. unfold queued in Hq. rewrite Hf, Hb in Hq. simpl in Hq. rewrite app_nil_r in Hq. subst w.
  rewrite Hev in Hlast. simpl in Hlast. destruct (aq_last_known_result q3); [simpl in Hp3; congruence|]. destruct Hlast as [Hlog ->]. ands; try done.
  destruct empty; [|done]. rewrite Hev in Hcr. specialize (Hcr eq_refl eq_refl). by rewrite Hf, Hb in Hcr.
Qed.

Lemma pool_buffer_ok capacity alg b :
  0 ≤ capacity < u64_modulus → ChecksumHasher_new alg = Ok (ub_hasher b) → ub_data b = pool_buffer capacity →
  buffer_ok b ∧ buffer_data b = [] ∧ UploadBuffer_capacity b = capacity.
Proof.
  intros Hcap Hh Hd. unfold buffer_ok, buffer_data, UploadBuffer_capacity, PoolBufferMut_capacity, PoolBufferMut_data. rewrite Hd. simpl.
  assert (zlen (replicate (Z.to_nat capacity) x00) = capacity) as -> by (unfold zlen; rewrite length_replicate; lia).
  ands; try done; try lia. unfold ChecksumHasher_new in Hh. destruct alg as [[]|]; simpl in Hh; [..|by injection Hh as <-];
    repeat match goal with H : context [crt_new ?a] |- _ => destruct (crt_new a); simpl in H end; simplify_eq; by rewrite <- Hh.
Qed.
Lemma ChecksumHasher_new_total alg : ChecksumHasher_new alg ≠ Panic.
Proof. unfold ChecksumHasher_new. destruct alg as [[]|]; simpl; try done; by destruct (crt_new _). Qed.

Definition fresh_buffer (capacity : Z) (b : UploadBuffer) : Prop :=
  buffer_ok b ∧ buffer_data b = [] ∧ UploadBuffer_capacity b = capacity.

Lemma get_buffer_loop_spec fuel q w empty capacity alg q' r :
  inv q w empty → is_Some (aq_checksum_algorithm q) → 0 ≤ capacity < u64_modulus → (Z.to_nat (aq_requests_in_queue q) < fuel)%nat →
  get_buffer_loop fuel q capacity alg = (q', r) →
  kept q q' w ∧
  match r with
  | Ok b => inv q' w empty ∧ is_Some (aq_checksum_algorithm q') ∧ fresh_buffer capacity b
  | Err _ => True
  | Panic => False
  end.
Proof.
  intros Hinv Ha Hcap. revert q Hinv Ha. induction fuel as [|fuel IH]; intros q Hinv Ha Hf; [lia|]. simpl.
  assert (∀ ml, inv (aq_with_writer q (aq_events q) (aq_checksum_algorithm q) (aq_last_known_result q) (aq_requests_in_queue q) ml
    (aq_schedule q)) w empty) as Hml by (intros ml; by eapply (inv_same q)).
  pose proof (ChecksumHasher_new_total alg) as Htot. destruct (Z.ltb_spec 0 (aq_requests_in_queue q)) as [Hreq|Hreq].
  - unfold UploadBuffer_try_new. destruct (MemoryLimiter_try_reserve (aq_mem_limiter q) capacity) as [[] ml].
    + destruct (ChecksumHasher_new alg) as [hasher|e|] eqn:Hh; simpl; [intros [= <- <-]..|done]; (split; [by eapply inv_kept|]); [|done].
      ands; try done. by eapply pool_buffer_ok.
    + destruct (consume_next_response _) as [q2 r2] eqn:Hc.
      apply (consume_next_response_spec _ w empty) in Hc as [[Hp2 Hl2] Hc]; [|apply Hml|by right].
      assert (kept q q2 w) as Hk by done. destruct r2 as [[]| |]; simpl; [|by intros [= <- <-]..|done].
      destruct Hc as (Hinv2 & _ & Hn2 & Ha2 & _). intros Hr. apply IH in Hr as [[Hp3 Hl3] Hr]; [|done|done|simpl in Hn2; lia].
      split; [split; [simpl in Hp2; congruence|done]|done].
  - unfold UploadBuffer_new. destruct (ChecksumHasher_new alg) as [hasher|e|] eqn:Hh; simpl; [intros [= <- <-]..|done].
    + split; [by eapply inv_kept|]. ands; try done. by eapply pool_buffer_ok.
    + split; [by eapply inv_kept|done].
Qed.

Lemma get_buffer_spec q w empty capacity q' r :
  inv q w empty → 0 ≤ capacity < u64_modulus → get_buffer q capacity = (q', r) →
  kept q q' w ∧
  match r with
  | Ok b => inv q' w empty ∧ is_Some (aq_checksum_algorithm q') ∧ fresh_buffer capacity b
  | Err _ => True
  | Panic => False
  end.
Proof.
  intros Hinv Hcap. unfold get_buffer. destruct (aq_checksum_algorithm q) as [alg|] eqn:Ha; cbn [state_bind].
  { apply get_buffer_loop_spec; [done|by rewrite Ha|done|lia]. }
  destruct (recv_event q) as [q1 r1] eqn:Hrecv. apply (recv_event_spec q w empty) in Hrecv; [|done|by right; left].
  destruct Hrecv as [(-> & Hinv1 & Hran & _)|(q2 & event & events & -> & Hinv2 & (Hp & Hran) & He & ->)]; cbn [state_bind].
  { intros [= <- <-]. split; [|done]. eapply inv_kept; [done|]. apply Hran. }
  destruct event as [alg|result|e]; cbn [state_bind].
  - pose proof (pop_algorithm q2 w empty alg events (aq_mem_limiter q2) (aq_schedule q2) Hinv2 He) as Hinv3.
    intros Hr. apply (get_buffer_loop_spec _ _ w empty) in Hr as [[Hp3 Hl3] Hr]; [|done|by eexists|done|lia].
    split; [split; [simpl in Hp3; congruence|done]|done].
  - destruct (pop_response q2 w empty result events (aq_mem_limiter q2) (aq_schedule q2) Hinv2 He) as (_ & _ & [a Ha2] & _).
    destruct Hran as (Ha' & _). congruence.
  - intros [= <- <-]. split; [|done]. split; [done|]. apply Hinv2.
Qed.

(** ** The request *)

Lemma ChecksumHasher_update_total h data : ChecksumHasher_update h data ≠ Panic.
Proof. destruct h as [|a seen]; simpl; [done|]. by destruct (is_sha a), (crt_update a seen data). Qed.

Lemma UploadBuffer_write_spec b slice b' res :
  buffer_ok b → UploadBuffer_is_full b = false → slice ≠ [] → UploadBuffer_write b slice = (b', res) →
  match res with
  | Ok rest => ∃ taken, slice = taken ++ rest ∧ taken ≠ [] ∧ buffer_ok b' ∧ buffer_data b' = buffer_data b ++ taken ∧
      UploadBuffer_capacity b' = UploadBuffer_capacity b ∧ (rest ≠ [] → UploadBuffer_is_full b' = true)
  | Err _ => True
  | Panic => False
  end.
Proof.
  intros (Hl & Hc & Hh) Hfull Hne. unfold UploadBuffer_write.
  destruct (append_from_slice_ok (E := ChecksumHasherError) (ub_data b) slice Hl Hc) as (d & rest & taken & Ha & Hs & Hd & Hcap & Hlen & Hf & Ht).
  rewrite Ha. pose proof (ChecksumHasher_update_total (ub_hasher b) (ztake (zlen slice - zlen rest) slice)) as Htot.
  destruct (ChecksumHasher_update _ _) as [hasher|e|] eqn:Hu; intros [= <- <-]; [|done|done].
  unfold UploadBuffer_is_full, PoolBufferMut_is_full in Hfull. apply Z.eqb_neq in Hfull. unfold UploadBuffer_capacity in *.
  exists taken. pose proof (zlen_nonneg taken). ands; try done; [apply Ht; [done|lia]|].
  - assert (pbm_len d ≤ PoolBufferMut_capacity d) as Hle.
    { rewrite Hcap, Hlen. pose proof (f_equal zlen Hd) as Hz. rewrite zlen_app in Hz.
      unfold PoolBufferMut_data in Hz. rewrite (zlen_ztake (pbm_len (ub_data b))) in Hz by done.
      unfold ztake at 1 in Hz. unfold zlen in Hz at 1. rewrite length_take in Hz.
      unfold PoolBufferMut_capacity in *. unfold zlen in *. lia. }
    unfold buffer_ok, UploadBuffer_capacity. simpl. rewrite Hcap in *. ands; [lia|done|done|].
    destruct (ub_hasher b) as [|a seen]; simpl in Hu; [by injection Hu as <-|].
    assert (hasher = HasherOf a (seen ++ ztake (zlen slice - zlen rest) slice)) as ->
      by (destruct (is_sha a); [destruct (crt_update a seen _)|]; simplify_eq/=; done).
    subst seen. unfold buffer_data. simpl. rewrite Hd. f_equal. rewrite Hs, zlen_app.
    replace (zlen taken + zlen rest - zlen rest) with (zlen taken) by lia. unfold ztake, zlen. by rewrite Nat2Z.id, take_app_length.
Qed.

Definition own_data (r : AppendUploadRequest) : bytes := match ar_buffer r with Some b => buffer_data b | None => [] end.

(** The request works, and [written] was written to it. *)
Record rinv (r : AppendUploadRequest) (written : bytes) : Prop := {
  rinv_queue : ∃ handed, inv (ar_upload_queue r) handed false ∧ written = handed ++ own_data r;
  rinv_offset : ar_offset r = aqp_initial_offset (aq_params (ar_upload_queue r)) + zlen written;
  rinv_size : 0 < ar_buffer_size r < u64_modulus;
  rinv_limit : ar_offset r + 1 < u64_modulus;
  rinv_buffer : match ar_buffer r with
                | Some b => buffer_ok b ∧ buffer_data b ≠ [] ∧ UploadBuffer_is_full b = false ∧ started (ar_upload_queue r)
                | None => True
                end;
}.
(** What is left whatever happened. *)
Definition rkept (r r' : AppendUploadRequest) (written : bytes) : Prop :=
  ar_buffer_size r' = ar_buffer_size r ∧ kept (ar_upload_queue r) (ar_upload_queue r') written.

Lemma rkept_trans r1 r2 r3 w w' : w `prefix_of` w' → rkept r1 r2 w → rkept r2 r3 w' → rkept r1 r3 w'.
Proof. intros Hpre [? [? ?]] [? [? ?]]. split; [congruence|]. split; [congruence|done]. Qed.

(** A buffer to write to: the one at hand, or a new one. *)
Lemma take_buffer_spec r written r' res :
  rinv r written →
  match ar_buffer r with
  | Some buffer => (r, Ok buffer)
  | None => on_queue r (get_buffer (ar_upload_queue r) (ar_buffer_size r))
  end = (r', res) →
  rkept r r' written ∧
  match res with
  | Ok b => ∃ handed, inv (ar_upload_queue r') handed false ∧ started (ar_upload_queue r') ∧ written = handed ++ buffer_data b ∧
      buffer_ok b ∧ UploadBuffer_is_full b = false ∧ ar_offset r' = ar_offset r
  | Err _ => True
  | Panic => False
  end.
Proof.
  intros [(handed & Hinv & Hw) Hoff Hsize Hlim Hbuf] Hr. unfold own_data in Hw.
  assert (handed `prefix_of` written) as Hpre by (rewrite Hw; by eexists).
  destruct (ar_buffer r) as [b|].
  - injection Hr as <- <-. destruct Hbuf as (? & ? & ? & ?). split; [|exists handed; by ands].
    split; [done|]. split; [done|]. eapply ok_log_mono; [done|]. apply Hinv.
  - unfold on_queue in Hr. destruct (get_buffer _ _) as [q' res'] eqn:Hg. injection Hr as <- <-.
    apply (get_buffer_spec _ handed false) in Hg as [Hk Hg]; [|done|lia]. simpl.
    split; [split; [done|]; by eapply kept_mono|]. destruct res' as [b| |]; [|done|done].
    destruct Hg as (Hinv' & Ha & Hok & Hd & Hcap). exists handed. ands; try done; [by right|by rewrite Hd|].
    unfold UploadBuffer_is_full, PoolBufferMut_is_full. unfold UploadBuffer_capacity in Hcap. rewrite Hcap.
    pose proof (buffer_data_len b Hok) as Hlen. rewrite Hd, zlen_nil in Hlen. unfold UploadBuffer_len in Hlen. rewrite <- Hlen. apply Z.eqb_neq. lia.
Qed.

Lemma rinv_log r written : rinv r written → ok_log (ar_upload_queue r) written.
Proof. intros [(handed & (_ & Hl & _) & ->) _ _ _ _]. eapply ok_log_mono; [|exact Hl]. by eexists. Qed.

(** The end of a round: a full buffer goes to the queue. *)
Lemma flush_spec r b handed offset r' res :
  inv (ar_upload_queue r) handed false → started (ar_upload_queue r) → buffer_ok b → buffer_data b ≠ [] → 0 < ar_buffer_size r < u64_modulus →
  offset = aqp_initial_offset (aq_params (ar_upload_queue r)) + zlen (handed ++ buffer_data b) → offset + 1 < u64_modulus →
  (let r := ar_with r None offset (ar_upload_queue r) in on_queue r (push (ar_upload_queue r) b)) = (r', res) →
  rkept r r' (handed ++ buffer_data b) ∧
  match res with Ok _ => rinv r' (handed ++ buffer_data b) | Err _ => True | Panic => False end.
Proof.
  intros Hinv Hst Hok Hne Hsize Hoff Hlim Hr. unfold on_queue in Hr. cbn in Hr.
  destruct (push (ar_upload_queue r) b) as [q res'] eqn:Hpush.
  apply (push_spec _ handed false) in Hpush as [Hk Hpush]; [|done|done|done|lia|done]. injection Hr as <- <-. cbn.
  split; [done|]. destruct res' as [[]| |]; [|done|done]. destruct Hpush as [Hq Hs]. destruct Hk as [Hp _].
  split; cbn; [|by rewrite Hp|done|lia|done]. exists (handed ++ buffer_data b). split; [done|]. unfold own_data. cbn. by rewrite app_nil_r.
Qed.

Lemma write_round_spec r written slice r' res :
  rinv r written → slice ≠ [] → aqp_initial_offset (aq_params (ar_upload_queue r)) + zlen (written ++ slice) + 1 < u64_modulus →
  write_round r slice = (r', res) →
  rkept r r' (written ++ slice) ∧
  match res with
  | Ok rest => ∃ taken, slice = taken ++ rest ∧ taken ≠ [] ∧ rinv r' (written ++ taken)
  | Err _ => True
  | Panic => False
  end.
Proof.
  intros Hinv Hne Hlim. unfold write_round. pose proof (rinv_offset _ _ Hinv) as Hoff. pose proof (rinv_size _ _ Hinv) as Hsize.
  assert (0 ≤ aqp_initial_offset (aq_params (ar_upload_queue r))) as H0 by (destruct Hinv as [(? & ((? & _) & _) & _) _ _ _ _]; done).
  destruct (match ar_buffer r with Some _ => _ | None => _ end) as [r1 res1] eqn:Hb.
  apply (take_buffer_spec r written) in Hb as [[Hsz1 Hk1] Hb]; [|done].
  assert (∀ b o, rkept r (ar_with r1 b o (ar_upload_queue r1)) (written ++ slice)) as Hk1'
    by (intros b o; split; [done|]; eapply kept_mono; [by eexists|done]).
  destruct res1 as [b|e|]; cbn [state_bind];
    [|intros [= <- <-]; split; [split; [done|]; eapply kept_mono; [by eexists|done]|done]|done].
  destruct Hb as (handed & Hq1 & Hst1 & Hw & Hok & Hnf & Hoff1). destruct Hk1 as [Hp1 _].
  destruct (UploadBuffer_write b slice) as [b' res2] eqn:Hwr. apply UploadBuffer_write_spec in Hwr; [|done..].
  destruct res2 as [rest|e|]; [|intros [= <- <-]; split; [apply Hk1'|done]|done].
  destruct Hwr as (taken & Hsl & Htn & Hok' & Hd' & Hcap' & Hfull). cbn zeta. cbn [ar_with ar_offset ar_upload_queue ar_buffer].
  pose proof (zlen_nonneg taken). pose proof (zlen_nonneg rest). pose proof (zlen_nonneg written).
  rewrite Hsl, !zlen_app in Hlim.
  assert (wadd (ar_offset r1) (wsub (zlen slice) (zlen rest)) = ar_offset r + zlen taken) as ->.
  { rewrite Hsl, zlen_app, Hoff1. rewrite wsub_small by (unfold is_u64; lia). rewrite wadd_small by (unfold is_u64; lia). lia. }
  assert (written ++ taken = handed ++ buffer_data b') as Hw' by (by rewrite Hd', Hw, app_assoc).
  assert (buffer_data b' ≠ []) as Hne' by (rewrite Hd'; intros Happ; by apply app_eq_nil in Happ as [_ ?]).
  assert (written ++ taken `prefix_of` written ++ slice) as Hpre by (rewrite Hsl, app_assoc; by eexists).
  destruct (UploadBuffer_is_full b') eqn:Hfb.
  - destruct (on_queue _ _) as [r2 res3] eqn:Hfl.
    apply (flush_spec r1 b' handed (ar_offset r + zlen taken)) in Hfl as [[Hsz2 Hk2] Hfl];
      [|done|done|done|done|lia|rewrite Hp1, <- Hw', zlen_app; lia|lia].
    rewrite <- Hw' in *.
    assert (rkept r r2 (written ++ slice)) as Hk2'.
    { split; [congruence|]. eapply kept_mono; [exact Hpre|]. destruct Hk2. split; [congruence|done]. }
    destruct res3 as [[]|e|]; cbn; [intros [= <- <-]|by intros [= <- <-]|done]. split; [done|]. by exists taken.
  - intros [= <- <-]. split; [apply Hk1'|]. exists taken. ands; try done.
    split; cbn; [exists handed; by split|rewrite Hp1, Hoff, zlen_app; lia|lia|lia|by ands].
Qed.

Lemma write_loop_spec fuel r written slice r' res :
  rinv r written → (length slice ≤ fuel)%nat →
  aqp_initial_offset (aq_params (ar_upload_queue r)) + zlen (written ++ slice) + 1 < u64_modulus →
  write_loop fuel r slice = (r', res) →
  rkept r r' (written ++ slice) ∧ match res with Ok _ => rinv r' (written ++ slice) | Err _ => True | Panic => False end.
Proof.
  revert r written slice. induction fuel as [|fuel IH]; intros r written slice Hinv Hf Hlim;
    (destruct slice as [|x slice0]; [simpl; rewrite app_nil_r; intros [= <- <-]; split; [|done]; split; [done|]; split; [done|]; by apply rinv_log|]);
    [simpl in Hf; lia|].
  set (slice := x :: slice0) in *. simpl. destruct (write_round r slice) as [r1 res1] eqn:Hr1.
  apply (write_round_spec r written) in Hr1 as [Hk1 Hr1]; [|done..].
  destruct res1 as [rest|e|]; cbn [state_bind]; [|by intros [= <- <-]|done].
  destruct Hr1 as (taken & Hsl & Htn & Hinv1). rewrite Hsl in *. rewrite app_assoc in *. destruct Hk1 as [Hsz1 [Hp1 Hl1]].
  intros Hr. apply (IH r1 (written ++ taken)) in Hr as [Hk Hr]; [|done| |by rewrite Hp1].
  - split; [|done]. eapply rkept_trans; [|split; [done|split; done]|exact Hk]. done.
  - rewrite length_app in Hf. destruct taken; [done|]. simpl in Hf. lia.
Qed.

Lemma write_spec r written offset data r' res :
  rinv r written → aqp_initial_offset (aq_params (ar_upload_queue r)) + zlen (written ++ data) + 1 < u64_modulus →
  AppendUploadRequest_write r offset data = (r', res) →
  rkept r r' (written ++ data) ∧
  match res with
  | Ok n => rinv r' (written ++ data) ∧ offset = ar_offset r ∧ n = zlen data
  | Err _ => True
  | Panic => False
  end.
Proof.
  intros Hinv Hlim. unfold AppendUploadRequest_write, on_queue. pose proof Hinv as [(handed & Hq & Hw) Hoff Hsize Hmax Hbuf].
  assert (handed `prefix_of` written) as Hpre by (rewrite Hw; by eexists).
  destruct (verify (ar_upload_queue r)) as [q1 r1] eqn:Hv. apply (verify_spec _ handed false) in Hv as [Hk Hv]; [|done]. cbn.
  assert (∀ b o, rkept r (ar_with r b o q1) (written ++ data)) as Hk1.
  { intros b o. split; [done|]. eapply kept_mono; [|exact Hk]. etrans; [exact Hpre|by eexists]. }
  destruct r1 as [[]| |]; cbn [state_bind]; [|by intros [= <- <-]|done]. cbn [ar_with ar_offset].
  destruct (Z.eqb_spec offset (ar_offset r)) as [->|]; cbn; [|by intros [= <- <-]].
  destruct Hv as [Hq1 Hst]. destruct Hk as [Hp1 _].
  assert (rinv (ar_with r (ar_buffer r) (ar_offset r) q1) written) as Hinv1.
  { split; cbn; [by exists handed|by rewrite Hp1|done|done|]. destruct (ar_buffer r); [|done]. destruct Hbuf as (?&?&?&?). ands; auto. }
  destruct (write_loop (length data) _ data) as [r2 res2] eqn:Hwl.
  apply (write_loop_spec _ _ written) in Hwl as [[Hsz2 Hk2] Hwl]; [|done|done|cbn; by rewrite Hp1].
  assert (rkept r r2 (written ++ data)) as Hk' by (split; [done|]; destruct Hk2; split; [cbn in *; congruence|done]).
  destruct res2 as [[]| |]; cbn; [|by intros [= <- <-]|done]. intros [= <- <-]. split; [done|]. ands; try done.
  pose proof (zlen_nonneg data). pose proof (zlen_nonneg written). rewrite zlen_app in Hlim.
  assert (ar_offset r2 = ar_offset r + zlen data) as ->.
  { rewrite (rinv_offset _ _ Hwl), Hoff. destruct Hk2 as [Hp2 _]. cbn in Hp2. rewrite Hp2, Hp1, zlen_app. lia. }
  pose proof (proj1 (proj1 Hq)). rewrite wsub_small by (unfold is_u64; lia). lia.
Qed.

(** Everything goes to the queue before it is closed. *)
Lemma complete_flush_spec r written r' res :
  rinv r written →
  match ar_buffer r with
  | Some buffer =>
      let r := ar_with r None (ar_offset r) (ar_upload_queue r) in on_queue r (push (ar_upload_queue r) buffer)
  | None =>
      if ar_offset r =? 0 then
        let? r, empty_buffer := on_queue r (get_buffer (ar_upload_queue r) 0) in
        on_queue r (push (ar_upload_queue r) empty_buffer)
      else (r, Ok tt)
  end = (r', res) →
  rkept r r' written ∧
  match res with
  | Ok _ => ∃ empty, inv (ar_upload_queue r') written empty ∧
      (written = [] → empty = false → aqp_initial_offset (aq_params (ar_upload_queue r)) ≠ 0)
  | Err _ => True
  | Panic => False
  end.
Proof.
  intros Hinv. pose proof (rinv_log _ _ Hinv) as Hlog. destruct Hinv as [(handed & Hq & Hw) Hoff Hsize Hmax Hbuf].
  pose proof (proj1 Hq) as (H0 & Hlim & _). unfold own_data in Hw. destruct (ar_buffer r) as [b|].
  - destruct Hbuf as (Hok & Hne & _ & Hst). unfold on_queue. cbn. destruct (push (ar_upload_queue r) b) as [q1 res1] eqn:Hp.
    apply (push_spec _ handed false) in Hp as [Hk Hp]; [|done|done|done|rewrite <- Hw; lia|done]. rewrite <- Hw in *.
    intros [= <- <-]. split; [done|]. destruct res1; [|done|done]. exists false. split; [apply Hp|].
    intros -> _. by destruct handed, (buffer_data b).
  - rewrite app_nil_r in Hw. subst handed. pose proof (zlen_nonneg written). destruct (Z.eqb_spec (ar_offset r) 0) as [Hz|Hne].
    + assert (written = []) as -> by (apply zlen_0; lia). unfold on_queue.
      destruct (get_buffer (ar_upload_queue r) 0) as [q1 res1] eqn:Hg.
      apply (get_buffer_spec _ [] false) in Hg as [Hk1 Hg]; [|done|u64_lia]. cbn.
      destruct res1 as [b| |]; cbn; [|by intros [= <- <-]|done]. destruct Hg as (Hq1 & Ha1 & Hok & Hd & _). destruct Hk1 as [Hp1 _].
      destruct (push q1 b) as [q2 res2] eqn:Hp.
      apply (push_spec _ [] true) in Hp as [[Hp2 Hl2] Hp]; [|done|by right|done|cbn; rewrite Hd, Hp1; exact Hlim|ands; [rewrite Hp1, zlen_nil in *; lia|done|done]].
      rewrite Hd in *. intros [= <- <-]. split; [split; [done|]; split; [cbn; congruence|done]|].
      destruct res2; [|done|done]. exists true. split; [apply Hp|done].
    + intros [= <- <-]. split; [by repeat split|]. exists false. split; [done|]. intros -> _. rewrite zlen_nil in Hoff. lia.
Qed.

Lemma complete_spec r written r' res :
  rinv r written → AppendUploadRequest_complete r = (r', res) →
  rkept r r' written ∧
  match res with
  | Ok (Some result) => version (por_etag result) = base (aq_params (ar_upload_queue r)) ++ written
  | Ok None => written = [] ∧ aq_log (ar_upload_queue r') = [] ∧ aqp_initial_offset (aq_params (ar_upload_queue r)) ≠ 0
  | Err _ => True
  | Panic => False
  end.
Proof.
  intros Hinv. unfold AppendUploadRequest_complete. destruct (match ar_buffer r with Some _ => _ | None => _ end) as [r1 res1] eqn:Hf.
  apply (complete_flush_spec r written) in Hf as [Hk Hf]; [|done].
  destruct res1 as [[]| |]; cbn [state_bind]; [|by intros [= <- <-]|done]. destruct Hf as (empty & Hq & Hz).
  unfold on_queue. destruct (join (ar_upload_queue r1)) as [q2 res2] eqn:Hj.
  apply (join_spec _ written empty) in Hj as [[Hp2 Hl2] Hj]; [|done]. destruct Hk as [Hsz [Hp1 _]].
  intros [= <- <-]. cbn. split; [split; [done|]; split; [cbn; congruence|done]|].
  destruct res2 as [[result|]| |]; [congruence| |done|done]. destruct Hj as (-> & ? & He). ands; auto.
Qed.

(** ** Uploading a file *)

(** Writes until one fails. *)
Fixpoint append_writes (r : AppendUploadRequest) (writes : list (Z * bytes)) : AppendUploadRequest * outcome UploadError () :=
  match writes with
  | [] => (r, Ok tt)
  | (offset, data) :: writes =>
      let? r, _ := AppendUploadRequest_write r offset data in
      append_writes r writes
  end.
Definition append_upload (r : AppendUploadRequest) (writes : list (Z * bytes)) : AppendUploadRequest * outcome UploadError (option PutObjectResult) :=
  let? r, _ := append_writes r writes in
  AppendUploadRequest_complete r.

Lemma rinv_new buffer_size ml params schedule r :
  0 < buffer_size < u64_modulus → 0 ≤ aqp_initial_offset params → aqp_initial_offset params + 1 < u64_modulus →
  AppendUploadRequest_new buffer_size ml params schedule = Ok r →
  rinv r [] ∧ aq_params (ar_upload_queue r) = params ∧ ar_offset r = aqp_initial_offset params.
Proof.
  intros Hsize H0 Hlim. unfold AppendUploadRequest_new, AppendUploadQueue_new.
  destruct (Nat.ltb_spec 0 (aqp_capacity params)) as [Hcap|]; cbn; [|done]. intros [= <-]. ands; try done.
  split; cbn; [|by rewrite zlen_nil, Z.add_0_r|done|done|done]. exists []. split; [|done].
  split; [unfold limits_ok; cbn; change (zlen (A:=Byte.byte) []) with 0; rewrite Z.add_0_r; ands; lia || done|]. split; [done|]. left. exists []. by split.
Qed.

Lemma append_writes_spec r written writes r' res :
  rinv r written → aqp_initial_offset (aq_params (ar_upload_queue r)) + zlen (written ++ concat (map snd writes)) + 1 < u64_modulus →
  append_writes r writes = (r', res) →
  rkept r r' (written ++ concat (map snd writes)) ∧
  match res with
  | Ok _ => rinv r' (written ++ concat (map snd writes)) ∧ sequential (ar_offset r) writes
  | Err _ => True
  | Panic => False
  end.
Proof.
  revert r written. induction writes as [|[offset data] writes IH]; intros r written Hinv Hlim; simpl.
  - rewrite app_nil_r. intros [= <- <-]. split; [|done]. split; [done|]. split; [done|]. by apply rinv_log.
  - simpl in Hlim. rewrite app_assoc in *. set (all := (written ++ data) ++ concat (map snd writes)) in *.
    assert (written ++ data `prefix_of` all) as Hpre by (by eexists).
    destruct (AppendUploadRequest_write r offset data) as [r1 res1] eqn:Hw.
    apply (write_spec r written) in Hw as [[Hsz1 Hk1] Hw]; [|done|].
    2: { unfold all in Hlim. rewrite zlen_app in Hlim. pose proof (zlen_nonneg (concat (map snd writes))). lia. }
    assert (rkept r r1 all) as Hk1' by (split; [done|]; by eapply kept_mono).
    destruct res1 as [n| |]; cbn [state_bind]; [|by intros [= <- <-]|done]. destruct Hw as (Hinv1 & -> & _).
    destruct Hk1 as [Hp1 _]. intros Hr. apply (IH r1 (written ++ data)) in Hr as [Hk Hr]; [|done|by rewrite Hp1].
    split; [exact (rkept_trans r r1 r' all all (reflexivity all) Hk1' Hk)|]. destruct res; [|done|done]. destruct Hr as [? Hseq]. split; [done|]. split; [done|].
    rewrite (rinv_offset _ _ Hinv1), Hp1 in Hseq. rewrite (rinv_offset _ _ Hinv), <- Z.add_assoc, <- zlen_app. done.
Qed.

Lemma append_upload_spec buffer_size ml params schedule r0 writes r res :
  0 < buffer_size < u64_modulus → 0 ≤ aqp_initial_offset params →
  aqp_initial_offset params + zlen (concat (map snd writes)) + 1 < u64_modulus →
  AppendUploadRequest_new buffer_size ml params schedule = Ok r0 → append_upload r0 writes = (r, res) →
  Forall (put_ok params (concat (map snd writes))) (aq_log (ar_upload_queue r)) ∧
  match res with
  | Ok (Some result) => sequential (aqp_initial_offset params) writes ∧
      version (por_etag result) = base params ++ concat (map snd writes)
  | Ok None => concat (map snd writes) = [] ∧ aq_log (ar_upload_queue r) = [] ∧ aqp_initial_offset params ≠ 0
  | Err _ => True
  | Panic => False
  end.
Proof.
  intros Hsize H0 Hlim Hnew. pose proof (zlen_nonneg (concat (map snd writes))).
  destruct (rinv_new buffer_size ml params schedule r0) as (Hinv & Hp0 & Hoff); [done|done|lia|done|].
  unfold append_upload. destruct (append_writes r0 writes) as [r1 res1] eqn:Hw.
  apply (append_writes_spec r0 []) in Hw as [[_ [Hp1 Hl1]] Hw]; [|done|by rewrite Hp0]. cbn [app] in *.
  unfold ok_log in Hl1. rewrite Hp1, Hp0 in Hl1. destruct res1 as [[]| |]; cbn [state_bind]; [|by intros [= <- <-]|done].
  destruct Hw as [Hinv1 Hseq]. rewrite Hoff in Hseq. intros Hc.
  apply (complete_spec r1 (concat (map snd writes))) in Hc as [[_ [Hp2 Hl2]] Hc]; [|done].
  unfold ok_log in Hl2. rewrite Hp2, Hp1, Hp0 in *. split; [done|]. by destruct res as [[]| |].
Qed.

(** C19. An incremental upload stores exactly what was written.  Whatever the background task, S3 and the other
    users of memory do, and however the written data falls into buffers: when the upload of a file completes with a
    result, the writes were sequential from the initial offset, and the version it created is the initial content
    followed by all the written data.  It completes without a result only when nothing had to be stored.  And at any
    time, also after a failure, every version that was created is the initial content followed by a prefix of the
    written data, each append was conditional on an ETag and had a body, and each checksum was that of the body. *)
Theorem append_upload_stores_written_data buffer_size ml params schedule r0 writes r res :
  0 < buffer_size < u64_modulus → 0 ≤ aqp_initial_offset params →
  aqp_initial_offset params + zlen (concat (map snd writes)) + 1 < u64_modulus →
  AppendUploadRequest_new buffer_size ml params schedule = Ok r0 → append_upload r0 writes = (r, res) →
  (∀ result, res = Ok (Some result) → sequential (aqp_initial_offset params) writes ∧
     version (por_etag result) = base params ++ concat (map snd writes)) ∧
  (res = Ok None → concat (map snd writes) = [] ∧ aq_log (ar_upload_queue r) = [] ∧ aqp_initial_offset params ≠ 0) ∧
  Forall (put_ok params (concat (map snd writes))) (aq_log (ar_upload_queue r)).
Proof.
  intros Hsize H0 Hlim Hnew Hrun. destruct (append_upload_spec _ _ _ _ _ _ _ _ Hsize H0 Hlim Hnew Hrun) as [Hlog Hres].
  split; [|split; [|done]]; [intros result ->|intros ->]; done.
Qed.

(** C20. The upload pipeline never gets stuck.  The writer and the background task wait for each other through a
    bounded channel of buffers, a channel of events and the memory limiter.  For every schedule, every sequence of
    answers of S3 and every pattern of memory use by others, every write and the completion of the upload return: no
    wait of the writer is for something that cannot happen, every loop ends, and no assertion fails. *)
Theorem append_upload_never_stuck buffer_size ml params schedule r0 writes :
  0 < buffer_size < u64_modulus → 0 ≤ aqp_initial_offset params →
  aqp_initial_offset params + zlen (concat (map snd writes)) + 1 < u64_modulus →
  AppendUploadRequest_new buffer_size ml params schedule = Ok r0 → (append_upload r0 writes).2 ≠ Panic.
Proof.
  intros Hsize H0 Hlim Hnew. destruct (append_upload r0 writes) as [r res] eqn:Hrun.
  destruct (append_upload_spec _ _ _ _ _ _ _ _ Hsize H0 Hlim Hnew Hrun) as [_ Hres]. by destruct res.
Qed.
End pipeline.

(** ** A concrete run

    S3 holds an object of two bytes.  Two more writes are appended in buffers of two bytes, through a channel for one
    buffer and with a memory limit that is always exceeded. *)
Module AppendExample.
Import UploadExample.
Definition initial : bytes := [x09; x09].
Definition result_of (bs : bytes) : PutObjectResult := {| por_etag := etag_of bs; por_sse_type := None; por_sse_kms_key_id := None |}.
#[export] Instance store_client : AppendClient := {|
  head_object _ _ := inr (etag_of initial, Some AlgCrc32c);
  put_object_single _ _ _ params data :=
    match psp_write_offset_bytes params, psp_if_match params with
    | None, _ => inr (result_of data)
    | Some offset, Some etag =>
        if zlen (version etag) =? offset then inr (result_of (version etag ++ data)) else inl (PutServiceError InvalidWriteOffset)
    | Some _, None => inl (PutServiceError PreconditionFailed)
    end;
|}.
#[export] Instance store_client_laws : AppendLaws version.
Proof.
  split.
  - intros n bucket key params data result. simpl. destruct (psp_write_offset_bytes params); [done|]. intros [= <-] _.
    apply string_bytes_string.
  - intros n bucket key params data result offset etag. simpl. intros Hput Ho He. rewrite Ho, He in Hput.
    destruct (Z.eqb_spec (zlen (version etag)) offset) as [Hz|]; [|done]. injection Hput as <-. split; [done|]. apply string_bytes_string.
Qed.
#[export] Instance decimal_lib : ChecksumLib := {|
  checksum_digest _ bs := show_sum (crc32c_checksum bs);
  crt_new _ := None; crt_update _ _ _ := None; crt_finalize _ _ := None |}.

Definition params : AppendUploadQueueParams := {|
  aqp_bucket := "bucket"; aqp_key := "key"; aqp_initial_offset := 2; aqp_initial_etag := Some (etag_of initial);
  aqp_server_side_encryption := ServerSideEncryption_default; aqp_default_checksum_algorithm := None; aqp_capacity := 1 |}.
Definition limiter : MemoryLimiter :=
  {| ml_mem_limit := 0; ml_mem_reserved := 0; ml_additional_mem_reserved := 0; ml_pool := PoolStats_default |}.
Definition schedule : list slot := [{| slot_steps := 1; slot_memory := 5 |}; {| slot_steps := 0; slot_memory := 0 |}; {| slot_steps := 2; slot_memory := -5 |}].
Definition request : AppendUploadRequest :=
  {| ar_buffer := None; ar_offset := 2; ar_buffer_size := 2;
     ar_upload_queue := {| aq_params := params; aq_buffers := []; aq_closed := false; aq_events := []; aq_task := TaskStart; aq_log := [];
       aq_checksum_algorithm := None; aq_last_known_result := None; aq_requests_in_queue := 0; aq_mem_limiter := limiter;
       aq_schedule := schedule |} |}.
Definition file_writes : list (Z * bytes) := [(2, [x01; x02; x03]); (5, [x04; x05])].
End AppendExample.
Import AppendExample.

Lemma append_upload_stores_written_data_witness :
  let '(r, res) := append_upload request file_writes in
  res = Ok (Some (result_of [x09; x09; x01; x02; x03; x04; x05])) ∧ length (aq_log (ar_upload_queue r)) = 3%nat ∧
  (∀ result, res = Ok (Some result) → sequential 2 file_writes ∧
     UploadExample.version (por_etag result) = base UploadExample.version params ++ concat (map snd file_writes)) ∧
  Forall (put_ok UploadExample.version params (concat (map snd file_writes))) (aq_log (ar_upload_queue r)).
Proof.
  destruct (append_upload request file_writes) as [r res] eqn:Hrun.
  assert (AppendUploadRequest_new 2 limiter params schedule = Ok request) as Hnew by reflexivity.
  assert (aqp_initial_offset params + zlen (concat (map snd file_writes)) + 1 < u64_modulus) as Hlim by (by vm_compute).
  destruct (append_upload_stores_written_data UploadExample.version 2 limiter params schedule request file_writes r res
    ltac:(u64_lia) ltac:(done) Hlim Hnew Hrun) as (Hsome & _ & Hlog).
  split; [vm_compute in Hrun; by injection Hrun as _ <-|]. split; [vm_compute in Hrun; by injection Hrun as <- _|]. by split.
Defined.

Lemma append_upload_never_stuck_witness :
  0 < aqp_initial_offset params ∧ (append_upload request file_writes).2 ≠ Panic.
Proof.
  assert (AppendUploadRequest_new 2 limiter params schedule = Ok request) as Hnew by reflexivity.
  assert (aqp_initial_offset params + zlen (concat (map snd file_writes)) + 1 < u64_modulus) as Hlim by (by vm_compute).
  split; [done|].
  exact (append_upload_never_stuck UploadExample.version 2 limiter params schedule request file_writes
    ltac:(u64_lia) ltac:(done) Hlim Hnew).
Defined.
