(* ===== verification/ExpressCache.v ===== *)
(** * The shared cache on S3 Express ([data_cache/express_data_cache.rs])

    Blocks are objects of a bucket that several file systems share.  The key of a block is built from digests that may
    collide, so its metadata says which block it is, and a reader validates it.

    The bucket, with its other users, is the interface [ExpressClient]: [B] is its state.  A GetObject response is a
    stream that stops while its read window is used up; [Panic] also stands for a stream that is stuck in this way for
    ever, and for [std::process::exit]. *)

From S2P Require Import Prelude Checksums Part PartQueue PartStream DataCache BlockFormat ClientChecksums Upload AppendUpload DiskCache.
Local Open Scope Z_scope.

(** [DiskCache.CACHE_VERSION] has the same value. *)
Definition EXPRESS_CACHE_VERSION : string := "V2".

Record ExpressDataCacheConfig := {
  ecc_bucket_name : string;
  ecc_source_bucket_name : string;
  ecc_block_size : Z;
  ecc_max_object_size : Z;
  ecc_sse : ServerSideEncryption;
}.
Definition ExpressDataCacheConfig_new (bucket_name source_bucket_name : string) : ExpressDataCacheConfig :=
  {| ecc_bucket_name := bucket_name; ecc_source_bucket_name := source_bucket_name; ecc_block_size := 1024 * 1024;
     ecc_max_object_size := 1024 * 1024; ecc_sse := ServerSideEncryption_default |}.

(** A GetObject response: the stream, the read window it starts with when flow control is on, the user metadata, and the
    CRC32C of the object, if S3 has it. *)
Record ExpressResponse := {
  er_body : list (GetBodyPart + GetClientError);
  er_window : option Z;
  er_metadata : gmap string string;
  er_checksum_crc32c : outcome string (option string);
}.

Class ExpressClient (B : Type) := {
  express_get_object : B → string → string → B * (GetClientError + ExpressResponse);
  express_put_object_single : B → string → string → PutObjectSingleParams → bytes → B * (ClientError + PutObjectResult);
}.

(** ** The metadata of a block *)

Record BlockMetadata := {
  bm_block_idx : BlockIndex;
  bm_block_offset : Z;
  bm_etag : string;
  bm_source_key : string;
  bm_source_bucket_name : string;
  bm_data_checksum : Z;
  bm_header_checksum : Z;
}.

Section metadata.
Context `{crc : Crc32c, b64 : Base64}.

(** A hasher that is fed piece by piece computes the checksum of the concatenation. *)
Definition get_header_checksum (block_idx : BlockIndex) (block_offset : Z) (cache_key : ObjectId) (source_bucket_name : string)
    (data_checksum : Z) : Z :=
  crc32c_checksum (string_bytes EXPRESS_CACHE_VERSION ++ be_bytes 8 block_idx ++ be_bytes 8 block_offset ++
    string_bytes (oid_etag cache_key) ++ string_bytes (oid_key cache_key) ++ string_bytes source_bucket_name ++ be_bytes 4 data_checksum).

Definition BlockMetadata_new (block_idx : BlockIndex) (block_offset : Z) (cache_key : ObjectId) (source_bucket_name : string)
    (data_checksum : Z) : BlockMetadata :=
  {| bm_block_idx := block_idx; bm_block_offset := block_offset; bm_etag := oid_etag cache_key; bm_source_key := oid_key cache_key;
     bm_source_bucket_name := source_bucket_name; bm_data_checksum := data_checksum;
     bm_header_checksum := get_header_checksum block_idx block_offset cache_key source_bucket_name data_checksum |}.

Definition to_put_object_params (m : BlockMetadata) : PutObjectSingleParams :=
  let source_key_encoded := base64_encode_string (string_bytes (bm_source_key m)) in
  let object_metadata := list_to_map [
    ("cache-version", EXPRESS_CACHE_VERSION); ("block-idx", format_uint (bm_block_idx m));
    ("block-offset", format_uint (bm_block_offset m)); ("etag", bm_etag m); ("source-key", source_key_encoded);
    ("source-bucket-name", bm_source_bucket_name m); ("header-checksum", format_uint (bm_header_checksum m))] in
  psp_with_checksum (psp_with_object_metadata PutObjectSingleParams_new object_metadata)
    (Some {| uc_algorithm := AlgCrc32c; uc_value := crc32c_to_base64 (bm_data_checksum m) |}).

Definition validate_header (headers : gmap string string) (header : string) (is_valid : string → bool) : outcome DataCacheError () :=
  match headers !! header with
  | None => Err (InvalidBlockHeader header)
  | Some value => if is_valid value then Ok tt else Err (InvalidBlockHeader header)
  end.

Definition validate_object_metadata (m : BlockMetadata) (headers : gmap string string) : outcome DataCacheError () :=
  let! _ := validate_header headers "cache-version" (λ version, bool_decide (version = EXPRESS_CACHE_VERSION)) in
  let! _ := validate_header headers "block-idx" (λ block_idx, bool_decide (parse_uint u64_max block_idx = Some (bm_block_idx m))) in
  let! _ := validate_header headers "block-offset" (λ block_offset, bool_decide (parse_uint u64_max block_offset = Some (bm_block_offset m))) in
  let! _ := validate_header headers "etag" (λ etag, bool_decide (etag = bm_etag m)) in
  let! _ := validate_header headers "source-key"
    (λ source_key, bool_decide (source_key = base64_encode_string (string_bytes (bm_source_key m)))) in
  let! _ := validate_header headers "source-bucket-name" (λ name, bool_decide (name = bm_source_bucket_name m)) in
  let! _ := validate_header headers "header-checksum"
    (λ header_checksum, bool_decide (parse_uint (2 ^ 32 - 1) header_checksum = Some (bm_header_checksum m))) in
  Ok tt.
End metadata.

(** ** Keys *)

Section keys.
Context `{hash : BlockHash}.

Definition build_prefix (source_bucket_name : string) (block_size : Z) : string :=
  hex_encode (sha256 (string_bytes EXPRESS_CACHE_VERSION ++ be_bytes 8 block_size ++ string_bytes source_bucket_name)).

Definition get_s3_key (prefix : string) (cache_key : ObjectId) (block_idx : BlockIndex) : string :=
  let hashed_cache_key := hex_encode (sha256 (string_bytes (oid_key cache_key) ++ string_bytes (oid_etag cache_key))) in
  (prefix +:+ "/" +:+ hashed_cache_key +:+ "/" +:+ format_010 block_idx)%string.
End keys.

(** ** The cache *)

Record ExpressDataCache (B : Type) := { edc_client : B; edc_prefix : string; edc_config : ExpressDataCacheConfig }.
Arguments edc_client {B} _.
Arguments edc_prefix {B} _.
Arguments edc_config {B} _.
Arguments Build_ExpressDataCache {B} _ _ _.

Section cache.
Context `{crc : Crc32c, env : IntegrityEnv, b64 : Base64, hash : BlockHash} {B : Type} `{client : ExpressClient B}.
Implicit Types c : ExpressDataCache B.

Definition ExpressDataCache_new (client : B) (config : ExpressDataCacheConfig) : ExpressDataCache B :=
  Build_ExpressDataCache client (build_prefix (ecc_source_bucket_name config) (ecc_block_size config)) config.

Definition edc_with_client c (client : B) : ExpressDataCache B := Build_ExpressDataCache client (edc_prefix c) (edc_config c).

Definition make_put_object_request c (params : PutObjectSingleParams) (object_key : string) (data : bytes)
    : ExpressDataCache B * outcome DataCacheError () :=
  let sse := ecc_sse (edc_config c) in
  match sse_into_inner sse with
  | Err _ => (c, Err (IoFailure "SSE settings corrupted"))
  | Panic => (c, Panic)
  | Ok (type, key_id) =>
      let params := psp_with_sse params type key_id in
      let '(b, result) := express_put_object_single (edc_client c) (ecc_bucket_name (edc_config c)) object_key params data in
      let c := edc_with_client c b in
      match result with
      | inl _ => (c, Err (IoFailure "PutObject failed"))
      | inr result =>
          match sse_verify_response sse (por_sse_type result) (por_sse_kms_key_id result) with
          | Ok _ => (c, Ok tt)
          | _ => (c, Panic)
          end
      end
  end.

Definition verify_cache_valid c : ExpressDataCache B * outcome DataCacheError () :=
  let object_key := (edc_prefix c +:+ "/_mountpoint_cache_metadata")%string in
  let data := string_bytes ("source_bucket=" +:+ ecc_source_bucket_name (edc_config c) +:+ Stdlib.Strings.String.String (Ascii.ascii_of_nat 10) "block_size=" +:+
    format_uint (ecc_block_size (edc_config c)))%string in
  let params := psp_with_storage_class PutObjectSingleParams_new "EXPRESS_ONEZONE" in
  make_put_object_request c params object_key data.

Definition ensure_read_window c (window : option Z) : option Z := (λ w, w + ecc_block_size (edc_config c)) <$> window.

(** The stream goes on while its window is ahead of what was received. *)
Definition window_open (window : option Z) (received : Z) : bool := match window with Some w => received <? w | None => true end.

(** The loop over the chunks of the response; [Ok None]: the object is gone. *)
Fixpoint read_body c (window : option Z) (buffer : bytes) (body : list (GetBodyPart + GetClientError)) : outcome DataCacheError (option bytes) :=
  match body with
  | [] => Ok (Some buffer)
  | chunk :: body =>
      assert! window_open window (zlen buffer) in
      match chunk with
      | inl part =>
          if negb (gbp_offset part =? zlen buffer) then Err InvalidBlockOffset
          else read_body c (ensure_read_window c window) (buffer ++ gbp_data part) body
      | inr (GetServiceError GetNoSuchKey) => Ok None
      | inr _ => Err (IoFailure "GetObject failed")
      end
  end.

Definition ExpressDataCache_read_block c (cache_key : ObjectId) (block_idx : BlockIndex) (block_offset object_size : Z)
    : ExpressDataCache B * outcome DataCacheError (option ChecksummedBytes) :=
  if ecc_max_object_size (edc_config c) <? object_size then (c, Ok None)
  else if negb (block_offset =? wmul block_idx (ecc_block_size (edc_config c))) then (c, Err InvalidBlockOffset)
  else
    let object_key := get_s3_key (edc_prefix c) cache_key block_idx in
    let '(b, result) := express_get_object (edc_client c) (ecc_bucket_name (edc_config c)) object_key in
    let c := edc_with_client c b in
    (c, match result with
        | inl (GetServiceError GetNoSuchKey) => Ok None
        | inl _ => Err (IoFailure "GetObject failed")
        | inr result =>
            let! buffer := read_body c (ensure_read_window c (er_window result)) [] (er_body result) in
            match buffer with
            | None => Ok None
            | Some buffer =>
                let! checksum := outcome_map_err (λ _, InvalidBlockChecksum) (er_checksum_crc32c result) in
                match checksum with
                | None => Err InvalidBlockChecksum
                | Some crc32c_b64 =>
                    let! crc32c := outcome_map_err (λ _, InvalidBlockChecksum) (crc32c_from_base64 crc32c_b64) in
                    let block_metadata := BlockMetadata_new block_idx block_offset cache_key (ecc_source_bucket_name (edc_config c)) crc32c in
                    let! _ := validate_object_metadata block_metadata (er_metadata result) in
                    Ok (Some (ChecksummedBytes_new_from_inner_data buffer crc32c))
                end
            end
        end).

Definition ExpressDataCache_write_block c (cache_key : ObjectId) (block_idx : BlockIndex) (block_offset : Z) (bs : ChecksummedBytes)
    (object_size : Z) : ExpressDataCache B * outcome DataCacheError () :=
  if ecc_max_object_size (edc_config c) <? object_size then (c, Ok tt)
  else if negb (block_offset =? wmul block_idx (ecc_block_size (edc_config c))) then (c, Err InvalidBlockOffset)
  else
    let object_key := get_s3_key (edc_prefix c) cache_key block_idx in
    match ChecksummedBytes_into_inner bs with
    | Err _ => (c, Err InvalidBlockContent)
    | Panic => (c, Panic)
    | Ok (data, checksum) =>
        let block_metadata := BlockMetadata_new block_idx block_offset cache_key (ecc_source_bucket_name (edc_config c)) checksum in
        make_put_object_request c (to_put_object_params block_metadata) object_key data
    end.

(** [get_block] and [put_block] add metrics. *)
#[export] Instance ExpressDataCache_DataCache : DataCache (ExpressDataCache B) := {|
  get_block := ExpressDataCache_read_block;
  put_block := ExpressDataCache_write_block;
  block_size c := ecc_block_size (edc_config c);
|}.
End cache.

(** ** The metadata identifies the block *)

Section identify.
Context `{crc : Crc32c, b64 : Base64} `{!Crc32cLaws, !Base64Laws}.
Set Default Proof Using "Type*".

Lemma string_bytes_inj s s' : string_bytes s = string_bytes s' → s = s'.
Proof. intros He. apply (f_equal bytes_string) in He. by rewrite !bytes_string_bytes in He. Qed.

Lemma validate_header_ok headers header is_valid value (k : outcome DataCacheError ()) :
  headers !! header = Some value →
  (let! _ := validate_header headers header is_valid in k) = Ok tt ↔ is_valid value = true ∧ k = Ok tt.
Proof. unfold validate_header. intros ->. destruct (is_valid value); simpl; [tauto|]. split; [done|by intros [? _]]. Qed.
Lemma validate_metadata_total m headers : validate_object_metadata m headers ≠ Panic.
Proof.
  assert (∀ header is_valid (k : outcome DataCacheError ()), k ≠ Panic → (let! _ := validate_header headers header is_valid in k) ≠ Panic) as Hh.
  { intros header is_valid k Hk. unfold validate_header. by repeat case_match. }
  unfold validate_object_metadata. by repeat apply Hh.
Qed.

Lemma get_header_checksum_bound idx off id bucket sum : 0 ≤ get_header_checksum idx off id bucket sum ≤ 2 ^ 32 - 1.
Proof. unfold get_header_checksum. pose proof (crc32c_checksum_u32 (string_bytes EXPRESS_CACHE_VERSION ++ be_bytes 8 idx ++ be_bytes 8 off ++
  string_bytes (oid_etag id) ++ string_bytes (oid_key id) ++ string_bytes bucket ++ be_bytes 4 sum)) as Hu. unfold is_u32 in Hu. lia. Qed.

(** The metadata of a block passes the validation of exactly the block it was written for. *)
Lemma validate_metadata idx off id bucket sum idx' off' id' bucket' sum' :
  is_u64 idx' → is_u64 off' →
  validate_object_metadata (BlockMetadata_new idx off id bucket sum)
    (psp_object_metadata (to_put_object_params (BlockMetadata_new idx' off' id' bucket' sum'))) = Ok tt ↔
  idx = idx' ∧ off = off' ∧ id = id' ∧ bucket = bucket' ∧
  get_header_checksum idx off id bucket sum = get_header_checksum idx' off' id' bucket' sum'.
Proof.
  intros Hi Ho. assert (∀ x, is_u64 x → parse_uint u64_max (format_uint x) = Some x) as Hp.
  { intros x Hx. apply parse_format_uint. unfold is_u64, u64_max in *. lia. }
  unfold validate_object_metadata.
  repeat (rewrite validate_header_ok; [|reflexivity]). cbn [snd bm_block_idx bm_block_offset bm_header_checksum BlockMetadata_new].
  rewrite !bool_decide_eq_true, !Hp by done.
  rewrite parse_format_uint by apply get_header_checksum_bound.
  simpl. destruct id as [key etag], id' as [key' etag']. simpl. split.
  - intros (_ & [= ->] & [= ->] & -> & ->%base64_encode_inj%string_bytes_inj & -> & [= ->] & _). done.
  - intros (-> & -> & [= -> ->] & -> & ->). done.
Qed.
End identify.

(** ** What S3 promises, and what the users of the bucket keep *)

(** [body] delivers [data] from [offset] on, in order and complete, unless it ends with an error. *)
Fixpoint delivers (data : bytes) (offset : Z) (body : list (GetBodyPart + GetClientError)) : Prop :=
  match body with
  | [] => offset = zlen data
  | inr _ :: _ => True
  | inl part :: body =>
      gbp_offset part = offset ∧ gbp_data part = zslice offset (offset + zlen (gbp_data part)) data ∧
      offset + zlen (gbp_data part) ≤ zlen data ∧ delivers data (offset + zlen (gbp_data part)) body
  end.

(** A response for an object that was put with these parameters. *)
Definition response_of (params : PutObjectSingleParams) (data : bytes) (resp : ExpressResponse) : Prop :=
  delivers data 0 (er_body resp) ∧ (∀ w, er_window resp = Some w → 0 ≤ w) ∧ er_metadata resp = psp_object_metadata params ∧
  er_checksum_crc32c resp ≠ Panic ∧
  ∀ sum, er_checksum_crc32c resp = Ok (Some sum) → psp_checksum params = Some {| uc_algorithm := AlgCrc32c; uc_value := sum |}.

(** [honest bucket key params data] restricts what all users of S3 put.  GetObject returns an object that someone has
    put under the key, and a response to PutObject confirms the encryption that was asked for. *)
Class ExpressBucketLaws (B : Type) `{ExpressClient B} (honest : string → string → PutObjectSingleParams → bytes → Prop) := {
  bucket_ok : B → Prop;
  bucket_get b bucket key :
    bucket_ok b → let '(b', r) := express_get_object b bucket key in
    bucket_ok b' ∧ match r with inl _ => True | inr resp => ∃ params data, honest bucket key params data ∧ response_of params data resp end;
  bucket_put b bucket key params data :
    bucket_ok b → honest bucket key params data →
    let '(b', r) := express_put_object_single b bucket key params data in
    bucket_ok b' ∧
    match r with
    | inl _ => True
    | inr result =>
        (∀ type, psp_server_side_encryption params = Some type → por_sse_type result = Some type) ∧
        (∀ key, psp_ssekms_key_id params = Some key → por_sse_kms_key_id result = Some key)
    end;
}.

Lemma str_of_app s s' : str_of (s +:+ s')%string = str_of s ++ str_of s'.
Proof. induction s as [|c s IH]; [done|]. unfold str_of in *. simpl. by rewrite <-IH. Qed.

Section coherence.
Context `{crc : Crc32c, env : IntegrityEnv, b64 : Base64, hash : BlockHash} `{!Crc32cLaws, !Base64Laws} (objects : string → ObjectId → bytes).
Context (config : ExpressDataCacheConfig) (user : string → Z → Prop).

Definition cache_prefix : string := build_prefix (ecc_source_bucket_name config) (ecc_block_size config).

(** [objects] has the content of every object of every source bucket.  The cache bucket is shared by file systems that are mounted on
    any source buckets and use any block sizes: [user source bs].  The digests of prefixes and keys may collide, so that a file system
    may find under a key what another one has put there for another block, object or source bucket.  [put_by source bs]: a right block
    of the file system that is mounted on [source] with block size [bs], and its metadata. *)
Definition put_by (source : string) (bs : Z) (params : PutObjectSingleParams) (data : bytes) : Prop :=
  ∃ id idx sum, let m := BlockMetadata_new idx (idx * bs) id source sum in
    is_u32 sum ∧ zlen (objects source id) < u64_modulus ∧ block_of bs (objects source id) idx (ChecksummedBytes_new_from_inner_data data sum) ∧
    psp_object_metadata params = psp_object_metadata (to_put_object_params m) ∧
    psp_checksum params = psp_checksum (to_put_object_params m).
(** What is found under the keys of blocks below this prefix was put there by a file system with the same prefix. *)
Definition honest_put (bucket key : string) (params : PutObjectSingleParams) (data : bytes) : Prop :=
  bucket = ecc_bucket_name config → (∃ id idx, key = get_s3_key cache_prefix id idx) →
  ∃ source bs, user source bs ∧ build_prefix source bs = cache_prefix ∧ put_by source bs params data.
(** Prefixes do not collide between file systems with different block sizes; between source buckets they may. *)
Definition sizes_separated : Prop := ∀ source bs, user source bs → build_prefix source bs = cache_prefix → bs = ecc_block_size config.
#[local] Abbreviation objs := (objects (ecc_source_bucket_name config)).

Context {B : Type} `{client : ExpressClient B} `{!ExpressBucketLaws B honest_put}.
Implicit Types c : ExpressDataCache B.
Set Default Proof Using "Type*".

Definition express_ok c : Prop :=
  edc_config c = config ∧ edc_prefix c = cache_prefix ∧ 0 < ecc_block_size config ∧ bucket_ok (edc_client c) ∧
  user (ecc_source_bucket_name config) (ecc_block_size config) ∧ sizes_separated.

Lemma read_body_spec c data window k body :
  edc_config c = config → zlen data ≤ ecc_block_size config → 0 < ecc_block_size config → 0 ≤ k ≤ zlen data → delivers data k body →
  (∀ w, window = Some w → ecc_block_size config ≤ w ∧ (0 < k → ecc_block_size config < w)) →
  match read_body c window (zslice 0 k data) body with
  | Ok (Some buffer) => buffer = data
  | Panic => False
  | _ => True
  end.
Proof.
  intros Hcfg Hlen Hbs. revert window k. induction body as [|[part|e] body IH]; intros window k Hk Hd Hw; simpl in *.
  - subst k. by rewrite zslice_full.
  - rewrite zlen_zslice, Z.sub_0_r by lia. destruct Hd as (Ho & Hp & Hle & Hd).
    assert (window_open window k = true) as -> by (destruct window as [w|]; [apply Z.ltb_lt; specialize (Hw w eq_refl); lia|done]).
    rewrite Ho, Z.eqb_refl. simpl. pose proof (zlen_nonneg (gbp_data part)).
    assert (zslice 0 k data ++ gbp_data part = zslice 0 (k + zlen (gbp_data part)) data) as -> by (rewrite Hp at 1; rewrite zslice_app by lia; done).
    apply IH; [lia|done|]. intros w. unfold ensure_read_window. rewrite Hcfg. destruct window as [w0|]; simpl; [|done]. intros [= <-].
    specialize (Hw w0 eq_refl). lia.
  - assert (window_open window (zlen (zslice 0 k data)) = true) as ->.
    { rewrite zlen_zslice by lia. destruct window as [w|]; [apply Z.ltb_lt; specialize (Hw w eq_refl); lia|done]. }
    by repeat case_match.
Qed.

(** A response is read completely, whatever its initial window is. *)
Lemma read_response_spec c data resp :
  edc_config c = config → zlen data ≤ ecc_block_size config → 0 < ecc_block_size config → delivers data 0 (er_body resp) →
  (∀ w, er_window resp = Some w → 0 ≤ w) →
  match read_body c (ensure_read_window c (er_window resp)) [] (er_body resp) with
  | Ok (Some buffer) => buffer = data
  | Panic => False
  | _ => True
  end.
Proof.
  intros Hcfg Hlen Hbs Hd Hw. rewrite <-(zslice_empty 0 data). pose proof (zlen_nonneg data). apply read_body_spec; try done.
  intros w. unfold ensure_read_window. rewrite Hcfg. destruct (er_window resp) as [w0|]; simpl; [|done].
  intros [= <-]. specialize (Hw w0 eq_refl). lia.
Qed.

Lemma block_of_len bs obj idx block : 0 < bs → block_of bs obj idx block → zlen (cb_data block) ≤ bs.
Proof. intros Hbs (? & ? & _ & _ & ->). rewrite zlen_zslice; lia. Qed.
Lemma cb_data_inner data sum : cb_data (ChecksummedBytes_new_from_inner_data data sum) = data.
Proof. apply zslice_full. Qed.

Lemma read_block_ok c id idx offset size :
  express_ok c → block_request (ecc_block_size config) (objs id) idx offset size →
  let '(c', r) := ExpressDataCache_read_block c id idx offset size in
  express_ok c' ∧
  match r with Ok (Some block) => block_of (ecc_block_size config) (objs id) idx block | Panic => False | _ => True end.
Proof.
  intros (Hcfg & Hpre & Hbs & Hb & Huser & Hsep) (Hidx & Hin & Hlen & -> & ->). unfold ExpressDataCache_read_block. rewrite Hcfg, Hpre.
  destruct (_ <? zlen (objs id)); [done|]. rewrite wmul_small by (unfold is_u64; nia). rewrite Z.eqb_refl. cbn [negb].
  pose proof (bucket_get (edc_client c) (ecc_bucket_name config) (get_s3_key cache_prefix id idx) Hb) as Hget.
  destruct (express_get_object _ _ _) as [b r]. destruct Hget as [Hb' Hr].
  split; [done|]. destruct r as [e|resp]; [by repeat case_match|].
  destruct Hr as (params & data & Hh & Hd & Hw & Hm & Hsum & Hcrc).
  destruct (Hh eq_refl ltac:(by eexists _, _)) as (source & bs & Huser' & Hprefix & id' & idx' & sum & Hsum32 & Hlen' & Hblock & Hmeta & Hput).
  rewrite (Hsep _ _ Huser' Hprefix) in *.
  pose proof (block_of_len _ _ _ _ Hbs Hblock) as Hdl. rewrite cb_data_inner in Hdl.
  pose proof (read_response_spec (edc_with_client c b) data resp Hcfg Hdl Hbs Hd Hw) as Hread.
  destruct (read_body _ _ _ _) as [[buffer|]| |]; simpl; [|done..]. subst buffer.
  destruct (er_checksum_crc32c resp) as [[text|]| |] eqn:Htext; simpl; [|done..].
  specialize (Hcrc text eq_refl). rewrite Hput in Hcrc. injection Hcrc as <-. rewrite crc32c_base64_round_trip by done. simpl.
  destruct (validate_object_metadata _ _) as [[]| |] eqn:Hv; simpl; [|done|by apply validate_metadata_total in Hv].
  rewrite Hcfg, Hm, Hmeta in Hv. pose proof Hblock as (Hidx' & Hin' & _).
  by apply validate_metadata in Hv as (-> & _ & -> & -> & _); [|unfold is_u64; nia..].
Qed.

Lemma make_put_ok c params key data :
  express_ok c → honest_put (ecc_bucket_name config) key params data →
  let '(c', r) := make_put_object_request c params key data in express_ok c' ∧ r ≠ Panic.
Proof.
  intros (Hcfg & Hpre & Hbs & Hb & Huser & Hsep) Hh. unfold make_put_object_request. rewrite Hcfg.
  destruct (sse_into_inner (ecc_sse config)) as [[type key_id]| |] eqn:Hsse; [|done|by apply sse_into_inner_total in Hsse].
  pose proof (bucket_put (edc_client c) (ecc_bucket_name config) key (psp_with_sse params type key_id) data Hb Hh) as Hput.
  destruct (express_put_object_single _ _ _ _ _) as [b r]. destruct Hput as [Hb' Hr].
  destruct r as [e|result]; [done|]. destruct Hr as [Htype Hkey]. simpl in Htype, Hkey.
  unfold sse_into_inner in Hsse. unfold sse_verify_response. destruct (sse_validate (ecc_sse config)) as [[]| |]; [|done..].
  injection Hsse as <- <-. simpl.
  destruct (sse_type (ecc_sse config)) as [type|]; simpl; [rewrite (Htype type eq_refl), bool_decide_eq_true_2 by done; simpl|];
    (destruct (sse_kms_key_id (ecc_sse config)) as [key_id|]; simpl; [rewrite (Hkey key_id eq_refl), bool_decide_eq_true_2 by done|]; done).
Qed.

Lemma write_block_ok c id idx offset block size :
  express_ok c → block_request (ecc_block_size config) (objs id) idx offset size → block_of (ecc_block_size config) (objs id) idx block →
  let '(c', r) := ExpressDataCache_write_block c id idx offset block size in express_ok c' ∧ r ≠ Panic.
Proof.
  intros Hok (Hidx & Hin & Hlen & -> & ->) (_ & _ & Hwf & Hi & Hdata). pose proof Hok as (Hcfg & Hpre & Hbs & Hb & Huser & Hsep).
  unfold ExpressDataCache_write_block. rewrite Hcfg, Hpre. destruct (_ <? zlen (objs id)); [done|].
  rewrite wmul_small by (unfold is_u64; nia). rewrite Z.eqb_refl. cbn [negb].
  destruct (into_inner_spec block Hwf Hi) as (sum & -> & Hsum & Hwf' & Hi'). apply make_put_ok; [done|]. intros _ _.
  exists (ecc_source_bucket_name config), (ecc_block_size config). split; [done|]. split; [done|]. exists id, idx, sum. split; [done|]. split; [done|]. split; [|done]. unfold block_of. rewrite cb_data_inner. by ands.
Qed.

(** The key of the file that describes the cache is not the key of a block. *)
Lemma metadata_key_not_block id idx : (cache_prefix +:+ "/_mountpoint_cache_metadata")%string ≠ get_s3_key cache_prefix id idx.
Proof.
  unfold get_s3_key. intros Heq. apply (inj (String.append _)) in Heq. injection Heq as Heq. apply (f_equal str_of) in Heq.
  assert (Ascii.ascii_of_nat 47 ∉ str_of "_mountpoint_cache_metadata") as Hn by (apply (bool_decide_unpack _); by vm_compute).
  apply Hn. rewrite Heq, !str_of_app. set_solver.
Qed.

Lemma verify_cache_ok c : express_ok c → let '(c', r) := verify_cache_valid c in express_ok c' ∧ r ≠ Panic.
Proof.
  intros Hok. unfold verify_cache_valid. apply make_put_ok; [done|]. intros _ (id & idx & Hkey).
  destruct Hok as (_ & Hpre & _). rewrite Hpre in Hkey. by apply metadata_key_not_block in Hkey.
Qed.

(** The cache keeps the promise of the interface, whatever the other users do and whatever collides. *)
#[export] Program Instance ExpressDataCache_laws : DataCacheLaws (ExpressDataCache B) (objects (ecc_source_bucket_name config)) := {| cache_ok := express_ok |}.
Next Obligation.
  intros c id idx offset size Hok Hreq. simpl in *. pose proof Hok as (Hcfg & _). rewrite Hcfg in *.
  pose proof (read_block_ok c id idx offset size Hok Hreq) as Hr. destruct (ExpressDataCache_read_block _ _ _ _ _).
  destruct Hr as [Hok' Hr]. pose proof Hok' as (Hcfg' & _). by rewrite Hcfg'.
Qed.
Next Obligation.
  intros c id idx offset block size Hok Hreq Hb. simpl in *. pose proof Hok as (Hcfg & _). rewrite Hcfg in *.
  pose proof (write_block_ok c id idx offset block size Hok Hreq Hb) as Hr. destruct (ExpressDataCache_write_block _ _ _ _ _ _).
  destruct Hr as [Hok' Hr]. pose proof Hok' as (Hcfg' & _). by rewrite Hcfg'.
Qed.

(** ** Histories of the cache *)

Inductive express_op :=
| EGet (id : ObjectId) (idx offset size : Z)
| EPut (id : ObjectId) (idx offset : Z) (block : ChecksummedBytes) (size : Z)
| EVerify.

(** The state after an operation, and the answer of a [get_block]. *)
Definition express_apply c (op : express_op) : ExpressDataCache B * outcome DataCacheError (option ChecksummedBytes) :=
  match op with
  | EGet id idx offset size => get_block c id idx offset size
  | EPut id idx offset block size => let '(c, r) := put_block c id idx offset block size in (c, let! _ := r in Ok None)
  | EVerify => let '(c, r) := verify_cache_valid c in (c, let! _ := r in Ok None)
  end.
Fixpoint express_run c (ops : list express_op) : list (outcome DataCacheError (option ChecksummedBytes)) :=
  match ops with
  | [] => []
  | op :: ops => let '(c, r) := express_apply c op in r :: express_run c ops
  end.

(** Requests as the caching part stream makes them. *)
Definition express_op_ok (op : express_op) : Prop :=
  match op with
  | EGet id idx offset size => block_request (ecc_block_size config) (objs id) idx offset size
  | EPut id idx offset block size =>
      block_request (ecc_block_size config) (objs id) idx offset size ∧ block_of (ecc_block_size config) (objs id) idx block
  | EVerify => True
  end.
Definition express_answer_ok (op : express_op) (r : outcome DataCacheError (option ChecksummedBytes)) : Prop :=
  match op, r with
  | EGet id idx _ _, Ok (Some block) => block_of (ecc_block_size config) (objs id) idx block
  | _, Panic => False
  | _, _ => True
  end.

Lemma express_apply_ok c op :
  express_ok c → express_op_ok op → let '(c', r) := express_apply c op in express_ok c' ∧ express_answer_ok op r.
Proof.
  intros Hok Hop. destruct op as [id idx offset size|id idx offset block size|]; simpl in *.
  - pose proof (read_block_ok c id idx offset size Hok Hop) as Hr. by destruct (ExpressDataCache_read_block _ _ _ _ _).
  - destruct Hop as [Hreq Hb]. pose proof (write_block_ok c id idx offset block size Hok Hreq Hb) as Hr.
    destruct (ExpressDataCache_write_block _ _ _ _ _ _) as [c' []]; simpl; tauto.
  - pose proof (verify_cache_ok c Hok) as Hr. destruct (verify_cache_valid _) as [c' []]; simpl; tauto.
Qed.

(** C18. The shared cache never serves wrong data and never blocks.  Several file systems, mounted on any source buckets, share one
    cache bucket; each puts right blocks of its own objects under the keys of blocks, and S3 may fail or lose objects at any point.
    The digests in the keys may collide, between blocks, objects and source buckets, but the prefixes of file systems with different
    block sizes do not collide ([sizes_separated]; the metadata of a block does not tell its size).  Then in any sequence of gets,
    puts and checks of the cache every block that a get returns is intact and exactly that block of that version of the object of
    this source bucket; no operation panics, and no download waits for a read window that the cache does not open, however small the
    initial window is and however the body is cut. *)
Theorem express_cache_coherent b ops :
  0 < ecc_block_size config → user (ecc_source_bucket_name config) (ecc_block_size config) → sizes_separated → bucket_ok b →
  Forall express_op_ok ops →
  Forall2 express_answer_ok ops (express_run (ExpressDataCache_new b config) ops).
Proof.
  intros Hbs Huser Hsep Hb. assert (express_ok (ExpressDataCache_new b config)) as Hok by done.
  generalize dependent (ExpressDataCache_new b config). clear b Hb Huser Hsep. intros c Hok. revert c Hok.
  induction ops as [|op ops IH]; intros c Hok Hops; simpl; [constructor|]. inv Hops.
  pose proof (express_apply_ok c op Hok ltac:(done)) as Ha. destruct (express_apply c op) as [c1 r]. destruct Ha as [Hok1 Hr].
  constructor; [done|]. by apply IH.
Qed.
End coherence.

(** ** A concrete bucket

    It delivers an object in two pieces, with an initial window of 0. *)
Module ExpressExample.
Definition bucket : Type := gmap (string * string) (PutObjectSingleParams * bytes).
Definition half (data : bytes) : Z := zlen data / 2.
Definition response (params : PutObjectSingleParams) (data : bytes) : ExpressResponse := {|
  er_body := [inl {| gbp_offset := 0; gbp_data := zslice 0 (half data) data |};
    inl {| gbp_offset := half data; gbp_data := zslice (half data) (zlen data) data |}];
  er_window := Some 0;
  er_metadata := psp_object_metadata params;
  er_checksum_crc32c := Ok (match psp_checksum params with Some {| uc_algorithm := AlgCrc32c; uc_value := sum |} => Some sum | _ => None end);
|}.
#[export] Instance bucket_client : ExpressClient bucket := {|
  express_get_object b bucket key :=
    (b, match b !! (bucket, key) with Some (params, data) => inr (response params data) | None => inl (GetServiceError GetNoSuchKey) end);
  express_put_object_single b bucket key params data :=
    (<[(bucket, key) := (params, data)]> b,
     inr {| por_etag := "etag"; por_sse_type := psp_server_side_encryption params; por_sse_kms_key_id := psp_ssekms_key_id params |});
|}.

Lemma response_ok params data : response_of params data (response params data).
Proof.
  pose proof (zlen_nonneg data). assert (0 ≤ half data ≤ zlen data) by (unfold half; Z.div_mod_to_equations; lia).
  unfold response_of. simpl. rewrite !zlen_zslice by lia. replace (half data + (zlen data - half data)) with (zlen data) by lia.
  rewrite Z.sub_0_r, Z.add_0_l. ands; try done; try lia; [f_equal; lia|by intros w [= <-]|].
  intros sum. destruct (psp_checksum params) as [[[] v]|]; try done. by intros [= <-].
Qed.
#[export] Instance bucket_laws honest : ExpressBucketLaws bucket honest.
Proof.
  refine {| bucket_ok b := map_Forall (λ '(bucket, key) '(params, data), honest bucket key params data) b |}.
  - intros b bucket key Hb. simpl. split; [done|]. destruct (b !! (bucket, key)) as [[params data]|] eqn:Hl; [|done].
    exists params, data. split; [by apply (Hb (bucket, key) (params, data))|apply response_ok].
  - intros b bucket key params data Hb Hh. simpl. split; [|done]. by apply map_Forall_insert_2.
Defined.

(** Two source buckets, whose prefixes collide because all digests are equal; the other file system has put a block of its own "a". *)
Definition id_a : ObjectId := {| oid_key := "a"; oid_etag := "e1" |}.
Definition contents (source : string) (id : ObjectId) : bytes :=
  if decide (source = "source") then (if decide (id = id_a) then [x01; x02; x03] else [x04]) else [x05; x06].
Definition id_b : ObjectId := {| oid_key := "b"; oid_etag := "e2" |}.
Definition config : ExpressDataCacheConfig :=
  {| ecc_bucket_name := "cache"; ecc_source_bucket_name := "source"; ecc_block_size := 2; ecc_max_object_size := 10;
     ecc_sse := ServerSideEncryption_default |}.
Definition users (source : string) (bs : Z) : Prop := bs = 2 ∧ (source = "source" ∨ source = "other").
Definition shared : bucket :=
  let sum := crc32c_checksum (Crc32c := sum_crc) [x05; x06] in
  {[ ("cache", get_s3_key (hash := worst_hash) (cache_prefix (hash := worst_hash) config) id_a 0) :=
     (to_put_object_params (BlockMetadata_new (crc := sum_crc) 0 0 id_a "other" sum), [x05; x06]) ]}.
Lemma shared_ok : bucket_ok (ExpressBucketLaws := bucket_laws (honest_put (crc := sum_crc) (env := validating) (hash := worst_hash) contents config users)) shared.
Proof.
  apply map_Forall_singleton. intros _ _. exists "other", 2. split; [split; [done|by right]|]. split; [done|].
  eexists id_a, 0, _. split; [|split; [|split; [|split; reflexivity]]]; [by vm_compute..|]. repeat split; by vm_compute.
Qed.
Definition ops : list express_op :=
  [EVerify; EGet id_a 0 0 3; EPut id_a 0 0 (ChecksummedBytes_new (env := false) [x01; x02]) 3; EGet id_a 0 0 3; EGet id_b 0 0 1].
End ExpressExample.
Import ExpressExample.

Lemma express_cache_coherent_witness :
  let answers := express_run (crc := sum_crc) (env := validating) (hash := worst_hash) (B := bucket) (ExpressDataCache_new (hash := worst_hash) shared config) ops in
  answers !! 1%nat = Some (Err (InvalidBlockHeader "source-bucket-name")) ∧
  answers !! 3%nat = Some (Ok (Some (ChecksummedBytes_new (crc := sum_crc) (env := false) [x01; x02]))) ∧
  answers !! 4%nat = Some (Err (InvalidBlockHeader "etag")) ∧
  Forall2 (express_answer_ok (crc := sum_crc) (env := validating) contents config) ops answers.
Proof.
  split; [by vm_compute|]. split; [by vm_compute|]. split; [by vm_compute|].
  apply (express_cache_coherent (crc := sum_crc) (env := validating) (hash := worst_hash) contents config users (B := bucket) shared ops).
  - done.
  - split; [done|by left].
  - by intros source bs [-> _].
  - apply shared_ok.
  - repeat constructor; by vm_compute.
Defined.
