(* ===== verification/HandlesMap.v ===== *)
(** * Open handles of inodes ([src/mountpoint-s3-fs/src/superblock/handles_map.rs])

    [InodeHandleMap] records, per inode, the open readers and the open writer and
    whether each is active or was deactivated by a flush.  The map's mutex makes
    every method atomic, so the methods are functions on its contents and a
    concurrent execution is a sequence of their calls. *)

From S2P Require Import Prelude.

Local Open Scope Z_scope.

Abbreviation InodeNo := Z (only parsing).
Abbreviation HandleId := Z (only parsing).

Inductive HandleState := Active | Inactive.
#[export] Instance HandleState_eq_dec : EqDecision HandleState.
Proof. solve_decision. Defined.

Record InodeHandles := {
  ih_readers : gmap HandleId HandleState;
  ih_writer : option (HandleId * HandleState);
}.
Definition InodeHandles_default : InodeHandles := {| ih_readers := ∅; ih_writer := None |}.
Definition InodeHandles_is_empty (h : InodeHandles) : bool :=
  bool_decide (ih_readers h = ∅) && bool_decide (ih_writer h = None).

Abbreviation InodeHandleMap := (gmap InodeNo InodeHandles).

(** [entry(ino).or_default()] *)
Definition handles_of (m : InodeHandleMap) (ino : InodeNo) : InodeHandles :=
  default InodeHandles_default (m !! ino).
Definition writer_active (h : InodeHandles) : bool :=
  match ih_writer h with Some (_, Active) => true | _ => false end.
Definition any_reader_active (h : InodeHandles) : bool :=
  existsb (λ x, bool_decide (x.2 = Active)) (map_to_list (ih_readers h)).

Definition try_add_reader (m : InodeHandleMap) (ino : InodeNo) (fh : HandleId) : InodeHandleMap * bool :=
  let entry := handles_of m ino in
  if writer_active entry then (<[ino := entry]> m, false)
  else (<[ino := {| ih_readers := <[fh := Active]> (ih_readers entry); ih_writer := None |}]> m, true).

Definition deactivate_reader (m : InodeHandleMap) (ino : InodeNo) (fh : HandleId) : InodeHandleMap :=
  match m !! ino with
  | Some entry =>
      match ih_readers entry !! fh with
      | Some _ => <[ino := {| ih_readers := <[fh := Inactive]> (ih_readers entry); ih_writer := ih_writer entry |}]> m
      | None => m
      end
  | None => m
  end.

Definition try_activate_reader (m : InodeHandleMap) (ino : InodeNo) (fh : HandleId) : InodeHandleMap * bool :=
  match m !! ino with
  | Some entry =>
      match ih_readers entry !! fh with
      | Some _ =>
          (<[ino := {| ih_readers := <[fh := Active]> (ih_readers entry); ih_writer := ih_writer entry |}]> m, true)
      | None => (m, false)
      end
  | None => (m, false)
  end.

(** [entry.remove()] when nothing is left for the inode *)
Definition put_or_remove (m : InodeHandleMap) (ino : InodeNo) (h : InodeHandles) : InodeHandleMap :=
  if InodeHandles_is_empty h then delete ino m else <[ino := h]> m.

Definition remove_reader (m : InodeHandleMap) (ino : InodeNo) (fh : HandleId) : InodeHandleMap :=
  match m !! ino with
  | Some entry => put_or_remove m ino {| ih_readers := delete fh (ih_readers entry); ih_writer := ih_writer entry |}
  | None => m
  end.

Inductive SetWriterError := ActiveWriter | ActiveReaders.

Definition set_writer (m : InodeHandleMap) (ino : InodeNo) (fh : HandleId)
    : InodeHandleMap * (SetWriterError + unit) :=
  let entry := handles_of m ino in
  if any_reader_active entry then (<[ino := entry]> m, inl ActiveReaders)
  else if writer_active entry then (<[ino := entry]> m, inl ActiveWriter)
  else (<[ino := {| ih_readers := ∅; ih_writer := Some (fh, Active) |}]> m, inr tt).

(** the common shape of [try_activate_writer] and [try_deactivate_writer] *)
Definition set_writer_state (s : HandleState) (m : InodeHandleMap) (ino : InodeNo) (fh : HandleId)
    : InodeHandleMap * bool :=
  match m !! ino with
  | Some entry =>
      match ih_writer entry with
      | Some (writer, _) =>
          if bool_decide (fh = writer)
          then (<[ino := {| ih_readers := ih_readers entry; ih_writer := Some (writer, s) |}]> m, true)
          else (m, false)
      | None => (m, false)
      end
  | None => (m, false)
  end.
Definition try_activate_writer := set_writer_state Active.
Definition try_deactivate_writer := set_writer_state Inactive.

Definition try_remove_writer (m : InodeHandleMap) (ino : InodeNo) (fh : HandleId) : InodeHandleMap * bool :=
  match m !! ino with
  | Some entry =>
      match ih_writer entry with
      | Some (writer, _) =>
          if bool_decide (fh = writer)
          then (put_or_remove m ino {| ih_readers := ih_readers entry; ih_writer := None |}, true)
          else (m, false)
      | None => (m, false)
      end
  | None => (m, false)
  end.

Definition remove_inode (m : InodeHandleMap) (ino : InodeNo) : InodeHandleMap * bool :=
  (delete ino m, bool_decide (is_Some (m !! ino))).

(** ** Executions: the calls that threads make, in the order the mutex serves them *)

Inductive handle_op :=
| OpAddReader (ino : InodeNo) (fh : HandleId)
| OpDeactivateReader (ino : InodeNo) (fh : HandleId)
| OpActivateReader (ino : InodeNo) (fh : HandleId)
| OpRemoveReader (ino : InodeNo) (fh : HandleId)
| OpSetWriter (ino : InodeNo) (fh : HandleId)
| OpActivateWriter (ino : InodeNo) (fh : HandleId)
| OpDeactivateWriter (ino : InodeNo) (fh : HandleId)
| OpRemoveWriter (ino : InodeNo) (fh : HandleId)
| OpRemoveInode (ino : InodeNo).

Definition apply_op (m : InodeHandleMap) (op : handle_op) : InodeHandleMap :=
  match op with
  | OpAddReader ino fh => (try_add_reader m ino fh).1
  | OpDeactivateReader ino fh => deactivate_reader m ino fh
  | OpActivateReader ino fh => (try_activate_reader m ino fh).1
  | OpRemoveReader ino fh => remove_reader m ino fh
  | OpSetWriter ino fh => (set_writer m ino fh).1
  | OpActivateWriter ino fh => (try_activate_writer m ino fh).1
  | OpDeactivateWriter ino fh => (try_deactivate_writer m ino fh).1
  | OpRemoveWriter ino fh => (try_remove_writer m ino fh).1
  | OpRemoveInode ino => (remove_inode m ino).1
  end.
Definition apply_ops (m : InodeHandleMap) (ops : list handle_op) : InodeHandleMap := foldl apply_op m ops.

(** What the map knows of a handle. *)
Definition known_reader (m : InodeHandleMap) (ino : InodeNo) (fh : HandleId) : bool :=
  bool_decide (is_Some (ih_readers (handles_of m ino) !! fh)).
Definition known_writer (m : InodeHandleMap) (ino : InodeNo) (fh : HandleId) : bool :=
  match ih_writer (handles_of m ino) with Some (w, _) => bool_decide (w = fh) | None => false end.
Definition opens_reader (op : handle_op) (ino : InodeNo) (fh : HandleId) : bool :=
  match op with OpAddReader i f => bool_decide (i = ino ∧ f = fh) | _ => false end.
Definition opens_writer (op : handle_op) (ino : InodeNo) (fh : HandleId) : bool :=
  match op with OpSetWriter i f => bool_decide (i = ino ∧ f = fh) | _ => false end.

(** ** Invariant: readers or a writer, never both *)

Definition handles_ok (h : InodeHandles) : Prop := ih_writer h ≠ None → ih_readers h = ∅.
Definition handle_map_ok (m : InodeHandleMap) : Prop := ∀ ino, handles_ok (handles_of m ino).

Lemma handles_of_insert m ino h : handles_of (<[ino := h]> m) ino = h.
Proof. unfold handles_of. by rewrite lookup_insert_eq. Qed.
Lemma handles_of_insert_ne m ino ino' h : ino ≠ ino' → handles_of (<[ino := h]> m) ino' = handles_of m ino'.
Proof. intros. unfold handles_of. by rewrite lookup_insert_ne. Qed.
Lemma handles_of_put_or_remove m ino h : handles_of (put_or_remove m ino h) ino = h.
Proof.
  unfold put_or_remove. destruct (InodeHandles_is_empty h) eqn:He; [|apply handles_of_insert].
  unfold handles_of. rewrite lookup_delete_eq. unfold InodeHandles_is_empty in He.
  apply andb_true_iff in He as [?%bool_decide_eq_true ?%bool_decide_eq_true]. destruct h; simpl in *. by subst.
Qed.
Lemma handles_of_put_or_remove_ne m ino ino' h : ino ≠ ino' → handles_of (put_or_remove m ino h) ino' = handles_of m ino'.
Proof.
  intros. unfold put_or_remove. destruct (InodeHandles_is_empty h); [|by apply handles_of_insert_ne].
  unfold handles_of. by rewrite lookup_delete_ne.
Qed.
Lemma handles_of_delete m ino : handles_of (delete ino m) ino = InodeHandles_default.
Proof. unfold handles_of. by rewrite lookup_delete_eq. Qed.
Lemma handles_of_delete_ne m ino ino' : ino ≠ ino' → handles_of (delete ino m) ino' = handles_of m ino'.
Proof. intros. unfold handles_of. by rewrite lookup_delete_ne. Qed.
Lemma handles_of_lookup m ino h : m !! ino = Some h → handles_of m ino = h.
Proof. unfold handles_of. by intros ->. Qed.
Create Rewrite HintDb handles.
#[export] Hint Rewrite handles_of_insert handles_of_put_or_remove handles_of_delete : handles.
#[export] Hint Rewrite handles_of_insert_ne handles_of_put_or_remove_ne handles_of_delete_ne using done : handles.

(** [op_effect old new op fh]: what one call can do to the handles of the inode
    it is about, the only ones it touches. *)
Definition op_ino (op : handle_op) : InodeNo :=
  match op with
  | OpAddReader i _ | OpDeactivateReader i _ | OpActivateReader i _ | OpRemoveReader i _
  | OpSetWriter i _ | OpActivateWriter i _ | OpDeactivateWriter i _ | OpRemoveWriter i _ | OpRemoveInode i => i
  end.

(** Case analysis on what the map holds for the inode of an operation. *)
Ltac handle_cases :=
  unfold apply_op, try_add_reader, deactivate_reader, try_activate_reader, remove_reader, set_writer,
    try_activate_writer, try_deactivate_writer, set_writer_state, try_remove_writer, remove_inode in *;
  repeat (case_match; simplify_eq/=); autorewrite with handles in *;
  repeat match goal with H : ?m !! ?i = Some ?h |- _ => apply handles_of_lookup in H; try subst h end.

Lemma apply_op_other m op ino : op_ino op ≠ ino → handles_of (apply_op m op) ino = handles_of m ino.
Proof. destruct op; simpl; intros; handle_cases; try done; autorewrite with handles; done. Qed.

Lemma apply_op_ok m op : handle_map_ok m → handle_map_ok (apply_op m op).
Proof.
  intros Hok ino. destruct (decide (op_ino op = ino)) as [<-|Hne]; [|rewrite apply_op_other by done; apply Hok].
  specialize (Hok (op_ino op)). unfold handles_ok in *.
  destruct op; simpl in *; handle_cases; try done; try naive_solver; simpl; intros Hw.
  all: subst; specialize (Hok Hw); rewrite ?Hok in *; rewrite ?delete_empty; try done; by simplify_map_eq.
Qed.

Lemma apply_ops_ok m ops : handle_map_ok m → handle_map_ok (apply_ops m ops).
Proof. revert m. induction ops; simpl; eauto using apply_op_ok. Qed.
Lemma handle_map_ok_empty : handle_map_ok ∅.
Proof. by intros ino Hw. Qed.
#[export] Hint Resolve apply_ops_ok handle_map_ok_empty : core.

(** A handle becomes known only by being opened. *)
Lemma apply_op_known_reader m op ino fh :
  known_reader (apply_op m op) ino fh = true → opens_reader op ino fh = false → known_reader m ino fh = true.
Proof.
  unfold known_reader. destruct (decide (op_ino op = ino)) as [<-|Hne]; [|by rewrite apply_op_other].
  rewrite !bool_decide_eq_true. intros Hk Ho.
  destruct op; simpl in *; handle_cases; simpl in Hk; try done; try (by destruct Hk).
  all: destruct (decide (fh0 = fh)) as [->|]; [|by simplify_map_eq].
  all: first [done | by destruct Hk; simplify_map_eq | by apply bool_decide_eq_false in Ho; naive_solver].
Qed.

Lemma apply_op_known_writer m op ino fh :
  known_writer (apply_op m op) ino fh = true → opens_writer op ino fh = false → known_writer m ino fh = true.
Proof.
  unfold known_writer. destruct (decide (op_ino op = ino)) as [<-|Hne]; [|by rewrite apply_op_other].
  intros Hk Ho. destruct op; simpl in *; handle_cases; try done; try naive_solver.
  all: simplify_eq/=; apply bool_decide_eq_true in Hk as ->; by rewrite bool_decide_eq_false in Ho; destruct Ho.
Qed.

Lemma apply_ops_known_reader m ops ino fh :
  known_reader (apply_ops m ops) ino fh = true → Forall (λ op, opens_reader op ino fh = false) ops →
  known_reader m ino fh = true.
Proof. revert m. induction ops; simpl; intros m Hk Hf; inv Hf; eauto using apply_op_known_reader. Qed.
Lemma apply_ops_known_writer m ops ino fh :
  known_writer (apply_ops m ops) ino fh = true → Forall (λ op, opens_writer op ino fh = false) ops →
  known_writer m ino fh = true.
Proof. revert m. induction ops; simpl; intros m Hk Hf; inv Hf; eauto using apply_op_known_writer. Qed.

(** Activation is granted to known handles only. *)
Lemma try_activate_reader_known m ino fh : (try_activate_reader m ino fh).2 = known_reader m ino fh.
Proof.
  unfold try_activate_reader, known_reader, handles_of. destruct (m !! ino) as [h|]; simpl; [|done].
  by destruct (ih_readers h !! fh).
Qed.
Lemma try_activate_writer_known m ino fh : (try_activate_writer m ino fh).2 = known_writer m ino fh.
Proof.
  unfold try_activate_writer, set_writer_state, known_writer, handles_of. destruct (m !! ino) as [h|]; simpl; [|done].
  destruct (ih_writer h) as [[w ?]|]; simpl; [|done]. by repeat case_bool_decide.
Qed.
Lemma any_reader_active_spec h : any_reader_active h = true ↔ ∃ fh, ih_readers h !! fh = Some Active.
Proof.
  unfold any_reader_active. rewrite existsb_exists. split.
  - intros ([fh s] & Hin & Hs%bool_decide_eq_true). simpl in Hs. subst s. exists fh.
    apply elem_of_map_to_list. by apply list_elem_of_In.
  - intros [fh Hfh]. exists (fh, Active). split; [|by apply bool_decide_eq_true].
    by apply list_elem_of_In, elem_of_map_to_list.
Qed.
Lemma set_writer_granted m ino fh :
  (set_writer m ino fh).2 = inr tt ↔
  writer_active (handles_of m ino) = false ∧ ∀ r, ih_readers (handles_of m ino) !! r ≠ Some Active.
Proof.
  unfold set_writer. destruct (any_reader_active (handles_of m ino)) eqn:Hr; simpl.
  - split; [done|]. apply any_reader_active_spec in Hr as [r Hr]. naive_solver.
  - assert (∀ r, ih_readers (handles_of m ino) !! r ≠ Some Active).
    { intros r Hrr. apply not_true_iff_false in Hr. destruct Hr. apply any_reader_active_spec. eauto. }
    destruct (writer_active (handles_of m ino)); simpl; naive_solver.
Qed.

(** Readers and writers exclude each other.  After any sequence of calls,
    on any inodes and in any order: an inode has known readers or a known
    writer, never both, so no active reader ever coexists with an active writer,
    also after handles are reactivated; a new reader is refused exactly
    while a writer is active; and a new writer is refused exactly while some
    reader or another writer is active, and when granted it is the only handle
    left for the inode. *)
Theorem handles_exclusive ops ino fh :
  let m := apply_ops ∅ ops in
  (∀ w r, known_writer m ino w = true → known_reader m ino r = false) ∧
  (try_add_reader m ino fh).2 = negb (writer_active (handles_of m ino)) ∧
  ((set_writer m ino fh).2 = inr tt ↔
     writer_active (handles_of m ino) = false ∧ ∀ r, ih_readers (handles_of m ino) !! r ≠ Some Active) ∧
  ((set_writer m ino fh).2 = inr tt → ∀ fh',
     known_reader (set_writer m ino fh).1 ino fh' = false ∧
     known_writer (set_writer m ino fh).1 ino fh' = bool_decide (fh = fh')).
Proof.
  intros m. assert (handle_map_ok m) as Hok by (unfold m; auto). ands.
  - intros w r. unfold known_writer, known_reader. specialize (Hok ino). unfold handles_ok in Hok.
    case_match eqn:Hw; [|done]. intros _. rewrite Hok by done. by rewrite lookup_empty.
  - unfold try_add_reader. by case_match.
  - apply set_writer_granted.
  - intros Hg fh'. unfold set_writer in *. repeat case_match; simplify_eq/=.
    unfold known_reader, known_writer. rewrite handles_of_insert. simpl. by rewrite lookup_empty.
Qed.

(** A handle that lost its inode stays revoked.  Once a writer was granted,
    no handle opened before can be reactivated, and once a reader was granted
    no writer opened before can, whatever else happens until that same handle
    is opened again. *)
Theorem revoked_handles_stay_revoked m ino fh fh' ops :
  Forall (λ op, opens_reader op ino fh = false ∧ opens_writer op ino fh = false) ops →
  ((set_writer m ino fh').2 = inr tt → fh ≠ fh' →
     let m' := apply_ops (set_writer m ino fh').1 ops in
     (try_activate_reader m' ino fh).2 = false ∧ (try_activate_writer m' ino fh).2 = false) ∧
  ((try_add_reader m ino fh').2 = true →
     (try_activate_writer (apply_ops (try_add_reader m ino fh').1 ops) ino fh).2 = false).
Proof.
  intros Hf. assert (Forall (λ op, opens_reader op ino fh = false) ops) as Hr by (by eapply Forall_impl; [|exact Hf]; intros ? []).
  assert (Forall (λ op, opens_writer op ino fh = false) ops) as Hw by (by eapply Forall_impl; [|exact Hf]; intros ? []).
  cbv zeta. rewrite try_activate_reader_known, !try_activate_writer_known.
  split; [intros Hg Hne; split|intros Hg]; apply not_true_iff_false; intros Hk.
  - apply apply_ops_known_reader in Hk; [|done]. unfold set_writer in *. repeat case_match; simplify_eq/=.
    unfold known_reader in Hk. by rewrite handles_of_insert in Hk.
  - apply apply_ops_known_writer in Hk; [|done]. unfold set_writer in *. repeat case_match; simplify_eq/=.
    unfold known_writer in Hk. rewrite handles_of_insert in Hk. simpl in Hk. by apply bool_decide_eq_true in Hk.
  - apply apply_ops_known_writer in Hk; [|done]. unfold try_add_reader in *. case_match; simplify_eq/=.
    unfold known_writer in Hk. by rewrite handles_of_insert in Hk.
Qed.

(** Reader 1 is flushed, writer 2 takes over, is flushed and released: reader 1 stays revoked. *)
Lemma revoked_handles_stay_revoked_witness :
  let m := apply_ops ∅ [OpAddReader 7 1; OpDeactivateReader 7 1] in
  let ops := [OpDeactivateWriter 7 2; OpRemoveWriter 7 2; OpAddReader 7 3] in
  (try_activate_reader m 7 1).2 = true ∧
  (try_activate_reader (apply_ops (set_writer m 7 2).1 ops) 7 1).2 = false.
Proof.
  intros m ops. split; [by vm_compute|].
  destruct (revoked_handles_stay_revoked m 7 1 2 ops) as [H _]; [repeat constructor|].
  specialize (H eq_refl ltac:(lia)). apply H.
Defined.
