(* ===== verification/NegativeCache.v ===== *)
(** * Cache of failed lookups ([src/mountpoint-s3-fs/src/superblock/negative_cache.rs],
      [src/mountpoint-s3-fs/src/metablock/expiry.rs])

    [NegativeCache] remembers (parent inode, child name) pairs that were not found
    in S3.  Its [LinkedHashMap] lists its entries oldest first; an [Instant] is a number of nanoseconds.  Every reading of the
    clock is an argument: [insert] computes the expiry before it takes the lock
    and then reads the clock again for each entry it looks at. *)

From S2P Require Import Prelude LinkedHashMap.

Local Open Scope Z_scope.

(** ** Expiry: an instant; TTLs are at most 200 years, so adding one to the
    current time does not overflow the 64-bit seconds of an [Instant] *)

Record Expiry := { exp_instant : Z }.
Definition Expiry_from_now (now ttl : Z) : Expiry := {| exp_instant := now + ttl |}.
Definition Expiry_remaining_ttl (e : Expiry) (now : Z) : Z := Z.max 0 (exp_instant e - now).
Definition Expiry_is_expired (e : Expiry) (now : Z) : bool := exp_instant e <? now.

(** ** The cache *)

Record NegKey := { nk_parent_ino : Z; nk_child_name : str }.
#[export] Instance NegKey_eq_dec : EqDecision NegKey.
Proof. solve_decision. Defined.

Record NegativeCache := {
  nc_map : list (NegKey * Expiry);
  nc_max_size : nat;
  nc_ttl : Z;
}.
Definition NegativeCache_new (max_size : nat) (ttl : Z) : NegativeCache :=
  {| nc_map := []; nc_max_size := max_size; nc_ttl := ttl |}.
Definition nc_with_map (nc : NegativeCache) (m : list (NegKey * Expiry)) : NegativeCache :=
  {| nc_map := m; nc_max_size := nc_max_size nc; nc_ttl := nc_ttl nc |}.

Definition NegativeCache_contains (nc : NegativeCache) (now : Z) (parent_ino : Z) (child_name : str) : bool :=
  match lhm_get (nc_map nc) {| nk_parent_ino := parent_ino; nk_child_name := child_name |} with
  | Some expiry => negb (Expiry_is_expired expiry now)
  | None => false
  end.

Definition NegativeCache_remove (nc : NegativeCache) (parent_ino : Z) (child_name : str) : NegativeCache :=
  nc_with_map nc (lhm_remove (nc_map nc) {| nk_parent_ino := parent_ino; nk_child_name := child_name |}).

(** [while map.front().is_some_and(|(_, e)| e.is_expired())]; [clock i] is the reading of the i-th iteration *)
Fixpoint pop_expired (clock : nat → Z) (i : nat) (m : list (NegKey * Expiry)) : list (NegKey * Expiry) :=
  match m with
  | (_, e) :: m' => if Expiry_is_expired e (clock i) then pop_expired clock (S i) m' else m
  | [] => []
  end.
(** [while map.len() > self.max_size] *)
Fixpoint pop_excess (max_size : nat) (m : list (NegKey * Expiry)) : list (NegKey * Expiry) :=
  match m with
  | _ :: m' => if (max_size <? length m)%nat then pop_excess max_size m' else m
  | [] => []
  end.

Definition NegativeCache_insert (nc : NegativeCache) (now : Z) (clock : nat → Z) (parent_ino : Z) (child_name : str)
    : NegativeCache :=
  let expiry := Expiry_from_now now (nc_ttl nc) in
  let key := {| nk_parent_ino := parent_ino; nk_child_name := child_name |} in
  let map := lhm_insert (nc_map nc) key expiry in
  nc_with_map nc
    match lhm_get (nc_map nc) key with
    | None => pop_excess (nc_max_size nc) (pop_expired clock 0 map)
    | Some _ => map
    end.

(** ** Executions *)

Inductive neg_op :=
| NegInsert (now : Z) (clock : nat → Z) (parent_ino : Z) (child_name : str)
| NegRemove (parent_ino : Z) (child_name : str).

Definition neg_apply (nc : NegativeCache) (op : neg_op) : NegativeCache :=
  match op with
  | NegInsert now clock p c => NegativeCache_insert nc now clock p c
  | NegRemove p c => NegativeCache_remove nc p c
  end.
Definition neg_run (nc : NegativeCache) (ops : list neg_op) : NegativeCache := foldl neg_apply nc ops.

(** The last thing that happened to a key: [Some t] for an insertion at [t]. *)
Definition neg_event (k : NegKey) (last : option Z) (op : neg_op) : option Z :=
  match op with
  | NegInsert now _ p c => if bool_decide (k = {| nk_parent_ino := p; nk_child_name := c |}) then Some now else last
  | NegRemove p c => if bool_decide (k = {| nk_parent_ino := p; nk_child_name := c |}) then None else last
  end.
Definition last_insert (k : NegKey) (ops : list neg_op) : option Z := foldl (neg_event k) None ops.

Definition nc_ok (nc : NegativeCache) : Prop :=
  NoDup (map fst (nc_map nc)) ∧ (length (nc_map nc) ≤ nc_max_size nc)%nat.

(** ** Lemmas on the map and the two eviction loops *)

Lemma pop_expired_suffix clock i m : pop_expired clock i m `suffix_of` m.
Proof.
  revert i. induction m as [|[k e] m IH]; intros i; simpl; [done|]. case_match; [by apply suffix_cons_r|done].
Qed.
Lemma pop_excess_suffix n m : pop_excess n m `suffix_of` m.
Proof. induction m as [|x m IH]; [done|]. unfold pop_excess; fold pop_excess. case_match; [by apply suffix_cons_r|done]. Qed.
Lemma pop_excess_length n m : (length (pop_excess n m) ≤ n)%nat.
Proof.
  induction m as [|x m IH]; simpl; [lia|]. destruct (Nat.ltb_spec n (S (length m))); simpl; lia.
Qed.
Lemma suffix_elem {A} (l1 l2 : list A) x : l1 `suffix_of` l2 → x ∈ l1 → x ∈ l2.
Proof. intros [k ->] ?. apply elem_of_app. by right. Qed.
Lemma suffix_nodup (m1 m2 : list (NegKey * Expiry)) :
  m1 `suffix_of` m2 → NoDup (map fst m2) → NoDup (map fst m1).
Proof. intros [k ->]. rewrite map_app, list.NoDup_app. tauto. Qed.

(** ** Every operation keeps the cache bounded and free of duplicates *)
Lemma NegativeCache_insert_ok nc now clock p c : nc_ok nc → nc_ok (NegativeCache_insert nc now clock p c).
Proof.
  intros [Hnd Hlen]. unfold NegativeCache_insert. set (k := {| nk_parent_ino := p; nk_child_name := c |}).
  set (e := Expiry_from_now now (nc_ttl nc)). pose proof (lhm_insert_nodup (nc_map nc) k e Hnd) as Hnd'.
  destruct (lhm_get (nc_map nc) k) as [e'|] eqn:Hg; split; simpl.
  - done.
  - unfold lhm_insert. rewrite length_app. simpl.
    pose proof (lhm_remove_length_lt (nc_map nc) k ltac:(by rewrite Hg)). lia.
  - eapply suffix_nodup; [|exact Hnd']. etrans; [apply pop_excess_suffix|apply pop_expired_suffix].
  - apply pop_excess_length.
Qed.
Lemma neg_apply_ok nc op : nc_ok nc → nc_ok (neg_apply nc op).
Proof.
  destruct op; simpl; [apply NegativeCache_insert_ok|]. intros [Hnd Hlen]. split; simpl; [by apply lhm_remove_nodup|].
  etrans; [apply lhm_remove_length|done].
Qed.
Lemma neg_run_ok nc ops : nc_ok nc → nc_ok (neg_run nc ops).
Proof. revert nc. induction ops; simpl; eauto using neg_apply_ok. Qed.
Lemma neg_run_settings nc ops : nc_max_size (neg_run nc ops) = nc_max_size nc ∧ nc_ttl (neg_run nc ops) = nc_ttl nc.
Proof. revert nc. induction ops as [|[] ops IH]; intros nc; simpl; [done|..]; by rewrite !(proj1 (IH _)), !(proj2 (IH _)). Qed.
Lemma nc_new_ok max_size ttl : nc_ok (NegativeCache_new max_size ttl).
Proof. split; simpl; [constructor|lia]. Qed.

(** ** What an entry says about the past *)

Definition nc_sound (ops : list neg_op) (nc : NegativeCache) : Prop :=
  ∀ k e, (k, e) ∈ nc_map nc → ∃ t, last_insert k ops = Some t ∧ exp_instant e = t + nc_ttl nc.

Lemma last_insert_snoc k ops op : last_insert k (ops ++ [op]) = neg_event k (last_insert k ops) op.
Proof. unfold last_insert. by rewrite foldl_app. Qed.

Lemma nc_insert_elem nc now clock p c x :
  x ∈ nc_map (NegativeCache_insert nc now clock p c) →
  let k := {| nk_parent_ino := p; nk_child_name := c |} in
  x = (k, Expiry_from_now now (nc_ttl nc)) ∨ (x.1 ≠ k ∧ x ∈ nc_map nc).
Proof.
  intros Hx k. assert (x ∈ lhm_insert (nc_map nc) k (Expiry_from_now now (nc_ttl nc))) as Hin.
  { unfold NegativeCache_insert in Hx. simpl in Hx. fold k in Hx. case_match; [done|].
    eapply suffix_elem; [|exact Hx]. etrans; [apply pop_excess_suffix|apply pop_expired_suffix]. }
  unfold lhm_insert in Hin. apply elem_of_app in Hin as [Hin|Hin%list_elem_of_singleton]; [right|by left].
  by apply lhm_remove_elem.
Qed.

Lemma neg_apply_sound ops nc op : nc_sound ops nc → nc_sound (ops ++ [op]) (neg_apply nc op).
Proof.
  intros Hs k e Hin. rewrite last_insert_snoc. destruct op as [now clock p c|p c]; simpl in *.
  - apply nc_insert_elem in Hin as [[= -> ->]|[Hne Hin]]; [rewrite bool_decide_eq_true_2 by done; eauto|].
    simpl in Hne. rewrite bool_decide_eq_false_2 by done. eauto.
  - apply lhm_remove_elem in Hin as [Hne Hin]. simpl in Hne. rewrite bool_decide_eq_false_2 by done. eauto.
Qed.

Lemma neg_run_snoc nc ops op : neg_run nc (ops ++ [op]) = neg_apply (neg_run nc ops) op.
Proof. unfold neg_run. by rewrite foldl_app. Qed.

Lemma neg_run_sound max_size ttl ops : nc_sound ops (neg_run (NegativeCache_new max_size ttl) ops).
Proof.
  induction ops as [|op ops IH] using rev_ind; [by intros k e ?%elem_of_nil|].
  rewrite neg_run_snoc. by apply neg_apply_sound.
Qed.

(** An entry that was just inserted is reported until it expires. *)
Lemma lhm_insert_last (m : list (NegKey * Expiry)) k e : ∃ m', lhm_insert m k e = m' ++ [(k, e)] ∧ k ∉ map fst m'.
Proof.
  eexists. split; [done|]. intros ([k' e'] & -> & Hx)%list_elem_of_fmap. by apply lhm_remove_elem in Hx as [? _].
Qed.
Lemma pop_expired_last clock i m k e : (∀ j, Expiry_is_expired e (clock j) = false) → ∃ m', pop_expired clock i (m ++ [(k, e)]) = m' ++ [(k, e)] ∧ m' `suffix_of` m.
Proof.
  intros He. revert i. induction m as [|[k' e'] m IH]; intros i; simpl; [rewrite He; by exists []|].
  case_match; [destruct (IH (S i)) as (m' & -> & ?); exists m'; split; [done|by apply suffix_cons_r]|]. by exists ((k', e') :: m).
Qed.
Lemma pop_excess_last n m k (e : Expiry) : (0 < n)%nat → ∃ m', pop_excess n (m ++ [(k, e)]) = m' ++ [(k, e)] ∧ m' `suffix_of` m.
Proof.
  intros Hn. induction m as [|x m IH]; cbn [app pop_excess].
  - exists []. split; [|done]. simpl. by rewrite (proj2 (Nat.ltb_ge _ _)) by lia.
  - case_match; [destruct IH as (m' & -> & ?); exists m'; split; [done|by apply suffix_cons_r]|]. by exists (x :: m).
Qed.
Lemma NegativeCache_insert_contains nc now p c t : (0 < nc_max_size nc)%nat → 0 ≤ nc_ttl nc → t ≤ now + nc_ttl nc →
  NegativeCache_contains (NegativeCache_insert nc now (λ _, now) p c) t p c = true.
Proof.
  intros Hmax Httl Ht. unfold NegativeCache_contains, NegativeCache_insert. set (k := {| nk_parent_ino := p; nk_child_name := c |}).
  set (e := Expiry_from_now now (nc_ttl nc)). destruct (lhm_insert_last (nc_map nc) k e) as (m & -> & Hm). simpl.
  assert (∃ m', match lhm_get (nc_map nc) k with None => pop_excess (nc_max_size nc) (pop_expired (λ _, now) 0 (m ++ [(k, e)])) | Some _ => m ++ [(k, e)] end =
    m' ++ [(k, e)] ∧ m' `suffix_of` m) as (m' & -> & Hsuf).
  { destruct (lhm_get _ _); [by exists m|]. destruct (pop_expired_last (λ _, now) 0 m k e) as (m1 & -> & H1).
    { intros _. apply Z.ltb_ge. simpl. lia. }
    destruct (pop_excess_last (nc_max_size nc) m1 k e Hmax) as (m2 & -> & H2). exists m2. split; [done|by etrans]. }
  rewrite lhm_get_middle; [apply negb_true_iff, Z.ltb_ge; simpl; lia|]. intros ([k' e'] & -> & Hx)%list_elem_of_fmap. apply Hm, list_elem_of_fmap.
  exists (k', e'). split; [done|by eapply suffix_elem].
Qed.

(** A negative answer is never stale.  After any sequence of insertions and
    removals, with any clock readings, the cache holds at most [max_size]
    entries, and it reports a pair as missing only when the last operation on
    that pair was an insertion, at most [ttl] before: an entry never outlives
    its TTL, and one that was removed, as finding the child in S3 does, does
    not come back by itself. *)
Theorem negative_cache_never_stale max_size ttl ops now p c :
  let nc := neg_run (NegativeCache_new max_size ttl) ops in
  (length (nc_map nc) ≤ max_size)%nat ∧
  (NegativeCache_contains nc now p c = true →
   ∃ t, last_insert {| nk_parent_ino := p; nk_child_name := c |} ops = Some t ∧ now ≤ t + ttl).
Proof.
  intros nc. destruct (neg_run_settings (NegativeCache_new max_size ttl) ops) as [Hm Ht]. split.
  - unfold nc. rewrite <-Hm at 2. apply neg_run_ok, nc_new_ok.
  - unfold NegativeCache_contains. destruct (lhm_get _ _) as [e|] eqn:Hg; [|done].
    intros Hexp%negb_true_iff%Z.ltb_ge. apply lhm_get_elem, neg_run_sound in Hg as (t & Hl & He).
    exists t. split; [done|]. simpl in Ht. rewrite Ht in He. lia.
Qed.
