(* ===== verification/Path.v ===== *)
(** * Keys, names and prefixes ([src/mountpoint-s3-fs/src/metablock/path.rs],
      [src/mountpoint-s3-fs/src/s3/prefix.rs])

    A [ValidKey] is the S3 key of an inode together with the offset at which its
    last component starts; directory keys end in a slash and the root has the
    empty key.  Strings are their UTF-8 bytes; the delimiter is an ASCII byte, so
    byte offsets of components are character boundaries. *)

From S2P Require Import Prelude.
From Stdlib Require Import Strings.Ascii.

Definition delimiter : Ascii.ascii := "/"%char.
Definition nul : Ascii.ascii := Ascii.zero.

Inductive InodeKind := File | Directory.
#[export] Instance InodeKind_eq_dec : EqDecision InodeKind.
Proof. solve_decision. Defined.

(** [str::ends_with('/')] *)
Definition ends_with_delimiter (s : str) : bool := bool_decide (list.last s = Some delimiter).

(** [&s[from..to]]: panics when the range is decreasing or out of bounds *)
Definition str_slice {E} (s : str) (from to : nat) : outcome E str :=
  if ((from <=? to) && (to <=? length s))%nat then Ok (take (to - from) (drop from s)) else Panic.

(** [str::split('/')] and [str::split_terminator('/')], which drops a final empty piece *)
Fixpoint split (s : str) : list str :=
  match s with
  | [] => [[]]
  | c :: s' =>
      if bool_decide (c = delimiter) then [] :: split s'
      else match split s' with
           | piece :: rest => (c :: piece) :: rest
           | [] => [[c]]
           end
  end.
Definition split_terminator (s : str) : list str :=
  let pieces := split s in
  match list.last pieces with
  | Some [] => take (length pieces - 1) pieces
  | _ => pieces
  end.

(** ** Names *)

Inductive InvalidName := InvalidFileName (name : str).

Definition valid_name_str (name : str) : bool :=
  negb (bool_decide (name = [])) && negb (bool_decide (name = str_of ".")) && negb (bool_decide (name = str_of "..")) &&
  negb (bool_decide (delimiter ∈ name)) && negb (bool_decide (nul ∈ name)).
Definition ValidName_parse_str (name : str) : outcome InvalidName str :=
  if valid_name_str name then Ok name else Err (InvalidFileName name).

(** ** Prefixes *)

Inductive PrefixError := MissingFinalDelimiter.
Record Prefix := { prefix_path : str }.
Definition Prefix_new (prefix : str) : outcome PrefixError Prefix :=
  if negb (bool_decide (prefix = [])) && negb (ends_with_delimiter prefix)
  then Err MissingFinalDelimiter else Ok {| prefix_path := prefix |}.
Definition Prefix_empty : Prefix := {| prefix_path := [] |}.

(** ** Keys *)

Inductive ValidKeyError := NotADirectory | InvalidKey (key : str).

Record ValidKey := { vk_key : str; vk_name_offset : nat }.
#[export] Instance ValidKey_eq_dec : EqDecision ValidKey.
Proof. solve_decision. Defined.

Definition ValidKey_root : ValidKey := {| vk_key := []; vk_name_offset := 0 |}.

Definition ValidKey_kind (k : ValidKey) : InodeKind :=
  match list.last (vk_key k) with
  | None => Directory
  | Some c => if bool_decide (c = delimiter) then Directory else File
  end.

Definition ValidKey_new_child (k : ValidKey) (name : str) (kind : InodeKind) : outcome ValidKeyError ValidKey :=
  match ValidKey_kind k with
  | Directory =>
      Ok {| vk_name_offset := length (vk_key k);
            vk_key := vk_key k ++ name ++ (if bool_decide (kind = Directory) then [delimiter] else []) |}
  | File => Err NotADirectory
  end.

Definition ValidKey_full_key (k : ValidKey) (prefix : Prefix) : ValidKey :=
  {| vk_key := prefix_path prefix ++ vk_key k; vk_name_offset := vk_name_offset k + length (prefix_path prefix) |}.

Definition ValidKey_name {E} (k : ValidKey) : outcome E str :=
  let len := length (vk_key k) in
  if (len =? 0)%nat then Ok []
  else if ends_with_delimiter (vk_key k) then str_slice (vk_key k) (vk_name_offset k) (len - 1)
  else str_slice (vk_key k) (vk_name_offset k) len.

Definition ValidKey_valid_name {E} (k : ValidKey) : outcome E (option str) :=
  let! name := ValidKey_name k in
  Ok (if bool_decide (name = []) then None else Some name).

Definition ValidKey_components (k : ValidKey) : list str :=
  if bool_decide (vk_key k = []) then [] else split_terminator (vk_key k).

(** the loop over the components: the last one, or the first that is not a valid name *)
Fixpoint check_components (components : list str) (last_component : option str) : option (option str) :=
  match components with
  | [] => Some last_component
  | c :: rest => if valid_name_str c then check_components rest (Some c) else None
  end.

Definition ValidKey_try_from (full_key : str) : outcome ValidKeyError ValidKey :=
  match check_components (split_terminator full_key) None with
  | None => Err (InvalidKey full_key)
  | Some last_component =>
      let is_dir := ends_with_delimiter full_key in
      let name_len :=
        match last_component with
        | None => 0
        | Some name => if is_dir then length name + 1 else length name
        end in
      Ok {| vk_key := full_key; vk_name_offset := length full_key - name_len |}
  end.

(** ** The keys that the inode tree can hold: the root and the children of directories *)

Inductive key_in_tree : ValidKey → Prop :=
| in_tree_root : key_in_tree ValidKey_root
| in_tree_child k name kind k' :
    key_in_tree k → valid_name_str name = true → ValidKey_new_child k name kind = Ok k' → key_in_tree k'.

(** ** Paths as sequences of names *)

Definition kind_suffix (kind : InodeKind) : str := if bool_decide (kind = Directory) then [delimiter] else [].
Definition dir_path (names : list str) : str := mjoin (map (λ n, n ++ [delimiter]) names).
Definition child_key (names : list str) (name : str) (kind : InodeKind) : ValidKey :=
  {| vk_key := dir_path names ++ name ++ kind_suffix kind; vk_name_offset := length (dir_path names) |}.

Lemma dir_path_snoc names n : dir_path (names ++ [n]) = dir_path names ++ n ++ [delimiter].
Proof. unfold dir_path. by rewrite map_app, join_app; simpl; rewrite app_nil_r. Qed.
Lemma last_kind_suffix s kind : s ≠ [] → delimiter ∉ s →
  list.last (s ++ kind_suffix kind) = Some delimiter ↔ kind = Directory.
Proof.
  intros Hs Hd. destruct kind; unfold kind_suffix; simpl.
  - rewrite app_nil_r. split; [|done]. intros Hl. destruct Hd. by apply last_Some_elem_of.
  - by rewrite last_snoc.
Qed.

Lemma valid_name_spec n : valid_name_str n = true → n ≠ [] ∧ delimiter ∉ n.
Proof.
  unfold valid_name_str. rewrite !andb_true_iff, !negb_true_iff, !bool_decide_eq_false. tauto.
Qed.

Lemma split_name n : delimiter ∉ n → split n = [n].
Proof.
  induction n as [|c n IH]; [done|]. intros [Hc Hn]%not_elem_of_cons. simpl.
  rewrite bool_decide_eq_false_2 by done. by rewrite IH.
Qed.
Lemma split_name_delim n s : delimiter ∉ n → split (n ++ delimiter :: s) = n :: split s.
Proof.
  induction n as [|c n IH]; [done|]. intros [Hc Hn]%not_elem_of_cons. simpl.
  rewrite bool_decide_eq_false_2 by done. by rewrite IH.
Qed.
Lemma split_path names n :
  Forall (λ x, delimiter ∉ x) names → delimiter ∉ n → split (dir_path names ++ n) = names ++ [n].
Proof.
  intros Hf Hn. induction Hf as [|x names Hx Hf IH]; [by apply split_name|].
  unfold dir_path in *. simpl. rewrite <-!app_assoc. simpl. rewrite split_name_delim by done. by rewrite IH.
Qed.
Lemma split_join s :
  ∃ names n, s = dir_path names ++ n ∧ Forall (λ x, delimiter ∉ x) names ∧ delimiter ∉ n.
Proof.
  induction s as [|c s (names & n & -> & Hf & Hn)].
  { exists [], []. split_and!; [done|done|apply not_elem_of_nil]. }
  destruct (decide (c = delimiter)) as [->|Hc].
  { exists ([] :: names), n. split_and!; [done| |done]. constructor; [apply not_elem_of_nil|done]. }
  destruct names as [|x names].
  - exists [], (c :: n). split_and!; [done..|]. by apply not_elem_of_cons.
  - exists ((c :: x) :: names), n. inv Hf. split_and!; [done| |done]. constructor; [by apply not_elem_of_cons|done].
Qed.

(** The components of a path: a final empty piece stands for the terminal delimiter. *)
Lemma split_terminator_path names n :
  Forall (λ x, delimiter ∉ x) names → delimiter ∉ n →
  split_terminator (dir_path names ++ n) = if bool_decide (n = []) then names else names ++ [n].
Proof.
  intros Hf Hn. unfold split_terminator. rewrite split_path, last_snoc by done. case_bool_decide; subst; simpl.
  - rewrite length_app. simpl. replace (length names + 1 - 1) with (length names) by lia. apply take_app_length.
  - by destruct n.
Qed.

Lemma valid_names_no_delimiter names :
  Forall (λ n, valid_name_str n = true) names → Forall (λ x, delimiter ∉ x) names.
Proof. intros H. eapply Forall_impl; [|exact H]. intros x Hx. by apply valid_name_spec in Hx as [_ ?]. Qed.

Lemma child_key_kind names n kind : valid_name_str n = true → ValidKey_kind (child_key names n kind) = kind.
Proof.
  intros [Hne Hd]%valid_name_spec. unfold ValidKey_kind. simpl. rewrite last_app.
  pose proof (last_kind_suffix n kind Hne Hd) as Hl.
  destruct (list.last (n ++ kind_suffix kind)) as [c|] eqn:Hc.
  - case_bool_decide; subst; [symmetry; by apply Hl|]. destruct kind; [done|]. naive_solver.
  - apply last_None in Hc. by destruct n.
Qed.

Lemma child_key_name {E} names n kind :
  valid_name_str n = true → ValidKey_name (E:=E) (child_key names n kind) = Ok n.
Proof.
  intros [Hne Hd]%valid_name_spec. unfold ValidKey_name. simpl.
  assert (0 < length n)%nat by (destruct n; simpl; [done|lia]).
  rewrite (proj2 (Nat.eqb_neq _ _)) by (rewrite !length_app; lia).
  assert (ends_with_delimiter (dir_path names ++ n ++ kind_suffix kind) = bool_decide (kind = Directory)) as ->.
  { unfold ends_with_delimiter. apply bool_decide_ext. rewrite last_app, <-(last_kind_suffix n kind) by done.
    destruct (list.last (n ++ kind_suffix kind)) eqn:Hl; [done|]. apply last_None in Hl. by destruct n. }
  unfold str_slice. rewrite !length_app. destruct kind; simpl.
  - rewrite Nat.add_0_r, app_nil_r, (proj2 (Nat.leb_le _ _)), Nat.leb_refl, drop_app_length by lia. simpl.
    rewrite Nat.add_comm, Nat.add_sub. by rewrite take_ge.
  - rewrite !(proj2 (Nat.leb_le _ _)), drop_app_length by lia. simpl.
    replace (length (dir_path names) + (length n + 1) - 1 - length (dir_path names)) with (length n) by lia.
    by rewrite take_app_length.
Qed.

(** A key of the tree is the root or a sequence of valid names. *)
Lemma key_in_tree_child names n kind :
  Forall (λ n, valid_name_str n = true) names → valid_name_str n = true → key_in_tree (child_key names n kind).
Proof.
  intros Hf. revert n kind. induction names as [|x names IH] using rev_ind; intros n kind Hn.
  - by apply (in_tree_child ValidKey_root n kind); [constructor| |].
  - apply Forall_app in Hf as [Hf Hx]. inv Hx. eapply (in_tree_child (child_key names x Directory) n kind); [by apply IH|done|].
    unfold ValidKey_new_child. rewrite child_key_kind by done. simpl. unfold child_key.
    rewrite dir_path_snoc. unfold kind_suffix at 1 2. simpl. by rewrite <-!app_assoc.
Qed.
Lemma key_in_tree_inv k : key_in_tree k →
  k = ValidKey_root ∨
  ∃ names n kind, Forall (λ n, valid_name_str n = true) names ∧ valid_name_str n = true ∧ k = child_key names n kind.
Proof.
  induction 1 as [|k name kind k' _ IH Hn Hk']; [by left|right].
  unfold ValidKey_new_child in Hk'. destruct (ValidKey_kind k) eqn:Hk; [done|]. injection Hk' as <-.
  destruct IH as [->|(names & n & kind' & Hf & Hn' & ->)].
  - by exists [], name, kind.
  - rewrite child_key_kind in Hk by done. subst. exists (names ++ [n]), name, kind. split_and!; [|done|].
    + apply Forall_app. split; [done|]. by constructor.
    + unfold child_key. rewrite dir_path_snoc. simpl. by rewrite <-!app_assoc.
Qed.

Lemma child_key_components names n kind :
  Forall (λ n, valid_name_str n = true) names → valid_name_str n = true →
  ValidKey_components (child_key names n kind) = names ++ [n].
Proof.
  intros Hf Hn. pose proof (valid_names_no_delimiter _ Hf) as Hd. destruct (valid_name_spec n Hn) as [Hne Hdn].
  unfold ValidKey_components. rewrite bool_decide_eq_false_2 by (simpl; destruct (dir_path names), n; done).
  simpl. destruct kind; unfold kind_suffix; simpl.
  - rewrite app_nil_r, split_terminator_path by done. by rewrite bool_decide_eq_false_2.
  - rewrite <-dir_path_snoc, <-(app_nil_r (dir_path _)), split_terminator_path.
    + by rewrite bool_decide_eq_true_2.
    + apply Forall_app. by split; [|constructor].
    + apply not_elem_of_nil.
Qed.

Lemma child_key_inj names n kind names' n' kind' :
  Forall (λ n, valid_name_str n = true) names → valid_name_str n = true →
  Forall (λ n, valid_name_str n = true) names' → valid_name_str n' = true →
  vk_key (child_key names n kind) = vk_key (child_key names' n' kind') → names = names' ∧ n = n' ∧ kind = kind'.
Proof.
  intros Hf Hn Hf' Hn' Heq.
  assert (ValidKey_components (child_key names n kind) = ValidKey_components (child_key names' n' kind')) as Hc.
  { unfold ValidKey_components. by rewrite Heq. }
  rewrite !child_key_components in Hc by done. apply app_inj_tail in Hc as [-> ->]. split_and!; [done..|].
  rewrite <-(child_key_kind names' n' kind), <-(child_key_kind names' n' kind') by done.
  unfold ValidKey_kind. by rewrite Heq.
Qed.

Lemma check_components_spec cs l :
  check_components cs l =
  if forallb valid_name_str cs then Some (match list.last cs with Some x => Some x | None => l end) else None.
Proof.
  revert l. induction cs as [|c cs IH]; intros l; [done|]. cbn [check_components forallb].
  destruct (valid_name_str c); simpl andb; [|done].
  rewrite IH. destruct (forallb valid_name_str cs); [|done].
  rewrite last_cons. by destruct (list.last cs).
Qed.

Lemma tree_key_unique k k' : key_in_tree k → key_in_tree k' → vk_key k = vk_key k' → k = k'.
Proof.
  intros [->|(names & n & kind & Hf & Hn & ->)]%key_in_tree_inv [->|(names' & n' & kind' & Hf' & Hn' & ->)]%key_in_tree_inv Heq.
  - done.
  - exfalso. apply valid_name_spec in Hn' as [? _]. simpl in Heq. by destruct (dir_path names'), n'.
  - exfalso. apply valid_name_spec in Hn as [? _]. simpl in Heq. by destruct (dir_path names), n.
  - by apply child_key_inj in Heq as (-> & -> & ->).
Qed.

Lemma try_from_child names n kind :
  Forall (λ n, valid_name_str n = true) names → valid_name_str n = true →
  ValidKey_try_from (vk_key (child_key names n kind)) = Ok (child_key names n kind).
Proof.
  intros Hf Hn. pose proof (child_key_components names n kind Hf Hn) as Hc. unfold ValidKey_components in Hc.
  destruct (valid_name_spec n Hn) as [Hne Hd].
  rewrite bool_decide_eq_false_2 in Hc by (simpl; destruct (dir_path names), n; done).
  unfold ValidKey_try_from. rewrite Hc, check_components_spec, forallb_app, last_snoc. simpl. rewrite Hn.
  rewrite (proj2 (forallb_forall _ _) (proj1 (List.Forall_forall _ _) Hf)). simpl.
  unfold child_key, ends_with_delimiter. f_equal. f_equal. rewrite last_app.
  pose proof (last_kind_suffix n kind Hne Hd) as Hl.
  destruct (list.last (n ++ kind_suffix kind)) as [c|] eqn:Hlc; [|apply last_None in Hlc; by destruct n].
  rewrite !length_app. destruct kind; unfold kind_suffix; simpl.
  - rewrite bool_decide_eq_false_2 by naive_solver. lia.
  - rewrite bool_decide_eq_true_2 by naive_solver. lia.
Qed.

Lemma try_from_ok_in_tree s k : ValidKey_try_from s = Ok k → key_in_tree k ∧ vk_key k = s.
Proof.
  intros Hk. assert (vk_key k = s) as Hks by (unfold ValidKey_try_from in Hk; case_match; by simplify_eq).
  split; [|done]. assert (Forall (λ n, valid_name_str n = true) (split_terminator s)) as Hv.
  { unfold ValidKey_try_from in Hk. rewrite check_components_spec in Hk. destruct (forallb _ _) eqn:Hall; [|done].
    by apply List.Forall_forall, forallb_forall. }
  destruct (split_join s) as (names & n & -> & Hf & Hd). rewrite split_terminator_path in Hv by done.
  case_bool_decide as Hn; [subst n|].
  - destruct names as [|x names _] using rev_ind; [injection Hk as <-; constructor|].
    apply Forall_app in Hv as [Hv Hx]. inv Hx. rewrite app_nil_r, dir_path_snoc in Hk.
    change (ValidKey_try_from (vk_key (child_key names x Directory)) = Ok k) in Hk. rewrite try_from_child in Hk by done.
    injection Hk as <-. by apply key_in_tree_child.
  - apply Forall_app in Hv as [Hv Hx]. inv Hx. rewrite <-(app_nil_r n) in Hk.
    change (ValidKey_try_from (vk_key (child_key names n File)) = Ok k) in Hk. rewrite try_from_child in Hk by done.
    injection Hk as <-. by apply key_in_tree_child.
Qed.

Lemma tree_dir_path k : key_in_tree k → ValidKey_kind k = Directory →
  ∃ names, Forall (λ n, valid_name_str n = true) names ∧ vk_key k = dir_path names ∧ ValidKey_components k = names.
Proof.
  intros [->|(names & n & kind & Hf & Hn & ->)]%key_in_tree_inv Hk; [by exists []|].
  rewrite child_key_kind in Hk by done. subst kind. exists (names ++ [n]). split_and!.
  - apply Forall_app. by split; [|constructor].
  - by rewrite dir_path_snoc.
  - by apply child_key_components.
Qed.

(** What a child key says about itself. *)
Lemma new_child_spec {E} k name kind k' :
  key_in_tree k → valid_name_str name = true → ValidKey_new_child k name kind = Ok k' →
  key_in_tree k' ∧ ValidKey_name (E:=E) k' = Ok name ∧ ValidKey_kind k' = kind ∧ vk_key k' ≠ vk_key k.
Proof.
  intros Hk Hn Hc. pose proof (in_tree_child _ _ _ _ Hk Hn Hc) as Hk'. unfold ValidKey_new_child in Hc.
  destruct (ValidKey_kind k) eqn:Hdir; [done|]. destruct (tree_dir_path k Hk Hdir) as (names & _ & Hp & _).
  assert (k' = child_key names name kind) as -> by (injection Hc as <-; unfold child_key; by rewrite Hp).
  ands; [done|by apply child_key_name|by apply child_key_kind|]. rewrite Hp. simpl.
  intros Heq%(f_equal length). destruct (valid_name_spec name Hn) as [Hne _]. rewrite !length_app in Heq.
  destruct name; simpl in *; [done|lia].
Qed.

(** Dropping the prefix of a slice. *)
Lemma str_slice_app {E} p s from to : str_slice (E:=E) (p ++ s) (from + length p) (to + length p) = str_slice s from to.
Proof.
  unfold str_slice. rewrite length_app.
  replace (from + length p <=? to + length p) with (from <=? to) by (destruct (Nat.leb_spec from to), (Nat.leb_spec (from + length p) (to + length p)); lia || done).
  replace (to + length p <=? length p + length s) with (to <=? length s) by (destruct (Nat.leb_spec to (length s)), (Nat.leb_spec (to + length p) (length p + length s)); lia || done).
  case_match; [|done]. f_equal. replace (to + length p - (from + length p)) with (to - from) by lia.
  by rewrite (Nat.add_comm from), drop_app_add.
Qed.
Lemma full_key_name {E} names n kind prefix :
  valid_name_str n = true → ValidKey_name (E:=E) (ValidKey_full_key (child_key names n kind) prefix) = Ok n.
Proof.
  intros Hn. rewrite <-(child_key_name (E:=E) names n kind Hn). destruct (valid_name_spec n Hn) as [Hne _].
  assert (vk_key (child_key names n kind) ≠ []) as Hk by (simpl; destruct (dir_path names), n; done).
  generalize dependent (child_key names n kind). intros k Hk.
  assert (0 < length (vk_key k)) by (destruct (vk_key k); simpl; [done|lia]).
  unfold ValidKey_name. simpl. rewrite length_app. rewrite !(proj2 (Nat.eqb_neq _ _)) by lia.
  assert (ends_with_delimiter (prefix_path prefix ++ vk_key k) = ends_with_delimiter (vk_key k)) as ->.
  { unfold ends_with_delimiter. rewrite last_app. destruct (list.last (vk_key k)) eqn:Hl; [done|by apply last_None in Hl]. }
  replace (length (prefix_path prefix) + length (vk_key k) - 1) with (length (vk_key k) - 1 + length (prefix_path prefix)) by lia.
  rewrite (Nat.add_comm (length (prefix_path prefix)) (length (vk_key k))), !str_slice_app. done.
Qed.

(** Parsing accepts exactly the keys of the tree.  [ValidKey::try_from]
    succeeds on a string if and only if the string is the key of an inode that
    can be reached from the root by [new_child] with valid names, and then it
    returns that very key, name offset included; every other string, with an
    empty, dot or dot-dot component, a doubled or leading slash or a NUL byte, is an
    error that carries it. *)
Theorem try_from_accepts_tree_keys s :
  (∀ k, ValidKey_try_from s = Ok k ↔ key_in_tree k ∧ vk_key k = s) ∧
  ((∀ k, key_in_tree k → vk_key k ≠ s) → ValidKey_try_from s = Err (InvalidKey s)).
Proof.
  split.
  - intros k. split; [apply try_from_ok_in_tree|]. intros [Hk <-].
    apply key_in_tree_inv in Hk as [->|(names & n & kind & Hf & Hn & ->)]; [done|by apply try_from_child].
  - intros Hno. destruct (ValidKey_try_from s) as [k|e|] eqn:Hk.
    + apply try_from_ok_in_tree in Hk as [Hin Hs]. by destruct (Hno k Hin).
    + unfold ValidKey_try_from in Hk. by case_match; simplify_eq.
    + unfold ValidKey_try_from in Hk. by case_match.
Qed.

(** Children have the name and kind they were given, and keys of their own.
    For a directory key of the tree and a valid name, [new_child] succeeds; the
    child's [name], [kind] and [components] are what the arguments say, also when the
    bucket is mounted at a prefix; and a key determines its parent, name and
    kind, so no two different children anywhere in the tree share an S3 key. *)
Theorem new_child_round_trip {E} parent name kind prefix :
  key_in_tree parent → ValidKey_kind parent = Directory → valid_name_str name = true →
  ∃ child, ValidKey_new_child parent name kind = Ok child ∧ key_in_tree child ∧
    ValidKey_name (E:=E) child = Ok name ∧ ValidKey_kind child = kind ∧
    ValidKey_components child = ValidKey_components parent ++ [name] ∧
    ValidKey_name (E:=E) (ValidKey_full_key child prefix) = Ok name ∧
    (∀ parent' name' kind' child', key_in_tree parent' → valid_name_str name' = true →
       ValidKey_new_child parent' name' kind' = Ok child' → vk_key child' = vk_key child →
       parent' = parent ∧ name' = name ∧ kind' = kind).
Proof.
  intros Hp Hdir Hn. assert (∃ names, Forall (λ n, valid_name_str n = true) names ∧ vk_key parent = dir_path names ∧
    ValidKey_components parent = names) as (names & Hf & Hpk & Hpc) by by apply tree_dir_path.
  exists (child_key names name kind). ands.
  - unfold ValidKey_new_child. rewrite Hdir. unfold child_key. by rewrite Hpk.
  - by apply key_in_tree_child.
  - by apply child_key_name.
  - by apply child_key_kind.
  - rewrite Hpc. by apply child_key_components.
  - by apply full_key_name.
  - intros parent' name' kind' child' Hp' Hn' Hc' Heq. unfold ValidKey_new_child in Hc'.
    destruct (ValidKey_kind parent') eqn:Hdir'; [done|]. injection Hc' as <-.
    destruct (tree_dir_path parent' Hp' Hdir') as (names' & Hf' & Hpk' & Hpc').
    simpl in Heq. rewrite Hpk' in Heq. apply (child_key_inj names' name' kind' names name kind) in Heq as (-> & -> & ->); [|done..].
    split; [|done]. apply tree_key_unique; [done..|congruence].
Qed.

(** A directory "b/" under "a/", at prefix "p/". *)
Lemma new_child_round_trip_witness :
  ∃ a b, ValidKey_new_child ValidKey_root (str_of "a") Directory = Ok a ∧ ValidKey_new_child a (str_of "b") Directory = Ok b ∧
    vk_key b = str_of "a/b/" ∧ ValidKey_name (E:=False) b = Ok (str_of "b") ∧
    ValidKey_name (E:=False) (ValidKey_full_key b {| prefix_path := str_of "p/" |}) = Ok (str_of "b").
Proof.
  exists {| vk_key := str_of "a/"; vk_name_offset := 0 |}.
  assert (key_in_tree {| vk_key := str_of "a/"; vk_name_offset := 0 |}) as Ha.
  { by eapply (in_tree_child ValidKey_root (str_of "a") Directory); [constructor|..]; vm_compute. }
  destruct (new_child_round_trip (E:=False) _ (str_of "b") Directory {| prefix_path := str_of "p/" |} Ha)
    as (b & Hb & _ & Hname & _ & _ & Hfull & _); [by vm_compute..|].
  exists b. split; [by vm_compute|]. split; [done|]. split; [|done]. vm_compute in Hb. by injection Hb as <-.
Defined.
