(* ===== verification/S3Path.v ===== *)
(** * Buckets, S3 paths and URIs ([s3/path.rs], [s3.rs])

    The bucket and prefix that a file system is mounted on, as the command line and the manifests give them, and what
    the kinds of S3 can do. *)

From S2P Require Import Prelude Path.
From Stdlib Require Import Strings.Ascii.

Inductive S3PathError :=
| ExpectedS3URI
| InvalidBucketName
| InvalidBucketNameS3URI
| InvalidBucketLength
| S3PrefixError (e : PrefixError).

Record Bucket := { bucket_name : str }.
Record S3Path := { s3_bucket : Bucket; s3_prefix : Prefix }.
#[export] Instance Prefix_eq_dec : EqDecision Prefix.
Proof. solve_decision. Defined.
#[export] Instance Bucket_eq_dec : EqDecision Bucket.
Proof. solve_decision. Defined.
#[export] Instance S3Path_eq_dec : EqDecision S3Path.
Proof. solve_decision. Defined.

(** [str::strip_prefix] and [str::starts_with] *)
Fixpoint strip_prefix (pre s : str) : option str :=
  match pre, s with
  | [], s => Some s
  | c :: pre, d :: s => if bool_decide (c = d) then strip_prefix pre s else None
  | _ :: _, [] => None
  end.
Definition starts_with (pre s : str) : bool := bool_decide (is_Some (strip_prefix pre s)).

(** [str::split_once('/')] *)
Fixpoint split_once (s : str) : option (str * str) :=
  match s with
  | [] => None
  | c :: s =>
      if bool_decide (c = delimiter) then Some ([], s)
      else match split_once s with Some (before, after) => Some (c :: before, after) | None => None end
  end.

Definition validate_bucket_length (name : str) : outcome S3PathError unit :=
  if (length name <? 3)%nat || (255 <? length name)%nat then Err InvalidBucketLength else Ok tt.

(** the class [[0-9a-zA-Z\-\._]] *)
Definition bucket_char (c : ascii) : bool :=
  let n := nat_of_ascii c in
  ((48 <=? n) && (n <=? 57) || (97 <=? n) && (n <=? 122) || (65 <=? n) && (n <=? 90) || (n =? 45) || (n =? 46) || (n =? 95))%nat.
Definition matches_bucket_regex (name : str) : bool := negb (bool_decide (name = [])) && forallb bucket_char name.

Definition Bucket_is_arn (b : Bucket) : bool := starts_with (str_of "arn:") (bucket_name b).

Definition Bucket_new (name : str) : outcome S3PathError Bucket :=
  let! _ := validate_bucket_length name in
  if matches_bucket_regex name || starts_with (str_of "arn:") name then Ok {| bucket_name := name |} else Err InvalidBucketName.

Definition parse_s3_uri (s3_uri : str) : outcome S3PathError S3Path :=
  match strip_prefix (str_of "s3://") s3_uri with
  | None => Err ExpectedS3URI
  | Some bucket_prefix =>
      let '(bucket, prefix) := match split_once bucket_prefix with Some parts => parts | None => (bucket_prefix, []) end in
      let! bucket := Bucket_new bucket in
      if Bucket_is_arn bucket then Err InvalidBucketNameS3URI
      else
        let! prefix := outcome_map_err S3PrefixError (Prefix_new prefix) in
        Ok {| s3_bucket := bucket; s3_prefix := prefix |}
  end.

Definition bucket_description (p : S3Path) : str :=
  if bool_decide (prefix_path (s3_prefix p) = []) then str_of "bucket " ++ bucket_name (s3_bucket p)
  else str_of "prefix " ++ prefix_path (s3_prefix p) ++ str_of " of bucket " ++ bucket_name (s3_bucket p).

(** ** Personalities *)

Inductive S3Personality := Standard | ExpressOneZone | Outposts.
Definition is_list_ordered (p : S3Personality) : bool := match p with Standard => true | ExpressOneZone => false | Outposts => true end.
Definition supports_additional_checksums (p : S3Personality) : bool := match p with Standard => true | ExpressOneZone => true | Outposts => false end.
Definition supports_rename_object (p : S3Personality) : bool := match p with Standard => false | ExpressOneZone => true | Outposts => false end.

(** ** Parsing is the inverse of printing *)

(** A bucket and a prefix that the constructors accept. *)
Definition s3_path_wf (p : S3Path) : Prop :=
  Bucket_new (bucket_name (s3_bucket p)) = Ok (s3_bucket p) ∧ Prefix_new (prefix_path (s3_prefix p)) = Ok (s3_prefix p).

Definition s3_uri (p : S3Path) : str := str_of "s3://" ++ bucket_name (s3_bucket p) ++ (delimiter :: prefix_path (s3_prefix p)).

Lemma strip_prefix_spec pre s rest : strip_prefix pre s = Some rest ↔ s = pre ++ rest.
Proof.
  revert s. induction pre as [|c pre IH]; intros s; simpl; [naive_solver|]. destruct s as [|d s]; [done|].
  case_bool_decide as Hc; [|naive_solver]. subst. rewrite IH. naive_solver.
Qed.
Lemma split_once_spec s before after : split_once s = Some (before, after) ↔ (delimiter ∉ before) ∧ s = before ++ (delimiter :: after).
Proof.
  revert before. induction s as [|c s IH]; intros before; simpl.
  { split; [done|]. intros [_ Hs]. by destruct before. }
  case_bool_decide as Hc; [subst|].
  - split; [intros [= <- <-]; split; [apply not_elem_of_nil|done]|]. intros [Hn Hs]. destruct before as [|d before]; simplify_eq/=; [done|].
    destruct Hn. left.
  - destruct (split_once s) as [[b a]|] eqn:Hs.
    + split.
      * intros [= <- <-]. destruct (proj1 (IH b) eq_refl) as [Hn ->]. split; [by apply not_elem_of_cons|done].
      * intros [Hn Heq]. destruct before as [|d before]; simplify_eq/=.
        apply not_elem_of_cons in Hn as [_ Hn]. by injection (proj2 (IH before) (conj Hn eq_refl)) as -> ->.
    + split; [done|]. intros [Hn Heq]. destruct before as [|d before]; simplify_eq/=.
      apply not_elem_of_cons in Hn as [_ Hn]. by pose proof (proj2 (IH before) (conj Hn eq_refl)).
Qed.
Lemma split_once_none s : split_once s = None ↔ delimiter ∉ s.
Proof.
  induction s as [|c s IH]; simpl; [split; [intros _; apply not_elem_of_nil|done]|]. rewrite not_elem_of_cons.
  case_bool_decide as Hc; [naive_solver|]. destruct (split_once s) as [[]|]; naive_solver.
Qed.

(** A bucket name that is not an ARN has no slash in it. *)
Lemma bucket_no_delimiter name b : Bucket_new name = Ok b → Bucket_is_arn b = false → b = {| bucket_name := name |} ∧ delimiter ∉ name.
Proof.
  unfold Bucket_new. destruct (validate_bucket_length name); [|done..]. cbn [outcome_bind]. unfold matches_bucket_regex.
  destruct (starts_with (str_of "arn:") name) eqn:Harn; [rewrite orb_true_r; intros [= <-]; unfold Bucket_is_arn; cbn [bucket_name]; congruence|].
  rewrite orb_false_r. destruct (negb _ && forallb bucket_char name) eqn:Hm; [|done]. intros [= <-] _. split; [done|].
  apply andb_true_iff in Hm as [_ Hall]. intros Hin. rewrite forallb_forall in Hall. by apply list_elem_of_In, Hall in Hin.
Qed.

(** S3 URIs are parsed exactly.  [parse_s3_uri] accepts a string if and only if it is "s3://", a bucket name of 3 to
    255 letters, digits, dots, dashes and underscores, and nothing or a slash and a prefix that is empty or ends in a
    slash; the result is that bucket and that prefix, and printing it in the long form and parsing again gives it
    back. *)
Theorem parse_s3_uri_exact s p :
  parse_s3_uri s = Ok p ↔
  s3_path_wf p ∧ Bucket_is_arn (s3_bucket p) = false ∧
  (s = s3_uri p ∨ prefix_path (s3_prefix p) = [] ∧ s = str_of "s3://" ++ bucket_name (s3_bucket p)).
Proof.
  unfold parse_s3_uri. split.
  - destruct (strip_prefix _ s) as [rest|] eqn:Hs; [|done]. apply strip_prefix_spec in Hs as ->.
    destruct (match split_once rest with Some parts => parts | None => _ end) as [bucket prefix] eqn:Hparts.
    destruct (Bucket_new bucket) as [b| |] eqn:Hb; simpl; [|done..]. destruct (Bucket_is_arn b) eqn:Harn; [done|].
    destruct (bucket_no_delimiter _ _ Hb Harn) as [-> Hnd].
    destruct (Prefix_new prefix) as [pre| |] eqn:Hp; simpl; [|done..]. intros [= <-].
    assert (pre = {| prefix_path := prefix |}) as -> by (unfold Prefix_new in Hp; case_match; by simplify_eq).
    split; [done|]. split; [done|]. unfold s3_uri. simpl. destruct (split_once rest) as [[b0 a0]|] eqn:Hso.
    + injection Hparts as -> ->. apply split_once_spec in Hso as [_ ->]. by left.
    + injection Hparts as -> ->. right. done.
  - intros ([Hb Hp] & Harn & Hs). destruct p as [[name] [pre]]. cbn [s3_bucket s3_prefix bucket_name prefix_path] in *.
    destruct (bucket_no_delimiter _ _ Hb Harn) as [_ Hnd].
    assert (∀ rest, s = str_of "s3://" ++ rest → strip_prefix (str_of "s3://") s = Some rest) as Hstrip by (intros rest; apply strip_prefix_spec).
    destruct Hs as [Hs|[-> Hs]]; rewrite (Hstrip _ Hs).
    + rewrite (proj2 (split_once_spec _ name pre)) by done. rewrite Hb. cbn [outcome_bind]. by rewrite Harn, Hp.
    + rewrite (proj2 (split_once_none name)) by done. rewrite Hb. cbn [outcome_bind]. by rewrite Harn.
Qed.
