(* ===== verification/Inode.v ===== *)
(** * Inodes and their state ([src/mountpoint-s3-fs/src/superblock/inode.rs],
      [src/mountpoint-s3-fs/src/metablock/stat.rs], the errors of
      [src/mountpoint-s3-fs/src/metablock/error.rs] and [WriteMode] of
      [src/mountpoint-s3-fs/src/metablock.rs])

    The source's [Inode] is a counted pointer to immutable fields and a lock around
    an [InodeState].  Here an [Inode] is a value with the immutable fields and the
    location [in_loc] of its state; the superblock's heap maps locations to
    states, so two inodes alias exactly when their locations are equal. *)

From S2P Require Import Prelude Checksums NegativeCache Path.

Local Open Scope Z_scope.

Definition ROOT_INODE_NO : Z := 1.

(** ** [InodeStat]; times are nanoseconds *)

Record InodeStat := {
  stat_expiry : Expiry;
  stat_size : Z;
  stat_mtime : Z;
  stat_ctime : Z;
  stat_atime : Z;
  stat_etag : option string;
  stat_is_readable : bool;
}.

Definition InodeStat_is_valid (stat : InodeStat) (now : Z) : bool := negb (Expiry_is_expired (stat_expiry stat) now).
Definition InodeStat_update_validity (stat : InodeStat) (now validity : Z) : InodeStat :=
  {| stat_expiry := Expiry_from_now now validity; stat_size := stat_size stat; stat_mtime := stat_mtime stat;
     stat_ctime := stat_ctime stat; stat_atime := stat_atime stat; stat_etag := stat_etag stat;
     stat_is_readable := stat_is_readable stat |}.
Definition stat_with_size (stat : InodeStat) (size : Z) : InodeStat :=
  {| stat_expiry := stat_expiry stat; stat_size := size; stat_mtime := stat_mtime stat;
     stat_ctime := stat_ctime stat; stat_atime := stat_atime stat; stat_etag := stat_etag stat;
     stat_is_readable := stat_is_readable stat |}.
Definition stat_with_etag (stat : InodeStat) (etag : option string) : InodeStat :=
  {| stat_expiry := stat_expiry stat; stat_size := stat_size stat; stat_mtime := stat_mtime stat;
     stat_ctime := stat_ctime stat; stat_atime := stat_atime stat; stat_etag := etag;
     stat_is_readable := stat_is_readable stat |}.
Definition stat_with_times (stat : InodeStat) (atime mtime : option Z) : InodeStat :=
  {| stat_expiry := stat_expiry stat; stat_size := stat_size stat; stat_mtime := default (stat_mtime stat) mtime;
     stat_ctime := stat_ctime stat; stat_atime := default (stat_atime stat) atime; stat_etag := stat_etag stat;
     stat_is_readable := stat_is_readable stat |}.

(** [mountpoint_s3_client::types::RestoreStatus] *)
Inductive RestoreStatus := RestoreInProgress | Restored (expiry : Z).

Definition InodeStat_is_readable (storage_class : option string) (restore_status : option RestoreStatus) (now : Z) : bool :=
  if bool_decide (storage_class = Some "GLACIER" ∨ storage_class = Some "DEEP_ARCHIVE") then
    match restore_status with Some (Restored expiry) => now <? expiry | _ => false end
  else true.

Definition InodeStat_for_file (size datetime : Z) (etag storage_class : option string)
    (restore_status : option RestoreStatus) (now validity : Z) : InodeStat :=
  {| stat_expiry := Expiry_from_now now validity; stat_size := size; stat_atime := datetime; stat_ctime := datetime;
     stat_mtime := datetime; stat_etag := etag; stat_is_readable := InodeStat_is_readable storage_class restore_status now |}.

Definition InodeStat_for_directory (datetime now validity : Z) : InodeStat :=
  {| stat_expiry := Expiry_from_now now validity; stat_size := 0; stat_atime := datetime; stat_ctime := datetime;
     stat_mtime := datetime; stat_etag := None; stat_is_readable := true |}.

(** 200 years *)
Definition NEVER_EXPIRE_TTL : Z := 200 * 365 * 24 * 60 * 60 * 1000000000.

(** ** Inodes *)

Inductive WriteStatus := LocalUnopened | LocalOpenForWriting | Remote | PendingRename.
#[export] Instance WriteStatus_eq_dec : EqDecision WriteStatus.
Proof. solve_decision. Defined.

Abbreviation Loc := positive (only parsing).
(** a [PendingUploadHook], shared by reference *)
Abbreviation HookId := nat (only parsing).

Record Inode := {
  in_loc : Loc;
  in_ino : Z;
  in_parent : Z;
  in_valid_key : ValidKey;
  in_checksum : Z;
}.
#[export] Instance Inode_eq_dec : EqDecision Inode.
Proof. solve_decision. Defined.

Inductive InodeKindData :=
| FileData
| DirectoryData (children : gmap str Inode) (writing_children : gset Z) (deleted : bool).

Record InodeState := {
  st_stat : InodeStat;
  st_write_status : WriteStatus;
  st_kind_data : InodeKindData;
  st_pending_upload_hook : option HookId;
}.

Definition InodeKindData_default_for (kind : InodeKind) : InodeKindData :=
  match kind with File => FileData | Directory => DirectoryData ∅ ∅ false end.

Definition InodeState_new (stat : InodeStat) (kind : InodeKind) (write_status : WriteStatus) : InodeState :=
  {| st_stat := stat; st_kind_data := InodeKindData_default_for kind; st_write_status := write_status;
     st_pending_upload_hook := None |}.

Definition st_with_stat (st : InodeState) (stat : InodeStat) : InodeState :=
  {| st_stat := stat; st_write_status := st_write_status st; st_kind_data := st_kind_data st;
     st_pending_upload_hook := st_pending_upload_hook st |}.
Definition st_with_status (st : InodeState) (status : WriteStatus) : InodeState :=
  {| st_stat := st_stat st; st_write_status := status; st_kind_data := st_kind_data st;
     st_pending_upload_hook := st_pending_upload_hook st |}.
Definition st_with_kind_data (st : InodeState) (data : InodeKindData) : InodeState :=
  {| st_stat := st_stat st; st_write_status := st_write_status st; st_kind_data := data;
     st_pending_upload_hook := st_pending_upload_hook st |}.
Definition st_with_hook (st : InodeState) (hook : option HookId) : InodeState :=
  {| st_stat := st_stat st; st_write_status := st_write_status st; st_kind_data := st_kind_data st;
     st_pending_upload_hook := hook |}.
Definition is_deleted (st : InodeState) : bool :=
  match st_kind_data st with DirectoryData _ _ deleted => deleted | FileData => false end.

(** ** Errors *)

Record InodeErrorInfo := { ei_ino : Z; ei_key : str }.

Inductive InodeError :=
| ClientError (context : string) (key : str)
| FileDoesNotExist (name : str) (parent : InodeErrorInfo)
| InodeDoesNotExist (ino : Z)
| InvalidFileNameError (name : str)
| NotADirectoryError (inode : InodeErrorInfo)
| IsDirectory (inode : InodeErrorInfo)
| FileAlreadyExists (inode : InodeErrorInfo)
| InodeNotWritable (inode : InodeErrorInfo)
| InodeInvalidWriteStatus (inode : InodeErrorInfo)
| InodeAlreadyWriting (inode : InodeErrorInfo)
| InodeNotReadableWhileWriting (inode : InodeErrorInfo)
| InodeNotWritableWhileReading (inode : InodeErrorInfo)
| CannotRemoveRemoteDirectory (inode : InodeErrorInfo)
| DirectoryNotEmpty (inode : InodeErrorInfo)
| UnlinkNotPermittedWhileWriting (inode : InodeErrorInfo)
| CannotRenameDirectory (inode : InodeErrorInfo)
| RenameNotPermittedWhileWriting (inode : InodeErrorInfo)
| RenameDestinationExists (dest_key : str) (src_inode : InodeErrorInfo)
| RenameNotSupported
| NameTooLong (key : str)
| CorruptedMetadata (inode : InodeErrorInfo)
| SetAttrNotPermittedOnRemoteInode (inode : InodeErrorInfo)
| StaleInode (remote_key : str) (old_inode new_inode : InodeErrorInfo)
| FlexibleRetrievalObjectNotAccessible (inode : InodeErrorInfo)
| OutOfOrderReadDir (expected actual fh : Z)
| NoSuchDirHandle (fh : Z).

Definition Inode_err (i : Inode) : InodeErrorInfo := {| ei_ino := in_ino i; ei_key := vk_key (in_valid_key i) |}.
Definition Inode_kind (i : Inode) : InodeKind := ValidKey_kind (in_valid_key i).
Definition Inode_name {E} (i : Inode) : outcome E str := ValidKey_name (in_valid_key i).

Section inode.
Context `{crc : Crc32c}.

(** the bytes that the hasher sees: the inode number, big-endian, and the full key *)
Definition byte_of_Z (z : Z) : Byte.byte := default Byte.x00 (Byte.of_N (Z.to_N (z `mod` 256))).
Definition to_be_bytes (x : Z) : bytes := map (λ i, byte_of_Z (Z.shiftr x (8 * i))) [7; 6; 5; 4; 3; 2; 1; 0].
Definition compute_checksum (ino : Z) (prefix : Prefix) (key : str) : Z :=
  crc32c_checksum (to_be_bytes ino ++ map Strings.Ascii.byte_of_ascii (prefix_path prefix) ++ map Strings.Ascii.byte_of_ascii key).

Definition Inode_new (loc : Loc) (ino parent : Z) (key : ValidKey) (prefix : Prefix) : Inode :=
  {| in_loc := loc; in_ino := ino; in_parent := parent; in_valid_key := key;
     in_checksum := compute_checksum ino prefix (vk_key key) |}.

Definition Inode_new_root (loc : Loc) (prefix : Prefix) (mount_time now : Z) : Inode * InodeState :=
  (Inode_new loc ROOT_INODE_NO ROOT_INODE_NO ValidKey_root prefix,
   {| st_stat := InodeStat_for_directory mount_time now NEVER_EXPIRE_TTL; st_write_status := Remote;
      st_kind_data := InodeKindData_default_for Directory; st_pending_upload_hook := None |}).

Definition verify_inode (i : Inode) (expected_ino : Z) (prefix : Prefix) : outcome InodeError unit :=
  let computed := compute_checksum (in_ino i) prefix (vk_key (in_valid_key i)) in
  if (computed =? in_checksum i) && (in_ino i =? expected_ino) then Ok tt else Err (CorruptedMetadata (Inode_err i)).

Definition verify_child (i : Inode) (expected_parent : Z) (expected_name : str) (prefix : Prefix) : outcome InodeError unit :=
  let computed := compute_checksum (in_ino i) prefix (vk_key (in_valid_key i)) in
  if (computed =? in_checksum i) && (in_parent i =? expected_parent) then
    let! name := Inode_name i in
    if bool_decide (name = expected_name) then Ok tt else Err (CorruptedMetadata (Inode_err i))
  else Err (CorruptedMetadata (Inode_err i)).

(** the state of the clone of [i] under another key; the new inode is [Inode_new] with the same number *)
Definition try_clone_with_new_key (i : Inode) (st : InodeState) (now new_validity : Z) : outcome InodeError InodeState :=
  match Inode_kind i with
  | Directory => Err (IsDirectory (Inode_err i))
  | File =>
      if is_deleted st then Err (InodeDoesNotExist (in_ino i))
      else Ok {| st_stat := InodeStat_for_file (stat_size (st_stat st)) (stat_atime (st_stat st)) (stat_etag (st_stat st))
                              None None now new_validity;
                 st_write_status := Remote; st_kind_data := InodeKindData_default_for File; st_pending_upload_hook := None |}
  end.

End inode.

(** ** [WriteMode] *)
Record WriteMode := { wm_allow_overwrite : bool; wm_incremental_upload : bool }.
Definition WriteMode_is_inode_writable (mode : WriteMode) (is_truncate : bool) : bool :=
  wm_incremental_upload mode || (wm_allow_overwrite mode && is_truncate).

Inductive ReadWriteMode := ModeRead | ModeWrite.
