(* ===== verification/Superblock.v ===== *)
(** * The superblock ([src/mountpoint-s3-fs/src/superblock.rs])

    The superblock keeps the inodes known to the kernel, the open handles and
    the negative cache, and keeps them in step with the bucket.  Its handlers are
    [async] functions that run concurrently: they take locks for short sections
    and call S3 in between.  A handler is a [prog]: a sequence of atomic sections
    (what is done while holding a set of locks) and calls to the environment
    (S3 requests, waiting for an upload), whose answers it is given.  [run]
    executes one handler alone; [SuperblockInv] interleaves any number of them.

    The clock is part of the state.  Inode numbers, lookup counts and locations
    are unbounded.  Directory listing is in the file [Readdir]. *)

From S2P Require Import Prelude Checksums NegativeCache Path HandlesMap Inode.

Local Open Scope Z_scope.

(** ** State *)

Record CacheConfig := {
  cc_serve_lookup_from_cache : bool;
  cc_file_ttl : Z;
  cc_dir_ttl : Z;
  cc_use_negative_cache : bool;
  cc_negative_cache_ttl : Z;
  cc_negative_cache_size : nat;
}.

Record Superblock := {
  sb_heap : gmap Loc (Inode * InodeState);
  sb_inodes : gmap Z (Inode * Z);
  sb_open_handles : InodeHandleMap;
  sb_negative_cache : NegativeCache;
  sb_rename_supported : option bool;
  sb_next_ino : Z;
  sb_now : Z;
}.

Definition sb_with_heap s heap : Superblock :=
  {| sb_heap := heap; sb_inodes := sb_inodes s; sb_open_handles := sb_open_handles s;
     sb_negative_cache := sb_negative_cache s; sb_rename_supported := sb_rename_supported s;
     sb_next_ino := sb_next_ino s; sb_now := sb_now s |}.
Definition sb_with_inodes s inodes : Superblock :=
  {| sb_heap := sb_heap s; sb_inodes := inodes; sb_open_handles := sb_open_handles s;
     sb_negative_cache := sb_negative_cache s; sb_rename_supported := sb_rename_supported s;
     sb_next_ino := sb_next_ino s; sb_now := sb_now s |}.
Definition sb_with_handles s handles : Superblock :=
  {| sb_heap := sb_heap s; sb_inodes := sb_inodes s; sb_open_handles := handles;
     sb_negative_cache := sb_negative_cache s; sb_rename_supported := sb_rename_supported s;
     sb_next_ino := sb_next_ino s; sb_now := sb_now s |}.
Definition sb_with_negative_cache s nc : Superblock :=
  {| sb_heap := sb_heap s; sb_inodes := sb_inodes s; sb_open_handles := sb_open_handles s;
     sb_negative_cache := nc; sb_rename_supported := sb_rename_supported s;
     sb_next_ino := sb_next_ino s; sb_now := sb_now s |}.
Definition sb_with_rename_supported s r : Superblock :=
  {| sb_heap := sb_heap s; sb_inodes := sb_inodes s; sb_open_handles := sb_open_handles s;
     sb_negative_cache := sb_negative_cache s; sb_rename_supported := r;
     sb_next_ino := sb_next_ino s; sb_now := sb_now s |}.
Definition sb_with_next_ino s ino : Superblock :=
  {| sb_heap := sb_heap s; sb_inodes := sb_inodes s; sb_open_handles := sb_open_handles s;
     sb_negative_cache := sb_negative_cache s; sb_rename_supported := sb_rename_supported s;
     sb_next_ino := ino; sb_now := sb_now s |}.
Definition sb_with_now s now : Superblock :=
  {| sb_heap := sb_heap s; sb_inodes := sb_inodes s; sb_open_handles := sb_open_handles s;
     sb_negative_cache := sb_negative_cache s; sb_rename_supported := sb_rename_supported s;
     sb_next_ino := sb_next_ino s; sb_now := now |}.

Implicit Types s : Superblock.

(** ** Calls to the environment: the object client and pending uploads *)

Record HeadObjectResult := {
  ho_size : Z;
  ho_last_modified : Z;
  ho_restore_status : option RestoreStatus;
  ho_etag : string;
  ho_storage_class : option string;
}.
Inductive head_response := HeadOk (r : HeadObjectResult) | HeadNotFound | HeadError.

(** [ObjectInfo] and [ListObjectsResult]: one page of a listing *)
Record ObjectInfo := {
  oi_key : str;
  oi_size : Z;
  oi_last_modified : Z;
  oi_storage_class : option string;
  oi_restore_status : option RestoreStatus;
  oi_etag : string;
}.
Record ListObjectsResult := {
  lo_common_prefixes : list str;
  lo_objects : list ObjectInfo;
  lo_next_continuation_token : option string;
}.
Inductive rename_response :=
| RenameOk | RenamePreconditionFailed | RenameKeyNotFound | RenameKeyTooLong | RenameNotImplemented | RenameOtherError.

(** [InodeInformation] with the key of its [S3Location] *)
Record Lookup := { lk_ino : Z; lk_stat : InodeStat; lk_kind : InodeKind; lk_key : ValidKey }.
Definition Lookup_new (inode : Inode) (stat : InodeStat) : Lookup :=
  {| lk_ino := in_ino inode; lk_stat := stat; lk_kind := Inode_kind inode; lk_key := in_valid_key inode |}.

(** [HeadAndList] issues both requests of a remote lookup; its answer also says whether the listing arrived first. *)
Inductive call :=
| HeadAndList (object_key directory_prefix : str)
| ListObjects (continuation_token : option string) (max_keys : Z) (list_prefix : str)
| DeleteObject (key : str)
| RenameObject (src_key dest_key : str) (if_none_match : bool)
| WaitForCompletion (hook : nat).
Definition response (c : call) : Type :=
  match c with
  | HeadAndList _ _ => bool * head_response * option ListObjectsResult
  | ListObjects _ _ _ => option ListObjectsResult
  | DeleteObject _ => bool
  | RenameObject _ _ _ => rename_response
  | WaitForCompletion _ => InodeError + option Lookup
  end.

(** ** Programs

    [Crash] is a panic.  [Pause] is where the model stops following a loop whose
    fuel has run out: the handler has not returned. *)

Inductive prog (A : Type) : Type :=
| Ret (a : A)
| Throw (e : InodeError)
| Crash
| Pause
| Atomic (B : Type) (act : Superblock → Superblock * outcome InodeError B) (k : InodeError + B → prog A)
| Call (c : call) (k : response c → prog A).
Arguments Ret {A} a.
Arguments Throw {A} e.
Arguments Crash {A}.
Arguments Pause {A}.
Arguments Atomic {A B} act k.
Arguments Call {A} c k.

Definition lift {A} (o : outcome InodeError A) : prog A :=
  match o with Ok a => Ret a | Err e => Throw e | Panic => Crash end.
Definition atomic {A} (act : Superblock → Superblock * outcome InodeError A) : prog A :=
  Atomic act (λ r, match r with inl e => Throw e | inr a => Ret a end).
Definition request (c : call) : prog (response c) := Call c Ret.

Fixpoint prog_bind_def {A B} (f : A → prog B) (p : prog A) : prog B :=
  match p with
  | Ret a => f a
  | Throw e => Throw e
  | Crash => Crash
  | Pause => Pause
  | Atomic act k => Atomic act (λ r, prog_bind_def f (k r))
  | Call c k => Call c (λ r, prog_bind_def f (k r))
  end.
#[export] Instance prog_ret : MRet prog := @Ret.
#[export] Instance prog_bind : MBind prog := @prog_bind_def.

(** [match p.await { Ok(..) => .., Err(..) => .. }] *)
Fixpoint attempt {A} (p : prog A) : prog (InodeError + A) :=
  match p with
  | Ret a => Ret (inr a)
  | Throw e => Ret (inl e)
  | Crash => Crash
  | Pause => Pause
  | Atomic act k => Atomic act (λ r, attempt (k r))
  | Call c k => Call c (λ r, attempt (k r))
  end.
(** a guard that is dropped armed on every early return, and confirmed before the final [Ok] *)
Fixpoint on_error {A} (cleanup : prog unit) (p : prog A) : prog A :=
  match p with
  | Ret a => Ret a
  | Throw e => prog_bind_def (λ _, Throw e) cleanup
  | Crash => Crash
  | Pause => Pause
  | Atomic act k => Atomic act (λ r, on_error cleanup (k r))
  | Call c k => Call c (λ r, on_error cleanup (k r))
  end.

(** A handler that runs alone, with a given answer to each call. *)
Fixpoint run {A} (env : ∀ c, response c) (p : prog A) (s : Superblock) : Superblock * outcome InodeError A :=
  match p with
  | Ret a => (s, Ok a)
  | Throw e => (s, Err e)
  | Crash | Pause => (s, Panic)
  | Atomic act k =>
      match act s with
      | (s', Ok b) => run env (k (inr b)) s'
      | (s', Err e) => run env (k (inl e)) s'
      | (s', Panic) => (s', Panic)
      end
  | Call c k => run env (k (env c)) s
  end.

(** ** Locked access to the state of an inode *)

(** [get_inode_state], [get_mut_inode_state]: fail on a deleted directory *)
Definition get_inode_state s (i : Inode) : outcome InodeError InodeState :=
  match sb_heap s !! in_loc i with
  | Some (_, st) => if is_deleted st then Err (InodeDoesNotExist (in_ino i)) else Ok st
  | None => Panic
  end.
(** [get_mut_inode_state_no_check] *)
Definition get_inode_state_no_check s (i : Inode) : outcome InodeError InodeState :=
  match sb_heap s !! in_loc i with
  | Some (_, st) => Ok st
  | None => Panic
  end.
Definition set_inode_state s (i : Inode) (st : InodeState) : Superblock :=
  sb_with_heap s (alter (λ x, (fst x, st)) (in_loc i) (sb_heap s)).

Definition has_local_state (st : InodeState) : bool :=
  negb (bool_decide (st_write_status st = Remote)) || bool_decide (is_Some (st_pending_upload_hook st)).

(** ** [InodeMap] *)

Definition increase_lookup_count (m : gmap Z (Inode * Z)) (inode : Inode) : gmap Z (Inode * Z) :=
  match m !! in_ino inode with
  | Some (i, count) => <[in_ino inode := (i, count + 1)]> m
  | None => <[in_ino inode := (inode, 1)]> m
  end.
Definition decrease_lookup_count (m : gmap Z (Inode * Z)) (ino n : Z) : gmap Z (Inode * Z) * (unit + option Inode) :=
  match m !! ino with
  | Some (i, count) =>
      let count := sat_sub count n in
      if count =? 0 then (delete ino m, inr (Some i)) else (<[ino := (i, count)]> m, inr None)
  | None => (m, inl tt)
  end.
Definition replace_or_insert (m : gmap Z (Inode * Z)) (ino : Z) (new_inode : Inode) : gmap Z (Inode * Z) :=
  match m !! ino with
  | Some (_, count) => <[ino := (new_inode, count)]> m
  | None => <[ino := (new_inode, 1)]> m
  end.

Record LookedUpInode := { lu_inode : Inode; lu_stat : InodeStat; lu_write_status : WriteStatus }.
Definition Lookup_from (l : LookedUpInode) : Lookup := Lookup_new (lu_inode l) (lu_stat l).
Record RemoteLookup := { rl_kind : InodeKind; rl_stat : InodeStat }.

(** [str::starts_with] *)
Definition starts_with (s prefix : str) : bool := bool_decide (prefix `prefix_of` s).

Section superblock.
Context `{crc : Crc32c} (prefix : Prefix) (cfg : CacheConfig) (mount_time : Z).

(** The root inode gets the first location and, like the source, lookup count 1. *)
Definition Superblock_new (now : Z) : Superblock :=
  let '(root, state) := Inode_new_root 1%positive prefix mount_time now in
  {| sb_heap := {[ 1%positive := (root, state) ]};
     sb_inodes := {[ in_ino root := (root, 1) ]};
     sb_open_handles := ∅;
     sb_negative_cache := NegativeCache_new (cc_negative_cache_size cfg) (cc_negative_cache_ttl cfg);
     sb_rename_supported := None;
     sb_next_ino := 2;
     sb_now := now |}.

Definition ttl_for (kind : InodeKind) : Z :=
  match kind with File => cc_file_ttl cfg | Directory => cc_dir_ttl cfg end.

Definition full_key_for_inode (inode : Inode) : ValidKey := ValidKey_full_key (in_valid_key inode) prefix.

(** [SuperblockInner::get] *)
Definition sb_get (ino : Z) : prog Inode :=
  atomic (λ s, (s,
    match sb_inodes s !! ino with
    | Some (inode, _) => let! _ := verify_inode inode ino prefix in Ok inode
    | None => Err (InodeDoesNotExist ino)
    end)).

Definition remember (inode : Inode) : prog unit :=
  atomic (λ s, (sb_with_inodes s (increase_lookup_count (sb_inodes s) inode), Ok tt)).

(** ** Lookup *)

(** the section of [do_cache_lookup] under the parent's lock: [None] when the search goes on *)
Definition cache_lookup_children (parent : Inode) (name : str) s : outcome InodeError (option (option LookedUpInode)) :=
  match get_inode_state s parent with
  | Err _ => Ok (Some None)
  | Panic => Panic
  | Ok st =>
      match st_kind_data st with
      | FileData => Panic
      | DirectoryData children _ _ =>
          match children !! name with
          | Some inode =>
              match get_inode_state s inode with
              | Err _ => Ok (Some None)
              | Panic => Panic
              | Ok locked =>
                  if InodeStat_is_valid (st_stat locked) (sb_now s)
                  then Ok (Some (Some {| lu_inode := inode; lu_stat := st_stat locked; lu_write_status := st_write_status locked |}))
                  else Ok None
              end
          | None => Ok None
          end
      end
  end.

Definition cache_lookup (parent_ino : Z) (name : str) : prog (option (InodeError + LookedUpInode)) :=
  parent ← attempt (sb_get parent_ino);
  match parent with
  | inl _ => mret None
  | inr parent =>
      r ← atomic (λ s, (s, cache_lookup_children parent name s));
      match r with
      | Some found => mret (inr <$> found)
      | None =>
          negative ← atomic (λ s, (s, Ok (NegativeCache_contains (sb_negative_cache s) (sb_now s) (in_ino parent) name)));
          mret (if (negative : bool) then Some (inl (FileDoesNotExist name (Inode_err parent))) else None)
      end
  end.

(** whether the listing shows that something has [directory_prefix] as a prefix *)
Definition found_directory (result : ListObjectsResult) (directory_prefix : str) : bool :=
  match lo_common_prefixes result with
  | p :: _ => starts_with p directory_prefix
  | [] => false
  end ||
  match lo_objects result with
  | object :: _ => starts_with (oi_key object) directory_prefix
  | [] => false
  end.

(** the two arms of the [select_biased!] loop: an early return of the function, or the state of the file so far *)
Definition on_head (now : Z) (object_key : str) (file_state : option InodeStat) (head : head_response)
    : outcome InodeError RemoteLookup + option InodeStat :=
  match head with
  | HeadOk r =>
      inr (Some (InodeStat_for_file (ho_size r) (ho_last_modified r) (Some (ho_etag r)) (ho_storage_class r)
                   (ho_restore_status r) now (cc_file_ttl cfg)))
  | HeadNotFound => inr file_state
  | HeadError => inl (Err (ClientError "HeadObject failed" object_key))
  end.
Definition on_list (now : Z) (object_key directory_prefix : str) (file_state : option InodeStat) (list : option ListObjectsResult)
    : outcome InodeError RemoteLookup + option InodeStat :=
  match list with
  | None => inl (Err (ClientError "ListObjectsV2 failed" object_key))
  | Some result =>
      if found_directory result directory_prefix
      then inl (Ok {| rl_kind := Directory; rl_stat := InodeStat_for_directory mount_time now (cc_dir_ttl cfg) |})
      else inr file_state
  end.

Definition lookup_results (now : Z) (object_key directory_prefix : str) (dir_first : bool) (head : head_response)
    (list : option ListObjectsResult) : outcome InodeError (option RemoteLookup) :=
  let first :=
    if dir_first then on_list now object_key directory_prefix None list else on_head now object_key None head in
  let second file_state :=
    if dir_first then on_head now object_key file_state head else on_list now object_key directory_prefix file_state list in
  match first with
  | inl early => let! r := early in Ok (Some r)
  | inr file_state =>
      match second file_state with
      | inl early => let! r := early in Ok (Some r)
      | inr (Some stat) => Ok (Some {| rl_kind := File; rl_stat := InodeStat_update_validity stat now (cc_file_ttl cfg) |})
      | inr None => Ok None
      end
  end.

Definition clock : prog Z := atomic (λ s, (s, Ok (sb_now s))).

Definition remote_lookup (parent_ino : Z) (name : str) : prog (option RemoteLookup) :=
  parent ← sb_get parent_ino;
  full_path ← lift (outcome_map_err (λ _, NotADirectoryError (Inode_err parent))
                      (ValidKey_new_child (full_key_for_inode parent) name Directory));
  let directory_prefix := vk_key full_path in
  let object_key := take (length directory_prefix - 1) directory_prefix in
  answers ← request (HeadAndList object_key directory_prefix);
  now ← clock;
  let '(dir_first, head, list) := answers in
  lift (lookup_results now object_key directory_prefix dir_first head list).

(** ** Reconciling the children of a directory with what S3 answered *)

(** the parent's children; [unreachable!] on a file *)
Definition children_of (st : InodeState) : outcome InodeError (gmap str Inode * gset Z * bool) :=
  match st_kind_data st with
  | FileData => Panic
  | DirectoryData children writing_children deleted => Ok (children, writing_children, deleted)
  end.

Definition try_update_fast_path (parent : Inode) (name : str) (remote : option RemoteLookup) s
    : Superblock * outcome InodeError (option LookedUpInode) :=
  let? s, parent_state := (s, get_inode_state s parent) in
  let? s, dir := (s, children_of parent_state) in
  let '(children, _, _) := dir in
  match remote, children !! name with
  | None, None => (s, Err (FileDoesNotExist name (Inode_err parent)))
  | Some remote, Some existing_inode =>
      let? s, existing_state := (s, get_inode_state s existing_inode) in
      if bool_decide (rl_kind remote = Inode_kind existing_inode) && negb (has_local_state existing_state) &&
         bool_decide (stat_etag (st_stat existing_state) = stat_etag (rl_stat remote))
      then (set_inode_state s existing_inode (st_with_stat existing_state (rl_stat remote)),
            Ok (Some {| lu_inode := existing_inode; lu_stat := rl_stat remote; lu_write_status := st_write_status existing_state |}))
      else (s, Ok None)
  | _, _ => (s, Ok None)
  end.

(** [create_inode_locked]; the new inode and its state get a fresh location *)
Definition create_inode_locked (parent : Inode) (parent_state : InodeState) (name : str) (kind : InodeKind)
    (state : InodeState) (is_new_file : bool) s : Superblock * outcome InodeError Inode :=
  let? s, key := (s, outcome_map_err (λ _, NotADirectoryError (Inode_err parent)) (ValidKey_new_child (in_valid_key parent) name kind)) in
  let next_ino := sb_next_ino s in
  let s := sb_with_next_ino s (next_ino + 1) in
  let loc := fresh (dom (sb_heap s)) in
  let inode := Inode_new loc next_ino (in_ino parent) key prefix in
  match st_kind_data parent_state with
  | FileData => (s, Err (NotADirectoryError (Inode_err parent)))
  | DirectoryData children writing_children deleted =>
      let writing_children := if is_new_file then {[ next_ino ]} ∪ writing_children else writing_children in
      let writing_children :=
        match children !! name with Some existing => writing_children ∖ {[ in_ino existing ]} | None => writing_children end in
      let s := sb_with_heap s (<[loc := (inode, state)]> (sb_heap s)) in
      let s := set_inode_state s parent
                 (st_with_kind_data parent_state (DirectoryData (<[name := inode]> children) writing_children deleted)) in
      (s, Ok inode)
  end.

Definition update_slow_path (parent : Inode) (name : str) (remote : option RemoteLookup) s
    : Superblock * outcome InodeError LookedUpInode :=
  let? s, parent_state := (s, get_inode_state s parent) in
  let? s, dir := (s, children_of parent_state) in
  let '(children, writing_children, deleted) := dir in
  match remote, children !! name with
  | None, None => (s, Err (FileDoesNotExist name (Inode_err parent)))
  | None, Some existing_inode =>
      if bool_decide (in_ino existing_inode ∈ writing_children) then
        let? s, sync := (s, get_inode_state s existing_inode) in
        let stat := InodeStat_update_validity (st_stat sync) (sb_now s) (ttl_for (Inode_kind existing_inode)) in
        (set_inode_state s existing_inode (st_with_stat sync stat),
         Ok {| lu_inode := existing_inode; lu_stat := stat; lu_write_status := st_write_status sync |})
      else
        (set_inode_state s parent
           (st_with_kind_data parent_state (DirectoryData (delete name children) writing_children deleted)),
         Err (FileDoesNotExist name (Inode_err parent)))
  | Some remote, None =>
      let? s, inode := create_inode_locked parent parent_state name (rl_kind remote)
                         (InodeState_new (rl_stat remote) (rl_kind remote) Remote) false s in
      (s, Ok {| lu_inode := inode; lu_stat := rl_stat remote; lu_write_status := Remote |})
  | Some remote, Some existing_inode =>
      let? s, existing_state := (s, get_inode_state s existing_inode) in
      let existing_has_local_state := has_local_state existing_state in
      if bool_decide (rl_kind remote = File) && existing_has_local_state then
        (s, Ok {| lu_inode := existing_inode; lu_stat := st_stat existing_state; lu_write_status := st_write_status existing_state |})
      else
        let same_kind := bool_decide (rl_kind remote = Inode_kind existing_inode) in
        let same_etag := bool_decide (stat_etag (st_stat existing_state) = stat_etag (rl_stat remote)) in
        if same_kind && same_etag && (negb existing_has_local_state || bool_decide (rl_kind remote = Directory)) then
          let existing_state := st_with_stat existing_state (rl_stat remote) in
          if bool_decide (rl_kind remote = Directory) && existing_has_local_state then
            let s := set_inode_state s existing_inode (st_with_status existing_state Remote) in
            let s := set_inode_state s parent
                       (st_with_kind_data parent_state
                          (DirectoryData children (writing_children ∖ {[ in_ino existing_inode ]}) deleted)) in
            (s, Ok {| lu_inode := existing_inode; lu_stat := rl_stat remote; lu_write_status := Remote |})
          else
            (set_inode_state s existing_inode existing_state,
             Ok {| lu_inode := existing_inode; lu_stat := rl_stat remote; lu_write_status := st_write_status existing_state |})
        else
          let? s, new_inode := create_inode_locked parent parent_state name (rl_kind remote)
                                 (InodeState_new (rl_stat remote) (rl_kind remote) Remote) false s in
          (s, Ok {| lu_inode := new_inode; lu_stat := rl_stat remote; lu_write_status := Remote |})
  end.

Definition update_negative_cache (parent_ino : Z) (name : str) (remote : option RemoteLookup) s : Superblock :=
  if cc_use_negative_cache cfg then
    match remote with
    | Some _ => sb_with_negative_cache s (NegativeCache_remove (sb_negative_cache s) parent_ino name)
    | None => sb_with_negative_cache s (NegativeCache_insert (sb_negative_cache s) (sb_now s) (λ _, sb_now s) parent_ino name)
    end
  else s.

Definition update_from_remote (parent_ino : Z) (name : str) (remote : option RemoteLookup) : prog LookedUpInode :=
  parent ← sb_get parent_ino;
  if negb (bool_decide (Inode_kind parent = Directory)) then Throw (NotADirectoryError (Inode_err parent))
  else
    _ ← atomic (λ s, (update_negative_cache parent_ino name remote s, Ok tt));
    looked_up ← atomic (try_update_fast_path parent name remote);
    match looked_up with
    | Some looked_up => mret looked_up
    | None => atomic (update_slow_path parent name remote)
    end.

Definition parse_name (name : str) : outcome InodeError str :=
  outcome_map_err (λ e, match e with InvalidFileName n => InvalidFileNameError n end) (ValidName_parse_str name).

Definition lookup_by_name (parent_ino : Z) (name : str) (allow_cache : bool) : prog LookedUpInode :=
  name ← lift (parse_name name);
  cached ← (if allow_cache then cache_lookup parent_ino name else mret None);
  lookup ← match cached with
           | Some (inl e) => Throw e
           | Some (inr lookup) => mret lookup
           | None =>
               remote ← remote_lookup parent_ino name;
               update_from_remote parent_ino name remote
           end;
  _ ← lift (verify_child (lu_inode lookup) parent_ino name prefix);
  mret lookup.

(** the handler of the kernel's LOOKUP *)
Definition sb_lookup (parent_ino : Z) (name : str) : prog Lookup :=
  lookup ← lookup_by_name parent_ino name (cc_serve_lookup_from_cache cfg);
  _ ← remember (lu_inode lookup);
  mret (Lookup_from lookup).

(** ** [getattr], [setattr] *)

(** the section under the inode's lock: [Some] when the state can be returned without asking S3 *)
Definition getattr_locked (inode : Inode) (force_revalidate_if_remote : bool) s : Superblock * outcome InodeError (option LookedUpInode) :=
  let? s, sync := (s, get_inode_state s inode) in
  let local := has_local_state sync in
  if local || negb force_revalidate_if_remote then
    let sync := if local then st_with_stat sync (InodeStat_update_validity (st_stat sync) (sb_now s) (ttl_for (Inode_kind inode)))
                else sync in
    let s := set_inode_state s inode sync in
    if InodeStat_is_valid (st_stat sync) (sb_now s)
    then (s, Ok (Some {| lu_inode := inode; lu_stat := st_stat sync; lu_write_status := st_write_status sync |}))
    else (s, Ok None)
  else (s, Ok None).

Definition getattr_with_inode (ino : Z) (force_revalidate_if_remote : bool) : prog LookedUpInode :=
  inode ← sb_get ino;
  local ← atomic (getattr_locked inode force_revalidate_if_remote);
  match local with
  | Some lookup => mret lookup
  | None =>
      name ← lift (Inode_name inode);
      lookup ← lookup_by_name (in_parent inode) name false;
      if negb (in_ino (lu_inode lookup) =? ino)
      then Throw (StaleInode (vk_key (full_key_for_inode (lu_inode lookup))) (Inode_err inode) (Inode_err (lu_inode lookup)))
      else mret lookup
  end.

Definition sb_getattr (ino : Z) (force_revalidate_if_remote : bool) : prog Lookup :=
  lookup ← getattr_with_inode ino force_revalidate_if_remote;
  mret (Lookup_from lookup).

Definition sb_setattr (ino : Z) (atime mtime : option Z) : prog Lookup :=
  inode ← sb_get ino;
  atomic (λ s,
    let? s, sync := (s, get_inode_state s inode) in
    if bool_decide (st_write_status sync = Remote) then (s, Err (SetAttrNotPermittedOnRemoteInode (Inode_err inode)))
    else
      let stat := InodeStat_update_validity (st_stat sync) (sb_now s) (ttl_for (Inode_kind inode)) in
      let stat := stat_with_times stat atime mtime in
      (set_inode_state s inode (st_with_stat sync stat), Ok (Lookup_new inode stat))).

(** ** [create], [forget] *)

Definition create_locked (parent : Inode) (name : str) (kind : InodeKind) s : Superblock * outcome InodeError (Lookup * Inode) :=
  let? s, parent_state := (s, get_inode_state s parent) in
  match st_kind_data parent_state with
  | FileData => (s, Err (NotADirectoryError (Inode_err parent)))
  | DirectoryData children _ _ =>
      match children !! name with
      | Some inode => (s, Err (FileAlreadyExists (Inode_err inode)))
      | None =>
          let stat :=
            match kind with
            | File => InodeStat_for_file 0 (sb_now s) None None None (sb_now s) (cc_file_ttl cfg)
            | Directory => InodeStat_for_directory mount_time (sb_now s) (cc_dir_ttl cfg)
            end in
          let? s, inode := create_inode_locked parent parent_state name kind (InodeState_new stat kind LocalUnopened) true s in
          (s, Ok (Lookup_new inode stat, inode))
      end
  end.

Definition sb_create (dir : Z) (name : str) (kind : InodeKind) : prog Lookup :=
  existing ← attempt (lookup_by_name dir name (cc_serve_lookup_from_cache cfg));
  match existing with
  | inr lookup => Throw (FileAlreadyExists (Inode_err (lu_inode lookup)))
  | inl (FileDoesNotExist _ _) =>
      name ← lift (parse_name name);
      parent ← sb_get dir;
      created ← atomic (create_locked parent name kind);
      _ ← remember (snd created);
      mret (fst created)
  | inl e => Throw e
  end.

(** under the lock of the inode map, and of the parent when there is one *)
Definition forget_locked (ino n : Z) s : Superblock * outcome InodeError (option Inode) :=
  match decrease_lookup_count (sb_inodes s) ino n with
  | (inodes, inr (Some removed_inode)) =>
      let s := sb_with_inodes s inodes in
      match inodes !! in_parent removed_inode with
      | Some (parent, _) =>
          let? s, parent_state := (s, get_inode_state_no_check s parent) in
          let? s, dir := (s, children_of parent_state) in
          let '(children, writing_children, deleted) := dir in
          let? s, name := (s, Inode_name removed_inode) in
          let children :=
            match children !! name with
            | Some child => if in_ino child =? ino then delete name children else children
            | None => children
            end in
          (set_inode_state s parent (st_with_kind_data parent_state (DirectoryData children (writing_children ∖ {[ ino ]}) deleted)),
           Ok (Some removed_inode))
      | None => (s, Ok (Some removed_inode))
      end
  | (inodes, inr None) => (sb_with_inodes s inodes, Ok None)
  | (inodes, inl _) => (s, Ok None)
  end.

Definition sb_forget (ino n : Z) : prog unit :=
  removed ← atomic (forget_locked ino n);
  match removed with
  | Some _ => atomic (λ s, (sb_with_handles s (fst (remove_inode (sb_open_handles s) ino)), Ok tt))
  | None => mret tt
  end.

(** ** [unlink], [rmdir] *)

Definition unlink_locked (parent inode : Inode) s : Superblock * outcome InodeError unit :=
  let? s, parent_state := (s, get_inode_state s parent) in
  match st_kind_data parent_state with
  | FileData => (s, Err (NotADirectoryError (Inode_err parent)))
  | DirectoryData children writing_children deleted =>
      let? s, name := (s, Inode_name inode) in
      match children !! name with
      | Some existing_inode =>
          if in_ino existing_inode =? in_ino inode then
            (set_inode_state s parent (st_with_kind_data parent_state (DirectoryData (delete name children) writing_children deleted)), Ok tt)
          else
            let? s, state := (s, get_inode_state_no_check s existing_inode) in
            (set_inode_state s existing_inode (st_with_stat state (InodeStat_update_validity (st_stat state) (sb_now s) 0)), Ok tt)
      | None => (s, Ok tt)
      end
  end.

Definition sb_unlink (parent_ino : Z) (name : str) : prog unit :=
  parent ← sb_get parent_ino;
  lookup ← lookup_by_name parent_ino name (cc_serve_lookup_from_cache cfg);
  let inode := lu_inode lookup in
  if bool_decide (Inode_kind inode = Directory) then Throw (IsDirectory (Inode_err inode))
  else
    write_status ← atomic (λ s, (s, let! st := get_inode_state s inode in Ok (st_write_status st)));
    match write_status with
    | LocalUnopened | LocalOpenForWriting | PendingRename => Throw (UnlinkNotPermittedWhileWriting (Inode_err inode))
    | Remote =>
        let s3_key := vk_key (full_key_for_inode inode) in
        deleted ← request (DeleteObject s3_key);
        if (deleted : bool) then atomic (unlink_locked parent inode)
        else Throw (ClientError "DeleteObject failed" s3_key)
    end.

Definition rmdir_locked (parent inode : Inode) s : Superblock * outcome InodeError unit :=
  let? s, parent_state := (s, get_inode_state s parent) in
  let? s, inode_state := (s, get_inode_state s inode) in
  match st_write_status inode_state with
  | LocalOpenForWriting | PendingRename => (s, Panic)
  | Remote => (s, Err (CannotRemoveRemoteDirectory (Inode_err inode)))
  | LocalUnopened =>
      let? s, dir := (s, children_of inode_state) in
      let '(children, writing_children, _) := dir in
      if negb (bool_decide (writing_children = ∅)) then (s, Err (DirectoryNotEmpty (Inode_err inode)))
      else
        let s := set_inode_state s inode (st_with_kind_data inode_state (DirectoryData children writing_children true)) in
        match st_kind_data parent_state with
        | FileData => (s, Err (NotADirectoryError (Inode_err parent)))
        | DirectoryData pchildren pwriting_children pdeleted =>
            let? s, name := (s, Inode_name inode) in
            (set_inode_state s parent
               (st_with_kind_data parent_state
                  (DirectoryData (delete name pchildren) (pwriting_children ∖ {[ in_ino inode ]}) pdeleted)), Ok tt)
        end
  end.

Definition sb_rmdir (parent_ino : Z) (name : str) : prog unit :=
  lookup ← lookup_by_name parent_ino name (cc_serve_lookup_from_cache cfg);
  let inode := lu_inode lookup in
  if bool_decide (Inode_kind inode = File) then Throw (NotADirectoryError (Inode_err inode))
  else
    parent ← sb_get parent_ino;
    atomic (rmdir_locked parent inode).

(** ** [rename] *)

(** [RenameCache]: a [OnceLock], so the first answer stays *)
Definition should_try_rename s : bool := default true (sb_rename_supported s).
Definition cache_rename (supported : bool) s : Superblock :=
  match sb_rename_supported s with Some _ => s | None => sb_with_rename_supported s (Some supported) end.

(** [PendingRenameGuard::try_transition] and its [Drop] *)
Definition try_transition (inode : Inode) : prog unit :=
  atomic (λ s,
    let? s, locked := (s, get_inode_state s inode) in
    match st_write_status locked with
    | LocalUnopened | LocalOpenForWriting | PendingRename => (s, Err (RenameNotPermittedWhileWriting (Inode_err inode)))
    | Remote => (set_inode_state s inode (st_with_status locked PendingRename), Ok tt)
    end).
Definition PendingRenameGuard_drop (inode : Inode) : prog unit :=
  atomic (λ s,
    match get_inode_state s inode with
    | Ok locked =>
        (if bool_decide (st_write_status locked = PendingRename) then set_inode_state s inode (st_with_status locked Remote) else s,
         Ok tt)
    | Err _ | Panic => (s, Panic)
    end).

(** [RenameLockGuard]: the ancestors of [start], up to the root, are searched for
    [dst]; each step goes to a parent with a smaller number, so [start]'s number is enough fuel *)
Fixpoint dst_is_ancestor (fuel : nat) (inodes : gmap Z (Inode * Z)) (start : Inode) (dst : Z) : bool :=
  match fuel with
  | O => false
  | S fuel =>
      if in_ino start =? ROOT_INODE_NO then false
      else if in_ino start =? dst then true
      else match inodes !! in_parent start with
           | Some (parent, _) => dst_is_ancestor fuel inodes parent dst
           | None => false
           end
  end.
(** the inodes that [RenameLockGuard::new] locks, in the order in which it locks them *)
Definition rename_lock_order (inodes : gmap Z (Inode * Z)) (source_parent dest_parent : Inode) : list Inode :=
  let src_ino := in_ino source_parent in
  let dst_ino := in_ino dest_parent in
  if src_ino =? dst_ino then [source_parent]
  else if dst_is_ancestor (S (Z.to_nat src_ino)) inodes source_parent dst_ino || (dst_ino <? src_ino)
  then [dest_parent; source_parent]
  else [source_parent; dest_parent].

Fixpoint lock_all (s : Superblock) (inodes : list Inode) : outcome InodeError unit :=
  match inodes with
  | [] => Ok tt
  | i :: rest => let! _ := get_inode_state s i in lock_all s rest
  end.

(** what happens to the two directories and the inode map after RenameObject, with both parents locked *)
Definition rename_locked (src_parent dst_parent src_inode : Inode) (dest_name : str) (dest_key : ValidKey) s
    : Superblock * outcome InodeError unit :=
  let? s, _locked := (s, lock_all s (rename_lock_order (sb_inodes s) src_parent dst_parent)) in
  let? s, source_state := (s, get_inode_state s src_parent) in
  match st_kind_data source_state with
  | FileData => (s, Err (NotADirectoryError (Inode_err src_parent)))
  | DirectoryData children writing_children deleted =>
      let? s, src_name := (s, Inode_name src_inode) in
      let s := set_inode_state s src_parent
                 (st_with_kind_data source_state (DirectoryData (delete src_name children) writing_children deleted)) in
      let dst_parent := if in_ino src_parent =? in_ino dst_parent then src_parent else dst_parent in
      let? s, dst_state := (s, get_inode_state s dst_parent) in
      match st_kind_data dst_state with
      | FileData => (s, Err (NotADirectoryError (Inode_err src_parent)))
      | DirectoryData children writing_children deleted =>
          let? s, src_state := (s, get_inode_state_no_check s src_inode) in
          let? s, new_state := (s, try_clone_with_new_key src_inode src_state (sb_now s) (cc_file_ttl cfg)) in
          let loc := fresh (dom (sb_heap s)) in
          let new_inode := Inode_new loc (in_ino src_inode) (in_ino dst_parent) dest_key prefix in
          let s := sb_with_heap s (<[loc := (new_inode, new_state)]> (sb_heap s)) in
          let s := set_inode_state s dst_parent
                     (st_with_kind_data dst_state (DirectoryData (<[dest_name := new_inode]> children) writing_children deleted)) in
          (sb_with_inodes s (replace_or_insert (sb_inodes s) (in_ino new_inode) new_inode), Ok tt)
      end
  end.

(** from the looked up destination to the end, the destination guard being armed *)
Definition rename_remote (src_parent dst_parent src_inode : Inode) (dst_name : str) (allow_overwrite : bool) : prog unit :=
  let src_key := vk_key (full_key_for_inode src_inode) in
  dest_name ← lift (parse_name dst_name);
  dest_valid_key ← lift (outcome_map_err (λ _, NotADirectoryError (Inode_err dst_parent))
                           (ValidKey_new_child (in_valid_key dst_parent) dest_name File));
  let dest_key := prefix_path prefix ++ vk_key dest_valid_key in
  result ← request (RenameObject src_key dest_key (negb allow_overwrite));
  match result with
  | RenameOk =>
      _ ← atomic (λ s, (cache_rename true s, Ok tt));
      _ ← atomic (λ s, (sb_with_negative_cache s (NegativeCache_remove (sb_negative_cache s) (in_ino dst_parent) dst_name), Ok tt));
      atomic (rename_locked src_parent dst_parent src_inode dest_name dest_valid_key)
  | RenamePreconditionFailed => Throw (RenameDestinationExists dest_key (Inode_err src_inode))
  | RenameKeyNotFound => Throw (InodeDoesNotExist (in_ino src_inode))
  | RenameKeyTooLong => Throw (NameTooLong dest_key)
  | RenameNotImplemented =>
      _ ← atomic (λ s, (cache_rename false s, Ok tt));
      Throw RenameNotSupported
  | RenameOtherError => Throw (ClientError "RenameObject failed" src_key)
  end.

Definition sb_rename (src_parent_ino : Z) (src_name : str) (dst_parent_ino : Z) (dst_name : str) (allow_overwrite : bool) : prog unit :=
  try_rename ← atomic (λ s, (s, Ok (should_try_rename s)));
  if negb (try_rename : bool) then Throw RenameNotSupported
  else
    src_parent ← sb_get src_parent_ino;
    dst_parent ← sb_get dst_parent_ino;
    src ← lookup_by_name src_parent_ino src_name (cc_serve_lookup_from_cache cfg);
    let src_inode := lu_inode src in
    if bool_decide (Inode_kind src_inode = Directory) then Throw (CannotRenameDirectory (Inode_err src_inode))
    else
      _ ← try_transition src_inode;
      on_error (PendingRenameGuard_drop src_inode)
        (dest ← attempt (lookup_by_name dst_parent_ino dst_name (cc_serve_lookup_from_cache cfg));
         match dest with
         | inl _ => rename_remote src_parent dst_parent src_inode dst_name allow_overwrite
         | inr dest =>
             let inode := lu_inode dest in
             if negb allow_overwrite
             then Throw (RenameDestinationExists (vk_key (full_key_for_inode inode)) (Inode_err src_inode))
             else
               _ ← try_transition inode;
               on_error (PendingRenameGuard_drop inode)
                 (rename_remote src_parent dst_parent src_inode dst_name allow_overwrite)
         end).

(** ** Opening, writing and closing files *)

Definition start_reading (inode : Inode) (locked : InodeState) (fh : Z) s : Superblock * outcome InodeError (option HookId) :=
  match st_write_status locked with
  | LocalUnopened => (s, Err (InodeNotReadableWhileWriting (Inode_err inode)))
  | LocalOpenForWriting | PendingRename | Remote =>
      let '(handles, added) := try_add_reader (sb_open_handles s) (in_ino inode) fh in
      let s := sb_with_handles s handles in
      if negb added then (s, Err (InodeNotReadableWhileWriting (Inode_err inode)))
      else
        let locked := if bool_decide (st_write_status locked = LocalOpenForWriting) then st_with_status locked Remote else locked in
        (set_inode_state s inode locked, Ok (st_pending_upload_hook locked))
  end.

Definition start_writing (inode : Inode) (locked : InodeState) (mode : WriteMode) (is_truncate : bool) (fh : Z) s
    : Superblock * outcome InodeError (option HookId) :=
  let setup_inode_for_writing (size : Z) :=
    let '(handles, result) := set_writer (sb_open_handles s) (in_ino inode) fh in
    let s := sb_with_handles s handles in
    match result with
    | inl ActiveWriter => (s, Err (InodeAlreadyWriting (Inode_err inode)))
    | inl ActiveReaders => (s, Err (InodeNotWritableWhileReading (Inode_err inode)))
    | inr _ =>
        (set_inode_state s inode (st_with_stat (st_with_status locked LocalOpenForWriting) (stat_with_size (st_stat locked) size)),
         Ok tt)
    end in
  match st_write_status locked with
  | LocalUnopened =>
      let? s, _done := setup_inode_for_writing 0 in
      (s, Ok None)
  | PendingRename => (s, Err (InodeAlreadyWriting (Inode_err inode)))
  | LocalOpenForWriting | Remote =>
      if negb (WriteMode_is_inode_writable mode is_truncate) then (s, Err (InodeNotWritable (Inode_err inode)))
      else
        let? s, _done := setup_inode_for_writing (if is_truncate then 0 else stat_size (st_stat locked)) in
        (s, Ok (st_pending_upload_hook locked))
  end.

(** the flags that the file system looks at *)
Record OpenFlags := {
  o_rdwr : bool;
  o_wronly : bool;
  o_trunc : bool;
  o_append : bool;
  o_direct : bool;
  (** the bits of [O_SYNC | O_DSYNC] *)
  o_sync : bool;
  o_dsync : bool;
}.

Definition open_mode (write_mode : WriteMode) (flags : OpenFlags) (write_status : WriteStatus) : ReadWriteMode :=
  if o_rdwr flags then
    if bool_decide (write_status = LocalUnopened) || (wm_allow_overwrite write_mode && o_trunc flags) ||
       (wm_incremental_upload write_mode && o_append flags)
    then ModeWrite else ModeRead
  else if o_wronly flags then ModeWrite else ModeRead.

Definition open_locked (inode : Inode) (fh : Z) (mode : ReadWriteMode) (write_mode : WriteMode) (is_truncate : bool) s
    : Superblock * outcome InodeError (option HookId * Lookup) :=
  let? s, locked := (s, get_inode_state s inode) in
  let? s, hook := match mode with
                  | ModeRead => start_reading inode locked fh s
                  | ModeWrite => start_writing inode locked write_mode is_truncate fh s
                  end in
  let? s, locked := (s, get_inode_state s inode) in
  (s, Ok (hook, Lookup_new inode (st_stat locked))).

Definition sb_open_handle (ino fh : Z) (write_mode : WriteMode) (flags : OpenFlags) : prog (Lookup * ReadWriteMode) :=
  let force_revalidate_if_remote := negb (cc_serve_lookup_from_cache cfg) || o_direct flags in
  looked_up ← getattr_with_inode ino force_revalidate_if_remote;
  let inode := lu_inode looked_up in
  if bool_decide (Inode_kind inode = Directory) then Throw (IsDirectory (Inode_err inode))
  else
    let mode := open_mode write_mode flags (lu_write_status looked_up) in
    if match mode with ModeRead => negb (stat_is_readable (lu_stat looked_up)) | ModeWrite => false end
    then Throw (FlexibleRetrievalObjectNotAccessible (Inode_err inode))
    else
      opened ← atomic (open_locked inode fh mode write_mode (o_trunc flags));
      match fst opened with
      | None => mret (snd opened, mode)
      | Some hook =>
          completed ← request (WaitForCompletion hook);
          match completed with
          | inl e => Throw e
          | inr (Some lookup_after_upload) => mret (lookup_after_upload, mode)
          | inr None =>
              lookup ← atomic (λ s, (s, let! locked := get_inode_state s inode in Ok (Lookup_new inode (st_stat locked))));
              mret (lookup, mode)
          end
      end.

Definition sb_inc_file_size (ino len : Z) : prog Z :=
  inode ← sb_get ino;
  atomic (λ s,
    let? s, state := (s, get_inode_state s inode) in
    match st_write_status state with
    | LocalOpenForWriting =>
        let size := wadd (stat_size (st_stat state)) len in
        (set_inode_state s inode (st_with_stat state (stat_with_size (st_stat state) size)), Ok size)
    | _ => (s, Err (InodeInvalidWriteStatus (Inode_err inode)))
    end).

(** [finish_writing] first collects the ancestors from the parent to the first
    remote one; their numbers decrease, so the parent's number is enough fuel *)
Fixpoint collect_ancestors (fuel : nat) (ancestor_ino : Z) (visited : gset Z) : prog (list Inode) :=
  match fuel with
  | O => Crash
  | S fuel =>
      if bool_decide (ancestor_ino ∈ visited) then Crash
      else
        ancestor ← sb_get ancestor_ino;
        last ← (if in_ino ancestor =? ROOT_INODE_NO then mret true
                else atomic (λ s, (s, let! st := get_inode_state s ancestor in Ok (bool_decide (st_write_status st = Remote)))));
        if (last : bool) then mret [ancestor]
        else
          rest ← collect_ancestors fuel (in_parent ancestor) ({[ ancestor_ino ]} ∪ visited);
          mret (ancestor :: rest)
  end.

(** the loop over the locked ancestors *)
Fixpoint update_ancestors (ancestors : list Inode) (child_ino : Z) s : Superblock * outcome InodeError unit :=
  match ancestors with
  | [] => (s, Ok tt)
  | ancestor :: rest =>
      let? s, st := (s, get_inode_state s ancestor) in
      let? s, dir := (s, children_of st) in
      let '(children, writing_children, deleted) := dir in
      let st := st_with_kind_data st (DirectoryData children (writing_children ∖ {[ child_ino ]}) deleted) in
      update_ancestors rest (in_ino ancestor) (set_inode_state s ancestor (st_with_status st Remote))
  end.

Definition finish_writing_locked (inode : Inode) (ancestors : list Inode) (etag : option string) (fh : Z) s
    : Superblock * outcome InodeError Lookup :=
  let? s, _locked := (s, lock_all s (rev ancestors)) in
  let? s, locked := (s, get_inode_state s inode) in
  match st_write_status locked with
  | LocalOpenForWriting | Remote =>
      let locked := st_with_hook locked None in
      let '(s, locked) :=
        match etag with
        | Some etag =>
            let '(handles, removed) := try_remove_writer (sb_open_handles s) (in_ino inode) fh in
            let locked := if (removed : bool) then st_with_status locked Remote else locked in
            (sb_with_handles s handles,
             st_with_stat locked (InodeStat_update_validity (stat_with_etag (st_stat locked) (Some etag)) (sb_now s) (cc_file_ttl cfg)))
        | None =>
            (sb_with_handles s (fst (remove_inode (sb_open_handles s) (in_ino inode))),
             st_with_stat (st_with_status locked Remote) (InodeStat_update_validity (st_stat locked) (sb_now s) 0))
        end in
      let s := set_inode_state s inode locked in
      let? s, _done := update_ancestors ancestors (in_ino inode) s in
      (s, Ok (Lookup_new inode (st_stat locked)))
  | _ => (s, Err (InodeInvalidWriteStatus (Inode_err inode)))
  end.

Definition sb_finish_writing (ino : Z) (etag : option string) (fh : Z) : prog Lookup :=
  inode ← sb_get ino;
  ancestors ← collect_ancestors (S (Z.to_nat (in_parent inode))) (in_parent inode) ∅;
  atomic (finish_writing_locked inode ancestors etag fh).

Definition sb_flush_reader (ino fh : Z) : prog unit :=
  inode ← sb_get ino;
  atomic (λ s,
    let? s, _locked := (s, get_inode_state s inode) in
    (sb_with_handles s (deactivate_reader (sb_open_handles s) (in_ino inode) fh), Ok tt)).

Definition sb_flush_writer (ino fh : Z) (hook : HookId) : prog (option HookId) :=
  inode ← sb_get ino;
  atomic (λ s,
    let? s, locked := (s, get_inode_state s inode) in
    match st_write_status locked with
    | LocalOpenForWriting =>
        let '(handles, deactivated) := try_deactivate_writer (sb_open_handles s) (in_ino inode) fh in
        let s := sb_with_handles s handles in
        if (deactivated : bool) then
          let hook := default hook (st_pending_upload_hook locked) in
          (set_inode_state s inode (st_with_hook locked (Some hook)), Ok (Some hook))
        else (s, Ok None)
    | _ => (s, Ok None)
    end).

Definition sb_finish_reading (ino fh : Z) : prog unit :=
  inode ← sb_get ino;
  atomic (λ s,
    let? s, _locked := (s, get_inode_state s inode) in
    (sb_with_handles s (remove_reader (sb_open_handles s) (in_ino inode) fh), Ok tt)).

Definition sb_release_writer (ino fh : Z) (hook : HookId) : prog unit :=
  pending ← attempt (sb_flush_writer ino fh hook);
  match pending with
  | inr (Some hook) =>
      completed ← request (WaitForCompletion hook);
      match completed with
      | inl e => Throw e
      | inr _ => mret tt
      end
  | inr None | inl _ => mret tt
  end.

Definition sb_try_reactivate_handle (ino fh : Z) (mode : ReadWriteMode) : prog bool :=
  inode ← sb_get ino;
  atomic (λ s,
    let? s, locked := (s, get_inode_state s inode) in
    match mode with
    | ModeRead =>
        let '(handles, activated) := try_activate_reader (sb_open_handles s) (in_ino inode) fh in
        (sb_with_handles s handles, Ok activated)
    | ModeWrite =>
        let '(handles, activated) := try_activate_writer (sb_open_handles s) (in_ino inode) fh in
        let s := sb_with_handles s handles in
        (if (activated : bool) then set_inode_state s inode (st_with_hook locked None) else s, Ok activated)
    end).

End superblock.
