(* ===== verification/SuperblockInv.v ===== *)
(** * Concurrent handlers keep the superblock consistent

    The invariant of the superblock's state, and a rely-guarantee logic for handler
    programs: between any two atomic sections of a handler the state may be changed
    arbitrarily by others, as long as they keep the invariant and only extend
    the state in the sense of [sb_le].  The logic is instantiated for every
    handler and gives the theorem on interleavings at the end. *)

From S2P Require Import Prelude Checksums NegativeCache Path HandlesMap Inode Superblock.
From Stdlib Require Import Sorting.Sorted.

Local Open Scope Z_scope.

(** ** Extension of a state: inodes stay allocated and keep their immutable
    fields; an inode that left [LocalUnopened] does not go back *)

Record sb_le (s s' : Superblock) : Prop := {
  le_heap l i st : sb_heap s !! l = Some (i, st) →
    ∃ st', sb_heap s' !! l = Some (i, st') ∧ (st_write_status st ≠ LocalUnopened → st_write_status st' ≠ LocalUnopened);
  le_next_ino : sb_next_ino s ≤ sb_next_ino s';
}.
Infix "⊑s" := sb_le (at level 70).

#[export] Instance sb_le_preorder : PreOrder sb_le.
Proof.
  split; [intros s; split; [eauto|lia]|]. intros s1 s2 s3 [H1 N1] [H2 N2]. split; [|lia]. intros l i st Hl.
  destruct (H1 _ _ _ Hl) as (st2 & Hl2 & Hs2). destruct (H2 _ _ _ Hl2) as (st3 & Hl3 & Hs3). eauto.
Qed.

Definition valid_inode (s : Superblock) (i : Inode) : Prop := ∃ st, sb_heap s !! in_loc i = Some (i, st).
Definition dir_ino (s : Superblock) (ino : Z) : Prop :=
  ∃ i, valid_inode s i ∧ in_ino i = ino ∧ Inode_kind i = Directory.
(** an inode that was seen outside [LocalUnopened] *)
Definition settled (s : Superblock) (i : Inode) : Prop :=
  ∃ st, sb_heap s !! in_loc i = Some (i, st) ∧ st_write_status st ≠ LocalUnopened.

Lemma valid_inode_mono s s' i : s ⊑s s' → valid_inode s i → valid_inode s' i.
Proof. intros [Hle _] [st Hst]. destruct (Hle _ _ _ Hst) as (st' & ? & _). by exists st'. Qed.
Lemma dir_ino_mono s s' ino : s ⊑s s' → dir_ino s ino → dir_ino s' ino.
Proof. intros Hle (i & Hi & ? & ?). exists i. eauto using valid_inode_mono. Qed.
Lemma settled_mono s s' i : s ⊑s s' → settled s i → settled s' i.
Proof. intros [Hle _] (st & Hst & Hs). destruct (Hle _ _ _ Hst) as (st' & ? & ?). exists st'. auto. Qed.
#[export] Hint Resolve valid_inode_mono dir_ino_mono settled_mono : core.

(** Case analysis on the condition of an [if] of the code. *)
Ltac case_if H := match goal with |- context [if ?b then _ else _] => destruct b eqn:H end.

Section invariant.
Context `{crc : Crc32c} (prefix : Prefix) (cfg : CacheConfig) (mount_time : Z).
Implicit Types s : Superblock.

(** ** Invariant *)

Definition inode_ok (i : Inode) : Prop :=
  key_in_tree (in_valid_key i) ∧ in_checksum i = compute_checksum (in_ino i) prefix (vk_key (in_valid_key i)) ∧
  1 ≤ in_ino i ∧ 1 ≤ in_parent i ∧ (Inode_kind i = Directory → in_ino i = ROOT_INODE_NO ∧ in_valid_key i = ValidKey_root ∨ in_parent i < in_ino i).

(** the entry [name ↦ c] of directory [i] *)
Definition child_ok s (i : Inode) (name : str) (c : Inode) : Prop :=
  valid_inode s c ∧ in_parent c = in_ino i ∧ valid_name_str name = true ∧
  ∃ kind, ValidKey_new_child (in_valid_key i) name kind = Ok (in_valid_key c).

Definition state_ok s (i : Inode) (st : InodeState) : Prop :=
  match st_kind_data st with
  | FileData => Inode_kind i = File
  | DirectoryData children _ deleted =>
      Inode_kind i = Directory ∧ (∀ name c, children !! name = Some c → child_ok s i name c) ∧
      st_write_status st ≠ LocalOpenForWriting ∧ (deleted = true → st_write_status st = LocalUnopened)
  end.

Record sb_inv s : Prop := {
  inv_inode l i st : sb_heap s !! l = Some (i, st) →
    in_loc i = l ∧ inode_ok i ∧ in_ino i < sb_next_ino s ∧ in_parent i < sb_next_ino s ∧ state_ok s i st;
  inv_map ino i n : sb_inodes s !! ino = Some (i, n) → valid_inode s i ∧ in_ino i = ino ∧ 1 ≤ n;
  inv_unique i j : valid_inode s i → valid_inode s j → in_ino i = in_ino j → Inode_kind i = Directory → i = j;
  inv_parent i j : valid_inode s i → valid_inode s j → in_ino j = in_parent i → Inode_kind j = Directory;
}.

Lemma child_ok_mono s s' i name c : s ⊑s s' → child_ok s i name c → child_ok s' i name c.
Proof. intros Hle (? & ? & ? & ?). split; eauto. Qed.
Lemma state_ok_mono s s' i st : s ⊑s s' → state_ok s i st → state_ok s' i st.
Proof. intros Hle. unfold state_ok. destruct (st_kind_data st); [done|]. intros (? & ? & ? & ?). split_and!; eauto using child_ok_mono. Qed.

Lemma valid_inode_ok s i : sb_inv s → valid_inode s i → inode_ok i.
Proof. intros Hinv [st Hst]. by apply (inv_inode _ Hinv) in Hst as (_ & ? & _). Qed.
Lemma valid_inode_bounds s i : sb_inv s → valid_inode s i → in_ino i < sb_next_ino s ∧ in_parent i < sb_next_ino s.
Proof. intros Hinv [st Hst]. by apply (inv_inode _ Hinv) in Hst as (_ & _ & ? & ? & _). Qed.
Lemma valid_inode_lookup s l i st : sb_inv s → sb_heap s !! l = Some (i, st) → valid_inode s i ∧ in_loc i = l ∧ state_ok s i st.
Proof. intros Hinv Hl. pose proof Hl as Hl'. apply (inv_inode _ Hinv) in Hl' as (<- & _ & _ & _ & ?). split; [by exists st|done]. Qed.
Lemma dir_ino_valid s i ino : sb_inv s → dir_ino s ino → valid_inode s i → in_ino i = ino → Inode_kind i = Directory.
Proof. intros Hinv (j & Hj & <- & Hk) Hi Heq. by rewrite <-(inv_unique _ Hinv j i Hj Hi (eq_sym Heq) Hk). Qed.

(** Fields that the invariant does not mention. *)
Lemma sb_same_le s s' : sb_heap s' = sb_heap s → sb_next_ino s' = sb_next_ino s → s ⊑s s'.
Proof. intros Hh Hn. split; [|lia]. rewrite Hh. eauto. Qed.
Lemma valid_inode_heap s s' i : sb_heap s' = sb_heap s → valid_inode s' i ↔ valid_inode s i.
Proof. unfold valid_inode. by intros ->. Qed.
Lemma sb_inv_same s s' :
  sb_heap s' = sb_heap s → sb_inodes s' = sb_inodes s → sb_next_ino s' = sb_next_ino s → sb_inv s → sb_inv s'.
Proof.
  intros Hh Hi Hn Hinv. assert (s ⊑s s') as Hle by by apply sb_same_le. split.
  - intros l i st. rewrite Hh, Hn. intros Hl. apply (inv_inode _ Hinv) in Hl as (? & ? & ? & ? & ?). ands; eauto using state_ok_mono.
  - intros ino i n. rewrite Hi. intros Hl. apply (inv_map _ Hinv) in Hl as (? & ? & ?). eauto.
  - intros i j. rewrite !(valid_inode_heap s s') by done. apply (inv_unique _ Hinv).
  - intros i j. rewrite !(valid_inode_heap s s') by done. apply (inv_parent _ Hinv).
Qed.

(** ** The three ways in which the state changes *)

Lemma set_state_valid s i st j : valid_inode (set_inode_state s i st) j ↔ valid_inode s j.
Proof.
  unfold valid_inode, set_inode_state. simpl. destruct (decide (in_loc i = in_loc j)) as [->|Hne].
  - rewrite lookup_alter_eq. destruct (sb_heap s !! in_loc j) as [[? ?]|]; simpl; naive_solver.
  - by rewrite lookup_alter_ne.
Qed.

Lemma set_state_ok s i st st' :
  sb_inv s → sb_heap s !! in_loc i = Some (i, st) → state_ok s i st' →
  (st_write_status st ≠ LocalUnopened → st_write_status st' ≠ LocalUnopened) →
  sb_inv (set_inode_state s i st') ∧ s ⊑s set_inode_state s i st'.
Proof.
  intros Hinv Hl Hok Hst.
  assert (s ⊑s set_inode_state s i st') as Hle.
  { split; [|simpl; lia]. intros l j stj Hj. simpl. destruct (decide (in_loc i = l)) as [<-|Hne].
    - rewrite lookup_alter_eq, Hj. simplify_eq/=. eauto.
    - rewrite lookup_alter_ne by done. eauto. }
  split; [|done]. split.
  - intros l j stj Hj. simpl in Hj. destruct (decide (in_loc i = l)) as [<-|Hne].
    + rewrite lookup_alter_eq, Hl in Hj. simplify_eq/=. apply (inv_inode _ Hinv) in Hl as (? & ? & ? & ? & _).
      ands; eauto using state_ok_mono.
    + rewrite lookup_alter_ne in Hj by done. apply (inv_inode _ Hinv) in Hj as (? & ? & ? & ? & ?).
      ands; eauto using state_ok_mono.
  - intros ino j n Hj. apply (inv_map _ Hinv) in Hj as (? & ? & ?). eauto.
  - intros j k. rewrite !set_state_valid. apply (inv_unique _ Hinv).
  - intros j k. rewrite !set_state_valid. apply (inv_parent _ Hinv).
Qed.

(** A new inode: fresh, or the clone of a file under another key. *)
Lemma alloc_ok s new st next :
  sb_inv s → sb_heap s !! in_loc new = None → inode_ok new → sb_next_ino s ≤ next →
  in_ino new < next → in_parent new < sb_next_ino s → state_ok s new st →
  in_parent new ≠ in_ino new →
  (∀ j, valid_inode s j → in_ino j = in_ino new → Inode_kind j = File ∧ Inode_kind new = File) →
  (∀ j, valid_inode s j → in_ino j = in_parent new → Inode_kind j = Directory) →
  (∀ j, valid_inode s j → in_parent j = in_ino new → Inode_kind new = Directory) →
  let s' := sb_with_heap (sb_with_next_ino s next) (<[in_loc new := (new, st)]> (sb_heap s)) in
  sb_inv s' ∧ s ⊑s s' ∧ valid_inode s' new.
Proof.
  intros Hinv Hfresh Hnew Hnext Hino Hpar Hst Hself Huniq Hparent Hchild s'.
  assert (s ⊑s s') as Hle.
  { split; [|done]. intros l i sti Hl. simpl. rewrite lookup_insert_ne by congruence. eauto. }
  assert (∀ j, valid_inode s' j → j = new ∨ valid_inode s j) as Hv.
  { intros j [stj Hj]. simpl in Hj. destruct (decide (in_loc new = in_loc j)) as [He|Hne].
    - rewrite He, lookup_insert_eq in Hj. left. by simplify_eq.
    - rewrite lookup_insert_ne in Hj by done. right. by exists stj. }
  split_and!; [|done|exists st; simpl; by rewrite lookup_insert_eq]. split.
  - intros l i sti Hl. simpl in Hl. destruct (decide (in_loc new = l)) as [<-|Hne].
    + rewrite lookup_insert_eq in Hl. simplify_eq. ands; [done|done|simpl; lia|simpl; lia|eauto using state_ok_mono].
    + rewrite lookup_insert_ne in Hl by done. apply (inv_inode _ Hinv) in Hl as (? & ? & ? & ? & ?).
      ands; [done|done|simpl; lia|simpl; lia|eauto using state_ok_mono].
  - intros ino i n Hi. apply (inv_map _ Hinv) in Hi as (? & ? & ?). eauto.
  - intros i j [->|Hi]%Hv [->|Hj]%Hv Heq Hk; [done| | |by apply (inv_unique _ Hinv)].
    + destruct (Huniq j Hj (eq_sym Heq)). congruence.
    + destruct (Huniq i Hi Heq). congruence.
  - intros i j [->|Hi]%Hv [->|Hj]%Hv Heq; [congruence|by apply Hparent|by apply (Hchild i)|by apply (inv_parent _ Hinv i j)].
Qed.

Lemma set_inodes_ok s inodes :
  sb_inv s → (∀ ino i n, inodes !! ino = Some (i, n) → valid_inode s i ∧ in_ino i = ino ∧ 1 ≤ n) →
  sb_inv (sb_with_inodes s inodes) ∧ s ⊑s sb_with_inodes s inodes.
Proof.
  intros Hinv Hmap. assert (s ⊑s sb_with_inodes s inodes) as Hle by by apply sb_same_le. split; [|done]. split.
  - intros l i st Hl. apply (inv_inode _ Hinv) in Hl as (? & ? & ? & ? & ?). ands; eauto using state_ok_mono.
  - intros ino i n Hi. apply Hmap in Hi as (? & ? & ?). eauto.
  - apply (inv_unique _ Hinv).
  - apply (inv_parent _ Hinv).
Qed.

(** ** Rely-guarantee logic *)

Definition uncorrupted (e : InodeError) : Prop := match e with CorruptedMetadata _ => False | _ => True end.

(** S3 lists keys under the prefix that was asked for, and common prefixes that end in a delimiter. *)
Definition listing_ok (list_prefix : str) (r : ListObjectsResult) : Prop :=
  Forall (λ p, ∃ name, p = list_prefix ++ name ++ [delimiter]) (lo_common_prefixes r) ∧
  Forall (λ o, list_prefix `prefix_of` oi_key o) (lo_objects r).

(** Otherwise the environment may answer anything, but does not itself report corrupted inodes. *)
Definition response_ok (c : call) : response c → Prop :=
  match c with
  | ListObjects _ _ list_prefix => λ r, match r with Some r => listing_ok list_prefix r | None => True end
  | WaitForCompletion _ => λ r, match r with inl e => uncorrupted e | inr _ => True end
  | _ => λ _, True
  end.

(** One atomic section: keeps the invariant, extends the state, and its result satisfies [Q]. *)
Definition act_ok {B} (panics : Prop) (act : Superblock → Superblock * outcome InodeError B) s
    (Q : B → Superblock → Prop) : Prop :=
  sb_inv s →
  let '(s', o) := act s in
  sb_inv s' ∧ s ⊑s s' ∧ match o with Ok b => Q b s' | Err e => uncorrupted e | Panic => panics end.

Fixpoint rg {A} (panics : Prop) (p : prog A) s (Q : A → Superblock → Prop) : Prop :=
  match p with
  | Ret a => ∀ s', s ⊑s s' → Q a s'
  | Throw e => uncorrupted e
  | Crash => panics
  | Pause => True
  | Atomic act k =>
      ∀ s0, s ⊑s s0 → sb_inv s0 →
      let '(s', o) := act s0 in
      sb_inv s' ∧ s0 ⊑s s' ∧
      match o with
      | Ok b => rg panics (k (inr b)) s' Q
      | Err e => rg panics (k (inl e)) s' Q
      | Panic => panics
      end
  | Call c k => ∀ r, response_ok c r → rg panics (k r) s Q
  end.

Lemma rg_mono {A} P (p : prog A) s s' Q : s ⊑s s' → rg P p s Q → rg P p s' Q.
Proof.
  revert s s'. induction p as [a|e| | |B act k IH|c k IH]; intros s s' Hle; simpl; [|done|done|done| |].
  - intros HQ s1 ?. apply HQ. by trans s'.
  - intros H s0 Hs0 Hinv. apply H; [by trans s'|done].
  - intros H r Hr. eapply IH; [done|]. by apply H.
Qed.

Lemma rg_bind {A B} P (p : prog A) (f : A → prog B) s (R : A → Superblock → Prop) Q :
  rg P p s R → (∀ a s', s ⊑s s' → R a s' → rg P (f a) s' Q) → rg P (p ≫= f) s Q.
Proof.
  unfold mbind, prog_bind. revert s. induction p as [a|e| | |C act k IH|c k IH]; intros s; simpl; [|done|done|done| |].
  - intros HR Hf. apply Hf; [done|]. by apply HR.
  - intros H Hf s0 Hs0 Hinv. specialize (H s0 Hs0 Hinv). destruct (act s0) as [s' [b|e|]]; simpl in *.
    all: destruct H as (? & ? & H); split_and!; [done..|]; try done.
    all: apply IH; [done|]; intros a s1 ? HR; apply Hf; [by trans s'; [trans s0|]|done].
  - intros H Hf r Hr. apply IH; auto.
Qed.

Lemma rg_conseq {A} P (p : prog A) s (Q Q' : A → Superblock → Prop) :
  rg P p s Q → (∀ a s', s ⊑s s' → Q a s' → Q' a s') → rg P p s Q'.
Proof.
  revert s. induction p as [a|e| | |C act k IH|c k IH]; intros s; simpl; [|done|done|done| |].
  - intros HQ HQQ s' ?. auto.
  - intros H HQQ s0 Hs0 Hinv. specialize (H s0 Hs0 Hinv). destruct (act s0) as [s' [b|e|]]; simpl in *.
    all: destruct H as (? & ? & H); split_and!; [done..|]; try done.
    all: eapply IH; [done|]; intros a s1 ? HR; apply HQQ; [by trans s'; [trans s0|]|done].
  - intros H HQQ r Hr. eapply IH; eauto.
Qed.

(** Nothing but [panics] distinguishes the two readings. *)

Lemma rg_attempt {A} P (p : prog A) s (Q : A → Superblock → Prop) :
  rg P p s Q → rg P (attempt p) s (λ r s', match r with inr a => Q a s' | inl e => uncorrupted e end).
Proof.
  revert s. induction p as [a|e| | |C act k IH|c k IH]; intros s; simpl; [done|done|done|done| |].
  - intros H s0 Hs0 Hinv. specialize (H s0 Hs0 Hinv). destruct (act s0) as [s' [b|e|]]; naive_solver.
  - auto.
Qed.

Lemma rg_on_error {A} P (cleanup : prog unit) (p : prog A) s Q :
  rg P p s Q → (∀ s', s ⊑s s' → rg P cleanup s' (λ _ _, True)) → rg P (on_error cleanup p) s Q.
Proof.
  revert s. induction p as [a|e| | |C act k IH|c k IH]; intros s; simpl; [done| |done|done| |].
  - intros He Hc. eapply (rg_bind P cleanup (λ _, Throw e)); [by apply Hc|]. done.
  - intros H Hc s0 Hs0 Hinv. specialize (H s0 Hs0 Hinv). destruct (act s0) as [s' [b|e|]]; simpl in *.
    all: destruct H as (? & ? & H); split_and!; [done..|]; try done.
    all: apply IH; [done|]; intros s1 ?; apply Hc; by trans s'; [trans s0|].
  - intros H Hc r Hr. apply IH; auto.
Qed.

Lemma rg_atomic {A} P (act : Superblock → Superblock * outcome InodeError A) s (Q : A → Superblock → Prop) :
  (∀ a s1 s2, s1 ⊑s s2 → Q a s1 → Q a s2) → (∀ s0, s ⊑s s0 → act_ok P act s0 Q) → rg P (atomic act) s Q.
Proof.
  intros Hstable Hact s0 Hs0 Hinv. specialize (Hact s0 Hs0 Hinv). destruct (act s0) as [s' [b|e|]]; simpl in *; naive_solver.
Qed.

Lemma rg_ret {A} P (a : A) s (Q : A → Superblock → Prop) :
  (∀ s1 s2, s1 ⊑s s2 → Q a s1 → Q a s2) → Q a s → rg P (mret a) s Q.
Proof. intros Hst HQ s' Hle. eauto. Qed.
Lemma rg_lift {A} P (o : outcome InodeError A) s (Q : A → Superblock → Prop) :
  match o with Ok a => ∀ s', s ⊑s s' → Q a s' | Err e => uncorrupted e | Panic => P end → rg P (lift o) s Q.
Proof. by destruct o. Qed.

Lemma rg_request P c s : rg P (request c) s (λ r _, response_ok c r).
Proof. by intros r Hr s' _. Qed.

(** A step of a handler that only computes an outcome from the state. *)
Lemma act_ok_read {B} P (f : Superblock → outcome InodeError B) s Q :
  (sb_inv s → match f s with Ok b => Q b s | Err e => uncorrupted e | Panic => P end) → act_ok P (λ s, (s, f s)) s Q.
Proof. intros H Hinv. simpl. by split; [|split; [|apply H]]. Qed.
(** One that changes only fields that the invariant does not mention. *)
Lemma act_ok_same {B} P (f : Superblock → Superblock) (b : Superblock → B) s Q :
  sb_heap (f s) = sb_heap s → sb_inodes (f s) = sb_inodes s → sb_next_ino (f s) = sb_next_ino s →
  (∀ x, Q x (f s)) → act_ok P (λ s, (f s, Ok (b s))) s Q.
Proof. intros ??? HQ Hinv. simpl. split; [by eapply sb_inv_same|]. split; [by apply sb_same_le|apply HQ]. Qed.

(** ** Locked access *)

Lemma get_inode_state_spec s i : sb_inv s → valid_inode s i →
  match get_inode_state s i with
  | Ok st => sb_heap s !! in_loc i = Some (i, st) ∧ state_ok s i st ∧ is_deleted st = false
  | Err e => e = InodeDoesNotExist (in_ino i) ∧ ¬ settled s i
  | Panic => False
  end.
Proof.
  intros Hinv [st Hst]. unfold get_inode_state. rewrite Hst. destruct (is_deleted st) eqn:Hd.
  - split; [done|]. intros (st' & Hst' & Hns). simplify_eq. apply (inv_inode _ Hinv) in Hst as (_ & _ & _ & _ & Hok).
    unfold state_ok, is_deleted in *. destruct (st_kind_data st); [done|]. subst. naive_solver.
  - split; [done|]. split; [|done]. by apply (inv_inode _ Hinv) in Hst as (_ & _ & _ & _ & ?).
Qed.

(** Case analysis on the state of a valid inode in [let? s, st := (s, get_inode_state s i) in k]. *)
Ltac open_state Hinv Hi st Hst Hok Hnd :=
  let H := fresh in
  pose proof (get_inode_state_spec _ _ Hinv Hi) as H;
  match type of H with context [get_inode_state ?s ?i] => destruct (get_inode_state s i) as [st| |] end;
  [destruct H as (Hst & Hok & Hnd) | destruct H as [-> _] | done].

(** ** Children *)

Definition named_child s (parent_ino : Z) (name : str) (i : Inode) : Prop :=
  valid_inode s i ∧ inode_ok i ∧ in_parent i = parent_ino ∧ valid_name_str name = true ∧ Inode_name (E:=InodeError) i = Ok name.
Lemma named_child_mono s s' p name i : s ⊑s s' → named_child s p name i → named_child s' p name i.
Proof. intros Hle (? & ? & ?). split; eauto. Qed.

Lemma child_ok_named s p name c : sb_inv s → valid_inode s p → child_ok s p name c → named_child s (in_ino p) name c.
Proof.
  intros Hinv Hp (Hc & Hpar & Hn & kind & Hk). destruct (valid_inode_ok _ _ Hinv Hp) as [Hkey _].
  unfold named_child. ands; [done|by eapply valid_inode_ok|done|done|]. by apply (new_child_spec (in_valid_key p) name kind).
Qed.
Lemma child_ok_ne s p name c : sb_inv s → valid_inode s p → child_ok s p name c → in_loc c ≠ in_loc p.
Proof.
  intros Hinv Hp (Hc & Hpar & Hn & kind & Hk) Heq. destruct (valid_inode_ok _ _ Hinv Hp) as [Hkey _].
  destruct (new_child_spec (E:=False) (in_valid_key p) name kind _ Hkey Hn Hk) as (_ & _ & _ & Hne).
  destruct Hc as [st Hst], Hp as [st' Hst']. rewrite Heq in Hst. simplify_eq.
Qed.

Lemma dir_state s i st : state_ok s i st → Inode_kind i = Directory →
  ∃ children writing_children deleted, st_kind_data st = DirectoryData children writing_children deleted ∧
    (∀ name c, children !! name = Some c → child_ok s i name c) ∧
    st_write_status st ≠ LocalOpenForWriting ∧ (deleted = true → st_write_status st = LocalUnopened).
Proof. unfold state_ok. destruct (st_kind_data st) as [|c w d]; [congruence|]. intros (? & ? & ? & ?) _. by exists c, w, d. Qed.

(** Replacing the stat, the hook or the children of a state keeps it well formed. *)
Lemma set_stat_ok s i st st' :
  sb_inv s → sb_heap s !! in_loc i = Some (i, st) → st_kind_data st' = st_kind_data st →
  st_write_status st' = st_write_status st →
  sb_inv (set_inode_state s i st') ∧ s ⊑s set_inode_state s i st'.
Proof.
  intros Hinv Hl Hk Hs. eapply set_state_ok; [done..| |congruence].
  apply (inv_inode _ Hinv) in Hl as (_ & _ & _ & _ & Hok). unfold state_ok in *. by rewrite Hk, Hs.
Qed.
Lemma set_children_ok s i st children writing_children deleted :
  sb_inv s → sb_heap s !! in_loc i = Some (i, st) → Inode_kind i = Directory →
  (∀ name c, children !! name = Some c → child_ok s i name c) → (deleted = true → st_write_status st = LocalUnopened) →
  let s' := set_inode_state s i (st_with_kind_data st (DirectoryData children writing_children deleted)) in
  sb_inv s' ∧ s ⊑s s'.
Proof.
  intros Hinv Hl Hk Hch Hd s'. eapply set_state_ok; [done..| |done].
  apply (inv_inode _ Hinv) in Hl as (_ & _ & _ & _ & Hok). destruct (dir_state _ _ _ Hok Hk) as (? & ? & ? & _ & _ & ? & _).
  unfold state_ok. simpl. ands; auto.
Qed.
(** File states may take any status; directory states any but [LocalOpenForWriting]. *)
Lemma set_status_ok s i st st' :
  sb_inv s → sb_heap s !! in_loc i = Some (i, st) → is_deleted st = false → st_kind_data st' = st_kind_data st →
  (Inode_kind i = Directory → st_write_status st' ≠ LocalOpenForWriting) →
  (st_write_status st ≠ LocalUnopened → st_write_status st' ≠ LocalUnopened) →
  sb_inv (set_inode_state s i st') ∧ s ⊑s set_inode_state s i st'.
Proof.
  intros Hinv Hl Hnd Hk Hdir Hlu. eapply set_state_ok; [done..| |done].
  apply (inv_inode _ Hinv) in Hl as (_ & _ & _ & _ & Hok). unfold state_ok, is_deleted in *. rewrite Hk.
  destruct (st_kind_data st) as [|c w d]; [done|]. destruct Hok as (? & ? & ? & ?). subst d. ands; auto; done.
Qed.

(** ** Creating an inode *)

Lemma create_inode_locked_ok s parent parent_state name kind state is_new_file :
  sb_inv s → sb_heap s !! in_loc parent = Some (parent, parent_state) → Inode_kind parent = Directory →
  is_deleted parent_state = false → valid_name_str name = true →
  st_kind_data state = InodeKindData_default_for kind → st_write_status state ≠ LocalOpenForWriting →
  ∃ s' i, create_inode_locked prefix parent parent_state name kind state is_new_file s = (s', Ok i) ∧
    sb_inv s' ∧ s ⊑s s' ∧ named_child s' (in_ino parent) name i ∧ in_ino i = sb_next_ino s ∧ Inode_kind i = kind ∧
    sb_heap s !! in_loc i = None ∧ in_loc i ≠ in_loc parent ∧ sb_heap s' !! in_loc i = Some (i, state) ∧
    sb_now s' = sb_now s ∧ sb_inodes s' = sb_inodes s ∧ sb_negative_cache s' = sb_negative_cache s.
Proof.
  intros Hinv Hp Hdir Hnd Hname Hkd Hls. destruct (valid_inode_lookup _ _ _ _ Hinv Hp) as (Hvp & _ & Hpok).
  destruct (valid_inode_ok _ _ Hinv Hvp) as (Hkey & _ & Hpos & _). destruct (valid_inode_bounds _ _ Hinv Hvp) as [Hpb _].
  destruct (dir_state _ _ _ Hpok Hdir) as (ch & w & d & Hk & Hch & Hws & Hd).
  assert (d = false) as -> by (unfold is_deleted in Hnd; by rewrite Hk in Hnd).
  destruct (ValidKey_new_child (in_valid_key parent) name kind) as [key|e|] eqn:Hnew.
  2,3: unfold ValidKey_new_child in Hnew; fold (Inode_kind parent) in Hnew; by rewrite Hdir in Hnew.
  destruct (new_child_spec (E:=InodeError) _ _ _ _ Hkey Hname Hnew) as (Hkey' & Hnm & Hkind & Hne).
  unfold create_inode_locked. rewrite Hnew, Hk. simpl.
  set (loc := fresh (dom (sb_heap s))). set (new := Inode_new loc (sb_next_ino s) (in_ino parent) key prefix).
  assert (sb_heap s !! loc = None) as Hfresh by apply not_elem_of_dom, is_fresh.
  destruct (alloc_ok s new state (sb_next_ino s + 1)) as (Hinv1 & Hle1 & Hnew1); [done|done| |lia|simpl; lia|simpl; lia| | | | | |].
  { unfold inode_ok. simpl. ands; [done|done|lia|lia|]. intros _. right. lia. }
  { unfold state_ok. rewrite Hkd. destruct kind; simpl; [done|]. ands; [done| |done|done]. by intros ?? ?%lookup_empty_Some. }
  { simpl. lia. }
  { intros j Hj Heq. destruct (valid_inode_bounds _ _ Hinv Hj). simpl in Heq. lia. }
  { intros j Hj Heq. simpl in Heq. by rewrite <-(inv_unique _ Hinv parent j Hvp Hj (eq_sym Heq) Hdir). }
  { intros j Hj Heq. destruct (valid_inode_bounds _ _ Hinv Hj). simpl in Heq. lia. }
  set (s1 := sb_with_heap _ _) in *. assert (sb_heap s1 !! in_loc parent = Some (parent, parent_state)) as Hp1.
  { simpl. rewrite lookup_insert_ne; [done|]. intros Heq. simpl in Heq. by rewrite Heq, Hp in Hfresh. }
  assert (child_ok s1 parent name new) as Hnc by (split; [done|]; split; [done|]; split; [done|by exists kind]).
  eexists _, new. split; [done|].
  destruct (set_children_ok s1 parent parent_state (<[name:=new]> ch)
    (match ch !! name with Some existing => (if is_new_file then {[sb_next_ino s]} ∪ w else w) ∖ {[in_ino existing]}
     | None => if is_new_file then {[sb_next_ino s]} ∪ w else w end) false Hinv1 Hp1 Hdir) as [Hinv2 Hle2].
  { intros n c. destruct (decide (n = name)) as [->|Hn]; [rewrite lookup_insert_eq; by intros [= <-]|].
    rewrite lookup_insert_ne by done. intros Hc. eapply child_ok_mono; [done|]. by apply Hch. }
  { done. }
  assert (loc ≠ in_loc parent) as Hlne by (intros Heq; by rewrite Heq, Hp in Hfresh).
  ands; [done|by trans s1| |done|done|done|done| |done|done|done].
  - eapply named_child_mono; [done|]. split; [done|]. split; [exact (valid_inode_ok s1 new Hinv1 Hnew1)|done].
  - simpl. rewrite lookup_alter_ne by done. by rewrite lookup_insert_eq.
Qed.

(** ** The lookup path *)

Lemma verify_inode_valid s i : sb_inv s → valid_inode s i → verify_inode i (in_ino i) prefix = Ok tt.
Proof.
  intros Hinv Hi. destruct (valid_inode_ok _ _ Hinv Hi) as (_ & Hc & _). unfold verify_inode.
  by rewrite Hc, !Z.eqb_refl.
Qed.
Lemma verify_child_named s p name i : named_child s p name i → verify_child i p name prefix = Ok tt.
Proof.
  intros (Hi & (_ & Hc & _) & <- & _ & Hn). unfold verify_child.
  rewrite Hc, !Z.eqb_refl, Hn. simpl. by rewrite bool_decide_eq_true_2.
Qed.

Lemma sb_get_rg P ino s : rg P (sb_get prefix ino) s (λ i s', valid_inode s' i ∧ in_ino i = ino ∧ inode_ok i).
Proof.
  apply rg_atomic; [naive_solver|]. intros s0 _. apply act_ok_read. intros Hinv.
  destruct (sb_inodes s0 !! ino) as [[i n]|] eqn:Hi; [|done].
  apply (inv_map _ Hinv) in Hi as (Hv & <- & _). rewrite (verify_inode_valid _ _ Hinv Hv).
  by split; [|split; [|eapply valid_inode_ok]].
Qed.

Definition looked_up_child (p : Z) (name : str) (l : LookedUpInode) s : Prop := named_child s p name (lu_inode l).
Lemma looked_up_child_mono p name l s s' : s ⊑s s' → looked_up_child p name l s → looked_up_child p name l s'.
Proof. apply named_child_mono. Qed.
#[local] Hint Resolve looked_up_child_mono named_child_mono : core.

Lemma try_update_fast_path_ok P parent name remote s :
  valid_inode s parent → Inode_kind parent = Directory →
  act_ok P (try_update_fast_path parent name remote) s
    (λ r s', match r with Some l => looked_up_child (in_ino parent) name l s' | None => True end).
Proof.
  intros Hp Hdir Hinv. unfold try_update_fast_path. open_state Hinv Hp pst Hpst Hpok Hnd; simpl; [|done].
  destruct (dir_state _ _ _ Hpok Hdir) as (ch & w & d & Hk & Hch & _). unfold children_of. rewrite Hk. simpl.
  destruct remote as [r|], (ch !! name) as [c|] eqn:Hc; simpl; try done.
  pose proof (Hch _ _ Hc) as Hcok. assert (valid_inode s c) as Hvc by apply Hcok.
  open_state Hinv Hvc st Hst Hok Hnd'; simpl; [|done]. case_if Hc1; [|done].
  destruct (set_stat_ok s c st (st_with_stat st (rl_stat r)) Hinv Hst) as [? ?]; [done..|].
  split; [done|]. split; [done|]. apply (looked_up_child_mono _ _ _ s); [done|]. by apply child_ok_named.
Qed.

Lemma update_slow_path_ok P parent name remote s :
  valid_inode s parent → Inode_kind parent = Directory → valid_name_str name = true →
  act_ok P (update_slow_path prefix cfg parent name remote) s (looked_up_child (in_ino parent) name).
Proof.
  intros Hp Hdir Hname Hinv. unfold update_slow_path. open_state Hinv Hp pst Hpst Hpok Hnd; simpl; [|done].
  destruct (dir_state _ _ _ Hpok Hdir) as (ch & w & d & Hk & Hch & Hws & Hd). unfold children_of. rewrite Hk. simpl.
  assert (∀ r, let '(s', o) := (let? s, inode := create_inode_locked prefix parent pst name (rl_kind r)
                         (InodeState_new (rl_stat r) (rl_kind r) Remote) false s in
                (s, Ok {| lu_inode := inode; lu_stat := rl_stat r; lu_write_status := Remote |})) in
    sb_inv s' ∧ s ⊑s s' ∧ match o with Ok b => looked_up_child (in_ino parent) name b s' | Err e => uncorrupted e | Panic => P end) as Hcreate.
  { intros r. destruct (create_inode_locked_ok s parent pst name (rl_kind r) (InodeState_new (rl_stat r) (rl_kind r) Remote) false)
      as (s' & i & -> & ? & ? & ? & _); done. }
  destruct remote as [r|], (ch !! name) as [c|] eqn:Hc; [|apply Hcreate| |done].
  - pose proof (Hch _ _ Hc) as Hcok. assert (valid_inode s c) as Hvc by apply Hcok.
    pose proof (child_ok_ne _ _ _ _ Hinv Hp Hcok) as Hne. pose proof (child_ok_named _ _ _ _ Hinv Hp Hcok) as Hnc.
    open_state Hinv Hvc st Hst Hok Hnd'; simpl; [|done]. case_if Hc1; [done|]. case_if Hc2; [|apply Hcreate].
    case_if Hloc.
    + apply andb_true_iff in Hloc as [Hrd%bool_decide_eq_true _].
      destruct (set_status_ok s c st (st_with_status (st_with_stat st (rl_stat r)) Remote) Hinv Hst Hnd') as [Hinv1 Hle1]; [done..|].
      destruct (set_children_ok (set_inode_state s c (st_with_status (st_with_stat st (rl_stat r)) Remote)) parent pst ch
        (w ∖ {[in_ino c]}) d Hinv1) as [Hinv2 Hle2]; [|done| |done|].
      { simpl. by rewrite lookup_alter_ne. }
      { intros n c' Hc'. eapply child_ok_mono; [done|]. by apply Hch. }
      split; [done|]. split; [by etrans|]. by apply (looked_up_child_mono _ _ _ _ _ (transitivity Hle1 Hle2)).
    + destruct (set_stat_ok s c st (st_with_stat st (rl_stat r)) Hinv Hst) as [? ?]; [done..|].
      split; [done|]. split; [done|]. by eapply looked_up_child_mono.
  - pose proof (Hch _ _ Hc) as Hcok. assert (valid_inode s c) as Hvc by apply Hcok.
    pose proof (child_ok_named _ _ _ _ Hinv Hp Hcok) as Hnc. case_if Hc1.
    + open_state Hinv Hvc st Hst Hok Hnd'; simpl; [|done].
      edestruct (set_stat_ok s c st) as [? ?]; [done|done| | |split; [eassumption|split; [eassumption|by eapply looked_up_child_mono]]]; done.
    + destruct (set_children_ok s parent pst (delete name ch) w d Hinv Hpst Hdir) as [? ?]; [|done|done].
      intros n c' [_ Hc']%lookup_delete_Some. by apply Hch.
Qed.

Lemma update_from_remote_rg P parent_ino name remote s :
  valid_name_str name = true → rg P (update_from_remote prefix cfg parent_ino name remote) s (looked_up_child parent_ino name).
Proof.
  intros Hname. unfold update_from_remote. eapply rg_bind; [apply sb_get_rg|]. intros parent s1 Hs1 (Hp & <- & Hpok).
  case_bool_decide as Hdir; cbn [negb]; [|done]. eapply rg_bind; [apply (rg_atomic P _ _ (λ _ _, True)); [done|]|].
  { intros s2 _. apply (act_ok_same P _ (λ _, tt)); try done; unfold update_negative_cache; by repeat case_match. }
  intros _ s2 Hs2 _. eapply rg_bind; [apply rg_atomic|].
  2: { intros s3 Hs3. apply try_update_fast_path_ok; eauto. }
  { intros [l|] ???; [apply looked_up_child_mono|]; done. }
  intros [l|] s3 Hs3 Hl.
  - apply rg_ret; [intros; by eapply looked_up_child_mono|done].
  - apply rg_atomic; [intros; by eapply looked_up_child_mono|]. intros s4 Hs4. apply update_slow_path_ok; eauto 10.
Qed.

Lemma cache_lookup_rg P parent_ino name s :
  dir_ino s parent_ino →
  rg P (cache_lookup prefix parent_ino name) s
    (λ r s', match r with Some (inr l) => looked_up_child parent_ino name l s' | Some (inl e) => uncorrupted e | None => True end).
Proof.
  intros Hdir. unfold cache_lookup. eapply rg_bind; [apply rg_attempt, sb_get_rg|].
  intros [e|parent] s1 Hs1 Hp; [by apply rg_ret|]. destruct Hp as (Hp & <- & _).
  eapply rg_bind; [apply (rg_atomic P _ _ (λ r s', match r with Some (Some l) => looked_up_child (in_ino parent) name l s' | _ => True end))|].
  { intros [[l|]|] ???; [apply looked_up_child_mono|..]; done. }
  { intros s2 Hs2. apply act_ok_read. intros Hinv. assert (valid_inode s2 parent) as Hp2 by eauto.
    assert (Inode_kind parent = Directory) as Hk by (eapply (dir_ino_valid s2); eauto).
    unfold cache_lookup_children. open_state Hinv Hp2 pst Hpst Hpok Hnd; [|done].
    destruct (dir_state _ _ _ Hpok Hk) as (ch & w & d & -> & Hch & _). destruct (ch !! name) as [c|] eqn:Hc; [|done].
    pose proof (Hch _ _ Hc) as Hcok. assert (valid_inode s2 c) as Hvc by apply Hcok.
    open_state Hinv Hvc st Hst Hok Hnd'; [|done]. case_if Hval; [|done]. by apply child_ok_named. }
  intros [[l|]|] s2 Hs2 Hl; simpl.
  - intros s' ?. by eapply looked_up_child_mono.
  - done.
  - intros s3 Hs3 Hinv3. split; [done|]. split; [done|]. simpl. intros s' ?. by case_if Hneg.
Qed.

Lemma lookup_results_uncorrupted now object_key directory_prefix dir_first head list :
  match lookup_results cfg mount_time now object_key directory_prefix dir_first head list with
  | Ok _ => True | Err e => uncorrupted e | Panic => False
  end.
Proof. unfold lookup_results, on_head, on_list. by repeat (case_match; simplify_eq/=). Qed.

Lemma remote_lookup_rg P parent_ino name s : rg P (remote_lookup prefix cfg mount_time parent_ino name) s (λ _ _, True).
Proof.
  unfold remote_lookup. eapply rg_bind; [apply sb_get_rg|]. intros parent s1 Hs1 (Hp & <- & Hpok).
  eapply rg_bind; [apply (rg_lift P _ _ (λ _ _, True)); unfold ValidKey_new_child; by destruct (ValidKey_kind _)|].
  intros key s2 Hs2 _. eapply (rg_bind P _ _ _ (λ _ _, True)); [by intros r|]. intros [[dir_first head] list] s3 Hs3 _.
  eapply rg_bind; [apply (rg_atomic P _ _ (λ _ _, True)); [done|]; intros; by apply act_ok_read|]. intros now s4 Hs4 _.
  apply rg_lift. pose proof (lookup_results_uncorrupted now (take (length (vk_key key) - 1) (vk_key key)) (vk_key key) dir_first head list) as H.
  by destruct (lookup_results _ _ _ _ _ _ _ _).
Qed.

Lemma parse_name_spec name :
  match parse_name name with Ok n => n = name ∧ valid_name_str name = true | Err e => uncorrupted e | Panic => False end.
Proof. unfold parse_name, ValidName_parse_str. by destruct (valid_name_str name) eqn:Hn. Qed.

Lemma lookup_by_name_rg P parent_ino name allow_cache s :
  (allow_cache = true → dir_ino s parent_ino) →
  rg P (lookup_by_name prefix cfg mount_time parent_ino name allow_cache) s (looked_up_child parent_ino name).
Proof.
  intros Hdir. unfold lookup_by_name. eapply (rg_bind P _ _ _ (λ n _, n = name ∧ valid_name_str name = true)).
  { apply rg_lift. pose proof (parse_name_spec name) as H. by destruct (parse_name name). }
  intros n s1 Hs1 [-> Hname].
  eapply (rg_bind P _ _ _ (λ r s', match r with Some (inr l) => looked_up_child parent_ino name l s' | Some (inl e) => uncorrupted e | None => True end)).
  { destruct allow_cache; [apply cache_lookup_rg; eauto|done]. }
  intros cached s2 Hs2 Hc. eapply (rg_bind P _ _ _ (looked_up_child parent_ino name)).
  { destruct cached as [[e|l]|]; [done|apply rg_ret; [intros; by eapply looked_up_child_mono|done]|].
    eapply rg_bind; [apply remote_lookup_rg|]. intros remote s3 Hs3 _. by apply update_from_remote_rg. }
  intros l s3 Hs3 Hl. rewrite (verify_child_named _ _ _ _ Hl). simpl. intros s' ?. by eapply looked_up_child_mono.
Qed.

(** ** Handlers *)

Definition looked_up_valid (l : LookedUpInode) s : Prop := valid_inode s (lu_inode l).
Lemma looked_up_valid_mono l s s' : s ⊑s s' → looked_up_valid l s → looked_up_valid l s'.
Proof. apply valid_inode_mono. Qed.
#[local] Hint Resolve looked_up_valid_mono : core.

Lemma remember_rg P i s : valid_inode s i → rg P (remember i) s (λ _ _, True).
Proof.
  intros Hi. apply rg_atomic; [done|]. intros s0 Hs0 Hinv. assert (valid_inode s0 i) as Hi0 by eauto.
  destruct (set_inodes_ok s0 (increase_lookup_count (sb_inodes s0) i) Hinv) as [? ?]; [|done].
  intros ino j n. unfold increase_lookup_count. destruct (decide (ino = in_ino i)) as [->|Hne].
  - destruct (sb_inodes s0 !! in_ino i) as [[i' count]|] eqn:Hold; rewrite lookup_insert_eq; intros [= <- <-]; [|done].
    apply (inv_map _ Hinv) in Hold as (? & ? & ?). split_and!; [done..|lia].
  - destruct (sb_inodes s0 !! in_ino i) as [[i' count]|]; rewrite lookup_insert_ne by done; apply (inv_map _ Hinv).
Qed.

Lemma sb_lookup_rg P parent_ino name s :
  dir_ino s parent_ino → rg P (sb_lookup prefix cfg mount_time parent_ino name) s (λ _ _, True).
Proof.
  intros Hdir. eapply rg_bind; [by apply lookup_by_name_rg|]. intros l s1 Hs1 [Hl _].
  eapply rg_bind; [by apply remember_rg|]. done.
Qed.

Lemma getattr_locked_ok P i force s :
  valid_inode s i →
  act_ok P (getattr_locked cfg i force) s (λ r s', match r with Some l => looked_up_valid l s' | None => True end).
Proof.
  intros Hi Hinv. unfold getattr_locked. open_state Hinv Hi st Hst Hok Hnd; simpl; [|done]. case_if Hlocal; [|done].
  set (st' := if has_local_state st then _ else _). assert (st_kind_data st' = st_kind_data st ∧ st_write_status st' = st_write_status st)
    as [? ?] by (unfold st'; by destruct (has_local_state st)).
  destruct (set_stat_ok s i st st' Hinv Hst) as [? ?]; [done..|]. case_if Hval; [|done].
  split; [done|]. split; [done|]. by eapply looked_up_valid_mono.
Qed.

Lemma inode_ok_name {E} i : inode_ok i → ∃ name, Inode_name (E:=E) i = Ok name.
Proof.
  intros (Hkey & _). unfold Inode_name.
  apply key_in_tree_inv in Hkey as [->|(names & n & kind & _ & Hn & ->)]; [by exists []|]. exists n. by apply child_key_name.
Qed.

Lemma getattr_with_inode_rg P ino force s : rg P (getattr_with_inode prefix cfg mount_time ino force) s looked_up_valid.
Proof.
  eapply rg_bind; [apply sb_get_rg|]. intros i s1 Hs1 (Hi & <- & Hiok).
  eapply rg_bind; [apply rg_atomic; [|intros s2 Hs2; apply getattr_locked_ok; eauto]|].
  { intros [l|] ???; [apply looked_up_valid_mono|]; done. }
  intros [l|] s2 Hs2 Hl; [intros s' ?; by eapply looked_up_valid_mono|].
  destruct (inode_ok_name (E:=InodeError) i Hiok) as [name ->].
  change (rg P (lookup_by_name prefix cfg mount_time (in_parent i) name false ≫= λ lookup,
    if negb (in_ino (lu_inode lookup) =? in_ino i)
    then Throw (StaleInode (vk_key (full_key_for_inode prefix (lu_inode lookup))) (Inode_err i) (Inode_err (lu_inode lookup)))
    else mret lookup) s2 looked_up_valid).
  eapply rg_bind; [by apply lookup_by_name_rg|]. intros l s3 Hs3 [Hv _]. case_if Hino; [done|].
  intros s' ?. by eapply looked_up_valid_mono.
Qed.

Lemma sb_getattr_rg P ino force s : rg P (sb_getattr prefix cfg mount_time ino force) s (λ _ _, True).
Proof. eapply rg_bind; [apply getattr_with_inode_rg|]. done. Qed.

Lemma sb_setattr_rg P ino atime mtime s : rg P (sb_setattr prefix cfg ino atime mtime) s (λ _ _, True).
Proof.
  eapply rg_bind; [apply sb_get_rg|]. intros i s1 Hs1 (Hi & <- & _). apply rg_atomic; [done|]. intros s2 Hs2 Hinv.
  assert (valid_inode s2 i) as Hi2 by eauto. open_state Hinv Hi2 st Hst Hok Hnd; simpl; [|done]. case_if Hr; [done|].
  edestruct (set_stat_ok s2 i st) as [? ?]; [done|done| | |split; [eassumption|split; [eassumption|done]]]; done.
Qed.

(** ** [create], [forget], [unlink], [rmdir] *)

Lemma create_locked_ok P parent name kind s :
  valid_inode s parent → valid_name_str name = true →
  act_ok P (create_locked prefix cfg mount_time parent name kind) s (λ r s', valid_inode s' (snd r)).
Proof.
  intros Hp Hname Hinv. unfold create_locked. open_state Hinv Hp pst Hpst Hpok Hnd; simpl; [|done].
  destruct (st_kind_data pst) as [|ch w d] eqn:Hk; [done|]. assert (Inode_kind parent = Directory) as Hdir.
  { unfold state_ok in Hpok. rewrite Hk in Hpok. apply Hpok. }
  destruct (ch !! name) as [c|] eqn:Hc; [done|].
  set (stat := match kind with File => _ | Directory => _ end).
  destruct (create_inode_locked_ok s parent pst name kind (InodeState_new stat kind LocalUnopened) true)
    as (s' & i & -> & ? & ? & [? _] & _); done.
Qed.

Lemma sb_create_rg P dir name kind s :
  dir_ino s dir → rg P (sb_create prefix cfg mount_time dir name kind) s (λ _ _, True).
Proof.
  intros Hdir. eapply rg_bind; [apply rg_attempt; by apply lookup_by_name_rg|].
  intros [e|l] s1 Hs1 He; [|done]. destruct e; try done.
  eapply (rg_bind P _ _ _ (λ n _, valid_name_str n = true)).
  { apply rg_lift. pose proof (parse_name_spec name) as H. destruct (parse_name name); naive_solver. }
  intros n s2 Hs2 Hn. eapply rg_bind; [apply sb_get_rg|]. intros dir_inode s3 Hs3 (Hp & <- & _).
  eapply rg_bind; [apply rg_atomic; [|intros; apply create_locked_ok; eauto]|].
  { intros ????; simpl; eauto. }
  intros [lk i] s4 Hs4 Hi. eapply rg_bind; [by apply remember_rg|]. done.
Qed.

Lemma forget_locked_ok P ino n s : act_ok P (forget_locked ino n) s (λ _ _, True).
Proof.
  intros Hinv. unfold forget_locked, decrease_lookup_count. destruct (sb_inodes s !! ino) as [[i count]|] eqn:Hi; [|done].
  destruct (inv_map _ Hinv _ _ _ Hi) as (Hv & <- & Hcount). cbv zeta. case_if Hz.
  2: { apply Z.eqb_neq in Hz. unfold sat_sub in *. destruct (set_inodes_ok s (<[in_ino i:=(i, Z.max (count - n) 0)]> (sb_inodes s)) Hinv) as [? ?]; [|done].
       intros ino j m [[<- [= <- <-]]|[_ Hj]]%lookup_insert_Some; [split; [done|]; split; [done|lia]|]. by apply (inv_map _ Hinv). }
  destruct (set_inodes_ok s (delete (in_ino i) (sb_inodes s)) Hinv) as [Hinv1 Hle1].
  { intros ino j m [_ Hj]%lookup_delete_Some. by apply (inv_map _ Hinv). }
  set (s1 := sb_with_inodes _ _) in *. destruct (delete (in_ino i) (sb_inodes s) !! in_parent i) as [[parent pc]|] eqn:Hpar; [|done].
  apply lookup_delete_Some in Hpar as [_ Hpar]. destruct (inv_map _ Hinv _ _ _ Hpar) as (Hvp & Hpi & _).
  pose proof (inv_parent _ Hinv i parent Hv Hvp Hpi) as Hdir. assert (valid_inode s1 parent) as [pst Hpst] by eauto.
  unfold get_inode_state_no_check. rewrite Hpst. simpl. destruct (valid_inode_lookup _ _ _ _ Hinv1 Hpst) as (_ & _ & Hpok).
  destruct (dir_state _ _ _ Hpok Hdir) as (ch & w & d & Hk & Hch & Hws & Hd). unfold children_of. rewrite Hk. simpl.
  destruct (inode_ok_name (E:=InodeError) i) as [name ->]; [by eapply valid_inode_ok|]. simpl.
  set (ch' := match ch !! name with Some _ => _ | None => _ end).
  destruct (set_children_ok s1 parent pst ch' (w ∖ {[in_ino i]}) d Hinv1 Hpst Hdir) as [? ?]; [|done|].
  { intros nm c. unfold ch'. destruct (ch !! name) as [c'|]; [|apply Hch]. case_if He; [|apply Hch].
    intros [_ ?]%lookup_delete_Some. by apply Hch. }
  split; [done|]. split; [by trans s1|done].
Qed.

Lemma sb_forget_rg P ino n s : rg P (sb_forget ino n) s (λ _ _, True).
Proof.
  eapply rg_bind; [apply (rg_atomic P _ _ (λ _ _, True)); [done|]; intros; apply forget_locked_ok|].
  intros [i|] s1 Hs1 _; [|done]. apply rg_atomic; [done|]. intros. by apply (act_ok_same P _ (λ _, tt)).
Qed.

Lemma unlink_locked_ok P parent i s :
  valid_inode s parent → valid_inode s i → act_ok P (unlink_locked parent i) s (λ _ _, True).
Proof.
  intros Hp Hi Hinv. unfold unlink_locked. open_state Hinv Hp pst Hpst Hpok Hnd; simpl; [|done].
  destruct (st_kind_data pst) as [|ch w d] eqn:Hk; [done|]. unfold state_ok in Hpok. rewrite Hk in Hpok.
  destruct Hpok as (Hdir & Hch & Hws & Hd).
  destruct (inode_ok_name (E:=InodeError) i) as [name ->]; [by eapply valid_inode_ok|]. simpl.
  destruct (ch !! name) as [c|] eqn:Hc; [|done]. case_if He.
  - destruct (set_children_ok s parent pst (delete name ch) w d Hinv Hpst Hdir) as [? ?]; [|done|done].
    intros n c' [_ Hc']%lookup_delete_Some. by apply Hch.
  - destruct (Hch _ _ Hc) as ([st Hst] & _). unfold get_inode_state_no_check. rewrite Hst. simpl.
    edestruct (set_stat_ok s c st) as [? ?]; [done|done| | |split; [eassumption|split; [eassumption|done]]]; done.
Qed.

Lemma sb_unlink_rg P parent_ino name s :
  dir_ino s parent_ino → rg P (sb_unlink prefix cfg mount_time parent_ino name) s (λ _ _, True).
Proof.
  intros Hdir. eapply rg_bind; [apply sb_get_rg|]. intros parent s1 Hs1 (Hp & <- & _).
  eapply rg_bind; [apply lookup_by_name_rg; eauto|]. intros l s2 Hs2 [Hl _]. cbv zeta. case_if Hk; [done|].
  eapply rg_bind; [apply (rg_atomic P _ _ (λ _ _, True)); [done|]|].
  { intros s3 Hs3. apply act_ok_read. intros Hinv. assert (valid_inode s3 (lu_inode l)) as Hv by eauto.
    open_state Hinv Hv st Hst Hok Hnd; done. }
  intros status s3 Hs3 _. destruct status; try done. eapply rg_bind; [apply rg_request|]. intros deleted s4 Hs4 _.
  destruct deleted; [|done]. apply rg_atomic; [done|]. intros s5 Hs5. assert (s2 ⊑s s5) by (trans s3; [done|]; by trans s4). apply unlink_locked_ok; eauto 10.
Qed.

(** [rmdir] panics when the directory is the destination of a rename that is under way. *)
Lemma rmdir_locked_ok (P : Prop) parent i s :
  P → valid_inode s parent → valid_inode s i → in_loc i ≠ in_loc parent → Inode_kind i = Directory →
  act_ok P (rmdir_locked parent i) s (λ _ _, True).
Proof.
  intros HP Hp Hi Hne Hdir Hinv. unfold rmdir_locked. open_state Hinv Hp pst Hpst Hpok Hnd; simpl; [|done].
  open_state Hinv Hi st Hst Hok Hnd'; simpl; [|done]. destruct (st_write_status st) eqn:Hs; try done.
  destruct (dir_state _ _ _ Hok Hdir) as (ch & w & d & Hk & Hch & Hws & Hd). unfold children_of. rewrite Hk. simpl.
  case_if Hw; [done|]. destruct (set_children_ok s i st ch w true Hinv Hst Hdir Hch) as [Hinv1 Hle1]; [done|].
  set (s1 := set_inode_state s i _) in *. assert (sb_heap s1 !! in_loc parent = Some (parent, pst)) as Hpst1.
  { simpl. by rewrite lookup_alter_ne. }
  destruct (st_kind_data pst) as [|pch pw pd] eqn:Hpk; [done|]. unfold state_ok in Hpok. rewrite Hpk in Hpok.
  destruct Hpok as (Hpdir & Hpch & _ & Hpd).
  destruct (inode_ok_name (E:=InodeError) i (valid_inode_ok s i Hinv Hi)) as [name ->]. simpl.
  destruct (set_children_ok s1 parent pst (delete name pch) (pw ∖ {[in_ino i]}) pd Hinv1 Hpst1 Hpdir) as [? ?]; [|done|].
  { intros n c [_ Hc]%lookup_delete_Some. eapply child_ok_mono; [done|]. by apply Hpch. }
  split; [done|]. split; [by trans s1|done].
Qed.

(** A directory with a name is not its own parent. *)
Lemma named_child_ne s p name i j :
  sb_inv s → named_child s p name i → Inode_kind i = Directory → valid_inode s j → in_ino j = p → in_loc i ≠ in_loc j.
Proof.
  intros Hinv ([st Hst] & (_ & _ & _ & _ & Hr) & Hpar & Hname & Hn) Hdir [st' Hst'] Hj Heq. rewrite Heq in Hst. simplify_eq.
  destruct (Hr Hdir) as [[_ Hroot]|?]; [|lia]. unfold Inode_name in Hn. rewrite Hroot in Hn. injection Hn as <-.
  by vm_compute in Hname.
Qed.

Lemma sb_rmdir_rg (P : Prop) parent_ino name s :
  P → dir_ino s parent_ino → rg P (sb_rmdir prefix cfg mount_time parent_ino name) s (λ _ _, True).
Proof.
  intros HP Hdir. eapply rg_bind; [by apply lookup_by_name_rg|]. intros l s1 Hs1 Hl. cbv zeta.
  case_bool_decide as Hk; [done|]. assert (Inode_kind (lu_inode l) = Directory) as Hdk by (by destruct (Inode_kind (lu_inode l))).
  eapply rg_bind; [apply sb_get_rg|]. intros parent s2 Hs2 (Hp & Hpi & _). apply rg_atomic; [done|]. intros s3 Hs3 Hinv.
  assert (looked_up_child parent_ino name l s3) as Hl3 by eauto using looked_up_child_mono. pose proof Hl3 as [Hv _].
  apply rmdir_locked_ok; [done|eauto|done| |done|done]. by eapply named_child_ne; eauto.
Qed.

(** ** [rename] *)

Lemma try_transition_rg P i s : valid_inode s i → rg P (try_transition i) s (λ _ s', settled s' i).
Proof.
  intros Hi. apply rg_atomic; [eauto|]. intros s0 Hs0 Hinv. assert (valid_inode s0 i) as Hi0 by eauto.
  open_state Hinv Hi0 st Hst Hok Hnd; simpl; [|done]. destruct (st_write_status st) eqn:Hs; try done.
  destruct (set_status_ok s0 i st (st_with_status st PendingRename) Hinv Hst Hnd) as [? ?]; [done..|].
  split; [done|]. split; [done|]. exists (st_with_status st PendingRename). simpl. by rewrite lookup_alter_eq, Hst.
Qed.

Lemma guard_drop_rg P i s : settled s i → rg P (PendingRenameGuard_drop i) s (λ _ _, True).
Proof.
  intros Hset. apply rg_atomic; [done|]. intros s0 Hs0 Hinv. assert (settled s0 i) as Hset0 by eauto.
  assert (valid_inode s0 i) as Hi0 by (destruct Hset0 as (st & ? & _); by exists st).
  pose proof (get_inode_state_spec _ _ Hinv Hi0) as H. destruct (get_inode_state s0 i) as [st|e|]; [|by destruct H|done].
  destruct H as (Hst & Hok & Hnd). case_if Hp; [|done].
  destruct (set_status_ok s0 i st (st_with_status st Remote) Hinv Hst Hnd) as [? ?]; done.
Qed.

Lemma lock_all_spec s l : sb_inv s → Forall (valid_inode s) l →
  match lock_all s l with Ok _ => True | Err e => uncorrupted e | Panic => False end.
Proof.
  intros Hinv. induction 1 as [|i l Hi Hf IH]; simpl; [done|]. open_state Hinv Hi st Hst Hok Hnd; done.
Qed.
Lemma rename_lock_order_valid s inodes i j :
  valid_inode s i → valid_inode s j → Forall (valid_inode s) (rename_lock_order inodes i j).
Proof. intros Hi Hj. unfold rename_lock_order. case_if H1; [auto|]. case_if H2; auto. Qed.

(** The clone of a file under a new key, put into the destination directory. *)
Lemma clone_ok s parent src name key state pst ch w d :
  sb_inv s → sb_heap s !! in_loc parent = Some (parent, pst) → st_kind_data pst = DirectoryData ch w d →
  valid_inode s src → Inode_kind src = File → valid_name_str name = true →
  ValidKey_new_child (in_valid_key parent) name File = Ok key → st_kind_data state = FileData →
  let loc := fresh (dom (sb_heap s)) in
  let new := Inode_new loc (in_ino src) (in_ino parent) key prefix in
  let s1 := sb_with_heap s (<[loc := (new, state)]> (sb_heap s)) in
  let s2 := set_inode_state s1 parent (st_with_kind_data pst (DirectoryData (<[name := new]> ch) w d)) in
  sb_inv s2 ∧ s ⊑s s2 ∧ valid_inode s2 new.
Proof.
  intros Hinv Hp Hk Hsrc Hfile Hname Hkey Hkd loc new s1 s2. destruct (valid_inode_lookup _ _ _ _ Hinv Hp) as (Hvp & _ & Hpok).
  unfold state_ok in Hpok. rewrite Hk in Hpok. destruct Hpok as (Hdir & Hch & Hws & Hd).
  destruct (valid_inode_ok _ _ Hinv Hvp) as (Hpkey & _ & Hpos & _). destruct (valid_inode_ok _ _ Hinv Hsrc) as (_ & _ & Hspos & _).
  destruct (valid_inode_bounds _ _ Hinv Hvp) as [Hpb _]. destruct (valid_inode_bounds _ _ Hinv Hsrc) as [Hsb _].
  destruct (new_child_spec (E:=InodeError) _ _ _ _ Hpkey Hname Hkey) as (Hkey' & _ & Hkind & _).
  assert (sb_heap s !! loc = None) as Hfresh by apply not_elem_of_dom, is_fresh.
  assert (∀ j, valid_inode s j → in_ino j = in_ino src → Inode_kind j = File) as Hall.
  { intros j Hj Heq. destruct (Inode_kind j) eqn:Hjk; [done|]. rewrite <-(inv_unique _ Hinv j src Hj Hsrc Heq Hjk) in Hfile. congruence. }
  assert (Inode_kind new = File) as Hnewk by apply Hkind.
  destruct (alloc_ok s new state (sb_next_ino s)) as (Hinv1 & Hle1 & Hnew1); [done|done| |lia|done|done| | | | | |].
  { unfold inode_ok. ands; [done|done|done|done|]. congruence. }
  { unfold state_ok. by rewrite Hkd. }
  { simpl. intros Heq. rewrite (Hall parent Hvp Heq) in Hdir. done. }
  { intros j Hj Heq. split; [by apply Hall|done]. }
  { intros j Hj Heq. simpl in Heq. by rewrite <-(inv_unique _ Hinv parent j Hvp Hj (eq_sym Heq) Hdir). }
  { intros j Hj Heq. rewrite (inv_parent _ Hinv j src Hj Hsrc (eq_sym Heq)) in Hfile. done. }
  change (sb_inv s1) in Hinv1. change (s ⊑s s1) in Hle1. change (valid_inode s1 new) in Hnew1.
  destruct (set_children_ok s1 parent pst (<[name:=new]> ch) w d Hinv1) as [Hinv2 Hle2]; [|done| |done|].
  { simpl. rewrite lookup_insert_ne; [done|]. intros Heq. by rewrite Heq, Hp in Hfresh. }
  { intros n c [[<- <-]|[_ Hc]]%lookup_insert_Some.
    - split; [done|]. split; [done|]. split; [done|by exists File].
    - eapply child_ok_mono; [done|]. by apply Hch. }
  split; [done|]. split; [by trans s1|]. by eapply valid_inode_mono.
Qed.

Lemma rename_locked_ok P src_parent dst_parent src_inode dest_name dest_key s :
  valid_inode s src_parent → valid_inode s dst_parent → valid_inode s src_inode → Inode_kind src_inode = File →
  valid_name_str dest_name = true → ValidKey_new_child (in_valid_key dst_parent) dest_name File = Ok dest_key →
  act_ok P (rename_locked prefix cfg src_parent dst_parent src_inode dest_name dest_key) s (λ _ _, True).
Proof.
  intros Hsp Hdp Hsi Hfile Hname Hkey Hinv. unfold rename_locked.
  pose proof (lock_all_spec s _ Hinv (rename_lock_order_valid s (sb_inodes s) _ _ Hsp Hdp)) as Hlock.
  destruct (lock_all _ _); simpl; [clear Hlock|done|done].
  open_state Hinv Hsp pst Hpst Hpok Hnd; simpl; [|done]. destruct (st_kind_data pst) as [|ch w d] eqn:Hk; [done|].
  unfold state_ok in Hpok. rewrite Hk in Hpok. destruct Hpok as (Hsdir & Hch & _ & Hd).
  destruct (inode_ok_name (E:=InodeError) src_inode (valid_inode_ok s _ Hinv Hsi)) as [src_name ->]. simpl.
  destruct (set_children_ok s src_parent pst (delete src_name ch) w d Hinv Hpst Hsdir) as [Hinv1 Hle1]; [|done|].
  { intros n c [_ Hc]%lookup_delete_Some. by apply Hch. }
  set (s1 := set_inode_state s src_parent _) in *.
  assert ((if in_ino src_parent =? in_ino dst_parent then src_parent else dst_parent) = dst_parent) as ->.
  { destruct (Z.eqb_spec (in_ino src_parent) (in_ino dst_parent)) as [Heq|]; [|done]. by apply (inv_unique _ Hinv). }
  assert (valid_inode s1 dst_parent) as Hdp1 by eauto. assert (valid_inode s1 src_inode) as [sst Hsst] by eauto.
  open_state Hinv1 Hdp1 dst Hdst Hdok Hdnd; simpl; [|done]. destruct (st_kind_data dst) as [|dch dw dd] eqn:Hdk; [done|].
  unfold get_inode_state_no_check. rewrite Hsst. simpl. unfold try_clone_with_new_key. rewrite Hfile.
  destruct (is_deleted sst); simpl; [done|].
  pose proof (clone_ok s1 dst_parent src_inode dest_name dest_key
    {| st_stat := InodeStat_for_file (stat_size (st_stat sst)) (stat_atime (st_stat sst)) (stat_etag (st_stat sst)) None None (sb_now s) (cc_file_ttl cfg);
       st_write_status := Remote; st_kind_data := FileData; st_pending_upload_hook := None |} dst dch dw dd) as (Hinv3 & Hle3 & Hnew3); try done; eauto.
  set (new := Inode_new _ _ _ _ _) in *. set (s3 := set_inode_state _ dst_parent _) in *.
  destruct (set_inodes_ok s3 (replace_or_insert (sb_inodes s3) (in_ino src_inode) new) Hinv3) as [Hinv4 Hle4].
  { intros ino i n. unfold replace_or_insert.
    destruct (sb_inodes s3 !! in_ino src_inode) as [[o c]|] eqn:Ho; intros [[<- [= <- <-]]|[_ Hi]]%lookup_insert_Some;
      try (by apply (inv_map _ Hinv3)); [|done].
    split; [done|]. split; [done|]. by apply (inv_map _ Hinv3) in Ho as (_ & _ & ?). }
  split; [done|]. split; [|done]. trans s1; [done|]. by trans s3.
Qed.

Lemma rename_remote_rg P src_parent dst_parent src_inode dst_name allow_overwrite s :
  valid_inode s src_parent → valid_inode s dst_parent → valid_inode s src_inode → Inode_kind src_inode = File →
  rg P (rename_remote prefix cfg src_parent dst_parent src_inode dst_name allow_overwrite) s (λ _ _, True).
Proof.
  intros Hsp Hdp Hsi Hfile. unfold rename_remote.
  eapply (rg_bind P _ _ _ (λ n _, valid_name_str n = true)).
  { apply rg_lift. pose proof (parse_name_spec dst_name) as H. destruct (parse_name dst_name); naive_solver. }
  intros name s1 Hs1 Hname.
  eapply (rg_bind P _ _ _ (λ k _, ValidKey_new_child (in_valid_key dst_parent) name File = Ok k)).
  { apply rg_lift. unfold ValidKey_new_child. by destruct (ValidKey_kind _). }
  intros key s2' Hs2' Hkey. eapply rg_bind; [apply rg_request|]. intros r s2 Hs2 _.
  assert (s1 ⊑s s2) by by trans s2'. destruct r; try done.
  - eapply (rg_bind P _ _ _ (λ _ _, True)); [apply rg_atomic; [done|]; intros; apply (act_ok_same P _ (λ _, tt)); try done;
      unfold cache_rename; by destruct (sb_rename_supported _)|]. intros _ s3 Hs3 _.
    eapply (rg_bind P _ _ _ (λ _ _, True)); [apply rg_atomic; [done|]; intros; by apply (act_ok_same P _ (λ _, tt))|].
    intros _ s4 Hs4 _. apply rg_atomic; [done|]. intros s5 Hs5.
    assert (s ⊑s s5) by (trans s1; [done|]; trans s2; [done|]; trans s3; [done|]; by trans s4).
    apply rename_locked_ok; eauto.
  - eapply (rg_bind P _ _ _ (λ _ _, True)); [apply rg_atomic; [done|]; intros; apply (act_ok_same P _ (λ _, tt)); try done;
      unfold cache_rename; by destruct (sb_rename_supported _)|]. done.
Qed.

Lemma sb_rename_rg P src_parent_ino src_name dst_parent_ino dst_name allow_overwrite s :
  dir_ino s src_parent_ino → dir_ino s dst_parent_ino →
  rg P (sb_rename prefix cfg mount_time src_parent_ino src_name dst_parent_ino dst_name allow_overwrite) s (λ _ _, True).
Proof.
  intros Hsd Hdd. eapply (rg_bind P _ _ _ (λ _ _, True)); [apply rg_atomic; [done|]; intros; by apply act_ok_read|].
  intros try_rename s1 Hs1 _. destruct try_rename; cbn [negb]; [|done].
  eapply rg_bind; [apply sb_get_rg|]. intros src_parent s2 Hs2 (Hsp & <- & _).
  eapply rg_bind; [apply sb_get_rg|]. intros dst_parent s3 Hs3 (Hdp & <- & _).
  eapply rg_bind; [apply lookup_by_name_rg; eauto|]. intros src s4 Hs4 [Hsrc _]. cbv zeta.
  case_bool_decide as Hk; [done|]. assert (Inode_kind (lu_inode src) = File) as Hfile by (by destruct (Inode_kind (lu_inode src))).
  eapply rg_bind; [by apply try_transition_rg|]. intros [] s5 Hs5 Hset.
  assert (s1 ⊑s s5 ∧ s2 ⊑s s5 ∧ s3 ⊑s s5) as (Hle1 & Hle2 & Hle3).
  { split_and!; [trans s2; [done|]; trans s3; [done|]|trans s3; [done|]|]; by trans s4. }
  apply rg_on_error; [|intros; apply guard_drop_rg; eauto].
  eapply rg_bind; [apply rg_attempt, lookup_by_name_rg; eauto|]. intros [e|dest] s6 Hs6 Hdest.
  - apply rename_remote_rg; eauto.
  - destruct Hdest as [Hdest _]. case_if How; [done|]. eapply rg_bind; [by apply try_transition_rg|]. intros [] s7 Hs7 Hset7.
    apply rg_on_error; [|intros; apply guard_drop_rg; eauto].
    assert (s5 ⊑s s7) by by trans s6. apply rename_remote_rg; eauto.
Qed.

(** ** Opening, writing and closing files *)

Lemma start_reading_ok P i st fh s :
  sb_heap s !! in_loc i = Some (i, st) → is_deleted st = false → act_ok P (start_reading i st fh) s (λ _ _, True).
Proof.
  intros Hst Hnd Hinv. unfold start_reading.
  assert (let '(s', o) := (let '(handles, added) := try_add_reader (sb_open_handles s) (in_ino i) fh in
      let s := sb_with_handles s handles in
      if negb added then (s, Err (InodeNotReadableWhileWriting (Inode_err i)))
      else
        let locked := if bool_decide (st_write_status st = LocalOpenForWriting) then st_with_status st Remote else st in
        (set_inode_state s i locked, Ok (st_pending_upload_hook locked))) in
    sb_inv s' ∧ s ⊑s s' ∧ match o with Ok _ => True | Err e => uncorrupted e | Panic => P end) as H.
  { destruct (try_add_reader _ _ _) as [handles added]. cbv zeta. set (s1 := sb_with_handles s handles).
    assert (sb_inv s1) as Hinv1 by by apply (sb_inv_same s). assert (s ⊑s s1) as Hle1 by by apply sb_same_le.
    case_if Ha; [done|]. set (st' := if bool_decide _ then _ else _).
    destruct (set_status_ok s1 i st st' Hinv1 Hst Hnd) as [? ?]; unfold st'; [by case_bool_decide|..].
    - intros Hdir. case_bool_decide; [done|]. done.
    - by case_bool_decide.
    - split; [done|]. split; [by trans s1|done]. }
  destruct (st_write_status st); [done|exact H..].
Qed.

Lemma start_writing_ok P i st mode is_truncate fh s :
  sb_heap s !! in_loc i = Some (i, st) → is_deleted st = false → Inode_kind i = File →
  act_ok P (start_writing i st mode is_truncate fh) s (λ _ _, True).
Proof.
  intros Hst Hnd Hfile Hinv. unfold start_writing. destruct (set_writer (sb_open_handles s) (in_ino i) fh) as [handles result].
  set (s1 := sb_with_handles s handles). assert (sb_inv s1) as Hinv1 by by apply (sb_inv_same s).
  assert (s ⊑s s1) as Hle1 by by apply sb_same_le.
  assert (∀ size, let s2 := set_inode_state s1 i (st_with_stat (st_with_status st LocalOpenForWriting) (stat_with_size (st_stat st) size)) in
    sb_inv s2 ∧ s ⊑s s2) as Hset.
  { intros size s2. edestruct (set_status_ok s1 i st) as [H1 H2];
      [done|done|done| | | |split; [exact H1|trans s1; [done|exact H2]]]; [done|congruence|done]. }
  destruct (st_write_status st); [| |case_if Hm; [done|]|]; try done.
  all: try (case_if Hm; [done|]).
  all: destruct result as [[]|[]]; simpl; try done.
  all: split; [apply Hset|]; split; [apply Hset|done].
Qed.

Lemma open_locked_ok P i fh mode write_mode is_truncate s :
  valid_inode s i → Inode_kind i = File → act_ok P (open_locked i fh mode write_mode is_truncate) s (λ _ _, True).
Proof.
  intros Hi Hfile Hinv. unfold open_locked. open_state Hinv Hi st Hst Hok Hnd; simpl; [|done].
  assert (act_ok P (λ s, match mode with ModeRead => start_reading i st fh s
     | ModeWrite => start_writing i st write_mode is_truncate fh s end) s (λ _ _, True)) as H.
  { destruct mode; [by apply start_reading_ok|by apply start_writing_ok]. }
  specialize (H Hinv). revert H. cbv beta. destruct (match mode with ModeRead => _ | ModeWrite => _ end) as [s1 [h|e|]]; simpl; [|done|done].
  intros (Hinv1 & Hle1 & _). assert (valid_inode s1 i) as Hi1 by eauto. open_state Hinv1 Hi1 st1 Hst1 Hok1 Hnd1; done.
Qed.

Lemma sb_open_handle_rg P ino fh write_mode flags s :
  rg P (sb_open_handle prefix cfg mount_time ino fh write_mode flags) s (λ _ _, True).
Proof.
  unfold sb_open_handle. eapply rg_bind; [apply getattr_with_inode_rg|]. intros l s1 Hs1 Hl. cbv zeta.
  case_bool_decide as Hk; [done|]. assert (Inode_kind (lu_inode l) = File) as Hfile by (by destruct (Inode_kind (lu_inode l))).
  case_if Hr; [done|]. eapply (rg_bind P _ _ _ (λ _ _, True)).
  { apply rg_atomic; [done|]. intros s2 Hs2. apply open_locked_ok; [by eapply valid_inode_mono|done]. }
  intros [[hook|] lk] s2 Hs2 _; [|done]. eapply rg_bind; [apply rg_request|]. intros r s3 Hs3 Hr'.
  destruct r as [e|[lk'|]]; [done|done|]. eapply (rg_bind P _ _ _ (λ _ _, True)); [|done]. apply rg_atomic; [done|].
  intros s4 Hs4. apply act_ok_read. intros Hinv4.
  assert (valid_inode s4 (lu_inode l)) as Hv by (eapply valid_inode_mono; [|exact Hl]; trans s2; [done|]; by trans s3).
  open_state Hinv4 Hv st Hst Hok Hnd; done.
Qed.

Lemma sb_inc_file_size_rg P ino len s : rg P (sb_inc_file_size prefix ino len) s (λ _ _, True).
Proof.
  eapply rg_bind; [apply sb_get_rg|]. intros i s1 Hs1 (Hi & <- & _). apply rg_atomic; [done|]. intros s2 Hs2 Hinv.
  assert (valid_inode s2 i) as Hi2 by eauto. open_state Hinv Hi2 st Hst Hok Hnd; simpl; [|done].
  destruct (st_write_status st) eqn:Hs; try done.
  edestruct (set_stat_ok s2 i st) as [? ?]; [done|done| | |split; [eassumption|split; [eassumption|done]]]; done.
Qed.

Definition valid_dir s (i : Inode) : Prop := valid_inode s i ∧ Inode_kind i = Directory.
Lemma valid_dirs_mono s s' l : s ⊑s s' → Forall (valid_dir s) l → Forall (valid_dir s') l.
Proof. intros Hle H. eapply Forall_impl; [|exact H]. intros i [? ?]. split; eauto. Qed.

(** The parent of an inode is a directory. *)
Lemma sb_get_parent_rg P c ino s :
  valid_inode s c → in_parent c = ino →
  rg P (sb_get prefix ino) s (λ i s', valid_dir s' i ∧ in_ino i = ino ∧ inode_ok i).
Proof.
  intros Hc Hpar. apply rg_atomic; [unfold valid_dir; naive_solver|]. intros s0 Hs0. apply act_ok_read. intros Hinv.
  destruct (sb_inodes s0 !! ino) as [[i n]|] eqn:Hi; [|done]. apply (inv_map _ Hinv) in Hi as (Hv & Hino & _). subst ino.
  rewrite <-Hino, (verify_inode_valid _ _ Hinv Hv). split; [|split; [done|by eapply valid_inode_ok]].
  split; [done|]. eapply (inv_parent _ Hinv c i); eauto.
Qed.

Lemma collect_ancestors_rg P fuel c visited s :
  valid_inode s c → 1 ≤ in_parent c → (∀ v, v ∈ visited → in_parent c < v) → (Z.to_nat (in_parent c) < fuel)%nat →
  rg P (collect_ancestors prefix fuel (in_parent c) visited) s (λ l s', Forall (valid_dir s') l).
Proof.
  revert c visited s. induction fuel as [|fuel IH]; intros c visited s Hc Hpos Hvis Hfuel; [lia|]. cbn [collect_ancestors].
  rewrite bool_decide_eq_false_2 by (intros Hin; apply Hvis in Hin; lia).
  eapply rg_bind; [by eapply sb_get_parent_rg|]. intros a s1 Hs1 (Ha & Hino & Haok).
  eapply (rg_bind P _ _ _ (λ b _, b = false → in_ino a ≠ ROOT_INODE_NO)).
  { case_if Hroot; [by apply rg_ret|]. apply Z.eqb_neq in Hroot. apply rg_atomic; [done|]. intros s2 Hs2. apply act_ok_read.
    intros Hinv. destruct Ha as [Hv _]. assert (valid_inode s2 a) as Hv2 by eauto. open_state Hinv Hv2 st Hst Hok Hnd; simpl; auto. }
  intros last s2 Hs2 Hlast. pose proof (valid_dirs_mono s1 s2 [a] Hs2 ltac:(by constructor)) as Ha2.
  destruct last; [intros s' ?; by eapply valid_dirs_mono|].
  destruct Haok as (_ & _ & _ & Hapos & Hadir). destruct Ha as [Hv Hdir]. destruct (Hadir Hdir) as [[Hr _]|Hlt]; [by destruct Hlast|].
  eapply rg_bind; [apply IH; [eauto|done| |lia]|].
  { intros v [->%elem_of_singleton|Hin]%elem_of_union; [lia|]. apply Hvis in Hin. lia. }
  intros rest s3 Hs3 Hrest s' Hs'. apply (valid_dirs_mono s3); [done|]. constructor; [|done]. split; [|done]. eauto.
Qed.

Lemma update_ancestors_ok P ancestors child_ino s :
  Forall (valid_dir s) ancestors → act_ok P (update_ancestors ancestors child_ino) s (λ _ _, True).
Proof.
  intros Hf. revert child_ino s Hf. induction ancestors as [|a rest IH]; intros child_ino s Hf Hinv; [done|].
  apply Forall_cons_1 in Hf as [[Ha Hdir] Hf]. simpl. open_state Hinv Ha st Hst Hok Hnd; simpl; [|done].
  destruct (dir_state _ _ _ Hok Hdir) as (ch & w & d & Hk & Hch & Hws & Hd). unfold children_of. rewrite Hk. simpl.
  assert (d = false) as -> by (unfold is_deleted in Hnd; by rewrite Hk in Hnd).
  set (st' := st_with_status _ Remote).
  destruct (set_state_ok s a st st' Hinv Hst) as [Hinv1 Hle1]; [|done|].
  { unfold state_ok. simpl. ands; done. }
  specialize (IH (in_ino a) _ (valid_dirs_mono _ _ _ Hle1 Hf) Hinv1). destruct (update_ancestors _ _ _) as [s' o].
  destruct IH as (? & ? & ?). split; [done|]. split; [by etrans|done].
Qed.

Lemma finish_writing_locked_ok P i ancestors etag fh s :
  valid_inode s i → Forall (valid_dir s) ancestors →
  act_ok P (finish_writing_locked cfg i ancestors etag fh) s (λ _ _, True).
Proof.
  intros Hi Hf Hinv. unfold finish_writing_locked.
  assert (Forall (valid_inode s) (rev ancestors)) as Hrev.
  { apply Forall_rev. eapply Forall_impl; [|exact Hf]. by intros ? []. }
  pose proof (lock_all_spec s _ Hinv Hrev) as Hlock. destruct (lock_all _ _); simpl; [clear Hlock|done|done].
  open_state Hinv Hi st Hst Hok Hnd; simpl; [|done].
  assert (∀ s1 st', sb_inv s1 → s ⊑s s1 → sb_heap s1 = sb_heap s → st_kind_data st' = st_kind_data st →
      st_write_status st' = Remote ∨ st_write_status st' = st_write_status st → st_write_status st ≠ LocalUnopened →
      let '(s', o) := (let? s, _done := update_ancestors ancestors (in_ino i) (set_inode_state s1 i st') in
                       (s, Ok (Lookup_new i (st_stat st')))) in
      sb_inv s' ∧ s ⊑s s' ∧ match o with Ok _ => True | Err e => uncorrupted e | Panic => P end) as Hrest.
  { intros s1 st' Hinv1 Hle1 Hh Hk Hs Hlu. destruct (set_status_ok s1 i st st' Hinv1) as [Hinv2 Hle2]; [by rewrite Hh|done|done| | |].
    { intros Hdir. destruct (dir_state _ _ _ Hok Hdir) as (_ & _ & _ & _ & _ & ? & _). destruct Hs as [->| ->]; done. }
    { intros _. destruct Hs as [->| ->]; done. }
    pose proof (update_ancestors_ok P ancestors (in_ino i) _ (valid_dirs_mono _ _ _ (transitivity Hle1 Hle2) Hf) Hinv2) as H.
    destruct (update_ancestors _ _ _) as [s3 [[]|e|]]; simpl; destruct H as (? & ? & ?).
    all: split; [done|]; split; [|done]; trans s1; [done|]; by etrans. }
  destruct (st_write_status st) eqn:Hs; try done.
  all: destruct etag as [e|]; [destruct (try_remove_writer _ _ _) as [handles removed]|].
  all: apply Hrest; [by apply (sb_inv_same s)|by apply sb_same_le|done| | |done].
  all: try (by left); try done; destruct removed; simpl; auto.
Qed.

Lemma sb_finish_writing_rg P ino etag fh s : rg P (sb_finish_writing prefix cfg ino etag fh) s (λ _ _, True).
Proof.
  eapply rg_bind; [apply sb_get_rg|]. intros i s1 Hs1 (Hi & <- & (_ & _ & _ & Hpos & _)).
  eapply rg_bind; [apply collect_ancestors_rg; [done|done|set_solver|lia]|]. intros ancestors s2 Hs2 Hf.
  apply rg_atomic; [done|]. intros s3 Hs3. apply finish_writing_locked_ok; [eauto|by eapply valid_dirs_mono].
Qed.

(** Handlers that only touch the table of handles and the hook of a file. *)
Lemma handles_rg {A} P ino s (act : Inode → InodeState → Superblock → Superblock * outcome InodeError A) :
  (∀ i st s', sb_inv s' → sb_heap s' !! in_loc i = Some (i, st) →
     let '(s'', o) := act i st s' in
     sb_inv s'' ∧ s' ⊑s s'' ∧ match o with Ok _ => True | Err e => uncorrupted e | Panic => P end) →
  rg P (inode ← sb_get prefix ino; atomic (λ s, let? s, st := (s, get_inode_state s inode) in act inode st s)) s (λ _ _, True).
Proof.
  intros Hact. eapply rg_bind; [apply sb_get_rg|]. intros i s1 Hs1 (Hi & <- & _). apply rg_atomic; [done|]. intros s2 Hs2 Hinv.
  assert (valid_inode s2 i) as Hi2 by eauto. open_state Hinv Hi2 st Hst Hok Hnd; simpl; [|done]. by apply Hact.
Qed.

Lemma set_hook_ok s i st handles hook :
  sb_inv s → sb_heap s !! in_loc i = Some (i, st) →
  let s' := set_inode_state (sb_with_handles s handles) i (st_with_hook st hook) in sb_inv s' ∧ s ⊑s s'.
Proof.
  intros Hinv Hst s'. assert (sb_inv (sb_with_handles s handles)) as Hinv1 by by apply (sb_inv_same s).
  destruct (set_stat_ok (sb_with_handles s handles) i st (st_with_hook st hook) Hinv1 Hst) as [? Hle]; [done..|].
  split; [done|]. trans (sb_with_handles s handles); [by apply sb_same_le|done].
Qed.

Lemma with_handles_ok s handles : sb_inv s → sb_inv (sb_with_handles s handles) ∧ s ⊑s sb_with_handles s handles.
Proof. intros Hinv. split; [by apply (sb_inv_same s)|by apply sb_same_le]. Qed.

Lemma sb_flush_reader_rg P ino fh s : rg P (sb_flush_reader prefix ino fh) s (λ _ _, True).
Proof. apply handles_rg. intros i st s' Hinv _. edestruct with_handles_ok; [exact Hinv|]. eauto. Qed.
Lemma sb_finish_reading_rg P ino fh s : rg P (sb_finish_reading prefix ino fh) s (λ _ _, True).
Proof. apply handles_rg. intros i st s' Hinv _. edestruct with_handles_ok; [exact Hinv|]. eauto. Qed.

Lemma sb_flush_writer_rg P ino fh hook s : rg P (sb_flush_writer prefix ino fh hook) s (λ _ _, True).
Proof.
  apply handles_rg. intros i st s' Hinv Hst. destruct (st_write_status st); try done.
  destruct (try_deactivate_writer _ _ _) as [handles []]; cbv zeta.
  - destruct (set_hook_ok s' i st handles (Some (default hook (st_pending_upload_hook st))) Hinv Hst). done.
  - destruct (with_handles_ok s' handles Hinv). done.
Qed.

Lemma sb_release_writer_rg P ino fh hook s : rg P (sb_release_writer prefix ino fh hook) s (λ _ _, True).
Proof.
  eapply rg_bind; [apply rg_attempt, sb_flush_writer_rg|]. intros [e|[h|]] s1 Hs1 _; [done| |done].
  eapply rg_bind; [apply rg_request|]. intros [e|r] s2 Hs2 Hr; done.
Qed.

Lemma sb_try_reactivate_handle_rg P ino fh mode s : rg P (sb_try_reactivate_handle prefix ino fh mode) s (λ _ _, True).
Proof.
  apply handles_rg. intros i st s' Hinv Hst. destruct mode.
  - destruct (try_activate_reader _ _ _) as [handles b]. destruct (with_handles_ok s' handles Hinv). done.
  - destruct (try_activate_writer _ _ _) as [handles []]; cbv zeta.
    + destruct (set_hook_ok s' i st handles None Hinv Hst). done.
    + destruct (with_handles_ok s' handles Hinv). done.
Qed.

(** A [Prefix] made by [Prefix::new]. *)
Definition prefix_wf : Prop := Prefix_new (prefix_path prefix) = Ok prefix.

Lemma full_key_dir_kind dir : prefix_wf → Inode_kind dir = Directory → ValidKey_kind (full_key_for_inode prefix dir) = Directory.
Proof.
  unfold prefix_wf, Prefix_new, Inode_kind, ValidKey_kind, ends_with_delimiter. intros Hp Hk. simpl. rewrite last_app.
  destruct (list.last (vk_key (in_valid_key dir))) as [c|] eqn:Hl; [done|].
  destruct (list.last (prefix_path prefix)) as [c|] eqn:Hpl; [|done].
  case_bool_decide as Hnil; [by rewrite Hnil in Hpl|]. destruct (decide (c = delimiter)) as [->|Hc].
  2: { rewrite bool_decide_eq_false_2 in Hp by congruence. done. }
  by rewrite bool_decide_eq_true_2.
Qed.

End invariant.
