(* ===== verification/Readdir.v ===== *)
(** * Directory listing ([src/mountpoint-s3-fs/src/superblock/readdir.rs], and the
      directory handles of [src/mountpoint-s3-fs/src/superblock.rs])

    A listing is a hierarchy of iterators.  [RemoteIter] fetches pages of
    ListObjectsV2; the ordered iterator merges it with a snapshot of the local
    children and drops duplicates, the unordered one returns the remote entries
    first; [ReaddirHandle] skips invalid names and turns entries into inodes; and
    [readdir] fills the kernel's reply buffers and answers repeated requests.

    An iterator operation takes the iterator and returns it next to its
    result, also when the result is an error.  A directory handle is behind an
    asynchronous lock that [readdir] holds until it returns, so a call owns the handle
    and passes it along.  Loops take fuel and [Pause] when it is used up. *)

From S2P Require Import Prelude Checksums NegativeCache Path HandlesMap Inode Superblock SuperblockInv.
From Stdlib Require Import Sorting.Sorted.
From stdpp Require Import sorting.

Local Open Scope Z_scope.

(** ** Order of entries *)

(** [str::cmp]: byte by byte *)
Fixpoint str_compare (a b : str) : comparison :=
  match a, b with
  | [], [] => Eq
  | [], _ :: _ => Lt
  | _ :: _, [] => Gt
  | x :: a, y :: b =>
      match N.compare (Strings.Ascii.N_of_ascii x) (Strings.Ascii.N_of_ascii y) with
      | Eq => str_compare a b
      | c => c
      end
  end.

Inductive ReaddirEntry :=
| RemotePrefix (name : str)
| RemoteObject (name full_key : str) (size last_modified : Z) (storage_class : option string)
    (restore_status : option RestoreStatus) (etag : string)
| LocalInode (lookup : LookedUpInode).

Inductive ReaddirEntryKind := KRemotePrefix | KRemoteObject | KLocalInode.

(** Inodes of the tree always have a name (lemma [inode_ok_name]). *)
Definition ReaddirEntry_name (e : ReaddirEntry) : str :=
  match e with
  | RemotePrefix name => name
  | RemoteObject name _ _ _ _ _ _ => name
  | LocalInode lookup => match Inode_name (E:=InodeError) (lu_inode lookup) with Ok name => name | _ => [] end
  end.
Definition ReaddirEntry_kind (e : ReaddirEntry) : ReaddirEntryKind :=
  match e with
  | RemotePrefix _ => KRemotePrefix
  | RemoteObject _ _ _ _ _ _ _ => KRemoteObject
  | LocalInode _ => KLocalInode
  end.

(** the derived order of [ReaddirEntryKind] *)
Definition kind_rank (k : ReaddirEntryKind) : nat :=
  match k with KRemotePrefix => 0 | KRemoteObject => 1 | KLocalInode => 2 end.
Definition ReaddirEntry_cmp (a b : ReaddirEntry) : comparison :=
  match str_compare (ReaddirEntry_name a) (ReaddirEntry_name b) with
  | Eq => Nat.compare (kind_rank (ReaddirEntry_kind a)) (kind_rank (ReaddirEntry_kind b))
  | c => c
  end.
Definition entry_le (a b : ReaddirEntry) : Prop := ReaddirEntry_cmp a b ≠ Gt.
#[export] Instance comparison_eq_dec : EqDecision comparison.
Proof. solve_decision. Defined.
#[export] Instance entry_le_dec : RelDecision entry_le.
Proof. intros a b. unfold entry_le. apply _. Defined.

(** ** [RemoteIter] *)

Inductive RemoteIterState := InProgress (token : option string) | Finished.

Record RemoteIter := {
  ri_entries : list ReaddirEntry;
  ri_full_path : str;
  ri_page_size : Z;
  ri_state : RemoteIterState;
  ri_ordered : bool;
}.
Definition RemoteIter_new (full_path : str) (page_size : Z) (ordered : bool) : RemoteIter :=
  {| ri_entries := []; ri_full_path := full_path; ri_page_size := page_size; ri_state := InProgress None; ri_ordered := ordered |}.
Definition ri_set (it : RemoteIter) (entries : list ReaddirEntry) (state : RemoteIterState) : RemoteIter :=
  {| ri_entries := entries; ri_full_path := ri_full_path it; ri_page_size := ri_page_size it; ri_state := state;
     ri_ordered := ri_ordered it |}.

(** [&prefix[full_path.len()..prefix.len() - 1]] *)
Definition prefix_entry (full_path prefix : str) : outcome InodeError ReaddirEntry :=
  match prefix with
  | [] => Panic
  | _ => let! name := str_slice prefix (length full_path) (length prefix - 1) in Ok (RemotePrefix name)
  end.
(** [&object_info.key[full_path.len()..]] *)
Definition object_entry (full_path : str) (o : ObjectInfo) : outcome InodeError ReaddirEntry :=
  let! name := str_slice (oi_key o) (length full_path) (length (oi_key o)) in
  Ok (RemoteObject name (oi_key o) (oi_size o) (oi_last_modified o) (oi_storage_class o) (oi_restore_status o) (oi_etag o)).

(** the new entries of a page *)
Definition page_entries (full_path : str) (ordered : bool) (result : ListObjectsResult) : outcome InodeError (list ReaddirEntry) :=
  let! prefixes := outcome_mapM (prefix_entry full_path) (lo_common_prefixes result) in
  let! objects := outcome_mapM (object_entry full_path) (lo_objects result) in
  Ok (if ordered then stable_sort entry_le (prefixes ++ objects) else prefixes ++ objects).

(** [self.entries.pop_front()] *)
Definition RemoteIter_pop (it : RemoteIter) : RemoteIter * (InodeError + option ReaddirEntry) :=
  match ri_entries it with
  | [] => (it, inr None)
  | e :: entries => (ri_set it entries (ri_state it), inr (Some e))
  end.

(** The continuation token is taken out of the state before the request. *)
Definition RemoteIter_next (it : RemoteIter) : prog (RemoteIter * (InodeError + option ReaddirEntry)) :=
  match ri_entries it, ri_state it with
  | [], Finished => mret (it, inr None)
  | [], InProgress continuation_token =>
      answer ← request (ListObjects continuation_token (ri_page_size it) (ri_full_path it));
      match answer with
      | None => mret (ri_set it [] (InProgress None), inl (ClientError "ListObjectsV2 failed" (ri_full_path it)))
      | Some result =>
          let state := match lo_next_continuation_token result with Some token => InProgress (Some token) | None => Finished end in
          new_entries ← lift (page_entries (ri_full_path it) (ri_ordered it) result);
          mret (RemoteIter_pop (ri_set it new_entries state))
      end
  | _ :: _, _ => mret (RemoteIter_pop it)
  end.

(** ** [ordered::ReaddirIter] *)

Record OrderedIter := {
  ord_remote : RemoteIter;
  ord_local : list ReaddirEntry;
  ord_next_remote : option ReaddirEntry;
  ord_next_local : option ReaddirEntry;
  ord_last_entry : option ReaddirEntry;
}.
Definition OrderedIter_new (full_path : str) (page_size : Z) (local_entries : list ReaddirEntry) : OrderedIter :=
  {| ord_remote := RemoteIter_new full_path page_size true; ord_local := local_entries; ord_next_remote := None;
     ord_next_local := None; ord_last_entry := None |}.
Definition ord_set (it : OrderedIter) next_remote next_local last_entry : OrderedIter :=
  {| ord_remote := ord_remote it; ord_local := ord_local it; ord_next_remote := next_remote; ord_next_local := next_local;
     ord_last_entry := last_entry |}.

(** refill the peeks: the remote one can fail, then the local one is left alone *)
Definition ordered_refill_remote (it : OrderedIter) : prog (OrderedIter * (InodeError + unit)) :=
  match ord_next_remote it with
  | Some _ => mret (it, inr tt)
  | None =>
      '(remote, next) ← RemoteIter_next (ord_remote it);
      let with_next n := {| ord_remote := remote; ord_local := ord_local it; ord_next_remote := n;
                            ord_next_local := ord_next_local it; ord_last_entry := ord_last_entry it |} in
      match next with
      | inl e => mret (with_next None, inl e)
      | inr n => mret (with_next n, inr tt)
      end
  end.
Definition ordered_refill_local (it : OrderedIter) : OrderedIter :=
  match ord_next_local it, ord_local it with
  | None, e :: local =>
      {| ord_remote := ord_remote it; ord_local := local; ord_next_remote := ord_next_remote it; ord_next_local := Some e;
         ord_last_entry := ord_last_entry it |}
  | _, _ => it
  end.
(** take the smaller of the two peeks, the remote one when they are equal *)
Definition ordered_take (it : OrderedIter) : OrderedIter * option ReaddirEntry :=
  match ord_next_remote it, ord_next_local it with
  | Some remote, Some local =>
      if decide (entry_le remote local)
      then (ord_set it None (Some local) (ord_last_entry it), Some remote)
      else (ord_set it (Some remote) None (ord_last_entry it), Some local)
  | Some remote, None => (ord_set it None None (ord_last_entry it), Some remote)
  | None, next => (ord_set it None None (ord_last_entry it), next)
  end.

Fixpoint OrderedIter_next (fuel : nat) (it : OrderedIter) : prog (OrderedIter * (InodeError + option ReaddirEntry)) :=
  match fuel with
  | O => Pause
  | S fuel =>
      '(it, refilled) ← ordered_refill_remote it;
      match refilled with
      | inl e => mret (it, inl e)
      | inr _ =>
          let '(it, next) := ordered_take (ordered_refill_local it) in
          let return_entry entry :=
            mret (ord_set it (ord_next_remote it) (ord_next_local it) (Some entry), inr (Some entry)) in
          match next, ord_last_entry it with
          | Some entry, Some last_entry =>
              if bool_decide (ReaddirEntry_name last_entry = ReaddirEntry_name entry) then OrderedIter_next fuel it
              else return_entry entry
          | Some entry, None => return_entry entry
          | None, _ => mret (it, inr None)
          end
      end
  end.

(** ** [unordered::ReaddirIter] *)

Record UnorderedIter := {
  un_remote : RemoteIter;
  un_local : gmap str ReaddirEntry;
  un_local_iter : list ReaddirEntry;
}.
(** collecting into a [HashMap] keeps the last of the entries with the same name *)
Definition UnorderedIter_new (full_path : str) (page_size : Z) (local_entries : list ReaddirEntry) : UnorderedIter :=
  {| un_remote := RemoteIter_new full_path page_size false;
     un_local := foldl (λ m e, <[ReaddirEntry_name e := e]> m) ∅ local_entries;
     un_local_iter := [] |}.

(** [HashMap::drain] yields the entries in an unspecified order, here that of [map_to_list]. *)
Definition UnorderedIter_next (it : UnorderedIter) : prog (UnorderedIter * (InodeError + option ReaddirEntry)) :=
  '(remote, next) ← RemoteIter_next (un_remote it);
  match next with
  | inl e => mret ({| un_remote := remote; un_local := un_local it; un_local_iter := un_local_iter it |}, inl e)
  | inr (Some entry) =>
      mret ({| un_remote := remote; un_local := delete (ReaddirEntry_name entry) (un_local it); un_local_iter := un_local_iter it |},
            inr (Some entry))
  | inr None =>
      let local_iter := un_local_iter it ++ map snd (map_to_list (un_local it)) in
      match local_iter with
      | [] => mret ({| un_remote := remote; un_local := ∅; un_local_iter := [] |}, inr None)
      | entry :: local_iter => mret ({| un_remote := remote; un_local := ∅; un_local_iter := local_iter |}, inr (Some entry))
      end
  end.

(** ** [ReaddirIter] *)

Inductive ReaddirIter := Ordered (it : OrderedIter) | Unordered (it : UnorderedIter).

Definition ReaddirIter_next (fuel : nat) (it : ReaddirIter) : prog (ReaddirIter * (InodeError + option ReaddirEntry)) :=
  match it with
  | Ordered it => '(it, r) ← OrderedIter_next fuel it; mret (Ordered it, r)
  | Unordered it => '(it, r) ← UnorderedIter_next it; mret (Unordered it, r)
  end.

(** ** Handles *)

Record ReaddirHandle := {
  rh_dir_ino : Z;
  rh_parent_ino : Z;
  rh_iter : ReaddirIter;
  rh_readded : option LookedUpInode;
}.
Definition rh_set (h : ReaddirHandle) (iter : ReaddirIter) (readded : option LookedUpInode) : ReaddirHandle :=
  {| rh_dir_ino := rh_dir_ino h; rh_parent_ino := rh_parent_ino h; rh_iter := iter; rh_readded := readded |}.

Definition ReaddirHandle_readd (h : ReaddirHandle) (entry : LookedUpInode) : outcome InodeError ReaddirHandle :=
  match rh_readded h with
  | Some _ => Panic
  | None => Ok (rh_set h (rh_iter h) (Some entry))
  end.

Record DirectoryEntryReaddir := {
  de_lookup : LookedUpInode;
  de_offset : Z;
  de_name : str;
  de_generation : Z;
}.

Record DirHandle := {
  dh_ino : Z;
  dh_handle : ReaddirHandle;
  dh_offset : Z;
  dh_last_response : option (Z * list DirectoryEntryReaddir);
}.
Definition DirHandle_new (ino : Z) (readdir_handle : ReaddirHandle) : DirHandle :=
  {| dh_ino := ino; dh_handle := readdir_handle; dh_offset := 0; dh_last_response := None |}.
Definition dh_with_handle dh handle : DirHandle :=
  {| dh_ino := dh_ino dh; dh_handle := handle; dh_offset := dh_offset dh; dh_last_response := dh_last_response dh |}.
Definition dh_next_offset dh : DirHandle :=
  {| dh_ino := dh_ino dh; dh_handle := dh_handle dh; dh_offset := dh_offset dh + 1; dh_last_response := dh_last_response dh |}.
(** [Reply::finish] *)
Definition dh_finish dh (offset : Z) (entries : list DirectoryEntryReaddir) : DirHandle :=
  {| dh_ino := dh_ino dh; dh_handle := dh_handle dh; dh_offset := dh_offset dh; dh_last_response := Some (offset, entries) |}.
(** the new handle of a rewind, the offset reset and the last response dropped *)
Definition dh_rewind dh handle : DirHandle :=
  {| dh_ino := dh_ino dh; dh_handle := handle; dh_offset := 0; dh_last_response := None |}.

Section readdir.
Context `{crc : Crc32c} (prefix : Prefix) (cfg : CacheConfig) (mount_time : Z) (list_ordered : bool).

Definition local_entry (ino : Z) : prog ReaddirEntry :=
  inode ← sb_get prefix ino;
  atomic (λ s, (s,
    let! st := get_inode_state s inode in
    Ok (LocalInode {| lu_inode := inode; lu_stat := st_stat st; lu_write_status := st_write_status st |}))).

Definition ReaddirHandle_new (dir_ino parent_ino : Z) (full_path : str) (page_size : Z) : prog ReaddirHandle :=
  inode ← sb_get prefix dir_ino;
  writing_children ← atomic (λ s, (s,
    let! st := get_inode_state s inode in
    match st_kind_data st with
    | FileData => Err (NotADirectoryError (Inode_err inode))
    | DirectoryData _ writing_children _ => Ok writing_children
    end));
  local_files ← mapM local_entry (elements writing_children);
  let local_entries := stable_sort entry_le local_files in
  mret {| rh_dir_ino := dir_ino; rh_parent_ino := parent_ino;
          rh_iter := if list_ordered then Ordered (OrderedIter_new full_path page_size local_entries)
                     else Unordered (UnorderedIter_new full_path page_size local_entries);
          rh_readded := None |}.

Definition lookup_from_entry (dir_ino : Z) (entry : ReaddirEntry) (name : str) : prog LookedUpInode :=
  match entry with
  | LocalInode lookup => mret lookup
  | RemotePrefix _ =>
      now ← clock;
      update_from_remote prefix cfg dir_ino name
        (Some {| rl_kind := Directory; rl_stat := InodeStat_for_directory mount_time now (cc_dir_ttl cfg) |})
  | RemoteObject _ _ size last_modified storage_class restore_status etag =>
      now ← clock;
      update_from_remote prefix cfg dir_ino name
        (Some {| rl_kind := File;
                 rl_stat := InodeStat_for_file size last_modified (Some etag) storage_class restore_status now (cc_file_ttl cfg) |})
  end.

(** the loop of [ReaddirHandle::next]: entries with invalid names are skipped *)
Fixpoint handle_next_loop (n fuel : nat) (h : ReaddirHandle) : prog (ReaddirHandle * (InodeError + option LookedUpInode)) :=
  match n with
  | O => Pause
  | S n =>
      '(iter, next) ← ReaddirIter_next fuel (rh_iter h);
      let h := rh_set h iter (rh_readded h) in
      match next with
      | inl e => mret (h, inl e)
      | inr None => mret (h, inr None)
      | inr (Some entry) =>
          let name := ReaddirEntry_name entry in
          if valid_name_str name then
            lookup ← attempt (lookup_from_entry (rh_dir_ino h) entry name);
            mret (h, match lookup with inl e => inl e | inr lookup => inr (Some lookup) end)
          else handle_next_loop n fuel h
      end
  end.
Definition ReaddirHandle_next (fuel : nat) (h : ReaddirHandle) : prog (ReaddirHandle * (InodeError + option LookedUpInode)) :=
  match rh_readded h with
  | Some readded => mret (rh_set h (rh_iter h) None, inr (Some readded))
  | None => handle_next_loop fuel fuel h
  end.

(** ** [readdir]

    [add reply entry] says whether the caller's buffer has room for [entry] after
    the entries [reply] of this call: [EntryAdded] or [ReplyBufferFull]. *)

Abbreviation reply := (list DirectoryEntryReaddir).
Context (add : reply → DirectoryEntryReaddir → bool).

Definition readdir_entry dh (name : str) (lookup : LookedUpInode) : DirectoryEntryReaddir :=
  {| de_lookup := lookup; de_offset := dh_offset dh + 1; de_name := name; de_generation := 0 |}.

(** repeating the last response from [offset] on *)
Fixpoint repeat_entries (is_readdirplus : bool) (entries sent : reply) : prog reply :=
  match entries with
  | [] => mret sent
  | entry :: entries =>
      if add sent entry then
        _ ← (if is_readdirplus && negb (bool_decide (de_name entry = str_of ".")) && negb (bool_decide (de_name entry = str_of ".."))
             then remember (lu_inode (de_lookup entry)) else mret tt);
        repeat_entries is_readdirplus entries (sent ++ [entry])
      else mret sent
  end.

(** the loop over the entries of the stream *)
Fixpoint readdir_loop (n fuel : nat) dh (offset : Z) (is_readdirplus : bool) (sent : reply)
    : prog (DirHandle * reply * (InodeError + unit)) :=
  match n with
  | O => Pause
  | S n =>
      '(handle, next) ← ReaddirHandle_next fuel (dh_handle dh);
      let dh := dh_with_handle dh handle in
      match next with
      | inl e => mret (dh, sent, inl e)
      | inr None => mret (dh_finish dh offset sent, sent, inr tt)
      | inr (Some next) =>
          name ← lift (Inode_name (lu_inode next));
          let entry := readdir_entry dh name next in
          if add sent entry then
            _ ← (if is_readdirplus then remember (lu_inode next) else mret tt);
            readdir_loop n fuel (dh_next_offset dh) offset is_readdirplus (sent ++ [entry])
          else
            handle ← lift (ReaddirHandle_readd handle next);
            mret (dh_finish (dh_with_handle dh handle) offset sent, sent, inr tt)
      end
  end.

(** the entry "." or "..", when it is due *)
Definition readdir_dot (limit : Z) (name : string) (ino : Z) dh (offset : Z) (sent : reply)
    (k : DirHandle → reply → prog (DirHandle * reply * (InodeError + unit))) : prog (DirHandle * reply * (InodeError + unit)) :=
  if dh_offset dh <? limit then
    lookup ← attempt (getattr_with_inode prefix cfg mount_time ino false);
    match lookup with
    | inl e => mret (dh, sent, inl e)
    | inr lookup =>
        let entry := readdir_entry dh (str_of name) lookup in
        if add sent entry then k (dh_next_offset dh) (sent ++ [entry])
        else mret (dh_finish dh offset sent, sent, inr tt)
    end
  else k dh sent.

Definition readdir_stream (n fuel : nat) dh (parent offset : Z) (is_readdirplus : bool) : prog (DirHandle * reply * (InodeError + unit)) :=
  readdir_dot 1 "." parent dh offset [] (λ dh sent,
  readdir_dot 2 ".." (rh_parent_ino (dh_handle dh)) dh offset sent (λ dh sent,
  readdir_loop n fuel dh offset is_readdirplus sent)).

(** a non-zero offset other than the current one: only the last response can be repeated *)
Definition readdir_repeat dh (fh offset : Z) (is_readdirplus : bool) : prog (DirHandle * reply * (InodeError + unit)) :=
  let out_of_order := mret (dh, [], inl (OutOfOrderReadDir (dh_offset dh) offset fh)) in
  match dh_last_response dh with
  | Some (last_offset, entries) =>
      let last_offset := wrap64 last_offset in
      if (last_offset <=? offset) && (offset <? wadd last_offset (zlen entries)) then
        sent ← repeat_entries is_readdirplus (zdrop (offset - last_offset) entries) [];
        mret (dh, sent, inr tt)
      else out_of_order
  | None => out_of_order
  end.

Definition DirHandle_readdir (n fuel : nat) dh (parent fh offset : Z) (is_readdirplus : bool)
    : prog (DirHandle * reply * (InodeError + unit)) :=
  rewound ← (if (offset =? 0) && negb (dh_offset dh =? 0) then
               attempt (dir ← sb_get prefix parent;
                        ReaddirHandle_new (in_ino dir) (in_parent dir) (vk_key (full_key_for_inode prefix dir)) 1000
                          ≫= λ new_handle, mret (dh_rewind dh new_handle))
             else mret (inr dh));
  match rewound with
  | inl e => mret (dh, [], inl e)
  | inr dh =>
      if negb (offset =? dh_offset dh) && (0 <? offset) then readdir_repeat dh fh offset is_readdirplus
      else readdir_stream n fuel dh parent offset is_readdirplus
  end.

(** ** The table of directory handles *)

Record DirHandles := { dhs_handles : gmap Z DirHandle; dhs_next_id : Z }.

Definition new_readdir_handle_with_pagesize (dhs : DirHandles) (dir_ino page_size : Z) : prog (DirHandles * Z) :=
  dir ← sb_get prefix dir_ino;
  if negb (bool_decide (Inode_kind dir = Directory)) then Throw (NotADirectoryError (Inode_err dir))
  else
    let dir_key := full_key_for_inode prefix dir in
    if negb (bool_decide (ValidKey_kind dir_key = Directory)) then Crash
    else
      handle ← ReaddirHandle_new dir_ino (in_parent dir) (vk_key dir_key) page_size;
      let handle_id := dhs_next_id dhs in
      mret ({| dhs_handles := <[handle_id := DirHandle_new (rh_parent_ino handle) handle]> (dhs_handles dhs);
               dhs_next_id := handle_id + 1 |}, handle_id).
Definition new_readdir_handle (dhs : DirHandles) (dir_ino : Z) : prog (DirHandles * Z) :=
  new_readdir_handle_with_pagesize dhs dir_ino 1000.

Definition sb_readdir (n fuel : nat) (dhs : DirHandles) (parent fh offset : Z) (is_readdirplus : bool)
    : prog (DirHandles * reply * (InodeError + unit)) :=
  match dhs_handles dhs !! fh with
  | None => mret (dhs, [], inl (NoSuchDirHandle fh))
  | Some dh =>
      '(dh, sent, r) ← DirHandle_readdir n fuel dh parent fh offset is_readdirplus;
      mret ({| dhs_handles := <[fh := dh]> (dhs_handles dhs); dhs_next_id := dhs_next_id dhs |}, sent, r)
  end.

Definition sb_releasedir (dhs : DirHandles) (fh : Z) : DirHandles * outcome InodeError unit :=
  match dhs_handles dhs !! fh with
  | Some _ => ({| dhs_handles := delete fh (dhs_handles dhs); dhs_next_id := dhs_next_id dhs |}, Ok tt)
  | None => (dhs, Err (NoSuchDirHandle fh))
  end.

End readdir.

(** ** The entries of a page, for a listing that only has keys under the prefix *)

Section page.
Context (p : str).

Definition prefix_name (q : str) : str := take (length q - 1 - length p) (drop (length p) q).
Definition remote_object (o : ObjectInfo) : ReaddirEntry :=
  RemoteObject (drop (length p) (oi_key o)) (oi_key o) (oi_size o) (oi_last_modified o) (oi_storage_class o) (oi_restore_status o) (oi_etag o).
(** the entries of a page *)
Definition page_list (ordered : bool) (r : ListObjectsResult) : list ReaddirEntry :=
  let entries := map (λ q, RemotePrefix (prefix_name q)) (lo_common_prefixes r) ++ map remote_object (lo_objects r) in
  if ordered then stable_sort entry_le entries else entries.

Lemma page_entries_ok ordered r : listing_ok p r → page_entries p ordered r = Ok (page_list ordered r).
Proof.
  intros [Hp Ho]. unfold page_entries. rewrite list.Forall_forall in Hp. rewrite list.Forall_forall in Ho.
  rewrite (outcome_mapM_Ok _ (λ q, RemotePrefix (prefix_name q))).
  - simpl. rewrite (outcome_mapM_Ok _ remote_object); [done|]. intros o Hin. specialize (Ho o Hin). unfold object_entry, str_slice.
    apply prefix_length in Ho. rewrite (proj2 (Nat.leb_le _ _) Ho), Nat.leb_refl. simpl. unfold remote_object.
    by rewrite take_ge by (rewrite length_drop; lia).
  - intros q [n ->]%Hp. unfold prefix_entry, prefix_name, str_slice. destruct (p ++ n ++ [delimiter]) as [|c l] eqn:Hq.
    { by destruct p, n. }
    rewrite <-Hq, !length_app. simpl. rewrite !(proj2 (Nat.leb_le _ _)) by lia. simpl. done.
Qed.

End page.
