(* ===== verification/ReaddirInv.v ===== *)
(** * Directory listing keeps the superblock consistent

    The programs of [Readdir] in the rely-guarantee logic of [SuperblockInv]: the inodes
    that a directory handle holds stay valid, and listing keeps the invariant. *)

From S2P Require Import Prelude Checksums NegativeCache Path HandlesMap Inode Superblock SuperblockInv Readdir.

Local Open Scope Z_scope.

Section readdir_invariant.
Context `{crc : Crc32c} (prefix : Prefix) (cfg : CacheConfig) (mount_time : Z) (list_ordered : bool).
Implicit Types (s : Superblock) (dh : DirHandle).

Definition lookup_ok s (l : LookedUpInode) : Prop := valid_inode s (lu_inode l) ∧ inode_ok prefix (lu_inode l).
Definition entry_ok s (e : ReaddirEntry) : Prop := match e with LocalInode l => lookup_ok s l | _ => True end.
Definition iter_ok s (it : ReaddirIter) : Prop :=
  match it with
  | Ordered it =>
      Forall (entry_ok s) (ri_entries (ord_remote it) ++ option_list (ord_next_remote it) ++ option_list (ord_next_local it) ++ ord_local it)
  | Unordered it =>
      Forall (entry_ok s) (ri_entries (un_remote it) ++ un_local_iter it) ∧ map_Forall (λ _, entry_ok s) (un_local it)
  end.
Definition handle_ok s (h : ReaddirHandle) : Prop :=
  iter_ok s (rh_iter h) ∧ match rh_readded h with Some l => lookup_ok s l | None => True end.
Definition dh_ok s dh : Prop :=
  handle_ok s (dh_handle dh) ∧
  match dh_last_response dh with Some (_, es) => Forall (λ e, valid_inode s (lu_inode (de_lookup e))) es | None => True end.

Lemma lookup_ok_mono s s' l : s ⊑s s' → lookup_ok s l → lookup_ok s' l.
Proof. intros Hle [? ?]. split; eauto. Qed.
Lemma entry_ok_mono s s' e : s ⊑s s' → entry_ok s e → entry_ok s' e.
Proof. destruct e; simpl; eauto using lookup_ok_mono. Qed.
#[local] Hint Resolve lookup_ok_mono entry_ok_mono : core.
Lemma entries_ok_mono s s' es : s ⊑s s' → Forall (entry_ok s) es → Forall (entry_ok s') es.
Proof. intros Hle H. eapply Forall_impl; [|exact H]. eauto. Qed.
Lemma iter_ok_mono s s' it : s ⊑s s' → iter_ok s it → iter_ok s' it.
Proof.
  intros Hle. destruct it; simpl; [by apply entries_ok_mono|]. intros [? Hm]. split; [by eapply entries_ok_mono|].
  intros n e He. eauto.
Qed.
Lemma handle_ok_mono s s' h : s ⊑s s' → handle_ok s h → handle_ok s' h.
Proof. intros Hle [? ?]. split; [by eapply iter_ok_mono|]. destruct (rh_readded h); eauto. Qed.
Lemma dh_ok_mono s s' dh : s ⊑s s' → dh_ok s dh → dh_ok s' dh.
Proof.
  intros Hle [? Hl]. split; [by eapply handle_ok_mono|]. destruct (dh_last_response dh) as [[o es]|]; [|done].
  eapply Forall_impl; [|exact Hl]. simpl. eauto.
Qed.
#[local] Hint Resolve entries_ok_mono iter_ok_mono handle_ok_mono dh_ok_mono : core.

(** ** Iterators *)

(** What an iterator operation returns: an iterator that is still fine, and a valid entry. *)
Definition next_ok {S A} (ok : Superblock → S → Prop) (item : Superblock → A → Prop) (x : S * (InodeError + option A)) s : Prop :=
  ok s x.1 ∧ match x.2 with inl e => uncorrupted e | inr (Some a) => item s a | inr None => True end.
Lemma next_ok_mono {S A} (ok : Superblock → S → Prop) (item : Superblock → A → Prop) x s s' :
  (∀ a, ok s a → ok s' a) → (∀ a, item s a → item s' a) → next_ok ok item x s → next_ok ok item x s'.
Proof. intros Hok Hitem [? ?]. split; [auto|]. destruct x.2 as [e|[a|]]; auto. Qed.

Lemma page_list_remote q ordered r s : Forall (entry_ok s) (page_list q ordered r).
Proof.
  unfold page_list. set (l := _ ++ _). assert (Forall (entry_ok s) l) as Hl.
  { apply Forall_app. split; apply list.Forall_forall; intros e (x & -> & _)%list_elem_of_fmap; done. }
  destruct ordered; [|done]. by rewrite stable_sort_perm.
Qed.

Definition remote_ok s (it : RemoteIter) : Prop := Forall (entry_ok s) (ri_entries it).
Lemma RemoteIter_pop_ok it s : remote_ok s it → next_ok remote_ok entry_ok (RemoteIter_pop it) s.
Proof. unfold RemoteIter_pop, remote_ok, next_ok. destruct (ri_entries it) eqn:He; simpl; rewrite ?He; [done|]. by intros [? ?]%Forall_cons_iff. Qed.
Lemma RemoteIter_next_rg P it s : remote_ok s it → rg prefix P (RemoteIter_next it) s (next_ok remote_ok entry_ok).
Proof.
  intros Hok. assert (∀ x, next_ok remote_ok entry_ok x s → rg prefix P (mret x) s (next_ok remote_ok entry_ok)) as Hret.
  { intros x Hx s' Hle. apply (next_ok_mono _ _ x s); [intros a; by apply entries_ok_mono|eauto|exact Hx]. }
  unfold RemoteIter_next. destruct (ri_entries it) as [|e es] eqn:He; [|by apply Hret, RemoteIter_pop_ok].
  destruct (ri_state it) as [token|]; [|by apply Hret].
  eapply (rg_bind prefix P _ _ _ (λ r _, response_ok (ListObjects token (ri_page_size it) (ri_full_path it)) r)); [by intros r Hr s' _|].
  intros [result|] s1 Hs1 Hres; [|intros s' _; split; [constructor|done]].
  simpl in Hres. rewrite page_entries_ok by done. intros s' _. apply RemoteIter_pop_ok. apply page_list_remote.
Qed.

Lemma OrderedIter_next_rg P fuel it s :
  iter_ok s (Ordered it) → rg prefix P (OrderedIter_next fuel it) s (next_ok (λ s it, iter_ok s (Ordered it)) entry_ok).
Proof.
  revert it s. induction fuel as [|fuel IH]; intros it s Hok; [done|]. simpl OrderedIter_next.
  eapply (rg_bind prefix P _ _ _ (λ x s, iter_ok s (Ordered x.1) ∧ match x.2 with inl e => uncorrupted e | inr _ => True end)).
  { unfold ordered_refill_remote. destruct (ord_next_remote it) as [e|] eqn:Hr.
    { intros s' Hle. split; [|done]. by apply (iter_ok_mono s). }
    simpl in Hok. rewrite Hr in Hok. apply Forall_app in Hok as [Hrem Hloc].
    eapply rg_bind; [by apply RemoteIter_next_rg|]. intros [remote next] s1 Hs1 [Hrem1 Hnext]. simpl in *.
    apply (entries_ok_mono _ _ _ Hs1) in Hloc.
    destruct next as [e|n]; intros s' Hle; (split; [|done]); apply (entries_ok_mono s1); [done| |done|]; simpl.
    - by apply Forall_app.
    - apply Forall_app. split; [done|]. apply Forall_app. split; [|done]. destruct n; simpl; [by repeat constructor|done]. }
  intros [it1 r] s1 Hs1 [Hok1 Hr]. destruct r as [e|u]; [intros s' Hle; split; [by apply (iter_ok_mono s1)|done]|]. simpl in Hok1.
  destruct (ordered_take (ordered_refill_local it1)) as [it2 next] eqn:Htake.
  assert (iter_ok s1 (Ordered it2) ∧ match next with Some e => entry_ok s1 e | None => True end) as [Hok2 Hnext].
  { clear -Hok1 Htake. revert Htake. unfold ordered_take, ordered_refill_local. rewrite !Forall_app in Hok1. destruct Hok1 as (? & ? & ? & ?).
    destruct (ord_next_remote it1) eqn:Hnr, (ord_next_local it1) eqn:Hnl, (ord_local it1) eqn:Hl; simpl; rewrite ?Hnr, ?Hnl, ?Hl; simpl;
      repeat case_decide; intros [= <- <-]; simpl; rewrite ?Hl; simpl in *; rewrite ?Forall_app, ?Forall_cons_iff in *; tauto. }
  assert (∀ e, entry_ok s1 e → rg prefix P (mret (ord_set it2 (ord_next_remote it2) (ord_next_local it2) (Some e), inr (Some e))) s1
    (next_ok (λ s it, iter_ok s (Ordered it)) entry_ok)) as Hret.
  { intros e He s' Hle. split; simpl; [by apply (iter_ok_mono s1 s' (Ordered it2))|eauto]. }
  destruct next as [e|]; [|intros s' Hle; split; [by apply (iter_ok_mono s1 s' (Ordered it2))|done]].
  destruct (ord_last_entry it2) as [last|]; [|by apply Hret]. case_bool_decide; [by apply IH|by apply Hret].
Qed.

Lemma UnorderedIter_next_rg P it s :
  iter_ok s (Unordered it) → rg prefix P (UnorderedIter_next it) s (next_ok (λ s it, iter_ok s (Unordered it)) entry_ok).
Proof.
  intros [Hes Hmap]. apply Forall_app in Hes as [Hrem Hloc]. eapply rg_bind; [by apply RemoteIter_next_rg|].
  intros [remote next] s1 Hs1 [Hrem1 Hnext]. simpl in *. apply (entries_ok_mono _ _ _ Hs1) in Hloc.
  assert (map_Forall (λ _, entry_ok s1) (un_local it)) as Hmap1 by (intros ???; eauto).
  assert (∀ it' r, iter_ok s1 (Unordered it') → match r with inl e => uncorrupted e | inr (Some a) => entry_ok s1 a | inr None => True end →
    rg prefix P (mret (it', r)) s1 (next_ok (λ s it, iter_ok s (Unordered it)) entry_ok)) as Hret.
  { intros it' r Hit Hr s' Hle. split; [by apply (iter_ok_mono s1 s' (Unordered it'))|]. simpl. destruct r as [|[?|]]; eauto. }
  assert (Forall (entry_ok s1) (map snd (map_to_list (un_local it)))) as Hdrain.
  { apply list.Forall_forall. intros e ([n e'] & -> & Hi%elem_of_map_to_list)%list_elem_of_fmap. by apply (Hmap1 n). }
  destruct next as [e|[e|]].
  - apply Hret; [|done]. by split; [apply Forall_app|].
  - apply Hret; [|done]. split; [by apply Forall_app|]. simpl. intros n e' [_ He']%lookup_delete_Some. by apply (Hmap1 n).
  - assert (Forall (entry_ok s1) (un_local_iter it ++ map snd (map_to_list (un_local it)))) as Hall by by apply Forall_app.
    destruct (un_local_iter it ++ _) as [|e l]; apply Hret; try done.
    + split; [by apply Forall_app|apply map_Forall_empty].
    + apply Forall_cons_iff in Hall as [? ?]. split; [by apply Forall_app|apply map_Forall_empty].
    + by apply Forall_cons_iff in Hall as [? ?].
Qed.

Lemma ReaddirIter_next_rg P fuel it s : iter_ok s it → rg prefix P (ReaddirIter_next fuel it) s (next_ok iter_ok entry_ok).
Proof.
  intros Hok. destruct it as [it|it]; simpl; (eapply rg_bind; [first [by apply OrderedIter_next_rg|by apply UnorderedIter_next_rg]|]).
  all: intros [it' r] s1 Hs1 [? ?] s' Hle; (eapply (next_ok_mono _ _ _ s1); [intro; by apply iter_ok_mono|eauto|done]).
Qed.

(** ** Handles *)

Lemma rg_mapM {A B} P (f : A → prog B) l s (Q : Superblock → B → Prop) :
  (∀ a s1 s2, s1 ⊑s s2 → Q s1 a → Q s2 a) → (∀ a s', s ⊑s s' → rg prefix P (f a) s' (λ b s, Q s b)) →
  rg prefix P (mapM f l) s (λ bs s, Forall (Q s) bs).
Proof.
  intros Hst. revert s. induction l as [|a l IH]; intros s Hf; [intros s' _; constructor|].
  eapply rg_bind; [by apply Hf|]. intros b s1 Hs1 Hb. eapply rg_bind; [apply IH; intros; apply Hf; by trans s1|].
  intros bs s2 Hs2 Hbs s' Hle. constructor; [by eapply Hst, Hst|]. eapply Forall_impl; [|exact Hbs]. eauto.
Qed.

Lemma local_entry_rg P ino s : rg prefix P (local_entry prefix ino) s (λ e s, entry_ok s e).
Proof.
  eapply rg_bind; [apply sb_get_rg|]. intros i s1 Hs1 (Hi & _ & Hiok). apply rg_atomic; [eauto|]. intros s2 Hs2.
  apply act_ok_read. intros Hinv. assert (valid_inode s2 i) as Hi2 by eauto.
  pose proof (get_inode_state_spec prefix s2 i Hinv Hi2) as H. destruct (get_inode_state s2 i) as [st|e|]; simpl; [by split|by destruct H as [-> _]|done].
Qed.

Lemma ReaddirHandle_new_rg P dir_ino parent_ino full_path page_size s :
  rg prefix P (ReaddirHandle_new prefix list_ordered dir_ino parent_ino full_path page_size) s (λ h s, handle_ok s h).
Proof.
  eapply rg_bind; [apply sb_get_rg|]. intros i s1 Hs1 (Hi & _ & Hiok).
  eapply (rg_bind prefix P _ _ _ (λ _ _, True)).
  { apply rg_atomic; [done|]. intros s2 Hs2. apply act_ok_read. intros Hinv. assert (valid_inode s2 i) as Hi2 by eauto.
    pose proof (get_inode_state_spec prefix s2 i Hinv Hi2) as H. destruct (get_inode_state s2 i) as [st|e|]; simpl; [|by destruct H as [-> _]|done].
    by destruct (st_kind_data st). }
  intros w s2 Hs2 _. eapply rg_bind; [apply (rg_mapM P _ _ _ entry_ok); [eauto|intros; apply local_entry_rg]|].
  intros l s3 Hs3 Hl s' Hle. split; [|done]. simpl. apply (entries_ok_mono _ s') in Hl; [|done].
  assert (Forall (entry_ok s') (stable_sort entry_le l)) as Hsorted by by rewrite stable_sort_perm.
  destruct list_ordered; [done|]. split; [done|]. simpl. clear -Hsorted. revert Hsorted. generalize (stable_sort entry_le l). intros es.
  assert (map_Forall (λ _ : str, entry_ok s') ∅) as Hm by apply map_Forall_empty. revert Hm. generalize (∅ : gmap str ReaddirEntry).
  induction es as [|e es IH]; intros m Hm; simpl; [done|]. intros [? ?]%Forall_cons_iff. apply IH; [|done].
  by apply map_Forall_insert_2.
Qed.

Lemma lookup_from_entry_rg P dir_ino e name s :
  entry_ok s e → valid_name_str name = true →
  rg prefix P (lookup_from_entry prefix cfg mount_time dir_ino e name) s (λ l s, lookup_ok s l).
Proof.
  intros He Hn. assert (∀ r s', rg prefix P (update_from_remote prefix cfg dir_ino name r) s' (λ l s, lookup_ok s l)) as Hupd.
  { intros r s'. eapply rg_conseq; [by apply update_from_remote_rg|]. intros l s2 _ (? & ? & _). by split. }
  destruct e as [n|n k z m c rs etag|l]; cbn [lookup_from_entry]; [| |intros s' Hle; eauto].
  all: eapply (rg_bind prefix P _ _ _ (λ _ _, True)); [apply rg_atomic; [done|]; intros; by apply act_ok_read|intros; apply Hupd].
Qed.

Lemma handle_next_loop_rg P n fuel h s :
  handle_ok s h → rg prefix P (handle_next_loop prefix cfg mount_time n fuel h) s
    (λ x s, next_ok handle_ok lookup_ok x s ∧ rh_readded x.1 = rh_readded h).
Proof.
  revert h s. induction n as [|n IH]; intros h s [Hit Hre]; [done|]. simpl.
  eapply rg_bind; [by apply ReaddirIter_next_rg|]. intros [it next] s1 Hs1 [Hit1 Hnext]. simpl in *.
  assert (handle_ok s1 (rh_set h it (rh_readded h))) as Hh1.
  { split; [done|]. simpl. destruct (rh_readded h); eauto. }
  destruct next as [e|[e|]]; [intros s' ?; split; [|done]; split; [by eapply handle_ok_mono|done]| |
    intros s' ?; split; [|done]; split; [by eapply handle_ok_mono|done]].
  destruct (valid_name_str _) eqn:Hn; [|eapply rg_conseq; [by apply IH|done]].
  eapply rg_bind; [by apply rg_attempt, lookup_from_entry_rg|]. intros [e'|l] s2 Hs2 Hl s' Hle; (split; [|done]).
  all: split; simpl; [eapply handle_ok_mono; [by trans s2|done]|eauto].
Qed.
Lemma ReaddirHandle_next_rg P fuel h s :
  handle_ok s h → rg prefix P (ReaddirHandle_next prefix cfg mount_time fuel h) s
    (λ x s, next_ok handle_ok lookup_ok x s ∧ rh_readded x.1 = None).
Proof.
  intros Hh. unfold ReaddirHandle_next. destruct (rh_readded h) as [l|] eqn:Hr.
  - intros s' Hle. split; [|done]. destruct Hh as [Hit Hl]. rewrite Hr in Hl. split; simpl; [split; [by eapply iter_ok_mono|done]|eauto].
  - eapply rg_conseq; [by apply handle_next_loop_rg|]. intros x s' _. by rewrite Hr.
Qed.

(** ** [readdir] *)

Context (add : list DirectoryEntryReaddir → DirectoryEntryReaddir → bool).

Definition sent_ok s (es : list DirectoryEntryReaddir) : Prop := Forall (λ e, valid_inode s (lu_inode (de_lookup e))) es.
Lemma sent_ok_mono s s' es : s ⊑s s' → sent_ok s es → sent_ok s' es.
Proof. intros Hle H. eapply Forall_impl; [|exact H]. simpl. eauto. Qed.
#[local] Hint Resolve sent_ok_mono : core.

(** What a call returns: a handle that is still fine, entries with valid inodes, and no report of corruption. *)
Definition readdir_ok (x : DirHandle * list DirectoryEntryReaddir * (InodeError + unit)) s : Prop :=
  dh_ok s x.1.1 ∧ sent_ok s x.1.2 ∧ match x.2 with inl e => uncorrupted e | inr _ => True end.
Lemma readdir_ret P dh sent r s :
  dh_ok s dh → sent_ok s sent → match r with inl e => uncorrupted e | inr _ => True end →
  rg prefix P (mret (dh, sent, r)) s readdir_ok.
Proof. intros ??? s' Hle. split; simpl; eauto. Qed.
Lemma dh_finish_ok dh offset sent s : handle_ok s (dh_handle dh) → sent_ok s sent → dh_ok s (dh_finish dh offset sent).
Proof. done. Qed.

Lemma remember_if_rg P b i s : valid_inode s i → rg prefix P (if b : bool then remember i else mret tt) s (λ _ _, True).
Proof. intros Hi. destruct b; [by apply remember_rg|done]. Qed.

Lemma readdir_loop_rg P n fuel dh offset plus sent s :
  dh_ok s dh → sent_ok s sent → rg prefix P (readdir_loop prefix cfg mount_time add n fuel dh offset plus sent) s readdir_ok.
Proof.
  revert dh sent s. induction n as [|n IH]; intros dh sent s [Hh Hlast] Hsent; [done|]. simpl.
  eapply rg_bind; [by apply ReaddirHandle_next_rg|]. intros [h next] s1 Hs1 [[Hh1 Hnext] Hre]. simpl in *.
  assert (dh_ok s1 (dh_with_handle dh h)) as Hdh1.
  { split; [done|]. simpl. destruct (dh_last_response dh) as [[o es]|]; [|done]. by apply (sent_ok_mono s). }
  apply (sent_ok_mono s s1) in Hsent; [|done].
  destruct next as [e|[l|]]; [by apply readdir_ret| |by apply readdir_ret].
  destruct Hnext as [Hl Hlok]. destruct (inode_ok_name prefix (E:=InodeError) _ Hlok) as [name ->]. cbn [lift].
  change (rg prefix P (let entry := readdir_entry (dh_with_handle dh h) name l in
    if add sent entry then
      _ ← (if plus then remember (lu_inode l) else mret tt);
      readdir_loop prefix cfg mount_time add n fuel (dh_next_offset (dh_with_handle dh h)) offset plus (sent ++ [entry])
    else handle ← lift (ReaddirHandle_readd h l); mret (dh_finish (dh_with_handle (dh_with_handle dh h) handle) offset sent, sent, inr tt)) s1 readdir_ok).
  cbv zeta. destruct (add sent _).
  - eapply rg_bind; [by apply remember_if_rg|]. intros _ s2 Hs2 _. apply IH; [by apply (dh_ok_mono s1)|].
    apply Forall_app. split; [by apply (sent_ok_mono s1)|]. repeat constructor. eauto.
  - unfold ReaddirHandle_readd. rewrite Hre. apply readdir_ret; [|done|done]. apply dh_finish_ok; [|done]. by split; [apply Hh1|].
Qed.

Lemma readdir_dot_rg P limit dot ino dh offset sent k s :
  dh_ok s dh → sent_ok s sent →
  (∀ dh sent s', s ⊑s s' → dh_ok s' dh → sent_ok s' sent → rg prefix P (k dh sent) s' readdir_ok) →
  rg prefix P (readdir_dot prefix cfg mount_time add limit dot ino dh offset sent k) s readdir_ok.
Proof.
  intros Hdh Hsent Hk. unfold readdir_dot. destruct (dh_offset dh <? limit); [|by apply Hk].
  eapply rg_bind; [apply rg_attempt, getattr_with_inode_rg|]. intros [e|l] s1 Hs1 Hl.
  - apply readdir_ret; eauto.
  - assert (dh_ok s1 dh) as [? ?] by eauto. destruct (add sent _); [|apply readdir_ret; eauto; by apply dh_finish_ok; eauto].
    apply Hk; [done|done|]. apply Forall_app. split; [by apply (sent_ok_mono s)|]. by repeat constructor.
Qed.

Lemma repeat_entries_rg P plus es sent s :
  sent_ok s es → sent_ok s sent → rg prefix P (repeat_entries add plus es sent) s (λ r s, sent_ok s r).
Proof.
  revert sent s. induction es as [|e es IH]; intros sent s Hes Hsent; simpl; [intros s' Hle; eauto|].
  apply Forall_cons_iff in Hes as [He Hes]. destruct (add sent e); [|intros s' Hle; eauto].
  eapply rg_bind; [by apply remember_if_rg|]. intros _ s1 Hs1 _. apply IH; [by apply (sent_ok_mono s)|].
  apply Forall_app. split; [by apply (sent_ok_mono s)|]. repeat constructor. eauto.
Qed.

Lemma DirHandle_readdir_rg P n fuel dh parent fh offset plus s :
  dh_ok s dh → rg prefix P (DirHandle_readdir prefix cfg mount_time list_ordered add n fuel dh parent fh offset plus) s readdir_ok.
Proof.
  intros Hdh. unfold DirHandle_readdir.
  eapply (rg_bind prefix P _ _ _ (λ r s', match r with inl e => uncorrupted e | inr dh => dh_ok s' dh end)).
  { destruct (_ && _); [|intros s' Hle; eauto]. apply rg_attempt. eapply rg_bind; [apply sb_get_rg|]. intros i s1 Hs1 _.
    eapply rg_bind; [apply ReaddirHandle_new_rg|]. intros h s2 Hs2 Hh s' Hle. split; [by apply (handle_ok_mono s2)|done]. }
  intros [e|dh1] s1 Hs1 Hdh1; [apply readdir_ret; [by apply (dh_ok_mono s)|constructor|done]|]. destruct (_ && _).
  - unfold readdir_repeat. destruct (dh_last_response dh1) as [[last es]|] eqn:Hlast; [|by apply readdir_ret; [|constructor|]].
    destruct (_ && _); [|by apply readdir_ret; [|constructor|]].
    eapply rg_bind; [apply repeat_entries_rg; [|constructor]|].
    { destruct Hdh1 as [_ H]. rewrite Hlast in H. by apply Forall_drop. }
    intros sent s2 Hs2 Hsent. apply readdir_ret; [by apply (dh_ok_mono s1)|done|done].
  - apply readdir_dot_rg; [done|constructor|]. intros dh2 sent2 s2 Hs2 Hdh2 Hsent2. apply readdir_dot_rg; [done|done|].
    intros dh3 sent3 s3 Hs3 Hdh3 Hsent3. by apply readdir_loop_rg.
Qed.

(** Opening a directory. *)
Lemma opendir_rg P dhs dir_ino page_size s :
  prefix_wf prefix →
  rg prefix P (new_readdir_handle_with_pagesize prefix list_ordered dhs dir_ino page_size) s
    (λ x s, ∃ dh, dhs_handles x.1 !! x.2 = Some dh ∧ dh_ok s dh ∧ dh_offset dh = 0).
Proof.
  intros Hpre. eapply rg_bind; [apply sb_get_rg|]. intros i s1 Hs1 (Hi & <- & Hiok). case_bool_decide as Hdir; cbn [negb]; [|done].
  rewrite bool_decide_eq_true_2 by by apply full_key_dir_kind. cbn [negb].
  eapply rg_bind; [apply ReaddirHandle_new_rg|]. intros h s2 Hs2 Hh s' Hle. eexists. simpl. rewrite lookup_insert_eq. split; [done|].
  split; [|done]. split; [by apply (handle_ok_mono s2)|done].
Qed.

End readdir_invariant.
