(* ===== verification/SuperblockConc.v ===== *)
(** * Handlers of the superblock running at the same time

    A pool of handlers whose atomic sections interleave, with S3 answering between
    them and the clock advancing; the invariant of [SuperblockInv] holds throughout. *)

From S2P Require Import Prelude Checksums NegativeCache Path HandlesMap Inode Superblock SuperblockInv Readdir ReaddirInv.

Local Open Scope Z_scope.

Section concurrency.
Context `{crc : Crc32c} (prefix : Prefix) (cfg : CacheConfig) (mount_time : Z) (list_ordered : bool).
Implicit Types s : Superblock.

(** ** Interleavings of handlers *)

Inductive handler :=
| HLookup (parent_ino : Z) (name : str)
| HGetattr (ino : Z) (force : bool)
| HSetattr (ino : Z) (atime mtime : option Z)
| HCreate (dir : Z) (name : str) (kind : InodeKind)
| HForget (ino n : Z)
| HUnlink (parent_ino : Z) (name : str)
| HRmdir (parent_ino : Z) (name : str)
| HRename (src_parent : Z) (src_name : str) (dst_parent : Z) (dst_name : str) (allow_overwrite : bool)
| HOpen (ino fh : Z) (write_mode : WriteMode) (flags : OpenFlags)
| HIncFileSize (ino len : Z)
| HFinishWriting (ino : Z) (etag : option string) (fh : Z)
| HFlushReader (ino fh : Z)
| HFlushWriter (ino fh : Z) (hook : nat)
| HFinishReading (ino fh : Z)
| HReleaseWriter (ino fh : Z) (hook : nat)
| HReactivate (ino fh : Z) (mode : ReadWriteMode)
| HOpendir (dhs : DirHandles) (dir_ino page_size : Z)
| HReaddir (add : list DirectoryEntryReaddir → DirectoryEntryReaddir → bool) (n fuel : nat) (dh : DirHandle)
    (parent fh offset : Z) (is_readdirplus : bool).

Definition ignore {A} (p : prog A) : prog unit := p ≫= λ _, mret tt.
Definition handler_prog (h : handler) : prog unit :=
  match h with
  | HLookup p n => ignore (sb_lookup prefix cfg mount_time p n)
  | HGetattr ino force => ignore (sb_getattr prefix cfg mount_time ino force)
  | HSetattr ino atime mtime => ignore (sb_setattr prefix cfg ino atime mtime)
  | HCreate dir n kind => ignore (sb_create prefix cfg mount_time dir n kind)
  | HForget ino n => sb_forget ino n
  | HUnlink p n => sb_unlink prefix cfg mount_time p n
  | HRmdir p n => sb_rmdir prefix cfg mount_time p n
  | HRename sp sn dp dn ow => sb_rename prefix cfg mount_time sp sn dp dn ow
  | HOpen ino fh wm flags => ignore (sb_open_handle prefix cfg mount_time ino fh wm flags)
  | HIncFileSize ino len => ignore (sb_inc_file_size prefix ino len)
  | HFinishWriting ino etag fh => ignore (sb_finish_writing prefix cfg ino etag fh)
  | HFlushReader ino fh => sb_flush_reader prefix ino fh
  | HFlushWriter ino fh hook => ignore (sb_flush_writer prefix ino fh hook)
  | HFinishReading ino fh => sb_finish_reading prefix ino fh
  | HReleaseWriter ino fh hook => sb_release_writer prefix ino fh hook
  | HReactivate ino fh mode => ignore (sb_try_reactivate_handle prefix ino fh mode)
  | HOpendir dhs dir_ino page_size => ignore (new_readdir_handle_with_pagesize prefix list_ordered dhs dir_ino page_size)
  | HReaddir add n fuel dh parent fh offset plus =>
      ignore (DirHandle_readdir prefix cfg mount_time list_ordered add n fuel dh parent fh offset plus)
  end.

(** The kernel only passes directories as parents; a directory handle holds inodes of the superblock. *)
Definition handler_args_ok s (h : handler) : Prop :=
  match h with
  | HLookup p _ | HCreate p _ _ | HUnlink p _ | HRmdir p _ => dir_ino s p
  | HRename sp _ dp _ _ => dir_ino s sp ∧ dir_ino s dp
  | HReaddir _ _ _ dh _ _ _ _ => dh_ok prefix s dh
  | _ => True
  end.
Definition is_rmdir (h : handler) : Prop := match h with HRmdir _ _ => True | _ => False end.

Abbreviation system := (Superblock * list (handler * prog unit))%type.

(** No handler has panicked.  A handler that panics does so under the locks of the inodes that it works on; they are poisoned,
    and every handler that takes one of them later panics too.  A run is followed up to its first panic. *)
Definition crashed (t : handler * prog unit) : bool := match t.2 with Crash => true | _ => false end.
Definition running (ts : list (handler * prog unit)) : Prop := existsb crashed ts = false.

(** A handler arrives, the clock advances, a handler performs its next atomic
    section, or the answer to its pending call arrives. *)
Inductive sys_step : system → system → Prop :=
| sys_arrive s ts h : running ts → handler_args_ok s h → sys_step (s, ts) (s, ts ++ [(h, handler_prog h)])
| sys_tick s ts now : running ts → sb_now s ≤ now → sys_step (s, ts) (sb_with_now s now, ts)
| sys_atomic s ts (t : nat) h B (act : Superblock → Superblock * outcome InodeError B) (k : InodeError + B → prog unit) s' o :
    running ts → ts !! t = Some (h, Atomic act k) → act s = (s', o) →
    sys_step (s, ts) (s', <[t := (h, match o with Ok b => k (inr b) | Err e => k (inl e) | Panic => Crash end)]> ts)
| sys_answer s ts (t : nat) h c (k : response c → prog unit) r :
    running ts → ts !! t = Some (h, Call c k) → response_ok c r → sys_step (s, ts) (s, <[t := (h, k r)]> ts).
Definition sys_start (now : Z) (x : system) : Prop := x = (Superblock_new prefix cfg mount_time now, []).

Lemma rg_ignore {A} P (p : prog A) s : rg prefix P p s (λ _ _, True) → rg prefix P (ignore p) s (λ _ _, True).
Proof. intros H. by eapply rg_bind. Qed.

Lemma handler_rg h s : prefix_wf prefix → handler_args_ok s h → rg prefix (is_rmdir h) (handler_prog h) s (λ _ _, True).
Proof.
  intros Hpre Hargs. destruct h; unfold handler_prog; try apply rg_ignore.
  - by apply sb_lookup_rg.
  - apply sb_getattr_rg.
  - apply sb_setattr_rg.
  - by apply sb_create_rg.
  - apply sb_forget_rg.
  - by apply sb_unlink_rg.
  - by apply sb_rmdir_rg.
  - destruct Hargs. by apply sb_rename_rg.
  - apply sb_open_handle_rg.
  - apply sb_inc_file_size_rg.
  - apply sb_finish_writing_rg.
  - apply sb_flush_reader_rg.
  - apply sb_flush_writer_rg.
  - apply sb_finish_reading_rg.
  - apply sb_release_writer_rg.
  - apply sb_try_reactivate_handle_rg.
  - eapply rg_conseq; [by apply opendir_rg|done].
  - eapply rg_conseq; [by apply DirHandle_readdir_rg|done].
Qed.

Lemma Superblock_new_inv now : sb_inv prefix (Superblock_new prefix cfg mount_time now).
Proof.
  split.
  - intros l i st Hl. simpl in Hl. apply lookup_singleton_Some in Hl as [<- [= <- <-]]. ands; [done| |done|done|].
    + unfold inode_ok. simpl. ands; [constructor|done|done|done|by left].
    + unfold state_ok. simpl. ands; [done| |done|done]. by intros ?? ?%lookup_empty_Some.
  - intros ino i n Hi. simpl in Hi. apply lookup_singleton_Some in Hi as [<- [= <- <-]].
    split; [by eexists|]. split; [done|lia].
  - intros i j [st Hi] [st' Hj] _ _. simpl in *. apply lookup_singleton_Some in Hi as [_ [= <- _]].
    by apply lookup_singleton_Some in Hj as [_ [= <- _]].
  - intros i j _ [st' Hj] _. simpl in *. by apply lookup_singleton_Some in Hj as [_ [= <- _]].
Qed.

Definition sys_inv (x : system) : Prop :=
  sb_inv prefix (fst x) ∧ Forall (λ t, rg prefix (is_rmdir (fst t)) (snd t) (fst x) (λ _ _, True)) (snd x).

Lemma threads_mono s s' (ts : list (handler * prog unit)) : s ⊑s s' →
  Forall (λ t, rg prefix (is_rmdir (fst t)) (snd t) s (λ _ _, True)) ts → Forall (λ t, rg prefix (is_rmdir (fst t)) (snd t) s' (λ _ _, True)) ts.
Proof. intros Hle H. eapply Forall_impl; [|exact H]. intros t. by apply rg_mono. Qed.

Lemma sys_step_inv x y : prefix_wf prefix → sys_inv x → sys_step x y → sys_inv y.
Proof.
  intros Hpre [Hinv Hts] Hstep. destruct Hstep as [s ts h _ Hargs|s ts now _ Hnow|s ts t h B act k s' o _ Ht Hact|s ts t h c k r _ Ht Hr]; simpl in *.
  - split; [done|]. apply Forall_app. split; [done|]. constructor; [|done]. by apply handler_rg.
  - split; [by apply (sb_inv_same prefix s)|]. apply (threads_mono s); [by apply sb_same_le|done].
  - pose proof (Forall_lookup_1 _ _ _ _ Hts Ht) as Hrg. simpl in Hrg. specialize (Hrg s ltac:(done) Hinv). rewrite Hact in Hrg.
    destruct Hrg as (Hinv' & Hle & Hrg). split; [done|]. apply Forall_insert; [by eapply threads_mono|].
    destruct o; simpl; done.
  - pose proof (Forall_lookup_1 _ _ _ _ Hts Ht) as Hrg. simpl in Hrg. split; [done|]. apply Forall_insert; [done|]. by apply Hrg.
Qed.

(** How many handlers have panicked *)
Fixpoint crash_count (ts : list (handler * prog unit)) : nat :=
  match ts with [] => 0 | t :: ts => (if crashed t then 1 else 0) + crash_count ts end.
Lemma running_crash_count ts : running ts → crash_count ts = 0%nat.
Proof. unfold running. induction ts as [|t ts IH]; simpl; [done|]. intros [-> Hts]%orb_false_iff. by apply IH. Qed.
Lemma crash_count_app ts ts' : crash_count (ts ++ ts') = (crash_count ts + crash_count ts')%nat.
Proof. induction ts as [|t ts IH]; simpl; [done|]. rewrite IH. lia. Qed.
Lemma crash_count_insert ts t x : (crash_count (<[t := x]> ts) ≤ crash_count ts + 1)%nat.
Proof. revert t. induction ts as [|y ts IH]; intros [|t]; simpl; [lia..|repeat case_match; lia|]. specialize (IH t). lia. Qed.
Lemma sys_step_crashes x y : sys_step x y → (crash_count y.2 ≤ 1)%nat.
Proof.
  intros Hstep. destruct Hstep as [s ts h Hr _|s ts now Hr _|s ts t h B act k s' o Hr _ _|s ts t h c k r Hr _ _]; simpl.
  all: apply running_crash_count in Hr.
  - rewrite crash_count_app, Hr. simpl. case_match; lia.
  - lia.
  - pose proof (crash_count_insert ts t (h, match o with Ok b => k (inr b) | Err e => k (inl e) | Panic => Crash end)). lia.
  - pose proof (crash_count_insert ts t (h, k r)). lia.
Qed.

Lemma sys_reachable_inv now x : prefix_wf prefix → reachable sys_step (sys_start now) x → sys_inv x.
Proof.
  intros Hpre Hr. apply (reachable_invariant sys_step _ sys_inv) in Hr; [done| |].
  - intros y ->. split; [apply Superblock_new_inv|done].
  - intros y z. by apply sys_step_inv.
Qed.
Lemma sys_reachable_crashes now x : reachable sys_step (sys_start now) x → (crash_count x.2 ≤ 1)%nat.
Proof.
  intros Hr. apply (reachable_invariant sys_step _ (λ x, (crash_count x.2 ≤ 1)%nat)) in Hr; [done| |].
  - intros y ->. simpl. lia.
  - intros y z _. apply sys_step_crashes.
Qed.

(** C2. Concurrent file system operations keep the tree consistent.  Let any
    number of handlers (lookup, getattr, setattr, create, forget, unlink,
    rmdir, rename, open, finish and flush of readers and writers, opening and
    reading of directories) run at the same time, interleaved at every lock
    acquisition, with the clock advancing.  The kernel passes numbers of
    directories as parents, and directory handles that were opened before; a
    listing of S3 only has keys below the prefix that was listed, and waiting for
    an upload does not itself report a corrupted inode; otherwise S3 may answer
    anything.  Then in every state up to the first panic of a handler, and in the state
    right after it: every directory entry leads to an
    inode whose key is the parent's key extended by the entry's name and whose
    parent is that directory; every tracked inode number maps to its own inode with a
    positive lookup count; a directory number denotes a single inode; no handler has
    reported corrupted metadata; and at most one handler has panicked, which is
    an rmdir. *)
Theorem concurrent_handlers_keep_tree now s ts :
  prefix_wf prefix → reachable sys_step (sys_start now) (s, ts) →
  sb_inv prefix s ∧ (crash_count ts ≤ 1)%nat ∧
  ∀ t h p, ts !! t = Some (h, p) →
    match p with Crash => is_rmdir h | Throw e => uncorrupted e | _ => True end.
Proof.
  intros Hpre Hr. pose proof (sys_reachable_crashes _ _ Hr) as Hc. apply sys_reachable_inv in Hr as [Hinv Hts]; [|done].
  split; [done|]. split; [done|]. intros t h p Ht.
  pose proof (Forall_lookup_1 _ _ _ _ Hts Ht) as Hrg. simpl in Hrg. by destruct p.
Qed.

Lemma dst_is_ancestor_le s fuel start dst :
  sb_inv prefix s → valid_dir s start → dst_is_ancestor fuel (sb_inodes s) start dst = true → dst ≤ in_ino start.
Proof.
  intros Hinv. revert start. induction fuel as [|fuel IH]; intros start [Hv Hdir]; simpl; [done|].
  destruct (Z.eqb_spec (in_ino start) ROOT_INODE_NO) as [|Hroot]; [done|].
  destruct (Z.eqb_spec (in_ino start) dst) as [|Hne]; [lia|].
  destruct (sb_inodes s !! in_parent start) as [[p n]|] eqn:Hp; [|done]. intros Ha.
  apply (inv_map _ _ Hinv) in Hp as (Hvp & Hpi & _).
  destruct (valid_inode_ok prefix _ _ Hinv Hv) as (_ & _ & _ & _ & Hd). destruct (Hd Hdir) as [[? _]|Hlt]; [done|].
  apply IH in Ha; [lia|]. split; [done|]. by apply (inv_parent _ _ Hinv start p).
Qed.

(** Rename cannot deadlock with itself.  In every state that concurrent handlers
    can reach, [RenameLockGuard] locks the two parent directories in increasing order
    of inode number; since a directory always has a larger number than its parent, ancestors
    are locked before their descendants, as the locking rule of the inode asks
    for, also where the search for [dst] among the ancestors stops early
    because some of them are no longer tracked. *)
Theorem rename_locks_ascending now s ts src_parent dst_parent :
  prefix_wf prefix → reachable sys_step (sys_start now) (s, ts) → valid_dir s src_parent → valid_dir s dst_parent →
  Sorted Z.lt (map in_ino (rename_lock_order (sb_inodes s) src_parent dst_parent)) ∧
  (in_ino src_parent ≠ ROOT_INODE_NO → in_parent src_parent < in_ino src_parent).
Proof.
  intros Hpre Hr Hsrc Hdst. apply sys_reachable_inv in Hr as [Hinv _]; [|done]. simpl in Hinv. split.
  - unfold rename_lock_order. destruct (Z.eqb_spec (in_ino src_parent) (in_ino dst_parent)) as [|Hne]; [by repeat constructor|].
    destruct (dst_is_ancestor _ _ _ _) eqn:Ha; simpl.
    + apply (dst_is_ancestor_le s) in Ha; [|done|done]. repeat constructor. lia.
    + destruct (Z.ltb_spec (in_ino dst_parent) (in_ino src_parent)); repeat constructor; lia.
  - intros Hroot. destruct Hsrc as [Hv Hdir]. destruct (valid_inode_ok prefix _ _ Hinv Hv) as (_ & _ & _ & _ & Hd).
    by destruct (Hd Hdir) as [[? _]|?].
Qed.

(** ** Executing a schedule *)

(** thread [t] takes its next step, calls being answered by [env] *)
Definition thread_step (env : ∀ c, response c) (x : system) (t : nat) : system :=
  let '(s, ts) := x in
  if existsb crashed ts then x else
  match ts !! t with
  | Some (h, Atomic act k) =>
      let '(s', o) := act s in
      (s', <[t := (h, match o with Ok b => k (inr b) | Err e => k (inl e) | Panic => Crash end)]> ts)
  | Some (h, Call c k) => (s, <[t := (h, k (env c))]> ts)
  | _ => x
  end.
Definition schedule (env : ∀ c, response c) (x : system) (order : list nat) : system := foldl (thread_step env) x order.

Lemma thread_step_reachable now env x t : (∀ c, response_ok c (env c)) →
  reachable sys_step (sys_start now) x → reachable sys_step (sys_start now) (thread_step env x t).
Proof.
  intros Henv Hr. destruct x as [s ts]. simpl. destruct (existsb crashed ts) eqn:Hrun; [done|]. destruct (ts !! t) as [[h [| | | |B act k|c k]]|] eqn:Ht; try done.
  - destruct (act s) as [s' o] eqn:Hact. eapply reachable_step; [done|]. by eapply sys_atomic.
  - eapply reachable_step; [done|]. apply (sys_answer _ _ _ _ _ _ _ Hrun Ht). apply Henv.
Qed.
Lemma schedule_reachable now env x order : (∀ c, response_ok c (env c)) →
  reachable sys_step (sys_start now) x → reachable sys_step (sys_start now) (schedule env x order).
Proof.
  intros Henv. revert x. induction order as [|t order IH]; intros x Hr; [done|]. apply IH. by apply thread_step_reachable.
Qed.

End concurrency.

(** ** Witnesses: two handlers create "a" at the same time in an empty bucket; one wins *)

Definition test_config (cached : bool) (ttl negative_ttl : Z) : CacheConfig :=
  {| cc_serve_lookup_from_cache := cached; cc_file_ttl := ttl; cc_dir_ttl := ttl; cc_use_negative_cache := cached;
     cc_negative_cache_ttl := negative_ttl; cc_negative_cache_size := 10 |}.
Definition no_objects : option ListObjectsResult := 
  Some {| lo_common_prefixes := []; lo_objects := []; lo_next_continuation_token := None |}.
(** an environment in which nothing exists, every call succeeds and no upload is pending *)
Definition empty_bucket (c : call) : response c :=
  match c with
  | HeadAndList _ _ => (true, HeadNotFound, no_objects)
  | ListObjects _ _ _ => no_objects
  | DeleteObject _ => true
  | RenameObject _ _ _ => RenameOk
  | WaitForCompletion _ => inr None
  end.
Lemma empty_bucket_ok c : response_ok c (empty_bucket c).
Proof. by destruct c. Qed.

Definition test_threads : Superblock * list (handler * prog unit) :=
  let h := HCreate 1 (str_of "a") Directory in
  let p := handler_prog (crc := sum_crc) Prefix_empty (test_config false 100 100) 0 true h in
  schedule empty_bucket (Superblock_new (crc := sum_crc) Prefix_empty (test_config false 100 100) 0 0, [(h, p); (h, p)])
    (concat (replicate 20 [0; 1]%nat)).

Lemma test_threads_reachable :
  reachable (sys_step (crc := sum_crc) Prefix_empty (test_config false 100 100) 0 true)
    (sys_start (crc := sum_crc) Prefix_empty (test_config false 100 100) 0 0) test_threads.
Proof.
  apply schedule_reachable; [apply empty_bucket_ok|]. set (h := HCreate 1 (str_of "a") Directory).
  set (s := Superblock_new _ _ _ _). assert (dir_ino s 1) as Hd.
  { exists (Inode_new (crc := sum_crc) 1 1 1 ValidKey_root Prefix_empty). split; [by eexists|done]. }
  eapply (reachable_step _ _ (s, [(h, _)])); [eapply (reachable_step _ _ (s, [])); [by constructor|]|].
  - by apply (sys_arrive Prefix_empty _ 0 true s [] h).
  - by apply (sys_arrive Prefix_empty _ 0 true s [_] h).
Qed.

(** thread 0 creates "a", thread 1 finds that it already exists *)
Lemma concurrent_handlers_keep_tree_witness :
  map (λ t, match t.2 with Ret _ => None | Throw e => Some e | _ => Some RenameNotSupported end) (snd test_threads) =
    [None; Some (FileAlreadyExists {| ei_ino := 2; ei_key := str_of "a/" |})] ∧
  sb_inv (crc := sum_crc) Prefix_empty (fst test_threads).
Proof.
  split; [by vm_compute|]. pose proof test_threads_reachable as Hr. destruct test_threads as [s ts].
  apply (concurrent_handlers_keep_tree Prefix_empty (test_config false 100 100) 0 true 0 s ts eq_refl Hr).
Defined.

(** renaming between the new directory and the root: the root is locked first *)
Lemma rename_locks_ascending_witness :
  ∃ root dir, sb_inodes (fst test_threads) !! 1 = Some (root, 1) ∧ sb_inodes (fst test_threads) !! 2 = Some (dir, 1) ∧
    Sorted Z.lt (map in_ino (rename_lock_order (sb_inodes (fst test_threads)) dir root)).
Proof.
  eexists _, _. split; [by vm_compute|]. split; [by vm_compute|]. pose proof test_threads_reachable as Hr.
  eapply (rename_locks_ascending Prefix_empty (test_config false 100 100) 0 true 0 _ (snd test_threads)).
  - done.
  - revert Hr. by destruct test_threads.
  - split; [eexists|]; by vm_compute.
  - split; [eexists|]; by vm_compute.
Defined.
