(* ===== verification/SuperblockOps.v ===== *)
(** * What the superblock's operations do

    Functional properties of handlers that run alone ([run]), for given answers
    of S3: lookups reflect the bucket, local state shadows remote files, new files are
    visible, renames move the inode, and failed renames are undone. *)

From S2P Require Import Prelude Checksums NegativeCache Path HandlesMap Inode Superblock SuperblockInv Readdir ReaddirInv SuperblockConc.

Local Open Scope Z_scope.

(** ** Equations of [run] *)

Lemma run_bind {A B} env (p : prog A) (f : A → prog B) s :
  run env (p ≫= f) s =
  match run env p s with
  | (s', Ok a) => run env (f a) s'
  | (s', Err e) => (s', Err e)
  | (s', Panic) => (s', Panic)
  end.
Proof.
  unfold mbind, prog_bind. revert s. induction p as [a|e| | |C act k IH|c k IH]; intros s; simpl; try done.
  destruct (act s) as [s' [b|e|]]; auto.
Qed.
Lemma run_atomic {A} env (act : Superblock → Superblock * outcome InodeError A) s : run env (atomic act) s = act s.
Proof. simpl. by destruct (act s) as [s' [b|e|]]. Qed.
Lemma run_ret {A} env (a : A) s : run env (mret a) s = (s, Ok a).
Proof. done. Qed.
Lemma run_lift {A} env (o : outcome InodeError A) s : run env (lift o) s = (s, o).
Proof. by destruct o. Qed.
Lemma run_request env c s : run env (request c) s = (s, Ok (env c)).
Proof. done. Qed.
Lemma run_attempt {A} env (p : prog A) s :
  run env (attempt p) s =
  match run env p s with
  | (s', Ok a) => (s', Ok (inr a))
  | (s', Err e) => (s', Ok (inl e))
  | (s', Panic) => (s', Panic)
  end.
Proof.
  revert s. induction p as [a|e| | |C act k IH|c k IH]; intros s; simpl; try done. destruct (act s) as [s' [b|e|]]; auto.
Qed.
Lemma run_on_error {A} env cleanup (p : prog A) s :
  run env (on_error cleanup p) s =
  match run env p s with
  | (s', Err e) => match run env cleanup s' with (s'', Ok _) => (s'', Err e) | (s'', Err e') => (s'', Err e') | (s'', Panic) => (s'', Panic) end
  | r => r
  end.
Proof.
  revert s. induction p as [a|e| | |C act k IH|c k IH]; intros s; simpl; try done.
  - by rewrite (run_bind env cleanup (λ _, Throw e)).
  - destruct (act s) as [s' [b|e|]]; auto.
Qed.

Section operations.
Context `{crc : Crc32c} (prefix : Prefix) (cfg : CacheConfig) (mount_time : Z).
Implicit Types s : Superblock.

(** Running alone is a special case of running with others. *)
Definition env_ok (env : ∀ c, response c) : Prop := ∀ c, response_ok c (env c).
Lemma run_rg {A} env P (p : prog A) s Q :
  env_ok env → sb_inv prefix s → rg prefix P p s Q →
  match run env p s with
  | (s', Ok a) => Q a s' ∧ sb_inv prefix s' ∧ s ⊑s s'
  | (s', Err e) => uncorrupted e ∧ sb_inv prefix s' ∧ s ⊑s s'
  | (_, Panic) => True
  end.
Proof.
  intros Henv. revert s. induction p as [a|e| | |C act k IH|c k IH]; intros s Hinv; simpl; [|done|done|done| |].
  - intros HQ. by split; [apply HQ|].
  - intros H. specialize (H s ltac:(done) Hinv). destruct (act s) as [s' [b|e|]]; destruct H as (Hinv' & Hle & H); [| |done].
    all: specialize (IH _ s' Hinv' H); destruct (run env _ s') as [s2 [a|e2|]]; [| |done].
    all: destruct IH as (? & ? & ?); split_and!; [done..|by trans s'].
  - intros H. apply IH; [done|]. apply H, Henv.
Qed.

Lemma run_sb_get env s ino i n :
  sb_inv prefix s → sb_inodes s !! ino = Some (i, n) → run env (sb_get prefix ino) s = (s, Ok i).
Proof.
  intros Hinv Hi. unfold sb_get. rewrite run_atomic, Hi. apply (inv_map _ _ Hinv) in Hi as (Hv & <- & _).
  by rewrite (verify_inode_valid prefix s i Hinv Hv).
Qed.

(** A directory that the superblock tracks, with its current state. *)
Definition tracked_dir s (ino : Z) (dir : Inode) (st : InodeState) (children : gmap str Inode) (writing : gset Z) : Prop :=
  (∃ n, sb_inodes s !! ino = Some (dir, n)) ∧ sb_heap s !! in_loc dir = Some (dir, st) ∧
  st_kind_data st = DirectoryData children writing false.

Lemma tracked_dir_facts s ino dir st ch w : sb_inv prefix s → tracked_dir s ino dir st ch w →
  in_ino dir = ino ∧ Inode_kind dir = Directory ∧ valid_inode s dir ∧ get_inode_state s dir = Ok st ∧
  (∀ name c, ch !! name = Some c → child_ok s dir name c).
Proof.
  intros Hinv ([n Hi] & Hst & Hk). apply (inv_map _ _ Hinv) in Hi as (Hv & Hino & _).
  destruct (valid_inode_lookup prefix s _ _ _ Hinv Hst) as (_ & _ & Hok). unfold state_ok in Hok. rewrite Hk in Hok.
  destruct Hok as (Hdir & Hch & _). ands; try done. unfold get_inode_state. rewrite Hst. unfold is_deleted. by rewrite Hk.
Qed.

(** ** The bucket *)

(** The objects of the bucket, and answers that reflect it: HeadObject finds
    exactly the objects; a listing of a prefix is empty exactly when no key
    starts with it, and otherwise its entries start with it.  The two answers may
    arrive in any order. *)
Definition reflects (bucket : gmap str HeadObjectResult) (env : ∀ c, response c) : Prop :=
  ∀ key dir, ∃ dir_first head list, env (HeadAndList key dir) = (dir_first, head, Some list) ∧
    head = match bucket !! key with Some r => HeadOk r | None => HeadNotFound end ∧
    ((lo_common_prefixes list ≠ [] ∨ lo_objects list ≠ []) ↔ ∃ k, is_Some (bucket !! k) ∧ dir `prefix_of` k) ∧
    Forall (λ p, dir `prefix_of` p) (lo_common_prefixes list) ∧ Forall (λ o, dir `prefix_of` oi_key o) (lo_objects list).

Definition is_prefix_in (bucket : gmap str HeadObjectResult) (dir : str) : Prop :=
  ∃ k, is_Some (bucket !! k) ∧ dir `prefix_of` k.

Lemma found_directory_spec bucket dir list :
  ((lo_common_prefixes list ≠ [] ∨ lo_objects list ≠ []) ↔ is_prefix_in bucket dir) →
  Forall (λ p, dir `prefix_of` p) (lo_common_prefixes list) → Forall (λ o, dir `prefix_of` oi_key o) (lo_objects list) →
  found_directory list dir = true ↔ is_prefix_in bucket dir.
Proof.
  intros <- Hp Ho. unfold found_directory, starts_with.
  destruct (lo_common_prefixes list) as [|p ps], (lo_objects list) as [|o os].
  - naive_solver.
  - apply Forall_inv in Ho. simpl in *. rewrite bool_decide_eq_true_2 by done. naive_solver.
  - apply Forall_inv in Hp. rewrite bool_decide_eq_true_2 by done. simpl. naive_solver.
  - apply Forall_inv in Hp. rewrite bool_decide_eq_true_2 by done. simpl. naive_solver.
Qed.

Lemma lookup_results_spec bucket now key dir dir_first list :
  ((lo_common_prefixes list ≠ [] ∨ lo_objects list ≠ []) ↔ is_prefix_in bucket dir) →
  Forall (λ p, dir `prefix_of` p) (lo_common_prefixes list) → Forall (λ o, dir `prefix_of` oi_key o) (lo_objects list) →
  let head := match bucket !! key with Some r => HeadOk r | None => HeadNotFound end in
  match lookup_results cfg mount_time now key dir dir_first head (Some list) with
  | Ok (Some r) =>
      match rl_kind r with
      | Directory => is_prefix_in bucket dir
      | File => ¬ is_prefix_in bucket dir ∧ ∃ o, bucket !! key = Some o ∧
          stat_size (rl_stat r) = ho_size o ∧ stat_etag (rl_stat r) = Some (ho_etag o)
      end
  | Ok None => ¬ is_prefix_in bucket dir ∧ bucket !! key = None
  | _ => False
  end.
Proof.
  intros Hl Hp Ho head. pose proof (found_directory_spec bucket dir list Hl Hp Ho) as Hf.
  assert (found_directory list dir = false → ¬ is_prefix_in bucket dir) by (intros He; rewrite <-Hf; by rewrite He).
  unfold lookup_results, on_head, on_list, head.
  destruct dir_first, (bucket !! key) as [r|], (found_directory list dir); simpl; naive_solver.
Qed.

(** ** Lookup *)

(** the keys under which [name] in directory [dir] can exist in the bucket *)
Definition object_key (dir : Inode) (name : str) : str := vk_key (full_key_for_inode prefix dir) ++ name.
Definition directory_key (dir : Inode) (name : str) : str := object_key dir name ++ [delimiter].

(** What a remote lookup should find. *)
Definition remote_spec (bucket : gmap str HeadObjectResult) (dir : Inode) (name : str) (r : option RemoteLookup) : Prop :=
  match r with
  | Some r =>
      match rl_kind r with
      | Directory => is_prefix_in bucket (directory_key dir name)
      | File => ¬ is_prefix_in bucket (directory_key dir name) ∧ ∃ o, bucket !! object_key dir name = Some o ∧
          stat_size (rl_stat r) = ho_size o ∧ stat_etag (rl_stat r) = Some (ho_etag o)
      end
  | None => ¬ is_prefix_in bucket (directory_key dir name) ∧ bucket !! object_key dir name = None
  end.

Lemma run_remote_lookup bucket env s ino dir st ch w name :
  sb_inv prefix s → prefix_wf prefix → reflects bucket env → tracked_dir s ino dir st ch w →
  ∃ r, run env (remote_lookup prefix cfg mount_time ino name) s = (s, Ok r) ∧ remote_spec bucket dir name r.
Proof.
  intros Hinv Hpre Henv Hdir. destruct (tracked_dir_facts _ _ _ _ _ _ Hinv Hdir) as (Hino & Hkind & _). destruct Hdir as ([n Hi] & _).
  unfold remote_lookup. rewrite run_bind, (run_sb_get env s ino dir n Hinv Hi). rewrite run_bind, run_lift.
  unfold ValidKey_new_child. rewrite (full_key_dir_kind prefix) by done. cbn [outcome_map_err vk_key]. rewrite bool_decide_eq_true_2 by done.
  rewrite app_assoc. fold (object_key dir name). rewrite length_app, Nat.add_sub, take_app_length. fold (directory_key dir name).
  rewrite run_bind. unfold request. cbn [run]. destruct (Henv (object_key dir name) (directory_key dir name)) as (df & head & list & -> & -> & Hl & Hp & Ho).
  rewrite run_bind. unfold clock. rewrite run_atomic, run_lift.
  pose proof (lookup_results_spec bucket (sb_now s) (object_key dir name) (directory_key dir name) df list Hl Hp Ho) as Hspec. cbv zeta in Hspec.
  destruct (lookup_results _ _ _ _ _ _ _ _) as [r|e|]; [|done|done]. exists r. split; [done|]. by destruct r.
Qed.

Lemma negative_cache_same name ino r s :
  sb_heap (update_negative_cache cfg ino name r s) = sb_heap s ∧ sb_inodes (update_negative_cache cfg ino name r s) = sb_inodes s ∧
  sb_next_ino (update_negative_cache cfg ino name r s) = sb_next_ino s ∧ sb_now (update_negative_cache cfg ino name r s) = sb_now s.
Proof. unfold update_negative_cache. by repeat case_match. Qed.

Lemma get_inode_state_same s s' i : sb_heap s' = sb_heap s → get_inode_state s' i = get_inode_state s i.
Proof. unfold get_inode_state. by intros ->. Qed.

(** The two sections of [update_from_remote], after the negative cache was updated. *)
Lemma run_update_from_remote env s ino dir st ch w name r :
  sb_inv prefix s → tracked_dir s ino dir st ch w →
  run env (update_from_remote prefix cfg ino name r) s =
  match try_update_fast_path dir name r (update_negative_cache cfg ino name r s) with
  | (s', Ok (Some l)) => (s', Ok l)
  | (s', Ok None) => update_slow_path prefix cfg dir name r s'
  | (s', Err e) => (s', Err e)
  | (s', Panic) => (s', Panic)
  end.
Proof.
  intros Hinv Hdir. destruct (tracked_dir_facts _ _ _ _ _ _ Hinv Hdir) as (Hino & Hkind & _). destruct Hdir as ([n Hi] & _).
  unfold update_from_remote. rewrite run_bind, (run_sb_get env s ino dir n Hinv Hi), bool_decide_eq_true_2 by done. cbn [negb].
  rewrite run_bind, run_atomic, run_bind, run_atomic.
  destruct (try_update_fast_path _ _ _ _) as [s' [[l|]|e|]]; [done| |done|done]. by rewrite run_atomic.
Qed.

Lemma run_lookup_by_name env s ino dir st ch w name r :
  env_ok env → sb_inv prefix s → tracked_dir s ino dir st ch w → valid_name_str name = true →
  run env (remote_lookup prefix cfg mount_time ino name) s = (s, Ok r) →
  run env (lookup_by_name prefix cfg mount_time ino name false) s = run env (update_from_remote prefix cfg ino name r) s.
Proof.
  intros Henv Hinv Hdir Hname Hr. unfold lookup_by_name, parse_name, ValidName_parse_str. rewrite Hname.
  rewrite run_bind, run_lift. cbn [outcome_map_err]. rewrite run_bind, run_ret. rewrite run_bind, run_bind, Hr.
  pose proof (update_from_remote_rg prefix cfg False ino name r s Hname) as Hrg. apply (run_rg env) in Hrg; [|done|done].
  destruct (run env (update_from_remote prefix cfg ino name r) s) as [s' [l|e|]]; [|done|done].
  rewrite run_bind, run_lift. destruct Hrg as (Hl & _). by rewrite (verify_child_named prefix s' ino name (lu_inode l) Hl).
Qed.

(** A name that the directory does not know yet. *)
Lemma run_update_unknown env s ino dir st ch w name r :
  sb_inv prefix s → tracked_dir s ino dir st ch w → valid_name_str name = true → ch !! name = None →
  let '(s', o) := run env (update_from_remote prefix cfg ino name r) s in
  match r, o with
  | Some r, Ok l => lu_stat l = rl_stat r ∧ lu_write_status l = Remote ∧ Inode_kind (lu_inode l) = rl_kind r ∧
      in_ino (lu_inode l) = sb_next_ino s ∧ named_child prefix s' ino name (lu_inode l)
  | None, Err e => e = FileDoesNotExist name (Inode_err dir) ∧ s' = update_negative_cache cfg ino name None s
  | _, _ => False
  end.
Proof.
  intros Hinv Hdir Hname Hch. rewrite (run_update_from_remote env s ino dir st ch w name r Hinv Hdir).
  destruct (tracked_dir_facts _ _ _ _ _ _ Hinv Hdir) as (Hino & Hkind & _ & Hget & _). destruct Hdir as (_ & Hst & Hk).
  destruct (negative_cache_same name ino r s) as (Hh & Hi & Hn & _). set (s1 := update_negative_cache cfg ino name r s) in *.
  unfold try_update_fast_path, update_slow_path, children_of. rewrite (get_inode_state_same s s1 dir Hh), Hget. simpl. rewrite Hk. simpl.
  rewrite Hch. destruct r as [r|]; [|done]. simpl. rewrite (get_inode_state_same s s1 dir Hh), Hget. simpl. rewrite Hk. simpl. rewrite Hch.
  destruct (create_inode_locked_ok prefix s1 dir st name (rl_kind r) (InodeState_new (rl_stat r) (rl_kind r) Remote) false)
    as (s2 & i & -> & _ & _ & Hnc & Hino2 & Hk2 & _); try done.
  - by apply (sb_inv_same prefix s).
  - by rewrite Hh.
  - unfold is_deleted. by rewrite Hk.
  - simpl. rewrite <-Hino, <-Hn. done.
Qed.

(** C4. A lookup shows what is in the bucket, and directories shadow files.  Looking up a
    name that the superblock does not know yet, with S3's answers reflecting
    the bucket and arriving in either order, gives: a directory when some
    key starts with the name and a slash, even when an object of that very
    name exists; otherwise the file with that object's size and ETag, when it exists; and
    otherwise the error that the name does not exist.  A found child gets a new
    inode number, and the right name and parent. *)
Theorem lookup_reflects_bucket bucket env s ino dir st children writing name :
  env_ok env → sb_inv prefix s → prefix_wf prefix → reflects bucket env →
  tracked_dir s ino dir st children writing → children !! name = None → valid_name_str name = true →
  match run env (lookup_by_name prefix cfg mount_time ino name false) s with
  | (s', Ok l) =>
      in_ino (lu_inode l) = sb_next_ino s ∧ named_child prefix s' ino name (lu_inode l) ∧
      match Inode_kind (lu_inode l) with
      | Directory => is_prefix_in bucket (directory_key dir name)
      | File => ¬ is_prefix_in bucket (directory_key dir name) ∧ ∃ o, bucket !! object_key dir name = Some o ∧
          stat_size (lu_stat l) = ho_size o ∧ stat_etag (lu_stat l) = Some (ho_etag o)
      end
  | (_, Err e) =>
      e = FileDoesNotExist name (Inode_err dir) ∧ ¬ is_prefix_in bucket (directory_key dir name) ∧
      bucket !! object_key dir name = None
  | (_, Panic) => False
  end.
Proof.
  intros Henv Hinv Hpre Href Hdir Hch Hname.
  destruct (run_remote_lookup bucket env s ino dir st children writing name Hinv Hpre Href Hdir) as (r & Hr & Hspec).
  rewrite (run_lookup_by_name env s ino dir st children writing name r) by done.
  pose proof (run_update_unknown env s ino dir st children writing name r Hinv Hdir Hname Hch) as Hu.
  destruct (run env (update_from_remote prefix cfg ino name r) s) as [s' [l|e|]]; destruct r as [r|]; try done.
  - destruct Hu as (Hstat & _ & -> & Hino & Hnc). split; [done|]. split; [done|]. unfold remote_spec in Hspec.
    rewrite Hstat. by destruct (rl_kind r).
  - destruct Hu as (-> & _). by split.
Qed.

Lemma set_inode_state_lookup s i st : valid_inode s i → sb_heap (set_inode_state s i st) !! in_loc i = Some (i, st).
Proof. intros [st0 Hst]. simpl. by rewrite lookup_alter_eq, Hst. Qed.
Lemma set_inode_state_lookup_ne s i st l : in_loc i ≠ l → sb_heap (set_inode_state s i st) !! l = sb_heap s !! l.
Proof. intros. simpl. by rewrite lookup_alter_ne. Qed.

(** [update_from_remote] leaves the inode map alone. *)
Lemma state_bind_fst {S E A B} (r : S * outcome E A) (f : A → B) : fst (let? s, a := r in (s, Ok (E:=E) (f a))) = fst r.
Proof. by destruct r as [s [a|e|]]. Qed.
Lemma create_inode_locked_inodes s parent pst name kind state is_new :
  sb_inodes (create_inode_locked prefix parent pst name kind state is_new s).1 = sb_inodes s.
Proof. unfold create_inode_locked. destruct (ValidKey_new_child _ _ _); simpl; [|done..]. by destruct (st_kind_data pst). Qed.
Lemma create_inode_locked_negative s parent pst name kind state is_new :
  sb_negative_cache (create_inode_locked prefix parent pst name kind state is_new s).1 = sb_negative_cache s.
Proof. unfold create_inode_locked. destruct (ValidKey_new_child _ _ _); simpl; [|done..]. by destruct (st_kind_data pst). Qed.
Lemma update_from_remote_inodes env s ino dir st ch w name r :
  sb_inv prefix s → tracked_dir s ino dir st ch w →
  sb_inodes (run env (update_from_remote prefix cfg ino name r) s).1 = sb_inodes s.
Proof.
  intros Hinv Hdir. rewrite (run_update_from_remote env s ino dir st ch w name r Hinv Hdir).
  destruct (negative_cache_same name ino r s) as (_ & Hi & _). rewrite <-Hi. clear Hi.
  generalize (update_negative_cache cfg ino name r s). clear. intros s.
  assert (sb_inodes (try_update_fast_path dir name r s).1 = sb_inodes s) as <-.
  { unfold try_update_fast_path. destruct (get_inode_state s dir); simpl; [|done..]. destruct (children_of _) as [[[c ?] ?]| |]; simpl; [|done..].
    destruct r, (c !! name); simpl; try done. destruct (get_inode_state s _); simpl; [|done..]. by case_match. }
  destruct (try_update_fast_path dir name r s) as [s' [[l|]|e|]]; try done. simpl. clear s.
  unfold update_slow_path. destruct (get_inode_state s' dir); simpl; [|done..]. destruct (children_of _) as [[[c ?] ?]| |]; simpl; [|done..].
  destruct r as [r|], (c !! name) as [i|]; simpl; try done.
  - destruct (get_inode_state s' i); simpl; [|done..]. case_if H1; [done|]. case_if H2; [case_if H3; done|].
    by rewrite state_bind_fst, create_inode_locked_inodes.
  - by rewrite state_bind_fst, create_inode_locked_inodes.
  - case_if H1; [|done]. by destruct (get_inode_state s' i).
Qed.

Lemma has_local_state_spec st :
  has_local_state st = true ↔ st_write_status st ≠ Remote ∨ is_Some (st_pending_upload_hook st).
Proof. unfold has_local_state. by rewrite orb_true_iff, negb_true_iff, bool_decide_eq_false, bool_decide_eq_true. Qed.

(** What [update_from_remote] does to a child with local state. *)
Lemma update_local_child env s ino dir st children writing name child cst remote :
  sb_inv prefix s → tracked_dir s ino dir st children writing → valid_name_str name = true →
  children !! name = Some child → sb_heap s !! in_loc child = Some (child, cst) →
  is_deleted cst = false → st_write_status cst ≠ Remote ∨ is_Some (st_pending_upload_hook cst) →
  (remote = None → in_ino child ∈ writing) →
  ∃ s' l, run env (update_from_remote prefix cfg ino name remote) s = (s', Ok l) ∧
    match remote with
    | None =>
        lu_inode l = child ∧ lu_stat l = InodeStat_update_validity (st_stat cst) (sb_now s) (ttl_for cfg (Inode_kind child)) ∧
        sb_heap s' !! in_loc child = Some (child, st_with_stat cst (lu_stat l))
    | Some r =>
        match rl_kind r with
        | File => lu_inode l = child ∧ lu_stat l = st_stat cst ∧ sb_heap s' !! in_loc child = Some (child, cst)
        | Directory =>
            if bool_decide (Inode_kind child = Directory ∧ stat_etag (st_stat cst) = stat_etag (rl_stat r)) then
              lu_inode l = child ∧ lu_write_status l = Remote ∧
              sb_heap s' !! in_loc child = Some (child, st_with_status (st_with_stat cst (rl_stat r)) Remote) ∧
              ∃ st', sb_heap s' !! in_loc dir = Some (dir, st') ∧
                st_kind_data st' = DirectoryData children (writing ∖ {[ in_ino child ]}) false
            else in_ino (lu_inode l) = sb_next_ino s ∧ Inode_kind (lu_inode l) = Directory
        end
    end.
Proof.
  intros Hinv Hdir Hname Hch Hcst Hcd Hl Hw.
  assert (has_local_state cst = true) as Hlocal by by apply has_local_state_spec.
  rewrite (run_update_from_remote env s ino dir st children writing name remote Hinv Hdir).
  destruct (tracked_dir_facts _ _ _ _ _ _ Hinv Hdir) as (Hino & Hkind & Hvd & Hget & Hchok). destruct Hdir as (_ & Hst & Hk).
  destruct (negative_cache_same name ino remote s) as (Hh & Hi & Hn & Hnow). set (s1 := update_negative_cache cfg ino name remote s) in *.
  assert (sb_inv prefix s1) as Hinv1 by by apply (sb_inv_same prefix s). assert (valid_inode s child) as Hvc by by exists cst.
  pose proof (child_ok_ne prefix _ _ _ _ Hinv Hvd (Hchok _ _ Hch)) as Hne.
  assert (get_inode_state s1 child = Ok cst) as Hcget by (unfold get_inode_state; by rewrite Hh, Hcst, Hcd).
  assert (get_inode_state s1 dir = Ok st) as Hget1 by by rewrite (get_inode_state_same s).
  assert (valid_inode s1 child) as Hvc1 by (exists cst; by rewrite Hh). assert (valid_inode s1 dir) as Hvd1 by (exists st; by rewrite Hh).
  assert (try_update_fast_path dir name remote s1 = (s1, Ok None)) as ->.
  { unfold try_update_fast_path, children_of. rewrite Hget1. simpl. rewrite Hk. simpl. rewrite Hch.
    destruct remote as [r|]; [|done]. rewrite Hcget. simpl. by rewrite Hlocal, andb_false_r. }
  unfold update_slow_path, children_of. rewrite Hget1. simpl. rewrite Hk. simpl. rewrite Hch. destruct remote as [r|].
  2: { rewrite bool_decide_eq_true_2 by auto. rewrite Hcget. simpl. rewrite Hnow. eexists _, _. split; [done|]. simpl.
       split; [done|]. split; [done|]. by apply (set_inode_state_lookup s1). }
  rewrite Hcget. simpl. rewrite Hlocal. destruct (rl_kind r) eqn:Hrk; simpl.
  { eexists _, _. split; [done|]. simpl. split; [done|]. split; [done|]. by rewrite Hh. }
  rewrite andb_true_r. rewrite (bool_decide_ext (Inode_kind child = Directory ∧ _) (Directory = Inode_kind child ∧ stat_etag (st_stat cst) = stat_etag (rl_stat r)))
    by naive_solver. rewrite bool_decide_and.
  case_if Hsame; simpl.
  - eexists _, _. split; [done|]. split; [done|]. split; [done|].
    set (s2 := set_inode_state s1 child (st_with_status (st_with_stat cst (rl_stat r)) Remote)). split.
    + rewrite set_inode_state_lookup_ne by done. by apply (set_inode_state_lookup s1).
    + eexists. split; [by apply (set_inode_state_lookup s2), set_state_valid|done].
  - destruct (create_inode_locked_ok prefix s1 dir st name Directory (InodeState_new (rl_stat r) Directory Remote) false)
      as (s2 & i & -> & _ & _ & Hnc & Hino2 & Hk2 & _); try done.
    + by rewrite Hh.
    + unfold is_deleted. by rewrite Hk.
    + simpl. eexists _, _. split; [done|]. simpl. by rewrite Hino2, Hk2, Hn.
Qed.

(** C5. Local changes are never lost to what S3 answers.  For a child that is new, open
    for writing, being renamed or waiting for its upload: when S3 reports a file, or
    reports nothing while the child is among those being written, the lookup returns the
    child itself, with its size and ETag unchanged (only the expiry is renewed, and not
    at all when S3 has a file); when S3 reports a directory, a local directory becomes a remote one in place and is no longer
    among the children being written, and a local file is shadowed by a new directory inode. *)
Theorem local_state_shadows_remote env s ino dir st children writing name child cst remote :
  sb_inv prefix s → tracked_dir s ino dir st children writing → valid_name_str name = true →
  children !! name = Some child → sb_heap s !! in_loc child = Some (child, cst) →
  is_deleted cst = false → st_write_status cst ≠ Remote ∨ is_Some (st_pending_upload_hook cst) →
  (remote = None → in_ino child ∈ writing) →
  ∃ s' l, run env (update_from_remote prefix cfg ino name remote) s = (s', Ok l) ∧
    match remote with
    | None =>
        lu_inode l = child ∧ lu_stat l = InodeStat_update_validity (st_stat cst) (sb_now s) (ttl_for cfg (Inode_kind child)) ∧
        sb_heap s' !! in_loc child = Some (child, st_with_stat cst (lu_stat l))
    | Some r =>
        match rl_kind r with
        | File => lu_inode l = child ∧ lu_stat l = st_stat cst ∧ sb_heap s' !! in_loc child = Some (child, cst)
        | Directory =>
            if bool_decide (Inode_kind child = Directory ∧ stat_etag (st_stat cst) = stat_etag (rl_stat r)) then
              lu_inode l = child ∧ lu_write_status l = Remote ∧
              sb_heap s' !! in_loc child = Some (child, st_with_status (st_with_stat cst (rl_stat r)) Remote) ∧
              ∃ st', sb_heap s' !! in_loc dir = Some (dir, st') ∧
                st_kind_data st' = DirectoryData children (writing ∖ {[ in_ino child ]}) false
            else in_ino (lu_inode l) = sb_next_ino s ∧ Inode_kind (lu_inode l) = Directory
        end
    end.
Proof. apply update_local_child. Qed.

(** ** Creating *)

Lemma create_inode_locked_children s s' parent pst name kind state is_new i ch w :
  sb_heap s !! in_loc parent = Some (parent, pst) → st_kind_data pst = DirectoryData ch w false → ch !! name = None →
  create_inode_locked prefix parent pst name kind state is_new s = (s', Ok i) → in_loc i ≠ in_loc parent →
  sb_heap s' !! in_loc parent =
    Some (parent, st_with_kind_data pst (DirectoryData (<[name := i]> ch) (if is_new then {[ in_ino i ]} ∪ w else w) false)).
Proof.
  intros Hp Hk Hch Hc Hne. unfold create_inode_locked in Hc. rewrite Hk, Hch in Hc.
  destruct (ValidKey_new_child _ _ _); simpl in Hc; [|done|done]. injection Hc as <- <-.
  apply (set_inode_state_lookup (sb_with_heap _ _)). exists pst. simpl. rewrite lookup_insert_ne; [done|]. exact Hne.
Qed.

Lemma run_remember env s i :
  run env (remember i) s = (sb_with_inodes s (increase_lookup_count (sb_inodes s) i), Ok tt).
Proof. unfold remember. by rewrite run_atomic. Qed.

Lemma create_locked_spec s ino dir st ch w name kind :
  sb_inv prefix s → tracked_dir s ino dir st ch w → ch !! name = None → valid_name_str name = true →
  ∃ s1 i st' stat, create_locked prefix cfg mount_time dir name kind s = (s1, Ok (Lookup_new i stat, i)) ∧ sb_inv prefix s1 ∧
    tracked_dir s1 ino dir st' (<[name := i]> ch) ({[ in_ino i ]} ∪ w) ∧
    sb_heap s1 !! in_loc i = Some (i, InodeState_new stat kind LocalUnopened) ∧
    in_ino i = sb_next_ino s ∧ Inode_kind i = kind ∧ stat_size stat = 0 ∧
    stat_expiry stat = Expiry_from_now (sb_now s) (ttl_for cfg kind) ∧ sb_negative_cache s1 = sb_negative_cache s ∧
    sb_inodes s1 = sb_inodes s ∧ sb_inodes s !! in_ino i = None.
Proof.
  intros Hinv Hdir Hch Hname. destruct (tracked_dir_facts _ _ _ _ _ _ Hinv Hdir) as (Hino & Hkind & Hvd & Hget & _).
  destruct Hdir as ([n Hin] & Hst & Hk). unfold create_locked. rewrite Hget. simpl. rewrite Hk, Hch.
  set (stat := match kind with File => _ | Directory => _ end).
  destruct (create_inode_locked_ok prefix s dir st name kind (InodeState_new stat kind LocalUnopened) true)
    as (s1 & i & Hc & Hinv1 & _ & _ & Hi & Hik & _ & Hlne & Hist & _ & Hmap & _); try done.
  { unfold is_deleted. by rewrite Hk. }
  pose proof (create_inode_locked_children _ _ _ _ _ _ _ _ _ _ _ Hst Hk Hch Hc Hlne) as Hp1. rewrite Hc. simpl.
  assert (sb_negative_cache s1 = sb_negative_cache s) as Hneg.
  { rewrite <-(create_inode_locked_negative s dir st name kind (InodeState_new stat kind LocalUnopened) true). by rewrite Hc. }
  eexists s1, i, _, stat. ands; [done|done| |done|done|done|by destruct kind|by destruct kind|done|done|].
  - split; [exists n; by rewrite Hmap|]. split; [exact Hp1|done].
  - destruct (sb_inodes s !! in_ino i) as [[j m]|] eqn:Hj; [|done]. apply (inv_map _ _ Hinv) in Hj as (Hvj & Hji & _).
    destruct (valid_inode_bounds prefix s j Hinv Hvj). lia.
Qed.

(** A child with local state is found by name, and remembered. *)
Lemma run_lookup_local bucket env s ino dir st ch w name i ist n :
  cc_serve_lookup_from_cache cfg = false → env_ok env → sb_inv prefix s → prefix_wf prefix → reflects bucket env →
  tracked_dir s ino dir st ch w → ch !! name = Some i → valid_name_str name = true → in_ino i ∈ w →
  sb_heap s !! in_loc i = Some (i, ist) → is_deleted ist = false → has_local_state ist = true →
  sb_inodes s !! in_ino i = Some (i, n) → ¬ is_prefix_in bucket (directory_key dir name) →
  ∃ s' lk, run env (sb_lookup prefix cfg mount_time ino name) s = (s', Ok lk) ∧
    lk_ino lk = in_ino i ∧ lk_kind lk = Inode_kind i ∧ stat_size (lk_stat lk) = stat_size (st_stat ist) ∧
    sb_inodes s' !! in_ino i = Some (i, n + 1).
Proof.
  intros Hcache Henv Hinv Hpre Href Hdir Hch Hname Hw Hist Hnd Hlocal Hmap Hnp.
  destruct (run_remote_lookup bucket env s ino dir st ch w name Hinv Hpre Href Hdir) as (r & Hr & Hspec).
  unfold sb_lookup. rewrite Hcache, run_bind, (run_lookup_by_name env s ino dir st ch w name r) by done.
  destruct (update_local_child env s ino dir st ch w name i ist r) as (s' & l & Hrun & Hl); try done; [by apply has_local_state_spec|].
  assert (sb_inodes s' = sb_inodes s) as Hmap'.
  { rewrite <-(update_from_remote_inodes env s ino dir st ch w name r Hinv Hdir). by rewrite Hrun. }
  rewrite Hrun, run_bind, run_remember, run_ret. eexists _, _. split; [done|]. simpl.
  assert (lu_inode l = i ∧ stat_size (lu_stat l) = stat_size (st_stat ist)) as [-> Hsz].
  { destruct r as [r|]; [|by destruct Hl as (? & -> & _)]. unfold remote_spec in Hspec.
    destruct (rl_kind r); [|done]. by destruct Hl as (? & -> & _). }
  split; [done|]. split; [done|]. split; [done|]. unfold increase_lookup_count. rewrite Hmap', Hmap. by rewrite lookup_insert_eq.
Qed.

(** Creating a name after the lookup of [create] did not find it. *)
Lemma run_create_missing env s s0 ino dir st ch w name name' e kind :
  run env (lookup_by_name prefix cfg mount_time ino name (cc_serve_lookup_from_cache cfg)) s = (s0, Err (FileDoesNotExist name' e)) →
  sb_inv prefix s0 → tracked_dir s0 ino dir st ch w → ch !! name = None → valid_name_str name = true →
  ∃ s1 i st' stat, run env (sb_create prefix cfg mount_time ino name kind) s = (s1, Ok (Lookup_new i stat)) ∧ sb_inv prefix s1 ∧
    tracked_dir s1 ino dir st' (<[name := i]> ch) ({[ in_ino i ]} ∪ w) ∧
    sb_heap s1 !! in_loc i = Some (i, InodeState_new stat kind LocalUnopened) ∧
    in_ino i = sb_next_ino s0 ∧ Inode_kind i = kind ∧ stat_size stat = 0 ∧
    stat_expiry stat = Expiry_from_now (sb_now s0) (ttl_for cfg kind) ∧ sb_negative_cache s1 = sb_negative_cache s0 ∧
    sb_inodes s1 !! in_ino i = Some (i, 1).
Proof.
  intros Hmiss Hinv0 Hdir0 Hch Hname. unfold sb_create. rewrite run_bind, run_attempt, Hmiss.
  destruct (create_locked_spec s0 ino dir st ch w name kind)
    as (s1 & i & st' & stat & Hc & Hinv1 & Hdir1 & Hist & Hii & Hik & Hsz & Hexp & Hneg & Hmap & Hnew); try done.
  destruct Hdir0 as ([n Hin] & _).
  unfold parse_name, ValidName_parse_str. rewrite Hname. rewrite run_bind, run_lift. cbn [outcome_map_err].
  rewrite run_bind, (run_sb_get env s0 ino dir n Hinv0 Hin), run_bind, run_atomic, Hc, run_bind, run_remember, run_ret. cbn [fst snd].
  assert (increase_lookup_count (sb_inodes s1) i = <[in_ino i := (i, 1)]> (sb_inodes s1)) as ->.
  { unfold increase_lookup_count. by rewrite Hmap, Hnew. }
  eexists _, i, st', stat. split; [done|]. split.
  { apply set_inodes_ok; [done|]. intros k j m [[<- [= <- <-]]|[_ Hj]]%lookup_insert_Some; [|by apply (inv_map _ _ Hinv1)].
    split; [by eexists|done]. }
  ands; try done; [|simpl; by rewrite lookup_insert_eq].
  destruct Hdir1 as ([m Hm] & ? & ?). split; [|done]. exists m. simpl. rewrite lookup_insert_ne; [done|].
  intros Heq. rewrite Heq in Hnew. by rewrite <-Hmap, Hm in Hnew.
Qed.

(** A file or directory is visible from the moment it is created.  Creating a name that
    neither the directory nor the bucket has returns a fresh inode of size 0 and
    lookup count 1; any later lookup that asks S3 finds the same inode,
    and counts it once more, whether or not an object of that name has appeared in
    the bucket meanwhile, as long as no key under the name and a slash has. *)
Theorem created_child_is_visible bucket env s ino dir st children writing name kind :
  cc_serve_lookup_from_cache cfg = false → env_ok env → sb_inv prefix s → prefix_wf prefix → reflects bucket env →
  tracked_dir s ino dir st children writing → children !! name = None → valid_name_str name = true →
  ¬ is_prefix_in bucket (directory_key dir name) → bucket !! object_key dir name = None →
  ∃ s1 lk i, run env (sb_create prefix cfg mount_time ino name kind) s = (s1, Ok lk) ∧
    lk_ino lk = sb_next_ino s ∧ lk_kind lk = kind ∧ stat_size (lk_stat lk) = 0 ∧ sb_inodes s1 !! lk_ino lk = Some (i, 1) ∧
    ∀ bucket' env' t, env_ok env' → reflects bucket' env' → ¬ is_prefix_in bucket' (directory_key dir name) →
      ∃ s2 lk', run env' (sb_lookup prefix cfg mount_time ino name) (sb_with_now s1 t) = (s2, Ok lk') ∧
        lk_ino lk' = lk_ino lk ∧ lk_kind lk' = kind ∧ stat_size (lk_stat lk') = 0 ∧ sb_inodes s2 !! lk_ino lk = Some (i, 2).
Proof.
  intros Hcache Henv Hinv Hpre Href Hdir Hch Hname Hnp Hno.
  destruct (run_remote_lookup bucket env s ino dir st children writing name Hinv Hpre Href Hdir) as (r & Hr & Hspec).
  assert (r = None) as ->.
  { destruct r as [r|]; [|done]. unfold remote_spec in Hspec. destruct (rl_kind r); [|done]. destruct Hspec as (_ & o & ? & _). congruence. }
  pose proof (run_update_unknown env s ino dir st children writing name None Hinv Hdir Hname Hch) as Hu.
  destruct (run env (update_from_remote prefix cfg ino name None) s) as [s0 [l|e|]] eqn:Hrun; try done. destruct Hu as [-> Hs0].
  destruct (negative_cache_same name ino None s) as (Hh & Hi & Hn & Hnow). rewrite <-Hs0 in *.
  destruct (run_create_missing env s s0 ino dir st children writing name name (Inode_err dir) kind)
    as (s2 & i & st' & stat & -> & Hinv2 & Hdir2 & Hist & Hii & Hik & Hsz & _ & _ & Hmap).
  { rewrite Hcache. by rewrite (run_lookup_by_name env s ino dir st children writing name None). }
  { by apply (sb_inv_same prefix s). }
  { unfold tracked_dir. by rewrite Hh, Hi. }
  { done. }
  { done. }
  eexists s2, _, i. split; [done|]. cbn [lk_ino lk_kind lk_stat Lookup_new]. split; [lia|]. split; [done|]. split; [done|].
  split; [done|]. intros bucket' env' t Henv' Href' Hnp'.
  destruct (run_lookup_local bucket' env' (sb_with_now s2 t) ino dir st' (<[name:=i]> children) ({[in_ino i]} ∪ writing) name i
    (InodeState_new stat kind LocalUnopened) 1) as (s3 & lk & Hrun3 & Hl1 & Hl2 & Hl3 & Hl4); try done.
  - by apply (sb_inv_same prefix s2).
  - by rewrite lookup_insert_eq.
  - set_solver.
  - unfold is_deleted. by destruct kind.
  - exists s3, lk. split; [done|]. rewrite Hl1, Hl2, Hl3, Hl4. done.
Qed.

(** *** Looking up from the caches *)

Lemma run_cache_lookup env s ino dir st ch w name :
  sb_inv prefix s → tracked_dir s ino dir st ch w →
  run env (cache_lookup prefix ino name) s =
    (s, let negative := Ok (if NegativeCache_contains (sb_negative_cache s) (sb_now s) ino name then Some (inl (FileDoesNotExist name (Inode_err dir))) else None) in
        match ch !! name with
        | Some i =>
            match get_inode_state s i with
            | Ok ist =>
                if InodeStat_is_valid (st_stat ist) (sb_now s)
                then Ok (Some (inr {| lu_inode := i; lu_stat := st_stat ist; lu_write_status := st_write_status ist |}))
                else negative
            | Err _ => Ok None
            | Panic => Panic
            end
        | None => negative
        end).
Proof.
  intros Hinv Hdir. destruct (tracked_dir_facts _ _ _ _ _ _ Hinv Hdir) as (Hino & _ & _ & Hget & _). destruct Hdir as ([n Hi] & _ & Hk).
  unfold cache_lookup. rewrite run_bind, run_attempt, (run_sb_get env s ino dir n Hinv Hi), run_bind, run_atomic.
  unfold cache_lookup_children. rewrite Hget, Hk. destruct (ch !! name) as [i|]; [destruct (get_inode_state s i) as [ist|e|]; [destruct (InodeStat_is_valid _ _)|..]|].
  all: try done; rewrite run_bind, run_atomic, Hino; by destruct (NegativeCache_contains _ _ _ _).
Qed.
(** A name that the caches do not know is looked up in S3. *)
Lemma run_lookup_uncached env s ino dir st ch w name r :
  env_ok env → sb_inv prefix s → tracked_dir s ino dir st ch w → valid_name_str name = true → ch !! name = None →
  NegativeCache_contains (sb_negative_cache s) (sb_now s) ino name = false →
  run env (remote_lookup prefix cfg mount_time ino name) s = (s, Ok r) →
  run env (lookup_by_name prefix cfg mount_time ino name true) s = run env (update_from_remote prefix cfg ino name r) s.
Proof.
  intros Henv Hinv Hdir Hname Hch Hneg Hr. rewrite <-(run_lookup_by_name env s ino dir st ch w name r) by done.
  unfold lookup_by_name, parse_name, ValidName_parse_str. rewrite Hname, !run_bind, !run_lift. cbn [outcome_map_err].
  by rewrite !run_bind, run_ret, (run_cache_lookup env s ino dir st ch w name), Hch, Hneg.
Qed.
(** A name found in the caches is not looked up in S3. *)
Lemma run_lookup_cached env s ino dir st ch w name i ist :
  sb_inv prefix s → tracked_dir s ino dir st ch w → valid_name_str name = true → ch !! name = Some i → get_inode_state s i = Ok ist →
  cc_serve_lookup_from_cache cfg = true →
  if InodeStat_is_valid (st_stat ist) (sb_now s) then
    ∃ s', run env (sb_lookup prefix cfg mount_time ino name) s =
      (s', Ok (Lookup_from {| lu_inode := i; lu_stat := st_stat ist; lu_write_status := st_write_status ist |}))
  else NegativeCache_contains (sb_negative_cache s) (sb_now s) ino name = true →
    run env (sb_lookup prefix cfg mount_time ino name) s = (s, Err (FileDoesNotExist name (Inode_err dir))).
Proof.
  intros Hinv Hdir Hname Hch Hist Hcache. destruct (tracked_dir_facts _ _ _ _ _ _ Hinv Hdir) as (Hino & _ & Hv & _ & Hchok).
  unfold sb_lookup, lookup_by_name, parse_name, ValidName_parse_str. rewrite Hname, Hcache, run_bind, run_bind, run_lift. cbn [outcome_map_err].
  rewrite run_bind, (run_cache_lookup env s ino dir st ch w name), Hch, Hist by done. destruct (InodeStat_is_valid _ _); [|by intros ->].
  cbv beta iota zeta. rewrite run_bind, run_ret, run_bind, run_lift, <-Hino.
  rewrite (verify_child_named prefix s (in_ino dir) name i) by (apply child_ok_named; auto). rewrite run_ret, run_bind, run_remember, run_ret. by eexists.
Qed.


(** ** Renaming *)

Definition dir_children s (dir : Inode) : option (gmap str Inode) :=
  match sb_heap s !! in_loc dir with
  | Some (_, st) => match st_kind_data st with DirectoryData children _ _ => Some children | FileData => None end
  | None => None
  end.

Definition is_Ok {E A} (o : outcome E A) : Prop := match o with Ok _ => True | _ => False end.
Lemma lock_all_ok s l : (∀ i, i ∈ l → is_Ok (get_inode_state s i)) → lock_all s l = Ok tt.
Proof.
  induction l as [|i l IH]; intros Hl; simpl; [done|].
  destruct (get_inode_state s i) eqn:Hi; simpl; [apply IH; intros; apply Hl; by right| |].
  all: specialize (Hl i ltac:(left)); by rewrite Hi in Hl.
Qed.
Lemma rename_lock_order_elem inodes i j k : k ∈ rename_lock_order inodes i j → k = i ∨ k = j.
Proof. unfold rename_lock_order. intros Hk. repeat case_match; set_solver. Qed.

Lemma state_bind_ok {S E A B} (s : S) (a : A) (k : S → A → S * outcome E B) : state_bind (s, Ok a) k = k s a.
Proof. done. Qed.

(** The clone in the destination directory: where it is, and what stays. *)
Lemma clone_in_heap s dst dpst ch w new nst data :
  sb_heap s !! in_loc dst = Some (dst, dpst) → in_loc new = fresh (dom (sb_heap s)) →
  let s2 := set_inode_state (sb_with_heap s (<[in_loc new := (new, nst)]> (sb_heap s))) dst (st_with_kind_data dpst (DirectoryData ch w data)) in
  sb_heap s2 !! in_loc new = Some (new, nst) ∧ dir_children s2 dst = Some ch ∧
  (∀ l x, l ≠ in_loc dst → sb_heap s !! l = Some x → sb_heap s2 !! l = Some x).
Proof.
  intros Hd Hfresh s2. assert (sb_heap s !! in_loc new = None) as Hn by (rewrite Hfresh; apply not_elem_of_dom, is_fresh).
  assert (in_loc new ≠ in_loc dst) as Hne by (intros He; by rewrite He, Hd in Hn). split_and!.
  - unfold s2. rewrite set_inode_state_lookup_ne by done. simpl. by rewrite lookup_insert_eq.
  - unfold dir_children, s2. rewrite set_inode_state_lookup; [done|]. exists dpst. simpl. by rewrite lookup_insert_ne.
  - intros l x Hl Hx. unfold s2. rewrite set_inode_state_lookup_ne by done. simpl. rewrite lookup_insert_ne; [done|]. congruence.
Qed.

Lemma replace_or_insert_lookup m ino new :
  replace_or_insert m ino new !! ino = Some (new, match m !! ino with Some (_, n) => n | None => 1 end).
Proof. unfold replace_or_insert. destruct (m !! ino) as [[? ?]|]; by rewrite lookup_insert_eq. Qed.

(** A file of the heap can be cloned; the clone is remote, of the same size and ETag. *)
Lemma try_clone_file s i st now :
  sb_inv prefix s → sb_heap s !! in_loc i = Some (i, st) → Inode_kind i = File →
  ∃ nst, try_clone_with_new_key i st now (cc_file_ttl cfg) = Ok nst ∧ has_local_state nst = false ∧
    stat_size (st_stat nst) = stat_size (st_stat st) ∧ stat_etag (st_stat nst) = stat_etag (st_stat st).
Proof.
  intros Hinv Hi Hfile. destruct (valid_inode_lookup prefix _ _ _ _ Hinv Hi) as (_ & _ & Hok).
  assert (is_deleted st = false) as Hd.
  { unfold state_ok, is_deleted in *. destruct (st_kind_data st); [done|]. destruct Hok. congruence. }
  unfold try_clone_with_new_key. rewrite Hfile, Hd. by eexists.
Qed.

(** A rename moves the inode.  Once S3 has renamed the object, the source
    directory no longer has the source name, the destination name leads to an
    inode with the same number, size and ETag, the key and the parent of the
    destination, and no local state; a previous entry of that name is replaced; and the
    inode map leads to the new inode, under the lookup count that the kernel knows.  All of
    it also holds when both directories are the same. *)
Theorem rename_moves_inode s src_parent dst_parent src_inode src_name dest_name dest_key
    spst dpst sst src_children dst_children src_writing dst_writing :
  sb_inv prefix s →
  sb_heap s !! in_loc src_parent = Some (src_parent, spst) → st_kind_data spst = DirectoryData src_children src_writing false →
  sb_heap s !! in_loc dst_parent = Some (dst_parent, dpst) → st_kind_data dpst = DirectoryData dst_children dst_writing false →
  sb_heap s !! in_loc src_inode = Some (src_inode, sst) → Inode_kind src_inode = File →
  Inode_name (E:=InodeError) src_inode = Ok src_name →
  ValidKey_new_child (in_valid_key dst_parent) dest_name File = Ok dest_key →
  ∃ s' new nst, rename_locked prefix cfg src_parent dst_parent src_inode dest_name dest_key s = (s', Ok tt) ∧
    in_ino new = in_ino src_inode ∧ in_valid_key new = dest_key ∧ in_parent new = in_ino dst_parent ∧
    (if bool_decide (in_ino src_parent = in_ino dst_parent)
     then dir_children s' dst_parent = Some (<[dest_name := new]> (delete src_name dst_children))
     else dir_children s' dst_parent = Some (<[dest_name := new]> dst_children) ∧
          dir_children s' src_parent = Some (delete src_name src_children)) ∧
    sb_heap s' !! in_loc new = Some (new, nst) ∧ has_local_state nst = false ∧
    stat_size (st_stat nst) = stat_size (st_stat sst) ∧ stat_etag (st_stat nst) = stat_etag (st_stat sst) ∧
    sb_inodes s' !! in_ino src_inode = Some (new, match sb_inodes s !! in_ino src_inode with Some (_, n) => n | None => 1 end).
Proof.
  intros Hinv Hsp Hspk Hdp Hdpk Hsi Hfile Hname Hkey.
  destruct (valid_inode_lookup prefix _ _ _ _ Hinv Hsp) as (Hvsp & _ & Hspok).
  assert (get_inode_state s src_parent = Ok spst) as Hgs by (unfold get_inode_state, is_deleted; by rewrite Hsp, Hspk).
  assert (get_inode_state s dst_parent = Ok dpst) as Hgd by (unfold get_inode_state, is_deleted; by rewrite Hdp, Hdpk).
  unfold rename_locked. rewrite lock_all_ok; [|intros i [-> | ->]%rename_lock_order_elem; by rewrite ?Hgs, ?Hgd].
  rewrite state_bind_ok, Hgs, state_bind_ok, Hspk, Hname, state_bind_ok. cbv zeta.
  set (spst' := st_with_kind_data spst (DirectoryData (delete src_name src_children) src_writing false)).
  set (s1 := set_inode_state s src_parent spst').
  assert (sb_heap s1 !! in_loc src_parent = Some (src_parent, spst')) as Hsp1 by by apply set_inode_state_lookup.
  assert (Inode_kind src_parent = Directory) as Hsdir by (unfold state_ok in Hspok; rewrite Hspk in Hspok; apply Hspok).
  assert (in_loc src_inode ≠ in_loc src_parent) as Hne.
  { intros He. rewrite He, Hsp in Hsi. injection Hsi as <- <-. congruence. }
  assert (sb_heap s1 !! in_loc src_inode = Some (src_inode, sst)) as Hsi1
    by (unfold s1; by rewrite set_inode_state_lookup_ne).
  destruct (try_clone_file s src_inode sst (sb_now s1) Hinv Hsi Hfile) as (nst & Hclone & Hloc & Hsize & Hetag).
  destruct (Z.eqb_spec (in_ino src_parent) (in_ino dst_parent)) as [Heq|Hneq].
  - assert (src_parent = dst_parent) as <-.
    { apply (inv_unique _ _ Hinv); [done|by exists dpst|done|done]. }
    rewrite Hsp in Hdp. injection Hdp as <-. rewrite Hspk in Hdpk. injection Hdpk as <- <-.
    assert (get_inode_state s1 src_parent = Ok spst') as -> by (unfold get_inode_state; by rewrite Hsp1).
    rewrite state_bind_ok. change (st_kind_data spst') with (DirectoryData (delete src_name src_children) src_writing false).
    unfold get_inode_state_no_check. rewrite Hsi1, state_bind_ok, Hclone, state_bind_ok. cbv zeta.
    set (new := Inode_new _ _ _ _ _).
    destruct (clone_in_heap s1 src_parent spst' (<[dest_name:=new]> (delete src_name src_children)) src_writing new nst false Hsp1) as (Hn & Hc & Ho); [done|].
    eexists _, new, nst. split; [done|]. rewrite bool_decide_eq_true_2 by done. ands; [done|done|done|exact Hc|exact Hn|done|done|done|].
    apply replace_or_insert_lookup.
  - assert (in_loc dst_parent ≠ in_loc src_parent) as Hne2.
    { intros He. rewrite He, Hsp in Hdp. congruence. }
    assert (sb_heap s1 !! in_loc dst_parent = Some (dst_parent, dpst)) as Hdp1.
    { unfold s1. by rewrite set_inode_state_lookup_ne. }
    assert (get_inode_state s1 dst_parent = Ok dpst) as -> by (unfold get_inode_state, is_deleted; by rewrite Hdp1, Hdpk).
    unfold get_inode_state_no_check. rewrite state_bind_ok, Hdpk, Hsi1, state_bind_ok, Hclone, state_bind_ok. cbv zeta.
    set (new := Inode_new _ _ _ _ _).
    destruct (clone_in_heap s1 dst_parent dpst (<[dest_name:=new]> dst_children) dst_writing new nst false Hdp1) as (Hn & Hc & Ho); [done|].
    eexists _, new, nst. split; [done|]. rewrite bool_decide_eq_false_2 by done. ands; [done|done|done|exact Hc| |exact Hn|done|done|done|].
    + unfold dir_children. erewrite Ho; [|by apply not_eq_sym|exact Hsp1]. done.
    + apply replace_or_insert_lookup.
Qed.

(** ** Failed renames *)

(** Only the inodes at [X] are being renamed. *)
Definition pending_only (X : gset Loc) s : Prop :=
  ∀ l i st, sb_heap s !! l = Some (i, st) → st_write_status st = PendingRename → l ∈ X.
Definition keeps {A} (X : gset Loc) (p : prog A) : Prop := ∀ env s, pending_only X s → pending_only X (run env p s).1.
Definition fails_clean {A} (X : gset Loc) (p : prog A) : Prop :=
  ∀ env s s' e, pending_only X s → run env p s = (s', Err e) → pending_only X s'.

Lemma keeps_fails_clean {A} X (p : prog A) : keeps X p → fails_clean X p.
Proof. intros Hk env s s' e Hs Hr. specialize (Hk env s Hs). by rewrite Hr in Hk. Qed.
Lemma keeps_bind {A B} X (p : prog A) (f : A → prog B) : keeps X p → (∀ a, keeps X (f a)) → keeps X (p ≫= f).
Proof.
  intros Hp Hf env s Hs. rewrite run_bind. specialize (Hp env s Hs). destruct (run env p s) as [s' [a|e|]]; [by apply Hf|done|done].
Qed.
Lemma fails_bind {A B} X (p : prog A) (f : A → prog B) : keeps X p → (∀ a, fails_clean X (f a)) → fails_clean X (p ≫= f).
Proof.
  intros Hp Hf env s s' e Hs. rewrite run_bind. specialize (Hp env s Hs).
  destruct (run env p s) as [s1 [a|e1|]]; [by apply Hf| |done]. by intros [= <- <-].
Qed.
Lemma keeps_attempt {A} X (p : prog A) : keeps X p → keeps X (attempt p).
Proof. intros Hp env s Hs. rewrite run_attempt. specialize (Hp env s Hs). by destruct (run env p s) as [s' [a|e|]]. Qed.
Lemma keeps_atomic {A} X (act : Superblock → Superblock * outcome InodeError A) :
  (∀ s, pending_only X s → pending_only X (act s).1) → keeps X (atomic act).
Proof. intros Ha env s Hs. rewrite run_atomic. by apply Ha. Qed.
Lemma keeps_lift {A} X (o : outcome InodeError A) : keeps X (lift o).
Proof. intros env s Hs. by rewrite run_lift. Qed.
Lemma keeps_same X s s' : sb_heap s' = sb_heap s → pending_only X s → pending_only X s'.
Proof. unfold pending_only. by intros ->. Qed.
Lemma keeps_set X s i st :
  pending_only X s → (st_write_status st = PendingRename → in_loc i ∈ X) → pending_only X (set_inode_state s i st).
Proof.
  intros Hs Hi l j stj Hl. simpl in Hl. destruct (decide (in_loc i = l)) as [<-|Hne].
  - rewrite lookup_alter_eq in Hl. destruct (sb_heap s !! in_loc i) as [[? ?]|]; [|done]. by simplify_eq/=.
  - rewrite lookup_alter_ne in Hl by done. by apply (Hs l j stj).
Qed.
Lemma get_pending X s i st : pending_only X s → get_inode_state s i = Ok st → st_write_status st = PendingRename → in_loc i ∈ X.
Proof.
  unfold get_inode_state. intros Hs Hg. destruct (sb_heap s !! in_loc i) as [[j st']|] eqn:Hl; [|done].
  destruct (is_deleted st'); simplify_eq. by apply (Hs _ j st).
Qed.
Lemma keeps_alloc X s l i st : pending_only X s → st_write_status st ≠ PendingRename →
  pending_only X (sb_with_heap s (<[l := (i, st)]> (sb_heap s))).
Proof.
  intros Hs Hst l' j stj Hl. simpl in Hl. apply lookup_insert_Some in Hl as [[<- [= <- <-]]|[_ Hl]]; [done|].
  by apply (Hs l' j stj).
Qed.

(** Steps through the bindings of an atomic section. *)
Ltac keeps_step :=
  cbn [state_bind];
  match goal with
  | |- context [match ?o with Ok _ => _ | Err _ => _ | Panic => _ end] =>
      let E := fresh "E" in destruct o eqn:E; [|done|done]
  end.

(** The status written back is the one that was read. *)
Ltac same_status :=
  let Hp := fresh in intros Hp;
  match goal with
  | Hs : pending_only _ ?s, H : get_inode_state ?s ?i = Ok _ |- in_loc ?i ∈ _ => exact (get_pending _ _ _ _ Hs H Hp)
  end.

Lemma create_inode_locked_keeps X parent pst name kind state is_new s :
  pending_only X s → (st_write_status pst = PendingRename → in_loc parent ∈ X) → st_write_status state ≠ PendingRename →
  pending_only X (create_inode_locked prefix parent pst name kind state is_new s).1.
Proof.
  intros Hs Hp Hst. unfold create_inode_locked. keeps_step. destruct (st_kind_data pst); [by apply (keeps_same X s)|].
  apply keeps_set; [|done]. apply (keeps_alloc X (sb_with_next_ino s _)); [|done]. by apply (keeps_same X s).
Qed.

Lemma sb_get_keeps X ino : keeps X (sb_get prefix ino).
Proof. by apply keeps_atomic. Qed.
Lemma update_from_remote_keeps X ino name r : keeps X (update_from_remote prefix cfg ino name r).
Proof.
  apply keeps_bind; [apply sb_get_keeps|]. intros parent. case_if Hk; [by intros env s Hs|].
  apply keeps_bind; [apply keeps_atomic; intros s; apply keeps_same; apply negative_cache_same|]. intros _.
  apply keeps_bind; [apply keeps_atomic|intros [l|]; [by intros env s Hs|apply keeps_atomic]]; intros s Hs.
  - unfold try_update_fast_path. keeps_step. keeps_step. destruct a0 as [[ch w] d]. destruct r as [r|], (ch !! name) as [c|]; simpl; try done.
    keeps_step. case_if Hc; [|done]. apply keeps_set; [done|]. same_status.
  - unfold update_slow_path. keeps_step. keeps_step. destruct a0 as [[ch w] d].
    destruct r as [r|], (ch !! name) as [c|]; try done.
    + keeps_step. case_if H1; [done|]. case_if H2; [case_if H3|].
      * apply keeps_set; [by apply keeps_set|]. same_status.
      * apply keeps_set; [done|]. same_status.
      * rewrite state_bind_fst. apply create_inode_locked_keeps; [done| |done]. same_status.
    + rewrite state_bind_fst. apply create_inode_locked_keeps; [done| |done]. same_status.
    + case_if H1; [keeps_step|].
      * apply keeps_set; [done|]. same_status.
      * apply keeps_set; [done|]. same_status.
Qed.

Lemma lookup_by_name_keeps X ino name allow_cache : keeps X (lookup_by_name prefix cfg mount_time ino name allow_cache).
Proof.
  apply keeps_bind; [apply keeps_lift|]. intros n. apply keeps_bind.
  { destruct allow_cache; [|by intros env s Hs]. apply keeps_bind; [apply keeps_attempt, sb_get_keeps|]. intros [e|parent]; [by intros env s Hs|].
    apply keeps_bind; [by apply keeps_atomic|]. intros [found|]; [by intros env s Hs|].
    apply keeps_bind; [by apply keeps_atomic|]. by intros negative env s Hs. }
  intros cached. apply keeps_bind.
  { destruct cached as [[e|l]|]; [by intros env s Hs..|]. apply keeps_bind; [|intros r; apply update_from_remote_keeps].
    apply keeps_bind; [apply sb_get_keeps|]. intros parent. apply keeps_bind; [apply keeps_lift|]. intros key.
    apply keeps_bind; [by intros env s Hs|]. intros [[df head] list]. apply keeps_bind; [by apply keeps_atomic|].
    intros now. apply keeps_lift. }
  intros l. apply keeps_bind; [apply keeps_lift|]. by intros _ env s Hs.
Qed.

(** The guard: whatever the body does, failing leaves the inode as it was before. *)
Lemma guard_fails_clean {A} X i (body : prog A) :
  fails_clean ({[ in_loc i ]} ∪ X) body →
  fails_clean X (_ ← try_transition i; on_error (PendingRenameGuard_drop i) body).
Proof.
  intros Hbody env s s' e Hs. rewrite run_bind. unfold try_transition. rewrite run_atomic.
  destruct (get_inode_state s i) as [st|e1|] eqn:Hg; cbn [state_bind]; [|by intros [= <- <-]|done].
  destruct (st_write_status st); [by intros [= <- <-]..| |by intros [= <- <-]]. rewrite run_on_error.
  set (s1 := set_inode_state s i (st_with_status st PendingRename)).
  assert (pending_only ({[in_loc i]} ∪ X) s1) as Hs1.
  { apply keeps_set; [|set_solver]. intros l j stj Hl Hp. apply elem_of_union_r. by apply (Hs l j stj). }
  destruct (run env body s1) as [s2 [a|e2|]] eqn:Hr; [done| |done]. pose proof (Hbody env s1 s2 e2 Hs1 Hr) as Hs2.
  unfold PendingRenameGuard_drop. rewrite run_atomic. destruct (get_inode_state s2 i) as [st2|e3|] eqn:Hg2; [|done|done].
  intros [= <- <-]. case_bool_decide as Hp2.
  - intros l j stj Hl Hp. simpl in Hl. destruct (decide (in_loc i = l)) as [<-|Hne].
    + rewrite lookup_alter_eq in Hl. destruct (sb_heap s2 !! in_loc i) as [[? ?]|]; [|done]. by simplify_eq/=.
    + rewrite lookup_alter_ne in Hl by done. pose proof (Hs2 l j stj Hl Hp). set_solver.
  - intros l j stj Hl Hp. destruct (decide (in_loc i = l)) as [<-|Hne]; [|pose proof (Hs2 l j stj Hl Hp); set_solver].
    unfold get_inode_state in Hg2. rewrite Hl in Hg2. destruct (is_deleted stj); by simplify_eq.
Qed.

Lemma rename_locked_keeps X src_parent dst_parent src_inode dest_name dest_key s :
  pending_only X s → pending_only X (rename_locked prefix cfg src_parent dst_parent src_inode dest_name dest_key s).1.
Proof.
  intros Hs. unfold rename_locked. destruct (lock_all _ _); cbn [state_bind]; [|done|done].
  destruct (get_inode_state s src_parent) as [pst| |] eqn:E1; cbn [state_bind]; [|done|done].
  destruct (st_kind_data pst) as [|ch w d]; [done|]. destruct (Inode_name src_inode) as [nm| |]; cbn [state_bind]; [|done|done].
  set (s1 := set_inode_state s src_parent _). assert (pending_only X s1) as Hs1 by (apply keeps_set; [done|same_status]).
  set (dst := if in_ino src_parent =? in_ino dst_parent then src_parent else dst_parent).
  destruct (get_inode_state s1 dst) as [dst_st| |] eqn:E2; cbn [state_bind]; [|done|done].
  destruct (st_kind_data dst_st) as [|dch dw dd]; [done|].
  destruct (get_inode_state_no_check s1 src_inode) as [sst| |] eqn:E3; cbn [state_bind]; [|done|done].
  destruct (try_clone_with_new_key _ _ _ _) as [nst| |] eqn:E4; cbn [state_bind]; [|done|done].
  eapply (keeps_same X (set_inode_state _ dst _)); [done|]. apply keeps_set; [|same_status]. apply keeps_alloc; [done|].
  unfold try_clone_with_new_key in E4. destruct (Inode_kind src_inode); [|done]. destruct (is_deleted sst); [done|]. by injection E4 as <-.
Qed.

Lemma rename_remote_keeps X src_parent dst_parent src_inode dst_name allow_overwrite :
  keeps X (rename_remote prefix cfg src_parent dst_parent src_inode dst_name allow_overwrite).
Proof.
  apply keeps_bind; [apply keeps_lift|]. intros name. apply keeps_bind; [apply keeps_lift|]. intros key.
  apply keeps_bind; [by intros env s Hs|]. intros r. destruct r; try by intros env s Hs.
  all: apply keeps_bind; [apply keeps_atomic; intros s; apply keeps_same; unfold cache_rename; by destruct (sb_rename_supported s)|]; intros _.
  - apply keeps_bind; [apply keeps_atomic; intros s; by apply keeps_same|]. intros _. apply keeps_atomic. apply rename_locked_keeps.
  - by intros env s Hs.
Qed.

(** C23. A rename that fails leaves nothing behind.  Whatever goes wrong, before, in or after the
    RenameObject request, at the source or at the destination, no inode is left in
    the [PendingRename] state, in which it could not be renamed, unlinked or opened for
    writing any more. *)
Theorem failed_rename_is_undone env s src_parent_ino src_name dst_parent_ino dst_name allow_overwrite s' e :
  pending_only ∅ s →
  run env (sb_rename prefix cfg mount_time src_parent_ino src_name dst_parent_ino dst_name allow_overwrite) s = (s', Err e) →
  pending_only ∅ s'.
Proof.
  intros Hs. revert env s s' e Hs. change (fails_clean ∅ (sb_rename prefix cfg mount_time src_parent_ino src_name dst_parent_ino dst_name allow_overwrite)).
  apply fails_bind; [by apply keeps_atomic|]. intros try_rename. case_if H1; [apply keeps_fails_clean; by intros env s Hs|].
  apply fails_bind; [apply sb_get_keeps|]. intros src_parent. apply fails_bind; [apply sb_get_keeps|]. intros dst_parent.
  apply fails_bind; [apply lookup_by_name_keeps|]. intros src. cbv zeta. case_if H2; [apply keeps_fails_clean; by intros env s Hs|].
  apply guard_fails_clean. apply fails_bind; [apply keeps_attempt, lookup_by_name_keeps|]. intros [err|dest].
  - apply keeps_fails_clean, rename_remote_keeps.
  - cbv zeta. case_if H3; [apply keeps_fails_clean; by intros env s Hs|]. apply guard_fails_clean.
    apply keeps_fails_clean, rename_remote_keeps.
Qed.

End operations.

(** ** Witnesses: a bucket with the objects "f", "d" and "d/x" *)

Definition object_info (x : str * HeadObjectResult) : ObjectInfo :=
  {| oi_key := x.1; oi_size := ho_size x.2; oi_last_modified := ho_last_modified x.2; oi_storage_class := ho_storage_class x.2;
     oi_restore_status := ho_restore_status x.2; oi_etag := ho_etag x.2 |}.
Fixpoint first_component (s : str) : str :=
  match s with
  | [] => []
  | c :: s => if decide (c = delimiter) then [] else c :: first_component s
  end.
(** ListObjectsV2 with the delimiter, all in one page *)
Definition list_bucket (bucket : gmap str HeadObjectResult) (p : str) : ListObjectsResult :=
  let under := filter (λ x, p `prefix_of` x.1) (map_to_list bucket) in
  {| lo_common_prefixes :=
       remove_dups (map (λ x, p ++ first_component (drop (length p) x.1) ++ [delimiter]) (filter (λ x, delimiter ∈ drop (length p) x.1) under));
     lo_objects := map object_info (filter (λ x, delimiter ∉ drop (length p) x.1) under);
     lo_next_continuation_token := None |}.
Lemma list_bucket_ok bucket p : listing_ok p (list_bucket bucket p).
Proof.
  split; simpl; apply list.Forall_forall.
  - intros q [x [-> _]]%elem_of_remove_dups%list_elem_of_fmap. by eexists.
  - intros o (x & -> & [_ [Hp _]%list_elem_of_filter]%list_elem_of_filter)%list_elem_of_fmap. done.
Qed.

(** S3 as a function of the bucket's contents *)
Definition bucket_env (bucket : gmap str HeadObjectResult) (rename : rename_response) (c : call) : response c :=
  match c with
  | HeadAndList key dir =>
      (false, match bucket !! key with Some r => HeadOk r | None => HeadNotFound end,
       Some {| lo_common_prefixes := []; lo_objects := map object_info (filter (λ x, dir `prefix_of` x.1) (map_to_list bucket));
               lo_next_continuation_token := None |})
  | ListObjects _ _ p => Some (list_bucket bucket p)
  | DeleteObject _ => true
  | RenameObject _ _ _ => rename
  | WaitForCompletion _ => inr None
  end.
Lemma bucket_env_ok bucket rename : env_ok (bucket_env bucket rename).
Proof. intros []; try done. apply list_bucket_ok. Qed.
Lemma bucket_env_reflects bucket rename : reflects bucket (bucket_env bucket rename).
Proof.
  intros key dir. eexists _, _, _. split; [done|]. split; [done|]. cbn [lo_common_prefixes lo_objects]. split; [|split; [constructor|]].
  - split.
    + intros [?|Hne]; [done|]. destruct (filter _ _) as [|[k r] l] eqn:Hf; [done|].
      assert ((k, r) ∈ filter (λ x, dir `prefix_of` x.1) (map_to_list bucket)) as Hin by (rewrite Hf; left).
      apply list_elem_of_filter in Hin as [Hp Hin%elem_of_map_to_list]. exists k. by rewrite Hin.
    + intros (k & [r Hr] & Hp). right. intros Hnil%fmap_nil_inv.
      assert ((k, r) ∈ filter (λ x, dir `prefix_of` x.1) (map_to_list bucket)) as Hin.
      { apply list_elem_of_filter. split; [done|]. by apply elem_of_map_to_list. }
      rewrite Hnil in Hin. by apply elem_of_nil in Hin.
  - apply list.Forall_forall. intros o ([k' r] & -> & [Hp _]%list_elem_of_filter)%list_elem_of_fmap. done.
Qed.

Definition an_object (size : Z) : HeadObjectResult :=
  {| ho_size := size; ho_last_modified := 7; ho_restore_status := None; ho_etag := "etag"; ho_storage_class := None |}.
Definition test_bucket : gmap str HeadObjectResult :=
  <[str_of "f" := an_object 3]> (<[str_of "d" := an_object 4]> (<[str_of "d/x" := an_object 5]> ∅)).
Definition test_sb : Superblock := Superblock_new (crc := sum_crc) Prefix_empty (test_config false 100 100) 0 0.
Definition test_root : Inode := Inode_new (crc := sum_crc) 1 1 1 ValidKey_root Prefix_empty.

Lemma test_sb_inv : sb_inv (crc := sum_crc) Prefix_empty test_sb.
Proof. apply Superblock_new_inv. Qed.
Lemma test_sb_root : ∃ st, tracked_dir test_sb 1 test_root st ∅ ∅.
Proof. eexists. split; [by exists 1|]. by split. Qed.

Lemma test_bucket_d : is_prefix_in test_bucket (directory_key Prefix_empty test_root (str_of "d")).
Proof. exists (str_of "d/x"). split; [exists (an_object 5); by vm_compute|by exists (str_of "x")]. Qed.

(** "d" is shadowed by the directory "d/" *)
Lemma lookup_reflects_bucket_witness :
  is_prefix_in test_bucket (directory_key Prefix_empty test_root (str_of "d")) ∧
  match run (bucket_env test_bucket RenameOk) (lookup_by_name (crc := sum_crc) Prefix_empty (test_config false 100 100) 0 1 (str_of "d") false) test_sb with
  | (_, Ok l) => in_ino (lu_inode l) = 2 ∧ Inode_kind (lu_inode l) = Directory
  | _ => False
  end.
Proof.
  pose proof test_bucket_d as Hp. split; [done|]. destruct test_sb_root as [st Hroot].
  pose proof (lookup_reflects_bucket (crc := sum_crc) Prefix_empty (test_config false 100 100) 0 test_bucket (bucket_env test_bucket RenameOk)
    test_sb 1 test_root st ∅ ∅ (str_of "d") (bucket_env_ok _ _) test_sb_inv eq_refl (bucket_env_reflects _ _) Hroot eq_refl eq_refl) as H.
  destruct (run _ _ _) as [s' [l|e|]]; [|by destruct H as (_ & ? & _)|done].
  destruct H as (Hino & _ & Hk). split; [exact Hino|]. by destruct (Inode_kind (lu_inode l)); [destruct Hk|].
Defined.

(** creating "a" in the empty bucket and looking it up when an object "a" has appeared *)
Lemma created_child_is_visible_witness :
  ∃ s1 lk s2 lk', run empty_bucket (sb_create (crc := sum_crc) Prefix_empty (test_config false 100 100) 0 1 (str_of "a") File) test_sb = (s1, Ok lk) ∧
    run (bucket_env {[ str_of "a" := an_object 9 ]} RenameOk) (sb_lookup (crc := sum_crc) Prefix_empty (test_config false 100 100) 0 1 (str_of "a"))
      (sb_with_now s1 5000) = (s2, Ok lk') ∧ lk_ino lk' = lk_ino lk.
Proof.
  destruct test_sb_root as [st Hroot].
  destruct (created_child_is_visible (crc := sum_crc) Prefix_empty (test_config false 100 100) 0 ∅ (bucket_env ∅ RenameOk) test_sb 1 test_root st ∅ ∅
    (str_of "a") File eq_refl (bucket_env_ok _ _) test_sb_inv eq_refl (bucket_env_reflects _ _) Hroot eq_refl eq_refl)
    as (s1 & lk & i & Hc & _ & _ & _ & _ & Hl).
  - by intros (k & [r Hr] & _).
  - done.
  - destruct (Hl {[ str_of "a" := an_object 9 ]} (bucket_env {[ str_of "a" := an_object 9 ]} RenameOk) 5000)
      as (s2 & lk' & Hr & Hino & _); [apply bucket_env_ok|apply bucket_env_reflects| |].
    + intros (k & [r Hr] & [tail Hp]). apply lookup_singleton_Some in Hr as [<- _]. by vm_compute in Hp.
    + exists s1, lk, s2, lk'. split; [|by split]. rewrite <-Hc. by vm_compute.
Defined.


(** renaming "f" to "g" when S3 has lost "f" meanwhile *)
Lemma failed_rename_is_undone_witness :
  ∃ s', run (bucket_env test_bucket RenameKeyNotFound)
      (sb_rename (crc := sum_crc) Prefix_empty (test_config false 100 100) 0 1 (str_of "f") 1 (str_of "g") false) test_sb =
      (s', Err (InodeDoesNotExist 2)) ∧ pending_only ∅ s'.
Proof.
  destruct (run (bucket_env test_bucket RenameKeyNotFound)
    (sb_rename (crc := sum_crc) Prefix_empty (test_config false 100 100) 0 1 (str_of "f") 1 (str_of "g") false) test_sb) as [s' o] eqn:Hr.
  assert (o = Err (InodeDoesNotExist 2)) as ->.
  { change o with (snd (s', o)). rewrite <-Hr. by vm_compute. }
  exists s'. split; [done|]. refine (failed_rename_is_undone (crc := sum_crc) _ _ _ _ _ _ _ _ _ _ _ _ _ Hr).
  intros l i st Hl Hp. unfold test_sb in Hl. simpl in Hl. apply lookup_singleton_Some in Hl as [_ [= _ <-]]. done.
Defined.

(** the state after creating the file "a", and after looking up the remote file "f" *)
Definition test_sb_a : Superblock :=
  fst (run (bucket_env ∅ RenameOk) (sb_create (crc := sum_crc) Prefix_empty (test_config false 100 100) 0 1 (str_of "a") File) test_sb).
Definition test_sb_f : Superblock :=
  fst (run (bucket_env test_bucket RenameOk) (sb_lookup (crc := sum_crc) Prefix_empty (test_config false 100 100) 0 1 (str_of "f")) test_sb).
Lemma test_root_dir : dir_ino test_sb 1.
Proof. exists test_root. split; [by eexists|done]. Qed.
Lemma test_sb_a_inv : sb_inv (crc := sum_crc) Prefix_empty test_sb_a.
Proof.
  pose proof (run_rg Prefix_empty (bucket_env ∅ RenameOk) False _ test_sb _ (bucket_env_ok _ _) test_sb_inv
    (sb_create_rg (crc := sum_crc) Prefix_empty (test_config false 100 100) 0 False 1 (str_of "a") File test_sb test_root_dir)) as H.
  unfold test_sb_a. destruct (run _ _ _) as [s [l|e|]] eqn:Hrun; simpl; [by destruct H as (_ & ? & _)|by destruct H as (_ & ? & _)|].
  by vm_compute in Hrun.
Qed.
Lemma test_sb_f_inv : sb_inv (crc := sum_crc) Prefix_empty test_sb_f.
Proof.
  pose proof (run_rg Prefix_empty (bucket_env test_bucket RenameOk) False _ test_sb _ (bucket_env_ok _ _) test_sb_inv
    (sb_lookup_rg (crc := sum_crc) Prefix_empty (test_config false 100 100) 0 False 1 (str_of "f") test_sb test_root_dir)) as H.
  unfold test_sb_f. destruct (run _ _ _) as [s [l|e|]] eqn:Hrun; simpl; [by destruct H as (_ & ? & _)|by destruct H as (_ & ? & _)|].
  by vm_compute in Hrun.
Qed.

(** S3 has another file "a" by now: the local one is returned *)
Lemma local_state_shadows_remote_witness :
  ∃ s' l, run (bucket_env ∅ RenameOk) (update_from_remote (crc := sum_crc) Prefix_empty (test_config false 100 100) 1 (str_of "a")
      (Some {| rl_kind := File; rl_stat := InodeStat_for_file 9 9 (Some "other") None None 0 100 |})) test_sb_a = (s', Ok l) ∧
    in_ino (lu_inode l) = 2 ∧ stat_size (lu_stat l) = 0.
Proof.
  assert (∃ st ch w child cst, tracked_dir test_sb_a 1 test_root st ch w ∧ ch !! str_of "a" = Some child ∧
    sb_heap test_sb_a !! in_loc child = Some (child, cst) ∧ is_deleted cst = false ∧ (st_write_status cst ≠ Remote ∨ is_Some (st_pending_upload_hook cst)) ∧
    in_ino child = 2 ∧ stat_size (st_stat cst) = 0) as (st & ch & w & child & cst & Hd & Hc & Hh & Hdel & Hl & Hi & Hs).
  { eexists _, _, _, _, _. split; [split; [exists 1; by vm_compute|split; by vm_compute]|].
    split; [by vm_compute|]. split; [by vm_compute|]. split; [by vm_compute|]. split; [left; by vm_compute|]. split; by vm_compute. }
  destruct (local_state_shadows_remote (crc := sum_crc) Prefix_empty (test_config false 100 100) (bucket_env ∅ RenameOk) test_sb_a 1 test_root st ch w
    (str_of "a") child cst (Some {| rl_kind := File; rl_stat := InodeStat_for_file 9 9 (Some "other") None None 0 100 |})
    test_sb_a_inv Hd eq_refl Hc Hh Hdel Hl ltac:(done)) as (s' & l & Hr & Hli & Hst & _).
  exists s', l. split; [done|]. rewrite Hli, Hst. done.
Defined.

(** renaming "f" to "g" in the root *)
Lemma rename_moves_inode_witness :
  ∃ src s' new children, sb_inodes test_sb_f !! 2 = Some (src, 1) ∧
    rename_locked (crc := sum_crc) Prefix_empty (test_config false 100 100) test_root test_root src (str_of "g")
      {| vk_key := str_of "g"; vk_name_offset := 0 |} test_sb_f = (s', Ok tt) ∧
    dir_children s' test_root = Some children ∧ children !! str_of "g" = Some new ∧ children !! str_of "f" = None ∧ in_ino new = 2.
Proof.
  assert (∃ st ch w src sst, sb_inodes test_sb_f !! 2 = Some (src, 1) ∧ sb_heap test_sb_f !! in_loc test_root = Some (test_root, st) ∧
    st_kind_data st = DirectoryData ch w false ∧ sb_heap test_sb_f !! in_loc src = Some (src, sst) ∧ Inode_kind src = File ∧
    Inode_name (E:=InodeError) src = Ok (str_of "f") ∧ in_ino src = 2) as (st & ch & w & src & sst & Hm & Hr & Hk & Hs & Hf & Hn & Hi).
  { eexists _, _, _, _, _. split; [by vm_compute|]. split; [by vm_compute|]. split; [by vm_compute|]. split; by vm_compute. }
  destruct (rename_moves_inode (crc := sum_crc) Prefix_empty (test_config false 100 100) test_sb_f test_root test_root src (str_of "f") (str_of "g")
    {| vk_key := str_of "g"; vk_name_offset := 0 |} st st sst ch ch w w test_sb_f_inv Hr Hk Hr Hk Hs Hf Hn eq_refl)
    as (s' & new & nst & Hrun & Hino & _ & _ & Hch & _).
  rewrite bool_decide_eq_true_2 in Hch by done. eexists src, s', new, _. split; [done|]. split; [done|]. split; [done|].
  split; [by rewrite lookup_insert_eq|]. split; [|by rewrite Hino]. rewrite lookup_insert_ne by done. by rewrite lookup_delete_eq.
Defined.

(** ** What the negative cache and concurrent renames can do *)

(** A concurrent rename can make [rmdir] panic. [rmdir] assumes that only files can be in the
    [PendingRename] state, but a rename also puts an existing directory with the destination's
    name into it while it waits for S3: there is an interleaving in which [rmdir] of that directory panics. *)
Theorem rmdir_panics_during_rename :
  ∃ s ts,
    reachable (sys_step (crc := sum_crc) Prefix_empty (test_config true 100 100) 0 true)
      (sys_start (crc := sum_crc) Prefix_empty (test_config true 100 100) 0 0) (s, ts) ∧
    ts !! 1%nat = Some (HRmdir 1 (str_of "d"), Crash).
Proof.
  set (cfg := test_config true 100 100). set (s0 := Superblock_new (crc := sum_crc) Prefix_empty cfg 0 0).
  set (h0 := HRename 1 (str_of "f") 1 (str_of "d") true). set (h1 := HRmdir 1 (str_of "d")).
  set (x := schedule (bucket_env test_bucket RenameOk)
    (s0, [(h0, handler_prog (crc := sum_crc) Prefix_empty cfg 0 true h0); (h1, handler_prog (crc := sum_crc) Prefix_empty cfg 0 true h1)])
    (replicate 27 0 ++ replicate 8 1)%nat).
  exists (fst x), (snd x). split; [|by vm_compute]. rewrite <-surjective_pairing.
  assert (dir_ino s0 1) as Hd by (exists test_root; split; [by eexists|done]).
  apply schedule_reachable; [apply bucket_env_ok|].
  eapply (reachable_step _ _ (s0, [(h0, _)])); [eapply (reachable_step _ _ (s0, [])); [by constructor|]|].
  - by apply (sys_arrive Prefix_empty _ 0 true s0 [] h0).
  - by apply (sys_arrive Prefix_empty _ 0 true s0 [_] h1).
Qed.
