(* ===== verification/FileHandles.v ===== *)
(** * File handles ([fs/handles.rs], [fs/error.rs], [metablock/pending_upload.rs])

    An open file is a read handle with a prefetcher request or a write handle
    with the state of its upload.  The operations of [UploadState] are programs of
    the superblock: they call the metablock, whose answers depend on what
    other handlers do in between.  The lock of a handle is held for the whole of
    each operation, so the operations on one handle are sequential.

    Uploads and the prefetcher are interfaces here ([FileUploader],
    [FilePrefetcher]); the files [Upload], [AppendUploadSpec] and [Prefetch]
    implement them. *)

From S2P Require Import Prelude Checksums Part PartQueue Upload NegativeCache Path HandlesMap Inode Superblock.
Local Open Scope Z_scope.

(** ** Errors *)

Definition EPERM : Z := 1.
Definition ENOENT : Z := 2.
Definition EIO : Z := 5.
Definition EBADF : Z := 9.
Definition EACCES : Z := 13.
Definition EEXIST : Z := 17.
Definition ENOTDIR : Z := 20.
Definition EISDIR : Z := 21.
Definition EINVAL : Z := 22.
Definition EFBIG : Z := 27.
Definition ENOSPC : Z := 28.
Definition ENAMETOOLONG : Z := 36.
Definition ENOSYS : Z := 38.
Definition ENOTEMPTY : Z := 39.
Definition ESTALE : Z := 116.

(** [Error]: what the kernel is told, and the message that is logged. *)
Record Error := err { errno : Z; message : string }.

Definition InodeError_to_errno (e : InodeError) : Z :=
  match e with
  | Inode.ClientError _ _ => EIO
  | FileDoesNotExist _ _ => ENOENT
  | InodeDoesNotExist _ => ENOENT
  | InvalidFileNameError _ => EINVAL
  | NotADirectoryError _ => ENOTDIR
  | IsDirectory _ => EISDIR
  | FileAlreadyExists _ => EEXIST
  | InodeNotWritable _ => EPERM
  | InodeInvalidWriteStatus _ => EPERM
  | InodeAlreadyWriting _ => EPERM
  | InodeNotReadableWhileWriting _ => EPERM
  | InodeNotWritableWhileReading _ => EPERM
  | CannotRemoveRemoteDirectory _ => EPERM
  | DirectoryNotEmpty _ => ENOTEMPTY
  | UnlinkNotPermittedWhileWriting _ => EPERM
  | CorruptedMetadata _ => EIO
  | SetAttrNotPermittedOnRemoteInode _ => EPERM
  | StaleInode _ _ _ => ESTALE
  | CannotRenameDirectory _ => EPERM
  | RenameDestinationExists _ _ => EEXIST
  | RenameNotPermittedWhileWriting _ => EPERM
  | RenameNotSupported => ENOSYS
  | NameTooLong _ => ENAMETOOLONG
  | OutOfOrderReadDir _ _ _ => EBADF
  | NoSuchDirHandle _ => EINVAL
  | FlexibleRetrievalObjectNotAccessible _ => EACCES
  end.

Definition UploadError_to_errno (e : UploadError) : Z :=
  match e with
  | PutRequestFailed _ => EIO
  | UploadAlreadyTerminated => EIO
  | UploadSseCorrupted _ => EIO
  | ChecksumComputationFailed _ => EIO
  | HeadObjectFailed _ => EIO
  | OutOfOrderWrite _ _ => EINVAL
  | ObjectTooBig _ => EFBIG
  end.

Definition Error_from_InodeError (e : InodeError) : Error := err (InodeError_to_errno e) "inode error".
Definition Error_from_UploadError (e : UploadError) : Error := err (UploadError_to_errno e) "upload error".
Definition Error_from_PrefetchReadError (e : PrefetchReadError) : Error :=
  match e with
  | GetRequestFailed (GetServiceError GetPreconditionFailed) => err ESTALE "object was mutated remotely"
  | GetRequestFailed _ => err EIO "get request failed"
  | PrefetchIntegrity _ => err EIO "integrity error"
  | PartReadFailed _ => err EIO "part read failed"
  | GetRequestTerminatedUnexpectedly | GetRequestReturnedWrongOffset _ _ | BackpressurePreconditionFailed | ReadWindowIncrement =>
      err EIO "get request failed"
  end.

(** [InodeError::upload_error] *)
Definition upload_error (_ : UploadError) (key : str) : InodeError := Inode.ClientError "upload error" key.

(** ** The interfaces that a handle uses

    The first argument of an operation that starts a request counts the requests of the file system, so that
    equal requests at different times can have different fates. *)

Class FileUploader := {
  AtomicUpload : Type;
  AppendUpload : Type;
  start_atomic_upload : nat → str → outcome UploadError AtomicUpload;
  atomic_write : AtomicUpload → Z → bytes → AtomicUpload * outcome UploadError Z;
  atomic_size : AtomicUpload → Z;
  atomic_complete : AtomicUpload → outcome UploadError PutObjectResult;
  start_append_upload : nat → str → Z → option ETag → outcome UploadError AppendUpload;
  append_write : AppendUpload → Z → bytes → AppendUpload * outcome UploadError Z;
  append_current_offset : AppendUpload → Z;
  append_complete : AppendUpload → outcome UploadError (option PutObjectResult);
}.

Class FilePrefetcher := {
  ReadRequest : Type;
  prefetch : nat → ObjectId → Z → Z → outcome PrefetchReadError ReadRequest;
  prefetch_read : ReadRequest → Z → Z → ReadRequest * outcome PrefetchReadError ChecksummedBytes;
}.

(** [/proc]: the thread group of a process *)
Class ProcFs := { get_tgid : Z → option Z }.

Definition are_from_same_process `{ProcFs} (pid1 pid2 : Z) : bool :=
  if pid1 =? pid2 then true
  else
    match get_tgid pid1, get_tgid pid2 with
    | Some tgid1, Some tgid2 => tgid1 =? tgid2
    | _, _ => false
    end.

(** ** Handles *)

Section handles.
Context `{crc : Crc32c, up : FileUploader, pf : FilePrefetcher, proc : ProcFs}.
Context (prefix : Prefix) (cfg : CacheConfig).

Inductive UploadState :=
| AppendInProgress (request : AppendUpload) (initial_etag : option ETag) (written_bytes : Z)
| MPUInProgress (request : AtomicUpload)
| Completed
(** the failure reason, to respond to retries *)
| Failed (e : Z).

Inductive FileHandleState :=
| ReadState (request : ReadRequest) (flushed : bool)
| WriteState (state : UploadState) (flushed : bool).

Record FileHandle := {
  h_ino : Z;
  h_location : str;
  h_state : FileHandleState;
  h_open_pid : Z;
}.
Definition h_with_state (h : FileHandle) (state : FileHandleState) : FileHandle :=
  {| h_ino := h_ino h; h_location := h_location h; h_state := state; h_open_pid := h_open_pid h |}.

(** A [Result] of the uploader inside a program. *)
Definition match_upload {A B} (r : outcome UploadError A) (ok : A → prog B) (error : UploadError → prog B) : prog B :=
  match r with Ok a => ok a | Err e => error e | Panic => Crash end.

(** The error is logged and dropped. *)
Definition finish_on_error (ino fh : Z) : prog unit :=
  _ ← attempt (sb_finish_writing prefix cfg ino None fh);
  mret tt.

Definition complete_upload (ino : Z) (key : str) (upload : AtomicUpload) (fh : Z) : prog Lookup :=
  match_upload (atomic_complete upload)
    (λ put_result, sb_finish_writing prefix cfg ino (Some (por_etag put_result)) fh)
    (λ e, _ ← finish_on_error ino fh; Throw (upload_error e key)).

Definition commit_append (upload : AppendUpload) (key : str) : prog (option ETag) :=
  match_upload (append_complete upload)
    (λ result, mret (por_etag <$> result))
    (λ e, Throw (upload_error e key)).

Definition option_or {A} (x y : option A) : option A := match x with Some _ => x | None => y end.

Definition complete_append (ino : Z) (key : str) (upload : AppendUpload) (initial_etag : option ETag) (fh : Z) : prog Lookup :=
  result ← attempt (commit_append upload key);
  match result with
  | inr etag => sb_finish_writing prefix cfg ino (option_or etag initial_etag) fh
  | inl e => _ ← finish_on_error ino fh; Throw e
  end.

(** [flush_writer]; [hook] is the new [PendingUploadHook]. *)
Definition flush_writer (ino fh : Z) (hook : HookId) : prog (Error + unit) :=
  r ← attempt (sb_flush_writer prefix ino fh hook);
  mret (match r with inl e => inl (Error_from_InodeError e) | inr _ => inr tt end).

(** *** [UploadState]: each operation returns the new state *)

Definition UploadState_write (u : UploadState) (h : FileHandle) (offset : Z) (data : bytes) (fh : Z) : prog (UploadState * (Error + Z)) :=
  let accepted u len :=
    r ← attempt (sb_inc_file_size prefix (h_ino h) len);
    mret (u, match r with inl e => inl (Error_from_InodeError e) | inr _ => inr (len `mod` 2 ^ 32) end) in
  let rejected e :=
    let e := Error_from_UploadError e in
    _ ← finish_on_error (h_ino h) fh;
    mret (Failed (errno e), inl e) in
  match u with
  | AppendInProgress request initial_etag written_bytes =>
      let '(request, r) := append_write request (wrap64 offset) data in
      match_upload r (λ len, accepted (AppendInProgress request initial_etag (wadd written_bytes len)) len) rejected
  | MPUInProgress request =>
      let '(request, r) := atomic_write request offset data in
      match_upload r (λ len, accepted (MPUInProgress request) len) rejected
  | Completed => mret (u, inl (err EIO "upload already completed for key"))
  | Failed e => mret (u, inl (err e "upload already aborted for key"))
  end.

(** [inspect_err(|e| *self = UploadState::Failed(e.to_errno()))?] *)
Definition fail_on_error {A} (r : InodeError + A) (ok : A → prog (UploadState * (Error + unit))) : prog (UploadState * (Error + unit)) :=
  match r with
  | inl e => mret (Failed (InodeError_to_errno e), inl (Error_from_InodeError e))
  | inr a => ok a
  end.

Definition UploadState_commit (n : nat) (u : UploadState) (h : FileHandle) (fh : Z) : prog (UploadState * (Error + unit)) :=
  match u with
  | Completed => mret (u, inr tt)
  | Failed e => mret (u, inl (err e "upload already aborted for key"))
  | AppendInProgress request initial_etag written_bytes =>
      let current_offset := append_current_offset request in
      r ← attempt (commit_append request (h_location h));
      fail_on_error r (λ etag,
        let initial_etag := option_or etag initial_etag in
        match_upload (start_append_upload n (h_location h) current_offset initial_etag)
          (λ request, mret (AppendInProgress request initial_etag written_bytes, inr tt)) (λ _, Crash))
  | MPUInProgress request =>
      r ← attempt (complete_upload (h_ino h) (h_location h) request fh);
      fail_on_error r (λ _, mret (Completed, inr tt))
  end.

Definition UploadState_complete (n : nat) (u : UploadState) (h : FileHandle) (pid open_pid fh : Z) (hook : HookId)
    : prog (UploadState * (Error + unit)) :=
  match u with
  | Completed => mret (u, inr tt)
  | Failed e => mret (u, inl (err e "upload already aborted for key"))
  | AppendInProgress request initial_etag written_bytes =>
      if (written_bytes =? 0) || negb (are_from_same_process open_pid pid) then
        '(u, r) ← UploadState_commit n u h fh;
        match r with
        | inl e => mret (u, inl e)
        | inr _ => r ← flush_writer (h_ino h) fh hook; mret (u, r)
        end
      else
        r ← attempt (complete_append (h_ino h) (h_location h) request initial_etag fh);
        fail_on_error r (λ _, mret (Completed, inr tt))
  | MPUInProgress request =>
      if atomic_size request =? 0 then r ← flush_writer (h_ino h) fh hook; mret (u, r)
      else if negb (are_from_same_process open_pid pid) then r ← flush_writer (h_ino h) fh hook; mret (u, r)
      else
        r ← attempt (complete_upload (h_ino h) (h_location h) request fh);
        fail_on_error r (λ _, mret (Completed, inr tt))
  end.

Definition pending_result (r : InodeError + Lookup) : InodeError + option Lookup :=
  match r with inl e => inl e | inr lookup => inr (Some lookup) end.
(** The state is [Completed] also when the upload fails: there is no [inspect_err] here. *)
Definition complete_pending_upload (u : UploadState) (ino : Z) (key : str) (fh : Z) : prog (UploadState * (InodeError + option Lookup)) :=
  match u with
  | Completed | Failed _ => mret (u, inr None)
  | AppendInProgress request initial_etag _ =>
      r ← attempt (complete_append ino key request initial_etag fh);
      mret (Completed, pending_result r)
  | MPUInProgress request =>
      r ← attempt (complete_upload ino key request fh);
      mret (Completed, pending_result r)
  end.

(** *** [FileHandleState::new] *)

Definition upload_key (l : Lookup) : str := vk_key (ValidKey_full_key (lk_key l) prefix).
Definition key_string (k : str) : string := Stdlib.Strings.String.string_of_list_ascii k.

Definition FileHandleState_new (n : nat) (fh : Z) (lookup : Lookup) (mode : ReadWriteMode) (flags : OpenFlags) (write_mode : WriteMode)
    : outcome Error FileHandleState :=
  let stat := lk_stat lookup in
  let full_key := upload_key lookup in
  match mode with
  | ModeRead =>
      match stat_etag stat with
      | None => Err (err EBADF "no E-Tag for inode")
      | Some etag =>
          let object_id := {| oid_key := key_string full_key; oid_etag := etag |} in
          match prefetch n object_id fh (stat_size stat) with
          | Ok request => Ok (ReadState request false)
          | _ => Panic
          end
      end
  | ModeWrite =>
      let is_truncate := o_trunc flags in
      if wm_incremental_upload write_mode then
        let initial_etag := if is_truncate then None else stat_etag stat in
        let current_offset := if is_truncate then 0 else stat_size stat in
        match start_append_upload n full_key current_offset initial_etag with
        | Ok request => Ok (WriteState (AppendInProgress request initial_etag 0) false)
        | _ => Panic
        end
      else
        let! request := outcome_map_err (λ _, err EIO "put failed to start") (start_atomic_upload n full_key) in
        Ok (WriteState (MPUInProgress request) false)
  end.
End handles.
