(* ===== verification/FileHandlesSpec.v ===== *)
(** * What a file handle promises

    The properties of a single handle, for any sequence of operations on it and
    whatever the other handlers do to the superblock in between.  Uploads are used
    through the laws [FileUploaderLaws]; the models of atomic and incremental
    uploads are shown to satisfy them. *)

From S2P Require Import Prelude Checksums BlockFormat Part PartQueue MemLimiter Pool ClientChecksums Upload AppendUpload AppendUploadSpec.
From S2P Require Import NegativeCache Path HandlesMap Inode Superblock SuperblockConc SuperblockOps FileHandles.
Local Open Scope Z_scope.

(** ** What the uploader promises to a handle

    [version] gives the content of an object version.  An atomic upload is verified by size and checksum. *)

Definition stored_as `{Crc32c} (stored written : bytes) : Prop :=
  zlen stored = zlen written ∧ crc32c_checksum stored = crc32c_checksum written.

(** The content that an incremental upload continues. *)
Definition initial_content (version : ETag → bytes) (offset : Z) (etag : option ETag) : bytes :=
  if offset =? 0 then [] else match etag with Some etag => version etag | None => [] end.

Class FileUploaderLaws `{Crc32c, FileUploader} (version : ETag → bytes) := {
  atomic_written : AtomicUpload → bytes → Prop;
  append_written : AppendUpload → Z → option ETag → bytes → Prop;
  start_atomic_law n key r : start_atomic_upload n key = Ok r → atomic_written r [];
  atomic_size_law r w : atomic_written r w → atomic_size r = zlen w;
  atomic_write_law r w offset data r' len : atomic_written r w → zlen (w ++ data) < 2 ^ 63 →
    atomic_write r offset data = (r', Ok len) → len = zlen data ∧ atomic_written r' (w ++ data);
  atomic_complete_law r w result : atomic_written r w → atomic_complete r = Ok result →
    zlen (version (por_etag result)) < u64_modulus → stored_as (version (por_etag result)) w;
  start_append_law n key offset etag r : start_append_upload n key offset etag = Ok r →
    0 ≤ offset → offset + 1 < u64_modulus → append_written r offset etag [];
  append_offset_law r o e w : append_written r o e w → append_current_offset r = o + zlen w;
  append_write_law r o e w offset data r' len : append_written r o e w → o + zlen (w ++ data) + 1 < u64_modulus →
    append_write r offset data = (r', Ok len) → len = zlen data ∧ append_written r' o e (w ++ data);
  append_complete_law r o e w result : append_written r o e w → append_complete r = Ok result →
    match result with
    | Some result => version (por_etag result) = initial_content version o e ++ w
    | None => w = [] ∧ o ≠ 0
    end;
}.

(** ** Executions of a program among others: every section runs in any state, every call is answered in any way *)

Fixpoint may_return {A} (p : prog A) (a : A) : Prop :=
  match p with
  | Ret b => a = b
  | Throw _ | Crash | Pause => False
  | Atomic act k => ∃ s, match act s with
                         | (_, Ok b) => may_return (k (inr b)) a
                         | (_, Err e) => may_return (k (inl e)) a
                         | (_, Panic) => False
                         end
  | Call c k => ∃ r, may_return (k r) a
  end.

Lemma may_return_bind {A B} (p : prog A) (f : A → prog B) b :
  may_return (p ≫= f) b → ∃ a, may_return p a ∧ may_return (f a) b.
Proof.
  unfold mbind, prog_bind. induction p as [a|e| | |C act k IH|c k IH]; simpl; try done; [eauto| |].
  - intros (s & H). destruct (act s) as [s' [x|e|]] eqn:Hs; [| |done]; apply IH in H as (a & ? & ?); exists a; (split; [|done]);
      exists s; by rewrite Hs.
  - intros (r & H). apply IH in H as (a & ? & ?). eauto.
Qed.
Lemma may_return_attempt {A} (p : prog A) a : may_return (attempt p) (inr a) → may_return p a.
Proof.
  induction p as [b|e| | |C act k IH|c k IH]; simpl; try done; [by intros [= ->]| |].
  - intros (s & H). exists s. destruct (act s) as [s' [x|e|]]; [by apply IH..|done].
  - intros (r & H). exists r. by apply IH.
Qed.

Lemma may_return_attempt_bind {A B} (p : prog A) (f : A → prog B) x :
  may_return (attempt (p ≫= f)) x →
  (∃ e, may_return (attempt p) (inl e) ∧ x = inl e) ∨ (∃ a, may_return (attempt p) (inr a) ∧ may_return (attempt (f a)) x).
Proof.
  unfold mbind, prog_bind. induction p as [a|e| | |C act k IH|c k IH]; simpl; [eauto..|done|done| |].
  - intros (s & H). destruct (act s) as [s' [y|e|]] eqn:Hs; [| |done].
    all: apply IH in H as [(e' & ? & ->)|(a & ? & ?)]; [left; exists e'; split; [|done]|right; exists a; split; [|done]]; exists s; by rewrite Hs.
  - intros (r & H). apply IH in H as [(e' & ? & ->)|(a & ? & ?)]; [left|right]; eauto.
Qed.
Lemma attempt_never_throws {A} (p : prog A) e : ¬ may_return (attempt (attempt p)) (inl e).
Proof.
  induction p as [a|e'| | |C act k IH|c k IH]; simpl; [done|done|by intros []..| |intros (r & H); by apply IH in H].
  intros (s & H). destruct (act s) as [s' [y|e'|]]; [by apply IH in H..|done].
Qed.

(** Running alone is one such execution. *)
Lemma run_may_return {A} env (p : prog A) s a : (run env p s).2 = Ok a → may_return p a.
Proof.
  revert s. induction p as [b|e| | |C act k IH|c k IH]; intros s; simpl; [by intros [= ->]|done..| |].
  - intros H. exists s. destruct (act s) as [s' [b|e|]]; [by eapply IH..|done].
  - intros H. eexists. by eapply IH.
Qed.

(** ** Operations on one handle *)

Inductive file_op :=
| HWrite (offset : Z) (data : bytes)
| HFsync
| HFlush (pid : Z) (hook : HookId)
(** the hook of an earlier flush is run, by a release or by an open *)
| HPending.

#[export] Instance file_op_eq_dec : EqDecision file_op.
Proof. solve_decision. Defined.
#[export] Instance Error_eq_dec : EqDecision Error.
Proof. solve_decision. Defined.

Section traces.
Context `{crc : Crc32c, up : FileUploader, pf : FilePrefetcher, proc : ProcFs}.
Context (prefix : Prefix) (cfg : CacheConfig) (h : FileHandle) (fh : Z).
Implicit Types u : UploadState.

Definition without_value {A} (r : Error + A) : Error + unit := match r with inl e => inl e | inr _ => inr tt end.

Definition op_step (n : nat) u (op : file_op) : prog (UploadState * (Error + unit)) :=
  match op with
  | HWrite offset data => '(u, r) ← UploadState_write prefix cfg u h offset data fh; mret (u, without_value r)
  | HFsync => UploadState_commit prefix cfg n u h fh
  | HFlush pid hook => UploadState_complete prefix cfg n u h pid (h_open_pid h) fh hook
  | HPending =>
      '(u, r) ← complete_pending_upload prefix cfg u (h_ino h) (h_location h) fh;
      mret (u, match r with inl e => inl (Error_from_InodeError e) | inr _ => inr tt end)
  end.

(** The version that a successful operation on [u] stores. *)
Definition completes u (op : file_op) : option ETag :=
  let completed (r : outcome UploadError PutObjectResult) := match r with Ok result => Some (por_etag result) | _ => None end in
  match op, u with
  | HWrite _ _, _ | _, Completed | _, Failed _ => None
  | HFlush pid _, MPUInProgress request =>
      if (atomic_size request =? 0) || negb (are_from_same_process (h_open_pid h) pid) then None else completed (atomic_complete request)
  | _, MPUInProgress request => completed (atomic_complete request)
  | _, AppendInProgress request initial_etag _ =>
      match append_complete request with Ok result => option_or (por_etag <$> result) initial_etag | _ => None end
  end.

(** A run of operations, each with its result, and the version that was stored last. *)
Inductive handle_run u0 : list (file_op * (Error + unit)) → UploadState → option ETag → Prop :=
| handle_run_nil : handle_run u0 [] u0 None
| handle_run_step hist u1 last n op u2 r :
    handle_run u0 hist u1 last → may_return (op_step n u1 op) (u2, r) →
    handle_run u0 (hist ++ [(op, r)]) u2 (option_or (completes u1 op) last).

Definition op_data (op : file_op) : bytes := match op with HWrite _ data => data | _ => [] end.
Definition written (hist : list (file_op * (Error + unit))) : bytes := concat (map (λ '(op, _), op_data op) hist).
(** Writes succeeded, and so did the completions through a hook. *)
Definition op_went_well (op : file_op) (r : Error + unit) : Prop := match op with HWrite _ _ | HPending => r = inr tt | _ => True end.
Definition went_well (hist : list (file_op * (Error + unit))) : Prop := Forall (λ '(op, r), op_went_well op r) hist.
(** The operations after which the data must be stored. *)
Definition must_store (op : file_op) (w : bytes) : Prop :=
  match op with
  | HFsync => True
  | HFlush pid _ => are_from_same_process (h_open_pid h) pid = true ∧ w ≠ []
  | _ => False
  end.

(** A handle just opened for writing, on the content [base]. *)
Definition just_opened (version : ETag → bytes) u (base : bytes) : Prop :=
  match u with
  | MPUInProgress request => base = [] ∧ ∃ n key, start_atomic_upload n key = Ok request
  | AppendInProgress request etag count =>
      count = 0 ∧ (zlen base ≠ 0 → is_Some etag) ∧ base = initial_content version (zlen base) etag ∧
      ∃ n key, start_append_upload n key (zlen base) etag = Ok request
  | _ => False
  end.

(** ** What the steps of a handle do *)

Lemma match_upload_inv {A B} (r : outcome UploadError A) (ok : A → prog B) error b :
  may_return (match_upload r ok error) b → (∃ a, r = Ok a ∧ may_return (ok a) b) ∨ (∃ e, r = Err e ∧ may_return (error e) b).
Proof. destruct r; simpl; eauto; done. Qed.

Lemma throws_inv {A B} (p : prog A) e (b : B) : may_return (p ≫= λ _, Throw e) b → False.
Proof. intros (? & _ & [])%may_return_bind. Qed.

Lemma complete_upload_inv ino key request fh' l :
  may_return (complete_upload prefix cfg ino key request fh') l → ∃ result, atomic_complete request = Ok result.
Proof. unfold complete_upload. intros [(a & -> & _)|(e & _ & H)]%match_upload_inv; [eauto|by apply throws_inv in H]. Qed.
Lemma commit_append_inv request key etag :
  may_return (commit_append request key) etag → ∃ result, append_complete request = Ok result ∧ etag = por_etag <$> result.
Proof. unfold commit_append. intros [(a & -> & ->)|(e & _ & [])]%match_upload_inv. eauto. Qed.
Lemma complete_append_inv ino key request etag fh' l :
  may_return (complete_append prefix cfg ino key request etag fh') l → ∃ result, append_complete request = Ok result.
Proof.
  unfold complete_append. intros (r & Hr & H)%may_return_bind. destruct r as [e|a]; [by apply throws_inv in H|].
  apply may_return_attempt, commit_append_inv in Hr as (result & ? & _). eauto.
Qed.

(** A write that succeeds was accepted by the upload. *)
Lemma write_inv u offset data u' r :
  may_return (UploadState_write prefix cfg u h offset data fh) (u', inr r) →
  match u with
  | AppendInProgress request etag count => ∃ request' len,
      append_write request (wrap64 offset) data = (request', Ok len) ∧ u' = AppendInProgress request' etag (wadd count len)
  | MPUInProgress request => ∃ request' len, atomic_write request offset data = (request', Ok len) ∧ u' = MPUInProgress request'
  | _ => False
  end.
Proof.
  unfold UploadState_write. destruct u as [request etag count|request| |e]; [| |by intros [=]..].
  - destruct (append_write request (wrap64 offset) data) as [request' res]. intros [(len & -> & H)|(e & -> & H)]%match_upload_inv.
    + apply may_return_bind in H as (x & _ & [= -> _]). eauto.
    + by apply may_return_bind in H as (x & _ & [=]).
  - destruct (atomic_write request offset data) as [request' res]. intros [(len & -> & H)|(e & -> & H)]%match_upload_inv.
    + apply may_return_bind in H as (x & _ & [= -> _]). eauto.
    + by apply may_return_bind in H as (x & _ & [=]).
Qed.

Lemma fail_on_error_inv {A} (r : InodeError + A) ok u x :
  may_return (fail_on_error r ok) (u, x) →
  (∃ e, r = inl e ∧ u = Failed (InodeError_to_errno e) ∧ x = inl (Error_from_InodeError e)) ∨ (∃ a, r = inr a ∧ may_return (ok a) (u, x)).
Proof. destruct r; simpl; [intros [= -> ->]|]; eauto. Qed.

(** What [commit] leaves: a failure, a completed atomic upload, or a new incremental upload. *)
Lemma commit_inv n u u' r :
  may_return (UploadState_commit prefix cfg n u h fh) (u', r) →
  match u with
  | AppendInProgress request etag count =>
      (∃ e x, u' = Failed e ∧ r = inl x) ∨
      ∃ result request', append_complete request = Ok result ∧ r = inr tt ∧
        start_append_upload n (h_location h) (append_current_offset request) (option_or (por_etag <$> result) etag) = Ok request' ∧
        u' = AppendInProgress request' (option_or (por_etag <$> result) etag) count
  | MPUInProgress request => (∃ e x, u' = Failed e ∧ r = inl x) ∨ (∃ result, atomic_complete request = Ok result ∧ u' = Completed ∧ r = inr tt)
  | Completed => u' = u ∧ r = inr tt
  | Failed e => u' = u ∧ r = inl (err e "upload already aborted for key")
  end.
Proof.
  unfold UploadState_commit. destruct u as [request etag count|request| |e]; [| |by intros [= -> ->]..];
    intros (x & Hx & H)%may_return_bind; apply fail_on_error_inv in H as [(e & _ & -> & ->)|(a & -> & H)]; eauto; right;
    apply may_return_attempt in Hx.
  - apply commit_append_inv in Hx as (result & Hc & ->). apply match_upload_inv in H as [(request' & Hs & [= -> ->])|(e & _ & [])]. eauto 6.
  - apply complete_upload_inv in Hx as [result Hc]. simplify_eq/=. eauto.
Qed.

(** An incremental upload was stored and a new one started. *)
Definition restarted n (request : AppendUpload) (etag : option ETag) (count : Z) u' : Prop :=
  ∃ result request', append_complete request = Ok result ∧
    start_append_upload n (h_location h) (append_current_offset request) (option_or (por_etag <$> result) etag) = Ok request' ∧
    u' = AppendInProgress request' (option_or (por_etag <$> result) etag) count.

Definition keeps_open (request : AtomicUpload) (pid : Z) : bool :=
  (atomic_size request =? 0) || negb (are_from_same_process (h_open_pid h) pid).

Lemma complete_inv n u pid hook u' r :
  may_return (UploadState_complete prefix cfg n u h pid (h_open_pid h) fh hook) (u', r) →
  (∃ e x, u' = Failed e ∧ r = inl x) ∨
  match u with
  | AppendInProgress request etag count =>
      restarted n request etag count u' ∨ (∃ result, append_complete request = Ok result ∧ u' = Completed)
  | MPUInProgress request =>
      (keeps_open request pid = true ∧ u' = u) ∨
      (keeps_open request pid = false ∧ u' = Completed ∧ ∃ result, atomic_complete request = Ok result)
  | Completed => u' = u
  | Failed e => False
  end.
Proof.
  unfold UploadState_complete, keeps_open, restarted. destruct u as [request etag count|request| |e]; [| |by intros [= -> ->]; eauto..].
  - destruct (_ || _).
    + intros ([u1 r1] & Hc & H)%may_return_bind. apply commit_inv in Hc as [(e & x & -> & ->)|(result & request' & ? & -> & ? & ->)].
      * simplify_eq/=. eauto.
      * apply may_return_bind in H as (x & _ & [= -> ->]). right. left. eauto.
    + intros (x & Hx & H)%may_return_bind. apply fail_on_error_inv in H as [(e & _ & -> & ->)|(a & -> & [= -> ->])]; [eauto|].
      apply may_return_attempt, complete_append_inv in Hx as [result ?]. eauto 6.
  - destruct (atomic_size request =? 0); cbn [orb negb]; [|destruct (are_from_same_process (h_open_pid h) pid); cbn [negb]].
    1, 3: intros (x & _ & [= -> ->])%may_return_bind; eauto.
    intros (x & Hx & H)%may_return_bind. apply fail_on_error_inv in H as [(e & _ & -> & ->)|(a & -> & [= -> ->])]; [eauto|].
    apply may_return_attempt, complete_upload_inv in Hx as [result ?]. eauto 8.
Qed.

(** A successful completion through the hook; a failed one is forgotten. *)
Lemma pending_inv n u u' r :
  may_return (op_step n u HPending) (u', r) →
  match u with
  | AppendInProgress request etag count => u' = Completed ∧ (r = inr tt → ∃ result, append_complete request = Ok result)
  | MPUInProgress request => u' = Completed ∧ (r = inr tt → ∃ result, atomic_complete request = Ok result)
  | _ => u' = u ∧ r = inr tt
  end.
Proof.
  simpl. intros ([u1 r1] & Hc & [= -> ->])%may_return_bind. unfold complete_pending_upload in Hc.
  destruct u as [request etag count|request| |e]; [| |by simplify_eq/=..];
    apply may_return_bind in Hc as (x & Hx & [= -> ->]); (split; [done|]); destruct x as [e|l]; [done| |done|]; intros _;
    apply may_return_attempt in Hx; eauto using complete_append_inv, complete_upload_inv.
Qed.

(** ** The invariant of a handle *)

Section durability.
Context (version : ETag → bytes) `{!FileUploaderLaws version} (base : bytes).
Set Default Proof Using "Type*".

Definition is_stored (etag : option ETag) (w : bytes) : Prop :=
  ∃ e, etag = Some e ∧ (zlen (version e) < u64_modulus → stored_as (version e) (base ++ w)).

Definition append_inv (request : AppendUpload) (etag : option ETag) (w : bytes) : Prop :=
  ∃ o w1 w2, w = w1 ++ w2 ∧ append_written request o etag w2 ∧ initial_content version o etag = base ++ w1 ∧
    o = zlen (base ++ w1) ∧ (o ≠ 0 → is_Some etag).

Definition handle_inv u (last : option ETag) (w : bytes) : Prop :=
  match u with
  | AppendInProgress request etag _ => append_inv request etag w
  | MPUInProgress request => base = [] ∧ atomic_written request w
  | Completed => is_stored last w
  | Failed _ => True
  end.

Lemma just_opened_inv u : zlen base + 1 < u64_modulus → just_opened version u base → handle_inv u None [].
Proof.
  intros Hlen. pose proof (zlen_nonneg base). destruct u as [request etag count|request| |e]; simpl; [|by intros [-> (n & k & ?%start_atomic_law)]|done..].
  intros (-> & Hsome & Hbase & n & k & Hs). apply start_append_law in Hs; [|lia..].
  exists (zlen base), [], []. rewrite !app_nil_r. by ands.
Qed.

Lemma atomic_stored request w result :
  base = [] → atomic_written request w → atomic_complete request = Ok result → is_stored (Some (por_etag result)) w.
Proof. intros Hb Hw Hc. eexists. split; [done|]. intros Hv. rewrite Hb. by eapply atomic_complete_law. Qed.

Lemma append_content request etag w result :
  append_inv request etag w → append_complete request = Ok result →
  ∃ e, option_or (por_etag <$> result) etag = Some e ∧ version e = base ++ w.
Proof.
  intros (o & w1 & w2 & -> & Hw & Hi & Ho & He) Hc. pose proof (append_complete_law _ _ _ _ _ Hw Hc) as Hr. destruct result as [result|]; simpl.
  - eexists. split; [done|]. rewrite Hr, Hi. by rewrite app_assoc.
  - destruct Hr as [-> Hne]. destruct (He Hne) as [e ->]. exists e. split; [done|]. rewrite app_nil_r, <-Hi.
    unfold initial_content. by rewrite (proj2 (Z.eqb_neq _ _)).
Qed.

Lemma append_stored request etag w result :
  append_inv request etag w → append_complete request = Ok result → is_stored (option_or (por_etag <$> result) etag) w.
Proof. intros Hi Hc. destruct (append_content _ _ _ _ Hi Hc) as (e & -> & Hv). exists e. split; [done|]. intros _. by rewrite Hv. Qed.

Lemma restarted_inv n request etag count w u' last :
  zlen (base ++ w) + 1 < u64_modulus → append_inv request etag w → restarted n request etag count u' → handle_inv u' last w.
Proof.
  intros Hlen Hi (result & request' & Hc & Hs & ->). destruct (append_content _ _ _ _ Hi Hc) as (e & He & Hv). rewrite He in *.
  destruct Hi as (o & w1 & w2 & -> & Hw & _ & -> & _). rewrite (append_offset_law _ _ _ _ Hw), <-zlen_app, <-app_assoc in Hs.
  pose proof (zlen_nonneg (base ++ w1 ++ w2)). apply start_append_law in Hs; [|lia..].
  exists (zlen (base ++ w1 ++ w2)), (w1 ++ w2), []. rewrite !app_nil_r. ands; try done. unfold initial_content.
  destruct (Z.eqb_spec (zlen (base ++ w1 ++ w2)) 0) as [Hz|]; [|done]. by apply zlen_0 in Hz as ->.
Qed.

Lemma write_step_inv n u last w offset data u' :
  handle_inv u last w → zlen (base ++ w ++ data) + 1 < 2 ^ 63 → may_return (op_step n u (HWrite offset data)) (u', inr tt) →
  handle_inv u' last (w ++ data).
Proof.
  intros Hinv Hlen ([u1 r1] & Hw & [= -> Hr])%may_return_bind. destruct r1 as [e|len]; [done|]. apply write_inv in Hw.
  destruct u as [request etag count|request| |e]; [| |done..]; destruct Hw as (request' & len' & Hw & ->).
  - destruct Hinv as (o & w1 & w2 & -> & Hi & Hc & -> & He).
    apply (append_write_law _ _ _ _ _ _ _ _ Hi) in Hw as [_ Hw]; [|rewrite <-zlen_app, <-app_assoc; rewrite <-(app_assoc w1) in Hlen; u64_lia].
    exists (zlen (base ++ w1)), w1, (w2 ++ data). rewrite app_assoc. by ands.
  - destruct Hinv as [-> Hi]. by apply (atomic_write_law _ _ _ _ _ _ Hi) in Hw as [_ Hw]; [|simpl in Hlen; lia].
Qed.

Lemma op_step_inv n u last w op u' r :
  handle_inv u last w → zlen (base ++ w ++ op_data op) + 1 < 2 ^ 63 → may_return (op_step n u op) (u', r) → op_went_well op r →
  handle_inv u' (option_or (completes u op) last) (w ++ op_data op) ∧
  (r = inr tt → must_store op w → is_stored (option_or (completes u op) last) w).
Proof.
  intros Hinv Hlen Hs Hok. destruct op as [offset data| |pid hook|]; cbn [op_data op_went_well must_store] in *; rewrite ?app_nil_r in *.
  - subst r. split; [|done]. by eapply write_step_inv.
  - apply commit_inv in Hs. destruct u as [request etag count|request| |e]; simpl.
    + destruct Hs as [(e & x & -> & ->)|(result & request' & Hc & -> & Hst & ->)]; [done|]. rewrite Hc.
      destruct (append_stored _ _ _ _ Hinv Hc) as (e & He & Hsto). rewrite He. split; [|intros _ _; exists e; eauto].
      eapply restarted_inv; [|exact Hinv|]; [u64_lia|]. exists result, request'. by rewrite He in *.
    + destruct Hinv as [Hb Hw]. destruct Hs as [(e & x & -> & ->)|(result & Hc & -> & ->)]; [done|]. rewrite Hc. split; [|intros _ _]; by eapply atomic_stored.
    + by destruct Hs as [-> ->].
    + by destruct Hs as [-> ->].
  - apply complete_inv in Hs as [(e & x & -> & ->)|Hs]; [done|]. destruct u as [request etag count|request| |e]; simpl; [| | |done].
    + assert (∃ result, append_complete request = Ok result) as [result Hc] by (destruct Hs as [(result & ? & ? & _)|(result & ? & _)]; eauto).
      pose proof (append_stored _ _ _ _ Hinv Hc) as Hsto. rewrite Hc. destruct Hsto as (e & He & Hv). rewrite He.
      split; [|intros _ _; exists e; eauto]. destruct Hs as [Hs|(_ & _ & ->)]; [|exists e; eauto]. eapply restarted_inv; [|done..]. u64_lia.
    + destruct Hinv as [Hb Hw]. fold (keeps_open request pid). destruct Hs as [[Hk ->]|(Hk & -> & result & Hc)]; rewrite Hk.
      * split; [done|]. intros _ [Hp Hne]. exfalso. unfold keeps_open in Hk. rewrite Hp, (atomic_size_law _ _ Hw), orb_false_r in Hk.
        by apply Z.eqb_eq, zlen_0 in Hk.
      * rewrite Hc. split; [|intros _ _]; by eapply atomic_stored.
    + by subst u'.
  - split; [|done]. apply pending_inv in Hs. destruct u as [request etag count|request| |e]; simpl; [| |by destruct Hs as [-> _]..];
      destruct Hs as [-> Hs]; destruct (Hs Hok) as [result Hc]; rewrite Hc.
    + destruct (append_stored _ _ _ _ Hinv Hc) as (e & He & Hv). rewrite He. exists e. eauto.
    + destruct Hinv as [Hb Hw]. by eapply atomic_stored.
Qed.

Lemma written_snoc hist op r : written (hist ++ [(op, r)]) = written hist ++ op_data op.
Proof. unfold written. rewrite map_app, concat_app. simpl. by rewrite app_nil_r. Qed.

Lemma run_inv u0 hist u last :
  just_opened version u0 base → handle_run u0 hist u last → went_well hist → zlen (base ++ written hist) + 1 < 2 ^ 63 →
  handle_inv u last (written hist).
Proof.
  intros Hopen Hrun. induction Hrun as [|hist u1 last n op u2 r Hrun IH Hs]; intros Hwell Hlen.
  - apply just_opened_inv; [|done]. simpl in Hlen. rewrite app_nil_r in Hlen. u64_lia.
  - rewrite written_snoc in *. apply Forall_app in Hwell as [Hwell Hop]. apply Forall_inv in Hop.
    assert (zlen (base ++ written hist) + 1 < 2 ^ 63) as Hlen'.
    { rewrite app_assoc, zlen_app in Hlen. pose proof (zlen_nonneg (op_data op)). lia. }
    eapply op_step_inv; eauto.
Qed.
End durability.

(** C16. Written data is durable once the application was told so.  Take a handle just opened for writing, with an
    atomic or an incremental upload, and any sequence of writes, fsyncs, flushes and completions through a hook, while
    other handlers change the superblock in any way.  When no write and no completion through a hook failed, and then
    an fsync, or a flush by the process that opened the file and after some data was written, returns success, the
    version of the object that was stored last is the initial content followed by everything written (for an atomic
    upload: has its size and its CRC32C). *)
Theorem acknowledged_writes_are_durable version `{!FileUploaderLaws version} base u0 hist op u last :
  just_opened version u0 base → handle_run u0 (hist ++ [(op, inr tt)]) u last →
  went_well hist → zlen (base ++ written hist) + 1 < 2 ^ 63 → must_store op (written hist) →
  ∃ etag, last = Some etag ∧ (zlen (version etag) < u64_modulus → stored_as (version etag) (base ++ written hist)).
Proof.
  intros Hopen Hrun Hwell Hlen Hop. inv Hrun as [Heq|hist1 u1 last1 n op1 ? r Hrun1 Hs Heq]; [by destruct hist|].
  apply app_inj_tail in Heq as [-> [= -> ->]].
  assert (op_data op = []) as Hd by (by destruct op).
  eapply (op_step_inv version base n u1 last1 (written hist) op u (inr tt)); eauto using run_inv.
  - by rewrite Hd, app_nil_r.
  - by destruct op.
Qed.

(** ** Failed uploads *)

(** The error with which the upload answers an operation on [u]. *)
Definition upload_fails u (op : file_op) : option UploadError :=
  let failed {A} (r : outcome UploadError A) := match r with Err e => Some e | _ => None end in
  match op, u with
  | _, Completed | _, Failed _ => None
  | HWrite offset data, AppendInProgress request _ _ => failed (append_write request (wrap64 offset) data).2
  | HWrite offset data, MPUInProgress request => failed (atomic_write request offset data).2
  | HFlush pid _, MPUInProgress request => if keeps_open request pid then None else failed (atomic_complete request)
  | _, MPUInProgress request => failed (atomic_complete request)
  | _, AppendInProgress request _ _ => failed (append_complete request)
  end.
Definition failure_error (op : file_op) (e : UploadError) : Error :=
  match op with HWrite _ _ => Error_from_UploadError e | _ => Error_from_InodeError (upload_error e (h_location h)) end.

Lemma finish_on_error_throws {A} ino e (x : InodeError + A) :
  may_return (attempt (_ ← finish_on_error prefix cfg ino fh; Throw e)) x → x = inl e.
Proof.
  intros [(e' & H & ->)|(_ & _ & ->)]%may_return_attempt_bind; [|done]. unfold finish_on_error in H.
  apply may_return_attempt_bind in H as [(e2 & H & _)|(? & _ & [=])]. by apply attempt_never_throws in H.
Qed.
Lemma complete_upload_fails ino key request e x :
  atomic_complete request = Err e → may_return (attempt (complete_upload prefix cfg ino key request fh)) x → x = inl (upload_error e key).
Proof. unfold complete_upload. intros ->. apply finish_on_error_throws. Qed.
Lemma commit_append_fails request key e x :
  append_complete request = Err e → may_return (attempt (commit_append request key)) x → x = inl (upload_error e key).
Proof. unfold commit_append. by intros ->. Qed.
Lemma complete_append_fails ino key request etag e x :
  append_complete request = Err e → may_return (attempt (complete_append prefix cfg ino key request etag fh)) x → x = inl (upload_error e key).
Proof.
  intros He. unfold complete_append. intros [(e' & H & ->)|(r & Hr & H)]%may_return_attempt_bind; [by apply attempt_never_throws in H|].
  assert (r = inl (upload_error e key)) as ->; [|by apply finish_on_error_throws in H].
  unfold commit_append in Hr. rewrite He in Hr. by simplify_eq/=.
Qed.

(** A failed upload leaves the state [Failed], and a failed upload in a hook the state [Completed]. *)
Lemma failed_step n u op e u1 r : upload_fails u op = Some e → may_return (op_step n u op) (u1, r) →
  r = inl (failure_error op e) ∧ u1 = if bool_decide (op = HPending) then Completed else Failed (errno (failure_error op e)).
Proof.
  assert (∀ A (o : outcome UploadError A), match o with Err e => Some e | _ => None end = Some e → o = Err e) as Herr by (intros A [| |]; simpl; congruence).
  destruct u as [request etag count|request| |code]; [| |by destruct op..]; destruct op as [offset data| |pid hook|]; cbn [upload_fails op_step failure_error].
  - intros He%Herr ([u2 r2] & H & [= -> ->])%may_return_bind. unfold UploadState_write in H. destruct (append_write _ _ _) as [request' o]. simpl in He. subst o.
    apply may_return_bind in H as (? & _ & [= -> ->]). done.
  - intros He%Herr (x & H & Hr)%may_return_bind. apply (commit_append_fails _ _ e) in H as ->; [|done]. by injection Hr as -> ->.
  - intros He%Herr. unfold UploadState_complete, UploadState_commit. destruct (_ || _).
    + intros ([u2 r2] & (x & H & Hr)%may_return_bind & H2)%may_return_bind. apply (commit_append_fails _ _ e) in H as ->; [|done]. by simplify_eq/=.
    + intros (x & H & Hr)%may_return_bind. apply (complete_append_fails _ _ _ _ e) in H as ->; [|done]. by injection Hr as -> ->.
  - intros He%Herr ([u2 r2] & H & [= -> ->])%may_return_bind. apply may_return_bind in H as (x & H & [= -> ->]).
    by apply (complete_append_fails _ _ _ _ e) in H as ->.
  - intros He%Herr ([u2 r2] & H & [= -> ->])%may_return_bind. unfold UploadState_write in H. destruct (atomic_write _ _ _) as [request' o]. simpl in He. subst o.
    apply may_return_bind in H as (? & _ & [= -> ->]). done.
  - intros He%Herr (x & H & Hr)%may_return_bind. apply (complete_upload_fails _ _ _ e) in H as ->; [|done]. by injection Hr as -> ->.
  - unfold keeps_open, UploadState_complete. destruct (atomic_size request =? 0); [done|]. destruct (are_from_same_process _ _); [|done]. simpl.
    intros He%Herr (x & H & Hr)%may_return_bind. apply (complete_upload_fails _ _ _ e) in H as ->; [|done]. by injection Hr as -> ->.
  - intros He%Herr ([u2 r2] & H & [= -> ->])%may_return_bind. apply may_return_bind in H as (x & H & [= -> ->]).
    by apply (complete_upload_fails _ _ _ e) in H as ->.
Qed.

(** What a handle answers once its upload has ended. *)
Definition ended_answer u (op : file_op) : Error + unit :=
  match u, op with
  | Completed, HWrite _ _ => inl (err EIO "upload already completed for key")
  | Failed _, HPending => inr tt
  | Failed code, _ => inl (err code "upload already aborted for key")
  | _, _ => inr tt
  end.
Definition ended u : Prop := match u with Completed | Failed _ => True | _ => False end.
Lemma ended_step n u op u1 r : ended u → may_return (op_step n u op) (u1, r) → u1 = u ∧ r = ended_answer u op.
Proof.
  destruct u as [| | |code]; [done..| |]; intros _; destruct op as [offset data| |pid hook|]; cbn [op_step].
  1, 4, 5, 8: intros ([u2 r2] & [= -> ->] & [= -> ->])%may_return_bind; done.
  all: by intros [= -> ->].
Qed.
Lemma ended_run u hist u1 last : ended u → handle_run u hist u1 last → u1 = u ∧ last = None ∧ Forall (λ '(op, r), r = ended_answer u op) hist.
Proof.
  intros Hu Hrun. induction Hrun as [|hist u1 last n op u2 r Hrun IH Hs]; [done|]. destruct IH as (-> & -> & Hall).
  apply ended_step in Hs as [-> ->]; [|done]. split; [done|]. split; [by destruct u, op|]. apply Forall_app. split; [done|by constructor].
Qed.

End traces.

(** ** The uploads of [Upload] and [AppendUpload] keep the laws

    Every request has its own view of the outside: the answers of S3, and what the background task and the other
    users of memory do meanwhile. *)

Section s3_uploader.
Context `{crc : Crc32c, env : IntegrityEnv, b64 : Base64, lib : ChecksumLib} {R : Type}.
Context (put_client : nat → PutObjectClient R) (append_client : nat → AppendClient) (limiter : nat → MemoryLimiter) (schedule : nat → list slot).
Context (bucket : string) (sse : ServerSideEncryption) (default_checksum_algorithm : option ChecksumAlgorithm) (buffer_size : Z).

Definition s3_uploader : FileUploader := {|
  AtomicUpload := nat * UploadRequest R;
  AppendUpload := nat * AppendUploadRequest;
  start_atomic_upload n key :=
    let! u := UploadRequest_new (client := put_client n) bucket (key_string key) sse default_checksum_algorithm in Ok (n, u);
  atomic_write '(n, u) offset data := let '(u, r) := UploadRequest_write (client := put_client n) u offset data in ((n, u), r);
  atomic_size '(n, u) := UploadRequest_size u;
  atomic_complete '(n, u) := UploadRequest_complete (client := put_client n) u;
  start_append_upload n key offset etag :=
    let! r := start_incremental_upload buffer_size sse default_checksum_algorithm (limiter n) bucket (key_string key) offset etag (schedule n) in
    Ok (n, r);
  append_write '(n, r) offset data := let '(r, res) := AppendUploadRequest_write (client := append_client n) r offset data in ((n, r), res);
  append_current_offset '(n, r) := current_offset r;
  append_complete '(n, r) := (AppendUploadRequest_complete (client := append_client n) r).2;
|}.

Context (version : ETag → bytes) `{!Crc32cLaws, Hput : !∀ n, PutObjectLaws (client := put_client n) version, Happend : !∀ n, AppendLaws (H := append_client n) version}.
Context (validated : is_integrity_validation_disabled = false) (buffer_size_ok : 0 < buffer_size < u64_modulus).
Set Default Proof Using "Type*".

#[export] Instance s3_uploader_laws : FileUploaderLaws (H0 := s3_uploader) version.
Proof.
  refine {| atomic_written := (λ '(_, u) w, up_hasher u = w ∧ up_next_request_offset u = zlen w) : @AtomicUpload s3_uploader → bytes → Prop;
    append_written := (λ '(_, r) o e w, rinv version r w ∧ aqp_initial_offset (aq_params (ar_upload_queue r)) = o ∧
      aqp_initial_etag (aq_params (ar_upload_queue r)) = e) : @AppendUpload s3_uploader → Z → option ETag → bytes → Prop |}.
  - intros n key [m u]. simpl. intros Hn. inv_outcome. unfold UploadRequest_new in *. case_match; [|done]. inv_outcome. by destruct x as [??]; simplify_eq/=.
  - by intros [n u] w [_ <-].
  - intros [n u] w offset data [n' u'] len [Hh Ho] Hlen Hw. simpl in Hw. destruct (UploadRequest_write u offset data) as [u1 r1] eqn:He.
    rewrite zlen_app in Hlen. pose proof (zlen_nonneg w). injection Hw as <- <- ->. apply write_accepted in He as (_ & Hh' & Ho' & ->); [|lia..].
    rewrite Hh', Ho', Hh, Ho, zlen_app. by ands.
  - intros [n u] w result [Hh Ho] Hc Hv. simpl in Hc. by apply (completed_upload (client := put_client n) version u w result).
  - intros n key offset etag [m r]. simpl. intros Hs H0 Hlim. inv_outcome. unfold start_incremental_upload in *. case_match; [|done]. simplify_eq/=.
    match goal with H : AppendUploadRequest_new _ _ _ _ = Ok _ |- _ => apply (rinv_new (client := append_client m) version) in H as (? & -> & _) end; [by ands|done|simpl; lia..].
  - intros [n r] o e w (Hr & <- & _). simpl. apply (rinv_offset _ _ _ Hr).
  - intros [n r] o e w offset data [n' r'] len (Hr & <- & <-) Hlim Hw. simpl in Hw.
    destruct (AppendUploadRequest_write r offset data) as [r1 res1] eqn:He. injection Hw as <- <- ->.
    apply (write_spec (client := append_client n) version r w) in He as [(_ & Hp & _) (? & _ & ->)]; [|done..]. rewrite Hp. by ands.
  - intros [n r] o e w result (Hr & <- & <-). simpl. destruct (AppendUploadRequest_complete r) as [r1 res1] eqn:He. simpl. intros ->.
    apply (complete_spec (client := append_client n) version r w) in He as [_ Hc]; [|done]. destruct result; [done|]. by destruct Hc as (? & _ & ?).
Qed.
End s3_uploader.

(** ** A concrete handle

    The file [a] of the example superblock, opened for writing. *)
Module HandleExample.
Import UploadExample AppendExample.

(** S3 refuses to complete an upload. *)
Definition failing_client : PutObjectClient (list bytes) := {|
  put_object _ _ _ _ := Ok [];
  write_part_size := 8 * 1024 * 1024;
  pr_write parts data := (parts ++ [data], Ok tt);
  pr_review_and_complete _ _ := Err (OtherClientError "internal error");
|}.
Definition uploader_with (client : PutObjectClient (list bytes)) : FileUploader :=
  s3_uploader (crc := sum_crc) (env := validating) (λ _, client) (λ _, store_client) (λ _, limiter) (λ _, schedule) "bucket"
    ServerSideEncryption_default None 2.
#[export] Instance working_laws : FileUploaderLaws (H0 := uploader_with parts_client) version :=
  s3_uploader_laws (crc := sum_crc) (env := validating) (λ _, parts_client) (λ _, store_client) (λ _, limiter) (λ _, schedule) "bucket"
    ServerSideEncryption_default None 2 version eq_refl (conj eq_refl eq_refl).

#[export] Instance no_reads : FilePrefetcher := {|
  ReadRequest := unit; prefetch _ _ _ _ := Ok tt; prefetch_read r _ _ := (r, Err GetRequestTerminatedUnexpectedly) |}.
#[export] Instance test_proc : ProcFs := {| get_tgid pid := if pid <? 100 then Some 1 else None |}.

Definition flags : OpenFlags :=
  {| o_rdwr := false; o_wronly := true; o_trunc := false; o_append := false; o_direct := false; o_sync := false; o_dsync := false |}.
Definition config := test_config false 100 100.
Definition mode : WriteMode := {| wm_allow_overwrite := false; wm_incremental_upload := false |}.
Definition sb_opened : Superblock :=
  (run (bucket_env ∅ RenameOk) (sb_open_handle (crc := sum_crc) Prefix_empty config 0 2 1 mode flags) test_sb_a).1.
Section handle.
Context (up : FileUploader) (request : AtomicUpload).
Definition handle : FileHandle :=
  {| h_ino := 2; h_location := str_of "a"; h_state := WriteState (MPUInProgress request) false; h_open_pid := 7 |}.
(** Operations that run alone, one after the other. *)
Fixpoint execute (s : Superblock) (u : UploadState) (last : option ETag) (ops : list file_op)
    : option (list (file_op * (Error + unit)) * UploadState * option ETag) :=
  match ops with
  | [] => Some ([], u, last)
  | op :: ops =>
      match run (bucket_env ∅ RenameOk) (op_step (crc := sum_crc) Prefix_empty config handle 1 0 u op) s with
      | (s, Ok (u', r)) =>
          match execute s u' (option_or (completes handle u op) last) ops with
          | Some (hist, u'', last) => Some ((op, r) :: hist, u'', last)
          | None => None
          end
      | _ => None
      end
  end.
Lemma execute_run u0 s u last ops hist0 hist u' last' :
  handle_run (crc := sum_crc) Prefix_empty config handle 1 u0 hist0 u last → execute s u last ops = Some (hist, u', last') →
  handle_run (crc := sum_crc) Prefix_empty config handle 1 u0 (hist0 ++ hist) u' last'.
Proof.
  revert s u last hist0 hist. induction ops as [|op ops IH]; intros s u last hist0 hist Hrun; simpl.
  - intros [= <- <- <-]. by rewrite app_nil_r.
  - destruct (run _ _ s) as [s1 [[u1 r]| |]] eqn:Hs; [|done..].
    destruct (execute s1 u1 _ ops) as [[[hist1 u2] last2]|] eqn:He; [|done]. intros [= <- <- <-].
    change ((op, r) :: hist1) with ([(op, r)] ++ hist1). rewrite app_assoc. eapply IH; [|exact He].
    eapply (handle_run_step _ _ _ _ _ _ _ _ 0%nat); [done|]. eapply (run_may_return _ _ s). by rewrite Hs.
Qed.

(** The operations end with the upload completed; a test whose evaluation does not show the uploader. *)
Definition executes (s : Superblock) (u : UploadState) (ops : list file_op) (hist : list (file_op * (Error + unit))) (last : option ETag) : bool :=
  match execute s u None ops with
  | Some (hist', Completed, last') => bool_decide (hist' = hist) && bool_decide (last' = last)
  | _ => false
  end.
Lemma executes_run s u ops hist last :
  executes s u ops hist last = true → handle_run (crc := sum_crc) Prefix_empty config handle 1 u hist Completed last.
Proof.
  unfold executes. destruct (execute s u None ops) as [[[hist' [| | |]] last']|] eqn:He; try done.
  intros [->%bool_decide_eq_true ->%bool_decide_eq_true]%andb_true_iff. change hist with ([] ++ hist).
  eapply execute_run; [constructor|exact He].
Qed.
End handle.
End HandleExample.
Import HandleExample.

Definition good_upload : AtomicUpload (FileUploader := uploader_with UploadExample.parts_client) := (0%nat, UploadExample.started).
Definition good_run : list (file_op * (Error + unit)) :=
  [(HWrite 0 [x01; x02], inr tt); (HFlush 200 0%nat, inr tt); (HWrite 2 [x03], inr tt)].
Lemma good_handle_run :
  handle_run (crc := sum_crc) Prefix_empty config (handle _ good_upload) 1 (MPUInProgress good_upload) (good_run ++ [(HFlush 8 0%nat, inr tt)])
    Completed (Some (UploadExample.etag_of [x01; x02; x03])).
Proof. apply (executes_run _ _ sb_opened _ [HWrite 0 [x01; x02]; HFlush 200 0%nat; HWrite 2 [x03]; HFlush 8 0%nat]). by vm_compute. Qed.
Lemma good_upload_opened : just_opened UploadExample.version (MPUInProgress good_upload) [].
Proof. split; [done|]. exists 0%nat, (str_of "a"). reflexivity. Qed.

Lemma acknowledged_writes_are_durable_witness :
  ∃ etag, Some (UploadExample.etag_of [x01; x02; x03]) = Some etag ∧
    (zlen (UploadExample.version etag) < u64_modulus → stored_as (UploadExample.version etag) [x01; x02; x03]).
Proof.
  assert (went_well good_run) as Hwell by (by repeat constructor).
  assert (zlen ([] ++ written good_run) + 1 < 2 ^ 63) as Hlen by (by vm_compute).
  assert (must_store (handle _ good_upload) (HFlush 8 0%nat) (written good_run)) as Hm by (by split).
  exact (acknowledged_writes_are_durable (crc := sum_crc) Prefix_empty config (handle _ good_upload) 1 UploadExample.version [] (MPUInProgress good_upload)
    good_run (HFlush 8 0%nat) Completed _ good_upload_opened good_handle_run Hwell Hlen Hm).
Defined.

Definition bad_upload : AtomicUpload (FileUploader := uploader_with failing_client) := (0%nat, UploadExample.started).
(** The operation fails and leaves the state [Completed] or [Failed]. *)
Definition fails_into (op : file_op) (code : option Z) : bool :=
  match upload_fails (handle _ bad_upload) (MPUInProgress bad_upload) op,
        (run (bucket_env ∅ RenameOk) (op_step (crc := sum_crc) Prefix_empty config (handle _ bad_upload) 1 0 (MPUInProgress bad_upload) op) sb_opened).2 with
  | Some _, Ok (Completed, inl e) => bool_decide (e = err EIO "inode error" ∧ code = None)
  | Some _, Ok (Failed c, inl e) => bool_decide (e = err EIO "inode error" ∧ code = Some c)
  | _, _ => false
  end.
Lemma fails_into_returns op code : fails_into op code = true →
  ∃ e, upload_fails (handle _ bad_upload) (MPUInProgress bad_upload) op = Some e ∧
    may_return (op_step (crc := sum_crc) Prefix_empty config (handle _ bad_upload) 1 0 (MPUInProgress bad_upload) op)
      (match code with None => Completed | Some c => Failed c end, inl (err EIO "inode error")).
Proof.
  unfold fails_into. destruct (upload_fails _ _ op) as [e|]; [|done]. destruct (run _ _ sb_opened).2 as [[[| | |c] [x|]]| |] eqn:Hrun; try done.
  all: intros [-> ->]%bool_decide_eq_true; exists e; (split; [done|]); by apply (run_may_return (bucket_env ∅ RenameOk) _ sb_opened).
Qed.
Lemma ended_handle_run (u : UploadState (up := uploader_with failing_client)) : ended u →
  handle_run (crc := sum_crc) Prefix_empty config (handle _ bad_upload) 1 u [(HFsync, ended_answer u HFsync)] u None.
Proof.
  intros Hu. assert (completes (handle _ bad_upload) u HFsync = None) as Hc by (by destruct u).
  pose proof (handle_run_step (crc := sum_crc) Prefix_empty config (handle _ bad_upload) 1 u [] u None 0 HFsync u (ended_answer u HFsync)
    (handle_run_nil _ _ _ _ _)) as Hrun.
  rewrite Hc in Hrun. apply Hrun. by destruct u.
Qed.

