(* ===== verification/Filesystem.v ===== *)
(** * The file system ([fs.rs], [fs/config.rs] and the hooks of [metablock/pending_upload.rs])

    [S3Filesystem] puts the parts together: it answers the requests of the kernel
    with the metablock (the superblock), the prefetcher and the uploader.  The state
    holds the superblock, the open file handles and the pending upload hooks.
    File handles are shared by the table of open handles and by hooks, so they
    live in a map of their own and the table is a set of keys.

    A request of the kernel runs from start to end; the programs of the superblock
    that it calls are run by [fs_run], which gives the answers of S3 (counted, so
    that they can change over time) and completes hooks when a program waits for
    them. *)

From S2P Require Import Prelude Checksums Part PartQueue Upload NegativeCache Path HandlesMap Inode Superblock Readdir FileHandles.
Local Open Scope Z_scope.

(** ** Configuration and replies *)

Record S3FilesystemConfig := {
  fc_uid : Z;
  fc_gid : Z;
  fc_dir_mode : Z;
  fc_file_mode : Z;
  fc_allow_delete : bool;
  fc_allow_overwrite : bool;
  fc_incremental_upload : bool;
}.
Definition fc_write_mode (c : S3FilesystemConfig) : WriteMode :=
  {| wm_allow_overwrite := fc_allow_overwrite c; wm_incremental_upload := fc_incremental_upload c |}.

Record RenameFlags := { RENAME_NOREPLACE : bool; RENAME_EXCHANGE : bool; RENAME_WHITEOUT : bool }.

Record FileAttr := {
  fa_ino : Z;
  fa_size : Z;
  fa_blocks : Z;
  fa_atime : Z;
  fa_mtime : Z;
  fa_ctime : Z;
  fa_crtime : Z;
  fa_kind : InodeKind;
  fa_perm : Z;
  fa_nlink : Z;
  fa_uid : Z;
  fa_gid : Z;
  fa_rdev : Z;
  fa_flags : Z;
  fa_blksize : Z;
}.
Record Entry := { en_ttl : Z; en_attr : FileAttr; en_generation : Z }.
Record Attr := { at_ttl : Z; at_attr : FileAttr }.
Record Opened := { op_fh : Z; op_flags : Z }.
Record DirectoryEntry := {
  dent_ino : Z;
  dent_offset : Z;
  dent_name : str;
  dent_attr : FileAttr;
  dent_generation : Z;
  dent_ttl : Z;
}.
Record StatFs := {
  sf_total_blocks : Z;
  sf_free_blocks : Z;
  sf_available_blocks : Z;
  sf_total_inodes : Z;
  sf_free_inodes : Z;
  sf_block_size : Z;
  sf_maximum_name_length : Z;
  sf_fragment_size : Z;
}.
Definition StatFs_default : StatFs :=
  {| sf_total_blocks := 0; sf_free_blocks := 0; sf_available_blocks := 0; sf_total_inodes := 0; sf_free_inodes := 0;
     sf_block_size := 512; sf_maximum_name_length := 255; sf_fragment_size := 0 |}.

Definition FOPEN_DIRECT_IO : Z := 1.
Definition S_IFMT : Z := 61440.
Definition S_IFREG : Z := 32768.

(** [PendingUploadHookState]: the handle that the future completes, and the result once it has run *)
Record PendingUploadHookState := { ph_fh : Z; ph_result : option (InodeError + option Lookup) }.

Section filesystem.
Context `{crc : Crc32c, env : IntegrityEnv, up : FileUploader, pf : FilePrefetcher, proc : ProcFs}.
Context (prefix : Prefix) (cfg : CacheConfig) (mount_time : Z) (list_ordered : bool) (config : S3FilesystemConfig).
(** the answer of S3 to the n-th call *)
Context (s3 : nat → ∀ c, response c).

Record S3Filesystem := {
  fs_metablock : Superblock;
  fs_dirs : DirHandles;
  fs_next_handle : Z;
  (** the keys of [file_handles] *)
  fs_file_handles : gset Z;
  (** the [FileHandle]s that are referenced, by the number they were opened with *)
  fs_handles : gmap Z FileHandle;
  fs_hooks : list PendingUploadHookState;
  (** requests started by handles, and calls of S3 made by the superblock *)
  fs_requests : nat;
  fs_calls : nat;
}.
Implicit Types fs : S3Filesystem.

Definition fs_with_metablock fs sb : S3Filesystem :=
  {| fs_metablock := sb; fs_dirs := fs_dirs fs; fs_next_handle := fs_next_handle fs; fs_file_handles := fs_file_handles fs;
     fs_handles := fs_handles fs; fs_hooks := fs_hooks fs; fs_requests := fs_requests fs; fs_calls := fs_calls fs |}.
Definition fs_with_dirs fs dirs : S3Filesystem :=
  {| fs_metablock := fs_metablock fs; fs_dirs := dirs; fs_next_handle := fs_next_handle fs; fs_file_handles := fs_file_handles fs;
     fs_handles := fs_handles fs; fs_hooks := fs_hooks fs; fs_requests := fs_requests fs; fs_calls := fs_calls fs |}.
Definition fs_with_handles fs open handles : S3Filesystem :=
  {| fs_metablock := fs_metablock fs; fs_dirs := fs_dirs fs; fs_next_handle := fs_next_handle fs; fs_file_handles := open;
     fs_handles := handles; fs_hooks := fs_hooks fs; fs_requests := fs_requests fs; fs_calls := fs_calls fs |}.
Definition fs_with_hooks fs hooks : S3Filesystem :=
  {| fs_metablock := fs_metablock fs; fs_dirs := fs_dirs fs; fs_next_handle := fs_next_handle fs; fs_file_handles := fs_file_handles fs;
     fs_handles := fs_handles fs; fs_hooks := hooks; fs_requests := fs_requests fs; fs_calls := fs_calls fs |}.
Definition fs_count_call fs : S3Filesystem :=
  {| fs_metablock := fs_metablock fs; fs_dirs := fs_dirs fs; fs_next_handle := fs_next_handle fs; fs_file_handles := fs_file_handles fs;
     fs_handles := fs_handles fs; fs_hooks := fs_hooks fs; fs_requests := fs_requests fs; fs_calls := S (fs_calls fs) |}.
Definition fs_count_request fs : S3Filesystem :=
  {| fs_metablock := fs_metablock fs; fs_dirs := fs_dirs fs; fs_next_handle := fs_next_handle fs; fs_file_handles := fs_file_handles fs;
     fs_handles := fs_handles fs; fs_hooks := fs_hooks fs; fs_requests := S (fs_requests fs); fs_calls := fs_calls fs |}.
Definition set_handle fs fh h : S3Filesystem := fs_with_handles fs (fs_file_handles fs) (<[fh := h]> (fs_handles fs)).

Definition S3Filesystem_new (now : Z) : S3Filesystem :=
  {| fs_metablock := Superblock_new prefix cfg mount_time now; fs_dirs := {| dhs_handles := ∅; dhs_next_id := 1 |};
     fs_next_handle := 1; fs_file_handles := ∅; fs_handles := ∅; fs_hooks := []; fs_requests := 0; fs_calls := 0 |}.

(** [next_handle.fetch_add(1)] *)
Definition next_handle fs : S3Filesystem * Z :=
  ({| fs_metablock := fs_metablock fs; fs_dirs := fs_dirs fs; fs_next_handle := wadd (fs_next_handle fs) 1;
      fs_file_handles := fs_file_handles fs; fs_handles := fs_handles fs; fs_hooks := fs_hooks fs;
      fs_requests := fs_requests fs; fs_calls := fs_calls fs |}, fs_next_handle fs).

(** ** Running the programs of the superblock; [call] answers the calls, [None] is a panic *)

Fixpoint fs_run {A} (call : ∀ c, S3Filesystem → S3Filesystem * option (response c)) (p : prog A) fs : S3Filesystem * outcome InodeError A :=
  match p with
  | Ret a => (fs, Ok a)
  | Throw e => (fs, Err e)
  | Crash | Pause => (fs, Panic)
  | Atomic act k =>
      match act (fs_metablock fs) with
      | (sb, Ok b) => fs_run call (k (inr b)) (fs_with_metablock fs sb)
      | (sb, Err e) => fs_run call (k (inl e)) (fs_with_metablock fs sb)
      | (sb, Panic) => (fs_with_metablock fs sb, Panic)
      end
  | Call c k =>
      match call c fs with
      | (fs, Some r) => fs_run call (k r) fs
      | (fs, None) => (fs, Panic)
      end
  end.

(** The calls of the completion of an upload: it does not wait for another hook. *)
Definition call_s3 (c : Superblock.call) : S3Filesystem → S3Filesystem * option (response c) :=
  match c with
  | WaitForCompletion _ => λ fs, (fs, None)
  | c => λ fs, (fs_count_call fs, Some (s3 (fs_calls fs) c))
  end.

(** [PendingUploadHook::new] *)
Definition PendingUploadHook_new fs (fh : Z) : S3Filesystem * HookId :=
  (fs_with_hooks fs (fs_hooks fs ++ [{| ph_fh := fh; ph_result := None |}]), length (fs_hooks fs)).

Definition set_hook_result fs (hook : HookId) (fh : Z) (result : InodeError + option Lookup) : S3Filesystem :=
  fs_with_hooks fs (<[hook := {| ph_fh := fh; ph_result := Some result |}]> (fs_hooks fs)).

(** [PendingUploadHook::wait_for_completion] *)
Definition wait_for_completion (hook : HookId) fs : S3Filesystem * option (InodeError + option Lookup) :=
  match fs_hooks fs !! hook with
  | None => (fs, None)
  | Some {| ph_fh := fh; ph_result := Some result |} => (fs, Some result)
  | Some {| ph_fh := fh; ph_result := None |} =>
      match fs_handles fs !! fh with
      | None => (fs, None)
      | Some h =>
          match h_state h with
          | ReadState _ _ => (set_hook_result fs hook fh (inr None), Some (inr None))
          | WriteState u flushed =>
              match fs_run call_s3 (complete_pending_upload prefix cfg u (h_ino h) (h_location h) fh) fs with
              | (fs, Ok (u, result)) =>
                  let fs := set_handle fs fh (h_with_state h (WriteState u flushed)) in
                  (set_hook_result fs hook fh result, Some result)
              | (fs, _) => (fs, None)
              end
          end
      end
  end.

Definition fs_call (c : Superblock.call) : S3Filesystem → S3Filesystem * option (response c) :=
  match c with
  | WaitForCompletion hook => wait_for_completion hook
  | c => call_s3 c
  end.

(** A call of the metablock; [?] turns an [InodeError] into an [Error]. *)
Definition metablock {A} (p : prog A) fs : S3Filesystem * outcome Error A :=
  let '(fs, r) := fs_run fs_call p fs in (fs, outcome_map_err Error_from_InodeError r).

(** ** Attributes *)

Definition make_attr (lookup : Lookup) : FileAttr :=
  let stat := lk_stat lookup in
  let '(perm, nlink) :=
    match lk_kind lookup with
    | File => if stat_is_readable stat then (fc_file_mode config, 1) else (0, 1)
    | Directory => (fc_dir_mode config, 2)
    end in
  {| fa_ino := lk_ino lookup; fa_size := stat_size stat; fa_blocks := div_ceil (stat_size stat) 512; fa_atime := stat_atime stat;
     fa_mtime := stat_mtime stat; fa_ctime := stat_ctime stat; fa_crtime := 0; fa_kind := lk_kind lookup; fa_perm := perm; fa_nlink := nlink;
     fa_uid := fc_uid config; fa_gid := fc_gid config; fa_rdev := 0; fa_flags := 0; fa_blksize := 4096 |}.

Definition Lookup_validity (lookup : Lookup) (now : Z) : Z := Expiry_remaining_ttl (stat_expiry (lk_stat lookup)) now.
Definition make_entry (lookup : Lookup) fs : Entry :=
  {| en_ttl := Lookup_validity lookup (sb_now (fs_metablock fs)); en_attr := make_attr lookup; en_generation := 0 |}.
Definition reply_attr (lookup : Lookup) fs : Attr :=
  {| at_ttl := Lookup_validity lookup (sb_now (fs_metablock fs)); at_attr := make_attr lookup |}.

(** ** Requests on names and attributes *)

Definition lookup fs (parent : Z) (name : str) : S3Filesystem * outcome Error Entry :=
  let '(fs, r) := fs_run fs_call (sb_lookup prefix cfg mount_time parent name) fs in
  match r with
  | Ok lookup => (fs, Ok (make_entry lookup fs))
  | Err (FileDoesNotExist _ _) => (fs, Err (err ENOENT "file does not exist"))
  | Err e => (fs, Err (Error_from_InodeError e))
  | Panic => (fs, Panic)
  end.

Definition getattr fs (ino : Z) : S3Filesystem * outcome Error Attr :=
  let? fs, lookup := metablock (sb_getattr prefix cfg mount_time ino false) fs in
  (fs, Ok (reply_attr lookup fs)).

Definition setattr fs (ino : Z) (atime mtime size : option Z) : S3Filesystem * outcome Error Attr :=
  let '(fs, r) := fs_run fs_call (sb_setattr prefix cfg ino atime mtime) fs in
  match r, size with
  | Ok lookup, _ => (fs, Ok (reply_attr lookup fs))
  | Err e, _ =>
      if match e, size with SetAttrNotPermittedOnRemoteInode _, Some 0 => negb (fc_allow_overwrite config) | _, _ => false end
      then (fs, Err (err EPERM "file overwrite is disabled by default"))
      else (fs, Err (Error_from_InodeError e))
  | Panic, _ => (fs, Panic)
  end.

Definition forget fs (ino n : Z) : S3Filesystem * outcome Error unit := metablock (sb_forget ino n) fs.

Definition mknod fs (parent : Z) (name : str) (mode : Z) : S3Filesystem * outcome Error Entry :=
  if negb (Z.land mode S_IFMT =? S_IFREG) then (fs, Err (err EINVAL "invalid mknod type; only regular files are supported"))
  else
    let? fs, lookup := metablock (sb_create prefix cfg mount_time parent name File) fs in
    (fs, Ok (make_entry lookup fs)).

Definition mkdir fs (parent : Z) (name : str) : S3Filesystem * outcome Error Entry :=
  let? fs, lookup := metablock (sb_create prefix cfg mount_time parent name Directory) fs in
  (fs, Ok (make_entry lookup fs)).

Definition rmdir fs (parent_ino : Z) (name : str) : S3Filesystem * outcome Error unit :=
  metablock (sb_rmdir prefix cfg mount_time parent_ino name) fs.

Definition unlink fs (parent_ino : Z) (name : str) : S3Filesystem * outcome Error unit :=
  if negb (fc_allow_delete config) then (fs, Err (err EPERM "Deletes are disabled."))
  else metablock (sb_unlink prefix cfg mount_time parent_ino name) fs.

Definition rename fs (old_parent : Z) (old_name : str) (new_parent : Z) (new_name : str) (flags : RenameFlags)
    : S3Filesystem * outcome Error unit :=
  if RENAME_EXCHANGE flags then (fs, Err (err EINVAL "flag RENAME_EXCHANGE is not supported"))
  else if RENAME_WHITEOUT flags then (fs, Err (err EINVAL "flag RENAME_WHITEOUT is not supported"))
  else
    let overwrites_allowed := fc_allow_overwrite config && negb (RENAME_NOREPLACE flags) in
    metablock (sb_rename prefix cfg mount_time old_parent old_name new_parent new_name overwrites_allowed) fs.

Definition statfs fs : S3Filesystem * outcome Error StatFs :=
  let free := u64_max / 1024 in
  (fs, Ok {| sf_total_blocks := free; sf_free_blocks := free; sf_available_blocks := free; sf_total_inodes := free;
             sf_free_inodes := free; sf_block_size := sf_block_size StatFs_default;
             sf_maximum_name_length := sf_maximum_name_length StatFs_default; sf_fragment_size := sf_fragment_size StatFs_default |}).

(** ** Directories; [room] is the reply buffer: [add] of the replier returns its negation *)

Definition opendir fs (parent : Z) : S3Filesystem * outcome Error Opened :=
  let? fs, opened := metablock (new_readdir_handle prefix list_ordered (fs_dirs fs) parent) fs in
  (fs_with_dirs fs (fst opened), Ok {| op_fh := snd opened; op_flags := 0 |}).

Definition directory_entry (now : Z) (e : DirectoryEntryReaddir) : DirectoryEntry :=
  let information := Lookup_from (de_lookup e) in
  {| dent_ino := lk_ino information; dent_offset := de_offset e; dent_name := de_name e; dent_attr := make_attr information;
     dent_generation := de_generation e; dent_ttl := Lookup_validity information now |}.

Definition readdir_impl (n fuel : nat) fs (parent fh offset : Z) (is_readdirplus : bool) (room : list DirectoryEntry → DirectoryEntry → bool)
    : S3Filesystem * outcome Error (list DirectoryEntry) :=
  let entry := directory_entry (sb_now (fs_metablock fs)) in
  let add sent e := room (map entry sent) (entry e) in
  let? fs, res := metablock (sb_readdir prefix cfg mount_time list_ordered add n fuel (fs_dirs fs) parent fh offset is_readdirplus) fs in
  let '(dirs, sent, r) := res in
  (fs_with_dirs fs dirs, match r with inl e => Err (Error_from_InodeError e) | inr _ => Ok (map entry sent) end).

Definition releasedir fs (fh : Z) : S3Filesystem * outcome Error unit :=
  let '(dirs, r) := sb_releasedir (fs_dirs fs) fh in
  (fs_with_dirs fs dirs, outcome_map_err Error_from_InodeError r).

(** ** Open files *)

Definition direct_io (flags : OpenFlags) : bool := o_direct flags.

Definition open fs (ino : Z) (flags : OpenFlags) (pid : Z) : S3Filesystem * outcome Error Opened :=
  if o_sync flags || o_dsync flags then (fs, Err (err EINVAL "O_SYNC and O_DSYNC are not supported"))
  else
    let '(fs, fh) := next_handle fs in
    let write_mode := fc_write_mode config in
    let? fs, new_handle := metablock (sb_open_handle prefix cfg mount_time ino fh write_mode flags) fs in
    let '(lookup, mode) := new_handle in
    let n := fs_requests fs in
    let fs := fs_count_request fs in
    match FileHandleState_new prefix n fh lookup mode flags write_mode with
    | Err e => (fs, Err e)
    | Panic => (fs, Panic)
    | Ok state =>
        let handle := {| h_ino := ino; h_location := upload_key prefix lookup; h_state := state; h_open_pid := pid |} in
        (fs_with_handles fs ({[ fh ]} ∪ fs_file_handles fs) (<[fh := handle]> (fs_handles fs)),
         Ok {| op_fh := fh; op_flags := if direct_io flags then FOPEN_DIRECT_IO else 0 |})
    end.

(** [file_handles.get(&fh)] *)
Definition get_handle fs (fh : Z) : outcome Error FileHandle :=
  if bool_decide (fh ∈ fs_file_handles fs) then match fs_handles fs !! fh with Some h => Ok h | None => Panic end
  else Err (err EBADF "invalid file handle").

(** A handle that was flushed must not have been overridden by a newer one. *)
Definition reactivate fs (h : FileHandle) (ino fh : Z) (mode : ReadWriteMode) (flushed : bool) : S3Filesystem * outcome Error unit :=
  if flushed then
    let? fs, valid := metablock (sb_try_reactivate_handle prefix ino fh mode) fs in
    if (valid : bool) then (fs, Ok tt) else (fs, Err (err EBADF "file handle has been invalidated by a newer handle opened"))
  else (fs, Ok tt).

Definition read fs (ino fh offset size : Z) : S3Filesystem * outcome Error bytes :=
  let? fs, h := (fs, get_handle fs fh) in
  match h_state h with
  | WriteState _ _ => (fs, Err (err EBADF "file handle is not open for reads"))
  | ReadState request flushed =>
      let? fs, _valid := reactivate fs h ino fh ModeRead flushed in
      let '(request, r) := prefetch_read request (wrap64 offset) size in
      let fs := set_handle fs fh (h_with_state h (ReadState request false)) in
      match r with
      | Err e => (fs, Err (Error_from_PrefetchReadError e))
      | Panic => (fs, Panic)
      | Ok data => (fs, outcome_map_err (λ _, err EIO "integrity error") (ChecksummedBytes_into_bytes data))
      end
  end.

(** An operation of [UploadState] under the lock of the handle. *)
Definition with_upload {A} fs (h : FileHandle) (fh : Z) (flushed flushed_if_ok : bool) (p : prog (UploadState * (Error + A)))
    : S3Filesystem * outcome Error A :=
  let? fs, res := metablock p fs in
  let '(u, r) := res in
  match r with
  | inl e => (set_handle fs fh (h_with_state h (WriteState u flushed)), Err e)
  | inr a => (set_handle fs fh (h_with_state h (WriteState u flushed_if_ok)), Ok a)
  end.

Definition write fs (ino fh offset : Z) (data : bytes) : S3Filesystem * outcome Error Z :=
  let? fs, h := (fs, get_handle fs fh) in
  match h_state h with
  | ReadState _ _ => (fs, Err (err EBADF "file handle is not open for writes"))
  | WriteState u flushed =>
      let? fs, _valid := reactivate fs h ino fh ModeWrite flushed in
      with_upload fs h fh false false (UploadState_write prefix cfg u h offset data fh)
  end.

Definition fsync fs (fh : Z) : S3Filesystem * outcome Error unit :=
  let? fs, h := (fs, get_handle fs fh) in
  match h_state h with
  | ReadState _ _ => (fs, Ok tt)
  | WriteState u flushed =>
      let n := fs_requests fs in
      let '(fs, r) := with_upload (fs_count_request fs) h fh flushed flushed (UploadState_commit prefix cfg n u h fh) in
      (fs, outcome_map_err (λ e, if errno e =? EFBIG then err ENOSPC "object too big" else e) r)
  end.

(** A hook that [flush_writer] does not attach is dropped. *)
Definition flush fs (ino fh pid : Z) : S3Filesystem * outcome Error unit :=
  let? fs, h := (fs, get_handle fs fh) in
  match h_state h with
  | ReadState request _ =>
      let? fs, _flushed := metablock (sb_flush_reader prefix ino fh) fs in
      (set_handle fs fh (h_with_state h (ReadState request true)), Ok tt)
  | WriteState u flushed =>
      let n := fs_requests fs in
      let '(fs, hook) := PendingUploadHook_new fs fh in
      with_upload (fs_count_request fs) h fh flushed true (UploadState_complete prefix cfg n u h pid (h_open_pid h) fh hook)
  end.

Definition release fs (ino fh : Z) : S3Filesystem * outcome Error unit :=
  let? fs, h := (fs, get_handle fs fh) in
  let fs := fs_with_handles fs (fs_file_handles fs ∖ {[ fh ]}) (fs_handles fs) in
  match h_state h with
  | ReadState _ _ => metablock (sb_finish_reading prefix (h_ino h) fh) fs
  | WriteState _ _ =>
      let '(fs, hook) := PendingUploadHook_new fs fh in
      metablock (sb_release_writer prefix ino fh hook) fs
  end.
End filesystem.
