(* ===== verification/FilesystemSpec.v ===== *)
(** * The file system end to end

    A file that is written and closed can be opened and read back: the theorem
    follows one file through the file system, the superblock, the uploader and the
    prefetcher.  The uploader and the prefetcher are used through their laws. *)

From S2P Require Import Prelude Checksums Part PartQueue PartStream MemLimiter Backpressure Prefetch ClientChecksums Upload AppendUpload AppendUploadSpec NegativeCache Path HandlesMap Inode Superblock SuperblockInv.
From S2P Require Import Readdir SuperblockConc SuperblockOps FileHandles FileHandlesSpec Filesystem.
Local Open Scope Z_scope.

(** ** What the prefetcher promises to a handle *)

Class FilePrefetcherLaws `{Crc32c, IntegrityEnv, FilePrefetcher} (content : ObjectId → bytes) := {
  reading : ReadRequest → ObjectId → Prop;
  prefetch_law n id fh : zlen (content id) < 2 ^ 62 → ∃ r, prefetch n id fh (zlen (content id)) = Ok r ∧ reading r id;
  prefetch_read_law r id offset length : reading r id → 0 ≤ offset → 0 ≤ length →
    ∃ r' res, prefetch_read r offset length = (r', res) ∧ reading r' id ∧
      match res with
      | Ok data => cb_wf data ∧ cb_intact data ∧ cb_data data = zslice offset (Z.min (offset + length) (zlen (content id))) (content id)
      | Err _ => True
      | Panic => False
      end;
}.

(** ** Equations of [fs_run] *)

Section session.
Context `{crc : Crc32c, env : IntegrityEnv, up : FileUploader, pf : FilePrefetcher, proc : ProcFs}.
Context (prefix : Prefix) (cfg : CacheConfig) (mount_time : Z) (config : S3FilesystemConfig) (s3 : nat → ∀ c, response c).
Implicit Types fs : S3Filesystem.

Lemma fs_run_bind {A B} call (p : prog A) (f : A → prog B) fs :
  fs_run call (p ≫= f) fs =
  match fs_run call p fs with
  | (fs', Ok a) => fs_run call (f a) fs'
  | (fs', Err e) => (fs', Err e)
  | (fs', Panic) => (fs', Panic)
  end.
Proof.
  unfold mbind, prog_bind. revert fs. induction p as [a|e| | |C act k IH|c k IH]; intros fs; simpl; try done.
  - destruct (act (fs_metablock fs)) as [s' [b|e|]]; auto.
  - destruct (call c fs) as [fs' [r|]]; auto.
Qed.
Lemma fs_run_atomic {A} call (act : Superblock → Superblock * outcome InodeError A) fs :
  fs_run call (atomic act) fs = (fs_with_metablock fs (act (fs_metablock fs)).1, (act (fs_metablock fs)).2).
Proof. simpl. by destruct (act (fs_metablock fs)) as [s' [b|e|]]. Qed.
Lemma fs_run_ret {A} call (a : A) fs : fs_run call (mret a) fs = (fs, Ok a).
Proof. done. Qed.
Lemma fs_run_lift {A} call (o : outcome InodeError A) fs : fs_run call (lift o) fs = (fs, o).
Proof. by destruct o. Qed.
Lemma fs_run_attempt {A} call (p : prog A) fs :
  fs_run call (attempt p) fs =
  match fs_run call p fs with
  | (fs', Ok a) => (fs', Ok (inr a))
  | (fs', Err e) => (fs', Ok (inl e))
  | (fs', Panic) => (fs', Panic)
  end.
Proof.
  revert fs. induction p as [a|e| | |C act k IH|c k IH]; intros fs; simpl; try done.
  - destruct (act (fs_metablock fs)) as [s' [b|e|]]; auto.
  - destruct (call c fs) as [fs' [r|]]; auto.
Qed.

(** ** One file in its directory *)

Context (file dir : Inode) (name : str) (now : Z).

(** The superblock knows the file, with the state [st], as the child [name] of a directory of the bucket; [handles]
    are the handles that are open on the file. *)
Record holds (sb : Superblock) (st : InodeState) (handles : option InodeHandles) : Prop := {
  holds_file : ∃ n, sb_inodes sb !! in_ino file = Some (file, n);
  holds_dir : ∃ n, sb_inodes sb !! in_parent file = Some (dir, n);
  holds_state : sb_heap sb !! in_loc file = Some (file, st);
  holds_dir_state : ∃ dst children writing, sb_heap sb !! in_loc dir = Some (dir, dst) ∧
    st_kind_data dst = DirectoryData children writing false ∧ children !! name = Some file ∧ st_write_status dst = Remote;
  holds_handles : sb_open_handles sb !! in_ino file = handles;
  holds_now : sb_now sb = now;
}.

(** The key of the object. *)
Definition file_key : str := vk_key (full_key_for_inode prefix file).

(** What never changes: the two inodes are intact, and the file is the child [name] of the directory. *)
Record identified : Prop := {
  id_file : verify_inode file (in_ino file) prefix = Ok tt;
  id_dir : verify_inode dir (in_parent file) prefix = Ok tt;
  id_child : verify_child file (in_parent file) name prefix = Ok tt;
  id_key : file_key = object_key prefix dir name;
  id_full_kind : ValidKey_kind (full_key_for_inode prefix dir) = Directory;
  id_name : Inode_name (E := InodeError) file = Ok name;
  id_valid_name : valid_name_str name = true;
  id_file_kind : Inode_kind file = File;
  id_dir_kind : Inode_kind dir = Directory;
  id_distinct : in_loc file ≠ in_loc dir;
}.

Context (Hid : identified).
Set Default Proof Using "Type*".

Lemma fs_run_get_file call fs st handles : holds (fs_metablock fs) st handles → fs_run call (sb_get prefix (in_ino file)) fs = (fs, Ok file).
Proof.
  intros [[n Hf] _ _ _ _ _]. unfold sb_get. rewrite fs_run_atomic. simpl. rewrite Hf. rewrite (id_file Hid). simpl. by destruct fs.
Qed.
Lemma fs_run_get_dir call fs st handles : holds (fs_metablock fs) st handles → fs_run call (sb_get prefix (in_parent file)) fs = (fs, Ok dir).
Proof.
  intros [_ [n Hf] _ _ _ _]. unfold sb_get. rewrite fs_run_atomic. simpl. rewrite Hf. rewrite (id_dir Hid). simpl. by destruct fs.
Qed.

Lemma holds_get sb st handles : holds sb st handles → st_kind_data st = FileData → get_inode_state sb file = Ok st.
Proof. intros [_ _ H _ _ _] Hk. unfold get_inode_state, is_deleted. by rewrite H, Hk. Qed.

(** Changing the state of the file, and its handles. *)
Lemma holds_set sb st handles st' : holds sb st handles → holds (set_inode_state sb file st') st' handles.
Proof.
  intros [? ? Hs (dst & ch & w & Hd & ?) ? ?]. pose proof (id_distinct Hid). split; try done.
  - simpl. by rewrite lookup_alter_eq, Hs.
  - exists dst, ch, w. by rewrite set_inode_state_lookup_ne.
Qed.
Lemma holds_set_handles sb st handles m handles' :
  holds sb st handles → m !! in_ino file = handles' → holds (sb_with_handles sb m) st handles'.
Proof. intros [? ? ? ? _ ?] ?. by split. Qed.

(** *** Writing *)

(** The file is open for writing and [size] bytes were written. *)
Definition writing (st : InodeState) (size : Z) : Prop :=
  st_kind_data st = FileData ∧ st_write_status st = LocalOpenForWriting ∧ st_pending_upload_hook st = None ∧
  stat_is_readable (st_stat st) = true ∧ stat_size (st_stat st) = size.
(** The file was created and not opened yet. *)
Definition created (st : InodeState) : Prop :=
  st_kind_data st = FileData ∧ st_write_status st = LocalUnopened ∧ st_pending_upload_hook st = None ∧
  stat_is_readable (st_stat st) = true.
Definition writer (fh : Z) : InodeHandles := {| ih_readers := ∅; ih_writer := Some (fh, Active) |}.
(** No handle is active on the file. *)
Definition idle (handles : option InodeHandles) : Prop :=
  match handles with None => True | Some h => any_reader_active h = false ∧ writer_active h = false end.

Lemma fs_run_getattr_created call fs st handles force :
  holds (fs_metablock fs) st handles → created st → 0 ≤ cc_file_ttl cfg →
  ∃ sb' st', holds sb' st' handles ∧ created st' ∧ stat_etag (st_stat st') = stat_etag (st_stat st) ∧
    fs_run call (getattr_with_inode prefix cfg mount_time (in_ino file) force) fs =
    (fs_with_metablock fs sb', Ok {| lu_inode := file; lu_stat := st_stat st'; lu_write_status := LocalUnopened |}).
Proof.
  intros Hh (Hk & Hs & Hhook & Hr) Httl. pose proof (holds_get _ _ _ Hh Hk) as Hget.
  set (st' := st_with_stat st (InodeStat_update_validity (st_stat st) now (cc_file_ttl cfg))).
  exists (set_inode_state (fs_metablock fs) file st'), st'. split; [by eapply holds_set|]. split; [done|]. split; [done|].
  unfold getattr_with_inode. rewrite fs_run_bind, (fs_run_get_file _ _ _ _ Hh), fs_run_bind, fs_run_atomic.
  unfold getattr_locked, has_local_state. rewrite Hget. cbn [state_bind]. rewrite Hs, bool_decide_eq_false_2 by done. cbn [negb orb].
  unfold ttl_for. rewrite (id_file_kind Hid), (holds_now _ _ _ Hh). fold st'.
  unfold InodeStat_is_valid, Expiry_is_expired. simpl. rewrite (holds_now _ _ _ Hh), (proj2 (Z.ltb_ge _ _)) by lia. simpl. by rewrite Hs.
Qed.

Lemma set_writer_idle (m : InodeHandleMap) ino fh : idle (m !! ino) → set_writer m ino fh = (<[ino := writer fh]> m, inr tt).
Proof.
  intros Hi. unfold set_writer, handles_of. destruct (m !! ino) as [h|]; simpl in *; [|done]. destruct Hi as [Hr Hw]. by rewrite Hr, Hw.
Qed.

Lemma fs_run_open_write call fs st handles fh mode flags :
  holds (fs_metablock fs) st handles → created st → idle handles → 0 ≤ cc_file_ttl cfg → o_wronly flags || o_rdwr flags = true →
  ∃ sb' st', holds sb' st' (Some (writer fh)) ∧ writing st' 0 ∧ stat_etag (st_stat st') = stat_etag (st_stat st) ∧
    fs_run call (sb_open_handle prefix cfg mount_time (in_ino file) fh mode flags) fs =
    (fs_with_metablock fs sb', Ok (Lookup_new file (st_stat st'), ModeWrite)).
Proof.
  intros Hh Hc Hi Httl Hfl. unfold sb_open_handle.
  destruct (fs_run_getattr_created call fs st handles (negb (cc_serve_lookup_from_cache cfg) || o_direct flags) Hh Hc Httl)
    as (sb1 & st1 & Hh1 & (Hk1 & Hs1 & Hhook1 & Hr1) & He1 & Hrun).
  set (st2 := st_with_stat (st_with_status st1 LocalOpenForWriting) (stat_with_size (st_stat st1) 0)).
  set (m := <[in_ino file := writer fh]> (sb_open_handles sb1)).
  exists (set_inode_state (sb_with_handles sb1 m) file st2), st2.
  assert (holds (set_inode_state (sb_with_handles sb1 m) file st2) st2 (Some (writer fh))) as Hh2.
  { eapply holds_set, holds_set_handles; [done|]. apply lookup_insert_eq. }
  split; [done|]. split; [done|]. split; [done|].
  rewrite fs_run_bind, Hrun. cbn [lu_inode lu_write_status lu_stat]. rewrite (id_file_kind Hid). rewrite bool_decide_eq_false_2 by done.
  assert (open_mode mode flags LocalUnopened = ModeWrite) as ->.
  { unfold open_mode. destruct (o_rdwr flags); [done|]. by destruct (o_wronly flags). }
  rewrite fs_run_bind, fs_run_atomic. cbn [fs_metablock fs_with_metablock]. unfold open_locked.
  rewrite (holds_get _ _ _ Hh1 Hk1). cbn [state_bind]. unfold start_writing. rewrite Hs1.
  rewrite set_writer_idle by (by rewrite (holds_handles _ _ _ Hh1)). cbn [state_bind]. fold st2. fold m.
  rewrite (holds_get _ _ _ Hh2) by done. simpl. by destruct fs.
Qed.

Lemma fs_run_inc_file_size call fs st handles size len :
  holds (fs_metablock fs) st handles → writing st size → 0 ≤ size → 0 ≤ len → size + len < u64_modulus →
  ∃ sb' st', holds sb' st' handles ∧ writing st' (size + len) ∧ stat_etag (st_stat st') = stat_etag (st_stat st) ∧
    fs_run call (sb_inc_file_size prefix (in_ino file) len) fs = (fs_with_metablock fs sb', Ok (size + len)).
Proof.
  intros Hh (Hk & Hs & Hhook & Hr & <-) H0 Hl Hlt.
  set (st' := st_with_stat st (stat_with_size (st_stat st) (stat_size (st_stat st) + len))).
  exists (set_inode_state (fs_metablock fs) file st'), st'. split; [by eapply holds_set|]. split; [done|]. split; [done|].
  unfold sb_inc_file_size. rewrite fs_run_bind, (fs_run_get_file _ _ _ _ Hh), fs_run_atomic. rewrite (holds_get _ _ _ Hh Hk). cbn [state_bind].
  rewrite Hs. by rewrite wadd_small by (unfold is_u64; lia).
Qed.

(** *** The end of the upload *)

(** The file is in the bucket, with this size and ETag. *)
Definition stored (st : InodeState) (size : Z) (etag : ETag) : Prop :=
  st_kind_data st = FileData ∧ st_write_status st = Remote ∧ st_pending_upload_hook st = None ∧
  stat_is_readable (st_stat st) = true ∧ stat_size (st_stat st) = size ∧ stat_etag (st_stat st) = Some etag.

Lemma holds_dir_get sb st handles : holds sb st handles →
  ∃ dst children writing, get_inode_state sb dir = Ok dst ∧ sb_heap sb !! in_loc dir = Some (dir, dst) ∧
    st_kind_data dst = DirectoryData children writing false ∧ children !! name = Some file ∧ st_write_status dst = Remote.
Proof.
  intros [_ _ _ (dst & ch & w & Hd & Hk & Hc & Hs) _ _]. exists dst, ch, w. ands; try done. unfold get_inode_state, is_deleted. by rewrite Hd, Hk.
Qed.

Lemma fs_run_collect_ancestors call fs st handles fuel :
  holds (fs_metablock fs) st handles → fs_run call (collect_ancestors prefix (S fuel) (in_parent file) ∅) fs = (fs, Ok [dir]).
Proof.
  intros Hh. destruct (holds_dir_get _ _ _ Hh) as (dst & ch & w & Hg & _ & _ & _ & Hs). cbn [collect_ancestors].
  rewrite bool_decide_eq_false_2 by set_solver. rewrite fs_run_bind, (fs_run_get_dir _ _ _ _ Hh), fs_run_bind.
  destruct (in_ino dir =? ROOT_INODE_NO); [by rewrite fs_run_ret|]. rewrite fs_run_atomic. cbn [fst snd]. rewrite Hg. cbn [outcome_bind].
  rewrite Hs, bool_decide_eq_true_2 by done. rewrite fs_run_ret. by destruct fs.
Qed.

Lemma remove_only_writer (m : InodeHandleMap) ino fh : m !! ino = Some (writer fh) → try_remove_writer m ino fh = (delete ino m, true).
Proof. intros Hm. unfold try_remove_writer. rewrite Hm. simpl. rewrite bool_decide_eq_true_2 by done. done. Qed.

Lemma fs_run_finish_writing call fs st fh size etag :
  holds (fs_metablock fs) st (Some (writer fh)) → writing st size →
  ∃ sb' st' lookup, holds sb' st' None ∧ stored st' size etag ∧ stat_expiry (st_stat st') = Expiry_from_now now (cc_file_ttl cfg) ∧
    fs_run call (sb_finish_writing prefix cfg (in_ino file) (Some etag) fh) fs = (fs_with_metablock fs sb', Ok lookup).
Proof.
  intros Hh (Hk & Hs & Hhook & Hr & Hsize). destruct (holds_dir_get _ _ _ Hh) as (dst & ch & w & Hg & Hd & Hdk & Hch & Hds).
  set (st1 := st_with_status (st_with_hook st None) Remote).
  set (st' := st_with_stat st1 (InodeStat_update_validity (stat_with_etag (st_stat st1) (Some etag)) now (cc_file_ttl cfg))).
  set (s1 := set_inode_state (sb_with_handles (fs_metablock fs) (delete (in_ino file) (sb_open_handles (fs_metablock fs)))) file st').
  assert (holds s1 st' None) as Hh1.
  { eapply holds_set, holds_set_handles; [done|]. apply lookup_delete_eq. }
  destruct (holds_dir_get _ _ _ Hh1) as (dst1 & ch1 & w1 & Hg1 & Hd1 & Hdk1 & Hch1 & _).
  set (dst2 := st_with_status (st_with_kind_data dst1 (DirectoryData ch1 (w1 ∖ {[ in_ino file ]}) false)) Remote).
  exists (set_inode_state s1 dir dst2), st', (Lookup_new file (st_stat st')). ands; try done.
  - destruct Hh1 as [Hf Hdi Hst _ Hm Hn]. pose proof (id_distinct Hid). split; try done.
    + by rewrite set_inode_state_lookup_ne.
    + exists dst2, ch1, (w1 ∖ {[ in_ino file ]}). ands; try done. apply set_inode_state_lookup. by eexists.
  - unfold sb_finish_writing. rewrite fs_run_bind, (fs_run_get_file _ _ _ _ Hh), fs_run_bind, (fs_run_collect_ancestors _ _ _ _ _ Hh), fs_run_atomic.
    unfold finish_writing_locked. cbn [rev app lock_all]. rewrite Hg. cbn [outcome_bind state_bind]. rewrite (holds_get _ _ _ Hh Hk). cbn [state_bind].
    rewrite Hs. rewrite (remove_only_writer _ _ _ (holds_handles _ _ _ Hh)). rewrite (holds_now _ _ _ Hh). fold st1. fold st'. fold s1.
    cbn [update_ancestors]. rewrite Hg1. cbn [state_bind]. unfold children_of. rewrite Hdk1. cbn [state_bind]. done.
Qed.

(** *** Opening the stored file *)

(** S3 shows the file, and no directory of its name. *)
Definition s3_shows (size : Z) (etag : ETag) : Prop :=
  ∀ n, ∃ dir_first head list, s3 n (HeadAndList file_key (file_key ++ [delimiter])) = (dir_first, HeadOk head, Some list) ∧
    found_directory list (file_key ++ [delimiter]) = false ∧ ho_size head = size ∧ ho_etag head = etag ∧
    InodeStat_is_readable (ho_storage_class head) (ho_restore_status head) now = true.

(** Everything but the superblock and the count of calls is as before. *)
Definition same_files fs fs' : Prop :=
  fs_next_handle fs' = fs_next_handle fs ∧ fs_file_handles fs' = fs_file_handles fs ∧ fs_handles fs' = fs_handles fs ∧
  fs_hooks fs' = fs_hooks fs ∧ fs_requests fs' = fs_requests fs.

Lemma fs_run_remote_lookup fs st handles size etag :
  holds (fs_metablock fs) st handles → s3_shows size etag →
  ∃ r, rl_kind r = File ∧ stat_size (rl_stat r) = size ∧ stat_etag (rl_stat r) = Some etag ∧ stat_is_readable (rl_stat r) = true ∧
    fs_run (fs_call prefix cfg s3) (remote_lookup prefix cfg mount_time (in_parent file) name) fs = (fs_count_call fs, Ok (Some r)).
Proof.
  intros Hh Hs3. destruct (Hs3 (fs_calls fs)) as (df & head & list & Hans & Hnodir & Hsize & Hetag & Hread). rewrite (id_key Hid) in *.
  unfold remote_lookup. rewrite fs_run_bind, (fs_run_get_dir _ _ _ _ Hh), fs_run_bind, fs_run_lift. unfold ValidKey_new_child.
  rewrite (id_full_kind Hid). cbn [outcome_map_err vk_key]. rewrite bool_decide_eq_true_2 by done.
  rewrite app_assoc. fold (object_key prefix dir name). rewrite length_app, Nat.add_sub, take_app_length.
  rewrite fs_run_bind. unfold request. cbn [fs_run fs_call call_s3]. rewrite Hans. rewrite fs_run_bind. unfold clock. rewrite fs_run_atomic.
  cbn [fst snd]. rewrite fs_run_lift. unfold lookup_results, on_head, on_list. rewrite Hnodir.
  exists {| rl_kind := File; rl_stat := InodeStat_update_validity (InodeStat_for_file (ho_size head) (ho_last_modified head)
    (Some (ho_etag head)) (ho_storage_class head) (ho_restore_status head) now (cc_file_ttl cfg)) now (cc_file_ttl cfg) |}.
  simpl. rewrite Hsize, Hetag, Hread, (holds_now _ _ _ Hh). ands; try done. destruct df; by destruct fs.
Qed.

Lemma holds_negative_cache sb st handles ino r : holds sb st handles → holds (update_negative_cache cfg ino name r sb) st handles.
Proof.
  intros [? ? ? ? ? ?]. destruct (negative_cache_same cfg name ino r sb) as (Hh & Hi & _ & Hn).
  split; rewrite ?Hh, ?Hi, ?Hn; try done. unfold update_negative_cache. by repeat case_match.
Qed.

Lemma stored_local st size etag : stored st size etag → has_local_state st = false.
Proof. intros (_ & Hs & Hh & _). unfold has_local_state. by rewrite Hs, Hh. Qed.

Lemma fs_run_update_stored call fs st handles size etag r :
  holds (fs_metablock fs) st handles → stored st size etag →
  rl_kind r = File → stat_size (rl_stat r) = size → stat_etag (rl_stat r) = Some etag → stat_is_readable (rl_stat r) = true →
  ∃ sb', holds sb' (st_with_stat st (rl_stat r)) handles ∧ stored (st_with_stat st (rl_stat r)) size etag ∧
    fs_run call (update_from_remote prefix cfg (in_parent file) name (Some r)) fs =
    (fs_with_metablock fs sb', Ok {| lu_inode := file; lu_stat := rl_stat r; lu_write_status := Remote |}).
Proof.
  intros Hh Hst Hrk Hrs Hre Hrr. pose proof Hst as (Hk & Hs & Hhook & _ & _ & He).
  pose proof (holds_negative_cache _ _ _ (in_parent file) (Some r) Hh) as Hh1.
  set (sb1 := update_negative_cache cfg (in_parent file) name (Some r) (fs_metablock fs)) in *.
  exists (set_inode_state sb1 file (st_with_stat st (rl_stat r))). split; [by eapply holds_set|]. split; [done|].
  unfold update_from_remote. rewrite fs_run_bind, (fs_run_get_dir _ _ _ _ Hh), (id_dir_kind Hid), bool_decide_eq_true_2 by done. cbn [negb].
  rewrite fs_run_bind, fs_run_atomic. cbn [fst snd]. fold sb1. rewrite fs_run_bind, fs_run_atomic. cbn [fs_metablock fs_with_metablock].
  unfold try_update_fast_path. destruct (holds_dir_get _ _ _ Hh1) as (dst & ch & w & Hg & _ & Hdk & Hch & _). rewrite Hg. cbn [state_bind].
  unfold children_of. rewrite Hdk. cbn [state_bind]. rewrite Hch. rewrite (holds_get _ _ _ Hh1 Hk). cbn [state_bind].
  rewrite Hrk, (id_file_kind Hid), (stored_local _ _ _ Hst), He, Hre. rewrite !bool_decide_eq_true_2 by done. cbn [negb andb fst snd].
  rewrite fs_run_ret, Hs. by destruct fs.
Qed.

(** The state can be returned, or S3 has to be asked. *)
Lemma getattr_locked_stored sb st handles size etag force :
  holds sb st handles → stored st size etag →
  ∃ sb', holds sb' st handles ∧
    (getattr_locked cfg file force sb = (sb', Ok (Some {| lu_inode := file; lu_stat := st_stat st; lu_write_status := Remote |})) ∨
     getattr_locked cfg file force sb = (sb', Ok None)).
Proof.
  intros Hh Hst. pose proof Hst as (Hk & Hs & _). unfold getattr_locked. rewrite (holds_get _ _ _ Hh Hk). cbn [state_bind].
  rewrite (stored_local _ _ _ Hst), Hs. destruct force; cbn [negb orb]; [by exists sb; auto|].
  exists (set_inode_state sb file st). split; [by eapply holds_set|]. case_match; auto.
Qed.

Lemma fs_run_getattr_stored fs st handles size etag force :
  holds (fs_metablock fs) st handles → stored st size etag → s3_shows size etag →
  ∃ fs' st', same_files fs fs' ∧ holds (fs_metablock fs') st' handles ∧ stored st' size etag ∧
    fs_run (fs_call prefix cfg s3) (getattr_with_inode prefix cfg mount_time (in_ino file) force) fs =
    (fs', Ok {| lu_inode := file; lu_stat := st_stat st'; lu_write_status := Remote |}).
Proof.
  intros Hh Hst Hs3. pose proof Hst as (Hk & Hs & _). unfold getattr_with_inode.
  rewrite fs_run_bind, (fs_run_get_file _ _ _ _ Hh), fs_run_bind, fs_run_atomic.
  destruct (getattr_locked_stored _ _ _ _ _ force Hh Hst) as (sb1 & Hh1 & [Hcase|Hcase]); rewrite Hcase; cbn [fst snd].
  { exists (fs_with_metablock fs sb1), st. by ands. }
  set (fs1 := fs_with_metablock fs sb1). rewrite fs_run_bind, fs_run_lift, (id_name Hid), fs_run_bind.
  unfold lookup_by_name, parse_name, ValidName_parse_str. rewrite (id_valid_name Hid). rewrite fs_run_bind, fs_run_lift. cbn [outcome_map_err].
  rewrite fs_run_bind, fs_run_ret, fs_run_bind, fs_run_bind.
  destruct (fs_run_remote_lookup fs1 st handles size etag) as (r & Hrk & Hrs & Hre & Hrr & Hrun); [done..|]. rewrite Hrun.
  destruct (fs_run_update_stored (fs_call prefix cfg s3) (fs_count_call fs1) st handles size etag r) as (sb2 & Hh2 & Hst2 & Hrun2); [done..|].
  rewrite Hrun2. rewrite fs_run_bind, fs_run_lift. cbn [lu_inode]. rewrite (id_child Hid), fs_run_ret. cbn [lu_inode]. rewrite Z.eqb_refl. cbn [negb].
  exists (fs_with_metablock (fs_count_call fs1) sb2), (st_with_stat st (rl_stat r)). by ands.
Qed.

(** The handles after a reader was added. *)
Lemma fs_run_open_read fs st handles size etag fh mode flags :
  holds (fs_metablock fs) st handles → idle handles → stored st size etag → s3_shows size etag →
  o_rdwr flags = false → o_wronly flags = false →
  ∃ fs' st', same_files fs fs' ∧ (∃ handles', holds (fs_metablock fs') st' handles') ∧ stored st' size etag ∧
    fs_run (fs_call prefix cfg s3) (sb_open_handle prefix cfg mount_time (in_ino file) fh mode flags) fs =
    (fs', Ok (Lookup_new file (st_stat st'), ModeRead)).
Proof.
  intros Hh Hi Hst Hs3 Hf1 Hf2. unfold sb_open_handle.
  destruct (fs_run_getattr_stored fs st handles size etag (negb (cc_serve_lookup_from_cache cfg) || o_direct flags) Hh Hst Hs3)
    as (fs1 & st1 & Hsame & Hh1 & Hst1 & Hrun). pose proof Hst1 as (Hk1 & Hs1 & Hhook1 & Hr1 & _).
  set (m := (try_add_reader (sb_open_handles (fs_metablock fs1)) (in_ino file) fh).1).
  set (sb2 := set_inode_state (sb_with_handles (fs_metablock fs1) m) file st1).
  assert (holds sb2 st1 (m !! in_ino file)) as Hh2 by (eapply holds_set, holds_set_handles; done).
  exists (fs_with_metablock fs1 sb2), st1. ands; try done; [by eexists|].
  rewrite fs_run_bind, Hrun. cbn [lu_inode lu_write_status lu_stat]. rewrite (id_file_kind Hid), bool_decide_eq_false_2 by done.
  unfold open_mode. rewrite Hf1, Hf2, Hr1. cbn [negb].
  rewrite fs_run_bind, fs_run_atomic. unfold open_locked. rewrite (holds_get _ _ _ Hh1 Hk1). cbn [state_bind]. unfold start_reading. rewrite Hs1.
  assert (try_add_reader (sb_open_handles (fs_metablock fs1)) (in_ino file) fh = (m, true)) as ->.
  { unfold m, try_add_reader, handles_of. rewrite (holds_handles _ _ _ Hh1). destruct handles as [h|]; simpl in *; [|done].
    destruct Hi as [_ Hw]. by rewrite Hw. }
  cbn [negb]. rewrite bool_decide_eq_false_2 by done. cbn [state_bind]. fold sb2. rewrite (holds_get _ _ _ Hh2 Hk1). cbn [state_bind fst snd].
  rewrite Hhook1. by rewrite fs_run_ret.
Qed.

(** ** Requests of the kernel *)

(** *** An incremental upload that fails *)

(** The handle [fh] is open for appending, and the file has [size] bytes. *)
Definition open_for_appending fs (fh : Z) (u : AppendUpload) (size : Z) : Prop :=
  (∃ st, holds (fs_metablock fs) st (Some (writer fh)) ∧ writing st size) ∧
  ∃ etag count flushed pid, get_handle fs fh = Ok {| h_ino := in_ino file; h_location := file_key;
    h_state := WriteState (AppendInProgress u etag count) flushed; h_open_pid := pid |}.

Lemma get_handle_set fs fh h h' : get_handle fs fh = Ok h → get_handle (set_handle fs fh h') fh = Ok h'.
Proof. unfold get_handle. simpl. case_match; [|done]. intros _. by rewrite lookup_insert_eq. Qed.

Lemma get_handle_Some fs fh h : get_handle fs fh = Ok h → fs_handles fs !! fh = Some h.
Proof. unfold get_handle. case_match; [|done]. intros Hg. destruct (fs_handles fs !! fh); [by injection Hg as ->|done]. Qed.

(** The superblock is not told about the failure. *)
Lemma failed_fsync fs fh u size e :
  open_for_appending fs fh u size → append_complete u = Err e →
  ∃ fs' h, fsync prefix cfg s3 fs fh = (fs', Err (err EIO "inode error")) ∧ fs_metablock fs' = fs_metablock fs ∧
    get_handle fs' fh = Ok h ∧ ∃ flushed, h_state h = WriteState (Failed EIO) flushed.
Proof.
  intros (_ & etag & count & flushed & pid & Hget) Hc. unfold fsync. rewrite Hget. cbn [state_bind h_state]. unfold with_upload, metablock, UploadState_commit.
  rewrite fs_run_bind, fs_run_attempt. unfold commit_append. rewrite Hc. cbn [match_upload fs_run fail_on_error outcome_map_err state_bind].
  do 2 eexists. ands; [done|done|by eapply get_handle_set|by eexists].
Qed.

(** Releasing the handle finds nothing to do. *)
Lemma release_after_failure fs fh h e st size flushed :
  holds (fs_metablock fs) st (Some (writer fh)) → writing st size → get_handle fs fh = Ok h → h_state h = WriteState (Failed e) flushed →
  ∃ fs' st', release prefix cfg s3 fs (in_ino file) fh = (fs', Ok tt) ∧ holds (fs_metablock fs') st' (Some {| ih_readers := ∅; ih_writer := Some (fh, Inactive) |}) ∧
    st_write_status st' = LocalOpenForWriting ∧ st_kind_data st' = FileData ∧ stat_size (st_stat st') = size.
Proof.
  intros Hh (Hk & Hs & Hhook & _ & Hsize) Hget Hst. unfold release. rewrite Hget. cbn [state_bind]. rewrite Hst. cbn [PendingUploadHook_new].
  unfold metablock, sb_release_writer. set (fs1 := fs_with_hooks _ _). assert (holds (fs_metablock fs1) st (Some (writer fh))) as Hh1 by done.
  rewrite fs_run_bind, fs_run_attempt. unfold sb_flush_writer. rewrite fs_run_bind, (fs_run_get_file _ _ _ _ Hh1), fs_run_atomic.
  rewrite (holds_get _ _ _ Hh1 Hk). cbn [state_bind]. rewrite Hs. unfold try_deactivate_writer, set_writer_state. rewrite (holds_handles _ _ _ Hh1).
  cbn [ih_writer writer ih_readers]. rewrite bool_decide_eq_true_2 by done. rewrite Hhook. cbn [default fst snd].
  set (hook := length (fs_hooks fs)). set (sb2 := set_inode_state _ _ _). rewrite fs_run_bind. unfold request. cbn [fs_run fs_call].
  unfold wait_for_completion. cbn [fs_hooks fs_with_metablock fs1 fs_with_hooks fs_with_handles fs_handles]. rewrite list_lookup_middle by done.
  rewrite (get_handle_Some _ _ _ Hget), Hst. unfold complete_pending_upload. rewrite fs_run_ret. cbn [fs_run outcome_map_err].
  eexists _, (st_with_hook st (Some hook)). split; [done|]. split; [|done]. eapply holds_set, holds_set_handles; [exact Hh1|]. apply lookup_insert_eq.
Qed.

Lemma getattr_local fs st handles :
  holds (fs_metablock fs) st handles → st_write_status st = LocalOpenForWriting → st_kind_data st = FileData → 0 ≤ cc_file_ttl cfg →
  ∃ fs' attr, getattr prefix cfg mount_time config s3 fs (in_ino file) = (fs', Ok attr) ∧ fa_size (at_attr attr) = stat_size (st_stat st) ∧
    fs_calls fs' = fs_calls fs.
Proof.
  intros Hh Hs Hk Httl. unfold getattr, metablock, sb_getattr, getattr_with_inode.
  rewrite fs_run_bind, fs_run_bind, (fs_run_get_file _ _ _ _ Hh), fs_run_bind, fs_run_atomic. unfold getattr_locked, has_local_state.
  rewrite (holds_get _ _ _ Hh Hk). cbn [state_bind]. rewrite Hs, bool_decide_eq_false_2 by done. cbn [negb orb].
  unfold ttl_for. rewrite (id_file_kind Hid). unfold InodeStat_is_valid, Expiry_is_expired. cbn.
  rewrite (holds_now _ _ _ Hh), (proj2 (Z.ltb_ge _ _)) by lia. cbn. do 2 eexists. split; [done|]. split; [|done]. unfold reply_attr, make_attr. cbn. by destruct (Inode_kind file), (stat_is_readable (st_stat st)).
Qed.

(** *** Writing, closing and reading a file *)

Context (version : ETag → bytes) `{!FileUploaderLaws version, !FilePrefetcherLaws (λ id, version (oid_etag id))}.
Context (Hatomic : fc_incremental_upload config = false) (pid : Z).

(** The handle [fh] is open for writing with the upload [u], to which [w] was written. *)
Definition open_for_writing fs (fh : Z) (u : AtomicUpload) (w : bytes) : Prop :=
  (∃ st, holds (fs_metablock fs) st (Some (writer fh)) ∧ writing st (zlen w)) ∧ atomic_written u w ∧
  get_handle fs fh = Ok {| h_ino := in_ino file; h_location := file_key; h_state := WriteState (MPUInProgress u) false; h_open_pid := pid |}.

Lemma open_write fs st handles flags u :
  holds (fs_metablock fs) st handles → created st → idle handles → 0 ≤ cc_file_ttl cfg → o_wronly flags || o_rdwr flags = true →
  o_sync flags || o_dsync flags = false → start_atomic_upload (fs_requests fs) file_key = Ok u →
  ∃ fs', open prefix cfg mount_time config s3 fs (in_ino file) flags pid =
      (fs', Ok {| op_fh := fs_next_handle fs; op_flags := if o_direct flags then FOPEN_DIRECT_IO else 0 |}) ∧
    open_for_writing fs' (fs_next_handle fs) u [].
Proof.
  intros Hh Hc Hi Httl Hfl Hsync Hu. unfold open. rewrite Hsync. cbn [next_handle]. unfold metablock.
  set (fs0 := {| fs_metablock := fs_metablock fs; fs_next_handle := wadd (fs_next_handle fs) 1 |}).
  destruct (fs_run_open_write (fs_call prefix cfg s3) fs0 st handles (fs_next_handle fs) (fc_write_mode config) flags Hh Hc Hi Httl Hfl)
    as (sb' & st' & Hh' & Hw & _ & ->). cbn [outcome_map_err state_bind]. unfold FileHandleState_new. cbn [fc_write_mode wm_incremental_upload].
  rewrite Hatomic. change (upload_key prefix (Lookup_new file (st_stat st'))) with file_key. cbn [fs_requests fs_with_metablock fs0]. rewrite Hu.
  cbn [outcome_map_err outcome_bind]. eexists. split; [done|]. split; [by exists st'|]. split; [by eapply start_atomic_law|].
  unfold get_handle. simpl. rewrite bool_decide_eq_true_2 by set_solver. by rewrite lookup_insert_eq.
Qed.

Lemma write_accepted_ok fs fh u w offset data u' len :
  open_for_writing fs fh u w → zlen (w ++ data) < 2 ^ 62 → zlen data < 2 ^ 32 → atomic_write u offset data = (u', Ok len) →
  ∃ fs', write prefix cfg s3 fs (in_ino file) fh offset data = (fs', Ok (zlen data)) ∧ open_for_writing fs' fh u' (w ++ data) ∧
    fs_requests fs' = fs_requests fs ∧ fs_next_handle fs' = fs_next_handle fs.
Proof.
  intros ((st & Hh & Hst) & Hu & Hget) Hlen H32 Hw. pose proof (zlen_nonneg w). pose proof (zlen_nonneg data). rewrite zlen_app in Hlen.
  assert (zlen (w ++ data) < 2 ^ 63) as H63 by (rewrite zlen_app; lia).
  destruct (atomic_write_law _ _ _ _ _ _ Hu H63 Hw) as [-> Hu'].
  unfold write. rewrite Hget. cbn [state_bind h_state reactivate]. unfold with_upload, metablock, UploadState_write. rewrite Hw. cbn [match_upload h_ino].
  rewrite fs_run_bind, fs_run_attempt.
  destruct (fs_run_inc_file_size (fs_call prefix cfg s3) fs st _ (zlen w) (zlen data) Hh Hst) as (sb' & st' & Hh' & Hst' & _ & ->); [lia..|u64_lia|].
  rewrite fs_run_ret. cbn [outcome_map_err state_bind]. rewrite Z.mod_small by lia. eexists. split; [done|]. split; [|done]. split; [|split; [done|]].
  - exists st'. split; [done|]. by rewrite zlen_app.
  - by eapply get_handle_set.
Qed.

(** Writes, with their results, and what the upload makes of them. *)
Fixpoint writes fs (fh : Z) (ws : list (Z * bytes)) : S3Filesystem * list (outcome Error Z) :=
  match ws with
  | [] => (fs, [])
  | (offset, data) :: ws =>
      let '(fs, r) := write prefix cfg s3 fs (in_ino file) fh offset data in
      let '(fs, rs) := writes fs fh ws in (fs, r :: rs)
  end.
Fixpoint atomic_writes (u : AtomicUpload) (ws : list (Z * bytes)) : option AtomicUpload :=
  match ws with
  | [] => Some u
  | (offset, data) :: ws => match atomic_write u offset data with (u, Ok _) => atomic_writes u ws | _ => None end
  end.

Lemma handle_writes_ok fs fh u w ws u' :
  open_for_writing fs fh u w → zlen (w ++ concat (map snd ws)) < 2 ^ 62 → Forall (λ d, zlen d.2 < 2 ^ 32) ws →
  atomic_writes u ws = Some u' →
  ∃ fs', writes fs fh ws = (fs', map (λ d, Ok (zlen d.2)) ws) ∧ open_for_writing fs' fh u' (w ++ concat (map snd ws)) ∧
    fs_requests fs' = fs_requests fs ∧ fs_next_handle fs' = fs_next_handle fs.
Proof.
  revert fs u w. induction ws as [|[offset data] ws IH]; intros fs u w Ho Hlen H32 Hw; simpl in *.
  - injection Hw as ->. exists fs. by rewrite app_nil_r.
  - apply Forall_cons_iff in H32 as [Hd H32]. destruct (atomic_write u offset data) as [u1 [len| |]] eqn:He; [|done..].
    rewrite app_assoc in *. pose proof Hlen as Hlen'. rewrite zlen_app in Hlen'. pose proof (zlen_nonneg (concat (map snd ws))).
    destruct (write_accepted_ok fs fh u w offset data u1 len) as (fs1 & -> & Ho1 & Hr1 & Hn1); [done|lia|done|done|].
    destruct (IH fs1 u1 (w ++ data)) as (fs2 & -> & Ho2 & Hr2 & Hn2); [done..|]. exists fs2. ands; try done; congruence.
Qed.

Lemma flush_stores fs fh u w result :
  open_for_writing fs fh u w → w ≠ [] → atomic_complete u = Ok result →
  ∃ fs' st, flush prefix cfg s3 fs (in_ino file) fh pid = (fs', Ok tt) ∧ holds (fs_metablock fs') st None ∧
    stored st (zlen w) (por_etag result) ∧ fs_requests fs' = S (fs_requests fs) ∧ fs_next_handle fs' = fs_next_handle fs.
Proof.
  intros ((st & Hh & Hst) & Hu & Hget) Hne Hc. unfold flush. rewrite Hget. cbn [state_bind h_state PendingUploadHook_new].
  unfold with_upload, metablock, UploadState_complete. rewrite (atomic_size_law _ _ Hu).
  rewrite (proj2 (Z.eqb_neq _ _)) by (by intros ?%zlen_0). unfold are_from_same_process. cbn [h_open_pid]. rewrite Z.eqb_refl. cbn [negb h_ino h_location].
  unfold complete_upload. rewrite Hc. cbn [match_upload]. rewrite fs_run_bind, fs_run_attempt.
  set (fs1 := fs_count_request _).
  destruct (fs_run_finish_writing (fs_call prefix cfg s3) fs1 st fh (zlen w) (por_etag result) Hh Hst) as (sb' & st' & l & Hh' & Hst' & _ & ->).
  cbn [fail_on_error]. rewrite fs_run_ret. cbn [outcome_map_err state_bind]. do 2 eexists. by ands.
Qed.

(** The handle [fh] is open for reading the version [etag]. *)
Definition open_for_reading fs (fh : Z) (etag : ETag) : Prop :=
  ∃ h request, get_handle fs fh = Ok h ∧ h_state h = ReadState request false ∧
    reading request {| oid_key := key_string file_key; oid_etag := etag |}.

Lemma open_read fs st handles size etag flags pid' :
  holds (fs_metablock fs) st handles → idle handles → stored st size etag → s3_shows size etag →
  o_rdwr flags = false → o_wronly flags = false → o_sync flags || o_dsync flags = false →
  size = zlen (version etag) → size < 2 ^ 62 →
  ∃ fs', open prefix cfg mount_time config s3 fs (in_ino file) flags pid' =
      (fs', Ok {| op_fh := fs_next_handle fs; op_flags := if o_direct flags then FOPEN_DIRECT_IO else 0 |}) ∧
    open_for_reading fs' (fs_next_handle fs) etag.
Proof.
  intros Hh Hi Hst Hs3 Hf1 Hf2 Hsync Hsize Hlt. unfold open. rewrite Hsync. cbn [next_handle]. unfold metablock.
  set (fs0 := {| fs_metablock := fs_metablock fs; fs_next_handle := wadd (fs_next_handle fs) 1 |}).
  destruct (fs_run_open_read fs0 st handles size etag (fs_next_handle fs) (fc_write_mode config) flags Hh Hi Hst Hs3 Hf1 Hf2)
    as (fs1 & st1 & Hsame & _ & (_ & _ & _ & _ & Hsz & He) & ->). cbn [outcome_map_err state_bind]. unfold FileHandleState_new. cbn [lk_stat Lookup_new].
  rewrite He. change (upload_key prefix (Lookup_new file (st_stat st1))) with file_key. rewrite Hsz, Hsize.
  set (id := {| oid_key := key_string file_key; oid_etag := etag |}).
  destruct (prefetch_law (fs_requests fs1) id (fs_next_handle fs)) as (r & Hr & Hreading); [simpl; lia|]. cbn [oid_etag id] in Hr. rewrite Hr.
  eexists. split; [done|]. eexists _, r. split.
  { unfold get_handle. simpl. rewrite bool_decide_eq_true_2 by set_solver. by rewrite lookup_insert_eq. }
  by split.
Qed.

Fixpoint reads fs (fh : Z) (rs : list (Z * Z)) : S3Filesystem * list (outcome Error bytes) :=
  match rs with
  | [] => (fs, [])
  | (offset, size) :: rs =>
      let '(fs, r) := read prefix cfg s3 fs (in_ino file) fh offset size in
      let '(fs, res) := reads fs fh rs in (fs, r :: res)
  end.

(** What a read may return. *)
Definition read_right (etag : ETag) (request : Z * Z) (r : outcome Error bytes) : Prop :=
  let '(offset, size) := request in
  match r with
  | Ok data => data = zslice offset (Z.min (offset + size) (zlen (version etag))) (version etag)
  | Err _ => True
  | Panic => False
  end.

Lemma handle_reads_ok fs fh etag rs :
  open_for_reading fs fh etag → Forall (λ r, 0 ≤ r.1 < 2 ^ 63 ∧ 0 ≤ r.2) rs →
  ∃ fs' res, reads fs fh rs = (fs', res) ∧ Forall2 (read_right etag) rs res.
Proof.
  revert fs. induction rs as [|[offset size] rs IH]; intros fs Ho Hrs; simpl; [by eauto|].
  apply Forall_cons_iff in Hrs as [[Hoff Hsize] Hrs]. simpl in *. destruct Ho as (h & request & Hget & Hst & Hreading).
  unfold read. rewrite Hget. cbn [state_bind]. rewrite Hst. cbn [reactivate state_bind]. rewrite wrap64_small by (unfold is_u64; u64_lia).
  destruct (prefetch_read_law request _ offset size Hreading) as (request' & r & -> & Hreading' & Hr); [lia..|].
  destruct (IH (set_handle fs fh (h_with_state h (ReadState request' false)))) as (fs' & res & Hrun & Hres); [|done|].
  { exists (h_with_state h (ReadState request' false)), request'. split; [by eapply get_handle_set|done]. }
  destruct r as [data|e|]; [| |done]; rewrite Hrun; do 2 eexists; (split; [done|]); constructor; try done.
  destruct Hr as (Hwf & Hi & Hd). unfold ChecksummedBytes_into_bytes. rewrite Hi. simpl. by rewrite cb_buffer_slice_wf.
Qed.
End session.

(** C35. A failed fsync leaves a file that does not exist.  When the incremental upload of a file fails during an fsync,
    the error is reported, but the superblock is not told that writing has ended, and the release of the handle finds
    nothing left to complete and succeeds.  From then on, at any later time, the attributes of the file show the size
    with the lost data, without asking S3. *)
Theorem failed_fsync_leaves_local_file `{crc : Crc32c, up : FileUploader, pf : FilePrefetcher} prefix cfg mount_time config s3
    file dir name now fs fh u size e :
  identified prefix file dir name → open_for_appending prefix file dir name now fs fh u size → append_complete u = Err e → 0 ≤ cc_file_ttl cfg →
  ∃ fs1 fs2, fsync prefix cfg s3 fs fh = (fs1, Err (err EIO "inode error")) ∧
    release prefix cfg s3 fs1 (in_ino file) fh = (fs2, Ok tt) ∧
    ∀ later, ∃ fs3 attr,
      getattr prefix cfg mount_time config s3 (fs_with_metablock fs2 (sb_with_now (fs_metablock fs2) later)) (in_ino file) = (fs3, Ok attr) ∧
      fa_size (at_attr attr) = size ∧ fs_calls fs3 = fs_calls fs2.
Proof.
  intros Hid Ho Hc Httl. destruct (failed_fsync prefix cfg s3 file dir name now Hid fs fh u size e Ho Hc) as (fs1 & h & H1 & Hsb & Hget & flushed & Hst).
  destruct Ho as ((st & Hh & Hw) & _). rewrite <-Hsb in Hh.
  destruct (release_after_failure prefix cfg s3 file dir name now Hid fs1 fh h EIO st size flushed Hh Hw Hget Hst) as (fs2 & st2 & H2 & Hh2 & Hs2 & Hk2 & Hsize).
  exists fs1, fs2. split; [done|]. split; [done|]. intros later. rewrite <-Hsize.
  destruct (getattr_local prefix cfg mount_time config s3 file dir name later Hid
    (fs_with_metablock fs2 (sb_with_now (fs_metablock fs2) later)) st2 (Some {| ih_readers := ∅; ih_writer := Some (fh, Inactive) |}))
    as (fs3 & attr & H3 & Ha & Hcalls); [by destruct Hh2|done..|]. by exists fs3, attr.
Qed.

Lemma tracked_identified `{crc : Crc32c} prefix sb file dir name n st dst children writing :
  sb_inv prefix sb → prefix_wf prefix → tracked_dir sb (in_parent file) dir dst children writing → children !! name = Some file →
  sb_inodes sb !! in_ino file = Some (file, n) → sb_heap sb !! in_loc file = Some (file, st) → st_kind_data st = FileData →
  identified prefix file dir name.
Proof.
  intros Hinv Hpre Hdir Hch Hfile Hst Hk.
  destruct (tracked_dir_facts prefix _ _ _ _ _ _ Hinv Hdir) as (Hino & Hdk & Hdv & _ & Hchild). specialize (Hchild _ _ Hch).
  destruct (valid_inode_lookup prefix _ _ _ _ Hinv Hst) as (Hfv & _ & Hok). unfold state_ok in Hok. rewrite Hk in Hok.
  pose proof (child_ok_named prefix _ _ _ _ Hinv Hdv Hchild) as Hnamed. pose proof Hnamed as (_ & _ & _ & Hvalid & Hname). rewrite Hino in Hnamed.
  split; try done.
  - by apply (verify_inode_valid prefix sb).
  - rewrite <-Hino. by apply (verify_inode_valid prefix sb).
  - by apply (verify_child_named prefix sb).
  - destruct Hchild as (_ & _ & _ & kind & Hkey). unfold file_key, object_key, full_key_for_inode. unfold ValidKey_new_child in Hkey.
    assert (ValidKey_kind (in_valid_key dir) = Directory) as Hd by exact Hdk. rewrite Hd in Hkey. injection Hkey as Hkey.
    unfold Inode_kind, ValidKey_kind in Hok. rewrite <-Hkey in *. simpl in *. destruct kind; simpl in *; [by rewrite app_nil_r, app_assoc|].
    unfold ends_with_delimiter in Hok. rewrite app_assoc, last_snoc in Hok. done.
  - by apply full_key_dir_kind.
  - by eapply (child_ok_ne prefix).
Qed.

(** A file that was written and closed can be read back.  Take a file that was just created in a directory of the
    bucket, in a consistent superblock, with atomic uploads.  Open it for writing, write some data in any pieces that
    the upload accepts, and close it, with S3 completing the upload.  Then every one of these requests succeeds, and
    so does opening the file again for reading, whether the new size and ETag come from the cache or from S3, which
    now shows the object.  What is read through that handle, in any order, is the content of the version that was
    uploaded, and that has the size and the CRC32C of the written data. *)
Theorem close_to_open `{crc : Crc32c, env : IntegrityEnv, up : FileUploader, pf : FilePrefetcher, proc : ProcFs}
    version `{!FileUploaderLaws version, !FilePrefetcherLaws (λ id, version (oid_etag id))}
    prefix cfg mount_time config s3 fs file dir name n st dst children writing flags rflags pid pid' ws u u' result rs :
  let sb := fs_metablock fs in let data := concat (map snd ws) in
  sb_inv prefix sb → prefix_wf prefix → tracked_dir sb (in_parent file) dir dst children writing → st_write_status dst = Remote →
  children !! name = Some file → sb_inodes sb !! in_ino file = Some (file, n) → sb_heap sb !! in_loc file = Some (file, st) →
  created st → idle (sb_open_handles sb !! in_ino file) → 0 ≤ cc_file_ttl cfg → fc_incremental_upload config = false →
  o_wronly flags || o_rdwr flags = true → o_sync flags || o_dsync flags = false →
  o_rdwr rflags = false → o_wronly rflags = false → o_sync rflags || o_dsync rflags = false →
  start_atomic_upload (fs_requests fs) (file_key prefix file) = Ok u → atomic_writes u ws = Some u' → atomic_complete u' = Ok result →
  data ≠ [] → zlen data < 2 ^ 62 → Forall (λ d, zlen d.2 < 2 ^ 32) ws → zlen (version (por_etag result)) < u64_modulus →
  s3_shows prefix s3 file (sb_now sb) (zlen data) (por_etag result) → Forall (λ r, 0 ≤ r.1 < 2 ^ 63 ∧ 0 ≤ r.2) rs →
  stored_as (version (por_etag result)) data ∧
  ∃ fs1 fh fs2 fs3 fs4 fh' fs5 res,
    open prefix cfg mount_time config s3 fs (in_ino file) flags pid = (fs1, Ok fh) ∧
    writes prefix cfg s3 file fs1 (op_fh fh) ws = (fs2, map (λ d, Ok (zlen d.2)) ws) ∧
    flush prefix cfg s3 fs2 (in_ino file) (op_fh fh) pid = (fs3, Ok tt) ∧
    open prefix cfg mount_time config s3 fs3 (in_ino file) rflags pid' = (fs4, Ok fh') ∧
    reads prefix cfg s3 file fs4 (op_fh fh') rs = (fs5, res) ∧ Forall2 (read_right version (por_etag result)) rs res.
Proof.
  intros sb data Hinv Hpre Hdir Hds Hch Hfile Hst Hc Hi Httl Hat Hf1 Hf2 Hr1 Hr2 Hr3 Hu Hws Hcomp Hne Hlen H32 Hv Hs3 Hrs.
  pose proof (tracked_identified prefix sb file dir name n st dst children writing Hinv Hpre Hdir Hch Hfile Hst (proj1 Hc)) as Hid.
  assert (holds file dir name (sb_now sb) sb st (sb_open_handles sb !! in_ino file)) as Hh.
  { destruct Hdir as (Hdi & Hdst & Hdk). split; try done; [by eexists|]. by exists dst, children, writing. }
  destruct (open_write prefix cfg mount_time config s3 file dir name (sb_now sb) Hid version Hat pid fs st _ flags u Hh Hc Hi Httl Hf1 Hf2 Hu) as (fs1 & H1 & Ho1).
  destruct (handle_writes_ok prefix cfg s3 file dir name (sb_now sb) Hid version pid fs1 (fs_next_handle fs) u [] ws u') as (fs2 & H2 & Ho2 & _);
    [done..|]. simpl in Ho2. fold data in Ho2.
  destruct (flush_stores prefix cfg s3 file dir name (sb_now sb) Hid version pid fs2 (fs_next_handle fs) u' data result)
    as (fs3 & st3 & H3 & Hh3 & Hst3 & _); [done..|].
  assert (stored_as (version (por_etag result)) data) as Hsto by (destruct Ho2 as (_ & Hw & _); by eapply atomic_complete_law).
  split; [done|].
  destruct (open_read prefix cfg mount_time config s3 file dir name (sb_now sb) Hid version Hat fs3 st3 None (zlen data) (por_etag result) rflags pid')
    as (fs4 & H4 & Ho4); [done..|by rewrite (proj1 Hsto)|done|].
  destruct (handle_reads_ok prefix cfg s3 file dir name Hid version fs4 (fs_next_handle fs3) (por_etag result) rs Ho4 Hrs)
    as (fs5 & res & H5 & Hres).
  by exists fs1, {| op_fh := fs_next_handle fs; op_flags := if o_direct flags then FOPEN_DIRECT_IO else 0 |}, fs2, fs3, fs4,
    {| op_fh := fs_next_handle fs3; op_flags := if o_direct rflags then FOPEN_DIRECT_IO else 0 |}, fs5, res.
Qed.

(** ** The prefetcher keeps the laws *)

Section s3_prefetcher.
Context `{crc : Crc32c, env : IntegrityEnv, stream : ObjectPartStream, client : ClientSettings, !Crc32cLaws}.
Context (pconfig : PrefetcherConfig) (bucket : string) (limiter : nat → MemoryLimiter) (schedule : nat → list turn).
Context (content : ObjectId → bytes) (W : Z).
Context (Hstream : ∀ id, ObjectPartStreamLaws False id (content id)) (Hlimiter : ∀ n, ml_wf (limiter n)).
Context (Hsettings : ∀ id, zlen (content id) < 2 ^ 62 → settings_ok (content id) False W pconfig).
Set Default Proof Using "Type*".

Definition s3_prefetcher : FilePrefetcher := {|
  ReadRequest := PrefetchGetObject;
  prefetch n id fh size := PrefetchGetObject_new pconfig bucket id fh size (limiter n) (schedule n);
  prefetch_read := PrefetchGetObject_read;
|}.

#[export] Instance s3_prefetcher_laws : FilePrefetcherLaws (H1 := s3_prefetcher) content.
Proof.
  refine {| reading := (λ s id, pg_inv id (content id) False W s ∧ pg_mem 0 False s ∧ pg_synced False s)
    : @ReadRequest s3_prefetcher → ObjectId → Prop |}.
  - intros n id fh Hlen. simpl.
    destruct (new_ok (E := PrefetchReadError) id (content id) False W 0 False pconfig bucket fh (limiter n) (schedule n)) as (s & Hnew & ? & ? & ? & _);
      [by apply Hsettings|done..|]. by exists s.
  - intros s id offset length (Hi & Hm & Hs) Ho Hl. simpl.
    destruct (Prefetch.read_ok id (content id) False W 0 False s offset length) as (s' & r & Hr & ? & ? & ? & Hres); [done..|].
    exists s', r. ands; try done. destruct r; done.
Qed.
End s3_prefetcher.

(** ** A concrete session

    The file [a] is created in an empty bucket, and three bytes are written to it.  Reads come from a prefetcher that
    serves versions directly. *)
Module FsExample.
Import UploadExample HandleExample.

#[export] Instance direct_prefetcher : FilePrefetcher := {|
  ReadRequest := ObjectId;
  prefetch _ id _ _ := Ok id;
  prefetch_read id offset length :=
    let obj := version (oid_etag id) in
    (id, Ok (ChecksummedBytes_new (crc := sum_crc) (env := validating) (zslice offset (Z.min (offset + length) (zlen obj)) obj)));
|}.
#[export] Instance direct_prefetcher_laws :
  FilePrefetcherLaws (H := sum_crc) (H0 := validating) (H1 := direct_prefetcher) (λ id, version (oid_etag id)).
Proof.
  refine {| reading := (λ r id, r = id ∧ zlen (version (oid_etag id)) < 2 ^ 62) : @ReadRequest direct_prefetcher → ObjectId → Prop |}.
  - intros n id fh Hlen. by eexists.
  - intros r id offset length [-> Hlen] ? ?. do 2 eexists. split; [done|]. split; [done|].
    split; [|split; [apply cb_new_intact|apply cb_new_data]]. apply cb_new_wf. unfold zslice, ztake, zdrop, zlen in *.
    rewrite length_take, length_drop. u64_lia.
Qed.

Definition fs_config : S3FilesystemConfig :=
  {| fc_uid := 1000; fc_gid := 1000; fc_dir_mode := 493; fc_file_mode := 420; fc_allow_delete := true; fc_allow_overwrite := false;
     fc_incremental_upload := false |}.
Definition uploaded : gmap str HeadObjectResult :=
  {[ str_of "a" := {| ho_size := 3; ho_last_modified := 0; ho_restore_status := None; ho_etag := etag_of [x01; x02; x03]; ho_storage_class := None |} ]}.
Definition s3 (n : nat) : ∀ c, response c := bucket_env uploaded RenameOk.

#[local] Instance example_uploader : FileUploader := uploader_with parts_client.
Definition fs : S3Filesystem :=
  {| fs_metablock := test_sb_a; fs_dirs := {| dhs_handles := ∅; dhs_next_id := 1 |}; fs_next_handle := 1; fs_file_handles := ∅; fs_handles := ∅;
     fs_hooks := []; fs_requests := 0; fs_calls := 1 |}.
Definition rflags : OpenFlags :=
  {| o_rdwr := false; o_wronly := false; o_trunc := false; o_append := false; o_direct := false; o_sync := false; o_dsync := false |}.
Definition ws : list (Z * bytes) := [(0, [x01; x02]); (2, [x03])].
Definition upload_start : AtomicUpload := (0%nat, started).
Definition upload_end : AtomicUpload := (0%nat, (run_writes started ws).1).
Definition put_result : PutObjectResult := {| por_etag := etag_of [x01; x02; x03]; por_sse_type := Some "AES256"; por_sse_kms_key_id := None |}.
Definition the_file : Inode := match sb_inodes test_sb_a !! 2 with Some (i, _) => i | None => test_root end.

Lemma fs_shows : s3_shows Prefix_empty s3 the_file 0 3 (por_etag put_result).
Proof. intros n. eexists _, _, _. split; [by vm_compute|]. by vm_compute. Qed.
Lemma fs_file : ∃ st dst children writing, tracked_dir test_sb_a (in_parent the_file) test_root dst children writing ∧ st_write_status dst = Remote ∧
  children !! str_of "a" = Some the_file ∧ sb_heap test_sb_a !! in_loc the_file = Some (the_file, st) ∧ created st.
Proof.
  eexists _, _, _, _. split; [split; [exists 1; by vm_compute|split; by vm_compute]|]. split; [by vm_compute|]. split; [by vm_compute|].
  split; [by vm_compute|]. by vm_compute.
Qed.

(** The same file, opened for an incremental upload that S3 refuses. *)
Definition refusing_client : AppendClient :=
  {| head_object _ _ := inl (OtherClientError "internal error"); put_object_single _ _ _ _ _ := inl (OtherClientError "internal error") |}.
Definition refused_uploader : FileUploader :=
  s3_uploader (crc := sum_crc) (env := validating) (b64 := rfc4648) (lib := AppendExample.decimal_lib) (λ _, parts_client) (λ _, refusing_client)
    (λ _, AppendExample.limiter) (λ _, []) "bucket" ServerSideEncryption_default None 2.
Definition refused_upload : AppendUpload (FileUploader := refused_uploader) := (0%nat, AppendExample.request).
Definition refused_handle : FileHandle (up := refused_uploader) :=
  {| h_ino := 2; h_location := file_key Prefix_empty the_file; h_state := WriteState (AppendInProgress refused_upload None 0) false; h_open_pid := 7 |}.
Definition refused_fs : S3Filesystem (up := refused_uploader) :=
  {| fs_metablock := sb_opened; fs_dirs := {| dhs_handles := ∅; dhs_next_id := 1 |}; fs_next_handle := 2; fs_file_handles := {[ 1 ]};
     fs_handles := {[ 1 := refused_handle ]}; fs_hooks := []; fs_requests := 1; fs_calls := 1 |}.

Lemma fs_identified : identified (crc := sum_crc) Prefix_empty the_file test_root (str_of "a").
Proof.
  destruct fs_file as (st & dst & children & writing & Hd & Hds & Hch & Hst & Hc).
  eapply (tracked_identified Prefix_empty test_sb_a the_file test_root (str_of "a") 1); [apply test_sb_a_inv|done..| |done|by destruct Hc]. by vm_compute.
Qed.
Lemma refused_open : open_for_appending Prefix_empty the_file test_root (str_of "a") 0 refused_fs 1 refused_upload 0.
Proof.
  split; [|exists None, 0, false, 7; reflexivity]. eexists. split.
  { split; [exists 1; by vm_compute|exists 1; by vm_compute|by vm_compute| |by vm_compute|by vm_compute].
    eexists _, _, _. split; [by vm_compute|]. split; [by vm_compute|]. split; by vm_compute. }
  by vm_compute.
Qed.
End FsExample.
Import FsExample.

Lemma failed_fsync_leaves_local_file_witness :
  ∃ fs1 fs2, fsync (crc := sum_crc) (up := refused_uploader) Prefix_empty HandleExample.config s3 refused_fs 1 = (fs1, Err (err EIO "inode error")) ∧
    release (crc := sum_crc) (up := refused_uploader) Prefix_empty HandleExample.config s3 fs1 2 1 = (fs2, Ok tt).
Proof.
  assert (∃ e, append_complete refused_upload = Err e) as [e He] by (eexists; by vm_compute).
  assert (0 ≤ cc_file_ttl HandleExample.config) as Httl by (by vm_compute).
  destruct (failed_fsync_leaves_local_file (crc := sum_crc) (up := refused_uploader) Prefix_empty HandleExample.config 0 fs_config s3 the_file test_root
    (str_of "a") 0 refused_fs 1 refused_upload 0 e fs_identified refused_open He Httl) as (fs1 & fs2 & H1 & H2 & _).
  exists fs1, fs2. split; [exact H1|exact H2].
Defined.
