(* ===== verification/ReaddirSpec.v ===== *)
(** * What a directory listing contains

    The stream of entries that the iterators of [Readdir] produce, for a listing
    that S3 returns in any number of pages: exact descriptions of both
    iterators, and from them the order, completeness and shadowing of the result. *)

From S2P Require Import Prelude Checksums NegativeCache Path HandlesMap Inode Superblock SuperblockInv Readdir ReaddirInv SuperblockConc SuperblockOps.
From stdpp Require Import sorting.

Local Open Scope Z_scope.

(** ** The order of strings and entries *)

Lemma str_compare_refl a : str_compare a a = Eq.
Proof. induction a as [|x a IH]; [done|]. simpl. by rewrite N.compare_refl. Qed.
Lemma str_compare_eq a b : str_compare a b = Eq ↔ a = b.
Proof.
  split; [|intros ->; apply str_compare_refl]. revert b. induction a as [|x a IH]; intros [|y b]; simpl; try done.
  destruct (N.compare _ _) eqn:Hc; try done. apply N.compare_eq_iff in Hc. intros ->%IH. f_equal.
  by rewrite <-(Strings.Ascii.ascii_N_embedding x), Hc, Strings.Ascii.ascii_N_embedding.
Qed.
Lemma str_compare_antisym a b : str_compare b a = CompOpp (str_compare a b).
Proof.
  revert b. induction a as [|x a IH]; intros [|y b]; simpl; try done. rewrite (N.compare_antisym (Strings.Ascii.N_of_ascii x)).
  destruct (N.compare (Strings.Ascii.N_of_ascii x) _); simpl; auto.
Qed.
Lemma str_compare_lt_trans a b c : str_compare a b = Lt → str_compare b c = Lt → str_compare a c = Lt.
Proof.
  revert b c. induction a as [|x a IH]; intros [|y b] [|z c]; simpl; try done.
  generalize (Strings.Ascii.N_of_ascii x) (Strings.Ascii.N_of_ascii y) (Strings.Ascii.N_of_ascii z). intros m n k.
  destruct (N.compare_spec m n), (N.compare_spec n k), (N.compare_spec m k); subst; try done; try lia. apply IH.
Qed.
Definition str_lt (a b : str) : Prop := str_compare a b = Lt.
#[export] Instance str_lt_trans : Transitive str_lt.
Proof. intros a b c. apply str_compare_lt_trans. Qed.

Lemma entry_le_spec a b :
  entry_le a b ↔ str_lt (ReaddirEntry_name a) (ReaddirEntry_name b) ∨
    (ReaddirEntry_name a = ReaddirEntry_name b ∧
     (kind_rank (ReaddirEntry_kind a) ≤ kind_rank (ReaddirEntry_kind b))%nat).
Proof.
  unfold entry_le, ReaddirEntry_cmp, str_lt. rewrite <-str_compare_eq. destruct (str_compare _ _) eqn:Hc; [|naive_solver..].
  rewrite Nat.compare_le_iff. naive_solver.
Qed.
#[export] Instance entry_le_total : Total entry_le.
Proof.
  intros a b. rewrite !entry_le_spec. unfold str_lt. rewrite (str_compare_antisym (ReaddirEntry_name a)).
  destruct (str_compare (ReaddirEntry_name a) _) eqn:Hc; simpl; [apply str_compare_eq in Hc as ->|tauto|tauto].
  destruct (Nat.le_ge_cases (kind_rank (ReaddirEntry_kind a)) (kind_rank (ReaddirEntry_kind b))); tauto.
Qed.
#[export] Instance entry_le_trans : Transitive entry_le.
Proof.
  intros a b c. rewrite !entry_le_spec. intros [Hab|[Hab Ka]] [Hbc|[Hbc Kb]].
  - left. by trans (ReaddirEntry_name b).
  - left. by rewrite <-Hbc.
  - left. by rewrite Hab.
  - right. split; [congruence|lia].
Qed.

(** ** Removing duplicates *)

(** Entries with the name of the entry returned before are dropped. *)
Fixpoint dedup_names (last : option str) (l : list ReaddirEntry) : list ReaddirEntry :=
  match l with
  | [] => []
  | e :: l =>
      if bool_decide (last = Some (ReaddirEntry_name e)) then dedup_names last l
      else e :: dedup_names (Some (ReaddirEntry_name e)) l
  end.

Lemma dedup_names_length last l : (length (dedup_names last l) ≤ length l)%nat.
Proof.
  revert last. induction l as [|x l IH]; intros last; simpl; [lia|]. case_bool_decide; simpl; [pose proof (IH last)|pose proof (IH (Some (ReaddirEntry_name x)))]; lia.
Qed.
Lemma dedup_names_elem last l e : e ∈ dedup_names last l → e ∈ l.
Proof.
  revert last. induction l as [|x l IH]; intros last; simpl; [done|].
  case_bool_decide; [|rewrite elem_of_cons]; rewrite elem_of_cons; naive_solver.
Qed.

(** On a sorted list, what is left has increasing names, and is the first entry of each name. *)
Lemma dedup_names_sorted last l :
  StronglySorted entry_le l → (∀ n e, last = Some n → e ∈ l → n = ReaddirEntry_name e ∨ str_lt n (ReaddirEntry_name e)) →
  StronglySorted str_lt (map ReaddirEntry_name (dedup_names last l)) ∧
  (∀ n e, last = Some n → e ∈ dedup_names last l → str_lt n (ReaddirEntry_name e)) ∧
  (∀ e, e ∈ l → last = Some (ReaddirEntry_name e) ∨
     ∃ e', e' ∈ dedup_names last l ∧ ReaddirEntry_name e' = ReaddirEntry_name e ∧
       (kind_rank (ReaddirEntry_kind e') ≤ kind_rank (ReaddirEntry_kind e))%nat).
Proof.
  intros Hs. revert last. induction Hs as [|x l Hs IH Hx]; intros last Hlast; simpl.
  { split_and!; [constructor|by intros ?? _ ?%not_elem_of_nil|by intros ? ?%not_elem_of_nil]. }
  rewrite list.Forall_forall in Hx. case_bool_decide as Hd.
  - destruct (IH last) as (IHs & IHlt & IHc); [intros n e Hn He; apply Hlast; [done|by right]|]. split_and!; [done|done|].
    intros e [->|He]%elem_of_cons; [by left|by apply IHc].
  - destruct (IH (Some (ReaddirEntry_name x))) as (IHs & IHlt & IHc).
    { intros n e [= <-] He. specialize (Hx e He). apply entry_le_spec in Hx as [?|[? _]]; auto. }
    split_and!.
    + simpl. constructor; [done|]. apply list.Forall_forall. intros n (e & -> & He)%list_elem_of_fmap. by apply IHlt.
    + intros n e Hn [->|He]%elem_of_cons; [destruct (Hlast n x Hn ltac:(left)); [congruence|done]|].
      destruct (Hlast n x Hn ltac:(left)) as [->|Hlt]; [congruence|]. trans (ReaddirEntry_name x); [done|]. by apply IHlt.
    + intros e [->|He]%elem_of_cons; [right; exists x; split; [left|by split]|]. right.
      destruct (IHc e He) as [[= Hn]|(e' & He' & ?)]; [|exists e'; by split; [right|]].
      exists x. split; [left|]. split; [done|]. specialize (Hx e He). apply entry_le_spec in Hx as [Hlt|[_ ?]]; [|done].
      unfold str_lt in Hlt. by rewrite Hn, str_compare_refl in Hlt.
Qed.

(** ** Listings of several pages *)

Section listing.
Context (env : ∀ c, response c) (page_size : Z) (p : str).

(** The pages that S3 returns from [token] on; only the last one may be empty. *)
Inductive lists : option string → list ListObjectsResult → Prop :=
| lists_last token r :
    env (ListObjects token page_size p) = Some r → lo_next_continuation_token r = None → listing_ok p r → lists token [r]
| lists_more token r token' rs :
    env (ListObjects token page_size p) = Some r → lo_next_continuation_token r = Some token' → listing_ok p r →
    lo_common_prefixes r ≠ [] ∨ lo_objects r ≠ [] → lists (Some token') rs → lists token (r :: rs).

(** the entries of all pages *)
Definition remote_stream (ordered : bool) (rs : list ListObjectsResult) : list ReaddirEntry := concat (map (page_list p ordered) rs).

Lemma page_list_nonempty ordered r : lo_common_prefixes r ≠ [] ∨ lo_objects r ≠ [] → page_list p ordered r ≠ [].
Proof.
  unfold page_list. intros Hne Hnil. assert (∀ l : list ReaddirEntry, (if ordered then stable_sort entry_le l else l) = [] → l = []) as Hsort.
  { intros l. destruct ordered; [|done]. intros H. apply Permutation_nil_r. by rewrite <-(stable_sort_perm entry_le), H. }
  apply Hsort, app_eq_nil in Hnil as [H1%fmap_nil_inv H2%fmap_nil_inv]. naive_solver.
Qed.

(** ** [RemoteIter] yields the entries of all pages in turn *)

Definition remote_yields (it : RemoteIter) (xs : list ReaddirEntry) : Prop :=
  ri_full_path it = p ∧ ri_page_size it = page_size ∧
  match ri_state it with
  | Finished => xs = ri_entries it
  | InProgress token => ∃ rs, lists token rs ∧ xs = ri_entries it ++ remote_stream (ri_ordered it) rs
  end.

Lemma RemoteIter_new_yields ordered rs : lists None rs → remote_yields (RemoteIter_new p page_size ordered) (remote_stream ordered rs).
Proof. intros Hl. split; [done|]. split; [done|]. by exists rs. Qed.

Lemma RemoteIter_pop_yields it xs : remote_yields it xs → (ri_entries it = [] → xs = []) →
  ∃ it', RemoteIter_pop it = (it', inr (head xs)) ∧ remote_yields it' (tail xs).
Proof.
  intros (Hp & Hs & Hst) Hne. unfold RemoteIter_pop. destruct (ri_entries it) as [|e es] eqn:He.
  - rewrite Hne by done. exists it. split; [done|]. split; [done|]. split; [done|]. rewrite Hne in Hst by done. simpl. by rewrite He.
  - assert (head xs = Some e) as -> by by destruct (ri_state it) as [tok|]; [destruct Hst as (rs & _ & ->)|rewrite Hst].
    eexists. split; [done|]. split; [done|]. split; [done|]. simpl.
    destruct (ri_state it) as [tok|]; [destruct Hst as (rs & Hl & ->); by exists rs|by rewrite Hst].
Qed.

Lemma run_list tok n q s : run (A:=option ListObjectsResult) env (request (ListObjects tok n q)) s = (s, Ok (env (ListObjects tok n q))).
Proof. done. Qed.

Lemma RemoteIter_next_yields it xs s : remote_yields it xs →
  ∃ it', run env (RemoteIter_next it) s = (s, Ok (it', inr (head xs))) ∧ remote_yields it' (tail xs).
Proof.
  intros Hy. unfold RemoteIter_next. destruct (ri_entries it) as [|e es] eqn:He.
  2: { destruct (RemoteIter_pop_yields it xs Hy) as (it' & Hpop & Hy'); [by rewrite He|]. exists it'. by rewrite run_ret, Hpop. }
  destruct Hy as (Hp & Hs & Hst). destruct (ri_state it) as [tok|] eqn:Hstate.
  2: { subst xs. exists it. rewrite He. split; [done|]. split; [done|]. split; [done|]. by rewrite Hstate, He. }
  destruct Hst as (rs & Hl & ->). rewrite run_bind, run_list, Hp, Hs.
  assert (∃ r rest, env (ListObjects tok page_size p) = Some r ∧ listing_ok p r ∧ rs = r :: rest ∧
    (page_list p (ri_ordered it) r = [] → rest = []) ∧
    match lo_next_continuation_token r with Some t => lists (Some t) rest | None => rest = [] end)
    as (r & rest & Henv & Hok & -> & Hlast & Hrest).
  { destruct Hl as [tok r Henv Hn Hok|tok r tok' rs Henv Hn Hok Hne Hl].
    - exists r, []. by rewrite Hn.
    - exists r, rs. rewrite Hn. split_and!; [done|done|done| |done]. intros Hnil. by destruct (page_list_nonempty (ri_ordered it) r Hne). }
  rewrite Henv, run_bind, run_lift, page_entries_ok by done. rewrite run_ret.
  destruct (RemoteIter_pop_yields (ri_set it (page_list p (ri_ordered it) r)
     match lo_next_continuation_token r with Some token => InProgress (Some token) | None => Finished end)
     (remote_stream (ri_ordered it) (r :: rest))) as (it' & Hpop & Hy').
  - split; [done|]. split; [done|]. simpl. destruct (lo_next_continuation_token r) as [t|]; [by exists rest|].
    subst rest. unfold remote_stream. simpl. apply app_nil_r.
  - simpl. intros Hnil. rewrite Hlast by done. unfold remote_stream. simpl. by rewrite Hnil.
  - exists it'. by rewrite Hpop, He.
Qed.

(** ** The ordered iterator merges the two streams and drops duplicates *)

Definition ord_pending (it : OrderedIter) (xs : list ReaddirEntry) : list ReaddirEntry :=
  list_merge entry_le (option_list (ord_next_remote it) ++ xs) (option_list (ord_next_local it) ++ ord_local it).
Definition ord_yields (it : OrderedIter) (last : option ReaddirEntry) (pending : list ReaddirEntry) : Prop :=
  ord_last_entry it = last ∧ ∃ xs, remote_yields (ord_remote it) xs ∧ ord_pending it xs = pending.

Lemma ordered_refill_yields it last pending s : ord_yields it last pending →
  ∃ it' xs, run env (ordered_refill_remote it) s = (s, Ok (it', inr tt)) ∧
    let it := ordered_refill_local it' in
    ord_last_entry it = last ∧ remote_yields (ord_remote it) xs ∧ ord_pending it xs = pending ∧
    (ord_next_remote it = None → xs = []) ∧ (ord_next_local it = None → ord_local it = []).
Proof.
  intros (Hlast & xs & Hy & Hp). unfold ordered_refill_remote. destruct (ord_next_remote it) as [e|] eqn:Hr.
  - exists it, xs. split; [done|]. unfold ordered_refill_local, ord_pending in *. destruct (ord_next_local it) eqn:Hl, (ord_local it) eqn:Hll.
    all: simpl; rewrite ?Hl, ?Hll, ?Hr in *; simpl in *; rewrite ?Hr; done.
  - destruct (RemoteIter_next_yields (ord_remote it) xs s Hy) as (remote & Hn & Hy'). rewrite run_bind, Hn. simpl.
    eexists _, (tail xs). split; [done|]. unfold ordered_refill_local, ord_pending in *. simpl. rewrite Hr in Hp. simpl in Hp.
    destruct (ord_next_local it) eqn:Hl, (ord_local it) eqn:Hll, xs; simpl in *; done.
Qed.

Lemma ordered_take_yields it last xs :
  ord_last_entry it = last → remote_yields (ord_remote it) xs →
  (ord_next_remote it = None → xs = []) → (ord_next_local it = None → ord_local it = []) →
  ∃ it', ordered_take it = (it', head (ord_pending it xs)) ∧ ord_yields it' last (tail (ord_pending it xs)).
Proof.
  intros Hlast Hy Hr Hl. unfold ordered_take, ord_pending. destruct (ord_next_remote it) as [r|], (ord_next_local it) as [l|]; simpl.
  - destruct (decide (entry_le r l)).
    all: eexists; split; [done|]; split; [done|]; exists xs; done.
  - rewrite Hl, list_merge_nil_r by done. eexists. split; [done|]. split; [done|]. exists xs.
    unfold ord_pending. simpl. by rewrite Hl, list_merge_nil_r.
  - rewrite Hr by done. rewrite list_merge_nil_l. eexists. split; [done|]. split; [done|]. exists []. rewrite Hr in Hy by done.
    unfold ord_pending. simpl. by rewrite list_merge_nil_l.
  - rewrite Hr, Hl by done. eexists. split; [done|]. split; [done|]. exists []. rewrite Hr in Hy by done.
    unfold ord_pending. simpl. by rewrite Hl.
Qed.

Lemma OrderedIter_next_yields fuel it last pending s :
  ord_yields it last pending → (length pending < fuel)%nat →
  ∃ it' last' pending',
    run env (OrderedIter_next fuel it) s = (s, Ok (it', inr (head (dedup_names (ReaddirEntry_name <$> last) pending)))) ∧
    ord_yields it' last' pending' ∧ (length pending' ≤ length pending)%nat ∧
    dedup_names (ReaddirEntry_name <$> last') pending' = tail (dedup_names (ReaddirEntry_name <$> last) pending).
Proof.
  revert it pending. induction fuel as [|fuel IH]; intros it pending Hy Hf; [lia|]. simpl OrderedIter_next.
  destruct (ordered_refill_yields it last pending s Hy) as (it1 & xs & Hrun & Hl & Hr & <- & Hnr & Hnl).
  rewrite run_bind, Hrun. simpl.
  destruct (ordered_take_yields (ordered_refill_local it1) last xs Hl Hr Hnr Hnl) as (it2 & Htake & Hy2).
  simpl in Htake. rewrite Htake. destruct (ord_pending _ xs) as [|e l] eqn:Hpend; simpl in *.
  { exists it2, last, []. by split_and!. }
  assert (ord_last_entry it2 = last) as Hl2 by apply Hy2. rewrite Hl2.
  assert (∃ it' last' pending',
    run env (mret (ord_set it2 (ord_next_remote it2) (ord_next_local it2) (Some e), inr (Some e))) s =
      (s, Ok (it', inr (A:=InodeError) (Some e))) ∧
    ord_yields it' last' pending' ∧ (length pending' ≤ S (length l))%nat ∧
    dedup_names (ReaddirEntry_name <$> last') pending' = dedup_names (Some (ReaddirEntry_name e)) l) as Hret.
  { destruct Hy2 as (_ & xs2 & Hy2 & <-). eexists _, (Some e), (ord_pending it2 xs2). split; [done|]. split; [split; [done|]|].
    - exists xs2. split; [exact Hy2|done].
    - split; [lia|done]. }
  destruct last as [last|]; simpl; [|done]. case_bool_decide as Hd.
  - rewrite bool_decide_eq_true_2 by congruence. destruct (IH it2 l Hy2) as (it' & last' & pending' & ? & ? & ? & ?); [lia|].
    exists it', last', pending'. simpl in *. split_and!; [done|done|lia|done].
  - rewrite bool_decide_eq_false_2 by congruence. done.
Qed.

(** Calling [next] until the stream ends. *)
Fixpoint collect_entries (k fuel : nat) (it : ReaddirIter) : prog (list ReaddirEntry) :=
  match k with
  | O => Pause
  | S k =>
      '(it, next) ← ReaddirIter_next fuel it;
      match next with
      | inl e => Throw e
      | inr None => mret []
      | inr (Some entry) => entries ← collect_entries k fuel it; mret (entry :: entries)
      end
  end.

Lemma collect_ordered k fuel it last pending s :
  ord_yields it last pending → (length pending < k)%nat → (length pending < fuel)%nat →
  run env (collect_entries k fuel (Ordered it)) s = (s, Ok (dedup_names (ReaddirEntry_name <$> last) pending)).
Proof.
  intros Hy Hk Hf. remember (dedup_names (ReaddirEntry_name <$> last) pending) as out eqn:Hout.
  assert (length out < k)%nat as Hko.
  { subst out. pose proof (dedup_names_length (ReaddirEntry_name <$> last) pending). lia. }
  clear Hk. revert it last pending out Hy Hf Hout Hko. induction k as [|k IH]; intros it last pending out Hy Hf Hout Hko; [lia|].
  destruct (OrderedIter_next_yields fuel it last pending s Hy Hf) as (it' & last' & pending' & Hrun & Hy' & Hlen & Hd).
  simpl. rewrite run_bind, run_bind, Hrun. simpl. subst out. destruct (dedup_names _ pending) as [|e out]; simpl; [done|].
  rewrite run_bind, (IH it' last' pending' out Hy'); [done|lia|by rewrite Hd|simpl in Hko; lia].
Qed.

Lemma OrderedIter_new_yields local rs : lists None rs →
  ord_yields (OrderedIter_new p page_size local) None (list_merge entry_le (remote_stream true rs) local).
Proof. intros Hl. split; [done|]. eexists. split; [by apply RemoteIter_new_yields|done]. Qed.

(** ** The handle looks up the entries with valid names *)

Section handle.
Context `{crc : Crc32c} (prefix : Prefix) (cfg : CacheConfig) (mount_time : Z).

(** Calling [next] of a directory handle until the stream ends *)
Fixpoint collect_handle (k fuel : nat) (h : ReaddirHandle) : prog (list (InodeError + LookedUpInode)) :=
  match k with
  | O => Pause
  | S k =>
      '(h, next) ← ReaddirHandle_next prefix cfg mount_time fuel h;
      match next with
      | inr None => mret []
      | inr (Some lookup) => rest ← collect_handle k fuel h; mret (inr lookup :: rest)
      | inl e => rest ← collect_handle k fuel h; mret (inl e :: rest)
      end
  end.
(** Looking up entries, one after the other *)
Fixpoint look_up_all (dir_ino : Z) (entries : list ReaddirEntry) : prog (list (InodeError + LookedUpInode)) :=
  match entries with
  | [] => mret []
  | e :: entries =>
      r ← attempt (lookup_from_entry prefix cfg mount_time dir_ino e (ReaddirEntry_name e));
      rest ← look_up_all dir_ino entries;
      mret (r :: rest)
  end.
Definition with_valid_names (entries : list ReaddirEntry) : list ReaddirEntry := filter (λ e, valid_name_str (ReaddirEntry_name e) = true) entries.

Lemma valid_names_sorted entries : StronglySorted str_lt (map ReaddirEntry_name entries) → StronglySorted str_lt (map ReaddirEntry_name (with_valid_names entries)).
Proof.
  induction entries as [|e entries IH]; simpl; intros Hs; [done|]. inv Hs as [|? ? Hs' Hall]. unfold with_valid_names. rewrite filter_cons.
  case_decide; [|by apply IH]. simpl. constructor; [by apply IH|]. rewrite list.Forall_forall in Hall. apply list.Forall_forall.
  intros n (e' & -> & [_ He]%list_elem_of_filter)%list_elem_of_fmap. apply Hall, list_elem_of_fmap. by exists e'.
Qed.

Definition handle_yields (h : ReaddirHandle) (dir_ino : Z) (entries : list ReaddirEntry) (bound : nat) : Prop :=
  rh_readded h = None ∧ rh_dir_ino h = dir_ino ∧
  ∃ it last pending, rh_iter h = Ordered it ∧ ord_yields it last pending ∧ (length pending ≤ bound)%nat ∧
    dedup_names (ReaddirEntry_name <$> last) pending = entries.

Lemma handle_next_yields n fuel h dir_ino entries bound s : handle_yields h dir_ino entries bound → (length entries < n)%nat → (bound < fuel)%nat →
  match with_valid_names entries with
  | [] => ∃ h', run env (handle_next_loop prefix cfg mount_time n fuel h) s = (s, Ok (h', inr None))
  | e :: rest => ∃ h' entries', with_valid_names entries' = rest ∧ (length entries' < length entries)%nat ∧ handle_yields h' dir_ino entries' bound ∧
      run env (handle_next_loop prefix cfg mount_time n fuel h) s =
      run env (r ← attempt (lookup_from_entry prefix cfg mount_time dir_ino e (ReaddirEntry_name e));
               mret (h', match r with inl e => inl e | inr lookup => inr (Some lookup) end)) s
  end.
Proof.
  revert h entries. induction n as [|n IH]; intros h entries (Hre & Hdir & it & last & pending & Hit & Hy & Hb & Hd) Hn Hf; [lia|].
  destruct (OrderedIter_next_yields fuel it last pending s Hy) as (it' & last' & pending' & Hrun & Hy' & Hlen & Hd'); [lia|].
  cbn [handle_next_loop]. rewrite run_bind, Hit. cbn [ReaddirIter_next]. rewrite run_bind, Hrun, run_ret, Hd. rewrite Hd in Hd'.
  destruct entries as [|e entries]; cbn [head]; [by eexists|]. simpl in Hd', Hn. unfold with_valid_names.
  set (h' := rh_set h (Ordered it') (rh_readded h)).
  assert (handle_yields h' dir_ino entries bound) as Hy2.
  { split; [done|]. split; [done|]. exists it', last', pending'. split; [done|]. split; [done|]. split; [lia|done]. }
  destruct (valid_name_str (ReaddirEntry_name e)) eqn:Hv.
  - rewrite filter_cons_True by done. exists h', entries. split; [done|]. split; [simpl; lia|]. split; [done|].
    subst dir_ino. done.
  - rewrite filter_cons_False by (by rewrite Hv). specialize (IH h' entries Hy2 ltac:(lia) Hf). unfold with_valid_names in IH.
    destruct (filter _ entries) as [|e' rest]; [done|]. destruct IH as (h2 & entries' & ? & ? & ? & ?). exists h2, entries'. simpl. split_and!; [done|lia|done|done].
Qed.
Lemma collect_handle_yields k fuel h dir_ino entries bound s :
  handle_yields h dir_ino entries bound → (length entries < k)%nat → (length entries < fuel)%nat → (bound < fuel)%nat →
  run env (collect_handle k fuel h) s = run env (look_up_all dir_ino (with_valid_names entries)) s.
Proof.
  revert h entries s. induction k as [|k IH]; intros h entries s Hy Hk Hf Hb; [lia|]. cbn [collect_handle]. rewrite run_bind.
  assert (ReaddirHandle_next prefix cfg mount_time fuel h = handle_next_loop prefix cfg mount_time fuel fuel h) as ->
    by (unfold ReaddirHandle_next; destruct Hy as (-> & _); done).
  pose proof (handle_next_yields fuel fuel h dir_ino entries bound s Hy Hf Hb) as Hn. destruct (with_valid_names entries) as [|e rest].
  { destruct Hn as [h' ->]. done. }
  destruct Hn as (h' & entries' & <- & Hlen & Hy' & ->). cbn [look_up_all]. rewrite run_bind, run_bind.
  destruct (run env (attempt _) s) as [s1 [[e1|l]|e1|]]; [| |done|done]; rewrite run_ret, !run_bind, (IH h' entries' s1) by (done || lia);
    by destruct (run env (look_up_all _ _) s1) as [s2 [rest| |]].
Qed.
Definition new_handle (dir_ino parent_ino : Z) (local : list ReaddirEntry) : ReaddirHandle :=
  {| rh_dir_ino := dir_ino; rh_parent_ino := parent_ino; rh_iter := Ordered (OrderedIter_new p page_size local); rh_readded := None |}.
Lemma collect_new_handle k fuel dir_ino parent_ino local rs s : lists None rs →
  (length (remote_stream true rs ++ local) < k)%nat → (length (remote_stream true rs ++ local) < fuel)%nat →
  run env (collect_handle k fuel (new_handle dir_ino parent_ino local)) s =
  run env (look_up_all dir_ino (with_valid_names (dedup_names None (list_merge entry_le (remote_stream true rs) local)))) s.
Proof.
  intros Hl Hk Hf. assert (length (list_merge entry_le (remote_stream true rs) local) = length (remote_stream true rs ++ local)) as Hlen
    by (apply Permutation_length, merge_Permutation).
  pose proof (dedup_names_length None (list_merge entry_le (remote_stream true rs) local)).
  apply (collect_handle_yields _ _ _ _ _ (length (remote_stream true rs ++ local))); [|lia|lia|lia].
  split; [done|]. split; [done|]. eexists _, None, _. split; [done|]. split; [by apply OrderedIter_new_yields|]. split; [lia|done].
Qed.
End handle.

(** ** The unordered iterator returns the remote entries, then the local ones that were not shadowed *)

Definition remove_names (xs : list ReaddirEntry) (m : gmap str ReaddirEntry) : gmap str ReaddirEntry :=
  foldl (λ m e, delete (ReaddirEntry_name e) m) m xs.
Lemma remove_names_lookup xs m n e :
  remove_names xs m !! n = Some e ↔ m !! n = Some e ∧ n ∉ map ReaddirEntry_name xs.
Proof.
  revert m. induction xs as [|x xs IH]; intros m; simpl; [set_solver|]. rewrite IH, lookup_delete_Some, not_elem_of_cons. naive_solver.
Qed.

Lemma collect_unordered k fuel it xs s :
  remote_yields (un_remote it) xs →
  (length (xs ++ un_local_iter it ++ map snd (map_to_list (remove_names xs (un_local it)))) < k)%nat →
  run env (collect_entries k fuel (Unordered it)) s =
    (s, Ok (xs ++ un_local_iter it ++ map snd (map_to_list (remove_names xs (un_local it))))).
Proof.
  revert it xs. induction k as [|k IH]; intros it xs Hy Hk; [lia|].
  destruct (RemoteIter_next_yields (un_remote it) xs s Hy) as (remote & Hn & Hy').
  simpl. rewrite !run_bind. unfold UnorderedIter_next. rewrite run_bind, Hn. destruct xs as [|x xs]; simpl in *.
  - destruct (un_local_iter it ++ map snd (map_to_list (un_local it))) as [|e l] eqn:Hl; simpl in *; [done|].
    rewrite run_bind, (IH _ []); simpl; rewrite ?map_to_list_empty, ?app_nil_r; [done|done|lia].
  - rewrite run_bind, (IH _ xs); [done|done|simpl; lia].
Qed.

End listing.

(** ** Theorems *)

(** The local entries, by name. *)
Definition local_map (local : list ReaddirEntry) : gmap str ReaddirEntry :=
  foldl (λ m e, <[ReaddirEntry_name e := e]> m) ∅ local.
Lemma local_map_lookup local n e :
  NoDup (map ReaddirEntry_name local) → local_map local !! n = Some e ↔ e ∈ local ∧ ReaddirEntry_name e = n.
Proof.
  unfold local_map. intros Hnd. revert Hnd. induction local as [|x local IH] using rev_ind; intros Hnd.
  { simpl. rewrite lookup_empty. set_solver. }
  rewrite map_app in Hnd. apply NoDup_app in Hnd as (Hnd & Hx & _). simpl in Hx.
  rewrite foldl_snoc, lookup_insert_Some, (IH Hnd), elem_of_app, list_elem_of_singleton.
  assert (∀ e, e ∈ local → ReaddirEntry_name e ≠ ReaddirEntry_name x) as Hne.
  { intros e' He Heq. apply (Hx (ReaddirEntry_name x)); [|by left]. rewrite <-Heq. apply list_elem_of_fmap. by exists e'. }
  naive_solver.
Qed.

(** The entries of the ordered iterator *)
Definition listed_entries (p : str) (local : list ReaddirEntry) (rs : list ListObjectsResult) : list ReaddirEntry :=
  dedup_names None (list_merge entry_le (remote_stream p true rs) local).
Lemma listed_entries_spec p local rs : Sorted entry_le (remote_stream p true rs) → Sorted entry_le local →
  let out := listed_entries p local rs in
  StronglySorted str_lt (map ReaddirEntry_name out) ∧
  (∀ e, e ∈ out → e ∈ remote_stream p true rs ++ local) ∧
  (∀ e, e ∈ remote_stream p true rs ++ local → ∃ e', e' ∈ out ∧ ReaddirEntry_name e' = ReaddirEntry_name e ∧
     (kind_rank (ReaddirEntry_kind e') ≤ kind_rank (ReaddirEntry_kind e))%nat).
Proof.
  intros Hsr Hsl. unfold listed_entries. set (merged := list_merge entry_le (remote_stream p true rs) local).
  assert (merged ≡ₚ remote_stream p true rs ++ local) as Hperm by apply merge_Permutation.
  assert (StronglySorted entry_le merged) as Hs by (apply Sorted_StronglySorted; [apply _|by apply Sorted_list_merge; [apply _|..]]).
  destruct (dedup_names_sorted None merged Hs) as (Hout & _ & Hc); [done|]. split; [done|]. split.
  - intros e He%dedup_names_elem. by rewrite <-Hperm.
  - intros e He. rewrite <-Hperm in He. destruct (Hc e He) as [?|?]; done.
Qed.

(** A directory listing is sorted, complete and shadows correctly.  When S3 lists in
    lexicographic order, so that the names are in order from one page to the next, then
    whatever the local files and the number of pages: the stream ends; its names
    are strictly increasing; it has exactly the names of the remote and local
    entries; and of several entries of one name it has the remote directory before the
    remote file before the local file. *)
Theorem ordered_listing_correct env page_size p local rs s k fuel :
  lists env page_size p None rs → Sorted entry_le (remote_stream p true rs) → Sorted entry_le local →
  (length (remote_stream p true rs ++ local) < k)%nat → (length (remote_stream p true rs ++ local) < fuel)%nat →
  ∃ out, run env (collect_entries k fuel (Ordered (OrderedIter_new p page_size local))) s = (s, Ok out) ∧
    StronglySorted str_lt (map ReaddirEntry_name out) ∧
    (∀ e, e ∈ out → e ∈ remote_stream p true rs ++ local) ∧
    (∀ e, e ∈ remote_stream p true rs ++ local → ∃ e', e' ∈ out ∧ ReaddirEntry_name e' = ReaddirEntry_name e ∧
       (kind_rank (ReaddirEntry_kind e') ≤ kind_rank (ReaddirEntry_kind e))%nat).
Proof.
  intros Hl Hsr Hsl Hk Hf. exists (listed_entries p local rs). split; [|by apply listed_entries_spec].
  assert (length (list_merge entry_le (remote_stream p true rs) local) = length (remote_stream p true rs ++ local)) as Hlen
    by (apply Permutation_length, merge_Permutation).
  unfold listed_entries. eapply (collect_ordered env page_size p k fuel (OrderedIter_new p page_size local) None); [by apply OrderedIter_new_yields|by rewrite Hlen..].
Qed.

(** An unordered listing misses nothing.  When S3 lists in no particular order (directory
    buckets), the stream ends and consists of the remote entries, page after page as S3
    returned them, followed by exactly the local entries that have no remote
    entry of the same name, each once. *)
Theorem unordered_listing_correct env page_size p local rs s k fuel :
  lists env page_size p None rs → NoDup (map ReaddirEntry_name local) →
  (length (remote_stream p false rs ++ local) < k)%nat →
  ∃ rest, run env (collect_entries k fuel (Unordered (UnorderedIter_new p page_size local))) s =
      (s, Ok (remote_stream p false rs ++ rest)) ∧
    NoDup (map ReaddirEntry_name rest) ∧
    (∀ e, e ∈ rest ↔ e ∈ local ∧ ReaddirEntry_name e ∉ map ReaddirEntry_name (remote_stream p false rs)).
Proof.
  intros Hl Hnd Hk. set (m := remove_names (remote_stream p false rs) (local_map local)).
  assert (∀ n e, m !! n = Some e ↔ e ∈ local ∧ ReaddirEntry_name e = n ∧ n ∉ map ReaddirEntry_name (remote_stream p false rs)) as Hm.
  { intros n e. unfold m. rewrite remove_names_lookup, local_map_lookup by done. naive_solver. }
  assert (map ReaddirEntry_name (map snd (map_to_list m)) = (map_to_list m).*1) as Hnames.
  { rewrite map_map. apply list_fmap_ext. intros i [n e] Hi%list_elem_of_lookup_2. apply elem_of_map_to_list, Hm in Hi. simpl. tauto. }
  assert (NoDup (map ReaddirEntry_name (map snd (map_to_list m)))) as Hnd'.
  { rewrite Hnames. apply NoDup_fst_map_to_list. }
  assert (∀ e, e ∈ map snd (map_to_list m) ↔ e ∈ local ∧ ReaddirEntry_name e ∉ map ReaddirEntry_name (remote_stream p false rs)) as Hin.
  { intros e. rewrite list_elem_of_fmap. split.
    - intros ([n e'] & -> & Hi%elem_of_map_to_list%Hm). simpl. naive_solver.
    - intros [? ?]. exists (ReaddirEntry_name e, e). split; [done|]. apply elem_of_map_to_list, Hm. naive_solver. }
  exists (map snd (map_to_list m)). split; [|done].
  pose proof (RemoteIter_new_yields env page_size p false rs Hl) as Hy.
  rewrite (collect_unordered env page_size p k fuel (UnorderedIter_new p page_size local) _ s Hy); [done|].
  simpl. fold (local_map local). fold m. rewrite length_app. rewrite length_app in Hk.
  assert (map snd (map_to_list m) ⊆+ local) as Hsub%submseteq_length; [|lia].
  apply NoDup_submseteq; [by eapply NoDup_fmap_1|]. intros e He. by apply Hin in He as [? _].
Qed.

(** ** What can go wrong between pages *)

Definition test_object (key : string) : ObjectInfo :=
  {| oi_key := str_of key; oi_size := 1; oi_last_modified := 7; oi_storage_class := None; oi_restore_status := None; oi_etag := "etag" |}.
Definition test_page (prefixes objects : list string) (token : option string) : ListObjectsResult :=
  {| lo_common_prefixes := map str_of prefixes; lo_objects := map test_object objects; lo_next_continuation_token := token |}.
(** S3 with a first page and one that follows it *)
Definition paged_env (first second : ListObjectsResult) (c : call) : response c :=
  match c with
  | ListObjects None _ _ => Some first
  | ListObjects (Some _) _ _ => Some second
  | c => empty_bucket c
  end.

(** An entry is kept when the one before it has another name. *)
Lemma dedup_names_keeps last l1 e l2 :
  match list.last l1 with Some x => ReaddirEntry_name x ≠ ReaddirEntry_name e | None => last ≠ Some (ReaddirEntry_name e) end →
  dedup_names last (l1 ++ e :: l2) = dedup_names last l1 ++ e :: dedup_names (Some (ReaddirEntry_name e)) l2.
Proof.
  revert last. induction l1 as [|x l1 IH]; intros last Hl; simpl.
  { by rewrite bool_decide_eq_false_2 by done. }
  assert (∀ last', last' = Some (ReaddirEntry_name x) →
    match list.last l1 with Some x => ReaddirEntry_name x ≠ ReaddirEntry_name e | None => last' ≠ Some (ReaddirEntry_name e) end) as Hx.
  { intros last' ->. rewrite last_cons in Hl. destruct (list.last l1); congruence. }
  case_bool_decide as Hd; [|simpl; f_equal]; by apply IH, Hx.
Qed.
(** In a sorted list, the first occurrence of an entry comes after entries that are smaller. *)
Lemma sorted_first_split l e : StronglySorted entry_le l → e ∈ l →
  (∀ x, x ∈ l → ReaddirEntry_name x = ReaddirEntry_name e → (kind_rank (ReaddirEntry_kind x) ≤ kind_rank (ReaddirEntry_kind e))%nat → x = e) →
  ∃ l1 l2, l = l1 ++ e :: l2 ∧ Forall (λ x, ReaddirEntry_name x ≠ ReaddirEntry_name e) l1.
Proof.
  intros Hs. induction Hs as [|x l Hs IH Hx]; intros He Hu; [by apply not_elem_of_nil in He|].
  apply elem_of_cons in He as [->|He]; [by exists [], l|]. destruct (decide (ReaddirEntry_name x = ReaddirEntry_name e)) as [Hn|Hn].
  - rewrite list.Forall_forall in Hx. pose proof (Hx e He) as Hle. apply entry_le_spec in Hle as [Hlt|[_ Hr]].
    + unfold str_lt in Hlt. by rewrite Hn, str_compare_refl in Hlt.
    + rewrite (Hu x) by (done || left). by exists [], l.
  - destruct (IH He) as (l1 & l2 & -> & Hall); [intros y Hy; apply Hu; by right|]. exists (x :: l1), l2. split; [done|by constructor].
Qed.
Lemma page_list_sorted p r : StronglySorted entry_le (page_list p true r).
Proof. apply Sorted_StronglySorted; [apply _|]. unfold page_list. apply (stable_sort_sorted entry_le). Qed.
Lemma page_list_elem p r e : e ∈ page_list p true r ↔
  (∃ q, e = RemotePrefix (prefix_name p q) ∧ q ∈ lo_common_prefixes r) ∨ (∃ o, e = remote_object p o ∧ o ∈ lo_objects r).
Proof. unfold page_list. by rewrite stable_sort_perm, elem_of_app, !list_elem_of_fmap. Qed.

Lemma prefix_name_app p name : prefix_name p (p ++ name ++ [delimiter]) = name.
Proof.
  unfold prefix_name. rewrite drop_app_length, !length_app. simpl. assert (length p + (length name + 1) - 1 - length p = length name)%nat as -> by lia.
  apply take_app_length.
Qed.

(** An object of a page whose name is that of no common prefix is the first entry of its name in the page. *)
Lemma page_object_split p r o n : listing_ok p r → o ∈ lo_objects r → oi_key o = p ++ n →
  (∀ o', o' ∈ lo_objects r → oi_key o' = oi_key o → o' = o) → p ++ n ++ [delimiter] ∉ lo_common_prefixes r →
  ∃ l1 l2, page_list p true r = l1 ++ remote_object p o :: l2 ∧ Forall (λ x, ReaddirEntry_name x ≠ n) l1.
Proof.
  intros [Hps Hos] Ho Hkey Huniq Hno. assert (ReaddirEntry_name (remote_object p o) = n) as Hn by (unfold remote_object; simpl; by rewrite Hkey, drop_app_length).
  destruct (sorted_first_split (page_list p true r) (remote_object p o)) as (l1 & l2 & Hl & Hall); [apply page_list_sorted| | |].
  - apply page_list_elem. right. by exists o.
  - rewrite Hn. rewrite list.Forall_forall in Hps. rewrite list.Forall_forall in Hos. intros x [(q & -> & Hq)|(o' & -> & Ho')]%page_list_elem Hx _.
    + exfalso. destruct (Hps q Hq) as [m ->]. simpl in Hx. rewrite prefix_name_app in Hx. by subst m.
    + f_equal. apply Huniq; [done|]. destruct (Hos o' Ho') as [m Hm]. simpl in Hx. rewrite Hm, drop_app_length in Hx. by rewrite Hm, Hkey, Hx.
  - rewrite Hn in Hall. by exists l1, l2.
Qed.
(** The first entry of its name in a page is a directory when there is one of that name. *)
Lemma page_prefix_split p r n : p ++ n ++ [delimiter] ∈ lo_common_prefixes r →
  ∃ l1 l2, page_list p true r = l1 ++ RemotePrefix n :: l2 ∧ Forall (λ x, ReaddirEntry_name x ≠ n) l1.
Proof.
  intros Hq. apply (sorted_first_split (page_list p true r) (RemotePrefix n)); [apply page_list_sorted| |].
  - apply page_list_elem. left. exists (p ++ n ++ [delimiter]). by rewrite prefix_name_app.
  - intros [| |] _ Hx Hr; simpl in *; [by subst|lia|lia].
Qed.
(** Names after a larger one. *)
Lemma sorted_pair l1 x l2 y : StronglySorted entry_le (l1 ++ x :: l2) → y ∈ l2 → entry_le x y.
Proof.
  induction l1 as [|z l1 IH]; simpl; intros Hs Hy; inv Hs as [|? ? Hs' Hall]; [|by apply IH]. rewrite list.Forall_forall in Hall. by apply Hall.
Qed.
Lemma entry_le_not_lt x y : entry_le x y → ¬ str_lt (ReaddirEntry_name y) (ReaddirEntry_name x).
Proof.
  unfold str_lt. intros [Hlt|[Hn _]]%entry_le_spec; [|by rewrite Hn, str_compare_refl]. unfold str_lt in Hlt. by rewrite str_compare_antisym, Hlt.
Qed.
Lemma sorted_after_larger l1 e l2 x : StronglySorted entry_le (l1 ++ e :: l2) → x ∈ l1 ++ e :: l2 → str_lt (ReaddirEntry_name e) (ReaddirEntry_name x) →
  ∃ y, list.last l2 = Some y ∧ ReaddirEntry_name y ≠ ReaddirEntry_name e.
Proof.
  intros Hs Hx Hlt. apply elem_of_app in Hx as [Hx|[->|Hx]%elem_of_cons].
  - exfalso. apply list_elem_of_split in Hx as (l3 & l4 & ->). rewrite <-app_assoc in Hs. simpl in Hs.
    apply (entry_le_not_lt x e); [|done]. apply (sorted_pair _ _ _ _ Hs), elem_of_app. right. left.
  - exfalso. by apply (entry_le_not_lt e e); [apply entry_le_spec; right|].
  - destruct (list.last l2) as [y|] eqn:Hy; [|apply last_None in Hy as ->; by apply not_elem_of_nil in Hx].
    exists y. split; [done|]. intros Hn. apply last_Some in Hy as [l3 ->]. rewrite <-Hn in Hlt.
    apply elem_of_app in Hx as [Hx|Hx]; [|apply list_elem_of_singleton in Hx as ->; by apply (entry_le_not_lt y y); [apply entry_le_spec; right|]].
    apply list_elem_of_split in Hx as (l4 & l5 & ->). apply (entry_le_not_lt x y); [|done].
    assert (l1 ++ e :: (l4 ++ x :: l5) ++ [y] = (l1 ++ e :: l4) ++ x :: (l5 ++ [y])) as Heq by (by rewrite <-!app_assoc). rewrite Heq in Hs.
    apply (sorted_pair _ _ _ _ Hs), elem_of_app. right. left.
Qed.


(** A request that fails loses its continuation token: the iterator is a new one, and lists from the first page. *)
Theorem failed_page_restarts_listing (env : ∀ c, response c) it token s :
  ri_entries it = [] → ri_state it = InProgress token → env (ListObjects token (ri_page_size it) (ri_full_path it)) = None →
  run env (RemoteIter_next it) s =
    (s, Ok (RemoteIter_new (ri_full_path it) (ri_page_size it) (ri_ordered it), inl (ClientError "ListObjectsV2 failed" (ri_full_path it)))).
Proof. intros He Hs Henv. unfold RemoteIter_next. rewrite He, Hs, run_bind, run_list, Henv. done. Qed.

(** ** Witnesses *)

Definition test_local (name : string) : ReaddirEntry :=
  LocalInode {| lu_inode := Inode_new (crc := sum_crc) 2 2 1 {| vk_key := str_of name; vk_name_offset := 0 |} Prefix_empty;
                lu_stat := InodeStat_for_file 0 0 None None None 0 100; lu_write_status := LocalUnopened |}.
Lemma test_lists prefixes objects :
  listing_ok [] (test_page prefixes objects None) →
  lists (paged_env (test_page prefixes objects None) (test_page [] [] None)) 1000 [] None [test_page prefixes objects None].
Proof. by apply lists_last. Qed.

(** the file "a" is shadowed by the directory "a/", the local "b" by the remote one; "c" is local *)
Lemma ordered_listing_correct_witness :
  ∃ out, run (paged_env (test_page ["a-/"; "a/"] ["a"; "b"] None) (test_page [] [] None))
      (collect_entries 9 9 (Ordered (OrderedIter_new [] 1000 [test_local "b"; test_local "c"]))) test_sb = (test_sb, Ok out) ∧
    StronglySorted str_lt (map ReaddirEntry_name out) ∧ ∃ e, e ∈ out ∧ ReaddirEntry_name e = str_of "a" ∧ ReaddirEntry_kind e = KRemotePrefix.
Proof.
  destruct (ordered_listing_correct (paged_env (test_page ["a-/"; "a/"] ["a"; "b"] None) (test_page [] [] None)) 1000 []
    [test_local "b"; test_local "c"] [test_page ["a-/"; "a/"] ["a"; "b"] None] test_sb 9 9) as (out & Hrun & Hs & _ & Hc).
  - apply test_lists. split; repeat constructor; [by exists (str_of "a-")|by exists (str_of "a")|apply prefix_nil|apply prefix_nil].
  - by vm_compute; repeat constructor.
  - by vm_compute; repeat constructor.
  - vm_compute. lia.
  - vm_compute. lia.
  - exists out. split; [done|]. split; [done|]. destruct (Hc (RemotePrefix (str_of "a"))) as (e & He & Hn & Hk).
    { vm_compute. by left. }
    exists e. split; [done|]. split; [done|]. simpl in Hk. destruct (ReaddirEntry_kind e); simpl in Hk; [done|lia|lia].
Defined.

Lemma unordered_listing_correct_witness :
  ∃ rest, run (paged_env (test_page ["d/"] ["b"] None) (test_page [] [] None))
      (collect_entries 9 9 (Unordered (UnorderedIter_new [] 1000 [test_local "b"; test_local "c"]))) test_sb =
        (test_sb, Ok (remote_stream [] false [test_page ["d/"] ["b"] None] ++ rest)) ∧ (test_local "b" ∉ rest) ∧ (test_local "c" ∈ rest).
Proof.
  destruct (unordered_listing_correct (paged_env (test_page ["d/"] ["b"] None) (test_page [] [] None)) 1000 []
    [test_local "b"; test_local "c"] [test_page ["d/"] ["b"] None] test_sb 9 9) as (rest & Hrun & _ & Hin).
  - apply test_lists. split; repeat constructor; [by exists (str_of "d")|apply prefix_nil].
  - change (NoDup [str_of "b"; str_of "c"]). by apply (bool_decide_unpack _).
  - vm_compute. lia.
  - exists rest. split; [done|]. rewrite !Hin. split; [|split; [by right; left|by apply (bool_decide_unpack _)]].
    intros [_ Hn]. apply Hn. vm_compute. right. left.
Defined.

