(* ===== verification/ReaddirPages.v ===== *)
(** * Reading a directory in several calls

    The kernel reads a directory with a sequence of calls, each with a buffer of
    limited size, and may ask again for what it was just given.  The theorem of
    this file says that none of it shows in what is read. *)

From S2P Require Import Prelude Checksums NegativeCache Path HandlesMap Inode Superblock SuperblockInv Readdir ReaddirInv SuperblockConc SuperblockOps.

Local Open Scope Z_scope.

Section pages.
Context `{crc : Crc32c} (prefix : Prefix) (cfg : CacheConfig) (mount_time : Z) (list_ordered : bool).
Context (env : ∀ c, response c) (fuel : nat) (plus : bool).
Abbreviation reply := (list DirectoryEntryReaddir).
Implicit Types (dh : DirHandle) (sent : reply) (s : Superblock).

(** a buffer without limit *)
Definition unlimited (_ : reply) (_ : DirectoryEntryReaddir) : bool := true.

Abbreviation loop add n dh offset sent := (readdir_loop prefix cfg mount_time add n fuel dh offset plus sent).

(** what the stream depends on: all of the handle but the last response *)
Definition same_position dh dh' : Prop := dh_handle dh = dh_handle dh' ∧ dh_offset dh = dh_offset dh'.

(** One iteration of the loop, up to what follows it. *)
Lemma run_loop_S add n dh offset sent s :
  run env (loop add (S n) dh offset sent) s =
  match run env (ReaddirHandle_next prefix cfg mount_time fuel (dh_handle dh)) s with
  | (s1, Ok (h, inl e)) => (s1, Ok (dh_with_handle dh h, sent, inl e))
  | (s1, Ok (h, inr None)) => (s1, Ok (dh_finish (dh_with_handle dh h) offset sent, sent, inr tt))
  | (s1, Ok (h, inr (Some next))) =>
      match Inode_name (lu_inode next) with
      | Ok name =>
          let entry := readdir_entry dh name next in
          if add sent entry then
            match run env (if plus then remember (lu_inode next) else mret tt) s1 with
            | (s2, Ok _) => run env (loop add n (dh_next_offset (dh_with_handle dh h)) offset (sent ++ [entry])) s2
            | (s2, Err e) => (s2, Err e)
            | (s2, Panic) => (s2, Panic)
            end
          else
            match ReaddirHandle_readd h next with
            | Ok h => (s1, Ok (dh_finish (dh_with_handle dh h) offset sent, sent, inr tt))
            | Err e => (s1, Err e)
            | Panic => (s1, Panic)
            end
      | Err e => (s1, Err e)
      | Panic => (s1, Panic)
      end
  | (s1, Err e) => (s1, Err e)
  | (s1, Panic) => (s1, Panic)
  end.
Proof.
  simpl. rewrite run_bind. destruct (run env _ s) as [s1 [[h [e|[next|]]]|e|]]; try done.
  rewrite run_bind, run_lift. destruct (Inode_name _) as [name|e|]; try done. change (readdir_entry (dh_with_handle dh h)) with (readdir_entry dh).
  destruct (add sent _); [by rewrite run_bind|]. rewrite run_bind, run_lift. by destruct (ReaddirHandle_readd h next).
Qed.

(** Case analysis on an iteration that returned. *)
Ltac loop_cases H :=
  rewrite run_loop_S in H;
  destruct (run env (ReaddirHandle_next _ _ _ _ _) _) as [s1 [[h [e|[next|]]]|e|]] eqn:Hnext; try done;
  [destruct (Inode_name (lu_inode next)) as [name|e|] eqn:Hname; try done|].

(** The entries that an iteration adds are numbered from the handle's offset on. *)
Lemma loop_offsets add n dh offset sent s s' dh' sent' :
  run env (loop add n dh offset sent) s = (s', Ok (dh', sent', inr tt)) →
  ∃ new, sent' = sent ++ new ∧ map de_offset new = seqZ (dh_offset dh + 1) (zlen new) ∧
    dh_offset dh' = dh_offset dh + zlen new ∧ dh_last_response dh' = Some (offset, sent').
Proof.
  revert dh sent s. induction n as [|n IH]; intros dh sent s H; [done|]. loop_cases H.
  - cbv zeta in H. destruct (add sent _).
    + destruct (run env (if plus then _ else _) s1) as [s2 [u|e|]]; try done.
      apply IH in H as (new & -> & Hoff & Ho & Hl). eexists (_ :: new). rewrite <-app_assoc in *. split; [done|].
      rewrite zlen_cons, seqZ_cons by (pose proof (zlen_nonneg new); lia). simpl in *. split_and!; [|lia|done].
      f_equal. rewrite Hoff. f_equal; lia.
    + destruct (ReaddirHandle_readd h next); try done. injection H as <- <- <-. exists []. by rewrite app_nil_r, Z.add_0_r.
  - injection H as <- <- <-. exists []. by rewrite app_nil_r, Z.add_0_r.
Qed.

(** With an unlimited buffer, neither the fuel that is left nor what was sent before matters. *)
Lemma loop_unlimited n m dh dh' offset offset' sent sent' s s2 dh2 out r :
  same_position dh dh' → (n ≤ m)%nat → run env (loop unlimited n dh offset sent) s = (s2, Ok (dh2, out, r)) →
  ∃ dh2' new, out = sent ++ new ∧ same_position dh2 dh2' ∧
    run env (loop unlimited m dh' offset' sent') s = (s2, Ok (dh2', sent' ++ new, r)).
Proof.
  revert m dh dh' sent sent' s. induction n as [|n IH]; intros m dh dh' sent sent' s [Hh Ho] Hm H; [done|]. destruct m as [|m]; [lia|].
  rewrite run_loop_S in *. rewrite <-Hh. destruct (run env (ReaddirHandle_next _ _ _ _ _) s) as [s1 [[h [e|[next|]]]|e|]]; try done.
  - injection H as <- <- <- <-. exists (dh_with_handle dh' h), []. by rewrite !app_nil_r.
  - destruct (Inode_name _) as [name|e|]; try done. cbn [unlimited] in *.
    destruct (run env (if plus then _ else _) s1) as [s3 [u|e|]]; try done.
    apply (IH m _ (dh_next_offset (dh_with_handle dh' h)) _ (sent' ++ [readdir_entry dh' name next])) in H as (dh2' & new & -> & Hp & ->).
    + eexists dh2', (_ :: new). rewrite <-!app_assoc. split; [done|]. split; [done|]. unfold readdir_entry. by rewrite Ho.
    + split; [done|]. simpl. by rewrite Ho.
    + lia.
  - injection H as <- <- <- <-. exists (dh_finish (dh_with_handle dh' h) offset' sent'), []. by rewrite !app_nil_r.
Qed.

(** Only a full buffer puts an entry back. *)
Lemma handle_next_readded n h s s' h' r :
  rh_readded h = None → run env (handle_next_loop prefix cfg mount_time n fuel h) s = (s', Ok (h', r)) → rh_readded h' = None.
Proof.
  revert h s. induction n as [|n IH]; intros h s Hr H; [done|]. simpl in H. rewrite run_bind in H.
  destruct (run env (ReaddirIter_next fuel _) s) as [s1 [[it [e|[entry|]]]|e|]]; try done; try by injection H as _ <- _.
  destruct (valid_name_str _); [|by apply IH in H]. rewrite run_bind in H.
  destruct (run env (attempt _) s1) as [s2 [x|e|]]; try done. by injection H as _ <- _.
Qed.
Lemma next_readded h s s' h' r :
  run env (ReaddirHandle_next prefix cfg mount_time fuel h) s = (s', Ok (h', r)) → rh_readded h' = None.
Proof.
  unfold ReaddirHandle_next. destruct (rh_readded h) eqn:Hr; [|by apply handle_next_readded]. intros H. by injection H as _ <- _.
Qed.
Lemma next_of_readded h next s : rh_readded h = None →
  ∃ h', ReaddirHandle_readd h next = Ok h' ∧ run env (ReaddirHandle_next prefix cfg mount_time fuel h') s = (s, Ok (h, inr (Some next))).
Proof. unfold ReaddirHandle_readd. destruct h as [d p it re]. simpl. intros ->. by eexists. Qed.

(** A call that stopped at a full buffer, followed by one without limit, reads what a single call
    without limit reads. *)
Lemma loop_continues add n m dh offset sent sent0 s sm dh1 out1 offset2 s2 dh2 out2 r :
  run env (loop add n dh offset sent) s = (sm, Ok (dh1, out1, inr tt)) → is_Some (rh_readded (dh_handle dh1)) →
  run env (loop unlimited m dh1 offset2 []) sm = (s2, Ok (dh2, out2, r)) →
  ∃ dh2' new, out1 = sent ++ new ∧ same_position dh2 dh2' ∧
    run env (loop unlimited (n + m) dh offset sent0) s = (s2, Ok (dh2', sent0 ++ new ++ out2, r)).
Proof.
  revert dh sent sent0 s. induction n as [|n IH]; intros dh sent sent0 s H Hre H2; [done|]. cbn [Nat.add].
  loop_cases H; pose proof (next_readded _ _ _ _ _ Hnext) as Hnone.
  2: { injection H as <- <- <-. simpl in Hre. rewrite Hnone in Hre. by destruct Hre. }
  cbv zeta in H. rewrite run_loop_S, Hnext, Hname. cbn [unlimited]. destruct (add sent _).
  - destruct (run env (if plus then _ else _) s1) as [s3 [u|e|]]; try done.
    eapply (IH _ _ (sent0 ++ [readdir_entry dh name next])) in H as (dh2' & new & -> & Hp & Hrun); [|done|done].
    eexists dh2', (_ :: new). rewrite <-!app_assoc in *. split; [done|]. split; [done|]. exact Hrun.
  - destruct (next_of_readded h next s1 Hnone) as (h' & Hh' & Hback). rewrite Hh' in H. injection H as <- <- <-.
    destruct m as [|m]; [done|]. rewrite run_loop_S in H2. simpl in H2. rewrite Hback, Hname in H2. cbn [unlimited] in H2.
    destruct (run env (if plus then _ else _) s1) as [s3 [u|e|]]; try done.
    eapply (loop_unlimited m (n + S m) _ (dh_next_offset (dh_with_handle dh h)) _ offset _ (sent0 ++ [readdir_entry dh name next])) in H2
      as (dh2' & new & -> & Hp & ->); [|done|lia].
    eexists dh2', []. rewrite app_nil_r, <-!app_assoc. done.
Qed.

(** "." and "..": when the call got past them, they were sent, in this call or before. *)
Lemma dot_passed add limit dot ino dh offset sent k s s' dh' out :
  run env (readdir_dot prefix cfg mount_time add limit dot ino dh offset sent k) s = (s', Ok (dh', out, inr tt)) →
  limit ≤ dh_offset dh' →
  ∃ s1 dh1 new, run env (k dh1 (sent ++ new)) s1 = (s', Ok (dh', out, inr tt)) ∧
    map de_offset new = seqZ (dh_offset dh + 1) (zlen new) ∧ dh_offset dh1 = dh_offset dh + zlen new ∧
    (∀ offset' sent' k', run env (readdir_dot prefix cfg mount_time unlimited limit dot ino dh offset' sent' k') s =
       run env (k' dh1 (sent' ++ new)) s1).
Proof.
  unfold readdir_dot. destruct (Z.ltb_spec (dh_offset dh) limit) as [Hlt|Hge].
  2: { intros H _. exists s, dh, []. rewrite app_nil_r, Z.add_0_r. split_and!; [done|done|done|]. intros. by rewrite app_nil_r. }
  rewrite run_bind. destruct (run env (attempt _) s) as [s1 [[e|lookup]|e|]] eqn:Hget; try done. intros H Hlim.
  destruct (add sent _) eqn:Hadd.
  - eexists s1, _, [_]. split; [exact H|]. split; [done|]. split; [done|]. intros. by rewrite run_bind, Hget.
  - injection H as <- <- <-. simpl in Hlim. lia.
Qed.

Abbreviation call add n dh parent fh offset := (DirHandle_readdir prefix cfg mount_time list_ordered add n fuel dh parent fh offset plus).

Lemma run_call_stream add n dh parent fh offset s :
  offset = dh_offset dh →
  run env (call add n dh parent fh offset) s = run env (readdir_stream prefix cfg mount_time add n fuel dh parent offset plus) s.
Proof.
  intros ->. unfold DirHandle_readdir. rewrite andb_negb_r, run_bind, run_ret. by rewrite Z.eqb_refl.
Qed.

(** An entry whose inode is remembered when it is returned by READDIRPLUS *)
Definition remembered (e : DirectoryEntryReaddir) : bool :=
  negb (bool_decide (de_name e = str_of ".")) && negb (bool_decide (de_name e = str_of "..")).
(** One more lookup of every inode that READDIRPLUS returned; READDIR counts none. *)
Definition looked_up_again (entries : reply) s : Superblock :=
  if plus then foldl (λ s e, if remembered e then sb_with_inodes s (increase_lookup_count (sb_inodes s) (lu_inode (de_lookup e))) else s) s entries
  else s.
Lemma repeat_unlimited entries sent s :
  run env (repeat_entries unlimited plus entries sent) s = (looked_up_again entries s, Ok (sent ++ entries)).
Proof.
  revert sent s. induction entries as [|e entries IH]; intros sent s; cbn [repeat_entries unlimited].
  { rewrite app_nil_r, run_ret. unfold looked_up_again. by destruct plus. }
  rewrite run_bind, <-andb_assoc. fold (remembered e). unfold looked_up_again in *. destruct plus; cbn [andb]; [|by rewrite run_ret, IH, <-app_assoc].
  cbn [foldl]. destruct (remembered e); [unfold remember; rewrite run_atomic|rewrite run_ret]; by rewrite IH, <-app_assoc.
Qed.

(** What [opendir] does for a directory that is known by its number *)
Definition reopen (parent : Z) : prog ReaddirHandle :=
  dir ← sb_get prefix parent; ReaddirHandle_new prefix list_ordered (in_ino dir) (in_parent dir) (vk_key (full_key_for_inode prefix dir)) 1000.
Lemma run_call_rewind add n dh parent fh s s' h : dh_offset dh ≠ 0 → run env (reopen parent) s = (s', Ok h) →
  run env (call add n dh parent fh 0) s = run env (call add n (DirHandle_new (dh_ino dh) h) parent fh 0) s'.
Proof.
  intros Hne. unfold reopen. rewrite run_bind. destruct (run env (sb_get prefix parent) s) as [s1 [dir|e|]] eqn:Hget; try done. intros Hh.
  unfold DirHandle_readdir at 1. rewrite (proj2 (Z.eqb_neq (dh_offset dh) 0)) by done. cbn [Z.eqb andb negb].
  rewrite run_bind, run_attempt, run_bind, Hget, run_bind, Hh, run_ret.
  unfold DirHandle_readdir. by rewrite run_bind.
Qed.

(** C21. Reading a directory in pieces loses and repeats nothing.  For a call that continues at the
    handle's offset and fills its buffer, whatever the buffer's size as long as "." and ".." fit:
    the entries it returns carry consecutive offsets, and the handle is then at the offset of the last one;
    a call from there on returns just what a single call with a large enough buffer would have returned
    after these entries, and leaves the superblock and the stream in the same state;
    asking again for any positive offset inside the response returns the same entries again, leaves the handle as it is,
    and changes nothing but that READDIRPLUS counts one more lookup of each of these inodes other than "." and "..";
    and asking for offset 0 starts over: if the directory can be opened again, the answer is that of a new handle. *)
Theorem readdir_pages_compose add n m dh parent fh s sm dh1 out1 :
  run env (call add n dh parent fh (dh_offset dh)) s = (sm, Ok (dh1, out1, inr tt)) →
  is_Some (rh_readded (dh_handle dh1)) → 2 ≤ dh_offset dh1 → 0 ≤ dh_offset dh → dh_offset dh1 < 2 ^ 63 →
  map de_offset out1 = seqZ (dh_offset dh + 1) (zlen out1) ∧ dh_offset dh1 = dh_offset dh + zlen out1 ∧
  (∀ s2 dh2 out2 r, run env (call unlimited m dh1 parent fh (dh_offset dh1)) sm = (s2, Ok (dh2, out2, r)) →
     ∃ dh2', same_position dh2 dh2' ∧
       run env (call unlimited (n + m) dh parent fh (dh_offset dh)) s = (s2, Ok (dh2', out1 ++ out2, r))) ∧
  (∀ offset, dh_offset dh ≤ offset < dh_offset dh1 → 0 < offset →
     let again := zdrop (offset - dh_offset dh) out1 in
     run env (call unlimited m dh1 parent fh offset) sm = (looked_up_again again sm, Ok (dh1, again, inr tt))) ∧
  (∀ add' s3 h, run env (reopen parent) sm = (s3, Ok h) →
     run env (call add' m dh1 parent fh 0) sm = run env (call add' m (DirHandle_new (dh_ino dh1) h) parent fh 0) s3).
Proof.
  intros H Hre Hdots Hpos Hmax. rewrite run_call_stream in H by done. unfold readdir_stream in H.
  apply dot_passed in H as (sa & dha & newa & H & Hoa & Hda & Hka); [|lia].
  apply dot_passed in H as (sb & dhb & newb & H & Hob & Hdb & Hkb); [|lia].
  pose proof H as Hloop. apply loop_offsets in Hloop as (newc & -> & Hoc & Hdc & Hlast). rewrite !app_nil_l in *.
  assert (map de_offset ((newa ++ newb) ++ newc) = seqZ (dh_offset dh + 1) (zlen ((newa ++ newb) ++ newc))) as Hoff.
  { rewrite !map_app, Hoa, Hob, Hoc, Hda, Hdb, Hda, !zlen_app, !seqZ_app by (rewrite ?zlen_app; repeat first [apply zlen_nonneg|apply Z.add_nonneg_nonneg]).
    f_equal; [f_equal; f_equal; lia|f_equal; lia]. }
  split; [done|]. rewrite !zlen_app in *. split; [lia|]. split_and!.
  - intros s2 dh2 out2 r H2. rewrite run_call_stream in H2 by done. unfold readdir_stream, readdir_dot in H2.
    rewrite !(proj2 (Z.ltb_ge _ _)) in H2 by lia.
    destruct (loop_continues add n m dhb (dh_offset dh) (newa ++ newb) (newa ++ newb) sb sm dh1 _ (dh_offset dh1) s2 dh2 out2 r H Hre H2)
      as (dh2' & new & Heq%app_inv_head & Hp & Hrun). subst new.
    exists dh2'. split; [done|]. rewrite run_call_stream by done. unfold readdir_stream. rewrite Hka, Hkb, app_nil_l, Hrun. by rewrite <-!app_assoc.
  - intros offset Ho Hgt. unfold DirHandle_readdir. rewrite (proj2 (Z.eqb_neq offset 0)) by lia. simpl. 
    rewrite (proj2 (Z.eqb_neq offset (dh_offset dh1))), (proj2 (Z.ltb_lt 0 offset)) by lia. simpl.
    unfold readdir_repeat. rewrite Hlast, !zlen_app.
    rewrite wrap64_small by (unfold is_u64, u64_modulus; lia). rewrite wadd_small by (unfold is_u64, u64_modulus; lia).
    rewrite (proj2 (Z.leb_le _ _)), (proj2 (Z.ltb_lt offset _)) by lia. simpl.
    by rewrite run_bind, repeat_unlimited.
  - intros add' s3 h. apply run_call_rewind. lia.
Qed.

End pages.

(** ** Witness: listing the root of a bucket with "f", "d" and "d/x", three entries at a time *)

Definition test_opendir : Superblock * DirHandle :=
  match run (bucket_env test_bucket RenameOk)
          (ReaddirHandle_new (crc := sum_crc) Prefix_empty true 1 1 [] 1000) test_sb with
  | (s, Ok h) => (s, DirHandle_new 1 h)
  | (s, _) => (s, DirHandle_new 1 {| rh_dir_ino := 1; rh_parent_ino := 1; rh_readded := None;
                                      rh_iter := Ordered (OrderedIter_new [] 1000 []) |})
  end.
Definition test_readdir (add : list DirectoryEntryReaddir → DirectoryEntryReaddir → bool) (n : nat) (x : Superblock * DirHandle) :=
  run (bucket_env test_bucket RenameOk)
    (DirHandle_readdir (crc := sum_crc) Prefix_empty (test_config false 100 100) 0 true add n 9 (snd x) 1 0 (dh_offset (snd x)) false) (fst x).
(** a buffer for three entries *)
Definition three (sent : list DirectoryEntryReaddir) (_ : DirectoryEntryReaddir) : bool := (length sent <? 3)%nat.
Definition test_first_page : Superblock * DirHandle * list DirectoryEntryReaddir :=
  match test_readdir three 9 test_opendir with
  | (s, Ok (dh, out, _)) => (s, dh, out)
  | (s, _) => (s, snd test_opendir, [])
  end.

(** the first call returns ".", ".." and "d", a single call returns "f" as well, and asking again for offset 2 returns "d" again *)
Lemma readdir_pages_compose_witness :
  map de_name (snd test_first_page) = map str_of ["."; ".."; "d"] ∧
  map de_offset (snd test_first_page) = [1; 2; 3] ∧
  (∃ s2 dh2 out, test_readdir unlimited 18 test_opendir = (s2, Ok (dh2, out, inr tt)) ∧
    map de_name out = map str_of ["."; ".."; "d"; "f"]) ∧
  ∃ s3, run (bucket_env test_bucket RenameOk)
      (DirHandle_readdir (crc := sum_crc) Prefix_empty (test_config false 100 100) 0 true unlimited 9 9 test_first_page.1.2 1 0 2 false) test_first_page.1.1 =
      (s3, Ok (test_first_page.1.2, zdrop 2 test_first_page.2, inr tt)).
Proof.
  split; [by vm_compute|].
  assert (test_readdir three 9 test_opendir = (test_first_page.1.1, Ok (test_first_page.1.2, test_first_page.2, inr tt))) as H by by vm_compute.
  destruct (readdir_pages_compose (crc := sum_crc) Prefix_empty (test_config false 100 100) 0 true (bucket_env test_bucket RenameOk) 9 false
    three 9 9 (snd test_opendir) 1 0 (fst test_opendir) _ _ _ H) as (Hoff & _ & Hnext & Hagain & _).
  - apply (bool_decide_unpack _). by vm_compute.
  - by vm_compute.
  - by vm_compute.
  - by vm_compute.
  - split; [by rewrite Hoff; vm_compute|]. split.
    2: { assert (dh_offset (snd test_opendir) = 0) as H0 by by vm_compute. assert (2 < dh_offset test_first_page.1.2) as H2 by by vm_compute.
         specialize (Hagain 2). rewrite H0 in Hagain. cbv zeta in Hagain. change (2 - 0) with 2 in Hagain. eexists. exact (Hagain ltac:(lia) ltac:(lia)). }
    assert (∃ s2 dh2 out2, test_readdir unlimited 9 (test_first_page.1.1, test_first_page.1.2) = (s2, Ok (dh2, out2, inr tt)) ∧
      map de_name out2 = [str_of "f"]) as (s2 & dh2 & out2 & Hrun2 & Hnames) by (eexists _, _, _; split; by vm_compute).
    unfold test_readdir in Hrun2. cbn [fst snd] in Hrun2. destruct (Hnext _ _ _ _ Hrun2) as (dh2' & _ & Hrun). exists s2, dh2', (test_first_page.2 ++ out2).
    split; [exact Hrun|]. rewrite map_app, Hnames. by vm_compute.
Defined.
