(* ===== verification/MockClient.v ===== *)
(** * The mock of S3 ([mountpoint-s3-client/src/mock_client.rs])

    The client crate has an implementation of its [ObjectClient] interface that keeps the objects of a bucket in memory;
    the tests of the file system run against it.  It answers GetObject, ListObjectsV2, HeadObject, PutObject with its
    streaming and appending forms, RenameObject, CopyObject and DeleteObject.  The MD5 and the shuffle of unordered
    listings come from other crates and are parameters. *)

From S2P Require Import Prelude Checksums PartQueue PartStream BlockFormat ClientChecksums Upload AppendUpload Path S3Path Inode Superblock Readdir.
Local Open Scope Z_scope.

(** ** Characters of a string

    A string is its UTF-8 bytes; a character starts at a byte that does not continue another one. *)

Definition continues (c : Strings.Ascii.ascii) : bool := N.eqb (N.land (Strings.Ascii.N_of_ascii c) 192) 128.
(** [chars().count()], [chars().take(n)] and [chars().skip(n)] *)
Definition chars_count (s : str) : nat := length (filter (λ c, continues c = false) s).
Fixpoint chars_take (n : nat) (s : str) : str :=
  match s with
  | [] => []
  | c :: s => if continues c then c :: chars_take n s else match n with O => [] | S n => c :: chars_take n s end
  end.
Definition chars_skip (n : nat) (s : str) : str := drop (length (chars_take n s)) s.

(** [str::split_once] with a string *)
Fixpoint split_once_str (d s : str) : option (str * str) :=
  match strip_prefix d s with
  | Some after => Some ([], after)
  | None =>
      match s with
      | [] => None
      | c :: s => match split_once_str d s with Some (before, after) => Some (c :: before, after) | None => None end
      end
  end.

(** The iteration order of [BTreeMap] and [BTreeSet]. *)
Definition str_le (a b : str) : Prop := str_compare a b ≠ Gt.
#[export] Instance str_le_dec : RelDecision str_le.
Proof. intros a b. unfold str_le. apply _. Defined.
Definition key_le {A} (a b : str * A) : Prop := str_le a.1 b.1.
#[export] Instance key_le_dec {A} : RelDecision (key_le (A:=A)).
Proof. intros a b. unfold key_le. apply _. Defined.

(** ** Checksums of objects ([object_client.rs]) *)

Record Checksum := {
  cs_crc64nvme : option string;
  cs_crc32 : option string;
  cs_crc32c : option string;
  cs_sha1 : option string;
  cs_sha256 : option string;
}.
#[export] Instance Checksum_eq_dec : EqDecision Checksum.
Proof. solve_decision. Defined.
Definition Checksum_empty : Checksum := {| cs_crc64nvme := None; cs_crc32 := None; cs_crc32c := None; cs_sha1 := None; cs_sha256 := None |}.
Definition Checksum_algorithms (c : Checksum) : list ChecksumAlgorithm :=
  (match cs_crc64nvme c with Some _ => [AlgCrc64nvme] | None => [] end) ++
  (match cs_crc32 c with Some _ => [AlgCrc32] | None => [] end) ++
  (match cs_crc32c c with Some _ => [AlgCrc32c] | None => [] end) ++
  (match cs_sha1 c with Some _ => [AlgSha1] | None => [] end) ++
  (match cs_sha256 c with Some _ => [AlgSha256] | None => [] end).
(** the assignment of one of the fields; [None] for an unknown algorithm *)
Definition Checksum_set (c : Checksum) (a : ChecksumAlgorithm) (value : string) : option Checksum :=
  match a with
  | AlgCrc64nvme => Some {| cs_crc64nvme := Some value; cs_crc32 := cs_crc32 c; cs_crc32c := cs_crc32c c; cs_sha1 := cs_sha1 c; cs_sha256 := cs_sha256 c |}
  | AlgCrc32 => Some {| cs_crc64nvme := cs_crc64nvme c; cs_crc32 := Some value; cs_crc32c := cs_crc32c c; cs_sha1 := cs_sha1 c; cs_sha256 := cs_sha256 c |}
  | AlgCrc32c => Some {| cs_crc64nvme := cs_crc64nvme c; cs_crc32 := cs_crc32 c; cs_crc32c := Some value; cs_sha1 := cs_sha1 c; cs_sha256 := cs_sha256 c |}
  | AlgSha1 => Some {| cs_crc64nvme := cs_crc64nvme c; cs_crc32 := cs_crc32 c; cs_crc32c := cs_crc32c c; cs_sha1 := Some value; cs_sha256 := cs_sha256 c |}
  | AlgSha256 => Some {| cs_crc64nvme := cs_crc64nvme c; cs_crc32 := cs_crc32 c; cs_crc32c := cs_crc32c c; cs_sha1 := cs_sha1 c; cs_sha256 := Some value |}
  | AlgUnknown _ => None
  end.
Definition Checksum_from (value : option UploadChecksum) : Checksum :=
  match value with
  | Some uc => default Checksum_empty (Checksum_set Checksum_empty (uc_algorithm uc) (uc_value uc))
  | None => Checksum_empty
  end.

(** [ETag::from_object_bytes] *)
Class Md5 := md5_hex : bytes → string.

Section objects.
Context `{lib : ChecksumLib, md5 : Md5}.

Fixpoint set_checksums {E} (content : bytes) (c : Checksum) (algorithms : list ChecksumAlgorithm) : outcome E Checksum :=
  match algorithms with
  | [] => Ok c
  | a :: algorithms =>
      match Checksum_set c a (checksum_digest a content) with
      | Some c => set_checksums content c algorithms
      | None => Panic
      end
  end.
Definition compute_checksum {E} (content : bytes) (algorithms : list ChecksumAlgorithm) : outcome E Checksum :=
  set_checksums content Checksum_empty algorithms.

Definition mock_validate_checksum (contents : bytes) (upload_checksum : option UploadChecksum) : outcome Upload.ClientError Checksum :=
  let algorithm := match upload_checksum with Some c => [uc_algorithm c] | None => [] end in
  let! content_checksum := compute_checksum contents algorithm in
  let provided_checksum := Checksum_from upload_checksum in
  if bool_decide (provided_checksum = content_checksum) then Ok provided_checksum else Err (PutServiceError BadChecksum).

(** ** Objects *)

Record MockObjectPartAttributes := { mop_size : Z; mop_checksum : option string }.
Inductive MockObjectParts := PartsList (parts : list MockObjectPartAttributes) | PartsCount (n : Z).

Record MockObject := {
  (** the bytes at an offset; [None] when the closure panics *)
  mo_generator : Z → Z → option bytes;
  mo_size : Z;
  mo_storage_class : option string;
  mo_restore_status : option RestoreStatus;
  mo_last_modified : Z;
  mo_etag : ETag;
  mo_parts : option MockObjectParts;
  mo_object_metadata : gmap string string;
  mo_checksum : Checksum;
}.
Implicit Types o : MockObject.
Definition mo_with o (storage_class : option string) (metadata : gmap string string) (checksum : Checksum) (parts : option MockObjectParts) : MockObject :=
  {| mo_generator := mo_generator o; mo_size := mo_size o; mo_storage_class := storage_class; mo_restore_status := mo_restore_status o;
     mo_last_modified := mo_last_modified o; mo_etag := mo_etag o; mo_parts := parts; mo_object_metadata := metadata; mo_checksum := checksum |}.

Definition set_last_modified o (last_modified : Z) : MockObject :=
  {| mo_generator := mo_generator o; mo_size := mo_size o; mo_storage_class := mo_storage_class o; mo_restore_status := mo_restore_status o;
     mo_last_modified := last_modified; mo_etag := mo_etag o; mo_parts := mo_parts o; mo_object_metadata := mo_object_metadata o;
     mo_checksum := mo_checksum o |}.
Definition set_restored o (restore_status : option RestoreStatus) : MockObject :=
  {| mo_generator := mo_generator o; mo_size := mo_size o; mo_storage_class := mo_storage_class o; mo_restore_status := restore_status;
     mo_last_modified := mo_last_modified o; mo_etag := mo_etag o; mo_parts := mo_parts o; mo_object_metadata := mo_object_metadata o;
     mo_checksum := mo_checksum o |}.

Definition MockObject_read o (offset size : Z) : option bytes :=
  let read_size := Z.max 0 (mo_size o - offset) in
  mo_generator o offset (Z.min size read_size).

(** [bytes[offset..offset + size]] *)
Definition slice_generator (bs : bytes) (offset size : Z) : option bytes :=
  let to := wadd offset size in
  if (offset <=? to) && (to <=? zlen bs) then Some (zslice offset to bs) else None.
Definition new_object (generator : Z → Z → option bytes) (size now : Z) (etag : ETag) : MockObject :=
  {| mo_generator := generator; mo_size := size; mo_storage_class := None; mo_restore_status := None; mo_last_modified := now; mo_etag := etag;
     mo_parts := None; mo_object_metadata := ∅; mo_checksum := Checksum_empty |}.

Definition MockObject_from_bytes (now : Z) (bs : bytes) (etag : ETag) : MockObject := new_object (slice_generator bs) (zlen bs) now etag.
Definition MockObject_from (now : Z) (bs : bytes) : MockObject := MockObject_from_bytes now bs (md5_hex bs).
Definition MockObject_constant (now : Z) (v : Byte.byte) (size : Z) (etag : ETag) : MockObject :=
  new_object (λ _ size, Some (replicate (Z.to_nat size) v)) size now etag.

Definition RAMP_MODULUS : Z := 251.
Definition RAMP_BUFFER_SIZE : Z := 4 * 1024 * RAMP_MODULUS.
Definition ramp_bytes (seed size : Z) : bytes := map (λ i, byte_of ((seed + i) `mod` RAMP_MODULUS)) (seqZ 0 size).
Definition RAMP_BYTES : bytes := ramp_bytes 0 (RAMP_BUFFER_SIZE + RAMP_MODULUS).
(** The loop copies at least one byte in each round. *)
Fixpoint ramp_loop (fuel : nat) (offs size : Z) (vec : bytes) : option bytes :=
  match fuel with
  | O => None
  | S fuel =>
      if 0 <? size then
        let nbyte := Z.min size RAMP_BUFFER_SIZE in
        match slice_generator RAMP_BYTES offs nbyte with
        | Some chunk => ramp_loop fuel offs (size - nbyte) (vec ++ chunk)
        | None => None
        end
      else Some vec
  end.
Definition ramp_generator (seed offset size : Z) : option bytes :=
  let offs := (wadd offset seed) `mod` RAMP_MODULUS in
  ramp_loop (S (Z.to_nat size)) offs size [].
Definition MockObject_ramp (now seed size : Z) (etag : ETag) : MockObject := new_object (ramp_generator seed) size now etag.

Definition with_computed_checksums {E} o (algorithms : list ChecksumAlgorithm) : outcome E MockObject :=
  match MockObject_read o 0 (mo_size o) with
  | None => Panic
  | Some content =>
      let! checksum := compute_checksum content algorithms in
      Ok (mo_with o (mo_storage_class o) (mo_object_metadata o) checksum (mo_parts o))
  end.

Definition MockObject_append {E} (now : Z) o (bs : bytes) : outcome E (MockObject * ETag) :=
  match MockObject_read o 0 (mo_size o) with
  | None => Panic
  | Some old =>
      let new_bytes := old ++ bs in
      let new_etag := md5_hex new_bytes in
      let! new_checksum := compute_checksum new_bytes (Checksum_algorithms (mo_checksum o)) in
      Ok ({| mo_generator := slice_generator new_bytes; mo_size := zlen new_bytes; mo_storage_class := mo_storage_class o;
             mo_restore_status := mo_restore_status o; mo_last_modified := now; mo_etag := new_etag; mo_parts := None;
             mo_object_metadata := mo_object_metadata o; mo_checksum := new_checksum |}, new_etag)
  end.
End objects.

(** ** The client *)

Inductive Operation :=
| OpDeleteObject | OpHeadObject | OpGetObject | OpGetObjectAttributes | OpListObjectsV2 | OpPutObject | OpRenameObject | OpCopyObject
| OpPutObjectSingle.
#[export] Instance Operation_eq_dec : EqDecision Operation.
Proof. solve_decision. Defined.

Record MockClientConfig := {
  mcc_bucket : str;
  mcc_part_size : Z;
  mcc_unordered_list_seed : option Z;
  mcc_enable_backpressure : bool;
  mcc_initial_read_window_size : Z;
  mcc_enable_rename : bool;
  mcc_fail_on_non_aligned_read_window : bool;
}.
Record MockClient := {
  mc_config : MockClientConfig;
  mc_objects : gmap str MockObject;
  mc_in_progress_uploads : gset str;
  mc_operation_counts : Operation → Z;
  mc_read_window_increment_failed : bool;
}.
Implicit Types mc : MockClient.
Definition MockClient_new (config : MockClientConfig) : MockClient :=
  {| mc_config := config; mc_objects := ∅; mc_in_progress_uploads := ∅; mc_operation_counts := λ _, 0; mc_read_window_increment_failed := false |}.
Definition mc_with_objects mc (objects : gmap str MockObject) : MockClient :=
  {| mc_config := mc_config mc; mc_objects := objects; mc_in_progress_uploads := mc_in_progress_uploads mc;
     mc_operation_counts := mc_operation_counts mc; mc_read_window_increment_failed := mc_read_window_increment_failed mc |}.
Definition mc_with_uploads mc (uploads : gset str) : MockClient :=
  {| mc_config := mc_config mc; mc_objects := mc_objects mc; mc_in_progress_uploads := uploads; mc_operation_counts := mc_operation_counts mc;
     mc_read_window_increment_failed := mc_read_window_increment_failed mc |}.

Definition mc_add_object mc (key : str) (value : MockObject) : MockClient := mc_with_objects mc (<[key := value]> (mc_objects mc)).
Definition mc_remove_object mc (key : str) : MockClient := mc_with_objects mc (delete key (mc_objects mc)).
Definition mc_remove_all_objects mc : MockClient := mc_with_objects mc ∅.
Definition mc_object_count mc : nat := size (mc_objects mc).
Definition mc_contains_key mc (key : str) : bool := bool_decide (is_Some (mc_objects mc !! key)).
Definition mc_contains_prefix mc (prefix : str) : bool :=
  existsb (λ kv, starts_with kv.1 (prefix ++ [delimiter])) (map_to_list (mc_objects mc)).
Definition is_upload_in_progress mc (key : str) : bool := bool_decide (key ∈ mc_in_progress_uploads mc).
(** [None] is the error that there is no such object *)
Definition get_object_storage_class mc (key : str) : option (option string) := mo_storage_class <$> mc_objects mc !! key.
Definition restore_object (now : Z) mc (key : str) : MockClient * bool :=
  match mc_objects mc !! key with
  | Some o => (mc_with_objects mc (<[key := set_restored o (Some (Restored (now + 3600)))]> (mc_objects mc)), true)
  | None => (mc, false)
  end.
Definition is_object_restored mc (key : str) : option bool :=
  (λ o, match mo_restore_status o with Some (Restored _) => true | _ => false end) <$> mc_objects mc !! key.
Definition inc_op_count mc (op : Operation) : MockClient :=
  {| mc_config := mc_config mc; mc_objects := mc_objects mc; mc_in_progress_uploads := mc_in_progress_uploads mc;
     mc_operation_counts := λ o, if decide (o = op) then mc_operation_counts mc o + 1 else mc_operation_counts mc o;
     mc_read_window_increment_failed := mc_read_window_increment_failed mc |}.

Record OperationCounter := { oc_initial_count : Z; oc_operation : Operation }.
Definition new_counter mc (op : Operation) : OperationCounter := {| oc_initial_count := mc_operation_counts mc op; oc_operation := op |}.
Definition OperationCounter_count mc (c : OperationCounter) : Z := wsub (mc_operation_counts mc (oc_operation c)) (oc_initial_count c).

(** *** Listing *)

Definition object_info (key : str) (o : MockObject) : ObjectInfo :=
  {| oi_key := key; oi_size := mo_size o; oi_last_modified := mo_last_modified o; oi_storage_class := mo_storage_class o;
     oi_restore_status := mo_restore_status o; oi_etag := mo_etag o |}.

(** the entries of [objects.range(token..)] *)
Definition sorted_objects (objects : gmap str MockObject) : list (str * MockObject) := stable_sort key_le (map_to_list objects).
Definition object_range (objects : gmap str MockObject) (from : str) : list (str * MockObject) :=
  filter (λ kv, str_le from kv.1) (sorted_objects objects).
Definition common_prefix_of (delimiter : option str) (prefix rest : str) : option str :=
  match delimiter with
  | None => None
  | Some d => match split_once_str d rest with Some (pre, _) => Some (prefix ++ pre ++ d) | None => None end
  end.

(** The loop over the keys: common prefixes, objects and the continuation token. *)
Fixpoint list_loop (delimiter : option str) (max_keys : Z) (prefix : str) (entries : list (str * MockObject)) (common_prefixes : gset str)
    (object_vec : list ObjectInfo) (current_common_prefix : option str) : gset str * list ObjectInfo * option str :=
  match entries with
  | [] => (common_prefixes, object_vec, None)
  | (key, object) :: entries =>
      let prefix_len := chars_count prefix in
      let key_prefix := if (prefix_len <=? chars_count key)%nat then chars_take prefix_len key else key in
      if bool_decide (str_compare key_prefix prefix = Gt) then (common_prefixes, object_vec, None)
      else if negb (starts_with key prefix) then list_loop delimiter max_keys prefix entries common_prefixes object_vec current_common_prefix
      else
        let key_count := Z.of_nat (size common_prefixes) + zlen object_vec in
        if (max_keys <=? key_count) then
          match current_common_prefix with
          | Some ccp =>
              if starts_with key ccp then list_loop delimiter max_keys prefix entries common_prefixes object_vec current_common_prefix
              else (common_prefixes, object_vec, Some key)
          | None => (common_prefixes, object_vec, Some key)
          end
        else
          let no_prefix_key := chars_skip prefix_len key in
          match common_prefix_of delimiter prefix no_prefix_key with
          | Some common_prefix =>
              if bool_decide (common_prefix ∈ common_prefixes) then
                list_loop delimiter max_keys prefix entries common_prefixes object_vec current_common_prefix
              else list_loop delimiter max_keys prefix entries ({[ common_prefix ]} ∪ common_prefixes) object_vec (Some common_prefix)
          | None => list_loop delimiter max_keys prefix entries common_prefixes (object_vec ++ [object_info key object]) current_common_prefix
          end
  end.

Definition non_empty (s : str) : option str := if bool_decide (s = []) then None else Some s.
Definition list_objects_ordered mc (continuation_token : option string) (delimiter : str) (max_keys : Z) (prefix : str) : ListObjectsResult :=
  let entries := object_range (mc_objects mc) (match continuation_token with Some token => str_of token | None => [] end) in
  let '(common_prefixes, object_vec, next) := list_loop (non_empty delimiter) max_keys prefix entries ∅ [] None in
  {| lo_common_prefixes := stable_sort str_le (elements common_prefixes); lo_objects := object_vec;
     lo_next_continuation_token := Strings.String.string_of_list_ascii <$> next |}.

(** [SliceRandom::shuffle] with a seeded generator *)
Class Shuffle := shuffle : Z → list str → list str.

Section unordered.
Context `{sh : Shuffle}.

Fixpoint unordered_loop (delimiter : option str) (prefix : str) (objects : gmap str MockObject) (keys : list str) (common_prefixes : list str)
    (object_vec : list ObjectInfo) : outcome Empty_set (list str * list ObjectInfo) :=
  match keys with
  | [] => Ok (common_prefixes, object_vec)
  | key :: keys =>
      match objects !! key with
      | None => Panic
      | Some object =>
          match common_prefix_of delimiter prefix (chars_skip (chars_count prefix) key) with
          | Some common_prefix =>
              unordered_loop delimiter prefix objects keys
                (if bool_decide (common_prefix ∈ common_prefixes) then common_prefixes else common_prefixes ++ [common_prefix]) object_vec
          | None => unordered_loop delimiter prefix objects keys common_prefixes (object_vec ++ [object_info key object])
          end
      end
  end.

(** Tokens are positions in the shuffled list of keys. *)
Definition list_objects_unordered mc (continuation_token : option string) (delimiter : str) (max_keys : Z) (prefix : str) (seed : Z)
    : outcome Empty_set ListObjectsResult :=
  let object_keys := shuffle seed (filter (λ key, starts_with key prefix = true) (map fst (sorted_objects (mc_objects mc)))) in
  let! next_index := (match continuation_token with
                      | Some token => match parse_uint u64_max token with Some i => Ok i | None => Panic end
                      | None => Ok 0
                      end) in
  let page := ztake max_keys (zdrop next_index object_keys) in
  let! listed := unordered_loop (non_empty delimiter) prefix (mc_objects mc) page [] [] in
  let next_continuation_token := next_index + zlen page in
  Ok {| lo_common_prefixes := listed.1; lo_objects := listed.2;
        lo_next_continuation_token :=
          if next_continuation_token =? wadd next_index max_keys then Some (format_uint next_continuation_token) else None |}.

(** [list_objects]: [None] is [NoSuchBucket] *)
Definition mock_list_objects mc (bucket : str) (continuation_token : option string) (delimiter : str) (max_keys : Z) (prefix : str)
    : MockClient * outcome Empty_set (option ListObjectsResult) :=
  let mc := inc_op_count mc OpListObjectsV2 in
  (mc,
   if negb (bool_decide (bucket = mcc_bucket (mc_config mc))) then Ok None
   else
     match mcc_unordered_list_seed (mc_config mc) with
     | Some seed => let! r := list_objects_unordered mc continuation_token delimiter max_keys prefix seed in Ok (Some r)
     | None => Ok (Some (list_objects_ordered mc continuation_token delimiter max_keys prefix))
     end).
End unordered.

(** *** Putting objects *)

Definition put_result (etag : ETag) : PutObjectResult := {| por_etag := etag; por_sse_type := None; por_sse_kms_key_id := None |}.

Section put.
Context `{lib : ChecksumLib, md5 : Md5} (now : Z).

(** the object that a request stores *)
Definition object_of (contents : bytes) (params : PutObjectSingleParams) (checksum : Checksum) : MockObject :=
  mo_with (MockObject_from now contents) (psp_storage_class params) (psp_object_metadata params) checksum None.

Definition append_object mc (key : str) (offset : Z) (params : PutObjectSingleParams) (contents : bytes)
    : MockClient * outcome Upload.ClientError PutObjectResult :=
  match mc_objects mc !! key with
  | None =>
      if negb (offset =? 0) then (mc, Err (PutServiceError NoSuchKey))
      else if bool_decide (is_Some (psp_if_match params)) then (mc, Err (PutServiceError PreconditionFailed))
      else
        let? mc, checksum := (mc, mock_validate_checksum contents (psp_checksum params)) in
        let object := object_of contents params checksum in
        (mc_add_object mc key object, Ok (put_result (mo_etag object)))
  | Some object =>
      if (match psp_if_match params with Some etag => negb (bool_decide (mo_etag object = etag)) | None => false end)
      then (mc, Err (PutServiceError PreconditionFailed))
      else if bool_decide (contents = []) && negb (mo_size object =? 0) then (mc, Err (PutServiceError EmptyBody))
      else if negb (mo_size object =? offset) then (mc, Err (PutServiceError InvalidWriteOffset))
      else
        let current_algorithms := Checksum_algorithms (mo_checksum object) in
        let checksum_matches :=
          match psp_checksum params with
          | Some checksum => bool_decide (uc_algorithm checksum ∈ current_algorithms)
          | None => bool_decide (current_algorithms = [])
          end in
        if negb checksum_matches then (mc, Err (PutServiceError InvalidChecksumType))
        else
          let? mc, _ := (mc, mock_validate_checksum contents (psp_checksum params)) in
          let? mc, appended := (mc, MockObject_append now object contents) in
          (mc_add_object mc key appended.1, Ok (put_result (mo_etag appended.1)))
  end.

Definition mock_put_object mc (key : str) (params : PutObjectSingleParams) (contents : bytes)
    : MockClient * outcome Upload.ClientError PutObjectResult :=
  match psp_write_offset_bytes params with
  | Some offset => append_object mc key offset params contents
  | None =>
      let? mc, checksum := (mc, mock_validate_checksum contents (psp_checksum params)) in
      let object := object_of contents params checksum in
      (mc_add_object mc key object, Ok (put_result (mo_etag object)))
  end.

Definition mock_put_object_single mc (bucket key : str) (params : PutObjectSingleParams) (contents : bytes)
    : MockClient * outcome Upload.ClientError PutObjectResult :=
  let mc := inc_op_count mc OpPutObjectSingle in
  if negb (bool_decide (bucket = mcc_bucket (mc_config mc))) then (mc, Err (PutServiceError NoSuchBucket))
  else mock_put_object mc key params contents.

(** *** Streaming uploads *)

Inductive PutObjectTrailingChecksums := TrailingEnabled | TrailingReviewOnly | TrailingDisabled.
#[export] Instance PutObjectTrailingChecksums_eq_dec : EqDecision PutObjectTrailingChecksums.
Proof. solve_decision. Defined.
Record PutObjectParams := {
  pop_trailing_checksums : PutObjectTrailingChecksums;
  pop_storage_class : option string;
  pop_server_side_encryption : option string;
  pop_ssekms_key_id : option string;
  pop_object_metadata : gmap string string;
}.
(** [objects] and [in_progress_uploads] of the request are those of the client, which the operations are given. *)
Record MockPutObjectRequest := {
  mpr_key : str;
  mpr_buffer : bytes;
  mpr_part_size : Z;
  mpr_params : PutObjectParams;
}.
Definition mock_put_object_streaming mc (bucket key : str) (params : PutObjectParams)
    : MockClient * outcome Upload.ClientError MockPutObjectRequest :=
  let mc := inc_op_count mc OpPutObject in
  if negb (bool_decide (bucket = mcc_bucket (mc_config mc))) then (mc, Err (PutServiceError NoSuchBucket))
  else
    (mc_with_uploads mc ({[ key ]} ∪ mc_in_progress_uploads mc),
     Ok {| mpr_key := key; mpr_buffer := []; mpr_part_size := mcc_part_size (mc_config mc); mpr_params := params |}).
Definition MockPutObjectRequest_drop mc (r : MockPutObjectRequest) : MockClient :=
  mc_with_uploads mc (mc_in_progress_uploads mc ∖ {[ mpr_key r ]}).

Definition MockPutObjectRequest_write (r : MockPutObjectRequest) (slice : bytes) : MockPutObjectRequest :=
  {| mpr_key := mpr_key r; mpr_buffer := mpr_buffer r ++ slice; mpr_part_size := mpr_part_size r; mpr_params := mpr_params r |}.

(** [chunks(part_size)]; it panics when [part_size] is 0 *)
Fixpoint chunks (fuel : nat) (part_size : Z) (bs : bytes) : list bytes :=
  match fuel with
  | O => []
  | S fuel => match bs with [] => [] | _ => ztake part_size bs :: chunks fuel part_size (zdrop part_size bs) end
  end.

Context `{crc : Crc32c, b64 : Base64}.
Definition part_attributes (params : PutObjectParams) (part : bytes) : MockObjectPartAttributes :=
  {| mop_size := zlen part;
     mop_checksum := if bool_decide (pop_trailing_checksums params ≠ TrailingDisabled) then Some (crc32c_to_base64 (crc32c_checksum part)) else None |}.
Definition mpr_parts (r : MockPutObjectRequest) : outcome Upload.ClientError (list MockObjectPartAttributes) :=
  assert! 0 <? mpr_part_size r in
  Ok (map (part_attributes (mpr_params r)) (chunks (length (mpr_buffer r)) (mpr_part_size r) (mpr_buffer r))).

(** The checksum of the checksums, and their number. *)
Definition compute_crc32c_of_crc32c_checksums (individual_checksums : list string) : string :=
  (crc32c_to_base64 (crc32c_checksum (concat (map string_bytes individual_checksums))) +:+ "-" +:+
   format_uint (Z.of_nat (length individual_checksums)))%string.

(** The request is dropped when it is completed. *)
Definition complete_inner mc (r : MockPutObjectRequest) (parts : list MockObjectPartAttributes) : MockClient * outcome Upload.ClientError PutObjectResult :=
  let object := MockObject_from now (mpr_buffer r) in
  let params := mpr_params r in
  let? mc, object :=
    (mc,
     if bool_decide (pop_trailing_checksums params = TrailingEnabled) then
       let! part_checksums := outcome_mapM (λ part, match mop_checksum part with Some c => Ok c | None => Panic end) parts in
       let whole_obj_checksum :=
         {| cs_crc64nvme := None; cs_crc32 := None; cs_crc32c := Some (compute_crc32c_of_crc32c_checksums part_checksums); cs_sha1 := None;
            cs_sha256 := None |} in
       Ok (mo_with object (pop_storage_class params) (pop_object_metadata params) whole_obj_checksum (Some (PartsList parts)))
     else
       Ok (mo_with object (pop_storage_class params) (pop_object_metadata params) (mo_checksum object) (Some (PartsCount (zlen parts))))) in
  (MockPutObjectRequest_drop (mc_add_object mc (mpr_key r) object) r, Ok (put_result (mo_etag object))).
Definition MockPutObjectRequest_complete mc (r : MockPutObjectRequest) : MockClient * outcome Upload.ClientError PutObjectResult :=
  let? mc, parts := (mc, mpr_parts r) in
  complete_inner mc r parts.
(** [ur_checksum_algorithm] of the review is CRC32C, or none when checksums are disabled. *)
Definition MockPutObjectRequest_review_and_complete mc (r : MockPutObjectRequest) (review_callback : UploadReview → bool)
    : MockClient * outcome Upload.ClientError PutObjectResult :=
  let? mc, parts := (mc, mpr_parts r) in
  let review := {| ur_parts := map (λ part, {| urp_size := mop_size part; urp_checksum := mop_checksum part |}) parts |} in
  if negb (review_callback review) then (MockPutObjectRequest_drop mc r, Err (OtherClientError "upload review failed, aborting"))
  else complete_inner mc r parts.
End put.

(** *** Reading objects *)

(** [request_range] is from [mbh_range_start] to [mbh_range_end]; the atomics are cells that the response and the owner
    of the handle share, the flag with the whole client. *)
Record MockBackpressureHandle := {
  mbh_read_window_end_offset : Z;
  mbh_range_start : Z;
  mbh_range_end : Z;
  mbh_part_size : Z;
  mbh_fail_on_non_aligned_read_window : bool;
}.
(** The handle, and whether the check of the alignment failed. *)
Definition mock_increment_read_window (h : MockBackpressureHandle) (len : Z) : MockBackpressureHandle * bool :=
  let read_window_end_offset := wadd (mbh_read_window_end_offset h) len in
  let relative_read_window_end := wsub read_window_end_offset (mbh_range_start h) in
  let h := {| mbh_read_window_end_offset := read_window_end_offset; mbh_range_start := mbh_range_start h; mbh_range_end := mbh_range_end h;
              mbh_part_size := mbh_part_size h; mbh_fail_on_non_aligned_read_window := mbh_fail_on_non_aligned_read_window h |} in
  (** [is_multiple_of(0)] is true for 0 only *)
  let aligned :=
    if mbh_part_size h =? 0 then relative_read_window_end =? 0 else relative_read_window_end `mod` mbh_part_size h =? 0 in
  (h, mbh_fail_on_non_aligned_read_window h && (read_window_end_offset <? mbh_range_end h) && negb aligned).
Definition mock_ensure_read_window (h : MockBackpressureHandle) (desired_end_offset : Z) : MockBackpressureHandle * bool :=
  mock_increment_read_window h (Z.max 0 (desired_end_offset - mbh_read_window_end_offset h)).

Record MockGetObjectResponse := {
  mgr_object : MockObject;
  mgr_next_offset : Z;
  mgr_length : Z;
  mgr_part_size : Z;
  mgr_backpressure_handle : option MockBackpressureHandle;
}.

(** [poll_next]; [failed] is [read_window_increment_failed] of the client *)
Definition mgr_poll_next (failed : bool) (r : MockGetObjectResponse)
    : MockGetObjectResponse * outcome Empty_set (option (GetBodyPart + GetClientError)) :=
  if bool_decide (is_Some (mgr_backpressure_handle r)) && failed then (r, Ok (Some (inr (GetOtherError "read window increment failed"))))
  else if mgr_length r =? 0 then (r, Ok None)
  else
    let next_read_size := Z.min (mgr_part_size r) (mgr_length r) in
    if (match mgr_backpressure_handle r with Some h => mbh_read_window_end_offset h <=? mgr_next_offset r | None => false end)
    then (r, Ok (Some (inr (GetOtherError "empty read window"))))
    else
      match MockObject_read (mgr_object r) (mgr_next_offset r) next_read_size with
      | None => (r, Panic)
      | Some next_part =>
          ({| mgr_object := mgr_object r; mgr_next_offset := wadd (mgr_next_offset r) next_read_size; mgr_length := mgr_length r - next_read_size;
              mgr_part_size := mgr_part_size r; mgr_backpressure_handle := mgr_backpressure_handle r |},
           Ok (Some (inl {| gbp_offset := mgr_next_offset r; gbp_data := next_part |})))
      end.

(** The whole body; [next_offset] is where the next part must start.  Every part has a byte at least. *)
Fixpoint collect_body (fuel : nat) (failed : bool) (r : MockGetObjectResponse) (next_offset : option Z) (body : bytes) : outcome GetClientError bytes :=
  match fuel with
  | O => Panic
  | S fuel =>
      match mgr_poll_next failed r with
      | (r, Ok (Some (inl part))) =>
          assert! default true ((λ no, gbp_offset part =? no) <$> next_offset) in
          collect_body fuel failed r (Some (wadd (gbp_offset part) (zlen (gbp_data part)))) (body ++ gbp_data part)
      | (_, Ok (Some (inr e))) => Err e
      | (_, Ok None) => Ok body
      | (_, _) => Panic
      end
  end.
Definition mgr_collect (failed : bool) (r : MockGetObjectResponse) : outcome GetClientError bytes :=
  collect_body (S (Z.to_nat (mgr_length r))) failed r None [].

(** [params]: the range and the ETag to match *)
Definition mock_get_object mc (bucket key : str) (range : option (Z * Z)) (if_match : option ETag)
    : MockClient * (GetClientError + MockGetObjectResponse) :=
  let mc := inc_op_count mc OpGetObject in
  (mc,
   if negb (bool_decide (bucket = mcc_bucket (mc_config mc))) then inl (GetServiceError GetNoSuchBucket)
   else
     match mc_objects mc !! key with
     | None => inl (GetServiceError GetNoSuchKey)
     | Some object =>
         if (match if_match with Some etag => negb (bool_decide (etag = mo_etag object)) | None => false end)
         then inl (GetServiceError GetPreconditionFailed)
         else
           if (match range with Some (from, to) => (mo_size object <=? from) || (mo_size object <? to) | None => false end)
           then inl (GetOtherError "invalid range")
           else
             let '(next_offset, length) := match range with Some (from, to) => (from, wsub to from) | None => (0, mo_size object) end in
             inr {| mgr_object := object; mgr_next_offset := next_offset; mgr_length := length; mgr_part_size := mcc_part_size (mc_config mc);
                    mgr_backpressure_handle :=
                      if mcc_enable_backpressure (mc_config mc) then
                        Some {| mbh_read_window_end_offset := wadd next_offset (mcc_initial_read_window_size (mc_config mc));
                                mbh_range_start := next_offset; mbh_range_end := wadd next_offset length;
                                mbh_part_size := mcc_part_size (mc_config mc);
                                mbh_fail_on_non_aligned_read_window := mcc_fail_on_non_aligned_read_window (mc_config mc) |}
                      else None |}
     end).

(** *** The other requests *)

(** [ho_checksum] is left out: the checksum is returned next to the result. *)
Definition mock_head_object mc (bucket key : str) (checksum_mode : bool) : MockClient * option (HeadObjectResult * Checksum) :=
  let mc := inc_op_count mc OpHeadObject in
  (mc,
   if negb (bool_decide (bucket = mcc_bucket (mc_config mc))) then None
   else
     match mc_objects mc !! key with
     | None => None
     | Some object =>
         Some ({| ho_size := mo_size object; ho_last_modified := mo_last_modified object; ho_restore_status := mo_restore_status object;
                  ho_etag := mo_etag object; ho_storage_class := mo_storage_class object |},
               if checksum_mode then mo_checksum object else Checksum_empty)
     end).

Definition mock_delete_object mc (bucket key : str) : MockClient * bool :=
  let mc := inc_op_count mc OpDeleteObject in
  if negb (bool_decide (bucket = mcc_bucket (mc_config mc))) then (mc, false) else (mc_remove_object mc key, true).

(** It is refused when both buckets are others; operations are not counted here. *)
Definition mock_copy_object mc (source_bucket source_key destination_bucket destination_key : str) : MockClient * bool :=
  if negb (bool_decide (destination_bucket = mcc_bucket (mc_config mc))) && negb (bool_decide (source_bucket = mcc_bucket (mc_config mc)))
  then (mc, false)
  else
    match mc_objects mc !! source_key with
    | Some object => (mc_with_objects mc (<[destination_key := object]> (mc_objects mc)), true)
    | None => (mc, false)
    end.

Inductive RenamePreconditionTypes := IfMatch | IfNoneMatch | OtherPrecondition.
Inductive RenameObjectError :=
| RenameErrNoSuchBucket | RenameErrKeyTooLong | RenameErrKeyNotFound | RenameErrPreConditionFailed (t : RenamePreconditionTypes) | RenameErrNotImplemented
| RenameErrInternal | RenameErrAccessDenied | RenameErrBadRequest.
Record RenameObjectParams := {
  rop_if_none_match : option string;
  rop_if_match : option ETag;
  rop_if_source_match : option ETag;
  rop_client_token : option string;
  rop_custom_headers : list (string * string);
}.

Definition etag_differs (expected : option ETag) (object : option MockObject) : bool :=
  match expected, object with
  | Some etag, Some object => negb (bool_decide (etag = mo_etag object))
  | _, _ => false
  end.
Definition mock_rename_object mc (bucket src_key dst_key : str) (params : RenameObjectParams) : MockClient * outcome RenameObjectError unit :=
  let mc := inc_op_count mc OpRenameObject in
  if negb (mcc_enable_rename (mc_config mc)) then (mc, Err RenameErrNotImplemented)
  else if negb (bool_decide (bucket = mcc_bucket (mc_config mc))) then (mc, Err RenameErrNoSuchBucket)
  else if (1024 <? length dst_key)%nat then (mc, Err RenameErrKeyTooLong)
  else
    let objects := mc_objects mc in
    if bool_decide (is_Some (objects !! dst_key)) && bool_decide (rop_if_none_match params = Some "*")
    then (mc, Err (RenameErrPreConditionFailed IfNoneMatch))
    else if etag_differs (rop_if_match params) (objects !! dst_key) then (mc, Err (RenameErrPreConditionFailed IfMatch))
    else if etag_differs (rop_if_source_match params) (objects !! src_key) then (mc, Err (RenameErrPreConditionFailed IfMatch))
    else
      match objects !! src_key with
      | None => (mc, Err RenameErrKeyNotFound)
      | Some removed => (mc_with_objects mc (<[dst_key := removed]> (delete src_key objects)), Ok tt)
      end.

Record ObjectPart := { opt_checksum : option Checksum; opt_part_number : Z; opt_size : Z }.
Record GetObjectAttributesParts := {
  gap_is_truncated : option bool;
  gap_max_parts : option Z;
  gap_next_part_number_marker : option Z;
  gap_part_number_marker : option Z;
  gap_parts : option (list ObjectPart);
  gap_total_parts_count : option Z;
}.
Record GetObjectAttributesResult := {
  gar_etag : option string;
  gar_checksum : option Checksum;
  gar_object_parts : option GetObjectAttributesParts;
  gar_storage_class : option string;
  gar_object_size : option Z;
}.
Inductive ObjectAttribute := AttrETag | AttrChecksum | AttrObjectParts | AttrStorageClass | AttrObjectSize.
Definition attribute_parts (parts : option MockObjectParts) : option GetObjectAttributesParts :=
  match parts with
  | None => None
  | Some (PartsCount num_parts) =>
      Some {| gap_is_truncated := None; gap_max_parts := None; gap_next_part_number_marker := None; gap_part_number_marker := None;
              gap_parts := None; gap_total_parts_count := Some num_parts |}
  | Some (PartsList parts) =>
      Some {| gap_is_truncated := Some false; gap_max_parts := Some 10000; gap_next_part_number_marker := Some (zlen parts);
              gap_part_number_marker := Some 0;
              gap_parts := Some (imap (λ i part,
                {| opt_checksum := Some {| cs_crc64nvme := None; cs_crc32 := None; cs_crc32c := mop_checksum part; cs_sha1 := None; cs_sha256 := None |};
                   opt_part_number := Z.of_nat i + 1; opt_size := mop_size part |}) parts);
              gap_total_parts_count := Some (zlen parts) |}
  end.
Definition get_attribute (object : MockObject) (result : GetObjectAttributesResult) (attribute : ObjectAttribute) : GetObjectAttributesResult :=
  let set etag checksum parts storage_class size :=
    {| gar_etag := etag; gar_checksum := checksum; gar_object_parts := parts; gar_storage_class := storage_class; gar_object_size := size |} in
  let '(Build_GetObjectAttributesResult etag checksum parts storage_class size) := result in
  match attribute with
  | AttrETag => set (Some (mo_etag object)) checksum parts storage_class size
  | AttrChecksum => set etag (Some (mo_checksum object)) parts storage_class size
  | AttrObjectParts => set etag checksum (attribute_parts (mo_parts object)) storage_class size
  | AttrStorageClass => set etag checksum parts (mo_storage_class object) size
  | AttrObjectSize => set etag checksum parts storage_class (Some (mo_size object))
  end.
Inductive GetObjectAttributesError := AttrNoSuchBucket | AttrNoSuchKey.
Definition mock_get_object_attributes mc (bucket key : str) (object_attributes : list ObjectAttribute)
    : MockClient * (GetObjectAttributesError + GetObjectAttributesResult) :=
  let mc := inc_op_count mc OpGetObjectAttributes in
  (mc,
   if negb (bool_decide (bucket = mcc_bucket (mc_config mc))) then inl AttrNoSuchBucket
   else
     match mc_objects mc !! key with
     | None => inl AttrNoSuchKey
     | Some object =>
         inr (foldl (get_attribute object)
           {| gar_etag := None; gar_checksum := None; gar_object_parts := None; gar_storage_class := None; gar_object_size := None |}
           object_attributes)
     end).
