(* ===== verification/MockListing.v ===== *)
(** * Listings of the mock, page by page

    ListObjectsV2 returns at most [max_keys] objects and common prefixes at a time, and a token for the rest.  The mock
    keeps going over the keys of a common prefix when a page is full, so that it is not returned twice.  Whatever the
    size of the pages, together they are the listing: every object directly below the prefix once and in order, and
    every common prefix once.  With this, the directory listing of the file system shows the names of the bucket. *)

From S2P Require Import Prelude Checksums NegativeCache Path HandlesMap S3Path Inode Superblock SuperblockInv Readdir ReaddirInv SuperblockConc SuperblockOps ReaddirSpec MockClient.
Local Open Scope Z_scope.

(** ** Strings and their prefixes *)

Lemma starts_with_spec s p : starts_with s p = true ↔ p `prefix_of` s.
Proof. unfold starts_with. by rewrite bool_decide_eq_true. Qed.

Lemma str_compare_app_gt a b x y : str_compare a b = Gt → ¬ b `prefix_of` a → str_compare (a ++ x) (b ++ y) = Gt.
Proof.
  revert b. induction a as [|c a IH]; intros [|d b]; simpl; [done|done|intros _ Hn; destruct Hn; apply prefix_nil|].
  destruct (N.compare _ _) eqn:Hc; [|done|done]. intros Hg Hn. apply IH; [done|]. intros Hp. apply Hn. apply N.compare_eq_iff in Hc.
  rewrite <-(Strings.Ascii.ascii_N_embedding c), Hc, Strings.Ascii.ascii_N_embedding. by apply prefix_cons.
Qed.
Lemma str_lt_app a b x y : str_lt a b → ¬ a `prefix_of` b → str_lt (a ++ x) (b ++ y).
Proof.
  unfold str_lt. intros Hlt Hn. rewrite str_compare_antisym, (str_compare_app_gt b a y x); [done| |done].
  by rewrite str_compare_antisym, Hlt.
Qed.
Lemma str_lt_prefix a x : x ≠ [] → str_lt a (a ++ x).
Proof. unfold str_lt. intros Hx. induction a as [|c a IH]; simpl; [by destruct x|]. by rewrite N.compare_refl. Qed.
Lemma str_lt_irrefl a : ¬ str_lt a a.
Proof. unfold str_lt. by rewrite str_compare_refl. Qed.
Lemma str_le_lt a b : str_le a b ↔ a = b ∨ str_lt a b.
Proof. unfold str_le, str_lt. rewrite <-str_compare_eq. destruct (str_compare a b); naive_solver. Qed.
#[export] Instance str_le_trans : Transitive str_le.
Proof. intros a b c. rewrite !str_le_lt. intros [->|H1] [->|H2]; auto. right. by trans b. Qed.
#[export] Instance str_le_total : Total str_le.
Proof. intros a b. unfold str_le. rewrite (str_compare_antisym a b). destruct (str_compare a b); naive_solver. Qed.

(** What lies between two strings that start with [p] starts with [p]. *)
Lemma prefix_between p a b c : p `prefix_of` a → p `prefix_of` c → str_lt a b → str_le b c → p `prefix_of` b.
Proof.
  intros [x ->] [y ->] Hab Hbc. destruct (decide (p `prefix_of` b)) as [|Hn]; [done|exfalso].
  destruct (str_compare b p) eqn:Hc.
  - apply str_compare_eq in Hc as ->. by apply Hn.
  - destruct (decide (b `prefix_of` p)) as [[z ->]|Hb].
    + destruct z as [|c z]; [rewrite app_nil_r in Hn; by apply Hn|]. rewrite <-app_assoc in Hab.
      apply (str_lt_irrefl b). trans (b ++ (c :: z) ++ x); [by apply str_lt_prefix|done].
    + apply (str_lt_irrefl b). trans (p ++ x); [|done]. pose proof (str_lt_app b p [] x Hc Hb) as H. by rewrite app_nil_r in H.
  - apply Hbc. pose proof (str_compare_app_gt b p [] y Hc Hn) as H. by rewrite app_nil_r in H.
Qed.

(** ** UTF-8 *)

Definition continuation_bytes (c : Strings.Ascii.ascii) : nat :=
  let n := Strings.Ascii.nat_of_ascii c in
  if (n <? 192)%nat then 0 else if (n <? 224)%nat then 1 else if (n <? 240)%nat then 2 else 3.
(** Strings of whole characters, as all Rust strings are. *)
Inductive utf8 : str → Prop :=
| utf8_nil : utf8 []
| utf8_char c conts s :
    continues c = false → Forall (λ c, continues c = true) conts → length conts = continuation_bytes c → utf8 s → utf8 (c :: conts ++ s).

Lemma utf8_app_inv p r : utf8 p → utf8 (p ++ r) → utf8 r.
Proof.
  induction 1 as [|c conts s Hc Hconts Hlen _ IH]; [done|]. simpl. rewrite <-app_assoc. intros Hu. apply IH.
  remember (c :: conts ++ s ++ r) as whole eqn:Hw. destruct Hu as [|c' conts' s' Hc' Hconts' Hlen' Hs']; [done|].
  injection Hw as -> Heq. apply app_inj_1 in Heq as [_ ->]; [done|lia].
Qed.
Lemma chars_take_utf8 p r : utf8 p → utf8 r → chars_take (chars_count p) (p ++ r) = p.
Proof.
  intros Hp Hr. assert (∀ n conts s, Forall (λ c, continues c = true) conts → chars_take n (conts ++ s) = conts ++ chars_take n s) as Hconts.
  { intros n conts s. induction 1 as [|c conts Hc _ IH]; [done|]. simpl. by rewrite Hc, IH. }
  induction Hp as [|c conts s Hc Hcs Hlen Hs IH].
  - simpl. destruct Hr as [|c conts s Hc]; [done|]. simpl. by rewrite Hc.
  - assert (chars_count (c :: conts ++ s) = S (chars_count s)) as ->.
    { unfold chars_count. rewrite filter_cons_True, list.filter_app by done. simpl. f_equal. rewrite length_app.
      assert (filter (λ c, continues c = false) conts = []) as ->; [|done].
      clear -Hcs. induction Hcs as [|x l Hx _ IH]; [done|]. rewrite filter_cons_False by congruence. done. }
    simpl. rewrite Hc, <-app_assoc, Hconts, IH by done. done.
Qed.
Lemma chars_skip_utf8 p r : utf8 p → utf8 r → chars_skip (chars_count p) (p ++ r) = r.
Proof. intros Hp Hr. unfold chars_skip. by rewrite chars_take_utf8, drop_app_length by done. Qed.

(** Taking more characters than there are. *)
Lemma chars_take_prefix n s : chars_take n s `prefix_of` s.
Proof.
  revert n. induction s as [|c s IH]; intros n; simpl; [done|]. destruct (continues c); [by apply prefix_cons|]. destruct n; [apply prefix_nil|by apply prefix_cons].
Qed.

(** The comparison that ends the loop: from here on, no key starts with [prefix]. *)
Lemma stop_spec prefix key key' :
  utf8 prefix → utf8 key → str_le key key' →
  str_compare (if (chars_count prefix <=? chars_count key)%nat then chars_take (chars_count prefix) key else key) prefix = Gt →
  ¬ prefix `prefix_of` key'.
Proof.
  intros Hp Hk Hle Hgt [r ->]. set (kp := if (_ <=? _)%nat then _ else key) in Hgt.
  assert (kp `prefix_of` key) as [x Hx] by (unfold kp; destruct (_ <=? _)%nat; [apply chars_take_prefix|done]).
  assert (¬ prefix `prefix_of` kp) as Hn.
  { intros Hpk. assert (prefix `prefix_of` key) as [r' Hr'] by (etrans; [done|by exists x]).
    assert (utf8 r') as Hr'u by (apply (utf8_app_inv prefix); [done|by rewrite <-Hr']).
    assert (kp = prefix) as Heq; [|rewrite Heq, str_compare_refl in Hgt; done].
    unfold kp. assert (chars_count prefix ≤ chars_count key)%nat as Hle'.
    { rewrite Hr'. unfold chars_count. rewrite list.filter_app, length_app. lia. }
    rewrite (proj2 (Nat.leb_le _ _) Hle'), Hr'. by apply chars_take_utf8. }
  apply Hle. rewrite Hx. by apply str_compare_app_gt.
Qed.

(** ** Common prefixes *)

Lemma strip_prefix_app d u y : (length d ≤ length u)%nat → strip_prefix d u = None → strip_prefix d (u ++ y) = None.
Proof.
  revert u. induction d as [|c d IH]; intros [|x u]; simpl; [done|done|lia|]. intros Hl. case_bool_decide; [|done]. apply IH. lia.
Qed.
(** Only what is up to the delimiter matters. *)
Lemma split_once_str_spec d s pre after :
  split_once_str d s = Some (pre, after) → s = pre ++ d ++ after ∧ ∀ y, split_once_str d (pre ++ d ++ y) = Some (pre, y).
Proof.
  revert pre. induction s as [|c s IH]; intros pre; simpl.
  - destruct (strip_prefix d []) as [r|] eqn:Hs; [|done]. intros [= <- <-]. apply strip_prefix_spec in Hs. split; [done|].
    intros y. simpl. assert (strip_prefix d (d ++ y) = Some y) as Hy by (by apply strip_prefix_spec). by destruct (d ++ y) eqn:Hdy; simpl; rewrite Hy.
  - destruct (strip_prefix d (c :: s)) as [r|] eqn:Hs.
    + intros [= <- <-]. apply strip_prefix_spec in Hs. split; [done|]. intros y.
      assert (strip_prefix d (d ++ y) = Some y) as Hy by (by apply strip_prefix_spec). by destruct (d ++ y) eqn:Hdy; simpl; rewrite Hy.
    + destruct (split_once_str d s) as [[b a]|] eqn:Hso; [|done]. intros [= <- <-]. destruct (IH b eq_refl) as [-> IHy]. split; [done|].
      intros y. simpl. change (c :: b ++ d ++ y) with ((c :: b) ++ d ++ y). rewrite app_assoc, strip_prefix_app; [simpl; by rewrite IHy| |].
      * rewrite length_app. simpl. lia.
      * change (c :: b ++ d ++ a) with ((c :: b) ++ d ++ a) in Hs. rewrite app_assoc in Hs.
        destruct (strip_prefix d ((c :: b) ++ d)) as [r|] eqn:Hr; [|done]. apply strip_prefix_spec in Hr. rewrite Hr, <-app_assoc in Hs.
        assert (strip_prefix d (d ++ r ++ a) = Some (r ++ a)) by (by apply strip_prefix_spec). congruence.
Qed.

Section listing.
Context (delim : option str) (max_keys : Z) (prefix : str) (Hprefix : utf8 prefix).

(** The common prefix of a key below [prefix]; without one, the key is listed itself. *)
Definition rolls (key : str) : option str := common_prefix_of delim prefix (drop (length prefix) key).
Abbreviation below key := (prefix `prefix_of` key).

Lemma rolls_spec key p : below key → rolls key = Some p →
  p `prefix_of` key ∧ prefix `prefix_of` p ∧ ∀ key', p `prefix_of` key' → below key' ∧ rolls key' = Some p.
Proof using Type.
  intros [rest ->]. unfold rolls, common_prefix_of. destruct delim as [d|]; [|done]. rewrite drop_app_length.
  destruct (split_once_str d rest) as [[pre after]|] eqn:Hs; [|done]. intros [= <-]. apply split_once_str_spec in Hs as [-> Hy].
  split; [exists after; by rewrite <-!app_assoc|]. split; [by eexists|]. intros key' [y ->]. split; [exists ((pre ++ d) ++ y); by rewrite <-!app_assoc|].
  rewrite <-!app_assoc, drop_app_length, Hy. done.
Qed.
Lemma rolls_order k1 k2 p q : below k1 → below k2 → rolls k1 = Some p → rolls k2 = Some q → str_lt k1 k2 → p = q ∨ str_lt p q.
Proof using Type.
  intros Hb1 Hb2 H1 H2 Hlt. destruct (rolls_spec k1 p Hb1 H1) as ([x ->] & _ & Hp), (rolls_spec k2 q Hb2 H2) as ([y ->] & _ & Hq).
  destruct (str_compare p q) eqn:Hc; [left; by apply str_compare_eq|by right|left].
  destruct (decide (q `prefix_of` p)) as [[z ->]|Hn].
  - destruct (Hq ((q ++ z) ++ x)) as [_ Hr]; [exists (z ++ x); by rewrite app_assoc|]. congruence.
  - apply (str_compare_app_gt p q x y) in Hc; [|done]. unfold str_lt in Hlt. congruence.
Qed.
Lemma rolls_between k1 k2 k3 p :
  below k1 → rolls k1 = Some p → str_lt k1 k2 → str_le k2 k3 → below k3 → rolls k3 = Some p → below k2 ∧ rolls k2 = Some p ∧ p `prefix_of` k2.
Proof using Type.
  intros Hb1 H1 H12 H23 Hb3 H3. destruct (rolls_spec k1 p Hb1 H1) as (Hp1 & _ & Hp), (rolls_spec k3 p Hb3 H3) as (Hp3 & _ & _).
  pose proof (prefix_between p k1 k2 k3 Hp1 Hp3 H12 H23) as Hp2. destruct (Hp k2 Hp2). done.
Qed.

(** What the entries of a list add to a listing. *)
Definition info_of (kv : str * MockObject) : option ObjectInfo :=
  if bool_decide (below kv.1) && bool_decide (rolls kv.1 = None) then Some (object_info kv.1 kv.2) else None.
Definition rolled_in (p : str) (entries : list (str * MockObject)) : Prop := ∃ kv, kv ∈ entries ∧ below kv.1 ∧ rolls kv.1 = Some p.
Abbreviation key_lt := (λ a b : str * MockObject, str_lt a.1 b.1).

Record loop_inv (entries : list (str * MockObject)) (cp : gset str) (cur : option str) : Prop := {
  li_seen p : p ∈ cp → ∃ k0, below k0 ∧ rolls k0 = Some p ∧ Forall (λ kv, str_lt k0 kv.1) entries;
  li_current p : rolled_in p entries → p ∈ cp → cur = Some p;
  li_in p : cur = Some p → p ∈ cp;
}.
Definition key_count (cp : gset str) (ov : list ObjectInfo) : Z := Z.of_nat (size cp) + zlen ov.

(** A page: the entries that it covers, what it lists of them, and where the next one starts. *)
Record page_of (entries : list (str * MockObject)) (cp : gset str) (ov : list ObjectInfo) (cp' : gset str) (ov' : list ObjectInfo)
    (next : option str) : Prop := {
  po_entries : ∃ done rest, entries = done ++ rest ∧ ov' = ov ++ omap info_of done ∧ (∀ p, p ∈ cp' ↔ p ∈ cp ∨ rolled_in p done) ∧
    match next with
    | None => rest = []
    | Some key => ∃ o rest', rest = (key, o) :: rest' ∧ ∀ p, rolled_in p rest → p ∉ cp'
    end;
  po_count : key_count cp' ov' ≤ Z.max max_keys (key_count cp ov);
  po_full : next ≠ None → max_keys ≤ key_count cp' ov';
}.

Lemma rolled_in_cons p kv entries : rolled_in p (kv :: entries) ↔ (below kv.1 ∧ rolls kv.1 = Some p) ∨ rolled_in p entries.
Proof using Type. unfold rolled_in. setoid_rewrite elem_of_cons. naive_solver. Qed.
Lemma loop_inv_tail kv entries cp cur : loop_inv (kv :: entries) cp cur → loop_inv entries cp cur.
Proof using Type.
  intros [Hs Hc Hi]. split; [|intros p Hr; apply Hc; rewrite rolled_in_cons; by right|done].
  intros p Hp. destruct (Hs p Hp) as (k0 & ? & ? & Hf). exists k0. inv Hf. done.
Qed.

(** One entry that the loop goes over. *)
Lemma page_step kv entries cp ov cp1 ov1 cp' ov' next :
  page_of entries cp1 ov1 cp' ov' next →
  ov1 = ov ++ (match info_of kv with Some i => [i] | None => [] end) → (∀ p, p ∈ cp1 ↔ p ∈ cp ∨ (below kv.1 ∧ rolls kv.1 = Some p)) →
  key_count cp1 ov1 ≤ Z.max max_keys (key_count cp ov) → page_of (kv :: entries) cp ov cp' ov' next.
Proof using Type.
  intros [(dn & rest & -> & -> & Hcp' & Hnext) Hc Hf] -> Hcp1 Hcount. split; [|lia|done].
  exists (kv :: dn), rest. split; [done|]. split; [rewrite <-app_assoc; f_equal; simpl; by destruct (info_of kv)|]. split; [|done].
  intros p. rewrite Hcp', Hcp1, rolled_in_cons. tauto.
Qed.

(** An entry of a common prefix that is listed already, an entry that is not below [prefix], and a last page. *)
Lemma page_again kv entries cp ov cp' ov' next p :
  rolls kv.1 = Some p → p ∈ cp → page_of entries cp ov cp' ov' next → page_of (kv :: entries) cp ov cp' ov' next.
Proof using Type.
  intros Hr Hp Hpage. eapply page_step; [done| | |lia].
  - unfold info_of. rewrite Hr, (bool_decide_eq_false_2 (Some p = None)), andb_false_r by done. by rewrite app_nil_r.
  - intros q. split; [by left|]. intros [?|[_ Hq]]; [done|]. by simplify_eq.
Qed.
Lemma page_other kv entries cp ov cp' ov' next : ¬ below kv.1 → page_of entries cp ov cp' ov' next → page_of (kv :: entries) cp ov cp' ov' next.
Proof using Type.
  intros Hb Hpage. eapply page_step; [done| | |lia].
  - unfold info_of. by rewrite bool_decide_eq_false_2, app_nil_r.
  - naive_solver.
Qed.
Lemma page_last entries cp ov : (∀ kv, kv ∈ entries → ¬ below kv.1) → page_of entries cp ov cp ov None.
Proof using Type.
  induction entries as [|kv entries IH]; intros Hno; [|apply page_other; [apply Hno; left|apply IH; intros kv' Hin; apply Hno; by right]].
  split; [|lia|done]. exists [], []. ands; try done; [by rewrite app_nil_r|]. intros p. split; [by left|].
  intros [?|(kv & Hin & _)]; [done|]. by apply not_elem_of_nil in Hin.
Qed.

Section head.
Context (key : str) (o : MockObject) (entries : list (str * MockObject)) (cp : gset str) (cur : option str).
Context (Hinv : loop_inv ((key, o) :: entries) cp cur) (Hge : ∀ kv, kv ∈ (key, o) :: entries → str_le key kv.1).
Set Default Proof Using "Type*".

Lemma inv_between p kv : p ∈ cp → kv ∈ (key, o) :: entries → below kv.1 → rolls kv.1 = Some p → rolls key = Some p ∧ p `prefix_of` key.
Proof using Hinv Hge.
  intros Hp Hin Hb Hr. destruct (li_seen _ _ _ Hinv p Hp) as (k0 & Hb0 & Hr0 & Hlt0). inv Hlt0 as [|? ? Hk0 _].
  by destruct (rolls_between k0 key kv.1 p Hb0 Hr0 Hk0 (Hge kv Hin) Hb Hr) as (_ & ? & ?).
Qed.
Lemma inv_skip ccp : cur = Some ccp → ccp `prefix_of` key → rolls key = Some ccp ∧ ccp ∈ cp.
Proof using Hinv.
  intros Hcur Hs. pose proof (li_in _ _ _ Hinv ccp Hcur) as Hin. destruct (li_seen _ _ _ Hinv ccp Hin) as (k0 & Hb0 & Hr0 & _).
  destruct (rolls_spec k0 ccp Hb0 Hr0) as (_ & _ & Hr). by destruct (Hr key Hs).
Qed.
Lemma inv_stop ov : (∀ ccp, cur = Some ccp → ¬ ccp `prefix_of` key) → max_keys ≤ key_count cp ov → page_of ((key, o) :: entries) cp ov cp ov (Some key).
Proof using Hinv Hge.
  intros Hno Hfull. split; [|lia|done]. exists [], ((key, o) :: entries). ands; [done|by rewrite app_nil_r| |].
  - intros p. split; [by left|]. intros [?|(kv & Hin & _)]; [done|]. by apply not_elem_of_nil in Hin.
  - exists o, entries. split; [done|]. intros p Hrolled Hp. pose proof (li_current _ _ _ Hinv p Hrolled Hp) as Hcur.
    destruct Hrolled as (kv & Hin & Hb & Hr). destruct (inv_between p kv Hp Hin Hb Hr) as [_ Hpk]. by apply (Hno p Hcur).
Qed.
Lemma inv_add p : Forall (λ kv, str_lt key kv.1) entries → below key → rolls key = Some p → p ∉ cp → loop_inv entries ({[ p ]} ∪ cp) (Some p).
Proof using Hinv Hge.
  intros Hlt Hb Hr Hp. pose proof (loop_inv_tail _ _ _ _ Hinv) as Hinv'. split.
  - intros q [->%elem_of_singleton|Hq]%elem_of_union; [by exists key|]. by apply (li_seen _ _ _ Hinv').
  - intros q (kv & Hin & Hbk & Hrk) [->%elem_of_singleton|Hq]%elem_of_union; [done|]. exfalso.
    destruct (inv_between q kv Hq ltac:(by right) Hbk Hrk) as [Hrq _]. congruence.
  - intros q [= <-]. apply elem_of_union. left. by apply elem_of_singleton.
Qed.
End head.

Lemma list_loop_spec entries cp ov cur cp' ov' next :
  StronglySorted key_lt entries → Forall (λ kv, utf8 kv.1) entries → loop_inv entries cp cur →
  list_loop delim max_keys prefix entries cp ov cur = (cp', ov', next) → page_of entries cp ov cp' ov' next.
Proof using Hprefix.
  intros Hs Hu. revert cp ov cur. induction Hs as [|[key o] entries Hs IH Hlt]; intros cp ov cur Hinv; simpl.
  { intros [= <- <- <-]. apply page_last. by intros kv Hin%not_elem_of_nil. }
  inv Hu as [|? ? Hkey Hu']. pose proof (loop_inv_tail _ _ _ _ Hinv) as Hinv'. specialize (IH Hu'). simpl in Hkey.
  assert (∀ kv, kv ∈ (key, o) :: entries → str_le key kv.1) as Hge.
  { intros kv [->|Hin]%elem_of_cons; apply str_le_lt; [by left|right]. rewrite list.Forall_forall in Hlt. by apply Hlt. }
  case_bool_decide as Hstop; [intros [= <- <- <-]; apply page_last; intros kv Hin; by eapply stop_spec; [..|apply Hge|]|].
  destruct (starts_with key prefix) eqn:Hsw; simpl; [apply starts_with_spec in Hsw|].
  2:{ intros Hl. apply page_other; [|by eapply IH]. intros Hb. apply starts_with_spec in Hb. simpl in Hb. congruence. }
  destruct (Z.leb_spec max_keys (Z.of_nat (size cp) + zlen ov)) as [Hfull|Hroom].
  - destruct cur as [ccp|]; [destruct (starts_with key ccp) eqn:Hccp|].
    + intros Hl. apply starts_with_spec in Hccp. destruct (inv_skip _ _ _ _ _ Hinv ccp eq_refl Hccp) as [Hr Hin]. by eapply page_again; [..|by eapply IH].
    + intros [= <- <- <-]. apply (inv_stop key o entries cp (Some ccp) Hinv Hge); [|done]. intros ? [= <-] Hp. apply starts_with_spec in Hp. congruence.
    + intros [= <- <- <-]. by apply (inv_stop key o entries cp None Hinv Hge).
  - destruct Hsw as [rest Hkr]. assert (utf8 rest) as Hrest by (apply (utf8_app_inv prefix); [done|by rewrite <-Hkr]).
    assert (below key) as Hb by (by exists rest).
    assert (common_prefix_of delim prefix (chars_skip (chars_count prefix) key) = rolls key) as ->.
    { unfold rolls. by rewrite Hkr, chars_skip_utf8, drop_app_length by done. }
    destruct (rolls key) as [p|] eqn:Hr; [case_bool_decide as Hp|].
    + intros Hl. by eapply page_again; [..|by eapply IH].
    + intros Hl. eapply page_step; [by eapply IH; [apply (inv_add key o entries cp cur Hinv Hge)|]| | |].
      * unfold info_of. simpl. rewrite Hr, (bool_decide_eq_false_2 (Some p = None)), andb_false_r by done. by rewrite app_nil_r.
      * intros q. rewrite elem_of_union, elem_of_singleton. simpl. naive_solver.
      * unfold key_count. rewrite size_union, size_singleton by set_solver. lia.
    + intros Hl. eapply page_step; [by eapply IH| | |].
      * unfold info_of. simpl. by rewrite !bool_decide_eq_true_2.
      * intros q. split; [by left|]. intros [?|[_ Hq]]; [done|simpl in Hq; congruence].
      * unfold key_count. rewrite zlen_app, zlen_cons, zlen_nil. lia.
Qed.
End listing.

(** ** All pages *)

Lemma sorted_strict {A} (f : A → str) (l : list A) : StronglySorted (λ a b, str_le (f a) (f b)) l → NoDup (map f l) → StronglySorted (λ a b, str_lt (f a) (f b)) l.
Proof.
  induction 1 as [|x l Hs IH Hx]; simpl; intros Hnd; [constructor|]. apply list.NoDup_cons in Hnd as [Hni Hnd]. constructor; [by apply IH|].
  rewrite list.Forall_forall in *. intros y Hy. specialize (Hx y Hy). apply str_le_lt in Hx as [Heq|]; [|done].
  destruct Hni. rewrite Heq. apply list_elem_of_fmap. by exists y.
Qed.
#[export] Instance key_le_trans {A} : Transitive (key_le (A:=A)).
Proof. intros a b c. unfold key_le. apply str_le_trans. Qed.
#[export] Instance key_le_total {A} : Total (key_le (A:=A)).
Proof. intros a b. unfold key_le. apply str_le_total. Qed.

Lemma sorted_objects_sorted objects : StronglySorted (λ a b : str * MockObject, str_lt a.1 b.1) (sorted_objects objects).
Proof.
  unfold sorted_objects. apply (sorted_strict fst).
  - apply Sorted_StronglySorted; [intros a b c; apply str_le_trans|]. apply (stable_sort_sorted key_le).
  - eapply (NoDup_Permutation_proper _ (map fst (map_to_list objects))); [apply Permutation_map, stable_sort_perm|]. apply NoDup_fst_map_to_list.
Qed.
Lemma sorted_objects_elem objects key o : (key, o) ∈ sorted_objects objects ↔ objects !! key = Some o.
Proof. unfold sorted_objects. rewrite stable_sort_perm. apply elem_of_map_to_list. Qed.
Lemma str_le_nil s : str_le [] s.
Proof. unfold str_le. by destruct s. Qed.
Lemma filter_all {A} (P : A → Prop) `{!∀ x, Decision (P x)} l : Forall P l → filter P l = l.
Proof. induction 1 as [|x l Hx _ IH]; [done|]. by rewrite filter_cons_True, IH by done. Qed.
Lemma filter_none {A} (P : A → Prop) `{!∀ x, Decision (P x)} l : Forall (λ x, ¬ P x) l → filter P l = [].
Proof. induction 1 as [|x l Hx _ IH]; [done|]. by rewrite filter_cons_False, IH by done. Qed.
Lemma object_range_start objects : object_range objects [] = sorted_objects objects.
Proof. unfold object_range. apply filter_all, list.Forall_forall. intros kv _. apply str_le_nil. Qed.
Lemma strongly_sorted_app {A} (R : A → A → Prop) l1 l2 :
  StronglySorted R (l1 ++ l2) ↔ StronglySorted R l1 ∧ StronglySorted R l2 ∧ ∀ x y, x ∈ l1 → y ∈ l2 → R x y.
Proof.
  induction l1 as [|x l1 IH]; simpl.
  - split; [intros H; split; [constructor|split; [done|]]; intros ? ? Hx; by apply not_elem_of_nil in Hx|tauto].
  - split.
    + intros Hs. inv Hs as [|? ? Hs' Hx]. apply IH in Hs' as (H1 & H2 & H12). apply Forall_app in Hx as [Hx1 Hx2]. split; [by constructor|]. split; [done|].
      intros a b [->|Ha]%elem_of_cons Hb; [|by apply H12]. rewrite list.Forall_forall in Hx2. by apply Hx2.
    + intros (H1 & H2 & H12). inv H1 as [|? ? H1' Hx]. constructor; [apply IH; split; [done|split; [done|]]; intros a b Ha; apply H12; by right|].
      apply Forall_app. split; [done|]. apply list.Forall_forall. intros b Hb. apply H12; [left|done].
Qed.
(** The entries from the key of one of them on. *)
Lemma object_range_from objects before key o rest :
  sorted_objects objects = before ++ (key, o) :: rest → object_range objects key = (key, o) :: rest.
Proof.
  intros Heq. pose proof (sorted_objects_sorted objects) as Hs. rewrite Heq in Hs. apply strongly_sorted_app in Hs as (_ & Hs & Hlt).
  unfold object_range. rewrite Heq, list.filter_app, filter_none, filter_all; [done| |].
  - inv Hs as [|? ? _ Hx]. constructor; [apply str_le_lt; by left|]. eapply Forall_impl; [|exact Hx]. intros kv Hkv. apply str_le_lt. by right.
  - apply list.Forall_forall. intros kv Hin Hle. specialize (Hlt kv (key, o) Hin ltac:(left)). simpl in *. unfold str_le, str_lt in *.
    by rewrite str_compare_antisym, Hlt in Hle.
Qed.

(** The pages of a listing, one request after the other. *)
Fixpoint mock_pages (fuel : nat) (mc : MockClient) (continuation_token : option string) (delimiter : str) (max_keys : Z) (prefix : str)
    : option (list ListObjectsResult) :=
  match fuel with
  | O => None
  | S fuel =>
      let page := list_objects_ordered mc continuation_token delimiter max_keys prefix in
      match lo_next_continuation_token page with
      | None => Some [page]
      | Some token => pages ← mock_pages fuel mc (Some token) delimiter max_keys prefix; Some (page :: pages)
      end
  end.

Section pages.
Context (mc : MockClient) (delimiter : str) (max_keys : Z) (prefix : str).
Context (Hkeys : ∀ key, is_Some (mc_objects mc !! key) → utf8 key) (Hprefix : utf8 prefix) (Hmax : 0 < max_keys).
Set Default Proof Using "All".
Definition entries_of (token : option string) : list (str * MockObject) :=
  object_range (mc_objects mc) (match token with Some token => str_of token | None => [] end).
Local Abbreviation rolled p l := (rolled_in (non_empty delimiter) prefix p l).

(** One page. *)
Lemma one_page token before entries :
  sorted_objects (mc_objects mc) = before ++ entries → entries_of token = entries →
  let page := list_objects_ordered mc token delimiter max_keys prefix in
  ∃ dn rest, entries = dn ++ rest ∧ lo_objects page = omap (info_of (non_empty delimiter) prefix) dn ∧
    StronglySorted str_lt (lo_common_prefixes page) ∧ (∀ p, p ∈ lo_common_prefixes page ↔ rolled p dn) ∧
    zlen (lo_common_prefixes page) + zlen (lo_objects page) ≤ max_keys ∧
    match lo_next_continuation_token page with
    | None => rest = []
    | Some token => dn ≠ [] ∧ entries_of (Some token) = rest ∧ ∀ p, rolled p rest → ¬ rolled p dn
    end.
Proof.
  intros Hsorted Hent page. unfold page, list_objects_ordered. fold (entries_of token). rewrite Hent.
  destruct (list_loop (non_empty delimiter) max_keys prefix entries ∅ [] None) as [[cp ov] next] eqn:Hloop. simpl.
  pose proof (sorted_objects_sorted (mc_objects mc)) as Hs. rewrite Hsorted in Hs. apply strongly_sorted_app in Hs as (_ & Hs & _).
  assert (Forall (λ kv, utf8 kv.1) entries) as Hu.
  { apply list.Forall_forall. intros [key o] Hin. apply Hkeys. exists o. apply sorted_objects_elem. rewrite Hsorted. apply elem_of_app. by right. }
  assert (loop_inv (non_empty delimiter) prefix entries ∅ None) as Hinv by (split; set_solver).
  destruct (list_loop_spec _ _ _ Hprefix _ _ _ _ _ _ _ Hs Hu Hinv Hloop) as [(dn & rest & Heq & Hov & Hcp & Hnext) Hcount Hfull].
  assert (∀ p, p ∈ cp ↔ rolled p dn) as Hcp' by (intros p; rewrite Hcp; set_solver).
  assert (zlen (stable_sort str_le (elements cp)) = Z.of_nat (size cp)) as Hlen by (unfold zlen; by rewrite stable_sort_perm).
  exists dn, rest. split; [done|]. split; [done|]. split; [|split; [|split; [|]]].
  - apply (sorted_strict id).
    + apply Sorted_StronglySorted; [intros a b c; apply str_le_trans|]. apply (stable_sort_sorted str_le).
    + rewrite map_id, stable_sort_perm. apply NoDup_elements.
  - intros p. rewrite stable_sort_perm, elem_of_elements. apply Hcp'.
  - rewrite Hlen. unfold key_count in Hcount. rewrite size_empty in Hcount. unfold zlen in *. simpl in Hcount. lia.
  - destruct next as [key|]; simpl; [|done]. destruct Hnext as (o & rest' & -> & Hdisj). unfold entries_of, str_of.
    rewrite Strings.String.list_ascii_of_string_of_list_ascii. split; [|split].
    + intros ->. specialize (Hfull ltac:(done)). unfold key_count in Hfull. simpl in Hov. rewrite Hov in Hfull.
      assert (cp = ∅) as -> by (apply set_eq; intros p; rewrite Hcp'; split; [intros (kv & Hin & _); by apply not_elem_of_nil in Hin|set_solver]).
      rewrite size_empty in Hfull. unfold zlen in Hfull. simpl in Hfull. lia.
    + eapply (object_range_from _ (before ++ dn)). by rewrite Hsorted, Heq, app_assoc.
    + intros p Hp. rewrite <-Hcp'. by apply Hdisj.
Qed.

Lemma all_pages fuel token before entries :
  sorted_objects (mc_objects mc) = before ++ entries → entries_of token = entries → (length entries < fuel)%nat →
  ∃ pages, mock_pages fuel mc token delimiter max_keys prefix = Some pages ∧
    concat (map lo_objects pages) = omap (info_of (non_empty delimiter) prefix) entries ∧
    StronglySorted str_lt (concat (map lo_common_prefixes pages)) ∧
    (∀ p, p ∈ concat (map lo_common_prefixes pages) ↔ rolled p entries) ∧
    Forall (λ page, zlen (lo_common_prefixes page) + zlen (lo_objects page) ≤ max_keys) pages.
Proof.
  revert token before entries. induction fuel as [|fuel IH]; intros token before entries Hsorted Hent Hfuel; [lia|]. simpl.
  destruct (one_page token before entries Hsorted Hent) as (dn & rest & Heq & Hobj & Hps & Hp & Hcount & Hnext).
  set (page := list_objects_ordered mc token delimiter max_keys prefix) in *. destruct (lo_next_continuation_token page) as [token'|].
  - destruct Hnext as (Hne & Hent' & Hdisj). pose proof (sorted_objects_sorted (mc_objects mc)) as Hs. rewrite Hsorted, Heq in Hs.
    apply strongly_sorted_app in Hs as (_ & Hs & _). apply strongly_sorted_app in Hs as (_ & _ & Hlt).
    destruct (IH (Some token') (before ++ dn) rest) as (pages & -> & IHobj & IHs & IHp & IHcount); [by rewrite <-app_assoc, <-Heq|done| |].
    { rewrite Heq, length_app in Hfuel. destruct dn; [done|]. simpl in Hfuel. lia. }
    exists (page :: pages). split; [done|]. simpl. split; [by rewrite Hobj, IHobj, Heq, omap_app|]. split; [|split; [|by constructor]].
    + apply strongly_sorted_app. split; [done|]. split; [done|]. intros p q Hpp Hqq. pose proof Hqq as Hq'. apply IHp in Hq'.
      pose proof (Hdisj q Hq') as Hnq. apply Hp in Hpp as (kv1 & Hin1 & Hb1 & Hr1). destruct Hq' as (kv2 & Hin2 & Hb2 & Hr2).
      destruct (rolls_order _ _ _ _ _ _ Hb1 Hb2 Hr1 Hr2 (Hlt _ _ Hin1 Hin2)) as [->|]; [|done]. destruct Hnq. by exists kv1.
    + intros p. rewrite elem_of_app, Hp, IHp, Heq. unfold rolled_in. setoid_rewrite elem_of_app. naive_solver.
  - exists [page]. simpl. rewrite !app_nil_r. subst rest. rewrite app_nil_r in Heq. subst dn. ands; try done. by repeat constructor.
Qed.
End pages.

(** The listing that the pages make up: objects below the prefix, and common prefixes. *)
Definition listed_objects (objects : gmap str MockObject) (delimiter prefix : str) : list ObjectInfo :=
  omap (info_of (non_empty delimiter) prefix) (sorted_objects objects).

(** C30. Pages make up the listing.  Listing a bucket with any prefix and delimiter, page after page of any positive size,
    ends after at most one page per object and one more; no page is larger than was asked for; the objects of the pages
    are the objects whose key starts with the prefix and has no delimiter after it, each once and in the order of their
    keys; and the common prefixes are in order, without a repetition from page to page, exactly those of the other keys
    below the prefix. *)
Theorem paged_listing_exact mc delimiter max_keys prefix :
  (∀ key, is_Some (mc_objects mc !! key) → utf8 key) → utf8 prefix → 0 < max_keys →
  ∃ pages, mock_pages (S (length (sorted_objects (mc_objects mc)))) mc None delimiter max_keys prefix = Some pages ∧
    concat (map lo_objects pages) = listed_objects (mc_objects mc) delimiter prefix ∧
    StronglySorted str_lt (concat (map lo_common_prefixes pages)) ∧
    (∀ p, p ∈ concat (map lo_common_prefixes pages) ↔
       ∃ key, is_Some (mc_objects mc !! key) ∧ prefix `prefix_of` key ∧ rolls (non_empty delimiter) prefix key = Some p) ∧
    Forall (λ page, zlen (lo_common_prefixes page) + zlen (lo_objects page) ≤ max_keys) pages.
Proof.
  intros Hkeys Hprefix Hmax.
  destruct (all_pages mc delimiter max_keys prefix Hkeys Hprefix Hmax (S (length (sorted_objects (mc_objects mc)))) None [] (sorted_objects (mc_objects mc)))
    as (pages & Hpages & Hobj & Hs & Hp & Hcount); [done|apply object_range_start|lia|].
  exists pages. ands; try done. intros p. rewrite Hp. unfold rolled_in. split.
  - intros ([key o] & Hin%sorted_objects_elem & Hb & Hr). exists key. by ands.
  - intros (key & [o Ho] & Hb & Hr). exists (key, o). by rewrite sorted_objects_elem.
Qed.

(** ** Directories of a bucket *)

Lemma split_once_str_delimiter s : split_once_str [delimiter] s = split_once s.
Proof. induction s as [|c s IH]; [done|]. simpl. case_bool_decide as Hc; case_bool_decide; try congruence. by rewrite IH. Qed.

Section directory.
Context (mc : MockClient) (p : str) (page_size : Z).
Context (Hkeys : ∀ key, is_Some (mc_objects mc !! key) → utf8 key) (Hp : utf8 p) (Hsize : 0 < page_size).
Set Default Proof Using "Type*".
Local Abbreviation page := (list_objects_ordered mc None [delimiter] page_size p).

(** A name below [p] is that of an object, or of a directory when there is a key below it. *)
Definition has_file (name : str) : Prop := is_Some (mc_objects mc !! (p ++ name)) ∧ delimiter ∉ name.
Definition has_directory (name : str) : Prop := ∃ key, is_Some (mc_objects mc !! key) ∧ (p ++ name ++ [delimiter]) `prefix_of` key ∧ delimiter ∉ name.

Lemma rolls_delimiter key q : p `prefix_of` key →
  rolls (non_empty [delimiter]) p key = Some q ↔ ∃ name, q = p ++ name ++ [delimiter] ∧ q `prefix_of` key ∧ delimiter ∉ name.
Proof using Type.
  intros [rest ->]. unfold rolls. rewrite drop_app_length. simpl. rewrite split_once_str_delimiter. split.
  - destruct (split_once rest) as [[pre after]|] eqn:Hs; [|done]. intros [= <-]. apply split_once_spec in Hs as [Hni ->].
    exists pre. split; [done|]. split; [|done]. exists after. by rewrite <-!app_assoc.
  - intros (name & -> & [after Heq] & Hni). rewrite <-!app_assoc in Heq. apply app_inv_head in Heq. simpl in Heq.
    by rewrite (proj2 (split_once_spec rest name after)) by done.
Qed.
Lemma rolls_delimiter_none key : p `prefix_of` key → rolls (non_empty [delimiter]) p key = None ↔ delimiter ∉ drop (length p) key.
Proof using Type.
  intros [rest ->]. unfold rolls. rewrite drop_app_length. simpl. rewrite split_once_str_delimiter, <-split_once_none.
  destruct (split_once rest) as [[pre after]|]; split; congruence.
Qed.

(** A listing of one page has the names of the directory. *)
Lemma untruncated_page : lo_next_continuation_token page = None →
  (∀ q, q ∈ lo_common_prefixes page ↔ ∃ name, q = p ++ name ++ [delimiter] ∧ has_directory name) ∧
  (∀ i, i ∈ lo_objects page ↔ ∃ name o, has_file name ∧ mc_objects mc !! (p ++ name) = Some o ∧ i = object_info (p ++ name) o).
Proof.
  intros Hnone. destruct (one_page mc [delimiter] page_size p Hkeys Hp Hsize None [] (sorted_objects (mc_objects mc)) eq_refl)
    as (dn & rest & Heq & Hobj & _ & Hcp & _ & Hnext); [apply object_range_start|]. rewrite Hnone in Hnext. subst rest. rewrite app_nil_r in Heq. subst dn. split.
  - intros q. rewrite Hcp. split.
    + intros ([key o] & Hin%sorted_objects_elem & Hb & Hr). apply (rolls_delimiter key q Hb) in Hr as (name & -> & Hpre & Hni).
      exists name. split; [done|]. by exists key.
    + intros (name & -> & key & [o Ho] & Hpre & Hni). exists (key, o). rewrite sorted_objects_elem. simpl. split; [done|].
      assert (p `prefix_of` key) as Hb by (etrans; [by eexists|done]). split; [done|]. apply rolls_delimiter; [done|]. by exists name.
  - intros i. rewrite Hobj, list_elem_of_omap. split.
    + intros ([key o] & Hin%sorted_objects_elem & Hi). unfold info_of in Hi. cbn [fst snd] in Hi.
      destruct (bool_decide_reflect (p `prefix_of` key)) as [Hb|]; [|done]. destruct (bool_decide_reflect (rolls (non_empty [delimiter]) p key = None)) as [Hr|]; [|done].
      injection Hi as <-. apply (rolls_delimiter_none key Hb) in Hr. destruct Hb as [name ->]. rewrite drop_app_length in Hr.
      exists name, o. split; [by split|done].
    + intros (name & o & [_ Hni] & Ho & ->). exists (p ++ name, o). rewrite sorted_objects_elem. split; [done|]. unfold info_of. simpl.
      assert (p `prefix_of` p ++ name) as Hb by (by eexists). rewrite (bool_decide_eq_true_2 _ Hb), bool_decide_eq_true_2; [done|].
      apply rolls_delimiter_none; [done|]. by rewrite drop_app_length.
Qed.

(** The remote entries of such a directory. *)
Lemma bucket_entries e : lo_next_continuation_token page = None →
  e ∈ page_list p true page ↔
  (∃ name, has_directory name ∧ e = RemotePrefix name) ∨
  (∃ name o, has_file name ∧ mc_objects mc !! (p ++ name) = Some o ∧
     e = RemoteObject name (p ++ name) (mo_size o) (mo_last_modified o) (mo_storage_class o) (mo_restore_status o) (mo_etag o)).
Proof.
  intros Hnone. destruct (untruncated_page Hnone) as [Hcp Hobj]. unfold page_list. rewrite stable_sort_perm, elem_of_app, !list_elem_of_fmap. split.
  - intros [(q & -> & (name & -> & Hd)%Hcp)|(i & -> & (name & o & Hf & Ho & ->)%Hobj)].
    + left. exists name. by rewrite prefix_name_app.
    + right. exists name, o. split; [done|]. split; [done|]. unfold remote_object. simpl. by rewrite drop_app_length.
  - intros [(name & Hd & ->)|(name & o & Hf & Ho & ->)].
    + left. exists (p ++ name ++ [delimiter]). rewrite prefix_name_app. split; [done|]. apply Hcp. by exists name.
    + right. exists (object_info (p ++ name) o). split; [unfold remote_object; simpl; by rewrite drop_app_length|]. apply Hobj. by exists name, o.
Qed.
Lemma bucket_listing_ok : lo_next_continuation_token page = None → listing_ok p page.
Proof.
  intros Hnone. destruct (untruncated_page Hnone) as [Hcp Hobj]. split; apply list.Forall_forall.
  - intros q (name & -> & _)%Hcp. by eexists.
  - intros i (name & o & _ & _ & ->)%Hobj. simpl. by eexists.
Qed.
End directory.

Lemma sorted_names_unique out e e' :
  StronglySorted str_lt (map ReaddirEntry_name out) → e ∈ out → e' ∈ out → ReaddirEntry_name e = ReaddirEntry_name e' → e = e'.
Proof.
  induction out as [|x out IH]; simpl; intros Hs He He' Hn; [by apply not_elem_of_nil in He|]. inv Hs as [|? ? Hs' Hx].
  rewrite list.Forall_forall in Hx. assert (∀ y, y ∈ out → str_lt (ReaddirEntry_name x) (ReaddirEntry_name y)) as Hlt.
  { intros y Hy. apply Hx, list_elem_of_fmap. by exists y. }
  apply elem_of_cons in He as [->|He], He' as [->|He']; [done| | |by apply IH].
  - specialize (Hlt e' He'). rewrite Hn in Hlt. by apply str_lt_irrefl in Hlt.
  - specialize (Hlt e He). rewrite Hn in Hlt. by apply str_lt_irrefl in Hlt.
Qed.

(** Every entry of a name has the entry that is shown for it, which is the only one of its name. *)
Section shown.
Context (mc : MockClient) (p : str) (page_size : Z) (local : list ReaddirEntry).
Context (Hkeys : ∀ key, is_Some (mc_objects mc !! key) → utf8 key) (Hp : utf8 p) (Hsize : 0 < page_size).
Let page := list_objects_ordered mc None [delimiter] page_size p.
Context (Hnone : lo_next_continuation_token page = None).
Context (Hlocal : Sorted entry_le local) (Hkind : Forall (λ e, ReaddirEntry_kind e = KLocalInode) local).
Let out := listed_entries p local [page].

Lemma shown_spec :
  StronglySorted str_lt (map ReaddirEntry_name out) ∧ (∀ e, e ∈ out → e ∈ page_list p true page ++ local) ∧
  (∀ e, e ∈ page_list p true page ++ local → ∃ e', e' ∈ out ∧ ReaddirEntry_name e' = ReaddirEntry_name e ∧
     (kind_rank (ReaddirEntry_kind e') ≤ kind_rank (ReaddirEntry_kind e))%nat).
Proof using Hlocal.
  assert (remote_stream p true [page] = page_list p true page) as Hstream by (unfold remote_stream; simpl; by rewrite app_nil_r).
  rewrite <-Hstream. apply listed_entries_spec; [|done]. rewrite Hstream. unfold page_list. apply (stable_sort_sorted entry_le).
Qed.
Lemma shown_unique e e' : e ∈ out → e' ∈ out → ReaddirEntry_name e = ReaddirEntry_name e' → e = e'.
Proof using Hlocal. destruct shown_spec as [Hs _]. by apply sorted_names_unique. Qed.

Lemma shown_names name : name ∈ map ReaddirEntry_name out ↔ has_directory mc p name ∨ has_file mc p name ∨ name ∈ map ReaddirEntry_name local.
Proof using Hkeys Hlocal Hnone Hp Hsize.
  destruct shown_spec as (_ & Hsub & Hall). pose proof (bucket_entries mc p page_size Hkeys Hp Hsize) as Hent. fold page in Hent.
  rewrite list_elem_of_fmap. split.
  - intros (e & -> & [He|He]%Hsub%elem_of_app); [|right; right; apply list_elem_of_fmap; by exists e].
    apply Hent in He as [(name & Hd & ->)|(name & o & Hf & _ & ->)]; [by left|by right; left|done].
  - assert (∀ e, e ∈ page_list p true page ++ local → ∃ y, ReaddirEntry_name e = ReaddirEntry_name y ∧ y ∈ out) as Hin.
    { intros e He. destruct (Hall e He) as (e' & ? & ? & _). by exists e'. }
    intros [Hd|[[[o Ho] Hni]|(e & -> & He)%list_elem_of_fmap]].
    + apply (Hin (RemotePrefix name)), elem_of_app. left. apply Hent; [done|]. left. by exists name.
    + apply (Hin (RemoteObject name (p ++ name) (mo_size o) (mo_last_modified o) (mo_storage_class o) (mo_restore_status o) (mo_etag o))).
      apply elem_of_app. left. apply Hent; [done|]. right. exists name, o. split; [by split; [eexists|]|done].
    + apply Hin, elem_of_app. by right.
Qed.
Lemma shown_directory e : e ∈ out → has_directory mc p (ReaddirEntry_name e) → e = RemotePrefix (ReaddirEntry_name e).
Proof using Hkeys Hlocal Hnone Hp Hsize.
  intros He Hd. destruct shown_spec as (_ & _ & Hall). destruct (Hall (RemotePrefix (ReaddirEntry_name e))) as (e' & He' & Hn & Hrank).
  { apply elem_of_app. left. apply bucket_entries; [done..|]. left. by exists (ReaddirEntry_name e). }
  assert (e = e') as <- by (by apply shown_unique). destruct e; simpl in *; [done|lia|lia].
Qed.
Lemma shown_file e o : e ∈ out → ¬ has_directory mc p (ReaddirEntry_name e) → delimiter ∉ ReaddirEntry_name e →
  mc_objects mc !! (p ++ ReaddirEntry_name e) = Some o →
  e = RemoteObject (ReaddirEntry_name e) (p ++ ReaddirEntry_name e) (mo_size o) (mo_last_modified o) (mo_storage_class o) (mo_restore_status o) (mo_etag o).
Proof using Hkeys Hkind Hlocal Hnone Hp Hsize.
  intros He Hnd Hni Ho. destruct shown_spec as (_ & Hsub & Hall). set (e0 := RemoteObject _ _ _ _ _ _ _).
  pose proof (bucket_entries mc p page_size Hkeys Hp Hsize) as Hent. fold page in Hent.
  destruct (Hall e0) as (e' & He' & Hn & Hrank).
  { apply elem_of_app. left. apply Hent; [done|]. right. exists (ReaddirEntry_name e), o. by repeat split. }
  assert (e' = e) as -> by (by apply shown_unique). apply Hsub, elem_of_app in He as [He|He].
  - apply Hent in He as [(name & Hd & ->)|(name & o' & _ & Ho' & ->)]; [done|simpl in *; unfold e0; simpl; congruence|done].
  - rewrite list.Forall_forall in Hkind. rewrite (Hkind e He) in Hrank. simpl in Hrank. lia.
Qed.
Lemma shown_local e : e ∈ out → ¬ has_directory mc p (ReaddirEntry_name e) → ¬ has_file mc p (ReaddirEntry_name e) → e ∈ local.
Proof using Hkeys Hlocal Hnone Hp Hsize.
  intros He Hnd Hnf. destruct shown_spec as (_ & Hsub & _). apply Hsub, elem_of_app in He as [He|He]; [|done].
  apply bucket_entries in He as [(name & Hd & ->)|(name & o & Hf & _ & ->)]; done.
Qed.
End shown.

(** C29. A directory shows the names of the bucket.  When the requests of the file system are answered by the mock, and the
    listing of a directory fits into one page, then reading a new directory handle to its end, with any local files and
    directories, looks up the following entries in turn, and nothing else, whatever the lookups return.  Their names
    are increasing, and are exactly the valid file names among: the names of the objects directly below the prefix, the names for which
    there are keys further below, and the local names; so the marker object of a directory itself (an empty name), "." and ".."
    are not shown.  Where there are keys below a name, it is looked up as a directory, even if there are an object or a local file
    of that name; a name that is only an object is looked up as that object, with its size and ETag; and other
    names are local entries.  When a name is an object and also a child of the directory with local state (new, being written,
    renamed, or waiting for its upload), looking up its entry returns that child with its own size and times: remote directories come before
    local state, and local state before remote files. *)
Theorem directory_shows_bucket `{crc : Crc32c} (prefix : Prefix) (cfg : CacheConfig) (mount_time : Z)
    (env : ∀ c, response c) mc p page_size dir_ino parent_ino local s k fuel :
  (∀ key, is_Some (mc_objects mc !! key) → utf8 key) → utf8 p → 0 < page_size →
  (∀ token, env (ListObjects token page_size p) = Some (list_objects_ordered mc token [delimiter] page_size p)) →
  lo_next_continuation_token (list_objects_ordered mc None [delimiter] page_size p) = None →
  Sorted entry_le local → Forall (λ e, ReaddirEntry_kind e = KLocalInode) local →
  let entries := page_list p true (list_objects_ordered mc None [delimiter] page_size p) ++ local in
  (length entries < k)%nat → (length entries < fuel)%nat →
  ∃ shown, run env (collect_handle prefix cfg mount_time k fuel (new_handle page_size p dir_ino parent_ino local)) s =
      run env (look_up_all prefix cfg mount_time dir_ino shown) s ∧
    StronglySorted str_lt (map ReaddirEntry_name shown) ∧
    (∀ name, name ∈ map ReaddirEntry_name shown ↔
       valid_name_str name = true ∧ (has_directory mc p name ∨ has_file mc p name ∨ name ∈ map ReaddirEntry_name local)) ∧
    (∀ e, e ∈ shown →
       (has_directory mc p (ReaddirEntry_name e) → e = RemotePrefix (ReaddirEntry_name e)) ∧
       (∀ o, ¬ has_directory mc p (ReaddirEntry_name e) → delimiter ∉ ReaddirEntry_name e → mc_objects mc !! (p ++ ReaddirEntry_name e) = Some o →
          e = RemoteObject (ReaddirEntry_name e) (p ++ ReaddirEntry_name e) (mo_size o) (mo_last_modified o) (mo_storage_class o)
            (mo_restore_status o) (mo_etag o)) ∧
       (¬ has_directory mc p (ReaddirEntry_name e) → ¬ has_file mc p (ReaddirEntry_name e) → e ∈ local)) ∧
    (∀ e s0 dir st children writing child cst, e ∈ shown → ¬ has_directory mc p (ReaddirEntry_name e) → has_file mc p (ReaddirEntry_name e) →
       sb_inv prefix s0 → tracked_dir s0 dir_ino dir st children writing → children !! ReaddirEntry_name e = Some child →
       sb_heap s0 !! in_loc child = Some (child, cst) → is_deleted cst = false → has_local_state cst = true →
       ∃ s' l, run env (lookup_from_entry prefix cfg mount_time dir_ino e (ReaddirEntry_name e)) s0 = (s', Ok l) ∧
         lu_inode l = child ∧ lu_stat l = st_stat cst ∧ sb_heap s' !! in_loc child = Some (child, cst)).
Proof.
  intros Hkeys Hp Hsize Henv Hnone Hlocal Hkind entries Hk Hfuel. set (page := list_objects_ordered mc None [delimiter] page_size p) in *.
  assert (remote_stream p true [page] = page_list p true page) as Hstream by (unfold remote_stream; simpl; by rewrite app_nil_r).
  exists (with_valid_names (listed_entries p local [page])).
  assert (∀ e, e ∈ with_valid_names (listed_entries p local [page]) ↔ valid_name_str (ReaddirEntry_name e) = true ∧ e ∈ listed_entries p local [page])
    as Hin by (intros e; unfold with_valid_names; by rewrite list_elem_of_filter).
  split; [|split; [|split; [|split]]].
  - apply collect_new_handle; [|by rewrite Hstream..]. apply lists_last; [apply Henv|done|]. by apply bucket_listing_ok.
  - apply valid_names_sorted. by destruct (shown_spec mc p page_size local Hlocal) as [? _].
  - intros name. rewrite <-(shown_names mc p page_size local) by done. rewrite !list_elem_of_fmap. setoid_rewrite Hin. naive_solver.
  - intros e [_ He]%Hin. split_and!; [by apply (shown_directory mc p page_size local)|intros o; by apply (shown_file mc p page_size local)|by apply (shown_local mc p page_size local)].
  - intros e s0 dir st children writing child cst [Hv He]%Hin Hnd [[o Ho] Hni] Hinv Hdir Hch Hcst Hdel Hloc.
    pose proof (shown_file mc p page_size local Hkeys Hp Hsize Hnone Hlocal Hkind e o He Hnd Hni Ho) as Hfile. destruct e; [done| |done].
    clear Hfile. cbn [lookup_from_entry ReaddirEntry_name] in *. rewrite run_bind. unfold clock. rewrite run_atomic. apply has_local_state_spec in Hloc.
    destruct (update_local_child prefix cfg env s0 dir_ino dir st children writing name child cst
      (Some {| rl_kind := File; rl_stat := InodeStat_for_file size last_modified (Some etag) storage_class restore_status (sb_now s0) (cc_file_ttl cfg) |})
      Hinv Hdir Hv Hch Hcst Hdel Hloc ltac:(done)) as (s' & l & ? & ?). by exists s', l.
Qed.

(** ** Examples *)

(** The file system's requests, answered from the objects of a mock. *)
Definition mock_env (mc : MockClient) (c : call) : response c :=
  match c with
  | HeadAndList key dir =>
      (true,
       match (mock_head_object mc (mcc_bucket (mc_config mc)) key false).2 with Some (r, _) => HeadOk r | None => HeadNotFound end,
       Some (list_objects_ordered mc None [delimiter] 1 dir))
  | ListObjects token max_keys list_prefix => Some (list_objects_ordered mc token [delimiter] max_keys list_prefix)
  | DeleteObject key => (mock_delete_object mc (mcc_bucket (mc_config mc)) key).2
  | RenameObject _ _ _ => RenameNotImplemented
  | WaitForCompletion _ => inr None
  end.

Module BucketExample.
Definition object (contents : bytes) : MockObject := MockObject_from (md5 := λ _, "etag") 5 contents.
Definition bucket : MockClient :=
  let mc := MockClient_new {| mcc_bucket := str_of "bucket"; mcc_part_size := 8; mcc_unordered_list_seed := None; mcc_enable_backpressure := false;
    mcc_initial_read_window_size := 0; mcc_enable_rename := false; mcc_fail_on_non_aligned_read_window := false |} in
  mc_add_object (mc_add_object (mc_add_object mc (str_of "a") (object [x01])) (str_of "a-b") (object [])) (str_of "a/x") (object [x02; x03]).
Definition sb : Superblock := test_sb.
End BucketExample.

Lemma utf8_ascii s : forallb (λ c, negb (continues c) && (continuation_bytes c =? 0)%nat) s = true → utf8 s.
Proof.
  induction s as [|c s IH]; [constructor|]. simpl. intros [[Hc Hn]%andb_true_iff Hall]%andb_true_iff.
  apply (utf8_char c [] s); [by apply negb_true_iff|constructor|by apply Nat.eqb_eq in Hn|by apply IH].
Qed.
Lemma bucket_utf8 key : is_Some (mc_objects BucketExample.bucket !! key) → utf8 key.
Proof.
  intros [o Ho]. unfold BucketExample.bucket, mc_add_object, MockClient_new in Ho. cbn [mc_objects mc_with_objects] in Ho.
  repeat (apply lookup_insert_Some in Ho as [[<- _]|[_ Ho]]; [by apply utf8_ascii|]). by rewrite lookup_empty in Ho.
Qed.

Lemma paged_listing_exact_witness :
  ∃ pages, mock_pages 4 BucketExample.bucket None [delimiter] 2 [] = Some pages ∧ length pages = 2%nat ∧
    concat (map lo_objects pages) = listed_objects (mc_objects BucketExample.bucket) [delimiter] [] ∧ concat (map lo_common_prefixes pages) = [str_of "a/"].
Proof.
  destruct (paged_listing_exact BucketExample.bucket [delimiter] 2 [] bucket_utf8 utf8_nil ltac:(lia)) as (pages & Hpages & Hobj & _).
  change (S (length (sorted_objects (mc_objects BucketExample.bucket)))) with 4%nat in Hpages. exists pages. split; [exact Hpages|].
  vm_compute in Hpages. injection Hpages as Hp. split; [by rewrite <-Hp|]. split; [exact Hobj|by rewrite <-Hp].
Defined.

(** "a" is a directory, since there is "a/x", and shadows the object "a"; "a-b" is an object; the marker "" is not shown. *)
Lemma directory_shows_bucket_witness :
  let mc := mc_add_object BucketExample.bucket [] (BucketExample.object []) in
  ∃ shown, run (mock_env mc) (collect_handle (crc := sum_crc) Prefix_empty (test_config false 100 100) 0 9 9 (new_handle 1000 [] 1 1 [test_local "c"])) BucketExample.sb =
      run (mock_env mc) (look_up_all (crc := sum_crc) Prefix_empty (test_config false 100 100) 0 1 shown) BucketExample.sb ∧
    str_of "a" ∈ map ReaddirEntry_name shown ∧ str_of "c" ∈ map ReaddirEntry_name shown ∧ [] ∉ map ReaddirEntry_name shown.
Proof.
  intros mc. destruct (directory_shows_bucket (crc := sum_crc) Prefix_empty (test_config false 100 100) 0 (mock_env mc) mc [] 1000 1 1
    [test_local "c"] BucketExample.sb 9 9) as (shown & Hrun & _ & Hnames & _).
  - intros key [o Ho]. unfold mc, mc_add_object in Ho. cbn [mc_objects mc_with_objects] in Ho. apply lookup_insert_Some in Ho as [[<- _]|[_ Ho]]; [apply utf8_nil|]. apply bucket_utf8. by exists o.
  - apply utf8_nil.
  - lia.
  - done.
  - by vm_compute.
  - repeat constructor.
  - by repeat constructor.
  - vm_compute. lia.
  - vm_compute. lia.
  - exists shown. split; [exact Hrun|]. rewrite !Hnames. split_and!.
    + by vm_compute.
    + right. left. split; [|apply (bool_decide_unpack _); by vm_compute].
      exists (BucketExample.object [x01]). unfold mc, BucketExample.bucket, mc_add_object. cbn [mc_objects mc_with_objects].
      do 3 (rewrite lookup_insert_ne by discriminate). apply lookup_insert_eq.
    + by vm_compute.
    + right. right. left.
    + by intros [? _].
Defined.
