(* ===== verification/MockSpec.v ===== *)
(** * What the mock of S3 promises

    An object of the mock is a closure that makes its bytes.  [object_holds] says which; the objects that are uploaded hold
    the bytes that their ETag stands for, and all requests keep it so.  From this, the mock has the properties that the
    models of reading and uploading assume of S3. *)

From S2P Require Import Prelude Checksums Part RequestRange MemLimiter Backpressure PartQueue PartStream BlockFormat ClientChecksums Upload AppendUpload AppendUploadSpec Path S3Path Inode Superblock Readdir MockClient.
Local Open Scope Z_scope.

(** ** The contents of objects *)

Definition object_holds (o : MockObject) (content : bytes) : Prop :=
  mo_size o = zlen content ∧
  ∀ offset n, 0 ≤ offset → 0 ≤ n → offset + n ≤ zlen content → mo_generator o offset n = Some (zslice offset (offset + n) content).

Lemma object_read_holds o content offset n :
  object_holds o content → 0 ≤ offset ≤ zlen content → 0 ≤ n →
  MockObject_read o offset n = Some (zslice offset (Z.min (offset + n) (zlen content)) content).
Proof.
  intros [Hs Hg] Ho Hn. unfold MockObject_read. rewrite Hs, Hg by lia. do 2 f_equal. lia.
Qed.
Lemma object_read_all o content : object_holds o content → MockObject_read o 0 (mo_size o) = Some content.
Proof.
  intros H. pose proof (zlen_nonneg content). pose proof (proj1 H) as Hs. rewrite Hs, (object_read_holds o content) by (done || lia).
  rewrite Z.add_0_l, Z.min_id. f_equal. apply zslice_full.
Qed.

Lemma slice_generator_holds content offset n :
  zlen content < u64_modulus → 0 ≤ offset → 0 ≤ n → offset + n ≤ zlen content → slice_generator content offset n = Some (zslice offset (offset + n) content).
Proof.
  intros Hlen Ho Hn Hle. unfold slice_generator. rewrite wadd_small by (unfold is_u64; lia).
  by rewrite !(proj2 (Z.leb_le _ _)) by lia.
Qed.
Lemma from_bytes_holds now content etag : zlen content < u64_modulus → object_holds (MockObject_from_bytes now content etag) content.
Proof. intros Hlen. split; [done|]. intros offset n Ho Hn Hle. by apply slice_generator_holds. Qed.

Lemma zslice_replicate {A} (x : A) (size : nat) offset n :
  0 ≤ offset → 0 ≤ n → offset + n ≤ Z.of_nat size → zslice offset (offset + n) (replicate size x) = replicate (Z.to_nat n) x.
Proof.
  intros Ho Hn Hle. unfold zslice, ztake, zdrop. rewrite drop_replicate, take_replicate. f_equal. lia.
Qed.
Lemma constant_holds now v size etag : 0 ≤ size → object_holds (MockObject_constant now v size etag) (replicate (Z.to_nat size) v).
Proof.
  intros Hs. split; [simpl; unfold zlen; rewrite length_replicate; lia|]. intros offset n Ho Hn Hle. unfold zlen in Hle. rewrite length_replicate in Hle.
  simpl. by rewrite zslice_replicate by lia.
Qed.

(** The ramp: the byte at position [k] is [(seed + k) mod 251], although the closure copies from a fixed buffer. *)
Lemma zlen_ramp seed n : 0 ≤ n → zlen (ramp_bytes seed n) = n.
Proof. intros Hn. unfold zlen, ramp_bytes. rewrite length_map, length_seqZ. lia. Qed.
Lemma ramp_mod seed n : ramp_bytes (seed `mod` RAMP_MODULUS) n = ramp_bytes seed n.
Proof. unfold ramp_bytes. apply map_ext. intros i. f_equal. by rewrite Zplus_mod_idemp_l. Qed.
Lemma ramp_app seed a b : 0 ≤ a → 0 ≤ b → ramp_bytes seed (a + b) = ramp_bytes seed a ++ ramp_bytes (seed + a) b.
Proof.
  intros Ha Hb. unfold ramp_bytes. rewrite seqZ_app, map_app by lia. f_equal. rewrite Z.add_0_l.
  rewrite <-(Z.add_0_r a) at 1. rewrite <-fmap_add_seqZ, map_map. apply map_ext. intros i. f_equal. f_equal. lia.
Qed.
Lemma ramp_slice seed size offset n :
  0 ≤ offset → 0 ≤ n → offset + n ≤ size → zslice offset (offset + n) (ramp_bytes seed size) = ramp_bytes (seed + offset) n.
Proof.
  intros Ho Hn Hle. replace size with (offset + (n + (size - offset - n))) by lia. rewrite !ramp_app by lia. unfold zslice.
  replace (offset + n - offset) with n by lia. unfold zdrop, ztake.
  rewrite drop_app_length' by (pose proof (zlen_ramp seed offset Ho); unfold zlen in *; lia).
  rewrite take_app_length'; [done|]. pose proof (zlen_ramp (seed + offset) n Hn). unfold zlen in *. lia.
Qed.
Lemma ramp_loop_spec fuel offs size vec :
  0 ≤ offs < RAMP_MODULUS → 0 ≤ size → (Z.to_nat size < fuel)%nat → ramp_loop fuel offs size vec = Some (vec ++ ramp_bytes offs size).
Proof.
  intros Ho. revert size vec. induction fuel as [|fuel IH]; intros size vec Hs Hf; [lia|]. simpl. destruct (Z.ltb_spec 0 size) as [Hpos|].
  2:{ assert (size = 0) as -> by lia. by rewrite app_nil_r. }
  set (nbyte := Z.min size RAMP_BUFFER_SIZE). assert (0 < nbyte ≤ size ∧ nbyte ≤ RAMP_BUFFER_SIZE) as Hn by (unfold nbyte, RAMP_BUFFER_SIZE, RAMP_MODULUS in *; lia).
  unfold RAMP_BYTES. assert (zlen (ramp_bytes 0 (RAMP_BUFFER_SIZE + RAMP_MODULUS)) = RAMP_BUFFER_SIZE + RAMP_MODULUS) as Hlen by (by apply zlen_ramp).
  rewrite slice_generator_holds by (rewrite ?Hlen; unfold RAMP_BUFFER_SIZE, RAMP_MODULUS, u64_modulus in *; lia).
  rewrite ramp_slice by (unfold RAMP_MODULUS in *; lia). rewrite IH by lia. rewrite <-app_assoc. do 2 f_equal. rewrite Z.add_0_l.
  replace size with (nbyte + (size - nbyte)) at 2 by lia. rewrite (ramp_app offs nbyte) by lia. f_equal. destruct (decide (nbyte = size)) as [->|Hne].
  - by rewrite Z.sub_diag.
  - assert (nbyte = 4096 * RAMP_MODULUS) as Hb by (unfold nbyte, RAMP_BUFFER_SIZE in *; lia).
    rewrite <-(ramp_mod (offs + nbyte)), Hb, Z.mod_add by done. by rewrite Z.mod_small.
Qed.
Lemma ramp_holds now seed size etag :
  0 ≤ seed → 0 ≤ size → seed + size < u64_modulus → object_holds (MockObject_ramp now seed size etag) (ramp_bytes seed size).
Proof.
  intros Hseed Hs Hlt. split; [simpl; by rewrite zlen_ramp|]. intros offset n Ho Hn Hle. rewrite zlen_ramp in Hle by done. simpl. unfold ramp_generator.
  rewrite wadd_small by (unfold is_u64; lia). rewrite ramp_loop_spec; [|by apply Z.mod_pos_bound|done|lia].
  rewrite ramp_mod, ramp_slice by done. simpl. do 2 f_equal. lia.
Qed.

(** ** Uploaded objects *)

(** The ETag of an object is the MD5 digest of its bytes.  [known] has the bytes of all objects of a run, among which MD5 has no
    collisions; [version_in known] gives the bytes that an ETag stands for. *)
Definition no_collisions `{md5 : Md5} (known : list bytes) : Prop := ∀ c c', c ∈ known → c' ∈ known → md5_hex c = md5_hex c' → c = c'.
Definition version_in `{md5 : Md5} (known : list bytes) (etag : ETag) : bytes := default [] (List.find (λ c, bool_decide (md5_hex c = etag)) known).
Lemma version_of_known `{md5 : Md5} known content : no_collisions known → content ∈ known → version_in known (md5_hex content) = content.
Proof.
  intros Hunique Hin. unfold version_in. destruct (List.find _ known) as [c|] eqn:Hf.
  - apply find_some in Hf as [Hc%list_elem_of_In Heq%bool_decide_eq_true]. by apply Hunique.
  - apply list_elem_of_In in Hin. apply (find_none _ _ Hf) in Hin. by rewrite bool_decide_eq_true_2 in Hin.
Qed.

Section bucket.
Context `{crc : Crc32c, lib : ChecksumLib, b64 : Base64, md5 : Md5} (known : list bytes) (Hunique : no_collisions known).
Abbreviation version := (version_in known).
Set Default Proof Using "Type*".

(** Every object holds the bytes of its ETag, and its size is a machine integer. *)
Definition version_ok (o : MockObject) : Prop := zlen (version (mo_etag o)) < u64_modulus ∧ object_holds o (version (mo_etag o)).
Definition bucket_ok (mc : MockClient) : Prop := map_Forall (λ _ o, version_ok o) (mc_objects mc).

Lemma version_ok_with o storage_class metadata checksum parts : version_ok o → version_ok (mo_with o storage_class metadata checksum parts).
Proof using Type. done. Qed.
Lemma object_from_ok now content : content ∈ known → zlen content < u64_modulus → version_ok (MockObject_from now content).
Proof. intros Hin Hlen. unfold version_ok. simpl. rewrite version_of_known by done. split; [done|]. by apply from_bytes_holds. Qed.
Lemma object_append_ok {E} now o data o' etag :
  version_ok o → MockObject_append (E:=E) now o data = Ok (o', etag) →
  (version (mo_etag o) ++ data ∈ known → zlen (version (mo_etag o) ++ data) < u64_modulus → version_ok o') ∧ mo_etag o' = md5_hex (version (mo_etag o) ++ data).
Proof.
  intros [Hlen Ho]. unfold MockObject_append. rewrite (object_read_all o _ Ho).
  destruct (compute_checksum _ _); simpl; [|done..]. intros [= <- <-]. split; [|done]. intros Hin Hnew. unfold version_ok. simpl. rewrite version_of_known by done. split; [done|].
  split; [done|]. intros offset n Hoff Hn Hle. by apply slice_generator_holds.
Qed.

(** *** Requests that store objects *)

(** The bytes that a request with these parameters leaves in the object. *)
Definition stored_by (mc : MockClient) (key : str) (params : PutObjectSingleParams) (contents : bytes) : bytes :=
  match psp_write_offset_bytes params, mc_objects mc !! key with
  | Some _, Some o => version (mo_etag o) ++ contents
  | _, _ => contents
  end.

Lemma put_single_spec now mc bucket key params contents mc' r :
  bucket_ok mc → mock_put_object_single now mc bucket key params contents = (mc', r) →
  (stored_by mc key params contents ∈ known → zlen (stored_by mc key params contents) < u64_modulus → bucket_ok mc') ∧
  match r with
  | Ok result => por_etag result = md5_hex (stored_by mc key params contents) ∧ (∃ o, mc_objects mc' !! key = Some o ∧ mo_etag o = por_etag result) ∧
      (∀ offset etag, psp_write_offset_bytes params = Some offset → psp_if_match params = Some etag →
         zlen (version etag) = offset ∧ stored_by mc key params contents = version etag ++ contents)
  | _ => mc_objects mc' = mc_objects mc
  end.
Proof.
  intros Hok. unfold mock_put_object_single, mock_put_object. simpl. destruct (bool_decide _); simpl; [|by intros [= <- <-]]. unfold stored_by.
  assert (∀ checksum, contents ∈ known → zlen contents < u64_modulus → bucket_ok (mc_add_object (inc_op_count mc OpPutObjectSingle) key (object_of now contents params checksum))) as Hadd.
  { intros checksum Hin Hlen. apply map_Forall_insert_2; [|done]. by apply object_from_ok. }
  destruct (psp_write_offset_bytes params) as [offset|].
  - unfold append_object. simpl. destruct (mc_objects mc !! key) as [o|] eqn:Ho.
    + pose proof (Hok key o Ho) as Hvo. destruct (match psp_if_match params with Some _ => _ | None => _ end) eqn:Hmatch; [by intros [= <- <-]|].
      destruct (_ && _); [by intros [= <- <-]|]. destruct (Z.eqb_spec (mo_size o) offset) as [Hsize|]; simpl; [|by intros [= <- <-]].
      destruct (negb _); [by intros [= <- <-]|]. destruct (mock_validate_checksum _ _); simpl; [|by intros [= <- <-]..].
      destruct (MockObject_append now o contents) as [[o' etag]| |] eqn:Happ; simpl; [|by intros [= <- <-]..]. intros [= <- <-].
      destruct (object_append_ok now o contents o' etag Hvo Happ) as [Ho' Hetag]. split; [intros Hin Hlen; apply map_Forall_insert_2; [by apply Ho'|done]|].
      simpl. split; [done|]. split; [exists o'; by rewrite lookup_insert_eq|]. intros ? etag0 [= <-] Hif. rewrite Hif in Hmatch.
      apply negb_false_iff, bool_decide_eq_true in Hmatch as <-. destruct Hvo as [_ [Hs _]]. split; [congruence|done].
    + destruct (negb _); [by intros [= <- <-]|]. destruct (bool_decide_reflect (is_Some (psp_if_match params))) as [|Hno]; [by intros [= <- <-]|].
      destruct (mock_validate_checksum _ _) as [checksum| |]; simpl; [|by intros [= <- <-]..]. intros [= <- <-].
      split; [by apply Hadd|]. simpl. split; [done|]. split; [eexists; by rewrite lookup_insert_eq|].
      intros ? etag _ Hif. destruct Hno. by eexists.
  - destruct (mock_validate_checksum _ _) as [checksum| |]; simpl; [|by intros [= <- <-]..]. intros [= <- <-].
    split; [by apply Hadd|]. simpl. split; [done|]. split; [eexists; by rewrite lookup_insert_eq|done].
Qed.

Lemma concat_chunks fuel part_size bs : 0 < part_size → (length bs ≤ fuel)%nat → concat (chunks fuel part_size bs) = bs.
Proof using Type.
  intros Hp. revert bs. induction fuel as [|fuel IH]; intros [|b bs] Hf; simpl in *; [done|lia|done|].
  rewrite IH; [apply ztake_zdrop|]. unfold zdrop. rewrite length_drop. simpl. lia.
Qed.

(** What a streaming upload stores, and what it shows to the callback. *)
Lemma complete_inner_spec now mc r parts mc' res :
  bucket_ok mc → complete_inner now mc r parts = (mc', res) →
  (mpr_buffer r ∈ known → zlen (mpr_buffer r) < u64_modulus → bucket_ok mc') ∧ match res with
    | Ok result => por_etag result = md5_hex (mpr_buffer r) ∧ ∃ o, mc_objects mc' !! mpr_key r = Some o ∧ mo_etag o = por_etag result
    | _ => mc_objects mc' = mc_objects mc
    end.
Proof.
  intros Hok. unfold complete_inner. pose proof (object_from_ok now (mpr_buffer r)) as Ho.
  assert (∀ o, version_ok o → bucket_ok (MockPutObjectRequest_drop (mc_add_object mc (mpr_key r) o) r)) as Hadd by (intros o Hvo; by apply map_Forall_insert_2).
  case_bool_decide; [destruct (outcome_mapM _ parts) as [sums| |]|]; simpl; intros [= <- <-]; try done;
    (split; [intros Hin Hlen; by apply Hadd, version_ok_with, Ho|]; split; [done|]; eexists; simpl; by rewrite lookup_insert_eq).
Qed.

Context `{!Crc32cLaws, !Base64Laws}.
Lemma review_and_complete_spec now mc r callback mc' res :
  bucket_ok mc → MockPutObjectRequest_review_and_complete now mc r callback = (mc', res) →
  (mpr_buffer r ∈ known → zlen (mpr_buffer r) < u64_modulus → bucket_ok mc') ∧ match res with
    | Ok result => por_etag result = md5_hex (mpr_buffer r) ∧ (∃ o, mc_objects mc' !! mpr_key r = Some o ∧ mo_etag o = por_etag result) ∧
        ∃ review parts, callback review = true ∧ Forall2 part_describes (ur_parts review) parts ∧ concat parts = mpr_buffer r
    | _ => mc_objects mc' = mc_objects mc
    end.
Proof.
  intros Hok. unfold MockPutObjectRequest_review_and_complete, mpr_parts. destruct (Z.ltb_spec 0 (mpr_part_size r)) as [Hp|]; simpl; [|by intros [= <- <-]].
  set (cs := chunks _ _ _). set (review := Build_UploadReview _). destruct (callback review) eqn:Hcb; simpl; [|by intros [= <- <-]]. intros Hc.
  destruct (complete_inner_spec _ _ _ _ _ _ Hok Hc) as [? Hres]. split; [done|]. destruct res as [result| |]; [|done..]. destruct Hres as [? ?].
  split; [done|]. split; [done|]. exists review, cs. split; [done|]. split; [|by apply concat_chunks]. unfold review. simpl. rewrite map_map.
  apply Forall2_fmap_l, Forall_Forall2_diag, list.Forall_forall. intros part _. split; [done|]. simpl. intros s sum.
  case_bool_decide; [|done]. intros [= <-]. rewrite crc32c_base64_round_trip by apply crc32c_checksum_u32. by intros [= <-].
Qed.

(** ** All requests *)

(** What changes the bucket: requests, and objects that are put into it directly ([add_object]); [contents] of an upload in progress
    are those of its buffer. *)
Inductive mock_request :=
| RPut (now : Z) (bucket key : str) (params : PutObjectSingleParams) (contents : bytes)
| RComplete (now : Z) (r : MockPutObjectRequest) (callback : option (UploadReview → bool))
| RDelete (bucket key : str)
| RDeleteAll
| RRestore (now : Z) (key : str)
| RCopy (source_bucket source_key destination_bucket destination_key : str)
| RRename (bucket src_key dst_key : str) (params : RenameObjectParams)
| RAdd (key : str) (o : MockObject).
Definition mock_handle (mc : MockClient) (q : mock_request) : MockClient :=
  match q with
  | RPut now bucket key params contents => (mock_put_object_single now mc bucket key params contents).1
  | RComplete now r None => (MockPutObjectRequest_complete now mc r).1
  | RComplete now r (Some callback) => (MockPutObjectRequest_review_and_complete now mc r callback).1
  | RDelete bucket key => (mock_delete_object mc bucket key).1
  | RDeleteAll => mc_remove_all_objects mc
  | RRestore now key => (restore_object now mc key).1
  | RCopy source_bucket source_key destination_bucket destination_key =>
      (mock_copy_object mc source_bucket source_key destination_bucket destination_key).1
  | RRename bucket src_key dst_key params => (mock_rename_object mc bucket src_key dst_key params).1
  | RAdd key o => mc_add_object mc key o
  end.
(** Objects are among the known ones, and not larger than a machine integer; one that is put into the bucket directly has the ETag of
    its bytes. *)
Definition fits (mc : MockClient) (q : mock_request) : Prop :=
  match q with
  | RPut _ _ key params contents => stored_by mc key params contents ∈ known ∧ zlen (stored_by mc key params contents) < u64_modulus
  | RComplete _ r _ => mpr_buffer r ∈ known ∧ zlen (mpr_buffer r) < u64_modulus
  | RAdd _ o => ∃ content, content ∈ known ∧ zlen content < u64_modulus ∧ mo_etag o = md5_hex content ∧ object_holds o content
  | _ => True
  end.
Inductive mock_reachable (config : MockClientConfig) : MockClient → Prop :=
| mr_new : mock_reachable config (MockClient_new config)
| mr_step mc q : mock_reachable config mc → fits mc q → mock_reachable config (mock_handle mc q).

Lemma handle_ok mc q : bucket_ok mc → fits mc q → bucket_ok (mock_handle mc q).
Proof.
  intros Hok Hfits. destruct q as [now bucket key params contents|now r [callback|]|bucket key| |now key|sb sk db dk|bucket src dst params|key o]; simpl in *.
  - destruct (mock_put_object_single _ _ _ _ _ _) as [mc' res] eqn:Hp. by destruct (put_single_spec now mc bucket key params contents mc' res Hok Hp) as [? _]; naive_solver.
  - destruct (MockPutObjectRequest_review_and_complete _ _ _ _) as [mc' res] eqn:Hc. by destruct (review_and_complete_spec now mc r callback mc' res Hok Hc) as [? _]; naive_solver.
  - unfold MockPutObjectRequest_complete, mpr_parts. destruct (0 <? _); simpl; [|done].
    destruct (complete_inner _ _ _ _) as [mc' res] eqn:Hc. by destruct (complete_inner_spec _ _ _ _ _ _ Hok Hc) as [? _]; naive_solver.
  - unfold mock_delete_object. destruct (negb _); [done|]. by apply map_Forall_delete.
  - apply map_Forall_empty.
  - unfold restore_object. destruct (mc_objects mc !! key) as [o|] eqn:Ho; [|done]. apply map_Forall_insert_2; [exact (Hok key o Ho)|done].
  - unfold mock_copy_object. destruct (_ && _); [done|]. destruct (mc_objects mc !! sk) as [o|] eqn:Ho; [|done]. apply map_Forall_insert_2; [by eapply Hok|done].
  - unfold mock_rename_object. destruct (negb _); [done|]. destruct (negb _); [done|]. destruct (_ <? _)%nat; [done|]. destruct (_ && _); [done|].
    destruct (etag_differs _ _); [done|]. destruct (etag_differs _ _); [done|]. simpl. destruct (mc_objects mc !! src) as [o|] eqn:Ho; [|done].
    apply map_Forall_insert_2; [by eapply Hok|by apply map_Forall_delete].
  - destruct Hfits as (content & Hin & Hlen & Hetag & Hh). apply map_Forall_insert_2; [|done]. unfold version_ok. by rewrite Hetag, version_of_known.
Qed.
Lemma handle_config mc q : mc_config (mock_handle mc q) = mc_config mc.
Proof using Type.
  destruct q as [now bucket key params contents|now r [callback|]|bucket key| |now key|sb sk db dk|bucket src dst params|key o]; simpl.
  - unfold mock_put_object_single, mock_put_object, append_object, state_bind. by repeat case_match.
  - unfold MockPutObjectRequest_review_and_complete, complete_inner, state_bind. by repeat case_match.
  - unfold MockPutObjectRequest_complete, complete_inner, state_bind. by repeat case_match.
  - unfold mock_delete_object. by repeat case_match.
  - done.
  - unfold restore_object. by repeat case_match.
  - unfold mock_copy_object. by repeat case_match.
  - unfold mock_rename_object. by repeat case_match.
  - done.
Qed.
Lemma reachable_config config mc : mock_reachable config mc → mc_config mc = config.
Proof using Type. induction 1 as [|mc q _ IH _]; [done|by rewrite handle_config]. Qed.
Lemma reachable_ok config mc : mock_reachable config mc → bucket_ok mc.
Proof. induction 1 as [|mc q _ IH Hf]; [apply map_Forall_empty|by apply handle_ok]. Qed.
End bucket.

(** ** Reading *)

(** All that the stream of a response yields, to its end or first error. *)
Fixpoint drain_body (fuel : nat) (failed : bool) (r : MockGetObjectResponse) : outcome Empty_set (list (GetBodyPart + GetClientError)) :=
  match fuel with
  | O => Panic
  | S fuel =>
      match mgr_poll_next failed r with
      | (r, Ok (Some (inl part))) => let! body := drain_body fuel failed r in Ok (inl part :: body)
      | (_, Ok (Some (inr e))) => Ok [inr e]
      | (_, Ok None) => Ok []
      | (_, _) => Panic
      end
  end.
(** A GetObject request for a range of the version [etag], and the body of its response. *)
Definition mock_body (mc : MockClient) (bucket key : str) (etag : ETag) (from to : Z) : GetObjectResponse :=
  match (mock_get_object mc bucket key (Some (from, to)) (Some etag)).2 with
  | inl e => inl e
  | inr r => match drain_body (S (Z.to_nat (to - from))) (mc_read_window_increment_failed mc) r with Ok body => inr body | _ => inl (GetOtherError "panic") end
  end.

Lemma drain_body_ok obj fuel failed r pos e :
  zlen obj < u64_modulus → object_holds (mgr_object r) obj → 0 < mgr_part_size r → mgr_next_offset r = pos → mgr_length r = e - pos →
  0 ≤ pos ≤ e → e ≤ zlen obj → (Z.to_nat (e - pos) < fuel)%nat →
  ∃ body, drain_body fuel failed r = Ok body ∧ body_ok obj (mgr_backpressure_handle r = None) pos e body.
Proof.
  intros Hobj. revert r pos. induction fuel as [|fuel IH]; intros r pos Hh Hps <- Hlen Hpos He Hf; [lia|]. cbn [drain_body]. unfold mgr_poll_next.
  destruct (bool_decide_reflect (is_Some (mgr_backpressure_handle r))) as [[h Hbh]|Hnone].
  all: destruct failed; cbn [andb]; try (eexists; split; [done|]; simpl; congruence).
  all: destruct (Z.eqb_spec (mgr_length r) 0) as [|Hne]; [exists []; split; [done|]; simpl; lia|].
  all: destruct (match mgr_backpressure_handle r with Some h => _ | None => false end) eqn:Hwin;
    try (eexists; split; [done|]; simpl; destruct (mgr_backpressure_handle r); congruence).
  all: set (n := Z.min (mgr_part_size r) (mgr_length r)).
  all: rewrite (object_read_holds (mgr_object r) obj) by (done || lia).
  all: assert (Z.min (mgr_next_offset r + n) (zlen obj) = mgr_next_offset r + n) as -> by lia.
  all: assert (zlen (zslice (mgr_next_offset r) (mgr_next_offset r + n) obj) = n) as Hn by (rewrite zlen_zslice; lia).
  all: match goal with IH : ∀ _ _, _ |- context [drain_body ?fl ?f ?r'] =>
    destruct (IH r' (mgr_next_offset r + n)) as (body & -> & Hbody) end; try done; simpl; try (rewrite wadd_small by (unfold is_u64; lia)); try lia.
  all: eexists; split; [done|]; simpl; rewrite !Hn; ands; (done || lia).
Qed.

(** Without a window, the stream has all bytes. *)
Lemma collect_body_ok obj fuel failed r pos e next body :
  zlen obj < u64_modulus → object_holds (mgr_object r) obj → 0 < mgr_part_size r → mgr_next_offset r = pos → mgr_length r = e - pos →
  mgr_backpressure_handle r = None → 0 ≤ pos ≤ e → e ≤ zlen obj → (Z.to_nat (e - pos) < fuel)%nat → default pos next = pos →
  collect_body fuel failed r next body = Ok (body ++ zslice pos e obj).
Proof.
  intros Hobj. revert r pos next body. induction fuel as [|fuel IH]; intros r pos next body Hh Hps <- Hlen Hnone Hpos He Hf Hnext; [lia|]. cbn [collect_body].
  unfold mgr_poll_next. rewrite Hnone. cbn [is_Some]. case_bool_decide as Hs; [by destruct Hs|]. cbn [andb].
  destruct (Z.eqb_spec (mgr_length r) 0) as [|Hne].
  { replace e with (mgr_next_offset r) by lia. by rewrite zslice_empty, app_nil_r. }
  set (n := Z.min (mgr_part_size r) (mgr_length r)). rewrite (object_read_holds (mgr_object r) obj) by (done || lia).
  assert (Z.min (mgr_next_offset r + n) (zlen obj) = mgr_next_offset r + n) as -> by lia.
  assert (zlen (zslice (mgr_next_offset r) (mgr_next_offset r + n) obj) = n) as Hn by (rewrite zlen_zslice; lia). cbn [gbp_offset gbp_data].
  assert (default true ((λ no, mgr_next_offset r =? no) <$> next) = true) as -> by (destruct next; simpl in *; [by apply Z.eqb_eq|done]).
  rewrite Hn, wadd_small by (unfold is_u64; lia). rewrite (IH _ (mgr_next_offset r + n)); simpl; try done; try lia.
  rewrite <-app_assoc. do 2 f_equal. by apply zslice_app; lia.
Qed.

Lemma body_ok_weaken {X} obj (P Q : Prop) pos e (body : list (GetBodyPart + X)) : (Q → P) → body_ok obj P pos e body → body_ok obj Q pos e body.
Proof. intros HQP. revert pos. induction body as [|[part|x] body IH]; intros pos; simpl; [auto| |auto]. intros (? & ? & ? & ? & ?). ands; auto. Qed.

Section reads.
Context `{crc : Crc32c, lib : ChecksumLib, b64 : Base64, md5 : Md5, !Crc32cLaws, !Base64Laws} (known : list bytes) (Hunique : no_collisions known).
Abbreviation version := (version_in known).
Set Default Proof Using "Type*".

Lemma mock_get_object_ok mc bucket key etag :
  bucket_ok known mc → 0 < mcc_part_size (mc_config mc) →
  get_object_ok (version etag) (bucket = mcc_bucket (mc_config mc) ∧ mcc_enable_backpressure (mc_config mc) = false ∧
    ∃ o, mc_objects mc !! key = Some o ∧ mo_etag o = etag) (mock_body mc bucket key etag).
Proof using Type.
  intros Hok Hps a b Hab Hb. unfold mock_body, mock_get_object. remember (S (Z.to_nat (b - a))) as fuel eqn:Hfuel. simpl. case_bool_decide as Hbucket; simpl; [|naive_solver].
  destruct (mc_objects mc !! key) as [o|] eqn:Ho; [|naive_solver]. case_bool_decide as Hetag; simpl; [|naive_solver].
  destruct (Hok key o Ho) as [Hlen Hh]. rewrite <-Hetag in Hlen, Hh. pose proof (proj1 Hh) as Hs.
  rewrite (proj2 (Z.leb_gt _ _)), (proj2 (Z.ltb_ge _ _)) by lia. simpl.
  match goal with |- context [drain_body ?fuel ?failed ?r] => destruct (drain_body_ok (version etag) fuel failed r a b) as (body & Heq & Hbody) end; try done; try lia.
  { simpl. rewrite wsub_small; unfold is_u64; lia. }
  simpl in Heq, Hbody. rewrite Heq. eapply body_ok_weaken; [|exact Hbody]. intros (_ & Hbp & _). by rewrite Hbp.
Qed.

(** ** The mock as the S3 of the other models

    [states n] is the state of the mock at the [n]-th request; other clients may have changed it in between.  The requests of the
    client are part of the run too: those that would leave bytes in an object that are not among the known ones are not made. *)

Definition outcome_sum {A} (r : outcome Upload.ClientError A) : Upload.ClientError + A :=
  match r with Ok a => inr a | Err e => inl e | Panic => inl (OtherClientError "panic") end.
Definition mock_append_client (now : nat → Z) (states : nat → MockClient) : AppendClient :=
  {| head_object := λ bucket key,
       match (mock_head_object (states 0%nat) (str_of bucket) (str_of key) true).2 with
       | Some (r, checksum) => inr (ho_etag r, head (Checksum_algorithms checksum))
       | None => inl (OtherClientError "NotFound")
       end;
     put_object_single := λ n bucket key params contents,
       if bool_decide (stored_by known (states n) (str_of key) params contents ∈ known)
       then outcome_sum (mock_put_object_single (now n) (states n) (str_of bucket) (str_of key) params contents).2
       else inl (OtherClientError "not part of the run") |}.
Definition mock_put_client (now : Z) (mc : MockClient) : PutObjectClient MockPutObjectRequest :=
  {| put_object := λ bucket key sse kms,
       (mock_put_object_streaming mc (str_of bucket) (str_of key)
          {| pop_trailing_checksums := TrailingEnabled; pop_storage_class := None; pop_server_side_encryption := sse; pop_ssekms_key_id := kms;
             pop_object_metadata := ∅ |}).2;
     write_part_size := mcc_part_size (mc_config mc);
     pr_write := λ r slice, (MockPutObjectRequest_write r slice, Ok tt);
     pr_review_and_complete := λ r callback,
       if bool_decide (mpr_buffer r ∈ known) then (MockPutObjectRequest_review_and_complete now mc r callback).2
       else Err (OtherClientError "not part of the run") |}.

Lemma mock_append_laws now states : (∀ n, bucket_ok known (states n)) → AppendLaws (H := mock_append_client now states) version.
Proof.
  intros Hok. split; simpl; intros n bucket key params data result; case_bool_decide as Hin; try done.
  - destruct (mock_put_object_single (now n) (states n) _ _ params data) as [mc' [res| |]] eqn:Hput; simpl; intros [= ->] Hoff.
    destruct (put_single_spec known Hunique _ _ _ _ _ _ _ _ (Hok n) Hput) as (_ & -> & _). rewrite version_of_known by done. unfold stored_by. by rewrite Hoff.
  - intros offset etag. destruct (mock_put_object_single (now n) (states n) _ _ params data) as [mc' [res| |]] eqn:Hput; simpl; intros [= ->] Hoff Hif.
    destruct (put_single_spec known Hunique _ _ _ _ _ _ _ _ (Hok n) Hput) as (_ & -> & _ & Happ). destruct (Happ offset etag Hoff Hif) as [Hlen Hst].
    by rewrite version_of_known.
Qed.
Lemma mock_put_laws `{env : IntegrityEnv} now mc : bucket_ok known mc → PutObjectLaws (client := mock_put_client now mc) version.
Proof.
  intros Hok. split; simpl. intros req callback result. case_bool_decide as Hin; [|done].
  destruct (MockPutObjectRequest_review_and_complete now mc req callback) as [mc' res] eqn:Hc. simpl. intros ->.
  destruct (review_and_complete_spec known Hunique _ _ _ _ _ _ Hok Hc) as (_ & -> & _ & review & parts & Hcb & Hparts & Hcat).
  exists review, parts. ands; try done. by rewrite version_of_known, Hcat.
Qed.
End reads.

(** Objects hold the bytes of their ETags.  After any sequence of uploads of every kind, appends, copies, renames,
    deletions and restorations, with objects of less than 2^64 bytes: every object of the mock holds exactly the bytes that its
    ETag was made of; reading any range inside it gives these bytes and never panics; and a GetObject request for the whole
    object, without backpressure, delivers all of them. *)
Theorem mock_objects_hold_versions `{crc : Crc32c, lib : ChecksumLib, b64 : Base64, md5 : Md5, !Crc32cLaws, !Base64Laws} known config mc key o :
  let version := version_in known in
  no_collisions known → mock_reachable known config mc → mc_objects mc !! key = Some o →
  mo_size o = zlen (version (mo_etag o)) ∧
  (∀ offset n, 0 ≤ offset ≤ zlen (version (mo_etag o)) → 0 ≤ n →
    MockObject_read o offset n = Some (zslice offset (Z.min (offset + n) (zlen (version (mo_etag o)))) (version (mo_etag o)))) ∧
  (mcc_enable_backpressure config = false → 0 < mcc_part_size config →
    ∃ mc' r, mock_get_object mc (mcc_bucket config) key None None = (mc', inr r) ∧
      mgr_collect (mc_read_window_increment_failed mc) r = Ok (version (mo_etag o))).
Proof.
  intros version Hunique Hreach Ho. destruct (reachable_ok known Hunique config mc Hreach key o Ho) as [Hlen Hh]. split; [apply Hh|].
  split; [intros offset n Hoff Hn; by apply object_read_holds|]. intros Hbp Hps. pose proof (zlen_nonneg (version (mo_etag o))) as Hnn.
  unfold mock_get_object. simpl. rewrite (reachable_config known config mc Hreach), bool_decide_true, Ho, Hbp by done. simpl. do 2 eexists. split; [done|].
  unfold mgr_collect. rewrite (collect_body_ok (version (mo_etag o)) _ _ _ 0 (mo_size o)); simpl; rewrite ?(proj1 Hh); try (done || lia).
  by rewrite zslice_full.
Qed.

(** C25. The mock keeps the contracts of S3.  The mock makes ETags with MD5; let [known] be the bytes of the objects of a run, and
    assume that MD5 does not collide on them.  Whatever uploads, appends, copies, renames, deletions, restorations and objects
    that are added directly, with the ETags of their bytes, change the bucket between the requests of a client: a GetObject
    request for a version serves, in order, the bytes of that version and nothing else, and serves all of them when the object
    still has that ETag and there is no backpressure; an append that is conditional on an ETag and offset extends exactly that
    version; a streaming upload stores the concatenation of the parts that its reviewer accepted.  These are the assumptions of
    the models of reading, of appending and of atomic uploads. *)
Theorem mock_implements_s3 `{crc : Crc32c, lib : ChecksumLib, b64 : Base64, md5 : Md5, env : IntegrityEnv, !Crc32cLaws, !Base64Laws} (known : list bytes) config
    (states : nat → MockClient) (now : nat → Z) :
  no_collisions known → (∀ n, mock_reachable known config (states n)) → 0 < mcc_part_size config →
  (∀ n key etag, get_object_ok (version_in known etag)
     (mcc_enable_backpressure config = false ∧ ∃ o, mc_objects (states n) !! key = Some o ∧ mo_etag o = etag)
     (mock_body (states n) (mcc_bucket config) key etag)) ∧
  AppendLaws (H := mock_append_client known now states) (version_in known) ∧
  (∀ n, PutObjectLaws (client := mock_put_client known (now n) (states n)) (version_in known)).
Proof.
  intros Hunique Hreach Hps. assert (∀ n, mc_config (states n) = config) as Hconf by (intros n; by eapply reachable_config). assert (∀ n, bucket_ok known (states n)) as Hok by (intros n; by eapply reachable_ok).
  split; [|split; [by apply mock_append_laws|intros n; by apply mock_put_laws]].
  intros n key etag a b Hab Hb. pose proof (mock_get_object_ok known (states n) (mcc_bucket config) key etag (Hok n)) as Hget. rewrite Hconf in Hget.
  specialize (Hget Hps a b Hab Hb). destruct (mock_body _ _ _ _ a b) as [e|body]; [naive_solver|]. eapply body_ok_weaken; [|exact Hget]. naive_solver.
Qed.

(** ** A concrete bucket

    The ETag of an object is the text of its bytes.  One request stores an object, the next appends to it, the third
    copies it. *)
Module MockExample.
Definition etag_of (bs : bytes) : ETag := bytes_string bs.
#[export] Instance text_md5 : Md5 := etag_of.
#[export] Instance example_lib : ChecksumLib := {|
  checksum_digest _ bs := UploadExample.show_sum (crc32c_checksum (Crc32c := sum_crc) bs);
  crt_new _ := None; crt_update _ _ _ := None; crt_finalize _ _ := None |}.
Definition known : list bytes := [[x01; x02]; [x01; x02; x03]; [x01; x02; x03; x04]; [x07]].
Lemma known_unique : no_collisions known.
Proof. intros c c' _ _ He. apply (f_equal string_bytes) in He. by rewrite !UploadExample.string_bytes_string in He. Qed.
Definition config : MockClientConfig := {| mcc_bucket := str_of "bucket"; mcc_part_size := 2; mcc_unordered_list_seed := None; mcc_enable_backpressure := false;
  mcc_initial_read_window_size := 0; mcc_enable_rename := true; mcc_fail_on_non_aligned_read_window := false |}.
Definition append_params : PutObjectSingleParams :=
  {| psp_checksum := None; psp_storage_class := None; psp_server_side_encryption := None; psp_ssekms_key_id := None;
     psp_if_match := Some (etag_of [x01; x02]); psp_write_offset_bytes := Some 2; psp_object_metadata := ∅ |}.
Definition extend_params : PutObjectSingleParams :=
  {| psp_checksum := None; psp_storage_class := None; psp_server_side_encryption := None; psp_ssekms_key_id := None;
     psp_if_match := Some (etag_of [x01; x02; x03]); psp_write_offset_bytes := Some 3; psp_object_metadata := ∅ |}.
Definition requests : list mock_request :=
  [ RPut 1 (str_of "bucket") (str_of "k") PutObjectSingleParams_new [x01; x02];
    RPut 2 (str_of "bucket") (str_of "k") append_params [x03];
    RCopy (str_of "bucket") (str_of "k") (str_of "bucket") (str_of "l");
    RAdd (str_of "m") (MockObject_from 3 [x07]) ].
(** The state after the first [n] requests. *)
Definition state_at (n : nat) : MockClient := foldl mock_handle (MockClient_new config) (take n requests).
Lemma state_at_reachable n : mock_reachable known config (state_at n).
Proof.
  unfold state_at. destruct n as [|[|[|[|n]]]]; cbn [requests take foldl]; rewrite ?take_nil; cbn [foldl].
  5: eapply mr_step; [|exists [x07]; split; [by apply (bool_decide_unpack _); vm_compute|]; split; [done|]; split; [done|by apply from_bytes_holds]].
  all: repeat (eapply (mr_step known config); [|first [exact I|split; [by apply (bool_decide_unpack _); vm_compute|by vm_compute]]]).
  all: apply mr_new.
Qed.
End MockExample.
Import MockExample.

Lemma mock_objects_hold_versions_witness :
  ∃ o, mc_objects (state_at 3) !! str_of "l" = Some o ∧ mo_etag o = etag_of [x01; x02; x03] ∧ MockObject_read o 1 9 = Some [x02; x03] ∧
    ∃ mc' r, mock_get_object (state_at 3) (str_of "bucket") (str_of "l") None None = (mc', inr r) ∧
      mgr_collect (mc_read_window_increment_failed (state_at 3)) r = Ok [x01; x02; x03].
Proof.
  assert (mo_etag <$> (mc_objects (state_at 3) !! str_of "l") = Some (etag_of [x01; x02; x03])) as Hl by (by vm_compute).
  apply fmap_Some in Hl as (o & Ho & He).
  destruct (mock_objects_hold_versions (lib := example_lib) known config (state_at 3) (str_of "l") o known_unique (state_at_reachable 3) Ho) as (Hs & Hread & Hget).
  rewrite <-He in Hread, Hget. exists o. split; [exact Ho|]. split; [by symmetry|]. split; [rewrite Hread; [by vm_compute|by vm_compute|lia]|].
  by apply Hget.
Defined.

Lemma mock_implements_s3_witness :
  mock_body (state_at 2) (str_of "bucket") (str_of "k") (etag_of [x01; x02; x03]) 0 3 =
    inr [inl {| gbp_offset := 0; gbp_data := [x01; x02] |}; inl {| gbp_offset := 2; gbp_data := [x03] |}] ∧
  get_object_ok [x01; x02; x03] (∃ o, mc_objects (state_at 2) !! str_of "k" = Some o ∧ mo_etag o = etag_of [x01; x02; x03])
    (mock_body (state_at 2) (str_of "bucket") (str_of "k") (etag_of [x01; x02; x03])) ∧
  AppendLaws (H := mock_append_client known (λ _, 7) state_at) (version_in known) ∧
  (mock_append_client known (λ _, 7) state_at).(put_object_single) 2%nat "bucket" "k" extend_params [x04] = inr (put_result (etag_of [x01; x02; x03; x04])).
Proof.
  split; [by vm_compute|].
  destruct (mock_implements_s3 (env := false) (lib := example_lib) known config state_at (λ _, 7) known_unique state_at_reachable ltac:(done))
    as (Hget & Happ & _).
  split; [|split; [exact Happ|by vm_compute]]. specialize (Hget 2%nat (str_of "k") (etag_of [x01; x02; x03])). intros a b Hab Hb.
  specialize (Hget a b Hab Hb). destruct (mock_body _ _ _ _ a b) as [e|body]; [naive_solver|]. eapply body_ok_weaken; [|exact Hget]. by split.
Defined.
