(* ===== verification/CrtHttp.v ===== *)
(** * HTTP messages of the S3 client

    The request side of [mountpoint-s3-client/src/s3_crt_client.rs] and the parts of
    [mountpoint-s3-crt/src/http/request_response.rs] below it: headers, request paths with their encoding, and the
    options of a meta request.  The C functions of the CRT and the percent encoding crate are interfaces. *)

From stdpp Require Import pretty.
From S2P Require Import Prelude Path S3Path.
From Stdlib Require Import Strings.Ascii.
Local Open Scope Z_scope.

Definition string_of (s : str) : string := Stdlib.Strings.String.string_of_list_ascii s.
Lemma string_of_str s : string_of (str_of s) = s.
Proof. apply Stdlib.Strings.String.string_of_list_ascii_of_string. Qed.
Lemma str_of_string s : str_of (string_of s) = s.
Proof. apply Stdlib.Strings.String.list_ascii_of_string_of_list_ascii. Qed.

(** ** UTF-8

    [OsStr::to_str] and [String::from_utf8] succeed on these strings only: no overlong encodings, no surrogates, nothing
    above U+10FFFF. *)
Definition byte_in (lo hi : N) (c : ascii) : bool := (lo <=? N_of_ascii c)%N && (N_of_ascii c <=? hi)%N.
Fixpoint utf8_valid (s : str) : bool :=
  match s with
  | [] => true
  | c :: s =>
      if byte_in 0 127 c then utf8_valid s
      else if byte_in 194 223 c then match s with c1 :: s => byte_in 128 191 c1 && utf8_valid s | _ => false end
      else if byte_in 224 239 c then
        match s with
        | c1 :: c2 :: s =>
            byte_in (if byte_in 224 224 c then 160 else 128) (if byte_in 237 237 c then 159 else 191) c1 && byte_in 128 191 c2 && utf8_valid s
        | _ => false
        end
      else if byte_in 240 244 c then
        match s with
        | c1 :: c2 :: c3 :: s =>
            byte_in (if byte_in 240 240 c then 144 else 128) (if byte_in 244 244 c then 143 else 191) c1 && byte_in 128 191 c2 && byte_in 128 191 c3 &&
            utf8_valid s
        | _ => false
        end
      else false
  end.
Definition to_str (s : str) : option str := if utf8_valid s then Some s else None.

(** ** The CRT's HTTP library

    A C function returns an error code or its result.  [aws_http_message_get_headers] gives a pointer to the headers of
    the message; [aws_http_message_with_headers] is the message after these headers were changed through it. *)
Class AwsHttp := {
  aws_headers : Type;
  aws_message : Type;
  aws_http_headers_count : aws_headers → nat;
  aws_http_headers_get_index : aws_headers → nat → Z + (str * str);
  aws_http_headers_has : aws_headers → str → bool;
  aws_http_headers_get : aws_headers → str → Z + str;
  aws_http_headers_erase : aws_headers → str → Z + aws_headers;
  aws_http_headers_add_header : aws_headers → str * str → Z + aws_headers;
  aws_http_headers_set : aws_headers → str → str → Z + aws_headers;
  aws_http_message_new_request : Z + aws_message;
  aws_http_message_set_request_method : aws_message → str → Z + aws_message;
  aws_http_message_set_request_path : aws_message → str → Z + aws_message;
  aws_http_message_add_header : aws_message → str * str → Z + aws_message;
  aws_http_message_get_headers : aws_message → aws_headers;
  aws_http_message_with_headers : aws_message → aws_headers → aws_message;
  AWS_ERROR_HTTP_HEADER_NOT_FOUND : Z;
}.

(** Names of headers do not depend on the case of ASCII letters. *)
Definition ascii_lower (c : ascii) : ascii :=
  if byte_in 65 90 c then ascii_of_N (N_of_ascii c + 32) else c.
Definition same_name (a b : str) : bool := bool_decide (map ascii_lower a = map ascii_lower b).

(** The documented behaviour: headers are a sequence of pairs, [get] finds the first with a name, [set] replaces all of them. *)
Class AwsHttpLaws `{AwsHttp} := {
  header_pairs : aws_headers → list (str * str);
  message_method : aws_message → str;
  message_path : aws_message → str;
  headers_count h : aws_http_headers_count h = length (header_pairs h);
  headers_get_index h i kv : header_pairs h !! i = Some kv → aws_http_headers_get_index h i = inr kv;
  headers_has h name : aws_http_headers_has h name = existsb (λ kv, same_name name kv.1) (header_pairs h);
  headers_get h name :
    aws_http_headers_get h name =
      match find (λ kv, same_name name kv.1) (header_pairs h) with Some kv => inr kv.2 | None => inl AWS_ERROR_HTTP_HEADER_NOT_FOUND end;
  headers_erase h name h' :
    aws_http_headers_erase h name = inr h' → header_pairs h' = List.filter (λ kv, negb (same_name name kv.1)) (header_pairs h);
  headers_add h kv h' : aws_http_headers_add_header h kv = inr h' → header_pairs h' = header_pairs h ++ [kv];
  headers_set h name value h' :
    aws_http_headers_set h name value = inr h' → header_pairs h' = List.filter (λ kv, negb (same_name name kv.1)) (header_pairs h) ++ [(name, value)];
  message_new m : aws_http_message_new_request = inr m → header_pairs (aws_http_message_get_headers m) = [];
  message_set_method m method m' :
    aws_http_message_set_request_method m method = inr m' →
    message_method m' = method ∧ message_path m' = message_path m ∧ aws_http_message_get_headers m' = aws_http_message_get_headers m;
  message_set_path m path m' :
    aws_http_message_set_request_path m path = inr m' →
    message_path m' = path ∧ message_method m' = message_method m ∧ aws_http_message_get_headers m' = aws_http_message_get_headers m;
  message_add m kv m' :
    aws_http_message_add_header m kv = inr m' →
    header_pairs (aws_http_message_get_headers m') = header_pairs (aws_http_message_get_headers m) ++ [kv] ∧
    message_method m' = message_method m ∧ message_path m' = message_path m;
  message_with_headers m h :
    aws_http_message_get_headers (aws_http_message_with_headers m h) = h ∧
    message_method (aws_http_message_with_headers m h) = message_method m ∧ message_path (aws_http_message_with_headers m h) = message_path m;
}.

(** [ok_or_last_error] *)
Definition crt_ok {A} (r : Z + A) : outcome Z A := match r with inl e => Err e | inr a => Ok a end.

(** ** Headers *)

Inductive HeadersError :=
| HeaderNotFound (name : str)
| HeadersCrtError (error : Z)
| HeadersInvalid (name value : str).

Section headers.
Context `{http : AwsHttp}.

Definition try_convert (err : Z) (header_name : str) : HeadersError :=
  if err =? AWS_ERROR_HTTP_HEADER_NOT_FOUND then HeaderNotFound header_name else HeadersCrtError err.
Definition has_header (h : aws_headers) (name : str) : bool := aws_http_headers_has h name.
Definition erase_header (h : aws_headers) (name : str) : outcome HeadersError aws_headers :=
  outcome_map_err (λ err, try_convert err name) (crt_ok (aws_http_headers_erase h name)).
Definition Headers_add_header (h : aws_headers) (header : str * str) : outcome HeadersError aws_headers :=
  let! h := (if has_header h header.1 then erase_header h header.1 else Ok h) in
  outcome_map_err HeadersCrtError (crt_ok (aws_http_headers_add_header h header)).
Definition Headers_get (h : aws_headers) (name : str) : outcome HeadersError str :=
  outcome_map_err (λ err, try_convert err name) (crt_ok (aws_http_headers_get h name)).
Definition get_as_string (h : aws_headers) (name : str) : outcome HeadersError str :=
  let! value := Headers_get h name in
  match to_str value with Some s => Ok s | None => Err (HeadersInvalid name value) end.
Definition get_as_optional_string (h : aws_headers) (name : str) : outcome HeadersError (option str) :=
  if has_header h name then let! s := get_as_string h name in Ok (Some s) else Ok None.

Definition get_index (h : aws_headers) (index : nat) : outcome HeadersError (str * str) :=
  outcome_map_err HeadersCrtError (crt_ok (aws_http_headers_get_index h index)).
(** The items of [HeadersIterator] from an offset on; [n] are left. *)
Fixpoint headers_from (h : aws_headers) (offset n : nat) : outcome HeadersError (list (str * str)) :=
  match n with
  | O => Ok []
  | S n =>
      match get_index h offset with
      | Ok header => let! rest := headers_from h (S offset) n in Ok (header :: rest)
      | _ => Panic
      end
  end.
Definition headers_iter (h : aws_headers) : outcome HeadersError (list (str * str)) := headers_from h 0 (aws_http_headers_count h).

(** [Message::set_header] *)
Definition Message_set_header (m : aws_message) (name value : str) : outcome Z aws_message :=
  let! h := crt_ok (aws_http_headers_set (aws_http_message_get_headers m) name value) in
  Ok (aws_http_message_with_headers m h).
End headers.

(** ** Paths and queries *)

(** An [AsciiSet] says which ASCII characters are encoded. *)
Abbreviation AsciiSet := (ascii → bool).
Definition alphanumeric (c : ascii) : bool := byte_in 48 57 c || byte_in 65 90 c || byte_in 97 122 c.
Definition URLENCODE_QUERY_FRAGMENT : AsciiSet := λ c,
  negb (alphanumeric c) && negb (bool_decide (c ∈ ["-"%char; "."%char; "_"%char; "~"%char])).
Definition URLENCODE_PATH_FRAGMENT : AsciiSet := λ c, URLENCODE_QUERY_FRAGMENT c && negb (bool_decide (c = "/"%char)).

Class PercentEncoding := percent_encode : AsciiSet → str → str.
(** The documentation of the crate: bytes that are not ASCII or that are in the set become ["%"] and two hexadecimal digits
    in upper case. *)
Definition hex_digit (n : N) : ascii := ascii_of_N (if (n <? 10)%N then 48 + n else 55 + n).
Definition percent_byte (c : ascii) : str :=
  ["%"%char; hex_digit (N_of_ascii c / 16); hex_digit (N_of_ascii c `mod` 16)].
Class PercentEncodingLaws `{PercentEncoding} := {
  percent_encode_bytes set s : percent_encode set s = concat (map (λ c, if byte_in 128 255 c || set c then percent_byte c else [c]) s);
}.

Inductive QueryFragment :=
| QueryEmpty
| Query (query : list (str * str))
| Action (action : str).

Section requests.
Context `{percent : PercentEncoding}.

Definition write_encoded_fragment (s piece : str) (encoding : AsciiSet) : str := s ++ percent_encode encoding piece.

Definition QueryFragment_size (q : QueryFragment) : nat :=
  match q with
  | QueryEmpty => 0
  | Query query => foldr Nat.add 0%nat (map (λ kv, length kv.1 + length kv.2 + 2)%nat query)
  | Action action => 1 + length action
  end.
(** The loop over the pairs; all but the first are preceded by ["&"]. *)
Fixpoint write_pairs (i : nat) (path : str) (query : list (str * str)) : str :=
  match query with
  | [] => path
  | (key, value) :: query =>
      let path := if (i =? 0)%nat then path else path ++ str_of "&" in
      let path := write_encoded_fragment path key URLENCODE_QUERY_FRAGMENT in
      let path := path ++ str_of "=" in
      let path := write_encoded_fragment path value URLENCODE_QUERY_FRAGMENT in
      write_pairs (S i) path query
  end.
Definition QueryFragment_write (q : QueryFragment) (path : str) : str :=
  match q with
  | Query ((_ :: _) as query) => write_pairs 0 (path ++ str_of "?") query
  | Action action => path ++ str_of "?" ++ action
  | _ => path
  end.
Definition full_path (path_prefix path : str) (query_or_action : QueryFragment) : str :=
  let full := write_encoded_fragment [] path_prefix URLENCODE_PATH_FRAGMENT in
  let full := write_encoded_fragment full path URLENCODE_PATH_FRAGMENT in
  QueryFragment_write query_or_action full.
End requests.

(** ** Messages and options of a request *)

Inductive S3Operation :=
| S3DeleteObject | S3GetObject | S3GetObjectAttributes | S3HeadBucket | S3HeadObject | S3ListObjects | S3PutObject | S3CopyObject | S3PutObjectSingle.
Inductive MetaRequestType := MetaDefault | MetaGetObject | MetaPutObject | MetaCopyObject.
Definition meta_request_type (op : S3Operation) : MetaRequestType :=
  match op with
  | S3GetObject => MetaGetObject
  | S3PutObject => MetaPutObject
  | S3CopyObject => MetaCopyObject
  | _ => MetaDefault
  end.
Definition operation_name (op : S3Operation) : option string :=
  match op with
  | S3DeleteObject => Some "DeleteObject"
  | S3GetObject => None
  | S3GetObjectAttributes => Some "GetObjectAttributes"
  | S3HeadBucket => Some "HeadBucket"
  | S3HeadObject => Some "HeadObject"
  | S3ListObjects => Some "ListObjectsV2"
  | S3PutObject => None
  | S3CopyObject => None
  | S3PutObjectSingle => Some "PutObject"
  end.

Record Uri := { uri_host_name : str; uri_path : str; uri_host_port : Z }.
(** [ResolvedEndpointInfo]; the rules that compute it are those of the CRT. *)
Record Endpoint := { ep_uri : Uri; ep_signing_region : str; ep_scheme_name : string; ep_signing_name : str; ep_disable_double_encoding : bool }.
Record SigningConfig := { sc_region : str; sc_algorithm : string; sc_service : str; sc_use_double_uri_encode : bool }.
Inductive ChecksumConfig := TrailingCrc32c | UploadReviewCrc32c.
Inductive ConstructionError := ConstructionCrtError (error : Z) | InvalidEndpoint.

Section messages.
Context `{http : AwsHttp, percent : PercentEncoding}.

Record S3Message := {
  sm_inner : aws_message;
  sm_uri : Uri;
  sm_path_prefix : str;
  sm_checksum_config : option ChecksumConfig;
  sm_signing_config : option SigningConfig;
  sm_body : option bytes;
}.
Definition sm_with_inner (m : S3Message) (inner : aws_message) : S3Message :=
  {| sm_inner := inner; sm_uri := sm_uri m; sm_path_prefix := sm_path_prefix m; sm_checksum_config := sm_checksum_config m;
     sm_signing_config := sm_signing_config m; sm_body := sm_body m |}.

Definition set_header (m : S3Message) (name value : str) : outcome Z S3Message :=
  let! inner := Message_set_header (sm_inner m) name value in Ok (sm_with_inner m inner).
Definition set_request_path_and_query (m : S3Message) (path : str) (query_or_action : QueryFragment) : outcome Z S3Message :=
  let! inner := crt_ok (aws_http_message_set_request_path (sm_inner m) (full_path (sm_path_prefix m) path query_or_action)) in
  Ok (sm_with_inner m inner).
Definition set_request_path (m : S3Message) (path : str) : outcome Z S3Message := set_request_path_and_query m path QueryEmpty.
Definition set_checksum_config (m : S3Message) (checksum_config : option ChecksumConfig) : S3Message :=
  {| sm_inner := sm_inner m; sm_uri := sm_uri m; sm_path_prefix := sm_path_prefix m; sm_checksum_config := checksum_config;
     sm_signing_config := sm_signing_config m; sm_body := sm_body m |}.
Definition set_body_stream (m : S3Message) (body : option bytes) : S3Message :=
  {| sm_inner := sm_inner m; sm_uri := sm_uri m; sm_path_prefix := sm_path_prefix m; sm_checksum_config := sm_checksum_config m;
     sm_signing_config := sm_signing_config m; sm_body := body |}.

Record MetaRequestOptions := {
  mro_message : aws_message;
  mro_body : option bytes;
  mro_endpoint : Uri;
  mro_checksum_config : option ChecksumConfig;
  mro_signing_config : option SigningConfig;
  mro_request_type : MetaRequestType;
  mro_operation_name : option string;
  mro_part_size : option Z;
  mro_send_using_async_writes : bool;
  mro_copy_source_uri : option str;
}.
Definition into_options (m : S3Message) (operation : S3Operation) : MetaRequestOptions :=
  {| mro_message := sm_inner m; mro_body := sm_body m; mro_endpoint := sm_uri m; mro_checksum_config := sm_checksum_config m;
     mro_signing_config := sm_signing_config m; mro_request_type := meta_request_type operation; mro_operation_name := operation_name operation;
     mro_part_size := None; mro_send_using_async_writes := false; mro_copy_source_uri := None |}.

(** [S3CrtClientInner], the fields that requests depend on; [ci_credentials] says whether there is a credentials provider. *)
Record S3CrtClientInner := {
  ci_resolve_for_bucket : str → option Endpoint;
  ci_credentials : bool;
  ci_user_agent_header : str;
  ci_request_payer : option str;
  ci_bucket_owner : option str;
  ci_read_part_size : Z;
  ci_write_part_size : Z;
  ci_enable_backpressure : bool;
  ci_initial_read_window_size : Z;
}.

Definition add_optional_header (m : aws_message) (name : string) (value : option str) : outcome Z aws_message :=
  match value with Some value => crt_ok (aws_http_message_add_header m (str_of name, value)) | None => Ok m end.
Definition hostname_header (uri : Uri) : str :=
  if 0 <? uri_host_port uri then uri_host_name uri ++ str_of ":" ++ str_of (pretty (uri_host_port uri)) else uri_host_name uri.
Definition new_request_template (c : S3CrtClientInner) (method bucket : str) : outcome ConstructionError S3Message :=
  match ci_resolve_for_bucket c bucket with
  | None => Err InvalidEndpoint
  | Some endpoint =>
      let uri := ep_uri endpoint in
      let signing_config :=
        if ci_credentials c then
          Some {| sc_region := ep_signing_region endpoint; sc_algorithm := ep_scheme_name endpoint; sc_service := ep_signing_name endpoint;
                  sc_use_double_uri_encode := negb (ep_disable_double_encoding endpoint) |}
        else None in
      let message :=
        let! message := crt_ok aws_http_message_new_request in
        let! message := crt_ok (aws_http_message_set_request_method message method) in
        let! message := crt_ok (aws_http_message_add_header message (str_of "Host", hostname_header uri)) in
        let! message := crt_ok (aws_http_message_add_header message (str_of "accept", str_of "application/xml")) in
        let! message := crt_ok (aws_http_message_add_header message (str_of "User-Agent", ci_user_agent_header c)) in
        let! message := add_optional_header message "x-amz-request-payer" (ci_request_payer c) in
        add_optional_header message "x-amz-expected-bucket-owner" (ci_bucket_owner c) in
      let! message := outcome_map_err ConstructionCrtError message in
      Ok {| sm_inner := message; sm_uri := uri; sm_path_prefix := uri_path uri; sm_checksum_config := None; sm_signing_config := signing_config; sm_body := None |}
  end.
End messages.

(** ** How a server reads a request target (RFC 3986) *)

Definition hex_value (c : ascii) : option N :=
  if byte_in 48 57 c then Some (N_of_ascii c - 48)%N
  else if byte_in 65 70 c then Some (N_of_ascii c - 55)%N
  else if byte_in 97 102 c then Some (N_of_ascii c - 87)%N
  else None.
Fixpoint percent_decode (s : str) : option str :=
  match s with
  | [] => Some []
  | c :: s =>
      if bool_decide (c = "%"%char) then
        match s with
        | a :: b :: s =>
            match hex_value a, hex_value b with
            | Some a, Some b => cons (ascii_of_N (16 * a + b)) <$> percent_decode s
            | _, _ => None
            end
        | _ => None
        end
      else cons c <$> percent_decode s
  end.
Fixpoint break_at (d : ascii) (s : str) : option (str * str) :=
  match s with
  | [] => None
  | c :: s => if bool_decide (c = d) then Some ([], s) else (λ p, (c :: p.1, p.2)) <$> break_at d s
  end.
Fixpoint split_all (d : ascii) (s : str) : list str :=
  match s with
  | [] => [[]]
  | c :: s =>
      if bool_decide (c = d) then [] :: split_all d s
      else match split_all d s with [] => [[c]] | p :: ps => (c :: p) :: ps end
  end.
Definition decode_pair (kv : str) : option (str * str) :=
  match break_at "="%char kv with
  | Some (k, v) => k ← percent_decode k; v ← percent_decode v; Some (k, v)
  | None => None
  end.
(** The path and the parameters that a server sees *)
Definition decode_target (target : str) : option (str * list (str * str)) :=
  match break_at "?"%char target with
  | None => path ← percent_decode target; Some (path, [])
  | Some (path, query) => path ← percent_decode path; query ← mapM decode_pair (split_all "&"%char query); Some (path, query)
  end.

Lemma hex_of_byte c :
  hex_value (hex_digit (N_of_ascii c / 16)) = Some (N_of_ascii c / 16)%N ∧ hex_value (hex_digit (N_of_ascii c `mod` 16)) = Some (N_of_ascii c `mod` 16)%N.
Proof.
  assert (∀ n, (n < 16)%N → hex_value (hex_digit n) = Some n) as Hn.
  { intros n Hn. assert (forallb (λ i, bool_decide (hex_value (hex_digit (N.of_nat i)) = Some (N.of_nat i))) (seq 0 16) = true) as Hall by (by vm_compute).
    rewrite forallb_forall in Hall. specialize (Hall (N.to_nat n)). rewrite N2Nat.id in Hall. apply (bool_decide_eq_true_1 _), Hall, in_seq. lia. }
  pose proof (N_ascii_bounded c). split; apply Hn; [apply N.Div0.div_lt_upper_bound; lia|by apply N.mod_lt].
Qed.
Lemma decode_percent_byte c s : percent_decode (percent_byte c ++ s) = cons c <$> percent_decode s.
Proof.
  unfold percent_byte. cbn [app percent_decode]. rewrite bool_decide_true by done. destruct (hex_of_byte c) as [-> ->].
  rewrite <-N.div_mod', ascii_N_embedding. done.
Qed.

(** A character that an encoded piece can not contain *)
Definition separates (set : AsciiSet) (d : ascii) : Prop := set d = true ∧ d ≠ "%"%char ∧ hex_value d = None.

Section encoding.
Context `{percent : PercentEncoding, laws : !PercentEncodingLaws}.
Set Default Proof Using "Type*".
Implicit Types set : AsciiSet.

Lemma decode_encoded set s t : set "%"%char = true → percent_decode (percent_encode set s ++ t) = app s <$> percent_decode t.
Proof.
  intros Hset. rewrite percent_encode_bytes. induction s as [|c s IH]; [simpl; by destruct (percent_decode t)|]. cbn [map concat]. rewrite <-app_assoc.
  destruct (byte_in 128 255 c || set c) eqn:Hc.
  - rewrite decode_percent_byte, IH, <-option_fmap_compose. done.
  - cbn [app percent_decode]. rewrite bool_decide_false, IH, <-option_fmap_compose; [done|]. intros ->. rewrite Hset in Hc. by rewrite orb_true_r in Hc.
Qed.
Lemma encoded_no_separator set s d : separates set d → d ∉ percent_encode set s.
Proof.
  intros (Hd & Hp & Hh). rewrite percent_encode_bytes, list_elem_of_In, in_concat. intros (piece & (c & <- & _)%in_map_iff & Hin).
  destruct (byte_in 128 255 c || set c) eqn:Hc.
  - destruct (hex_of_byte c) as [H1 H2]. destruct Hin as [<-|[<-|[<-|[]]]]; congruence.
  - destruct Hin as [<-|[]]. rewrite Hd in Hc. by rewrite orb_true_r in Hc.
Qed.
Lemma break_at_first d s t : d ∉ s → break_at d (s ++ d :: t) = Some (s, t).
Proof.
  induction s as [|c s IH]; cbn [app break_at]; intros Hd; [by rewrite bool_decide_true|].
  apply not_elem_of_cons in Hd as [Hne Hd]. by rewrite bool_decide_false, IH by done.
Qed.
Lemma break_at_none d s : d ∉ s → break_at d s = None.
Proof. induction s as [|c s IH]; [done|]. cbn [break_at]. intros [Hne Hd]%not_elem_of_cons. by rewrite bool_decide_false, IH. Qed.
Lemma split_all_one d s : d ∉ s → split_all d s = [s].
Proof. induction s as [|c s IH]; [done|]. cbn [split_all]. intros [Hne Hd]%not_elem_of_cons. by rewrite bool_decide_false, IH. Qed.
Lemma split_all_app d s t : d ∉ s → split_all d (s ++ d :: t) = s :: split_all d t.
Proof. induction s as [|c s IH]; cbn [app split_all]; [by rewrite bool_decide_true|]. intros [Hne Hd]%not_elem_of_cons. by rewrite bool_decide_false, IH. Qed.

(** One pair of a query as it is written *)
Definition encoded_pair (kv : str * str) : str :=
  percent_encode URLENCODE_QUERY_FRAGMENT kv.1 ++ "="%char :: percent_encode URLENCODE_QUERY_FRAGMENT kv.2.
Lemma decode_encoded_pair kv : decode_pair (encoded_pair kv) = Some kv.
Proof.
  unfold decode_pair, encoded_pair. rewrite break_at_first by (by apply encoded_no_separator; vm_compute).
  rewrite <-(app_nil_r (percent_encode _ kv.1)), <-(app_nil_r (percent_encode _ kv.2)), !decode_encoded by done. simpl. rewrite !app_nil_r. by destruct kv.
Qed.
Lemma encoded_pair_separator kv d : separates URLENCODE_QUERY_FRAGMENT d → d ≠ "="%char → d ∉ encoded_pair kv.
Proof.
  intros Hd He. unfold encoded_pair. rewrite elem_of_app, elem_of_cons. intros [H|[H|H]]; [by eapply encoded_no_separator|done|by eapply encoded_no_separator].
Qed.
Lemma write_pairs_tail i path query :
  (0 < i)%nat → write_pairs i path query = path ++ concat (map (λ kv, "&"%char :: encoded_pair kv) query).
Proof.
  revert i path. induction query as [|[k v] query IH]; intros i path Hi; cbn [write_pairs]; [by rewrite app_nil_r|].
  rewrite IH by lia. destruct i as [|i]; [lia|]. unfold encoded_pair, write_encoded_fragment. cbn. by rewrite <-!app_assoc.
Qed.
Lemma write_pairs_all path kv query :
  write_pairs 0 path (kv :: query) = path ++ encoded_pair kv ++ concat (map (λ kv, "&"%char :: encoded_pair kv) query).
Proof. destruct kv as [k v]. cbn [write_pairs Nat.eqb]. rewrite write_pairs_tail by lia. unfold encoded_pair, write_encoded_fragment. cbn. by rewrite <-!app_assoc. Qed.
Lemma split_pairs kv query :
  split_all "&"%char (encoded_pair kv ++ concat (map (λ kv, "&"%char :: encoded_pair kv) query)) = encoded_pair kv :: map encoded_pair query.
Proof.
  assert (∀ kv, "&"%char ∉ encoded_pair kv) as Hsep by (intros kv'; by apply encoded_pair_separator; vm_compute).
  revert kv. induction query as [|kv' query IH]; intros kv; cbn [map concat]; [by rewrite app_nil_r, split_all_one|].
  by rewrite <-app_comm_cons, split_all_app, IH by done.
Qed.
Lemma mapM_decode_pairs query : mapM decode_pair (map encoded_pair query) = Some query.
Proof. induction query as [|kv query IH]; [done|]. cbn [map mapM]. rewrite decode_encoded_pair. cbn. by rewrite IH. Qed.

Lemma path_no_separator path_prefix path d :
  separates URLENCODE_PATH_FRAGMENT d → d ∉ percent_encode URLENCODE_PATH_FRAGMENT path_prefix ++ percent_encode URLENCODE_PATH_FRAGMENT path.
Proof. intros Hd. rewrite elem_of_app. intros [H|H]; by eapply encoded_no_separator. Qed.
Lemma decode_path path_prefix path :
  percent_decode (percent_encode URLENCODE_PATH_FRAGMENT path_prefix ++ percent_encode URLENCODE_PATH_FRAGMENT path) = Some (path_prefix ++ path).
Proof. rewrite <-(app_nil_r (percent_encode _ path)), !decode_encoded by done. simpl. by rewrite app_nil_r. Qed.
(** A server reads back what was asked for, whatever the bytes are. *)
Lemma decode_full_path path_prefix path query : decode_target (full_path path_prefix path (Query query)) = Some (path_prefix ++ path, query).
Proof.
  unfold decode_target, full_path, write_encoded_fragment. cbn [app]. destruct query as [|kv query]; cbn [QueryFragment_write].
  - rewrite break_at_none by (apply path_no_separator; by vm_compute). by rewrite decode_path.
  - rewrite write_pairs_all, <-app_assoc. cbn [str_of String.list_ascii_of_string app]. rewrite break_at_first by (apply path_no_separator; by vm_compute).
    rewrite decode_path, split_pairs. change (encoded_pair kv :: map encoded_pair query) with (map encoded_pair (kv :: query)). by rewrite mapM_decode_pairs.
Qed.
Lemma decode_full_path_empty path_prefix path : decode_target (full_path path_prefix path QueryEmpty) = Some (path_prefix ++ path, []).
Proof. apply (decode_full_path path_prefix path []). Qed.
Lemma break_full_path_action path_prefix path action :
  ∃ encoded, break_at "?"%char (full_path path_prefix path (Action action)) = Some (encoded, action) ∧ percent_decode encoded = Some (path_prefix ++ path).
Proof.
  unfold full_path, write_encoded_fragment. cbn [app QueryFragment_write]. eexists. split; [|apply decode_path].
  cbn [str_of String.list_ascii_of_string app]. apply break_at_first, path_no_separator. by vm_compute.
Qed.
End encoding.
