(* ===== verification/CrtClient.v ===== *)
(** * Requests of the S3 client

    [S3CrtClient] of [mountpoint-s3-client/src/s3_crt_client.rs] and its submodules: a meta request of the CRT with the
    callbacks that collect its result, how failures are classified, and the requests that have a whole answer (list, head,
    delete, copy, rename, attributes, single put).  What the CRT calls back is a parameter, and so are the parsers of XML
    and of dates. *)

From S2P Require Import Prelude Checksums PartQueue BlockFormat ClientChecksums Upload AppendUpload Path S3Path Inode Superblock MockClient CrtHttp.
Local Open Scope Z_scope.

(** ** XML documents

    [xmltree::Element]: its child elements, and the accessors that the client uses. *)
Class XmlTree := {
  Element : Type;
  xml_parse : bytes → option Element;
  xml_name : Element → string;
  xml_elements : Element → list Element;
  xml_get_child : Element → string → option Element;
  xml_take_child : Element → string → option (Element * Element);
  xml_get_text : Element → option string;
}.
(** The first element with a name *)
Definition first_named `{XmlTree} (name : string) (es : list Element) : option Element := find (λ e, bool_decide (xml_name e = name)) es.
Fixpoint without_first `{XmlTree} (name : string) (es : list Element) : list Element :=
  match es with
  | [] => []
  | e :: es => if bool_decide (xml_name e = name) then es else e :: without_first name es
  end.
Class XmlTreeLaws `{XmlTree} := {
  get_child_first e name : xml_get_child e name = first_named name (xml_elements e);
  take_child_first e name :
    match xml_take_child e name with
    | Some (child, e') => first_named name (xml_elements e) = Some child ∧ xml_elements e' = without_first name (xml_elements e)
    | None => first_named name (xml_elements e) = None
    end;
}.

(** Parsers of dates: [OffsetDateTime::parse] with RFC 3339 and RFC 2822 *)
Class Dates := { parse_rfc3339 : string → option Z; parse_rfc2822 : string → option Z }.

(** ** Results of meta requests *)

(** Error codes of the CRT *)
Class CrtErrors := {
  AWS_ERROR_S3_CANCELED : Z;
  AWS_ERROR_S3_SLOW_DOWN : Z;
  AWS_AUTH_SIGNING_NO_CREDENTIALS : Z;
  AWS_ERROR_S3EXPRESS_CREATE_SESSION_FAILED : Z;
}.

Section client.
Context `{http : AwsHttp, percent : PercentEncoding, xml : XmlTree, dates : Dates, codes : CrtErrors}.

Record MetaRequestResult := {
  mr_response_status : Z;
  mr_crt_error : Z;
  mr_error_response_headers : option aws_headers;
  mr_error_response_body : option bytes;
}.
Definition mr_is_err (r : MetaRequestResult) : bool := negb (mr_crt_error r =? 0).
Definition mr_is_canceled (r : MetaRequestResult) : bool := mr_crt_error r =? AWS_ERROR_S3_CANCELED.

Record ClientErrorMetadata := { em_http_code : option Z; em_error_code : option string; em_error_message : option string }.
Definition child_text (e : Element) (name : string) : option string := child ← xml_get_child e name; xml_get_text child.
Definition from_meta_request_result (r : MetaRequestResult) : ClientErrorMetadata :=
  let http_code := if 100 <=? mr_response_status r then Some (mr_response_status r) else None in
  let no_body_result := {| em_http_code := http_code; em_error_code := None; em_error_message := None |} in
  match mr_error_response_body r with
  | None => no_body_result
  | Some body =>
      match xml_parse body with
      | None => no_body_result
      | Some root => {| em_http_code := http_code; em_error_code := child_text root "Code"; em_error_message := child_text root "Message" |}
      end
  end.

(** ** Errors *)

Inductive ParseError :=
| InvalidResponse (element : Element) (problem : string)
| XmlError
| MissingField (element : Element) (name : string)
| ParseBool (name : string)
| ParseInt (name : string)
| ParseDate (name : string)
| ParseHeader (e : HeadersError)
| InvalidRestore (value : str).
(** What an [InternalError] wraps *)
Inductive InternalCause :=
| CauseParse (e : ParseError)
| CauseHeaders (e : HeadersError)
| MissingHeaders
| ChannelCanceled
| PreviousWriteFailed
| CreateMultipartUploadFailed.
Inductive S3RequestError :=
| InternalError (cause : InternalCause)
| S3CrtError (error : Z)
| ConstructionFailure (e : ConstructionError)
| ResponseError (r : MetaRequestResult)
| IncorrectRegion (region : str) (metadata : ClientErrorMetadata)
| Forbidden (message : string) (metadata : ClientErrorMetadata)
| NoSigningCredentials
| CreateSessionError
| RequestCanceled
| Throttled
| EmptyReadWindow.
Inductive ObjectClientError (E : Type) := ServiceError (e : E) | OtherError (e : S3RequestError).
Arguments ServiceError {E} e.
Arguments OtherError {E} e.

Definition meta (e : S3RequestError) : ClientErrorMetadata :=
  match e with
  | ResponseError r => from_meta_request_result r
  | Forbidden _ metadata => metadata
  | Throttled => {| em_http_code := Some 503; em_error_code := Some "SlowDown"; em_error_message := Some "Please reduce your request rate." |}
  | IncorrectRegion _ metadata => metadata
  | _ => {| em_http_code := None; em_error_code := None; em_error_message := None |}
  end.

Definition try_parse_redirect (r : MetaRequestResult) : option S3RequestError :=
  headers ← mr_error_response_headers r;
  match Headers_get headers (str_of "x-amz-bucket-region") with
  | Ok value => region ← to_str value; Some (IncorrectRegion region (from_meta_request_result r))
  | _ => None
  end.
Definition try_parse_forbidden (r : MetaRequestResult) : option S3RequestError :=
  match mr_error_response_body r with
  | None =>
      Some (Forbidden "<no message>" {| em_http_code := Some (mr_response_status r); em_error_code := None; em_error_message := None |})
  | Some body =>
      error_elem ← xml_parse body;
      error_code ← xml_get_child error_elem "Code";
      error_code_str ← xml_get_text error_code;
      if (mr_response_status r =? 403) || bool_decide (error_code_str ∈ ["AccessDenied"; "InvalidToken"; "ExpiredToken"; "SignatureDoesNotMatch"]) then
        let message := default error_code_str (child_text error_elem "Message") in
        Some (Forbidden message {| em_http_code := Some (mr_response_status r); em_error_code := Some error_code_str; em_error_message := Some message |})
      else None
  end.
Definition try_parse_no_credentials_or_generic (r : MetaRequestResult) : S3RequestError :=
  let crt_error_code := mr_crt_error r in
  if crt_error_code =? AWS_AUTH_SIGNING_NO_CREDENTIALS then NoSigningCredentials
  else if crt_error_code =? AWS_ERROR_S3EXPRESS_CREATE_SESSION_FAILED then CreateSessionError
  else S3CrtError crt_error_code.
Definition try_parse_throttled (r : MetaRequestResult) : option S3RequestError :=
  if mr_crt_error r =? AWS_ERROR_S3_SLOW_DOWN then Some Throttled else None.
Definition try_parse_canceled_request (r : MetaRequestResult) : option S3RequestError :=
  if mr_is_canceled r then Some RequestCanceled else None.
Definition or_else {A} (a b : option A) : option A := match a with Some _ => a | None => b end.
Definition try_parse_generic_error (r : MetaRequestResult) : option S3RequestError :=
  if mr_response_status r =? 301 then try_parse_redirect r
  else if mr_response_status r =? 400 then or_else (try_parse_forbidden r) (try_parse_redirect r)
  else if mr_response_status r =? 403 then try_parse_forbidden r
  else if mr_response_status r =? 0 then
    or_else (or_else (try_parse_throttled r) (try_parse_canceled_request r)) (Some (try_parse_no_credentials_or_generic r))
  else None.

(** ** Meta requests and their callbacks *)

Inductive RequestType := CreateMultipartUpload | OtherRequest.
(** What the CRT calls back; a request ends with [OnFinish]. *)
Inductive crt_event :=
| OnTelemetry (request_type : RequestType) (error : Z)
| OnHeaders (headers : aws_headers) (status : Z)
| OnBody (range_start : Z) (data : bytes)
| OnFinish (result : MetaRequestResult).
(** [make_meta_request], for a request whose callbacks do not answer the CRT: an error, or all its callbacks in order *)
Class CrtClient := make_meta_request : MetaRequestOptions → Z + list crt_event.

(** The result that [on_finish] passes to [on_meta_request_result] *)
Definition finish_result {E} (parse_meta_request_error : MetaRequestResult → option E) (r : MetaRequestResult) : outcome (ObjectClientError E) unit :=
  if negb (mr_is_err r) then Ok tt
  else
    let error := ServiceError <$> parse_meta_request_error r in
    let maybe_err := or_else error (OtherError <$> try_parse_generic_error r) in
    Err (default (OtherError (ResponseError r)) maybe_err).

(** [S3MetaRequest]: the result that is sent when the request finishes; without one the channel is canceled. *)
Fixpoint receive_body {E} (parse : MetaRequestResult → option E) (body : bytes) (events : list crt_event) : outcome (ObjectClientError E) bytes :=
  match events with
  | [] => Err (OtherError (InternalError ChannelCanceled))
  | OnBody offset data :: events => assert! offset =? zlen body in receive_body parse (body ++ data) events
  | OnFinish r :: _ => let! _ := finish_result parse r in Ok body
  | _ :: events => receive_body parse body events
  end.
Definition success_status (status : Z) : bool := (200 <=? status) && (status <? 300).
Fixpoint receive_headers {E} (parse : MetaRequestResult → option E) (headers : option aws_headers) (events : list crt_event)
    : outcome (ObjectClientError E) aws_headers :=
  match events with
  | [] => Err (OtherError (InternalError ChannelCanceled))
  | OnHeaders h status :: events => receive_headers parse (if success_status status then Some h else headers) events
  | OnFinish r :: _ =>
      let! _ := finish_result parse r in
      match headers with Some h => Ok h | None => Err (OtherError (InternalError MissingHeaders)) end
  | _ :: events => receive_headers parse headers events
  end.
Fixpoint receive_unit {E} (parse : MetaRequestResult → option E) (events : list crt_event) : outcome (ObjectClientError E) unit :=
  match events with
  | [] => Err (OtherError (InternalError ChannelCanceled))
  | OnFinish r :: _ => finish_result parse r
  | _ :: events => receive_unit parse events
  end.

Context `{crt : CrtClient}.
Definition meta_request {E A} (options : MetaRequestOptions) (receive : list crt_event → outcome (ObjectClientError E) A) : outcome (ObjectClientError E) A :=
  match make_meta_request options with
  | inl error => Err (OtherError (S3CrtError error))
  | inr events => receive events
  end.
Definition meta_request_with_body_payload {E} (options : MetaRequestOptions) (parse : MetaRequestResult → option E) : outcome (ObjectClientError E) bytes :=
  meta_request options (receive_body parse []).
Definition meta_request_with_headers_payload {E} (options : MetaRequestOptions) (parse : MetaRequestResult → option E)
    : outcome (ObjectClientError E) aws_headers :=
  meta_request options (receive_headers parse None).
Definition meta_request_without_payload {E} (options : MetaRequestOptions) (parse : MetaRequestResult → option E) : outcome (ObjectClientError E) unit :=
  meta_request options (receive_unit parse).

(** [map_err(S3RequestError::construction_failure)] *)
Definition constructed {E A} (r : outcome ConstructionError A) : outcome (ObjectClientError E) A :=
  outcome_map_err (λ e, OtherError (ConstructionFailure e)) r.
Definition constructed_crt {E A} (r : outcome Z A) : outcome (ObjectClientError E) A :=
  outcome_map_err (λ e, OtherError (ConstructionFailure (ConstructionCrtError e))) r.
Definition internal {E A} (cause : InternalCause) : outcome (ObjectClientError E) A := Err (OtherError (InternalError cause)).
End client.
Arguments ServiceError {_ _ E} e.
Arguments OtherError {_ _ E} e.
