(* ===== verification/CrtRequests.v ===== *)
(** * The requests of the S3 client that have a whole answer

    [list_objects], [head_object], [delete_object], [copy_object], [rename_object], [get_object_attributes], [head_bucket]
    and [put_object_single] of [mountpoint-s3-client/src/s3_crt_client/]: the message each of them sends, and how it reads
    the answer. *)

From stdpp Require Import pretty.
From S2P Require Import Prelude Checksums PartQueue BlockFormat ClientChecksums Upload AppendUpload Path S3Path Inode Superblock MockClient CrtHttp CrtClient.
From Stdlib Require Import Strings.Ascii.
Local Open Scope Z_scope.

Section requests.
Context `{http : AwsHttp, percent : PercentEncoding, xml : XmlTree, dates : Dates, codes : CrtErrors, crt : !CrtClient}.

(** ** Reading XML *)

Definition get_text (element : Element) : outcome ParseError string :=
  match xml_get_text element with Some text => Ok text | None => Err (InvalidResponse element "field has no text") end.
Definition get_child (element : Element) (name : string) : outcome ParseError Element :=
  match xml_get_child element name with Some child => Ok child | None => Err (MissingField element name) end.
Definition get_field (element : Element) (name : string) : outcome ParseError string :=
  let! child := get_child element name in get_text child.
(** [while let Some(child) = element.take_child(name)]: every round removes a child. *)
Fixpoint take_children {A} (fuel : nat) (name : string) (f : Element → outcome ParseError A) (element : Element) : outcome ParseError (list A * Element) :=
  match fuel with
  | O => Panic
  | S fuel =>
      match xml_take_child element name with
      | None => Ok ([], element)
      | Some (child, element) =>
          let! a := f child in
          let! r := take_children fuel name f element in
          Ok (a :: r.1, r.2)
      end
  end.
Definition children_fuel (element : Element) : nat := S (length (xml_elements element)).
(** [bool::from_str] *)
Definition parse_bool (s : string) : option bool :=
  if bool_decide (s = "true") then Some true else if bool_decide (s = "false") then Some false else None.
Definition parse_or {A} (r : option A) (e : ParseError) : outcome ParseError A := match r with Some a => Ok a | None => Err e end.

(** ** ListObjectsV2 *)

Definition parse_restore_status (element : Element) : outcome ParseError (option RestoreStatus) :=
  match xml_get_child element "RestoreStatus" with
  | None => Ok None
  | Some restore_status =>
      let! text := get_field restore_status "IsRestoreInProgress" in
      let! restore_in_progress := parse_or (parse_bool text) (ParseBool "IsRestoreInProgress") in
      if restore_in_progress : bool then Ok (Some RestoreInProgress)
      else
        let! text := get_field restore_status "RestoreExpiryDate" in
        let! expiry := parse_or (parse_rfc3339 text) (ParseDate "RestoreExpiryDate") in
        Ok (Some (Restored expiry))
  end.
Definition parse_algorithm (algo_string : string) : ChecksumAlgorithm :=
  if bool_decide (algo_string = "CRC64NVME") then AlgCrc64nvme
  else if bool_decide (algo_string = "CRC32") then AlgCrc32
  else if bool_decide (algo_string = "CRC32C") then AlgCrc32c
  else if bool_decide (algo_string = "SHA1") then AlgSha1
  else if bool_decide (algo_string = "SHA256") then AlgSha256
  else AlgUnknown algo_string.
Definition parse_checksum_algorithm (element : Element) : outcome ParseError (list ChecksumAlgorithm) :=
  let! r := take_children (children_fuel element) "ChecksumAlgorithm" (λ content, let! text := get_text content in Ok (parse_algorithm text)) element in
  Ok r.1.
(** An [ObjectInfo] and its [checksum_algorithms] *)
Definition parse_object_info_from_xml (element : Element) : outcome ParseError (ObjectInfo * list ChecksumAlgorithm) :=
  let! key := get_field element "Key" in
  let! text := get_field element "Size" in
  let! size := parse_or (parse_uint u64_max text) (ParseInt "Size") in
  let! text := get_field element "LastModified" in
  let! last_modified := parse_or (parse_rfc3339 text) (ParseDate "LastModified") in
  let storage_class := match get_field element "StorageClass" with Ok s => Some s | _ => None end in
  let! restore_status := parse_restore_status element in
  let! etag := get_field element "ETag" in
  let! checksum_algorithms := parse_checksum_algorithm element in
  Ok ({| oi_key := str_of key; oi_size := size; oi_last_modified := last_modified; oi_storage_class := storage_class;
         oi_restore_status := restore_status; oi_etag := etag |}, checksum_algorithms).
Record ListObjectsOutput := {
  lout_objects : list (ObjectInfo * list ChecksumAlgorithm);
  lout_common_prefixes : list str;
  lout_next_continuation_token : option string;
}.
Definition parse_result_from_xml (element : Element) : outcome ParseError ListObjectsOutput :=
  let! r := take_children (children_fuel element) "Contents" parse_object_info_from_xml element in
  let objects := r.1 in
  let element := r.2 in
  let! r := take_children (children_fuel element) "CommonPrefixes" (λ common_prefix, get_field common_prefix "Prefix") element in
  let common_prefixes := r.1 in
  let element := r.2 in
  let! next_continuation_token :=
    match xml_get_child element "NextContinuationToken" with
    | Some elem => let! text := get_text elem in Ok (Some text)
    | None => Ok None
    end in
  let! text := get_field element "IsTruncated" in
  let! is_truncated := parse_or (parse_bool text) (ParseBool "IsTruncated") in
  if negb (Bool.eqb is_truncated (bool_decide (is_Some next_continuation_token)))
  then Err (InvalidResponse element "IsTruncated doesn't match NextContinuationToken")
  else Ok {| lout_objects := objects; lout_common_prefixes := map str_of common_prefixes; lout_next_continuation_token := next_continuation_token |}.
Definition parse_result_from_bytes (body : bytes) : outcome ParseError ListObjectsOutput :=
  match xml_parse body with None => Err XmlError | Some element => parse_result_from_xml element end.

(** The text of [Code] in the body of an error *)
Definition error_root (r : MetaRequestResult) : option Element := body ← mr_error_response_body r; xml_parse body.
Definition error_field (name : string) (r : MetaRequestResult) : option string := root ← error_root r; child_text root name.

Inductive ListObjectsError := ListNoSuchBucket.
Definition parse_list_objects_error (r : MetaRequestResult) : option ListObjectsError :=
  if mr_response_status r =? 404 then
    error_str ← error_field "Code" r;
    if bool_decide (error_str = "NoSuchBucket") then Some ListNoSuchBucket else None
  else None.
Definition list_query (continuation_token : option str) (delimiter : str) (max_keys : Z) (prefix : str) : list (str * str) :=
  [(str_of "list-type", str_of "2"); (str_of "delimiter", delimiter); (str_of "max-keys", str_of (format_uint max_keys)); (str_of "prefix", prefix)] ++
  match continuation_token with Some token => [(str_of "continuation-token", token)] | None => [] end.
Definition crt_list_objects (c : S3CrtClientInner) (bucket : str) (continuation_token : option str) (delimiter : str) (max_keys : Z) (prefix : str)
    : outcome (ObjectClientError ListObjectsError) ListObjectsOutput :=
  let! message := constructed (new_request_template c (str_of "GET") bucket) in
  let! message := constructed_crt (set_header message (str_of "x-amz-optional-object-attributes") (str_of "RestoreStatus")) in
  let! message := constructed_crt (set_request_path_and_query message (str_of "/") (Query (list_query continuation_token delimiter max_keys prefix))) in
  let! body := meta_request_with_body_payload (into_options message S3ListObjects) parse_list_objects_error in
  outcome_map_err (λ e, OtherError (InternalError (CauseParse e))) (parse_result_from_bytes body).

(** ** HeadObject *)

Definition quote : ascii := ascii_of_N 34.
(** The characters of [\s]: those with the property White_Space *)
Fixpoint skip_spaces (s : str) : str :=
  match s with
  | c :: s1 =>
      if byte_in 9 13 c || byte_in 32 32 c then skip_spaces s1
      else
        match s1 with
        | c1 :: s2 =>
            if byte_in 194 194 c && (byte_in 133 133 c1 || byte_in 160 160 c1) then skip_spaces s2
            else
              match s2 with
              | c2 :: s3 =>
                  if (byte_in 225 225 c && byte_in 154 154 c1 && byte_in 128 128 c2) ||
                     (byte_in 226 226 c && byte_in 128 128 c1 && (byte_in 128 138 c2 || byte_in 168 169 c2 || byte_in 175 175 c2)) ||
                     (byte_in 226 226 c && byte_in 129 129 c1 && byte_in 159 159 c2) ||
                     (byte_in 227 227 c && byte_in 128 128 c1 && byte_in 128 128 c2)
                  then skip_spaces s3 else s
              | [] => s
              end
        | [] => s
        end
  | [] => s
  end.
Definition ongoing_request : str := str_of "ongoing-request=" ++ [quote].
(** [RESTORE_IN_PROGRESS_RE]: the value of the group [ongoing] *)
Definition restore_in_progress_re (header : str) : option str :=
  rest ← strip_prefix ongoing_request header;
  m ← break_at quote rest;
  if bool_decide (m.2 = []) then Some m.1 else None.
(** [RESTORE_DONE_RE]: the value of the group [expiry] *)
Definition restore_done_re (header : str) : option str :=
  rest ← strip_prefix ongoing_request header;
  m ← break_at quote rest;
  rest ← strip_prefix (str_of ",") m.2;
  rest ← strip_prefix (str_of "expiry-date=" ++ [quote]) (skip_spaces rest);
  m ← break_at quote rest;
  if bool_decide (m.2 = []) then Some m.1 else None.

Definition header_err {A} (r : outcome HeadersError A) : outcome ParseError A := outcome_map_err ParseHeader r.
Definition hdr_parse_restore_status (headers : aws_headers) : outcome ParseError (option RestoreStatus) :=
  let! header := header_err (get_as_optional_string headers (str_of "x-amz-restore")) in
  match header with
  | None => Ok None
  | Some header =>
      match restore_in_progress_re header with
      | Some ongoing =>
          let! ongoing := parse_or (parse_bool (string_of ongoing)) (InvalidRestore header) in
          if ongoing : bool then Ok (Some RestoreInProgress) else Err (InvalidRestore header)
      | None =>
          match restore_done_re header with
          | None => Err (InvalidRestore header)
          | Some expiry =>
              let! expiry := parse_or (parse_rfc2822 (string_of expiry)) (ParseDate "x-amz-restore::expiry") in
              Ok (Some (Restored expiry))
          end
      end
  end.
Definition optional_text (headers : aws_headers) (name : string) : outcome HeadersError (option string) :=
  let! value := get_as_optional_string headers (str_of name) in Ok (string_of <$> value).
Definition parse_checksum (headers : aws_headers) : outcome HeadersError Checksum :=
  let! checksum_crc32 := optional_text headers "x-amz-checksum-crc32" in
  let! checksum_crc32c := optional_text headers "x-amz-checksum-crc32c" in
  let! checksum_sha1 := optional_text headers "x-amz-checksum-sha1" in
  let! checksum_sha256 := optional_text headers "x-amz-checksum-sha256" in
  let! checksum_crc64nvme := optional_text headers "x-amz-checksum-crc64nvme" in
  Ok {| cs_crc64nvme := checksum_crc64nvme; cs_crc32 := checksum_crc32; cs_crc32c := checksum_crc32c; cs_sha1 := checksum_sha1;
        cs_sha256 := checksum_sha256 |}.
(** A [HeadObjectResult] with the fields that the file system reads, its checksum, and its encryption *)
Record HeadObjectOutput := { hout_result : HeadObjectResult; hout_checksum : Checksum; hout_sse_type : option string; hout_sse_kms_key_id : option string }.
Definition parse_from_hdr (headers : aws_headers) : outcome ParseError HeadObjectOutput :=
  let! text := header_err (get_as_string headers (str_of "Last-Modified")) in
  let! last_modified := parse_or (parse_rfc2822 (string_of text)) (ParseDate "LastModified") in
  let! text := header_err (get_as_string headers (str_of "Content-Length")) in
  let! size := parse_or (parse_uint u64_max (string_of text)) (ParseInt "ContentLength") in
  let! etag := header_err (get_as_string headers (str_of "Etag")) in
  let! storage_class := header_err (optional_text headers "x-amz-storage-class") in
  let! restore_status := hdr_parse_restore_status headers in
  let! sse_type := header_err (optional_text headers "x-amz-server-side-encryption") in
  let! sse_kms_key_id := header_err (optional_text headers "x-amz-server-side-encryption-aws-kms-key-id") in
  let! checksum := header_err (parse_checksum headers) in
  Ok {| hout_result := {| ho_size := size; ho_last_modified := last_modified; ho_restore_status := restore_status; ho_etag := string_of etag;
                          ho_storage_class := storage_class |};
        hout_checksum := checksum; hout_sse_type := sse_type; hout_sse_kms_key_id := sse_kms_key_id |}.
Inductive HeadObjectError := HeadErrNotFound.
Definition parse_head_object_error (r : MetaRequestResult) : option HeadObjectError :=
  if mr_response_status r =? 404 then Some HeadErrNotFound else None.
Definition crt_head_object (c : S3CrtClientInner) (bucket key : str) (checksum_mode : bool) : outcome (ObjectClientError HeadObjectError) HeadObjectOutput :=
  let! message := constructed (new_request_template c (str_of "HEAD") bucket) in
  let! message := constructed_crt (set_request_path message (str_of "/" ++ key)) in
  let! message :=
    if checksum_mode then constructed_crt (set_header message (str_of "x-amz-checksum-mode") (str_of "ENABLED")) else Ok message in
  let! headers := meta_request_with_headers_payload (into_options message S3HeadObject) parse_head_object_error in
  outcome_map_err (λ e, OtherError (InternalError (CauseParse e))) (parse_from_hdr headers).

(** ** DeleteObject, CopyObject, HeadBucket *)

Inductive DeleteObjectError := DeleteNoSuchBucket.
Definition parse_delete_object_error (r : MetaRequestResult) : option DeleteObjectError :=
  if mr_response_status r =? 404 then
    error_str ← error_field "Code" r;
    if bool_decide (error_str = "NoSuchBucket") then Some DeleteNoSuchBucket else None
  else None.
Definition crt_delete_object (c : S3CrtClientInner) (bucket key : str) : outcome (ObjectClientError DeleteObjectError) unit :=
  let! message := constructed (new_request_template c (str_of "DELETE") bucket) in
  let! message := constructed_crt (set_request_path message (str_of "/" ++ key)) in
  meta_request_without_payload (into_options message S3DeleteObject) parse_delete_object_error.

Inductive CopyObjectError := CopyNotFound | ObjectNotInActiveTierError.
Definition parse_copy_object_error (r : MetaRequestResult) : option CopyObjectError :=
  if mr_response_status r =? 403 then
    error_str ← error_field "Code" r;
    if bool_decide (error_str = "ObjectNotInActiveTierError") then Some ObjectNotInActiveTierError else None
  else if mr_response_status r =? 404 then Some CopyNotFound
  else None.
(** [uri_string] is the text of a URI of the CRT. *)
Definition crt_copy_object (uri_string : Uri → str) (c : S3CrtClientInner) (source_bucket source_key destination_bucket destination_key : str)
    : outcome (ObjectClientError CopyObjectError) unit :=
  let! message := constructed (new_request_template c (str_of "PUT") destination_bucket) in
  let! message := constructed_crt (set_request_path message (str_of "/" ++ destination_key)) in
  let! message := constructed_crt (set_header message (str_of "x-amz-copy-source") (str_of "/" ++ source_bucket ++ str_of "/" ++ source_key)) in
  let options := into_options message S3CopyObject in
  match ci_resolve_for_bucket c source_bucket with
  | None => Err (OtherError (ConstructionFailure InvalidEndpoint))
  | Some endpoint =>
      let source_uri := uri_string (ep_uri endpoint) ++ str_of "/" ++ source_key in
      let options :=
        {| mro_message := mro_message options; mro_body := mro_body options; mro_endpoint := mro_endpoint options;
           mro_checksum_config := mro_checksum_config options; mro_signing_config := mro_signing_config options;
           mro_request_type := mro_request_type options; mro_operation_name := mro_operation_name options; mro_part_size := mro_part_size options;
           mro_send_using_async_writes := mro_send_using_async_writes options; mro_copy_source_uri := Some source_uri |} in
      meta_request_without_payload options parse_copy_object_error
  end.

Inductive HeadBucketError := HeadNoSuchBucket.
Definition crt_head_bucket (c : S3CrtClientInner) (bucket : str) : outcome (ObjectClientError HeadBucketError) unit :=
  let! message := constructed (new_request_template c (str_of "HEAD") bucket) in
  let! message := constructed_crt (set_request_path message (str_of "/")) in
  meta_request_without_payload (into_options message S3HeadBucket)
    (λ r, if mr_response_status r =? 404 then Some HeadNoSuchBucket else None).

(** ** RenameObject *)

Definition parse_rename_object_error (r : MetaRequestResult) : option RenameObjectError :=
  if mr_response_status r =? 400 then
    error_str ← error_field "Code" r;
    Some (if bool_decide (error_str = "KeyTooLong") then RenameErrKeyTooLong else RenameErrBadRequest)
  else if mr_response_status r =? 404 then Some RenameErrKeyNotFound
  else if mr_response_status r =? 412 then
    failed_condition ← error_field "Condition" r;
    Some (RenameErrPreConditionFailed
      (if bool_decide (failed_condition = "If-Match") then IfMatch
       else if bool_decide (failed_condition = "If-None-Match") then IfNoneMatch else OtherPrecondition))
  else if mr_response_status r =? 501 then Some RenameErrNotImplemented
  else None.
Definition set_optional_header (m : S3Message) (name : string) (value : option string) : outcome Z S3Message :=
  match value with Some value => set_header m (str_of name) (str_of value) | None => Ok m end.
Fixpoint add_custom_headers (m : S3Message) (headers : list (string * string)) : outcome Z S3Message :=
  match headers with
  | [] => Ok m
  | (name, value) :: headers =>
      let! inner := crt_ok (aws_http_message_add_header (sm_inner m) (str_of name, str_of value)) in
      add_custom_headers (sm_with_inner m inner) headers
  end.
(** [token] is the fresh [Uuid] of the request. *)
Definition crt_rename_object (token : string) (c : S3CrtClientInner) (bucket src_key dst_key : str) (params : RenameObjectParams)
    : outcome (ObjectClientError RenameObjectError) unit :=
  let! message := constructed (new_request_template c (str_of "PUT") bucket) in
  let! message := constructed_crt (set_request_path_and_query message (str_of "/" ++ dst_key) (Action (str_of "renameObject"))) in
  match set_header message (str_of "x-amz-rename-source") src_key with
  | Ok message =>
      let! message := constructed_crt (set_optional_header message "x-amz-rename-source-if-match" (rop_if_source_match params)) in
      let! message := constructed_crt (set_optional_header message "If-Match" (rop_if_match params)) in
      let! message := constructed_crt (set_optional_header message "If-None-Match" (rop_if_none_match params)) in
      let! message := constructed_crt (set_optional_header message "x-amz-client-token" (Some (default token (rop_client_token params)))) in
      let! message := constructed_crt (add_custom_headers message (rop_custom_headers params)) in
      meta_request_without_payload (into_options message S3PutObjectSingle) parse_rename_object_error
  | _ => Panic
  end.

(** ** GetObjectAttributes *)

(** [parse] is the [FromStr] of the type of the field. *)
Definition get_field_or_none {A} (parse : string → option A) (element : Element) (name : string) : outcome ParseError (option A) :=
  match get_field element name with
  | Ok text => match parse text with Some a => Ok (Some a) | None => Err (InvalidResponse element "failed to parse field from string") end
  | Err (MissingField _ _) => Ok None
  | Err e => Err e
  | Panic => Panic
  end.
Definition parse_checksums (element : Element) : outcome ParseError Checksum :=
  let! checksum_crc32 := get_field_or_none Some element "ChecksumCRC32" in
  let! checksum_crc32c := get_field_or_none Some element "ChecksumCRC32C" in
  let! checksum_sha1 := get_field_or_none Some element "ChecksumSHA1" in
  let! checksum_sha256 := get_field_or_none Some element "ChecksumSHA256" in
  let! checksum_crc64nvme := get_field_or_none Some element "ChecksumCRC64NVME" in
  Ok {| cs_crc64nvme := checksum_crc64nvme; cs_crc32 := checksum_crc32; cs_crc32c := checksum_crc32c; cs_sha1 := checksum_sha1;
        cs_sha256 := checksum_sha256 |}.
(** [parse().unwrap()] *)
Definition parse_unwrap (text : string) : outcome ParseError Z := match parse_uint u64_max text with Some n => Ok n | None => Panic end.
Definition parse_part (part_elem : Element) : outcome ParseError ObjectPart :=
  let! checksum_inner := parse_checksums part_elem in
  let! part_number := get_field part_elem "PartNumber" in
  let! size := get_field part_elem "Size" in
  let! part_number := parse_unwrap part_number in
  let! size := parse_unwrap size in
  Ok {| opt_checksum := Some checksum_inner; opt_part_number := part_number; opt_size := size |}.
Definition parse_object_parts (element : Element) : outcome ParseError GetObjectAttributesParts :=
  let! is_truncated := get_field_or_none parse_bool element "IsTruncated" in
  let! max_parts := get_field_or_none (parse_uint u64_max) element "MaxParts" in
  let! next_part_number_marker := get_field_or_none (parse_uint u64_max) element "NextPartNumberMarker" in
  let! part_number_marker := get_field_or_none (parse_uint u64_max) element "PartNumberMarker" in
  let! total_parts_count := get_field_or_none (parse_uint u64_max) element "PartsCount" in
  let! r := take_children (children_fuel element) "Part" parse_part element in
  Ok {| gap_is_truncated := is_truncated; gap_max_parts := max_parts; gap_next_part_number_marker := next_part_number_marker;
        gap_part_number_marker := part_number_marker; gap_parts := if bool_decide (r.1 = []) then None else Some r.1;
        gap_total_parts_count := total_parts_count |}.
Definition attributes_from_xml (element : Element) : outcome ParseError GetObjectAttributesResult :=
  let! etag := get_field_or_none Some element "ETag" in
  let! storage_class := get_field_or_none Some element "StorageClass" in
  let! object_size := get_field_or_none (parse_uint u64_max) element "ObjectSize" in
  let '(checksum_elem, element) := match xml_take_child element "Checksum" with Some (e, element) => (Some e, element) | None => (None, element) end in
  let! checksum := match checksum_elem with Some e => let! c := parse_checksums e in Ok (Some c) | None => Ok None end in
  let! object_parts :=
    match xml_take_child element "ObjectParts" with Some (e, _) => let! p := parse_object_parts e in Ok (Some p) | None => Ok None end in
  Ok {| gar_etag := etag; gar_checksum := checksum; gar_object_parts := object_parts; gar_storage_class := storage_class; gar_object_size := object_size |}.
Definition parse_get_object_attributes_error (r : MetaRequestResult) : option GetObjectAttributesError :=
  if mr_response_status r =? 404 then
    error_str ← error_field "Code" r;
    if bool_decide (error_str = "NoSuchBucket") then Some AttrNoSuchBucket
    else if bool_decide (error_str = "NoSuchKey") then Some AttrNoSuchKey else None
  else None.
Definition attribute_name (a : ObjectAttribute) : string :=
  match a with
  | AttrETag => "ETag" | AttrChecksum => "Checksum" | AttrObjectParts => "ObjectParts" | AttrStorageClass => "StorageClass" | AttrObjectSize => "ObjectSize"
  end.
Fixpoint join_names (names : list string) : str :=
  match names with
  | [] => []
  | [name] => str_of name
  | name :: names => str_of name ++ str_of "," ++ join_names names
  end.
Definition crt_get_object_attributes (c : S3CrtClientInner) (bucket key : str) (max_parts part_number_marker : option Z)
    (object_attributes : list ObjectAttribute) : outcome (ObjectClientError GetObjectAttributesError) GetObjectAttributesResult :=
  let! message := constructed (new_request_template c (str_of "GET") bucket) in
  let! message := constructed_crt (set_request_path_and_query message (str_of "/" ++ key) (Query [(str_of "attributes", [])])) in
  let! message := constructed_crt (set_optional_header message "x-amz-max-parts" (format_uint <$> max_parts)) in
  let! message := constructed_crt (set_optional_header message "x-amz-part-number-marker" (format_uint <$> part_number_marker)) in
  let! message := constructed_crt (set_header message (str_of "x-amz-object-attributes") (join_names (map attribute_name object_attributes))) in
  let! body := meta_request_with_body_payload (into_options message S3GetObjectAttributes) parse_get_object_attributes_error in
  match xml_parse body with
  | None => internal (CauseParse XmlError)
  | Some element => outcome_map_err (λ e, OtherError (InternalError (CauseParse e))) (attributes_from_xml element)
  end.

(** ** PutObject in a single request *)

Definition SSE_TYPE_HEADER_NAME : string := "x-amz-server-side-encryption".
Definition SSE_KEY_ID_HEADER_NAME : string := "x-amz-server-side-encryption-aws-kms-key-id".
Definition get_etag (headers : aws_headers) : outcome HeadersError ETag :=
  let! value := get_as_string headers (str_of "ETag") in Ok (string_of value).
Definition extract_result {E} (headers : aws_headers) : outcome (ObjectClientError E) PutObjectResult :=
  outcome_map_err (λ e, OtherError (InternalError (CauseHeaders e)))
    (let! etag := get_etag headers in
     let! sse_type := optional_text headers SSE_TYPE_HEADER_NAME in
     let! sse_kms_key_id := optional_text headers SSE_KEY_ID_HEADER_NAME in
     Ok {| por_etag := etag; por_sse_type := sse_type; por_sse_kms_key_id := sse_kms_key_id |}).
Definition parse_if_error_message_starts_with (prefix : string) (element : Element) (error : PutObjectError) : option PutObjectError :=
  child ← xml_get_child element "Message";
  error_message ← xml_get_text child;
  if starts_with (str_of error_message) (str_of prefix) then Some error else None.
Definition parse_put_object_single_error (r : MetaRequestResult) : option PutObjectError :=
  if mr_response_status r =? 400 then
    root ← error_root r;
    error_str ← child_text root "Code";
    if bool_decide (error_str = "InvalidWriteOffset") then Some InvalidWriteOffset
    else if bool_decide (error_str = "BadDigest") then Some BadChecksum
    else if bool_decide (error_str = "InvalidArgument") then parse_if_error_message_starts_with "Request body cannot be empty" root EmptyBody
    else if bool_decide (error_str = "InvalidRequest") then parse_if_error_message_starts_with "Checksum Type mismatch" root InvalidChecksumType
    else None
  else if mr_response_status r =? 404 then
    error_str ← error_field "Code" r;
    if bool_decide (error_str = "NoSuchKey") then Some NoSuchKey else None
  else if mr_response_status r =? 412 then Some PreconditionFailed
  else if mr_response_status r =? 501 then Some NotImplemented
  else None.
Definition new_put_request (c : S3CrtClientInner) (bucket key : str) (storage_class server_side_encryption ssekms_key_id : option string)
    : outcome S3RequestError S3Message :=
  let! message := outcome_map_err ConstructionFailure (new_request_template c (str_of "PUT") bucket) in
  outcome_map_err (λ e, ConstructionFailure (ConstructionCrtError e))
    (let! message := set_request_path message (str_of "/" ++ key) in
     let! message := set_optional_header message "x-amz-storage-class" storage_class in
     let! message := set_optional_header message SSE_TYPE_HEADER_NAME server_side_encryption in
     set_optional_header message SSE_KEY_ID_HEADER_NAME ssekms_key_id).
(** [uc_value] is the base64 form of the checksum. *)
Definition set_checksum_header (m : S3Message) (checksum : UploadChecksum) : outcome Z S3Message :=
  match uc_algorithm checksum with
  | AlgCrc64nvme => set_header m (str_of "x-amz-checksum-crc64nvme") (str_of (uc_value checksum))
  | AlgCrc32c => set_header m (str_of "x-amz-checksum-crc32c") (str_of (uc_value checksum))
  | AlgCrc32 => set_header m (str_of "x-amz-checksum-crc32") (str_of (uc_value checksum))
  | AlgSha1 => set_header m (str_of "x-amz-checksum-sha1") (str_of (uc_value checksum))
  | AlgSha256 => set_header m (str_of "x-amz-checksum-sha256") (str_of (uc_value checksum))
  | AlgUnknown _ => Panic
  end.
(** The headers of the metadata, in the order of the map *)
Fixpoint set_metadata_headers (m : S3Message) (metadata : list (string * string)) : outcome Z S3Message :=
  match metadata with
  | [] => Ok m
  | (name, value) :: metadata =>
      let! m := set_header m (str_of "x-amz-meta-" ++ str_of name) (str_of value) in
      set_metadata_headers m metadata
  end.
Definition single_put_message (message : S3Message) (params : PutObjectSingleParams) (custom_headers : list (string * string)) (contents : bytes)
    : outcome Z S3Message :=
  let! message := set_header message (str_of "Content-Length") (str_of (format_uint (zlen contents))) in
  let! message := match psp_checksum params with Some checksum => set_checksum_header message checksum | None => Ok message end in
  let! message := set_optional_header message "x-amz-write-offset-bytes" (format_uint <$> psp_write_offset_bytes params) in
  let! message := set_optional_header message "If-Match" (psp_if_match params) in
  let! message := set_metadata_headers message (map_to_list (psp_object_metadata params)) in
  let! message := add_custom_headers message custom_headers in
  Ok (set_body_stream message (Some contents)).
Definition crt_put_object_single (c : S3CrtClientInner) (bucket key : str) (params : PutObjectSingleParams) (custom_headers : list (string * string))
    (contents : bytes) : outcome (ObjectClientError PutObjectError) PutObjectResult :=
  let! message :=
    outcome_map_err OtherError
      (new_put_request c bucket key (psp_storage_class params) (psp_server_side_encryption params) (psp_ssekms_key_id params)) in
  let! message := constructed_crt (single_put_message message params custom_headers contents) in
  let! headers := meta_request_with_headers_payload (into_options message S3PutObjectSingle) parse_put_object_single_error in
  extract_result headers.
End requests.
