(* ===== verification/CrtStream.v ===== *)
(** * Streaming requests of the S3 client

    [get_object.rs] and [put_object.rs] of [mountpoint-s3-client/src/s3_crt_client/].  A GetObject request is a channel that
    the callbacks of the CRT fill and the reader polls; the turns of both are interleaved by a schedule.  A PutObject request
    is written to, and then completed after a review of its parts; what the CRT calls back then depends on the answer of
    the review. *)

From stdpp Require Import pretty.
From S2P Require Import Prelude Checksums Part RequestRange MemLimiter Backpressure PartQueue PartStream BlockFormat ClientChecksums Upload AppendUpload Path S3Path Inode Superblock MockClient CrtHttp CrtClient CrtRequests.
Local Open Scope Z_scope.

(** ** GetObject *)

Section get.
Context `{http : AwsHttp, percent : PercentEncoding, xml : XmlTree, codes : CrtErrors}.

Inductive S3GetObjectError := GetErrNoSuchBucket (m : ClientErrorMetadata) | GetErrNoSuchKey (m : ClientErrorMetadata) | GetErrPreconditionFailed (m : ClientErrorMetadata).
Definition parse_get_object_error (r : MetaRequestResult) : option S3GetObjectError :=
  let client_error_metadata := from_meta_request_result r in
  if mr_response_status r =? 404 then
    error_str ← error_field "Code" r;
    if bool_decide (error_str = "NoSuchBucket") then Some (GetErrNoSuchBucket client_error_metadata)
    else if bool_decide (error_str = "NoSuchKey") then Some (GetErrNoSuchKey client_error_metadata)
    else None
  else if mr_response_status r =? 412 then Some (GetErrPreconditionFailed client_error_metadata)
  else None.
Abbreviation get_error := (ObjectClientError S3GetObjectError).

Inductive S3GetObjectEvent := GoHeaders (h : aws_headers) | GoBodyPart (part : GetBodyPart) | GoError (e : get_error).
(** The channel between the callbacks and the response; [gc_headers_sender] is there until headers are sent. *)
Record get_channel := { gc_events : list S3GetObjectEvent; gc_headers_sender : bool; gc_closed : bool }.
Definition new_channel : get_channel := {| gc_events := []; gc_headers_sender := true; gc_closed := false |}.
Definition unbounded_send (ch : get_channel) (e : S3GetObjectEvent) : get_channel :=
  if gc_closed ch then ch else {| gc_events := gc_events ch ++ [e]; gc_headers_sender := gc_headers_sender ch; gc_closed := gc_closed ch |}.
Definition get_callback (ch : get_channel) (ev : crt_event) : get_channel :=
  match ev with
  | OnTelemetry _ _ => ch
  | OnHeaders headers status =>
      if success_status status && gc_headers_sender ch then
        unbounded_send {| gc_events := gc_events ch; gc_headers_sender := false; gc_closed := gc_closed ch |} (GoHeaders headers)
      else ch
  | OnBody offset data => unbounded_send ch (GoBodyPart {| gbp_offset := offset; gbp_data := data |})
  | OnFinish r =>
      let ch := match finish_result parse_get_object_error r with Err e => unbounded_send ch (GoError e) | _ => ch end in
      {| gc_events := gc_events ch; gc_headers_sender := gc_headers_sender ch; gc_closed := true |}
  end.

(** The message of the request; [range] is half open. *)
Record GetObjectParams := { gop_range : option (Z * Z); gop_if_match : option ETag; gop_checksum_mode : bool }.
Definition range_value (range : Z * Z) : str :=
  str_of "bytes=" ++ str_of (format_uint range.1) ++ str_of "-" ++ str_of (format_uint (Z.max 0 (range.2 - 1))).
Definition get_message (c : S3CrtClientInner) (bucket key : str) (params : GetObjectParams) : outcome get_error S3Message :=
  let! message := constructed (new_request_template c (str_of "GET") bucket) in
  constructed_crt
    (let! message := set_header message (str_of "accept") (str_of "*/*") in
     let! message := if gop_checksum_mode params then set_header message (str_of "x-amz-checksum-mode") (str_of "enabled") else Ok message in
     let! message := set_optional_header message "If-Match" (gop_if_match params) in
     let! message := match gop_range params with Some range => set_header message (str_of "Range") (range_value range) | None => Ok message end in
     set_request_path message (str_of "/" ++ key)).
Definition with_part_size (options : MetaRequestOptions) (part_size : Z) (async_writes : bool) : MetaRequestOptions :=
  {| mro_message := mro_message options; mro_body := mro_body options; mro_endpoint := mro_endpoint options;
     mro_checksum_config := mro_checksum_config options; mro_signing_config := mro_signing_config options;
     mro_request_type := mro_request_type options; mro_operation_name := mro_operation_name options; mro_part_size := Some part_size;
     mro_send_using_async_writes := async_writes; mro_copy_source_uri := mro_copy_source_uri options |}.

(** [gr_window] is the shared [read_window_end_offset] of the backpressure handle; [gr_terminated] is [is_terminated] of the
    receiver. *)
Record S3GetObjectResponse := {
  gr_requested_checksums : bool;
  gr_window : option Z;
  gr_headers : aws_headers;
  gr_next_offset : Z;
  gr_terminated : bool;
}.

(** The request between its callbacks to come, the channel and the response *)
Record get_state := { gs_pending : list crt_event; gs_channel : get_channel }.
(** [event_receiver.next().await]: the callbacks run until there is an event or the channel is closed. *)
Fixpoint next_event (pending : list crt_event) (ch : get_channel) : get_state * outcome get_error (option S3GetObjectEvent) :=
  match gc_events ch with
  | e :: events =>
      ({| gs_pending := pending; gs_channel := {| gc_events := events; gc_headers_sender := gc_headers_sender ch; gc_closed := gc_closed ch |} |}, Ok (Some e))
  | [] =>
      if gc_closed ch then ({| gs_pending := pending; gs_channel := ch |}, Ok None)
      else
        match pending with
        | ev :: pending => next_event pending (get_callback ch ev)
        | [] => ({| gs_pending := []; gs_channel := ch |}, Panic)
        end
  end.
Context `{crt : !CrtClient}.
Definition crt_get_object (c : S3CrtClientInner) (bucket key : str) (params : GetObjectParams)
    : outcome get_error (get_state * S3GetObjectResponse) :=
  let next_offset := default 0 (fst <$> gop_range params) in
  let! message := get_message c bucket key params in
  match make_meta_request (with_part_size (into_options message S3GetObject) (ci_read_part_size c) false) with
  | inl error => Err (OtherError (S3CrtError error))
  | inr events =>
      let '(st, event) := next_event events new_channel in
      let! event := event in
      match event with
      | Some (GoHeaders headers) =>
          Ok (st, {| gr_requested_checksums := gop_checksum_mode params;
                     gr_window := if ci_enable_backpressure c then Some (wadd next_offset (ci_initial_read_window_size c)) else None;
                     gr_headers := headers; gr_next_offset := next_offset; gr_terminated := false |})
      | Some (GoError e) => Err e
      | _ => internal MissingHeaders
      end
  end.

(** [increment_read_window] and [ensure_read_window] of the handle *)
Definition gr_increment_read_window (r : S3GetObjectResponse) (len : Z) : S3GetObjectResponse :=
  {| gr_requested_checksums := gr_requested_checksums r; gr_window := (λ w, wadd w len) <$> gr_window r; gr_headers := gr_headers r;
     gr_next_offset := gr_next_offset r; gr_terminated := gr_terminated r |}.
Definition gr_ensure_read_window (r : S3GetObjectResponse) (desired_end_offset : Z) : S3GetObjectResponse :=
  match gr_window r with
  | Some w => gr_increment_read_window r (Z.max 0 (desired_end_offset - w))
  | None => r
  end.

Inductive poll_result := PollPending | PollReady (item : option (GetBodyPart + get_error)).
Definition gr_advance (r : S3GetObjectResponse) (next_offset : Z) (terminated : bool) : S3GetObjectResponse :=
  {| gr_requested_checksums := gr_requested_checksums r; gr_window := gr_window r; gr_headers := gr_headers r; gr_next_offset := next_offset;
     gr_terminated := terminated |}.
Definition gr_poll_next (ch : get_channel) (r : S3GetObjectResponse) : get_channel * S3GetObjectResponse * outcome Empty_set poll_result :=
  if gr_terminated r then (ch, r, Ok (PollReady None))
  else
    match gc_events ch with
    | e :: events =>
        let ch := {| gc_events := events; gc_headers_sender := gc_headers_sender ch; gc_closed := gc_closed ch |} in
        match e with
        | GoBodyPart part => (ch, gr_advance r (wadd (gbp_offset part) (zlen (gbp_data part))) false, Ok (PollReady (Some (inl part))))
        | GoHeaders _ => (ch, r, Panic)
        | GoError e => (ch, r, Ok (PollReady (Some (inr e))))
        end
    | [] =>
        if gc_closed ch then (ch, gr_advance r (gr_next_offset r) true, Ok (PollReady None))
        else
          match gr_window r with
          | Some window => if window <=? gr_next_offset r then (ch, r, Ok (PollReady (Some (inr (OtherError EmptyReadWindow))))) else (ch, r, Ok PollPending)
          | None => (ch, r, Ok PollPending)
          end
    end.

(** Metadata and checksums from the headers of the response *)
Definition metadata_of (headers : list (str * str)) : list (str * str) :=
  omap (λ kv, key ← to_str kv.1; name ← strip_prefix (str_of "x-amz-meta-") key; value ← to_str kv.2; Some (name, value)) headers.
Definition get_object_metadata (r : S3GetObjectResponse) : outcome HeadersError (list (str * str)) :=
  let! headers := headers_iter (gr_headers r) in Ok (metadata_of headers).
Inductive ObjectChecksumError := DidNotRequestChecksums | ChecksumHeadersError (e : HeadersError).
Definition get_object_checksum (r : S3GetObjectResponse) : outcome ObjectChecksumError Checksum :=
  if negb (gr_requested_checksums r) then Err DidNotRequestChecksums
  else outcome_map_err ChecksumHeadersError (parse_checksum (gr_headers r)).
End get.

(** ** PutObject *)

Section put.
Context `{http : AwsHttp, percent : PercentEncoding, xml : XmlTree, codes : CrtErrors}.
Abbreviation put_error := (ObjectClientError PutObjectError).

(** The callbacks after the last write; how they go on depends on the answer of the review. *)
Inductive put_script :=
| PsTelemetry (request_type : RequestType) (error : Z) (next : put_script)
| PsHeaders (headers : aws_headers) (status : Z) (next : put_script)
| PsReview (review : UploadReview) (next : bool → put_script)
| PsFinish (result : MetaRequestResult).
(** The upload in the CRT.  [cp_start]: the callbacks until the upload is created or has failed.  [cp_write]:
    [aws_s3_meta_request_poll_write], once it is not pending: an error code or the number of bytes that were taken. *)
Class CrtUpload := {
  cp_state : Type;
  cp_start : MetaRequestOptions → Z + (list crt_event * cp_state);
  cp_write : cp_state → bytes → bool → cp_state * (Z + Z);
  cp_finish : cp_state → put_script;
}.
Context `{upload : CrtUpload}.

(** [MetaRequestWrite]: the part of the slice that was not written *)
Definition meta_request_write (st : cp_state) (slice : bytes) (eof : bool) : cp_state * outcome Z bytes :=
  match cp_write st slice eof with
  | (st, inl error) => (st, Err error)
  | (st, inr bytes_processed) => (st, if (0 <=? bytes_processed) && (bytes_processed <=? zlen slice) then Ok (zdrop bytes_processed slice) else Panic)
  end.

Inductive S3PutObjectRequestState := PendingWrite | Idle.
Record S3PutObjectRequest := {
  pq_meta_request : cp_state;
  pq_review_callback : option (UploadReview → bool);
  pq_total_bytes : Z;
  pq_state : S3PutObjectRequestState;
}.

(** *** Creating the upload *)

(** What [mpu_created] receives: a successful CreateMultipartUpload, or the end of the request *)
Fixpoint mpu_created (events : list crt_event) : outcome put_error unit :=
  match events with
  | [] => Panic
  | OnTelemetry CreateMultipartUpload error :: events => if error =? 0 then Ok tt else mpu_created events
  | OnFinish r :: _ => let! _ := finish_result (λ _, None) r in internal CreateMultipartUploadFailed
  | _ :: events => mpu_created events
  end.
Definition checksum_config_of (trailing_checksums : PutObjectTrailingChecksums) : option ChecksumConfig :=
  match trailing_checksums with
  | TrailingEnabled => Some TrailingCrc32c
  | TrailingReviewOnly => Some UploadReviewCrc32c
  | TrailingDisabled => None
  end.
Definition crt_put_object (c : S3CrtClientInner) (bucket key : str) (params : PutObjectParams) (custom_headers : list (string * string))
    : outcome put_error S3PutObjectRequest :=
  let! message :=
    outcome_map_err OtherError (new_put_request c bucket key (pop_storage_class params) (pop_server_side_encryption params) (pop_ssekms_key_id params)) in
  let message := set_checksum_config message (checksum_config_of (pop_trailing_checksums params)) in
  let! message := constructed_crt (set_metadata_headers message (map_to_list (pop_object_metadata params))) in
  let! message := constructed_crt (add_custom_headers message custom_headers) in
  match cp_start (with_part_size (into_options message S3PutObject) (ci_write_part_size c) true) with
  | inl error => Err (OtherError (S3CrtError error))
  | inr (events, st) =>
      let! _ := mpu_created events in
      Ok {| pq_meta_request := st; pq_review_callback := None; pq_total_bytes := 0; pq_state := Idle |}
  end.

(** *** Writing *)

Definition pq_with (r : S3PutObjectRequest) (st : cp_state) (total_bytes : Z) (state : S3PutObjectRequestState) : S3PutObjectRequest :=
  {| pq_meta_request := st; pq_review_callback := pq_review_callback r; pq_total_bytes := total_bytes; pq_state := state |}.
(** The loop of [write], which takes at least a byte in each round.  A future that is dropped stops between two of them:
    [rounds] is how many it completes, and [None] is the drop. *)
Fixpoint pq_write_loop (rounds : nat) (r : S3PutObjectRequest) (slice : bytes) : S3PutObjectRequest * option (outcome put_error unit) :=
  match slice with
  | [] => (pq_with r (pq_meta_request r) (pq_total_bytes r) Idle, Some (Ok tt))
  | _ :: _ =>
      match rounds with
      | O => (r, None)
      | S rounds =>
          match meta_request_write (pq_meta_request r) slice false with
          | (st, Ok remaining) => pq_write_loop rounds (pq_with r st (wadd (pq_total_bytes r) (zlen slice - zlen remaining)) (pq_state r)) remaining
          | (st, Err error) => (pq_with r st (pq_total_bytes r) (pq_state r), Some (Err (OtherError (S3CrtError error))))
          | (st, Panic) => (pq_with r st (pq_total_bytes r) (pq_state r), Some Panic)
          end
      end
  end.
Definition pq_write_for (rounds : nat) (r : S3PutObjectRequest) (slice : bytes) : S3PutObjectRequest * option (outcome put_error unit) :=
  match pq_state r with
  | PendingWrite => (r, Some (internal PreviousWriteFailed))
  | Idle => pq_write_loop rounds (pq_with r (pq_meta_request r) (pq_total_bytes r) PendingWrite) slice
  end.
(** A write that is awaited *)
Definition pq_write (r : S3PutObjectRequest) (slice : bytes) : S3PutObjectRequest * outcome put_error unit :=
  match pq_write_for (length slice) r slice with
  | (r, Some res) => (r, res)
  | (r, None) => (r, Panic)
  end.

(** *** Completing *)

(** [ReviewCallbackBox::invoke] *)
Definition box_invoke (box : option (UploadReview → bool)) (review : UploadReview) : bool :=
  match box with Some callback => callback review | None => false end.
(** The rest of the callbacks.  The CRT's hook for the review runs once, and so does the sender of the headers. *)
Fixpoint run_script (script : put_script) (hook : bool) (box : option (UploadReview → bool)) (headers : option aws_headers)
    : outcome put_error unit * option aws_headers :=
  match script with
  | PsTelemetry _ _ next => run_script next hook box headers
  | PsHeaders h _ next => run_script next hook box (Some (default h headers))
  | PsReview review next =>
      if hook then run_script (next (box_invoke box review)) false None headers else run_script (next true) false box headers
  | PsFinish r => (finish_result (λ _, None) r, headers)
  end.
Definition pq_review_and_complete (r : S3PutObjectRequest) (review_callback : UploadReview → bool) : outcome put_error PutObjectResult :=
  match pq_state r with
  | PendingWrite => internal PreviousWriteFailed
  | Idle =>
      assert! bool_decide (pq_review_callback r = None) in
      match meta_request_write (pq_meta_request r) [] true with
      | (_, Err error) => Err (OtherError (S3CrtError error))
      | (_, Panic) => Panic
      | (st, Ok _) =>
          let '(result, headers) := run_script (cp_finish st) true (Some review_callback) None in
          let! _ := result in
          match headers with Some headers => extract_result headers | None => Panic end
      end
  end.
Definition pq_complete (r : S3PutObjectRequest) : outcome put_error PutObjectResult := pq_review_and_complete r (λ _, true).
End put.
