(* ===== verification/CrtExample.v ===== *)
(** * A small CRT and a small S3

    Instances of the interfaces of the S3 client that evaluate: headers are lists, XML documents are trees that are written
    with the encoding of countable types, an upload takes two bytes at a time, and a server answers the requests of one
    bucket from the mock of S3.  They show that the contracts of [CrtSpec] and [CrtListing] can be met. *)

From stdpp Require Import countable.
From S2P Require Import Prelude Checksums Part RequestRange MemLimiter Backpressure PartQueue PartStream BlockFormat ClientChecksums Upload AppendUpload Path S3Path Inode Superblock MockClient CrtHttp CrtClient CrtRequests CrtStream.
From Stdlib Require Import Strings.Ascii.
Local Open Scope Z_scope.

Module CrtExample.
(** ** HTTP messages *)

Record list_message := { lm_method : str; lm_path : str; lm_headers : list (str * str) }.
Definition lm_with (m : list_message) (headers : list (str * str)) : list_message :=
  {| lm_method := lm_method m; lm_path := lm_path m; lm_headers := headers |}.
Definition without_name (name : str) (h : list (str * str)) : list (str * str) := List.filter (λ kv, negb (same_name name kv.1)) h.
#[export] Instance list_http : AwsHttp := {|
  aws_headers := list (str * str);
  aws_message := list_message;
  aws_http_headers_count h := length h;
  aws_http_headers_get_index h i := match h !! i with Some kv => inr kv | None => inl 34 end;
  aws_http_headers_has h name := existsb (λ kv, same_name name kv.1) h;
  aws_http_headers_get h name := match find (λ kv, same_name name kv.1) h with Some kv => inr kv.2 | None => inl 2056 end;
  aws_http_headers_erase h name := inr (without_name name h);
  aws_http_headers_add_header h kv := inr (h ++ [kv]);
  aws_http_headers_set h name value := inr (without_name name h ++ [(name, value)]);
  aws_http_message_new_request := inr {| lm_method := []; lm_path := []; lm_headers := [] |};
  aws_http_message_set_request_method m method := inr {| lm_method := method; lm_path := lm_path m; lm_headers := lm_headers m |};
  aws_http_message_set_request_path m path := inr {| lm_method := lm_method m; lm_path := path; lm_headers := lm_headers m |};
  aws_http_message_add_header m kv := inr (lm_with m (lm_headers m ++ [kv]));
  aws_http_message_get_headers := lm_headers;
  aws_http_message_with_headers := lm_with;
  AWS_ERROR_HTTP_HEADER_NOT_FOUND := 2056;
|}.
#[export] Instance list_http_laws : AwsHttpLaws.
Proof.
  refine {| header_pairs := λ h : @aws_headers list_http, h; message_method := lm_method; message_path := lm_path |}; simpl; intros; simplify_eq/=; try done.
  by match goal with H : _ !! _ = Some _ |- _ => rewrite H end.
Defined.
#[export] Instance percent_crate : PercentEncoding := λ set s, concat (map (λ c, if byte_in 128 255 c || set c then percent_byte c else [c]) s).
#[export] Instance percent_crate_laws : PercentEncodingLaws.
Proof. by split. Qed.

(** ** XML documents

    A node has a leaf with its name and its text, and then its children. *)
Abbreviation tree := (gen_tree (string * option string)).
Definition leaf_of (e : tree) : string * option string := match e with GenNode _ (GenLeaf leaf :: _) => leaf | _ => (""%string, None) end.
Definition children_of (e : tree) : list tree := match e with GenNode _ (_ :: children) => children | _ => [] end.
Definition elem (name : string) (text : option string) (children : list tree) : tree := GenNode 0 (GenLeaf (name, text) :: children).
Fixpoint bits_of (p : positive) : bytes := match p with xH => [] | xO p => x00 :: bits_of p | xI p => x01 :: bits_of p end.
Fixpoint positive_of (bs : bytes) : option positive :=
  match bs with
  | [] => Some xH
  | x00 :: bs => xO <$> positive_of bs
  | x01 :: bs => xI <$> positive_of bs
  | _ => None
  end.
Lemma positive_of_bits p : positive_of (bits_of p) = Some p.
Proof. induction p as [p IH|p IH|]; cbn [bits_of positive_of]; [by rewrite IH|by rewrite IH|done]. Qed.
Definition print_tree (e : tree) : bytes := bits_of (encode e).
Definition remove_named (name : string) : list tree → list tree :=
  fix go es := match es with [] => [] | e :: es => if bool_decide ((leaf_of e).1 = name) then es else e :: go es end.
#[export] Instance tree_xml : XmlTree := {|
  Element := tree;
  xml_parse body := positive_of body ≫= decode;
  xml_name e := (leaf_of e).1;
  xml_elements := children_of;
  xml_get_child e name := find (λ e, bool_decide ((leaf_of e).1 = name)) (children_of e);
  xml_take_child e name :=
    child ← find (λ e, bool_decide ((leaf_of e).1 = name)) (children_of e);
    Some (child, elem (leaf_of e).1 (leaf_of e).2 (remove_named name (children_of e)));
  xml_get_text e := (leaf_of e).2;
|}.
Lemma remove_named_first name es : remove_named name es = without_first name es.
Proof. induction es as [|e es IH]; [done|]. cbn [without_first]. by rewrite <-IH. Qed.
#[export] Instance tree_xml_laws : XmlTreeLaws.
Proof. split; [done|]. intros e name. simpl. unfold first_named. simpl. destruct (find _ (children_of e)); [|done]. by rewrite remove_named_first. Qed.
Lemma parse_print_tree (e : tree) : xml_parse (print_tree e) = Some e.
Proof. simpl. unfold print_tree. rewrite positive_of_bits. simpl. by rewrite decode_encode. Qed.

(** Dates are written as seconds. *)
#[export] Instance second_dates : Dates := {| parse_rfc3339 := parse_uint u64_max; parse_rfc2822 := parse_uint u64_max |}.
#[export] Instance crt_codes : CrtErrors := {|
  AWS_ERROR_S3_CANCELED := 14349; AWS_ERROR_S3_SLOW_DOWN := 14352; AWS_AUTH_SIGNING_NO_CREDENTIALS := 6146;
  AWS_ERROR_S3EXPRESS_CREATE_SESSION_FAILED := 14366 |}.

(** ** A client *)

Definition uri : Uri := {| uri_host_name := str_of "s3.example.com"; uri_path := str_of "/bucket"; uri_host_port := 443 |}.
Definition client : S3CrtClientInner := {|
  ci_resolve_for_bucket bucket :=
    if bool_decide (bucket = str_of "bucket") then
      Some {| ep_uri := uri; ep_signing_region := str_of "us-east-1"; ep_scheme_name := "sigv4"; ep_signing_name := str_of "s3"; ep_disable_double_encoding := true |}
    else None;
  ci_credentials := true; ci_user_agent_header := str_of "mountpoint"; ci_request_payer := None; ci_bucket_owner := Some (str_of "111122223333");
  ci_read_part_size := 8388608; ci_write_part_size := 8388608; ci_enable_backpressure := false; ci_initial_read_window_size := 0 |}.
Definition success : MetaRequestResult :=
  {| mr_response_status := 200; mr_crt_error := 0; mr_error_response_headers := None; mr_error_response_body := None |}.
Definition failure (status error : Z) : MetaRequestResult :=
  {| mr_response_status := status; mr_crt_error := error; mr_error_response_headers := None; mr_error_response_body := None |}.

(** *** GetObject: the parts of a range, a byte each *)

Definition object : bytes := [x05; x06; x07].
Definition read_range (value : str) : option (Z * Z) :=
  rest ← strip_prefix (str_of "bytes=") value;
  m ← break_at "-"%char rest;
  first ← parse_uint u64_max (string_of m.1);
  last ← parse_uint u64_max (string_of m.2);
  Some (first, last + 1).
Definition body_events (offset n : Z) : list crt_event :=
  map (λ i, OnBody (offset + Z.of_nat i) (zslice (offset + Z.of_nat i) (offset + Z.of_nat i + 1) object)) (seq 0 (Z.to_nat n)).
Definition range_events (from to : Z) : list crt_event :=
  [OnTelemetry OtherRequest 0; OnHeaders [(str_of "ETag", str_of "v1")] 206] ++ body_events from (to - from) ++ [OnFinish success].
Definition get_server : CrtClient := λ options,
  match find (λ kv, same_name (str_of "Range") kv.1) (lm_headers (mro_message options)) ≫= (λ kv, read_range kv.2) with
  | Some (from, to) => inr (range_events from to)
  | None => inl 14341
  end.

(** *** PutObject: an upload that takes two bytes at a time *)

#[export] Instance pairs_upload : CrtUpload := {|
  cp_state := bytes;
  cp_start _ := inr ([OnTelemetry OtherRequest 0; OnTelemetry CreateMultipartUpload 0], []);
  cp_write st slice _ := (st ++ ztake 2 slice, inr (Z.min 2 (zlen slice)));
  cp_finish st :=
    PsReview (UploadExample.review_of [st]) (λ accepted,
      if accepted then PsHeaders [(str_of "ETag", str_of (UploadExample.etag_of st))] 200 (PsFinish success) else PsFinish (failure 0 14349));
|}.
End CrtExample.
