(* ===== verification/CrtSpec.v ===== *)
(** * What the streams of the S3 client promise

    [CrtStream] under the contract of the CRT: the reader of a GetObject request gets the bytes of the object in order, for
    every interleaving of callbacks and polls; a PutObject request that was completed stored exactly what was written to it.
    These are the assumptions that [PartStream] and [Upload] make. *)

From S2P Require Import Prelude Checksums Part RequestRange MemLimiter Backpressure PartQueue PartStream BlockFormat ClientChecksums Upload AppendUpload Path S3Path Inode Superblock MockClient CrtHttp CrtClient CrtRequests CrtStream CrtExample.
Local Open Scope Z_scope.

(** ** GetObject *)

Section get.
Context `{http : AwsHttp, percent : PercentEncoding, xml : XmlTree, codes : CrtErrors}.
Abbreviation get_error := (ObjectClientError S3GetObjectError).

(** The contract of the CRT for a range of an object: headers come before the body, the parts of the body are contiguous, and
    after a success the whole range was delivered.  A [strict] request does not fail. *)
Fixpoint crt_get_ok (obj : bytes) (strict : Prop) (pos e : Z) (seen : bool) (events : list crt_event) : Prop :=
  match events with
  | [] => False
  | OnTelemetry _ _ :: events => crt_get_ok obj strict pos e seen events
  | OnHeaders _ status :: events => crt_get_ok obj strict pos e (seen || success_status status) events
  | OnBody offset data :: events =>
      seen = true ∧ offset = pos ∧ 0 < zlen data ∧ pos + zlen data ≤ e ∧ data = zslice pos (pos + zlen data) obj ∧
      crt_get_ok obj strict (pos + zlen data) e seen events
  | OnFinish r :: events => events = [] ∧ (mr_is_err r = false → seen = true ∧ pos = e) ∧ (strict → mr_is_err r = false)
  end.

(** What the events of the CRT amount to for the reader *)
Fixpoint stream_items (events : list crt_event) : list (GetBodyPart + get_error) :=
  match events with
  | [] => []
  | OnBody offset data :: events => inl {| gbp_offset := offset; gbp_data := data |} :: stream_items events
  | OnFinish r :: _ => match finish_result parse_get_object_error r with Err e => [inr e] | _ => [] end
  | _ :: events => stream_items events
  end.
Definition channel_items (events : list S3GetObjectEvent) : list (GetBodyPart + get_error) :=
  omap (λ e, match e with GoBodyPart part => Some (inl part) | GoError e => Some (inr e) | GoHeaders _ => None end) events.

(** Turns of the CRT and of the reader, in any order *)
Inductive turn := TurnCrt | TurnPoll | TurnWindow (len : Z).
(** every poll with the response after it *)
Abbreviation poll_log := (list (outcome Empty_set poll_result * S3GetObjectResponse)).
Fixpoint run_turns (turns : list turn) (st : get_state) (r : S3GetObjectResponse) : get_state * S3GetObjectResponse * poll_log :=
  match turns with
  | [] => (st, r, [])
  | TurnCrt :: turns =>
      match gs_pending st with
      | ev :: pending => run_turns turns {| gs_pending := pending; gs_channel := get_callback (gs_channel st) ev |} r
      | [] => run_turns turns st r
      end
  | TurnPoll :: turns =>
      let '(ch, r, out) := gr_poll_next (gs_channel st) r in
      let '(st, r', outs) := run_turns turns {| gs_pending := gs_pending st; gs_channel := ch |} r in
      (st, r', (out, r) :: outs)
  | TurnWindow len :: turns => run_turns turns st (gr_increment_read_window r len)
  end.
(** The items that the polls returned; an empty window is not one of the stream. *)
Definition is_empty_window (e : get_error) : bool := match e with OtherError EmptyReadWindow => true | _ => false end.
Definition delivered (outs : list (outcome Empty_set poll_result)) : list (GetBodyPart + get_error) :=
  omap (λ out, match out with
    | Ok (PollReady (Some (inl part))) => Some (inl part)
    | Ok (PollReady (Some (inr e))) => if is_empty_window e then None else Some (inr e)
    | _ => None
    end) outs.

(** *** The invariant of the channel *)

(** After the headers: a running request has an open channel, a finished one has no callbacks left. *)
Definition flowing (st : get_state) : Prop :=
  gc_headers_sender (gs_channel st) = false ∧ Forall (λ e, match e with GoHeaders _ => False | GoError e => is_empty_window e = false | _ => True end) (gc_events (gs_channel st)) ∧
  (if gc_closed (gs_channel st) then gs_pending st = [] else ∃ obj strict pos e, crt_get_ok obj strict pos e true (gs_pending st)).
Definition rest_items (st : get_state) : list (GetBodyPart + get_error) := channel_items (gc_events (gs_channel st)) ++ stream_items (gs_pending st).

Lemma channel_items_app a b : channel_items (a ++ b) = channel_items a ++ channel_items b.
Proof. apply omap_app. Qed.
Lemma or_else_some {A} (a b : option A) x : or_else a b = Some x → a = Some x ∨ b = Some x.
Proof. destruct a; simpl; auto. Qed.
Lemma generic_error_window r : try_parse_generic_error r ≠ Some EmptyReadWindow.
Proof.
  assert (try_parse_redirect r ≠ Some EmptyReadWindow) as Hr.
  { unfold try_parse_redirect. destruct (mr_error_response_headers r); simpl; [|done]. destruct (Headers_get _ _); [|done..]. by destruct (to_str _). }
  assert (try_parse_forbidden r ≠ Some EmptyReadWindow) as Hf.
  { unfold try_parse_forbidden. destruct (mr_error_response_body r); [|done]. destruct (xml_parse _); simpl; [|done]. destruct (xml_get_child _ _); simpl; [|done].
    destruct (xml_get_text _); simpl; [|done]. by destruct (_ || _). }
  unfold try_parse_generic_error. repeat case_match; try done.
  - by intros [?|?]%or_else_some.
  - unfold try_parse_throttled, try_parse_canceled_request, try_parse_no_credentials_or_generic. by repeat case_match.
Qed.
Lemma finish_not_window {E} (parse : MetaRequestResult → option E) r e : finish_result parse r = Err e → match e with OtherError EmptyReadWindow => False | _ => True end.
Proof.
  unfold finish_result. destruct (negb (mr_is_err r)); [done|]. intros [= <-]. destruct (parse r); simpl; [done|].
  pose proof (generic_error_window r). by destruct (try_parse_generic_error r) as [[]|].
Qed.
Lemma finish_not_panic {E} (parse : MetaRequestResult → option E) r : finish_result parse r ≠ Panic.
Proof. unfold finish_result. by destruct (negb (mr_is_err r)). Qed.
Lemma finish_ok {E} (parse : MetaRequestResult → option E) r : finish_result parse r = Ok tt ↔ mr_is_err r = false.
Proof. unfold finish_result. by destruct (mr_is_err r). Qed.

Lemma callback_flows st ev pending : flowing st → gs_pending st = ev :: pending →
  let st' := {| gs_pending := pending; gs_channel := get_callback (gs_channel st) ev |} in flowing st' ∧ rest_items st' = rest_items st.
Proof.
  destruct st as [pending0 ch]. unfold flowing, rest_items. simpl. intros (Hsender & Hev & Hrest) ->. destruct (gc_closed ch) eqn:Hcl; [done|].
  destruct Hrest as (obj & strict & pos & e & Hok). destruct ev as [rt err|h status|offset data|r]; simpl in Hok |- *.
  - rewrite Hcl. split; [|done]. split; [done|]. split; [done|]. eauto 10.
  - rewrite Hsender, andb_false_r. rewrite Hcl. split; [|done]. split; [done|]. split; [done|]. eauto 10.
  - unfold unbounded_send. rewrite Hcl. simpl. rewrite channel_items_app, <-app_assoc. simpl. split; [|done]. split; [done|].
    split; [by apply Forall_app_2; [|repeat constructor]|]. destruct Hok as (_ & _ & _ & _ & _ & Hok). eauto 10.
  - destruct Hok as (-> & _). destruct (finish_result parse_get_object_error r) as [|err|] eqn:Hf; simpl.
    + split; [done|]. by rewrite app_nil_r.
    + unfold unbounded_send. rewrite Hcl. simpl. rewrite channel_items_app. simpl. rewrite app_nil_r. split; [|done]. split; [done|]. split; [|done].
      apply Forall_app_2; [done|]. constructor; [|done]. apply finish_not_window in Hf. by destruct err as [|[]].
    + by destruct (finish_not_panic _ _ Hf).
Qed.
Lemma poll_flows ch st r : flowing st → gs_channel st = ch → gr_terminated r = false →
  match gr_poll_next ch r with
  | (ch', r', out) =>
      let st' := {| gs_pending := gs_pending st; gs_channel := ch' |} in
      flowing st' ∧ delivered [out] ++ rest_items st' = rest_items st ∧ out ≠ Panic ∧
      (out = Ok PollPending → ∀ w, gr_window r' = Some w → gr_next_offset r' < w) ∧
      (gr_terminated r' = true → gc_closed ch' = true ∧ rest_items st' = []) ∧ (out = Ok (PollReady None) → gr_terminated r' = true)
  end.
Proof.
  destruct st as [pending ch0]. unfold flowing, rest_items, gr_poll_next. simpl. intros (Hsender & Hev & Hrest) -> Hterm. rewrite Hterm.
  destruct (gc_events ch) as [|ev events] eqn:Hevents.
  - destruct (gc_closed ch) eqn:Hcl; simpl.
    + rewrite Hevents, Hcl, Hrest. ands; try done.
    + destruct (gr_window r) as [w|] eqn:Hw; [destruct (Z.leb_spec w (gr_next_offset r))|]; simpl; rewrite Hevents, Hcl, ?Hterm; ands; try done.
      intros _ w' Hw'. rewrite Hw in Hw'. injection Hw' as <-. lia.
      intros _ w' Hw'. congruence.
  - inversion Hev as [|? ? Hhd Htl]; subst. destruct ev as [h|part|e]; [done| |]; simpl; ands; try done.
    + by rewrite Hhd.
    + by rewrite Hterm.
Qed.

Lemma delivered_cons out outs : delivered (out :: outs) = delivered [out] ++ delivered outs.
Proof. apply (omap_app _ [out] outs). Qed.
Lemma poll_terminated ch r : gr_terminated r = true → gr_poll_next ch r = (ch, r, Ok (PollReady None)).
Proof. intros Hterm. unfold gr_poll_next. by rewrite Hterm. Qed.
Lemma window_terminated r len : gr_terminated (gr_increment_read_window r len) = gr_terminated r.
Proof. done. Qed.

(** Whatever the order of the turns: nothing panics, what was delivered comes first, the stream ends after everything, and a
    reader only waits when the window lets the CRT deliver more. *)
Definition poll_fine (out : outcome Empty_set poll_result * S3GetObjectResponse) : Prop :=
  out.1 ≠ Panic ∧ (out.1 = Ok PollPending → ∀ w, gr_window out.2 = Some w → gr_next_offset out.2 < w).
Definition turns_ok (items : list (GetBodyPart + get_error)) (outs : poll_log) : Prop :=
  Forall poll_fine outs ∧ delivered (map fst outs) `prefix_of` items ∧ (Ok (PollReady None) ∈ map fst outs → delivered (map fst outs) = items).
Lemma run_turns_ok turns st r : flowing st → (gr_terminated r = true → gc_closed (gs_channel st) = true ∧ rest_items st = []) →
  turns_ok (rest_items st) (run_turns turns st r).2.
Proof.
  revert st r. induction turns as [|t turns IH]; intros st r Hfl Hterm; [split; [constructor|split; [apply prefix_nil|intros H; inversion H]]|].
  destruct t as [| |len]; cbn [run_turns].
  - destruct (gs_pending st) as [|ev pending] eqn:Hp; [by apply IH|]. destruct (callback_flows st ev pending Hfl Hp) as [Hfl' Hrest].
    rewrite <-Hrest. apply IH; [done|]. intros Ht. exfalso. destruct (Hterm Ht) as [Hcl _]. destruct Hfl as (_ & _ & Hp'). rewrite Hcl in Hp'. congruence.
  - destruct (gr_terminated r) eqn:Ht.
    + rewrite (poll_terminated _ r Ht). destruct (Hterm eq_refl) as [Hcl Hnil]. destruct st as [pending ch]. simpl.
      specialize (IH {| gs_pending := pending; gs_channel := ch |} r Hfl). destruct (run_turns turns _ r) as [[st' r'] outs].
      destruct IH as (Hall & Hpre & _); [by intros _|]. rewrite Hnil in *. apply prefix_nil_inv in Hpre. unfold turns_ok. cbn [snd map fst] in *.
      rewrite delivered_cons, Hpre. by split; [constructor; [by split|]|].
    + pose proof (poll_flows (gs_channel st) st r Hfl eq_refl Ht) as Hpoll. destruct (gr_poll_next _ r) as [[ch' r'] out].
      destruct Hpoll as (Hfl' & Hdel & Hnp & Hpend & Hterm' & Hnone). specialize (IH _ r' Hfl' Hterm'). destruct (run_turns turns _ r') as [[st'' r''] outs].
      destruct IH as (Hall & Hpre & Hend). unfold turns_ok. cbn [snd map fst] in *. rewrite delivered_cons, <-Hdel.
      split; [by constructor; [split|]|]. split; [by apply prefix_app|]. rewrite elem_of_cons. intros [<-|Hin]; [|f_equal; by apply Hend].
      destruct (Hterm' (Hnone eq_refl)) as [_ Hnil]. rewrite Hnil in Hpre |- *. by apply prefix_nil_inv in Hpre as ->.
  - apply IH; [done|]. by rewrite window_terminated.
Qed.

(** *** Waiting for the headers *)

Lemma stream_items_ok obj strict pos e seen events : crt_get_ok obj strict pos e seen events → body_ok obj strict pos e (stream_items events).
Proof.
  revert pos seen. induction events as [|ev events IH]; intros pos seen; [done|]. destruct ev as [rt err|h status|offset data|r]; simpl; eauto.
  - intros (_ & -> & Hlen & Hle & Hdata & Hrest). ands; eauto.
  - intros (_ & Hfin & Hstrict). destruct (finish_result parse_get_object_error r) as [[]|err|] eqn:Hf; simpl.
    + intros _. by apply Hfin, (finish_ok parse_get_object_error).
    + intros Hs. apply Hstrict, (finish_ok parse_get_object_error) in Hs. congruence.
    + by destruct (finish_not_panic _ _ Hf).
Qed.
Lemma next_event_ok obj strict pos e events :
  crt_get_ok obj strict pos e false events →
  match next_event events new_channel with
  | (st, Ok (Some (GoHeaders _))) => flowing st ∧ rest_items st = stream_items events
  | (_, Ok (Some (GoError _))) => ¬ strict
  | _ => False
  end.
Proof.
  induction events as [|ev events IH]; [done|]. cbn [next_event gc_events gc_closed new_channel]. destruct ev as [rt err|h status|offset data|r]; cbn [crt_get_ok].
  - exact IH.
  - unfold get_callback. destruct (success_status status) eqn:Hst; cbn [andb orb]; [|exact IH]. intros Hok.
    replace (next_event events _) with (Build_get_state events {| gc_events := []; gc_headers_sender := false; gc_closed := false |}, @Ok get_error _ (Some (GoHeaders h)))
      by (by destruct events).
    split; [|done]. split; [done|]. split; [constructor|]. simpl. eauto 10.
  - by intros [? _].
  - intros (-> & Hfin & Hstrict). unfold get_callback. destruct (finish_result parse_get_object_error r) as [[]|err|] eqn:Hf; cbn.
    + apply (finish_ok parse_get_object_error) in Hf. by destruct (Hfin Hf).
    + intros Hs. apply Hstrict, (finish_ok parse_get_object_error) in Hs. congruence.
    + by destruct (finish_not_panic _ _ Hf).
Qed.

(** *** A reader that awaits every item

    When a poll is pending, the CRT takes turns until there is something to read. *)
Fixpoint read_stream (fuel : nat) (st : get_state) (r : S3GetObjectResponse) : outcome Empty_set (list (GetBodyPart + get_error)) :=
  match fuel with
  | O => Panic
  | S fuel =>
      match gr_poll_next (gs_channel st) r with
      | (ch, r, Ok (PollReady (Some (inl part)))) =>
          let! items := read_stream fuel {| gs_pending := gs_pending st; gs_channel := ch |} r in Ok (inl part :: items)
      | (_, _, Ok (PollReady (Some (inr e)))) => Ok [inr e]
      | (_, _, Ok (PollReady None)) => Ok []
      | (ch, r, Ok PollPending) =>
          match gs_pending st with
          | ev :: pending => read_stream fuel {| gs_pending := pending; gs_channel := get_callback ch ev |} r
          | [] => Panic
          end
      | (_, _, _) => Panic
      end
  end.
Definition stream_fuel (st : get_state) : nat := S (2 * length (gs_pending st) + length (gc_events (gs_channel st))).
Definition get_client_error (e : get_error) : GetClientError :=
  match e with
  | ServiceError (GetErrNoSuchBucket _) => GetServiceError GetNoSuchBucket
  | ServiceError (GetErrNoSuchKey _) => GetServiceError GetNoSuchKey
  | ServiceError (GetErrPreconditionFailed _) => GetServiceError GetPreconditionFailed
  | OtherError _ => GetOtherError "client error"
  end.
Definition client_item (item : GetBodyPart + get_error) : GetBodyPart + GetClientError :=
  match item with inl part => inl part | inr e => inr (get_client_error e) end.

Lemma callback_length ev ch : (length (gc_events (get_callback ch ev)) ≤ S (length (gc_events ch)))%nat.
Proof.
  destruct ev; simpl; unfold unbounded_send; repeat case_match; simpl; rewrite ?length_app; simpl; try lia.
  all: simplify_eq; simpl; rewrite ?length_app; simpl; lia.
Qed.
(** A reader stops at the first error. *)
Fixpoint until_error (items : list (GetBodyPart + get_error)) : list (GetBodyPart + get_error) :=
  match items with
  | inl part :: items => inl part :: until_error items
  | inr e :: _ => [inr e]
  | [] => []
  end.
(** The items of the body, or those up to an empty window *)
Definition read_ok (items : list (GetBodyPart + get_error)) (window : option Z) (out : list (GetBodyPart + get_error)) : Prop :=
  out = until_error items ∨ (window ≠ None ∧ ∃ parts, map inl parts `prefix_of` items ∧ out = map inl parts ++ [inr (OtherError EmptyReadWindow)]).
Lemma read_ok_cons part items window out : read_ok items window out → read_ok (inl part :: items) window (inl part :: out).
Proof.
  intros [->|(Hw & parts & Hpre & ->)]; [by left|]. right. split; [done|]. exists (part :: parts). split; [|done]. by apply prefix_cons.
Qed.
Lemma read_stream_ok fuel st r : flowing st → gr_terminated r = false → (stream_fuel st ≤ fuel)%nat →
  ∃ out, read_stream fuel st r = Ok out ∧ read_ok (rest_items st) (gr_window r) out.
Proof.
  revert st r. induction fuel as [|fuel IH]; intros [pending ch] r Hfl Hterm Hfuel; unfold stream_fuel in Hfuel; simpl in Hfuel; [lia|].
  cbn [read_stream gs_channel gs_pending]. unfold gr_poll_next. rewrite Hterm. pose proof Hfl as (_ & Hev & Hrest). simpl in Hev, Hrest.
  destruct (gc_events ch) as [|ev events] eqn:Hevents.
  - destruct (gc_closed ch) eqn:Hcl.
    { exists []. split; [done|]. left. unfold rest_items. simpl. by rewrite Hevents, Hrest. }
    assert (∃ out, match pending with ev :: pending => read_stream fuel {| gs_pending := pending; gs_channel := get_callback ch ev |} r | [] => Panic end = Ok out ∧
      read_ok (rest_items {| gs_pending := pending; gs_channel := ch |}) (gr_window r) out) as Hwait.
    { destruct pending as [|ev pending]; [by destruct Hrest as (? & ? & ? & ? & ?)|].
      destruct (callback_flows {| gs_pending := ev :: pending; gs_channel := ch |} ev pending Hfl eq_refl) as [Hfl' <-].
      apply IH; [done|done|]. unfold stream_fuel. simpl. pose proof (callback_length ev ch). rewrite Hevents in *. simpl in *. lia. }
    destruct (gr_window r) as [w|] eqn:Hw; [destruct (Z.leb_spec w (gr_next_offset r)); [|done]|done].
    eexists. split; [done|]. right. split; [done|]. exists []. split; [apply prefix_nil|done].
  - inversion Hev as [|? ? Hhd Htl]; subst. destruct ev as [h|part|e]; [done| |]; cbv beta iota zeta.
    + match goal with |- context [read_stream fuel ?st' ?r'] => destruct (IH st' r') as (out & Hout & Hok) end; [|done| |].
      { split; [apply Hfl|]. split; [done|exact Hrest]. }
      { unfold stream_fuel. simpl in *. lia. }
      rewrite Hout. eexists. split; [done|]. unfold rest_items. simpl. rewrite Hevents. by apply read_ok_cons.
    + eexists. split; [done|]. left. unfold rest_items. simpl. by rewrite Hevents.
Qed.

Lemma until_error_ok obj strict pos e items : body_ok obj strict pos e items → body_ok obj strict pos e (map client_item (until_error items)).
Proof. revert pos. induction items as [|[part|err] items IH]; intros pos; simpl; [done| |done]. intros (? & ? & ? & ? & ?). ands; auto. Qed.
Lemma body_ok_strict {X Y} obj (strict strict' : Prop) pos e (items : list (GetBodyPart + X)) parts (err : Y) :
  body_ok obj strict pos e items → map inl parts `prefix_of` items → ¬ strict' → body_ok obj strict' pos e (map inl parts ++ [inr err]).
Proof.
  intros Hok [rest ->] Hns. revert pos Hok. induction parts as [|part parts IH]; intros pos; simpl; [done|]. intros (? & ? & ? & ? & ?). ands; auto.
Qed.
Lemma body_ok_imply {X} obj (P Q : Prop) pos e (items : list (GetBodyPart + X)) : (Q → P) → body_ok obj P pos e items → body_ok obj Q pos e items.
Proof. intros HQP. revert pos. induction items as [|[part|x] items IH]; intros pos; simpl; [auto| |auto]. intros (? & ? & ? & ? & ?). ands; auto. Qed.
Lemma read_ok_body obj (strict strict' : Prop) pos e items window out :
  body_ok obj strict pos e items → read_ok items window out → (strict' → strict ∧ window = None) → body_ok obj strict' pos e (map client_item out).
Proof.
  intros Hok [->|(Hw & parts & Hpre & ->)] Himp.
  - apply (body_ok_imply _ strict); [by intros [? _]%Himp|]. by apply until_error_ok.
  - rewrite map_app, map_map. apply (body_ok_strict obj strict strict' pos e items); [done|done|]. by intros [_ ?]%Himp.
Qed.

Context `{crt : !CrtClient}.
Lemma set_header_no_panic m name value : set_header m name value ≠ Panic.
Proof. unfold set_header, Message_set_header, crt_ok. by destruct (aws_http_headers_set _ _ _). Qed.
Lemma outcome_bind_no_panic {E A B} (c : outcome E A) (k : A → outcome E B) : c ≠ Panic → (∀ a, k a ≠ Panic) → outcome_bind c k ≠ Panic.
Proof. destruct c; simpl; auto. Qed.
Lemma crt_ok_no_panic {A} (r : Z + A) : crt_ok r ≠ Panic.
Proof. by destruct r. Qed.
Lemma map_err_no_panic {E F A} (f : E → F) (r : outcome E A) : r ≠ Panic → outcome_map_err f r ≠ Panic.
Proof. by destruct r. Qed.
Lemma template_no_panic c method bucket : new_request_template c method bucket ≠ Panic.
Proof.
  unfold new_request_template. destruct (ci_resolve_for_bucket c bucket); [|done]. apply outcome_bind_no_panic; [|done]. apply map_err_no_panic.
  repeat (apply outcome_bind_no_panic; [first [apply crt_ok_no_panic|unfold add_optional_header; case_match; [apply crt_ok_no_panic|done]]|intros ?]).
  unfold add_optional_header. case_match; [apply crt_ok_no_panic|done].
Qed.
Lemma get_message_no_panic c bucket key params : get_message c bucket key params ≠ Panic.
Proof.
  unfold get_message. apply outcome_bind_no_panic; [apply map_err_no_panic, template_no_panic|]. intros message. apply map_err_no_panic.
  apply outcome_bind_no_panic; [apply set_header_no_panic|]. intros m1.
  apply outcome_bind_no_panic; [case_match; [apply set_header_no_panic|done]|]. intros m2.
  apply outcome_bind_no_panic; [unfold set_optional_header; case_match; [apply set_header_no_panic|done]|]. intros m3.
  apply outcome_bind_no_panic; [case_match; [apply set_header_no_panic|done]|]. intros m4.
  unfold set_request_path, set_request_path_and_query. apply outcome_bind_no_panic; [apply crt_ok_no_panic|done].
Qed.

(** The body of the response to a conditional GetObject of a range *)
Definition range_params (etag : ETag) (from to : Z) : GetObjectParams := {| gop_range := Some (from, to); gop_if_match := Some etag; gop_checksum_mode := false |}.
Definition crt_body (c : S3CrtClientInner) (bucket key : str) (etag : ETag) (from to : Z) : GetObjectResponse :=
  match crt_get_object c bucket key (range_params etag from to) with
  | Ok (st, r) =>
      match read_stream (stream_fuel st) st r with Ok items => inr (map client_item items) | _ => inl (GetOtherError "panic") end
  | Err e => inl (get_client_error e)
  | Panic => inl (GetOtherError "panic")
  end.
(** The callbacks of that request, when it was sent *)
Definition sent_events (c : S3CrtClientInner) (bucket key : str) (params : GetObjectParams) (events : list crt_event) : Prop :=
  ∃ message, get_message c bucket key params = Ok message ∧
    make_meta_request (with_part_size (into_options message S3GetObject) (ci_read_part_size c) false) = inr events.

Lemma get_object_inv c bucket key params st r :
  crt_get_object c bucket key params = Ok (st, r) →
  ∃ events headers, sent_events c bucket key params events ∧ next_event events new_channel = (st, Ok (Some (GoHeaders headers))) ∧
    gr_terminated r = false ∧ gr_next_offset r = default 0 (fst <$> gop_range params) ∧ (ci_enable_backpressure c = false → gr_window r = None).
Proof.
  unfold crt_get_object. destruct (get_message c bucket key params) as [message| |] eqn:Hm; simpl; [|done..].
  destruct (make_meta_request _) as [|events] eqn:Hev; [done|]. destruct (next_event events new_channel) as [st' ev] eqn:Hne.
  destruct ev as [[[h|part|e]|]| |]; simpl; try done. intros [= <- <-]. exists events, h. simpl. ands; try done; [by exists message|]. by intros ->.
Qed.
Lemma get_object_flows c bucket key params obj strict from to st r :
  (∀ events, sent_events c bucket key params events → crt_get_ok obj strict from to false events) → crt_get_object c bucket key params = Ok (st, r) →
  ∃ events, sent_events c bucket key params events ∧ flowing st ∧ rest_items st = stream_items events ∧ body_ok obj strict from to (stream_items events).
Proof.
  intros Hcrt Hget. destruct (get_object_inv _ _ _ _ _ _ Hget) as (events & h & Hsent & Hne & _). pose proof (Hcrt events Hsent) as Hok.
  pose proof (next_event_ok obj strict from to events Hok) as Hnext. rewrite Hne in Hnext. destruct Hnext as [Hfl Hrest].
  exists events. ands; try done. by eapply stream_items_ok.
Qed.
Lemma get_object_no_panic c bucket key params obj strict from to :
  (∀ events, sent_events c bucket key params events → crt_get_ok obj strict from to false events) → crt_get_object c bucket key params ≠ Panic.
Proof.
  intros Hcrt. unfold crt_get_object. pose proof (get_message_no_panic c bucket key params) as Hnp.
  destruct (get_message c bucket key params) as [message| |] eqn:Hm; simpl; [|done..]. destruct (make_meta_request _) as [|events] eqn:Hev; [done|].
  pose proof (next_event_ok obj strict from to events (Hcrt events ltac:(by exists message))) as Hne. destruct (next_event events new_channel) as [st' [[[]|]| |]]; done.
Qed.
End get.

(** C26. The client's GetObject stream is the object.  Under the contract of the CRT (headers before the body, contiguous parts
    of the requested version, the whole range before a success), for every interleaving of the CRT's callbacks, the reader's
    polls and its enlargements of the window: starting the request and polling never panic; the parts and errors that were
    delivered are at any time a prefix of the stream, all of it once the stream ends; and a poll only waits when the window
    leaves the CRT something to deliver.  Read to its end, the response has the property that the part stream of the prefetcher
    assumes of S3, and it is complete when the request was sent, did not fail and has no backpressure. *)
Theorem crt_stream_is_object `{http : AwsHttp, percent : PercentEncoding, xml : XmlTree, codes : CrtErrors, crt : !CrtClient}
    (c : S3CrtClientInner) bucket key etag (obj : bytes) (strict : Prop) :
  (∀ from to events, 0 ≤ from < to → to ≤ zlen obj → sent_events c bucket key (range_params etag from to) events → crt_get_ok obj strict from to false events) →
  (∀ from to, 0 ≤ from < to → to ≤ zlen obj →
    crt_get_object c bucket key (range_params etag from to) ≠ Panic ∧
    ∀ st r, crt_get_object c bucket key (range_params etag from to) = Ok (st, r) →
      ∃ events, sent_events c bucket key (range_params etag from to) events ∧ body_ok obj strict from to (stream_items events) ∧
        ∀ turns, turns_ok (stream_items events) (run_turns turns st r).2) ∧
  get_object_ok obj
    (strict ∧ ci_enable_backpressure c = false ∧ ∀ from to, 0 ≤ from < to → to ≤ zlen obj → ∃ events, sent_events c bucket key (range_params etag from to) events)
    (crt_body c bucket key etag).
Proof.
  intros Hcrt. split.
  - intros from to Hft Hto. split; [apply (get_object_no_panic _ _ _ _ obj strict from to); eauto|]. intros st r Hget.
    destruct (get_object_flows c bucket key (range_params etag from to) obj strict from to st r) as (events & Hsent & Hfl & Hrest & Hbody); [eauto|done|].
    exists events. split; [done|]. split; [done|]. intros turns. rewrite <-Hrest. apply run_turns_ok; [done|].
    destruct (get_object_inv _ _ _ _ _ _ Hget) as (? & ? & _ & _ & -> & _). done.
  - intros from to Hft Hto. unfold crt_body. destruct (crt_get_object c bucket key (range_params etag from to)) as [[st r]|e|] eqn:Hget.
    + destruct (get_object_flows c bucket key (range_params etag from to) obj strict from to st r) as (events & Hsent & Hfl & Hrest & Hbody); [eauto|done|].
      destruct (get_object_inv _ _ _ _ _ _ Hget) as (? & ? & _ & _ & Hterm & _ & Hwin).
      destruct (read_stream_ok (stream_fuel st) st r Hfl Hterm ltac:(lia)) as (out & -> & Hout). rewrite Hrest in Hout.
      apply (read_ok_body obj strict _ from to (stream_items events) (gr_window r) out Hbody Hout). intros (? & ? & _). auto.
    + intros (Hs & _ & Hall). destruct (Hall from to Hft Hto) as (events & Hsent). pose proof (next_event_ok obj strict from to events (Hcrt _ _ _ Hft Hto Hsent)) as Hne.
      destruct Hsent as (message & Hm & Hev). unfold crt_get_object in Hget. rewrite Hm in Hget. simpl in Hget. rewrite Hev in Hget.
      destruct (next_event events new_channel) as [st' [[[]|]| |]]; simplify_eq/=; done.
    + by destruct (get_object_no_panic c bucket key (range_params etag from to) obj strict from to ltac:(eauto)).
Qed.

Import CrtExample.

(** The example server answers every range of its object. *)
Definition example_sent (from to : Z) : option (list crt_event) :=
  match get_message client (str_of "bucket") (str_of "key") (range_params "v1" from to) with
  | Ok message =>
      match get_server (with_part_size (into_options message S3GetObject) (ci_read_part_size client) false) with inr events => Some events | inl _ => None end
  | _ => None
  end.
Lemma example_get_ok from to events :
  0 ≤ from < to → to ≤ zlen object →
  sent_events (crt := get_server) client (str_of "bucket") (str_of "key") (range_params "v1" from to) events →
  crt_get_ok object True from to false events.
Proof.
  intros Hft Hto (message & Hm & Hev). unfold zlen in Hto. simpl in Hto. unfold make_meta_request in Hev.
  assert (example_sent from to = Some events) as Hsent by (unfold example_sent; by rewrite Hm, Hev). clear Hm Hev.
  assert ((from, to) ∈ [(0, 1); (0, 2); (0, 3); (1, 2); (1, 3); (2, 3)]) as Hin by (rewrite !elem_of_cons, !pair_equal_spec; lia).
  assert (example_sent from to = Some (range_events from to)) as Hrange.
  { repeat (apply elem_of_cons in Hin as [[= -> ->]|Hin]; [match goal with |- _ = ?r => vm_cast_no_check (eq_refl r) end|]). by apply not_elem_of_nil in Hin. }
  rewrite Hrange in Hsent. injection Hsent as <-.
  repeat (apply elem_of_cons in Hin as [[= -> ->]|Hin]; [cbn; ands; done|]). by apply not_elem_of_nil in Hin.
Qed.
Lemma crt_stream_is_object_witness :
  get_object_ok object
    (True ∧ ci_enable_backpressure client = false ∧ ∀ from to, 0 ≤ from < to → to ≤ zlen object →
      ∃ events, sent_events (crt := get_server) client (str_of "bucket") (str_of "key") (range_params "v1" from to) events)
    (crt_body (crt := get_server) client (str_of "bucket") (str_of "key") "v1") ∧
  crt_body (crt := get_server) client (str_of "bucket") (str_of "key") "v1" 0 3 =
    inr [inl {| gbp_offset := 0; gbp_data := [x05] |}; inl {| gbp_offset := 1; gbp_data := [x06] |}; inl {| gbp_offset := 2; gbp_data := [x07] |}].
Proof.
  split; [|by vm_compute].
  apply (crt_stream_is_object (crt := get_server) client (str_of "bucket") (str_of "key") "v1" object True). exact example_get_ok.
Defined.

(** ** PutObject *)

Section put.
Context `{crc : Crc32c, b64 : Base64, http : AwsHttp, percent : PercentEncoding, xml : XmlTree, codes : CrtErrors, upload : !CrtUpload}.
Abbreviation put_error := (ObjectClientError PutObjectError).

(** The contract of the CRT for an upload of [data]: there is at most one review, it describes parts that make up the data, and
    the upload only succeeds after the review was accepted, with the ETag of the new object in the first headers. *)
Fixpoint script_ok (version : ETag → bytes) (data : bytes) (accepted : option bool) (headers : option aws_headers) (script : put_script) : Prop :=
  match script with
  | PsTelemetry _ _ next => script_ok version data accepted headers next
  | PsHeaders h _ next => script_ok version data accepted (Some (default h headers)) next
  | PsReview review next =>
      accepted = None ∧ (∃ parts, Forall2 part_describes (ur_parts review) parts ∧ concat parts = data) ∧
      ∀ answer, script_ok version data (Some answer) headers (next answer)
  | PsFinish r =>
      mr_is_err r = false → accepted = Some true ∧ ∃ h, headers = Some h ∧ ∀ etag, get_etag h = Ok etag → version etag = data
  end.
(** [cp_data]: the bytes that the CRT has taken.  It takes some of a slice that is not empty. *)
Class CrtUploadLaws (version : ETag → bytes) := {
  cp_data : cp_state → bytes;
  cp_start_data options events st : cp_start options = inr (events, st) → cp_data st = [];
  cp_write_data st slice eof st' n : cp_write st slice eof = (st', inr n) →
    0 ≤ n ≤ zlen slice ∧ cp_data st' = cp_data st ++ ztake n slice ∧ (slice ≠ [] → 0 < n);
  cp_finish_ok st : script_ok version (cp_data st) None None (cp_finish st);
}.
Context (version : ETag → bytes) `{laws : !CrtUploadLaws version}.
Set Default Proof Using "Type*".

Lemma meta_write_ok st slice eof :
  match meta_request_write st slice eof with
  | (st', Ok remaining) => ∃ n, 0 ≤ n ≤ zlen slice ∧ cp_data st' = cp_data st ++ ztake n slice ∧ remaining = zdrop n slice ∧ (slice ≠ [] → 0 < n)
  | (_, Err _) => True
  | (_, Panic) => False
  end.
Proof.
  unfold meta_request_write. destruct (cp_write st slice eof) as [st' [error|n]] eqn:Hw; [done|].
  destruct (cp_write_data _ _ _ _ _ Hw) as (Hn & Hd & Hp). rewrite !(proj2 (Z.leb_le _ _)) by lia. simpl. exists n. ands; try done; lia.
Qed.

(** A write that is not completed leaves the request in the state [PendingWrite]. *)
Lemma write_loop_ok rounds r slice :
  pq_state r = PendingWrite →
  match pq_write_loop rounds r slice with
  | (r', Some (Ok _)) => pq_state r' = Idle ∧ cp_data (pq_meta_request r') = cp_data (pq_meta_request r) ++ slice
  | (r', Some (Err _)) => pq_state r' = PendingWrite
  | (r', None) => pq_state r' = PendingWrite ∧ (rounds < length slice)%nat
  | (_, Some Panic) => False
  end.
Proof.
  revert r slice. induction rounds as [|rounds IH]; intros r [|b slice] Hst; cbn [pq_write_loop]; [by rewrite app_nil_r|split; [done|simpl; lia]|by rewrite app_nil_r|].
  pose proof (meta_write_ok (pq_meta_request r) (b :: slice) false) as Hw. destruct (meta_request_write _ _ _) as [st [remaining| |]]; [|done|done].
  destruct Hw as (n & Hn & Hd & -> & Hp). specialize (Hp ltac:(done)).
  match goal with |- context [pq_write_loop rounds ?r1 ?rem] => specialize (IH r1 rem Hst) end.
  destruct (pq_write_loop rounds _ _) as [r' [[[]| |]|]]; simpl in *; try done.
  - destruct IH as [? ->]. split; [done|]. rewrite Hd, <-app_assoc. by rewrite (ztake_zdrop n (b :: slice)).
  - destruct IH as [? Hr]. split; [done|]. unfold zdrop in Hr. rewrite length_drop in Hr. simpl in Hr. lia.
Qed.
Lemma write_for_ok rounds r slice :
  match pq_write_for rounds r slice with
  | (r', Some (Ok _)) => pq_state r = Idle ∧ pq_state r' = Idle ∧ cp_data (pq_meta_request r') = cp_data (pq_meta_request r) ++ slice
  | (r', Some (Err _)) => pq_state r' = PendingWrite
  | (r', None) => pq_state r' = PendingWrite ∧ (rounds < length slice)%nat
  | (_, Some Panic) => False
  end.
Proof.
  unfold pq_write_for. destruct (pq_state r) eqn:Hst; [by rewrite Hst|].
  pose proof (write_loop_ok rounds (pq_with r (pq_meta_request r) (pq_total_bytes r) PendingWrite) slice eq_refl) as Hw.
  by destruct (pq_write_loop rounds _ slice) as [r' [[[]| |]|]].
Qed.
Lemma write_loop_callback rounds r slice : pq_review_callback (pq_write_loop rounds r slice).1 = pq_review_callback r.
Proof using Type.
  revert r slice. induction rounds as [|rounds IH]; intros r [|b slice]; try done. cbn [pq_write_loop].
  destruct (meta_request_write _ _ _) as [st [remaining| |]]; [|done..]. by rewrite IH.
Qed.
Lemma write_for_callback rounds r slice : pq_review_callback (pq_write_for rounds r slice).1 = pq_review_callback r.
Proof using Type. unfold pq_write_for. destruct (pq_state r); [done|]. by rewrite write_loop_callback. Qed.

(** *** Completion *)

Lemma run_script_ok data script hook box accepted headers :
  script_ok version data accepted headers script → (hook = true ↔ accepted = None) →
  match run_script script hook box headers with
  | (Ok _, headers') =>
      (∃ h, headers' = Some h ∧ ∀ etag, get_etag h = Ok etag → version etag = data) ∧
      match accepted with
      | None => ∃ review parts, box_invoke box review = true ∧ Forall2 part_describes (ur_parts review) parts ∧ concat parts = data
      | Some answer => answer = true
      end
  | (Err _, _) => True
  | (Panic, _) => False
  end.
Proof using Type.
  revert hook box accepted headers. induction script as [rt err next IH|h status next IH|review next IH|r]; intros hook box accepted headers; cbn [script_ok run_script].
  - apply IH.
  - apply IH.
  - intros (-> & (parts & Hparts & Hcat) & Hnext) [_ Hhook]. rewrite (Hhook eq_refl).
    specialize (IH (box_invoke box review) false None (Some (box_invoke box review)) headers (Hnext _) ltac:(done)).
    destruct (run_script _ _ _ _) as [[[]|e|] headers']; [|done|done]. destruct IH as [Hh Hacc]. split; [done|]. by exists review, parts.
  - intros Hfin _. pose proof (finish_not_panic (λ _, @None PutObjectError) r) as Hnp. destruct (finish_result (λ _, None) r) as [[]|e|] eqn:Hf; [|done|done].
    apply (finish_ok (λ _, @None PutObjectError)) in Hf. destruct (Hfin Hf) as [-> Hh]. done.
Qed.
Lemma extract_result_ok {E} h result : extract_result (E := E) h = Ok result → get_etag h = Ok (por_etag result).
Proof using Type.
  unfold extract_result. destruct (get_etag h); simpl; [|done..]. destruct (optional_text h SSE_TYPE_HEADER_NAME); simpl; [|done..].
  destruct (optional_text h SSE_KEY_ID_HEADER_NAME); simpl; [|done..]. by intros [= <-].
Qed.
Lemma extract_result_no_panic {E} h : extract_result (E := E) h ≠ Panic.
Proof using Type.
  assert (∀ name, get_as_string h name ≠ Panic) as Hget.
  { intros name. apply outcome_bind_no_panic; [apply map_err_no_panic, crt_ok_no_panic|]. intros value. by destruct (to_str value). }
  assert (∀ name, optional_text h name ≠ Panic) as Hopt.
  { intros name. apply outcome_bind_no_panic; [|done]. unfold get_as_optional_string. case_match; [by apply outcome_bind_no_panic|done]. }
  apply map_err_no_panic, outcome_bind_no_panic; [by apply outcome_bind_no_panic|]. intros etag. by repeat (apply outcome_bind_no_panic; [auto|intros ?]).
Qed.
Lemma complete_ok r callback :
  pq_review_callback r = None →
  match pq_review_and_complete r callback with
  | Ok result => pq_state r = Idle ∧ version (por_etag result) = cp_data (pq_meta_request r) ∧
      ∃ review parts, callback review = true ∧ Forall2 part_describes (ur_parts review) parts ∧ concat parts = cp_data (pq_meta_request r)
  | Err _ => True
  | Panic => False
  end.
Proof.
  intros Hnone. unfold pq_review_and_complete. destruct (pq_state r) eqn:Hst; [done|]. rewrite bool_decide_true by done.
  pose proof (meta_write_ok (pq_meta_request r) [] true) as Hw. destruct (meta_request_write _ _ _) as [st [remaining| |]]; [|done|done].
  destruct Hw as (n & Hn & Hd & _). assert (n = 0) as -> by (unfold zlen in Hn; simpl in Hn; lia). rewrite app_nil_r in Hd.
  pose proof (run_script_ok (cp_data st) (cp_finish st) true (Some callback) None None (cp_finish_ok st) ltac:(done)) as Hrun.
  destruct (run_script _ _ _ _) as [[[]|e|] headers]; simpl; [|done|done]. destruct Hrun as [(h & -> & Hetag) Hrev].
  pose proof (extract_result_no_panic (E := PutObjectError) h). destruct (extract_result h) as [result| |] eqn:Hex; [|done|done]. rewrite <-Hd. split; [done|]. split; [|done].
  apply Hetag. by eapply extract_result_ok.
Qed.

(** *** A request and what is done with it *)

(** Writes that are awaited, and writes whose future is dropped after some rounds *)
Inductive put_op := PutWrite (slice : bytes) | PutDropped (rounds : nat) (slice : bytes).
Definition op_slice (op : put_op) : bytes := match op with PutWrite slice => slice | PutDropped _ slice => slice end.
Definition run_op (r : S3PutObjectRequest) (op : put_op) : S3PutObjectRequest * option (outcome put_error unit) :=
  match op with
  | PutWrite slice => let '(r, res) := pq_write r slice in (r, Some res)
  | PutDropped rounds slice => pq_write_for rounds r slice
  end.
Fixpoint run_ops (r : S3PutObjectRequest) (ops : list put_op) : S3PutObjectRequest * list (option (outcome put_error unit)) :=
  match ops with
  | [] => (r, [])
  | op :: ops =>
      let '(r, res) := run_op r op in
      let '(r, results) := run_ops r ops in
      (r, res :: results)
  end.

Lemma run_op_ok r op :
  pq_review_callback (run_op r op).1 = pq_review_callback r ∧
  match run_op r op with
  | (r', Some (Ok _)) => pq_state r = Idle ∧ pq_state r' = Idle ∧ cp_data (pq_meta_request r') = cp_data (pq_meta_request r) ++ op_slice op
  | (r', Some (Err _)) | (r', None) => pq_state r' = PendingWrite
  | (_, Some Panic) => False
  end.
Proof.
  destruct op as [slice|rounds slice]; cbn [run_op op_slice].
  - unfold pq_write. pose proof (write_for_ok (length slice) r slice) as Hw. pose proof (write_for_callback (length slice) r slice) as Hcb.
    destruct (pq_write_for _ _ _) as [r' [[[]| |]|]]; try done. destruct Hw. lia.
  - pose proof (write_for_ok rounds r slice) as Hw. pose proof (write_for_callback rounds r slice) as Hcb.
    by destruct (pq_write_for _ _ _) as [r' [[[]| |]|]]; try destruct Hw.
Qed.
Lemma pending_stuck r ops : pq_state r = PendingWrite → pq_state (run_ops r ops).1 = PendingWrite.
Proof.
  revert r. induction ops as [|op ops IH]; intros r Hst; [done|]. cbn [run_ops]. pose proof (run_op_ok r op) as [_ Hop].
  destruct (run_op r op) as [r' res]. assert (pq_state r' = PendingWrite) as Hst' by (destruct res as [[[]| |]|]; try done; by destruct Hop; congruence).
  specialize (IH r' Hst'). by destruct (run_ops r' ops).
Qed.
Lemma run_ops_ok r ops :
  match run_ops r ops with
  | (r', results) =>
      pq_review_callback r' = pq_review_callback r ∧ Forall (λ res, res ≠ Some Panic) results ∧
      (pq_state r' = Idle → Forall (λ res, res = Some (Ok tt)) results ∧
         cp_data (pq_meta_request r') = cp_data (pq_meta_request r) ++ concat (map op_slice ops))
  end.
Proof.
  revert r. induction ops as [|op ops IH]; intros r; cbn [run_ops]; [split; [done|split; [constructor|]]; intros _; split; [constructor|by rewrite app_nil_r]|].
  pose proof (run_op_ok r op) as [Hcb Hop]. pose proof (pending_stuck (run_op r op).1 ops) as Hpend. destruct (run_op r op) as [r1 res]. cbn [fst] in Hpend. specialize (IH r1).
  destruct (run_ops r1 ops) as [r' results]. simpl in *. destruct IH as (Hcb' & Hnp & Hidle). split; [congruence|].
  split; [constructor; [by destruct res as [[]|]|done]|]. intros Hst. destruct (Hidle Hst) as [Hall Hd].
  destruct res as [[[]|e|]|]; [|by rewrite (Hpend Hop) in Hst|done|by rewrite (Hpend Hop) in Hst].
  destruct Hop as (_ & _ & Hd1). split; [by constructor|]. by rewrite Hd, Hd1, <-app_assoc.
Qed.
Lemma put_object_fresh c bucket key params custom_headers r :
  crt_put_object c bucket key params custom_headers = Ok r → pq_review_callback r = None ∧ pq_state r = Idle ∧ cp_data (pq_meta_request r) = [].
Proof.
  unfold crt_put_object. intros Hput. inv_outcome. repeat case_match; simplify_eq/=. inv_outcome. simpl. ands; try done. by eapply cp_start_data.
Qed.

(** The client as the one that uploads use *)
Definition put_client_error (e : put_error) : Upload.ClientError :=
  match e with ServiceError e => PutServiceError e | OtherError _ => OtherClientError "client error" end.
Definition crt_put_client (c : S3CrtClientInner) : PutObjectClient S3PutObjectRequest :=
  {| put_object := λ bucket key sse kms,
       outcome_map_err put_client_error
         (crt_put_object c (str_of bucket) (str_of key)
            {| pop_trailing_checksums := TrailingEnabled; pop_storage_class := None; pop_server_side_encryption := sse; pop_ssekms_key_id := kms;
               pop_object_metadata := ∅ |} []);
     write_part_size := ci_write_part_size c;
     pr_write := λ r slice, let '(r, res) := pq_write r slice in (r, outcome_map_err put_client_error res);
     pr_review_and_complete := λ r callback, outcome_map_err put_client_error (pq_review_and_complete r callback) |}.
Lemma crt_put_laws `{env : IntegrityEnv} c : PutObjectLaws (client := crt_put_client c) version.
Proof.
  split. simpl. intros r callback result Hc. pose proof (complete_ok r callback) as Hok. destruct (pq_review_and_complete r callback) as [res| |] eqn:Hr; simplify_eq/=.
  destruct (pq_review_callback r) as [cb|] eqn:Hcb.
  { unfold pq_review_and_complete in Hr. destruct (pq_state r); [done|]. by rewrite bool_decide_false in Hr by (by rewrite Hcb). }
  destruct (Hok eq_refl) as (_ & Hv & review & parts & Hrev & Hparts & Hcat). exists review, parts. ands; try done. congruence.
Qed.
End put.

(** C27. A completed upload stored exactly what was written.  Writes to a PutObject request may be taken by the CRT in pieces, fail,
    or be dropped by their caller at any point in between.  If completing the request succeeds, then all writes before it were
    completed, the new version of the object is their concatenation, and the reviewer accepted parts that describe it; a request
    with a write that was not completed can not be completed.  Neither writes nor the completion panic, and the client
    satisfies what the model of atomic uploads assumes of it. *)
Theorem completed_put_stores_all_writes `{crc : Crc32c, b64 : Base64, http : AwsHttp, percent : PercentEncoding, xml : XmlTree, codes : CrtErrors, upload : !CrtUpload, env : IntegrityEnv}
    (version : ETag → bytes) `{laws : !CrtUploadLaws version} (c : S3CrtClientInner) :
  (∀ bucket key params custom_headers r ops r' results callback,
    crt_put_object c bucket key params custom_headers = Ok r → run_ops r ops = (r', results) →
    Forall (λ res, res ≠ Some Panic) results ∧
    match pq_review_and_complete r' callback with
    | Ok result => Forall (λ res, res = Some (Ok tt)) results ∧ version (por_etag result) = concat (map op_slice ops) ∧
        ∃ review parts, callback review = true ∧ Forall2 part_describes (ur_parts review) parts ∧ concat parts = concat (map op_slice ops)
    | Err _ => True
    | Panic => False
    end) ∧
  PutObjectLaws (client := crt_put_client c) version.
Proof.
  split; [|by apply crt_put_laws]. intros bucket key params custom_headers r ops r' results callback Hput Hrun.
  destruct (put_object_fresh version _ _ _ _ _ _ Hput) as (Hnone & Hidle & Hd). pose proof (run_ops_ok version r ops) as Hops. rewrite Hrun in Hops.
  destruct Hops as (Hcb & Hnp & Hall). split; [done|]. pose proof (complete_ok version r' callback ltac:(congruence)) as Hc.
  destruct (pq_review_and_complete r' callback) as [result| |]; [|done|done]. destruct Hc as (Hst & Hv & Hrev). destruct (Hall Hst) as [Hres Hdata].
  rewrite Hd in Hdata. rewrite app_nil_l in Hdata. rewrite Hdata in *. done.
Qed.

(** The example upload meets the contract. *)
#[export] Instance pairs_upload_laws : CrtUploadLaws UploadExample.version.
Proof.
  refine {| cp_data := λ st : @cp_state _ pairs_upload, st |}.
  - by intros options events st [= _ <-].
  - intros st slice eof st' n [= <- <-]. pose proof (zlen_nonneg slice). split; [lia|]. split.
    + f_equal. unfold ztake, zlen. destruct (Z.min_spec 2 (Z.of_nat (length slice))) as [[? ->]|[? ->]]; [done|]. rewrite Nat2Z.id, !take_ge; [done|lia|lia].
    + intros Hne. destruct slice; [done|]. unfold zlen. simpl. lia.
  - intros st. split; [done|]. split.
    + exists [st]. split; [|by rewrite <-(app_nil_r st) at 2]. constructor; [|constructor]. split; [done|]. intros s sum [= <-].
      unfold UploadExample.show_sum. rewrite crc32c_base64_round_trip; [by intros [= <-]|by apply Z.mod_pos_bound].
    + intros []; [|done]. intros _. split; [done|]. eexists. split; [done|]. intros etag. unfold get_etag, get_as_string, Headers_get. simpl.
      unfold to_str. destruct (utf8_valid _); [|done]. simpl. rewrite string_of_str. intros [= <-]. apply UploadExample.string_bytes_string.
Defined.
Definition example_params : PutObjectParams :=
  {| pop_trailing_checksums := TrailingEnabled; pop_storage_class := None; pop_server_side_encryption := Some "aws:kms"; pop_ssekms_key_id := None;
     pop_object_metadata := ∅ |}.
Definition example_request : S3PutObjectRequest := {| pq_meta_request := []; pq_review_callback := None; pq_total_bytes := 0; pq_state := Idle |}.
Definition example_result : PutObjectResult :=
  {| por_etag := UploadExample.etag_of [x01; x02; x03; x04]; por_sse_type := None; por_sse_kms_key_id := None |}.
Definition example_ops : list put_op := [PutWrite [x01; x02; x03]; PutWrite []; PutWrite [x04]].
Abbreviation put_error := (ObjectClientError PutObjectError).
Lemma completed_put_stores_all_writes_witness :
  crt_put_object client (str_of "bucket") (str_of "key") example_params [] = Ok example_request ∧
  pq_review_and_complete (run_ops example_request example_ops).1 (λ _, true) = Ok example_result ∧
  UploadExample.version (por_etag example_result) = [x01; x02; x03; x04].
Proof.
  assert (crt_put_object client (str_of "bucket") (str_of "key") example_params [] = Ok example_request) as Hreq by vm_cast_no_check (eq_refl (@Ok put_error _ example_request)).
  assert (pq_review_and_complete (run_ops example_request example_ops).1 (λ _, true) = Ok example_result) as Hres by vm_cast_no_check (eq_refl (@Ok put_error _ example_result)).
  split; [done|]. split; [done|]. destruct (run_ops example_request example_ops) as [r' results] eqn:Hrun. cbn [fst] in Hres.
  pose proof (proj1 (completed_put_stores_all_writes (env := false) UploadExample.version client) _ _ _ _ _ _ _ _ (λ _, true) Hreq Hrun) as [_ Hput].
  rewrite Hres in Hput. apply Hput.
Defined.
