(* ===== verification/CrtListing.v ===== *)
(** * What the S3 client reads from the answers of S3

    The requests of [CrtRequests] against a server that decodes their targets (RFC 3986) and answers in the documented formats
    of ListObjectsV2 and HeadObject: the client asks for exactly what its caller asked for, and returns exactly what the server
    answered.  With the listing of the mock as the server's, the client lists like the mock. *)

From S2P Require Import Prelude Checksums PartQueue BlockFormat ClientChecksums Upload AppendUpload Path S3Path Inode Superblock MockClient MockListing CrtHttp CrtClient CrtRequests CrtStream CrtExample CrtSpec.
From Stdlib Require Import Strings.Ascii.
Local Open Scope Z_scope.

(** Closed facts that are decidable *)
Ltac by_deciding := apply (bool_decide_eq_true_1 _); by vm_compute.

(** ** The documented formats *)

Section formats.
Context `{http : AwsHttp, hlaws : !AwsHttpLaws, xml : XmlTree, dates : Dates, codes : CrtErrors}.

Definition named (name : string) (es : list Element) : list Element := List.filter (λ e, bool_decide (xml_name e = name)) es.
Definition field (e : Element) (name text : string) : Prop := ∃ child, first_named name (xml_elements e) = Some child ∧ xml_get_text child = Some text.
Definition no_field (e : Element) (name : string) : Prop := first_named name (xml_elements e) = None.

Definition restore_xml (status : option RestoreStatus) (e : Element) : Prop :=
  match status with
  | None => no_field e "RestoreStatus"
  | Some RestoreInProgress => ∃ child, first_named "RestoreStatus" (xml_elements e) = Some child ∧ field child "IsRestoreInProgress" "true"
  | Some (Restored expiry) =>
      ∃ child text, first_named "RestoreStatus" (xml_elements e) = Some child ∧ field child "IsRestoreInProgress" "false" ∧
        field child "RestoreExpiryDate" text ∧ parse_rfc3339 text = Some expiry
  end.
Definition algorithm_name (a : ChecksumAlgorithm) : string :=
  match a with
  | AlgCrc64nvme => "CRC64NVME" | AlgCrc32 => "CRC32" | AlgCrc32c => "CRC32C" | AlgSha1 => "SHA1" | AlgSha256 => "SHA256" | AlgUnknown name => name
  end.
Definition known_algorithm (a : ChecksumAlgorithm) : bool := match a with AlgUnknown _ => false | _ => true end.
(** A [Contents] element *)
Definition object_xml (o : ObjectInfo * list ChecksumAlgorithm) (e : Element) : Prop :=
  field e "Key" (string_of (oi_key o.1)) ∧ field e "Size" (format_uint (oi_size o.1)) ∧ 0 ≤ oi_size o.1 ≤ u64_max ∧
  (∃ text, field e "LastModified" text ∧ parse_rfc3339 text = Some (oi_last_modified o.1)) ∧
  match oi_storage_class o.1 with Some class => field e "StorageClass" class | None => no_field e "StorageClass" end ∧
  restore_xml (oi_restore_status o.1) e ∧ field e "ETag" (oi_etag o.1) ∧
  Forall2 (λ a child, known_algorithm a = true ∧ xml_get_text child = Some (algorithm_name a)) o.2 (named "ChecksumAlgorithm" (xml_elements e)).
(** A [ListBucketResult] element *)
Definition list_xml (out : ListObjectsOutput) (e : Element) : Prop :=
  Forall2 object_xml (lout_objects out) (named "Contents" (xml_elements e)) ∧
  Forall2 (λ prefix child, field child "Prefix" (string_of prefix)) (lout_common_prefixes out) (named "CommonPrefixes" (xml_elements e)) ∧
  match lout_next_continuation_token out with
  | Some token => field e "NextContinuationToken" token ∧ field e "IsTruncated" "true"
  | None => no_field e "NextContinuationToken" ∧ field e "IsTruncated" "false"
  end.

(** The value of a header *)
Definition header (h : aws_headers) (name : string) (value : str) : Prop :=
  ∃ k, find (λ kv, same_name (str_of name) kv.1) (header_pairs h) = Some (k, value) ∧ utf8_valid value = true.
Definition no_header (h : aws_headers) (name : string) : Prop := find (λ kv, same_name (str_of name) kv.1) (header_pairs h) = None.
Definition optional_header (h : aws_headers) (name : string) (value : option string) : Prop :=
  match value with Some value => header h name (str_of value) | None => no_header h name end.
Definition restore_header (status : option RestoreStatus) (h : aws_headers) : Prop :=
  match status with
  | None => no_header h "x-amz-restore"
  | Some RestoreInProgress => header h "x-amz-restore" (ongoing_request ++ str_of "true" ++ [quote])
  | Some (Restored expiry) =>
      ∃ date spaces : str, (quote ∉ date) ∧ (spaces = [] ∨ spaces = str_of " ") ∧ parse_rfc2822 (string_of date) = Some expiry ∧
        header h "x-amz-restore" (ongoing_request ++ str_of "false" ++ [quote] ++ str_of "," ++ spaces ++ str_of "expiry-date=" ++ [quote] ++ date ++ [quote])
  end.
Definition head_headers (out : HeadObjectOutput) (h : aws_headers) : Prop :=
  (∃ date, header h "Last-Modified" date ∧ parse_rfc2822 (string_of date) = Some (ho_last_modified (hout_result out))) ∧
  header h "Content-Length" (str_of (format_uint (ho_size (hout_result out)))) ∧ 0 ≤ ho_size (hout_result out) ≤ u64_max ∧
  header h "Etag" (str_of (ho_etag (hout_result out))) ∧ optional_header h "x-amz-storage-class" (ho_storage_class (hout_result out)) ∧
  restore_header (ho_restore_status (hout_result out)) h ∧ optional_header h SSE_TYPE_HEADER_NAME (hout_sse_type out) ∧
  optional_header h SSE_KEY_ID_HEADER_NAME (hout_sse_kms_key_id out) ∧
  optional_header h "x-amz-checksum-crc64nvme" (cs_crc64nvme (hout_checksum out)) ∧ optional_header h "x-amz-checksum-crc32" (cs_crc32 (hout_checksum out)) ∧
  optional_header h "x-amz-checksum-crc32c" (cs_crc32c (hout_checksum out)) ∧ optional_header h "x-amz-checksum-sha1" (cs_sha1 (hout_checksum out)) ∧
  optional_header h "x-amz-checksum-sha256" (cs_sha256 (hout_checksum out)).

(** ** Reading XML *)
Context `{xlaws : !XmlTreeLaws}.
Set Default Proof Using "Type*".

Lemma get_field_spec e name text : field e name text → get_field e name = Ok text.
Proof. intros (child & Hf & Ht). unfold get_field, get_child, get_text. rewrite get_child_first, Hf. simpl. by rewrite Ht. Qed.
Lemma get_field_missing e name : no_field e name → get_field e name = Err (MissingField e name).
Proof. intros Hf. unfold get_field, get_child. by rewrite get_child_first, Hf. Qed.
Lemma named_first name es : named name es = match first_named name es with Some e => e :: named name (without_first name es) | None => [] end.
Proof using Type. unfold named, first_named. induction es as [|e es IH]; [done|]. simpl. case_bool_decide as He; [done|]. simpl. by rewrite bool_decide_false. Qed.
Lemma without_first_other name other es : name ≠ other → first_named other (without_first name es) = first_named other es.
Proof using Type.
  intros Hne. unfold first_named. induction es as [|e es IH]; [done|]. simpl. case_bool_decide as He; simpl.
  - rewrite bool_decide_false; [done|]. congruence.
  - by case_bool_decide.
Qed.
Lemma named_other name other es : name ≠ other → named other (without_first name es) = named other es.
Proof using Type.
  intros Hne. unfold named. induction es as [|e es IH]; [done|]. simpl. case_bool_decide as He; simpl.
  - rewrite bool_decide_false; [done|]. congruence.
  - case_bool_decide; by rewrite ?IH.
Qed.
Lemma without_first_length name es e : first_named name es = Some e → length es = S (length (without_first name es)).
Proof using Type. unfold first_named. induction es as [|e' es IH]; [done|]. simpl. case_bool_decide; [done|]. simpl. intros He. by rewrite (IH He). Qed.

Lemma take_children_spec {A B} (R : A → Element → Prop) (g : A → B) name f fuel e xs :
  (∀ x child, R x child → f child = Ok (g x)) → Forall2 R xs (named name (xml_elements e)) → (length (xml_elements e) < fuel)%nat →
  ∃ e', take_children fuel name f e = Ok (map g xs, e') ∧
    ∀ other, name ≠ other → first_named other (xml_elements e') = first_named other (xml_elements e) ∧ named other (xml_elements e') = named other (xml_elements e).
Proof.
  intros Hf. revert fuel e. induction xs as [|x xs IH]; intros fuel e Hxs Hfuel; (destruct fuel as [|fuel]; [lia|]); cbn [take_children].
  - pose proof (take_child_first e name) as Ht. rewrite named_first in Hxs. destruct (xml_take_child e name) as [[child e']|].
    + destruct Ht as [Ht _]. rewrite Ht in Hxs. inversion Hxs.
    + exists e. done.
  - pose proof (take_child_first e name) as Ht. rewrite named_first in Hxs. destruct (xml_take_child e name) as [[child e']|].
    + destruct Ht as [Ht He']. rewrite Ht in Hxs. inversion Hxs as [|? ? ? ? Hx Hrest]; subst. rewrite (Hf _ _ Hx). simpl.
      destruct (IH fuel e') as (e'' & -> & Hother); [by rewrite He'| |].
      { rewrite He'. pose proof (without_first_length _ _ _ Ht). lia. }
      exists e''. split; [done|]. intros other Hne. destruct (Hother other Hne) as [-> ->]. rewrite He'. by rewrite without_first_other, named_other.
    + rewrite Ht in Hxs. inversion Hxs.
Qed.

Lemma parse_algorithm_name a : known_algorithm a = true → parse_algorithm (algorithm_name a) = a.
Proof using Type. by destruct a. Qed.
Lemma parse_restore_spec status e : restore_xml status e → parse_restore_status e = Ok status.
Proof.
  unfold parse_restore_status. rewrite get_child_first. destruct status as [[|expiry]|]; simpl.
  - intros (child & -> & Hf). by rewrite (get_field_spec _ _ _ Hf).
  - intros (child & text & -> & Hf & Hd & Hp). rewrite (get_field_spec _ _ _ Hf). simpl. rewrite (get_field_spec _ _ _ Hd). simpl. by rewrite Hp.
  - intros ->. done.
Qed.
Lemma parse_object_spec o e : object_xml o e → parse_object_info_from_xml e = Ok o.
Proof.
  destruct o as [o algs]. intros (Hkey & Hsize & Hrange & (text & Hmod & Hdate) & Hclass & Hrestore & Hetag & Halgs). simpl in *. unfold parse_object_info_from_xml.
  rewrite (get_field_spec _ _ _ Hkey), (get_field_spec _ _ _ Hsize). simpl. rewrite parse_format_uint by done. simpl.
  rewrite (get_field_spec _ _ _ Hmod). simpl. rewrite Hdate. simpl. rewrite (parse_restore_spec _ _ Hrestore). simpl. rewrite (get_field_spec _ _ _ Hetag). simpl.
  unfold parse_checksum_algorithm, children_fuel.
  destruct (take_children_spec (λ a child, known_algorithm a = true ∧ xml_get_text child = Some (algorithm_name a)) id "ChecksumAlgorithm"
    (λ content, let! text := get_text content in Ok (parse_algorithm text)) (S (length (xml_elements e))) e algs) as (e' & -> & _); [|done|lia|].
  { intros a child [Ha Ht]. unfold get_text. rewrite Ht. simpl. by rewrite parse_algorithm_name. }
  simpl. rewrite map_id. f_equal. f_equal. destruct o as [key size modified class restore etag]; simpl in *. rewrite str_of_string. f_equal.
  destruct class; [by rewrite (get_field_spec _ _ _ Hclass)|by rewrite (get_field_missing _ _ Hclass)].
Qed.
Lemma parse_list_spec out e : list_xml out e → parse_result_from_xml e = Ok out.
Proof.
  intros (Hobj & Hpre & Htoken). unfold parse_result_from_xml, children_fuel.
  destruct (take_children_spec object_xml id "Contents" parse_object_info_from_xml (S (length (xml_elements e))) e (lout_objects out)) as (e1 & -> & Hother1);
    [apply parse_object_spec|done|lia|].
  cbn [outcome_bind fst snd]. destruct (Hother1 "CommonPrefixes" ltac:(done)) as [_ Hnamed].
  destruct (take_children_spec (λ prefix child, field child "Prefix" (string_of prefix)) string_of "CommonPrefixes" (λ common_prefix, get_field common_prefix "Prefix")
    (S (length (xml_elements e1))) e1 (lout_common_prefixes out)) as (e2 & -> & Hother2); [intros prefix child; apply get_field_spec|by rewrite Hnamed|lia|].
  simpl. assert (∀ name, name ≠ "Contents" → name ≠ "CommonPrefixes" → first_named name (xml_elements e2) = first_named name (xml_elements e)) as Hsame.
  { intros name H1 H2. destruct (Hother2 name ltac:(done)) as [-> _]. by destruct (Hother1 name ltac:(done)) as [-> _]. }
  rewrite get_child_first, Hsame by done. rewrite map_id, map_map. rewrite (map_ext _ id) by apply str_of_string. rewrite map_id.
  assert (∀ text, field e "IsTruncated" text → get_field e2 "IsTruncated" = Ok text) as Htrunc.
  { intros text (child & Hf & Ht). apply get_field_spec. exists child. by rewrite Hsame. }
  destruct out as [objects prefixes token]; simpl in *. destruct token as [token|].
  - destruct Htoken as [(child & -> & Ht) Hi]. unfold get_text. rewrite Ht. simpl. by rewrite (Htrunc _ Hi).
  - destruct Htoken as [-> Hi]. simpl. by rewrite (Htrunc _ Hi).
Qed.

(** ** Reading headers *)

Lemma headers_get_spec h name value : header h name value → get_as_string h (str_of name) = Ok value.
Proof using Type. intros (k & Hf & Hu). unfold get_as_string, Headers_get. rewrite headers_get, Hf. simpl. unfold to_str. by rewrite Hu. Qed.
Lemma headers_has_spec h name value : header h name value → has_header h (str_of name) = true.
Proof using Type.
  intros (k & Hf & _). unfold has_header. rewrite headers_has. apply existsb_exists. apply find_some in Hf as [? ?]. by exists (k, value).
Qed.
Lemma headers_has_not h name : no_header h name → has_header h (str_of name) = false.
Proof using Type.
  intros Hf. unfold has_header. rewrite headers_has. apply not_true_iff_false. intros (kv & Hin & Hs)%existsb_exists.
  by rewrite (find_none _ _ Hf kv Hin) in Hs.
Qed.
Lemma optional_string_spec h name value : header h name value → get_as_optional_string h (str_of name) = Ok (Some value).
Proof using Type. intros Hh. unfold get_as_optional_string. by rewrite (headers_has_spec _ _ _ Hh), (headers_get_spec _ _ _ Hh). Qed.
Lemma optional_text_spec h name value : optional_header h name value → optional_text h name = Ok value.
Proof using Type.
  unfold optional_text. destruct value as [value|]; simpl; intros Hh.
  - rewrite (optional_string_spec _ _ _ Hh). simpl. by rewrite string_of_str.
  - unfold get_as_optional_string. by rewrite (headers_has_not _ _ Hh).
Qed.

Lemma strip_prefix_self (a b : str) : strip_prefix a (a ++ b) = Some b.
Proof using Type. by apply strip_prefix_spec. Qed.
Lemma in_progress_spec value : quote ∉ value → restore_in_progress_re (ongoing_request ++ value ++ [quote]) = Some value.
Proof using Type. intros Hq. unfold restore_in_progress_re. rewrite strip_prefix_self. simpl. by rewrite break_at_first. Qed.
Lemma done_not_in_progress value rest : quote ∉ value → rest ≠ [] → restore_in_progress_re (ongoing_request ++ value ++ quote :: rest) = None.
Proof using Type. intros Hq Hr. unfold restore_in_progress_re. rewrite strip_prefix_self. simpl. rewrite break_at_first by done. simpl. by rewrite bool_decide_false. Qed.
Lemma done_spec value spaces date :
  quote ∉ value → quote ∉ date → spaces = [] ∨ spaces = str_of " " →
  restore_done_re (ongoing_request ++ value ++ [quote] ++ str_of "," ++ spaces ++ str_of "expiry-date=" ++ [quote] ++ date ++ [quote]) = Some date.
Proof using Type.
  intros Hv Hd Hs. assert (∀ s t, quote ∉ s → break_at quote (s ++ [quote] ++ t) = Some (s, t)) as Hb by (intros; by apply break_at_first).
  unfold restore_done_re. rewrite strip_prefix_self. cbn [mbind option_bind]. rewrite Hb by done. cbn [mbind option_bind snd].
  rewrite strip_prefix_self. cbn [mbind option_bind]. assert (skip_spaces (spaces ++ str_of "expiry-date=" ++ [quote] ++ date ++ [quote]) = str_of "expiry-date=" ++ [quote] ++ date ++ [quote]) as ->.
  { destruct Hs as [->| ->]; [by destruct date|by destruct date]. }
  rewrite (app_assoc (str_of "expiry-date=")), strip_prefix_self. cbn [mbind option_bind]. by rewrite break_at_first.
Qed.
Lemma hdr_restore_spec status h : restore_header status h → hdr_parse_restore_status h = Ok status.
Proof using Type.
  unfold hdr_parse_restore_status. destruct status as [[|expiry]|]; cbn [restore_header].
  - intros Hh. rewrite (optional_string_spec _ _ _ Hh). cbn [header_err outcome_map_err outcome_bind]. by rewrite in_progress_spec by by_deciding.
  - intros (date & spaces & Hq & Hs & Hp & Hh). rewrite (optional_string_spec _ _ _ Hh). cbn [header_err outcome_map_err outcome_bind].
    pose proof (done_not_in_progress (str_of "false") (str_of "," ++ spaces ++ str_of "expiry-date=" ++ [quote] ++ date ++ [quote]) ltac:(by_deciding) ltac:(done)) as Hno.
    pose proof (done_spec (str_of "false") spaces date ltac:(by_deciding) Hq Hs) as Hdone.
    cbn [app] in Hno, Hdone |- *. rewrite Hno, Hdone. cbn. by rewrite Hp.
  - intros Hh. unfold get_as_optional_string. by rewrite (headers_has_not _ _ Hh).
Qed.
Ltac step := cbn [outcome_map_err outcome_bind parse_or].
Lemma parse_from_hdr_spec out h : head_headers out h → parse_from_hdr h = Ok out.
Proof using Type.
  intros ((date & Hdate & Hp) & Hlen & Hrange & Hetag & Hclass & Hrestore & Hsse & Hkms & H64 & H32 & H32c & Hs1 & Hs256). unfold SSE_TYPE_HEADER_NAME, SSE_KEY_ID_HEADER_NAME in *.
  unfold parse_from_hdr, header_err.
  rewrite (headers_get_spec _ _ _ Hdate). step. rewrite Hp. step. rewrite (headers_get_spec _ _ _ Hlen). step. rewrite string_of_str, parse_format_uint by done. step.
  rewrite (headers_get_spec _ _ _ Hetag). step. rewrite (optional_text_spec _ _ _ Hclass). step. rewrite (hdr_restore_spec _ _ Hrestore). step.
  rewrite (optional_text_spec _ _ _ Hsse). step. rewrite (optional_text_spec _ _ _ Hkms). step. unfold parse_checksum.
  rewrite (optional_text_spec _ _ _ H32), (optional_text_spec _ _ _ H32c), (optional_text_spec _ _ _ Hs1), (optional_text_spec _ _ _ Hs256), (optional_text_spec _ _ _ H64).
  step. rewrite string_of_str. by destruct out as [[] [] ? ?].
Qed.
End formats.

(** ** A server that answers *)

Section server.
Context `{http : AwsHttp, hlaws : !AwsHttpLaws, percent : PercentEncoding, plaws : !PercentEncodingLaws, xml : XmlTree, xlaws : !XmlTreeLaws, dates : Dates,
  codes : CrtErrors, crt : !CrtClient}.

(** Successful answers: a body in contiguous pieces, or headers *)
Fixpoint answered_body (got body : bytes) (events : list crt_event) : Prop :=
  match events with
  | [] => False
  | OnBody offset data :: events => offset = zlen got ∧ answered_body (got ++ data) body events
  | OnFinish r :: _ => mr_is_err r = false ∧ got = body
  | _ :: events => answered_body got body events
  end.
Fixpoint answered_headers (got : option aws_headers) (h : aws_headers) (events : list crt_event) : Prop :=
  match events with
  | [] => False
  | OnHeaders h' status :: events => answered_headers (if success_status status then Some h' else got) h events
  | OnFinish r :: _ => mr_is_err r = false ∧ got = Some h
  | _ :: events => answered_headers got h events
  end.
(** An answer with the status 404 *)
Fixpoint answered_not_found (events : list crt_event) : Prop :=
  match events with
  | [] => False
  | OnFinish r :: _ => mr_is_err r = true ∧ mr_response_status r = 404
  | _ :: events => answered_not_found events
  end.
(** What the server sees of a request *)
Definition asks (options : MetaRequestOptions) (method : string) (path : str) (query : list (str * str)) : Prop :=
  message_method (mro_message options) = str_of method ∧ decode_target (message_path (mro_message options)) = Some (path, query).
(** Servers with these listings and objects, by endpoint: they decide by the method and the target that they see. *)
Definition serves (listing : Uri → str → list (str * str) → ListObjectsOutput) (object : Uri → str → option HeadObjectOutput) : Prop :=
  ∀ options events, make_meta_request options = inr events →
    (∀ path query, asks options "GET" path query → (str_of "list-type", str_of "2") ∈ query →
       ∃ body e, answered_body [] body events ∧ xml_parse body = Some e ∧ list_xml (listing (mro_endpoint options) path query) e) ∧
    (∀ path, asks options "HEAD" path [] →
       match object (mro_endpoint options) path with
       | Some out => ∃ h, answered_headers None h events ∧ head_headers out h
       | None => answered_not_found events
       end).

Set Default Proof Using "Type*".
Lemma receive_body_answered {E} (parse : MetaRequestResult → option E) got body events : answered_body got body events → receive_body parse got events = Ok body.
Proof using Type.
  revert got. induction events as [|ev events IH]; intros got; [done|]. destruct ev as [| |offset data|r]; simpl; [by apply IH|by apply IH| |].
  - intros [-> Hrest]. rewrite Z.eqb_refl. by apply IH.
  - intros [Hr ->]. unfold finish_result. by rewrite Hr.
Qed.
Lemma receive_headers_answered {E} (parse : MetaRequestResult → option E) got h events :
  answered_headers got h events → receive_headers parse got events = Ok h.
Proof using Type.
  revert got. induction events as [|ev events IH]; intros got; [done|]. destruct ev as [| |offset data|r]; simpl; [by apply IH|by apply IH|by apply IH|].
  intros [Hr ->]. unfold finish_result. by rewrite Hr.
Qed.
Lemma receive_headers_not_found got events :
  answered_not_found events → receive_headers parse_head_object_error got events = Err (ServiceError HeadErrNotFound).
Proof using Type.
  revert got. induction events as [|ev events IH]; intros got; [done|]. destruct ev as [| |offset data|r]; simpl; [by apply IH|by apply IH|by apply IH|].
  intros [Hr Hst]. unfold finish_result, parse_head_object_error. by rewrite Hr, Hst.
Qed.

(** *** The messages that are sent *)

Lemma crt_ok_inv {A} (r : Z + A) a : crt_ok r = Ok a → r = inr a.
Proof using Type. by destruct r; simpl; intros [= ->]. Qed.
Lemma map_err_inv {E F A} (f : E → F) (r : outcome E A) a : outcome_map_err f r = Ok a → r = Ok a.
Proof using Type. by destruct r; simpl; intros [= ->]. Qed.
Lemma add_optional_inv m name value m' : add_optional_header m name value = Ok m' → message_method m' = message_method m.
Proof using Type. unfold add_optional_header. destruct value; [|by intros [= ->]]. intros Hm%crt_ok_inv. by destruct (message_add _ _ _ Hm) as (_ & -> & _). Qed.
Lemma template_inv c method bucket m :
  new_request_template c method bucket = Ok m →
  ∃ endpoint, ci_resolve_for_bucket c bucket = Some endpoint ∧ sm_uri m = ep_uri endpoint ∧ sm_path_prefix m = uri_path (ep_uri endpoint) ∧
    message_method (sm_inner m) = method.
Proof using Type.
  unfold new_request_template. destruct (ci_resolve_for_bucket c bucket) as [endpoint|]; [|done]. intros Hm. apply outcome_bind_ok in Hm as (inner & Hinner & [= <-]).
  exists endpoint. do 3 (split; [done|]). apply map_err_inv in Hinner. cbn [sm_inner].
  repeat match goal with H : outcome_bind _ _ = Ok _ |- _ => apply outcome_bind_ok in H; destruct H as (? & ? & ?) end.
  repeat match goal with H : add_optional_header _ _ _ = Ok _ |- _ => apply add_optional_inv in H; rewrite H; clear H end.
  repeat match goal with H : crt_ok (aws_http_message_add_header _ _) = Ok _ |- _ => apply crt_ok_inv, message_add in H; destruct H as (_ & H & _); rewrite H; clear H end.
  match goal with H : crt_ok (aws_http_message_set_request_method _ _) = Ok _ |- _ => apply crt_ok_inv, message_set_method in H as [-> _] end. done.
Qed.
Lemma set_header_inv m name value m' :
  set_header m name value = Ok m' →
  sm_uri m' = sm_uri m ∧ sm_path_prefix m' = sm_path_prefix m ∧ message_method (sm_inner m') = message_method (sm_inner m) ∧ message_path (sm_inner m') = message_path (sm_inner m).
Proof using Type.
  unfold set_header, Message_set_header. intros Hm. inv_outcome. match goal with |- context [aws_http_message_with_headers ?m ?h] => destruct (message_with_headers m h) as (_ & ? & ?) end. done.
Qed.
Lemma set_path_inv m path q m' :
  set_request_path_and_query m path q = Ok m' →
  sm_uri m' = sm_uri m ∧ message_path (sm_inner m') = full_path (sm_path_prefix m) path q ∧ message_method (sm_inner m') = message_method (sm_inner m).
Proof using Type.
  unfold set_request_path_and_query. intros Hm. apply outcome_bind_ok in Hm as (inner & Hi%crt_ok_inv & [= <-]). by destruct (message_set_path _ _ _ Hi) as (? & ? & _).
Qed.

(** A request that is not sent *)
Definition unsent {E} (e : ObjectClientError E) : Prop := match e with OtherError (ConstructionFailure _) | OtherError (S3CrtError _) => True | _ => False end.
Lemma constructed_unsent {E A} (r : outcome ConstructionError A) (e : ObjectClientError E) : constructed r = Err e → unsent e.
Proof using Type. by destruct r; simpl; intros [= <-]. Qed.
Lemma constructed_crt_unsent {E A} (r : outcome Z A) (e : ObjectClientError E) : constructed_crt r = Err e → unsent e.
Proof using Type. by destruct r; simpl; intros [= <-]. Qed.

(** A result: [P] of the answer, [Q] of an error of the service, or a request that was not sent.  It does not panic. *)
Definition answer_ok {E A} (P : A → Prop) (Q : E → Prop) (r : outcome (ObjectClientError E) A) : Prop :=
  match r with Ok a => P a | Err (ServiceError e) => Q e | Err e => unsent e | Panic => False end.
Lemma answer_constructed {E A B} (P : B → Prop) (Q : E → Prop) (r : outcome ConstructionError A) k :
  r ≠ Panic → (∀ a, r = Ok a → answer_ok P Q (k a)) → answer_ok P Q (outcome_bind (constructed r) k).
Proof using Type. destruct r; simpl; auto. Qed.
Lemma answer_constructed_crt {E A B} (P : B → Prop) (Q : E → Prop) (r : outcome Z A) k :
  r ≠ Panic → (∀ a, r = Ok a → answer_ok P Q (k a)) → answer_ok P Q (outcome_bind (constructed_crt r) k).
Proof using Type. destruct r; simpl; auto. Qed.
Lemma set_path_no_panic m path q : set_request_path_and_query m path q ≠ Panic.
Proof using Type. unfold set_request_path_and_query. by destruct (aws_http_message_set_request_path _ _). Qed.

Context (listing : Uri → str → list (str * str) → ListObjectsOutput) (object : Uri → str → option HeadObjectOutput) (Hserves : serves listing object).

Lemma list_objects_answered c bucket token delim max_keys prefix :
  answer_ok (λ out, ∃ endpoint, ci_resolve_for_bucket c bucket = Some endpoint ∧
      out = listing (ep_uri endpoint) (uri_path (ep_uri endpoint) ++ str_of "/") (list_query token delim max_keys prefix))
    (λ _, False) (crt_list_objects c bucket token delim max_keys prefix).
Proof.
  unfold crt_list_objects. apply answer_constructed; [apply template_no_panic|]. intros m (endpoint & Hres & Huri & Hprefix & Hmethod)%template_inv.
  apply answer_constructed_crt; [apply set_header_no_panic|]. intros m1 (Huri1 & Hprefix1 & Hmethod1 & _)%set_header_inv.
  apply answer_constructed_crt; [apply set_path_no_panic|]. intros m2 (Huri2 & Hpath & Hmethod2)%set_path_inv.
  unfold meta_request_with_body_payload, meta_request. destruct (make_meta_request _) as [error|events] eqn:Hev; [done|].
  destruct (Hserves _ _ Hev) as [Hget _]. edestruct Hget as (body & e & Hans & Hparse & Hxml).
  - split; [cbn [mro_message into_options]; congruence|]. cbn [mro_message into_options]. rewrite Hpath. apply decode_full_path.
  - by left.
  - rewrite (receive_body_answered _ _ _ _ Hans). cbn. unfold parse_result_from_bytes. rewrite Hparse, (parse_list_spec _ _ Hxml). cbn.
    exists endpoint. split; [done|]. change (mro_endpoint (into_options m2 S3ListObjects)) with (sm_uri m2).
    by rewrite Huri2, Huri1, Huri, Hprefix1, Hprefix.
Qed.
Lemma head_object_answered c bucket key checksum_mode :
  answer_ok (λ out, ∃ endpoint, ci_resolve_for_bucket c bucket = Some endpoint ∧ object (ep_uri endpoint) (uri_path (ep_uri endpoint) ++ str_of "/" ++ key) = Some out)
    (λ _, ∃ endpoint, ci_resolve_for_bucket c bucket = Some endpoint ∧ object (ep_uri endpoint) (uri_path (ep_uri endpoint) ++ str_of "/" ++ key) = None)
    (crt_head_object c bucket key checksum_mode).
Proof.
  unfold crt_head_object. apply answer_constructed; [apply template_no_panic|]. intros m (endpoint & Hres & Huri & Hprefix & Hmethod)%template_inv.
  apply answer_constructed_crt; [apply set_path_no_panic|]. intros m1 (Huri1 & Hpath & Hmethod1)%set_path_inv.
  assert (∀ m2, sm_uri m2 = ep_uri endpoint → message_path (sm_inner m2) = full_path (uri_path (ep_uri endpoint)) (str_of "/" ++ key) QueryEmpty →
    message_method (sm_inner m2) = str_of "HEAD" →
    answer_ok (λ out, ∃ endpoint, ci_resolve_for_bucket c bucket = Some endpoint ∧ object (ep_uri endpoint) (uri_path (ep_uri endpoint) ++ str_of "/" ++ key) = Some out)
      (λ _, ∃ endpoint, ci_resolve_for_bucket c bucket = Some endpoint ∧ object (ep_uri endpoint) (uri_path (ep_uri endpoint) ++ str_of "/" ++ key) = None)
      (let! headers := meta_request_with_headers_payload (into_options m2 S3HeadObject) parse_head_object_error in
       outcome_map_err (λ e, OtherError (InternalError (CauseParse e))) (parse_from_hdr headers))) as Hsend.
  { intros m2 Huri2 Hpath2 Hmethod2. unfold meta_request_with_headers_payload, meta_request. destruct (make_meta_request _) as [error|events] eqn:Hev; [done|].
    destruct (Hserves _ _ Hev) as [_ Hhead]. specialize (Hhead (uri_path (ep_uri endpoint) ++ str_of "/" ++ key)).
    change (mro_endpoint (into_options m2 S3HeadObject)) with (sm_uri m2) in Hhead. rewrite Huri2 in Hhead.
    destruct (object _ _) as [out|] eqn:Hobj.
    - destruct Hhead as (h & Hans & Hh); [split; [done|]; cbn [mro_message into_options]; rewrite Hpath2; apply decode_full_path_empty|].
      rewrite (receive_headers_answered _ _ _ _ Hans). cbn [outcome_bind]. rewrite (parse_from_hdr_spec _ _ Hh). simpl. eauto.
    - rewrite receive_headers_not_found; [simpl; eauto|]. apply Hhead. split; [done|]. cbn [mro_message into_options]. rewrite Hpath2. apply decode_full_path_empty. }
  destruct checksum_mode.
  - apply answer_constructed_crt; [apply set_header_no_panic|]. intros m2 (Huri2 & Hprefix2 & Hmethod2 & Hpath2)%set_header_inv. apply Hsend; congruence.
  - apply Hsend; congruence.
Qed.
End server.

(** ** Listing like the mock *)

Definition result_of (out : ListObjectsOutput) : ListObjectsResult :=
  {| lo_common_prefixes := lout_common_prefixes out; lo_objects := map fst (lout_objects out); lo_next_continuation_token := lout_next_continuation_token out |}.
(** The parameters that a server reads from a query; there are at most 1000 keys when it says nothing. *)
Definition query_param (query : list (str * str)) (name : string) : option str := snd <$> find (λ kv, bool_decide (kv.1 = str_of name)) query.
Definition query_listing (mc : MockClient) (query : list (str * str)) : ListObjectsResult :=
  list_objects_ordered mc (string_of <$> query_param query "continuation-token") (default [] (query_param query "delimiter"))
    (default 1000 (text ← query_param query "max-keys"; parse_uint u64_max (string_of text))) (default [] (query_param query "prefix")).
Lemma query_listing_spec mc token delim max_keys prefix : 0 ≤ max_keys ≤ u64_max →
  query_listing mc (list_query token delim max_keys prefix) = list_objects_ordered mc (string_of <$> token) delim max_keys prefix.
Proof.
  intros Hmax. unfold query_listing.
  assert (query_param (list_query token delim max_keys prefix) "continuation-token" = token) as -> by (by destruct token).
  assert (query_param (list_query token delim max_keys prefix) "delimiter" = Some delim) as -> by done.
  assert (query_param (list_query token delim max_keys prefix) "max-keys" = Some (str_of (format_uint max_keys))) as -> by done.
  assert (query_param (list_query token delim max_keys prefix) "prefix" = Some prefix) as -> by done.
  cbn [mbind option_bind default]. by rewrite string_of_str, parse_format_uint.
Qed.

(** C28. The client asks S3 for exactly what it was asked for, and returns exactly what S3 answers.  For servers that decode request
    targets (RFC 3986) and answer in the documented formats: a listing returns the page of the bucket's endpoint for the given
    token, delimiter, limit and prefix, whatever bytes they contain; a HeadObject returns the object at the key, and the error
    for a missing key exactly when there is none; every other failure is one to send the request, and nothing panics.  When the
    server's listing is the ordered one of the mock client, a page is the mock's page for the caller's parameters. *)
Theorem client_reads_what_server_answers `{http : AwsHttp, hlaws : !AwsHttpLaws, percent : PercentEncoding, plaws : !PercentEncodingLaws,
    xml : XmlTree, xlaws : !XmlTreeLaws, dates : Dates, codes : CrtErrors, crt : !CrtClient}
    (listing : Uri → str → list (str * str) → ListObjectsOutput) (object : Uri → str → option HeadObjectOutput) (c : S3CrtClientInner) (bucket : str) :
  serves listing object →
  (∀ token delim max_keys prefix,
    answer_ok (λ out, ∃ endpoint, ci_resolve_for_bucket c bucket = Some endpoint ∧
        out = listing (ep_uri endpoint) (uri_path (ep_uri endpoint) ++ str_of "/") (list_query token delim max_keys prefix) ∧
        ∀ mc, (∀ query, result_of (listing (ep_uri endpoint) (uri_path (ep_uri endpoint) ++ str_of "/") query) = query_listing mc query) →
          0 ≤ max_keys ≤ u64_max → result_of out = list_objects_ordered mc (string_of <$> token) delim max_keys prefix)
      (λ _, False) (crt_list_objects c bucket token delim max_keys prefix)) ∧
  ∀ key checksum_mode,
    answer_ok (λ out, ∃ endpoint, ci_resolve_for_bucket c bucket = Some endpoint ∧ object (ep_uri endpoint) (uri_path (ep_uri endpoint) ++ str_of "/" ++ key) = Some out)
      (λ _, ∃ endpoint, ci_resolve_for_bucket c bucket = Some endpoint ∧ object (ep_uri endpoint) (uri_path (ep_uri endpoint) ++ str_of "/" ++ key) = None)
      (crt_head_object c bucket key checksum_mode).
Proof.
  intros Hserves. split; [|intros key checksum_mode; by apply (head_object_answered listing)].
  intros token delim max_keys prefix. pose proof (list_objects_answered listing object Hserves c bucket token delim max_keys prefix) as Hans.
  destruct (crt_list_objects c bucket token delim max_keys prefix) as [out|[]|]; try done. destruct Hans as (endpoint & Hres & ->).
  exists endpoint. split; [done|]. split; [done|]. intros mc Hmc Hmax. by rewrite Hmc, query_listing_spec.
Qed.

(** ** A server

    It answers listings from a mock with two objects, and HeadObject for one of them. *)
Module ServerExample.
Import CrtExample.

Definition field_elem (name text : string) : tree := elem name (Some text) [].
Definition object_elem (o : ObjectInfo) : tree :=
  elem "Contents" None
    ([field_elem "Key" (string_of (oi_key o)); field_elem "Size" (format_uint (oi_size o)); field_elem "LastModified" (format_uint (oi_last_modified o));
      field_elem "ETag" (oi_etag o)] ++ match oi_storage_class o with Some class => [field_elem "StorageClass" class] | None => [] end).
Definition prefix_elem (prefix : str) : tree := elem "CommonPrefixes" None [field_elem "Prefix" (string_of prefix)].
Definition list_elem (r : ListObjectsResult) : tree :=
  elem "ListBucketResult" None
    (map object_elem (lo_objects r) ++ map prefix_elem (lo_common_prefixes r) ++
     match lo_next_continuation_token r with
     | Some token => [field_elem "NextContinuationToken" token; field_elem "IsTruncated" "true"]
     | None => [field_elem "IsTruncated" "false"]
     end).
Definition output_of (r : ListObjectsResult) : ListObjectsOutput :=
  {| lout_objects := map (λ o, (o, [])) (lo_objects r); lout_common_prefixes := lo_common_prefixes r; lout_next_continuation_token := lo_next_continuation_token r |}.
(** What the printer handles *)
Definition plain (o : ObjectInfo) : Prop := 0 ≤ oi_size o ≤ u64_max ∧ 0 ≤ oi_last_modified o ≤ u64_max ∧ oi_restore_status o = None.

Lemma named_map {A} (f : A → tree) (name : string) xs : (∀ x, @xml_name tree_xml (f x) = name) → named name (map f xs) = map f xs.
Proof. intros Hf. unfold named. induction xs as [|x xs IH]; [done|]. cbn [map List.filter]. by rewrite bool_decide_true, IH. Qed.
Lemma named_map_other {A} (f : A → tree) (name : string) xs : (∀ x, @xml_name tree_xml (f x) ≠ name) → named name (map f xs) = [].
Proof. intros Hf. unfold named. induction xs as [|x xs IH]; [done|]. cbn [map List.filter]. by rewrite bool_decide_false. Qed.
Lemma named_app name (a b : list tree) : named name (a ++ b) = named name a ++ named name b.
Proof. apply List.filter_app. Qed.
Lemma first_map_other {A} (f : A → tree) (name : string) xs es : (∀ x, @xml_name tree_xml (f x) ≠ name) → first_named name (map f xs ++ es) = first_named name es.
Proof. intros Hf. unfold first_named. induction xs as [|x xs IH]; [done|]. cbn [map app find]. by rewrite bool_decide_false. Qed.
Lemma Forall2_map_self {A B} (P : A → Prop) (R : A → B → Prop) (f : A → B) xs : (∀ x, P x → R x (f x)) → Forall P xs → Forall2 R xs (map f xs).
Proof. intros Hf. induction 1; constructor; auto. Qed.
Lemma object_elem_ok o : plain o → object_xml (o, []) (object_elem o).
Proof.
  intros (Hsize & Hmod & Hres). unfold object_xml. cbn [fst snd]. rewrite Hres. destruct (oi_storage_class o) as [class|] eqn:Hclass.
  all: unfold object_elem; rewrite Hclass; split; [by eexists|]; split; [by eexists|]; split; [done|]; split; [eexists; split; [by eexists|by apply parse_format_uint]|].
  all: split; [first [by eexists|done]|]; split; [done|]; split; [by eexists|constructor].
Qed.
Lemma list_elem_ok r : Forall plain (lo_objects r) → list_xml (output_of r) (list_elem r).
Proof.
  intros Hplain. unfold list_xml. change (@xml_elements tree_xml (list_elem r)) with (map object_elem (lo_objects r) ++ map prefix_elem (lo_common_prefixes r) ++
     match lo_next_continuation_token r with
     | Some token => [field_elem "NextContinuationToken" token; field_elem "IsTruncated" "true"]
     | None => [field_elem "IsTruncated" "false"]
     end).
  split; [|split].
  - rewrite !named_app, named_map, named_map_other by done. assert (∀ b : list tree, b = [] → map object_elem (lo_objects r) ++ [] ++ b = map object_elem (lo_objects r)) as ->.
    { intros b ->. apply app_nil_r. }
    + apply Forall2_fmap_l, (Forall2_map_self plain); [|done]. intros o. apply object_elem_ok.
    + by destruct (lo_next_continuation_token r).
  - rewrite !named_app, named_map_other, named_map by done. assert (∀ b : list tree, b = [] → [] ++ map prefix_elem (lo_common_prefixes r) ++ b = map prefix_elem (lo_common_prefixes r)) as ->.
    { intros b ->. apply app_nil_r. }
    + apply (Forall2_map_self (λ _, True)); [by eexists|by apply list.Forall_forall].
    + by destruct (lo_next_continuation_token r).
  - cbn [output_of lout_next_continuation_token]. unfold field, no_field. change (@xml_elements tree_xml (list_elem r)) with (children_of (list_elem r)). cbn [list_elem children_of elem].
    assert (∀ name es, name ≠ "Contents" → name ≠ "CommonPrefixes" →
      first_named name (map object_elem (lo_objects r) ++ map prefix_elem (lo_common_prefixes r) ++ es) = first_named name es) as Hfirst.
    { intros name es H1 H2. by rewrite !first_map_other. }
    destruct (lo_next_continuation_token r) as [token|]; (split; [first [exists (field_elem "NextContinuationToken" token)|idtac]|eexists]); by rewrite Hfirst.
Qed.

Lemma list_loop_plain delim max_keys prefix entries cp ov cur cp' ov' next :
  list_loop delim max_keys prefix entries cp ov cur = (cp', ov', next) → Forall (λ kv, plain (object_info kv.1 kv.2)) entries → Forall plain ov → Forall plain ov'.
Proof.
  intros Hloop Hent. revert cp ov cur Hloop. induction Hent as [|[key o] entries Ho Hent IH]; intros cp ov cur Hloop Hov; cbn [list_loop] in Hloop; [by simplify_eq|].
  repeat case_match; simplify_eq; try done; (eapply IH; [exact Hloop|]); first [done|apply Forall_app_2; [done|by constructor]].
Qed.
Lemma query_listing_plain query : Forall plain (lo_objects (query_listing BucketExample.bucket query)).
Proof.
  unfold query_listing, list_objects_ordered. destruct (list_loop _ _ _ _ _ _ _) as [[cp ov] next] eqn:Hloop. cbn [lo_objects].
  eapply list_loop_plain; [done| |constructor]. clear Hloop. apply list.Forall_forall. intros [key o] Hin. apply list_elem_of_filter in Hin as [_ Hin].
  apply sorted_objects_elem in Hin. unfold BucketExample.bucket, mc_add_object, MockClient_new in Hin. cbn [mc_objects mc_with_objects] in Hin.
  repeat (apply lookup_insert_Some in Hin as [[<- <-]|[_ Hin]]; [by vm_compute|]). by rewrite lookup_empty in Hin.
Qed.

Definition head_output : HeadObjectOutput :=
  {| hout_result := {| ho_size := 1; ho_last_modified := 5; ho_restore_status := Some (Restored 7); ho_etag := "etag"; ho_storage_class := Some "GLACIER" |};
     hout_checksum := {| cs_crc64nvme := None; cs_crc32 := Some "AAAAAA=="; cs_crc32c := None; cs_sha1 := None; cs_sha256 := None |};
     hout_sse_type := Some "AES256"; hout_sse_kms_key_id := None |}.
Definition restore_value : str := ongoing_request ++ str_of "false" ++ [quote] ++ str_of "," ++ str_of " " ++ str_of "expiry-date=" ++ [quote] ++ str_of "7" ++ [quote].
Definition server_headers : list (str * str) :=
  [(str_of "content-length", str_of "1"); (str_of "last-modified", str_of "5"); (str_of "ETag", str_of "etag"); (str_of "x-amz-storage-class", str_of "GLACIER");
   (str_of "x-amz-restore", restore_value); (str_of "x-amz-server-side-encryption", str_of "AES256"); (str_of "x-amz-checksum-crc32", str_of "AAAAAA==")].
Lemma server_headers_ok : head_headers head_output server_headers.
Proof.
  split; [exists (str_of "5"); split; [by eexists|done]|]. split; [by eexists|]. split; [done|]. split; [by eexists|]. split; [by eexists|]. split.
  { exists (str_of "7"), (str_of " "). split; [by_deciding|]. split; [by right|]. split; [done|]. by eexists. }
  do 2 (split; [first [by eexists|done]|]). do 4 (split; [first [by eexists|done]|]). done.
Qed.
Definition head_of (path : str) : option HeadObjectOutput := if bool_decide (path = str_of "/bucket/a") then Some head_output else None.
Definition server : CrtClient := λ options,
  match decode_target (lm_path (mro_message options)) with
  | Some (path, query) =>
      if bool_decide (lm_method (mro_message options) = str_of "GET") then
        inr [OnHeaders [] 200; OnBody 0 (print_tree (list_elem (query_listing BucketExample.bucket query))); OnFinish success]
      else if bool_decide (path = str_of "/bucket/a") then inr [OnHeaders server_headers 200; OnFinish success]
      else inr [OnFinish (failure 404 14343)]
  | None => inl 34
  end.
Lemma server_serves : serves (crt := server) (λ _ _ query, output_of (query_listing BucketExample.bucket query)) (λ _, head_of).
Proof.
  intros options events Hev. unfold make_meta_request, server in Hev. split.
  - intros path query [Hmethod Hdecode] _. simpl in Hmethod, Hdecode. rewrite Hdecode, Hmethod in Hev. rewrite bool_decide_true in Hev by done. injection Hev as <-.
    eexists _, _. split; [by split|]. split; [apply parse_print_tree|]. apply list_elem_ok, query_listing_plain.
  - intros path [Hmethod Hdecode]. simpl in Hmethod, Hdecode. rewrite Hdecode, Hmethod in Hev. rewrite bool_decide_false in Hev by done. unfold head_of.
    case_bool_decide; injection Hev as <-; [|done]. exists server_headers. split; [done|]. apply server_headers_ok.
Qed.
End ServerExample.

Import CrtExample ServerExample.
Lemma result_of_output r : result_of (output_of r) = r.
Proof. unfold result_of, output_of. simpl. rewrite map_map, map_id. by destruct r. Qed.
Definition listed : ListObjectsOutput := output_of (list_objects_ordered BucketExample.bucket None (str_of "/") 1000 []).
Lemma client_reads_what_server_answers_witness :
  crt_list_objects (crt := server) client (str_of "bucket") None (str_of "/") 1000 [] = Ok listed ∧
  result_of listed = list_objects_ordered BucketExample.bucket None (str_of "/") 1000 [] ∧
  crt_head_object (crt := server) client (str_of "bucket") (str_of "a") true = Ok head_output.
Proof.
  destruct (client_reads_what_server_answers (crt := server) _ _ client (str_of "bucket") server_serves) as [Hlist _].
  specialize (Hlist None (str_of "/") 1000 []).
  assert (crt_list_objects (crt := server) client (str_of "bucket") None (str_of "/") 1000 [] = Ok listed) as Hok
    by vm_cast_no_check (eq_refl (@Ok (ObjectClientError ListObjectsError) _ listed)).
  rewrite Hok in Hlist. destruct Hlist as (endpoint & _ & _ & Hmock). split; [done|]. split.
  - refine (Hmock BucketExample.bucket (λ query, result_of_output (query_listing BucketExample.bucket query)) _). clear. by vm_compute.
  - vm_cast_no_check (eq_refl (@Ok (ObjectClientError HeadObjectError) _ head_output)).
Defined.
