(* ===== verification/Manifest.v ===== *)
(** * Manifest file systems ([manifest/])

    Instead of a live bucket, a file system can show a fixed set of objects.  CSV files that list keys, ETags and sizes
    ([manifest/csv_reader.rs]) are ingested into an SQLite database ([manifest/builder.rs], [manifest/db.rs]), in which
    every object and directory is a row with the row of its directory as parent.  [ManifestMetablock]
    ([manifest/metablock.rs], [manifest/core.rs]) answers metadata requests from the database.

    The database is a list of rows, in the order of insertion, with the meaning that SQL gives to the statements of the
    program.  Every statement can fail ([db_io]).  Of the CSV files, the model sees the records that the csv crate
    reads. *)

From S2P Require Import Prelude Checksums BlockFormat NegativeCache Path Inode Readdir S3Path.
Local Open Scope Z_scope.

Definition str_bytes (s : str) : bytes := map Strings.Ascii.byte_of_ascii s.

(** ** The database *)

Inductive SqlError := SqlConstraintViolation | SqlOther (what : string).

Record DbEntry := {
  dbe_id : Z;
  dbe_parent_id : Z;
  dbe_channel_id : Z;
  dbe_parent_partial_key : option str;
  dbe_name : str;
  dbe_etag : option string;
  dbe_size : option Z;
  dbe_checksum : Z;
}.

Record Db := {
  db_created : bool;
  db_s3_objects : list DbEntry;
  db_channels : list (Z * str * str);
  (** the fate of the next statements *)
  db_io : list (option string);
}.

Definition db_call (db : Db) : Db * outcome SqlError unit :=
  match db_io db with
  | [] => (db, Ok tt)
  | fate :: io =>
      ({| db_created := db_created db; db_s3_objects := db_s3_objects db; db_channels := db_channels db; db_io := io |},
       match fate with None => Ok tt | Some e => Err (SqlOther e) end)
  end.

(** An unsigned integer as a parameter of a statement; SQL integers are signed. *)
Definition to_sql (x : Z) : outcome SqlError Z := if x <? 2 ^ 63 then Ok x else Err (SqlOther "integer out of range").

(** [ORDER BY name] *)
Definition name_le (a b : DbEntry) : Prop := str_compare (dbe_name a) (dbe_name b) ≠ Gt.
#[export] Instance name_le_dec : RelDecision name_le.
Proof. intros a b. unfold name_le. apply _. Defined.

Definition Db_new (io : list (option string)) : Db :=
  {| db_created := false; db_s3_objects := []; db_channels := []; db_io := io |}.

Definition create_table (db : Db) : Db * outcome SqlError unit :=
  let? db, _ := db_call db in
  if db_created db then (db, Err (SqlOther "table already exists"))
  else ({| db_created := true; db_s3_objects := []; db_channels := []; db_io := db_io db |}, Ok tt).

Definition select_entry_by_id (db : Db) (id : Z) : Db * outcome SqlError (option DbEntry) :=
  let? db, _ := db_call db in
  (db, let! id := to_sql id in Ok (head (filter (λ e, dbe_id e = id) (db_s3_objects db)))).

Definition select_entry (db : Db) (parent_id : Z) (name : str) : Db * outcome SqlError (option DbEntry) :=
  let? db, _ := db_call db in
  (db, let! parent_id := to_sql parent_id in
       Ok (head (filter (λ e, dbe_parent_id e = parent_id ∧ dbe_name e = name) (db_s3_objects db)))).

(** the rows of [WHERE parent_id = ?1 ORDER BY name] *)
Definition children (rows : list DbEntry) (parent_id : Z) : list DbEntry :=
  stable_sort name_le (filter (λ e, dbe_parent_id e = parent_id) rows).

Definition select_children (db : Db) (parent_id next_offset batch_size : Z) : Db * outcome SqlError (list DbEntry) :=
  let? db, _ := db_call db in
  (db, let! parent_id := to_sql parent_id in
       let! batch_size := to_sql batch_size in
       let! next_offset := to_sql next_offset in
       Ok (ztake batch_size (zdrop next_offset (children (db_s3_objects db) parent_id)))).

(** [CREATE UNIQUE INDEX ... (parent_id, name)] *)
Definition create_index (db : Db) : Db * outcome SqlError unit :=
  let? db, _ := db_call db in
  (db, if bool_decide (NoDup (map (λ e, (dbe_parent_id e, dbe_name e)) (db_s3_objects db))) then Ok tt else Err SqlConstraintViolation).

(** one [INSERT]; [id] is the primary key *)
Definition insert_row (rows : list DbEntry) (e : DbEntry) : outcome SqlError (list DbEntry) :=
  let! _ := to_sql (dbe_id e) in
  let! _ := to_sql (dbe_parent_id e) in
  let! _ := to_sql (dbe_channel_id e) in
  let! _ := (match dbe_size e with Some size => to_sql size | None => Ok 0 end) in
  if bool_decide (dbe_id e ∈ map dbe_id rows) then Err SqlConstraintViolation else Ok (rows ++ [e]).
Fixpoint insert_rows (rows entries : list DbEntry) : outcome SqlError (list DbEntry) :=
  match entries with
  | [] => Ok rows
  | e :: entries => let! rows := insert_row rows e in insert_rows rows entries
  end.

(** One transaction.  With [journal_mode=off] SQLite does not say what a transaction that fails leaves in the table;
    the rows from before are kept here, and nothing reads them: the error ends [create_db], and the database is not mounted. *)
Definition insert_batch (db : Db) (entries : list DbEntry) : Db * outcome SqlError unit :=
  let? db, _ := db_call db in
  match insert_rows (db_s3_objects db) entries with
  | Ok rows => ({| db_created := db_created db; db_s3_objects := rows; db_channels := db_channels db; db_io := db_io db |}, Ok tt)
  | Err e => (db, Err e)
  | Panic => (db, Panic)
  end.

(** the rows of [insert_channels], which numbers the channels from 0 *)
Definition channel_rows (channels : list S3Path) : list (Z * str * str) :=
  imap (λ id channel, (Z.of_nat id, bucket_name (s3_bucket channel), prefix_path (s3_prefix channel))) channels.
Definition insert_channels (db : Db) (channels : list S3Path) : Db * outcome SqlError unit :=
  let? db, _ := db_call db in
  ({| db_created := db_created db; db_s3_objects := db_s3_objects db; db_channels := db_channels db ++ channel_rows channels;
      db_io := db_io db |}, Ok tt).

(** ** Errors *)

Inductive ManifestError :=
| DbError (e : SqlError)
| ManifestInvalidKey (e : ValidKeyError)
| InvalidRow (id : Z)
| InvalidChannel (id : Z)
| InvalidChecksum (name : str) (computed received : Z).

Inductive InputManifestError :=
| DbExists
| CsvOpenError (path : string)
| DirectoryMarker (key : str)
| CsvError (what : string)
| ConstraintViolation
| InputInvalidChannel (name : str)
| InvalidBucket (e : S3PathError)
| InvalidPrefix (e : PrefixError)
| InputDbError (e : SqlError)
| InputInvalidKey (e : ValidKeyError)
| InputInvalidChecksum (name : str) (computed received : Z)
| InvalidFileChecksum (path : string) (computed received : Z)
| InvalidEtag (first : str) (second : string)
| SizeTooLarge (size : Z).

(** Loading the channels checks that their ids count from 0. *)
Definition load_channel (row : Z * str * str) : outcome ManifestError (Z * S3Path) :=
  let '(id, bucket, prefix) := row in
  let! bucket := outcome_map_err (λ _, DbError (SqlOther "conversion of bucket failed")) (Bucket_new bucket) in
  let! prefix := outcome_map_err (λ _, DbError (SqlOther "conversion of prefix failed")) (Prefix_new prefix) in
  Ok (id, {| s3_bucket := bucket; s3_prefix := prefix |}).
Fixpoint check_channels (i : Z) (channels : list (Z * S3Path)) : outcome ManifestError (list S3Path) :=
  match channels with
  | [] => Ok []
  | (id, channel) :: rest =>
      if negb (i =? id) then Err (InvalidChannel id) else let! rest := check_channels (i + 1) rest in Ok (channel :: rest)
  end.
Definition channel_id_le (a b : Z * str * str) : Prop := a.1.1 ≤ b.1.1.
#[export] Instance channel_id_le_dec : RelDecision channel_id_le.
Proof. intros a b. unfold channel_id_le. apply _. Defined.
Definition load_channels (db : Db) : Db * outcome ManifestError (list S3Path) :=
  let '(db, r) := db_call db in
  (db, let! _ := outcome_map_err DbError r in
       let! channels := outcome_mapM load_channel (stable_sort channel_id_le (db_channels db)) in
       check_channels 0 channels).

(** ** Checksums of entries *)

Section manifest.
Context `{crc : Crc32c, env : IntegrityEnv}.

Definition etag_bytes (etag : option string) : bytes := match etag with Some etag => string_bytes etag | None => [] end.
Definition size_bytes (size : option Z) : bytes := match size with Some size => be_bytes 8 size | None => [] end.

(** [compute_checksum]: the partial key, and the checksums with and without the ids and the S3 path *)
Definition entry_checksum (id parent_id : Z) (parent_partial_key : option ValidKey) (name : str) (etag : option string) (size : option Z)
    (s3_path : S3Path) : outcome ValidKeyError (ValidKey * Z * Z) :=
  let kind := if bool_decide (is_Some etag) && bool_decide (is_Some size) then File else Directory in
  let! partial_key := ValidKey_new_child (default ValidKey_root parent_partial_key) name kind in
  let hashed := str_bytes (vk_key partial_key) ++ etag_bytes etag ++ size_bytes size in
  let partial_checksum := crc32c_checksum hashed in
  let full_checksum := crc32c_checksum (hashed ++ be_bytes 8 id ++ be_bytes 8 parent_id ++ str_bytes (bucket_name (s3_bucket s3_path)) ++
    str_bytes (prefix_path (s3_prefix s3_path))) in
  Ok (partial_key, full_checksum, partial_checksum).

Definition DbEntry_new (id parent_id channel_id : Z) (parent_partial_key : option ValidKey) (name : str) (etag : option string)
    (size : option Z) (s3_path : S3Path) : outcome InputManifestError DbEntry :=
  let! checksums := outcome_map_err InputInvalidKey (entry_checksum id parent_id parent_partial_key name etag size s3_path) in
  let '(_, checksum, _) := checksums in
  Ok {| dbe_id := id; dbe_parent_id := parent_id; dbe_channel_id := channel_id; dbe_parent_partial_key := vk_key <$> parent_partial_key;
        dbe_name := name; dbe_etag := etag; dbe_size := size; dbe_checksum := checksum |}.

Definition DbEntry_new_with_partial_checksum (id parent_id channel_id : Z) (parent_partial_key : option ValidKey) (name : str)
    (etag : option string) (size : option Z) (s3_path : S3Path) (input_partial_checksum : Z) : outcome InputManifestError DbEntry :=
  let! checksums := outcome_map_err InputInvalidKey (entry_checksum id parent_id parent_partial_key name etag size s3_path) in
  let '(_, checksum, partial_checksum) := checksums in
  if negb (input_partial_checksum =? partial_checksum) then Err (InputInvalidChecksum name partial_checksum input_partial_checksum)
  else
    Ok {| dbe_id := id; dbe_parent_id := parent_id; dbe_channel_id := channel_id; dbe_parent_partial_key := vk_key <$> parent_partial_key;
          dbe_name := name; dbe_etag := etag; dbe_size := size; dbe_checksum := checksum |}.

(** ** Validated entries ([manifest/core.rs]) *)

Inductive ManifestEntryKind := ManifestFile (etag : string) (size : Z) | ManifestDirectory.

Record ManifestEntry := {
  me_id : Z;
  me_parent_id : Z;
  me_channel_id : Z;
  me_parent_partial_key : option ValidKey;
  me_name : str;
  me_kind : ManifestEntryKind;
  me_checksum : Z;
}.

(** [S3Location]: the channel and the key inside it; [Lookup] and [InodeInformation] with it and without it *)
Record ManifestLookup := {
  mlk_ino : Z;
  mlk_stat : InodeStat;
  mlk_kind : InodeKind;
  mlk_location : option (S3Path * ValidKey);
}.
Record InodeInformation := { ii_ino : Z; ii_stat : InodeStat; ii_kind : InodeKind }.

Definition ManifestEntry_try_from (e : DbEntry) : outcome ManifestError ManifestEntry :=
  let! parent_partial_key :=
    (match dbe_parent_partial_key e with
     | None => Ok None
     | Some key => let! key := outcome_map_err ManifestInvalidKey (ValidKey_try_from key) in Ok (Some key)
     end) in
  if bool_decide (parent_partial_key = None) && negb (dbe_parent_id e =? ROOT_INODE_NO) then Err (InvalidRow (dbe_id e))
  else
    let! kind :=
      (match dbe_etag e, dbe_size e with
       | None, None => Ok ManifestDirectory
       | Some etag, Some size => Ok (ManifestFile etag size)
       | _, _ => Err (InvalidRow (dbe_id e))
       end) in
    Ok {| me_id := dbe_id e; me_parent_id := dbe_parent_id e; me_channel_id := dbe_channel_id e; me_parent_partial_key := parent_partial_key;
          me_name := dbe_name e; me_kind := kind; me_checksum := dbe_checksum e |}.

Definition ManifestEntry_channel (e : ManifestEntry) (channels : list S3Path) : outcome ManifestError S3Path :=
  match channels !! Z.to_nat (me_channel_id e) with
  | Some channel => Ok channel
  | None => Err (InvalidRow (me_id e))
  end.

Definition validate_checksum (e : ManifestEntry) (path : S3Path) : outcome ManifestError (Z * ValidKey * ManifestEntryKind) :=
  let! name := outcome_map_err (λ _, InvalidRow (me_id e)) (ValidName_parse_str (me_name e)) in
  let! checksums := outcome_map_err ManifestInvalidKey
    (match me_kind e with
     | ManifestFile etag size => entry_checksum (me_id e) (me_parent_id e) (me_parent_partial_key e) name (Some etag) (Some size) path
     | ManifestDirectory => entry_checksum (me_id e) (me_parent_id e) (me_parent_partial_key e) name None None path
     end) in
  let '(partial_key, computed_checksum, _) := checksums in
  if negb (computed_checksum =? me_checksum e) then Err (InvalidChecksum (me_name e) computed_checksum (me_checksum e))
  else Ok (me_id e, partial_key, me_kind e).

(** [now]: the reading of the clock for the expiry *)
Definition ManifestEntry_stat (kind : ManifestEntryKind) (mount_time now : Z) : InodeStat :=
  match kind with
  | ManifestFile etag size => InodeStat_for_file size mount_time (Some etag) None None now NEVER_EXPIRE_TTL
  | ManifestDirectory => InodeStat_for_directory mount_time now NEVER_EXPIRE_TTL
  end.

Definition into_lookup (e : ManifestEntry) (channels : list S3Path) (mount_time now : Z) : outcome ManifestError ManifestLookup :=
  let! s3_path := ManifestEntry_channel e channels in
  let! validated := validate_checksum e s3_path in
  let '(id, partial_key, entry_kind) := validated in
  Ok {| mlk_ino := id; mlk_stat := ManifestEntry_stat entry_kind mount_time now; mlk_kind := ValidKey_kind partial_key;
        mlk_location := (λ _, (s3_path, partial_key)) <$> me_parent_partial_key e |}.

Definition into_inode_information (e : ManifestEntry) (channels : list S3Path) (mount_time now : Z)
    : outcome ManifestError (InodeInformation * str) :=
  let! s3_path := ManifestEntry_channel e channels in
  let! validated := validate_checksum e s3_path in
  let '(id, partial_key, entry_kind) := validated in
  let! name := ValidKey_name partial_key in
  Ok ({| ii_ino := id; ii_stat := ManifestEntry_stat entry_kind mount_time now; ii_kind := ValidKey_kind partial_key |}, name).

(** *** [Manifest] *)

Definition validated (r : outcome SqlError (option DbEntry)) : outcome ManifestError (option ManifestEntry) :=
  let! e := outcome_map_err DbError r in
  match e with
  | Some e => let! e := ManifestEntry_try_from e in Ok (Some e)
  | None => Ok None
  end.
Definition manifest_lookup (db : Db) (parent_id : Z) (name : str) : Db * outcome ManifestError (option ManifestEntry) :=
  let '(db, r) := select_entry db parent_id name in (db, validated r).
Definition manifest_lookup_by_id (db : Db) (ino : Z) : Db * outcome ManifestError (option ManifestEntry) :=
  let '(db, r) := select_entry_by_id db ino in (db, validated r).

(** *** [ManifestDirIter] *)

Record ManifestDirIter := {
  mdi_entries : list ManifestEntry;
  mdi_parent_id : Z;
  mdi_next_offset : Z;
  mdi_batch_size : Z;
  mdi_finished : bool;
}.
Definition ManifestDirIter_new (parent_id : Z) : ManifestDirIter :=
  {| mdi_entries := []; mdi_parent_id := parent_id; mdi_next_offset := 0; mdi_batch_size := 10000; mdi_finished := false |}.
Definition mdi_set (it : ManifestDirIter) (entries : list ManifestEntry) (next_offset : Z) (finished : bool) : ManifestDirIter :=
  {| mdi_entries := entries; mdi_parent_id := mdi_parent_id it; mdi_next_offset := next_offset; mdi_batch_size := mdi_batch_size it;
     mdi_finished := finished |}.

Definition search_next_entries (db : Db) (it : ManifestDirIter) : Db * ManifestDirIter * outcome ManifestError unit :=
  let '(db, r) := select_children db (mdi_parent_id it) (mdi_next_offset it) (mdi_batch_size it) in
  match outcome_map_err DbError r with
  | Err e => (db, it, Err e)
  | Panic => (db, it, Panic)
  | Ok db_entries =>
      let finished := if zlen db_entries <? mdi_batch_size it then true else mdi_finished it in
      match outcome_mapM ManifestEntry_try_from db_entries with
      | Ok manifest_entries => (db, mdi_set it (mdi_entries it ++ manifest_entries) (mdi_next_offset it) finished, Ok tt)
      | Err e => (db, mdi_set it (mdi_entries it) (mdi_next_offset it) finished, Err e)
      | Panic => (db, mdi_set it (mdi_entries it) (mdi_next_offset it) finished, Panic)
      end
  end.

Definition next_entry (db : Db) (it : ManifestDirIter) : Db * ManifestDirIter * outcome ManifestError (option ManifestEntry) :=
  let '(db, it, r) :=
    if bool_decide (mdi_entries it = []) && negb (mdi_finished it) then search_next_entries db it else (db, it, Ok tt) in
  match r with
  | Err e => (db, it, Err e)
  | Panic => (db, it, Panic)
  | Ok _ =>
      match mdi_entries it with
      | [] => (db, it, Ok None)
      | entry :: entries => (db, mdi_set it entries (wadd (mdi_next_offset it) 1) (mdi_finished it), Ok (Some entry))
      end
  end.

Definition mdi_readd (it : ManifestDirIter) (entry : ManifestEntry) : ManifestDirIter :=
  mdi_set it (entry :: mdi_entries it) (wsub (mdi_next_offset it) 1) (mdi_finished it).

Definition mdi_seek (it : ManifestDirIter) (offset : Z) : ManifestDirIter :=
  if negb (offset =? mdi_next_offset it) then mdi_set it [] offset false else it.

(** ** [ManifestMetablock] ([manifest/metablock.rs]) *)

Record ManifestMetablock := {
  mm_channels : list S3Path;
  mm_mount_time : Z;
  mm_manifest : Db;
  mm_next_dir_handle_id : Z;
  mm_readdir_handles : gmap Z ManifestDirIter;
}.
(** errors of the trait, and errors of the manifest that become one *)
Inductive MetablockError := MetablockInodeError (e : InodeError) | MetablockManifestError (e : ManifestError).

Implicit Types mm : ManifestMetablock.
Definition mm_with_db mm (db : Db) : ManifestMetablock :=
  {| mm_channels := mm_channels mm; mm_mount_time := mm_mount_time mm; mm_manifest := db; mm_next_dir_handle_id := mm_next_dir_handle_id mm;
     mm_readdir_handles := mm_readdir_handles mm |}.
Definition mm_with_handles mm (next_dir_handle_id : Z) (handles : gmap Z ManifestDirIter) : ManifestMetablock :=
  {| mm_channels := mm_channels mm; mm_mount_time := mm_mount_time mm; mm_manifest := mm_manifest mm;
     mm_next_dir_handle_id := next_dir_handle_id; mm_readdir_handles := handles |}.

Definition ManifestMetablock_new (db : Db) (mount_time : Z) : outcome ManifestError ManifestMetablock :=
  let '(db, r) := load_channels db in
  let! channels := r in
  Ok {| mm_channels := channels; mm_mount_time := mount_time; mm_manifest := db; mm_next_dir_handle_id := 0; mm_readdir_handles := ∅ |}.

Definition inode_error {A} (e : InodeError) : outcome MetablockError A := Err (MetablockInodeError e).
Definition by_manifest {A} (r : outcome ManifestError A) : outcome MetablockError A := outcome_map_err MetablockManifestError r.

(** [now]: the reading of the clock during the request *)
Context (now : Z).
Definition mm_stat_for_directory mm : InodeStat := InodeStat_for_directory (mm_mount_time mm) now NEVER_EXPIRE_TTL.

Definition mm_get_parent_id mm (ino : Z) : ManifestMetablock * outcome MetablockError Z :=
  if ino =? ROOT_INODE_NO then (mm, Ok ROOT_INODE_NO)
  else
    let '(db, r) := manifest_lookup_by_id (mm_manifest mm) ino in
    (mm_with_db mm db, let! e := by_manifest r in
      match e with Some e => Ok (me_parent_id e) | None => inode_error (InodeDoesNotExist ino) end).

Definition mm_lookup mm (parent_ino : Z) (name : str) : ManifestMetablock * outcome MetablockError ManifestLookup :=
  match ValidName_parse_str name with
  | Ok name =>
      let '(db, r) := manifest_lookup (mm_manifest mm) parent_ino name in
      (mm_with_db mm db, let! e := by_manifest r in
        match e with
        | Some e => by_manifest (into_lookup e (mm_channels mm) (mm_mount_time mm) now)
        | None => inode_error (FileDoesNotExist name {| ei_ino := parent_ino; ei_key := [] |})
        end)
  | Err (InvalidFileName name) => (mm, inode_error (InvalidFileNameError name))
  | Panic => (mm, Panic)
  end.

Definition mm_getattr mm (ino : Z) : ManifestMetablock * outcome MetablockError ManifestLookup :=
  if ino =? ROOT_INODE_NO then
    (mm, Ok {| mlk_ino := ino; mlk_stat := mm_stat_for_directory mm; mlk_kind := Directory; mlk_location := None |})
  else
    let '(db, r) := manifest_lookup_by_id (mm_manifest mm) ino in
    (mm_with_db mm db, let! e := by_manifest r in
      match e with
      | Some e => by_manifest (into_lookup e (mm_channels mm) (mm_mount_time mm) now)
      | None => inode_error (InodeDoesNotExist ino)
      end).

Definition mm_new_readdir_handle mm (dir_ino : Z) : ManifestMetablock * outcome MetablockError Z :=
  let id := mm_next_dir_handle_id mm in
  (mm_with_handles mm (wadd id 1) (<[id := ManifestDirIter_new dir_ino]> (mm_readdir_handles mm)), Ok id).

Definition mm_releasedir mm (fh : Z) : ManifestMetablock * outcome MetablockError unit :=
  (mm_with_handles mm (mm_next_dir_handle_id mm) (delete fh (mm_readdir_handles mm)), Ok tt).

(** An entry of a reply: the inode, its name, and the offset after it. *)
Record ManifestDirent := { mde_info : InodeInformation; mde_name : str; mde_offset : Z }.

(** [add sent entry]: the buffer has room for [entry] after [sent] *)
Section readdir.
Context (add : list ManifestDirent → ManifestDirent → bool).

(** The loop over the entries of the iterator: it ends when they are used up or the buffer is full. *)
Fixpoint mm_readdir_loop (fuel : nat) mm (db : Db) (it : ManifestDirIter) (offset : Z) (sent : list ManifestDirent)
    : Db * ManifestDirIter * list ManifestDirent * outcome MetablockError unit :=
  match fuel with
  | O => (db, it, sent, Panic)
  | S fuel =>
      let '(db, it, r) := next_entry db it in
      match by_manifest r with
      | Err e => (db, it, sent, Err e)
      | Panic => (db, it, sent, Panic)
      | Ok None => (db, it, sent, Ok tt)
      | Ok (Some entry) =>
          match by_manifest (into_inode_information entry (mm_channels mm) (mm_mount_time mm) now) with
          | Err e => (db, it, sent, Err e)
          | Panic => (db, it, sent, Panic)
          | Ok (info, name) =>
              let dirent := {| mde_info := info; mde_name := name; mde_offset := offset + 1 |} in
              if add sent dirent then mm_readdir_loop fuel mm db it (offset + 1) (sent ++ [dirent])
              else (db, mdi_readd it entry, sent, Ok tt)
          end
      end
  end.

Definition dot_entry mm (ino : Z) (name : string) (offset : Z) : ManifestDirent :=
  {| mde_info := {| ii_ino := ino; ii_stat := mm_stat_for_directory mm; ii_kind := Directory |}; mde_name := str_of name; mde_offset := offset |}.

(** the part of [readdir] after the dot entries *)
Definition mm_readdir_entries mm (it : ManifestDirIter) (fh offset : Z) (sent : list ManifestDirent)
    : ManifestMetablock * list ManifestDirent * outcome MetablockError unit :=
  let it := mdi_seek it (wrap64 (offset - 2)) in
  let '(db, it, sent, r) := mm_readdir_loop (S (length (db_s3_objects (mm_manifest mm)))) mm (mm_manifest mm) it offset sent in
  (mm_with_handles (mm_with_db mm db) (mm_next_dir_handle_id mm) (<[fh := it]> (mm_readdir_handles mm)), sent, r).

Definition mm_readdir mm (parent fh offset : Z) : ManifestMetablock * list ManifestDirent * outcome MetablockError unit :=
  match mm_readdir_handles mm !! fh with
  | None => (mm, [], inode_error (NoSuchDirHandle fh))
  | Some it =>
      let dot := dot_entry mm parent "." (offset + 1) in
      if (offset <? 1) && negb (add [] dot) then (mm, [], Ok tt)
      else
        let '(offset, sent) := if offset <? 1 then (offset + 1, [dot]) else (offset, []) in
        if offset <? 2 then
          let '(mm, grandparent) := mm_get_parent_id mm parent in
          match grandparent with
          | Err e => (mm, sent, Err e)
          | Panic => (mm, sent, Panic)
          | Ok grandparent_ino =>
              let dotdot := dot_entry mm grandparent_ino ".." (offset + 1) in
              if negb (add sent dotdot) then (mm, sent, Ok tt)
              else mm_readdir_entries mm it fh (offset + 1) (sent ++ [dotdot])
          end
        else mm_readdir_entries mm it fh offset sent
  end.
End readdir.

Definition mm_open_handle mm (ino : Z) (o_wronly : bool) : ManifestMetablock * outcome MetablockError ManifestLookup :=
  let '(mm, r) := mm_getattr mm ino in
  (mm, let! lookup := r in
       if o_wronly then
         inode_error (InodeNotWritable {| ei_ino := mlk_ino lookup;
           ei_key := match mlk_location lookup with
                     | Some (path, key) => vk_key (ValidKey_full_key key (s3_prefix path))
                     | None => str_of "SYNTHETIC"
                     end |})
       else Ok lookup).

(** The requests that change something are refused. *)
Definition read_only {A} (ino : Z) : outcome MetablockError A := inode_error (InodeNotWritable {| ei_ino := ino; ei_key := [] |}).
Definition mm_create (dir : Z) : outcome MetablockError ManifestLookup := read_only dir.
Definition mm_inc_file_size (ino : Z) : outcome MetablockError Z := read_only ino.
Definition mm_finish_writing (ino : Z) : outcome MetablockError ManifestLookup := read_only ino.
Definition mm_rename (src_parent_ino : Z) : outcome MetablockError unit := read_only src_parent_ino.
Definition mm_rmdir (parent_ino : Z) : outcome MetablockError unit := read_only parent_ino.
Definition mm_unlink (parent_ino : Z) : outcome MetablockError unit := read_only parent_ino.
Definition mm_setattr (ino : Z) : outcome MetablockError ManifestLookup := read_only ino.
Definition mm_try_reactivate_handle (ino : Z) (write : bool) : outcome MetablockError bool := if write then read_only ino else Ok true.
Definition mm_flush_writer (ino : Z) : outcome MetablockError unit := read_only ino.
Definition mm_release_writer (ino : Z) : outcome MetablockError unit := read_only ino.
End manifest.

(** ** Ingesting manifests ([manifest/builder.rs], [manifest/csv_reader.rs]) *)

Record InputManifestEntry := {
  ime_partial_key : ValidKey;
  ime_etag : string;
  ime_size : Z;
  ime_checksum : Z;
}.

Definition InputManifestEntry_new (partial_key : str) (etag : string) (size checksum : Z) : outcome InputManifestError InputManifestEntry :=
  let! partial_key := outcome_map_err InputInvalidKey (ValidKey_try_from partial_key) in
  if bool_decide (vk_key partial_key = []) then Err (InputInvalidKey (InvalidKey (vk_key partial_key)))
  else if negb (bool_decide (ValidKey_kind partial_key = File)) then Err (DirectoryMarker (vk_key partial_key))
  else if bool_decide (etag = EmptyString) then Err (InvalidEtag (vk_key partial_key) etag)
  else Ok {| ime_partial_key := partial_key; ime_etag := etag; ime_size := size; ime_checksum := checksum |}.

(** A row of a CSV file; the checksum was decoded from base64. *)
Record CsvEntry := { csv_partial_key : str; csv_etag : string; csv_size : Z; csv_checksum : Z }.
Abbreviation manifest_item := (outcome InputManifestError InputManifestEntry).

Definition CsvEntry_total_size (e : CsvEntry) : Z :=
  wadd (wadd (Z.of_nat (length (csv_partial_key e))) (zlen (string_bytes (csv_etag e)))) 8.
(** [usize::try_from] succeeds on a 64-bit machine *)
Definition CsvEntry_try_into (e : CsvEntry) : manifest_item :=
  InputManifestEntry_new (csv_partial_key e) (csv_etag e) (csv_size e) (csv_checksum e).

Record ChannelManifest := { cm_directory_name : str; cm_s3_path : S3Path; cm_entries : list manifest_item }.
Record ChannelConfig := {
  cc_directory_name : str;
  cc_bucket_name : str;
  cc_prefix : str;
  cc_manifest_path : string;
  cc_manifest_checksum : Z;
}.

Section ingest.
Context `{crc : Crc32c, env : IntegrityEnv}.

Record CsvReader := {
  csvr_records : list (outcome string CsvEntry);
  csvr_file_path : string;
  csvr_running_checksum : Z;
  csvr_expected_checksum : Z;
  csvr_done : bool;
}.
Definition CsvReader_new (records : list (outcome string CsvEntry)) (file_path : string) (expected_checksum : Z) : CsvReader :=
  {| csvr_records := records; csvr_file_path := file_path; csvr_running_checksum := 0; csvr_expected_checksum := expected_checksum;
     csvr_done := false |}.

Definition update_running_checksum (r : CsvReader) (e : CsvEntry) : Z :=
  combine_checksums (csvr_running_checksum r) (csv_checksum e) (CsvEntry_total_size e).

Definition CsvReader_next (r : CsvReader) : CsvReader * option manifest_item :=
  let with_records records running done :=
    {| csvr_records := records; csvr_file_path := csvr_file_path r; csvr_running_checksum := running;
       csvr_expected_checksum := csvr_expected_checksum r; csvr_done := done |} in
  match csvr_records r with
  | Ok e :: records => (with_records records (update_running_checksum r e) (csvr_done r), Some (CsvEntry_try_into e))
  | Err what :: records => (with_records records (csvr_running_checksum r) (csvr_done r), Some (Err (CsvError what)))
  | Panic :: records => (with_records records (csvr_running_checksum r) (csvr_done r), Some Panic)
  | [] =>
      if negb (csvr_done r) && negb (csvr_running_checksum r =? csvr_expected_checksum r) then
        (with_records [] (csvr_running_checksum r) true,
         Some (Err (InvalidFileChecksum (csvr_file_path r) (csvr_running_checksum r) (csvr_expected_checksum r))))
      else (r, None)
  end.
(** All items of the iterator: one for each record, and at most one more. *)
Fixpoint csv_items (fuel : nat) (r : CsvReader) : list manifest_item :=
  match fuel with
  | O => []
  | S fuel => match CsvReader_next r with (r, Some item) => item :: csv_items fuel r | (_, None) => [] end
  end.
Definition CsvReader_items (r : CsvReader) : list manifest_item := csv_items (S (length (csvr_records r))) r.

Record ManifestBuilder := {
  mb_db : Db;
  mb_dir_ids : gmap str Z;
  mb_next_id : Z;
  mb_insert_buffer : list DbEntry;
  mb_batch_size : Z;
}.
Implicit Types mb : ManifestBuilder.
Definition mb_with mb (dir_ids : gmap str Z) (next_id : Z) (insert_buffer : list DbEntry) : ManifestBuilder :=
  {| mb_db := mb_db mb; mb_dir_ids := dir_ids; mb_next_id := next_id; mb_insert_buffer := insert_buffer; mb_batch_size := mb_batch_size mb |}.
Definition mb_with_db mb (db : Db) (insert_buffer : list DbEntry) : ManifestBuilder :=
  {| mb_db := db; mb_dir_ids := mb_dir_ids mb; mb_next_id := mb_next_id mb; mb_insert_buffer := insert_buffer; mb_batch_size := mb_batch_size mb |}.

(** [Db::new] sets a pragma before the tables are created. *)
Definition ManifestBuilder_new (io : list (option string)) (batch_size : Z) : ManifestBuilder * outcome InputManifestError unit :=
  let '(db, r) := db_call (Db_new io) in
  let '(db, r) := match r with Ok _ => create_table db | r => (db, r) end in
  ({| mb_db := db; mb_dir_ids := ∅; mb_next_id := ROOT_INODE_NO + 1; mb_insert_buffer := []; mb_batch_size := batch_size |},
   outcome_map_err InputDbError r).

Definition mb_insert_channels mb (channel_manifests : list ChannelManifest) : ManifestBuilder * outcome InputManifestError unit :=
  let '(db, r) := insert_channels (mb_db mb) (map cm_s3_path channel_manifests) in
  (mb_with_db mb db (mb_insert_buffer mb), outcome_map_err InputDbError r).

Definition mb_create_index mb : ManifestBuilder * outcome InputManifestError unit :=
  let '(db, r) := create_index (mb_db mb) in
  (mb_with_db mb db (mb_insert_buffer mb),
   match r with Err SqlConstraintViolation => Err ConstraintViolation | r => outcome_map_err InputDbError r end).

Definition flush_insert_buffer mb : ManifestBuilder * outcome InputManifestError unit :=
  if bool_decide (mb_insert_buffer mb = []) then (mb, Ok tt)
  else
    let '(db, r) := insert_batch (mb_db mb) (mb_insert_buffer mb) in
    match r with
    | Ok _ => (mb_with_db mb db [], Ok tt)
    | r => (mb_with_db mb db (mb_insert_buffer mb), outcome_map_err InputDbError r)
    end.

(** one component of [ensure_dirs_inserted] *)
Definition ensure_dir mb (channel_id : Z) (s3_path : S3Path) (parent_id : Z) (parent_partial_key : ValidKey) (component : str)
    : ManifestBuilder * outcome InputManifestError (Z * ValidKey) :=
  let? mb, partial_key := (mb, outcome_map_err InputInvalidKey (ValidKey_new_child parent_partial_key component Directory)) in
  match mb_dir_ids mb !! vk_key partial_key with
  | Some dir_id => (mb, Ok (dir_id, partial_key))
  | None =>
      let id := mb_next_id mb in
      let? mb, entry := (mb, DbEntry_new id parent_id channel_id (Some parent_partial_key) component None None s3_path) in
      (mb_with mb (<[vk_key partial_key := id]> (mb_dir_ids mb)) (wadd id 1) (mb_insert_buffer mb ++ [entry]), Ok (id, partial_key))
  end.
Fixpoint ensure_dirs mb (channel_id : Z) (s3_path : S3Path) (parent_id : Z) (parent_partial_key : ValidKey) (components : list str)
    : ManifestBuilder * outcome InputManifestError (Z * ValidKey) :=
  match components with
  | [] => (mb, Ok (parent_id, parent_partial_key))
  | component :: components =>
      let? mb, dir := ensure_dir mb channel_id s3_path parent_id parent_partial_key component in
      ensure_dirs mb channel_id s3_path dir.1 dir.2 components
  end.
Definition ensure_dirs_inserted mb (object_key : ValidKey) (channel_id channel_root_id : Z) (s3_path : S3Path)
    : ManifestBuilder * outcome InputManifestError (Z * ValidKey) :=
  match ValidKey_components object_key with
  | [] => (mb, Panic)
  | components => ensure_dirs mb channel_id s3_path channel_root_id ValidKey_root (take (length components - 1) components)
  end.

Definition into_db_entry (e : InputManifestEntry) (id parent_id channel_id : Z) (parent_partial_key : ValidKey) (s3_path : S3Path)
    : outcome InputManifestError DbEntry :=
  let! name := ValidKey_valid_name (ime_partial_key e) in
  match name with
  | None => Panic
  | Some name =>
      DbEntry_new_with_partial_checksum id parent_id channel_id (Some parent_partial_key) name (Some (ime_etag e)) (Some (ime_size e)) s3_path
        (ime_checksum e)
  end.

(** one object of a manifest *)
Definition insert_object mb (channel_id channel_root_id : Z) (s3_path : S3Path) (e : InputManifestEntry)
    : ManifestBuilder * outcome InputManifestError unit :=
  let? mb, dir := ensure_dirs_inserted mb (ime_partial_key e) channel_id channel_root_id s3_path in
  let? mb, db_entry := (mb, into_db_entry e (mb_next_id mb) dir.1 channel_id dir.2 s3_path) in
  let mb := mb_with mb (mb_dir_ids mb) (wadd (mb_next_id mb) 1) (mb_insert_buffer mb ++ [db_entry]) in
  if mb_batch_size mb <=? zlen (mb_insert_buffer mb) then flush_insert_buffer mb else (mb, Ok tt).

Fixpoint insert_objects mb (channel_id channel_root_id : Z) (s3_path : S3Path) (entries : list manifest_item)
    : ManifestBuilder * outcome InputManifestError unit :=
  match entries with
  | [] => (mb, Ok tt)
  | Err (DirectoryMarker _) :: entries => insert_objects mb channel_id channel_root_id s3_path entries
  | entry :: entries =>
      let? mb, entry := (mb, entry) in
      let? mb, _ := insert_object mb channel_id channel_root_id s3_path entry in
      insert_objects mb channel_id channel_root_id s3_path entries
  end.

(** one channel, with its directory *)
Definition insert_channel mb (channel_id : Z) (channel : ChannelManifest) : ManifestBuilder * outcome InputManifestError unit :=
  let channel_root_id := mb_next_id mb in
  let? mb, name := (mb, outcome_map_err (λ _, InputInvalidChannel (cm_directory_name channel)) (ValidName_parse_str (cm_directory_name channel))) in
  let? mb, entry := (mb, DbEntry_new channel_root_id ROOT_INODE_NO channel_id None name None None (cm_s3_path channel)) in
  let mb := mb_with mb (mb_dir_ids mb) (wadd (mb_next_id mb) 1) (mb_insert_buffer mb ++ [entry]) in
  let? mb, _ := insert_objects mb channel_id channel_root_id (cm_s3_path channel) (cm_entries channel) in
  (mb_with mb ∅ (mb_next_id mb) (mb_insert_buffer mb), Ok tt).
Fixpoint insert_channels_from mb (channel_id : Z) (channels : list ChannelManifest) : ManifestBuilder * outcome InputManifestError unit :=
  match channels with
  | [] => (mb, Ok tt)
  | channel :: channels => let? mb, _ := insert_channel mb channel_id channel in insert_channels_from mb (channel_id + 1) channels
  end.
Definition mb_insert_entries mb (channels : list ChannelManifest) : ManifestBuilder * outcome InputManifestError unit :=
  let? mb, _ := insert_channels_from mb 0 channels in
  flush_insert_buffer mb.

(** The database that is left, and the result. *)
Definition create_db (io : list (option string)) (channel_manifests : list ChannelManifest) (batch_size : Z) : Db * outcome InputManifestError unit :=
  let '(mb, r) :=
    let? builder, _ := ManifestBuilder_new io batch_size in
    let? builder, _ := mb_insert_channels builder channel_manifests in
    let? builder, _ := mb_insert_entries builder channel_manifests in
    mb_create_index builder in
  (mb_db mb, r).

(** The loop that checks the names of the channel directories. *)
Fixpoint check_directory_names (seen : gset str) (configs : list ChannelConfig) : outcome InputManifestError unit :=
  match configs with
  | [] => Ok tt
  | c :: configs =>
      let name := cc_directory_name c in
      if bool_decide (delimiter ∈ name) || bool_decide (name ∈ seen) then Err (InputInvalidChannel name)
      else check_directory_names ({[ name ]} ∪ seen) configs
  end.

(** [open_csv]: the records of the file at a path, if it can be opened *)
Definition channel_manifest (open_csv : string → option (list (outcome string CsvEntry))) (c : ChannelConfig) : outcome InputManifestError ChannelManifest :=
  match open_csv (cc_manifest_path c) with
  | None => Err (CsvOpenError (cc_manifest_path c))
  | Some records =>
      let! bucket := outcome_map_err InvalidBucket (Bucket_new (cc_bucket_name c)) in
      let! prefix := outcome_map_err InvalidPrefix (Prefix_new (cc_prefix c)) in
      Ok {| cm_directory_name := cc_directory_name c; cm_s3_path := {| s3_bucket := bucket; s3_prefix := prefix |};
            cm_entries := CsvReader_items (CsvReader_new records (cc_manifest_path c) (cc_manifest_checksum c)) |}
  end.

Definition ingest_manifest (db_exists : bool) (io : list (option string)) (open_csv : string → option (list (outcome string CsvEntry)))
    (configs : list ChannelConfig) : Db * outcome InputManifestError unit :=
  if db_exists then (Db_new io, Err DbExists)
  else
    match (let! _ := check_directory_names ∅ configs in outcome_mapM (channel_manifest open_csv) configs) with
    | Ok channel_manifests => create_db io channel_manifests 100000
    | Err e => (Db_new io, Err e)
    | Panic => (Db_new io, Panic)
    end.
End ingest.
