(* ===== verification/ManifestSpec.v ===== *)
(** * What a manifest file system shows

    [row_path]: which object or directory a row of the database stands for.  Ingesting keeps the invariant that every
    row stands for an object of a manifest or one of its directories, and the unique index makes paths unambiguous, so
    that walking down from the root finds exactly the objects that the manifests list.  Listing a directory serves its
    rows in order, from any offset. *)

From S2P Require Import Prelude Checksums BlockFormat NegativeCache Path Inode Readdir S3Path Manifest.
Local Open Scope Z_scope.

Abbreviation valid_names names := (Forall (λ n, valid_name_str n = true) names).

Section rows.
Context `{crc : Crc32c, env : IntegrityEnv}.
Context (cms : list ChannelManifest).

Definition row_kind (e : DbEntry) : InodeKind := if bool_decide (is_Some (dbe_etag e)) && bool_decide (is_Some (dbe_size e)) then File else Directory.
Definition kind_fields (e : DbEntry) : Prop :=
  match dbe_etag e, dbe_size e with Some _, Some _ | None, None => True | _, _ => False end.

(** The checksum that is stored for the row of the last name of a path. *)
Definition sealed (path : S3Path) (names : list str) (e : DbEntry) : Prop :=
  dbe_checksum e = crc32c_checksum ((str_bytes (vk_key (child_key names (dbe_name e) (row_kind e))) ++ etag_bytes (dbe_etag e) ++
    size_bytes (dbe_size e)) ++ be_bytes 8 (dbe_id e) ++ be_bytes 8 (dbe_parent_id e) ++ str_bytes (bucket_name (s3_bucket path)) ++
    str_bytes (prefix_path (s3_prefix path))).

(** [row_path rows c names e]: the row [e] is the path [names] below the directory of channel [c]. *)
Inductive row_path (rows : list DbEntry) : nat → list str → DbEntry → Prop :=
| row_root c cm e :
    e ∈ rows → cms !! c = Some cm → dbe_channel_id e = Z.of_nat c → dbe_parent_id e = ROOT_INODE_NO → dbe_parent_partial_key e = None →
    dbe_name e = cm_directory_name cm → valid_name_str (dbe_name e) = true → dbe_etag e = None → dbe_size e = None →
    sealed (cm_s3_path cm) [] e → row_path rows c [] e
| row_child c cm names p e :
    row_path rows c names p → row_kind p = Directory →
    e ∈ rows → cms !! c = Some cm → dbe_channel_id e = Z.of_nat c → dbe_parent_id e = dbe_id p →
    dbe_parent_partial_key e = Some (dir_path names) → valid_name_str (dbe_name e) = true → kind_fields e →
    sealed (cm_s3_path cm) names e → row_path rows c (names ++ [dbe_name e]) e.

Lemma row_path_elem rows c names e : row_path rows c names e → e ∈ rows.
Proof. by destruct 1. Qed.
Lemma row_path_mono rows rows' c names e : rows ⊆ rows' → row_path rows c names e → row_path rows' c names e.
Proof. intros Hsub. induction 1; [eapply row_root|eapply row_child]; eauto. Qed.
Lemma row_path_valid rows c names e : row_path rows c names e → valid_names names.
Proof. induction 1; [done|]. apply Forall_app. by split; [|constructor]. Qed.
Lemma row_path_channel rows c names e : row_path rows c names e → is_Some (cms !! c).
Proof. destruct 1; by eexists. Qed.

Lemma row_root_dir rows c e : row_path rows c [] e → row_kind e = Directory.
Proof.
  intros Hp. remember [] as names eqn:Hn. destruct Hp as [c cm e _ _ _ _ _ _ _ Het|c cm names p e]; [unfold row_kind; by rewrite Het|by destruct names].
Qed.

(** ** Directory keys *)

Lemma dir_path_key names : valid_names names →
  ∃ k, ValidKey_try_from (dir_path names) = Ok k ∧ ValidKey_kind k = Directory ∧ vk_key k = dir_path names ∧ key_in_tree k.
Proof.
  destruct names as [|n names _] using rev_ind; intros Hv; [by exists ValidKey_root; repeat split; try constructor|].
  apply Forall_app in Hv as [Hv Hn]. inv Hn. exists (child_key names n Directory). rewrite dir_path_snoc.
  split; [by apply (try_from_child names n Directory)|]. split; [by apply child_key_kind|]. split; [done|]. by apply key_in_tree_child.
Qed.
Lemma new_child_dir k names n kind :
  vk_key k = dir_path names → ValidKey_kind k = Directory → ValidKey_new_child k n kind = Ok (child_key names n kind).
Proof. intros Hk Hd. unfold ValidKey_new_child. rewrite Hd. unfold child_key. by rewrite Hk. Qed.

Lemma entry_checksum_dir id parent_id ppk names n etag size path :
  vk_key (default ValidKey_root ppk) = dir_path names → ValidKey_kind (default ValidKey_root ppk) = Directory →
  let kind := if bool_decide (is_Some etag) && bool_decide (is_Some size) then File else Directory in
  let hashed := str_bytes (vk_key (child_key names n kind)) ++ etag_bytes etag ++ size_bytes size in
  entry_checksum id parent_id ppk n etag size path =
  Ok (child_key names n kind,
      crc32c_checksum (hashed ++ be_bytes 8 id ++ be_bytes 8 parent_id ++ str_bytes (bucket_name (s3_bucket path)) ++
        str_bytes (prefix_path (s3_prefix path))), crc32c_checksum hashed).
Proof. intros Hk Hd. unfold entry_checksum. by rewrite (new_child_dir _ names) by done. Qed.

(** ** Reading a row *)

Definition entry_kind (e : DbEntry) : ManifestEntryKind :=
  match dbe_etag e, dbe_size e with Some etag, Some size => ManifestFile etag size | _, _ => ManifestDirectory end.
Definition row_entry (e : DbEntry) (ppk : option ValidKey) : ManifestEntry :=
  {| me_id := dbe_id e; me_parent_id := dbe_parent_id e; me_channel_id := dbe_channel_id e; me_parent_partial_key := ppk;
     me_name := dbe_name e; me_kind := entry_kind e; me_checksum := dbe_checksum e |}.

(** The answers for a row of [path]: the location is not set for the directory of a channel. *)
Definition row_info (mount_time now : Z) (e : DbEntry) : InodeInformation :=
  {| ii_ino := dbe_id e; ii_stat := ManifestEntry_stat (entry_kind e) mount_time now; ii_kind := row_kind e |}.
Definition row_location (c : nat) (names : list str) (e : DbEntry) : option (S3Path * ValidKey) :=
  cm ← cms !! c; match names with [] => None | _ => Some (cm_s3_path cm, child_key (take (length names - 1) names) (dbe_name e) (row_kind e)) end.
Definition row_lookup (mount_time now : Z) (c : nat) (names : list str) (e : DbEntry) : ManifestLookup :=
  {| mlk_ino := dbe_id e; mlk_stat := ManifestEntry_stat (entry_kind e) mount_time now; mlk_kind := row_kind e;
     mlk_location := row_location c names e |}.

Lemma validate_sealed path names ppk e :
  vk_key (default ValidKey_root ppk) = dir_path names → ValidKey_kind (default ValidKey_root ppk) = Directory →
  valid_name_str (dbe_name e) = true → kind_fields e → sealed path names e →
  validate_checksum (row_entry e ppk) path = Ok (dbe_id e, child_key names (dbe_name e) (row_kind e), entry_kind e).
Proof.
  intros Hk Hd Hn Hkf Hs. unfold validate_checksum, ValidName_parse_str. simpl. rewrite Hn. simpl.
  unfold sealed, row_kind, entry_kind, kind_fields in *.
  destruct (dbe_etag e) as [etag|], (dbe_size e) as [size|]; try done; rewrite (entry_checksum_dir _ _ _ names) by done; simpl;
    by rewrite Hs, Z.eqb_refl.
Qed.

Lemma row_read rows c names e mount_time now :
  row_path rows c names e → ∃ me, ManifestEntry_try_from e = Ok me ∧
    into_lookup me (map cm_s3_path cms) mount_time now = Ok (row_lookup mount_time now c names e) ∧
    into_inode_information me (map cm_s3_path cms) mount_time now = Ok (row_info mount_time now e, dbe_name e).
Proof.
  intros Hp. assert (∃ cm parents ppk, cms !! c = Some cm ∧ dbe_channel_id e = Z.of_nat c ∧ valid_name_str (dbe_name e) = true ∧ kind_fields e ∧
    sealed (cm_s3_path cm) parents e ∧ ManifestEntry_try_from e = Ok (row_entry e ppk) ∧
    vk_key (default ValidKey_root ppk) = dir_path parents ∧ ValidKey_kind (default ValidKey_root ppk) = Directory ∧
    ((λ _, (cm_s3_path cm, child_key parents (dbe_name e) (row_kind e))) <$> ppk) = row_location c names e) as
    (cm & parents & ppk & Hcm & Hc & Hn & Hkf & Hs & Htry & Hk & Hd & Hloc).
  { destruct Hp as [c cm e _ Hcm Hc Hpar Hppk Hname Hn Het Hsz Hs|c cm names p e Hp Hpd _ Hcm Hc Hpar Hppk Hn Hkf Hs].
    - exists cm, [], None. ands; try done; [unfold kind_fields; by rewrite Het, Hsz| |].
      + unfold ManifestEntry_try_from, row_entry, entry_kind. by rewrite Hppk, Hpar, Het, Hsz.
      + unfold row_location. by rewrite Hcm.
    - destruct (dir_path_key names (row_path_valid _ _ _ _ Hp)) as (k & Hk & Hkd & Hkk & _).
      exists cm, names, (Some k). ands; try done.
      + unfold ManifestEntry_try_from, row_entry, entry_kind, kind_fields in *. rewrite Hppk, Hk. simpl.
        by destruct (dbe_etag e), (dbe_size e).
      + unfold row_location. rewrite Hcm. simpl. rewrite length_app, Nat.add_sub, take_app_length. by destruct names. }
  exists (row_entry e ppk). split; [done|]. unfold into_lookup, into_inode_information, ManifestEntry_channel. simpl.
  rewrite Hc, Nat2Z.id, list_lookup_fmap, Hcm. simpl. rewrite (validate_sealed _ parents) by done. simpl.
  rewrite child_key_kind, child_key_name by done. simpl. unfold row_lookup. by rewrite Hloc.
Qed.

(** ** Walking down a finished database *)

(** What [create_db] leaves behind. *)
Record rows_ok (rows : list DbEntry) : Prop := {
  rows_ids : NoDup (map dbe_id rows);
  rows_index : NoDup (map (λ e, (dbe_parent_id e, dbe_name e)) rows);
  rows_range : Forall (λ e, ROOT_INODE_NO < dbe_id e < 2 ^ 63) rows;
  rows_paths : Forall (λ e, ∃ c names, row_path rows c names e) rows;
}.

(** Looking up each name of a path, from the root. *)
Definition resolve_step (now : Z) (s : ManifestMetablock * outcome MetablockError ManifestLookup) (name : str)
    : ManifestMetablock * outcome MetablockError ManifestLookup :=
  match s with
  | (mm, Ok l) => mm_lookup now mm (mlk_ino l) name
  | s => s
  end.
Definition resolve (now : Z) (mm : ManifestMetablock) (path : list str) : outcome MetablockError ManifestLookup :=
  (foldl (resolve_step now) (mm_getattr now mm ROOT_INODE_NO) path).2.

Lemma nodup_map_inj {A B} (f : A → B) (l : list A) x y : NoDup (map f l) → x ∈ l → y ∈ l → f x = f y → x = y.
Proof.
  induction l as [|z l IH]; simpl; intros Hnd Hx Hy Hf; [by apply not_elem_of_nil in Hx|]. apply list.NoDup_cons in Hnd as [Hni Hnd].
  apply elem_of_cons in Hx as [->|Hx], Hy as [->|Hy]; try done; [| |by apply IH];
    (exfalso; apply Hni; apply list_elem_of_fmap; eexists; split; [|done]; congruence).
Qed.
Lemma head_filter_unique {A B} (f : A → B) `{!EqDecision B} (P : A → Prop) `{!∀ x, Decision (P x)} (l : list A) b e :
  NoDup (map f l) → (∀ x, P x ↔ f x = b) → head (filter P l) = Some e ↔ e ∈ l ∧ f e = b.
Proof.
  intros Hnd HP. split.
  - intros Hh. assert (e ∈ filter P l) as [He Hin]%list_elem_of_filter by (destruct (filter P l); [done|injection Hh as ->; left]). by rewrite <-HP.
  - intros [Hin He]. destruct (filter P l) as [|x l'] eqn:Hf.
    + assert (e ∈ filter P l) as Hc by (apply list_elem_of_filter; by rewrite HP). rewrite Hf in Hc. by apply not_elem_of_nil in Hc.
    + simpl. f_equal. assert (x ∈ filter P l) as [Hx Hxin]%list_elem_of_filter by (rewrite Hf; left).
      eapply nodup_map_inj; [done..|]. rewrite He. by apply HP.
Qed.

Lemma row_path_det rows c c' names names' e :
  rows_ok rows → row_path rows c names e → row_path rows c' names' e → c = c' ∧ names = names'.
Proof.
  intros Hok Hp. revert c' names'. induction Hp as [c cm e _ _ Hc _ Hppk|c cm names p e Hp IH _ _ _ Hc Hpar Hppk]; intros c' names' Hp'.
  - destruct Hp' as [c' cm' e _ _ Hc'|c' cm' names' p e _ _ _ _ Hc' _ Hppk']; [|congruence]. split; [lia|done].
  - destruct Hp' as [c' cm' e _ _ Hc' _ Hppk'|c' cm' names' p' e Hp' _ _ _ Hc' Hpar']; [congruence|].
    assert (p' = p) as -> by (eapply (nodup_map_inj dbe_id); [by apply Hok|by eapply row_path_elem..|congruence]).
    by destruct (IH _ _ Hp') as [-> ->].
Qed.

Lemma db_call_quiet db : db_io db = [] → db_call db = (db, Ok tt).
Proof. intros Hq. unfold db_call. by rewrite Hq. Qed.
Lemma mm_with_same_db mm : mm_with_db mm (mm_manifest mm) = mm.
Proof. by destruct mm. Qed.

Section walk.
Context (mm : ManifestMetablock) (now : Z).
Context (Hchan : mm_channels mm = map cm_s3_path cms) (Hio : db_io (mm_manifest mm) = []) (Hok : rows_ok (db_s3_objects (mm_manifest mm))).
Set Default Proof Using "All".
Local Abbreviation rows := (db_s3_objects (mm_manifest mm)).

Lemma row_id_range e : e ∈ rows → ROOT_INODE_NO < dbe_id e < 2 ^ 63.
Proof. intros He. pose proof (rows_range _ Hok) as Hr. rewrite list.Forall_forall in Hr. by apply Hr. Qed.

Lemma select_row parent name e :
  head (filter (λ e, dbe_parent_id e = parent ∧ dbe_name e = name) rows) = Some e ↔ e ∈ rows ∧ dbe_parent_id e = parent ∧ dbe_name e = name.
Proof.
  rewrite (head_filter_unique (λ e, (dbe_parent_id e, dbe_name e)) _ _ (parent, name) e (rows_index _ Hok)); [|naive_solver].
  split; [by intros [? [= ? ?]]|by intros (? & -> & ->)].
Qed.

(** The answer of a lookup is the row with that parent and name. *)
Lemma mm_lookup_row parent name c names e :
  parent < 2 ^ 63 → valid_name_str name = true → row_path rows c names e → dbe_parent_id e = parent → dbe_name e = name →
  mm_lookup now mm parent name = (mm, Ok (row_lookup (mm_mount_time mm) now c names e)).
Proof.
  intros Hp Hn He Hpar Hname. unfold mm_lookup, ValidName_parse_str, manifest_lookup, select_entry, validated. rewrite Hn, db_call_quiet by done. simpl.
  unfold to_sql. rewrite (proj2 (Z.ltb_lt _ _)) by done. simpl.
  rewrite (proj2 (select_row parent name e)) by (split; [by eapply row_path_elem|done]). simpl.
  destruct (row_read rows c names e (mm_mount_time mm) now He) as (me & Htry & Hl & _). rewrite Htry. simpl. rewrite Hchan, Hl. simpl.
  by rewrite mm_with_same_db.
Qed.
Lemma mm_lookup_inv parent name mm' r :
  mm_lookup now mm parent name = (mm', Ok r) → mm' = mm ∧ ∃ c names e, row_path rows c names e ∧ dbe_parent_id e = parent ∧ dbe_name e = name ∧
    r = row_lookup (mm_mount_time mm) now c names e.
Proof.
  intros Hl. unfold mm_lookup, ValidName_parse_str, manifest_lookup, select_entry, validated in Hl. rewrite db_call_quiet in Hl by done.
  destruct (valid_name_str name); [|done]. simpl in Hl. unfold to_sql in Hl. destruct (parent <? 2 ^ 63); [|done]. simpl in Hl.
  destruct (head _) as [e|] eqn:Hh; simpl in Hl; [|done].
  apply select_row in Hh as (He & Hpar & Hname).
  pose proof (rows_paths _ Hok) as Hp. rewrite list.Forall_forall in Hp. destruct (Hp e He) as (c & names & Hrow).
  destruct (row_read _ c names e (mm_mount_time mm) now Hrow) as (me & Htry & Hlk & _). rewrite Htry in Hl. simpl in Hl.
  rewrite Hchan, Hlk in Hl. simpl in Hl. rewrite mm_with_same_db in Hl. injection Hl as <- <-. split; [done|]. by exists c, names, e.
Qed.

Lemma mm_getattr_root : mm_getattr now mm ROOT_INODE_NO =
  (mm, Ok {| mlk_ino := ROOT_INODE_NO; mlk_stat := mm_stat_for_directory now mm; mlk_kind := Directory; mlk_location := None |}).
Proof using Type. done. Qed.

Lemma resolve_row c cm names e :
  cms !! c = Some cm → row_path rows c names e →
  foldl (resolve_step now) (mm_getattr now mm ROOT_INODE_NO) (cm_directory_name cm :: names) =
  (mm, Ok (row_lookup (mm_mount_time mm) now c names e)).
Proof.
  intros Hcm Hp. pose proof Hp as Hp'. induction Hp' as [c cm' e He Hcm' Hc Hpar Hppk Hname Hn|c cm' names p e Hp' IH Hpd He Hcm' Hc Hpar Hppk Hn].
  - simpl. assert (cm' = cm) as -> by congruence. rewrite <-Hname. by apply (mm_lookup_row _ _ c [] e).
  - rewrite app_comm_cons, foldl_app, (IH Hcm Hp'). simpl.
    apply (mm_lookup_row _ _ c (names ++ [dbe_name e]) e); try done. apply row_id_range. by eapply row_path_elem.
Qed.

Lemma resolve_inv path r :
  resolve now mm path = Ok r →
  path = [] ∧ mlk_ino r = ROOT_INODE_NO ∨
  ∃ c cm names e, cms !! c = Some cm ∧ path = cm_directory_name cm :: names ∧ row_path rows c names e ∧
    r = row_lookup (mm_mount_time mm) now c names e.
Proof.
  intros Hr. assert (∃ mm', foldl (resolve_step now) (mm_getattr now mm ROOT_INODE_NO) path = (mm', Ok r)) as [mm' Hf].
  { unfold resolve in Hr. destruct (foldl _ _ _) as [mm' r']. simpl in Hr. subst. by eexists. }
  clear Hr. assert (mm' = mm ∧ (path = [] ∧ mlk_ino r = ROOT_INODE_NO ∨
    ∃ c cm names e, cms !! c = Some cm ∧ path = cm_directory_name cm :: names ∧ row_path rows c names e ∧
      r = row_lookup (mm_mount_time mm) now c names e)) as [_ Hres]; [|done].
  revert mm' r Hf. induction path as [|n path IH] using rev_ind; intros mm' r Hf; [injection Hf as <- <-; split; [done|by left]|].
  rewrite foldl_app in Hf. destruct (foldl _ _ path) as [mm1 [l| |]] eqn:Hf1; [|done..]. destruct (IH mm1 l eq_refl) as [-> Hl]. simpl in Hf.
  apply mm_lookup_inv in Hf as (-> & c & names & e & Hp & Hpar & Hname & ->). split; [done|right].
  destruct Hl as [[-> Hroot]|(c0 & cm0 & names0 & p0 & Hcm0 & -> & Hp0 & ->)].
  - pose proof Hp as Hp'. destruct Hp' as [c cm e _ Hcm _ _ _ Hn|c cm names p e Hp']; [|pose proof (row_id_range p ltac:(by eapply row_path_elem)); lia].
    exists c, cm, [], e. ands; try done. by rewrite <-Hname, Hn.
  - simpl in Hpar. pose proof (row_id_range p0 ltac:(by eapply row_path_elem)). pose proof Hp as Hrow.
    inv Hp as [|? cm names' p ? Hp' ? ? Hcm]; [lia|].
    assert (p = p0) as -> by (eapply (nodup_map_inj dbe_id); [by apply Hok|by eapply row_path_elem..|congruence]).
    destruct (row_path_det _ _ _ _ _ _ Hok Hp0 Hp') as [-> ->]. exists c, cm0, (names' ++ [dbe_name e]), e. by ands.
Qed.
End walk.

(** ** Ingesting *)

Definition listed (c : nat) (ime : InputManifestEntry) : Prop := ∃ cm, cms !! c = Some cm ∧ Ok ime ∈ cm_entries cm.
Definition object_names (ime : InputManifestEntry) : list str := ValidKey_components (ime_partial_key ime).

(** Why there is a row: it is an object of a manifest, or a directory above one, or of a channel. *)
Definition is_object (c : nat) (names : list str) (e : DbEntry) (ime : InputManifestEntry) : Prop :=
  object_names ime = names ∧ dbe_etag e = Some (ime_etag ime) ∧ dbe_size e = Some (ime_size ime).
Definition above_object (c : nat) (names : list str) (ime : InputManifestEntry) : Prop :=
  listed c ime ∧ ∃ n rest, object_names ime = names ++ n :: rest.
Definition justified (c : nat) (names : list str) (e : DbEntry) : Prop :=
  match row_kind e with
  | File => ∃ ime, listed c ime ∧ is_object c names e ime
  | Directory => names = [] ∨ ∃ ime, above_object c names ime
  end.

Definition mb_rows (mb : ManifestBuilder) : list DbEntry := db_s3_objects (mb_db mb) ++ mb_insert_buffer mb.

(** The invariant of the builder while it ingests channel [c0]; [done] are the objects that it has ingested. *)
Record built (c0 : nat) (done : list (nat * InputManifestEntry)) (mb : ManifestBuilder) : Prop := {
  bl_ids : Exists (λ e, 2 ^ 63 ≤ dbe_id e) (mb_rows mb) ∨
    (Forall (λ e, ROOT_INODE_NO < dbe_id e) (mb_rows mb) ∧ ROOT_INODE_NO < mb_next_id mb ≤ 2 ^ 63);
  bl_rows : Forall (λ e, ∃ c names, row_path (mb_rows mb) c names e ∧ justified c names e) (mb_rows mb);
  bl_done : Forall (λ d, ∃ e, row_path (mb_rows mb) d.1 (object_names d.2) e ∧ is_object d.1 (object_names d.2) e d.2) done;
  bl_dirs : ∀ key id, mb_dir_ids mb !! key = Some id →
    ∃ names e, key = dir_path names ∧ row_path (mb_rows mb) c0 names e ∧ row_kind e = Directory ∧ dbe_id e = id;
  bl_db : NoDup (map dbe_id (db_s3_objects (mb_db mb))) ∧ Forall (λ e, dbe_id e < 2 ^ 63) (db_s3_objects (mb_db mb));
}.

Lemma dir_path_inj names names' : valid_names names → valid_names names' → dir_path names = dir_path names' → names = names'.
Proof.
  intros Hv Hv' Heq. apply valid_names_no_delimiter in Hv, Hv'.
  pose proof (split_terminator_path names [] Hv (not_elem_of_nil _)) as H1. pose proof (split_terminator_path names' [] Hv' (not_elem_of_nil _)) as H2.
  rewrite !app_nil_r in *. rewrite Heq, H2 in H1. by rewrite !bool_decide_eq_true_2 in H1.
Qed.

Lemma built_push c0 done mb e dir_ids c names :
  built c0 done mb → dbe_id e = mb_next_id mb → row_path (mb_rows mb ++ [e]) c names e → justified c names e →
  (∀ key id, dir_ids !! key = Some id → mb_dir_ids mb !! key = Some id ∨
     c = c0 ∧ key = dir_path names ∧ row_kind e = Directory ∧ id = dbe_id e) →
  let mb' := mb_with mb dir_ids (wadd (mb_next_id mb) 1) (mb_insert_buffer mb ++ [e]) in
  mb_rows mb' = mb_rows mb ++ [e] ∧ built c0 done mb'.
Proof.
  intros [Hids Hrows Hdone Hdirs Hdb] Hid Hp Hj Hnew mb'.
  assert (mb_rows mb' = mb_rows mb ++ [e]) as Heq by (unfold mb_rows, mb'; simpl; by rewrite app_assoc).
  assert (∀ c names e', row_path (mb_rows mb) c names e' → row_path (mb_rows mb ++ [e]) c names e') as Hmono.
  { intros c1 names1 e1. apply row_path_mono. intros x. rewrite elem_of_app. by left. }
  split; [done|]. split; rewrite ?Heq.
  - destruct Hids as [Hex|[Hf Hn]]; [left; apply Exists_app; by left|].
    destruct (decide (mb_next_id mb = 2 ^ 63)) as [Hmax|Hne]; [left; apply Exists_app; right; constructor; lia|].
    right. unfold ROOT_INODE_NO in *. split; [apply Forall_app; split; [done|]; constructor; [lia|done]|].
    simpl. rewrite wadd_small by (unfold is_u64, u64_modulus; lia). lia.
  - apply Forall_app. split; [|constructor; [by exists c, names|done]]. eapply Forall_impl; [|exact Hrows]. naive_solver.
  - eapply Forall_impl; [|exact Hdone]. naive_solver.
  - intros key id Hl. destruct (Hnew key id Hl) as [Hold|(-> & -> & Hk & ->)]; [|by exists names, e].
    destruct (Hdirs key id Hold) as (names1 & e1 & ? & ? & ? & ?). exists names1, e1. by ands; [|apply Hmono|..].
  - done.
Qed.

(** The rows that the builder makes. *)
Definition new_row (id parent_id channel_id : Z) (ppk : option ValidKey) (names : list str) (n : str) (etag : option string) (size : option Z)
    (path : S3Path) : DbEntry :=
  let kind := if bool_decide (is_Some etag) && bool_decide (is_Some size) then File else Directory in
  {| dbe_id := id; dbe_parent_id := parent_id; dbe_channel_id := channel_id; dbe_parent_partial_key := vk_key <$> ppk; dbe_name := n;
     dbe_etag := etag; dbe_size := size;
     dbe_checksum := crc32c_checksum ((str_bytes (vk_key (child_key names n kind)) ++ etag_bytes etag ++ size_bytes size) ++
       be_bytes 8 id ++ be_bytes 8 parent_id ++ str_bytes (bucket_name (s3_bucket path)) ++ str_bytes (prefix_path (s3_prefix path))) |}.
Lemma DbEntry_new_row id parent_id channel_id ppk names n etag size path :
  vk_key (default ValidKey_root ppk) = dir_path names → ValidKey_kind (default ValidKey_root ppk) = Directory →
  DbEntry_new id parent_id channel_id ppk n etag size path = Ok (new_row id parent_id channel_id ppk names n etag size path).
Proof. intros Hk Hd. unfold DbEntry_new. by rewrite (entry_checksum_dir _ _ _ names). Qed.
Lemma new_row_path rows c cm names p id k n etag size :
  row_path rows c names p → row_kind p = Directory → cms !! c = Some cm → vk_key k = dir_path names → valid_name_str n = true →
  (is_Some etag ↔ is_Some size) →
  let e := new_row id (dbe_id p) (Z.of_nat c) (Some k) names n etag size (cm_s3_path cm) in row_path (rows ++ [e]) c (names ++ [n]) e.
Proof.
  intros Hp Hd Hcm Hk Hn Hes e. apply (row_child _ c cm names p e); try done.
  - eapply row_path_mono; [|done]. intros x. rewrite elem_of_app. by left.
  - apply elem_of_app. right. left.
  - simpl. by rewrite Hk.
  - unfold kind_fields. simpl. destruct etag, size; try done; [by destruct (proj1 Hes)|by destruct (proj2 Hes)].
Qed.

(** A directory that is above an object is found or made. *)
Lemma ensure_dir_spec c cm done mb p names k n :
  built c done mb → cms !! c = Some cm → row_path (mb_rows mb) c names p → row_kind p = Directory →
  vk_key k = dir_path names → ValidKey_kind k = Directory → valid_name_str n = true → (∃ ime, above_object c (names ++ [n]) ime) →
  ∃ mb' p' k', ensure_dir mb (Z.of_nat c) (cm_s3_path cm) (dbe_id p) k n = (mb', Ok (dbe_id p', k')) ∧ built c done mb' ∧
    row_path (mb_rows mb') c (names ++ [n]) p' ∧ row_kind p' = Directory ∧ vk_key k' = dir_path (names ++ [n]) ∧ ValidKey_kind k' = Directory ∧
    mb_db mb' = mb_db mb ∧ mb_rows mb ⊆ mb_rows mb'.
Proof.
  intros Hb Hcm Hp Hpd Hk Hkd Hn Hj. unfold ensure_dir. rewrite (new_child_dir k names) by done. simpl.
  assert (dir_path names ++ n ++ kind_suffix Directory = dir_path (names ++ [n])) as Hkey by (by rewrite dir_path_snoc).
  rewrite Hkey. destruct (mb_dir_ids mb !! dir_path (names ++ [n])) as [id|] eqn:Hid.
  - destruct (bl_dirs _ _ _ Hb _ _ Hid) as (names' & e & Heq & He & Hed & <-). exists mb, e, (child_key names n Directory).
    apply dir_path_inj in Heq as <-; [|by apply Forall_app; split; [by eapply row_path_valid|constructor]|by eapply row_path_valid].
    ands; try done. by apply child_key_kind.
  - rewrite (DbEntry_new_row _ _ _ _ names) by done. simpl.
    set (e := new_row (mb_next_id mb) (dbe_id p) (Z.of_nat c) (Some k) names n None None (cm_s3_path cm)).
    assert (row_path (mb_rows mb ++ [e]) c (names ++ [n]) e) as He by (by apply new_row_path).
    destruct (built_push c done mb e (<[dir_path (names ++ [n]) := mb_next_id mb]> (mb_dir_ids mb)) c (names ++ [n])) as [Hrows Hb']; [done..|by right| |].
    + intros key id. destruct (decide (key = dir_path (names ++ [n]))) as [->|Hne].
      * rewrite lookup_insert_eq. intros [= <-]. by right.
      * rewrite lookup_insert_ne by done. by left.
    + eexists _, e, (child_key names n Directory). split; [done|]. split; [exact Hb'|]. rewrite Hrows. ands; try done; [by apply child_key_kind|].
      intros x Hx. apply elem_of_app. by left.
Qed.

Lemma ensure_dirs_spec c cm done mb p names k comps :
  built c done mb → cms !! c = Some cm → row_path (mb_rows mb) c names p → row_kind p = Directory →
  vk_key k = dir_path names → ValidKey_kind k = Directory → valid_names comps →
  (∃ ime n, listed c ime ∧ object_names ime = names ++ comps ++ [n]) →
  ∃ mb' p' k', ensure_dirs mb (Z.of_nat c) (cm_s3_path cm) (dbe_id p) k comps = (mb', Ok (dbe_id p', k')) ∧ built c done mb' ∧
    row_path (mb_rows mb') c (names ++ comps) p' ∧ row_kind p' = Directory ∧ vk_key k' = dir_path (names ++ comps) ∧ ValidKey_kind k' = Directory ∧
    mb_db mb' = mb_db mb ∧ mb_rows mb ⊆ mb_rows mb'.
Proof.
  intros Hb Hcm. revert mb p names k Hb. induction comps as [|n comps IH]; intros mb p names k Hb Hp Hpd Hk Hkd Hv Hime.
  { exists mb, p, k. by rewrite app_nil_r. }
  inv Hv. destruct Hime as (ime & m & Hl & Hnames). simpl.
  destruct (ensure_dir_spec c cm done mb p names k n Hb Hcm Hp Hpd Hk Hkd ltac:(done)) as (mb1 & p1 & k1 & -> & Hb1 & Hp1 & Hd1 & Hk1 & Hkd1 & Hdb1 & Hsub1).
  { exists ime. split; [done|]. destruct comps as [|n' comps]; [exists m, []|exists n', (comps ++ [m])]; rewrite Hnames; by rewrite <-app_assoc. }
  simpl. destruct (IH mb1 p1 (names ++ [n]) k1) as (mb2 & p2 & k2 & Heq & Hb2 & Hp2 & Hd2 & Hk2 & Hkd2 & Hdb2 & Hsub2); try done.
  - exists ime, m. split; [done|]. rewrite Hnames. by rewrite <-app_assoc.
  - exists mb2, p2, k2. rewrite Heq. rewrite <-app_assoc in *. ands; try done; [by rewrite Hdb2|]. by etrans.
Qed.

Lemma insert_rows_spec rows entries rows' :
  insert_rows rows entries = Ok rows' → NoDup (map dbe_id rows) ∧ Forall (λ e, dbe_id e < 2 ^ 63) rows →
  rows' = rows ++ entries ∧ NoDup (map dbe_id rows') ∧ Forall (λ e, dbe_id e < 2 ^ 63) rows'.
Proof.
  revert rows. induction entries as [|e entries IH]; intros rows; simpl; [intros [= <-]; by rewrite app_nil_r|].
  unfold insert_row, to_sql. destruct (Z.ltb_spec (dbe_id e) (2 ^ 63)) as [Hid|]; [|done]. simpl.
  destruct (dbe_parent_id e <? 2 ^ 63); [|done]. simpl. destruct (dbe_channel_id e <? 2 ^ 63); [|done]. simpl.
  intros Hr [Hnd Hf]. assert (insert_rows (rows ++ [e]) entries = Ok rows' ∧ dbe_id e ∉ map dbe_id rows) as [Hr' Hni].
  { destruct (match dbe_size e with Some size => _ | None => _ end); [|done..]. simpl in Hr. case_bool_decide; [done|]. by simpl in Hr. }
  destruct (IH _ Hr') as (-> & Hnd' & Hf'); [|by rewrite <-app_assoc in *].
  rewrite map_app. split; [|by apply Forall_app; split; [|constructor]].
  apply list.NoDup_app. split; [done|]. split; [|apply NoDup_singleton]. intros x Hx Hx2. apply list_elem_of_singleton in Hx2 as ->. done.
Qed.

Lemma db_call_inv db db' : db_call db = (db', Ok tt) →
  db_s3_objects db' = db_s3_objects db ∧ db_channels db' = db_channels db ∧ db_created db' = db_created db.
Proof. unfold db_call. destruct (db_io db) as [|[e|] io]; by intros [= <-]. Qed.

Lemma flush_buffer_spec c done mb mb' :
  built c done mb → flush_insert_buffer mb = (mb', Ok tt) →
  built c done mb' ∧ mb_rows mb' = mb_rows mb ∧ mb_insert_buffer mb' = [] ∧ db_channels (mb_db mb') = db_channels (mb_db mb).
Proof.
  intros Hb. unfold flush_insert_buffer. case_bool_decide as He; [intros [= <-]; by rewrite He|].
  unfold insert_batch. destruct (db_call (mb_db mb)) as [db1 [[]| |]] eqn:Hcall; simpl; [|done..].
  apply db_call_inv in Hcall as (Hrows & Hch & _). destruct (insert_rows _ _) as [rows| |] eqn:Hins; [|done..]. intros [= <-].
  rewrite Hrows in Hins. apply insert_rows_spec in Hins as (-> & Hnd & Hf); [|by apply Hb].
  assert (mb_rows (mb_with_db mb {| db_created := db_created db1; db_s3_objects := db_s3_objects (mb_db mb) ++ mb_insert_buffer mb;
    db_channels := db_channels db1; db_io := db_io db1 |} []) = mb_rows mb) as Heq by (unfold mb_rows; simpl; by rewrite app_nil_r).
  ands; try done. destruct Hb. split; rewrite ?Heq; try done.
Qed.

Context (Hentries : ∀ c ime, listed c ime → key_in_tree (ime_partial_key ime) ∧ ValidKey_kind (ime_partial_key ime) = File).
Set Default Proof Using "All".

Lemma object_key c ime : listed c ime → ∃ names n,
  ime_partial_key ime = child_key names n File ∧ valid_names names ∧ valid_name_str n = true ∧ object_names ime = names ++ [n].
Proof.
  intros Hl. destruct (Hentries c ime Hl) as [Hin Hk]. apply key_in_tree_inv in Hin as [Hroot|(names & n & kind & Hv & Hn & Hkey)].
  - by rewrite Hroot in Hk.
  - rewrite Hkey, child_key_kind in Hk by done. subst kind. exists names, n. ands; try done. unfold object_names. rewrite Hkey. by apply child_key_components.
Qed.

(** The partial checksum of an object covers its key, ETag and size. *)
Definition object_checksum (ime : InputManifestEntry) : Z :=
  crc32c_checksum (str_bytes (vk_key (ime_partial_key ime)) ++ string_bytes (ime_etag ime) ++ be_bytes 8 (ime_size ime)).

Lemma insert_object_spec c cm done mb root ime mb' :
  built c done mb → cms !! c = Some cm → row_path (mb_rows mb) c [] root → listed c ime →
  insert_object mb (Z.of_nat c) (dbe_id root) (cm_s3_path cm) ime = (mb', Ok tt) →
  built c (done ++ [(c, ime)]) mb' ∧ mb_rows mb ⊆ mb_rows mb' ∧ db_channels (mb_db mb') = db_channels (mb_db mb) ∧
  ime_checksum ime = object_checksum ime.
Proof.
  intros Hb Hcm Hroot Hl. destruct (object_key c ime Hl) as (names & n & Hkey & Hv & Hn & Hnames).
  unfold insert_object, ensure_dirs_inserted. unfold object_names in Hnames. rewrite Hnames.
  destruct (names ++ [n]) as [|x xs] eqn:Hx; [by destruct names|]. rewrite <-Hx. rewrite length_app, Nat.add_sub, take_app_length.
  destruct (ensure_dirs_spec c cm done mb root [] ValidKey_root names Hb Hcm Hroot) as (mb1 & p & k & -> & Hb1 & Hp & Hpd & Hk & Hkd & Hdb1 & Hsub1); try done.
  { by eapply row_root_dir. }
  { exists ime, n. split; [done|]. by rewrite <-Hx in Hnames. }
  simpl. unfold into_db_entry, ValidKey_valid_name. rewrite Hkey, child_key_name by done. simpl.
  rewrite bool_decide_eq_false_2 by (intros ->; done). unfold DbEntry_new_with_partial_checksum.
  rewrite (entry_checksum_dir _ _ (Some k) names) by done. cbn [outcome_map_err outcome_bind].
  match goal with |- context [Z.eqb ?a ?b] => destruct (Z.eqb_spec a b) as [Hsum|] end; [|done]. cbn [negb state_bind].
  set (e := new_row (mb_next_id mb1) (dbe_id p) (Z.of_nat c) (Some k) names n (Some (ime_etag ime)) (Some (ime_size ime)) (cm_s3_path cm)).
  assert (row_path (mb_rows mb1 ++ [e]) c (names ++ [n]) e) as He by (by apply new_row_path).
  assert (is_object c (names ++ [n]) e ime) as Hobj by (split; [unfold object_names; by rewrite Hnames, <-Hx|done]).
  destruct (built_push c done mb1 e (mb_dir_ids mb1) c (names ++ [n])) as [Hrows Hb2]; [done..|by exists ime|by left|]. simpl in Hrows, Hb2.
  set (mb2 := mb_with _ _ _ _) in *. intros Hflush.
  assert (built c done mb' ∧ mb_rows mb' = mb_rows mb2 ∧ db_channels (mb_db mb') = db_channels (mb_db mb2)) as (Hb' & Hrows' & Hch').
  { destruct (_ <=? _); [|by injection Hflush as <-]. destruct (flush_buffer_spec _ _ _ _ Hb2 Hflush) as (? & ? & _ & ?). done. }
  rewrite Hrows', Hrows. split; [|ands].
  - destruct Hb'. split; try done. apply Forall_app. split; [done|]. constructor; [|done]. simpl. rewrite Hrows', Hrows.
    exists e. unfold object_names. by rewrite Hnames, <-Hx.
  - intros x' Hx'. apply elem_of_app. left. by apply Hsub1.
  - by rewrite Hch', <-Hdb1.
  - rewrite Hsum. unfold object_checksum. by rewrite Hkey.
Qed.

(** [done] after the entries of a list. *)
Definition objects_of (c : nat) (items : list manifest_item) : list (nat * InputManifestEntry) :=
  omap (λ item, match item with Ok ime => Some (c, ime) | _ => None end) items.

Lemma insert_objects_spec c cm done mb root items mb' :
  built c done mb → cms !! c = Some cm → row_path (mb_rows mb) c [] root → (∀ ime, Ok ime ∈ items → listed c ime) →
  insert_objects mb (Z.of_nat c) (dbe_id root) (cm_s3_path cm) items = (mb', Ok tt) →
  built c (done ++ objects_of c items) mb' ∧ mb_rows mb ⊆ mb_rows mb' ∧ db_channels (mb_db mb') = db_channels (mb_db mb) ∧
  (∀ ime, Ok ime ∈ items → ime_checksum ime = object_checksum ime) ∧ Forall (λ item, (∃ ime, item = Ok ime) ∨ ∃ key, item = Err (DirectoryMarker key)) items.
Proof.
  intros Hb Hcm. revert done mb Hb. induction items as [|item items IH]; intros done mb Hb Hroot Hlist; simpl.
  { intros [= <-]. rewrite app_nil_r. ands; try done. intros ime Hin. by apply not_elem_of_nil in Hin. }
  destruct item as [ime|err|]; simpl.
  - destruct (insert_object mb _ _ _ ime) as [mb1 [[]| |]] eqn:Hins; simpl; [|done..].
    destruct (insert_object_spec c cm done mb root ime mb1 Hb Hcm Hroot (Hlist ime ltac:(left)) Hins) as (Hb1 & Hsub1 & Hch1 & Hsum).
    intros Hrest. destruct (IH (done ++ [(c, ime)]) mb1) as (Hb2 & Hsub2 & Hch2 & Hsums & Hitems); try done.
    + by eapply row_path_mono.
    + intros ime' Hin. apply Hlist. by right.
    + rewrite <-app_assoc in Hb2. ands; try done; [by etrans|by rewrite Hch2| |constructor; [by left; eexists|done]].
      intros ime' [[= ->]|Hin]%elem_of_cons; [done|]. by apply Hsums.
  - assert (∀ ime, Ok ime ∈ items → listed c ime) as Hlist' by (intros ime Hin; apply Hlist; by right).
    destruct err; try done. intros Hrest. destruct (IH done mb Hb Hroot Hlist' Hrest) as (? & ? & ? & Hsums & ?).
    ands; try done; [|constructor; [by right; eexists|done]]. intros ime [?|Hin]%elem_of_cons; [done|]. by apply Hsums.
  - done.
Qed.

Lemma built_channel c c' done mb : built c done mb → built c' done (mb_with mb ∅ (mb_next_id mb) (mb_insert_buffer mb)).
Proof. intros [? ? ? _ ?]. by split. Qed.

Lemma insert_channel_spec c cm done mb mb' :
  built c done mb → mb_dir_ids mb = ∅ → cms !! c = Some cm → insert_channel mb (Z.of_nat c) cm = (mb', Ok tt) →
  built (S c) (done ++ objects_of c (cm_entries cm)) mb' ∧ mb_dir_ids mb' = ∅ ∧ mb_rows mb ⊆ mb_rows mb' ∧
  db_channels (mb_db mb') = db_channels (mb_db mb) ∧ (∃ root, row_path (mb_rows mb') c [] root) ∧
  (∀ ime, Ok ime ∈ cm_entries cm → ime_checksum ime = object_checksum ime) ∧
  Forall (λ item, (∃ ime, item = Ok ime) ∨ ∃ key, item = Err (DirectoryMarker key)) (cm_entries cm).
Proof.
  intros Hb Hdirs Hcm. unfold insert_channel, ValidName_parse_str. destruct (valid_name_str (cm_directory_name cm)) eqn:Hn; [|done].
  cbn [outcome_map_err state_bind]. rewrite (DbEntry_new_row _ _ _ None []) by done. cbn [state_bind].
  set (root := new_row (mb_next_id mb) ROOT_INODE_NO (Z.of_nat c) None [] (cm_directory_name cm) None None (cm_s3_path cm)).
  assert (row_path (mb_rows mb ++ [root]) c [] root) as Hroot.
  { apply (row_root _ c cm); try done. apply elem_of_app. right. left. }
  destruct (built_push c done mb root (mb_dir_ids mb) c []) as [Hrows Hb1]; [done..|by left|by left|]. simpl in Hrows, Hb1.
  set (mb1 := mb_with _ _ _ _) in *. destruct (insert_objects mb1 _ _ _ _) as [mb2 [[]| |]] eqn:Hobj; simpl; [|done..]. intros [= <-].
  rewrite <-Hrows in Hroot. change (mb_next_id mb) with (dbe_id root) in Hobj.
  destruct (insert_objects_spec c cm done mb1 root (cm_entries cm) mb2 Hb1 Hcm Hroot) as (Hb2 & Hsub & Hch & Hsums & Hitems); [|done|].
  { intros ime Hin. by exists cm. }
  ands; try done.
  - by eapply built_channel.
  - intros x Hx. apply Hsub. rewrite Hrows. apply elem_of_app. by left.
  - exists root. by eapply row_path_mono.
Qed.

(** All that is known of the channels before [c]. *)
Definition ingested (rows : list DbEntry) (done : list (nat * InputManifestEntry)) (c : nat) : Prop :=
  ∀ c' cm, (c' < c)%nat → cms !! c' = Some cm →
    (∃ root, row_path rows c' [] root) ∧
    (∀ ime, Ok ime ∈ cm_entries cm → (c', ime) ∈ done ∧ ime_checksum ime = object_checksum ime) ∧
    Forall (λ item, (∃ ime, item = Ok ime) ∨ ∃ key, item = Err (DirectoryMarker key)) (cm_entries cm).

Lemma insert_channels_spec c done mb mb' :
  built c done mb → mb_dir_ids mb = ∅ → ingested (mb_rows mb) done c → (c ≤ length cms)%nat →
  insert_channels_from mb (Z.of_nat c) (drop c cms) = (mb', Ok tt) →
  ∃ done', built (length cms) done' mb' ∧ ingested (mb_rows mb') done' (length cms) ∧ db_channels (mb_db mb') = db_channels (mb_db mb).
Proof.
  remember (drop c cms) as rest eqn:Hrest. revert c done mb Hrest. induction rest as [|cm rest IH]; intros c done mb Hrest Hb Hdirs Hin Hc.
  { intros [= <-]. assert (c = length cms) as ->; [|by exists done].
    apply (f_equal length) in Hrest. rewrite length_drop in Hrest. simpl in Hrest. lia. }
  assert (cms !! c = Some cm) as Hcm by (rewrite <-(Nat.add_0_r c), <-lookup_drop, <-Hrest; done).
  simpl. destruct (insert_channel mb _ cm) as [mb1 [[]| |]] eqn:Hins; simpl; [|done..]. intros Hfrom.
  destruct (insert_channel_spec c cm done mb mb1 Hb Hdirs Hcm Hins) as (Hb1 & Hdirs1 & Hsub & Hch & Hroot & Hsums & Hitems).
  destruct (IH (S c) (done ++ objects_of c (cm_entries cm)) mb1) as (done' & ? & ? & Hch'); try done.
  - rewrite <-Nat.add_1_r, <-drop_drop, <-Hrest. done.
  - intros c' cm' Hlt Hcm'. destruct (decide (c' = c)) as [->|Hne].
    + assert (cm' = cm) as -> by congruence. ands; try done. intros ime He. split; [|by apply Hsums].
      apply elem_of_app. right. apply list_elem_of_omap. by exists (Ok ime).
    + destruct (Hin c' cm' ltac:(lia) Hcm') as ((root & Hr) & Hd & Hi). ands; try done.
      * exists root. by eapply row_path_mono.
      * intros ime He. destruct (Hd ime He) as [? ?]. split; [|done]. apply elem_of_app. by left.
  - apply lookup_lt_Some in Hcm. lia.
  - by rewrite Nat2Z.inj_succ.
  - exists done'. ands; try done. by rewrite Hch'.
Qed.

Lemma built_nil mb :
  db_s3_objects (mb_db mb) = [] → mb_insert_buffer mb = [] → mb_dir_ids mb = ∅ → mb_next_id mb = ROOT_INODE_NO + 1 → built 0 [] mb.
Proof using crc env cms.
  intros Hdb Hbuf Hd Hn. assert (mb_rows mb = []) as Hrows by (unfold mb_rows; by rewrite Hdb, Hbuf). split; rewrite ?Hrows, ?Hd, ?Hdb; try done.
  - right. rewrite Hn. unfold ROOT_INODE_NO. split; [done|lia].
  - by repeat constructor.
Qed.
Lemma builder_new_spec io batch_size mb :
  ManifestBuilder_new io batch_size = (mb, Ok tt) →
  db_s3_objects (mb_db mb) = [] ∧ db_channels (mb_db mb) = [] ∧ mb_insert_buffer mb = [] ∧ mb_dir_ids mb = ∅ ∧ mb_next_id mb = ROOT_INODE_NO + 1.
Proof using crc env cms.
  unfold ManifestBuilder_new. destruct (db_call (Db_new io)) as [db0 [[]| |]]; [|done..].
  unfold create_table. destruct (db_call db0) as [db1 [[]| |]]; simpl; [|done..]. destruct (db_created db1); simpl; [done|]. by intros [= <-].
Qed.
Lemma insert_channels_inv db channels db' :
  insert_channels db channels = (db', Ok tt) → db_s3_objects db' = db_s3_objects db ∧ db_channels db' = db_channels db ++ channel_rows channels.
Proof using crc env cms.
  unfold insert_channels. destruct (db_call db) as [db1 [[]| |]] eqn:Hcall; simpl; [|done..]. intros [= <-].
  apply db_call_inv in Hcall as (-> & -> & _). done.
Qed.
Lemma create_index_inv db db' :
  create_index db = (db', Ok tt) → db_s3_objects db' = db_s3_objects db ∧ db_channels db' = db_channels db ∧
    NoDup (map (λ e, (dbe_parent_id e, dbe_name e)) (db_s3_objects db)).
Proof using crc env cms.
  unfold create_index. destruct (db_call db) as [db1 [[]| |]] eqn:Hcall; simpl; [|done..]. case_bool_decide; [|done]. intros [= <-].
  by apply db_call_inv in Hcall as (<- & -> & _).
Qed.

(** What a successful [create_db] leaves behind. *)
Lemma create_db_spec io batch_size db :
  create_db io cms batch_size = (db, Ok tt) →
  rows_ok (db_s3_objects db) ∧ db_channels db = channel_rows (map cm_s3_path cms) ∧
  Forall (λ e, ∃ c names, row_path (db_s3_objects db) c names e ∧ justified c names e) (db_s3_objects db) ∧
  ∃ done, ingested (db_s3_objects db) done (length cms) ∧
    Forall (λ d, ∃ e, row_path (db_s3_objects db) d.1 (object_names d.2) e ∧ is_object d.1 (object_names d.2) e d.2) done.
Proof.
  unfold create_db. intros Hdb. destruct (ManifestBuilder_new io batch_size) as [mb0 [[]| |]] eqn:Hnew; simpl in Hdb; [|done..].
  destruct (builder_new_spec io batch_size mb0 Hnew) as (Hr0 & Hch0 & Hb0 & Hd0 & Hn0).
  unfold mb_insert_channels in Hdb. destruct (insert_channels (mb_db mb0) (map cm_s3_path cms)) as [db1 [[]| |]] eqn:Hins; simpl in Hdb; [|done..].
  apply insert_channels_inv in Hins as (Hr1 & Hch1). unfold mb_insert_entries in Hdb. rewrite Hch0 in Hch1. rewrite Hr0 in Hr1.
  destruct (insert_channels_from _ 0 cms) as [mb2 [[]| |]] eqn:Hfrom; simpl in Hdb; [|done..].
  destruct (insert_channels_spec 0 [] (mb_with_db mb0 db1 (mb_insert_buffer mb0)) mb2) as (objs & Hb2 & Hin2 & Hch2); [|done| |lia|by rewrite drop_0|].
  { by apply built_nil; [|rewrite Hb0| |]. }
  { intros c' cm Hlt. lia. }
  destruct (flush_insert_buffer mb2) as [mb3 [[]| |]] eqn:Hflush; simpl in Hdb; [|done..].
  destruct (flush_buffer_spec _ _ _ _ Hb2 Hflush) as (Hb3 & Hrows3 & Hbuf3 & Hch3).
  unfold mb_create_index in Hdb. destruct (create_index (mb_db mb3)) as [db4 r4] eqn:Hidx. simpl in Hdb. injection Hdb as <- Hr4.
  assert (r4 = Ok tt) as -> by (by destruct r4 as [[]|[]|]). apply create_index_inv in Hidx as (Hr & Hch & Huniq).
  assert (mb_rows mb3 = db_s3_objects db4) as Hrows by (unfold mb_rows; by rewrite Hbuf3, app_nil_r).
  rewrite <-Hrows3, Hrows in Hin2. rewrite <-Hr in Huniq. destruct Hb3 as [Hids Hjust Hdone _ [Hnd Hlt]]. rewrite Hrows in Hids, Hjust, Hdone.
  rewrite <-Hr in Hnd, Hlt. ands; [split|..]; try done.
  - destruct Hids as [Hex|[Hge _]].
    + apply list.Exists_exists in Hex as (e & He & Hge). rewrite list.Forall_forall in Hlt. specialize (Hlt e He). lia.
    + rewrite list.Forall_forall in Hge, Hlt |- *. intros e He. by split; [apply Hge|apply Hlt].
  - eapply Forall_impl; [|exact Hjust]. naive_solver.
  - by rewrite Hch, Hch3, Hch2.
  - by exists objs.
Qed.
End rows.

(** ** The files that are ingested *)

Lemma outcome_mapM_inv {E A B} (f : A → outcome E B) l l' : outcome_mapM f l = Ok l' → Forall2 (λ x y, f x = Ok y) l l'.
Proof.
  revert l'. induction l as [|x l IH]; intros l'; simpl; [intros [= <-]; constructor|].
  destruct (f x) as [y| |] eqn:Hx; simpl; [|done..]. destruct (outcome_mapM f l) as [ys| |]; simpl; [|done..]. intros [= <-].
  by constructor; [|apply IH].
Qed.
Lemma stable_sort_done {A} (R : relation A) `{!RelDecision R} l : Sorted R l → stable_sort R l = l.
Proof.
  induction l as [|x l IH]; [done|]. intros Hs. inv Hs as [|? ? Hs' Hhd]. simpl. rewrite IH by done.
  destruct l as [|y l]; [done|]. simpl. inv Hhd. by rewrite decide_True.
Qed.

Section files.
Context `{crc : Crc32c, env : IntegrityEnv}.

(** *** Channels *)

Lemma load_channel_rows k paths : Forall s3_path_wf paths →
  outcome_mapM load_channel (imap (λ id p, (Z.of_nat (k + id), bucket_name (s3_bucket p), prefix_path (s3_prefix p))) paths) =
  Ok (imap (λ id p, (Z.of_nat (k + id), p)) paths) ∧
  check_channels (Z.of_nat k) (imap (λ id p, (Z.of_nat (k + id), p)) paths) = Ok paths ∧
  Sorted channel_id_le (imap (λ id p, (Z.of_nat (k + id), bucket_name (s3_bucket p), prefix_path (s3_prefix p))) paths).
Proof.
  intros Hwf. revert k. induction Hwf as [|p paths [Hb Hp] _ IH]; intros k; [by repeat constructor|].
  rewrite !imap_cons. specialize (IH (S k)).
  assert (∀ B (g : nat → S3Path → B), imap ((λ id, g (k + id)%nat) ∘ S) paths = imap (λ id, g (S k + id)%nat) paths) as Heq.
  { intros B g. apply imap_ext. intros i x _. simpl. by rewrite Nat.add_succ_r. }
  rewrite (Heq _ (λ id p, (Z.of_nat id, bucket_name (s3_bucket p), prefix_path (s3_prefix p)))), (Heq _ (λ id p, (Z.of_nat id, p))).
  destruct IH as (IHl & IHc & IHs). ands.
  - cbn [outcome_mapM]. unfold load_channel at 1. cbn [fst snd]. rewrite Hb, Hp. cbn [outcome_map_err outcome_bind]. rewrite IHl. by destruct p.
  - cbn [check_channels]. rewrite Nat.add_0_r, Z.eqb_refl. cbn [negb]. replace (Z.of_nat k + 1) with (Z.of_nat (S k)) by lia. by rewrite IHc.
  - constructor; [done|]. destruct paths; constructor. unfold channel_id_le. simpl. lia.
Qed.
Lemma load_channels_spec db paths :
  db_io db = [] → db_channels db = channel_rows paths → Forall s3_path_wf paths → load_channels db = (db, Ok paths).
Proof.
  intros Hio Hch Hwf. unfold load_channels. rewrite db_call_quiet, Hch by done. simpl.
  destruct (load_channel_rows 0 paths Hwf) as (Hl & Hc & Hs). unfold channel_rows. simpl in Hl, Hc, Hs. change (Z.of_nat 0) with 0 in Hc.
  rewrite stable_sort_done by done. rewrite Hl. simpl. by rewrite Hc.
Qed.

(** *** CSV files *)

Definition record_item (record : outcome string CsvEntry) : manifest_item :=
  match record with Ok e => CsvEntry_try_into e | Err what => Err (CsvError what) | Panic => Panic end.
Definition running_checksum (sum : Z) (records : list (outcome string CsvEntry)) : Z :=
  foldl (λ sum record, match record with Ok e => combine_checksums sum (csv_checksum e) (CsvEntry_total_size e) | _ => sum end) sum records.

Lemma csv_items_spec r : csvr_done r = false →
  let sum := running_checksum (csvr_running_checksum r) (csvr_records r) in
  CsvReader_items r = map record_item (csvr_records r) ++
    (if sum =? csvr_expected_checksum r then [] else [Err (InvalidFileChecksum (csvr_file_path r) sum (csvr_expected_checksum r))]).
Proof.
  unfold CsvReader_items. destruct r as [records path sum expected fin]. cbn [csvr_done csvr_records csvr_file_path csvr_running_checksum csvr_expected_checksum].
  intros ->. revert sum.
  induction records as [|record records IH]; intros sum.
  - simpl. unfold CsvReader_next. simpl. by destruct (sum =? expected).
  - cbn [length map app]. set (n := S (length records)) in *. clearbody n. cbn [csv_items]. destruct record as [e|what|]; cbn; by rewrite IH.
Qed.

Definition input_entry (e : CsvEntry) (key : ValidKey) : InputManifestEntry :=
  {| ime_partial_key := key; ime_etag := csv_etag e; ime_size := csv_size e; ime_checksum := csv_checksum e |}.
Lemma try_into_inv e :
  match CsvEntry_try_into e with
  | Ok ime => ∃ key, ValidKey_try_from (csv_partial_key e) = Ok key ∧ ValidKey_kind key = File ∧ ime = input_entry e key
  | Err (DirectoryMarker _) => ∃ key, ValidKey_try_from (csv_partial_key e) = Ok key ∧ ValidKey_kind key = Directory
  | _ => True
  end.
Proof.
  unfold CsvEntry_try_into, InputManifestEntry_new. destruct (ValidKey_try_from _) as [key| |]; simpl; [|done..].
  case_bool_decide; [done|]. destruct (bool_decide_reflect (ValidKey_kind key = File)) as [Hk|Hk]; simpl.
  - case_bool_decide; [done|]. by exists key.
  - exists key. by destruct (ValidKey_kind key).
Qed.

(** The file of a channel lists an object. *)
Definition channel_path (c : ChannelConfig) : S3Path :=
  {| s3_bucket := {| bucket_name := cc_bucket_name c |}; s3_prefix := {| prefix_path := cc_prefix c |} |}.
Definition lists (open_csv : string → option (list (outcome string CsvEntry))) (c : ChannelConfig) (e : CsvEntry) (key : ValidKey) : Prop :=
  ∃ records, open_csv (cc_manifest_path c) = Some records ∧ Ok e ∈ records ∧
    ValidKey_try_from (csv_partial_key e) = Ok key ∧ ValidKey_kind key = File.

Lemma channel_manifest_inv open_csv c cm : channel_manifest open_csv c = Ok cm →
  cm_directory_name cm = cc_directory_name c ∧ cm_s3_path cm = channel_path c ∧ s3_path_wf (cm_s3_path cm) ∧
  ∃ records, open_csv (cc_manifest_path c) = Some records ∧
    cm_entries cm = CsvReader_items (CsvReader_new records (cc_manifest_path c) (cc_manifest_checksum c)).
Proof.
  unfold channel_manifest. destruct (open_csv _) as [records|]; [|done].
  destruct (Bucket_new (cc_bucket_name c)) as [b| |] eqn:Hb; simpl; [|done..]. destruct (Prefix_new (cc_prefix c)) as [p| |] eqn:Hp; simpl; [|done..].
  intros [= <-]. simpl. assert (b = {| bucket_name := cc_bucket_name c |} ∧ p = {| prefix_path := cc_prefix c |}) as [-> ->].
  { unfold Bucket_new in Hb. destruct (validate_bucket_length _); simpl in Hb; [|done..]. unfold Prefix_new in Hp. by repeat case_match; simplify_eq. }
  ands; try done. by exists records.
Qed.

Lemma entries_listed open_csv c cm ime :
  channel_manifest open_csv c = Ok cm → Ok ime ∈ cm_entries cm → ∃ e key, lists open_csv c e key ∧ ime = input_entry e key.
Proof.
  intros (_ & _ & _ & records & Hopen & ->)%channel_manifest_inv. rewrite csv_items_spec by done. simpl.
  intros [Hin|Hin]%elem_of_app; [|by destruct (_ =? _) in Hin; [apply not_elem_of_nil in Hin|apply list_elem_of_singleton in Hin]].
  apply list_elem_of_fmap in Hin as (record & Hitem & Hin). destruct record as [e| |]; [|done..]. simpl in Hitem.
  pose proof (try_into_inv e) as Hinv. rewrite <-Hitem in Hinv. destruct Hinv as (key & Hk & Hkind & ->).
  exists e, key. split; [by exists records|done].
Qed.
Lemma listed_entries open_csv c cm e key :
  channel_manifest open_csv c = Ok cm → lists open_csv c e key →
  Forall (λ item, (∃ ime, item = Ok ime) ∨ ∃ key, item = Err (DirectoryMarker key)) (cm_entries cm) →
  Ok (input_entry e key) ∈ cm_entries cm.
Proof.
  intros (_ & _ & _ & records & Hopen & ->)%channel_manifest_inv (records' & Hopen' & Hin & Hk & Hkind) Hall.
  assert (records' = records) as -> by congruence. rewrite csv_items_spec in * by done. simpl in *. apply elem_of_app. left.
  apply Forall_app in Hall as [Hall _]. rewrite list.Forall_forall in Hall.
  assert (record_item (Ok e) ∈ map record_item records) as Hitem by (apply list_elem_of_fmap; by exists (Ok e)).
  pose proof (try_into_inv e) as Hinv. change (CsvEntry_try_into e) with (record_item (Ok e)) in Hinv.
  destruct (Hall _ Hitem) as [[ime Heq]|[k Heq]]; rewrite Heq in Hinv; destruct Hinv as (key' & Hk' & Hkind'); [destruct Hkind' as [_ ->]|];
    assert (key' = key) as -> by congruence; [by rewrite <-Heq|congruence].
Qed.

(** *** What is shown *)

Definition object_lookup (mount_time now ino : Z) (path : S3Path) (etag : string) (size : Z) (key : ValidKey) : ManifestLookup :=
  {| mlk_ino := ino; mlk_stat := InodeStat_for_file size mount_time (Some etag) None None now NEVER_EXPIRE_TTL; mlk_kind := File;
     mlk_location := Some (path, key) |}.

Lemma object_row_lookup cms rows i cm key row etag size mount_time now :
  cms !! i = Some cm → row_path cms rows i (ValidKey_components key) row → key_in_tree key → ValidKey_kind key = File →
  dbe_etag row = Some etag → dbe_size row = Some size →
  row_lookup cms mount_time now i (ValidKey_components key) row = object_lookup mount_time now (dbe_id row) (cm_s3_path cm) etag size key.
Proof.
  intros Hcm Hp Hkey Hk Het Hsz. assert (row_kind row = File) as Hrk by (unfold row_kind; by rewrite Het, Hsz).
  apply key_in_tree_inv in Hkey as [->|(names & n & kind & Hv & Hn & ->)]; [done|]. rewrite child_key_kind in Hk by done. subst kind.
  rewrite child_key_components in * by done. assert (n = dbe_name row) as ->.
  { remember (names ++ [n]) as path eqn:Hpath. destruct Hp; [by destruct names|]. by apply app_inj_tail in Hpath as [_ ->]. }
  unfold row_lookup, object_lookup, entry_kind, row_location. rewrite Het, Hsz, Hrk, Hcm. simpl.
  rewrite length_app, Nat.add_sub, take_app_length. by destruct names.
Qed.

(** Ingesting the files of [configs], and the channels [cms] that it reads from them. *)
Lemma ingest_inv io open_csv configs db :
  ingest_manifest false io open_csv configs = (db, Ok tt) →
  ∃ cms, Forall2 (λ c cm, channel_manifest open_csv c = Ok cm) configs cms ∧ create_db io cms 100000 = (db, Ok tt).
Proof.
  unfold ingest_manifest. destruct (check_directory_names ∅ configs); simpl; [|done..].
  destruct (outcome_mapM (channel_manifest open_csv) configs) as [cms| |] eqn:Hcms; [|done..]. intros Hdb.
  exists cms. split; [by apply outcome_mapM_inv|done].
Qed.
Lemma ingested_entries open_csv configs cms i ime :
  Forall2 (λ c cm, channel_manifest open_csv c = Ok cm) configs cms → listed cms i ime →
  ∃ c e key, configs !! i = Some c ∧ lists open_csv c e key ∧ ime = input_entry e key ∧ key_in_tree key ∧ ValidKey_kind key = File.
Proof.
  intros Hcms (cm & Hcm & Hin). destruct (Forall2_lookup_r _ _ _ _ _ Hcms Hcm) as (c & Hc & Hcmc).
  destruct (entries_listed _ _ _ _ Hcmc Hin) as (e & key & Hl & ->). exists c, e, key. pose proof Hl as (_ & _ & _ & Hk & Hkind).
  by destruct (try_from_ok_in_tree _ _ Hk) as [? _].
Qed.
Lemma ingested_db io open_csv configs cms db :
  Forall2 (λ c cm, channel_manifest open_csv c = Ok cm) configs cms → create_db io cms 100000 = (db, Ok tt) →
  Forall s3_path_wf (map cm_s3_path cms) ∧ rows_ok cms (db_s3_objects db) ∧ db_channels db = channel_rows (map cm_s3_path cms) ∧
  Forall (λ e, ∃ c names, row_path cms (db_s3_objects db) c names e ∧ justified cms c names e) (db_s3_objects db) ∧
  ∃ done, ingested cms (db_s3_objects db) done (length cms) ∧
    Forall (λ d, ∃ e, row_path cms (db_s3_objects db) d.1 (object_names d.2) e ∧ is_object d.1 (object_names d.2) e d.2) done.
Proof.
  intros Hcms Hdb. split.
  - apply Forall_map. eapply Forall2_Forall_r; [exact Hcms|]. apply list.Forall_forall. intros c _ cm Hcm.
    by apply channel_manifest_inv in Hcm as (_ & _ & ? & _).
  - eapply create_db_spec; [|done]. intros c ime Hl. destruct (ingested_entries _ _ _ _ _ Hcms Hl) as (? & e & key & _ & _ & -> & ? & ?). done.
Qed.

(** C31. A manifest file system shows exactly what its manifests list.  When ingesting the channels of [configs] succeeds,
    and SQLite answers every query from then on, the database can be mounted, and walking down from the root with lookups gives: for every object of a CSV file, below
    the directory of its channel, a file with its size and ETag, located at its key below the prefix and in the bucket of
    the channel; a directory for every channel; and nothing else than such objects and the directories above them. *)
Theorem manifest_shows_exactly_its_objects io open_csv configs db mount_time now :
  ingest_manifest false io open_csv configs = (db, Ok tt) → db_io db = [] →
  ∃ mm, ManifestMetablock_new db mount_time = Ok mm ∧
    (∀ c e key, c ∈ configs → lists open_csv c e key → ∃ ino,
       resolve now mm (cc_directory_name c :: ValidKey_components key) =
       Ok (object_lookup mount_time now ino (channel_path c) (csv_etag e) (csv_size e) key)) ∧
    (∀ c, c ∈ configs → ∃ l, resolve now mm [cc_directory_name c] = Ok l ∧ mlk_kind l = Directory) ∧
    (∀ path l, resolve now mm path = Ok l → path = [] ∨ ∃ c names, c ∈ configs ∧ path = cc_directory_name c :: names ∧
       match mlk_kind l with
       | File => ∃ e key, lists open_csv c e key ∧ names = ValidKey_components key ∧
           l = object_lookup mount_time now (mlk_ino l) (channel_path c) (csv_etag e) (csv_size e) key
       | Directory => names = [] ∨ ∃ e key n rest, lists open_csv c e key ∧ ValidKey_components key = names ++ n :: rest
       end).
Proof.
  intros (cms & Hcms & Hdb)%ingest_inv Hio. destruct (ingested_db _ _ _ _ _ Hcms Hdb) as (Hwf & Hok & Hch & Hjust & objs & Hin & Hobjs).
  pose proof (load_channels_spec db _ Hio Hch Hwf) as Hload. unfold ManifestMetablock_new. rewrite Hload. simpl.
  eexists. split; [done|]. set (mm := Build_ManifestMetablock _ _ _ _ _).
  assert (∀ i cm names row, cms !! i = Some cm → row_path cms (db_s3_objects db) i names row →
    resolve now mm (cm_directory_name cm :: names) = Ok (row_lookup cms mount_time now i names row)) as Hres.
  { intros i cm names row Hcm Hp. unfold resolve. by rewrite (resolve_row cms mm now eq_refl Hio Hok i cm names row Hcm Hp). }
  assert (∀ c, c ∈ configs → ∃ i cm, configs !! i = Some c ∧ cms !! i = Some cm ∧ channel_manifest open_csv c = Ok cm ∧ (i < length cms)%nat) as Hconf.
  { intros c [i Hi]%list_elem_of_lookup. destruct (Forall2_lookup_l _ _ _ _ _ Hcms Hi) as (cm & Hcm & ?). exists i, cm.
    by apply lookup_lt_Some in Hcm as ?. }
  ands.
  - intros c e key (i & cm & Hi & Hcm & Hcmc & Hlt)%Hconf Hl. destruct (Hin i cm Hlt Hcm) as (_ & Hall & Hitems).
    pose proof (listed_entries _ _ _ _ _ Hcmc Hl Hitems) as Hentry. destruct (Hall _ Hentry) as [Hdone _].
    rewrite list.Forall_forall in Hobjs. destruct (Hobjs _ Hdone) as (row & Hp & _ & Het & Hsz). simpl in *.
    change (object_names _) with (ValidKey_components key) in Hp.
    destruct (ingested_entries _ _ _ _ _ Hcms (ex_intro _ cm (conj Hcm Hentry))) as (? & ? & ? & _ & _ & [= <- _ _ _] & Hkt & Hkf).
    destruct (channel_manifest_inv _ _ _ Hcmc) as (Hname & Hpath & _). exists (dbe_id row). rewrite <-Hname, <-Hpath.
    rewrite (Hres i cm _ row Hcm Hp). f_equal. by eapply object_row_lookup.
  - intros c (i & cm & Hi & Hcm & Hcmc & Hlt)%Hconf. destruct (Hin i cm Hlt Hcm) as ((root & Hroot) & _).
    destruct (channel_manifest_inv _ _ _ Hcmc) as (Hname & _). rewrite <-Hname. eexists. split; [by eapply Hres|]. by eapply row_root_dir.
  - intros path l Hl. destruct (resolve_inv cms mm now eq_refl Hio Hok path l Hl) as [[-> _]|(i & cm & names & row & Hcm & -> & Hp & ->)]; [by left|].
    right. destruct (Forall2_lookup_r _ _ _ _ _ Hcms Hcm) as (c & Hc & Hcmc). destruct (channel_manifest_inv _ _ _ Hcmc) as (Hname & Hpath & _).
    exists c, names. split; [by eapply list_elem_of_lookup_2|]. split; [by rewrite Hname|]. simpl.
    rewrite list.Forall_forall in Hjust. destruct (Hjust row (row_path_elem _ _ _ _ _ Hp)) as (i' & names' & Hp' & Hj).
    destruct (row_path_det _ _ _ _ _ _ _ Hok Hp Hp') as [<- <-]. unfold justified in Hj. destruct (row_kind row).
    + destruct Hj as (ime & Hime & Hnames & Het & Hsz).
      destruct (ingested_entries _ _ _ _ _ Hcms Hime) as (c' & e & key & Hc' & Hl' & -> & Hkt & Hkf). assert (c' = c) as -> by congruence.
      exists e, key. split; [done|]. unfold object_names in Hnames. simpl in Hnames, Het, Hsz. subst names. split; [done|].
      rewrite <-Hpath. by eapply object_row_lookup.
    + destruct Hj as [->|(ime & Hime & n & rest & Hnames)]; [by left|right].
      destruct (ingested_entries _ _ _ _ _ Hcms Hime) as (c' & e & key & Hc' & Hl' & -> & _). assert (c' = c) as -> by congruence.
      by exists e, key, n, rest.
Qed.

(** *** Integrity *)

Definition row_bytes (e : CsvEntry) : bytes := str_bytes (csv_partial_key e) ++ string_bytes (csv_etag e) ++ be_bytes 8 (csv_size e).
Lemma total_size_row e : is_u64 (zlen (row_bytes e)) → CsvEntry_total_size e = zlen (row_bytes e).
Proof.
  assert (zlen (row_bytes e) = Z.of_nat (length (csv_partial_key e)) + zlen (string_bytes (csv_etag e)) + 8) as Heq.
  { unfold row_bytes, zlen, str_bytes. rewrite !length_app, length_map, length_be_bytes. lia. }
  intros Hu. unfold CsvEntry_total_size. rewrite Heq in *. pose proof (zlen_nonneg (string_bytes (csv_etag e))).
  unfold is_u64, u64_modulus in Hu.
  rewrite (wadd_small (Z.of_nat _)) by (unfold is_u64, u64_modulus; lia). by rewrite wadd_small by (unfold is_u64, u64_modulus; lia).
Qed.

(** A file is accepted only when all its rows are, and its checksum is right. *)
Lemma accepted_file records path expected :
  Forall (λ item, (∃ ime, item = Ok ime) ∨ ∃ key, item = Err (DirectoryMarker key)) (CsvReader_items (CsvReader_new records path expected)) →
  ∃ es, records = map Ok es ∧ running_checksum 0 records = expected.
Proof.
  rewrite csv_items_spec by done. simpl. intros [Hitems Hlast]%Forall_app.
  assert (running_checksum 0 records = expected) as Hsum.
  { destruct (Z.eqb_spec (running_checksum 0 records) expected) as [|Hne]; [done|]. inv Hlast. naive_solver. }
  assert (∃ es, records = map Ok es) as [es ->].
  { clear Hlast Hsum. induction records as [|record records IH]; [by exists []|]. inv Hitems as [|? ? Hitem Hitems']. destruct (IH Hitems') as [es ->].
    destruct record as [e| |]; [by exists (e :: es)|naive_solver..]. }
  by exists es.
Qed.
Lemma running_checksum_rows `{!Crc32cLaws} bs es :
  is_integrity_validation_disabled = false → Forall (λ e, csv_checksum e = crc32c_checksum (row_bytes e) ∧ is_u64 (zlen (row_bytes e))) es →
  running_checksum (crc32c_checksum bs) (map Ok es) = crc32c_checksum (bs ++ concat (map row_bytes es)).
Proof.
  intros Hv Hes. revert bs. induction Hes as [|e es [Hsum Hu] _ IH]; intros bs; simpl; [by rewrite app_nil_r|].
  unfold combine_checksums. rewrite Hv, Hsum, total_size_row, crc32c_combine_app by done.
  rewrite app_assoc. apply IH.
Qed.

(** What is ingested was not corrupted.  When ingesting succeeds and integrity is validated, and a CSV file lists only
    objects, then all its rows could be read, the checksum of each row is the CRC of its key, ETag and size, and the
    checksum that was given for the file is the CRC of all its rows. *)
Theorem ingested_files_are_intact `{!Crc32cLaws} io open_csv configs db c records :
  is_integrity_validation_disabled = false → ingest_manifest false io open_csv configs = (db, Ok tt) →
  c ∈ configs → open_csv (cc_manifest_path c) = Some records →
  (∀ e key, Ok e ∈ records → ValidKey_try_from (csv_partial_key e) = Ok key → ValidKey_kind key = File) →
  (∀ e, Ok e ∈ records → is_u64 (zlen (row_bytes e))) →
  ∃ es, records = map Ok es ∧ Forall (λ e, csv_checksum e = crc32c_checksum (row_bytes e)) es ∧
    cc_manifest_checksum c = crc32c_checksum (concat (map row_bytes es)).
Proof.
  intros Hv (cms & Hcms & Hdb)%ingest_inv Hc Hopen Hfiles Hu. destruct (ingested_db _ _ _ _ _ Hcms Hdb) as (_ & _ & _ & _ & objs & Hin & _).
  apply list_elem_of_lookup in Hc as [i Hi]. destruct (Forall2_lookup_l _ _ _ _ _ Hcms Hi) as (cm & Hcm & Hcmc).
  destruct (Hin i cm (lookup_lt_Some _ _ _ Hcm) Hcm) as (_ & Hall & Hitems).
  destruct (channel_manifest_inv _ _ _ Hcmc) as (_ & _ & _ & records' & Hopen' & Hent). assert (records' = records) as -> by congruence.
  pose proof Hitems as Hacc. rewrite Hent in Hacc. apply accepted_file in Hacc as (es & -> & Hsum). exists es. split; [done|].
  assert (Forall (λ e, csv_checksum e = crc32c_checksum (row_bytes e)) es) as Hsums; [|split; [done|]].
  - apply list.Forall_forall. intros e He. assert (Ok e ∈ (map Ok es : list (outcome string CsvEntry))) as He' by (apply list_elem_of_fmap; by exists e).
    assert (∃ key, ValidKey_try_from (csv_partial_key e) = Ok key) as [key Hkey].
    { rewrite Hent, csv_items_spec in Hitems by done. apply Forall_app in Hitems as [Hitems _]. simpl in Hitems. rewrite map_map, Forall_map in Hitems.
      rewrite list.Forall_forall in Hitems. specialize (Hitems e He). pose proof (try_into_inv e) as Hinv. simpl in Hitems.
      destruct Hitems as [[ime Heq]|[k Heq]]; rewrite Heq in Hinv; naive_solver. }
    assert (lists open_csv c e key) as Hl by (eexists; ands; [done|done|done|by eapply Hfiles]).
    destruct (Hall _ (listed_entries _ _ _ _ _ Hcmc Hl Hitems)) as [_ Hs]. unfold object_checksum in Hs. simpl in Hs.
    by rewrite (proj2 (try_from_ok_in_tree _ _ Hkey)) in Hs.
  - rewrite <-Hsum, <-crc32c_checksum_nil. rewrite running_checksum_rows; [done|done|]. apply list.Forall_forall. intros e He.
    rewrite list.Forall_forall in Hsums. split; [by apply Hsums|]. apply Hu, list_elem_of_fmap. by exists e.
Qed.
End files.

(** ** An example: one channel with two objects *)

Module ManifestExample.
Definition entry (key : string) (size : Z) : CsvEntry :=
  let e := {| csv_partial_key := str_of key; csv_etag := "e1"; csv_size := size; csv_checksum := 0 |} in
  {| csv_partial_key := csv_partial_key e; csv_etag := csv_etag e; csv_size := size; csv_checksum := crc32c_checksum (Crc32c := sum_crc) (row_bytes e) |}.
Definition records : list (outcome string CsvEntry) := [Ok (entry "dir/a" 3); Ok (entry "b" 4)].
Definition open_csv (path : string) : option (list (outcome string CsvEntry)) := if decide (path = "m.csv") then Some records else None.
Definition channel : ChannelConfig :=
  {| cc_directory_name := str_of "data"; cc_bucket_name := str_of "bucket"; cc_prefix := str_of "p/"; cc_manifest_path := "m.csv";
     cc_manifest_checksum := running_checksum (crc := sum_crc) (env := false) 0 records |}.
Definition db : Db := (ingest_manifest (crc := sum_crc) (env := false) false [] open_csv [channel]).1.
Definition dir_a : ValidKey := {| vk_key := str_of "dir/a"; vk_name_offset := 4 |}.
End ManifestExample.

Lemma manifest_shows_exactly_its_objects_witness :
  ∃ mm, ManifestMetablock_new ManifestExample.db 7 = Ok mm ∧ ∃ ino,
    resolve (crc := sum_crc) 9 mm [str_of "data"; str_of "dir"; str_of "a"] =
    Ok (object_lookup 7 9 ino (channel_path ManifestExample.channel) "e1" 3 ManifestExample.dir_a).
Proof.
  destruct (manifest_shows_exactly_its_objects (crc := sum_crc) (env := false) [] ManifestExample.open_csv [ManifestExample.channel]
    ManifestExample.db 7 9) as (mm & Hmm & Hobjects & _); [by vm_compute|by vm_compute|].
  exists mm. split; [exact Hmm|].
  apply (Hobjects ManifestExample.channel (ManifestExample.entry "dir/a" 3) ManifestExample.dir_a); [left|].
  exists ManifestExample.records. repeat split; [left|by vm_compute..].
Defined.

Lemma ingested_files_are_intact_witness :
  cc_manifest_checksum ManifestExample.channel =
  crc32c_checksum (Crc32c := sum_crc) (row_bytes (ManifestExample.entry "dir/a" 3) ++ row_bytes (ManifestExample.entry "b" 4)).
Proof.
  destruct (ingested_files_are_intact (crc := sum_crc) (env := false) [] ManifestExample.open_csv [ManifestExample.channel]
    ManifestExample.db ManifestExample.channel ManifestExample.records) as (es & Hes & _ & ->).
  - done.
  - by vm_compute.
  - left.
  - done.
  - intros e key He. repeat (apply elem_of_cons in He as [[= ->]|He]; [intros Hk; vm_compute in Hk; injection Hk as <-; by vm_compute|]).
    by apply not_elem_of_nil in He.
  - intros e He. repeat (apply elem_of_cons in He as [[= ->]|He]; [by vm_compute|]). by apply not_elem_of_nil in He.
  - destruct es as [|e1 [|e2 [|]]]; [done|done| |done]. injection Hes as <- <-. by vm_compute.
Defined.
