(* ===== verification/ManifestReaddir.v ===== *)
(** * Listing the directories of a manifest file system

    [ManifestDirIter] reads the rows of a directory in batches and keeps what it has read; a request can continue where
    the last one stopped, or go anywhere else.  Its invariant [iter_ok]: the entries that it keeps are the rows that
    follow the offset where it is.  So every request is answered as if the directory were read anew. *)

From S2P Require Import Prelude Checksums NegativeCache Path Inode Readdir S3Path Manifest ManifestSpec.
Local Open Scope Z_scope.

Lemma outcome_mapM_total {E A B} (f : A → outcome E B) l :
  Forall (λ x, ∃ y, f x = Ok y) l → ∃ l', outcome_mapM f l = Ok l' ∧ Forall2 (λ x y, f x = Ok y) l l'.
Proof.
  induction 1 as [|x l [y Hy] _ (l' & Hl' & IH)]; [by exists []|]. exists (y :: l'). simpl. rewrite Hy. simpl. rewrite Hl'.
  by repeat constructor.
Qed.

(** Distinct numbers of a range are not more than the range. *)
Lemma nodup_range_length (l : list Z) lo hi : NoDup l → Forall (λ z, lo < z < hi) l → lo < hi → zlen l < hi - lo.
Proof.
  intros Hnd Hr Hlt. assert (length l ≤ length (seqZ (lo + 1) (hi - lo - 1)))%nat as Hle.
  { apply NoDup_incl_length; [by apply NoDup_ListNoDup|]. intros z Hz. apply list_elem_of_In, elem_of_seqZ.
    rewrite list.Forall_forall in Hr. apply list_elem_of_In in Hz. specialize (Hr z Hz). lia. }
  rewrite length_seqZ in Hle. unfold zlen. lia.
Qed.

Lemma zdrop_cons {A} o (l : list A) e rest : 0 ≤ o → zdrop o l = e :: rest → zdrop (o + 1) l = rest ∧ o + 1 ≤ zlen l.
Proof.
  intros Ho Hd. unfold zdrop, zlen in *. assert (Z.to_nat (o + 1) = Z.to_nat o + 1)%nat as -> by lia. rewrite <-drop_drop, Hd. split; [done|].
  apply (f_equal length) in Hd. rewrite length_drop in Hd. simpl in Hd. lia.
Qed.

(** What a request adds to its reply: entries, as long as there is room. *)
Section fill.
Context {A} (add : list A → A → bool).
Fixpoint fill (sent todo : list A) : list A :=
  match todo with
  | [] => sent
  | d :: todo => if add sent d then fill (sent ++ [d]) todo else sent
  end.
End fill.

Section listing.
Context `{crc : Crc32c, env : IntegrityEnv}.
Context (now : Z) (add : list ManifestDirent → ManifestDirent → bool).
Context (cms : list ChannelManifest) (db : Db) (mount_time : Z).
Context (Hio : db_io db = []) (Hok : rows_ok cms (db_s3_objects db)).
Local Abbreviation rows := (db_s3_objects db).

(** The listing of a directory: the entries of its rows, from an offset on. *)
Fixpoint dirents (offset : Z) (l : list DbEntry) : list ManifestDirent :=
  match l with
  | [] => []
  | e :: l => {| mde_info := row_info mount_time now e; mde_name := dbe_name e; mde_offset := offset + 1 |} :: dirents (offset + 1) l
  end.

(** The rows that follow the offset of an iterator, and the entries that it has read of them. *)
Definition rest_of (it : ManifestDirIter) : list DbEntry := zdrop (mdi_next_offset it) (children rows (mdi_parent_id it)).
Definition has_read (it : ManifestDirIter) (n : nat) : Prop :=
  Forall2 (λ e me, ManifestEntry_try_from e = Ok me) (take n (rest_of it)) (mdi_entries it) ∧
  (mdi_finished it = true → take n (rest_of it) = rest_of it).
Record iter_ok (it : ManifestDirIter) : Prop := {
  it_batch : mdi_batch_size it = 10000;
  it_offset : 0 ≤ mdi_next_offset it < 2 ^ 63;
  it_entries : ∃ n, has_read it n;
}.

Set Default Proof Using "All".

Lemma children_elem parent e : e ∈ children rows parent ↔ e ∈ rows ∧ dbe_parent_id e = parent.
Proof using Type. unfold children. rewrite stable_sort_perm, list_elem_of_filter. naive_solver. Qed.
Lemma children_length parent : zlen (children rows parent) < 2 ^ 63 ∧ (length (children rows parent) ≤ length rows)%nat.
Proof.
  assert (length (children rows parent) ≤ length rows)%nat as Hle.
  { unfold children. rewrite stable_sort_perm. apply length_filter. }
  split; [|done]. pose proof (nodup_range_length _ ROOT_INODE_NO (2 ^ 63) (rows_ids _ _ Hok)) as Hl.
  unfold zlen in *. rewrite length_map in Hl. unfold ROOT_INODE_NO in Hl.
  assert (Z.of_nat (length rows) < 2 ^ 63 - 1) by (apply Hl; [apply Forall_map; apply Hok|lia]). lia.
Qed.
Lemma rows_try_from : Forall (λ e, ∃ me, ManifestEntry_try_from e = Ok me) rows.
Proof.
  eapply Forall_impl; [|exact (rows_paths _ _ Hok)]. intros e (c & names & Hp). simpl.
  destruct (row_read cms rows c names e 0 0 Hp) as (me & ? & _). by exists me.
Qed.

(** The iterator reads the next batch when it has no more entries. *)
Lemma refill it :
  iter_ok it → mdi_parent_id it < 2 ^ 63 → ∃ it',
    (if bool_decide (mdi_entries it = []) && negb (mdi_finished it) then search_next_entries db it else (db, it, Ok tt)) = (db, it', Ok tt) ∧
    mdi_next_offset it' = mdi_next_offset it ∧ mdi_parent_id it' = mdi_parent_id it ∧ mdi_batch_size it' = 10000 ∧
    ∃ n, has_read it' n ∧ (n = O → rest_of it = []).
Proof.
  intros [Hb Ho (n & Hn)] Hp. case_bool_decide as He; [destruct (mdi_finished it) eqn:Hf|]; simpl.
  - exists it. ands; try done. exists n. split; [done|]. intros ->. by rewrite <-(proj2 Hn Hf).
  - unfold search_next_entries, select_children. rewrite db_call_quiet by done. simpl. unfold to_sql.
    rewrite Hb, !(proj2 (Z.ltb_lt _ _)) by (try done; lia). simpl. fold (rest_of it).
    destruct (outcome_mapM_total ManifestEntry_try_from (ztake 10000 (rest_of it))) as (mes & -> & Hmes).
    { eapply list.Forall_forall. intros e Hin%elem_of_take. destruct Hin as (i & Hi & _). unfold rest_of, zdrop in Hi.
      rewrite lookup_drop in Hi. apply list_elem_of_lookup_2, children_elem in Hi as [Hi _].
      pose proof rows_try_from as Hall. rewrite list.Forall_forall in Hall. by apply Hall. }
    rewrite He. simpl. eexists. ands; try done. exists (Z.to_nat 10000). split; [|lia]. split; [done|]. simpl.
    destruct (Z.ltb_spec (zlen (ztake 10000 (rest_of it))) 10000) as [Hlt|]; [|congruence]. intros _.
    unfold zlen, ztake in Hlt. rewrite length_take in Hlt. apply take_ge. change (rest_of (mdi_set _ _ _ _)) with (rest_of it). lia.
  - exists it. ands; try done. exists n. split; [done|]. intros ->. destruct Hn as [Hn _]. by apply Forall2_nil_inv_l in Hn.
Qed.

(** The next entry is that of the next row. *)
Lemma next_entry_spec it :
  iter_ok it → mdi_parent_id it < 2 ^ 63 → ∃ it', iter_ok it' ∧ mdi_parent_id it' = mdi_parent_id it ∧
  match rest_of it with
  | [] => next_entry db it = (db, it', Ok None)
  | e :: rest => ∃ me, ManifestEntry_try_from e = Ok me ∧ next_entry db it = (db, it', Ok (Some me)) ∧ rest_of it' = rest ∧ iter_ok (mdi_readd it' me)
  end.
Proof.
  intros Hit Hp. destruct (refill it Hit Hp) as (it1 & Hre & Ho1 & Hp1 & Hb1 & n & Hn & Hn0). unfold next_entry. rewrite Hre.
  pose proof (it_offset _ Hit) as Ho. assert (rest_of it1 = rest_of it) as Hrest by (unfold rest_of; by rewrite Ho1, Hp1).
  pose proof Hn as [Hent Hfin]. rewrite Hrest in Hent, Hfin. destruct (rest_of it) as [|e rest] eqn:Hr.
  - rewrite take_nil in Hent. apply Forall2_nil_inv_l in Hent. rewrite Hent. exists it1. ands; try done. split; [done|lia|by exists n].
  - destruct n as [|n]; [by specialize (Hn0 eq_refl)|]. simpl in Hent, Hfin. inv Hent as [|? me ? mes Hme Hmes Heq].
    destruct (zdrop_cons _ _ _ _ (proj1 Ho) Hr) as [Hr' Hlen]. pose proof (children_length (mdi_parent_id it)) as [Hlt _].
    assert (wadd (mdi_next_offset it1) 1 = mdi_next_offset it + 1) as Hw by (rewrite Ho1; apply wadd_small; unfold is_u64, u64_modulus; lia).
    assert (wsub (mdi_next_offset it + 1) 1 = mdi_next_offset it) as Hw' by (rewrite wsub_small; unfold is_u64, u64_modulus; lia).
    rewrite Hw. eexists. split; [|split; [|exists me; ands; [done|done|..]]]; [|done| |].
    + split; simpl; [done|lia|]. exists n. split; unfold rest_of; simpl; rewrite Hp1, Hr'; [done|].
      intros Hf. specialize (Hfin Hf). congruence.
    + unfold rest_of. simpl. by rewrite Hp1.
    + split; simpl; [done|lia|]. exists (S n). split; unfold rest_of; simpl; rewrite Hw', Hp1; fold (rest_of it); rewrite Hr; simpl; [by constructor|done].
Qed.

Lemma rest_of_row it e : e ∈ rest_of it → e ∈ rows.
Proof.
  intros Hin. eapply (children_elem (mdi_parent_id it)). unfold rest_of, zdrop in Hin. apply list_elem_of_lookup in Hin as [i Hi].
  rewrite lookup_drop in Hi. by eapply list_elem_of_lookup_2.
Qed.

(** The loop of a request serves the rows that are left, as far as there is room, and stays at the first that is not served. *)
Lemma readdir_loop_spec fuel mm it offset sent :
  mm_channels mm = map cm_s3_path cms → mm_mount_time mm = mount_time → iter_ok it → mdi_parent_id it < 2 ^ 63 → (length (rest_of it) < fuel)%nat →
  ∃ it', mm_readdir_loop now add fuel mm db it offset sent = (db, it', fill add sent (dirents offset (rest_of it)), Ok tt) ∧
    iter_ok it' ∧ mdi_parent_id it' = mdi_parent_id it.
Proof.
  intros Hch Hmt. revert it offset sent. induction fuel as [|fuel IH]; intros it offset sent Hit Hp Hlen; [lia|]. simpl.
  destruct (next_entry_spec it Hit Hp) as (it1 & Hit1 & Hp1 & Hnext). destruct (rest_of it) as [|e rest] eqn:Hr.
  { rewrite Hnext. simpl. by exists it1. }
  destruct Hnext as (me & Hme & -> & Hr1 & Hre). simpl.
  pose proof (rows_paths _ _ Hok) as Hall. rewrite list.Forall_forall in Hall.
  destruct (Hall e) as (c & names & Hpath); [apply (rest_of_row it); rewrite Hr; left|].
  destruct (row_read cms rows c names e mount_time now Hpath) as (me' & Hme' & _ & Hinfo). assert (me' = me) as -> by congruence.
  rewrite Hch, Hmt, Hinfo. simpl. destruct (add _ _); [|by exists (mdi_readd it1 me)].
  destruct (IH it1 (offset + 1) (sent ++ [{| mde_info := row_info mount_time now e; mde_name := dbe_name e; mde_offset := offset + 1 |}]))
    as (it2 & -> & ? & ?); [done|lia|rewrite Hr1; simpl in Hlen; lia|]. rewrite Hr1. exists it2. ands; try done. congruence.
Qed.

Lemma iter_new ino : iter_ok (ManifestDirIter_new ino).
Proof using Type. split; simpl; [done|lia|]. exists 0%nat. by split; [constructor|]. Qed.
Lemma iter_seek it offset : iter_ok it → 0 ≤ offset < 2 ^ 63 →
  iter_ok (mdi_seek it offset) ∧ rest_of (mdi_seek it offset) = zdrop offset (children rows (mdi_parent_id it)) ∧
  mdi_parent_id (mdi_seek it offset) = mdi_parent_id it.
Proof using Type.
  intros [Hb Ho Hn] Hoff. unfold mdi_seek. destruct (Z.eqb_spec offset (mdi_next_offset it)) as [->|Hne]; simpl; [by ands|].
  ands; try done. split; simpl; [done..|]. exists 0%nat. by split; [constructor|].
Qed.

(** ** Requests *)

Definition is_inode (ino : Z) : Prop := ino = ROOT_INODE_NO ∨ ∃ e, e ∈ rows ∧ dbe_id e = ino.
Definition parent_ino (ino : Z) : Z :=
  if ino =? ROOT_INODE_NO then ROOT_INODE_NO else default ROOT_INODE_NO (dbe_parent_id <$> head (filter (λ e, dbe_id e = ino) rows)).
(** A whole directory: itself, its parent and its rows in the order of their names. *)
Definition dir_listing (mm : ManifestMetablock) (ino : Z) : list ManifestDirent :=
  dot_entry now mm ino "." 1 :: dot_entry now mm (parent_ino ino) ".." 2 :: dirents 2 (children rows ino).

Record serving (mm : ManifestMetablock) : Prop := {
  sv_channels : mm_channels mm = map cm_s3_path cms;
  sv_time : mm_mount_time mm = mount_time;
  sv_db : mm_manifest mm = db;
  sv_handles : map_Forall (λ _ it, iter_ok it ∧ is_inode (mdi_parent_id it)) (mm_readdir_handles mm);
}.

Lemma try_from_parent e me : ManifestEntry_try_from e = Ok me → me_parent_id me = dbe_parent_id e.
Proof using Type.
  unfold ManifestEntry_try_from. destruct (match dbe_parent_partial_key e with Some _ => _ | None => _ end) as [ppk| |]; simpl; [|done..].
  destruct (_ && _); [done|]. by destruct (dbe_etag e), (dbe_size e); intros [= <-].
Qed.
Lemma is_inode_range ino : is_inode ino → ino < 2 ^ 63.
Proof using cms Hok.
  intros [->|(e & He & <-)]; [done|]. pose proof (rows_range _ _ Hok) as Hr. rewrite list.Forall_forall in Hr. by apply Hr.
Qed.
Lemma get_parent_spec mm ino : serving mm → is_inode ino → mm_get_parent_id mm ino = (mm, Ok (parent_ino ino)).
Proof.
  intros Hs Hino. pose proof (is_inode_range ino Hino) as Hlt. unfold mm_get_parent_id, parent_ino.
  destruct (Z.eqb_spec ino ROOT_INODE_NO) as [->|Hne]; [done|]. destruct Hino as [|(e & He & Hid)]; [done|].
  unfold manifest_lookup_by_id, select_entry_by_id, validated. rewrite (sv_db mm Hs), db_call_quiet by done. simpl. unfold to_sql.
  rewrite (proj2 (Z.ltb_lt _ _)) by done. simpl. rewrite (proj2 (head_filter_unique dbe_id _ _ ino e (rows_ids _ _ Hok) (λ _, iff_refl _))) by done.
  simpl. pose proof rows_try_from as Hall. rewrite list.Forall_forall in Hall. destruct (Hall e He) as [me Hme]. rewrite Hme. simpl.
  rewrite <-(sv_db mm Hs), mm_with_same_db. by rewrite (try_from_parent _ _ Hme).
Qed.

Lemma drop_dirents n offset l : drop n (dirents offset l) = dirents (offset + Z.of_nat n) (drop n l).
Proof using Type.
  revert offset l. induction n as [|n IH]; intros offset l; [by rewrite Z.add_0_r|]. destruct l as [|e l]; [done|]. simpl. rewrite IH. f_equal. lia.
Qed.

(** The part of a request after the dot entries. *)
Lemma readdir_entries_spec mm fh it offset sent :
  serving mm → mm_readdir_handles mm !! fh = Some it → 2 ≤ offset < 2 ^ 63 →
  ∃ mm', mm_readdir_entries now add mm it fh offset sent =
    (mm', fill add sent (dirents offset (zdrop (offset - 2) (children rows (mdi_parent_id it)))), Ok tt) ∧ serving mm'.
Proof.
  intros Hs Hfh Hoff. destruct (sv_handles _ Hs fh it Hfh) as [Hit Hino]. unfold mm_readdir_entries.
  rewrite wrap64_small by (unfold is_u64, u64_modulus; lia).
  destruct (iter_seek it (offset - 2) Hit ltac:(lia)) as (Hit1 & Hr1 & Hp1). rewrite (sv_db _ Hs).
  destruct (readdir_loop_spec (S (length rows)) mm (mdi_seek it (offset - 2)) offset sent) as (it' & Hloop & Hit' & Hp'); try by apply Hs.
  - done.
  - rewrite Hp1. by apply is_inode_range.
  - rewrite Hr1. unfold zdrop. rewrite length_drop. pose proof (children_length (mdi_parent_id it)) as [_ ?]. lia.
  - rewrite Hloop, Hr1. eexists. split; [done|]. destruct Hs. split; try done. simpl. apply map_Forall_insert_2; [|done].
    split; [done|]. by rewrite Hp', Hp1.
Qed.

Ltac dot_entries Hent :=
  change (0 + 1 + 1) with 2; change (0 + 1) with 1; change (1 + 1) with 2;
  match goal with |- context [mm_readdir_entries _ _ _ _ _ _ ?sent] => destruct (Hent sent) as (? & -> & ?) end; by eexists.

Lemma readdir_spec mm fh it offset :
  serving mm → mm_readdir_handles mm !! fh = Some it → 0 ≤ offset < 2 ^ 63 →
  ∃ mm', mm_readdir now add mm (mdi_parent_id it) fh offset = (mm', fill add [] (zdrop offset (dir_listing mm (mdi_parent_id it))), Ok tt) ∧ serving mm'.
Proof.
  intros Hs Hfh Hoff. destruct (sv_handles _ Hs fh it Hfh) as [Hit Hino]. unfold mm_readdir. rewrite Hfh.
  pose proof (λ sent, readdir_entries_spec mm fh it 2 sent Hs Hfh ltac:(lia)) as Hent.
  assert (offset = 0 ∨ offset = 1 ∨ 2 ≤ offset) as [->|[->|Hge]] by lia; simpl.
  - destruct (add [] _); simpl; [|by exists mm]. rewrite get_parent_spec by done.
    destruct (add _ _); simpl; [|by exists mm]. 
    dot_entries Hent.
  - rewrite get_parent_spec by done. destruct (add _ _); simpl; [|by exists mm].
    dot_entries Hent.
  - rewrite !(proj2 (Z.ltb_ge _ _)) by lia. simpl. destruct (readdir_entries_spec mm fh it offset [] Hs Hfh ltac:(lia)) as (mm' & -> & ?).
    exists mm'. split; [|done]. do 2 f_equal. unfold zdrop, dir_listing. assert (Z.to_nat offset = S (S (Z.to_nat (offset - 2)))) as -> by lia. simpl.
    rewrite drop_dirents. do 3 f_equal. lia.
Qed.
End listing.

(** ** File systems that list directories *)

Section mounted.
Context `{crc : Crc32c, env : IntegrityEnv}.

(** The states of a mounted file system: directories are opened, listed from any offset into buffers of any size, and
    released, in any order. *)
Inductive dir_reachable (mm0 : ManifestMetablock) : ManifestMetablock → Prop :=
| dr_start : dir_reachable mm0 mm0
| dr_open mm ino : dir_reachable mm0 mm → is_inode (mm_manifest mm0) ino → dir_reachable mm0 (mm_new_readdir_handle mm ino).1
| dr_read mm now add fh it offset :
    dir_reachable mm0 mm → mm_readdir_handles mm !! fh = Some it → 0 ≤ offset < 2 ^ 63 →
    dir_reachable mm0 (mm_readdir now add mm (mdi_parent_id it) fh offset).1.1
| dr_release mm fh : dir_reachable mm0 mm → dir_reachable mm0 (mm_releasedir mm fh).1.

Lemma reachable_serving cms db mount_time mm0 mm :
  db_io db = [] → rows_ok cms (db_s3_objects db) → serving cms db mount_time mm0 → dir_reachable mm0 mm → serving cms db mount_time mm.
Proof.
  intros Hio Hok Hs. induction 1 as [|mm ino Hr IH Hino|mm now add fh it offset Hr IH Hfh Hoff|mm fh Hr IH]; [done|..].
  - rewrite (sv_db _ _ _ _ Hs) in Hino. destruct IH. split; try done. simpl. apply map_Forall_insert_2; [|done]. split; [apply iter_new|done].
  - by destruct (readdir_spec now add cms db mount_time Hio Hok mm fh it offset IH Hfh Hoff) as (mm' & -> & ?).
  - destruct IH. split; try done. simpl. by apply map_Forall_delete.
Qed.

Lemma dirents_elem now mount_time offset l name ino kind :
  (∃ d, d ∈ dirents now mount_time offset l ∧ mde_name d = name ∧ ii_ino (mde_info d) = ino ∧ ii_kind (mde_info d) = kind) ↔
  ∃ e, e ∈ l ∧ dbe_name e = name ∧ dbe_id e = ino ∧ row_kind e = kind.
Proof.
  revert offset. induction l as [|e l IH]; intros offset; simpl; [split; intros (? & Hin & _); by apply not_elem_of_nil in Hin|].
  setoid_rewrite elem_of_cons. specialize (IH (offset + 1)). split.
  - intros (d & [->|Hd] & Hrest); [exists e; by split; [left|]|]. destruct (proj1 IH (ex_intro _ d (conj Hd Hrest))) as (e' & ? & ?). exists e'. by split; [right|].
  - intros (e' & [->|He] & Hrest); [eexists; by split; [left|]|]. destruct (proj2 IH (ex_intro _ e' (conj He Hrest))) as (d & ? & ?). exists d. by split; [right|].
Qed.

(** C32. Directories of a manifest file system are listed exactly.  When SQLite answers every query after the manifests were
    ingested: whatever directories were opened, listed and released
    before, a request for any open directory and any non-negative offset is answered with the entries of the directory from that
    offset on (itself, its parent, and its children in the order of their names), up to the first that does not fit, as
    if the directory were read anew; and the children of the listing are those that lookups find. *)
Theorem manifest_readdir_exact io open_csv configs db mount_time mm0 mm now add fh it offset :
  ingest_manifest false io open_csv configs = (db, Ok tt) → db_io db = [] → ManifestMetablock_new db mount_time = Ok mm0 →
  dir_reachable mm0 mm → mm_readdir_handles mm !! fh = Some it → 0 ≤ offset < 2 ^ 63 →
  (∃ mm', mm_readdir now add mm (mdi_parent_id it) fh offset =
    (mm', fill add [] (zdrop offset (dir_listing now db mount_time mm (mdi_parent_id it))), Ok tt)) ∧
  (∀ name ino kind,
    (∃ d, d ∈ dirents now mount_time 2 (children (db_s3_objects db) (mdi_parent_id it)) ∧
       mde_name d = name ∧ ii_ino (mde_info d) = ino ∧ ii_kind (mde_info d) = kind) ↔
    ∃ l, mm_lookup now mm (mdi_parent_id it) name = (mm, Ok l) ∧ mlk_ino l = ino ∧ mlk_kind l = kind).
Proof.
  intros (cms & Hcms & Hdb)%ingest_inv Hio Hmm0 Hreach Hfh Hoff. destruct (ingested_db _ _ _ _ _ Hcms Hdb) as (Hwf & Hok & Hch & _).
  unfold ManifestMetablock_new in Hmm0. rewrite (load_channels_spec db _ Hio Hch Hwf) in Hmm0. injection Hmm0 as <-.
  assert (serving cms db mount_time mm) as Hs by (by eapply reachable_serving; [..|exact Hreach]; [done..|split]). split.
  { by destruct (readdir_spec now add cms db mount_time Hio Hok mm fh it offset Hs Hfh Hoff) as (mm' & -> & _); eexists. }
  intros name ino kind. rewrite dirents_elem. destruct (sv_handles _ _ _ _ Hs fh it Hfh) as [_ Hino]. destruct Hs as [Hchs Hmt Hmdb _].
  pose proof (is_inode_range cms db Hok _ Hino) as Hlt. rewrite <-Hmdb in Hok, Hio |- *. setoid_rewrite children_elem. split.
  - intros (e & [He Hpar] & Hname & Hid & Hk). pose proof (rows_paths _ _ Hok) as Hp. rewrite list.Forall_forall in Hp.
    destruct (Hp e He) as (c & names & Hrow). exists (row_lookup cms (mm_mount_time mm) now c names e).
    split; [|by split]. apply (mm_lookup_row cms mm now Hchs Hio Hok); try done. rewrite <-Hname. by destruct Hrow.
  - intros (l & Hl & <- & <-). apply (mm_lookup_inv cms mm now Hchs Hio Hok) in Hl as (_ & c & names & e & Hp & Hpar & Hname & ->).
    exists e. simpl. ands; try done. by eapply row_path_elem.
Qed.

Lemma outcome_mapM_fails {E A B} (f : A → outcome E B) l x l' : x ∈ l → (∀ y, f x ≠ Ok y) → outcome_mapM f l ≠ Ok l'.
Proof.
  intros Hx Hf Hl. apply outcome_mapM_inv in Hl. apply list_elem_of_lookup in Hx as [i Hi].
  destruct (Forall2_lookup_l _ _ _ _ _ Hl Hi) as (y & _ & Hy). by destruct (Hf y).
Qed.

(** C34. A listing that failed can look empty when it is tried again.  [search_next_entries] marks the iterator as finished
    before it validates the rows of the last batch.  When one of them is corrupted, the request fails, as it must; but
    the same request, made again with the same directory handle, finds the iterator at the right offset, finished and
    without entries: it succeeds and serves nothing, so that the directory seems to end there. *)
Theorem failed_listing_retries_as_empty now add mm fh it offset row :
  db_io (mm_manifest mm) = [] → mm_readdir_handles mm !! fh = Some it → mdi_parent_id it < 2 ^ 63 →
  2 ≤ offset < 2 ^ 63 → mdi_batch_size it = 10000 →
  mdi_next_offset it = offset - 2 → mdi_entries it = [] → mdi_finished it = false →
  let rest := zdrop (offset - 2) (children (db_s3_objects (mm_manifest mm)) (mdi_parent_id it)) in
  zlen rest < 10000 → row ∈ rest → (∀ me, ManifestEntry_try_from row ≠ Ok me) →
  ∃ mm1 r, mm_readdir now add mm (mdi_parent_id it) fh offset = (mm1, [], r) ∧ r ≠ Ok tt ∧
  ∃ mm2, mm_readdir now add mm1 (mdi_parent_id it) fh offset = (mm2, [], Ok tt).
Proof.
  intros Hio Hfh Hp Ho Hb Hnext He Hf rest Hlen Hrow Hbad.
  assert (∀ l', outcome_mapM ManifestEntry_try_from rest ≠ Ok l') as Hfail by (intros l'; by eapply outcome_mapM_fails).
  assert (next_entry (mm_manifest mm) it = (mm_manifest mm, mdi_set it [] (mdi_next_offset it) true,
    match outcome_mapM ManifestEntry_try_from rest with Ok _ => Ok None | Err e => Err e | Panic => Panic end)) as Hentry.
  { unfold next_entry, search_next_entries, select_children. rewrite He, Hf, db_call_quiet by done. simpl. unfold to_sql.
    rewrite Hb, !(proj2 (Z.ltb_lt _ _)) by (try done; lia). simpl. rewrite Hnext. fold rest. rewrite ztake_all by lia.
    rewrite (proj2 (Z.ltb_lt _ _)) by done. specialize (Hfail). destruct (outcome_mapM _ rest) as [l'| |]; [by destruct (Hfail l')|done..]. }
  assert (∀ mm it, mm_readdir_handles mm !! fh = Some it → mdi_next_offset it = offset - 2 → 
    mm_readdir now add mm (mdi_parent_id it) fh offset = mm_readdir_entries now add mm it fh offset [] ∧ mdi_seek it (wrap64 (offset - 2)) = it) as Hskip.
  { intros mm' it' Hfh' Hn'. unfold mm_readdir. rewrite Hfh', !(proj2 (Z.ltb_ge _ _)) by lia. split; [done|].
    rewrite wrap64_small by (unfold is_u64, u64_modulus; lia). unfold mdi_seek. by rewrite Hn', Z.eqb_refl. }
  destruct (Hskip mm it Hfh Hnext) as [-> Hseek]. unfold mm_readdir_entries at 1. rewrite Hseek. simpl. rewrite Hentry.
  set (mm1 := mm_with_handles (mm_with_db mm (mm_manifest mm)) (mm_next_dir_handle_id mm) (<[fh:=mdi_set it [] (mdi_next_offset it) true]> (mm_readdir_handles mm))).
  exists mm1, (by_manifest (match outcome_mapM ManifestEntry_try_from rest with Ok _ => Ok tt | Err e => Err e | Panic => Panic end)).
  split; [destruct (outcome_mapM _ rest) as [l'| |]; [by destruct (Hfail l')|done..]|].
  split; [destruct (outcome_mapM _ rest) as [l'| |]; [by destruct (Hfail l')|done..]|].
  destruct (Hskip mm1 (mdi_set it [] (mdi_next_offset it) true)) as [Hread Hseek1]; [simpl; by rewrite lookup_insert_eq|done|].
  change (mdi_parent_id it) with (mdi_parent_id (mdi_set it [] (mdi_next_offset it) true)). rewrite Hread.
  unfold mm_readdir_entries. rewrite Hseek1. simpl. by eexists.
Qed.
End mounted.

(** ** Examples *)

Module ListingExample.
Definition mm0 : ManifestMetablock :=
  {| mm_channels := [channel_path ManifestExample.channel]; mm_mount_time := 7; mm_manifest := ManifestExample.db; mm_next_dir_handle_id := 0;
     mm_readdir_handles := ∅ |}.
(** The directory of the channel was opened, and a first request had room for three entries. *)
Definition opened : ManifestMetablock := (mm_new_readdir_handle mm0 2).1.
Definition room_for (n : nat) (sent : list ManifestDirent) (_ : ManifestDirent) : bool := (length sent <? n)%nat.
Definition iterator : ManifestDirIter := ManifestDirIter_new 2.
Definition listed_once : ManifestMetablock := (mm_readdir (crc := sum_crc) 9 (room_for 3) opened (mdi_parent_id iterator) 0 0).1.1.
(** A directory with a row that has an ETag and no size. *)
Definition bad_row : DbEntry :=
  {| dbe_id := 2; dbe_parent_id := ROOT_INODE_NO; dbe_channel_id := 0; dbe_parent_partial_key := None; dbe_name := str_of "data";
     dbe_etag := Some "e1"; dbe_size := None; dbe_checksum := 0 |}.
Definition bad_mm : ManifestMetablock :=
  {| mm_channels := []; mm_mount_time := 7;
     mm_manifest := {| db_created := true; db_s3_objects := [bad_row]; db_channels := []; db_io := [] |}; mm_next_dir_handle_id := 1;
     mm_readdir_handles := {[ 0 := ManifestDirIter_new ROOT_INODE_NO ]} |}.
End ListingExample.
Import ListingExample.

Lemma manifest_readdir_exact_witness :
  ∃ it mm', mm_readdir_handles listed_once !! 0 = Some it ∧
    mm_readdir (crc := sum_crc) 9 (room_for 8) listed_once 2 0 3 =
    (mm', fill (room_for 8) [] (zdrop 3 (dir_listing 9 ManifestExample.db 7 listed_once 2)), Ok tt).
Proof.
  assert (∃ it, mm_readdir_handles listed_once !! 0 = Some it ∧ mdi_parent_id it = 2) as (it & Hit & Hp) by (vm_compute; by eexists).
  destruct (manifest_readdir_exact (crc := sum_crc) (env := false) [] ManifestExample.open_csv [ManifestExample.channel] ManifestExample.db 7
    mm0 listed_once 9 (room_for 8) 0 it 3) as [[mm' Hread] _].
  - by vm_compute.
  - by vm_compute.
  - by vm_compute.
  - apply dr_read; [|by vm_compute|lia]. apply dr_open; [apply dr_start|]. right.
    destruct (db_s3_objects ManifestExample.db) as [|e rows] eqn:Hrows; [by vm_compute in Hrows|]. exists e. unfold mm0. cbn [mm_manifest].
    rewrite Hrows. split; [left|]. vm_compute in Hrows. by injection Hrows as <- _.
  - done.
  - lia.
  - exists it, mm'. rewrite Hp in Hread. by split.
Defined.

Lemma failed_listing_retries_as_empty_witness :
  ∃ mm1 r, mm_readdir (crc := sum_crc) 9 (room_for 8) bad_mm ROOT_INODE_NO 0 2 = (mm1, [], r) ∧ r ≠ Ok tt ∧
  ∃ mm2, mm_readdir (crc := sum_crc) 9 (room_for 8) mm1 ROOT_INODE_NO 0 2 = (mm2, [], Ok tt).
Proof.
  apply (failed_listing_retries_as_empty (crc := sum_crc) (env := false) 9 (room_for 8) bad_mm 0 (ManifestDirIter_new ROOT_INODE_NO) 2 bad_row); try done; try lia.
  by left.
Defined.
