(* ===== verification/FuseAbi.v ===== *)
(** * The structures that the kernel and the file system exchange

    [mountpoint-s3-fuser/src/ll/fuse_abi.rs] for the version of the protocol that the program is built with (7.28, on Linux), and
    the iterator over the arguments of a request ([ll/argument.rs]).  A structure is a record together with the layout of its
    fields; there is no padding between them ([layout_ok]). *)

From S2P Require Import Prelude BlockFormat ClientChecksums.
Local Open Scope Z_scope.

(** ** Fields *)

Inductive field := U16 | U32 | U64 | I32 | I64.
Definition width (f : field) : nat := match f with U16 => 2 | U32 | I32 => 4 | U64 | I64 => 8 end.
Definition signed (f : field) : bool := match f with I32 | I64 => true | _ => false end.
Definition field_bits (f : field) : Z := 8 * Z.of_nat (width f).
(** The values of a field *)
Definition fits (f : field) (z : Z) : Prop :=
  if signed f then - 2 ^ (field_bits f - 1) ≤ z < 2 ^ (field_bits f - 1) else 0 ≤ z < 2 ^ field_bits f.

(** The program runs on little-endian machines. *)
Fixpoint le_bytes (n : nat) (x : Z) : bytes := match n with O => [] | S n => byte_of x :: le_bytes n (x / 256) end.
Fixpoint from_le_bytes (bs : bytes) : Z := match bs with [] => 0 | b :: bs => byte_val b + 256 * from_le_bytes bs end.
Definition encode_field (f : field) (z : Z) : bytes := le_bytes (width f) (z `mod` 2 ^ field_bits f).
Definition decode_field (f : field) (bs : bytes) : Z :=
  let x := from_le_bytes bs in if signed f && (2 ^ (field_bits f - 1) <=? x) then x - 2 ^ field_bits f else x.

Lemma le_bytes_length n x : length (le_bytes n x) = n.
Proof. revert x. induction n as [|n IH]; intros x; simpl; by rewrite ?IH. Qed.
Lemma from_le_bytes_le n x : 0 ≤ x < 2 ^ (8 * Z.of_nat n) → from_le_bytes (le_bytes n x) = x.
Proof.
  revert x. induction n as [|n IH]; intros x Hx; [simpl in *; lia|]. cbn [le_bytes from_le_bytes].
  assert (2 ^ (8 * Z.of_nat (S n)) = 256 * 2 ^ (8 * Z.of_nat n)) as Hp by (rewrite Nat2Z.inj_succ, Z.mul_succ_r, Z.add_comm, Z.pow_add_r by lia; done).
  rewrite Hp in Hx. rewrite IH.
  - rewrite byte_val_byte_of. pose proof (Z.div_mod x 256). lia.
  - split; [apply Z.div_pos; lia|apply Z.div_lt_upper_bound; lia].
Qed.
Lemma decode_encode_field f z : fits f z → decode_field f (encode_field f z) = z.
Proof.
  intros Hf. unfold decode_field, encode_field. assert (0 < 2 ^ field_bits f) by (by destruct f). pose proof (Z.mod_pos_bound z (2 ^ field_bits f)) as Hb.
  rewrite from_le_bytes_le by (unfold field_bits in *; lia). unfold fits in Hf.
  assert (2 ^ field_bits f = 2 * 2 ^ (field_bits f - 1)) as Hp by (by destruct f). destruct (signed f); simpl; [|by apply Z.mod_small].
  destruct (decide (z < 0)).
  - assert (z `mod` 2 ^ field_bits f = z + 2 ^ field_bits f) as -> by (symmetry; apply (Z.mod_unique_pos _ _ (-1)); lia).
    rewrite (proj2 (Z.leb_le _ _)) by lia. lia.
  - rewrite Z.mod_small by lia. by rewrite (proj2 (Z.leb_gt _ _)) by lia.
Qed.

Lemma le_bytes_from_le bs : le_bytes (length bs) (from_le_bytes bs) = bs.
Proof.
  induction bs as [|b bs IH]; [done|]. cbn [from_le_bytes length le_bytes]. pose proof (Rfc4648.byte_val_bound b). f_equal.
  - apply (Rfc4648.byte_of_byte_val b (from_le_bytes bs)). lia.
  - rewrite Z.add_comm, Z.mul_comm, Z.div_add_l, (Z.div_small (byte_val b)), Z.add_0_r by lia. done.
Qed.
Lemma from_le_bytes_bound bs : 0 ≤ from_le_bytes bs < 2 ^ (8 * Z.of_nat (length bs)).
Proof.
  induction bs as [|b bs IH]; [done|]. cbn [from_le_bytes length]. pose proof (Rfc4648.byte_val_bound b).
  rewrite Nat2Z.inj_succ, Z.mul_succ_r, Z.pow_add_r by lia. lia.
Qed.
Lemma encode_decode_field f bs : length bs = width f → encode_field f (decode_field f bs) = bs.
Proof.
  intros Hl. unfold encode_field, decode_field. pose proof (from_le_bytes_bound bs) as Hb. rewrite Hl in Hb. fold (field_bits f) in Hb.
  assert ((if signed f && (2 ^ (field_bits f - 1) <=? from_le_bytes bs) then from_le_bytes bs - 2 ^ field_bits f else from_le_bytes bs)
    `mod` 2 ^ field_bits f = from_le_bytes bs) as ->.
  { case_match; [|by apply Z.mod_small]. rewrite <-(Z_mod_plus_full _ 1). rewrite Z.mod_small; lia. }
  rewrite <-Hl. apply le_bytes_from_le.
Qed.

Lemma decode_field_fits f bs : length bs = width f → fits f (decode_field f bs).
Proof.
  intros Hl. unfold fits, decode_field. pose proof (from_le_bytes_bound bs) as Hb. rewrite Hl in Hb. fold (field_bits f) in Hb.
  assert (2 ^ field_bits f = 2 * 2 ^ (field_bits f - 1)) as Hp by (by destruct f). destruct (signed f); simpl; [|done].
  destruct (Z.leb_spec (2 ^ (field_bits f - 1)) (from_le_bytes bs)); lia.
Qed.

(** ** Structures *)

Class Abi (T : Type) := { layout : list field; fields : T → list Z; make : list Z → option T }.
Arguments layout T {_}.
Definition sum_widths (fs : list field) : nat := foldr (λ f n, (width f + n)%nat) 0%nat fs.
Definition size_of (T : Type) `{Abi T} : nat := sum_widths (layout T).
Definition align_of (T : Type) `{Abi T} : nat := foldr (λ f n, Nat.max (width f) n) 1%nat (layout T).
(** Every field is at a multiple of its width, so that C leaves no padding. *)
Fixpoint aligned_from (offset : nat) (fs : list field) : bool :=
  match fs with [] => true | f :: fs => (offset mod width f =? 0)%nat && aligned_from (offset + width f) fs end.
Class AbiLaws (T : Type) `{Abi T} := {
  make_fields x : make (fields x) = Some x;
  fields_length x : length (fields x) = length (layout T);
  make_total l : length l = length (layout T) → is_Some (make l);
  fields_make l x : make l = Some x → fields x = l;
  layout_ok : aligned_from 0 (layout T) = true ∧ (size_of T mod align_of T = 0)%nat;
}.
Ltac make_total := intros l Hl; repeat (destruct l as [|? l]; [discriminate Hl|simpl in Hl; apply Nat.succ_inj in Hl]); destruct l; [by eexists|discriminate Hl].
Ltac fields_make := intros l x; repeat (destruct l as [|? l]; [discriminate 1|]); destruct l; [intros [= <-]; reflexivity|discriminate 1].
Ltac abi_laws cases := split; [by cases|by cases|make_total|fields_make|by vm_compute].

Record fuse_attr := { attr_ino : Z; attr_size : Z; attr_blocks : Z; attr_atime : Z; attr_mtime : Z; attr_ctime : Z; attr_atimensec : Z; attr_mtimensec
  : Z; attr_ctimensec : Z; attr_mode : Z; attr_nlink : Z; attr_uid : Z; attr_gid : Z; attr_rdev : Z; attr_blksize : Z; attr_padding : Z }.
#[export] Instance attr_abi : Abi fuse_attr := {|
  layout := [U64; U64; U64; I64; I64; I64; U32; U32; U32; U32; U32; U32; U32; U32; U32; U32];
  fields x := [attr_ino x; attr_size x; attr_blocks x; attr_atime x; attr_mtime x; attr_ctime x; attr_atimensec x; attr_mtimensec x; attr_ctimensec x;
    attr_mode x; attr_nlink x; attr_uid x; attr_gid x; attr_rdev x; attr_blksize x; attr_padding x];
  make l := match l with [a0; a1; a2; a3; a4; a5; a6; a7; a8; a9; a10; a11; a12; a13; a14; a15] => Some (Build_fuse_attr a0 a1 a2 a3 a4 a5 a6 a7 a8 a9
    a10 a11 a12 a13 a14 a15) | _ => None end |}.
#[export] Instance attr_laws : AbiLaws fuse_attr.
Proof. abi_laws ltac:(intros []). Qed.
Record fuse_kstatfs := { kstatfs_blocks : Z; kstatfs_bfree : Z; kstatfs_bavail : Z; kstatfs_files : Z; kstatfs_ffree : Z; kstatfs_bsize : Z;
  kstatfs_namelen : Z; kstatfs_frsize : Z; kstatfs_padding : Z; kstatfs_spare0 : Z; kstatfs_spare1 : Z; kstatfs_spare2 : Z; kstatfs_spare3 : Z;
  kstatfs_spare4 : Z; kstatfs_spare5 : Z }.
#[export] Instance kstatfs_abi : Abi fuse_kstatfs := {|
  layout := [U64; U64; U64; U64; U64; U32; U32; U32; U32; U32; U32; U32; U32; U32; U32];
  fields x := [kstatfs_blocks x; kstatfs_bfree x; kstatfs_bavail x; kstatfs_files x; kstatfs_ffree x; kstatfs_bsize x; kstatfs_namelen x; kstatfs_frsize
    x; kstatfs_padding x; kstatfs_spare0 x; kstatfs_spare1 x; kstatfs_spare2 x; kstatfs_spare3 x; kstatfs_spare4 x; kstatfs_spare5 x];
  make l := match l with [a0; a1; a2; a3; a4; a5; a6; a7; a8; a9; a10; a11; a12; a13; a14] => Some (Build_fuse_kstatfs a0 a1 a2 a3 a4 a5 a6 a7 a8 a9 a10
    a11 a12 a13 a14) | _ => None end |}.
#[export] Instance kstatfs_laws : AbiLaws fuse_kstatfs.
Proof. abi_laws ltac:(intros []). Qed.
Record fuse_file_lock := { file_lock_start : Z; file_lock_end : Z; file_lock_typ : Z; file_lock_pid : Z }.
#[export] Instance file_lock_abi : Abi fuse_file_lock := {|
  layout := [U64; U64; I32; U32];
  fields x := [file_lock_start x; file_lock_end x; file_lock_typ x; file_lock_pid x];
  make l := match l with [a0; a1; a2; a3] => Some (Build_fuse_file_lock a0 a1 a2 a3) | _ => None end |}.
#[export] Instance file_lock_laws : AbiLaws fuse_file_lock.
Proof. abi_laws ltac:(intros []). Qed.
Record fuse_entry_out := { entry_out_nodeid : Z; entry_out_generation : Z; entry_out_entry_valid : Z; entry_out_attr_valid : Z;
  entry_out_entry_valid_nsec : Z; entry_out_attr_valid_nsec : Z; entry_out_attr : fuse_attr }.
#[export] Instance entry_out_abi : Abi fuse_entry_out := {|
  layout := [U64; U64; U64; U64; U32; U32] ++ layout fuse_attr;
  fields x := [entry_out_nodeid x; entry_out_generation x; entry_out_entry_valid x; entry_out_attr_valid x; entry_out_entry_valid_nsec x;
    entry_out_attr_valid_nsec x] ++ fields (entry_out_attr x);
  make l := match l with [a0; a1; a2; a3; a4; a5; a6; a7; a8; a9; a10; a11; a12; a13; a14; a15; a16; a17; a18; a19; a20; a21] => Some
    (Build_fuse_entry_out a0 a1 a2 a3 a4 a5 (Build_fuse_attr a6 a7 a8 a9 a10 a11 a12 a13 a14 a15 a16 a17 a18 a19 a20 a21)) | _ => None end |}.
#[export] Instance entry_out_laws : AbiLaws fuse_entry_out.
Proof. abi_laws ltac:(intros [? ? ? ? ? ? []]). Qed.
Record fuse_forget_in := { forget_in_nlookup : Z }.
#[export] Instance forget_in_abi : Abi fuse_forget_in := {|
  layout := [U64];
  fields x := [forget_in_nlookup x];
  make l := match l with [a0] => Some (Build_fuse_forget_in a0) | _ => None end |}.
#[export] Instance forget_in_laws : AbiLaws fuse_forget_in.
Proof. abi_laws ltac:(intros []). Qed.
Record fuse_forget_one := { forget_one_nodeid : Z; forget_one_nlookup : Z }.
#[export] Instance forget_one_abi : Abi fuse_forget_one := {|
  layout := [U64; U64];
  fields x := [forget_one_nodeid x; forget_one_nlookup x];
  make l := match l with [a0; a1] => Some (Build_fuse_forget_one a0 a1) | _ => None end |}.
#[export] Instance forget_one_laws : AbiLaws fuse_forget_one.
Proof. abi_laws ltac:(intros []). Qed.
Record fuse_batch_forget_in := { batch_forget_in_count : Z; batch_forget_in_dummy : Z }.
#[export] Instance batch_forget_in_abi : Abi fuse_batch_forget_in := {|
  layout := [U32; U32];
  fields x := [batch_forget_in_count x; batch_forget_in_dummy x];
  make l := match l with [a0; a1] => Some (Build_fuse_batch_forget_in a0 a1) | _ => None end |}.
#[export] Instance batch_forget_in_laws : AbiLaws fuse_batch_forget_in.
Proof. abi_laws ltac:(intros []). Qed.
Record fuse_getattr_in := { getattr_in_getattr_flags : Z; getattr_in_dummy : Z; getattr_in_fh : Z }.
#[export] Instance getattr_in_abi : Abi fuse_getattr_in := {|
  layout := [U32; U32; U64];
  fields x := [getattr_in_getattr_flags x; getattr_in_dummy x; getattr_in_fh x];
  make l := match l with [a0; a1; a2] => Some (Build_fuse_getattr_in a0 a1 a2) | _ => None end |}.
#[export] Instance getattr_in_laws : AbiLaws fuse_getattr_in.
Proof. abi_laws ltac:(intros []). Qed.
Record fuse_attr_out := { attr_out_attr_valid : Z; attr_out_attr_valid_nsec : Z; attr_out_dummy : Z; attr_out_attr : fuse_attr }.
#[export] Instance attr_out_abi : Abi fuse_attr_out := {|
  layout := [U64; U32; U32] ++ layout fuse_attr;
  fields x := [attr_out_attr_valid x; attr_out_attr_valid_nsec x; attr_out_dummy x] ++ fields (attr_out_attr x);
  make l := match l with [a0; a1; a2; a3; a4; a5; a6; a7; a8; a9; a10; a11; a12; a13; a14; a15; a16; a17; a18] => Some (Build_fuse_attr_out a0 a1 a2
    (Build_fuse_attr a3 a4 a5 a6 a7 a8 a9 a10 a11 a12 a13 a14 a15 a16 a17 a18)) | _ => None end |}.
#[export] Instance attr_out_laws : AbiLaws fuse_attr_out.
Proof. abi_laws ltac:(intros [? ? ? []]). Qed.
Record fuse_mknod_in := { mknod_in_mode : Z; mknod_in_rdev : Z; mknod_in_umask : Z; mknod_in_padding : Z }.
#[export] Instance mknod_in_abi : Abi fuse_mknod_in := {|
  layout := [U32; U32; U32; U32];
  fields x := [mknod_in_mode x; mknod_in_rdev x; mknod_in_umask x; mknod_in_padding x];
  make l := match l with [a0; a1; a2; a3] => Some (Build_fuse_mknod_in a0 a1 a2 a3) | _ => None end |}.
#[export] Instance mknod_in_laws : AbiLaws fuse_mknod_in.
Proof. abi_laws ltac:(intros []). Qed.
Record fuse_mkdir_in := { mkdir_in_mode : Z; mkdir_in_umask : Z }.
#[export] Instance mkdir_in_abi : Abi fuse_mkdir_in := {|
  layout := [U32; U32];
  fields x := [mkdir_in_mode x; mkdir_in_umask x];
  make l := match l with [a0; a1] => Some (Build_fuse_mkdir_in a0 a1) | _ => None end |}.
#[export] Instance mkdir_in_laws : AbiLaws fuse_mkdir_in.
Proof. abi_laws ltac:(intros []). Qed.
Record fuse_rename_in := { rename_in_newdir : Z }.
#[export] Instance rename_in_abi : Abi fuse_rename_in := {|
  layout := [U64];
  fields x := [rename_in_newdir x];
  make l := match l with [a0] => Some (Build_fuse_rename_in a0) | _ => None end |}.
#[export] Instance rename_in_laws : AbiLaws fuse_rename_in.
Proof. abi_laws ltac:(intros []). Qed.
Record fuse_rename2_in := { rename2_in_newdir : Z; rename2_in_flags : Z; rename2_in_padding : Z }.
#[export] Instance rename2_in_abi : Abi fuse_rename2_in := {|
  layout := [U64; U32; U32];
  fields x := [rename2_in_newdir x; rename2_in_flags x; rename2_in_padding x];
  make l := match l with [a0; a1; a2] => Some (Build_fuse_rename2_in a0 a1 a2) | _ => None end |}.
#[export] Instance rename2_in_laws : AbiLaws fuse_rename2_in.
Proof. abi_laws ltac:(intros []). Qed.
Record fuse_link_in := { link_in_oldnodeid : Z }.
#[export] Instance link_in_abi : Abi fuse_link_in := {|
  layout := [U64];
  fields x := [link_in_oldnodeid x];
  make l := match l with [a0] => Some (Build_fuse_link_in a0) | _ => None end |}.
#[export] Instance link_in_laws : AbiLaws fuse_link_in.
Proof. abi_laws ltac:(intros []). Qed.
Record fuse_setattr_in := { setattr_in_valid : Z; setattr_in_padding : Z; setattr_in_fh : Z; setattr_in_size : Z; setattr_in_lock_owner : Z;
  setattr_in_atime : Z; setattr_in_mtime : Z; setattr_in_ctime : Z; setattr_in_atimensec : Z; setattr_in_mtimensec : Z; setattr_in_ctimensec : Z;
  setattr_in_mode : Z; setattr_in_unused4 : Z; setattr_in_uid : Z; setattr_in_gid : Z; setattr_in_unused5 : Z }.
#[export] Instance setattr_in_abi : Abi fuse_setattr_in := {|
  layout := [U32; U32; U64; U64; U64; I64; I64; I64; U32; U32; U32; U32; U32; U32; U32; U32];
  fields x := [setattr_in_valid x; setattr_in_padding x; setattr_in_fh x; setattr_in_size x; setattr_in_lock_owner x; setattr_in_atime x;
    setattr_in_mtime x; setattr_in_ctime x; setattr_in_atimensec x; setattr_in_mtimensec x; setattr_in_ctimensec x; setattr_in_mode x;
    setattr_in_unused4 x; setattr_in_uid x; setattr_in_gid x; setattr_in_unused5 x];
  make l := match l with [a0; a1; a2; a3; a4; a5; a6; a7; a8; a9; a10; a11; a12; a13; a14; a15] => Some (Build_fuse_setattr_in a0 a1 a2 a3 a4 a5 a6 a7
    a8 a9 a10 a11 a12 a13 a14 a15) | _ => None end |}.
#[export] Instance setattr_in_laws : AbiLaws fuse_setattr_in.
Proof. abi_laws ltac:(intros []). Qed.
Record fuse_open_in := { open_in_flags : Z; open_in_unused : Z }.
#[export] Instance open_in_abi : Abi fuse_open_in := {|
  layout := [I32; U32];
  fields x := [open_in_flags x; open_in_unused x];
  make l := match l with [a0; a1] => Some (Build_fuse_open_in a0 a1) | _ => None end |}.
#[export] Instance open_in_laws : AbiLaws fuse_open_in.
Proof. abi_laws ltac:(intros []). Qed.
Record fuse_create_in := { create_in_flags : Z; create_in_mode : Z; create_in_umask : Z; create_in_padding : Z }.
#[export] Instance create_in_abi : Abi fuse_create_in := {|
  layout := [I32; U32; U32; U32];
  fields x := [create_in_flags x; create_in_mode x; create_in_umask x; create_in_padding x];
  make l := match l with [a0; a1; a2; a3] => Some (Build_fuse_create_in a0 a1 a2 a3) | _ => None end |}.
#[export] Instance create_in_laws : AbiLaws fuse_create_in.
Proof. abi_laws ltac:(intros []). Qed.
Record fuse_open_out := { open_out_fh : Z; open_out_open_flags : Z; open_out_padding : Z }.
#[export] Instance open_out_abi : Abi fuse_open_out := {|
  layout := [U64; U32; U32];
  fields x := [open_out_fh x; open_out_open_flags x; open_out_padding x];
  make l := match l with [a0; a1; a2] => Some (Build_fuse_open_out a0 a1 a2) | _ => None end |}.
#[export] Instance open_out_laws : AbiLaws fuse_open_out.
Proof. abi_laws ltac:(intros []). Qed.
Record fuse_create_out := { create_out_entry : fuse_entry_out; create_out_open : fuse_open_out }.
#[export] Instance create_out_abi : Abi fuse_create_out := {|
  layout := layout fuse_entry_out ++ layout fuse_open_out;
  fields x := fields (create_out_entry x) ++ fields (create_out_open x);
  make l := match l with [a0; a1; a2; a3; a4; a5; a6; a7; a8; a9; a10; a11; a12; a13; a14; a15; a16; a17; a18; a19; a20; a21; a22; a23; a24] => Some
    (Build_fuse_create_out (Build_fuse_entry_out a0 a1 a2 a3 a4 a5 (Build_fuse_attr a6 a7 a8 a9 a10 a11 a12 a13 a14 a15 a16 a17 a18 a19 a20 a21))
    (Build_fuse_open_out a22 a23 a24)) | _ => None end |}.
#[export] Instance create_out_laws : AbiLaws fuse_create_out.
Proof. abi_laws ltac:(intros [[? ? ? ? ? ? []] []]). Qed.
Record fuse_release_in := { release_in_fh : Z; release_in_flags : Z; release_in_release_flags : Z; release_in_lock_owner : Z }.
#[export] Instance release_in_abi : Abi fuse_release_in := {|
  layout := [U64; I32; U32; U64];
  fields x := [release_in_fh x; release_in_flags x; release_in_release_flags x; release_in_lock_owner x];
  make l := match l with [a0; a1; a2; a3] => Some (Build_fuse_release_in a0 a1 a2 a3) | _ => None end |}.
#[export] Instance release_in_laws : AbiLaws fuse_release_in.
Proof. abi_laws ltac:(intros []). Qed.
Record fuse_flush_in := { flush_in_fh : Z; flush_in_unused : Z; flush_in_padding : Z; flush_in_lock_owner : Z }.
#[export] Instance flush_in_abi : Abi fuse_flush_in := {|
  layout := [U64; U32; U32; U64];
  fields x := [flush_in_fh x; flush_in_unused x; flush_in_padding x; flush_in_lock_owner x];
  make l := match l with [a0; a1; a2; a3] => Some (Build_fuse_flush_in a0 a1 a2 a3) | _ => None end |}.
#[export] Instance flush_in_laws : AbiLaws fuse_flush_in.
Proof. abi_laws ltac:(intros []). Qed.
Record fuse_read_in := { read_in_fh : Z; read_in_offset : Z; read_in_size : Z; read_in_read_flags : Z; read_in_lock_owner : Z; read_in_flags : Z;
  read_in_padding : Z }.
#[export] Instance read_in_abi : Abi fuse_read_in := {|
  layout := [U64; I64; U32; U32; U64; I32; U32];
  fields x := [read_in_fh x; read_in_offset x; read_in_size x; read_in_read_flags x; read_in_lock_owner x; read_in_flags x; read_in_padding x];
  make l := match l with [a0; a1; a2; a3; a4; a5; a6] => Some (Build_fuse_read_in a0 a1 a2 a3 a4 a5 a6) | _ => None end |}.
#[export] Instance read_in_laws : AbiLaws fuse_read_in.
Proof. abi_laws ltac:(intros []). Qed.
Record fuse_write_in := { write_in_fh : Z; write_in_offset : Z; write_in_size : Z; write_in_write_flags : Z; write_in_lock_owner : Z; write_in_flags :
  Z; write_in_padding : Z }.
#[export] Instance write_in_abi : Abi fuse_write_in := {|
  layout := [U64; I64; U32; U32; U64; I32; U32];
  fields x := [write_in_fh x; write_in_offset x; write_in_size x; write_in_write_flags x; write_in_lock_owner x; write_in_flags x; write_in_padding x];
  make l := match l with [a0; a1; a2; a3; a4; a5; a6] => Some (Build_fuse_write_in a0 a1 a2 a3 a4 a5 a6) | _ => None end |}.
#[export] Instance write_in_laws : AbiLaws fuse_write_in.
Proof. abi_laws ltac:(intros []). Qed.
Record fuse_write_out := { write_out_size : Z; write_out_padding : Z }.
#[export] Instance write_out_abi : Abi fuse_write_out := {|
  layout := [U32; U32];
  fields x := [write_out_size x; write_out_padding x];
  make l := match l with [a0; a1] => Some (Build_fuse_write_out a0 a1) | _ => None end |}.
#[export] Instance write_out_laws : AbiLaws fuse_write_out.
Proof. abi_laws ltac:(intros []). Qed.
Record fuse_statfs_out := { statfs_out_st : fuse_kstatfs }.
#[export] Instance statfs_out_abi : Abi fuse_statfs_out := {|
  layout := layout fuse_kstatfs;
  fields x := fields (statfs_out_st x);
  make l := match l with [a0; a1; a2; a3; a4; a5; a6; a7; a8; a9; a10; a11; a12; a13; a14] => Some (Build_fuse_statfs_out (Build_fuse_kstatfs a0 a1 a2
    a3 a4 a5 a6 a7 a8 a9 a10 a11 a12 a13 a14)) | _ => None end |}.
#[export] Instance statfs_out_laws : AbiLaws fuse_statfs_out.
Proof. abi_laws ltac:(intros [[]]). Qed.
Record fuse_fsync_in := { fsync_in_fh : Z; fsync_in_fsync_flags : Z; fsync_in_padding : Z }.
#[export] Instance fsync_in_abi : Abi fuse_fsync_in := {|
  layout := [U64; U32; U32];
  fields x := [fsync_in_fh x; fsync_in_fsync_flags x; fsync_in_padding x];
  make l := match l with [a0; a1; a2] => Some (Build_fuse_fsync_in a0 a1 a2) | _ => None end |}.
#[export] Instance fsync_in_laws : AbiLaws fuse_fsync_in.
Proof. abi_laws ltac:(intros []). Qed.
Record fuse_setxattr_in := { setxattr_in_size : Z; setxattr_in_flags : Z }.
#[export] Instance setxattr_in_abi : Abi fuse_setxattr_in := {|
  layout := [U32; I32];
  fields x := [setxattr_in_size x; setxattr_in_flags x];
  make l := match l with [a0; a1] => Some (Build_fuse_setxattr_in a0 a1) | _ => None end |}.
#[export] Instance setxattr_in_laws : AbiLaws fuse_setxattr_in.
Proof. abi_laws ltac:(intros []). Qed.
Record fuse_getxattr_in := { getxattr_in_size : Z; getxattr_in_padding : Z }.
#[export] Instance getxattr_in_abi : Abi fuse_getxattr_in := {|
  layout := [U32; U32];
  fields x := [getxattr_in_size x; getxattr_in_padding x];
  make l := match l with [a0; a1] => Some (Build_fuse_getxattr_in a0 a1) | _ => None end |}.
#[export] Instance getxattr_in_laws : AbiLaws fuse_getxattr_in.
Proof. abi_laws ltac:(intros []). Qed.
Record fuse_getxattr_out := { getxattr_out_size : Z; getxattr_out_padding : Z }.
#[export] Instance getxattr_out_abi : Abi fuse_getxattr_out := {|
  layout := [U32; U32];
  fields x := [getxattr_out_size x; getxattr_out_padding x];
  make l := match l with [a0; a1] => Some (Build_fuse_getxattr_out a0 a1) | _ => None end |}.
#[export] Instance getxattr_out_laws : AbiLaws fuse_getxattr_out.
Proof. abi_laws ltac:(intros []). Qed.
Record fuse_lk_in := { lk_in_fh : Z; lk_in_owner : Z; lk_in_lk : fuse_file_lock; lk_in_lk_flags : Z; lk_in_padding : Z }.
#[export] Instance lk_in_abi : Abi fuse_lk_in := {|
  layout := [U64; U64] ++ layout fuse_file_lock ++ [U32; U32];
  fields x := [lk_in_fh x; lk_in_owner x] ++ fields (lk_in_lk x) ++ [lk_in_lk_flags x; lk_in_padding x];
  make l := match l with [a0; a1; a2; a3; a4; a5; a6; a7] => Some (Build_fuse_lk_in a0 a1 (Build_fuse_file_lock a2 a3 a4 a5) a6 a7) | _ => None end |}.
#[export] Instance lk_in_laws : AbiLaws fuse_lk_in.
Proof. abi_laws ltac:(intros [? ? [] ? ?]). Qed.
Record fuse_lk_out := { lk_out_lk : fuse_file_lock }.
#[export] Instance lk_out_abi : Abi fuse_lk_out := {|
  layout := layout fuse_file_lock;
  fields x := fields (lk_out_lk x);
  make l := match l with [a0; a1; a2; a3] => Some (Build_fuse_lk_out (Build_fuse_file_lock a0 a1 a2 a3)) | _ => None end |}.
#[export] Instance lk_out_laws : AbiLaws fuse_lk_out.
Proof. abi_laws ltac:(intros [[]]). Qed.
Record fuse_access_in := { access_in_mask : Z; access_in_padding : Z }.
#[export] Instance access_in_abi : Abi fuse_access_in := {|
  layout := [I32; U32];
  fields x := [access_in_mask x; access_in_padding x];
  make l := match l with [a0; a1] => Some (Build_fuse_access_in a0 a1) | _ => None end |}.
#[export] Instance access_in_laws : AbiLaws fuse_access_in.
Proof. abi_laws ltac:(intros []). Qed.
Record fuse_init_in := { init_in_major : Z; init_in_minor : Z; init_in_max_readahead : Z; init_in_flags : Z }.
#[export] Instance init_in_abi : Abi fuse_init_in := {|
  layout := [U32; U32; U32; U32];
  fields x := [init_in_major x; init_in_minor x; init_in_max_readahead x; init_in_flags x];
  make l := match l with [a0; a1; a2; a3] => Some (Build_fuse_init_in a0 a1 a2 a3) | _ => None end |}.
#[export] Instance init_in_laws : AbiLaws fuse_init_in.
Proof. abi_laws ltac:(intros []). Qed.
Record fuse_init_out := { init_out_major : Z; init_out_minor : Z; init_out_max_readahead : Z; init_out_flags : Z; init_out_max_background : Z;
  init_out_congestion_threshold : Z; init_out_max_write : Z; init_out_time_gran : Z; init_out_max_pages : Z; init_out_unused2 : Z; init_out_reserved0
  : Z; init_out_reserved1 : Z; init_out_reserved2 : Z; init_out_reserved3 : Z; init_out_reserved4 : Z; init_out_reserved5 : Z; init_out_reserved6 : Z;
  init_out_reserved7 : Z }.
#[export] Instance init_out_abi : Abi fuse_init_out := {|
  layout := [U32; U32; U32; U32; U16; U16; U32; U32; U16; U16; U32; U32; U32; U32; U32; U32; U32; U32];
  fields x := [init_out_major x; init_out_minor x; init_out_max_readahead x; init_out_flags x; init_out_max_background x; init_out_congestion_threshold
    x; init_out_max_write x; init_out_time_gran x; init_out_max_pages x; init_out_unused2 x; init_out_reserved0 x; init_out_reserved1 x;
    init_out_reserved2 x; init_out_reserved3 x; init_out_reserved4 x; init_out_reserved5 x; init_out_reserved6 x; init_out_reserved7 x];
  make l := match l with [a0; a1; a2; a3; a4; a5; a6; a7; a8; a9; a10; a11; a12; a13; a14; a15; a16; a17] => Some (Build_fuse_init_out a0 a1 a2 a3 a4 a5
    a6 a7 a8 a9 a10 a11 a12 a13 a14 a15 a16 a17) | _ => None end |}.
#[export] Instance init_out_laws : AbiLaws fuse_init_out.
Proof. abi_laws ltac:(intros []). Qed.
Record fuse_interrupt_in := { interrupt_in_unique : Z }.
#[export] Instance interrupt_in_abi : Abi fuse_interrupt_in := {|
  layout := [U64];
  fields x := [interrupt_in_unique x];
  make l := match l with [a0] => Some (Build_fuse_interrupt_in a0) | _ => None end |}.
#[export] Instance interrupt_in_laws : AbiLaws fuse_interrupt_in.
Proof. abi_laws ltac:(intros []). Qed.
Record fuse_bmap_in := { bmap_in_block : Z; bmap_in_blocksize : Z; bmap_in_padding : Z }.
#[export] Instance bmap_in_abi : Abi fuse_bmap_in := {|
  layout := [U64; U32; U32];
  fields x := [bmap_in_block x; bmap_in_blocksize x; bmap_in_padding x];
  make l := match l with [a0; a1; a2] => Some (Build_fuse_bmap_in a0 a1 a2) | _ => None end |}.
#[export] Instance bmap_in_laws : AbiLaws fuse_bmap_in.
Proof. abi_laws ltac:(intros []). Qed.
Record fuse_bmap_out := { bmap_out_block : Z }.
#[export] Instance bmap_out_abi : Abi fuse_bmap_out := {|
  layout := [U64];
  fields x := [bmap_out_block x];
  make l := match l with [a0] => Some (Build_fuse_bmap_out a0) | _ => None end |}.
#[export] Instance bmap_out_laws : AbiLaws fuse_bmap_out.
Proof. abi_laws ltac:(intros []). Qed.
Record fuse_ioctl_in := { ioctl_in_fh : Z; ioctl_in_flags : Z; ioctl_in_cmd : Z; ioctl_in_arg : Z; ioctl_in_in_size : Z; ioctl_in_out_size : Z }.
#[export] Instance ioctl_in_abi : Abi fuse_ioctl_in := {|
  layout := [U64; U32; U32; U64; U32; U32];
  fields x := [ioctl_in_fh x; ioctl_in_flags x; ioctl_in_cmd x; ioctl_in_arg x; ioctl_in_in_size x; ioctl_in_out_size x];
  make l := match l with [a0; a1; a2; a3; a4; a5] => Some (Build_fuse_ioctl_in a0 a1 a2 a3 a4 a5) | _ => None end |}.
#[export] Instance ioctl_in_laws : AbiLaws fuse_ioctl_in.
Proof. abi_laws ltac:(intros []). Qed.
Record fuse_ioctl_out := { ioctl_out_result : Z; ioctl_out_flags : Z; ioctl_out_in_iovs : Z; ioctl_out_out_iovs : Z }.
#[export] Instance ioctl_out_abi : Abi fuse_ioctl_out := {|
  layout := [I32; U32; U32; U32];
  fields x := [ioctl_out_result x; ioctl_out_flags x; ioctl_out_in_iovs x; ioctl_out_out_iovs x];
  make l := match l with [a0; a1; a2; a3] => Some (Build_fuse_ioctl_out a0 a1 a2 a3) | _ => None end |}.
#[export] Instance ioctl_out_laws : AbiLaws fuse_ioctl_out.
Proof. abi_laws ltac:(intros []). Qed.
Record fuse_poll_in := { poll_in_fh : Z; poll_in_kh : Z; poll_in_flags : Z; poll_in_events : Z }.
#[export] Instance poll_in_abi : Abi fuse_poll_in := {|
  layout := [U64; U64; U32; U32];
  fields x := [poll_in_fh x; poll_in_kh x; poll_in_flags x; poll_in_events x];
  make l := match l with [a0; a1; a2; a3] => Some (Build_fuse_poll_in a0 a1 a2 a3) | _ => None end |}.
#[export] Instance poll_in_laws : AbiLaws fuse_poll_in.
Proof. abi_laws ltac:(intros []). Qed.
Record fuse_poll_out := { poll_out_revents : Z; poll_out_padding : Z }.
#[export] Instance poll_out_abi : Abi fuse_poll_out := {|
  layout := [U32; U32];
  fields x := [poll_out_revents x; poll_out_padding x];
  make l := match l with [a0; a1] => Some (Build_fuse_poll_out a0 a1) | _ => None end |}.
#[export] Instance poll_out_laws : AbiLaws fuse_poll_out.
Proof. abi_laws ltac:(intros []). Qed.
Record fuse_fallocate_in := { fallocate_in_fh : Z; fallocate_in_offset : Z; fallocate_in_length : Z; fallocate_in_mode : Z; fallocate_in_padding : Z
  }.
#[export] Instance fallocate_in_abi : Abi fuse_fallocate_in := {|
  layout := [U64; I64; I64; I32; U32];
  fields x := [fallocate_in_fh x; fallocate_in_offset x; fallocate_in_length x; fallocate_in_mode x; fallocate_in_padding x];
  make l := match l with [a0; a1; a2; a3; a4] => Some (Build_fuse_fallocate_in a0 a1 a2 a3 a4) | _ => None end |}.
#[export] Instance fallocate_in_laws : AbiLaws fuse_fallocate_in.
Proof. abi_laws ltac:(intros []). Qed.
Record fuse_in_header := { in_header_len : Z; in_header_opcode : Z; in_header_unique : Z; in_header_nodeid : Z; in_header_uid : Z; in_header_gid : Z;
  in_header_pid : Z; in_header_padding : Z }.
#[export] Instance in_header_abi : Abi fuse_in_header := {|
  layout := [U32; U32; U64; U64; U32; U32; U32; U32];
  fields x := [in_header_len x; in_header_opcode x; in_header_unique x; in_header_nodeid x; in_header_uid x; in_header_gid x; in_header_pid x;
    in_header_padding x];
  make l := match l with [a0; a1; a2; a3; a4; a5; a6; a7] => Some (Build_fuse_in_header a0 a1 a2 a3 a4 a5 a6 a7) | _ => None end |}.
#[export] Instance in_header_laws : AbiLaws fuse_in_header.
Proof. abi_laws ltac:(intros []). Qed.
Record fuse_out_header := { out_header_len : Z; out_header_error : Z; out_header_unique : Z }.
#[export] Instance out_header_abi : Abi fuse_out_header := {|
  layout := [U32; I32; U64];
  fields x := [out_header_len x; out_header_error x; out_header_unique x];
  make l := match l with [a0; a1; a2] => Some (Build_fuse_out_header a0 a1 a2) | _ => None end |}.
#[export] Instance out_header_laws : AbiLaws fuse_out_header.
Proof. abi_laws ltac:(intros []). Qed.
Record fuse_dirent := { dirent_ino : Z; dirent_off : Z; dirent_namelen : Z; dirent_typ : Z }.
#[export] Instance dirent_abi : Abi fuse_dirent := {|
  layout := [U64; I64; U32; U32];
  fields x := [dirent_ino x; dirent_off x; dirent_namelen x; dirent_typ x];
  make l := match l with [a0; a1; a2; a3] => Some (Build_fuse_dirent a0 a1 a2 a3) | _ => None end |}.
#[export] Instance dirent_laws : AbiLaws fuse_dirent.
Proof. abi_laws ltac:(intros []). Qed.
Record fuse_direntplus := { direntplus_entry_out : fuse_entry_out; direntplus_dirent : fuse_dirent }.
#[export] Instance direntplus_abi : Abi fuse_direntplus := {|
  layout := layout fuse_entry_out ++ layout fuse_dirent;
  fields x := fields (direntplus_entry_out x) ++ fields (direntplus_dirent x);
  make l := match l with [a0; a1; a2; a3; a4; a5; a6; a7; a8; a9; a10; a11; a12; a13; a14; a15; a16; a17; a18; a19; a20; a21; a22; a23; a24; a25] =>
    Some (Build_fuse_direntplus (Build_fuse_entry_out a0 a1 a2 a3 a4 a5 (Build_fuse_attr a6 a7 a8 a9 a10 a11 a12 a13 a14 a15 a16 a17 a18 a19 a20 a21))
    (Build_fuse_dirent a22 a23 a24 a25)) | _ => None end |}.
#[export] Instance direntplus_laws : AbiLaws fuse_direntplus.
Proof. abi_laws ltac:(intros [[? ? ? ? ? ? []] []]). Qed.
Record fuse_lseek_in := { lseek_in_fh : Z; lseek_in_offset : Z; lseek_in_whence : Z; lseek_in_padding : Z }.
#[export] Instance lseek_in_abi : Abi fuse_lseek_in := {|
  layout := [U64; I64; I32; U32];
  fields x := [lseek_in_fh x; lseek_in_offset x; lseek_in_whence x; lseek_in_padding x];
  make l := match l with [a0; a1; a2; a3] => Some (Build_fuse_lseek_in a0 a1 a2 a3) | _ => None end |}.
#[export] Instance lseek_in_laws : AbiLaws fuse_lseek_in.
Proof. abi_laws ltac:(intros []). Qed.
Record fuse_lseek_out := { lseek_out_offset : Z }.
#[export] Instance lseek_out_abi : Abi fuse_lseek_out := {|
  layout := [I64];
  fields x := [lseek_out_offset x];
  make l := match l with [a0] => Some (Build_fuse_lseek_out a0) | _ => None end |}.
#[export] Instance lseek_out_laws : AbiLaws fuse_lseek_out.
Proof. abi_laws ltac:(intros []). Qed.
Record fuse_copy_file_range_in := { copy_file_range_in_fh_in : Z; copy_file_range_in_off_in : Z; copy_file_range_in_nodeid_out : Z;
  copy_file_range_in_fh_out : Z; copy_file_range_in_off_out : Z; copy_file_range_in_len : Z; copy_file_range_in_flags : Z }.
#[export] Instance copy_file_range_in_abi : Abi fuse_copy_file_range_in := {|
  layout := [U64; I64; U64; U64; I64; U64; U64];
  fields x := [copy_file_range_in_fh_in x; copy_file_range_in_off_in x; copy_file_range_in_nodeid_out x; copy_file_range_in_fh_out x;
    copy_file_range_in_off_out x; copy_file_range_in_len x; copy_file_range_in_flags x];
  make l := match l with [a0; a1; a2; a3; a4; a5; a6] => Some (Build_fuse_copy_file_range_in a0 a1 a2 a3 a4 a5 a6) | _ => None end |}.
#[export] Instance copy_file_range_in_laws : AbiLaws fuse_copy_file_range_in.
Proof. abi_laws ltac:(intros []). Qed.

(** ** Bytes of structures *)

Section bytes.
Context {T : Type} `{abi : Abi T}.
Definition as_bytes (x : T) : bytes := concat (zip_with encode_field (layout T) (fields x)).
Fixpoint split_fields (fs : list field) (data : bytes) : list Z :=
  match fs with [] => [] | f :: fs => decode_field f (take (width f) data) :: split_fields fs (drop (width f) data) end.
(** [zerocopy::Ref::from_prefix] at an aligned address: [None] when there is not enough data *)
Definition from_prefix (data : bytes) : option (T * bytes) :=
  if (length data <? size_of T)%nat then None
  else x ← make (split_fields (layout T) data); Some (x, drop (size_of T) data).
Definition fits_all (x : T) : Prop := Forall2 fits (layout T) (fields x).

Context `{laws : !AbiLaws T}.
#[local] Set Default Proof Using "Type*".
Lemma encode_field_length f z : length (encode_field f z) = width f.
Proof. apply le_bytes_length. Qed.
Lemma fields_bytes_length fs zs : length zs = length fs → length (concat (zip_with encode_field fs zs)) = sum_widths fs.
Proof.
  revert zs. induction fs as [|f fs IH]; intros [|z zs] Hl; try done. cbn [zip_with concat sum_widths foldr]. simpl in Hl.
  rewrite length_app, encode_field_length. f_equal. apply IH. lia.
Qed.
Lemma as_bytes_length x : length (as_bytes x) = size_of T.
Proof. apply fields_bytes_length, fields_length. Qed.
Lemma split_fields_bytes fs zs rest : Forall2 fits fs zs → split_fields fs (concat (zip_with encode_field fs zs) ++ rest) = zs.
Proof.
  induction 1 as [|f z fs zs Hf Hfs IH]; [done|]. cbn [zip_with concat split_fields]. rewrite <-app_assoc.
  rewrite take_app_length', drop_app_length' by (symmetry; apply encode_field_length). by rewrite decode_encode_field, IH.
Qed.
Lemma from_prefix_bytes x rest : fits_all x → from_prefix (as_bytes x ++ rest) = Some (x, rest).
Proof.
  intros Hx. unfold from_prefix. rewrite length_app, as_bytes_length, (proj2 (Nat.ltb_ge _ _)) by lia.
  unfold as_bytes. rewrite split_fields_bytes by done. rewrite make_fields. simpl. by rewrite drop_app_length' by (symmetry; apply as_bytes_length).
Qed.
Lemma bytes_split_fields fs data : (sum_widths fs ≤ length data)%nat →
  concat (zip_with encode_field fs (split_fields fs data)) = take (sum_widths fs) data.
Proof.
  revert data. induction fs as [|f fs IH]; intros data Hl; [done|]. cbn [split_fields zip_with concat sum_widths foldr] in *. fold (sum_widths fs) in *.
  rewrite encode_decode_field by (rewrite length_take; lia). rewrite IH by (rewrite length_drop; lia). apply take_take_drop.
Qed.
Lemma as_bytes_from_prefix data x rest : from_prefix data = Some (x, rest) → as_bytes x ++ rest = data.
Proof.
  unfold from_prefix. destruct (Nat.ltb_spec (length data) (size_of T)) as [|Hl]; [done|].
  destruct (make (split_fields (layout T) data)) as [x'|] eqn:E; [|done]. cbn [mbind option_bind]. intros [= -> <-]. unfold as_bytes.
  rewrite (fields_make _ _ E), bytes_split_fields by done. apply take_drop.
Qed.
Lemma split_fields_fit fs data : (sum_widths fs ≤ length data)%nat → Forall2 fits fs (split_fields fs data).
Proof.
  revert data. induction fs as [|f fs IH]; intros data Hl; [constructor|]. cbn [split_fields sum_widths foldr] in *. fold (sum_widths fs) in *.
  constructor; [apply decode_field_fits; rewrite length_take; lia|apply IH; rewrite length_drop; lia].
Qed.
Lemma from_prefix_fits data x rest : from_prefix data = Some (x, rest) → fits_all x.
Proof.
  unfold from_prefix. destruct (Nat.ltb_spec (length data) (size_of T)) as [|Hl]; [done|].
  destruct (make (split_fields (layout T) data)) as [x'|] eqn:E; [|done]. cbn [mbind option_bind]. intros [= -> <-]. unfold fits_all.
  rewrite (fields_make _ _ E). by apply split_fields_fit.
Qed.
Lemma split_fields_length fs data : length (split_fields fs data) = length fs.
Proof. revert data. induction fs as [|f fs IH]; intros data; simpl; by rewrite ?IH. Qed.
Lemma from_prefix_some data : (size_of T ≤ length data)%nat → ∃ x, from_prefix data = Some (x, drop (size_of T) data).
Proof.
  intros Hl. unfold from_prefix. rewrite (proj2 (Nat.ltb_ge _ _)) by lia.
  destruct (make_total (split_fields (layout T) data)) as [x Hx]; [apply split_fields_length|]. rewrite Hx. by exists x.
Qed.
Lemma from_prefix_none data : (length data < size_of T)%nat → from_prefix data = None.
Proof. intros Hl. unfold from_prefix. by rewrite (proj2 (Nat.ltb_lt _ _)). Qed.
End bytes.

(** ** Arguments of a request

    [ArgumentIterator]; [ai_addr] is the address of the data.  [Err] is [None]. *)
Record ArgumentIterator := { ai_addr : Z; ai_data : bytes }.
Definition ai_len (it : ArgumentIterator) : Z := zlen (ai_data it).
Definition fetch_all (it : ArgumentIterator) : bytes * ArgumentIterator := (ai_data it, {| ai_addr := ai_addr it + zlen (ai_data it); ai_data := [] |}).
Definition fetch (T : Type) `{Abi T} (it : ArgumentIterator) : outcome unit (T * ArgumentIterator) :=
  if negb (ai_addr it `mod` Z.of_nat (align_of T) =? 0) then Panic
  else
    match from_prefix (ai_data it) with
    | None => Err tt
    | Some (x, rest) => Ok (x, {| ai_addr := ai_addr it + Z.of_nat (size_of T); ai_data := rest |})
    end.
Fixpoint read_slice (T : Type) `{Abi T} (count : nat) (data : bytes) : option (list T * bytes) :=
  match count with
  | O => Some ([], data)
  | S count => r ← from_prefix data; rs ← read_slice T count r.2; Some (r.1 :: rs.1, rs.2)
  end.
Definition fetch_slice (T : Type) `{Abi T} (count : Z) (it : ArgumentIterator) : outcome unit (list T * ArgumentIterator) :=
  if negb (ai_addr it `mod` Z.of_nat (align_of T) =? 0) then Panic
  else if zlen (ai_data it) <? count * Z.of_nat (size_of T) then Err tt
  else
    match read_slice T (Z.to_nat count) (ai_data it) with
    | None => Err tt
    | Some (xs, rest) => Ok (xs, {| ai_addr := ai_addr it + count * Z.of_nat (size_of T); ai_data := rest |})
    end.
(** [memchr(0, data)] and the split there *)
Fixpoint break_at_nul (data : bytes) : option (bytes * bytes) :=
  match data with
  | [] => None
  | b :: data => if bool_decide (b = x00) then Some ([], data) else (λ p, (b :: p.1, p.2)) <$> break_at_nul data
  end.
Definition fetch_str (it : ArgumentIterator) : outcome unit (bytes * ArgumentIterator) :=
  match break_at_nul (ai_data it) with
  | None => Err tt
  | Some (s, rest) => Ok (s, {| ai_addr := ai_addr it + zlen s + 1; ai_data := rest |})
  end.

(** ** Operation codes *)

Inductive fuse_opcode :=
| FUSE_LOOKUP | FUSE_FORGET | FUSE_GETATTR | FUSE_SETATTR | FUSE_READLINK | FUSE_SYMLINK | FUSE_MKNOD | FUSE_MKDIR | FUSE_UNLINK | FUSE_RMDIR
| FUSE_RENAME | FUSE_LINK | FUSE_OPEN | FUSE_READ | FUSE_WRITE | FUSE_STATFS | FUSE_RELEASE | FUSE_FSYNC | FUSE_SETXATTR | FUSE_GETXATTR
| FUSE_LISTXATTR | FUSE_REMOVEXATTR | FUSE_FLUSH | FUSE_INIT | FUSE_OPENDIR | FUSE_READDIR | FUSE_RELEASEDIR | FUSE_FSYNCDIR | FUSE_GETLK
| FUSE_SETLK | FUSE_SETLKW | FUSE_ACCESS | FUSE_CREATE | FUSE_INTERRUPT | FUSE_BMAP | FUSE_DESTROY | FUSE_IOCTL | FUSE_POLL | FUSE_NOTIFY_REPLY
| FUSE_BATCH_FORGET | FUSE_FALLOCATE | FUSE_READDIRPLUS | FUSE_RENAME2 | FUSE_LSEEK | FUSE_COPY_FILE_RANGE | CUSE_INIT.
#[export] Instance fuse_opcode_eq : EqDecision fuse_opcode.
Proof. solve_decision. Defined.
Definition opcode_number (op : fuse_opcode) : Z :=
  match op with
  | FUSE_LOOKUP => 1 | FUSE_FORGET => 2 | FUSE_GETATTR => 3 | FUSE_SETATTR => 4 | FUSE_READLINK => 5 | FUSE_SYMLINK => 6 | FUSE_MKNOD => 8
  | FUSE_MKDIR => 9 | FUSE_UNLINK => 10 | FUSE_RMDIR => 11 | FUSE_RENAME => 12 | FUSE_LINK => 13 | FUSE_OPEN => 14 | FUSE_READ => 15
  | FUSE_WRITE => 16 | FUSE_STATFS => 17 | FUSE_RELEASE => 18 | FUSE_FSYNC => 20 | FUSE_SETXATTR => 21 | FUSE_GETXATTR => 22
  | FUSE_LISTXATTR => 23 | FUSE_REMOVEXATTR => 24 | FUSE_FLUSH => 25 | FUSE_INIT => 26 | FUSE_OPENDIR => 27 | FUSE_READDIR => 28
  | FUSE_RELEASEDIR => 29 | FUSE_FSYNCDIR => 30 | FUSE_GETLK => 31 | FUSE_SETLK => 32 | FUSE_SETLKW => 33 | FUSE_ACCESS => 34
  | FUSE_CREATE => 35 | FUSE_INTERRUPT => 36 | FUSE_BMAP => 37 | FUSE_DESTROY => 38 | FUSE_IOCTL => 39 | FUSE_POLL => 40
  | FUSE_NOTIFY_REPLY => 41 | FUSE_BATCH_FORGET => 42 | FUSE_FALLOCATE => 43 | FUSE_READDIRPLUS => 44 | FUSE_RENAME2 => 45
  | FUSE_LSEEK => 46 | FUSE_COPY_FILE_RANGE => 47 | CUSE_INIT => 4096
  end.
Definition opcode_try_from (n : Z) : option fuse_opcode :=
  match n with
  | 1 => Some FUSE_LOOKUP | 2 => Some FUSE_FORGET | 3 => Some FUSE_GETATTR | 4 => Some FUSE_SETATTR | 5 => Some FUSE_READLINK
  | 6 => Some FUSE_SYMLINK | 8 => Some FUSE_MKNOD | 9 => Some FUSE_MKDIR | 10 => Some FUSE_UNLINK | 11 => Some FUSE_RMDIR
  | 12 => Some FUSE_RENAME | 13 => Some FUSE_LINK | 14 => Some FUSE_OPEN | 15 => Some FUSE_READ | 16 => Some FUSE_WRITE
  | 17 => Some FUSE_STATFS | 18 => Some FUSE_RELEASE | 20 => Some FUSE_FSYNC | 21 => Some FUSE_SETXATTR | 22 => Some FUSE_GETXATTR
  | 23 => Some FUSE_LISTXATTR | 24 => Some FUSE_REMOVEXATTR | 25 => Some FUSE_FLUSH | 26 => Some FUSE_INIT | 27 => Some FUSE_OPENDIR
  | 28 => Some FUSE_READDIR | 29 => Some FUSE_RELEASEDIR | 30 => Some FUSE_FSYNCDIR | 31 => Some FUSE_GETLK | 32 => Some FUSE_SETLK
  | 33 => Some FUSE_SETLKW | 34 => Some FUSE_ACCESS | 35 => Some FUSE_CREATE | 36 => Some FUSE_INTERRUPT | 37 => Some FUSE_BMAP
  | 38 => Some FUSE_DESTROY | 39 => Some FUSE_IOCTL | 40 => Some FUSE_POLL | 41 => Some FUSE_NOTIFY_REPLY | 42 => Some FUSE_BATCH_FORGET
  | 43 => Some FUSE_FALLOCATE | 44 => Some FUSE_READDIRPLUS | 45 => Some FUSE_RENAME2 | 46 => Some FUSE_LSEEK
  | 47 => Some FUSE_COPY_FILE_RANGE | 4096 => Some CUSE_INIT
  | _ => None
  end.
Lemma opcode_round_trip op : opcode_try_from (opcode_number op) = Some op.
Proof. by destruct op. Qed.
Lemma opcode_number_of n op : opcode_try_from n = Some op → n = opcode_number op.
Proof. unfold opcode_try_from. intros H. repeat case_match; try discriminate H; by simplify_eq. Qed.
