(* ===== verification/FuseRequest.v ===== *)
(** * Requests of the kernel

    [mountpoint-s3-fuser/src/ll/request.rs]: a request is a header and arguments that depend on its operation code.  The accessors
    of operations give the fields that the file system is called with. *)

From S2P Require Import Prelude BlockFormat FuseAbi.
Local Open Scope Z_scope.

Inductive RequestError := ShortReadHeader (len : Z) | UnknownOperation (opcode : Z) | ShortRead (len total : Z) | InsufficientData.

(** ** Operations

    The structures of the module [op] without their headers *)
Inductive Operation :=
| OpLookup (name : bytes)
| OpForget (arg : fuse_forget_in)
| OpGetAttr (arg : fuse_getattr_in)
| OpSetAttr (arg : fuse_setattr_in)
| OpReadLink
| OpSymLink (target link_name : bytes)
| OpMkNod (arg : fuse_mknod_in) (name : bytes)
| OpMkDir (arg : fuse_mkdir_in) (name : bytes)
| OpUnlink (name : bytes)
| OpRmDir (name : bytes)
| OpRename (arg : fuse_rename_in) (name newname : bytes)
| OpLink (arg : fuse_link_in) (name : bytes)
| OpOpen (arg : fuse_open_in)
| OpRead (arg : fuse_read_in)
| OpWrite (arg : fuse_write_in) (data : bytes)
| OpStatFs
| OpRelease (arg : fuse_release_in)
| OpFSync (arg : fuse_fsync_in)
| OpSetXAttr (arg : fuse_setxattr_in) (name value : bytes)
| OpGetXAttr (arg : fuse_getxattr_in) (name : bytes)
| OpListXAttr (arg : fuse_getxattr_in)
| OpRemoveXAttr (name : bytes)
| OpFlush (arg : fuse_flush_in)
| OpInit (arg : fuse_init_in)
| OpOpenDir (arg : fuse_open_in)
| OpReadDir (arg : fuse_read_in)
| OpReleaseDir (arg : fuse_release_in)
| OpFSyncDir (arg : fuse_fsync_in)
| OpGetLk (arg : fuse_lk_in)
| OpSetLk (arg : fuse_lk_in)
| OpSetLkW (arg : fuse_lk_in)
| OpAccess (arg : fuse_access_in)
| OpCreate (arg : fuse_create_in) (name : bytes)
| OpInterrupt (arg : fuse_interrupt_in)
| OpBMap (arg : fuse_bmap_in)
| OpDestroy
| OpIoCtl (arg : fuse_ioctl_in) (data : bytes)
| OpPoll (arg : fuse_poll_in)
| OpNotifyReply (arg : bytes)
| OpBatchForget (arg : fuse_batch_forget_in) (nodes : list fuse_forget_one)
| OpFAllocate (arg : fuse_fallocate_in)
| OpReadDirPlus (arg : fuse_read_in)
| OpRename2 (arg : fuse_rename2_in) (name newname : bytes) (old_parent : Z)
| OpLseek (arg : fuse_lseek_in)
| OpCopyFileRange (arg : fuse_copy_file_range_in)
| OpCuseInit (arg : fuse_init_in).

Definition fetch1 {T} `{Abi T} (it : ArgumentIterator) (f : T → Operation) : outcome unit Operation := let! a := fetch T it in Ok (f a.1).
Definition op_parse (header : fuse_in_header) (opcode : fuse_opcode) (data : ArgumentIterator) : outcome unit Operation :=
  match opcode with
  | FUSE_LOOKUP => let! name := fetch_str data in Ok (OpLookup name.1)
  | FUSE_FORGET => fetch1 data OpForget
  | FUSE_GETATTR => fetch1 data OpGetAttr
  | FUSE_SETATTR => fetch1 data OpSetAttr
  | FUSE_READLINK => Ok OpReadLink
  | FUSE_SYMLINK => let! link_name := fetch_str data in let! target := fetch_str link_name.2 in Ok (OpSymLink target.1 link_name.1)
  | FUSE_MKNOD => let! arg := fetch fuse_mknod_in data in let! name := fetch_str arg.2 in Ok (OpMkNod arg.1 name.1)
  | FUSE_MKDIR => let! arg := fetch fuse_mkdir_in data in let! name := fetch_str arg.2 in Ok (OpMkDir arg.1 name.1)
  | FUSE_UNLINK => let! name := fetch_str data in Ok (OpUnlink name.1)
  | FUSE_RMDIR => let! name := fetch_str data in Ok (OpRmDir name.1)
  | FUSE_RENAME =>
      let! arg := fetch fuse_rename_in data in let! name := fetch_str arg.2 in let! newname := fetch_str name.2 in Ok (OpRename arg.1 name.1 newname.1)
  | FUSE_LINK => let! arg := fetch fuse_link_in data in let! name := fetch_str arg.2 in Ok (OpLink arg.1 name.1)
  | FUSE_OPEN => fetch1 data OpOpen
  | FUSE_READ => fetch1 data OpRead
  | FUSE_WRITE =>
      let! arg := fetch fuse_write_in data in
      let content := (fetch_all arg.2).1 in
      assert! zlen content =? write_in_size arg.1 in
      Ok (OpWrite arg.1 content)
  | FUSE_STATFS => Ok OpStatFs
  | FUSE_RELEASE => fetch1 data OpRelease
  | FUSE_FSYNC => fetch1 data OpFSync
  | FUSE_SETXATTR =>
      let! arg := fetch fuse_setxattr_in data in
      let! name := fetch_str arg.2 in
      let value := (fetch_all name.2).1 in
      assert! zlen value =? setxattr_in_size arg.1 in
      Ok (OpSetXAttr arg.1 name.1 value)
  | FUSE_GETXATTR => let! arg := fetch fuse_getxattr_in data in let! name := fetch_str arg.2 in Ok (OpGetXAttr arg.1 name.1)
  | FUSE_LISTXATTR => fetch1 data OpListXAttr
  | FUSE_REMOVEXATTR => let! name := fetch_str data in Ok (OpRemoveXAttr name.1)
  | FUSE_FLUSH => fetch1 data OpFlush
  | FUSE_INIT => fetch1 data OpInit
  | FUSE_OPENDIR => fetch1 data OpOpenDir
  | FUSE_READDIR => fetch1 data OpReadDir
  | FUSE_RELEASEDIR => fetch1 data OpReleaseDir
  | FUSE_FSYNCDIR => fetch1 data OpFSyncDir
  | FUSE_GETLK => fetch1 data OpGetLk
  | FUSE_SETLK => fetch1 data OpSetLk
  | FUSE_SETLKW => fetch1 data OpSetLkW
  | FUSE_ACCESS => fetch1 data OpAccess
  | FUSE_CREATE => let! arg := fetch fuse_create_in data in let! name := fetch_str arg.2 in Ok (OpCreate arg.1 name.1)
  | FUSE_INTERRUPT => fetch1 data OpInterrupt
  | FUSE_BMAP => fetch1 data OpBMap
  | FUSE_DESTROY => Ok OpDestroy
  | FUSE_IOCTL => let! arg := fetch fuse_ioctl_in data in Ok (OpIoCtl arg.1 (fetch_all arg.2).1)
  | FUSE_POLL => fetch1 data OpPoll
  | FUSE_NOTIFY_REPLY => Ok (OpNotifyReply (fetch_all data).1)
  | FUSE_BATCH_FORGET =>
      let! arg := fetch fuse_batch_forget_in data in
      let! nodes := fetch_slice fuse_forget_one (batch_forget_in_count arg.1) arg.2 in
      Ok (OpBatchForget arg.1 nodes.1)
  | FUSE_FALLOCATE => fetch1 data OpFAllocate
  | FUSE_READDIRPLUS => fetch1 data OpReadDirPlus
  | FUSE_RENAME2 =>
      let! arg := fetch fuse_rename2_in data in let! name := fetch_str arg.2 in let! newname := fetch_str name.2 in
      Ok (OpRename2 arg.1 name.1 newname.1 (in_header_nodeid header))
  | FUSE_LSEEK => fetch1 data OpLseek
  | FUSE_COPY_FILE_RANGE => fetch1 data OpCopyFileRange
  | CUSE_INIT => fetch1 data OpCuseInit
  end.

(** ** Requests *)

Record AnyRequest := { ar_header : fuse_in_header; ar_data : ArgumentIterator }.
(** The buffer of the request is at the address [addr]. *)
Definition AnyRequest_try_from (addr : Z) (data : bytes) : outcome RequestError AnyRequest :=
  let arg_iter := {| ai_addr := addr; ai_data := data |} in
  let! h := outcome_map_err (λ _, ShortReadHeader (ai_len arg_iter)) (fetch fuse_in_header arg_iter) in
  let header := h.1 in
  if zlen data <? in_header_len header then Err (ShortRead (zlen data) (in_header_len header))
  else
    let size := Z.of_nat (size_of fuse_in_header) in
    assert! size <=? in_header_len header in
    Ok {| ar_header := header; ar_data := {| ai_addr := addr + size; ai_data := zslice size (in_header_len header) data |} |}.
Definition ar_opcode (r : AnyRequest) : option fuse_opcode := opcode_try_from (in_header_opcode (ar_header r)).
Definition ar_operation (r : AnyRequest) : outcome RequestError Operation :=
  match ar_opcode r with
  | None => Err (UnknownOperation (in_header_opcode (ar_header r)))
  | Some opcode => outcome_map_err (λ _, InsufficientData) (op_parse (ar_header r) opcode (ar_data r))
  end.
Definition is_forget (r : AnyRequest) : bool :=
  match ar_opcode r with Some FUSE_FORGET | Some FUSE_BATCH_FORGET => true | _ => false end.

(** ** Accessors *)

Definition flag (flags bit : Z) : bool := negb (Z.land flags bit =? 0).
Definition FATTR_MODE := 1.
Definition FATTR_UID := 2.
Definition FATTR_GID := 4.
Definition FATTR_SIZE := 8.
Definition FATTR_ATIME := 16.
Definition FATTR_MTIME := 32.
Definition FATTR_FH := 64.
Definition FATTR_ATIME_NOW := 128.
Definition FATTR_MTIME_NOW := 256.
Definition FATTR_CTIME := 1024.
Definition FUSE_GETATTR_FH := 1.
Definition FUSE_READ_LOCKOWNER := 2.
Definition FUSE_WRITE_LOCKOWNER := 2.
Definition FUSE_RELEASE_FLUSH := 1.
Definition FUSE_RELEASE_FLOCK_UNLOCK := 2.
Definition FUSE_FSYNC_FDATASYNC := 1.
Definition FUSE_IOCTL_UNRESTRICTED := 2.

(** Times are nanoseconds since the epoch.  Seconds that a [SystemTime] can not hold panic. *)
Definition NANOS : Z := 1000000000.
Definition system_time_from_time (secs nsecs : Z) : outcome Empty_set Z :=
  let t := if 0 <=? secs then secs * NANOS + nsecs else - (- secs * NANOS + nsecs) in
  assert! (- 2 ^ 63 <=? t / NANOS) && (t / NANOS <? 2 ^ 63) in Ok t.
Inductive TimeOrNow := SpecificTime (t : Z) | Now.
Definition getattr_file_handle (a : fuse_getattr_in) : option Z := if flag (getattr_in_getattr_flags a) FUSE_GETATTR_FH then Some (getattr_in_fh a) else None.
Definition setattr_field (a : fuse_setattr_in) (bit value : Z) : option Z := if flag (setattr_in_valid a) bit then Some value else None.
Definition setattr_size (a : fuse_setattr_in) : option Z := setattr_field a FATTR_SIZE (setattr_in_size a).
Definition setattr_time (a : fuse_setattr_in) (bit now_bit secs nsecs : Z) : outcome Empty_set (option TimeOrNow) :=
  if flag (setattr_in_valid a) bit then
    if flag (setattr_in_valid a) now_bit then Ok (Some Now) else let! t := system_time_from_time secs nsecs in Ok (Some (SpecificTime t))
  else Ok None.
Definition setattr_atime (a : fuse_setattr_in) : outcome Empty_set (option TimeOrNow) :=
  setattr_time a FATTR_ATIME FATTR_ATIME_NOW (setattr_in_atime a) (setattr_in_atimensec a).
Definition setattr_mtime (a : fuse_setattr_in) : outcome Empty_set (option TimeOrNow) :=
  setattr_time a FATTR_MTIME FATTR_MTIME_NOW (setattr_in_mtime a) (setattr_in_mtimensec a).
Definition setattr_ctime (a : fuse_setattr_in) : outcome Empty_set (option Z) :=
  if flag (setattr_in_valid a) FATTR_CTIME then let! t := system_time_from_time (setattr_in_ctime a) (setattr_in_ctimensec a) in Ok (Some t) else Ok None.
Definition read_lock_owner (a : fuse_read_in) : option Z := if flag (read_in_read_flags a) FUSE_READ_LOCKOWNER then Some (read_in_lock_owner a) else None.
Definition write_lock_owner (a : fuse_write_in) : option Z := if flag (write_in_write_flags a) FUSE_WRITE_LOCKOWNER then Some (write_in_lock_owner a) else None.
Definition release_flush (a : fuse_release_in) : bool := flag (release_in_release_flags a) FUSE_RELEASE_FLUSH.
Definition release_lock_owner (a : fuse_release_in) : option Z :=
  if flag (release_in_release_flags a) FUSE_RELEASE_FLOCK_UNLOCK then Some (release_in_lock_owner a) else None.
Definition fdatasync (a : fuse_fsync_in) : bool := flag (fsync_in_fsync_flags a) FUSE_FSYNC_FDATASYNC.
Definition ioctl_unrestricted (a : fuse_ioctl_in) : bool := flag (ioctl_in_flags a) FUSE_IOCTL_UNRESTRICTED.
(** [&self.data[..in_size]] *)
Definition ioctl_in_data (a : fuse_ioctl_in) (data : bytes) : outcome Empty_set bytes :=
  assert! ioctl_in_in_size a <=? zlen data in Ok (ztake (ioctl_in_in_size a) data).
