(* ===== verification/FuseReply.v ===== *)
(** * Replies to the kernel

    [mountpoint-s3-fuser/src/ll/reply.rs], the bytes of a response, and [mountpoint-s3-fuser/src/reply.rs], the objects through which a
    file system answers a request once. *)

From S2P Require Import Prelude BlockFormat Path Inode Filesystem FuseAbi FuseRequest.
Local Open Scope Z_scope.

(** ** Responses *)

Inductive Response := ResponseError (errno : Z) | ResponseData (data : bytes) | ResponseSlice (data : bytes).
Definition response_data (r : Response) : bytes := match r with ResponseError _ => [] | ResponseData data | ResponseSlice data => data end.
Definition u32_max : Z := 2 ^ 32 - 1.
(** [TryInto<u32>] *)
Definition to_u32 (z : Z) : outcome Empty_set Z := assert! (0 <=? z) && (z <=? u32_max) in Ok z.
(** What [with_iovec] passes on, as one string *)
Definition with_iovec (unique : Z) (r : Response) : outcome Empty_set bytes :=
  let! len := to_u32 (Z.of_nat (size_of fuse_out_header) + zlen (response_data r)) in
  let header := {| out_header_len := len; out_header_error := match r with ResponseError errno => - errno | _ => 0 end; out_header_unique := unique |} in
  Ok (as_bytes header ++ response_data r).

Definition ERRNO_EIO : Z := 5.
Definition ERRNO_ENOSYS : Z := 38.
Definition ERRNO_EACCES : Z := 13.
Definition ERRNO_EPROTO : Z := 71.
Definition ERRNO_EPERM : Z := 1.
(** [Errno::from_i32] *)
Definition Errno_from_i32 (err : Z) : Z := if err =? 0 then ERRNO_EIO else err.
Definition new_empty : Response := ResponseError 0.
Definition new_error (error : Z) : Response := ResponseError error.
Definition new_data (data : bytes) : Response := ResponseData data.
Definition new_slice (data : bytes) : Response := ResponseSlice data.
Definition from_struct {T} `{Abi T} (x : T) : Response := ResponseData (as_bytes x).

Inductive FileType := NamedPipe | CharDevice | BlockDevice | DirectoryType | RegularFile | Symlink | Socket.
Definition FileType_from (kind : InodeKind) : FileType := match kind with File => RegularFile | Directory => DirectoryType end.
Definition mode_from_kind_and_perm (kind : FileType) (perm : Z) : Z :=
  Z.lor match kind with
        | NamedPipe => 4096 | CharDevice => 8192 | BlockDevice => 24576 | DirectoryType => 16384 | RegularFile => 32768 | Symlink => 40960 | Socket => 49152
        end perm.
Definition time_from_system_time (t : Z) : Z * Z := if 0 <=? t then (t / NANOS, t `mod` NANOS) else (- ((- t) / NANOS), (- t) `mod` NANOS).
Definition fuse_attr_from_attr (attr : FileAttr) : fuse_attr :=
  let '(atime_secs, atime_nanos) := time_from_system_time (fa_atime attr) in
  let '(mtime_secs, mtime_nanos) := time_from_system_time (fa_mtime attr) in
  let '(ctime_secs, ctime_nanos) := time_from_system_time (fa_ctime attr) in
  {| attr_ino := fa_ino attr; attr_size := fa_size attr; attr_blocks := fa_blocks attr; attr_atime := atime_secs; attr_mtime := mtime_secs;
     attr_ctime := ctime_secs; attr_atimensec := atime_nanos; attr_mtimensec := mtime_nanos; attr_ctimensec := ctime_nanos;
     attr_mode := mode_from_kind_and_perm (FileType_from (fa_kind attr)) (fa_perm attr); attr_nlink := fa_nlink attr; attr_uid := fa_uid attr;
     attr_gid := fa_gid attr; attr_rdev := fa_rdev attr; attr_blksize := fa_blksize attr; attr_padding := 0 |}.

(** Durations are nanoseconds. *)
Definition entry_out (ino generation : Z) (attr : fuse_attr) (attr_ttl entry_ttl : Z) : fuse_entry_out :=
  {| entry_out_nodeid := ino; entry_out_generation := generation; entry_out_entry_valid := entry_ttl / NANOS; entry_out_attr_valid := attr_ttl / NANOS;
     entry_out_entry_valid_nsec := entry_ttl `mod` NANOS; entry_out_attr_valid_nsec := attr_ttl `mod` NANOS; entry_out_attr := attr |}.
Definition new_entry (ino generation : Z) (attr : fuse_attr) (attr_ttl entry_ttl : Z) : Response := from_struct (entry_out ino generation attr attr_ttl entry_ttl).
Definition new_attr (ttl : Z) (attr : fuse_attr) : Response :=
  from_struct {| attr_out_attr_valid := ttl / NANOS; attr_out_attr_valid_nsec := ttl `mod` NANOS; attr_out_dummy := 0; attr_out_attr := attr |}.
Definition new_open (fh flags : Z) : Response := from_struct {| open_out_fh := fh; open_out_open_flags := flags; open_out_padding := 0 |}.
Definition new_lock (start end_ typ pid : Z) : Response :=
  from_struct {| lk_out_lk := {| file_lock_start := start; file_lock_end := end_; file_lock_typ := typ; file_lock_pid := pid |} |}.
Definition new_bmap (block : Z) : Response := from_struct {| bmap_out_block := block |}.
Definition new_write (written : Z) : Response := from_struct {| write_out_size := written; write_out_padding := 0 |}.
Definition new_statfs (blocks bfree bavail files ffree bsize namelen frsize : Z) : Response :=
  from_struct {| statfs_out_st := {| kstatfs_blocks := blocks; kstatfs_bfree := bfree; kstatfs_bavail := bavail; kstatfs_files := files; kstatfs_ffree := ffree;
    kstatfs_bsize := bsize; kstatfs_namelen := namelen; kstatfs_frsize := frsize; kstatfs_padding := 0; kstatfs_spare0 := 0; kstatfs_spare1 := 0;
    kstatfs_spare2 := 0; kstatfs_spare3 := 0; kstatfs_spare4 := 0; kstatfs_spare5 := 0 |} |}.
Definition new_create (ttl : Z) (attr : fuse_attr) (generation fh flags : Z) : Response :=
  from_struct {| create_out_entry := entry_out (attr_ino attr) generation attr ttl ttl;
                 create_out_open := {| open_out_fh := fh; open_out_open_flags := flags; open_out_padding := 0 |} |}.
Definition new_ioctl (result : Z) (data : list bytes) : Response :=
  ResponseData (as_bytes {| ioctl_out_result := result; ioctl_out_flags := 0; ioctl_out_in_iovs := 1;
                            ioctl_out_out_iovs := if bool_decide (data = []) then 0 else 1 |} ++ concat data).
Definition new_poll (revents : Z) : Response := from_struct {| poll_out_revents := revents; poll_out_padding := 0 |}.
Definition new_xattr_size (size : Z) : Response := from_struct {| getxattr_out_size := size; getxattr_out_padding := 0 |}.
Definition new_lseek (offset : Z) : Response := from_struct {| lseek_out_offset := offset |}.

(** ** Directories *)

Record EntListBuf := { el_max_size : Z; el_buf : bytes }.
Definition EntListBuf_new (max_size : Z) : EntListBuf := {| el_max_size := max_size; el_buf := [] |}.
(** The result says whether the buffer is full. *)
Definition EntListBuf_push (l : EntListBuf) (ent0 ent1 : bytes) : EntListBuf * bool :=
  let entlen := zlen ent0 + zlen ent1 in
  let entsize := Z.ldiff (entlen + 8 - 1) (8 - 1) in
  if el_max_size l <? zlen (el_buf l) + entsize then (l, true)
  else
    let padlen := entsize - entlen in
    ({| el_max_size := el_max_size l; el_buf := el_buf l ++ ent0 ++ ent1 ++ replicate (Z.to_nat padlen) x00 |}, false).

Record DirEntry := { de_ino : Z; de_off : Z; de_kind : FileType; de_ent_name : bytes }.
Definition DirEntList_push (l : EntListBuf) (ent : DirEntry) : EntListBuf * outcome Empty_set bool :=
  let name := de_ent_name ent in
  match to_u32 (zlen name) with
  | Ok namelen =>
      let header := {| dirent_ino := de_ino ent; dirent_off := de_off ent; dirent_namelen := namelen;
                       dirent_typ := Z.shiftr (mode_from_kind_and_perm (de_kind ent) 0) 12 |} in
      let '(l, full) := EntListBuf_push l (as_bytes header) name in (l, Ok full)
  | _ => (l, Panic)
  end.
Record DirEntryPlus := { dep_generation : Z; dep_offset : Z; dep_name : bytes; dep_entry_valid : Z; dep_attr : fuse_attr; dep_attr_valid : Z }.
Definition direntplus (x : DirEntryPlus) (namelen : Z) : fuse_direntplus :=
  {| direntplus_entry_out := entry_out (attr_ino (dep_attr x)) (dep_generation x) (dep_attr x) (dep_attr_valid x) (dep_entry_valid x);
     direntplus_dirent := {| dirent_ino := attr_ino (dep_attr x); dirent_off := dep_offset x; dirent_namelen := namelen;
                             dirent_typ := Z.shiftr (attr_mode (dep_attr x)) 12 |} |}.
Definition DirEntPlusList_push (l : EntListBuf) (x : DirEntryPlus) : EntListBuf * outcome Empty_set bool :=
  match to_u32 (zlen (dep_name x)) with
  | Ok namelen => let '(l, full) := EntListBuf_push l (as_bytes (direntplus x namelen)) (dep_name x) in (l, Ok full)
  | _ => (l, Panic)
  end.
Definition new_directory (l : EntListBuf) : outcome Empty_set Response := assert! zlen (el_buf l) <=? el_max_size l in Ok (ResponseData (el_buf l)).

(** ** Reply objects

    [ReplyRaw]: it can send while it has its sender, and sends an error when it is dropped with it.  The results are the messages
    that were sent, and whether the code panicked. *)
Record ReplyRaw := { rr_unique : Z; rr_sender : bool }.
Definition ReplyRaw_new (unique : Z) : ReplyRaw := {| rr_unique := unique; rr_sender := true |}.
Definition send_ll_mut (r : ReplyRaw) (response : Response) : ReplyRaw * list bytes * outcome Empty_set unit :=
  if rr_sender r then
    let r := {| rr_unique := rr_unique r; rr_sender := false |} in
    match with_iovec (rr_unique r) response with Ok message => (r, [message], Ok tt) | _ => (r, [], Panic) end
  else (r, [], Panic).
Definition ReplyRaw_drop (r : ReplyRaw) : list bytes * outcome Empty_set unit :=
  if rr_sender r then let '(_, messages, res) := send_ll_mut r (new_error ERRNO_EIO) in (messages, res) else ([], Ok tt).

(** What a handler does with its reply object: it calls one of the methods that consume it, which sends a response; it drops it; or it
    panics before.  The object is dropped at the end, also when a panic unwinds. *)
Definition Answer := outcome Empty_set (option Response).
Definition run_reply (unique : Z) (answer : Answer) : list bytes * outcome Empty_set unit :=
  let r := ReplyRaw_new unique in
  let '(r, messages, res) :=
    match answer with Ok (Some response) => send_ll_mut r response | Ok None => (r, [], Ok tt) | _ => (r, [], Panic) end in
  let '(dropped, res') := ReplyRaw_drop r in
  (messages ++ dropped, let! _ := res in res').

(** The methods of the reply objects *)
Definition reply_error (err : Z) : Answer := assert! negb (err =? 0) in Ok (Some (new_error (Errno_from_i32 err))).
Definition reply_ok : Answer := Ok (Some new_empty).
Definition reply_data (data : bytes) : Answer := Ok (Some (new_slice data)).
Definition reply_entry (ttl : Z) (attr : FileAttr) (generation : Z) : Answer :=
  Ok (Some (new_entry (fa_ino attr) generation (fuse_attr_from_attr attr) ttl ttl)).
Definition ReplyAttr_attr (ttl : Z) (attr : FileAttr) : Answer := Ok (Some (new_attr ttl (fuse_attr_from_attr attr))).
Definition reply_opened (fh flags : Z) : Answer := Ok (Some (new_open fh flags)).
Definition reply_written (size : Z) : Answer := Ok (Some (new_write size)).
Definition reply_statfs (blocks bfree bavail files ffree bsize namelen frsize : Z) : Answer :=
  Ok (Some (new_statfs blocks bfree bavail files ffree bsize namelen frsize)).
Definition reply_created (ttl : Z) (attr : FileAttr) (generation fh flags : Z) : Answer :=
  Ok (Some (new_create ttl (fuse_attr_from_attr attr) generation fh flags)).
Definition reply_locked (start end_ typ pid : Z) : Answer := Ok (Some (new_lock start end_ typ pid)).
Definition reply_bmap (block : Z) : Answer := Ok (Some (new_bmap block)).
Definition reply_ioctl (result : Z) (data : bytes) : Answer := Ok (Some (new_ioctl result [data])).
Definition reply_poll (revents : Z) : Answer := Ok (Some (new_poll revents)).
Definition reply_xattr_size (size : Z) : Answer := Ok (Some (new_xattr_size size)).
Definition reply_offset (offset : Z) : Answer := Ok (Some (new_lseek offset)).
Definition reply_directory (l : EntListBuf) : Answer := let! r := new_directory l in Ok (Some r).
(** [ReplyDirectory::add] and [ReplyDirectoryPlus::add] *)
Definition ReplyDirectory_add (l : EntListBuf) (ino offset : Z) (kind : FileType) (name : bytes) : EntListBuf * outcome Empty_set bool :=
  DirEntList_push l {| de_ino := ino; de_off := offset; de_kind := kind; de_ent_name := name |}.
Definition ReplyDirectoryPlus_add (l : EntListBuf) (offset : Z) (name : bytes) (ttl : Z) (attr : FileAttr) (generation : Z) : EntListBuf * outcome Empty_set bool :=
  DirEntPlusList_push l
    {| dep_generation := generation; dep_offset := offset; dep_name := name; dep_entry_valid := ttl; dep_attr := fuse_attr_from_attr attr; dep_attr_valid := ttl |}.
