(* ===== verification/FuseDispatch.v ===== *)
(** * Dispatching requests

    [KernelConfig] and the trait [Filesystem] ([mountpoint-s3-fuser/src/lib.rs], the trait as a class), the session
    ([mountpoint-s3-fuser/src/session.rs]) and the dispatch of a request ([mountpoint-s3-fuser/src/request.rs]).  The functions return
    the messages that were written to the kernel. *)

From S2P Require Import Prelude BlockFormat Path Inode Filesystem FuseAbi FuseRequest FuseReply.
Local Open Scope Z_scope.

(** ** The configuration of the connection *)

Definition MAX_WRITE_SIZE : Z := 16 * 1024 * 1024.
Definition BUFFER_SIZE : Z := MAX_WRITE_SIZE + 4096.
Definition FUSE_ASYNC_READ : Z := 1.
Definition FUSE_ATOMIC_O_TRUNC : Z := 8.
Definition FUSE_BIG_WRITES : Z := 32.
Definition FUSE_DO_READDIRPLUS : Z := 8192.
Definition FUSE_MAX_PAGES : Z := 4194304.
Definition INIT_FLAGS : Z := Z.lor FUSE_ASYNC_READ FUSE_BIG_WRITES.
Definition default_init_flags (capabilities : Z) : Z := if flag capabilities FUSE_MAX_PAGES then Z.lor INIT_FLAGS FUSE_MAX_PAGES else INIT_FLAGS.

(** [kc_time_gran] is in nanoseconds. *)
Record KernelConfig := {
  kc_capabilities : Z;
  kc_requested : Z;
  kc_max_readahead : Z;
  kc_max_max_readahead : Z;
  kc_max_background : Z;
  kc_congestion_threshold : option Z;
  kc_max_write : Z;
  kc_time_gran : Z;
}.
Implicit Types c : KernelConfig.
Definition KernelConfig_new (capabilities max_readahead : Z) : KernelConfig :=
  {| kc_capabilities := capabilities; kc_requested := default_init_flags capabilities; kc_max_readahead := max_readahead;
     kc_max_max_readahead := max_readahead; kc_max_background := 16; kc_congestion_threshold := None; kc_max_write := MAX_WRITE_SIZE;
     kc_time_gran := 1 |}.

(** The setters give the previous value, or the nearest value that will succeed. *)
Definition set_max_write c (value : Z) : KernelConfig * (Z + Z) :=
  if value =? 0 then (c, inl 1)
  else if MAX_WRITE_SIZE <? value then (c, inl MAX_WRITE_SIZE)
  else ({| kc_capabilities := kc_capabilities c; kc_requested := kc_requested c; kc_max_readahead := kc_max_readahead c;
           kc_max_max_readahead := kc_max_max_readahead c; kc_max_background := kc_max_background c;
           kc_congestion_threshold := kc_congestion_threshold c; kc_max_write := value; kc_time_gran := kc_time_gran c |}, inr (kc_max_write c)).
Definition set_max_readahead c (value : Z) : KernelConfig * (Z + Z) :=
  if value =? 0 then (c, inl 1)
  else if kc_max_max_readahead c <? value then (c, inl (kc_max_max_readahead c))
  else ({| kc_capabilities := kc_capabilities c; kc_requested := kc_requested c; kc_max_readahead := value;
           kc_max_max_readahead := kc_max_max_readahead c; kc_max_background := kc_max_background c;
           kc_congestion_threshold := kc_congestion_threshold c; kc_max_write := kc_max_write c; kc_time_gran := kc_time_gran c |},
        inr (kc_max_readahead c)).
Definition add_capabilities c (capabilities_to_add : Z) : KernelConfig * (Z + unit) :=
  if negb (Z.land capabilities_to_add (kc_capabilities c) =? capabilities_to_add)
  then (c, inl (capabilities_to_add - Z.land capabilities_to_add (kc_capabilities c)))
  else ({| kc_capabilities := kc_capabilities c; kc_requested := Z.lor (kc_requested c) capabilities_to_add; kc_max_readahead := kc_max_readahead c;
           kc_max_max_readahead := kc_max_max_readahead c; kc_max_background := kc_max_background c;
           kc_congestion_threshold := kc_congestion_threshold c; kc_max_write := kc_max_write c; kc_time_gran := kc_time_gran c |}, inr tt).
Definition set_max_background c (value : Z) : KernelConfig * (Z + Z) :=
  if value =? 0 then (c, inl 1)
  else ({| kc_capabilities := kc_capabilities c; kc_requested := kc_requested c; kc_max_readahead := kc_max_readahead c;
           kc_max_max_readahead := kc_max_max_readahead c; kc_max_background := value;
           kc_congestion_threshold := kc_congestion_threshold c; kc_max_write := kc_max_write c; kc_time_gran := kc_time_gran c |},
        inr (kc_max_background c)).
Definition congestion_threshold c : Z :=
  match kc_congestion_threshold c with None => kc_max_background c * 3 / 4 | Some value => Z.min value (kc_max_background c) end.
Definition set_congestion_threshold c (value : Z) : KernelConfig * (Z + Z) :=
  if value =? 0 then (c, inl 1)
  else ({| kc_capabilities := kc_capabilities c; kc_requested := kc_requested c; kc_max_readahead := kc_max_readahead c;
           kc_max_max_readahead := kc_max_max_readahead c; kc_max_background := kc_max_background c;
           kc_congestion_threshold := Some value; kc_max_write := kc_max_write c; kc_time_gran := kc_time_gran c |}, inr (congestion_threshold c)).
(** The loop over powers of ten: [inl] is the power below a value that is none.  Nine rounds reach one second. *)
Fixpoint granularity_loop (fuel : nat) (value power_of_10 : Z) : option (Z + unit) :=
  if power_of_10 <? value then
    if value <? power_of_10 * 10 then Some (inl power_of_10)
    else match fuel with O => None | S fuel => granularity_loop fuel value (power_of_10 * 10) end
  else Some (inr tt).
Definition set_time_granularity c (value : Z) : KernelConfig * option (Z + Z) :=
  if value =? 0 then (c, Some (inl 1))
  else if NANOS <? value then (c, Some (inl NANOS))
  else
    match granularity_loop 9 value 1 with
    | None => (c, None)
    | Some (inl nearest) => (c, Some (inl nearest))
    | Some (inr _) =>
        ({| kc_capabilities := kc_capabilities c; kc_requested := kc_requested c; kc_max_readahead := kc_max_readahead c;
            kc_max_max_readahead := kc_max_max_readahead c; kc_max_background := kc_max_background c;
            kc_congestion_threshold := kc_congestion_threshold c; kc_max_write := kc_max_write c; kc_time_gran := value |},
         Some (inr (kc_time_gran c)))
    end.
(** [as u16 + 1] *)
Definition max_pages (page_size : Z) c : Z := ((Z.max (kc_max_write c) (kc_max_readahead c) - 1) / page_size `mod` 2 ^ 16 + 1) `mod` 2 ^ 16.

(** [Init::reply] *)
Definition init_reply (page_size : Z) (x : fuse_init_in) c : Response :=
  let flags := Z.land (init_in_flags x) (kc_requested c) in
  from_struct {| init_out_major := 7; init_out_minor := 28; init_out_max_readahead := kc_max_readahead c; init_out_flags := flags `mod` 2 ^ 32;
    init_out_max_background := kc_max_background c; init_out_congestion_threshold := congestion_threshold c; init_out_max_write := kc_max_write c;
    init_out_time_gran := kc_time_gran c `mod` 2 ^ 32; init_out_max_pages := max_pages page_size c; init_out_unused2 := 0; init_out_reserved0 := 0;
    init_out_reserved1 := 0; init_out_reserved2 := 0; init_out_reserved3 := 0; init_out_reserved4 := 0; init_out_reserved5 := 0;
    init_out_reserved6 := 0; init_out_reserved7 := 0 |}.

(** ** The trait [Filesystem]

    The methods, and then their default bodies.  Every handler gets the header of the request and the arguments of the request.  The arguments that only macOS sets are left out. *)
Abbreviation handler FS := (FS * Answer)%type.
Class Filesystem (FS : Type) := {
  Filesystem_init : FS → fuse_in_header → KernelConfig → FS * KernelConfig * outcome Z unit;
  Filesystem_destroy : FS → FS * outcome Empty_set unit;
  Filesystem_lookup : FS → fuse_in_header → ∀ (parent : Z) (name : bytes), handler FS;
  Filesystem_forget : FS → fuse_in_header → ∀ (ino nlookup : Z), FS * outcome Empty_set unit;
  Filesystem_batch_forget : FS → fuse_in_header → list fuse_forget_one → FS * outcome Empty_set unit;
  Filesystem_getattr : FS → fuse_in_header → ∀ (ino : Z) (fh : option Z), handler FS;
  Filesystem_setattr : FS → fuse_in_header → ∀ (ino : Z) (mode uid gid size : option Z) (atime mtime : option TimeOrNow) (ctime fh : option Z), handler FS;
  Filesystem_readlink : FS → fuse_in_header → ∀ (ino : Z), handler FS;
  Filesystem_mknod : FS → fuse_in_header → ∀ (parent : Z) (name : bytes) (mode umask rdev : Z), handler FS;
  Filesystem_mkdir : FS → fuse_in_header → ∀ (parent : Z) (name : bytes) (mode umask : Z), handler FS;
  Filesystem_unlink : FS → fuse_in_header → ∀ (parent : Z) (name : bytes), handler FS;
  Filesystem_rmdir : FS → fuse_in_header → ∀ (parent : Z) (name : bytes), handler FS;
  Filesystem_symlink : FS → fuse_in_header → ∀ (parent : Z) (link_name target : bytes), handler FS;
  Filesystem_rename : FS → fuse_in_header → ∀ (parent : Z) (name : bytes) (newparent : Z) (newname : bytes) (flags : Z), handler FS;
  Filesystem_link : FS → fuse_in_header → ∀ (ino newparent : Z) (newname : bytes), handler FS;
  Filesystem_open : FS → fuse_in_header → ∀ (ino flags : Z), handler FS;
  Filesystem_read : FS → fuse_in_header → ∀ (ino fh offset size flags : Z) (lock_owner : option Z), handler FS;
  Filesystem_write : FS → fuse_in_header → ∀ (ino fh offset : Z) (data : bytes) (write_flags flags : Z) (lock_owner : option Z), handler FS;
  Filesystem_flush : FS → fuse_in_header → ∀ (ino fh lock_owner : Z), handler FS;
  Filesystem_release : FS → fuse_in_header → ∀ (ino fh flags : Z) (lock_owner : option Z) (flush : bool), handler FS;
  Filesystem_fsync : FS → fuse_in_header → ∀ (ino fh : Z) (datasync : bool), handler FS;
  Filesystem_opendir : FS → fuse_in_header → ∀ (ino flags : Z), handler FS;
  Filesystem_readdir : FS → fuse_in_header → ∀ (ino fh offset size : Z), handler FS;
  Filesystem_readdirplus : FS → fuse_in_header → ∀ (ino fh offset size : Z), handler FS;
  Filesystem_releasedir : FS → fuse_in_header → ∀ (ino fh flags : Z), handler FS;
  Filesystem_fsyncdir : FS → fuse_in_header → ∀ (ino fh : Z) (datasync : bool), handler FS;
  Filesystem_statfs : FS → fuse_in_header → ∀ (ino : Z), handler FS;
  Filesystem_setxattr : FS → fuse_in_header → ∀ (ino : Z) (name value : bytes) (flags position : Z), handler FS;
  Filesystem_getxattr : FS → fuse_in_header → ∀ (ino : Z) (name : bytes) (size : Z), handler FS;
  Filesystem_listxattr : FS → fuse_in_header → ∀ (ino size : Z), handler FS;
  Filesystem_removexattr : FS → fuse_in_header → ∀ (ino : Z) (name : bytes), handler FS;
  Filesystem_access : FS → fuse_in_header → ∀ (ino mask : Z), handler FS;
  Filesystem_create : FS → fuse_in_header → ∀ (parent : Z) (name : bytes) (mode umask flags : Z), handler FS;
  Filesystem_getlk : FS → fuse_in_header → ∀ (ino fh lock_owner : Z) (lock : fuse_file_lock), handler FS;
  Filesystem_setlk : FS → fuse_in_header → ∀ (ino fh lock_owner : Z) (lock : fuse_file_lock) (sleep : bool), handler FS;
  Filesystem_bmap : FS → fuse_in_header → ∀ (ino blocksize idx : Z), handler FS;
  Filesystem_ioctl : FS → fuse_in_header → ∀ (ino fh flags cmd : Z) (in_data : bytes) (out_size : Z), handler FS;
  Filesystem_poll : FS → fuse_in_header → ∀ (ino fh kernel_handle events flags : Z), handler FS;
  Filesystem_fallocate : FS → fuse_in_header → ∀ (ino fh offset length mode : Z), handler FS;
  Filesystem_lseek : FS → fuse_in_header → ∀ (ino fh offset whence : Z), handler FS;
  Filesystem_copy_file_range : FS → fuse_in_header → ∀ (ino_in fh_in offset_in ino_out fh_out offset_out len flags : Z), handler FS;
}.
(** The default of [batch_forget] *)
Fixpoint default_batch_forget {FS} (forget : FS → Z → Z → FS * outcome Empty_set unit) (fs : FS) (nodes : list fuse_forget_one)
    : FS * outcome Empty_set unit :=
  match nodes with
  | [] => (fs, Ok tt)
  | node :: nodes => let? fs, _forgotten := forget fs (forget_one_nodeid node) (forget_one_nlookup node) in default_batch_forget forget fs nodes
  end.

(** The bodies that the trait gives its methods: a file system that does nothing *)
Definition default_filesystem {FS} : Filesystem FS := {|
  Filesystem_init fs h c := (fs, c, Ok tt);
  Filesystem_destroy fs := (fs, Ok tt);
  Filesystem_lookup fs h parent name := (fs, reply_error ERRNO_ENOSYS);
  Filesystem_forget fs h ino nlookup := (fs, Ok tt);
  Filesystem_batch_forget fs h nodes := default_batch_forget (λ fs ino nlookup, (fs, Ok tt)) fs nodes;
  Filesystem_getattr fs h ino fh := (fs, reply_error ERRNO_ENOSYS);
  Filesystem_setattr fs h ino mode uid gid size atime mtime ctime fh := (fs, reply_error ERRNO_ENOSYS);
  Filesystem_readlink fs h ino := (fs, reply_error ERRNO_ENOSYS);
  Filesystem_mknod fs h parent name mode umask rdev := (fs, reply_error ERRNO_ENOSYS);
  Filesystem_mkdir fs h parent name mode umask := (fs, reply_error ERRNO_ENOSYS);
  Filesystem_unlink fs h parent name := (fs, reply_error ERRNO_ENOSYS);
  Filesystem_rmdir fs h parent name := (fs, reply_error ERRNO_ENOSYS);
  Filesystem_symlink fs h parent link_name target := (fs, reply_error ERRNO_EPERM);
  Filesystem_rename fs h parent name newparent newname flags := (fs, reply_error ERRNO_ENOSYS);
  Filesystem_link fs h ino newparent newname := (fs, reply_error ERRNO_EPERM);
  Filesystem_open fs h ino flags := (fs, reply_opened 0 0);
  Filesystem_read fs h ino fh offset size flags lock_owner := (fs, reply_error ERRNO_ENOSYS);
  Filesystem_write fs h ino fh offset data write_flags flags lock_owner := (fs, reply_error ERRNO_ENOSYS);
  Filesystem_flush fs h ino fh lock_owner := (fs, reply_error ERRNO_ENOSYS);
  Filesystem_release fs h ino fh flags lock_owner flush := (fs, reply_ok);
  Filesystem_fsync fs h ino fh datasync := (fs, reply_error ERRNO_ENOSYS);
  Filesystem_opendir fs h ino flags := (fs, reply_opened 0 0);
  Filesystem_readdir fs h ino fh offset size := (fs, reply_error ERRNO_ENOSYS);
  Filesystem_readdirplus fs h ino fh offset size := (fs, reply_error ERRNO_ENOSYS);
  Filesystem_releasedir fs h ino fh flags := (fs, reply_ok);
  Filesystem_fsyncdir fs h ino fh datasync := (fs, reply_error ERRNO_ENOSYS);
  Filesystem_statfs fs h ino := (fs, reply_statfs 0 0 0 0 0 512 255 0);
  Filesystem_setxattr fs h ino name value flags position := (fs, reply_error ERRNO_ENOSYS);
  Filesystem_getxattr fs h ino name size := (fs, reply_error ERRNO_ENOSYS);
  Filesystem_listxattr fs h ino size := (fs, reply_error ERRNO_ENOSYS);
  Filesystem_removexattr fs h ino name := (fs, reply_error ERRNO_ENOSYS);
  Filesystem_access fs h ino mask := (fs, reply_error ERRNO_ENOSYS);
  Filesystem_create fs h parent name mode umask flags := (fs, reply_error ERRNO_ENOSYS);
  Filesystem_getlk fs h ino fh lock_owner lock := (fs, reply_error ERRNO_ENOSYS);
  Filesystem_setlk fs h ino fh lock_owner lock sleep := (fs, reply_error ERRNO_ENOSYS);
  Filesystem_bmap fs h ino blocksize idx := (fs, reply_error ERRNO_ENOSYS);
  Filesystem_ioctl fs h ino fh flags cmd in_data out_size := (fs, reply_error ERRNO_ENOSYS);
  Filesystem_poll fs h ino fh kernel_handle events flags := (fs, reply_error ERRNO_ENOSYS);
  Filesystem_fallocate fs h ino fh offset length mode := (fs, reply_error ERRNO_ENOSYS);
  Filesystem_lseek fs h ino fh offset whence := (fs, reply_error ERRNO_ENOSYS);
  Filesystem_copy_file_range fs h ino_in fh_in offset_in ino_out fh_out offset_out len flags := (fs, reply_error ERRNO_ENOSYS);
|}.

(** ** The session *)

Inductive SessionACL := AllowAll | RootAndOwner | Owner.
#[export] Instance SessionACL_eq : EqDecision SessionACL.
Proof. solve_decision. Defined.

Section session.
Context {FS : Type} `{!Filesystem FS} (page_size : Z).

Record Session := {
  se_filesystem : FS;
  se_allowed : SessionACL;
  se_session_owner : Z;
  se_proto_major : Z;
  se_proto_minor : Z;
  se_initialized : bool;
  se_destroyed : bool;
}.
Implicit Types se : Session.
(** [Session::from_fd]; [owner] is the effective user. *)
Definition Session_from_fd (fs : FS) (acl : SessionACL) (owner : Z) : Session :=
  {| se_filesystem := fs; se_allowed := acl; se_session_owner := owner; se_proto_major := 0; se_proto_minor := 0; se_initialized := false;
     se_destroyed := false |}.
Definition se_with se (fs : FS) : Session :=
  {| se_filesystem := fs; se_allowed := se_allowed se; se_session_owner := se_session_owner se; se_proto_major := se_proto_major se;
     se_proto_minor := se_proto_minor se; se_initialized := se_initialized se; se_destroyed := se_destroyed se |}.
Definition se_with_version se (major minor : Z) : Session :=
  {| se_filesystem := se_filesystem se; se_allowed := se_allowed se; se_session_owner := se_session_owner se; se_proto_major := major;
     se_proto_minor := minor; se_initialized := se_initialized se; se_destroyed := se_destroyed se |}.
Definition se_with_flags se (initialized destroyed : bool) : Session :=
  {| se_filesystem := se_filesystem se; se_allowed := se_allowed se; se_session_owner := se_session_owner se; se_proto_major := se_proto_major se;
     se_proto_minor := se_proto_minor se; se_initialized := initialized; se_destroyed := destroyed |}.
(** The swap of [destroyed], in [dispatch_req] and in [Drop for Session] *)
Definition destroy_once se : Session * outcome Empty_set unit :=
  let was := se_destroyed se in
  let se := se_with_flags se (se_initialized se) true in
  if was then (se, Ok tt) else let '(fs, r) := Filesystem_destroy (se_filesystem se) in (se_with se fs, r).

(** ** Dispatch *)

Definition denied se (uid : Z) : bool :=
  (bool_decide (se_allowed se = RootAndOwner) && negb (uid =? se_session_owner se) && negb (uid =? 0))
  || (bool_decide (se_allowed se = Owner) && negb (uid =? se_session_owner se)).
(** The operations that the kernel may issue without a user *)
Definition without_uid (op : Operation) : bool :=
  match op with
  | OpInit _ | OpDestroy | OpRead _ | OpReadDir _ | OpReadDirPlus _ | OpBatchForget _ _ | OpForget _ | OpWrite _ _ | OpFSync _ | OpFSyncDir _
  | OpRelease _ | OpReleaseDir _ => true
  | _ => false
  end.

Definition Dispatched : Type := Session * list bytes * outcome Z (option Response).
(** A handler that was given a reply object *)
Definition replied se (unique : Z) (r : FS * Answer) : Dispatched :=
  let '(fs, answer) := r in
  let '(messages, res) := run_reply unique answer in
  (se_with se fs, messages, match res with Ok _ => Ok None | _ => Panic end).
(** A handler without a reply *)
Definition unreplied se (r : FS * outcome Empty_set unit) : Dispatched :=
  let '(fs, res) := r in (se_with se fs, [], match res with Ok _ => Ok None | _ => Panic end).
Definition refuse se (errno : Z) : Dispatched := (se, [], Err errno).
(** Arguments are computed before the reply object is made. *)
Definition with_argument {A} se (a : outcome Empty_set A) (k : A → Dispatched) : Dispatched := match a with Ok a => k a | _ => (se, [], Panic) end.

Definition init_request se (h : fuse_in_header) (x : fuse_init_in) : Dispatched :=
  if (init_in_major x <? 7) || ((init_in_major x =? 7) && (init_in_minor x <? 6)) then refuse se ERRNO_EPROTO
  else
    let se := se_with_version se (init_in_major x) (init_in_minor x) in
    let config := KernelConfig_new (init_in_flags x) (init_in_max_readahead x) in
    let '(fs, config, r) := Filesystem_init (se_filesystem se) h config in
    let se := se_with se fs in
    match r with
    | Ok _ => (se_with_flags se true (se_destroyed se), [], Ok (Some (init_reply page_size x config)))
    | Err errno => refuse se (Errno_from_i32 errno)
    | Panic => (se, [], Panic)
    end.

(** The operations of an initialized file system *)
Definition handle se (h : fuse_in_header) (op : Operation) : Dispatched :=
  let fs := se_filesystem se in
  let ino := in_header_nodeid h in
  let reply := replied se (in_header_unique h) in
  match op with
  | OpInit _ | OpDestroy => refuse se ERRNO_EIO
  | OpInterrupt _ | OpNotifyReply _ | OpCuseInit _ => refuse se ERRNO_ENOSYS
  | OpLookup name => reply (Filesystem_lookup fs h ino name)
  | OpForget x => unreplied se (Filesystem_forget fs h ino (forget_in_nlookup x))
  | OpGetAttr x => reply (Filesystem_getattr fs h ino (getattr_file_handle x))
  | OpSetAttr x =>
      with_argument se (setattr_atime x) (λ atime, with_argument se (setattr_mtime x) (λ mtime, with_argument se (setattr_ctime x) (λ ctime,
        reply (Filesystem_setattr fs h ino (setattr_field x FATTR_MODE (setattr_in_mode x)) (setattr_field x FATTR_UID (setattr_in_uid x))
          (setattr_field x FATTR_GID (setattr_in_gid x)) (setattr_size x) atime mtime ctime (setattr_field x FATTR_FH (setattr_in_fh x))))))
  | OpReadLink => reply (Filesystem_readlink fs h ino)
  | OpMkNod x name => reply (Filesystem_mknod fs h ino name (mknod_in_mode x) (mknod_in_umask x) (mknod_in_rdev x))
  | OpMkDir x name => reply (Filesystem_mkdir fs h ino name (mkdir_in_mode x) (mkdir_in_umask x))
  | OpUnlink name => reply (Filesystem_unlink fs h ino name)
  | OpRmDir name => reply (Filesystem_rmdir fs h ino name)
  | OpSymLink target link_name => reply (Filesystem_symlink fs h ino link_name target)
  | OpRename x name newname => reply (Filesystem_rename fs h ino name (rename_in_newdir x) newname 0)
  | OpLink x name => reply (Filesystem_link fs h (link_in_oldnodeid x) ino name)
  | OpOpen x => reply (Filesystem_open fs h ino (open_in_flags x))
  | OpRead x => reply (Filesystem_read fs h ino (read_in_fh x) (read_in_offset x) (read_in_size x) (read_in_flags x) (read_lock_owner x))
  | OpWrite x data =>
      reply (Filesystem_write fs h ino (write_in_fh x) (write_in_offset x) data (write_in_write_flags x) (write_in_flags x) (write_lock_owner x))
  | OpFlush x => reply (Filesystem_flush fs h ino (flush_in_fh x) (flush_in_lock_owner x))
  | OpRelease x => reply (Filesystem_release fs h ino (release_in_fh x) (release_in_flags x) (release_lock_owner x) (release_flush x))
  | OpFSync x => reply (Filesystem_fsync fs h ino (fsync_in_fh x) (fdatasync x))
  | OpOpenDir x => reply (Filesystem_opendir fs h ino (open_in_flags x))
  | OpReadDir x => reply (Filesystem_readdir fs h ino (read_in_fh x) (read_in_offset x) (read_in_size x))
  | OpReleaseDir x => reply (Filesystem_releasedir fs h ino (release_in_fh x) (release_in_flags x))
  | OpFSyncDir x => reply (Filesystem_fsyncdir fs h ino (fsync_in_fh x) (fdatasync x))
  | OpStatFs => reply (Filesystem_statfs fs h ino)
  | OpSetXAttr x name value => reply (Filesystem_setxattr fs h ino name value (setxattr_in_flags x) 0)
  | OpGetXAttr x name => reply (Filesystem_getxattr fs h ino name (getxattr_in_size x))
  | OpListXAttr x => reply (Filesystem_listxattr fs h ino (getxattr_in_size x))
  | OpRemoveXAttr name => reply (Filesystem_removexattr fs h ino name)
  | OpAccess x => reply (Filesystem_access fs h ino (access_in_mask x))
  | OpCreate x name => reply (Filesystem_create fs h ino name (create_in_mode x) (create_in_umask x) (create_in_flags x))
  | OpGetLk x => reply (Filesystem_getlk fs h ino (lk_in_fh x) (lk_in_owner x) (lk_in_lk x))
  | OpSetLk x => reply (Filesystem_setlk fs h ino (lk_in_fh x) (lk_in_owner x) (lk_in_lk x) false)
  | OpSetLkW x => reply (Filesystem_setlk fs h ino (lk_in_fh x) (lk_in_owner x) (lk_in_lk x) true)
  | OpBMap x => reply (Filesystem_bmap fs h ino (bmap_in_blocksize x) (bmap_in_block x))
  | OpIoCtl x data =>
      if ioctl_unrestricted x then refuse se ERRNO_ENOSYS
      else with_argument se (ioctl_in_data x data) (λ in_data,
        reply (Filesystem_ioctl fs h ino (ioctl_in_fh x) (ioctl_in_flags x) (ioctl_in_cmd x) in_data (ioctl_in_out_size x)))
  | OpPoll x => reply (Filesystem_poll fs h ino (poll_in_fh x) (poll_in_kh x) (poll_in_events x) (poll_in_flags x))
  | OpBatchForget _ nodes => unreplied se (Filesystem_batch_forget fs h nodes)
  | OpFAllocate x => reply (Filesystem_fallocate fs h ino (fallocate_in_fh x) (fallocate_in_offset x) (fallocate_in_length x) (fallocate_in_mode x))
  | OpReadDirPlus x => reply (Filesystem_readdirplus fs h ino (read_in_fh x) (read_in_offset x) (read_in_size x))
  | OpRename2 x name newname old_parent => reply (Filesystem_rename fs h old_parent name (rename2_in_newdir x) newname (rename2_in_flags x))
  | OpLseek x => reply (Filesystem_lseek fs h ino (lseek_in_fh x) (lseek_in_offset x) (lseek_in_whence x))
  | OpCopyFileRange x =>
      with_argument se (to_u32 (copy_file_range_in_flags x)) (λ flags,
        reply (Filesystem_copy_file_range fs h ino (copy_file_range_in_fh_in x) (copy_file_range_in_off_in x) (copy_file_range_in_nodeid_out x)
          (copy_file_range_in_fh_out x) (copy_file_range_in_off_out x) (copy_file_range_in_len x) flags))
  end.

Definition dispatch_req se (req : AnyRequest) : Dispatched :=
  let h := ar_header req in
  match ar_operation req with
  | Panic => (se, [], Panic)
  | Err _ => refuse se ERRNO_ENOSYS
  | Ok op =>
      if denied se (in_header_uid h) && negb (without_uid op) then refuse se ERRNO_EACCES
      else
        match op with
        | OpInit x => init_request se h x
        | _ =>
            if negb (se_initialized se) then refuse se ERRNO_EIO
            else
              match op with
              | OpDestroy => let '(se, r) := destroy_once se in (se, [], match r with Ok _ => Ok (Some new_empty) | _ => Panic end)
              | _ => if se_destroyed se then refuse se ERRNO_EIO else handle se h op
              end
        end
  end.

Definition dispatch se (req : AnyRequest) : Session * list bytes * outcome Empty_set unit :=
  let '(se, messages, res) := dispatch_req se req in
  let send response :=
    match with_iovec (in_header_unique (ar_header req)) response with Ok message => (se, messages ++ [message], Ok tt) | _ => (se, messages, Panic) end in
  match res with
  | Ok None => (se, messages, Ok tt)
  | Ok (Some response) => send response
  | Err errno => send (new_error errno)
  | Panic => (se, messages, Panic)
  end.

(** ** The loop of a session

    What [Channel::receive] returns; the error is [raw_os_error]. *)
Inductive Received := ReceivedRequest (data : bytes) | ReceivedError (errno : option Z).
Inductive LoopEvent := BeforeDispatch (is_forget : bool) | Sent (message : bytes) | AfterDispatch (is_forget : bool).
Inductive LoopEnd := Blocked | LoopExited | LoopFailed (errno : option Z) | LoopPanicked.
(** The offset of [aligned_sub_buf] in a buffer at [addr] *)
Definition aligned_sub_buf (addr alignment : Z) : Z :=
  let off := alignment - addr `mod` alignment in if off =? alignment then 0 else off.
Definition process_request (addr : Z) se (data : bytes) : Session * list LoopEvent * option LoopEnd :=
  match AnyRequest_try_from addr data with
  | Panic => (se, [], Some LoopPanicked)
  | Err _ => (se, [], Some LoopExited)
  | Ok req =>
      let '(se, messages, res) := dispatch se req in
      let events := BeforeDispatch (is_forget req) :: map Sent messages in
      match res with Ok _ => (se, events ++ [AfterDispatch (is_forget req)], None) | _ => (se, events, Some LoopPanicked) end
  end.
(** [process_requests] on what it receives; it blocks at the end of [inputs].  The buffer is at the address [buffer]. *)
Fixpoint process_requests_loop (addr : Z) se (inputs : list Received) : Session * list LoopEvent * LoopEnd :=
  match inputs with
  | [] => (se, [], Blocked)
  | ReceivedRequest data :: inputs =>
      match process_request addr se data with
      | (se, events, Some e) => (se, events, e)
      | (se, events, None) => let '(se, rest, e) := process_requests_loop addr se inputs in (se, events ++ rest, e)
      end
  | ReceivedError errno :: inputs =>
      match errno with
      | Some 2 | Some 4 | Some 11 => process_requests_loop addr se inputs
      | Some 19 => (se, [], LoopExited)
      | _ => (se, [], LoopFailed errno)
      end
  end.
Definition process_requests (buffer : Z) se (inputs : list Received) : Session * list LoopEvent * LoopEnd :=
  process_requests_loop (buffer + aligned_sub_buf buffer (Z.of_nat (align_of fuse_in_header))) se inputs.
End session.
Arguments Session : clear implicits.
