(* ===== verification/FuseFs.v ===== *)
(** * The file system behind the FUSE interface

    [S3FuseFilesystem] of [fuse.rs]: the trait [Filesystem] implemented with [S3Filesystem], with [S3Filesystem::init] of [fs.rs] and the flags
    of [fs/flags.rs]. *)

From S2P Require Import Prelude Checksums Part PartQueue Upload NegativeCache Path HandlesMap Inode Superblock Readdir FileHandles Filesystem ClientChecksums BlockFormat FuseAbi FuseRequest FuseReply FuseDispatch.
Local Open Scope Z_scope.

(** ** Flags and names *)

(** [from_bits_retain] and the tests of [open] and of [open_handle] *)
Definition OpenFlags_from (flags : Z) : OpenFlags :=
  {| o_rdwr := flag flags 2; o_wronly := flag flags 1; o_trunc := flag flags 512; o_append := flag flags 1024; o_direct := flag flags 16384;
     o_sync := flag flags 1052672; o_dsync := flag flags 4096 |}.
Definition RenameFlags_from (flags : Z) : RenameFlags :=
  {| RENAME_NOREPLACE := flag flags 1; RENAME_EXCHANGE := flag flags 2; RENAME_WHITEOUT := flag flags 4 |}.
(** An [OsStr] has the bytes of a name. *)
Definition os_str (name : bytes) : str := map Stdlib.Strings.Ascii.ascii_of_byte name.
Definition os_str_bytes (name : str) : bytes := map Stdlib.Strings.Ascii.byte_of_ascii name.
Lemma os_str_bytes_of name : os_str_bytes (os_str name) = name.
Proof. induction name as [|b name IH]; [done|]. simpl. rewrite IH. f_equal. apply Stdlib.Strings.Ascii.byte_of_ascii_of_byte. Qed.

(** ** The directory replies

    [add] of the repliers of [readdir] and [readdirplus]; a name of 4 GiB, on which it panics, counts as one that does not fit. *)
Definition add_entry (l : EntListBuf) (e : DirectoryEntry) : EntListBuf * outcome Empty_set bool :=
  ReplyDirectory_add l (dent_ino e) (dent_offset e) (FileType_from (fa_kind (dent_attr e))) (os_str_bytes (dent_name e)).
Definition add_entry_plus (l : EntListBuf) (e : DirectoryEntry) : EntListBuf * outcome Empty_set bool :=
  ReplyDirectoryPlus_add l (dent_offset e) (os_str_bytes (dent_name e)) (dent_ttl e) (dent_attr e) (dent_generation e).
Section replier.
Context (add : EntListBuf → DirectoryEntry → EntListBuf * outcome Empty_set bool).
Definition reply_buffer (size : Z) (sent : list DirectoryEntry) : EntListBuf := foldl (λ l e, (add l e).1) (EntListBuf_new size) sent.
Definition reply_room (size : Z) (sent : list DirectoryEntry) (e : DirectoryEntry) : bool :=
  match (add (reply_buffer size sent) e).2 with Ok full => negb full | _ => false end.
End replier.

Section fuse_filesystem.
Context `{crc : Crc32c, env : IntegrityEnv, up : FileUploader, pf : FilePrefetcher, proc : ProcFs}.
Context (prefix : Prefix) (cfg : CacheConfig) (mount_time : Z) (list_ordered : bool) (config : S3FilesystemConfig).
Context (s3 : nat → ∀ c, response c).
(** [max_background_fuse_requests] of the configuration and the environment variables *)
Context (max_background_setting : option Z) (env_max_background env_congestion_threshold : option string).
(** [OffsetDateTime::from] and [OffsetDateTime::now_utc] *)
Context (offset_date_time : Z → outcome Empty_set Z) (now_utc : Z).
(** bounds on the pages of a listing and on the steps of a directory handle *)
Context (pages steps : nat).

(** ** Initialisation *)

Definition parse_env_var_to_u16 (value : string) : outcome Z Z := match parse_uint 65535 value with Some n => Ok n | None => Panic end.
Definition env_var (value : option string) : outcome Z (option Z) :=
  match value with None => Ok None | Some s => let! n := parse_env_var_to_u16 s in Ok (Some n) end.
Definition max_background_fuse_requests : outcome Z (option Z) :=
  match max_background_setting with Some n => Ok (Some n) | None => env_var env_max_background end.
Definition fuse_congestion_threshold : outcome Z (option Z) := env_var env_congestion_threshold.

(** A setting that is refused panics. *)
Definition required {A B} (r : KernelConfig * (A + B)) : KernelConfig * outcome Z unit :=
  let '(c, res) := r in (c, match res with inl _ => Panic | inr _ => Ok tt end).
Definition init (c : KernelConfig) : KernelConfig * outcome Z unit :=
  let c := (add_capabilities c FUSE_DO_READDIRPLUS).1 in
  let? c, max_background := (c, max_background_fuse_requests) in
  let? c, _set := match max_background with Some n => required (set_max_background c n) | None => ((set_max_background c 64).1, Ok tt) end in
  let? c, threshold := (c, fuse_congestion_threshold) in
  let? c, _set := match threshold with Some n => required (set_congestion_threshold c n) | None => (c, Ok tt) end in
  if fc_allow_overwrite config then required (add_capabilities c FUSE_ATOMIC_O_TRUNC) else (c, Ok tt).

(** ** Handlers *)

Definition fuse_error (e : Error) : Answer := reply_error (errno e).
Definition fuse_unsupported (err : Z) : Answer := reply_error err.
Local Abbreviation S3Filesystem := Filesystem.S3Filesystem.
Definition answer {A} (r : S3Filesystem * outcome Error A) (ok : A → Answer) : S3Filesystem * Answer :=
  let '(fs, res) := r in (fs, match res with Ok a => ok a | Err e => fuse_error e | Panic => Panic end).
Definition answer_entry (r : S3Filesystem * outcome Error Entry) : S3Filesystem * Answer :=
  answer r (λ e, reply_entry (en_ttl e) (en_attr e) (en_generation e)).
Definition answer_attr (r : S3Filesystem * outcome Error Attr) : S3Filesystem * Answer := answer r (λ a, ReplyAttr_attr (at_ttl a) (at_attr a)).
Definition answer_opened (r : S3Filesystem * outcome Error Opened) : S3Filesystem * Answer := answer r (λ o, reply_opened (op_fh o) (op_flags o)).
Definition answer_ok (r : S3Filesystem * outcome Error unit) : S3Filesystem * Answer := answer r (λ _, reply_ok).

Definition fuse_forget (fs : S3Filesystem) (ino nlookup : Z) : S3Filesystem * outcome Empty_set unit :=
  let '(fs, r) := forget prefix cfg s3 fs ino nlookup in (fs, match r with Panic => Panic | _ => Ok tt end).
Definition fuse_setattr (fs : S3Filesystem) (ino : Z) (size : option Z) (atime mtime : option TimeOrNow) : S3Filesystem * Answer :=
  let time t : outcome Empty_set (option Z) :=
    match t with
    | None => Ok None
    | Some Now => Ok (Some now_utc)
    | Some (SpecificTime st) => let! t := offset_date_time st in Ok (Some t)
    end in
  match time atime, time mtime with
  | Ok atime, Ok mtime => answer_attr (setattr prefix cfg config s3 fs ino atime mtime size)
  | _, _ => (fs, Panic)
  end.
Definition fuse_readdir (fs : S3Filesystem) (parent fh offset size : Z) : S3Filesystem * Answer :=
  answer (readdir_impl prefix cfg mount_time list_ordered config s3 pages steps fs parent fh offset false (reply_room add_entry size))
    (λ sent, reply_directory (reply_buffer add_entry size sent)).
Definition fuse_readdirplus (fs : S3Filesystem) (parent fh offset size : Z) : S3Filesystem * Answer :=
  answer (readdir_impl prefix cfg mount_time list_ordered config s3 pages steps fs parent fh offset true (reply_room add_entry_plus size))
    (λ sent, reply_directory (reply_buffer add_entry_plus size sent)).

Definition fuse_lookup (fs : S3Filesystem) (parent : Z) (name : bytes) : S3Filesystem * Answer :=
  answer_entry (lookup prefix cfg mount_time config s3 fs parent (os_str name)).
Definition fuse_getattr (fs : S3Filesystem) (ino : Z) : S3Filesystem * Answer :=
  answer_attr (getattr prefix cfg mount_time config s3 fs ino).
Definition fuse_mknod (fs : S3Filesystem) (parent : Z) (name : bytes) (mode : Z) : S3Filesystem * Answer :=
  answer_entry (mknod prefix cfg mount_time config s3 fs parent (os_str name) mode).
Definition fuse_mkdir (fs : S3Filesystem) (parent : Z) (name : bytes) : S3Filesystem * Answer :=
  answer_entry (mkdir prefix cfg mount_time config s3 fs parent (os_str name)).
Definition fuse_unlink (fs : S3Filesystem) (parent : Z) (name : bytes) : S3Filesystem * Answer :=
  answer_ok (unlink prefix cfg mount_time config s3 fs parent (os_str name)).
Definition fuse_rmdir (fs : S3Filesystem) (parent : Z) (name : bytes) : S3Filesystem * Answer :=
  answer_ok (rmdir prefix cfg mount_time s3 fs parent (os_str name)).
Definition fuse_rename (fs : S3Filesystem) (parent : Z) (name : bytes) (newparent : Z) (newname : bytes) (flags : Z) : S3Filesystem * Answer :=
  answer_ok (rename prefix cfg mount_time config s3 fs parent (os_str name) newparent (os_str newname) (RenameFlags_from flags)).
Definition fuse_open (fs : S3Filesystem) (h : fuse_in_header) (ino flags : Z) : S3Filesystem * Answer :=
  answer_opened (open prefix cfg mount_time config s3 fs ino (OpenFlags_from flags) (in_header_pid h)).
Definition fuse_read (fs : S3Filesystem) (ino fh offset size : Z) : S3Filesystem * Answer :=
  answer (read prefix cfg s3 fs ino fh offset size) reply_data.
Definition fuse_write (fs : S3Filesystem) (ino fh offset : Z) (data : bytes) : S3Filesystem * Answer :=
  answer (write prefix cfg s3 fs ino fh offset data) reply_written.
Definition fuse_flush (fs : S3Filesystem) (h : fuse_in_header) (ino fh : Z) : S3Filesystem * Answer :=
  answer_ok (flush prefix cfg s3 fs ino fh (in_header_pid h)).
Definition fuse_release (fs : S3Filesystem) (ino fh : Z) : S3Filesystem * Answer :=
  answer_ok (release prefix cfg s3 fs ino fh).
Definition fuse_fsync (fs : S3Filesystem) (fh : Z) : S3Filesystem * Answer :=
  answer_ok (fsync prefix cfg s3 fs fh).
Definition fuse_opendir (fs : S3Filesystem) (ino : Z) : S3Filesystem * Answer :=
  answer_opened (opendir prefix cfg list_ordered s3 fs ino).
Definition fuse_releasedir (fs : S3Filesystem) (fh : Z) : S3Filesystem * Answer :=
  answer_ok (releasedir fs fh).
Definition fuse_statfs (fs : S3Filesystem) : S3Filesystem * Answer :=
  answer (statfs fs) (λ s, reply_statfs (sf_total_blocks s) (sf_free_blocks s) (sf_available_blocks s) (sf_total_inodes s) (sf_free_inodes s)
      (sf_block_size s) (sf_maximum_name_length s) (sf_fragment_size s)).

(** [impl Filesystem for S3FuseFilesystem]; [destroy], [batch_forget] and [poll] are the defaults of the trait. *)
Definition S3FuseFilesystem : FuseDispatch.Filesystem S3Filesystem := {|
  Filesystem_init fs h c := let '(c, r) := init c in (fs, c, r);
  Filesystem_destroy fs := Filesystem_destroy (Filesystem := default_filesystem) fs;
  Filesystem_lookup fs h parent name := fuse_lookup fs parent name;
  Filesystem_forget fs h ino nlookup := fuse_forget fs ino nlookup;
  Filesystem_batch_forget fs h nodes := default_batch_forget fuse_forget fs nodes;
  Filesystem_getattr fs h ino fh := fuse_getattr fs ino;
  Filesystem_setattr fs h ino mode uid gid size atime mtime ctime fh := fuse_setattr fs ino size atime mtime;
  Filesystem_readlink fs h ino := (fs, fuse_unsupported ERRNO_ENOSYS);
  Filesystem_mknod fs h parent name mode umask rdev := fuse_mknod fs parent name mode;
  Filesystem_mkdir fs h parent name mode umask := fuse_mkdir fs parent name;
  Filesystem_unlink fs h parent name := fuse_unlink fs parent name;
  Filesystem_rmdir fs h parent name := fuse_rmdir fs parent name;
  Filesystem_symlink fs h parent name target := (fs, fuse_unsupported ERRNO_EPERM);
  Filesystem_rename fs h parent name newparent newname flags := fuse_rename fs parent name newparent newname flags;
  Filesystem_link fs h ino newparent newname := (fs, fuse_unsupported ERRNO_EPERM);
  Filesystem_open fs h ino flags := fuse_open fs h ino flags;
  Filesystem_read fs h ino fh offset size flags lock := fuse_read fs ino fh offset size;
  Filesystem_write fs h ino fh offset data write_flags flags lock := fuse_write fs ino fh offset data;
  Filesystem_flush fs h ino fh lock := fuse_flush fs h ino fh;
  Filesystem_release fs h ino fh flags lock flush := fuse_release fs ino fh;
  Filesystem_fsync fs h ino fh datasync := fuse_fsync fs fh;
  Filesystem_opendir fs h ino flags := fuse_opendir fs ino;
  Filesystem_readdir fs h ino fh offset size := fuse_readdir fs ino fh offset size;
  Filesystem_readdirplus fs h ino fh offset size := fuse_readdirplus fs ino fh offset size;
  Filesystem_releasedir fs h ino fh flags := fuse_releasedir fs fh;
  Filesystem_fsyncdir fs h ino fh datasync := (fs, fuse_unsupported ERRNO_ENOSYS);
  Filesystem_statfs fs h ino := fuse_statfs fs;
  Filesystem_setxattr fs h ino name value flags position := (fs, fuse_unsupported ERRNO_ENOSYS);
  Filesystem_getxattr fs h ino name size := (fs, fuse_unsupported ERRNO_ENOSYS);
  Filesystem_listxattr fs h ino size := (fs, fuse_unsupported ERRNO_ENOSYS);
  Filesystem_removexattr fs h ino name := (fs, fuse_unsupported ERRNO_ENOSYS);
  Filesystem_access fs h ino mask := (fs, fuse_unsupported ERRNO_ENOSYS);
  Filesystem_create fs h parent name mode umask flags := (fs, fuse_unsupported ERRNO_ENOSYS);
  Filesystem_getlk fs h ino fh owner lock := (fs, fuse_unsupported ERRNO_ENOSYS);
  Filesystem_setlk fs h ino fh owner lock sleep := (fs, fuse_unsupported ERRNO_ENOSYS);
  Filesystem_bmap fs h ino blocksize idx := (fs, fuse_unsupported ERRNO_ENOSYS);
  Filesystem_ioctl fs h ino fh flags cmd in_data out_size := (fs, fuse_unsupported ERRNO_ENOSYS);
  Filesystem_poll fs h ino fh kh events flags := Filesystem_poll (Filesystem := default_filesystem) fs h ino fh kh events flags;
  Filesystem_fallocate fs h ino fh offset length mode := (fs, fuse_unsupported ERRNO_ENOSYS);
  Filesystem_lseek fs h ino fh offset whence := (fs, fuse_unsupported ERRNO_ENOSYS);
  Filesystem_copy_file_range fs h ino_in fh_in off_in ino_out fh_out off_out len flags := (fs, fuse_unsupported ERRNO_ENOSYS);
|}.
End fuse_filesystem.
