(* ===== verification/FuseWire.v ===== *)
(** * The encoding of requests

    The layout of requests in the FUSE protocol, as the kernel writes them, and that the parser of [mountpoint-s3-fuser/src/ll/request.rs]
    is its inverse and rejects everything else. *)

From S2P Require Import Prelude BlockFormat FuseAbi FuseRequest.
Local Open Scope Z_scope.

(** ** The protocol *)

Definition op_code (op : Operation) : fuse_opcode :=
  match op with
  | OpLookup _ => FUSE_LOOKUP | OpForget _ => FUSE_FORGET | OpGetAttr _ => FUSE_GETATTR | OpSetAttr _ => FUSE_SETATTR | OpReadLink => FUSE_READLINK
  | OpSymLink _ _ => FUSE_SYMLINK | OpMkNod _ _ => FUSE_MKNOD | OpMkDir _ _ => FUSE_MKDIR | OpUnlink _ => FUSE_UNLINK | OpRmDir _ => FUSE_RMDIR
  | OpRename _ _ _ => FUSE_RENAME | OpLink _ _ => FUSE_LINK | OpOpen _ => FUSE_OPEN | OpRead _ => FUSE_READ | OpWrite _ _ => FUSE_WRITE
  | OpStatFs => FUSE_STATFS | OpRelease _ => FUSE_RELEASE | OpFSync _ => FUSE_FSYNC | OpSetXAttr _ _ _ => FUSE_SETXATTR
  | OpGetXAttr _ _ => FUSE_GETXATTR | OpListXAttr _ => FUSE_LISTXATTR | OpRemoveXAttr _ => FUSE_REMOVEXATTR | OpFlush _ => FUSE_FLUSH
  | OpInit _ => FUSE_INIT | OpOpenDir _ => FUSE_OPENDIR | OpReadDir _ => FUSE_READDIR | OpReleaseDir _ => FUSE_RELEASEDIR
  | OpFSyncDir _ => FUSE_FSYNCDIR | OpGetLk _ => FUSE_GETLK | OpSetLk _ => FUSE_SETLK | OpSetLkW _ => FUSE_SETLKW | OpAccess _ => FUSE_ACCESS
  | OpCreate _ _ => FUSE_CREATE | OpInterrupt _ => FUSE_INTERRUPT | OpBMap _ => FUSE_BMAP | OpDestroy => FUSE_DESTROY | OpIoCtl _ _ => FUSE_IOCTL
  | OpPoll _ => FUSE_POLL | OpNotifyReply _ => FUSE_NOTIFY_REPLY | OpBatchForget _ _ => FUSE_BATCH_FORGET | OpFAllocate _ => FUSE_FALLOCATE
  | OpReadDirPlus _ => FUSE_READDIRPLUS | OpRename2 _ _ _ _ => FUSE_RENAME2 | OpLseek _ => FUSE_LSEEK
  | OpCopyFileRange _ => FUSE_COPY_FILE_RANGE | OpCuseInit _ => CUSE_INIT
  end.
Definition cstr (s : bytes) : bytes := s ++ [x00].
Definition op_args (op : Operation) : bytes :=
  match op with
  | OpLookup name | OpUnlink name | OpRmDir name | OpRemoveXAttr name => cstr name
  | OpForget x => as_bytes x | OpGetAttr x => as_bytes x | OpSetAttr x => as_bytes x | OpReadLink | OpStatFs | OpDestroy => []
  | OpSymLink target link_name => cstr link_name ++ cstr target
  | OpMkNod x name => as_bytes x ++ cstr name | OpMkDir x name => as_bytes x ++ cstr name | OpCreate x name => as_bytes x ++ cstr name
  | OpRename x name newname => as_bytes x ++ cstr name ++ cstr newname | OpRename2 x name newname _ => as_bytes x ++ cstr name ++ cstr newname
  | OpLink x name => as_bytes x ++ cstr name | OpGetXAttr x name => as_bytes x ++ cstr name
  | OpOpen x => as_bytes x | OpOpenDir x => as_bytes x | OpRead x => as_bytes x | OpReadDir x => as_bytes x | OpReadDirPlus x => as_bytes x
  | OpWrite x data => as_bytes x ++ data | OpSetXAttr x name value => as_bytes x ++ cstr name ++ value | OpIoCtl x data => as_bytes x ++ data
  | OpRelease x => as_bytes x | OpReleaseDir x => as_bytes x | OpFSync x => as_bytes x | OpFSyncDir x => as_bytes x | OpListXAttr x => as_bytes x
  | OpFlush x => as_bytes x | OpInit x => as_bytes x | OpCuseInit x => as_bytes x | OpGetLk x => as_bytes x | OpSetLk x => as_bytes x
  | OpSetLkW x => as_bytes x | OpAccess x => as_bytes x | OpInterrupt x => as_bytes x | OpBMap x => as_bytes x | OpPoll x => as_bytes x
  | OpNotifyReply data => data | OpBatchForget x nodes => as_bytes x ++ concat (map as_bytes nodes) | OpFAllocate x => as_bytes x
  | OpLseek x => as_bytes x | OpCopyFileRange x => as_bytes x
  end.
(** What the kernel sends: fields fit their types, names have no NUL, the sizes agree with the data. *)
Definition no_nul (s : bytes) : Prop := x00 ∉ s.
Definition op_ok (h : fuse_in_header) (op : Operation) : Prop :=
  match op with
  | OpLookup name | OpUnlink name | OpRmDir name | OpRemoveXAttr name => no_nul name
  | OpForget x => fits_all x | OpGetAttr x => fits_all x | OpSetAttr x => fits_all x | OpReadLink | OpStatFs | OpDestroy => True
  | OpSymLink target link_name => no_nul target ∧ no_nul link_name
  | OpMkNod x name => fits_all x ∧ no_nul name | OpMkDir x name => fits_all x ∧ no_nul name | OpCreate x name => fits_all x ∧ no_nul name
  | OpRename x name newname => fits_all x ∧ no_nul name ∧ no_nul newname
  | OpRename2 x name newname old_parent => fits_all x ∧ no_nul name ∧ no_nul newname ∧ old_parent = in_header_nodeid h
  | OpLink x name => fits_all x ∧ no_nul name | OpGetXAttr x name => fits_all x ∧ no_nul name
  | OpOpen x => fits_all x | OpOpenDir x => fits_all x | OpRead x => fits_all x | OpReadDir x => fits_all x | OpReadDirPlus x => fits_all x
  | OpWrite x data => fits_all x ∧ zlen data = write_in_size x
  | OpSetXAttr x name value => fits_all x ∧ no_nul name ∧ zlen value = setxattr_in_size x
  | OpIoCtl x data => fits_all x
  | OpRelease x => fits_all x | OpReleaseDir x => fits_all x | OpFSync x => fits_all x | OpFSyncDir x => fits_all x | OpListXAttr x => fits_all x
  | OpFlush x => fits_all x | OpInit x => fits_all x | OpCuseInit x => fits_all x | OpGetLk x => fits_all x | OpSetLk x => fits_all x
  | OpSetLkW x => fits_all x | OpAccess x => fits_all x | OpInterrupt x => fits_all x | OpBMap x => fits_all x | OpPoll x => fits_all x
  | OpNotifyReply _ => True
  | OpBatchForget x nodes => fits_all x ∧ zlen nodes = batch_forget_in_count x ∧ Forall fits_all nodes
  | OpFAllocate x => fits_all x | OpLseek x => fits_all x | OpCopyFileRange x => fits_all x
  end.
Definition encode_request (h : fuse_in_header) (op : Operation) : bytes := as_bytes h ++ op_args op.
Definition header_for (h : fuse_in_header) (op : Operation) : Prop :=
  fits_all h ∧ in_header_opcode h = opcode_number (op_code op) ∧ in_header_len h = zlen (encode_request h op).

(** ** Fetching what was written *)

Lemma aligned_8 T `{Abi T} addr : addr `mod` 8 = 0 → 8 `mod` Z.of_nat (align_of T) = 0 → addr `mod` Z.of_nat (align_of T) = 0.
Proof.
  assert (0 < Z.of_nat (align_of T)) by (unfold align_of; induction (layout T); simpl; lia). intros Ha H8.
  apply Z.mod_divide; [lia|]. etrans; apply Z.mod_divide; [..|exact Ha]; [|done|]; lia.
Qed.
Lemma aligned_next addr n : addr `mod` 8 = 0 → n `mod` 8 = 0 → (addr + n) `mod` 8 = 0.
Proof. intros H1 H2. by rewrite Z.add_mod, H1, H2. Qed.
Lemma fetch_bytes {T} `{Abi T} `{!AbiLaws T} addr (x : T) rest : addr `mod` 8 = 0 → 8 `mod` Z.of_nat (align_of T) = 0 → fits_all x →
  fetch T {| ai_addr := addr; ai_data := as_bytes x ++ rest |} = Ok (x, {| ai_addr := addr + Z.of_nat (size_of T); ai_data := rest |}).
Proof.
  intros Ha H8 Hx. unfold fetch. cbn [ai_addr ai_data]. by rewrite from_prefix_bytes, (aligned_8 T addr).
Qed.
Lemma break_at_cstr s rest : no_nul s → break_at_nul (cstr s ++ rest) = Some (s, rest).
Proof.
  unfold no_nul, cstr. induction s as [|b s IH]; intros Hs; [done|]. simpl. apply not_elem_of_cons in Hs as [Hb Hs].
  rewrite bool_decide_false by congruence. by rewrite IH.
Qed.
Lemma fetch_cstr addr s rest : no_nul s →
  fetch_str {| ai_addr := addr; ai_data := cstr s ++ rest |} = Ok (s, {| ai_addr := addr + zlen s + 1; ai_data := rest |}).
Proof. intros Hs. unfold fetch_str. cbn [ai_addr ai_data]. by rewrite break_at_cstr. Qed.
Lemma fetch_cstr_end addr s : no_nul s → fetch_str {| ai_addr := addr; ai_data := cstr s |} = Ok (s, {| ai_addr := addr + zlen s + 1; ai_data := [] |}).
Proof. intros Hs. rewrite <-(app_nil_r (cstr s)). by apply fetch_cstr. Qed.
Lemma fetch1_bytes {T} `{Abi T} `{!AbiLaws T} addr (x : T) (f : T → Operation) : addr `mod` 8 = 0 → 8 `mod` Z.of_nat (align_of T) = 0 → fits_all x →
  fetch1 {| ai_addr := addr; ai_data := as_bytes x |} f = Ok (f x).
Proof. intros. unfold fetch1. rewrite <-(app_nil_r (as_bytes x)), fetch_bytes by done. done. Qed.
Lemma read_slice_bytes {T} `{Abi T} `{!AbiLaws T} (xs : list T) rest : Forall fits_all xs →
  read_slice T (length xs) (concat (map as_bytes xs) ++ rest) = Some (xs, rest).
Proof.
  induction 1 as [|x xs Hx Hxs IH]; [done|]. cbn [map concat length read_slice]. rewrite <-app_assoc, from_prefix_bytes by done.
  cbn [mbind option_bind fst snd]. by rewrite IH.
Qed.
Lemma fetch_slice_bytes {T} `{Abi T} `{!AbiLaws T} addr (xs : list T) : addr `mod` Z.of_nat (align_of T) = 0 → Forall fits_all xs →
  fetch_slice T (zlen xs) {| ai_addr := addr; ai_data := concat (map as_bytes xs) |} =
    Ok (xs, {| ai_addr := addr + zlen xs * Z.of_nat (size_of T); ai_data := [] |}).
Proof.
  intros Ha Hx. unfold fetch_slice. cbn [ai_addr ai_data]. rewrite Ha. simpl. rewrite (proj2 (Z.ltb_ge _ _)).
  - unfold zlen. rewrite Nat2Z.id, <-(app_nil_r (concat _)), read_slice_bytes by done. done.
  - clear Hx Ha. induction xs as [|x xs IH]; [done|]. cbn [map concat]. rewrite zlen_app, zlen_cons. unfold zlen at 2. rewrite as_bytes_length. lia.
Qed.

(** Requests that the kernel writes are understood. *)
Lemma op_parse_bytes h op addr : addr `mod` 8 = 0 → op_ok h op → op_parse h (op_code op) {| ai_addr := addr; ai_data := op_args op |} = Ok op.
Proof.
  intros Ha Hok. destruct op; cbn [op_ok op_code op_args op_parse] in *; destruct_and?; subst; try done;
    repeat first
      [ rewrite fetch1_bytes by done | rewrite fetch_bytes by done | rewrite fetch_cstr_end by done | rewrite fetch_cstr by done
      | progress cbn [outcome_bind fst snd fetch_all ai_data ai_addr] ]; try done.
  - by rewrite (proj2 (Z.eqb_eq _ _)).
  - by rewrite (proj2 (Z.eqb_eq _ _)).
  - match goal with H : _ = batch_forget_in_count _ |- _ => rewrite <-H end. rewrite fetch_slice_bytes; [done| |done].
    by apply aligned_next.
Qed.

(** ** What is fetched was written *)

Lemma fetch_ok {T} `{Abi T} `{!AbiLaws T} it (x : T) it' : fetch T it = Ok (x, it') →
  ai_data it = as_bytes x ++ ai_data it' ∧ ai_addr it' = ai_addr it + Z.of_nat (size_of T) ∧ fits_all x.
Proof.
  unfold fetch. case_match; [done|]. destruct (from_prefix (ai_data it)) as [[y rest]|] eqn:E; [|done]. intros [= -> <-]. simpl.
  split; [symmetry; by apply as_bytes_from_prefix|]. split; [done|]. by eapply from_prefix_fits.
Qed.
Lemma fetch_str_ok it s it' : fetch_str it = Ok (s, it') → ai_data it = cstr s ++ ai_data it' ∧ no_nul s.
Proof.
  unfold fetch_str. destruct (break_at_nul (ai_data it)) as [[s1 rest]|] eqn:E; [|done]. intros [= -> <-]. simpl. revert s E.
  induction (ai_data it) as [|b data IH]; intros s E; simpl in E; [done|]. case_bool_decide as Hb.
  - injection E as <- <-. subst. split; [done|]. apply not_elem_of_nil.
  - destruct (break_at_nul data) as [[s2 rest2]|]; [|done]. injection E as <- <-. destruct (IH _ eq_refl) as [-> Hn]. simpl. split; [done|].
    apply not_elem_of_cons. by split; [congruence|].
Qed.
Lemma fetch_slice_ok {T} `{Abi T} `{laws : !AbiLaws T} n it (xs : list T) it' : 0 ≤ n → fetch_slice T n it = Ok (xs, it') →
  ai_data it = concat (map as_bytes xs) ++ ai_data it' ∧ zlen xs = n ∧ Forall fits_all xs.
Proof.
  intros Hn. unfold fetch_slice. do 2 (case_match; [done|]). destruct (read_slice T (Z.to_nat n) (ai_data it)) as [[ys rest]|] eqn:E; [|done].
  intros [= -> <-]. simpl. rewrite <-(Z2Nat.id n) by done. clear -E laws. revert xs rest E. generalize (ai_data it) as data.
  induction (Z.to_nat n) as [|m IH]; intros data xs rest E; simpl in E; [by simplify_eq|].
  destruct (from_prefix data) as [[y rest1]|] eqn:Ey; [|done]. simpl in E. destruct (read_slice T m rest1) as [[ys rest2]|] eqn:Es; [|done].
  simplify_eq/=. destruct (IH _ _ _ Es) as (Hd & Hl & Hf). pose proof (as_bytes_from_prefix _ _ _ Ey) as <-. rewrite Hd, <-app_assoc.
  split; [done|]. split; [rewrite zlen_cons; lia|]. constructor; [by eapply from_prefix_fits|done].
Qed.

Ltac inv_fetch :=
  repeat match goal with
  | H : outcome_bind _ _ = Ok _ |- _ => apply outcome_bind_ok in H; destruct H as ([? ?] & ? & ?); cbn [fst snd] in *
  | H : fetch1 _ _ = Ok _ |- _ => unfold fetch1 in H
  | H : fetch _ _ = Ok _ |- _ => apply fetch_ok in H; destruct H as (? & ? & ?)
  | H : fetch_str _ = Ok _ |- _ => apply fetch_str_ok in H; destruct H as [? ?]
  | H : (if ?x =? ?y then _ else Panic) = Ok _ |- _ => destruct (Z.eqb_spec x y); [|discriminate H]
  | H : Ok _ = Ok _ |- _ => injection H as <-
  end.
Ltac solve_parsed rest :=
  split; [reflexivity|]; split; [cbn [op_ok]; tauto|]; exists rest; cbn [op_args];
  repeat match goal with H : ai_data _ = _ |- _ => rewrite H end; rewrite <-?app_assoc, ?app_nil_r; reflexivity.
Lemma op_parse_ok h opcode it op : op_parse h opcode it = Ok op → op_code op = opcode ∧ op_ok h op ∧ ∃ rest, ai_data it = op_args op ++ rest.
Proof.
  intros Hp. destruct opcode; cbn [op_parse] in Hp; inv_fetch;
    try solve [match goal with a : ArgumentIterator |- _ => solve_parsed (ai_data a) end | cbn [fetch_all fst] in *; solve_parsed (@nil Byte.byte)].
  match goal with H : fits_all ?x, H' : fetch_slice _ _ _ = Ok _ |- _ => pose proof H as Hf; apply fetch_slice_ok in H' as (? & ? & ?) end.
  - match goal with a : ArgumentIterator |- _ => solve_parsed (ai_data a) end.
  - destruct f. unfold fits_all in Hf. simpl in Hf. inversion_clear Hf. unfold fits in *. simpl in *. lia.
Qed.

(** ** Requests *)

Lemma header_size : size_of fuse_in_header = 40%nat.
Proof. reflexivity. Qed.
Lemma header_zlen (h : fuse_in_header) : zlen (as_bytes h) = 40.
Proof. unfold zlen. by rewrite as_bytes_length. Qed.
Lemma try_from_ok addr data req : AnyRequest_try_from addr data = Ok req →
  data = as_bytes (ar_header req) ++ ai_data (ar_data req) ++ zdrop (in_header_len (ar_header req)) data ∧
  zlen (ai_data (ar_data req)) = in_header_len (ar_header req) - 40 ∧ fits_all (ar_header req) ∧ ai_addr (ar_data req) = addr + 40.
Proof.
  unfold AnyRequest_try_from. intros H. apply outcome_bind_ok in H as ([h it] & Hh & H). cbn [fst] in H.
  destruct (fetch fuse_in_header _) as [[h' it']|[]|] eqn:E; simpl in Hh; [|discriminate|discriminate]. injection Hh as -> ->.
  apply fetch_ok in E as (Hd & Ha & Hf). cbn [ai_data] in Hd. rewrite header_size in *. change (Z.of_nat 40) with 40 in *.
  destruct (Z.ltb_spec (zlen data) (in_header_len h)) as [|Hl]; [done|]. destruct (Z.leb_spec 40 (in_header_len h)) as [H40|]; [|done].
  injection H as <-. cbn [ar_header ar_data ai_data ai_addr].
  pose proof (header_zlen h) as Hlen. split; [|split; [apply zlen_zslice; lia|done]].
  rewrite <-(ztake_zdrop 40 data) at 1. f_equal.
  - rewrite Hd. unfold ztake. rewrite take_app_length'; [done|]. unfold zlen in Hlen. lia.
  - unfold zslice, zdrop, ztake. rewrite <-(take_drop (Z.to_nat (in_header_len h - 40)) (drop _ data)) at 1. rewrite drop_drop. do 2 f_equal. lia.
Qed.
Lemma try_from_bytes addr h args : addr `mod` 8 = 0 → fits_all h → in_header_len h = 40 + zlen args →
  AnyRequest_try_from addr (as_bytes h ++ args) = Ok {| ar_header := h; ar_data := {| ai_addr := addr + 40; ai_data := args |} |}.
Proof.
  intros Ha Hf Hl. pose proof (header_zlen h) as Hlen. unfold AnyRequest_try_from.
  rewrite fetch_bytes by done. cbn [outcome_map_err outcome_bind fst]. rewrite header_size. change (Z.of_nat 40) with 40.
  pose proof (zlen_nonneg args). rewrite zlen_app, (proj2 (Z.ltb_ge _ _)), (proj2 (Z.leb_le _ _)) by lia. do 3 f_equal. rewrite Hl.
  rewrite <-Hlen, zslice_app_r by lia. rewrite Z.sub_diag. replace (zlen (as_bytes h) + zlen args - zlen (as_bytes h)) with (zlen args) by lia.
  apply zslice_full.
Qed.

(** The header that the kernel writes *)
Definition kernel_header (unique nodeid uid gid pid : Z) (op : Operation) : fuse_in_header :=
  {| in_header_len := 40 + zlen (op_args op); in_header_opcode := opcode_number (op_code op); in_header_unique := unique; in_header_nodeid := nodeid;
     in_header_uid := uid; in_header_gid := gid; in_header_pid := pid; in_header_padding := 0 |}.
Lemma kernel_header_for unique nodeid uid gid pid op : fits U64 unique → fits U64 nodeid → fits U32 uid → fits U32 gid → fits U32 pid →
  zlen (op_args op) < 2 ^ 32 - 40 → header_for (kernel_header unique nodeid uid gid pid op) op.
Proof.
  intros. split; [|split; [done|]].
  - pose proof (zlen_nonneg (op_args op)). assert (fits U32 (40 + zlen (op_args op))) by (unfold fits; cbn [signed]; change (2 ^ field_bits U32) with (2 ^ 32); lia).
    assert (fits U32 (opcode_number (op_code op))) by (by destruct op). assert (fits U32 0) by done. unfold fits_all. cbn [layout fields in_header_abi]. do 8 (apply Forall2_cons; [done|]). apply Forall2_nil.
  - unfold encode_request. by rewrite zlen_app, header_zlen.
Qed.

(** C10. The request parser is the inverse of the encoding of the FUSE protocol.  A request of any of the 46 kinds, encoded as the protocol says
    (header, argument structure, NUL-terminated names, data) and read at an address that is aligned to 8, parses to its header and exactly its
    operation.  Conversely, whatever the bytes, a request that is accepted starts with the encoding of the header and the operation
    that were found, and every field, name and size in it is one that the protocol allows: nothing is misread. *)
Theorem request_parser_inverts_encoding addr : addr `mod` 8 = 0 →
  (∀ h op, header_for h op → op_ok h op →
    ∃ req, AnyRequest_try_from addr (encode_request h op) = Ok req ∧ ar_header req = h ∧ ar_operation req = Ok op) ∧
  (∀ data req op, AnyRequest_try_from addr data = Ok req → ar_operation req = Ok op →
    in_header_opcode (ar_header req) = opcode_number (op_code op) ∧ op_ok (ar_header req) op ∧ fits_all (ar_header req) ∧
    ∃ rest, data = encode_request (ar_header req) op ++ rest).
Proof.
  intros Ha. split.
  - intros h op (Hf & Hc & Hl) Hok. unfold encode_request in *. rewrite zlen_app in Hl.
    pose proof (header_zlen h) as Hlen. rewrite try_from_bytes by (done || lia).
    eexists. split; [done|]. split; [done|]. unfold ar_operation, ar_opcode. cbn [ar_header ar_data]. rewrite Hc, opcode_round_trip.
    rewrite op_parse_bytes; [done|by apply aligned_next|done].
  - intros data req op Hreq Hop. apply try_from_ok in Hreq as (Hd & _ & Hf & _). unfold ar_operation in Hop.
    destruct (ar_opcode req) as [opcode|] eqn:Ec; [|done]. destruct (op_parse _ _ _) as [op'|[]|] eqn:Ep; simpl in Hop; simplify_eq.
    apply op_parse_ok in Ep as (<- & Hok & rest & Hrest). split; [by apply opcode_number_of|]. split; [done|]. split; [done|].
    unfold encode_request. rewrite Hd, Hrest, <-!app_assoc. by eexists.
Qed.
Lemma request_parser_inverts_encoding_witness :
  let x := {| read_in_fh := 3; read_in_offset := 0; read_in_size := 4096; read_in_read_flags := 0; read_in_lock_owner := 0; read_in_flags := 0; read_in_padding := 0 |} in
  let h := {| in_header_len := 80; in_header_opcode := 15; in_header_unique := 7; in_header_nodeid := 2; in_header_uid := 1000; in_header_gid := 1000;
              in_header_pid := 1; in_header_padding := 0 |} in
  ∃ req, AnyRequest_try_from 4096 (encode_request h (OpRead x)) = Ok req ∧ ar_operation req = Ok (OpRead x).
Proof.
  intros x h.
  assert (header_for h (OpRead x)) as Hh by (split; [repeat constructor; vm_compute; intuition congruence|split; reflexivity]).
  assert (op_ok h (OpRead x)) as Hx by (repeat constructor; vm_compute; intuition congruence).
  destruct (request_parser_inverts_encoding 4096 eq_refl) as [Henc _]. destruct (Henc h (OpRead x) Hh Hx) as (req & Hr & _ & Hop).
  exists req. split; [exact Hr|exact Hop].
Defined.

(** ** Illegal requests *)

Definition sizes_disagree (opcode : fuse_opcode) (args : bytes) : Prop :=
  match opcode with
  | FUSE_WRITE => ∃ x data, args = as_bytes x ++ data ∧ fits_all x ∧ zlen data ≠ write_in_size x
  | FUSE_SETXATTR => ∃ x name value, args = as_bytes x ++ cstr name ++ value ∧ fits_all x ∧ no_nul name ∧ zlen value ≠ setxattr_in_size x
  | _ => False
  end.
Lemma fetch_total {T} `{Abi T} it : ai_addr it `mod` 8 = 0 → 8 `mod` Z.of_nat (align_of T) = 0 → fetch T it ≠ Panic.
Proof.
  intros Ha H8. unfold fetch. rewrite (aligned_8 T) by done. simpl. by destruct (from_prefix (ai_data it)) as [[x rest]|].
Qed.
Lemma fetch_str_total it : fetch_str it ≠ Panic.
Proof. unfold fetch_str. by destruct (break_at_nul (ai_data it)) as [[]|]. Qed.
Lemma op_parse_panic h opcode it : ai_addr it `mod` 8 = 0 → op_parse h opcode it = Panic → sizes_disagree opcode (ai_data it).
Proof.
  intros Ha Hp. assert (∀ T `{Abi T} f, 8 `mod` Z.of_nat (align_of T) = 0 → fetch1 (T := T) it f ≠ Panic) as Hf1.
  { intros T ? f H8. unfold fetch1. destruct (fetch T it) eqn:E; try done. exfalso. by eapply fetch_total in E. }
  destruct opcode; cbn [op_parse] in Hp; try discriminate Hp; try (by apply Hf1 in Hp); cbn [sizes_disagree];
    repeat match goal with
    | H : outcome_bind ?c _ = Panic |- _ =>
        let E := fresh "E" in destruct c as [[]|[]|] eqn:E; cbn [outcome_bind fst snd] in H;
        [|discriminate H|first [by apply fetch_str_total in E|by apply fetch_total in E|idtac]]
    end; try discriminate Hp; inv_fetch.
  - destruct (Z.eqb_spec (zlen (ai_data a)) (write_in_size f)) as [|Hne]; cbn [fetch_all fst] in Hp; [by rewrite (proj2 (Z.eqb_eq _ _)) in Hp|]. eauto.
  - cbn [fetch_all fst] in Hp. destruct (Z.eqb_spec (zlen (ai_data a0)) (setxattr_in_size f)); [discriminate Hp|].
    exists f, l, (ai_data a0). by match goal with H : ai_data a = _, H' : ai_data it = _ |- _ => rewrite H', H end.
  - match goal with H : fetch_slice _ _ _ = Panic |- _ => unfold fetch_slice in H; rename H into Es end.
    rewrite (aligned_8 fuse_forget_one) in Es; [|match goal with H : ai_addr a = _ |- _ => rewrite H end; by apply aligned_next|done]. simpl in Es.
    repeat case_match; discriminate Es.
Qed.
Lemma sizes_disagree_panic h opcode it : ai_addr it `mod` 8 = 0 → sizes_disagree opcode (ai_data it) → op_parse h opcode it = Panic.
Proof.
  intros Ha. destruct it as [addr data]. cbn [ai_data ai_addr] in *. destruct opcode; try done; cbn [sizes_disagree op_parse].
  - intros (x & args & -> & Hf & Hne). rewrite fetch_bytes by done. cbn [outcome_bind fst snd fetch_all ai_data]. by rewrite (proj2 (Z.eqb_neq _ _)).
  - intros (x & name & value & -> & Hf & Hn & Hne). rewrite fetch_bytes by done. cbn [outcome_bind fst snd]. rewrite fetch_cstr by done.
    cbn [outcome_bind fst snd fetch_all ai_data]. by rewrite (proj2 (Z.eqb_neq _ _)).
Qed.

(** C38. Which requests make the parser panic.  Short or unknown requests are reported as errors; but a request with a complete header whose length
    field is below 40 panics instead of ending the loop, and so does a write or a setxattr whose size field differs from the size of
    the data.  Nothing else does. *)
Theorem illegal_requests_that_panic addr data : addr `mod` 8 = 0 →
  (AnyRequest_try_from addr data = Panic ↔ ∃ h rest, data = as_bytes h ++ rest ∧ fits_all h ∧ in_header_len h < 40) ∧
  (∀ req, AnyRequest_try_from addr data = Ok req →
    ar_operation req = Panic ↔ ∃ opcode, ar_opcode req = Some opcode ∧ sizes_disagree opcode (ai_data (ar_data req))).
Proof.
  intros Ha. split.
  - unfold AnyRequest_try_from. split.
    + destruct (fetch fuse_in_header _) as [[h it]|[]|] eqn:E; cbn [outcome_map_err outcome_bind fst]; [|done|by apply fetch_total in E].
      apply fetch_ok in E as (Hd & _ & Hf). cbn [ai_data] in Hd. case_match; [done|]. rewrite header_size. destruct (Z.leb_spec (Z.of_nat 40) (in_header_len h)); [done|].
      intros _. exists h, (ai_data it). repeat split; [done..|lia].
    + intros (h & rest & -> & Hf & Hl). rewrite fetch_bytes by done. cbn [outcome_map_err outcome_bind fst].
      pose proof (header_zlen h) as Hlen. pose proof (zlen_nonneg rest).
      rewrite zlen_app, (proj2 (Z.ltb_ge _ _)) by lia. rewrite header_size. by rewrite (proj2 (Z.leb_gt _ _)) by lia.
  - intros req Hreq. apply try_from_ok in Hreq as (_ & _ & _ & Haddr). unfold ar_operation.
    assert (ai_addr (ar_data req) `mod` 8 = 0) as Hal by (rewrite Haddr; by apply aligned_next). split.
    + destruct (ar_opcode req) as [opcode|] eqn:Ec; [|done]. destruct (op_parse _ _ _) eqn:Ep; try done. intros _. exists opcode. split; [done|].
      by eapply op_parse_panic.
    + intros (opcode & -> & Hs). by rewrite (sizes_disagree_panic _ _ _ Hal Hs).
Qed.
Lemma illegal_requests_that_panic_witness :
  let h := {| in_header_len := 39; in_header_opcode := 26; in_header_unique := 1; in_header_nodeid := 0; in_header_uid := 0; in_header_gid := 0;
              in_header_pid := 0; in_header_padding := 0 |} in
  AnyRequest_try_from 4096 (as_bytes h) = Panic.
Proof.
  intros h. apply (proj1 (illegal_requests_that_panic 4096 (as_bytes h) eq_refl)). exists h, []. split; [by rewrite app_nil_r|].
  split; [repeat constructor; vm_compute; intuition congruence|reflexivity].
Defined.
