(* ===== verification/FuseSpec.v ===== *)
(** * Theorems on sessions

    Every request is answered once, nothing reaches the file system that must not, and the replies of the file system are what the
    kernel decodes. *)

From S2P Require Import Prelude BlockFormat Path Inode Filesystem FuseAbi FuseRequest FuseReply FuseDispatch FuseWire.
Local Open Scope Z_scope.

(** ** The configuration of the connection *)

Record config_ok (c : KernelConfig) : Prop := {
  co_write : 1 ≤ kc_max_write c ≤ MAX_WRITE_SIZE;
  co_readahead : kc_max_readahead c ≤ kc_max_max_readahead c;
  co_background : 1 ≤ kc_max_background c;
  co_gran : ∃ k, 0 ≤ k ≤ 9 ∧ kc_time_gran c = 10 ^ k;
  co_requested i : Z.testbit (kc_requested c) i = true → Z.testbit (kc_capabilities c) i = true ∨ Z.testbit INIT_FLAGS i = true;
}.
Lemma KernelConfig_new_ok capabilities max_readahead : config_ok (KernelConfig_new capabilities max_readahead).
Proof.
  split; simpl; [unfold MAX_WRITE_SIZE; lia|lia|lia|by exists 0|]. intros i. unfold default_init_flags, flag.
  destruct (Z.eqb_spec (Z.land capabilities FUSE_MAX_PAGES) 0) as [|Hne]; simpl; [by right|]. rewrite Z.lor_spec. intros [Hi|Hi]%orb_true_iff; [by right|left].
  change FUSE_MAX_PAGES with (2 ^ 22) in *. assert (i = 22) as -> by (destruct (decide (i = 22)); [done|]; by rewrite Z.pow2_bits_false in Hi by lia).
  destruct (Z.testbit capabilities 22) eqn:E; [done|]. exfalso. apply Hne. apply Z.bits_inj'. intros j Hj. rewrite Z.land_spec, Z.bits_0.
  destruct (decide (j = 22)) as [->|]; [by rewrite E|]. rewrite (Z.pow2_bits_false 22) by lia. apply andb_false_r.
Qed.
(** The loop over the powers of ten ends, and accepts exactly them. *)
Lemma granularity_loop_spec fuel k value : 0 ≤ k → 0 < value ≤ 10 ^ (k + Z.of_nat fuel) → 10 ^ k ≤ value →
  ∃ r, granularity_loop fuel value (10 ^ k) = Some r ∧ (r = inr tt ↔ ∃ j, k ≤ j ≤ k + Z.of_nat fuel ∧ value = 10 ^ j).
Proof.
  revert k. induction fuel as [|fuel IH]; intros k Hk Hv Hlow.
  - simpl. rewrite Z.add_0_r in *. assert (value = 10 ^ k) as -> by lia. rewrite Z.ltb_irrefl. eexists. split; [done|]. split; [exists k; lia|done].
  - assert (10 ^ (k + 1) = 10 ^ k * 10) as Hp by (rewrite Z.pow_add_r by lia; lia). assert (0 < 10 ^ k) by (by apply Z.pow_pos_nonneg).
    cbn [granularity_loop]. destruct (Z.ltb_spec (10 ^ k) value) as [Hlt|Hge].
    + destruct (Z.ltb_spec value (10 ^ k * 10)) as [Hlt'|Hge'].
      * eexists. split; [done|]. split; [done|]. intros (j & Hj & ->). exfalso. rewrite <-Hp in Hlt'.
        apply Z.pow_lt_mono_r_iff in Hlt; [|lia..]. apply Z.pow_lt_mono_r_iff in Hlt'; lia.
      * rewrite <-Hp in *. destruct (IH (k + 1)) as (r & Hr & Hi); [lia|replace (k + 1 + Z.of_nat fuel) with (k + Z.of_nat (S fuel)) by lia; lia|lia|].
        exists r. split; [done|]. rewrite Hi. split; intros (j & Hj & ->); exists j; (split; [|done]); [lia|].
        apply Z.pow_lt_mono_r_iff in Hlt; lia.
    + assert (value = 10 ^ k) as -> by lia. eexists. split; [done|]. split; [exists k; lia|done].
Qed.
Lemma set_time_granularity_spec c value : 0 ≤ value →
  ∃ r, (set_time_granularity c value).2 = Some r ∧ ((∃ previous, r = inr previous) ↔ ∃ j, 0 ≤ j ≤ 9 ∧ value = 10 ^ j).
Proof.
  intros Hv. unfold set_time_granularity. destruct (Z.eqb_spec value 0) as [->|Hne].
  { eexists. split; [done|]. split; [by intros []|]. intros (j & Hj & H0). pose proof (Z.pow_pos_nonneg 10 j). lia. }
  unfold NANOS. destruct (Z.ltb_spec 1000000000 value) as [Hbig|Hle].
  { eexists. split; [done|]. split; [by intros []|]. intros (j & Hj & ->). assert (10 ^ j ≤ 10 ^ 9) by (apply Z.pow_le_mono_r; lia). lia. }
  destruct (granularity_loop_spec 9 0 value) as (r & Hr & Hi); [done|simpl; lia|simpl; lia|]. change (10 ^ 0) with 1 in Hr. rewrite Hr.
  destruct r as [nearest|[]]; (eexists; split; [done|]); split.
  - by intros [].
  - intros Hj. apply Hi in Hj. done.
  - intros _. by apply Hi.
  - intros _. by eexists.
Qed.
(** Every setter keeps the configuration within what the kernel and the buffer of the session can take. *)
Lemma setters_ok c value : config_ok c → 0 ≤ value →
  config_ok (set_max_write c value).1 ∧ config_ok (set_max_readahead c value).1 ∧ config_ok (add_capabilities c value).1 ∧
  config_ok (set_max_background c value).1 ∧ config_ok (set_congestion_threshold c value).1 ∧ config_ok (set_time_granularity c value).1.
Proof.
  intros Hok Hv. ands.
  - unfold set_max_write. destruct (Z.eqb_spec value 0); [done|]. destruct (Z.ltb_spec MAX_WRITE_SIZE value); [done|]. destruct Hok. split; simpl; try done. lia.
  - unfold set_max_readahead. destruct (Z.eqb_spec value 0); [done|]. destruct (Z.ltb_spec (kc_max_max_readahead c) value); [done|]. destruct Hok. by split.
  - unfold add_capabilities. destruct (Z.eqb_spec (Z.land value (kc_capabilities c)) value) as [Heq|]; [|done]. destruct Hok as [? ? ? ? Hr]. split; simpl; try done.
    intros i. rewrite Z.lor_spec. intros [Hi|Hi]%orb_true_iff; [by apply Hr|left]. rewrite <-Heq, Z.land_spec in Hi. by apply andb_true_iff in Hi as [_ ?].
  - unfold set_max_background. destruct (Z.eqb_spec value 0); [done|]. destruct Hok. split; simpl; try done. lia.
  - unfold set_congestion_threshold. case_match; [done|]. destruct Hok. by split.
  - destruct (set_time_granularity_spec c value Hv) as (r & Hr & Hi). unfold set_time_granularity in *. do 2 (case_match; [done|]).
    destruct (granularity_loop 9 value 1) as [[nearest|[]]|]; [done| |done]. simpl in Hr. injection Hr as <-. destruct Hok. split; simpl; try done.
    destruct (proj1 Hi) as (j & Hj & ->); [by eexists|]. by exists j.
Qed.
(** A write of the negotiated size fits into the buffer, wherever its aligned part starts. *)
Lemma write_request_fits c buffer h x data : config_ok c → zlen data ≤ kc_max_write c →
  aligned_sub_buf buffer 8 + zlen (encode_request h (OpWrite x data)) ≤ BUFFER_SIZE.
Proof.
  intros [Hw _ _ _ _] Hd. unfold encode_request. cbn [op_args]. rewrite !zlen_app, header_zlen.
  assert (zlen (as_bytes x) = 40) as -> by (unfold zlen; by rewrite as_bytes_length). unfold aligned_sub_buf, BUFFER_SIZE.
  pose proof (Z.mod_pos_bound buffer 8 ltac:(lia)). destruct (Z.eqb_spec (8 - buffer `mod` 8) 8); lia.
Qed.

(** What [init] of a file system can ask for *)
Inductive Setting :=
| MaxWrite (value : Z) | MaxReadahead (value : Z) | Capabilities (value : Z) | MaxBackground (value : Z) | CongestionThreshold (value : Z)
| TimeGranularity (value : Z).
Definition setting_value (s : Setting) : Z :=
  match s with MaxWrite v | MaxReadahead v | Capabilities v | MaxBackground v | CongestionThreshold v | TimeGranularity v => v end.
Definition apply_setting (c : KernelConfig) (s : Setting) : KernelConfig :=
  match s with
  | MaxWrite v => (set_max_write c v).1
  | MaxReadahead v => (set_max_readahead c v).1
  | Capabilities v => (add_capabilities c v).1
  | MaxBackground v => (set_max_background c v).1
  | CongestionThreshold v => (set_congestion_threshold c v).1
  | TimeGranularity v => (set_time_granularity c v).1
  end.
Lemma apply_setting_ok c s : config_ok c → 0 ≤ setting_value s → config_ok (apply_setting c s).
Proof. intros Hok Hv. destruct (setters_ok c _ Hok Hv) as (? & ? & ? & ? & ? & ?). by destruct s. Qed.
Lemma settings_ok settings c : Forall (λ s, 0 ≤ setting_value s) settings → config_ok c → config_ok (foldl apply_setting c settings).
Proof. intros Hs. revert c. induction Hs as [|s settings Hv _ IH]; intros c Hc; [done|]. simpl. apply IH. by apply apply_setting_ok. Qed.

(** C15. The negotiated configuration stays well formed.  Whatever the kernel offers and whatever settings a file system asks for in
    [init], accepted or refused, in any order: the largest write is between 1 and [MAX_WRITE_SIZE], the read-ahead is at most what the
    kernel offered, the time granularity is a power of ten up to a second, and only capabilities that the kernel offered or the
    initial flags are requested; and every write request whose data respects the negotiated size fits into the receive buffer of a
    session, wherever in memory its aligned part starts. *)
Theorem negotiated_configuration_ok capabilities max_readahead settings buffer h x data : Forall (λ s, 0 ≤ setting_value s) settings →
  let c := foldl apply_setting (KernelConfig_new capabilities max_readahead) settings in
  config_ok c ∧ (zlen data ≤ kc_max_write c → aligned_sub_buf buffer 8 + zlen (encode_request h (OpWrite x data)) ≤ BUFFER_SIZE).
Proof.
  intros Hs c. assert (config_ok c) as Hok by (apply settings_ok; [done|apply KernelConfig_new_ok]). split; [done|]. by apply write_request_fits.
Qed.
Definition example_settings : list Setting := [MaxWrite (2 ^ 40); Capabilities FUSE_DO_READDIRPLUS; MaxBackground 64; TimeGranularity 15; MaxReadahead 131072].
Definition negotiated : KernelConfig := foldl apply_setting (KernelConfig_new FUSE_DO_READDIRPLUS 65536) example_settings.
Lemma negotiated_configuration_ok_witness :
  config_ok negotiated ∧ kc_max_write negotiated = MAX_WRITE_SIZE ∧ kc_max_readahead negotiated = 65536 ∧ kc_max_background negotiated = 64 ∧ kc_time_gran negotiated = 1.
Proof.
  split; [|vm_compute; done].
  refine (proj1 (negotiated_configuration_ok FUSE_DO_READDIRPLUS 65536 example_settings 0 (kernel_header 1 1 0 0 0 OpStatFs) {| write_in_fh := 0; write_in_offset := 0; write_in_size := 0; write_in_write_flags := 0; write_in_lock_owner := 0; write_in_flags := 0; write_in_padding := 0 |} [] _)).
  repeat (apply Forall_cons; [vm_compute; discriminate|]). apply Forall_nil.
Defined.

(** ** Messages *)

(** A message that answers the request [unique] *)
Definition reply_message (unique error : Z) (data : bytes) : bytes :=
  as_bytes {| out_header_len := 16 + zlen data; out_header_error := error; out_header_unique := unique |} ++ data.
Definition answers (unique : Z) (m : bytes) : Prop := ∃ error data, m = reply_message unique error data.
Definition eio_message (unique : Z) : bytes := reply_message unique (- ERRNO_EIO) [].

Lemma reply_message_length unique error data : zlen (reply_message unique error data) = 16 + zlen data.
Proof. unfold reply_message. rewrite zlen_app. unfold zlen at 1. rewrite as_bytes_length. done. Qed.
Lemma with_iovec_ok unique r m : with_iovec unique r = Ok m →
  m = reply_message unique match r with ResponseError errno => - errno | _ => 0 end (response_data r).
Proof.
  unfold with_iovec, to_u32. intros H. apply outcome_bind_ok in H as (len & Hl & Hm).
  destruct (_ && _); [|done]. injection Hl as <-. injection Hm as <-. reflexivity.
Qed.
Lemma with_iovec_small unique r : zlen (response_data r) < 2 ^ 31 →
  with_iovec unique r = Ok (reply_message unique match r with ResponseError errno => - errno | _ => 0 end (response_data r)).
Proof.
  intros Hl. unfold with_iovec, to_u32, u32_max. pose proof (zlen_nonneg (response_data r)). change (Z.of_nat (size_of fuse_out_header)) with 16.
  rewrite (proj2 (Z.leb_le 0 _)), (proj2 (Z.leb_le _ (2 ^ 32 - 1))) by lia. done.
Qed.
Lemma with_iovec_error unique errno : with_iovec unique (new_error errno) = Ok (reply_message unique (- errno) []).
Proof. by apply with_iovec_small. Qed.
Lemma run_reply_once unique answer messages res : run_reply unique answer = (messages, res) →
  match res with Ok _ => ∃ m, messages = [m] ∧ answers unique m | _ => messages = [] ∨ messages = [eio_message unique] end.
Proof.
  unfold run_reply, ReplyRaw_drop, ReplyRaw_new, send_ll_mut. cbn [rr_sender rr_unique]. destruct answer as [[response|]|[]|]; cbn [rr_sender rr_unique].
  - destruct (with_iovec unique response) as [m|[]|] eqn:E; cbn [rr_sender]; intros [= <- <-]; [|by left].
    eexists. split; [done|]. apply with_iovec_ok in E as ->. by do 2 eexists.
  - rewrite with_iovec_error. intros [= <- <-]. simpl. eexists. split; [done|]. by do 2 eexists.
  - rewrite with_iovec_error. intros [= <- <-]. by right.
Qed.

(** ** One answer for every request *)

Section dispatch.
Context {FS : Type} `{!FuseDispatch.Filesystem FS} (page_size : Z).
Implicit Types se : Session FS.

Definition forgets (op : Operation) : bool := match op with OpForget _ | OpBatchForget _ _ => true | _ => false end.
(** What the handler of a request has sent when it ends *)
Definition sent_once (unique : Z) (forget : bool) (d : Dispatched (FS := FS)) : Prop :=
  let '(_, messages, res) := d in
  match res with
  | Ok None => if forget then messages = [] else ∃ m, messages = [m] ∧ answers unique m
  | Ok (Some _) => messages = [] ∧ forget = false
  | Err _ => messages = [] ∧ forget = false
  | Panic => messages = [] ∨ messages = [eio_message unique]
  end.
Lemma replied_once se unique (r : FS * Answer) : sent_once unique false (replied se unique r).
Proof.
  destruct r as [fs a]. unfold replied. destruct (run_reply unique a) as [messages res] eqn:E. apply run_reply_once in E.
  destruct res as [[]|[]|]; simpl; done.
Qed.
Lemma unreplied_once se unique (r : FS * outcome Empty_set unit) : sent_once unique true (unreplied se r).
Proof. destruct r as [fs [[]|[]|]]; simpl; [done|by left]. Qed.
Lemma with_argument_once {A} se unique (a : outcome Empty_set A) (k : A → Dispatched (FS := FS)) :
  (∀ x, sent_once unique false (k x)) → sent_once unique false (with_argument se a k).
Proof. intros Hk. destruct a as [x|[]|]; simpl; [apply Hk|by left]. Qed.
Lemma handle_once se h op : sent_once (in_header_unique h) (forgets op) (handle se h op).
Proof.
  destruct op; cbn [handle forgets]; try apply replied_once; try apply unreplied_once; try done.
  - repeat (apply with_argument_once; intros ?). apply replied_once.
  - case_match; [done|]. apply with_argument_once; intros ?. apply replied_once.
  - apply with_argument_once; intros ?. apply replied_once.
Qed.

Lemma init_once se unique h x : sent_once unique false (init_request page_size se h x).
Proof.
  unfold init_request. case_match; [done|]. destruct (Filesystem_init _ _ _) as [[fs c] [[]|errno|]]; simpl; [done|done|by left].
Qed.
Lemma destroy_once_once se unique :
  sent_once unique false (let '(se, r) := destroy_once se in (se, [], match r with Ok _ => Ok (Some new_empty) | _ => Panic end)).
Proof. destruct (destroy_once se) as [se' [[]|[]|]]; simpl; [done|by left]. Qed.

(** The requests that have an answer: all but the forgets that reach the file system *)
Definition answered se (req : AnyRequest) : bool :=
  match ar_operation req with Ok op => negb (forgets op && se_initialized se && negb (se_destroyed se)) | _ => true end.
Lemma dispatch_req_once se req : sent_once (in_header_unique (ar_header req)) (negb (answered se req)) (dispatch_req page_size se req).
Proof.
  unfold dispatch_req, answered. destruct (ar_operation req) as [op|e|] eqn:Eop; [|done|by left].
  destruct (denied se (in_header_uid (ar_header req)) && negb (without_uid op)) eqn:Ed.
  { by destruct op; rewrite ?andb_false_r in Ed. }
  assert (Hh : se_initialized se = true → se_destroyed se = false →
    sent_once (in_header_unique (ar_header req)) (forgets op) (handle se (ar_header req) op)) by (intros; apply handle_once).
  destruct (se_initialized se), (se_destroyed se); rewrite ?andb_false_r, ?andb_true_r, ?negb_involutive; cbn [negb];
    try specialize (Hh eq_refl eq_refl); destruct op; try done; cbn [forgets]; first [apply init_once|apply destroy_once_once].
Qed.

(** C11. Every request is answered exactly once.  Whatever the file system does with a request, and in every state of the session: when
    dispatching ends normally, exactly one message was written to the kernel, with the number of the request and its own length in
    the header, except for a forget of an initialized file system, which has none.  When it panics, nothing was written or, when a handler
    panicked while it held the reply, an I/O error. *)
Theorem dispatch_answers_once se req se' messages res : dispatch page_size se req = (se', messages, res) →
  let unique := in_header_unique (ar_header req) in
  match res with
  | Ok _ => if answered se req then ∃ m, messages = [m] ∧ answers unique m else messages = []
  | _ => messages = [] ∨ messages = [eio_message unique]
  end.
Proof.
  unfold dispatch. pose proof (dispatch_req_once se req) as Ho. destruct (dispatch_req page_size se req) as [[se1 ms] [[r|]|errno|]]; simpl in Ho.
  - destruct Ho as [-> Ha%negb_false_iff]. rewrite Ha. destruct (with_iovec _ r) as [m|[]|] eqn:E; intros [= <- <- <-]; [|by left].
    eexists. split; [done|]. apply with_iovec_ok in E as ->. by do 2 eexists.
  - intros [= <- <- <-]. simpl. by destruct (answered se req).
  - destruct Ho as [-> Ha%negb_false_iff]. rewrite Ha, with_iovec_error. intros [= <- <- <-]. eexists. split; [done|]. by do 2 eexists.
  - intros [= <- <- <-]. done.
Qed.

(** ** Requests that are kept from the file system *)

Definition is_init (op : Operation) : bool := match op with OpInit _ => true | _ => false end.
(** An unknown request, one by a user without access, and everything but INIT before the initialisation and after the end *)
Definition barred se (req : AnyRequest) : bool :=
  match ar_operation req with
  | Ok op => (denied se (in_header_uid (ar_header req)) && negb (without_uid op)) || (negb (is_init op) && (negb (se_initialized se) || se_destroyed se))
  | _ => true
  end.
Definition barred_input (addr : Z) se (i : Received) : bool :=
  match i with ReceivedRequest data => match AnyRequest_try_from addr data with Ok req => barred se req | _ => true end | ReceivedError _ => true end.
(** [errno] 0 is the answer to a second DESTROY. *)
Definition refusal (m : bytes) : Prop := ∃ unique errno, m = reply_message unique (- errno) [] ∧ errno ∈ [0; ERRNO_EIO; ERRNO_EACCES; ERRNO_ENOSYS].

Lemma se_flags_same se : se_destroyed se = true → se_with_flags se (se_initialized se) true = se.
Proof. destruct se. simpl. by intros ->. Qed.
Lemma dispatch_barred se req : barred se req = true → ∃ messages res, dispatch page_size se req = (se, messages, res) ∧ Forall refusal messages.
Proof.
  assert (∀ errno, errno ∈ [0; ERRNO_EIO; ERRNO_EACCES; ERRNO_ENOSYS] → Forall refusal [reply_message (in_header_unique (ar_header req)) (- errno) []]) as Hr.
  { intros errno He. constructor; [|constructor]. by exists (in_header_unique (ar_header req)), errno. }
  unfold barred, dispatch, dispatch_req. destruct (ar_operation req) as [op|e|]; [|intros _; cbn [refuse]; rewrite with_iovec_error; do 2 eexists; split; [done|]; apply Hr; set_solver|by do 2 eexists].
  destruct (denied se _ && negb (without_uid op)); cbn [orb refuse].
  { intros _. rewrite with_iovec_error. do 2 eexists. split; [done|]. apply Hr. set_solver. }
  intros [Hi Hc]%andb_true_iff. destruct (se_initialized se) eqn:Ei; cbn [negb orb] in Hc |- *.
  - assert (destroy_once se = (se, Ok tt)) as Hd by (unfold destroy_once; rewrite se_flags_same, Hc by done; done).
    destruct op; try done; rewrite ?Hc, ?Hd; cbn [refuse]; rewrite ?with_iovec_error; do 2 eexists; (split; [done|]); apply Hr; set_solver.
  - destruct op; try done; cbn [refuse]; rewrite with_iovec_error; do 2 eexists; (split; [done|]); apply Hr; set_solver.
Qed.

(** C12. The session protects the file system.  Let any requests arrive that are malformed or unknown, come from a user that the access mode
    of the session excludes (apart from the operations that the kernel issues without a user), or arrive before the initialisation or
    after the end of the session and are not INIT.  Then no handler runs and no state changes, however the requests follow each
    other, and all that is written to the kernel are refusals: EACCES, EIO, ENOSYS or the empty reply to a repeated DESTROY. *)
Theorem barred_requests_change_nothing addr se inputs : Forall (λ i, barred_input addr se i = true) inputs →
  ∃ events e, process_requests_loop page_size addr se inputs = (se, events, e) ∧ ∀ m, Sent m ∈ events → refusal m.
Proof.
  induction 1 as [|i inputs Hi _ (events & e & IH & Hev)]; [exists [], Blocked; split; [done|]; intros m Hm; by apply elem_of_nil in Hm|].
  destruct i as [data|errno]; cbn [process_requests_loop].
  - unfold process_request. cbn [barred_input] in Hi. destruct (AnyRequest_try_from addr data) as [req|err|];
      [|do 2 eexists; split; [done|]; intros m Hm; by apply elem_of_nil in Hm..].
    destruct (dispatch_barred se req Hi) as (ms & res & -> & Hms). rewrite Forall_forall in Hms.
    destruct res as [[]|[]|]; [rewrite IH|]; do 2 eexists; (split; [done|]); intros m Hm;
      [|apply elem_of_cons in Hm as [|(m' & [= ->] & Hm)%list_elem_of_fmap]; [done|by apply Hms, list_elem_of_In]].
    apply elem_of_app in Hm as [[Hm|Hm]%elem_of_app|Hm]; [|by apply list_elem_of_singleton in Hm|by apply Hev].
    apply elem_of_cons in Hm as [|(m' & [= ->] & Hm)%list_elem_of_fmap]; [done|by apply Hms, list_elem_of_In].
  - assert (∀ e' : LoopEnd, ∃ events e, (se, @nil LoopEvent, e') = (se, events, e) ∧ ∀ m, Sent m ∈ events → refusal m) as Hnil.
    { intros e'. do 2 eexists. split; [done|]. intros m Hm. by apply elem_of_nil in Hm. }
    repeat case_match; try apply Hnil; by exists events, e.
Qed.

(** ** A conversation with the kernel *)

Definition exchange (m : bytes) : list LoopEvent := [BeforeDispatch false; Sent m; AfterDispatch false].
Definition response_error (r : Response) : Z := match r with ResponseError errno => - errno | _ => 0 end.
Definition ready se : Prop := se_initialized se = true ∧ se_destroyed se = false.
(** A request that the file system answers *)
Definition serves (op : Operation) : bool := match op with OpInit _ | OpDestroy | OpForget _ | OpBatchForget _ _ => false | _ => true end.
Lemma serve addr se h op fs r : addr `mod` 8 = 0 → header_for h op → op_ok h op → serves op = true → ready se → denied se (in_header_uid h) = false →
  handle se h op = replied se (in_header_unique h) (fs, Ok (Some r)) → zlen (response_data r) < 2 ^ 31 →
  process_request page_size addr se (encode_request h op) =
    (se_with se fs, exchange (reply_message (in_header_unique h) (response_error r) (response_data r)), None).
Proof.
  intros Ha (Hf & Hc & Hl) Hok Hs [Hi Hd] Hden Hh Hr. pose proof (header_zlen h) as Hlen.
  unfold encode_request in *. rewrite zlen_app in Hl. unfold process_request. rewrite try_from_bytes by (done || lia).
  set (req := {| ar_header := h; ar_data := _ |}). assert (ar_opcode req = Some (op_code op)) as Hcode by (unfold ar_opcode; change (ar_header req) with h; by rewrite Hc, opcode_round_trip).
  assert (ar_operation req = Ok op) as Hop by (unfold ar_operation; rewrite Hcode; unfold req; cbn [ar_header ar_data]; rewrite op_parse_bytes; [done|by apply aligned_next|done]).
  assert (is_forget req = false) as Hforget by (unfold is_forget; rewrite Hcode; by destruct op).
  assert (dispatch_req page_size se req = (se_with se fs, [reply_message (in_header_unique h) (response_error r) (response_data r)], Ok None)) as Hdisp.
  { unfold dispatch_req. rewrite Hop. change (ar_header req) with h. rewrite Hden, Hi, Hd. cbn [andb negb].
    assert (replied se (in_header_unique h) (fs, Ok (Some r)) = (se_with se fs, [reply_message (in_header_unique h) (response_error r) (response_data r)], Ok None)) as Hrep.
    { unfold replied, run_reply, send_ll_mut, ReplyRaw_new. cbn [rr_sender rr_unique]. by rewrite with_iovec_small. }
    rewrite Hrep in Hh. destruct op; try discriminate Hs; exact Hh. }
  unfold dispatch. rewrite Hdisp, Hforget. done.
Qed.

(** The session answers [reqs] with [ms], in this order, and then waits. *)
Definition conversation (addr : Z) se (reqs : list (fuse_in_header * Operation)) (ms : list bytes) (se' : Session FS) : Prop :=
  process_requests_loop page_size addr se (map (λ r, ReceivedRequest (encode_request r.1 r.2)) reqs) = (se', concat (map exchange ms), Blocked).
Lemma conversation_nil addr se : conversation addr se [] [] se.
Proof. done. Qed.
Lemma conversation_cons addr se r m se1 reqs ms se2 :
  process_request page_size addr se (encode_request r.1 r.2) = (se1, exchange m, None) → conversation addr se1 reqs ms se2 →
  conversation addr se (r :: reqs) (m :: ms) se2.
Proof. intros Hp Hc. unfold conversation in *. cbn [map process_requests_loop]. by rewrite Hp, Hc. Qed.
Lemma process_request_end addr se data se' events e : process_request page_size addr se data = (se', events, Some e) → e ≠ Blocked.
Proof. unfold process_request. intros Hp. repeat case_match; by simplify_eq. Qed.
Lemma conversation_app addr se reqs ms se1 reqs' ms' se2 :
  conversation addr se reqs ms se1 → conversation addr se1 reqs' ms' se2 → conversation addr se (reqs ++ reqs') (ms ++ ms') se2.
Proof.
  unfold conversation. rewrite !map_app, concat_app. generalize (map (λ r, ReceivedRequest (encode_request r.1 r.2)) reqs) as inputs. generalize (concat (map exchange ms)) as events.
  intros events inputs. revert se events. induction inputs as [|i inputs IH]; intros se events H1 H2; simpl in *; [by simplify_eq|].
  destruct i as [data|errno].
  - destruct (process_request page_size addr se data) as [[s1 ev] [e|]] eqn:Ep; [apply process_request_end in Ep; by simplify_eq|].
    destruct (process_requests_loop page_size addr s1 inputs) as [[s2 rest] e2] eqn:E. simplify_eq. rewrite (IH s1 rest E H2). by rewrite app_assoc.
  - repeat case_match; try done; by apply IH.
Qed.
End dispatch.

(** ** Times

    A time that the kernel sets comes back in the attributes as it was sent; in between, a time before 1970 is one that lies twice the
    nanoseconds earlier. *)
Lemma time_round_trip secs nsecs t : 0 ≤ nsecs < NANOS → system_time_from_time secs nsecs = Ok t → time_from_system_time t = (secs, nsecs).
Proof.
  intros Hn. unfold system_time_from_time. destruct (_ && _); [|done]. intros [= <-]. unfold time_from_system_time, NANOS in *.
  destruct (Z.leb_spec 0 secs) as [Hs|Hs].
  - rewrite (proj2 (Z.leb_le 0 _)) by lia.
    by rewrite <-(Z.div_unique _ 1000000000 secs nsecs), <-(Z.mod_unique _ 1000000000 secs nsecs) by lia.
  - rewrite (proj2 (Z.leb_gt 0 _)), Z.opp_involutive by lia.
    rewrite <-(Z.div_unique _ 1000000000 (- secs) nsecs), <-(Z.mod_unique _ 1000000000 (- secs) nsecs) by lia. f_equal. lia.
Qed.
Lemma time_before_epoch secs nsecs t : secs < 0 → system_time_from_time secs nsecs = Ok t → t = secs * NANOS + nsecs - 2 * nsecs.
Proof.
  intros Hs. unfold system_time_from_time. rewrite (proj2 (Z.leb_gt 0 _)) by lia. destruct (_ && _); [|done]. intros [= <-]. lia.
Qed.
