(* ===== verification/FuseDir.v ===== *)
(** * Directory replies

    That the buffers of [readdir] and [readdirplus] decode to the entries of the directory stream. *)

From S2P Require Import Prelude Checksums Part PartQueue Upload NegativeCache Path HandlesMap Inode Superblock Readdir FileHandles FileHandlesSpec Filesystem FilesystemSpec ClientChecksums BlockFormat FuseAbi FuseRequest FuseReply FuseDispatch FuseFs.
Local Open Scope Z_scope.

(** ** What programs return

    [returns P p]: every result of [p] satisfies [P], whatever the answers to its calls and the states in between. *)
Fixpoint returns {A} (P : A → Prop) (p : prog A) : Prop :=
  match p with
  | Ret a => P a
  | Throw _ | Crash | Pause => True
  | Atomic act k => ∀ r, returns P (k r)
  | Call c k => ∀ r, returns P (k r)
  end.
Lemma returns_bind_with {A B} (Q : A → Prop) (P : B → Prop) (p : prog A) (f : A → prog B) :
  returns Q p → (∀ a, Q a → returns P (f a)) → returns P (p ≫= f).
Proof.
  intros Hp Hf. induction p as [a|e| | |C act k IH|c k IH]; simpl in *; [by apply Hf|done..|intros r; by apply IH|intros r; by apply IH].
Qed.
Lemma returns_bind {A B} (P : B → Prop) (p : prog A) (f : A → prog B) : (∀ a, returns P (f a)) → returns P (p ≫= f).
Proof. intros Hf. apply returns_bind_with with (Q := λ _, True); [|by intros ? _]. induction p; simpl; done. Qed.
Lemma fs_run_returns `{crc : Crc32c, up : FileUploader, pf : FilePrefetcher} {A} (P : A → Prop) call (p : prog A) fs fs' a :
  returns P p → fs_run call p fs = (fs', Ok a) → P a.
Proof.
  revert fs. induction p as [b|e| | |C act k IH|c k IH]; intros fs Hp Hrun; simpl in *; try done.
  - by simplify_eq.
  - destruct (act (fs_metablock fs)) as [sb [b|e|]]; [by eapply IH|by eapply IH|done].
  - destruct (call c fs) as [fs1 [r|]]; [by eapply IH|done].
Qed.

(** ** The stream only returns entries that the replier accepted *)

(** Every entry had room after the ones before it. *)
Definition accepted {E} (add : list E → E → bool) (sent : list E) : Prop := ∀ before e after, sent = before ++ e :: after → add before e = true.
Lemma accepted_nil {E} (add : list E → E → bool) : accepted add [].
Proof. intros [|] ? ?; done. Qed.
Lemma accepted_snoc {E} (add : list E → E → bool) sent e : accepted add sent → add sent e = true → accepted add (sent ++ [e]).
Proof.
  intros Hs He before x after Heq. destruct after as [|y after _] using rev_ind.
  - apply app_inj_tail in Heq as [-> ->]. done.
  - rewrite app_comm_cons, app_assoc in Heq. apply app_inj_tail in Heq as [-> ->]. by eapply Hs.
Qed.
Lemma accepted_map {E F} (f : E → F) (add : list F → F → bool) sent : accepted (λ before e, add (map f before) (f e)) sent → accepted add (map f sent).
Proof.
  intros Hs before x after Heq. apply map_eq_app in Heq as (b & r & -> & <- & Hr). destruct r as [|e r]; [done|]. injection Hr as <- <-. by eapply Hs.
Qed.

Section stream.
Context `{crc : Crc32c} (prefix : Prefix) (cfg : CacheConfig) (mount_time : Z) (list_ordered : bool).
Context (add : list DirectoryEntryReaddir → DirectoryEntryReaddir → bool).
Definition accepts {S R} (r : S * list DirectoryEntryReaddir * R) : Prop := accepted add r.1.2.

Lemma loop_accepted n fuel dh offset plus sent : accepted add sent → returns accepts (readdir_loop prefix cfg mount_time add n fuel dh offset plus sent).
Proof.
  revert dh sent. induction n as [|n IH]; intros dh sent Hs; [done|]. cbn [readdir_loop]. apply returns_bind. intros [handle [e|[next|]]]; [done| |done].
  apply returns_bind. intros name. destruct (add sent _) eqn:Ha; [|apply returns_bind; intros ?; done].
  apply returns_bind. intros _. apply IH. by apply accepted_snoc.
Qed.
Lemma dot_accepted limit name ino dh offset sent k : accepted add sent → (∀ dh sent, accepted add sent → returns accepts (k dh sent)) →
  returns accepts (readdir_dot prefix cfg mount_time add limit name ino dh offset sent k).
Proof.
  intros Hs Hk. unfold readdir_dot. case_match; [|by apply Hk]. apply returns_bind. intros [e|lookup]; [done|].
  destruct (add sent _) eqn:Ha; [|done]. apply Hk. by apply accepted_snoc.
Qed.
Lemma repeat_accepted plus entries sent : accepted add sent → returns (accepted add) (repeat_entries add plus entries sent).
Proof.
  revert sent. induction entries as [|e entries IH]; intros sent Hs; [done|]. simpl. destruct (add sent e) eqn:Ha; [|done].
  apply returns_bind. intros _. apply IH. by apply accepted_snoc.
Qed.
Lemma readdir_accepted n fuel dhs parent fh offset plus :
  returns accepts (sb_readdir prefix cfg mount_time list_ordered add n fuel dhs parent fh offset plus).
Proof.
  unfold sb_readdir. destruct (dhs_handles dhs !! fh) as [dh|]; [|apply accepted_nil]. apply returns_bind_with with (Q := accepts).
  - unfold DirHandle_readdir. apply returns_bind. intros [e|dh']; [apply accepted_nil|]. case_match.
    + unfold readdir_repeat. destruct (dh_last_response dh') as [[last entries]|]; [|apply accepted_nil]. case_match; [|apply accepted_nil].
      apply returns_bind_with with (Q := accepted add); [apply repeat_accepted, accepted_nil|]. intros sent Hs. done.
    + unfold readdir_stream. apply dot_accepted; [apply accepted_nil|]. intros dh2 sent2 H2. apply dot_accepted; [done|]. intros. by apply loop_accepted.
  - intros [[dh' sent] r] Hs. done.
Qed.
End stream.

Lemma zdrop_app {A} (l k : list A) : zdrop (zlen l) (l ++ k) = k.
Proof. unfold zdrop, zlen. by rewrite Nat2Z.id, drop_app_length. Qed.
Lemma ztake_app {A} (l k : list A) : ztake (zlen l) (l ++ k) = l.
Proof. unfold ztake, zlen. by rewrite Nat2Z.id, take_app_length. Qed.

(** ** How the kernel reads a directory reply

    Entries are a structure and a name, padded to a multiple of 8. *)
Definition entry_size (len : Z) : Z := 8 * ((len + 7) / 8).
Lemma entry_size_bound len : len ≤ entry_size len < len + 8.
Proof. unfold entry_size. pose proof (Z.div_mod (len + 7) 8 ltac:(lia)). pose proof (Z.mod_pos_bound (len + 7) 8 ltac:(lia)). lia. Qed.
Lemma entsize_eq len : Z.ldiff (len + 8 - 1) (8 - 1) = entry_size len.
Proof.
  change (8 - 1) with (Z.ones 3). rewrite Z.ldiff_ones_r, Z.shiftl_mul_pow2, Z.shiftr_div_pow2 by done. unfold entry_size. change (2 ^ 3) with 8.
  rewrite Z.mul_comm. f_equal. f_equal. lia.
Qed.

Section entries.
Context {T : Type} `{abi : Abi T} `{laws : !AbiLaws T} (namelen : T → Z).
Definition struct_size : Z := Z.of_nat (size_of T).
Definition entry_bytes (x : T) (name : bytes) : bytes :=
  let len := struct_size + zlen name in as_bytes x ++ name ++ replicate (Z.to_nat (entry_size len - len)) x00.
Fixpoint parse_entries (fuel : nat) (data : bytes) : option (list (T * bytes)) :=
  match data, fuel with
  | [], _ => Some []
  | _, O => None
  | _, S fuel =>
      r ← from_prefix data;
      let size := entry_size (struct_size + namelen r.1) in
      if zlen data <? size then None
      else entries ← parse_entries fuel (zdrop size data); Some ((r.1, ztake (namelen r.1) r.2) :: entries)
  end.
Lemma as_bytes_zlen (x : T) : zlen (as_bytes x) = struct_size.
Proof using laws. unfold zlen, struct_size. by rewrite as_bytes_length. Qed.
Lemma entry_bytes_zlen x name : zlen (entry_bytes x name) = entry_size (struct_size + zlen name).
Proof using laws.
  unfold entry_bytes. rewrite !zlen_app, as_bytes_zlen. unfold zlen at 2. rewrite length_replicate.
  pose proof (entry_size_bound (struct_size + zlen name)). lia.
Qed.
Context (Hsize : 0 < struct_size).
Lemma parse_entries_bytes es fuel : (length es ≤ fuel)%nat → Forall (λ e, fits_all e.1 ∧ namelen e.1 = zlen e.2) es →
  parse_entries fuel (concat (map (λ e, entry_bytes e.1 e.2) es)) = Some es.
Proof using laws Hsize.
  revert es. induction fuel as [|fuel IH]; intros [|[x name] es] Hf Hes; simpl in Hf; try done; [lia|].
  apply Forall_cons_iff in Hes as [[Hx Hn] Hes]. cbn [fst snd map concat] in *. set (rest := concat _).
  pose proof (entry_size_bound (struct_size + zlen name)). pose proof (zlen_nonneg name). pose proof (zlen_nonneg rest).
  destruct (entry_bytes x name ++ rest) as [|b data] eqn:E.
  { apply app_nil in E as [E _]. apply (f_equal zlen) in E. rewrite entry_bytes_zlen in E. change (zlen []) with 0 in E. lia. }
  cbn [parse_entries]. rewrite <-E. clear E b data.
  assert (∃ pad, from_prefix (entry_bytes x name ++ rest) = Some (x, name ++ pad)) as [pad ->].
  { unfold entry_bytes. rewrite <-!app_assoc, from_prefix_bytes by done. by eexists. }
  cbn [mbind option_bind fst snd]. rewrite Hn, zlen_app, entry_bytes_zlen, (proj2 (Z.ltb_ge _ _)) by lia.
  rewrite <-(entry_bytes_zlen x), zdrop_app. unfold rest. rewrite IH by (done || lia). cbn [option_bind]. by rewrite ztake_app.
Qed.

(** ** The buffers of the repliers *)

Context {E : Type} (entry : E → T) (name : E → bytes).
Definition add_struct (l : EntListBuf) (e : E) : EntListBuf * outcome Empty_set bool :=
  match to_u32 (zlen (name e)) with
  | Ok _ => let '(l, full) := EntListBuf_push l (as_bytes (entry e)) (name e) in (l, Ok full)
  | _ => (l, Panic)
  end.
Definition struct_buffer (size : Z) (sent : list E) : EntListBuf := foldl (λ l e, (add_struct l e).1) (EntListBuf_new size) sent.
Definition struct_room (size : Z) (sent : list E) (e : E) : bool := match (add_struct (struct_buffer size sent) e).2 with Ok full => negb full | _ => false end.
Definition struct_bytes (sent : list E) : bytes := concat (map (λ e, entry_bytes (entry e) (name e)) sent).

Lemma push_struct l e : EntListBuf_push l (as_bytes (entry e)) (name e) =
  if el_max_size l <? zlen (el_buf l) + entry_size (struct_size + zlen (name e)) then (l, true)
  else ({| el_max_size := el_max_size l; el_buf := el_buf l ++ entry_bytes (entry e) (name e) |}, false).
Proof using laws. unfold EntListBuf_push, entry_bytes. by rewrite as_bytes_zlen, entsize_eq. Qed.
Lemma add_struct_max l e : el_max_size (add_struct l e).1 = el_max_size l.
Proof using laws. unfold add_struct. destruct (to_u32 _); [|done..]. rewrite push_struct. by destruct (_ <? _). Qed.
Lemma struct_buffer_max size sent : el_max_size (struct_buffer size sent) = size.
Proof using laws. unfold struct_buffer. induction sent as [|e sent IH] using rev_ind; [done|]. rewrite foldl_app. simpl. by rewrite add_struct_max. Qed.
Lemma struct_room_eq size sent e : zlen (name e) ≤ u32_max →
  struct_room size sent e = (zlen (el_buf (struct_buffer size sent)) + entry_size (struct_size + zlen (name e)) <=? size).
Proof using laws.
  intros Hn. unfold struct_room, add_struct, to_u32. rewrite (proj2 (Z.leb_le 0 _)), (proj2 (Z.leb_le _ u32_max)) by (apply zlen_nonneg || done).
  simpl. rewrite push_struct, struct_buffer_max, Z.leb_antisym. by destruct (_ <? _).
Qed.
Lemma struct_buffer_accepted size sent : 0 ≤ size → accepted (struct_room size) sent →
  el_buf (struct_buffer size sent) = struct_bytes sent ∧ zlen (struct_bytes sent) ≤ size.
Proof using laws.
  intros Hs. induction sent as [|e sent IH] using rev_ind; intros Ha; [done|].
  destruct IH as [Hb Hl]; [intros before x after ->; apply (Ha before x (after ++ [e])); by rewrite <-app_assoc|].
  specialize (Ha sent e [] eq_refl). unfold struct_room in Ha. unfold struct_buffer at 1. rewrite foldl_app. simpl. fold (struct_buffer size sent).
  unfold struct_bytes in *. rewrite map_app, concat_app. simpl. rewrite app_nil_r. unfold add_struct in *. destruct (to_u32 _); [|done..].
  rewrite push_struct, struct_buffer_max, Hb in *. destruct (Z.ltb_spec size (zlen (concat (map (λ e, entry_bytes (entry e) (name e)) sent)) + entry_size (struct_size + zlen (name e)))); [done|].
  simpl. split; [done|]. rewrite zlen_app, entry_bytes_zlen. lia.
Qed.
Lemma struct_bytes_parsed sent : Forall (λ e, fits_all (entry e) ∧ namelen (entry e) = zlen (name e)) sent →
  parse_entries (length (struct_bytes sent)) (struct_bytes sent) = Some (map (λ e, (entry e, name e)) sent).
Proof using laws Hsize.
  intros Hs. assert (struct_bytes sent = concat (map (λ e, entry_bytes e.1 e.2) (map (λ e, (entry e, name e)) sent))) as Heq by (unfold struct_bytes; by rewrite map_map).
  rewrite Heq at 2. apply parse_entries_bytes; [|by apply Forall_fmap]. rewrite length_map. clear Hs Heq. unfold struct_bytes.
  induction sent as [|e sent IH]; [done|]. cbn [map concat length]. rewrite length_app. pose proof (entry_bytes_zlen (entry e) (name e)) as Hl.
  pose proof (entry_size_bound (struct_size + zlen (name e))). pose proof (zlen_nonneg (name e)). unfold zlen in *. lia.
Qed.
End entries.

Definition entry_name (e : DirectoryEntry) : bytes := os_str_bytes (dent_name e).
Definition dirent_of (e : DirectoryEntry) : fuse_dirent :=
  {| dirent_ino := dent_ino e; dirent_off := dent_offset e; dirent_namelen := zlen (entry_name e);
     dirent_typ := Z.shiftr (mode_from_kind_and_perm (FileType_from (fa_kind (dent_attr e))) 0) 12 |}.
Definition direntplus_of (e : DirectoryEntry) : fuse_direntplus :=
  direntplus {| dep_generation := dent_generation e; dep_offset := dent_offset e; dep_name := entry_name e; dep_entry_valid := dent_ttl e;
                dep_attr := fuse_attr_from_attr (dent_attr e); dep_attr_valid := dent_ttl e |} (zlen (entry_name e)).

Lemma add_entry_struct l e : add_entry l e = add_struct dirent_of entry_name l e.
Proof. unfold add_entry, ReplyDirectory_add, DirEntList_push, add_struct, to_u32. cbn [de_ent_name]. fold (entry_name e). by destruct (_ && _). Qed.
Lemma add_entry_plus_struct l e : add_entry_plus l e = add_struct direntplus_of entry_name l e.
Proof. unfold add_entry_plus, ReplyDirectoryPlus_add, DirEntPlusList_push, add_struct, to_u32. cbn [dep_name]. fold (entry_name e). by destruct (_ && _). Qed.
Section repliers.
Context {T : Type} `{abi : Abi T} (add : EntListBuf → DirectoryEntry → EntListBuf * outcome Empty_set bool) (entry : DirectoryEntry → T).
Context (Hadd : ∀ l e, add l e = add_struct entry entry_name l e).
Lemma reply_buffer_struct size sent : reply_buffer add size sent = struct_buffer entry entry_name size sent.
Proof using Hadd.
  unfold reply_buffer, struct_buffer. induction sent as [|e sent IH] using rev_ind; [done|]. rewrite !foldl_app. simpl. by rewrite IH, Hadd.
Qed.
Lemma reply_room_struct size sent e : reply_room add size sent e = struct_room entry entry_name size sent e.
Proof using Hadd. unfold reply_room, struct_room. by rewrite reply_buffer_struct, Hadd. Qed.

(** What the kernel finds in a reply, and when an entry has no room *)
Context `{laws : !AbiLaws T} (namelen : T → Z) (Hsize : 0 < struct_size (T := T)) (Hname : ∀ e, namelen (entry e) = zlen (entry_name e)).
Definition reads_as (size : Z) (data : bytes) (sent : list DirectoryEntry) : Prop :=
  zlen data ≤ size ∧ parse_entries namelen (length data) data = Some (map (λ e, (entry e, entry_name e)) sent) ∧
  ∀ e, zlen (entry_name e) ≤ u32_max → reply_room add size sent e = (zlen data + entry_size (struct_size (T := T) + zlen (entry_name e)) <=? size).
Lemma reply_reads_as size sent : 0 ≤ size → accepted (reply_room add size) sent → Forall (λ e, fits_all (entry e)) sent →
  ∃ data, reply_directory (reply_buffer add size sent) = Ok (Some (ResponseData data)) ∧ reads_as size data sent.
Proof using Hadd laws Hsize Hname.
  intros Hs Ha Hf. assert (accepted (struct_room entry entry_name size) sent) as Ha'.
  { intros before e after ->. rewrite <-reply_room_struct. by apply (Ha before e after). }
  destruct (struct_buffer_accepted entry entry_name size sent Hs Ha') as [Hb Hl]. exists (struct_bytes entry entry_name sent).
  unfold reply_directory, new_directory. rewrite reply_buffer_struct, struct_buffer_max, Hb, (proj2 (Z.leb_le _ _)) by done.
  split; [done|]. split; [done|]. split.
  - apply struct_bytes_parsed; [done|]. eapply Forall_impl; [|exact Hf]. by intros e He.
  - intros e He. by rewrite reply_room_struct, struct_room_eq, Hb.
Qed.
End repliers.

(** C13. A directory reply is the listing.  When the file system lists a directory for a reply of [size] bytes, the handler answers with a buffer of
    at most [size] bytes that the kernel decodes to exactly the entries that were listed, in order, with their inode numbers,
    offsets, types and names and, for READDIRPLUS, their attributes and validity.  An entry is held back only when it does not fit
    into the rest of the buffer. *)
Theorem directory_reply_is_listing `{crc : Crc32c, up : FileUploader, pf : FilePrefetcher}
    prefix cfg mount_time list_ordered config s3 pages steps fs fs' parent fh offset size sent : 0 ≤ size →
  (readdir_impl prefix cfg mount_time list_ordered config s3 pages steps fs parent fh offset false (reply_room add_entry size) = (fs', Ok sent) →
   Forall (λ e, fits_all (dirent_of e)) sent →
   ∃ data, fuse_readdir prefix cfg mount_time list_ordered config s3 pages steps fs parent fh offset size = (fs', Ok (Some (ResponseData data))) ∧
     reads_as add_entry dirent_of dirent_namelen size data sent) ∧
  (readdir_impl prefix cfg mount_time list_ordered config s3 pages steps fs parent fh offset true (reply_room add_entry_plus size) = (fs', Ok sent) →
   Forall (λ e, fits_all (direntplus_of e)) sent →
   ∃ data, fuse_readdirplus prefix cfg mount_time list_ordered config s3 pages steps fs parent fh offset size = (fs', Ok (Some (ResponseData data))) ∧
     reads_as add_entry_plus direntplus_of (λ x, dirent_namelen (direntplus_dirent x)) size data sent).
Proof.
  intros Hs. assert (∀ plus room, readdir_impl prefix cfg mount_time list_ordered config s3 pages steps fs parent fh offset plus room = (fs', Ok sent) →
    accepted room sent) as Hacc.
  { intros plus room. unfold readdir_impl, metablock. set (entry := directory_entry config _). set (add := λ sent e, room (map entry sent) (entry e)).
    pose proof (readdir_accepted prefix cfg mount_time list_ordered add pages steps (fs_dirs fs) parent fh offset plus) as Hr.
    destruct (fs_run _ _ fs) as [fs1 [[[dirs sent1] [e|[]]]|e|]] eqn:Erun; simpl; try discriminate. intros [= _ <-].
    apply (fs_run_returns _ _ _ _ _ _ Hr) in Erun. by apply accepted_map. }
  split; intros Hrun Hf.
  - unfold fuse_readdir. rewrite Hrun. cbn [answer].
    destruct (reply_reads_as add_entry dirent_of add_entry_struct dirent_namelen ltac:(done) ltac:(done) size sent Hs (Hacc _ _ Hrun) Hf) as (data & -> & Hd). eauto.
  - unfold fuse_readdirplus. rewrite Hrun. cbn [answer].
    destruct (reply_reads_as add_entry_plus direntplus_of add_entry_plus_struct (λ x, dirent_namelen (direntplus_dirent x)) ltac:(done) ltac:(done) size sent Hs (Hacc _ _ Hrun) Hf)
      as (data & -> & Hd). eauto.
Qed.

(** The listing of the bucket with the file [a] *)
Module DirExample.
Import FsExample.
#[local] Instance example_uploader : FileUploader := HandleExample.uploader_with UploadExample.parts_client.
Definition opened_dir : S3Filesystem := (opendir (crc := sum_crc) Prefix_empty HandleExample.config true s3 fs 1).1.
Definition listed : S3Filesystem * outcome Error (list DirectoryEntry) :=
  readdir_impl (crc := sum_crc) Prefix_empty HandleExample.config 0 true fs_config s3 10 10 opened_dir 1 1 0 false (reply_room add_entry 4096).
Definition entries : list DirectoryEntry := match listed.2 with Ok sent => sent | _ => [] end.
Lemma listed_ok : listed = (listed.1, Ok entries).
Proof. rewrite (surjective_pairing listed) at 1. apply (f_equal (pair listed.1)). vm_cast_no_check (eq_refl listed.2). Qed.
Lemma entries_names : map entry_name entries = [[x2e]; [x2e; x2e]; [x61]].
Proof. vm_cast_no_check (eq_refl (map entry_name entries)). Qed.
Lemma entries_fit : Forall (λ e, fits_all (dirent_of e)) entries.
Proof.
  assert (Forall (λ l, Forall2 fits [U64; I64; U32; U32] l) (map (λ e, fields (dirent_of e)) entries)) as H.
  { assert (map (λ e, fields (dirent_of e)) entries = [[1; 1; 1; 4]; [1; 2; 2; 4]; [2; 3; 1; 8]]) as -> by (vm_cast_no_check (eq_refl (map (λ e, fields (dirent_of e)) entries))).
    repeat constructor; vm_compute; intuition congruence. }
  unfold fits_all. by apply (Forall_fmap (λ e, fields (dirent_of e))) in H.
Qed.
End DirExample.
Lemma directory_reply_is_listing_witness :
  ∃ fs' data, fuse_readdir (crc := sum_crc) (up := DirExample.example_uploader) Prefix_empty HandleExample.config 0 true FsExample.fs_config FsExample.s3 10 10 DirExample.opened_dir 1 1 0 4096
    = (fs', Ok (Some (ResponseData data))) ∧ reads_as add_entry dirent_of dirent_namelen 4096 data DirExample.entries.
Proof.
  destruct (directory_reply_is_listing (crc := sum_crc) (up := DirExample.example_uploader) Prefix_empty HandleExample.config 0 true FsExample.fs_config
    FsExample.s3 10 10 DirExample.opened_dir DirExample.listed.1 1 1 0 4096 DirExample.entries ltac:(done)) as [H _].
  destruct (H DirExample.listed_ok DirExample.entries_fit) as (data & Hr & Hd). exists DirExample.listed.1, data. split; [exact Hr|exact Hd].
Defined.
