(* ===== verification/FuseFsSpec.v ===== *)
(** * The file system over the FUSE protocol

    What an application writes and reads, as the bytes of requests and replies: the session, the interface of [fuse.rs] and the file
    system together. *)

From S2P Require Import Prelude Checksums Part PartQueue Upload NegativeCache Path HandlesMap Inode Superblock SuperblockInv SuperblockOps Readdir FileHandles FileHandlesSpec Filesystem FilesystemSpec BlockFormat FuseAbi FuseRequest FuseReply FuseDispatch FuseFs FuseWire FuseSpec.
Local Open Scope Z_scope.

(** ** Errors have numbers *)

Lemma inode_errno e : errno (Error_from_InodeError e) ≠ 0.
Proof. by destruct e. Qed.
Lemma prefetch_errno e : errno (Error_from_PrefetchReadError e) ≠ 0.
Proof. destruct e; simpl; repeat case_match; done. Qed.

Section session.
Context `{crc : Crc32c, env : IntegrityEnv, up : FileUploader, pf : FilePrefetcher, proc : ProcFs}.
Context (prefix : Prefix) (cfg : CacheConfig) (mount_time : Z) (list_ordered : bool) (config : S3FilesystemConfig).
Context (s3 : nat → ∀ c, response c).
Context (max_background_setting : option Z) (env_max_background env_congestion_threshold : option string).
Context (offset_date_time : Z → outcome Empty_set Z) (now_utc : Z) (pages steps : nat) (page_size : Z).
Instance the_filesystem : FuseDispatch.Filesystem S3Filesystem :=
  S3FuseFilesystem prefix cfg mount_time list_ordered config s3 max_background_setting env_max_background env_congestion_threshold offset_date_time
    now_utc pages steps.
Implicit Types se : Session S3Filesystem.

Lemma metablock_errno {A} (p : prog A) fs fs' e : metablock prefix cfg s3 p fs = (fs', Err e) → errno e ≠ 0.
Proof. unfold metablock. destruct (fs_run _ _ _) as [fs1 [a|e1|]]; intros [= _ <-]. apply inode_errno. Qed.
Lemma read_errno fs fs' ino fh offset size e : read prefix cfg s3 fs ino fh offset size = (fs', Err e) → errno e ≠ 0.
Proof.
  unfold read, get_handle. case_bool_decide; [|by intros [= _ <-]]. destruct (fs_handles fs !! fh) as [h|]; [|done]. cbn [state_bind].
  destruct (h_state h) as [request flushed|u flushed]; [|by intros [= _ <-]].
  destruct (reactivate _ _ _ _ _ _ _ _ _) as [fs1 [[]|e1|]] eqn:Er; cbn [state_bind]; [| |done].
  - destruct (prefetch_read request (wrap64 offset) size) as [request' [data|e2|]]; [|intros [= _ <-]; apply prefetch_errno|done].
    destruct (ChecksummedBytes_into_bytes data); simpl; [done|by intros [= _ <-]|done].
  - intros [= _ <-]. revert Er. unfold reactivate. destruct flushed; [|done].
    destruct (metablock _ _ _ _ _) as [fs2 [valid|e2|]] eqn:Em; cbn [state_bind]; [destruct valid|..]; intros [= _ <-]; [done|by eapply metablock_errno].
Qed.

(** ** Numbers of handles *)

Lemma fs_run_next {A} call (p : prog A) fs : (∀ c fs, fs_next_handle (call c fs).1 = fs_next_handle fs) →
  fs_next_handle (fs_run call p fs).1 = fs_next_handle fs.
Proof.
  intros Hc. revert fs. induction p as [a|e| | |B act k IH|c k IH]; intros fs; simpl; try done.
  - destruct (act (fs_metablock fs)) as [sb [b|e|]]; [by rewrite IH|by rewrite IH|done].
  - specialize (Hc c fs). destruct (call c fs) as [fs1 [r|]]; simpl in *; [by rewrite IH|done].
Qed.
Lemma call_s3_next c fs : fs_next_handle (call_s3 s3 c fs).1 = fs_next_handle fs.
Proof. by destruct c. Qed.
Lemma fs_call_next c fs : fs_next_handle (fs_call prefix cfg s3 c fs).1 = fs_next_handle fs.
Proof.
  destruct c; try done. simpl. unfold wait_for_completion. destruct (fs_hooks fs !! hook) as [[fh [result|]]|]; try done.
  destruct (fs_handles fs !! fh) as [h|]; [|done]. destruct (h_state h) as [request flushed|u flushed]; [done|].
  pose proof (fs_run_next (call_s3 s3) (complete_pending_upload prefix cfg u (h_ino h) (h_location h) fh) fs call_s3_next) as Hn.
  by destruct (fs_run _ _ fs) as [fs1 [[u1 result]|e|]].
Qed.
Lemma metablock_next {A} (p : prog A) fs fs' r : metablock prefix cfg s3 p fs = (fs', r) → fs_next_handle fs' = fs_next_handle fs.
Proof.
  unfold metablock. pose proof (fs_run_next (fs_call prefix cfg s3) p fs fs_call_next) as Hn. destruct (fs_run _ p fs) as [fs1 res]. intros [= <- _]. done.
Qed.
Lemma with_upload_next {A} fs h fh flushed flushed' (p : prog (UploadState * (Error + A))) :
  fs_next_handle (with_upload prefix cfg s3 fs h fh flushed flushed' p).1 = fs_next_handle fs.
Proof. unfold with_upload. destruct (metablock prefix cfg s3 p fs) as [fs1 [[u [e|a]]|e|]] eqn:Em; by apply metablock_next in Em. Qed.
Lemma reactivate_next fs h ino fh mode flushed fs' r : reactivate prefix cfg s3 fs h ino fh mode flushed = (fs', r) → fs_next_handle fs' = fs_next_handle fs.
Proof.
  unfold reactivate. destruct flushed; [|by intros [= <- _]].
  destruct (metablock _ _ _ _ fs) as [fs1 [valid|e|]] eqn:Em; cbn [state_bind]; [destruct valid|..]; intros [= <- _]; by apply metablock_next in Em.
Qed.
Lemma write_next fs ino fh offset data : fs_next_handle (write prefix cfg s3 fs ino fh offset data).1 = fs_next_handle fs.
Proof.
  unfold write. destruct (get_handle fs fh) as [h|e|]; try done. cbn [state_bind]. destruct (h_state h) as [request flushed|u flushed]; [done|].
  destruct (reactivate _ _ _ _ _ _ _ _ _) as [fs1 [[]|e|]] eqn:Er; apply reactivate_next in Er; cbn [state_bind]; [|done..]. by rewrite with_upload_next.
Qed.
Lemma writes_next file fs fh ws : fs_next_handle (writes prefix cfg s3 file fs fh ws).1 = fs_next_handle fs.
Proof.
  revert fs. induction ws as [|[offset data] ws IH]; intros fs; [done|]. simpl. pose proof (write_next fs (in_ino file) fh offset data) as Hw.
  destruct (write _ _ _ _ _ _ _ _) as [fs1 r]. specialize (IH fs1). destruct (writes _ _ _ _ _ _ _) as [fs2 rs]. simpl in *. congruence.
Qed.
Lemma flush_next fs ino fh pid : fs_next_handle (flush prefix cfg s3 fs ino fh pid).1 = fs_next_handle fs.
Proof.
  unfold flush. destruct (get_handle fs fh) as [h|e|]; try done. cbn [state_bind]. destruct (h_state h) as [request flushed|u flushed].
  - destruct (metablock _ _ _ _ fs) as [fs1 [[]|e|]] eqn:Em; by apply metablock_next in Em.
  - cbn [PendingUploadHook_new]. by rewrite with_upload_next.
Qed.
(** A new handle has the next number. *)
Lemma open_next fs ino flags pid fs' o : open prefix cfg mount_time config s3 fs ino flags pid = (fs', Ok o) →
  op_fh o = fs_next_handle fs ∧ fs_next_handle fs' = wadd (fs_next_handle fs) 1.
Proof.
  unfold open. case_match; [done|]. cbn [next_handle]. set (fs1 := {| fs_metablock := _ |}).
  destruct (metablock _ _ _ _ fs1) as [fs2 [[lookup mode]|e|]] eqn:Em; apply metablock_next in Em; cbn [state_bind]; [|done..].
  destruct (FileHandleState_new _ _ _ _ _ _ _) as [state|e|]; [|done..]. intros [= <- <-]. split; [done|exact Em].
Qed.

(** ** Requests on files *)

Inductive FileOp := FOpen (flags : Z) | FWrite (fh offset : Z) (data : bytes) | FFlush (fh : Z) | FRead (fh offset size : Z).
(** The requests that ask for an operation; fields that it does not name are free. *)
Definition asks (r : fuse_in_header * Operation) (f : FileOp) : Prop :=
  match r.2, f with
  | OpOpen x, FOpen flags => open_in_flags x = flags
  | OpWrite x data, FWrite fh offset data' => write_in_fh x = fh ∧ write_in_offset x = offset ∧ data = data'
  | OpFlush x, FFlush fh => flush_in_fh x = fh
  | OpRead x, FRead fh offset size => read_in_fh x = fh ∧ read_in_offset x = offset ∧ read_in_size x = size
  | _, _ => False
  end.
(** Requests of one process on one inode, as the kernel sends them *)
Definition sent_by (ino pid : Z) se (r : fuse_in_header * Operation) : Prop :=
  header_for r.1 r.2 ∧ op_ok r.1 r.2 ∧ in_header_nodeid r.1 = ino ∧ in_header_pid r.1 = pid ∧ denied se (in_header_uid r.1) = false.
(** A reply: its error and its data *)
Definition reply_to (r : fuse_in_header * Operation) (a : Z * bytes) : bytes := reply_message (in_header_unique r.1) a.1 a.2.
Definition open_reply (o : Opened) : Z * bytes := (0, as_bytes {| open_out_fh := op_fh o; open_out_open_flags := op_flags o; open_out_padding := 0 |}).
Definition write_reply (n : Z) : Z * bytes := (0, as_bytes {| write_out_size := n; write_out_padding := 0 |}).
Definition read_reply (r : outcome Error bytes) : Z * bytes := match r with Ok data => (0, data) | Err e => (- errno e, []) | Panic => (0, []) end.

Section requests.
Context (addr ino pid : Z) (se : Session S3Filesystem) (Haddr : addr `mod` 8 = 0) (Hready : ready se).
#[local] Set Default Proof Using "Type*".

Lemma serve_open r flags fs fs' o : sent_by ino pid se r → asks r (FOpen flags) →
  open prefix cfg mount_time config s3 fs ino (OpenFlags_from flags) pid = (fs', Ok o) →
  process_request page_size addr (se_with se fs) (encode_request r.1 r.2) = (se_with se fs', exchange (reply_to r (open_reply o)), None).
Proof.
  intros (Hh & Hok & Hino & Hpid & Hden) Ha Ho. destruct r as [h op]. destruct op; cbn [asks fst snd] in *; try done.
  subst flags. apply (serve page_size addr (se_with se fs) h _ fs' (new_open (op_fh o) (op_flags o))); try done. simpl. unfold fuse_open. by rewrite Hino, Hpid, Ho.
Qed.
Lemma serve_write r fh offset data fs fs' n : sent_by ino pid se r → asks r (FWrite fh offset data) →
  write prefix cfg s3 fs ino fh offset data = (fs', Ok n) →
  process_request page_size addr (se_with se fs) (encode_request r.1 r.2) = (se_with se fs', exchange (reply_to r (write_reply n)), None).
Proof.
  intros (Hh & Hok & Hino & _ & Hden) Ha Hw. destruct r as [h op]. destruct op; cbn [asks fst snd] in *; try done. destruct Ha as (<- & <- & ->).
  apply (serve page_size addr (se_with se fs) h _ fs' (new_write n)); try done. simpl. unfold fuse_write. by rewrite Hino, Hw.
Qed.
Lemma serve_flush r fh fs fs' : sent_by ino pid se r → asks r (FFlush fh) → flush prefix cfg s3 fs ino fh pid = (fs', Ok tt) →
  process_request page_size addr (se_with se fs) (encode_request r.1 r.2) = (se_with se fs', exchange (reply_to r (0, [])), None).
Proof.
  intros (Hh & Hok & Hino & Hpid & Hden) Ha Hw. destruct r as [h op]. destruct op; cbn [asks fst snd] in *; try done. subst fh.
  apply (serve page_size addr (se_with se fs) h _ fs' new_empty); try done. simpl. unfold fuse_flush. by rewrite Hino, Hpid, Hw.
Qed.
Lemma serve_read r fh offset size fs fs' res : sent_by ino pid se r → asks r (FRead fh offset size) →
  read prefix cfg s3 fs ino fh offset size = (fs', res) → res ≠ Panic → (∀ data, res = Ok data → zlen data < 2 ^ 31) →
  process_request page_size addr (se_with se fs) (encode_request r.1 r.2) = (se_with se fs', exchange (reply_to r (read_reply res)), None).
Proof.
  intros (Hh & Hok & Hino & _ & Hden) Ha Hr Hp Hlen. destruct r as [h op]. destruct op; cbn [asks fst snd] in *; try done. destruct Ha as (<- & <- & <-).
  destruct res as [data|e|]; [| |done].
  - apply (serve page_size addr (se_with se fs) h _ fs' (new_slice data)); try done; [|by apply Hlen]. simpl. unfold fuse_read. by rewrite Hino, Hr.
  - pose proof (read_errno _ _ _ _ _ _ _ Hr) as He. apply (serve page_size addr (se_with se fs) h _ fs' (new_error (errno e))); try done. simpl.
    unfold fuse_read. rewrite Hino, Hr. simpl. unfold fuse_error, reply_error, Errno_from_i32. by rewrite (proj2 (Z.eqb_neq _ _)).
Qed.

Context (file : Inode) (Hfile : in_ino file = ino).
Lemma serve_writes reqs fh ws fs fs' : Forall (sent_by ino pid se) reqs → Forall2 asks reqs (map (λ d, FWrite fh d.1 d.2) ws) →
  writes prefix cfg s3 file fs fh ws = (fs', map (λ d, Ok (zlen d.2)) ws) →
  conversation page_size addr (se_with se fs) reqs (zip_with reply_to reqs (map (λ d, write_reply (zlen d.2)) ws)) (se_with se fs').
Proof.
  revert reqs fs. induction ws as [|[offset data] ws IH]; intros reqs fs Hs Ha Hw; simpl in Ha, Hw.
  { apply Forall2_nil_inv_r in Ha as ->. simplify_eq. apply conversation_nil. }
  apply Forall2_cons_inv_r in Ha as (r & reqs' & Hr & Ha & ->). apply Forall_cons_iff in Hs as [Hr' Hs]. rewrite Hfile in Hw.
  destruct (write prefix cfg s3 fs ino fh offset data) as [fs1 res] eqn:Ew. destruct (writes prefix cfg s3 file fs1 fh ws) as [fs2 rest] eqn:Ews.
  injection Hw as -> -> ->. simpl. eapply conversation_cons; [by eapply serve_write|]. by apply IH.
Qed.
Lemma serve_reads reqs fh rs fs fs' res : Forall (sent_by ino pid se) reqs → Forall2 asks reqs (map (λ r, FRead fh r.1 r.2) rs) →
  reads prefix cfg s3 file fs fh rs = (fs', res) → Forall (λ r, r ≠ Panic ∧ ∀ data, r = Ok data → zlen data < 2 ^ 31) res →
  conversation page_size addr (se_with se fs) reqs (zip_with reply_to reqs (map read_reply res)) (se_with se fs').
Proof.
  revert reqs fs res. induction rs as [|[offset size] rs IH]; intros reqs fs res Hs Ha Hr Hres; simpl in Ha, Hr.
  { apply Forall2_nil_inv_r in Ha as ->. simplify_eq. apply conversation_nil. }
  apply Forall2_cons_inv_r in Ha as (r & reqs' & Har & Ha & ->). apply Forall_cons_iff in Hs as [Hr' Hs]. rewrite Hfile in Hr.
  destruct (read prefix cfg s3 fs ino fh offset size) as [fs1 res1] eqn:Er. destruct (reads prefix cfg s3 file fs1 fh rs) as [fs2 rest] eqn:Ers.
  injection Hr as <- <-. apply Forall_cons_iff in Hres as [[Hp Hl] Hres]. simpl. eapply conversation_cons; [by eapply serve_read|]. by apply IH.
Qed.
End requests.
End session.

(** The answer to a read: a range of the version, or an error *)
Definition read_answer (version : ETag → bytes) (etag : ETag) (request : Z * Z) (a : Z * bytes) : Prop :=
  let '(offset, size) := request in
  (a.1 = 0 ∧ a.2 = zslice offset (Z.min (offset + size) (zlen (version etag))) (version etag)) ∨ (a.1 ≠ 0 ∧ a.2 = []).
Lemma zslice_le {A} a b n (l : list A) : 0 ≤ n → b ≤ a + n → zlen (zslice a b l) ≤ n.
Proof. intros. unfold zslice, ztake, zlen. rewrite length_take. lia. Qed.
Lemma reads_errno `{crc : Crc32c, env : IntegrityEnv, up : FileUploader, pf : FilePrefetcher, proc : ProcFs} prefix cfg s3 file fs fh rs fs' res :
  reads prefix cfg s3 file fs fh rs = (fs', res) → Forall (λ r, ∀ e, r = Err e → errno e ≠ 0) res.
Proof.
  revert fs res. induction rs as [|[offset size] rs IH]; intros fs res Hr; simpl in Hr; [by simplify_eq|].
  destruct (read prefix cfg s3 fs (in_ino file) fh offset size) as [fs1 res1] eqn:Er. destruct (reads prefix cfg s3 file fs1 fh rs) as [fs2 rest] eqn:Ers.
  injection Hr as <- <-. constructor; [|by eapply IH]. intros e ->. by eapply read_errno.
Qed.
(** A read that went right has such an answer. *)
Lemma read_right_answers version etag rs res : Forall (λ r, ∀ e, r = Err e → errno e ≠ 0) res → Forall2 (read_right version etag) rs res →
  Forall (λ r : Z * Z, 0 ≤ r.1 < 2 ^ 63 ∧ 0 ≤ r.2 < 2 ^ 31) rs →
  Forall2 (read_answer version etag) rs (map read_reply res) ∧ Forall (λ r, r ≠ Panic ∧ ∀ data, r = Ok data → zlen data < 2 ^ 31) res.
Proof.
  intros Herr Hr Hrs. induction Hr as [|[offset size] r rs res Hr _ IH]; [by split; constructor|].
  apply Forall_cons_iff in Herr as [He Herr]. apply Forall_cons_iff in Hrs as [[_ Hsize] Hrs]. destruct (IH Herr Hrs) as [IH1 IH2]. simpl in *.
  destruct r as [data|e|]; [| |done]; split; (constructor; [|done]).
  - left. by split.
  - split; [done|]. intros data' [= <-]. subst data. eapply Z.le_lt_trans; [apply (zslice_le _ _ size)|]; lia.
  - right. simpl. specialize (He e eq_refl). split; [lia|done].
  - done.
Qed.

(** C9. A file that was written and closed is read back over the FUSE protocol.  Take a file that was just created in a directory of the
    bucket, in a consistent superblock, with atomic uploads, and a session that is mounted and initialized.  Let the kernel send, on behalf
    of a process with access, the encoded requests OPEN for writing, WRITE for any pieces that the upload accepts, FLUSH, with S3
    completing the upload, then OPEN for reading and any READs.  The session answers every request once, in order and with its
    number: with the handle, the number of bytes written, success, the handle, and for every READ, in any order, with the
    requested range of the version that was uploaded or with an error.  That version has the size and the CRC32C of the written data. *)
Theorem written_file_reads_back `{crc : Crc32c, env : IntegrityEnv, up : FileUploader, pf : FilePrefetcher, proc : ProcFs}
    version `{!FileUploaderLaws version, !FilePrefetcherLaws (λ id, version (oid_etag id))}
    prefix cfg mount_time list_ordered config s3 setting env1 env2 offset_date_time now_utc pages steps page_size
    (se : Session S3Filesystem) file dir name n st dst children writing flags rflags pid ws u u' result rs :
  let fs := se_filesystem se in let sb := fs_metablock fs in let data := concat (map snd ws) in
  ready se → is_u64 (fs_next_handle fs) → sb_inv prefix sb → prefix_wf prefix → tracked_dir sb (in_parent file) dir dst children writing → st_write_status dst = Remote →
  children !! name = Some file → sb_inodes sb !! in_ino file = Some (file, n) → sb_heap sb !! in_loc file = Some (file, st) →
  created st → idle (sb_open_handles sb !! in_ino file) → 0 ≤ cc_file_ttl cfg → fc_incremental_upload config = false →
  (let f := OpenFlags_from flags in o_wronly f || o_rdwr f = true ∧ o_sync f || o_dsync f = false) →
  (let f := OpenFlags_from rflags in o_rdwr f = false ∧ o_wronly f = false ∧ o_sync f || o_dsync f = false) →
  start_atomic_upload (fs_requests fs) (file_key prefix file) = Ok u → atomic_writes u ws = Some u' → atomic_complete u' = Ok result →
  data ≠ [] → zlen data < 2 ^ 62 → Forall (λ d, zlen d.2 < 2 ^ 32) ws → zlen (version (por_etag result)) < u64_modulus →
  s3_shows prefix s3 file (sb_now sb) (zlen data) (por_etag result) → Forall (λ r, 0 ≤ r.1 < 2 ^ 63 ∧ 0 ≤ r.2 < 2 ^ 31) rs →
  stored_as (version (por_etag result)) data ∧
  ∃ opened opened', let fh := op_fh opened in let fh' := op_fh opened' in is_u64 fh ∧ is_u64 fh' ∧
    ∀ addr reqs, addr `mod` 8 = 0 → Forall (sent_by (in_ino file) pid se) reqs →
      Forall2 asks reqs (FOpen flags :: map (λ d, FWrite fh d.1 d.2) ws ++ FFlush fh :: FOpen rflags :: map (λ r, FRead fh' r.1 r.2) rs) →
      ∃ answers se', Forall2 (read_answer version (por_etag result)) rs answers ∧
        conversation (H := S3FuseFilesystem prefix cfg mount_time list_ordered config s3 setting env1 env2 offset_date_time now_utc pages steps) page_size addr se reqs
          (zip_with reply_to reqs (open_reply opened :: map (λ d, write_reply (zlen d.2)) ws ++ (0, []) :: open_reply opened' :: answers)) se'.
Proof.
  intros fs sb data Hready H64 Hinv Hpre Hdir Hds Hch Hfile Hst Hc Hi Httl Hat [Hf1 Hf2] (Hr1 & Hr2 & Hr3) Hu Hws Hcomp Hne Hlen H32 Hv Hs3 Hrs.
  assert (Forall (λ r : Z * Z, 0 ≤ r.1 < 2 ^ 63 ∧ 0 ≤ r.2) rs) as Hrs' by (eapply Forall_impl; [|exact Hrs]; simpl; lia).
  destruct (close_to_open version prefix cfg mount_time config s3 fs file dir name n st dst children writing (OpenFlags_from flags) (OpenFlags_from rflags)
    pid pid ws u u' result rs Hinv Hpre Hdir Hds Hch Hfile Hst Hc Hi Httl Hat Hf1 Hf2 Hr1 Hr2 Hr3 Hu Hws Hcomp Hne Hlen H32 Hv Hs3 Hrs')
    as (Hsto & fs1 & o & fs2 & fs3 & fs4 & o' & fs5 & res & H1 & H2 & H3 & H4 & H5 & Hres).
  destruct (read_right_answers version (por_etag result) rs res (reads_errno _ _ _ _ _ _ _ _ _ H5) Hres Hrs) as [Hans Hok].
  split; [exact Hsto|]. exists o, o'. intros fh fh'.
  destruct (open_next _ _ _ _ _ _ _ _ _ _ _ H1) as [Ho1 Hn1]. destruct (open_next _ _ _ _ _ _ _ _ _ _ _ H4) as [Ho4 _].
  pose proof (writes_next prefix cfg s3 file fs1 (op_fh o) ws) as Hn2. rewrite H2 in Hn2. pose proof (flush_next prefix cfg s3 fs2 (in_ino file) (op_fh o) pid) as Hn3.
  rewrite H3 in Hn3. cbn [fst] in *. split; [unfold fh; by rewrite Ho1|]. split; [unfold fh'; rewrite Ho4, Hn3, Hn2, Hn1; apply wrap64_is_u64|].
  intros addr reqs Haddr Hsent Hasks. exists (map read_reply res), (se_with se fs5). split; [exact Hans|].
  apply Forall2_cons_inv_r in Hasks as (r1 & reqs1 & A1 & Hasks & ->). apply Forall2_app_inv_r in Hasks as (reqs2 & reqs3 & A2 & A3 & ->).
  apply Forall2_cons_inv_r in A3 as (r3 & reqs4 & A3 & Hasks & ->). apply Forall2_cons_inv_r in Hasks as (r4 & reqs5 & A4 & A5 & ->).
  apply Forall_cons_iff in Hsent as [S1 Hsent]. apply Forall_app in Hsent as [S2 Hsent]. apply Forall_cons_iff in Hsent as [S3 Hsent].
  apply Forall_cons_iff in Hsent as [S4 S5]. pose proof (Forall2_length A2) as L2. rewrite length_map in L2.
  assert (se = se_with se fs) as Hse by (by destruct se). rewrite Hse at 1. cbn [zip_with].
  eapply conversation_cons; [by eapply serve_open|]. rewrite zip_with_app by (by rewrite length_map).
  eapply conversation_app; [by eapply serve_writes|]. cbn [zip_with]. eapply conversation_cons; [by eapply serve_flush|].
  eapply conversation_cons; [by eapply serve_open|]. by eapply serve_reads.
Qed.

(** ** A concrete conversation *)
Module FuseExample.
Import UploadExample HandleExample FsExample.
#[local] Instance example_uploader : FileUploader := uploader_with parts_client.
#[export] Instance example_fuse : FuseDispatch.Filesystem S3Filesystem :=
  S3FuseFilesystem (crc := sum_crc) (env := validating) (proc := test_proc) Prefix_empty HandleExample.config 0 true fs_config s3 None None None (λ t, Ok t) 0 10 10.
Definition se : Session S3Filesystem :=
  {| se_filesystem := fs; se_allowed := Owner; se_session_owner := 1000; se_proto_major := 7; se_proto_minor := 28; se_initialized := true; se_destroyed := false |}.
Definition request (unique : Z) (op : Operation) : fuse_in_header * Operation := (kernel_header unique 2 1000 1000 7 op, op).
Definition open_request (flags : Z) : Operation := OpOpen {| open_in_flags := flags; open_in_unused := 0 |}.
Definition write_request (fh offset : Z) (data : bytes) : Operation :=
  OpWrite {| write_in_fh := fh; write_in_offset := offset; write_in_size := zlen data; write_in_write_flags := 0; write_in_lock_owner := 0;
             write_in_flags := 1; write_in_padding := 0 |} data.
Definition flush_request (fh : Z) : Operation := OpFlush {| flush_in_fh := fh; flush_in_unused := 0; flush_in_padding := 0; flush_in_lock_owner := 0 |}.
Definition read_request (fh offset size : Z) : Operation :=
  OpRead {| read_in_fh := fh; read_in_offset := offset; read_in_size := size; read_in_read_flags := 0; read_in_lock_owner := 0; read_in_flags := 0;
            read_in_padding := 0 |}.
Definition reqs (fh fh' : Z) : list (fuse_in_header * Operation) :=
  [request 1 (open_request 1); request 2 (write_request fh 0 [x01; x02]); request 3 (write_request fh 2 [x03]); request 4 (flush_request fh);
   request 5 (open_request 0); request 6 (read_request fh' 1 10); request 7 (read_request fh' 0 2)].
Lemma request_sent unique op : fits U64 unique → zlen (op_args op) < 2 ^ 32 - 40 → op_ok (kernel_header unique 2 1000 1000 7 op) op → sent_by 2 7 se (request unique op).
Proof. intros Hu Hl Hop. split; [by apply kernel_header_for|]. by repeat split. Qed.
Lemma u64_fits z : is_u64 z → fits U64 z.
Proof. done. Qed.
Ltac struct_fits := unfold fits_all; cbn [layout fields]; repeat (apply Forall2_cons; [assumption || done|]); apply Forall2_nil.
Lemma reqs_sent fh fh' : is_u64 fh → is_u64 fh' → Forall (sent_by 2 7 se) (reqs fh fh').
Proof.
  intros Hfh%u64_fits Hfh'%u64_fits. unfold reqs. repeat (apply Forall_cons; [apply request_sent; [done|done|]|]); [..|apply Forall_nil].
  all: try (split; [struct_fits|done]); struct_fits.
Qed.
End FuseExample.
Lemma written_file_reads_back_witness :
  ∃ opened opened' answers se',
    conversation (H := FuseExample.example_fuse) 4096 4096 FuseExample.se (FuseExample.reqs (op_fh opened) (op_fh opened'))
      (zip_with reply_to (FuseExample.reqs (op_fh opened) (op_fh opened')) ([open_reply opened; write_reply 2; write_reply 1; (0, []); open_reply opened'] ++ answers)) se' ∧
    Forall2 (read_answer UploadExample.version (por_etag FsExample.put_result)) [(1, 10); (0, 2)] answers.
Proof.
  destruct FsExample.fs_file as (st & dst & children & writing & Hd & Hds & Hch & Hst & Hc).
  assert (sb_inodes test_sb_a !! in_ino FsExample.the_file = Some (FsExample.the_file, 1)) as Hf by (by vm_compute).
  assert (idle (sb_open_handles test_sb_a !! in_ino FsExample.the_file)) as Hi by (by vm_compute).
  assert (Forall (λ d : Z * bytes, zlen d.2 < 2 ^ 32) FsExample.ws) as H32 by (by repeat constructor).
  assert (Forall (λ r : Z * Z, 0 ≤ r.1 < 2 ^ 63 ∧ 0 ≤ r.2 < 2 ^ 31) [(1, 10); (0, 2)]) as Hrs by (by repeat constructor).
  assert (0 ≤ cc_file_ttl HandleExample.config) as Httl by (by vm_compute).
  assert (concat (map snd FsExample.ws) ≠ []) as Hne by done.
  assert (start_atomic_upload (FileUploader := FuseExample.example_uploader) 0 (file_key Prefix_empty FsExample.the_file) = Ok FsExample.upload_start) as Hu by reflexivity.
  assert (atomic_writes (up := FuseExample.example_uploader) FsExample.upload_start FsExample.ws = Some FsExample.upload_end) as Hw by reflexivity.
  assert (atomic_complete (FileUploader := FuseExample.example_uploader) FsExample.upload_end = Ok FsExample.put_result) as Hcomp by (by vm_compute).
  assert (is_u64 1) as H1 by done.
  destruct (written_file_reads_back (crc := sum_crc) (env := validating) (up := FuseExample.example_uploader) (proc := HandleExample.test_proc) UploadExample.version
    (pf := FsExample.direct_prefetcher) (FileUploaderLaws0 := HandleExample.working_laws) (FilePrefetcherLaws0 := FsExample.direct_prefetcher_laws) Prefix_empty HandleExample.config 0 true FsExample.fs_config FsExample.s3 None None None (λ t, Ok t) 0 10 10 4096
    FuseExample.se FsExample.the_file test_root (str_of "a") 1 st dst children writing 1 0 7 FsExample.ws FsExample.upload_start FsExample.upload_end FsExample.put_result [(1, 10); (0, 2)]
    (conj eq_refl eq_refl) H1 test_sb_a_inv eq_refl Hd Hds Hch Hf Hst Hc Hi Httl eq_refl (conj eq_refl eq_refl) (conj eq_refl (conj eq_refl eq_refl)) Hu Hw Hcomp Hne
    eq_refl H32 eq_refl FsExample.fs_shows Hrs) as (_ & opened & opened' & H64 & H64' & Hconv).
  destruct (Hconv 4096 (FuseExample.reqs (op_fh opened) (op_fh opened')) eq_refl (FuseExample.reqs_sent _ _ H64 H64')) as (answers & se' & Hans & Hc').
  { repeat (apply Forall2_cons; [by repeat split|]). apply Forall2_nil. }
  exists opened, opened', answers, se'. split; [exact Hc'|exact Hans].
Defined.

Lemma dispatch_answers_once_witness :
  let req := {| ar_header := kernel_header 9 1 1000 1000 7 OpStatFs; ar_data := {| ai_addr := 0; ai_data := [] |} |} in
  ∃ se' messages, dispatch (Filesystem0 := FuseExample.example_fuse) 4096 FuseExample.se req = (se', messages, Ok tt) ∧ ∃ m, messages = [m] ∧ answers 9 m.
Proof.
  intros req. destruct (dispatch (Filesystem0 := FuseExample.example_fuse) 4096 FuseExample.se req) as [[se' messages] res] eqn:E.
  assert (res = Ok tt) as -> by (apply (f_equal snd) in E; exact (eq_sym E)).
  exists se', messages. split; [reflexivity|]. exact (dispatch_answers_once 4096 FuseExample.se req se' messages (Ok tt) E).
Defined.
Lemma barred_requests_change_nothing_witness :
  let op := OpLookup [x61] in
  ∃ events e, process_requests_loop (Filesystem0 := FuseExample.example_fuse) 4096 4096 FuseExample.se
      [ReceivedRequest (encode_request (kernel_header 3 1 1234 0 0 op) op); ReceivedError (Some 4)] = (FuseExample.se, events, e) ∧
    ∀ m, Sent m ∈ events → refusal m.
Proof.
  intros op. apply (barred_requests_change_nothing (H := FuseExample.example_fuse) 4096 4096 FuseExample.se). apply Forall_cons; [reflexivity|].
  apply Forall_cons; [reflexivity|apply Forall_nil].
Defined.
