(* ===== verification/FuseMount.v ===== *)
(** * Mount options

    [mountpoint-s3-fuser/src/mnt/mount_options.rs], the options and the mount point of a session ([fuse/config.rs]), and the access mode that follows
    from them ([fuse/session.rs]). *)

From S2P Require Import Prelude BlockFormat ClientChecksums FuseAbi FuseRequest FuseReply FuseDispatch.
Local Open Scope Z_scope.
Local Open Scope string_scope.

(** ** Options *)

Inductive MountOption :=
| FSName (name : string) | Subtype (subtype : string) | CUSTOM (value : string)
| AllowOther | AllowRoot | AutoUnmount | DefaultPermissions
| Dev | NoDev | Suid | NoSuid | RO | RW | Exec | NoExec | Atime | NoAtime | DirSync | Sync | Async.
#[export] Instance MountOption_eq : EqDecision MountOption.
Proof. solve_decision. Defined.

Definition named_options : list (string * MountOption) :=
  [("auto_unmount", AutoUnmount); ("allow_other", AllowOther); ("allow_root", AllowRoot); ("default_permissions", DefaultPermissions); ("dev", Dev);
   ("nodev", NoDev); ("suid", Suid); ("nosuid", NoSuid); ("ro", RO); ("rw", RW); ("exec", Exec); ("noexec", NoExec); ("atime", Atime);
   ("noatime", NoAtime); ("dirsync", DirSync); ("sync", Sync); ("async", Async)].
(** [starts_with] and what follows *)
Fixpoint strip_prefix (p s : string) : option string :=
  match p, s with
  | EmptyString, _ => Some s
  | String c p, String d s => if bool_decide (c = d) then strip_prefix p s else None
  | _, EmptyString => None
  end.
Fixpoint named (options : list (string * MountOption)) (s : string) : option MountOption :=
  match options with [] => None | (name, o) :: options => if bool_decide (name = s) then Some o else named options s end.
Definition MountOption_from_str (s : string) : MountOption :=
  match named named_options s, strip_prefix "fsname=" s, strip_prefix "subtype=" s with
  | Some o, _, _ => o
  | None, Some name, _ => FSName name
  | None, None, Some subtype => Subtype subtype
  | None, None, None => CUSTOM s
  end.
Definition option_to_string (option : MountOption) : string :=
  match option with
  | FSName name => "fsname=" +:+ name
  | Subtype subtype => "subtype=" +:+ subtype
  | CUSTOM value => value
  | AutoUnmount => "auto_unmount"
  | AllowOther => "allow_other"
  | AllowRoot => "allow_other"
  | DefaultPermissions => "default_permissions"
  | Dev => "dev" | NoDev => "nodev" | Suid => "suid" | NoSuid => "nosuid" | RO => "ro" | RW => "rw" | Exec => "exec" | NoExec => "noexec"
  | Atime => "atime" | NoAtime => "noatime" | DirSync => "dirsync" | Sync => "sync" | Async => "async"
  end.
Definition conflicts_with (option : MountOption) : list MountOption :=
  match option with
  | AllowOther => [AllowRoot] | AllowRoot => [AllowOther] | Dev => [NoDev] | NoDev => [Dev] | Suid => [NoSuid] | NoSuid => [Suid] | RO => [RW] | RW => [RO]
  | Exec => [NoExec] | NoExec => [Exec] | Atime => [NoAtime] | NoAtime => [Atime] | Sync => [Async] | Async => [Sync]
  | FSName _ | Subtype _ | CUSTOM _ | AutoUnmount | DefaultPermissions | DirSync => []
  end.
Definition contains (options : list MountOption) (o : MountOption) : bool := bool_decide (o ∈ options).
(** [Err] has the options in the intersection *)
Definition check_option_conflicts (options : list MountOption) : list MountOption + unit :=
  let intersection := filter (λ o, o ∈ options) (flat_map conflicts_with options) in
  match intersection with [] => inr tt | _ => inl intersection end.

(** [str::split(',')] *)
Fixpoint split_comma (s : string) : list string :=
  match s with
  | EmptyString => [""]
  | String c s =>
      if bool_decide (c = Ascii.ascii_of_nat 44) then "" :: split_comma s
      else match split_comma s with [] => [String c ""] | x :: xs => String c x :: xs end
  end.
Inductive ArgError := ReachedEnd | ExpectedOption (got : string).
Fixpoint parse_options_from_args (args : list string) : ArgError + list MountOption :=
  let parsed opt rest := match rest with inl e => inl e | inr out => inr (map MountOption_from_str (split_comma opt) ++ out)%list end in
  match args with
  | [] => inr []
  | x :: args =>
      if bool_decide (x = "-o") then match args with [] => inl ReachedEnd | opt :: args => parsed opt (parse_options_from_args args) end
      else match strip_prefix "-o" x with Some opt => parsed opt (parse_options_from_args args) | None => inl (ExpectedOption x) end
  end.

(** ** The session *)

Definition session_acl_from_mount_options (options : list MountOption) : SessionACL :=
  if contains options AllowRoot then RootAndOwner else if contains options AllowOther then AllowAll else Owner.
(** [Session::new]: what is passed to [Mount::new] *)
Definition mount_options (options : list MountOption) : list MountOption :=
  if contains options AutoUnmount && negb (contains options AllowRoot || contains options AllowOther) then (options ++ [AllowOther])%list else options.

Inductive MountPoint := MountDirectory (path : string) | FileDescriptor (fd : Z).
Record FuseOptions := { fo_read_only : bool; fo_auto_unmount : bool; fo_allow_root : bool; fo_allow_other : bool; fo_clone_fd : bool }.
Record FuseSessionConfig := { fsc_mount_point : MountPoint; fsc_options : list MountOption; fsc_max_threads : Z; fsc_clone_fuse_fd : bool }.
Definition option_if (b : bool) (o : MountOption) : list MountOption := if b then [o] else [].
(** The error has the options that do not go with a file descriptor. *)
Definition FuseSessionConfig_new (mount_point : MountPoint) (o : FuseOptions) (max_threads : Z) : list string + FuseSessionConfig :=
  let options := ([DefaultPermissions; FSName "mountpoint-s3"; NoAtime] ++ option_if (fo_read_only o) RO ++ option_if (fo_auto_unmount o) AutoUnmount
    ++ option_if (fo_allow_root o) AllowRoot ++ option_if (fo_allow_other o) AllowOther)%list in
  let passed := ((if fo_read_only o then ["--read-only"] else []) ++ (if fo_auto_unmount o then ["--auto-unmount"] else []))%list in
  match mount_point, passed with
  | FileDescriptor _, _ :: _ => inl passed
  | _, _ => inr {| fsc_mount_point := mount_point; fsc_options := options; fsc_max_threads := max_threads; fsc_clone_fuse_fd := fo_clone_fd o |}
  end.
(** The regular expression [^/dev/fd/(?<fd>\d+)$] and [parse::<i32>] *)
Fixpoint all_digits (s : string) : bool := match s with EmptyString => true | String c s => match digit_value c with Some _ => all_digits s | None => false end end.
Definition parse_fd_from_mount_point (path : string) : option Z :=
  rest ← strip_prefix "/dev/fd/" path;
  if negb (bool_decide (rest = "")) && all_digits rest then parse_uint (2 ^ 31 - 1) rest else None.

(** ** Properties *)

(** Options survive printing and parsing, but for [AllowRoot], which is passed on as [allow_other]; a custom option must not look like another. *)
Lemma option_round_trip o : o ≠ AllowRoot → (∀ v, o = CUSTOM v → MountOption_from_str v = CUSTOM v) → MountOption_from_str (option_to_string o) = o.
Proof.
  intros Hne Hc. destruct o; try done. by apply Hc.
Qed.
Lemma conflicts_symmetric o o' : o ∈ conflicts_with o' ↔ o' ∈ conflicts_with o.
Proof. destruct o, o'; simpl; rewrite ?list_elem_of_singleton; set_solver. Qed.
Lemma no_conflicts options : check_option_conflicts options = inr tt ↔ ∀ o o', o ∈ options → o' ∈ options → o' ∉ conflicts_with o.
Proof.
  unfold check_option_conflicts. split.
  - intros H o o' Ho Ho' Hc. destruct (filter _ _) as [|x l] eqn:E; [|done]. assert (o' ∈ filter (λ o, o ∈ options) (flat_map conflicts_with options)) as Hin.
    { apply list_elem_of_filter. split; [done|]. apply list_elem_of_In, in_flat_map. exists o. split; by apply list_elem_of_In. }
    rewrite E in Hin. by apply elem_of_nil in Hin.
  - intros H. destruct (filter _ _) as [|x l] eqn:E; [done|]. exfalso. assert (x ∈ filter (λ o, o ∈ options) (flat_map conflicts_with options)) as Hin by (rewrite E; constructor).
    apply list_elem_of_filter in Hin as [Hx Hin]. apply list_elem_of_In, in_flat_map in Hin as (o & Ho & Hc). apply list_elem_of_In in Ho, Hc. by apply (H o x).
Qed.
(** Who may use a mount: the owner; root as well with [allow_root]; everybody with [allow_other] alone.  The access mode only depends on the options, also
    when [auto_unmount] makes the kernel let everybody in. *)
Lemma session_access mount_point o max_threads config uid {FS} (fs : FS) owner : FuseSessionConfig_new mount_point o max_threads = inr config →
  denied (Session_from_fd fs (session_acl_from_mount_options (fsc_options config)) owner) uid =
    negb ((uid =? owner)%Z || (fo_allow_root o && (uid =? 0)%Z) || (fo_allow_other o && negb (fo_allow_root o))).
Proof.
  intros Hc. assert (fsc_options config = [DefaultPermissions; FSName "mountpoint-s3"; NoAtime] ++ option_if (fo_read_only o) RO ++
    option_if (fo_auto_unmount o) AutoUnmount ++ option_if (fo_allow_root o) AllowRoot ++ option_if (fo_allow_other o) AllowOther)%list as ->.
  { unfold FuseSessionConfig_new in Hc. by destruct mount_point, (fo_read_only o), (fo_auto_unmount o); simplify_eq/=. }
  unfold denied. cbn [se_allowed se_session_owner Session_from_fd]. destruct o as [[] [] [] [] ?], (uid =? owner)%Z, (uid =? 0)%Z; reflexivity.
Qed.
