(* ===== verification/WorkerPool.v ===== *)
(** * The pool of worker threads

    [WorkerPool] of [fuse/session.rs]: threads that run the loop of the session and share two atomic counters.  A state has the
    program counter of every thread; a step is one atomic operation of one thread. *)

From S2P Require Import Prelude.
Local Open Scope Z_scope.

(** Who called [try_add_worker]: [WorkerPool::start], or a worker that received a request *)
Inductive Caller := Starter | Worker.
(** [Idle]: waiting for a request.  [Forgetting]: dispatching a FORGET, for which [before] and [after] return at once, so that the thread
    goes on counting as idle.  [TryAdd]: before [fetch_update] of [worker_count].  [Adding]: before [fetch_add] of [idle_worker_count].  [Spawning]: before
    [thread::Builder::spawn].  [Exited]: the loop ended, or the dispatch of a FORGET panicked, while the thread counted as idle.  [Panicked]:
    another handler panicked. *)
Inductive Thread :=
| Idle | Forgetting | TryAdd (caller : Caller) | Adding (caller : Caller) | Spawning (caller : Caller) | Busy | Exited | Panicked
| Started | StartFailed.

Record Pool := { max_workers : Z; worker_count : Z; idle_worker_count : Z; threads : list Thread; failed_spawns : Z }.
Implicit Types p : Pool.

(** What the caller does after [try_add_worker] *)
Definition added (caller : Caller) : Thread := match caller with Starter => Started | Worker => Busy end.
Definition not_added (caller : Caller) : Thread := match caller with Starter => StartFailed | Worker => Busy end.

Definition set_thread p (i : nat) (t : Thread) : Pool :=
  {| max_workers := max_workers p; worker_count := worker_count p; idle_worker_count := idle_worker_count p; threads := <[i := t]> (threads p);
     failed_spawns := failed_spawns p |}.
Definition with_idle p (idle : Z) : Pool :=
  {| max_workers := max_workers p; worker_count := worker_count p; idle_worker_count := idle; threads := threads p; failed_spawns := failed_spawns p |}.
(** [worker_count.fetch_update] *)
Definition fetch_update_worker_count p : option Pool :=
  if worker_count p <? max_workers p
  then Some {| max_workers := max_workers p; worker_count := wadd (worker_count p) 1; idle_worker_count := idle_worker_count p; threads := threads p;
               failed_spawns := failed_spawns p |}
  else None.
Definition spawned p : Pool :=
  {| max_workers := max_workers p; worker_count := worker_count p; idle_worker_count := idle_worker_count p; threads := threads p ++ [Idle];
     failed_spawns := failed_spawns p |}.
Definition spawn_failed p : Pool :=
  {| max_workers := max_workers p; worker_count := worker_count p; idle_worker_count := idle_worker_count p; threads := threads p;
     failed_spawns := failed_spawns p + 1 |}.

(** What happens to a thread: it receives a request, a FORGET or another one, it runs on, its [spawn] fails, its handler returns or
    panics, its loop ends *)
Inductive Event := Receive | ReceiveForget | Run | SpawnFails | Return | HandlerPanics | LoopEnds.
Definition step (i : nat) (event : Event) p : option Pool :=
  t ← threads p !! i;
  match t, event with
  | Idle, Receive =>
      let previous_idle_count := idle_worker_count p in
      let p := with_idle p (wsub previous_idle_count 1) in
      Some (set_thread p i (if previous_idle_count =? 1 then TryAdd Worker else Busy))
  | Idle, ReceiveForget => Some (set_thread p i Forgetting)
  | Forgetting, Return => Some (set_thread p i Idle)
  | Forgetting, HandlerPanics => Some (set_thread p i Exited)
  | TryAdd caller, Run =>
      match fetch_update_worker_count p with
      | Some p => Some (set_thread p i (Adding caller))
      | None => Some (set_thread p i (not_added caller))
      end
  | Adding caller, Run => Some (set_thread (with_idle p (wadd (idle_worker_count p) 1)) i (Spawning caller))
  | Spawning caller, Run => Some (spawned (set_thread p i (added caller)))
  | Spawning caller, SpawnFails => Some (spawn_failed (set_thread p i (not_added caller)))
  | Busy, Return => Some (set_thread (with_idle p (wadd (idle_worker_count p) 1)) i Idle)
  | Busy, HandlerPanics => Some (set_thread p i Panicked)
  | Idle, LoopEnds => Some (set_thread p i Exited)
  | _, _ => None
  end.
Definition pool_step p p' : Prop := ∃ i event, step i event p = Some p'.

(** [WorkerPool::start]; [max_workers] is positive. *)
Definition start (max : Z) : Pool :=
  {| max_workers := max; worker_count := 0; idle_worker_count := 0; threads := [TryAdd Starter]; failed_spawns := 0 |}.
Fixpoint run_steps (steps : list (nat * Event)) p : option Pool :=
  match steps with [] => Some p | (i, event) :: steps => p ← step i event p; run_steps steps p end.

Lemma run_steps_rtc steps p p' : run_steps steps p = Some p' → rtc pool_step p p'.
Proof.
  revert p. induction steps as [|[i event] steps IH]; intros p Hs; simpl in Hs; [by simplify_eq|].
  destruct (step i event p) as [p1|] eqn:E; [|done]. eapply rtc_l; [by exists i, event|by apply IH].
Qed.

(** ** Counting threads *)

Fixpoint count (f : Thread → bool) (ts : list Thread) : Z := match ts with [] => 0 | t :: ts => Z.b2z (f t) + count f ts end.
Definition is_idle (t : Thread) : bool := match t with Idle => true | _ => false end.
Definition is_forgetting (t : Thread) : bool := match t with Forgetting => true | _ => false end.
Definition is_panicked (t : Thread) : bool := match t with Panicked => true | _ => false end.
Definition is_exited (t : Thread) : bool := match t with Exited => true | _ => false end.
Definition is_spawning (t : Thread) : bool := match t with Spawning _ => true | _ => false end.
(** in [try_add_worker], before the new worker counts as idle *)
Definition is_adding (t : Thread) : bool := match t with TryAdd _ | Adding _ => true | _ => false end.
Definition has_counted (t : Thread) : bool := match t with Adding _ | Spawning _ => true | _ => false end.
(** a thread that was spawned as a worker, as opposed to the thread that starts the pool *)
Definition was_spawned (t : Thread) : bool :=
  match t with Started | StartFailed | TryAdd Starter | Adding Starter | Spawning Starter => false | _ => true end.
Definition spawned_workers p : Z := count was_spawned (threads p).
(** a worker that is still there *)
Definition is_worker (t : Thread) : bool := was_spawned t && negb (is_exited t || is_panicked t).
Definition workers p : Z := count is_worker (threads p).
Definition panicked p : Z := count is_panicked (threads p).
(** threads that count as idle and will never take a request: they ended while they did, or they were never spawned *)
Definition lost p : Z := count is_exited (threads p) + failed_spawns p.

Lemma count_nonneg f ts : 0 ≤ count f ts.
Proof. induction ts as [|t ts IH]; simpl; [done|]. destruct (f t); simpl; lia. Qed.
Lemma count_app f ts ts' : count f (ts ++ ts') = count f ts + count f ts'.
Proof. induction ts as [|t ts IH]; simpl; [done|]. lia. Qed.
Lemma count_insert f ts i t t' : ts !! i = Some t → count f (<[i := t']> ts) = count f ts - Z.b2z (f t) + Z.b2z (f t').
Proof. revert i. induction ts as [|u ts IH]; intros [|i] Hi; simplify_eq/=; [lia|]. rewrite (IH _ Hi). lia. Qed.
Lemma count_lookup f ts i t : ts !! i = Some t → Z.b2z (f t) ≤ count f ts.
Proof. revert i. induction ts as [|u ts IH]; intros [|i] Hi; simplify_eq/=; [pose proof (count_nonneg f ts); lia|]. specialize (IH _ Hi). destruct (f u); simpl; lia. Qed.
Lemma count_pos f ts : 0 < count f ts → ∃ t, t ∈ ts ∧ f t = true.
Proof.
  induction ts as [|t ts IH]; simpl; [lia|]. intros H. destruct (f t) eqn:E; [exists t; split; [constructor|done]|].
  destruct IH as (u & Hu & Hf); [simpl in H; lia|]. exists u. split; [by constructor|done].
Qed.

(** ** The invariant *)

Record pool_inv (p : Pool) : Prop := {
  pi_max : 0 < max_workers p < u64_modulus;
  pi_bound : worker_count p ≤ max_workers p;
  pi_failed : 0 ≤ failed_spawns p;
  (** every worker was counted before it was spawned *)
  pi_workers : worker_count p = spawned_workers p + count has_counted (threads p) + failed_spawns p;
  pi_idle : idle_worker_count p = count is_idle (threads p) + count is_forgetting (threads p) + count is_spawning (threads p) + lost p;
  (** no idle worker: the pool is full, or a thread is about to add one *)
  pi_grow : idle_worker_count p = 0 → worker_count p = max_workers p ∨ 0 < count is_adding (threads p);
}.

Lemma start_inv max : 0 < max < u64_modulus → pool_inv (start max).
Proof. intros ?. split; simpl; unfold spawned_workers, lost; simpl; try lia. Qed.

(** The counters never wrap. *)
Definition not_idle_yet (t : Thread) : bool := match t with Busy | Adding _ => true | _ => false end.
Lemma idle_le_count p : pool_inv p → 0 ≤ idle_worker_count p ∧ idle_worker_count p + count not_idle_yet (threads p) ≤ worker_count p.
Proof.
  intros [? ? ? Hw Hi _]. unfold spawned_workers, lost in *.
  assert (count is_idle (threads p) + count is_forgetting (threads p) + count is_spawning (threads p) + count is_exited (threads p) +
          count not_idle_yet (threads p) ≤ count was_spawned (threads p) + count has_counted (threads p)) as Hle.
  { clear. induction (threads p) as [|t ts IH]; simpl; [done|]. destruct t as [| |[]|[]|[]| | | | |]; simpl; lia. }
  pose proof (count_nonneg is_idle (threads p)). pose proof (count_nonneg is_forgetting (threads p)). pose proof (count_nonneg is_spawning (threads p)). pose proof (count_nonneg is_exited (threads p)). lia.
Qed.

Ltac count_threads Ht :=
  unfold spawned_workers, workers, panicked, lost in *; cbn [threads set_thread with_idle spawned spawn_failed worker_count idle_worker_count max_workers failed_spawns] in *;
  rewrite ?count_app, ?(count_insert _ _ _ _ _ Ht) in *;
  cbn [count is_idle is_forgetting is_exited is_panicked is_spawning is_adding has_counted is_worker was_spawned not_idle_yet added not_added
       andb orb negb Z.b2z] in *.
Ltac solve_pool_inv Ht := split; count_threads Ht; rewrite ?wadd_small, ?wsub_small in * by (unfold is_u64; lia); try lia.

Lemma worker_step_inv i event p p' : pool_inv p → step i event p = Some p' → pool_inv p'.
Proof.
  intros Hinv Hs. pose proof (idle_le_count p Hinv) as Hle. destruct Hinv as [Hmax Hb Hf Hw Hi Hg]. unfold step in Hs.
  destruct (threads p !! i) as [t|] eqn:Ht; [|done]. simpl in Hs.
  pose proof (count_lookup is_idle _ _ _ Ht) as Hc1. pose proof (count_lookup not_idle_yet _ _ _ Ht) as Hc2.
  pose proof (count_lookup is_adding _ _ _ Ht) as Hc3. pose proof (count_lookup is_spawning _ _ _ Ht) as Hc4.
  pose proof (count_nonneg is_exited (threads p)) as Hc5. pose proof (count_lookup is_forgetting _ _ _ Ht) as Hc6. pose proof u64_modulus_eq.
  destruct t as [| |caller|caller|caller| | | | |], event; try discriminate Hs; simpl in Hc1, Hc2, Hc3, Hc4, Hc6.
  - apply (inj Some) in Hs as <-. destruct (Z.eqb_spec (idle_worker_count p) 1); solve_pool_inv Ht.
  - apply (inj Some) in Hs as <-. solve_pool_inv Ht.
  - apply (inj Some) in Hs as <-. solve_pool_inv Ht.
  - apply (inj Some) in Hs as <-. solve_pool_inv Ht.
  - apply (inj Some) in Hs as <-. solve_pool_inv Ht.
  - unfold fetch_update_worker_count in Hs. destruct (Z.ltb_spec (worker_count p) (max_workers p)); apply (inj Some) in Hs as <-;
      destruct caller; solve_pool_inv Ht.
  - apply (inj Some) in Hs as <-. destruct caller; solve_pool_inv Ht.
  - apply (inj Some) in Hs as <-. destruct caller; solve_pool_inv Ht.
  - apply (inj Some) in Hs as <-. destruct caller; solve_pool_inv Ht.
  - apply (inj Some) in Hs as <-. solve_pool_inv Ht.
  - apply (inj Some) in Hs as <-. solve_pool_inv Ht.
Qed.
Lemma worker_steps_inv p p' : rtc pool_step p p' → pool_inv p → pool_inv p'.
Proof. induction 1 as [|p p1 p2 (i & event & Hs) _ IH]; [done|]. intros Hp. apply IH. by eapply worker_step_inv. Qed.

(** ** The pool settles *)

Definition weight (t : Thread) : nat := match t with TryAdd _ => 3 | Adding _ => 2 | Spawning _ => 1 | _ => 0 end.
Definition pending p : nat := sum_list_with weight (threads p).
Lemma sum_insert (w : Thread → nat) ts i t t' : ts !! i = Some t → (sum_list_with w (<[i := t']> ts) + w t = sum_list_with w ts + w t')%nat.
Proof. revert i. induction ts as [|u ts IH]; intros [|i] Hi; simplify_eq/=; [lia|]. specialize (IH _ Hi). lia. Qed.
Lemma weight_pos p : (0 < pending p)%nat → ∃ i t, threads p !! i = Some t ∧ (0 < weight t)%nat.
Proof.
  unfold pending. generalize (threads p) as ts. intros ts. induction ts as [|t ts IH]; simpl; [lia|]. intros H.
  destruct (decide (0 < weight t)%nat); [by exists 0%nat, t|]. destruct IH as (i & u & Hi & Hu); [lia|]. by exists (S i), u.
Qed.
Lemma weight_zero p : pending p = 0%nat → count is_adding (threads p) = 0 ∧ count is_spawning (threads p) = 0 ∧ count has_counted (threads p) = 0.
Proof.
  unfold pending. induction (threads p) as [|t ts IH]; simpl; [done|]. intros H. destruct IH as (? & ? & ?); [lia|]. destruct t; simpl in *; lia.
Qed.
(** A thread in [try_add_worker] is never blocked. *)
Lemma run_progress p i t : threads p !! i = Some t → (0 < weight t)%nat →
  ∃ p', step i Run p = Some p' ∧ (pending p' < pending p)%nat ∧ lost p' = lost p ∧ panicked p' = panicked p ∧ max_workers p' = max_workers p.
Proof.
  intros Ht Hw. unfold step, fetch_update_worker_count, pending. rewrite Ht. simpl.
  destruct t as [| |caller|caller|caller| | | | |]; simpl in Hw; try lia; [destruct (Z.ltb_spec (worker_count p) (max_workers p))| |]; simpl;
    (eexists; split; [reflexivity|]); destruct caller; (split; [|split; [count_threads Ht; lia|split; [count_threads Ht; lia|reflexivity]]]);
    cbn [threads set_thread with_idle spawned added not_added]; rewrite ?sum_list_with_app;
    match goal with |- context [<[i := ?t']> _] => pose proof (sum_insert weight _ _ _ t' Ht) end; simpl in *; lia.
Qed.
Lemma settles p : ∃ steps p', Forall (λ s, s.2 = Run) steps ∧ run_steps steps p = Some p' ∧ pending p' = 0%nat ∧ lost p' = lost p ∧ panicked p' = panicked p ∧
  max_workers p' = max_workers p ∧ rtc pool_step p p'.
Proof.
  remember (pending p) as n eqn:En. revert p En. induction (lt_wf n) as [n _ IH]. intros p ->. destruct (decide (pending p = 0%nat)) as [H0|H0].
  { exists [], p. repeat split; [constructor|done|constructor]. }
  destruct (weight_pos p) as (i & t & Ht & Hw); [lia|]. destruct (run_progress p i t Ht Hw) as (p1 & Hs & Hlt & Hl & Hn & Hm).
  destruct (IH (pending p1) Hlt p1 eq_refl) as (steps & p' & Hr & Hrun & Hz & Hl' & Hn' & Hm' & Hrtc). exists ((i, Run) :: steps), p'.
  split; [by constructor|]. simpl. rewrite Hs. simpl. repeat split; [done|done|congruence|congruence|congruence|].
  eapply rtc_l; [by exists i, Run|done].
Qed.

Lemma workers_split p : workers p = spawned_workers p - count is_exited (threads p) - panicked p.
Proof.
  unfold workers, spawned_workers, panicked. induction (threads p) as [|t ts IH]; simpl; [done|]. unfold is_worker at 1.
  destruct t as [| |[]|[]|[]| | | | |]; simpl; lia.
Qed.
Lemma max_workers_step p p' : pool_step p p' → max_workers p' = max_workers p.
Proof.
  intros (i & event & Hs). unfold step, fetch_update_worker_count in Hs.
  destruct (threads p !! i) as [[]|]; destruct event; simpl in Hs; repeat case_match; by simplify_eq.
Qed.
Lemma max_workers_rtc p p' : rtc pool_step p p' → max_workers p' = max_workers p.
Proof. induction 1 as [|p p1 p2 Hs _ IH]; [done|]. by rewrite IH, (max_workers_step _ _ Hs). Qed.

(** C14. The pool of workers.  In every state that the pool reaches, there are at most [max_workers] workers, and the counter of idle
    workers is exact: it counts the workers that wait for a request, those that dispatch a FORGET, those about to be spawned and the
    lost ones, so that no counter wraps.  Threads that are adding a worker are never blocked; and when no worker has been lost (every
    [spawn] worked and no loop ended) and no handler has panicked, then once they are done a worker waits for a request, or all
    [max_workers] workers are there, or the workers that are not busy are dispatching FORGETs, for which the pool does not grow. *)
Theorem worker_pool_serves max p : 0 < max < u64_modulus → rtc pool_step (start max) p →
  workers p ≤ max ∧
  idle_worker_count p = count is_idle (threads p) + count is_forgetting (threads p) + count is_spawning (threads p) + lost p ∧
  ∃ steps p', Forall (λ s, s.2 = Run) steps ∧ run_steps steps p = Some p' ∧ pending p' = 0%nat ∧
    (lost p = 0 → panicked p = 0 → 0 < count is_idle (threads p') ∨ workers p' = max ∨ 0 < count is_forgetting (threads p')).
Proof.
  intros Hmax Hp. pose proof (max_workers_rtc _ _ Hp) as Hm. simpl in Hm.
  pose proof (worker_steps_inv _ _ Hp (start_inv _ Hmax)) as Hinv. destruct (settles p) as (steps & p' & Hr & Hrun & Hz & Hl & Hn & Hm' & Hrtc).
  pose proof (worker_steps_inv _ _ Hrtc Hinv) as [? ? Hf' Hw' Hi' Hg']. destruct Hinv as [? Hb Hf Hw Hi _].
  pose proof (workers_split p). pose proof (workers_split p'). pose proof (count_nonneg has_counted (threads p)).
  pose proof (count_nonneg is_exited (threads p)). assert (0 ≤ panicked p) by apply count_nonneg.
  split; [lia|]. split; [done|]. exists steps, p'. repeat split; [done..|]. intros Hl0 Hn0.
  destruct (weight_zero _ Hz) as (Ha & Hs & Hh). rewrite Ha, Hs, Hh in *. rewrite Hl, Hl0 in *. rewrite Hn, Hn0 in *.
  pose proof (count_nonneg is_idle (threads p')). pose proof (count_nonneg is_forgetting (threads p')).
  pose proof (count_nonneg is_exited (threads p')). unfold lost in *.
  destruct (decide (idle_worker_count p' = 0)) as [He|He]; [destruct (Hg' He); lia|lia].
Qed.
(** Two workers, of which one is busy and the other dispatches a FORGET, in a pool of three *)
Definition example_run : list (nat * Event) := [(0, Run); (0, Run); (0, Run); (1, Receive); (1, Run); (1, Run); (1, Run); (2, ReceiveForget)]%nat.
Lemma worker_pool_serves_witness : ∃ p, run_steps example_run (start 3) = Some p ∧ workers p = 2 ∧ idle_worker_count p = 1 ∧ workers p ≤ 3 ∧
  ∃ steps p', run_steps steps p = Some p' ∧ (0 < count is_idle (threads p') ∨ workers p' = 3 ∨ 0 < count is_forgetting (threads p')).
Proof.
  destruct (run_steps example_run (start 3)) as [p|] eqn:E; [|by vm_compute in E]. exists p.
  assert (rtc pool_step (start 3) p) as Hp by by apply (run_steps_rtc example_run).
  destruct (worker_pool_serves 3 p ltac:(rewrite u64_modulus_eq; lia) Hp) as (Hw & Hi & steps & p' & _ & Hrun & _ & Hend).
  vm_compute in E. injection E as <-. split; [done|]. split; [by vm_compute|]. split; [by vm_compute|]. split; [done|].
  exists steps, p'. split; [done|]. apply Hend; by vm_compute.
Defined.

(** C37. A worker that is lost stops the growth of the pool: when [thread::Builder::spawn] failed, or a loop ended while the thread counted as
    idle, and no thread is adding a worker, then no worker is ever added again, however few there are: the number of workers that were
    ever spawned never changes and the number of those that are still there never grows, because the counter of idle workers still
    counts the lost one, so that no worker ever finds itself to be the last idle one. *)
Theorem lost_worker_stops_growth max p p' : 0 < max < u64_modulus → rtc pool_step (start max) p → 0 < lost p → pending p = 0%nat →
  rtc pool_step p p' → spawned_workers p' = spawned_workers p ∧ workers p' ≤ workers p ∧ pending p' = 0%nat.
Proof.
  intros Hmax Hp Hl Hz Hrtc. pose proof (worker_steps_inv _ _ Hp (start_inv _ Hmax)) as Hinv. clear Hp.
  induction Hrtc as [p|p p1 p2 (i & event & Hs) _ IH]; [done|]. pose proof (worker_step_inv _ _ _ _ Hinv Hs) as Hinv1.
  destruct (weight_zero _ Hz) as (Ha & Hsp & Hh). destruct Hinv as [_ _ Hf _ Hi _].
  assert (spawned_workers p1 = spawned_workers p ∧ workers p1 ≤ workers p ∧ pending p1 = 0%nat ∧ 0 < lost p1) as (Hs1 & Hw1 & Hz1 & Hl1).
  { unfold step in Hs. destruct (threads p !! i) as [t|] eqn:Ht; [|done]. simpl in Hs. unfold pending in *. pose proof (count_lookup is_idle _ _ _ Ht).
    pose proof (count_nonneg is_forgetting (threads p)). pose proof (count_lookup is_exited _ _ _ Ht). pose proof (count_lookup is_adding _ _ _ Ht). pose proof (count_lookup is_spawning _ _ _ Ht).
    destruct t, event; try discriminate Hs; simpl in *; try lia; apply (inj Some) in Hs as <-;
      [destruct (Z.eqb_spec (idle_worker_count p) 1); [lia|]|..];
      match goal with |- context [set_thread _ i ?t'] => pose proof (sum_insert weight _ _ _ t' Ht) end; simpl in *; count_threads Ht;
      repeat split; lia. }
  destruct (IH Hl1 Hz1 Hinv1) as (-> & ? & ->). repeat split; [done|lia].
Qed.
Lemma lost_worker_stops_growth_witness : ∃ p, run_steps [(0, Run); (0, Run); (0, Run); (1, Receive); (1, Run); (1, Run); (1, SpawnFails)]%nat (start 4) = Some p ∧
  ∀ p', rtc pool_step p p' → spawned_workers p' = 1.
Proof.
  eexists. split; [reflexivity|]. intros p' Hp'. refine (proj1 (lost_worker_stops_growth 4 _ p' _ _ _ _ Hp')).
  - rewrite u64_modulus_eq; lia.
  - apply (run_steps_rtc [(0, Run); (0, Run); (0, Run); (1, Receive); (1, Run); (1, Run); (1, SpawnFails)]%nat). reflexivity.
  - vm_compute; done.
  - vm_compute; done.
Defined.
